(* ===== verification/_CoqProject ===== *)
-Q . S2P
Prelude.v
SortPkg.v
Float.v
Driver.v
StoreDB.v
CEngine.v
Store.v
Rpl.v
FileIO.v
FileTable.v
FileStore.v
Keys.v
Util.v
Core.v
Repl.v
Dump.v
Frame.v
Refine.v
Bits.v
KV.v
TList.v
Block.v
Coll.v
THash.v
TSet.v
TZSet.v
Migrate.v
Sort.v
Scan.v
Database.v
Ttl.v
Flush.v
System.v
Client.v
Commands.v
Server.v
Refuse.v
Session.v
Conn.v
Http.v
Transfer.v
Script.v
Snapshots.v
Cluster.v
Sync.v
