(* ===== verification/Prelude.v ===== *)
(** * LedisDB: a verified model of the database layer and of the server's requests

    LedisDB is a server that keeps Redis-like data (strings, lists, hashes, sets, sorted
    sets, with expiration times) in an ordered key-value engine.  The library
    src/ledis turns every operation into reads of the engine and one write batch; src/store
    wraps the engine; src/rpl keeps the log of committed batches that replicas replay; the
    commands of src/server check the arguments of a request, call the library and write
    the reply.  This development models these layers and proves what they promise.

    ** The program and the files that model it

    - Prelude.v: bytes, their order, integers of a width, big and little endian codecs,
      uvarints, outcomes (a Go function returns or panics), the iteration order of a Go map.
    - Driver.v: the engine interface of src/store/driver as a class with laws ([IDB],
      [IDBSpec]), the goleveldb adapter of src/store/goleveldb over the third party engine
      (class [LevelDB]), the interface of the replication log.
    - StoreDB.v: [store.DB] over any driver, with its statistics and the choice between
      commits that are synced and commits that are not (src/store: db.go, writebatch.go,
      snapshot.go, stat.go), and the registry of the drivers (src/store/driver/store.go).
    - CEngine.v: the adapter to LevelDB (src/store/leveldb) and the batches of the adapter to
      RocksDB (src/store/rocksdb/batch.go), over a heap of objects of the C library
      ([World]), which is a parameter ([CLibrary], [CLibrarySpec]).
    - Store.v: the iterators of src/store/iterator.go and the reads of src/store/db.go.
    - SortPkg.v, Float.v: what is used of the packages sort and of floating point numbers.
    - Rpl.v: src/rpl: the log records, the interface of a log store ([LogStore],
      [LogStoreSpec]), the store on goleveldb, [Replication] with its commit id.
    - FileIO.v, FileTable.v, FileStore.v: the log store on files (src/rpl/file_io.go,
      file_table.go, file_store.go): files as bytes, the tables of logs with their check and
      their repair, and the store on them, which implements [LogStore].
    - Keys.v: the layout of the store keys: the encoders and decoders of src/ledis (t_kv.go,
      t_list.go, t_hash.go, t_set.go, t_zset.go, t_ttl.go, ledis_db.go).
    - Util.v: the number codecs of src/ledis/util.go.
    - Core.v: the state of a [DB] handle ([St]), the monad of the operations ([M]), the
      batches and the commit (src/ledis/batch.go), the expiration primitives (t_ttl.go), the
      flush of the whole store (src/ledis/ledis.go), and the calculus the proofs use ([wp],
      [exec], [runs], tactic [wp_auto]).
    - Repl.v: src/ledis/replication.go: reading, storing and replaying logs, on a handle
      whose replicator is the [Replication] of Rpl.v.
    - Dump.v: src/ledis/dump.go: the dump of a store and its load.
    - Frame.v: which entries belong to which key, and that operations touch no others.
    - Refine.v: abstract data types ([Container]) and what it means to implement one
      ([ContainerSpec]), lifted to sequences of operations.
    - Coll.v: what hashes, sets and sorted sets share: members and a size entry.
    - Bits.v, KV.v: strings and bit operations (t_kv.go).
    - TList.v, THash.v, TSet.v, TZSet.v: the collection types.  Block.v: the blocking pops of
      t_list.go against what other clients do while one waits ([wake]).
    - Scan.v: scan.go.  Sort.v: sort.go.  Migrate.v: migrate.go, the dump and the restore of
      single keys.
    - Database.v: the invariant of a whole database ([wf_db]).
    - Ttl.v, Flush.v: the expiration checker and the flush operations.
    - System.v: all operations together: containment and reachability.
    - Client.v: the state of a connection (src/server/client.go), the handles of the
      databases ([Ledis.Select]), the RESP writer (client_resp.go).
    - Commands.v: every command of src/server/cmd_kv.go, cmd_list.go, cmd_hash.go,
      cmd_set.go, cmd_zset.go, cmd_scan.go and cmd_sort.go, those of cmd_server.go on
      connections and flushes, the dumps and restores of cmd_migrate.go, and the table
      [regCmds].
    - Server.v: [handleRequest], XSELECT, authentication, [perform].
    - Refuse.v, Session.v: what refused requests and whole sessions do.
    - Conn.v: the loop of a connection (client_resp.go) and the parser and writer of requests
      (src/vendor/github.com/siddontang/goredis/resp.go), on the bytes that arrive.
    - Http.v: the HTTP front end (client_http.go); the encoders are parameters.
    - Transfer.v: XMIGRATE and XMIGRATEDB with the locks of keys (cmd_migrate.go); the
      connection to the other server is a parameter with its faults.
    - Script.v: EVAL, EVALSHA and SCRIPT (cmd_script.go), the functions scripts call and the
      conversions between replies and Lua values (script.go); a script is what it computes
      between its calls ([lua_prog]).
    - Snapshots.v: the dump files a master keeps (src/server/snapshot.go).
    - Cluster.v: the commands of a master for its slaves (cmd_replication.go), the slaves it
      waits for, and the goroutine of a slave as a state machine (replication.go).
    - Sync.v: a slave whose connection is joined with the commands of a master, faults of
      the network included ([link_remote]), and the steps of the two ([cstep]).

    Every operation of the code is one definition of the same name (underscores where a
    name is taken).  A Go function on a [DB] handle is a value of [M A]: it takes the state
    and returns an outcome and the state it leaves.  [(value, err)] results are pairs with
    an optional error; errors are the package variables of the code ([error]).  Integers are
    of type [Z] and wrapped where the code's arithmetic wraps ([int64], [int32], ...).
    Locks are taken around the body and roll the batch back on every way out ([with_lock]).
    A command of the server is a value of [CM cmd_ret] on the client and the server; it
    returns an error or nil, or it still waits in a blocking pop.  Calls of the response
    writer are recorded in order ([c_resp]), and [resp_bytes] gives their bytes.

    ** What the theorems show

    - Keys.v: keys of different entries never collide, decoding inverts encoding, the score
      index sorts as the scores.
    - Store.v, Driver.v: a range iterator visits exactly the range; the adapter implements
      the interface.
    - StoreDB.v: when a commit is synced.  CEngine.v: the adapter is an engine on plain values
      that uses no freed pointer, and every handle points to an object of its kind.
    - Core.v: a commit is all or nothing, and a read only database is not written.
    - Rpl.v: a log store on goleveldb is a sequence of logs with consecutive ids, logs
      survive the stream between servers.  FileStore.v: so is the log store on files; its
      logs survive closing and opening, and a crash while a log is written.
      Repl.v: a replica converges to its master, and a node that crashed between logging and
      writing recovers, for every log store that meets the interface.  Dump.v: a dump is read
      back into any other store.
    - KV.v: each string operation on its whole domain, the error cases included.
    - TList.v, THash.v, TSet.v, TZSet.v: every sequence of operations refines a queue, a
      finite map, a finite set, a finite map ordered by score; the store operations compute
      the set algebra and the weighted aggregates.  Block.v: a blocked client gets what
      another one pushes.
    - Migrate.v: a dumped key is restored.  Sort.v: what a sort returns.
    - Scan.v: pages visit every key once.  Ttl.v: the checker deletes what is due and only
      that.  Flush.v: a flush terminates and leaves nothing.
    - System.v: the invariant [wf_db] holds in every state that guarded commands reach, and
      such commands return; no operation touches another database.
    - Server.v: every request gets one reply, which the client can tell from the others, and
      a request changes the selected database only.  Refuse.v: a request the server refuses
      changes nothing, and a client that has not authenticated neither sees nor changes
      data.  Session.v: what is set is got, byte for byte; RPOPLPUSH loses no element.
    - Conn.v: a session over a connection is the session of its commands; whatever bytes
      arrive, the loop ends, and without a password they achieve nothing.  Http.v: a path
      runs the command it names, inside one database.
    - Transfer.v: a key that is migrated is not lost, whatever the network does.  Script.v: a
      script that returns the reply of a command replies just that, and scripts respect the
      read only mode.
    - Snapshots.v: the latest snapshot is the last complete dump.  Sync.v: whatever the
      network does, a slave holds the contents its master had at some commit; when the
      network works it catches up, by logs or by a dump.
    - Theorems named [*_anomalies], [flushall_diverges], [sync_commit_starves],
      [empty_log_refuses] and [stale_time_entry] state where the code does not do what it
      means to; the guards of the refinement theorems ([list_pre], [hash_pre], [set_pre],
      [zset_pre], [guard]) exclude just these calls.

    ** Bounds and fuel

    Loops over an iterator are given the number of entries of its snapshot ([cur_bound]),
    which is enough because each round advances the iterator.  The loop of a
    connection is given one round more than it has bytes.  The repair of a table is given
    the size of its file: each round passes the head of a log.  The rounds of a flush are
    given the number of keys: each round that finds keys deletes at least one.  A slave
    catches up in two rounds more than there are commits.  Sizes of
    collections are assumed to stay below 2^61 so that 64 bit counters do not wrap.

    ** What is not modelled

    The storage engine and the other third party packages are parameters with their
    documented behaviour as laws, as are the rdb format, sort.Sort, regular expressions, the
    texts of the errors other packages make and the syntax of floating point numbers.
    Opening files, goroutines and channels and the configuration are outside: of the
    replication the steps are modelled without the goroutines that wait for logs and the
    waits between the rounds of a slave, with one slave that is one client of its master,
    and of the log store on files what the files hold, without syncs and errors of the file
    system.  The adapter to RocksDB repeats that to LevelDB with more options; of it only the
    batches, which differ, are modelled.  Of the server, requests are modelled from the
    bytes of a connection to the bytes of the replies, and from the path of an HTTP request
    to the value that is encoded; listeners, the list of open connections, the access log and
    the commands TIME, INFO and CONFIG are not.  The table [regCmds]
    has the commands of Commands.v; those of replication, migration and scripts have theorems
    of their own and are not called through it.  The Lua interpreter is a parameter.
    formatEventKey of event.go has no caller and is not modelled.  The concurrency of
    the code is that of its locks: an operation holds the lock of its batch, and each lock
    protects the entries of one data type; the model runs operations one after the other,
    and lets other clients in where a blocking pop waits. *)

From stdpp Require Export base list gmap sorting strings.
From Stdlib Require Export ZArith Lia.
Set Default Proof Using "Type".

(** * Bytes and byte strings

    A Go [[]byte] is a list of integers; a byte produced by the modelled code is in
    [0, 256).  User supplied keys and values are only compared, copied and stored, so the
    range is a hypothesis ([wf_bytes]) just where bits of a byte matter. *)

Declare Scope ledis_scope.
Delimit Scope ledis_scope with ledis.
Abbreviation byte := Z (only parsing).
Abbreviation bytes := (list Z).
Abbreviation len l := (Z.of_nat (length l)).
Open Scope Z_scope.

Definition is_byte (b : Z) : Prop := 0 <= b < 256.
Definition wf_bytes (v : bytes) : Prop := Forall is_byte v.

(** [bytes.Compare] of the Go library: lexicographic, a proper prefix is smaller. *)
Fixpoint bcmp (a b : bytes) : comparison :=
  match a, b with
  | [], [] => Eq
  | [], _ :: _ => Lt
  | _ :: _, [] => Gt
  | x :: a', y :: b' =>
      match x ?= y with
      | Eq => bcmp a' b'
      | c => c
      end
  end.

Definition ble (a b : bytes) : Prop := bcmp a b <> Gt.
Definition blt (a b : bytes) : Prop := bcmp a b = Lt.

(** * Machine integers *)

(** Conversion to an unsigned integer of [w] bits. *)
Definition uwrap (w z : Z) : Z := z mod 2 ^ w.

(** Conversion to a signed (two's complement) integer of [w] bits. *)
Definition swrap (w z : Z) : Z := (z + 2 ^ (w - 1)) mod 2 ^ w - 2 ^ (w - 1).

Abbreviation uint8 := (uwrap 8) (only parsing).
Abbreviation uint16 := (uwrap 16) (only parsing).
Abbreviation uint32 := (uwrap 32) (only parsing).
Abbreviation uint64 := (uwrap 64) (only parsing).
Abbreviation int32 := (swrap 32) (only parsing).
Abbreviation int64 := (swrap 64) (only parsing).

Definition in_i32 (z : Z) : Prop := - 2 ^ 31 <= z < 2 ^ 31.
Definition in_i64 (z : Z) : Prop := - 2 ^ 63 <= z < 2 ^ 63.

(** * Fixed width encodings of [encoding/binary] *)

(** Little endian, [n] bytes: [binary.LittleEndian.PutUint32/64]. *)
Fixpoint le_put (n : nat) (z : Z) : bytes :=
  match n with
  | O => []
  | S n' => (z mod 256) :: le_put n' (z / 256)
  end.

Fixpoint le_get (b : bytes) : Z :=
  match b with
  | [] => 0
  | x :: b' => x + 256 * le_get b'
  end.

(** Big endian, [n] bytes: [binary.BigEndian.PutUint16/32/64]. *)
Fixpoint be_put (n : nat) (z : Z) : bytes :=
  match n with
  | O => []
  | S n' => (z / 256 ^ Z.of_nat n') mod 256 :: be_put n' z
  end.

Definition be_get (b : bytes) : Z := fold_left (fun acc x => acc * 256 + x) b 0.

(** * Unsigned varints of [encoding/binary]

    [PutUvarint] takes at most ten steps on a 64-bit value, so ten units of fuel are
    enough ([uvarint_roundtrip]). *)
Fixpoint put_uvarint_aux (fuel : nat) (x : Z) : bytes :=
  match fuel with
  | O => []
  | S f => if x >=? 128 then (x mod 128 + 128) :: put_uvarint_aux f (x / 128) else [x]
  end.

Definition PutUvarint (x : Z) : bytes := put_uvarint_aux 10 x.

(** [binary.Uvarint]: the value and the number of bytes read; zero bytes read means the
    buffer is too small, a negative count means overflow of 64 bits.  [i] is the loop
    index, [x] the accumulator and [s] the shift. *)
Fixpoint uvarint_aux (buf : bytes) (i x s : Z) : Z * Z :=
  match buf with
  | [] => (0, 0)
  | b :: buf' =>
      if i =? 10 then (0, - (i + 1)) else
      if b <? 128 then
        if (i =? 9) && (b >? 1) then (0, - (i + 1))
        else (uwrap 64 (Z.lor x (Z.shiftl b s)), i + 1)
      else uvarint_aux buf' (i + 1) (uwrap 64 (Z.lor x (Z.shiftl (Z.land b 127) s))) (s + 7)
  end.

Definition Uvarint (buf : bytes) : Z * Z := uvarint_aux buf 0 0 0.

(** * Outcomes

    A Go call returns or panics (index or slice out of range, nil dereference). *)
Inductive outcome (A : Type) :=
  | Ret (a : A)
  | Panic.
Arguments Ret {A} a.
Arguments Panic {A}.

(** A call that reads and changes a state of type [S]. *)
Definition SM (S A : Type) : Type := S -> outcome A * S.

#[global] Instance SM_ret S : MRet (SM S) := fun A a s => (Ret a, s).
#[global] Instance SM_bind S : MBind (SM S) := fun A C k m s =>
  match m s with
  | (Ret a, s') => k a s'
  | (Panic, s') => (Panic, s')
  end.

Lemma bind_run {S A C} (p : SM S A) (k : A -> SM S C) (s s' : S) (x : A) : p s = (Ret x, s') -> (p ≫= k) s = k x s'.
Proof. intros E. unfold mbind, SM_bind. by rewrite E. Qed.

(** From the states of [Pre] the action [p] returns, in a state of [Post]. *)
Definition returns {S A} (Pre : S -> Prop) (p : SM S A) (Post : A -> S -> Prop) : Prop := forall s, Pre s -> exists x s', p s = (Ret x, s') /\ Post x s'.

Lemma returns_bind {S A A'} (Pre : S -> Prop) (p : SM S A) Mid (f : A -> SM S A') Post :
  returns Pre p Mid -> (forall x, returns (Mid x) (f x) Post) -> returns Pre (p ≫= f) Post.
Proof.
  intros Hp Hf s Hs. destruct (Hp s Hs) as (x & s1 & E1 & H1). destruct (Hf x s1 H1) as (y & s2 & E2 & H2). exists y, s2. split; [|done]. unfold mbind, SM_bind. by rewrite E1.
Qed.

Lemma returns_ret {S A} (Pre : S -> Prop) (x : A) (Post : A -> S -> Prop) : (forall s, Pre s -> Post x s) -> returns Pre (mret x) Post.
Proof. intros Hp s Hs. exists x, s. split; [done|by apply Hp]. Qed.

Lemma returns_weaken {S A} (Pre Pre' : S -> Prop) (p : SM S A) (Post Post' : A -> S -> Prop) :
  returns Pre p Post -> (forall s, Pre' s -> Pre s) -> (forall x s, Post x s -> Post' x s) -> returns Pre' p Post'.
Proof. intros Hp H1 H2 s Hs. destruct (Hp s (H1 s Hs)) as (x & s' & E & HP). exists x, s'. split; [done|by apply H2]. Qed.

Lemma returns_pure {S A} (Pre : S -> Prop) (R : Prop) (p : SM S A) Post : (R -> returns Pre p Post) -> returns (fun s => Pre s /\ R) p Post.
Proof. intros Hp s [Hs HR]. by apply Hp. Qed.

Lemma returns_assoc {S A A' A''} (Pre : S -> Prop) (p : SM S A) (h : A -> SM S A') (k : A' -> SM S A'') Post :
  returns Pre ((p ≫= h) ≫= k) Post -> returns Pre (p ≫= fun x => h x ≫= k) Post.
Proof. intros HR s Hs. destruct (HR s Hs) as (x & s' & E & HP). exists x, s'. split; [|done]. unfold mbind, SM_bind in *. destruct (p s) as [[y|] s1]; done. Qed.

Lemma returns_exists {S A B} (Pre : B -> S -> Prop) (p : SM S A) Post : (forall b, returns (Pre b) p Post) -> returns (fun s => exists b, Pre b s) p Post.
Proof. intros Hp s [b Hb]. by apply (Hp b). Qed.

(** [b[i]] and [b[i:j]] with the bounds checks of the language; a slice expression is
    checked against the length (the capacity of the slices the code reslices is their
    length). *)
Definition index_at (b : bytes) (i : Z) : outcome Z :=
  if i <? 0 then Panic
  else match b !! Z.to_nat i with Some x => Ret x | None => Panic end.

Definition slice {A} (b : list A) (i j : Z) : outcome (list A) :=
  if (0 <=? i) && (i <=? j) && (j <=? len b)
  then Ret (take (Z.to_nat (j - i)) (drop (Z.to_nat i) b))
  else Panic.

(** * Go maps *)

(** The order in which [range] visits the keys of a Go map: any order. *)
Class MapOrder := map_order : gset bytes -> list bytes.
Class MapOrderSpec (O : MapOrder) := map_order_perm X : map_order X ≡ₚ elements X.

(** An order for the executable instances. *)
#[global] Instance elements_order : MapOrder := elements.
#[global] Instance elements_order_spec : MapOrderSpec elements_order.
Proof. intros X. unfold map_order, elements_order. done. Qed.

(** * Automation *)

Create HintDb ledis discriminated.

(** Splits the booleans and comparisons of a goal into arithmetic facts. *)
Ltac zify_bool :=
  repeat match goal with
  | H : (_ && _)%bool = true |- _ => apply andb_true_iff in H as [? ?]
  | H : (_ || _)%bool = false |- _ => apply orb_false_iff in H as [? ?]
  | H : (_ =? _) = true |- _ => apply Z.eqb_eq in H
  | H : (_ =? _) = false |- _ => apply Z.eqb_neq in H
  | H : (_ <? _) = true |- _ => apply Z.ltb_lt in H
  | H : (_ <? _) = false |- _ => apply Z.ltb_ge in H
  | H : (_ <=? _) = true |- _ => apply Z.leb_le in H
  | H : (_ <=? _) = false |- _ => apply Z.leb_gt in H
  | H : (_ >? _) = true |- _ => rewrite Z.gtb_ltb in H
  | H : (_ >? _) = false |- _ => rewrite Z.gtb_ltb in H
  | H : (_ >=? _) = true |- _ => rewrite Z.geb_leb in H
  | H : (_ >=? _) = false |- _ => rewrite Z.geb_leb in H
  end.

(** Case analysis on the condition of the first [if] of the goal, with the condition
    kept as an arithmetic hypothesis. *)
Ltac case_if :=
  match goal with
  | |- context [if ?c then _ else _] =>
      let E := fresh "Hif" in destruct c eqn:E; zify_bool
  end.

Ltac case_if_in H :=
  match type of H with
  | context [if ?c then _ else _] =>
      let E := fresh "Hif" in destruct c eqn:E in H; zify_bool
  end.

(** A slice expression within bounds. *)
Lemma slice_some {A} (l : list A) i j :
  0 <= i -> i <= j -> j <= len l -> slice l i j = Ret (take (Z.to_nat (j - i)) (drop (Z.to_nat i) l)).
Proof.
  intros. unfold slice. by rewrite (proj2 (Z.leb_le 0 i)), (proj2 (Z.leb_le i j)), (proj2 (Z.leb_le j _)) by lia.
Qed.

(** * Lexicographic order *)

Lemma bcmp_refl a : bcmp a a = Eq.
Proof. induction a as [|x a IH]; simpl; [done|]. by rewrite Z.compare_refl. Qed.

Lemma bcmp_eq a b : bcmp a b = Eq <-> a = b.
Proof.
  split; [|intros ->; apply bcmp_refl].
  revert b; induction a as [|x a IH]; intros [|y b]; simpl; try done.
  destruct (Z.compare_spec x y); try done. intros ?. f_equal; auto.
Qed.

Lemma bcmp_antisym a b : bcmp b a = CompOpp (bcmp a b).
Proof.
  revert b; induction a as [|x a IH]; intros [|y b]; simpl; try done.
  rewrite (Z.compare_antisym x y). destruct (x ?= y); simpl; auto.
Qed.

Lemma bcmp_app p a b : bcmp (p ++ a) (p ++ b) = bcmp a b.
Proof. induction p; simpl; [done|]. by rewrite Z.compare_refl. Qed.

Lemma bcmp_lt_trans a b c : bcmp a b = Lt -> bcmp b c = Lt -> bcmp a c = Lt.
Proof.
  revert b c; induction a as [|x a IH]; intros [|y b] [|z c]; simpl; try done.
  destruct (Z.compare_spec x y), (Z.compare_spec y z); try done; subst.
  - rewrite Z.compare_refl. eauto.
  - intros _ _. by rewrite (proj2 (Z.compare_lt_iff _ _)).
  - intros _ _. by rewrite (proj2 (Z.compare_lt_iff _ _)).
  - intros _ _. by rewrite (proj2 (Z.compare_lt_iff _ _)) by lia.
Qed.

Lemma ble_alt a b : ble a b <-> blt a b \/ a = b.
Proof.
  unfold ble, blt. rewrite <- bcmp_eq. destruct (bcmp a b); naive_solver.
Qed.

Lemma blt_irrefl a : ~ blt a a.
Proof. unfold blt. by rewrite bcmp_refl. Qed.

Lemma blt_trans a b c : blt a b -> blt b c -> blt a c.
Proof. apply bcmp_lt_trans. Qed.

Lemma not_ble a b : ~ ble a b <-> blt b a.
Proof.
  unfold ble, blt. rewrite (bcmp_antisym a b).
  destruct (bcmp a b); simpl; intuition congruence.
Qed.

Lemma ble_blt_trans a b c : ble a b -> blt b c -> blt a c.
Proof. intros [?| ->]%ble_alt ?; eauto using blt_trans. Qed.

Lemma blt_ble_trans a b c : blt a b -> ble b c -> blt a c.
Proof. intros ? [?| ->]%ble_alt; eauto using blt_trans. Qed.

Lemma ble_app p a b : ble (p ++ a) (p ++ b) <-> ble a b.
Proof. unfold ble. by rewrite bcmp_app. Qed.

Lemma blt_app p a b : blt (p ++ a) (p ++ b) <-> blt a b.
Proof. unfold blt. by rewrite bcmp_app. Qed.

Lemma blt_cons x y a b : x < y -> blt (x :: a) (y :: b).
Proof. intros. unfold blt. simpl. by rewrite (proj2 (Z.compare_lt_iff _ _)). Qed.

#[global] Instance ble_dec : RelDecision ble.
Proof. intros a b. unfold ble, Decision. destruct (bcmp a b); (left; congruence) || (right; congruence). Defined.

#[global] Instance blt_dec : RelDecision blt.
Proof. intros a b. unfold blt, Decision. destruct (bcmp a b); (left; congruence) || (right; congruence). Defined.

Lemma blt_bool a b : bool_decide (blt a b) = match bcmp a b with Lt => true | _ => false end.
Proof.
  destruct (bcmp a b) eqn:E; [apply bool_decide_eq_false|apply bool_decide_eq_true|apply bool_decide_eq_false];
    unfold blt; congruence.
Qed.

Lemma ble_bool a b : bool_decide (ble a b) = match bcmp a b with Gt => false | _ => true end.
Proof.
  destruct (bcmp a b) eqn:E; [apply bool_decide_eq_true|apply bool_decide_eq_true|apply bool_decide_eq_false];
    unfold ble; congruence.
Qed.

#[global] Instance ble_preorder : PreOrder ble.
Proof.
  split.
  - intros a. by rewrite ble_alt; right.
  - intros a b c [?| ->]%ble_alt Hbc; [|done].
    apply ble_alt; left. eauto using blt_ble_trans.
Qed.

#[global] Instance ble_antisymm : AntiSymm (=) ble.
Proof.
  intros a b [Hab| ->]%ble_alt [Hba|]%ble_alt; try done.
  exfalso. apply (blt_irrefl a). eauto using blt_trans.
Qed.

#[global] Instance ble_total : Total ble.
Proof.
  intros a b. destruct (decide (ble a b)); [by left|right].
  apply ble_alt; left. by apply not_ble.
Qed.

(** The set of byte strings between [p ++ [c]] and [p ++ [c + 1]] is the set of the
    extensions of [p ++ [c]]: what every prefix range of the key layout relies on. *)
Lemma prefix_range p c x :
  ble (p ++ [c]) x /\ blt x (p ++ [c + 1]) <-> exists y, x = p ++ c :: y.
Proof.
  split.
  - intros [H1 H2]. revert x H1 H2; induction p as [|a p IH]; intros [|b x]; unfold ble, blt; simpl; try done.
    + intros H1 H2. destruct (Z.compare_spec c b); try done; [subst; eauto|].
      destruct (Z.compare_spec b (c + 1)); try done; [|lia].
      subst. by destruct x.
    + rewrite (Z.compare_antisym a b). destruct (Z.compare_spec a b); simpl; try done.
      subst. intros H1 H2. destruct (IH x) as [y ->]; eauto.
  - intros [y ->]. rewrite ble_app, blt_app. split.
    + unfold ble. simpl. rewrite Z.compare_refl. by destruct y.
    + apply blt_cons. lia.
Qed.

(** Between two extensions of [p] there are only extensions of [p]. *)
Lemma between_prefix p x y k : ble (p ++ x) k -> ble k (p ++ y) -> exists z, k = p ++ z.
Proof.
  revert k; induction p as [|c p IH]; intros k Ha Hb; [by exists k|]. destruct k as [|d k].
  { unfold ble in Ha. done. }
  unfold ble in Ha, Hb. simpl in Ha, Hb. rewrite (Z.compare_antisym c d) in Hb.
  destruct (Z.compare_spec c d) as [->|?|?]; [|done|done]. simpl in Hb.
  destruct (IH k Ha Hb) as [z ->]. by exists z.
Qed.

(** * Machine integers: range and identity on representable values *)

Lemma uwrap_range w z : 0 <= w -> 0 <= uwrap w z < 2 ^ w.
Proof. intros. apply Z.mod_pos_bound. lia. Qed.

Lemma uwrap_small w z : 0 <= z < 2 ^ w -> uwrap w z = z.
Proof. apply Z.mod_small. Qed.

Lemma pow_split w : 0 < w -> 2 ^ w = 2 * 2 ^ (w - 1).
Proof. intros. rewrite <- Z.pow_succ_r by lia. f_equal. lia. Qed.

Lemma swrap_range w z : 0 < w -> - 2 ^ (w - 1) <= swrap w z < 2 ^ (w - 1).
Proof.
  intros Hw. unfold swrap. pose proof (pow_split w Hw).
  pose proof (Z.mod_pos_bound (z + 2 ^ (w - 1)) (2 ^ w)). lia.
Qed.

Lemma swrap_small w z : 0 < w -> - 2 ^ (w - 1) <= z < 2 ^ (w - 1) -> swrap w z = z.
Proof.
  intros Hw ?. unfold swrap. pose proof (pow_split w Hw).
  rewrite Z.mod_small; lia.
Qed.

(** A signed value survives its trip through the unsigned type of its width. *)
Lemma swrap_uwrap w z : 0 < w -> swrap w (uwrap w z) = swrap w z.
Proof.
  intros Hw. unfold swrap, uwrap. by rewrite Zplus_mod_idemp_l.
Qed.

Lemma swrap_add w a b : swrap w (swrap w a + swrap w b) = swrap w (a + b).
Proof.
  unfold swrap. f_equal. set (h := 2 ^ (w - 1)). set (p := 2 ^ w).
  replace ((a + h) mod p - h + ((b + h) mod p - h) + h) with ((a + h) mod p + (b + h) mod p - h) by lia.
  rewrite <- Zminus_mod_idemp_l, <- Zplus_mod, Zminus_mod_idemp_l. f_equal. lia.
Qed.

Lemma int64_range z : in_i64 (int64 z).
Proof. unfold in_i64. apply (swrap_range 64 z). lia. Qed.

Lemma int64_small z : in_i64 z -> int64 z = z.
Proof. unfold in_i64. intros. apply swrap_small; lia. Qed.

Lemma int32_small z : in_i32 z -> int32 z = z.
Proof. unfold in_i32. intros. apply swrap_small; lia. Qed.

Lemma int64_uint64 z : in_i64 z -> int64 (uint64 z) = z.
Proof. intros. rewrite swrap_uwrap by lia. by apply int64_small. Qed.

Lemma int32_uint32 z : in_i32 z -> int32 (uint32 z) = z.
Proof. intros. rewrite swrap_uwrap by lia. by apply int32_small. Qed.

(** The unsigned image of a signed value keeps the order inside each sign. *)
Lemma uwrap_nonneg w z : 0 < w -> 0 <= z < 2 ^ (w - 1) -> uwrap w z = z.
Proof. intros Hw ?. pose proof (pow_split w Hw). apply uwrap_small. lia. Qed.

Lemma uwrap_neg w z : 0 < w -> - 2 ^ (w - 1) <= z < 0 -> uwrap w z = z + 2 ^ w.
Proof.
  intros Hw ?. pose proof (pow_split w Hw). unfold uwrap.
  rewrite <- (Z_mod_plus_full z 1), Z.mul_1_l. apply Z.mod_small. lia.
Qed.

(** * Fixed width encodings *)

Lemma le_put_length n z : length (le_put n z) = n.
Proof. revert z; induction n; intros; simpl; auto. Qed.

Lemma be_put_length n z : length (be_put n z) = n.
Proof. induction n; simpl; auto. Qed.

Lemma le_get_put n z : le_get (le_put n z) = z mod 256 ^ Z.of_nat n.
Proof.
  revert z; induction n as [|n IH]; intros z; simpl le_put; simpl le_get.
  - by rewrite Z.mod_1_r.
  - rewrite IH, Nat2Z.inj_succ, Z.pow_succ_r by lia.
    rewrite Z.rem_mul_r by lia. lia.
Qed.

Lemma be_get_app a b : be_get (a ++ b) = fold_left (fun acc x => acc * 256 + x) b (be_get a).
Proof. unfold be_get. apply fold_left_app. Qed.

Lemma be_fold_put n z acc :
  fold_left (fun acc x => acc * 256 + x) (be_put n z) acc
  = acc * 256 ^ Z.of_nat n + z mod 256 ^ Z.of_nat n.
Proof.
  revert acc; induction n as [|n IH]; intros acc; simpl be_put; simpl fold_left.
  - rewrite Z.mod_1_r. lia.
  - rewrite IH, Nat2Z.inj_succ, Z.pow_succ_r by lia.
    rewrite (Z.mul_comm 256). rewrite (Z.rem_mul_r z) by lia. lia.
Qed.

Lemma be_get_put n z : be_get (be_put n z) = z mod 256 ^ Z.of_nat n.
Proof. unfold be_get. rewrite be_fold_put. lia. Qed.

(** Big endian encodings of the same width compare like the numbers they hold. *)
Lemma bcmp_be_put n a b x y :
  0 <= a < 256 ^ Z.of_nat n -> 0 <= b < 256 ^ Z.of_nat n ->
  bcmp (be_put n a ++ x) (be_put n b ++ y) =
  match a ?= b with Eq => bcmp x y | c => c end.
Proof.
  intros Ha Hb.
  cut (forall n a b, bcmp (be_put n a ++ x) (be_put n b ++ y) =
     match a mod 256 ^ Z.of_nat n ?= b mod 256 ^ Z.of_nat n with
     | Eq => bcmp x y | c => c end).
  { intros H. by rewrite H, !Z.mod_small by lia. }
  clear. intros n a b. induction n as [|n IH]; simpl be_put; simpl app.
  { by rewrite !Z.mod_1_r. }
  simpl bcmp. rewrite IH, Nat2Z.inj_succ, Z.pow_succ_r by lia.
  rewrite (Z.mul_comm 256), !(Z.rem_mul_r _ (256 ^ Z.of_nat n) 256) by lia.
  set (P := 256 ^ Z.of_nat n). assert (0 < P) by (unfold P; lia).
  pose proof (Z.mod_pos_bound a P ltac:(lia)). pose proof (Z.mod_pos_bound b P ltac:(lia)).
  set (ra := a mod P) in *. set (rb := b mod P) in *.
  set (qa := (a / P) mod 256). set (qb := (b / P) mod 256). clearbody ra rb qa qb P.
  destruct (Z.compare_spec qa qb) as [E|E|E].
  - subst qb. destruct (Z.compare_spec ra rb) as [F|F|F];
      destruct (Z.compare_spec (ra + P * qa) (rb + P * qa)); try done; lia.
  - destruct (Z.compare_spec (ra + P * qa) (rb + P * qb)); try done; nia.
  - destruct (Z.compare_spec (ra + P * qa) (rb + P * qb)); try done; nia.
Qed.

Lemma be_put_inj n a b :
  0 <= a < 256 ^ Z.of_nat n -> 0 <= b < 256 ^ Z.of_nat n ->
  be_put n a = be_put n b -> a = b.
Proof.
  intros Ha Hb H. apply (f_equal be_get) in H. rewrite !be_get_put in H.
  by rewrite !Z.mod_small in H.
Qed.

(** * Varints *)

Lemma put_uvarint_nonempty x : 0 <= x -> PutUvarint x <> [].
Proof. unfold PutUvarint. simpl. by case_if. Qed.

Lemma shiftl_lor_add x b s : 0 <= s -> 0 <= x < 2 ^ s -> 0 <= b -> Z.lor x (Z.shiftl b s) = x + b * 2 ^ s.
Proof.
  intros Hs Hx Hb. pose proof (Z.add_lor_land x (Z.shiftl b s)) as E.
  assert (Z.land x (Z.shiftl b s) = 0) as Hz; [|rewrite Hz, Z.shiftl_mul_pow2 in E by lia; rewrite Z.shiftl_mul_pow2 by lia; lia].
  apply Z.bits_inj'. intros i Hi. rewrite Z.land_spec, Z.bits_0.
  destruct (Z.lt_ge_cases i s).
  - rewrite Z.shiftl_spec_low by lia. apply andb_false_r.
  - destruct (Z.eq_dec x 0) as [->|]; [by rewrite Z.bits_0|].
    rewrite (Z.bits_above_log2 x); [done|lia|].
    apply Z.log2_lt_pow2; [lia|]. pose proof (Z.pow_le_mono_r 2 s i). lia.
Qed.

Lemma uvarint_put_aux f i acc x rest :
  Z.of_nat f = 10 - i -> 0 <= i <= 9 -> 0 <= acc < 2 ^ (7 * i) ->
  0 <= x < 2 ^ (64 - 7 * i) ->
  uvarint_aux (put_uvarint_aux f x ++ rest) i acc (7 * i)
  = (acc + x * 2 ^ (7 * i), i + len (put_uvarint_aux f x)).
Proof.
  revert i acc x; induction f as [|f IH]; intros i acc x Hf Hi Hacc Hx; [lia|].
  assert (H64 : 2 ^ 64 = 2 ^ (64 - 7 * i) * 2 ^ (7 * i)) by (rewrite <- Z.pow_add_r by lia; f_equal; lia).
  cbn [put_uvarint_aux]. destruct (x >=? 128) eqn:E; zify_bool; cbn [app uvarint_aux].
  - assert (i < 9). { destruct (Z.eq_dec i 9) as [->|]; [|lia]. change (2 ^ (64 - 7 * 9)) with 2 in Hx. lia. }
    assert (H7 : 2 ^ (64 - 7 * i) = 128 * 2 ^ (64 - 7 * (i + 1))).
    { change 128 with (2 ^ 7). rewrite <- Z.pow_add_r by lia. f_equal. lia. }
    assert (H8 : 2 ^ (7 * (i + 1)) = 128 * 2 ^ (7 * i)).
    { change 128 with (2 ^ 7). rewrite <- Z.pow_add_r by lia. f_equal. lia. }
    pose proof (Z.mod_pos_bound x 128 ltac:(lia)). pose proof (Z.div_mod x 128 ltac:(lia)).
    rewrite (proj2 (Z.eqb_neq i 10)) by lia. rewrite (proj2 (Z.ltb_ge (x mod 128 + 128) 128)) by lia.
    assert (Z.land (x mod 128 + 128) 127 = x mod 128) as ->.
    { change 127 with (Z.ones 7). rewrite Z.land_ones by lia. change (2 ^ 7) with 128.
      rewrite Z.add_mod, Z_mod_same_full, Z.add_0_r, !Z.mod_mod by lia. done. }
    rewrite shiftl_lor_add by lia. replace (7 * i + 7) with (7 * (i + 1)) by lia.
    rewrite uwrap_small by nia. rewrite IH by nia.
    rewrite H8. cbn [length]. f_equal; [nia|lia].
  - rewrite (proj2 (Z.eqb_neq i 10)), (proj2 (Z.ltb_lt x 128)) by lia.
    assert ((i =? 9) && (x >? 1) = false)%bool as ->.
    { destruct (Z.eqb_spec i 9) as [->|]; [|done]. simpl. rewrite Z.gtb_ltb. apply Z.ltb_ge.
      change (2 ^ (64 - 7 * 9)) with 2 in Hx. lia. }
    rewrite shiftl_lor_add by lia. rewrite uwrap_small by nia. simpl. f_equal; lia.
Qed.

(** Decoding a varint that starts a buffer gives the value back and its length. *)
Lemma uvarint_roundtrip x rest :
  0 <= x < 2 ^ 64 -> Uvarint (PutUvarint x ++ rest) = (x, len (PutUvarint x)).
Proof.
  intros Hx. unfold Uvarint, PutUvarint. pose proof (uvarint_put_aux 10 0 0 x rest) as H.
  change (7 * 0) with 0 in H. rewrite H by lia. f_equal; lia.
Qed.

(** Varints are self-delimiting: two buffers that start with the varints of two numbers
    can only be equal when the numbers and the rests are. *)
Lemma PutUvarint_app_inj x y a b :
  0 <= x < 2 ^ 64 -> 0 <= y < 2 ^ 64 ->
  PutUvarint x ++ a = PutUvarint y ++ b -> x = y /\ a = b.
Proof.
  intros Hx Hy H. pose proof (uvarint_roundtrip x a Hx) as H1.
  rewrite H, uvarint_roundtrip in H1 by done. injection H1 as -> _.
  split; [done|]. by apply app_inv_head in H.
Qed.

#[global] Arguments be_put : simpl never.
#[global] Arguments le_put : simpl never.
#[global] Arguments uwrap : simpl never.
#[global] Arguments swrap : simpl never.
