(* ===== verification/SortPkg.v ===== *)
(** * The package sort

    [sort.Sort] permutes, and it sorts when the comparison is a strict weak order; it is not
    stable. *)

From S2P Require Import Prelude.

(** [sort.Sort] with the method [Less] of the slice. *)
Class SortPkg := sort_Sort : forall {A : Type}, (A -> A -> bool) -> list A -> list A.

(** What [Less] has to be. *)
Record weak_order {A} (less : A -> A -> bool) (l : list A) : Prop := {
  wo_irrefl : forall x, x ∈ l -> less x x = false;
  wo_trans : forall x y z, x ∈ l -> y ∈ l -> z ∈ l -> less x y = true -> less y z = true -> less x z = true;
  wo_incomp : forall x y z, x ∈ l -> y ∈ l -> z ∈ l -> less x y = true -> less x z = true \/ less z y = true
}.

Definition sorted_by {A} (less : A -> A -> bool) (l : list A) : Prop := StronglySorted (fun x y => less y x = false) l.

Lemma StronglySorted_impl {A} (R R' : A -> A -> Prop) (l : list A) :
  (forall x y, x ∈ l -> y ∈ l -> R x y -> R' x y) -> StronglySorted R l -> StronglySorted R' l.
Proof.
  intros H. induction 1 as [|x l HS IH HF]; constructor.
  - apply IH. intros y z Hy Hz. apply H; by constructor.
  - rewrite Forall_forall in *. intros y Hy. apply H; [constructor|by constructor|by apply HF].
Qed.

Lemma StronglySorted_filter {A} (R : A -> A -> Prop) (Q : A -> Prop) `{!forall x, Decision (Q x)} (l : list A) :
  StronglySorted R l -> StronglySorted R (filter Q l).
Proof.
  induction 1 as [|x l HS IH HF]; [constructor|]. rewrite filter_cons. case_decide; [|done]. constructor; [done|]. rewrite Forall_forall in *.
  intros y [_ Hy]%list_elem_of_filter. by apply HF.
Qed.

Lemma StronglySorted_NoDup {A} (R : A -> A -> Prop) (l : list A) : (forall x, ~ R x x) -> StronglySorted R l -> NoDup l.
Proof. intros HR. induction 1 as [|x l HS IH HF]; constructor; [|done]. rewrite Forall_forall in HF. intros Hx. by apply (HR x), HF. Qed.

Class SortPkgSpec (P : SortPkg) := {
  sort_perm {A} (less : A -> A -> bool) (l : list A) : sort_Sort less l ≡ₚ l;
  sort_sorted {A} (less : A -> A -> bool) (l : list A) : weak_order less l -> sorted_by less (sort_Sort less l)
}.

(** Insertion sort meets the interface. *)
Fixpoint ex_insert {A} (less : A -> A -> bool) (x : A) (l : list A) : list A :=
  match l with
  | [] => [x]
  | y :: l' => if less x y then x :: l else y :: ex_insert less x l'
  end.

Definition ex_sort : SortPkg := fun A less l => foldr (ex_insert less) [] l.

Lemma ex_insert_perm {A} (less : A -> A -> bool) x l : ex_insert less x l ≡ₚ x :: l.
Proof. induction l as [|y l IH]; [done|]. cbn [ex_insert]. destruct (less x y); [done|]. rewrite IH. by constructor. Qed.

Lemma ex_insert_sorted {A} (less : A -> A -> bool) L x l :
  weak_order less L -> x ∈ L -> l ⊆ L -> sorted_by less l -> sorted_by less (ex_insert less x l).
Proof.
  intros HO Hx HL HS. induction HS as [|y l HS IH HF]; cbn [ex_insert]; [by repeat constructor|].
  assert (Hy : y ∈ L) by (apply HL; constructor). assert (Hl : l ⊆ L) by (intros z Hz; apply HL; by constructor).
  destruct (less x y) eqn:E.
  - constructor; [by constructor|]. apply Forall_forall. intros z Hz. apply not_true_iff_false. intros Hzx.
    apply elem_of_cons in Hz as [->|Hz].
    + pose proof (wo_trans _ _ HO x y x Hx Hy Hx E Hzx) as H. by rewrite (wo_irrefl _ _ HO) in H.
    + rewrite Forall_forall in HF. specialize (HF z Hz). by rewrite (wo_trans _ _ HO z x y (Hl z Hz) Hx Hy Hzx E) in HF.
  - constructor; [by apply IH|]. apply Forall_forall. intros z Hz. rewrite ex_insert_perm in Hz. apply elem_of_cons in Hz as [->|Hz]; [done|].
    rewrite Forall_forall in HF. by apply HF.
Qed.

Lemma ex_sort_spec : SortPkgSpec ex_sort.
Proof.
  assert (HP : forall A (less : A -> A -> bool) l, sort_Sort (SortPkg := ex_sort) less l ≡ₚ l).
  { intros A less l. unfold sort_Sort, ex_sort. induction l as [|x l IH]; [done|]. cbn [foldr]. by rewrite ex_insert_perm, IH. }
  split; [exact HP|]. intros A less l HO. assert (H : forall l', l' ⊆ l -> sorted_by less (foldr (ex_insert less) [] l')).
  { induction l' as [|x l' IH]; intros Hs; [constructor|]. cbn [foldr]. eapply ex_insert_sorted; [exact HO|apply Hs; constructor| |].
    - intros y Hy. rewrite (HP A less l') in Hy. apply Hs. by constructor.
    - apply IH. intros y Hy. apply Hs. by constructor. }
  by apply H.
Qed.

(** A list that is sorted by a key without ties is left as it is. *)
Lemma sort_id {P : SortPkg} {PS : SortPkgSpec P} {A} (f : A -> Z) (l : list A) :
  StronglySorted (fun x y => f x < f y) l -> sort_Sort (fun x y => f x <? f y) l = l.
Proof.
  intros HS. set (l' := sort_Sort _ l). assert (HP : l' ≡ₚ l) by apply sort_perm.
  assert (HS' : sorted_by (fun x y => f x <? f y) l').
  { apply sort_sorted. split; [intros x _; apply Z.ltb_irrefl| |].
    - intros x y z _ _ _. rewrite !Z.ltb_lt. lia.
    - intros x y z _ _ _. rewrite !Z.ltb_lt. lia. }
  clearbody l'. revert l' HP HS'. induction HS as [|x l HS IH HF]; intros l' HP HS'; [by apply Permutation_nil_r in HP|].
  destruct l' as [|y l']; [by apply Permutation_nil in HP|]. apply StronglySorted_inv in HS' as [HS' HF'].
  assert (y = x) as ->.
  { assert (Hy : y ∈ x :: l) by (rewrite <- HP; constructor). apply elem_of_cons in Hy as [->|Hy]; [done|]. exfalso. rewrite Forall_forall in HF. specialize (HF y Hy).
    assert (Hx : x ∈ y :: l') by (rewrite HP; constructor). apply elem_of_cons in Hx as [->|Hx]; [lia|]. rewrite Forall_forall in HF'. specialize (HF' x Hx). cbv beta in HF'. apply Z.ltb_ge in HF'. lia. }
  f_equal. apply IH; [by apply Permutation_cons_inv in HP|done].
Qed.
