(* ===== verification/Float.v ===== *)
(** * Floating point numbers

    The [float64] of Go as the floats of IEEE 754 with 53 bits of precision, and its
    conversions from and to [int64].  An integer of at most 53 bits is converted without
    loss. *)

From Stdlib Require Import SpecFloat.
From S2P Require Import Prelude.

Definition float64 : Type := spec_float.

#[global] Instance float64_eq_dec : EqDecision float64.
Proof. unfold float64. solve_decision. Defined.

#[global] Instance float64_countable : Countable float64.
Proof.
  refine (inj_countable' (fun f : float64 => match f with
      | S754_zero s => inl (inl s) | S754_infinity s => inl (inr s) | S754_nan => inr None | S754_finite s m e => inr (Some (s, m, e)) end)
    (fun x : (bool + bool) + option (bool * positive * Z) => match x with
      | inl (inl s) => S754_zero s | inl (inr s) => S754_infinity s | inr None => S754_nan | inr (Some (s, m, e)) => S754_finite s m e end) _).
  by intros [].
Defined.

(** [float64(n)], rounded to the nearest float. *)
Definition float64_of_int64 (n : Z) : float64 := binary_normalize 53 1024 n 0 false.

(** [f1 < f2] and [f1 > f2] *)
Definition float64_lt (f1 f2 : float64) : bool := SFltb f1 f2.

(** What the conversion of a float outside the range of [int64] gives depends on the
    machine. *)
Class Int64Overflow := int64_overflow : float64 -> Z.

(** [int64(f)], rounded towards zero. *)
Definition int64_of_float64 {O : Int64Overflow} (f : float64) : Z :=
  match f with
  | S754_zero _ => 0
  | S754_finite s m e =>
      let n := if 0 <=? e then Z.pos m * 2 ^ e else Z.pos m / 2 ^ (- e) in
      let n := if s then - n else n in
      if (- 2 ^ 63 <=? n) && (n <? 2 ^ 63) then n else int64_overflow f
  | _ => int64_overflow f
  end.

Lemma digits_bounds p : 2 ^ (Z.pos (digits2_pos p) - 1) <= Z.pos p < 2 ^ Z.pos (digits2_pos p).
Proof.
  induction p as [p IH|p IH|]; cbn [digits2_pos]; [| |done]; rewrite Pos2Z.inj_succ.
  all: replace (Z.succ (Z.pos (digits2_pos p)) - 1) with (Z.succ (Z.pos (digits2_pos p) - 1)) by lia;
    rewrite !Z.pow_succ_r by lia; lia.
Qed.

Lemma digits_shift p k : Z.pos (digits2_pos (Pos.iter xO p k)) = Z.pos (digits2_pos p) + Z.pos k.
Proof.
  induction k as [|k IH] using Pos.peano_ind; [cbn; lia|]. rewrite Pos.iter_succ. cbn [digits2_pos]. lia.
Qed.

Lemma shift_value p k : Z.pos (Pos.iter xO p k) = Z.pos p * 2 ^ Z.pos k.
Proof.
  induction k as [|k IH] using Pos.peano_ind; [cbn; lia|]. rewrite Pos.iter_succ, Pos2Z.inj_succ, Z.pow_succ_r by lia. lia.
Qed.

(** A mantissa of 53 bits is not rounded. *)
Lemma round_exact sx p e : Z.pos (digits2_pos p) = 53 -> -1074 <= e <= 971 ->
  binary_round_aux 53 1024 sx (Z.pos p) e loc_Exact = S754_finite sx p e.
Proof.
  intros Hd He. assert (Hs : forall l, shr_fexp 53 1024 (Z.pos p) e l = (shr_record_of_loc (Z.pos p) l, e)).
  { intros l. unfold shr_fexp, fexp, emin. cbn [Zdigits2]. rewrite Hd. replace (53 + e - 53) with e by lia. rewrite Z.max_l by lia. by rewrite Z.sub_diag. }
  unfold binary_round_aux. rewrite Hs. cbn [shr_record_of_loc shr_m loc_of_shr_record round_nearest_even]. rewrite Hs. cbn [shr_record_of_loc shr_m].
  by rewrite (proj2 (Z.leb_le e _)) by lia.
Qed.

Lemma round_small sx p : Z.pos p < 2 ^ 53 -> exists q k, 0 <= k /\ Z.pos q = Z.pos p * 2 ^ k /\ binary_round 53 1024 sx p 0 = S754_finite sx q (- k).
Proof.
  intros Hp. pose proof (digits_bounds p) as [Hlo _]. assert (Hd : Z.pos (digits2_pos p) <= 53).
  { destruct (Z.le_gt_cases (Z.pos (digits2_pos p)) 53); [done|]. pose proof (Z.pow_le_mono_r 2 53 (Z.pos (digits2_pos p) - 1)). lia. }
  unfold binary_round, shl_align, fexp, emin. rewrite Z.add_0_r, Z.sub_0_r, Z.max_l by lia. destruct (Z.pos (digits2_pos p) - 53) as [|d|d] eqn:E; [|lia|].
  - exists p, 0. split; [done|]. split; [lia|]. apply round_exact; lia.
  - exists (Pos.iter xO p d), (Z.pos d). split; [lia|]. split; [apply shift_value|]. change (- Z.pos d) with (Z.neg d). apply round_exact; [rewrite digits_shift|]; lia.
Qed.

Lemma float64_exact {O : Int64Overflow} n : - 2 ^ 53 < n < 2 ^ 53 -> int64_of_float64 (float64_of_int64 n) = n.
Proof.
  intros Hn. assert (Hp : forall sx p, Z.pos p < 2 ^ 53 -> int64_of_float64 (binary_round 53 1024 sx p 0) = if sx then Z.neg p else Z.pos p).
  { intros sx p Hp. destruct (round_small sx p Hp) as (q & k & Hk & Hq & ->). unfold int64_of_float64. rewrite Hq.
    assert (E : (if 0 <=? - k then Z.pos p * 2 ^ k * 2 ^ (- k) else Z.pos p * 2 ^ k / 2 ^ (- - k)) = Z.pos p).
    { destruct (Z.leb_spec 0 (- k)); [replace k with 0 by lia; lia|]. rewrite Z.opp_involutive. apply Z.div_mul. lia. }
    rewrite E. destruct sx; (rewrite andb_true_intro by (split; [apply Z.leb_le|apply Z.ltb_lt]; lia)); done. }
  destruct n as [|p|p]; [done|exact (Hp false p ltac:(lia))|exact (Hp true p ltac:(lia))].
Qed.

(** * The order *)

Definition is_nan (f : float64) : bool := match f with S754_nan => true | _ => false end.

(** The rank of a number: floats are ordered as their ranks are. *)
Definition float_rank (f : float64) : bytes :=
  match f with
  | S754_infinity true => [-2; 0; 0]
  | S754_finite true m e => [-1; - e; Z.neg m]
  | S754_zero _ => [0; 0; 0]
  | S754_finite false m e => [1; e; Z.pos m]
  | S754_infinity false => [2; 0; 0]
  | S754_nan => []
  end.

Lemma float_lt_rank f1 f2 : is_nan f1 = false -> is_nan f2 = false -> float64_lt f1 f2 = bool_decide (blt (float_rank f1) (float_rank f2)).
Proof.
  intros H1 H2. rewrite blt_bool. unfold float64_lt, SFltb.
  destruct f1 as [[]|[]| |[] m1 e1], f2 as [[]|[]| |[] m2 e2]; try done; cbn [SFcompare float_rank bcmp].
  - change (-1 ?= -1) with Eq. cbv iota. rewrite Z.compare_opp, (Z.compare_antisym e1 e2). destruct (e1 ?= e2); [|done..].
    cbn [Z.compare CompOpp]. change (Pos.compare_cont Eq m1 m2) with (m1 ?= m2)%positive. by destruct (m1 ?= m2)%positive.
  - change (1 ?= 1) with Eq. cbv iota. destruct (e1 ?= e2); [|done..]. cbn [Z.compare]. change (Pos.compare_cont Eq m1 m2) with (m1 ?= m2)%positive. by destruct (m1 ?= m2)%positive.
Qed.

Lemma float_rank_length f : is_nan f = false -> length (float_rank f) = 3%nat.
Proof. by destruct f as [[]|[]| |[] m e]. Qed.

Lemma bcmp_app_length a1 a2 b1 b2 : length a1 = length a2 -> bcmp (a1 ++ b1) (a2 ++ b2) = match bcmp a1 a2 with Eq => bcmp b1 b2 | c => c end.
Proof.
  revert a2; induction a1 as [|x a1 IH]; intros [|y a2]; try done. simpl. intros [= H]. destruct (x ?= y); [|done..]. by apply IH.
Qed.
