(* ===== verification/Driver.v ===== *)
(** * The storage engine interface (src/store/driver, src/store/goleveldb)

    LedisDB reaches its storage engine through the interfaces [IDB], [IIterator] and
    [IWriteBatch] of src/store/driver/store.go.  This file states them as a class of
    operations ([IDB]) and a class of what the code above relies on ([IDBSpec]): an
    ordered finite map from byte strings to byte strings, atomic batches applied in order,
    iterators that walk a sorted snapshot.  The replication log, as src/ledis/batch.go uses
    it, is a second interface ([Replicator], [ReplicatorSpec]).

    [GoLevelDB] models the adapter of src/store/goleveldb over the third party engine
    (class [LevelDB], a parameter) and proves that it meets [IDBSpec] whenever the engine
    behaves as documented.  [MemLevelDB] is a concrete engine, a finite map with a fault
    switch, on which the witnesses of the development run. *)

From S2P Require Import Prelude.

(** ** Errors

    The package variables of src/ledis, the two failures of [strconv.ParseInt],
    [fmt.Errorf] messages and failures of the storage engine. *)
Inductive error :=
  | errKeySize | errValueSize | errHashFieldSize | errSetMemberSize | errZSetMemberSize
  | errExpireValue | errListIndex
  | ErrScoreMiss | ErrWriteInROnly | ErrRplInRDWR | ErrRplNotSupport
  | errIntNumber
  | errKVKey | errLMetaKey | errListKey | errListSeq | errHashKey | errHSizeKey
  | errSetKey | errSSizeKey | errZSizeKey | errZSetKey | errZScoreKey
  | errScoreOverflow | errInvalidAggregate | errInvalidWeightNum | errInvalidSrcKeyNum
  | errExpMetaKey | errExpTimeKey | errExpType | errDataType | errMetaKey | errInvalidEvent
  | ErrSyntax | ErrRange
  | ErrCommitIDBehind | ErrStoreLogID | ErrLogNotFound | ErrNoBehindLog | ErrLogMissed
  | EOF | ErrUnexpectedEOF
  | errorf (msg : string)
  | errScores (cmpValue : bytes)
  | errDriver.

#[global] Instance error_eq_dec : EqDecision error.
Proof. solve_decision. Defined.

(** [err != nil], and [v != nil] of a slice. *)
Definition is_err (err : option error) : bool := match err with Some _ => true | None => false end.
Definition not_nil {A} (v : option A) : bool := match v with Some _ => true | None => false end.

(** ** Write batches *)

Inductive BatchOp :=
  | OpPut (key value : bytes)
  | OpDelete (key : bytes).

(** What one record of a batch does to the map the engine stores. *)
Definition apply_op (m : gmap bytes bytes) (o : BatchOp) : gmap bytes bytes :=
  match o with
  | OpPut k v => <[k := v]> m
  | OpDelete k => delete k m
  end.

Definition apply_ops (ops : list BatchOp) (m : gmap bytes bytes) : gmap bytes bytes :=
  fold_left apply_op ops m.

(** ** [driver.IDB], [driver.IIterator], [driver.IWriteBatch]

    [cur_bound] is not an operation of the code: it bounds the number of entries of the
    (finite) snapshot an iterator walks, and is the fuel of the loops over it. *)

Class IDB := {
  engine : Type;
  cursor : Type;
  drv_Get : engine -> bytes -> option bytes * option error;
  drv_Write : engine -> list BatchOp -> engine * option error;
  drv_Put : engine -> bytes -> bytes -> engine * option error;
  drv_Data : list BatchOp -> bytes;
  drv_NewIterator : engine -> cursor;
  cur_First : cursor -> cursor;
  cur_Last : cursor -> cursor;
  cur_Seek : bytes -> cursor -> cursor;
  cur_Next : cursor -> cursor;
  cur_Prev : cursor -> cursor;
  cur_Valid : cursor -> bool;
  cur_Key : cursor -> option bytes;
  cur_Value : cursor -> option bytes;
  cur_bound : cursor -> nat
}.

(** The entries of a map in the order of their keys: what an iterator walks. *)
Definition entry_le (a b : bytes * bytes) : Prop := ble a.1 b.1.

#[global] Instance entry_le_dec : RelDecision entry_le.
Proof. intros a b. unfold entry_le. apply _. Defined.

Definition sorted_entries (m : gmap bytes bytes) : list (bytes * bytes) :=
  merge_sort entry_le (map_to_list m).

(** The index of the first entry whose key is not smaller than [k]. *)
Fixpoint seek_index (k : bytes) (es : list (bytes * bytes)) : nat :=
  match es with
  | [] => O
  | e :: es' => if decide (ble k e.1) then O else S (seek_index k es')
  end.

(** A cursor position: an index into the snapshot, or invalid. *)
Definition clamp (n : nat) (i : nat) : option nat := if decide (i < n)%nat then Some i else None.

(** What an iterator promises: it walks a fixed sorted snapshot; the moves are specified
    where the code uses them, [Next] and [Prev] from a valid position only. *)
Class IterSpec {C : Type} (first last : C -> C) (seek : bytes -> C -> C) (next prev : C -> C)
    (valid : C -> bool) (key value : C -> option bytes) := {
  snap : C -> list (bytes * bytes);
  pos : C -> option nat;
  snap_first c : snap (first c) = snap c;
  snap_last c : snap (last c) = snap c;
  snap_seek k c : snap (seek k c) = snap c;
  snap_next c : snap (next c) = snap c;
  snap_prev c : snap (prev c) = snap c;
  pos_first c : pos (first c) = clamp (length (snap c)) 0;
  pos_last c : pos (last c) = clamp (length (snap c)) (length (snap c) - 1);
  pos_seek k c : pos (seek k c) = clamp (length (snap c)) (seek_index k (snap c));
  pos_next c i : pos c = Some i -> pos (next c) = clamp (length (snap c)) (S i);
  pos_prev c i : pos c = Some i -> pos (prev c) = match i with O => None | S j => Some j end;
  valid_pos c : valid c = bool_decide (is_Some (pos c));
  pos_range c i : pos c = Some i -> (i < length (snap c))%nat;
  key_at c i kv : pos c = Some i -> snap c !! i = Some kv -> key c = Some kv.1;
  value_at c i kv : pos c = Some i -> snap c !! i = Some kv -> value c = Some kv.2
}.

Class IDBSpec (I : IDB) := {
  model : engine -> gmap bytes bytes;
  healthy : engine -> Prop;
  get_ok e k : healthy e -> drv_Get e k = (model e !! k, None);
  write_ok e ops : healthy e -> exists e', drv_Write e ops = (e', None) /\ healthy e';
  write_all e ops e' : drv_Write e ops = (e', None) -> model e' = apply_ops ops (model e);
  write_none e ops e' err : drv_Write e ops = (e', Some err) -> model e' = model e;
  put_ok e k v : healthy e -> exists e', drv_Put e k v = (e', None) /\ healthy e';
  put_all e k v e' : drv_Put e k v = (e', None) -> model e' = <[k := v]> (model e);
  put_none e k v e' err : drv_Put e k v = (e', Some err) -> model e' = model e;
  iter_ok :: IterSpec cur_First cur_Last cur_Seek cur_Next cur_Prev cur_Valid cur_Key cur_Value;
  iter_snap e : snap (drv_NewIterator e) = sorted_entries (model e);
  bound_ok c : (length (snap c) <= cur_bound c)%nat
}.

(** ** The replication log, as [handleCommit] of src/ledis/batch.go uses it *)

(** [rpl.Log] of src/rpl/log.go. *)
Record Log := mkLog {
  ID : Z;
  CreateTime : Z;
  Compression : Z;
  LogData : bytes
}.

Class Replicator := {
  rpl : Type;
  rpl_Log : Z -> bytes -> SM rpl (Log + error);
  rpl_UpdateCommitID : Z -> SM rpl (option error);
  rpl_clear : SM rpl (option error)
}.

Class ReplicatorSpec (R : Replicator) := {
  rpl_ready : rpl -> Prop;
  rpl_commit_ok r now data : rpl_ready r -> exists r1 l r2,
    rpl_Log now data r = (Ret (inl l), r1) /\
    rpl_UpdateCommitID (ID l) r1 = (Ret None, r2) /\ rpl_ready r2
}.

(** What the database layer runs on. *)
Class Backend := {
  backend_idb :: IDB;
  backend_rpl :: Replicator
}.

Class BackendSpec (B : Backend) := {
  backend_idb_spec :: IDBSpec backend_idb;
  backend_rpl_spec :: ReplicatorSpec backend_rpl
}.

(** ** The adapter of src/store/goleveldb

    [LevelDB] is the third party package github.com/syndtr/goleveldb/leveldb. *)
Inductive LGet := LFound (v : bytes) | LNotFound | LFailed.

Class LevelDB := {
  ldb_t : Type;
  ldb_it : Type;
  ldb_Get : ldb_t -> bytes -> LGet;
  ldb_Write : ldb_t -> list BatchOp -> ldb_t * option error;
  ldb_Put : ldb_t -> bytes -> bytes -> ldb_t * option error;
  ldb_Dump : list BatchOp -> bytes;
  ldb_NewIterator : ldb_t -> ldb_it;
  lit_First : ldb_it -> ldb_it;
  lit_Last : ldb_it -> ldb_it;
  lit_Seek : bytes -> ldb_it -> ldb_it;
  lit_Next : ldb_it -> ldb_it;
  lit_Prev : ldb_it -> ldb_it;
  lit_Valid : ldb_it -> bool;
  lit_Key : ldb_it -> option bytes;
  lit_Value : ldb_it -> option bytes;
  lit_bound : ldb_it -> nat
}.

(** The documented behaviour of the package: an ordered map. *)
Class LevelDBSpec (L : LevelDB) := {
  ldb_model : ldb_t -> gmap bytes bytes;
  ldb_healthy : ldb_t -> Prop;
  ldb_get_ok e k : ldb_healthy e ->
    ldb_Get e k = match ldb_model e !! k with Some v => LFound v | None => LNotFound end;
  ldb_write_ok e ops : ldb_healthy e -> exists e', ldb_Write e ops = (e', None) /\ ldb_healthy e';
  ldb_write_all e ops e' : ldb_Write e ops = (e', None) -> ldb_model e' = apply_ops ops (ldb_model e);
  ldb_write_none e ops e' err : ldb_Write e ops = (e', Some err) -> ldb_model e' = ldb_model e;
  ldb_put_ok e k v : ldb_healthy e -> exists e', ldb_Put e k v = (e', None) /\ ldb_healthy e';
  ldb_put_all e k v e' : ldb_Put e k v = (e', None) -> ldb_model e' = <[k := v]> (ldb_model e);
  ldb_put_none e k v e' err : ldb_Put e k v = (e', Some err) -> ldb_model e' = ldb_model e;
  ldb_iter_ok :: IterSpec lit_First lit_Last lit_Seek lit_Next lit_Prev lit_Valid lit_Key lit_Value;
  ldb_iter_snap e : snap (ldb_NewIterator e) = sorted_entries (ldb_model e);
  ldb_bound_ok c : (length (snap c) <= lit_bound c)%nat
}.

Module GoLevelDB.
Section Adapter.
Context {L : LevelDB}.

(** [func (db *DB) Get]: not-found is a nil slice; any other failure is dropped and the
    (nil) value is returned without an error. *)
Definition goleveldb_Get (db : ldb_t) (key : bytes) : option bytes * option error :=
  match ldb_Get db key with
  | LNotFound => (None, None)
  | LFound v => (Some v, None)
  | LFailed => (None, None)
  end.

(** [WriteBatch.Commit] and [SyncCommit]: [db.Write] of the whole batch. *)
Definition goleveldb_Commit (db : ldb_t) (wbatch : list BatchOp) : ldb_t * option error :=
  ldb_Write db wbatch.

(** [DB.Put] and [SyncPut]. *)
Definition goleveldb_Put (db : ldb_t) (key value : bytes) : ldb_t * option error := ldb_Put db key value.

Definition idb : IDB := {|
  engine := ldb_t;
  cursor := ldb_it;
  drv_Get := goleveldb_Get;
  drv_Write := goleveldb_Commit;
  drv_Put := goleveldb_Put;
  drv_Data := ldb_Dump;
  drv_NewIterator := ldb_NewIterator;
  cur_First := lit_First;
  cur_Last := lit_Last;
  cur_Seek := lit_Seek;
  cur_Next := lit_Next;
  cur_Prev := lit_Prev;
  cur_Valid := lit_Valid;
  cur_Key := lit_Key;
  cur_Value := lit_Value;
  cur_bound := lit_bound
|}.

End Adapter.
End GoLevelDB.

(** ** A concrete engine: a finite map with a fault switch *)

Record mem_db := mkMem { mem_map : gmap bytes bytes; mem_faulty : bool }.
Record mem_cursor := mkCur { mc_snap : list (bytes * bytes); mc_pos : option nat }.

Definition mc_move (f : list (bytes * bytes) -> option nat -> option nat) (c : mem_cursor) : mem_cursor :=
  mkCur (mc_snap c) (f (mc_snap c) (mc_pos c)).

(** Its batch format: a byte string is its bytes, each after a 1, and a 0. *)
Fixpoint mem_string (b : bytes) : bytes := match b with [] => [0] | x :: b' => 1 :: x :: mem_string b' end.

Definition mem_dump (ops : list BatchOp) : bytes :=
  concat (map (fun o => match o with OpPut k v => 2 :: mem_string k ++ mem_string v | OpDelete k => 3 :: mem_string k end) ops).

#[global] Instance MemLevelDB : LevelDB := {|
  ldb_t := mem_db;
  ldb_it := mem_cursor;
  ldb_Get db k := if mem_faulty db then LFailed else
    match mem_map db !! k with Some v => LFound v | None => LNotFound end;
  ldb_Write db ops := if mem_faulty db then (db, Some errDriver)
    else (mkMem (apply_ops ops (mem_map db)) false, None);
  ldb_Put db k v := if mem_faulty db then (db, Some errDriver) else (mkMem (<[k := v]> (mem_map db)) false, None);
  ldb_Dump := mem_dump;
  ldb_NewIterator db := mkCur (sorted_entries (mem_map db)) None;
  lit_First := mc_move (fun s _ => clamp (length s) 0);
  lit_Last := mc_move (fun s _ => clamp (length s) (length s - 1));
  lit_Seek k := mc_move (fun s _ => clamp (length s) (seek_index k s));
  lit_Next := mc_move (fun s p => match p with Some i => clamp (length s) (S i) | None => None end);
  lit_Prev := mc_move (fun s p => match p with Some (S j) => clamp (length s) j | _ => None end);
  lit_Valid c := match mc_pos c with Some i => bool_decide (i < length (mc_snap c))%nat | None => false end;
  lit_Key c := match mc_pos c with Some i => fst <$> mc_snap c !! i | None => None end;
  lit_Value c := match mc_pos c with Some i => snd <$> mc_snap c !! i | None => None end;
  lit_bound c := length (mc_snap c)
|}.

(** A concrete replication log: the logs stored and the id of the last committed one. *)
Record mem_rpl := mkMemRpl { mr_logs : list Log; mr_commit : Z }.

Definition MemReplicator : Replicator := {|
  rpl := mem_rpl;
  rpl_Log now data r :=
    let l := mkLog (mr_commit r + 1) (uint32 now) 0 data in
    (Ret (inl l), mkMemRpl (mr_logs r ++ [l]) (mr_commit r));
  rpl_UpdateCommitID id r := (Ret None, mkMemRpl (mr_logs r) id);
  rpl_clear _ := (Ret None, mkMemRpl [] 0)
|}.

#[global] Instance MemBackend : Backend := {| backend_idb := GoLevelDB.idb; backend_rpl := MemReplicator |}.

(** * Laws of the concrete engine and of the adapter *)

Lemma clamp_Some n i j : clamp n i = Some j <-> i = j /\ (j < n)%nat.
Proof. unfold clamp. case_decide; naive_solver lia. Qed.

#[global] Program Instance mem_iter_spec :
  IterSpec (C := mem_cursor) lit_First lit_Last lit_Seek lit_Next lit_Prev lit_Valid lit_Key lit_Value := {|
  snap := mc_snap;
  pos c := match mc_pos c with Some i => clamp (length (mc_snap c)) i | None => None end
|}.
Solve Obligations with (intros; simpl; unfold clamp; repeat case_decide; simpl; auto; try lia).
Next Obligation.
  intros c i; simpl. destruct (mc_pos c) as [p|]; [|done]. intros [-> ?]%clamp_Some.
  unfold clamp. repeat (case_decide; simpl); auto; lia.
Qed.
Next Obligation.
  intros c i; simpl. destruct (mc_pos c) as [p|]; [|done]. intros [-> ?]%clamp_Some.
  unfold clamp. destruct i; simpl; [done|]. repeat (case_decide; simpl); auto; lia.
Qed.
Next Obligation.
  intros c; simpl. destruct (mc_pos c) as [p|]; [|by rewrite bool_decide_false by (by intros [])].
  unfold clamp. case_decide.
  - by rewrite !bool_decide_true by eauto.
  - by rewrite !bool_decide_false by (try done; by intros []).
Qed.
Next Obligation.
  intros c i; simpl. destruct (mc_pos c) as [p|]; [|done]. by intros [-> ?]%clamp_Some.
Qed.
Next Obligation.
  intros c i kv; simpl. destruct (mc_pos c) as [p|]; [|done]. intros [-> ?]%clamp_Some Hkv. by rewrite Hkv.
Qed.
Next Obligation.
  intros c i kv; simpl. destruct (mc_pos c) as [p|]; [|done]. intros [-> ?]%clamp_Some Hkv. by rewrite Hkv.
Qed.

#[global] Program Instance MemLevelDBSpec : LevelDBSpec MemLevelDB := {|
  ldb_model := mem_map;
  ldb_healthy db := mem_faulty db = false;
  ldb_iter_ok := mem_iter_spec
|}.
Next Obligation. intros e k He; simpl in *. by rewrite He. Qed.
Next Obligation. intros e ops He; simpl in *. rewrite He. eauto. Qed.
Next Obligation. intros e ops e'; simpl. destruct (mem_faulty e); naive_solver. Qed.
Next Obligation. intros e ops e' err; simpl. destruct (mem_faulty e); naive_solver. Qed.
Next Obligation. intros e k v He; simpl in *. rewrite He. eauto. Qed.
Next Obligation. intros e k v e'; simpl. destruct (mem_faulty e); naive_solver. Qed.
Next Obligation. intros e k v e' err; simpl. destruct (mem_faulty e); naive_solver. Qed.
Next Obligation. done. Qed.
Next Obligation. done. Qed.

(** The adapter over any engine that behaves as documented is a storage engine for the
    database layer. *)
#[global] Program Instance goleveldb_spec (L : LevelDB) (S : LevelDBSpec L) : IDBSpec GoLevelDB.idb := {|
  model := ldb_model;
  healthy := ldb_healthy;
  iter_ok := ldb_iter_ok
|}.
Next Obligation.
  intros L S e k He; simpl. unfold GoLevelDB.goleveldb_Get. rewrite ldb_get_ok by done.
  by destruct (ldb_model e !! k).
Qed.
Next Obligation. intros L S e ops He. apply (ldb_write_ok e ops He). Qed.
Next Obligation. intros L S e ops e' He. apply (ldb_write_all e ops e' He). Qed.
Next Obligation. intros L S e ops e' err He. apply (ldb_write_none e ops e' err He). Qed.
Next Obligation. intros L S e k v He. apply (ldb_put_ok e k v He). Qed.
Next Obligation. intros L S e k v e' He. apply (ldb_put_all e k v e' He). Qed.
Next Obligation. intros L S e k v e' err He. apply (ldb_put_none e k v e' err He). Qed.
Next Obligation. intros L S e. apply ldb_iter_snap. Qed.
Next Obligation. intros L S c. apply ldb_bound_ok. Qed.

#[global] Program Instance MemReplicatorSpec : ReplicatorSpec MemReplicator := {|
  rpl_ready _ := True
|}.
Next Obligation. intros r now data _. simpl. eauto 8. Qed.

#[global] Instance MemBackendSpec : BackendSpec MemBackend := {|
  backend_idb_spec := goleveldb_spec MemLevelDB MemLevelDBSpec;
  backend_rpl_spec := MemReplicatorSpec
|}.

(** * Batches *)

Lemma apply_ops_app a b m : apply_ops (a ++ b) m = apply_ops b (apply_ops a m).
Proof. apply fold_left_app. Qed.

(** The key a batch record is about. *)
Definition op_key (o : BatchOp) : bytes := match o with OpPut k _ => k | OpDelete k => k end.

Lemma apply_ops_other ops m k :
  k ∉ map op_key ops -> apply_ops ops m !! k = m !! k.
Proof.
  revert m; induction ops as [|o ops IH]; intros m; simpl; [done|].
  rewrite not_elem_of_cons. intros [Hne Hk].
  change (apply_ops ops (apply_op m o) !! k = m !! k).
  rewrite IH by done. destruct o; simpl in *; by simplify_map_eq.
Qed.

(** * Sorted entries *)

Lemma sorted_entries_perm m : sorted_entries m ≡ₚ map_to_list m.
Proof. apply merge_sort_Permutation. Qed.

Lemma elem_of_sorted_entries m k v : (k, v) ∈ sorted_entries m <-> m !! k = Some v.
Proof. rewrite (sorted_entries_perm m). apply elem_of_map_to_list. Qed.

#[global] Instance entry_le_trans : Transitive entry_le.
Proof. intros a b c. unfold entry_le. by intros ->. Qed.

#[global] Instance entry_le_total : Total entry_le.
Proof. intros a b. unfold entry_le. apply (total ble). Qed.

Lemma sorted_entries_keys_nodup m : NoDup (sorted_entries m).*1.
Proof.
  rewrite (fmap_Permutation fst _ _ (sorted_entries_perm m)). apply NoDup_fst_map_to_list.
Qed.

(** Keys strictly increase along a snapshot. *)
Lemma sorted_entries_sorted m : StronglySorted blt (sorted_entries m).*1.
Proof.
  assert (HS : StronglySorted entry_le (sorted_entries m)).
  { apply (StronglySorted_merge_sort entry_le). }
  pose proof (sorted_entries_keys_nodup m) as HN. revert HS HN.
  generalize (sorted_entries m) as l. clear m.
  induction l as [|e l IH]; simpl; intros HS HN; [constructor|].
  apply StronglySorted_inv in HS as [HS HF]. apply NoDup_cons in HN as [He HN].
  constructor; [by apply IH|]. apply Forall_forall. intros k Hk.
  pose proof Hk as Hk'. apply list_elem_of_fmap in Hk as [[k' v'] [-> Hin]].
  rewrite Forall_forall in HF. specialize (HF _ Hin). unfold entry_le in HF. simpl in *.
  apply ble_alt in HF as [?|Heq]; [done|]. exfalso. apply He. by rewrite Heq.
Qed.

(** * The iterator laws at the engine interface *)

Section CursorLaws.
Context {I : IDB} {S : IDBSpec I}.
Implicit Types (c : cursor) (i : nat) (kv : bytes * bytes).

Lemma cur_snap_first c : snap (cur_First c) = snap c.
Proof. apply snap_first. Qed.
Lemma cur_snap_last c : snap (cur_Last c) = snap c.
Proof. apply snap_last. Qed.
Lemma cur_snap_seek k c : snap (cur_Seek k c) = snap c.
Proof. apply snap_seek. Qed.
Lemma cur_snap_next c : snap (cur_Next c) = snap c.
Proof. apply snap_next. Qed.
Lemma cur_snap_prev c : snap (cur_Prev c) = snap c.
Proof. apply snap_prev. Qed.
Lemma cur_pos_first c : pos (cur_First c) = clamp (length (snap c)) 0.
Proof. apply pos_first. Qed.
Lemma cur_pos_last c : pos (cur_Last c) = clamp (length (snap c)) (length (snap c) - 1).
Proof. apply pos_last. Qed.
Lemma cur_pos_seek k c : pos (cur_Seek k c) = clamp (length (snap c)) (seek_index k (snap c)).
Proof. apply pos_seek. Qed.
Lemma cur_pos_next c i : pos c = Some i -> pos (cur_Next c) = clamp (length (snap c)) (Datatypes.S i).
Proof. apply pos_next. Qed.
Lemma cur_pos_prev c i :
  pos c = Some i -> pos (cur_Prev c) = match i with O => None | Datatypes.S j => Some j end.
Proof. apply pos_prev. Qed.
Lemma cur_valid_pos c : cur_Valid c = bool_decide (is_Some (pos c)).
Proof. apply valid_pos. Qed.
Lemma cur_key_at c i kv : pos c = Some i -> snap c !! i = Some kv -> cur_Key c = Some kv.1.
Proof. apply key_at. Qed.
Lemma cur_value_at c i kv : pos c = Some i -> snap c !! i = Some kv -> cur_Value c = Some kv.2.
Proof. apply value_at. Qed.

End CursorLaws.

(** * The adapter *)

(** Over a LevelDB that behaves as documented, a batch committed through the adapter of
    src/store/goleveldb is read back by its [Get]: every key has the value the last record
    of the batch for it left, or its old value. *)
Lemma goleveldb_commit_get {L : LevelDB} {S : LevelDBSpec L} (db : ldb_t) (ops : list BatchOp) (k : bytes) :
  ldb_healthy db ->
  exists db', GoLevelDB.goleveldb_Commit db ops = (db', None) /\
              GoLevelDB.goleveldb_Get db' k = (apply_ops ops (ldb_model db) !! k, None).
Proof.
  intros Hh. destruct (ldb_write_ok db ops Hh) as (db' & E & Hh'). exists db'. split; [exact E|].
  unfold GoLevelDB.goleveldb_Get. rewrite ldb_get_ok, (ldb_write_all _ _ _ E) by done. by destruct (apply_ops _ _ !! k).
Qed.

Lemma goleveldb_commit_get_witness :
  exists db', GoLevelDB.goleveldb_Commit (mkMem ∅ false) [OpPut [1] [2]] = (db', None) /\
              GoLevelDB.goleveldb_Get db' [1] = (Some [2], None).
Proof. exact (goleveldb_commit_get (mkMem ∅ false) [OpPut [1] [2]] [1] eq_refl). Defined.
