(* ===== verification/StoreDB.v ===== *)
(** * The store over a driver (src/store: db.go, writebatch.go, snapshot.go, stat.go, store.go; src/store/driver/store.go)

    The registry of the drivers, and [store.DB] with its statistics and the choice between
    commits that wait for the disk and commits that do not.  The theorem says when a commit
    waits: with the setting that shall sync every second, commits that follow each other
    within a second are never synced. *)

From S2P Require Import Prelude Driver.

(** ** Drivers

    The interfaces of driver.go, with the errors as values; a driver may offer [GetSlice].
    [sync] says which of the two variants of a write is called.  The clock counts
    nanoseconds. *)
Class IDriver (E : Type) := {
  idb_batch : Type;
  idb_snapshot : Type;
  idb_iter : Type;
  idb_Get : bytes -> SM E (option bytes * option error);
  idb_GetSlice : option (bytes -> SM E (option bytes * option error));
  idb_Put (sync : bool) : bytes -> bytes -> SM E (option error);
  idb_Delete (sync : bool) : bytes -> SM E (option error);
  idb_NewIterator : SM E idb_iter;
  idb_NewWriteBatch : SM E idb_batch;
  iwb_Put : idb_batch -> bytes -> bytes -> SM E unit;
  iwb_Delete : idb_batch -> bytes -> SM E unit;
  iwb_Commit (sync : bool) : idb_batch -> SM E (option error);
  iwb_Rollback : idb_batch -> SM E (option error);
  iwb_Data : idb_batch -> SM E bytes;
  iwb_Close : idb_batch -> SM E unit;
  idb_NewSnapshot : SM E (idb_snapshot + error);
  isn_Get : idb_snapshot -> bytes -> SM E (option bytes * option error);
  isn_GetSlice : option (idb_snapshot -> bytes -> SM E (option bytes * option error));
  isn_NewIterator : idb_snapshot -> SM E idb_iter;
  isn_Close : idb_snapshot -> SM E unit;
  idb_Compact : SM E (option error);
  idb_Close : SM E (option error);
  time_Now : SM E Z
}.

(** ** Statistics *)

Inductive counter :=
  | GetNum | GetMissingNum | GetTotalTime | PutNum | DeleteNum | IterNum | IterSeekNum | IterCloseNum
  | SnapshotNum | SnapshotCloseNum | BatchNum | BatchCommitNum | BatchCommitTotalTime
  | TxNum | TxCommitNum | TxCloseNum | CompactNum | CompactTotalTime.

#[global] Instance counter_eq_dec : EqDecision counter.
Proof. solve_decision. Defined.

Definition Stat : Type := counter -> Z.

Definition no_stat : Stat := fun _ => 0.
Definition stat_Add (k : counter) (n : Z) (st : Stat) : Stat := fun k' => if decide (k' = k) then int64 (st k + n) else st k'.

(** An [interface{}]: without a value, or a slice, which may itself be nil. *)
Inductive iface := INone | ISlice (b : option bytes) | IObject (b : bytes).

Definition is_none (v : iface) : bool := match v with INone => true | _ => false end.

Definition statGet (v : iface) (err : option error) (st : Stat) : Stat :=
  let st := stat_Add GetNum 1 st in
  if is_none v && negb (is_err err) then stat_Add GetMissingNum 1 st else st.

(** ** [store.DB] *)

Record SDB := mkSDB { sd_st : Stat; sd_lastCommit : Z; sd_DBSyncCommit : Z }.

Record SBatch (W : Type) := mkSBatch { sb_wb : W; sb_putNum : Z; sb_deleteNum : Z }.
Arguments mkSBatch {W}.
Arguments sb_wb {W}.
Arguments sb_putNum {W}.
Arguments sb_deleteNum {W}.

(** [time.Second], and the difference of two times, which saturates. *)
Definition Second : Z := 1000000000.
Definition time_Sub (t u : Z) : Z := Z.max (- 2 ^ 63) (Z.min (2 ^ 63 - 1) (t - u)).

(** The zero [time.Time], the first day of year one. *)
Definition zero_time : Z := - 62135596800 * Second.

Section Store.
Context {E : Type} {D : IDriver E}.

Abbreviation SS := (SM (SDB * E)).

Definition driver {A} (p : SM E A) : SS A := fun '(db, e) => let '(o, e) := p e in (o, (db, e)).
Definition get_db : SS SDB := fun '(db, e) => (Ret db, (db, e)).
Definition stat (f : Stat -> Stat) : SS unit := fun '(db, e) => (Ret tt, (mkSDB (f (sd_st db)) (sd_lastCommit db) (sd_DBSyncCommit db), e)).

(** [db.lastCommit = n] *)
Definition set_lastCommit (n : Z) : SS unit := fun '(db, e) => (Ret tt, (mkSDB (sd_st db) n (sd_DBSyncCommit db), e)).

Definition needSyncCommit : SS bool :=
  db ← get_db;
  if sd_DBSyncCommit db =? 0 then mret false
  else if sd_DBSyncCommit db =? 2 then mret true
  else
    n ← driver time_Now;
    db ← get_db;
    _ ← set_lastCommit n;
    mret (time_Sub n (sd_lastCommit db) >? Second).

Definition sdb_NewIterator : SS idb_iter := _ ← stat (stat_Add IterNum 1); driver idb_NewIterator.

Definition sdb_Get (key : bytes) : SS (option bytes * option error) :=
  t ← driver time_Now;
  '(v, err) ← driver (idb_Get key);
  _ ← stat (statGet (ISlice v) err);
  n ← driver time_Now;
  _ ← stat (stat_Add GetTotalTime (time_Sub n t));
  mret (v, err).

Definition sdb_Put (key value : bytes) : SS (option error) :=
  _ ← stat (stat_Add PutNum 1);
  sync ← needSyncCommit;
  driver (idb_Put sync key value).

Definition sdb_Delete (key : bytes) : SS (option error) :=
  _ ← stat (stat_Add DeleteNum 1);
  sync ← needSyncCommit;
  driver (idb_Delete sync key).

Definition sdb_NewWriteBatch : SS (SBatch idb_batch) :=
  _ ← stat (stat_Add BatchNum 1);
  wb ← driver idb_NewWriteBatch;
  mret (mkSBatch wb 0 0).

Definition sdb_NewSnapshot : SS (idb_snapshot + error) :=
  _ ← stat (stat_Add SnapshotNum 1);
  driver idb_NewSnapshot.

Definition sdb_Compact : SS (option error) :=
  _ ← stat (stat_Add CompactNum 1);
  t ← driver time_Now;
  err ← driver idb_Compact;
  n ← driver time_Now;
  _ ← stat (stat_Add CompactTotalTime (time_Sub n t));
  mret err.

(** The slice, or nil; a driver without [GetSlice] is asked for the value. *)
Definition sdb_GetSlice (key : bytes) : SS (option bytes * option error) :=
  match idb_GetSlice with
  | Some getSlice =>
      t ← driver time_Now;
      '(v, err) ← driver (getSlice key);
      _ ← stat (statGet (match v with Some b => IObject b | None => INone end) err);
      n ← driver time_Now;
      _ ← stat (stat_Add GetTotalTime (time_Sub n t));
      mret (v, err)
  | None =>
      '(v, err) ← sdb_Get key;
      mret (match err with Some _ => None | None => v end, err)
  end.

Definition sdb_Close : SS (option error) := driver idb_Close.

(** [db.Stat().Reset()] *)
Definition stat_Reset : SS unit := stat (fun _ => no_stat).

(** ** Batches *)

Definition swb_Put (wb : SBatch idb_batch) (key value : bytes) : SS (SBatch idb_batch) :=
  _ ← driver (iwb_Put (sb_wb wb) key value);
  mret (mkSBatch (sb_wb wb) (int64 (sb_putNum wb + 1)) (sb_deleteNum wb)).

Definition swb_Delete (wb : SBatch idb_batch) (key : bytes) : SS (SBatch idb_batch) :=
  _ ← driver (iwb_Delete (sb_wb wb) key);
  mret (mkSBatch (sb_wb wb) (sb_putNum wb) (int64 (sb_deleteNum wb + 1))).

Definition swb_Commit (wb : SBatch idb_batch) : SS (option error * SBatch idb_batch) :=
  _ ← stat (stat_Add BatchCommitNum 1);
  _ ← stat (stat_Add PutNum (sb_putNum wb));
  _ ← stat (stat_Add DeleteNum (sb_deleteNum wb));
  t ← driver time_Now;
  sync ← needSyncCommit;
  err ← driver (iwb_Commit sync (sb_wb wb));
  n ← driver time_Now;
  _ ← stat (stat_Add BatchCommitTotalTime (time_Sub n t));
  mret (err, mkSBatch (sb_wb wb) 0 0).

Definition swb_Rollback (wb : SBatch idb_batch) : SS (option error * SBatch idb_batch) :=
  err ← driver (iwb_Rollback (sb_wb wb));
  mret (err, mkSBatch (sb_wb wb) 0 0).

Definition swb_Close (wb : SBatch idb_batch) : SS unit := driver (iwb_Close (sb_wb wb)).

(** ** Snapshots *)

Definition ssn_NewIterator (s : idb_snapshot) : SS idb_iter := it ← driver (isn_NewIterator s); _ ← stat (stat_Add IterNum 1); mret it.
Definition ssn_Get (s : idb_snapshot) (key : bytes) : SS (option bytes * option error) :=
  '(v, err) ← driver (isn_Get s key); _ ← stat (statGet (ISlice v) err); mret (v, err).
Definition ssn_GetSlice (s : idb_snapshot) (key : bytes) : SS (option bytes * option error) :=
  match isn_GetSlice with
  | Some getSlice =>
      '(v, err) ← driver (getSlice s key);
      _ ← stat (statGet (match v with Some b => IObject b | None => INone end) err);
      mret (v, err)
  | None =>
      '(v, err) ← ssn_Get s key;
      mret (match err with Some _ => None | None => v end, err)
  end.
Definition ssn_Close (s : idb_snapshot) : SS unit := _ ← stat (stat_Add SnapshotCloseNum 1); driver (isn_Close s).
End Store.

(** ** The registry of the drivers *)

Section Registry.
Context {Store : Type}.

(** The drivers by their names; registering a name twice panics. *)
Definition Register (name : bytes) (s : Store) : SM (gmap bytes Store) unit := fun dbs =>
  match dbs !! name with
  | Some _ => (Panic, dbs)
  | None => (Ret tt, <[name := s]> dbs)
  end.

Definition DefaultDBName : bytes := [103; 111; 108; 101; 118; 101; 108; 100; 98].

(** The driver, and [cfg.DBName] as it is left. *)
Definition GetStore (dbName : bytes) (dbs : gmap bytes Store) : (Store + bytes) * bytes :=
  let dbName := match dbName with [] => DefaultDBName | _ => dbName end in
  (match dbs !! dbName with Some s => inl s | None => inr dbName end, dbName).

Fixpoint register_all (l : list (bytes * Store)) : SM (gmap bytes Store) unit :=
  match l with
  | [] => mret tt
  | (name, s) :: l => _ ← Register name s; register_all l
  end.

(** Drivers with different names register, and each is found under its name. *)
Lemma register_find (l : list (bytes * Store)) dbs : NoDup l.*1 -> (forall name, name ∈ l.*1 -> dbs !! name = None) ->
  exists dbs', register_all l dbs = (Ret tt, dbs') /\ (forall name s, (name, s) ∈ l -> name <> [] -> GetStore name dbs' = (inl s, name)) /\
    (forall name, name ∉ l.*1 -> dbs' !! name = dbs !! name).
Proof.
  revert dbs. induction l as [|[name s] l IH]; intros dbs Hn Hd; cbn [register_all].
  - exists dbs. split; [done|]. split; [|done]. intros name s H. by apply elem_of_nil in H.
  - apply NoDup_cons in Hn as [Hn1 Hn2]. unfold mbind, SM_bind, Register. cbn in Hd. rewrite (Hd name) by set_solver.
    destruct (IH (<[name := s]> dbs) Hn2) as (dbs' & E & H1 & H2).
    { intros n Hin. rewrite lookup_insert_ne by (by intros ->). apply Hd. set_solver. }
    exists dbs'. split; [done|]. split.
    + intros n x Hin Hne. apply elem_of_cons in Hin as [[= -> ->]|Hin]; [|by apply H1]. unfold GetStore. destruct name as [|c name]; [done|]. rewrite H2 by done. by rewrite lookup_insert_eq.
    + intros n Hn. cbn in Hn. apply not_elem_of_cons in Hn as [Hne Hn]. rewrite H2 by done. by rewrite lookup_insert_ne.
Qed.
End Registry.

(** * When commits are synced *)

(** A driver that records which variant of the writes is called, with the readings of the
    clock to come. *)
Record probe := mkProbe { pr_clock : list Z; pr_log : list bool }.

Definition pr_write (sync : bool) : SM probe (option error) := fun e => (Ret None, mkProbe (pr_clock e) (pr_log e ++ [sync])).

#[global] Instance probe_driver : IDriver probe := {|
  idb_batch := unit; idb_snapshot := unit; idb_iter := unit;
  idb_Get _ := mret (None, None);
  idb_GetSlice := None;
  idb_Put sync _ _ := pr_write sync;
  idb_Delete sync _ := pr_write sync;
  idb_NewIterator := mret tt;
  idb_NewWriteBatch := mret tt;
  iwb_Put _ _ _ := mret tt;
  iwb_Delete _ _ := mret tt;
  iwb_Commit sync _ := pr_write sync;
  iwb_Rollback _ := mret None;
  iwb_Data _ := mret [];
  iwb_Close _ := mret tt;
  idb_NewSnapshot := mret (inl tt);
  isn_Get _ _ := mret (None, None);
  isn_GetSlice := None;
  isn_NewIterator _ := mret tt;
  isn_Close _ := mret tt;
  idb_Compact := mret None;
  idb_Close := mret None;
  time_Now e := (Ret (default 0 (head (pr_clock e))), mkProbe (tail (pr_clock e)) (pr_log e))
|}.

(** A commit reads the clock before it, when it decides whether to sync, and after it. *)
Fixpoint readings (commits : list (Z * Z * Z)) : list Z :=
  match commits with
  | [] => []
  | (t, n, t') :: commits => t :: n :: t' :: readings commits
  end.

Fixpoint commit_all {E : Type} {D : IDriver E} (n : nat) (wb : SBatch idb_batch) : SM (SDB * E) unit :=
  match n with
  | O => mret tt
  | S n => '(_, wb) ← swb_Commit wb; commit_all n wb
  end.

(** Each commit comes at most a second after the one before it. *)
Fixpoint within_seconds (last : Z) (commits : list (Z * Z * Z)) : Prop :=
  match commits with
  | [] => True
  | (_, n, _) :: commits => n - last <= Second /\ within_seconds n commits
  end.

Lemma need_run (mode : Z) (st : Stat) (last n : Z) (clock : list Z) (log : list bool) : mode <> 0 -> mode <> 2 ->
  needSyncCommit (D := probe_driver) (mkSDB st last mode, mkProbe (n :: clock) log) = (Ret (time_Sub n last >? Second), (mkSDB st n mode, mkProbe clock log)).
Proof.
  intros H0 H2. unfold needSyncCommit. etransitivity; [eapply bind_run; reflexivity|]. cbn [sd_DBSyncCommit]. by rewrite (proj2 (Z.eqb_neq mode 0)), (proj2 (Z.eqb_neq mode 2)) by done.
Qed.

Lemma commit_run (mode : Z) (st : Stat) (last t n t' : Z) (clock : list Z) (log : list bool) (wb : SBatch unit) : mode <> 0 -> mode <> 2 ->
  exists st', swb_Commit (D := probe_driver) wb (mkSDB st last mode, mkProbe (t :: n :: t' :: clock) log)
    = (Ret (None, mkSBatch tt 0 0), (mkSDB st' n mode, mkProbe clock (log ++ [time_Sub n last >? Second]))).
Proof.
  intros H0 H2. destruct wb as [[] x y]. eexists. unfold swb_Commit. do 4 (etransitivity; [eapply bind_run; reflexivity|]).
  etransitivity; [eapply bind_run; apply need_run; done|]. reflexivity.
Qed.

Lemma commits_unsynced (commits : list (Z * Z * Z)) (st : Stat) (last : Z) (log : list bool) (wb : SBatch unit) : within_seconds last commits ->
  exists db', commit_all (D := probe_driver) (length commits) wb (mkSDB st last 1, mkProbe (readings commits) log) = (Ret tt, (db', mkProbe [] (log ++ replicate (length commits) false))).
Proof.
  revert st last log wb. induction commits as [|[[t n] t'] commits IH]; intros st last log wb; cbn [within_seconds readings length commit_all replicate].
  - intros _. eexists. by rewrite app_nil_r.
  - intros [Hn Hw]. destruct (commit_run 1 st last t n t' (readings commits) log wb) as [st' E]; [done..|]. destruct (IH st' n (log ++ [false]) (mkSBatch tt 0 0) Hw) as [db' E'].
    exists db'. rewrite (bind_run _ _ _ _ _ E). rewrite Z.gtb_ltb, (proj2 (Z.ltb_ge _ _)) by (unfold time_Sub, Second in *; lia). rewrite E'. by rewrite <- app_assoc.
Qed.

(** The other two settings. *)
Lemma fixed_mode (mode : Z) (b : bool) (n : nat) (st : Stat) (last : Z) (clock : list Z) (wb : SBatch unit) : mode = 0 /\ b = false \/ mode = 2 /\ b = true ->
  pr_log (commit_all (D := probe_driver) n wb (mkSDB st last mode, mkProbe clock [])).2.2 = replicate n b.
Proof.
  intros Hm. assert (H : forall log, pr_log (commit_all (D := probe_driver) n wb (mkSDB st last mode, mkProbe clock log)).2.2 = log ++ replicate n b); [|apply (H [])].
  revert st clock wb. induction n as [|n IH]; intros st clock wb log; cbn [commit_all replicate]; [by rewrite app_nil_r|].
  assert (E : exists st' clock', swb_Commit (D := probe_driver) wb (mkSDB st last mode, mkProbe clock log) = (Ret (None, mkSBatch tt 0 0), (mkSDB st' last mode, mkProbe clock' (log ++ [b])))).
  { destruct wb as [[] x y]. by destruct Hm as [[-> ->]|[-> ->]]; eexists _, _. }
  destruct E as (st' & clock' & E). rewrite (bind_run _ _ _ _ _ E). rewrite IH. by rewrite <- app_assoc.
Qed.

(** C34: with the setting "sync every second" a server that is never idle for a second does not
    sync at all: the first commit after the start waits for the disk, and no later one does,
    however long the commits go on, as each one sets the time the next one is compared with.
    The settings 0 and 2 never and always sync. *)
Theorem sync_commit_starves (t0 n0 u0 : Z) (commits : list (Z * Z * Z)) (st : Stat) (wb : SBatch unit) : 0 <= n0 -> within_seconds n0 commits ->
  let run mode := pr_log (commit_all (D := probe_driver) (S (length commits)) wb (mkSDB st zero_time mode, mkProbe (readings ((t0, n0, u0) :: commits)) [])).2.2 in
  run 1 = true :: replicate (length commits) false /\ run 0 = replicate (S (length commits)) false /\ run 2 = replicate (S (length commits)) true.
Proof.
  intros H0 Hw run. split; [|split].
  - unfold run. cbn [commit_all readings]. destruct (commit_run 1 st zero_time t0 n0 u0 (readings commits) [] wb) as [st' E]; [done..|]. rewrite (bind_run _ _ _ _ _ E).
    assert (Ht : time_Sub n0 zero_time >? Second = true) by (rewrite Z.gtb_ltb; apply Z.ltb_lt; unfold time_Sub, zero_time, Second; lia). rewrite Ht.
    destruct (commits_unsynced commits st' n0 [true] (mkSBatch tt 0 0) Hw) as [db' E']. cbn [app] in *. by rewrite E'.
  - unfold run. apply (fixed_mode 0 false); by left.
  - unfold run. apply (fixed_mode 2 true); by right.
Qed.

Lemma sync_commit_starves_witness :
  pr_log (commit_all (D := probe_driver) 3 (mkSBatch tt 0 0) (mkSDB no_stat zero_time 1, mkProbe (readings [(0, 1, 2); (0, Second, 2); (0, 2 * Second, 2)]) [])).2.2 = [true; false; false].
Proof.
  refine (proj1 (sync_commit_starves 0 1 2 [(0, Second, 2); (0, 2 * Second, 2)] no_stat (mkSBatch tt 0 0) _ _)); [lia|]. cbn. unfold Second. lia.
Defined.
