(* ===== verification/CEngine.v ===== *)
(** * The engines behind a C interface (src/store/leveldb, src/store/rocksdb)

    The two adapters hold pointers to objects of a C library and have to free them.  The
    objects live in a heap ([World]); a call with a pointer that is not an object of the
    right kind is a crash ([Panic]).  The library is a parameter ([CLibrary]) whose documented
    behaviour is [CLibrarySpec].  The adapter refines an engine of plain values, it never
    uses a pointer it has freed, and what it leaks is stated. *)

From S2P Require Import Prelude Driver.

Abbreviation ptr := N.

(** What an object of options holds: the settings made on it.  [uchar], [size_t] and [int]
    are numbers of their width. *)
Record c_options := mkOptions {
  co_create_if_missing : Z;
  co_error_if_exists : Z;
  co_paranoid_checks : Z;
  co_cache : option ptr;
  co_filter_policy : option ptr;
  co_compression : Z;
  co_block_size : Z;
  co_block_restart_interval : Z;
  co_write_buffer_size : Z;
  co_max_open_files : Z;
  co_max_file_size : Z
}.

Record c_readoptions := mkRead { ro_verify_checksums : Z; ro_fill_cache : Z; ro_snapshot : option ptr }.
Record c_writeoptions := mkWrite { wo_sync : Z }.

(** The C library: the objects it makes, and the files it keeps them in.  An operation that
    fails gives the text of its error. *)
Class CLibrary := {
  c_files : Type;
  c_store : Type;
  c_iter : Type;
  c_snapshot : Type;
  c_batch : Type;
  c_options_default : c_options;
  c_read_default : c_readoptions;
  c_write_default : c_writeoptions;
  c_mkdir : bytes -> c_files -> c_files * option bytes;
  c_open : c_options -> bytes -> c_files -> c_files * (c_store + bytes);
  c_close : c_store -> c_files -> c_files;
  c_repair : c_options -> bytes -> c_files -> c_files * option bytes;
  c_get : c_readoptions -> option c_snapshot -> c_store -> bytes -> option bytes + bytes;
  c_put : c_writeoptions -> bytes -> bytes -> c_store -> c_store * option bytes;
  c_delete : c_writeoptions -> bytes -> c_store -> c_store * option bytes;
  c_write : c_writeoptions -> c_batch -> c_store -> c_store * option bytes;
  c_compact : c_store -> c_store;
  c_batch_new : c_batch;
  c_batch_put : bytes -> bytes -> c_batch -> c_batch;
  c_batch_delete : bytes -> c_batch -> c_batch;
  c_batch_clear : c_batch -> c_batch;
  c_batch_iterate : c_batch -> list BatchOp;
  c_batch_data : c_batch -> bytes;
  c_snapshot_new : c_store -> c_snapshot;
  c_iter_new : c_readoptions -> option c_snapshot -> c_store -> c_iter;
  c_iter_first : c_iter -> c_iter;
  c_iter_last : c_iter -> c_iter;
  c_iter_seek : bytes -> c_iter -> c_iter;
  c_iter_next : c_iter -> c_iter;
  c_iter_prev : c_iter -> c_iter;
  c_iter_valid : c_iter -> Z;
  c_iter_key : c_iter -> option bytes;
  c_iter_value : c_iter -> option bytes
}.

(** [leveldb.Batch.Dump] of the Go package, the format of the replication log. *)
Class BatchFormat := { batch_Dump : list BatchOp -> bytes }.

(** ** The heap of C objects *)

Section Heap.
Context {C : CLibrary}.

(** An iterator belongs to the store it was made from. *)
Inductive cobj :=
  | CStore (s : c_store)
  | COptions (o : c_options)
  | CRead (o : c_readoptions)
  | CWrite (o : c_writeoptions)
  | CCache (capacity : Z)
  | CFilter (bits : Z)
  | CBatch (b : c_batch)
  | CIter (db : ptr) (it : c_iter)
  | CSnapshot (s : c_snapshot)
  | CMem (b : bytes).

Record World := mkWorld { heap : gmap ptr cobj; brk : ptr; files : c_files }.

Abbreviation EM := (SM World).

Definition panic {A} : EM A := fun w => (Panic, w).

Definition alloc (o : cobj) : EM ptr := fun w => (Ret (brk w), mkWorld (<[brk w := o]> (heap w)) (N.succ (brk w)) (files w)).

(** The object of a kind behind a pointer. *)
Definition deref {A} (kind : cobj -> option A) (p : ptr) : EM A := fun w =>
  match heap w !! p ≫= kind with
  | Some x => (Ret x, w)
  | None => (Panic, w)
  end.

Definition assign (p : ptr) (o : cobj) : EM unit := fun w => (Ret tt, mkWorld (<[p := o]> (heap w)) (brk w) (files w)).

Definition erase (p : ptr) : EM unit := fun w => (Ret tt, mkWorld (delete p (heap w)) (brk w) (files w)).

(** Frees an object of a kind. *)
Definition release {A} (kind : cobj -> option A) (p : ptr) : EM unit := _ ← deref kind p; erase p.

Definition on_files {A} (f : c_files -> c_files * A) : EM A := fun w =>
  let '(fs, x) := f (files w) in (Ret x, mkWorld (heap w) (brk w) fs).

(** A pointer that may be nil. *)
Definition not_null (p : option ptr) : EM ptr := match p with Some p => mret p | None => panic end.

Definition of_store (o : cobj) : option c_store := match o with CStore s => Some s | _ => None end.
Definition of_options (o : cobj) : option c_options := match o with COptions s => Some s | _ => None end.
Definition of_read (o : cobj) : option c_readoptions := match o with CRead s => Some s | _ => None end.
Definition of_write (o : cobj) : option c_writeoptions := match o with CWrite s => Some s | _ => None end.
Definition of_cache (o : cobj) : option Z := match o with CCache s => Some s | _ => None end.
Definition of_filter (o : cobj) : option Z := match o with CFilter s => Some s | _ => None end.
Definition of_batch (o : cobj) : option c_batch := match o with CBatch s => Some s | _ => None end.
Definition of_iter (o : cobj) : option (ptr * c_iter) := match o with CIter db s => Some (db, s) | _ => None end.
Definition of_snapshot (o : cobj) : option c_snapshot := match o with CSnapshot s => Some s | _ => None end.
Definition of_mem (o : cobj) : option bytes := match o with CMem s => Some s | _ => None end.

(** The [errptr] of a call. *)
Definition c_error (err : option bytes) : EM (option ptr) :=
  match err with None => mret None | Some text => p ← alloc (CMem text); mret (Some p) end.

(** ** The calls of the library *)

Definition leveldb_put (db wo : ptr) (k v : bytes) : EM (option ptr) :=
  s ← deref of_store db; o ← deref of_write wo;
  let '(s, err) := c_put o k v s in _ ← assign db (CStore s); c_error err.

Definition leveldb_delete (db wo : ptr) (k : bytes) : EM (option ptr) :=
  s ← deref of_store db; o ← deref of_write wo;
  let '(s, err) := c_delete o k s in _ ← assign db (CStore s); c_error err.

Definition leveldb_write (db wo batch : ptr) : EM (option ptr) :=
  s ← deref of_store db; o ← deref of_write wo; b ← deref of_batch batch;
  let '(s, err) := c_write o b s in _ ← assign db (CStore s); c_error err.

(** The snapshot of read options. *)
Definition read_snapshot (o : c_readoptions) : EM (option c_snapshot) :=
  match ro_snapshot o with None => mret None | Some p => s ← deref of_snapshot p; mret (Some s) end.

(** The value is memory that the caller has to free. *)
Definition leveldb_get (db ro : ptr) (k : bytes) : EM (option ptr * option ptr) :=
  s ← deref of_store db; o ← deref of_read ro; sn ← read_snapshot o;
  match c_get o sn s k with
  | inr text => e ← alloc (CMem text); mret (None, Some e)
  | inl None => mret (None, None)
  | inl (Some v) => p ← alloc (CMem v); mret (Some p, None)
  end.

Definition leveldb_create_iterator (db ro : ptr) : EM ptr :=
  s ← deref of_store db; o ← deref of_read ro; sn ← read_snapshot o;
  alloc (CIter db (c_iter_new o sn s)).

Definition leveldb_create_snapshot (db : ptr) : EM ptr := s ← deref of_store db; alloc (CSnapshot (c_snapshot_new s)).

Definition leveldb_release_snapshot (db snap : ptr) : EM unit := _ ← deref of_store db; release of_snapshot snap.

(** An iterator, with its store alive. *)
Definition live_iter (p : ptr) : EM (ptr * c_iter) :=
  '(db, it) ← deref of_iter p; _ ← deref of_store db; mret (db, it).

Definition iter_move (f : c_iter -> c_iter) (p : ptr) : EM unit := '(db, it) ← live_iter p; assign p (CIter db (f it)).
Definition leveldb_iter_valid (p : ptr) : EM Z := '(_, it) ← live_iter p; mret (c_iter_valid it).
Definition leveldb_iter_destroy (p : ptr) : EM unit := _ ← live_iter p; release of_iter p.

Definition batch_update (f : c_batch -> c_batch) (p : ptr) : EM unit := b ← deref of_batch p; assign p (CBatch (f b)).

(** The additions to the library: leveldb_ext.cc. *)
Definition leveldb_iter_seek_to_first_ext (iter : ptr) : EM Z := _ ← iter_move c_iter_first iter; leveldb_iter_valid iter.
Definition leveldb_iter_seek_to_last_ext (iter : ptr) : EM Z := _ ← iter_move c_iter_last iter; leveldb_iter_valid iter.
Definition leveldb_iter_seek_ext (iter : ptr) (k : bytes) : EM Z := _ ← iter_move (c_iter_seek k) iter; leveldb_iter_valid iter.
Definition leveldb_iter_next_ext (iter : ptr) : EM Z := _ ← iter_move c_iter_next iter; leveldb_iter_valid iter.
Definition leveldb_iter_prev_ext (iter : ptr) : EM Z := _ ← iter_move c_iter_prev iter; leveldb_iter_valid iter.

(** rocksdb_ext.cc: a batch that has been written is cleared. *)
Definition rocksdb_write_ext (db wo batch : ptr) : EM (option ptr) :=
  err ← leveldb_write db wo batch;
  match err with
  | None => _ ← batch_update c_batch_clear batch; mret None
  | Some _ => mret err
  end.

(** ** The adapter of src/store/leveldb

    A wrapper that holds only a pointer is the pointer. *)

Definition boolToUchar (b : bool) : Z := if b then 1 else 0.
Definition ucharToBool (uc : Z) : bool := if uc =? 0 then false else true.

(** The text that becomes the error of [fmt.Errorf]. *)
Definition saveError (errStr : option ptr) : EM (option bytes) :=
  match errStr with
  | None => mret None
  | Some p => gs ← deref of_mem p; _ ← release of_mem p; mret (Some gs)
  end.

(** The first [n] bytes at a pointer. *)
Definition c_slice (mem : bytes) (n : Z) : EM bytes := if n <? 0 then panic else mret (take (Z.to_nat n) mem).

(** [&key[0]] of a slice that may be empty *)
Definition first_byte (key : bytes) : EM unit := match key with [] => panic | _ => mret tt end.

Definition NewOptions : EM ptr := alloc (COptions c_options_default).
Definition NewReadOptions : EM ptr := alloc (CRead c_read_default).
Definition NewWriteOptions : EM ptr := alloc (CWrite c_write_default).

Definition Options_Close (o : ptr) : EM unit := release of_options o.
Definition ReadOptions_Close (ro : ptr) : EM unit := release of_read ro.
Definition WriteOptions_Close (wo : ptr) : EM unit := release of_write wo.

Definition NewLRUCache (capacity : Z) : EM ptr := alloc (CCache (uint64 capacity)).
Definition Cache_Close (c : ptr) : EM unit := release of_cache c.
Definition NewBloomFilter (bitsPerKey : Z) : EM ptr := alloc (CFilter (int32 bitsPerKey)).
Definition FilterPolicy_Close (fp : ptr) : EM unit := release of_filter fp.

Definition set_option (f : c_options -> c_options) (o : ptr) : EM unit := x ← deref of_options o; assign o (COptions (f x)).
Definition set_read (f : c_readoptions -> c_readoptions) (o : ptr) : EM unit := x ← deref of_read o; assign o (CRead (f x)).
Definition set_write (f : c_writeoptions -> c_writeoptions) (o : ptr) : EM unit := x ← deref of_write o; assign o (CWrite (f x)).

Definition SetCreateIfMissing (b : bool) : ptr -> EM unit := set_option (fun x =>
  mkOptions (boolToUchar b) (co_error_if_exists x) (co_paranoid_checks x) (co_cache x) (co_filter_policy x) (co_compression x) (co_block_size x)
    (co_block_restart_interval x) (co_write_buffer_size x) (co_max_open_files x) (co_max_file_size x)).
Definition SetCache (cache : ptr) : ptr -> EM unit := set_option (fun x =>
  mkOptions (co_create_if_missing x) (co_error_if_exists x) (co_paranoid_checks x) (Some cache) (co_filter_policy x) (co_compression x) (co_block_size x)
    (co_block_restart_interval x) (co_write_buffer_size x) (co_max_open_files x) (co_max_file_size x)).
Definition SetFilterPolicy (fp : option ptr) : ptr -> EM unit := set_option (fun x =>
  mkOptions (co_create_if_missing x) (co_error_if_exists x) (co_paranoid_checks x) (co_cache x) fp (co_compression x) (co_block_size x)
    (co_block_restart_interval x) (co_write_buffer_size x) (co_max_open_files x) (co_max_file_size x)).
Definition SetCompression (t : Z) : ptr -> EM unit := set_option (fun x =>
  mkOptions (co_create_if_missing x) (co_error_if_exists x) (co_paranoid_checks x) (co_cache x) (co_filter_policy x) (int32 t) (co_block_size x)
    (co_block_restart_interval x) (co_write_buffer_size x) (co_max_open_files x) (co_max_file_size x)).
Definition SetBlockSize (s : Z) : ptr -> EM unit := set_option (fun x =>
  mkOptions (co_create_if_missing x) (co_error_if_exists x) (co_paranoid_checks x) (co_cache x) (co_filter_policy x) (co_compression x) (uint64 s)
    (co_block_restart_interval x) (co_write_buffer_size x) (co_max_open_files x) (co_max_file_size x)).
Definition SetWriteBufferSize (s : Z) : ptr -> EM unit := set_option (fun x =>
  mkOptions (co_create_if_missing x) (co_error_if_exists x) (co_paranoid_checks x) (co_cache x) (co_filter_policy x) (co_compression x) (co_block_size x)
    (co_block_restart_interval x) (uint64 s) (co_max_open_files x) (co_max_file_size x)).
Definition SetMaxOpenFiles (n : Z) : ptr -> EM unit := set_option (fun x =>
  mkOptions (co_create_if_missing x) (co_error_if_exists x) (co_paranoid_checks x) (co_cache x) (co_filter_policy x) (co_compression x) (co_block_size x)
    (co_block_restart_interval x) (co_write_buffer_size x) (int32 n) (co_max_file_size x)).
Definition SetMaxFileSize (n : Z) : ptr -> EM unit := set_option (fun x =>
  mkOptions (co_create_if_missing x) (co_error_if_exists x) (co_paranoid_checks x) (co_cache x) (co_filter_policy x) (co_compression x) (co_block_size x)
    (co_block_restart_interval x) (co_write_buffer_size x) (co_max_open_files x) (uint64 n)).
Definition SetFillCache (b : bool) : ptr -> EM unit := set_read (fun x => mkRead (ro_verify_checksums x) (boolToUchar b) (ro_snapshot x)).
Definition SetSnapshot (snap : option ptr) : ptr -> EM unit := set_read (fun x => mkRead (ro_verify_checksums x) (ro_fill_cache x) snap).
Definition SetSync (b : bool) : ptr -> EM unit := set_write (fun _ => mkWrite (boolToUchar b)).

Record LevelDBConfig := mkLevelDBConfig {
  CompressionOn : bool; BlockSize : Z; WriteBufferSize : Z; CacheSize : Z; MaxOpenFiles : Z; MaxFileSize : Z
}.

Record CDB := mkCDB {
  path : bytes;
  db : option ptr;
  opts : ptr;
  readOpts : ptr;
  writeOpts : ptr;
  iteratorOpts : ptr;
  syncOpts : ptr;
  cache : ptr;
  filter : ptr
}.

Definition defaultFilterBits : Z := 10.
Definition NoCompression : Z := 0.
Definition SnappyCompression : Z := 1.

Definition initOptions (path : bytes) (cfg : LevelDBConfig) : EM CDB :=
  opts ← NewOptions;
  _ ← SetCreateIfMissing true opts;
  cache ← NewLRUCache (CacheSize cfg);
  _ ← SetCache cache opts;
  filter ← NewBloomFilter defaultFilterBits;
  _ ← SetFilterPolicy (Some filter) opts;
  _ ← SetCompression (if negb (CompressionOn cfg) then NoCompression else SnappyCompression) opts;
  _ ← SetBlockSize (BlockSize cfg) opts;
  _ ← SetWriteBufferSize (WriteBufferSize cfg) opts;
  _ ← SetMaxOpenFiles (MaxOpenFiles cfg) opts;
  _ ← SetMaxFileSize (MaxFileSize cfg) opts;
  readOpts ← NewReadOptions;
  writeOpts ← NewWriteOptions;
  syncOpts ← NewWriteOptions;
  _ ← SetSync true syncOpts;
  iteratorOpts ← NewReadOptions;
  _ ← SetFillCache false iteratorOpts;
  mret (mkCDB path None opts readOpts writeOpts iteratorOpts syncOpts cache filter).

(** [leveldb_open] and [leveldb_repair_db] *)
Definition leveldb_open (opt name : ptr) : EM (option ptr * option ptr) :=
  o ← deref of_options opt; n ← deref of_mem name;
  res ← on_files (c_open o n);
  match res with
  | inl s => p ← alloc (CStore s); mret (Some p, None)
  | inr text => e ← alloc (CMem text); mret (None, Some e)
  end.

Definition leveldb_repair_db (opt name : ptr) : EM (option ptr) :=
  o ← deref of_options opt; n ← deref of_mem name; err ← on_files (c_repair o n); c_error err.

Definition leveldb_close (p : ptr) : EM unit :=
  s ← deref of_store p; _ ← on_files (fun fs => (c_close s fs, tt)); release of_store p.

(** The new [DB] and the error: [open] sets [db.db]. *)
Definition open (path : bytes) (cfg : LevelDBConfig) : EM (CDB * option bytes) :=
  d ← initOptions path cfg;
  ldbname ← alloc (CMem path);
  '(p, errStr) ← leveldb_open (opts d) ldbname;
  err ← saveError errStr;
  _ ← release of_mem ldbname;
  mret (mkCDB path (match errStr with Some _ => None | None => p end) (opts d) (readOpts d) (writeOpts d) (iteratorOpts d) (syncOpts d) (cache d) (filter d), err).

Definition Close (d : CDB) : EM unit :=
  _ ← (match db d with None => mret tt | Some p => leveldb_close p end);
  _ ← Options_Close (opts d);
  _ ← Cache_Close (cache d);
  _ ← FilterPolicy_Close (filter d);
  _ ← ReadOptions_Close (readOpts d);
  _ ← WriteOptions_Close (writeOpts d);
  ReadOptions_Close (iteratorOpts d).

Definition Store_Open (path : bytes) (cfg : LevelDBConfig) : EM (CDB + bytes) :=
  err ← on_files (c_mkdir path);
  match err with
  | Some err => mret (inr err)
  | None =>
      '(d, err) ← open path cfg;
      mret (match err with Some err => inr err | None => inl d end)
  end.

Definition Store_Repair (path : bytes) (cfg : LevelDBConfig) : EM (option bytes) :=
  '(d, err) ← open path cfg;
  res ← (match err with
         | None => mret None
         | Some _ =>
             ldbname ← alloc (CMem path);
             errStr ← leveldb_repair_db (opts d) ldbname;
             err ← saveError errStr;
             _ ← release of_mem ldbname;
             mret err
         end);
  _ ← Close d;
  mret res.

(** *** Reads and writes *)

Definition put (d : CDB) (wo : ptr) (key value : bytes) : EM (option bytes) :=
  p ← not_null (db d); errStr ← leveldb_put p wo key value; saveError errStr.

Definition cdb_delete (d : CDB) (wo : ptr) (key : bytes) : EM (option bytes) :=
  p ← not_null (db d); errStr ← leveldb_delete p wo key; saveError errStr.

Definition get (d : CDB) (ro : ptr) (key : bytes) : EM (option bytes * option bytes) :=
  p ← not_null (db d);
  '(value, errStr) ← leveldb_get p ro key;
  match errStr, value with
  | Some _, _ => err ← saveError errStr; mret (None, err)
  | None, None => mret (None, None)
  | None, Some value =>
      v ← deref of_mem value;
      b ← c_slice v (int32 (len v));
      _ ← release of_mem value;
      mret (Some b, None)
  end.

Record CSlice := mkCSlice { cs_data : ptr; cs_size : Z }.

Definition getSlice (d : CDB) (ro : ptr) (key : bytes) : EM (option CSlice * option bytes) :=
  p ← not_null (db d);
  '(value, errStr) ← leveldb_get p ro key;
  match errStr, value with
  | Some _, _ => err ← saveError errStr; mret (None, err)
  | None, None => mret (None, None)
  | None, Some value => v ← deref of_mem value; mret (Some (mkCSlice value (len v)), None)
  end.

Definition CSlice_Data (s : CSlice) : EM bytes := v ← deref of_mem (cs_data s); c_slice v (cs_size s).
Definition CSlice_Size (s : CSlice) : Z := cs_size s.
Definition CSlice_Free (s : CSlice) : EM unit := release of_mem (cs_data s).

Definition cdb_Put (d : CDB) : bytes -> bytes -> EM (option bytes) := put d (writeOpts d).
Definition cdb_Get (d : CDB) : bytes -> EM (option bytes * option bytes) := get d (readOpts d).
Definition cdb_Delete (d : CDB) : bytes -> EM (option bytes) := cdb_delete d (writeOpts d).
Definition cdb_SyncPut (d : CDB) : bytes -> bytes -> EM (option bytes) := put d (syncOpts d).
Definition cdb_SyncDelete (d : CDB) : bytes -> EM (option bytes) := cdb_delete d (syncOpts d).
Definition cdb_GetSlice (d : CDB) : bytes -> EM (option CSlice * option bytes) := getSlice d (readOpts d).
Definition cdb_Compact (d : CDB) : EM (option bytes) :=
  p ← not_null (db d); s ← deref of_store p; _ ← assign p (CStore (c_compact s)); mret None.

(** *** Batches *)

Record WriteBatch := mkWB { wbatch : option ptr }.

Definition newWriteBatch : EM WriteBatch := p ← alloc (CBatch c_batch_new); mret (mkWB (Some p)).

Definition WriteBatch_Close (w : WriteBatch) : EM WriteBatch :=
  match wbatch w with None => mret w | Some p => _ ← release of_batch p; mret (mkWB None) end.

Definition WriteBatch_Put (w : WriteBatch) (key value : bytes) : EM unit :=
  p ← not_null (wbatch w); batch_update (c_batch_put key value) p.

Definition WriteBatch_Delete (w : WriteBatch) (key : bytes) : EM unit :=
  _ ← first_byte key; p ← not_null (wbatch w); batch_update (c_batch_delete key) p.

Definition commit (d : CDB) (w : WriteBatch) (wb : ptr) : EM (option bytes) :=
  s ← not_null (db d); p ← not_null (wbatch w); errStr ← leveldb_write s wb p; saveError errStr.

Definition WriteBatch_Commit (d : CDB) (w : WriteBatch) : EM (option bytes) := commit d w (writeOpts d).
Definition WriteBatch_SyncCommit (d : CDB) (w : WriteBatch) : EM (option bytes) := commit d w (syncOpts d).

Definition WriteBatch_Rollback (w : WriteBatch) : EM (option bytes) :=
  p ← not_null (wbatch w); _ ← batch_update c_batch_clear p; mret None.

(** The records of the batch, added one after the other to a batch of the Go package. *)
Definition leveldb_writebatch_iterate_put (gbatch : list BatchOp) (key value : bytes) : list BatchOp := gbatch ++ [OpPut key value].
Definition leveldb_writebatch_iterate_delete (gbatch : list BatchOp) (key : bytes) : list BatchOp := gbatch ++ [OpDelete key].

Definition leveldb_writebatch_iterate_ext (b : c_batch) : list BatchOp :=
  fold_left (fun gbatch o =>
    match o with
    | OpPut key value => leveldb_writebatch_iterate_put gbatch key value
    | OpDelete key => leveldb_writebatch_iterate_delete gbatch key
    end) (c_batch_iterate b) [].

Definition WriteBatch_Data {F : BatchFormat} (w : WriteBatch) : EM bytes :=
  p ← not_null (wbatch w); b ← deref of_batch p; mret (batch_Dump (leveldb_writebatch_iterate_ext b)).

(** *** Iterators: the bytes of keys and values are those at the time of the call *)

Record CIterator := mkIterator { it : option ptr; isValid : Z }.

Definition cdb_NewIterator (d : CDB) (ro : ptr) : EM CIterator :=
  p ← not_null (db d); i ← leveldb_create_iterator p ro; mret (mkIterator (Some i) 0).

Definition iter_bytes (x : option bytes) : EM (option bytes) :=
  match x with None => mret None | Some b => b ← c_slice b (int32 (len b)); mret (Some b) end.

Definition Iterator_Key (i : CIterator) : EM (option bytes) := p ← not_null (it i); '(_, x) ← live_iter p; iter_bytes (c_iter_key x).
Definition Iterator_Value (i : CIterator) : EM (option bytes) := p ← not_null (it i); '(_, x) ← live_iter p; iter_bytes (c_iter_value x).

Definition Iterator_Close (i : CIterator) : EM CIterator :=
  match it i with None => mret i | Some p => _ ← leveldb_iter_destroy p; mret (mkIterator None (isValid i)) end.

Definition Iterator_Valid (i : CIterator) : bool := ucharToBool (isValid i).

(** [it.isValid = f(it.it)] *)
Definition iter_step (f : ptr -> EM Z) (i : CIterator) : EM CIterator := p ← not_null (it i); v ← f p; mret (mkIterator (it i) v).

Definition Iterator_Next : CIterator -> EM CIterator := iter_step leveldb_iter_next_ext.
Definition Iterator_Prev : CIterator -> EM CIterator := iter_step leveldb_iter_prev_ext.
Definition Iterator_First : CIterator -> EM CIterator := iter_step leveldb_iter_seek_to_first_ext.
Definition Iterator_Last : CIterator -> EM CIterator := iter_step leveldb_iter_seek_to_last_ext.
Definition Iterator_Seek (key : bytes) (i : CIterator) : EM CIterator :=
  _ ← first_byte key; iter_step (fun p => leveldb_iter_seek_ext p key) i.

(** *** Snapshots *)

Record Snapshot := mkSnapshot { snap_ : ptr; sn_readOpts : ptr; sn_iteratorOpts : ptr }.

Definition NewSnapshot (d : CDB) : EM Snapshot :=
  p ← not_null (db d);
  s ← leveldb_create_snapshot p;
  readOpts ← NewReadOptions;
  iteratorOpts ← NewReadOptions;
  _ ← SetSnapshot (Some s) readOpts;
  _ ← SetSnapshot (Some s) iteratorOpts;
  _ ← SetFillCache false iteratorOpts;
  mret (mkSnapshot s readOpts iteratorOpts).

Definition Snapshot_Get (d : CDB) (s : Snapshot) : bytes -> EM (option bytes * option bytes) := get d (sn_readOpts s).
Definition Snapshot_GetSlice (d : CDB) (s : Snapshot) : bytes -> EM (option CSlice * option bytes) := getSlice d (sn_readOpts s).

(** The options are those of the database, not those of the snapshot. *)
Definition Snapshot_NewIterator (d : CDB) (s : Snapshot) : EM CIterator := cdb_NewIterator d (iteratorOpts d).

Definition Snapshot_Close (d : CDB) (s : Snapshot) : EM unit :=
  p ← not_null (db d);
  _ ← leveldb_release_snapshot p (snap_ s);
  _ ← ReadOptions_Close (sn_iteratorOpts s);
  ReadOptions_Close (sn_readOpts s).

(** ** Batches of src/store/rocksdb *)

Record RocksBatch := mkRB { r_wbatch : option ptr; commitOk : bool }.

Definition rocks_Close (w : RocksBatch) : EM RocksBatch :=
  match r_wbatch w with None => mret w | Some p => _ ← release of_batch p; mret (mkRB None (commitOk w)) end.

Definition rocks_Put (w : RocksBatch) (key value : bytes) : EM RocksBatch :=
  p ← not_null (r_wbatch w); _ ← batch_update (c_batch_put key value) p; mret (mkRB (r_wbatch w) false).

Definition rocks_Delete (w : RocksBatch) (key : bytes) : EM RocksBatch :=
  _ ← first_byte key; p ← not_null (r_wbatch w); _ ← batch_update (c_batch_delete key) p; mret (mkRB (r_wbatch w) false).

Definition rocks_Rollback (w : RocksBatch) : EM (option bytes) :=
  if negb (commitOk w) then p ← not_null (r_wbatch w); _ ← batch_update c_batch_clear p; mret None
  else mret None.

Definition rocks_commit (d : CDB) (w : RocksBatch) (wb : ptr) : EM (option bytes * RocksBatch) :=
  s ← not_null (db d); p ← not_null (r_wbatch w);
  errStr ← rocksdb_write_ext s wb p;
  err ← saveError errStr;
  mret (err, mkRB (r_wbatch w) (match errStr with Some _ => false | None => true end)).

Definition rocks_Commit (d : CDB) (w : RocksBatch) : EM (option bytes * RocksBatch) := rocks_commit d w (writeOpts d).
Definition rocks_SyncCommit (d : CDB) (w : RocksBatch) : EM (option bytes * RocksBatch) := rocks_commit d w (syncOpts d).

Definition rocks_Data (w : RocksBatch) : EM bytes :=
  p ← not_null (r_wbatch w); b ← deref of_batch p; c_slice (c_batch_data b) (len (c_batch_data b)).

End Heap.

(** * What the library promises *)

(** The map that options of reads look at. *)
Definition seen {C : CLibrary} (model : c_store -> gmap bytes bytes) (snap_model : c_snapshot -> gmap bytes bytes) (sn : option c_snapshot) (s : c_store) : gmap bytes bytes :=
  match sn with Some x => snap_model x | None => model s end.

Class CLibrarySpec (C : CLibrary) := {
  c_model : c_store -> gmap bytes bytes;
  c_snap_model : c_snapshot -> gmap bytes bytes;
  c_healthy : c_store -> Prop;
  c_read_plain : ro_snapshot c_read_default = None;
  c_get_right o sn s k x : c_get o sn s k = inl x -> x = seen c_model c_snap_model sn s !! k;
  c_get_ok o sn s k : c_healthy s -> exists x, c_get o sn s k = inl x;
  c_put_all o k v s s' : c_put o k v s = (s', None) -> c_model s' = <[k := v]> (c_model s);
  c_put_none o k v s s' err : c_put o k v s = (s', Some err) -> c_model s' = c_model s;
  c_put_ok o k v s : c_healthy s -> exists s', c_put o k v s = (s', None) /\ c_healthy s';
  c_delete_all o k s s' : c_delete o k s = (s', None) -> c_model s' = base.delete k (c_model s);
  c_delete_none o k s s' err : c_delete o k s = (s', Some err) -> c_model s' = c_model s;
  c_delete_ok o k s : c_healthy s -> exists s', c_delete o k s = (s', None) /\ c_healthy s';
  c_write_all o b s s' : c_write o b s = (s', None) -> c_model s' = apply_ops (c_batch_iterate b) (c_model s);
  c_write_none o b s s' err : c_write o b s = (s', Some err) -> c_model s' = c_model s;
  c_write_ok o b s : c_healthy s -> exists s', c_write o b s = (s', None) /\ c_healthy s';
  c_compact_same s : c_model (c_compact s) = c_model s;
  c_compact_ok s : c_healthy s -> c_healthy (c_compact s);
  c_iterate_new : c_batch_iterate c_batch_new = [];
  c_iterate_put k v b : c_batch_iterate (c_batch_put k v b) = c_batch_iterate b ++ [OpPut k v];
  c_iterate_delete k b : c_batch_iterate (c_batch_delete k b) = c_batch_iterate b ++ [OpDelete k];
  c_iterate_clear b : c_batch_iterate (c_batch_clear b) = [];
  c_snapshot_same s : c_snap_model (c_snapshot_new s) = c_model s;
  c_iter_spec :: IterSpec c_iter_first c_iter_last c_iter_seek c_iter_next c_iter_prev (fun i => ucharToBool (c_iter_valid i)) c_iter_key c_iter_value;
  c_iter_snap o sn s : snap (c_iter_new o sn s) = sorted_entries (seen c_model c_snap_model sn s);
  c_iter_unset o sn s : pos (c_iter_new o sn s) = None
}.

(** * Reasoning about the heap *)

Section Steps.
Context {C : CLibrary}.
Implicit Types (w : World) (p : ptr) (o : cobj).

(** [p] returns, and what it leaves satisfies [Q]. *)
Definition ewp {S A} (c : SM S A) (s : S) (Q : A -> S -> Prop) : Prop := exists x s', c s = (Ret x, s') /\ Q x s'.

Lemma ewp_ret {S A} (x : A) (s : S) (Q : A -> S -> Prop) : Q x s -> ewp (mret x) s Q.
Proof. intros HQ. by exists x, s. Qed.

Lemma ewp_bind {S A A'} (c : SM S A) (k : A -> SM S A') (s : S) Q : ewp c s (fun x s' => ewp (k x) s' Q) -> ewp (c ≫= k) s Q.
Proof. intros (x & w1 & E1 & y & w2 & E2 & HQ). exists y, w2. split; [|done]. unfold mbind, SM_bind. by rewrite E1. Qed.

Lemma ewp_mono {S A} (c : SM S A) (s : S) (Q Q' : A -> S -> Prop) : ewp c s Q -> (forall x s', Q x s' -> Q' x s') -> ewp c s Q'.
Proof. intros (x & w1 & E1 & HQ) H. exists x, w1. eauto. Qed.

Lemma ewp_deref {A} (kind : cobj -> option A) p w o (x : A) (Q : A -> World -> Prop) :
  heap w !! p = Some o -> kind o = Some x -> Q x w -> ewp (deref kind p) w Q.
Proof. intros Hp Hk HQ. exists x, w. split; [|done]. unfold deref. rewrite Hp. cbn [mbind option_bind]. by rewrite Hk. Qed.

Lemma ewp_assign p o w (Q : unit -> World -> Prop) : Q tt (mkWorld (<[p := o]> (heap w)) (brk w) (files w)) -> ewp (assign p o) w Q.
Proof. intros HQ. by eexists _, _. Qed.

Lemma ewp_alloc o w (Q : ptr -> World -> Prop) : Q (brk w) (mkWorld (<[brk w := o]> (heap w)) (N.succ (brk w)) (files w)) -> ewp (alloc o) w Q.
Proof. intros HQ. by eexists _, _. Qed.

Lemma ewp_release {A} (kind : cobj -> option A) p w o (x : A) (Q : unit -> World -> Prop) :
  heap w !! p = Some o -> kind o = Some x -> Q tt (mkWorld (delete p (heap w)) (brk w) (files w)) -> ewp (release kind p) w Q.
Proof. intros Hp Hk HQ. apply ewp_bind. eapply ewp_deref; [done..|]. by eexists _, _. Qed.

Lemma ewp_not_null p w (Q : ptr -> World -> Prop) : Q p w -> ewp (not_null (Some p)) w Q.
Proof. apply ewp_ret. Qed.

(** The heap has grown to memory that is not used any more. *)
Definition advanced (h : gmap ptr cobj) w w' : Prop := heap w' = h /\ (brk w <= brk w')%N.

Definition below w : Prop := heap w !! brk w = None.

(** The text of an error is copied and freed. *)
Lemma ewp_error (err : option bytes) w (Q : option bytes -> World -> Prop) : below w ->
  (forall w', advanced (heap w) w w' -> Q err w') -> ewp (c_error err ≫= saveError) w Q.
Proof.
  intros Hb HQ. destruct err as [text|]; cbn [c_error].
  - apply ewp_bind, ewp_bind, ewp_alloc, ewp_ret. cbn [saveError]. apply ewp_bind. eapply ewp_deref; [apply lookup_insert_eq|done|].
    apply ewp_bind. eapply ewp_release; [apply lookup_insert_eq|done|]. apply ewp_ret, HQ. split; cbn [heap brk]; [by rewrite delete_insert_id|lia].
  - apply ewp_bind, ewp_ret, ewp_ret, HQ. by split.
Qed.

(** A call that changes the store and may fail. *)
Lemma ewp_write (f : c_writeoptions -> c_store -> c_store * option bytes) p wo w s x (Q : option bytes -> World -> Prop) :
  heap w !! p = Some (CStore s) -> heap w !! wo = Some (CWrite x) -> below w -> brk w <> p ->
  (forall w', advanced (<[p := CStore (f x s).1]> (heap w)) w w' -> Q (f x s).2 w') ->
  ewp ((s ← deref of_store p; o ← deref of_write wo; let '(s, err) := f o s in _ ← assign p (CStore s); c_error err) ≫= saveError) w Q.
Proof.
  intros Hp Hwo Hb Hne HQ. apply ewp_bind, ewp_bind. eapply ewp_deref; [exact Hp|done|]. apply ewp_bind. eapply ewp_deref; [exact Hwo|done|].
  destruct (f x s) as [s' err] eqn:E. apply ewp_bind, ewp_assign.
  assert (ewp (c_error err ≫= saveError) (mkWorld (<[p := CStore s']> (heap w)) (brk w) (files w)) Q) as H.
  { apply ewp_error; [red; cbn; by rewrite lookup_insert_ne|]. intros w' Hw'. apply HQ. exact Hw'. }
  destruct H as (y & w2 & E2 & H2). unfold mbind, SM_bind in E2. destruct (c_error err _) as [[q|] w1] eqn:E1; [|done]. exists q, w1. split; [done|]. exists y, w2. done.
Qed.
End Steps.

(** ** Who holds the objects

    [P] gives the pointers that are held, each by one holder, and [K] what is behind them. *)
Section Owns.
Context {C : CLibrary} {role : Type} `{EqDecision role}.
Implicit Types (w : World) (p : ptr) (o : cobj) (r : role) (P : role -> option ptr) (K : role -> cobj -> Prop).

Record owns P K w : Prop := {
  ow_live r p : P r = Some p -> exists o, heap w !! p = Some o /\ K r o;
  ow_only p o : heap w !! p = Some o -> exists r, P r = Some p;
  ow_inj r r' p : P r = Some p -> P r' = Some p -> r = r';
  ow_fresh p o : heap w !! p = Some o -> (p < brk w)%N
}.

Lemma owns_below P K w : owns P K w -> below w.
Proof. intros HO. red. destruct (heap w !! brk w) as [o|] eqn:E; [|done]. pose proof (ow_fresh _ _ _ HO _ _ E). lia. Qed.

Lemma owns_brk P K w r p : owns P K w -> P r = Some p -> (p < brk w)%N.
Proof. intros HO Hp. destruct (ow_live _ _ _ HO _ _ Hp) as (o & Ho & _). by apply (ow_fresh _ _ _ HO _ o). Qed.

(** Only the objects that are held matter. *)
Lemma owns_held P K w : owns P K w -> owns P (fun r o => K r o /\ P r <> None) w.
Proof. intros HO. split; [|apply HO..]. intros r p Hp. destruct (ow_live _ _ _ HO r p Hp) as (o & Ho & Hk). exists o. by rewrite Hp. Qed.

(** Nothing but the top of the heap has changed. *)
Lemma owns_advanced P P' K K' w w' : owns P K w -> advanced (heap w) w w' -> (forall r, P' r = P r) -> (forall r o, K r o -> K' r o) -> owns P' K' w'.
Proof.
  intros HO [Hh Hb] HP HK. split; rewrite ?Hh.
  - intros r p. rewrite HP. intros (o & Ho & Hk)%(ow_live _ _ _ HO). eauto.
  - intros p o (r & Hr)%(ow_only _ _ _ HO). exists r. by rewrite HP.
  - intros r r' p. rewrite !HP. apply (ow_inj _ _ _ HO).
  - intros p o Hp%(ow_fresh _ _ _ HO). lia.
Qed.

(** The object of [r] has changed. *)
Lemma owns_assign P P' K K' w w' r p o : owns P K w -> P r = Some p -> advanced (<[p := o]> (heap w)) w w' -> (forall r', P' r' = P r') ->
  (forall r' o', r' <> r -> K r' o' -> K' r' o') -> K' r o -> owns P' K' w'.
Proof.
  intros HO Hr [Hh Hb] HP HK Ho. split; rewrite ?Hh.
  - intros r' q. rewrite HP. intros Hq. destruct (decide (r' = r)) as [->|Hn].
    + assert (q = p) as -> by congruence. exists o. by rewrite lookup_insert_eq.
    + destruct (ow_live _ _ _ HO _ _ Hq) as (o' & Ho' & Hk). exists o'. rewrite lookup_insert_ne; [by auto|]. intros <-. by apply Hn, (ow_inj _ _ _ HO _ _ p).
  - intros q o'. destruct (decide (q = p)) as [->|Hn]; [exists r; by rewrite HP|]. rewrite lookup_insert_ne by done. intros (r' & Hr')%(ow_only _ _ _ HO). exists r'. by rewrite HP.
  - intros r1 r2 q. rewrite !HP. apply (ow_inj _ _ _ HO).
  - intros q o'. destruct (decide (q = p)) as [->|Hn]; [|rewrite lookup_insert_ne by done; intros Hq%(ow_fresh _ _ _ HO); lia].
    pose proof (owns_brk _ _ _ _ _ HO Hr). lia.
Qed.

(** A new object, held by [r]. *)
Lemma owns_alloc P P' K K' w w' r o : owns P K w -> P r = None -> advanced (<[brk w := o]> (heap w)) w w' -> (brk w < brk w')%N ->
  P' r = Some (brk w) -> (forall r', r' <> r -> P' r' = P r') -> (forall r' o', r' <> r -> K r' o' -> K' r' o') -> K' r o -> owns P' K' w'.
Proof.
  intros HO Hr [Hh Hb] Hb' HP1 HP HK Ho. pose proof (owns_below _ _ _ HO) as Hbel. split; rewrite ?Hh.
  - intros r' q Hq. destruct (decide (r' = r)) as [->|Hn]; [assert (q = brk w) as -> by congruence; exists o; by rewrite lookup_insert_eq|].
    rewrite HP in Hq by done. destruct (ow_live _ _ _ HO _ _ Hq) as (o' & Ho' & Hk). exists o'. rewrite lookup_insert_ne; [by auto|]. intros E. red in Hbel. congruence.
  - intros q o'. destruct (decide (q = brk w)) as [->|Hn]; [by exists r|]. rewrite lookup_insert_ne by done. intros (r' & Hr')%(ow_only _ _ _ HO). exists r'.
    rewrite HP; [done|]. congruence.
  - intros r1 r2 q H1 H2. destruct (decide (r1 = r)) as [->|N1], (decide (r2 = r)) as [->|N2]; [done| | |].
    + rewrite HP in H2 by done. pose proof (owns_brk _ _ _ _ _ HO H2). assert (q = brk w) by congruence. lia.
    + rewrite HP in H1 by done. pose proof (owns_brk _ _ _ _ _ HO H1). assert (q = brk w) by congruence. lia.
    + rewrite HP in H1, H2 by done. by apply (ow_inj _ _ _ HO _ _ q).
  - intros q o'. destruct (decide (q = brk w)) as [->|Hn]; [done|]. rewrite lookup_insert_ne by done. intros Hq%(ow_fresh _ _ _ HO). lia.
Qed.

(** The object of [r] is freed. *)
Lemma owns_release P P' K K' w w' r p : owns P K w -> P r = Some p -> advanced (delete p (heap w)) w w' -> P' r = None ->
  (forall r', r' <> r -> P' r' = P r') -> (forall r' o', r' <> r -> K r' o' -> K' r' o') -> owns P' K' w'.
Proof.
  intros HO Hr [Hh Hb] HN HP HK. split; rewrite ?Hh.
  - intros r' q Hq. destruct (decide (r' = r)) as [->|Hn]; [congruence|]. rewrite HP in Hq by done. destruct (ow_live _ _ _ HO _ _ Hq) as (o' & Ho' & Hk).
    exists o'. rewrite lookup_delete_ne; [by auto|]. intros <-. by apply Hn, (ow_inj _ _ _ HO _ _ p).
  - intros q o'. rewrite lookup_delete_Some. intros [Hn (r' & Hr')%(ow_only _ _ _ HO)]. exists r'. rewrite HP; [done|]. congruence.
  - intros r1 r2 q H1 H2. destruct (decide (r1 = r)) as [->|N1]; [congruence|]. destruct (decide (r2 = r)) as [->|N2]; [congruence|].
    rewrite HP in H1, H2 by done. by apply (ow_inj _ _ _ HO _ _ q).
  - intros q o'. rewrite lookup_delete_Some. intros [_ Hq%(ow_fresh _ _ _ HO)]. lia.
Qed.
End Owns.

(** * A client of the adapter

    It names its batches, iterators and snapshots by numbers. *)

Inductive move := MFirst | MLast | MSeek (key : bytes) | MNext | MPrev.

Inductive eop :=
  | OGet (key : bytes) | OGetSlice (key : bytes) | OPut (sync : bool) (key value : bytes) | ODelete (sync : bool) (key : bytes) | OCompact
  | OBatch (i : nat) | OBPut (i : nat) (key value : bytes) | OBDelete (i : nat) (key : bytes) | OCommit (sync : bool) (i : nat) | ORollback (i : nat) | OData (i : nat) | OBClose (i : nat)
  | OIter (i : nat) | OMove (i : nat) (m : move) | OValid (i : nat) | OKey (i : nat) | OValue (i : nat) | OIClose (i : nat)
  | OSnap (i : nat) | OSGet (i : nat) (key : bytes) | OSIter (i j : nat) | OSClose (i : nat).

Inductive eres := EUnit | EValue (v : option bytes) | EBool (b : bool) | EError (text : bytes).

Section Session.
Context {C : CLibrary} {F : BatchFormat}.

Record session := mkSession {
  s_db : CDB;
  s_batches : gmap nat WriteBatch;
  s_iters : gmap nat CIterator;
  s_snaps : gmap nat Snapshot
}.

Abbreviation SE := (SM (session * World)).

Definition in_heap {A} (p : CDB -> SM World A) : SE A := fun '(s, w) => let '(o, w) := p (s_db s) w in (o, (s, w)).
Definition update (f : session -> session) : SE unit := fun '(s, w) => (Ret tt, (f s, w)).

(** The object the client names. *)
Definition named {A} (f : session -> option A) : SE A := fun '(s, w) =>
  match f s with Some x => (Ret x, (s, w)) | None => (Panic, (s, w)) end.

Definition set_batch (i : nat) (x : WriteBatch) : SE unit := update (fun s => mkSession (s_db s) (<[i := x]> (s_batches s)) (s_iters s) (s_snaps s)).
Definition set_iter (i : nat) (x : CIterator) : SE unit := update (fun s => mkSession (s_db s) (s_batches s) (<[i := x]> (s_iters s)) (s_snaps s)).
Definition set_snap (i : nat) (x : Snapshot) : SE unit := update (fun s => mkSession (s_db s) (s_batches s) (s_iters s) (<[i := x]> (s_snaps s))).

Definition value_of (x : option bytes * option bytes) : eres := match x.2 with Some err => EError err | None => EValue x.1 end.
Definition unit_of (err : option bytes) : eres := match err with Some err => EError err | None => EUnit end.

(** [GetSlice], with the use of the slice by its caller. *)
Definition read_slice (x : option CSlice * option bytes) : SM World eres :=
  match x with
  | (_, Some err) => mret (EError err)
  | (None, None) => mret (EValue None)
  | (Some s, None) => b ← CSlice_Data s; _ ← CSlice_Free s; mret (EValue (Some b))
  end.

Definition move_iter (m : move) : CIterator -> SM World CIterator :=
  match m with
  | MFirst => Iterator_First
  | MLast => Iterator_Last
  | MSeek key => Iterator_Seek key
  | MNext => Iterator_Next
  | MPrev => Iterator_Prev
  end.

Definition estep (op : eop) : SE eres :=
  match op with
  | OGet key => x ← in_heap (fun d => cdb_Get d key); mret (value_of x)
  | OGetSlice key => in_heap (fun d => x ← cdb_GetSlice d key; read_slice x)
  | OPut sync key value => err ← in_heap (fun d => if sync then cdb_SyncPut d key value else cdb_Put d key value); mret (unit_of err)
  | ODelete sync key => err ← in_heap (fun d => if sync then cdb_SyncDelete d key else cdb_Delete d key); mret (unit_of err)
  | OCompact => err ← in_heap cdb_Compact; mret (unit_of err)
  | OBatch i => b ← in_heap (fun _ => newWriteBatch); _ ← set_batch i b; mret EUnit
  | OBPut i key value => b ← named (fun s => s_batches s !! i); _ ← in_heap (fun _ => WriteBatch_Put b key value); mret EUnit
  | OBDelete i key => b ← named (fun s => s_batches s !! i); _ ← in_heap (fun _ => WriteBatch_Delete b key); mret EUnit
  | OCommit sync i =>
      b ← named (fun s => s_batches s !! i);
      err ← in_heap (fun d => if sync then WriteBatch_SyncCommit d b else WriteBatch_Commit d b);
      mret (unit_of err)
  | ORollback i => b ← named (fun s => s_batches s !! i); err ← in_heap (fun _ => WriteBatch_Rollback b); mret (unit_of err)
  | OData i => b ← named (fun s => s_batches s !! i); x ← in_heap (fun _ => WriteBatch_Data b); mret (EValue (Some x))
  | OBClose i => b ← named (fun s => s_batches s !! i); b ← in_heap (fun _ => WriteBatch_Close b); _ ← set_batch i b; mret EUnit
  | OIter i => x ← in_heap (fun d => cdb_NewIterator d (iteratorOpts d)); _ ← set_iter i x; mret EUnit
  | OMove i m => x ← named (fun s => s_iters s !! i); x ← in_heap (fun _ => move_iter m x); _ ← set_iter i x; mret EUnit
  | OValid i => x ← named (fun s => s_iters s !! i); mret (EBool (Iterator_Valid x))
  | OKey i => x ← named (fun s => s_iters s !! i); v ← in_heap (fun _ => Iterator_Key x); mret (EValue v)
  | OValue i => x ← named (fun s => s_iters s !! i); v ← in_heap (fun _ => Iterator_Value x); mret (EValue v)
  | OIClose i => x ← named (fun s => s_iters s !! i); x ← in_heap (fun _ => Iterator_Close x); _ ← set_iter i x; mret EUnit
  | OSnap i => x ← in_heap NewSnapshot; _ ← set_snap i x; mret EUnit
  | OSGet i key => x ← named (fun s => s_snaps s !! i); v ← in_heap (fun d => Snapshot_Get d x key); mret (value_of v)
  | OSIter i j => x ← named (fun s => s_snaps s !! i); it ← in_heap (fun d => Snapshot_NewIterator d x); _ ← set_iter j it; mret EUnit
  | OSClose i =>
      x ← named (fun s => s_snaps s !! i);
      _ ← in_heap (fun d => Snapshot_Close d x);
      _ ← update (fun s => mkSession (s_db s) (s_batches s) (s_iters s) (delete i (s_snaps s)));
      mret EUnit
  end.

Fixpoint run_session (ops : list eop) : SE (list eres) :=
  match ops with
  | [] => mret []
  | op :: ops => r ← estep op; rs ← run_session ops; mret (r :: rs)
  end.
End Session.

(** ** The engine of plain values

    An iterator walks the entries that were there when it was made.  [None] is a call the
    client must not make: an object that is not open, [Next], [Prev], [Key] and [Value] of an
    iterator that is not valid, an empty key where the code takes the address of its first
    byte, and a value of 2 GB, whose length the code wraps.  The iterator of a snapshot walks
    the entries of the database and not those of the snapshot. *)

Record aengine := mkA {
  a_map : gmap bytes bytes;
  a_batches : gmap nat (list BatchOp);
  a_iters : gmap nat mem_cursor;
  a_snaps : gmap nat (gmap bytes bytes)
}.

Definition fits (v : option bytes) : bool := match v with Some v => len v <? 2 ^ 31 | None => true end.

Definition set_map (m : gmap bytes bytes) (a : aengine) : aengine := mkA m (a_batches a) (a_iters a) (a_snaps a).
Definition put_batch (i : nat) (b : list BatchOp) (a : aengine) : aengine := mkA (a_map a) (<[i := b]> (a_batches a)) (a_iters a) (a_snaps a).
Definition put_iter (i : nat) (c : mem_cursor) (a : aengine) : aengine := mkA (a_map a) (a_batches a) (<[i := c]> (a_iters a)) (a_snaps a).

Definition a_read (v : option bytes) (a : aengine) : option (eres * aengine) := if fits v then Some (EValue v, a) else None.

Definition nonempty (key : bytes) : bool := match key with [] => false | _ => true end.

Definition a_move (m : move) (c : mem_cursor) : option mem_cursor :=
  match m with
  | MFirst => Some (lit_First c)
  | MLast => Some (lit_Last c)
  | MSeek key => if nonempty key then Some (lit_Seek key c) else None
  | MNext => if lit_Valid c then Some (lit_Next c) else None
  | MPrev => if lit_Valid c then Some (lit_Prev c) else None
  end.

(** [if x is free] *)
Definition unused {A} (x : option A) (k : option (eres * aengine)) : option (eres * aengine) := match x with None => k | Some _ => None end.

Definition astep {F : BatchFormat} (op : eop) (a : aengine) : option (eres * aengine) :=
  match op with
  | OGet key => a_read (a_map a !! key) a
  | OGetSlice key => Some (EValue (a_map a !! key), a)
  | OPut _ key value => Some (EUnit, set_map (<[key := value]> (a_map a)) a)
  | ODelete _ key => Some (EUnit, set_map (delete key (a_map a)) a)
  | OCompact => Some (EUnit, a)
  | OBatch i => unused (a_batches a !! i) (Some (EUnit, put_batch i [] a))
  | OBPut i key value => b ← a_batches a !! i; Some (EUnit, put_batch i (b ++ [OpPut key value]) a)
  | OBDelete i key => b ← a_batches a !! i; if nonempty key then Some (EUnit, put_batch i (b ++ [OpDelete key]) a) else None
  | OCommit _ i => b ← a_batches a !! i; Some (EUnit, set_map (apply_ops b (a_map a)) a)
  | ORollback i => b ← a_batches a !! i; Some (EUnit, put_batch i [] a)
  | OData i => b ← a_batches a !! i; Some (EValue (Some (batch_Dump b)), a)
  | OBClose i => b ← a_batches a !! i; Some (EUnit, mkA (a_map a) (delete i (a_batches a)) (a_iters a) (a_snaps a))
  | OIter i => unused (a_iters a !! i) (Some (EUnit, put_iter i (mkCur (sorted_entries (a_map a)) None) a))
  | OMove i m => c ← a_iters a !! i; c ← a_move m c; Some (EUnit, put_iter i c a)
  | OValid i => c ← a_iters a !! i; Some (EBool (lit_Valid c), a)
  | OKey i => c ← a_iters a !! i; if lit_Valid c then a_read (lit_Key c) a else None
  | OValue i => c ← a_iters a !! i; if lit_Valid c then a_read (lit_Value c) a else None
  | OIClose i => c ← a_iters a !! i; Some (EUnit, mkA (a_map a) (a_batches a) (delete i (a_iters a)) (a_snaps a))
  | OSnap i => unused (a_snaps a !! i) (Some (EUnit, mkA (a_map a) (a_batches a) (a_iters a) (<[i := a_map a]> (a_snaps a))))
  | OSGet i key => m ← a_snaps a !! i; a_read (m !! key) a
  | OSIter i j => _ ← a_snaps a !! i; unused (a_iters a !! j) (Some (EUnit, put_iter j (mkCur (sorted_entries (a_map a)) None) a))
  | OSClose i => _ ← a_snaps a !! i; Some (EUnit, mkA (a_map a) (a_batches a) (a_iters a) (delete i (a_snaps a)))
  end.

Fixpoint arun {F : BatchFormat} (ops : list eop) (a : aengine) : option (list eres * aengine) :=
  match ops with
  | [] => Some ([], a)
  | op :: ops => '(r, a) ← astep op a; '(rs, a) ← arun ops a; Some (r :: rs, a)
  end.

(** * The refinement *)

(** The holders of the objects. *)
Inductive holder :=
  | KStore | KOptions | KCache | KFilter | KRead | KWrite | KIterOpts | KSync
  | KBatch (i : nat) | KIter (i : nat) | KSnap (i : nat) | KSnapRead (i : nat) | KSnapIter (i : nat).

#[global] Instance holder_eq_dec : EqDecision holder.
Proof. solve_decision. Defined.

Section Refinement.
Context {C : CLibrary} {CS : CLibrarySpec C} {F : BatchFormat}.
Implicit Types (s : session) (w : World) (a : aengine) (p : ptr) (o : cobj) (r : holder) (h : bool).

Definition ptr_of s r : option ptr :=
  let d := s_db s in
  match r with
  | KStore => db d | KOptions => Some (opts d) | KCache => Some (cache d) | KFilter => Some (filter d)
  | KRead => Some (readOpts d) | KWrite => Some (writeOpts d) | KIterOpts => Some (iteratorOpts d) | KSync => Some (syncOpts d)
  | KBatch i => s_batches s !! i ≫= wbatch
  | KIter i => s_iters s !! i ≫= it
  | KSnap i => snap_ <$> s_snaps s !! i
  | KSnapRead i => sn_readOpts <$> s_snaps s !! i
  | KSnapIter i => sn_iteratorOpts <$> s_snaps s !! i
  end.

(** A C iterator at the position of a plain one. *)
Definition sim (x : c_iter) (c : mem_cursor) : Prop := snap x = mc_snap c /\ pos x = mc_pos c.

(** What each holder's pointer points to; [h] says that the store has no faults. *)
Definition holds h s a r o : Prop :=
  match r with
  | KStore => exists st, o = CStore st /\ c_model st = a_map a /\ (h = true -> c_healthy st)
  | KOptions => exists x, o = COptions x
  | KCache => exists x, o = CCache x
  | KFilter => exists x, o = CFilter x
  | KRead | KIterOpts => exists x, o = CRead x /\ ro_snapshot x = None
  | KWrite | KSync => exists x, o = CWrite x
  | KBatch i => exists b, o = CBatch b /\ a_batches a !! i = Some (c_batch_iterate b)
  | KIter i => exists p x c, o = CIter p x /\ db (s_db s) = Some p /\ a_iters a !! i = Some c /\ sim x c
  | KSnap i => exists x, o = CSnapshot x /\ a_snaps a !! i = Some (c_snap_model x)
  | KSnapRead i | KSnapIter i => exists x, o = CRead x /\ ro_snapshot x = ptr_of s (KSnap i)
  end.

Record related h s w a : Prop := {
  re_owns : owns (ptr_of s) (holds h s a) w;
  re_db : is_Some (ptr_of s KStore);
  re_batch i b : a_batches a !! i = Some b -> is_Some (ptr_of s (KBatch i));
  re_iter i (c : mem_cursor) : a_iters a !! i = Some c -> exists x, s_iters s !! i = Some x /\ is_Some (it x) /\ Iterator_Valid x = lit_Valid c;
  re_snap i m : a_snaps a !! i = Some m -> is_Some (s_snaps s !! i)
}.

(** ** Objects of a related session *)

Lemma related_store h s w a : related h s w a ->
  exists p st, db (s_db s) = Some p /\ heap w !! p = Some (CStore st) /\ c_model st = a_map a /\ (h = true -> c_healthy st).
Proof. intros HR. destruct (re_db _ _ _ _ HR) as [p Hp]. destruct (ow_live _ _ _ (re_owns _ _ _ _ HR) KStore p Hp) as (o & Ho & st & -> & ?). eauto 10. Qed.

Lemma related_write h s w a (sync : bool) : related h s w a -> exists x, heap w !! (if sync then syncOpts (s_db s) else writeOpts (s_db s)) = Some (CWrite x).
Proof.
  intros HR. destruct sync; [destruct (ow_live _ _ _ (re_owns _ _ _ _ HR) KSync _ eq_refl) as (o & Ho & x & ->)|
    destruct (ow_live _ _ _ (re_owns _ _ _ _ HR) KWrite _ eq_refl) as (o & Ho & x & ->)]; eauto.
Qed.

Lemma related_read h s w a : related h s w a -> exists x, heap w !! readOpts (s_db s) = Some (CRead x) /\ ro_snapshot x = None.
Proof. intros HR. destruct (ow_live _ _ _ (re_owns _ _ _ _ HR) KRead _ eq_refl) as (o & Ho & x & -> & ?). eauto. Qed.

Lemma related_iteropts h s w a : related h s w a -> exists x, heap w !! iteratorOpts (s_db s) = Some (CRead x) /\ ro_snapshot x = None.
Proof. intros HR. destruct (ow_live _ _ _ (re_owns _ _ _ _ HR) KIterOpts _ eq_refl) as (o & Ho & x & -> & ?). eauto. Qed.

Lemma related_batch h s w a i b : related h s w a -> a_batches a !! i = Some b ->
  exists x p y, s_batches s !! i = Some x /\ wbatch x = Some p /\ heap w !! p = Some (CBatch y) /\ c_batch_iterate y = b.
Proof.
  intros HR Hb. destruct (re_batch _ _ _ _ HR i b Hb) as [p Hp]. destruct (ow_live _ _ _ (re_owns _ _ _ _ HR) (KBatch i) p Hp) as (o & Ho & y & -> & Hy).
  cbn in Hp. destruct (s_batches s !! i) as [x|] eqn:E; [|done]. exists x, p, y. rewrite Hb in Hy. by injection Hy as ->.
Qed.

Lemma related_iter h s w a i (c : mem_cursor) : related h s w a -> a_iters a !! i = Some c ->
  exists x p q y, s_iters s !! i = Some x /\ it x = Some p /\ Iterator_Valid x = lit_Valid c /\ heap w !! p = Some (CIter q y) /\ db (s_db s) = Some q /\ sim y c.
Proof.
  intros HR Hc. destruct (re_iter _ _ _ _ HR i c Hc) as (x & Hx & [p Hp] & Hv).
  destruct (ow_live _ _ _ (re_owns _ _ _ _ HR) (KIter i) p) as (o & Ho & q & y & c' & -> & Hq & Hc' & Hs); [cbn; by rewrite Hx|]. rewrite Hc in Hc'. injection Hc' as <-. exists x, p, q, y. done.
Qed.

Lemma related_snap h s w a i m : related h s w a -> a_snaps a !! i = Some m ->
  exists x y z z', s_snaps s !! i = Some x /\ heap w !! snap_ x = Some (CSnapshot y) /\ c_snap_model y = m /\
    heap w !! sn_readOpts x = Some (CRead z) /\ ro_snapshot z = Some (snap_ x) /\ heap w !! sn_iteratorOpts x = Some (CRead z').
Proof.
  intros HR Hm. destruct (re_snap _ _ _ _ HR i m Hm) as [x Hx]. pose proof (re_owns _ _ _ _ HR) as HO.
  destruct (ow_live _ _ _ HO (KSnap i) (snap_ x)) as (o & Ho & y & -> & Hy); [cbn; by rewrite Hx|].
  destruct (ow_live _ _ _ HO (KSnapRead i) (sn_readOpts x)) as (o & Ho2 & z & -> & Hz); [cbn; by rewrite Hx|].
  destruct (ow_live _ _ _ HO (KSnapIter i) (sn_iteratorOpts x)) as (o & Ho3 & z' & -> & _); [cbn; by rewrite Hx|].
  exists x, y, z, z'. cbn in Hz. rewrite Hx in Hz. rewrite Hm in Hy. injection Hy as ->. done.
Qed.

Lemma ewp_in_heap {A} (p : CDB -> SM World A) s w (Q : A -> session * World -> Prop) : ewp (p (s_db s)) w (fun x w' => Q x (s, w')) -> ewp (in_heap p) (s, w) Q.
Proof. intros (x & w' & E & HQ). exists x, (s, w'). split; [|done]. unfold in_heap. by rewrite E. Qed.

Lemma ewp_named {A} (f : session -> option A) s w (x : A) (Q : A -> session * World -> Prop) : f s = Some x -> Q x (s, w) -> ewp (named f) (s, w) Q.
Proof. intros Hf HQ. exists x, (s, w). split; [|done]. unfold named. by rewrite Hf. Qed.

Lemma ewp_update (f : session -> session) s w (Q : unit -> session * World -> Prop) : Q tt (f s, w) -> ewp (update f) (s, w) Q.
Proof. intros HQ. by eexists _, _. Qed.

(** How a step ends: as the plain engine says, or with an error of a store with faults and
    nothing changed. *)
Definition ends h (rs : eres) (a a' : aengine) (x : eres) (s' : session * World) : Prop :=
  x = rs /\ related h s'.1 s'.2 a' \/ h = false /\ (exists text, x = EError text) /\ related h s'.1 s'.2 a.

Lemma related_advanced h s w w' a : related h s w a -> advanced (heap w) w w' -> related h s w' a.
Proof. intros [HO ? ? ? ?] Ha. split; [|done..]. by apply (owns_advanced (ptr_of s) _ (holds h s a) _ w). Qed.

(** ** Writes *)

Lemma related_set h s w w' a p (st : c_store) (m : gmap bytes bytes) : related h s w a -> db (s_db s) = Some p -> advanced (<[p := CStore st]> (heap w)) w w' ->
  c_model st = m -> (h = true -> c_healthy st) -> related h s w' (set_map m a).
Proof.
  intros [HO ? ? ? ?] Hp Ha Hm Hh. split; [|done..]. apply (owns_assign (ptr_of s) _ (holds h s a) _ w w' KStore p (CStore st)); [done..| |by exists st].
  by intros [] o' Hn.
Qed.

Lemma ewp_store h s w a (f : c_writeoptions -> c_store -> c_store * option bytes) p (sync : bool) (m : gmap bytes bytes) : related h s w a -> db (s_db s) = Some p ->
  (forall x st st', f x st = (st', None) -> c_model st = a_map a -> c_model st' = m) -> (forall x st st' err, f x st = (st', Some err) -> c_model st' = c_model st) ->
  (forall x st, c_healthy st -> exists st', f x st = (st', None) /\ c_healthy st') ->
  ewp ((st ← deref of_store p; x ← deref of_write (if sync then syncOpts (s_db s) else writeOpts (s_db s)); let '(st, err) := f x st in _ ← assign p (CStore st); c_error err) ≫= saveError) w
    (fun err w' => ends h EUnit a (set_map m a) (unit_of err) (s, w')).
Proof.
  intros HR Hp H1 H2 H3. destruct (related_store _ _ _ _ HR) as (p' & st & Hp' & Hst & Hm & Hh). assert (p' = p) as -> by congruence.
  destruct (related_write _ _ _ _ sync HR) as [x Hx]. pose proof (owns_below _ _ _ (re_owns _ _ _ _ HR)) as Hb.
  eapply ewp_write; [exact Hst|exact Hx|done|intros E; red in Hb; congruence|]. intros w' Hw'.
  destruct (f x st) as [st' [text|]] eqn:E; cbn [fst snd] in *.
  - right. destruct h; [destruct (H3 x st (Hh eq_refl)) as (? & ? & _); congruence|]. split; [done|]. split; [by exists text|].
    replace a with (set_map (a_map a) a) by (by destruct a). apply (related_set _ s w w' a p st'); [done..| |done]. rewrite <- Hm. by eapply H2.
  - left. split; [done|]. apply (related_set _ s w w' a p st'); [done..|by eapply H1|]. intros ->. destruct (H3 x st (Hh eq_refl)) as (? & ? & ?). congruence.
Qed.

Lemma step_put h s w a sync key value : related h s w a -> ewp (estep (OPut sync key value)) (s, w) (ends h EUnit a (set_map (<[key := value]> (a_map a)) a)).
Proof.
  intros HR. destruct (related_store _ _ _ _ HR) as (p & st & Hp & _). apply ewp_bind, ewp_in_heap.
  eapply ewp_mono; [|intros err w' HE; apply ewp_ret; exact HE].
  assert (E : (if sync then cdb_SyncPut (s_db s) key value else cdb_Put (s_db s) key value) = put (s_db s) (if sync then syncOpts (s_db s) else writeOpts (s_db s)) key value) by (by destruct sync).
  rewrite E. unfold put. rewrite Hp. apply ewp_bind, ewp_not_null. apply (ewp_store h s w a (fun x st => c_put x key value st)); [done..| | |].
  - intros o st1 st2 E1 <-. by apply c_put_all in E1.
  - intros o st1 st2 err. apply c_put_none.
  - intros o st1. apply c_put_ok.
Qed.

Lemma step_delete h s w a sync key : related h s w a -> ewp (estep (ODelete sync key)) (s, w) (ends h EUnit a (set_map (delete key (a_map a)) a)).
Proof.
  intros HR. destruct (related_store _ _ _ _ HR) as (p & st & Hp & _). apply ewp_bind, ewp_in_heap.
  eapply ewp_mono; [|intros err w' HE; apply ewp_ret; exact HE].
  assert (E : (if sync then cdb_SyncDelete (s_db s) key else cdb_Delete (s_db s) key) = cdb_delete (s_db s) (if sync then syncOpts (s_db s) else writeOpts (s_db s)) key) by (by destruct sync).
  rewrite E. unfold cdb_delete. rewrite Hp. apply ewp_bind, ewp_not_null. apply (ewp_store h s w a (fun x st => c_delete x key st)); [done..| | |].
  - intros o st1 st2 E1 <-. by apply c_delete_all in E1.
  - intros o st1 st2 err. apply c_delete_none.
  - intros o st1. apply c_delete_ok.
Qed.

(** A batch is only read when it is written to the store. *)
Lemma leveldb_write_read p (wo q : ptr) w (y : c_batch) : heap w !! q = Some (CBatch y) ->
  leveldb_write p wo q w = (st ← deref of_store p; x ← deref of_write wo; let '(st, err) := c_write x y st in _ ← assign p (CStore st); c_error err) w.
Proof.
  intros Hq. unfold leveldb_write, mbind, SM_bind, deref. destruct (heap w !! p) as [o|]; [|done].
  destruct (of_store o) eqn:E1; unfold mbind, option_bind; rewrite ?E1; [|done].
  destruct (heap w !! wo) as [o'|]; [|done]. destruct (of_write o'); [|done]. by rewrite Hq.
Qed.

Lemma step_commit h s w a sync i b : related h s w a -> a_batches a !! i = Some b -> ewp (estep (OCommit sync i)) (s, w) (ends h EUnit a (set_map (apply_ops b (a_map a)) a)).
Proof.
  intros HR Hb. destruct (related_store _ _ _ _ HR) as (p & st & Hp & _). destruct (related_batch _ _ _ _ i b HR Hb) as (x & q & y & Hx & Hq & Hy & <-).
  apply ewp_bind. eapply ewp_named; [exact Hx|]. apply ewp_bind, ewp_in_heap.
  eapply ewp_mono; [|intros err w' HE; apply ewp_ret; exact HE].
  assert (E : (if sync then WriteBatch_SyncCommit (s_db s) x else WriteBatch_Commit (s_db s) x) = commit (s_db s) x (if sync then syncOpts (s_db s) else writeOpts (s_db s))) by (by destruct sync).
  rewrite E. unfold commit. rewrite Hp, Hq. apply ewp_bind, ewp_not_null, ewp_bind, ewp_not_null.
  destruct (ewp_store h s w a (fun x st => c_write x y st) p sync (apply_ops (c_batch_iterate y) (a_map a)) HR Hp) as (err & w' & E1 & HE).
  - intros o st1 st2 E1 <-. by apply c_write_all in E1.
  - intros o st1 st2 err. apply c_write_none.
  - intros o st1. apply c_write_ok.
  - exists err, w'. split; [|done]. rewrite <- E1. unfold mbind at 1 2, SM_bind at 1 2. by rewrite (leveldb_write_read _ _ _ _ _ Hy).
Qed.

Lemma step_compact h s w a : related h s w a -> ewp (estep OCompact) (s, w) (ends h EUnit a a).
Proof.
  intros HR. destruct (related_store _ _ _ _ HR) as (p & st & Hp & Hst & Hm & Hh). apply ewp_bind, ewp_in_heap. unfold cdb_Compact. rewrite Hp.
  apply ewp_bind, ewp_not_null, ewp_bind. eapply ewp_deref; [exact Hst|done|]. apply ewp_bind, ewp_assign, ewp_ret, ewp_ret. left. split; [done|].
  replace a with (set_map (a_map a) a) by (by destruct a). eapply (related_set _ s w _ a p (c_compact st)); [done|done|split; [done|cbn; lia]|by rewrite c_compact_same|].
  intros ->. by apply c_compact_ok, Hh.
Qed.

(** ** Reads *)

(** The options see the store or a snapshot. *)
Definition sees w (x : c_readoptions) (sn : option c_snapshot) : Prop :=
  match ro_snapshot x, sn with
  | None, None => True
  | Some q, Some y => heap w !! q = Some (CSnapshot y)
  | _, _ => False
  end.

Lemma ewp_read_snapshot w (x : c_readoptions) (sn : option c_snapshot) (Q : option c_snapshot -> World -> Prop) : sees w x sn -> Q sn w -> ewp (read_snapshot x) w Q.
Proof.
  unfold sees, read_snapshot. destruct (ro_snapshot x) as [q|], sn as [y|]; [|done..|].
  - intros Hq HQ. apply ewp_bind. eapply ewp_deref; [exact Hq|done|]. by apply ewp_ret.
  - intros _ HQ. by apply ewp_ret.
Qed.

Lemma c_slice_all w (v : bytes) n (Q : bytes -> World -> Prop) : n = len v -> Q v w -> ewp (c_slice v n) w Q.
Proof.
  intros -> HQ. unfold c_slice. rewrite (proj2 (Z.ltb_ge (len v) 0)) by lia. apply ewp_ret. by rewrite Nat2Z.id, take_ge.
Qed.

Lemma int32_len (v : bytes) : fits (Some v) = true -> int32 (len v) = len v.
Proof. cbn. intros H%Z.ltb_lt. apply int32_small. unfold in_i32. lia. Qed.

(** A value from the library is copied and freed. *)
Lemma ewp_get (d : CDB) (ro : ptr) key p w st x sn (Q : option bytes * option bytes -> World -> Prop) : db d = Some p -> heap w !! p = Some (CStore st) ->
  heap w !! ro = Some (CRead x) -> sees w x sn -> below w -> (forall v, c_get x sn st key = inl v -> fits v = true) ->
  (forall w', advanced (heap w) w w' -> Q (match c_get x sn st key with inl v => (v, None) | inr text => (None, Some text) end) w') ->
  ewp (get d ro key) w Q.
Proof.
  intros Hd Hp Hro Hsn Hb Hf HQ. unfold get, leveldb_get. rewrite Hd. apply ewp_bind, ewp_not_null, ewp_bind, ewp_bind. eapply ewp_deref; [exact Hp|done|].
  apply ewp_bind. eapply ewp_deref; [exact Hro|done|]. apply ewp_bind. eapply ewp_read_snapshot; [exact Hsn|].
  destruct (c_get x sn st key) as [[v|]|text].
  - apply ewp_bind, ewp_alloc, ewp_ret, ewp_bind. eapply ewp_deref; [apply lookup_insert_eq|done|]. apply ewp_bind, c_slice_all; [by apply int32_len, Hf|].
    apply ewp_bind. eapply ewp_release; [apply lookup_insert_eq|done|]. apply ewp_ret, HQ. split; cbn [heap brk]; [by rewrite delete_insert_id|lia].
  - apply ewp_ret, ewp_ret, HQ. by split.
  - apply ewp_bind, ewp_alloc, ewp_ret. apply ewp_bind. cbn [saveError]. apply ewp_bind. eapply ewp_deref; [apply lookup_insert_eq|done|].
    apply ewp_bind. eapply ewp_release; [apply lookup_insert_eq|done|]. apply ewp_ret, ewp_ret, HQ. split; cbn [heap brk]; [by rewrite delete_insert_id|lia].
Qed.

(** What the result of a read is. *)
Lemma read_ends h s w w' a x sn st key : related h s w a -> advanced (heap w) w w' -> (h = true -> c_healthy st) ->
  ends h (EValue (seen c_model c_snap_model sn st !! key)) a a (value_of (match c_get x sn st key with inl v => (v, None) | inr text => (None, Some text) end)) (s, w').
Proof.
  intros HR Ha Hh. pose proof (related_advanced _ _ _ _ _ HR Ha) as HR'. destruct (c_get x sn st key) as [v|text] eqn:E.
  - left. split; [|done]. by rewrite (c_get_right _ _ _ _ _ E).
  - right. destruct h; [destruct (c_get_ok x sn st key (Hh eq_refl)); congruence|]. split; [done|]. split; [by exists text|done].
Qed.

Lemma step_get h s w a key : related h s w a -> fits (a_map a !! key) = true -> ewp (estep (OGet key)) (s, w) (ends h (EValue (a_map a !! key)) a a).
Proof.
  intros HR Hf. destruct (related_store _ _ _ _ HR) as (p & st & Hp & Hst & Hm & Hh). destruct (related_read _ _ _ _ HR) as (x & Hx & Hsn).
  apply ewp_bind, ewp_in_heap. eapply (ewp_get _ _ _ p _ st x None); [done..|by unfold sees; rewrite Hsn|apply (owns_below _ _ _ (re_owns _ _ _ _ HR))| |].
  - intros v Hv. apply c_get_right in Hv as ->. cbn. by rewrite Hm.
  - intros w' Hw'. apply ewp_ret. rewrite <- Hm. by apply (read_ends h s w w' a x None st key).
Qed.

Lemma step_sget h s w a i m key : related h s w a -> a_snaps a !! i = Some m -> fits (m !! key) = true -> ewp (estep (OSGet i key)) (s, w) (ends h (EValue (m !! key)) a a).
Proof.
  intros HR Hm Hf. destruct (related_store _ _ _ _ HR) as (p & st & Hp & Hst & _ & Hh). destruct (related_snap _ _ _ _ i m HR Hm) as (x & y & z & z' & Hx & Hy & <- & Hz & Hsn & _).
  apply ewp_bind. eapply ewp_named; [exact Hx|]. apply ewp_bind, ewp_in_heap.
  eapply (ewp_get _ _ _ p _ st z (Some y)); [done..|by unfold sees; rewrite Hsn|apply (owns_below _ _ _ (re_owns _ _ _ _ HR))| |].
  - intros v Hv. by apply c_get_right in Hv as ->.
  - intros w' Hw'. apply ewp_ret. by apply (read_ends h s w w' a z (Some y) st key).
Qed.

Lemma step_get_slice h s w a key : related h s w a -> ewp (estep (OGetSlice key)) (s, w) (ends h (EValue (a_map a !! key)) a a).
Proof.
  intros HR. destruct (related_store _ _ _ _ HR) as (p & st & Hp & Hst & Hm & Hh). destruct (related_read _ _ _ _ HR) as (x & Hx & Hsn).
  pose proof (owns_below _ _ _ (re_owns _ _ _ _ HR)) as Hb.
  apply ewp_in_heap, ewp_bind. unfold cdb_GetSlice, getSlice, leveldb_get. rewrite Hp. apply ewp_bind, ewp_not_null, ewp_bind, ewp_bind. eapply ewp_deref; [exact Hst|done|].
  apply ewp_bind. eapply ewp_deref; [exact Hx|done|]. apply ewp_bind. eapply (ewp_read_snapshot _ _ None); [by unfold sees; rewrite Hsn|].
  assert (HE : forall w', advanced (heap w) w w' -> ends h (EValue (a_map a !! key)) a a (value_of (match c_get x None st key with inl v => (v, None) | inr text => (None, Some text) end)) (s, w')).
  { intros w' Hw'. rewrite <- Hm. by apply (read_ends h s w w' a x None st key). }
  destruct (c_get x None st key) as [[v|]|text].
  - apply ewp_bind, ewp_alloc, ewp_ret, ewp_bind. eapply ewp_deref; [apply lookup_insert_eq|done|]. apply ewp_ret. cbn [read_slice]. unfold CSlice_Data, CSlice_Free. cbn [cs_data cs_size].
    apply ewp_bind, ewp_bind. eapply ewp_deref; [apply lookup_insert_eq|done|]. apply c_slice_all; [done|]. apply ewp_bind. eapply ewp_release; [apply lookup_insert_eq|done|].
    apply ewp_ret, HE. split; cbn [heap brk]; [by rewrite delete_insert_id|lia].
  - apply ewp_ret, ewp_ret. cbn [read_slice]. apply ewp_ret, HE. by split.
  - apply ewp_bind, ewp_alloc, ewp_ret. apply ewp_bind. cbn [saveError]. apply ewp_bind. eapply ewp_deref; [apply lookup_insert_eq|done|].
    apply ewp_bind. eapply ewp_release; [apply lookup_insert_eq|done|]. apply ewp_ret, ewp_ret. cbn [read_slice]. apply ewp_ret, HE. split; cbn [heap brk]; [by rewrite delete_insert_id|lia].
Qed.

(** ** Batches *)

(** Other holders are not concerned. *)
Ltac other_holders :=
  let r' := fresh "r'" in let o' := fresh "o'" in let Hn := fresh "Hn" in
  lazymatch goal with
  | |- forall (r : holder) (o : cobj), _ => intros r' o' Hn
  | _ => intros r' Hn
  end;
  destruct r'; cbn [ptr_of holds s_db s_batches s_iters s_snaps a_map a_batches a_iters a_snaps put_batch put_iter set_map] in *; try done;
  rewrite ?lookup_insert_ne, ?lookup_delete_ne by congruence; done.

Lemma unheld h s w a r : related h s w a -> (forall o, ~ holds h s a r o) -> ptr_of s r = None.
Proof. intros HR Hn. destruct (ptr_of s r) as [p|] eqn:E; [|done]. destruct (ow_live _ _ _ (re_owns _ _ _ _ HR) r p E) as (o & _ & Ho). by destruct (Hn o). Qed.

Lemma step_batch h s w a i : related h s w a -> a_batches a !! i = None -> ewp (estep (OBatch i)) (s, w) (ends h EUnit a (put_batch i [] a)).
Proof.
  intros HR Hi. apply ewp_bind, ewp_in_heap. apply ewp_bind, ewp_alloc, ewp_ret, ewp_bind, ewp_update, ewp_ret. left. split; [done|]. cbn [fst snd].
  assert (Hn : ptr_of s (KBatch i) = None) by (apply (unheld h s w a); [done|]; intros o (b & _ & Hb); congruence).
  pose proof HR as [HO ? Hbs ? ?]. split; [|done| |done..].
  - eapply (owns_alloc (ptr_of s) _ (holds h s a) _ w _ (KBatch i) (CBatch c_batch_new)); [done|done|split; cbn; [done|lia]|cbn; lia|cbn; by rewrite lookup_insert_eq|other_holders|other_holders|].
    exists c_batch_new. split; [done|]. cbn. by rewrite lookup_insert_eq, c_iterate_new.
  - intros j b. cbn. destruct (decide (i = j)) as [->|Hne]; [by rewrite !lookup_insert_eq|]. rewrite !lookup_insert_ne by done. apply Hbs.
Qed.

(** The batch has changed in the C library. *)
Lemma related_update h s w a i x p (y : c_batch) (b : list BatchOp) : related h s w a -> s_batches s !! i = Some x -> wbatch x = Some p -> c_batch_iterate y = b ->
  related h s (mkWorld (<[p := CBatch y]> (heap w)) (brk w) (files w)) (put_batch i b a).
Proof.
  intros HR Hx Hp Hy. pose proof HR as [HO ? Hbs ? ?]. assert (HP : ptr_of s (KBatch i) = Some p) by (cbn; by rewrite Hx). split; [|done| |done..].
  - eapply (owns_assign (ptr_of s) _ (holds h s a) _ w _ (KBatch i) p (CBatch y)); [done|done|split; cbn; [done|lia]|done|other_holders|].
    exists y. split; [done|]. cbn. by rewrite lookup_insert_eq, Hy.
  - intros j b'. cbn. destruct (decide (i = j)) as [<-|Hne]; [intros _; cbn in HP; by rewrite HP|]. rewrite !lookup_insert_ne by done. apply Hbs.
Qed.

Lemma step_update h s w a i (f : c_batch -> c_batch) x p b b' : related h s w a -> a_batches a !! i = Some b -> s_batches s !! i = Some x -> wbatch x = Some p ->
  (forall y, c_batch_iterate y = b -> c_batch_iterate (f y) = b') ->
  ewp (batch_update f p) w (fun _ w' => related h s w' (put_batch i b' a)).
Proof.
  intros HR Hb Hx Hp Hf. destruct (related_batch _ _ _ _ i b HR Hb) as (x' & p' & y & Hx' & Hp' & Hy & <-). assert (x' = x) as -> by congruence. assert (p' = p) as -> by congruence.
  apply ewp_bind. eapply ewp_deref; [exact Hy|done|]. apply ewp_assign. eapply related_update; [done..|]. by apply Hf.
Qed.

Lemma step_bput h s w a i b key value : related h s w a -> a_batches a !! i = Some b -> ewp (estep (OBPut i key value)) (s, w) (ends h EUnit a (put_batch i (b ++ [OpPut key value]) a)).
Proof.
  intros HR Hb. destruct (related_batch _ _ _ _ i b HR Hb) as (x & p & y & Hx & Hp & _ & _). apply ewp_bind. eapply ewp_named; [exact Hx|]. apply ewp_bind, ewp_in_heap.
  unfold WriteBatch_Put. rewrite Hp. apply ewp_bind, ewp_not_null. eapply ewp_mono; [apply (step_update h s w a i _ x p b (b ++ [OpPut key value])); [done..|]|].
  - intros y' <-. apply c_iterate_put.
  - intros [] w' HR'. apply ewp_ret. by left.
Qed.

Lemma step_bdelete h s w a i b key : related h s w a -> a_batches a !! i = Some b -> nonempty key = true ->
  ewp (estep (OBDelete i key)) (s, w) (ends h EUnit a (put_batch i (b ++ [OpDelete key]) a)).
Proof.
  intros HR Hb Hk. destruct (related_batch _ _ _ _ i b HR Hb) as (x & p & y & Hx & Hp & _ & _). apply ewp_bind. eapply ewp_named; [exact Hx|]. apply ewp_bind, ewp_in_heap.
  unfold WriteBatch_Delete. rewrite Hp. apply ewp_bind. destruct key as [|k key]; [done|]. apply ewp_ret, ewp_bind, ewp_not_null.
  eapply ewp_mono; [apply (step_update h s w a i _ x p b (b ++ [OpDelete (k :: key)])); [done..|]|].
  - intros y' <-. apply c_iterate_delete.
  - intros [] w' HR'. apply ewp_ret. by left.
Qed.

Lemma step_rollback h s w a i b : related h s w a -> a_batches a !! i = Some b -> ewp (estep (ORollback i)) (s, w) (ends h EUnit a (put_batch i [] a)).
Proof.
  intros HR Hb. destruct (related_batch _ _ _ _ i b HR Hb) as (x & p & y & Hx & Hp & _ & _). apply ewp_bind. eapply ewp_named; [exact Hx|]. apply ewp_bind, ewp_in_heap.
  unfold WriteBatch_Rollback. rewrite Hp. apply ewp_bind, ewp_not_null, ewp_bind. eapply ewp_mono; [apply (step_update h s w a i _ x p b []); [done..|]|].
  - intros y' _. apply c_iterate_clear.
  - intros [] w' HR'. apply ewp_ret, ewp_ret. by left.
Qed.

(** The records are copied in their order. *)
Lemma iterate_ext (b : c_batch) : leveldb_writebatch_iterate_ext b = c_batch_iterate b.
Proof.
  unfold leveldb_writebatch_iterate_ext, leveldb_writebatch_iterate_put, leveldb_writebatch_iterate_delete. generalize (c_batch_iterate b) as l. intros l.
  assert (H : forall g, fold_left (fun gbatch x => match x with OpPut k v => gbatch ++ [OpPut k v] | OpDelete k => gbatch ++ [OpDelete k] end) l g = g ++ l); [|apply (H [])].
  induction l as [|[k v|k] l IH]; intros g; cbn [fold_left]; [by rewrite app_nil_r|by rewrite IH, <- app_assoc..].
Qed.

Lemma step_data h s w a i b : related h s w a -> a_batches a !! i = Some b -> ewp (estep (OData i)) (s, w) (ends h (EValue (Some (batch_Dump b))) a a).
Proof.
  intros HR Hb. destruct (related_batch _ _ _ _ i b HR Hb) as (x & p & y & Hx & Hp & Hy & <-). apply ewp_bind. eapply ewp_named; [exact Hx|]. apply ewp_bind, ewp_in_heap.
  unfold WriteBatch_Data. rewrite Hp. apply ewp_bind, ewp_not_null, ewp_bind. eapply ewp_deref; [exact Hy|done|]. apply ewp_ret, ewp_ret. left. by rewrite iterate_ext.
Qed.

Lemma step_bclose h s w a i b : related h s w a -> a_batches a !! i = Some b ->
  ewp (estep (OBClose i)) (s, w) (ends h EUnit a (mkA (a_map a) (delete i (a_batches a)) (a_iters a) (a_snaps a))).
Proof.
  intros HR Hb. destruct (related_batch _ _ _ _ i b HR Hb) as (x & p & y & Hx & Hp & Hy & <-). apply ewp_bind. eapply ewp_named; [exact Hx|]. apply ewp_bind, ewp_in_heap.
  unfold WriteBatch_Close. rewrite Hp. apply ewp_bind. eapply ewp_release; [exact Hy|done|]. apply ewp_ret, ewp_bind, ewp_update, ewp_ret. left. split; [done|]. cbn [fst snd].
  pose proof HR as [HO ? Hbs ? ?]. split; [|done| |done..].
  - eapply (owns_release (ptr_of s) _ (holds h s a) _ w _ (KBatch i) p); [done|cbn; by rewrite Hx|split; cbn; [done|lia]|cbn; by rewrite lookup_insert_eq|other_holders|other_holders].
  - intros j b'. cbn. rewrite lookup_delete_Some. intros [Hne Hb']. rewrite lookup_insert_ne by done. by apply (Hbs _ b').
Qed.

(** ** Iterators *)

Lemma sim_valid (y : c_iter) (c : mem_cursor) : sim y c -> ucharToBool (c_iter_valid y) = lit_Valid c.
Proof.
  intros [Hs Hp]. rewrite (valid_pos (valid := fun i => ucharToBool (c_iter_valid i)) y). rewrite Hp. cbn. destruct (mc_pos c) as [n|] eqn:E; [|by rewrite bool_decide_false by (by intros [])].
  rewrite !bool_decide_true; [done| |by eexists]. rewrite <- Hs. by apply pos_range.
Qed.

Definition c_move (m : move) : c_iter -> c_iter :=
  match m with MFirst => c_iter_first | MLast => c_iter_last | MSeek key => c_iter_seek key | MNext => c_iter_next | MPrev => c_iter_prev end.

Lemma sim_move (m : move) (y : c_iter) (c c' : mem_cursor) : sim y c -> a_move m c = Some c' -> sim (c_move m y) c'.
Proof.
  intros HS. pose proof (sim_valid y c HS) as HV. destruct HS as [Hs Hp].
  assert (Hpos : lit_Valid c = true -> exists n, mc_pos c = Some n /\ pos y = Some n /\ (n < length (snap y))%nat).
  { intros Hv. cbn in Hv. destruct (mc_pos c) as [n|]; [|done]. exists n. split; [done|]. split; [done|]. by apply pos_range. }
  destruct m as [| |key| |]; cbn [a_move c_move].
  - intros [= <-]. split; cbn; [by rewrite snap_first|by rewrite pos_first, Hs].
  - intros [= <-]. split; cbn; [by rewrite snap_last|by rewrite pos_last, Hs].
  - destruct (nonempty key); [|done]. intros [= <-]. split; cbn; [by rewrite snap_seek|by rewrite pos_seek, Hs].
  - case_match; [|done]. intros [= <-]. destruct Hpos as (n & E1 & E2 & Hn); [done|]. split; cbn; [by rewrite snap_next|]. by rewrite (pos_next y n E2), E1, Hs.
  - case_match; [|done]. intros [= <-]. destruct Hpos as (n & E1 & E2 & Hn); [done|]. split; cbn; [by rewrite snap_prev|]. rewrite (pos_prev y n E2), E1, <- Hs.
    destruct n as [|n]; [done|]. unfold clamp. rewrite decide_True by lia. done.
Qed.

(** Iterators made with the options of the database. *)
Lemma new_iter h s w a j : related h s w a -> a_iters a !! j = None ->
  ewp (cdb_NewIterator (s_db s) (iteratorOpts (s_db s))) w (fun x w' =>
    related h (mkSession (s_db s) (s_batches s) (<[j := x]> (s_iters s)) (s_snaps s)) w' (put_iter j (mkCur (sorted_entries (a_map a)) None) a)).
Proof.
  intros HR Hj. destruct (related_store _ _ _ _ HR) as (p & st & Hp & Hst & Hm & _). destruct (related_iteropts _ _ _ _ HR) as (x & Hx & Hsn).
  unfold cdb_NewIterator, leveldb_create_iterator. rewrite Hp. apply ewp_bind, ewp_not_null, ewp_bind, ewp_bind. eapply ewp_deref; [exact Hst|done|].
  apply ewp_bind. eapply ewp_deref; [exact Hx|done|]. apply ewp_bind. eapply (ewp_read_snapshot _ _ None); [by unfold sees; rewrite Hsn|]. apply ewp_alloc, ewp_ret.
  assert (Hn : ptr_of s (KIter j) = None) by (apply (unheld h s w a); [done|]; intros o (? & ? & ? & _ & _ & Hc & _); congruence).
  pose proof HR as [HO ? ? Hi ?]. split; [|done|done| |done].
  - eapply (owns_alloc (ptr_of s) _ (holds h s a) _ w _ (KIter j)); [done|done|split; cbn; [reflexivity|lia]|cbn; lia|cbn; by rewrite lookup_insert_eq|other_holders|other_holders|].
    eexists p, _, _. split; [reflexivity|]. split; [done|]. split; [cbn; by rewrite lookup_insert_eq|]. split; cbn; [by rewrite c_iter_snap, <- Hm|apply c_iter_unset].
  - intros k c. cbn. destruct (decide (j = k)) as [->|Hne].
    + rewrite !lookup_insert_eq. intros [= <-]. eexists. split; [reflexivity|]. split; [by eexists|done].
    + rewrite !lookup_insert_ne by done. apply Hi.
Qed.

Lemma step_iter h s w a i : related h s w a -> a_iters a !! i = None -> ewp (estep (OIter i)) (s, w) (ends h EUnit a (put_iter i (mkCur (sorted_entries (a_map a)) None) a)).
Proof.
  intros HR Hi. apply ewp_bind, ewp_in_heap. eapply ewp_mono; [by apply (new_iter h s w a i)|]. intros x w' HR'. apply ewp_bind, ewp_update, ewp_ret. by left.
Qed.

Lemma step_siter h s w a i m j : related h s w a -> a_snaps a !! i = Some m -> a_iters a !! j = None ->
  ewp (estep (OSIter i j)) (s, w) (ends h EUnit a (put_iter j (mkCur (sorted_entries (a_map a)) None) a)).
Proof.
  intros HR Hm Hi. destruct (re_snap _ _ _ _ HR i m Hm) as [x Hx]. apply ewp_bind. eapply ewp_named; [exact Hx|]. apply ewp_bind, ewp_in_heap.
  eapply ewp_mono; [by apply (new_iter h s w a j)|]. intros y w' HR'. apply ewp_bind, ewp_update, ewp_ret. by left.
Qed.

Lemma ewp_live p q (y : c_iter) (st : c_store) w (Q : ptr * c_iter -> World -> Prop) : heap w !! p = Some (CIter q y) -> heap w !! q = Some (CStore st) -> Q (q, y) w -> ewp (live_iter p) w Q.
Proof. intros Hp Hq HQ. apply ewp_bind. eapply ewp_deref; [exact Hp|done|]. apply ewp_bind. eapply ewp_deref; [exact Hq|done|]. by apply ewp_ret. Qed.

Lemma ewp_move p q (y : c_iter) (st : c_store) (g : c_iter -> c_iter) w (Q : Z -> World -> Prop) : heap w !! p = Some (CIter q y) -> heap w !! q = Some (CStore st) ->
  Q (c_iter_valid (g y)) (mkWorld (<[p := CIter q (g y)]> (heap w)) (brk w) (files w)) -> ewp (iter_move g p ≫= fun _ => leveldb_iter_valid p) w Q.
Proof.
  intros Hp Hq HQ. assert (q <> p) by congruence. apply ewp_bind, ewp_bind. eapply ewp_live; [exact Hp|exact Hq|]. apply ewp_assign, ewp_bind.
  eapply ewp_live; [apply lookup_insert_eq|cbn; by rewrite lookup_insert_ne|]. by apply ewp_ret.
Qed.

Lemma move_iter_step (m : move) (x : CIterator) p w Q : it x = Some p -> (forall c c' : mem_cursor, a_move m c = Some c' -> ewp (iter_move (c_move m) p ≫= fun _ => leveldb_iter_valid p) w
  (fun v w' => Q (mkIterator (it x) v) w')) -> (exists c c' : mem_cursor, a_move m c = Some c') -> ewp (move_iter m x) w Q.
Proof.
  intros Hx HQ (c & c' & E). specialize (HQ c c' E).
  assert (Hstep : forall f : ptr -> SM World Z, ewp (f p) w (fun v w' => Q (mkIterator (it x) v) w') -> ewp (iter_step f x) w Q).
  { intros f Hf. unfold iter_step. rewrite Hx in *. apply ewp_bind, ewp_not_null, ewp_bind. eapply ewp_mono; [exact Hf|]. intros v w' Hv. by apply ewp_ret. }
  destruct m as [| |key| |]; cbn [move_iter].
  1,2,4,5: by apply Hstep.
  unfold Iterator_Seek. apply ewp_bind. destruct key as [|k key]; [done|]. apply ewp_ret. by apply Hstep.
Qed.

Lemma step_move h s w a i m (c c' : mem_cursor) : related h s w a -> a_iters a !! i = Some c -> a_move m c = Some c' -> ewp (estep (OMove i m)) (s, w) (ends h EUnit a (put_iter i c' a)).
Proof.
  intros HR Hc Hm. destruct (related_iter _ _ _ _ i c HR Hc) as (x & p & q & y & Hx & Hp & _ & Hy & Hq & HS). destruct (related_store _ _ _ _ HR) as (q' & st & Hq' & Hst & _).
  assert (q' = q) as -> by congruence. apply ewp_bind. eapply ewp_named; [exact Hx|]. apply ewp_bind, ewp_in_heap. eapply move_iter_step; [exact Hp| |by exists c, c'].
  intros _ _ _. eapply ewp_move; [exact Hy|exact Hst|]. apply ewp_bind, ewp_update, ewp_ret. left. split; [done|]. cbn [fst snd].
  pose proof (sim_move m y c c' HS Hm) as HS'. pose proof HR as [HO ? ? Hi ?]. assert (HP : ptr_of s (KIter i) = Some p) by (cbn; by rewrite Hx).
  split; [|done|done| |done].
  - eapply (owns_assign (ptr_of s) _ (holds h s a) _ w _ (KIter i) p); [done|done|split; cbn; [reflexivity|lia]| |other_holders|].
    + intros []; try done. cbn. destruct (decide (i = i0)) as [<-|Hne]; [by rewrite lookup_insert_eq, Hx|by rewrite lookup_insert_ne].
    + exists q, (c_move m y), c'. split; [done|]. split; [done|]. split; [cbn; by rewrite lookup_insert_eq|done].
  - intros k c1. cbn. destruct (decide (i = k)) as [<-|Hne].
    + rewrite !lookup_insert_eq. intros [= <-]. eexists. split; [reflexivity|]. split; [by eexists|]. by apply sim_valid.
    + rewrite !lookup_insert_ne by done. apply Hi.
Qed.

Lemma step_valid h s w a i (c : mem_cursor) : related h s w a -> a_iters a !! i = Some c -> ewp (estep (OValid i)) (s, w) (ends h (EBool (lit_Valid c)) a a).
Proof.
  intros HR Hc. destruct (related_iter _ _ _ _ i c HR Hc) as (x & p & q & y & Hx & _ & Hv & _). apply ewp_bind. eapply ewp_named; [exact Hx|]. apply ewp_ret. left. by rewrite Hv.
Qed.

Lemma ewp_iter_bytes (v : option bytes) w (Q : option bytes -> World -> Prop) : fits v = true -> Q v w -> ewp (iter_bytes v) w Q.
Proof. intros Hf HQ. destruct v as [v|]; cbn [iter_bytes]; [|by apply ewp_ret]. apply ewp_bind, c_slice_all; [by apply int32_len|]. by apply ewp_ret. Qed.

(** The entry an iterator is at. *)
Lemma sim_entry (y : c_iter) (c : mem_cursor) : sim y c -> lit_Valid c = true -> c_iter_key y = lit_Key c /\ c_iter_value y = lit_Value c.
Proof.
  intros [Hs Hp] Hv. cbn in *. destruct (mc_pos c) as [n|]; [|done]. pose proof (pos_range y n Hp) as Hn. destruct (lookup_lt_is_Some_2 (snap y) n Hn) as [kv Hkv].
  rewrite (key_at y n kv Hp Hkv), (value_at y n kv Hp Hkv). rewrite <- Hs, Hkv. done.
Qed.

Lemma step_key h s w a i (c : mem_cursor) : related h s w a -> a_iters a !! i = Some c -> lit_Valid c = true -> fits (lit_Key c) = true -> ewp (estep (OKey i)) (s, w) (ends h (EValue (lit_Key c)) a a).
Proof.
  intros HR Hc Hv Hf. destruct (related_iter _ _ _ _ i c HR Hc) as (x & p & q & y & Hx & Hp & _ & Hy & Hq & HS). destruct (related_store _ _ _ _ HR) as (q' & st & Hq' & Hst & _).
  assert (q' = q) as -> by congruence. apply ewp_bind. eapply ewp_named; [exact Hx|]. apply ewp_bind, ewp_in_heap. unfold Iterator_Key. rewrite Hp.
  apply ewp_bind, ewp_not_null, ewp_bind. eapply ewp_live; [exact Hy|exact Hst|]. rewrite (proj1 (sim_entry y c HS Hv)). apply ewp_iter_bytes; [done|]. apply ewp_ret. by left.
Qed.

Lemma step_value h s w a i (c : mem_cursor) : related h s w a -> a_iters a !! i = Some c -> lit_Valid c = true -> fits (lit_Value c) = true -> ewp (estep (OValue i)) (s, w) (ends h (EValue (lit_Value c)) a a).
Proof.
  intros HR Hc Hv Hf. destruct (related_iter _ _ _ _ i c HR Hc) as (x & p & q & y & Hx & Hp & _ & Hy & Hq & HS). destruct (related_store _ _ _ _ HR) as (q' & st & Hq' & Hst & _).
  assert (q' = q) as -> by congruence. apply ewp_bind. eapply ewp_named; [exact Hx|]. apply ewp_bind, ewp_in_heap. unfold Iterator_Value. rewrite Hp.
  apply ewp_bind, ewp_not_null, ewp_bind. eapply ewp_live; [exact Hy|exact Hst|]. rewrite (proj2 (sim_entry y c HS Hv)). apply ewp_iter_bytes; [done|]. apply ewp_ret. by left.
Qed.

Lemma step_iclose h s w a i (c : mem_cursor) : related h s w a -> a_iters a !! i = Some c ->
  ewp (estep (OIClose i)) (s, w) (ends h EUnit a (mkA (a_map a) (a_batches a) (delete i (a_iters a)) (a_snaps a))).
Proof.
  intros HR Hc. destruct (related_iter _ _ _ _ i c HR Hc) as (x & p & q & y & Hx & Hp & _ & Hy & Hq & HS). destruct (related_store _ _ _ _ HR) as (q' & st & Hq' & Hst & _).
  assert (q' = q) as -> by congruence. apply ewp_bind. eapply ewp_named; [exact Hx|]. apply ewp_bind, ewp_in_heap. unfold Iterator_Close. rewrite Hp.
  apply ewp_bind. apply ewp_bind. eapply ewp_live; [exact Hy|exact Hst|]. eapply ewp_release; [exact Hy|done|]. apply ewp_ret, ewp_bind, ewp_update, ewp_ret. left. split; [done|]. cbn [fst snd].
  pose proof HR as [HO ? ? Hi ?]. split; [|done|done| |done].
  - eapply (owns_release (ptr_of s) _ (holds h s a) _ w _ (KIter i) p); [done|cbn; by rewrite Hx|split; cbn; [reflexivity|lia]|cbn; by rewrite lookup_insert_eq|other_holders|other_holders].
  - intros k c1. cbn. rewrite lookup_delete_Some. intros [Hne Hc1]. rewrite lookup_insert_ne by done. by apply Hi.
Qed.

(** ** Snapshots *)

(** The pointers with one more holder, and with one less. *)
Definition with_ptr r (x : option ptr) (P : holder -> option ptr) : holder -> option ptr := fun r' => if decide (r' = r) then x else P r'.

Lemma with_ptr_eq r x P : with_ptr r x P r = x.
Proof. unfold with_ptr. by rewrite decide_True. Qed.
Lemma with_ptr_ne r x P r' : r' <> r -> with_ptr r x P r' = P r'.
Proof. intros Hn. unfold with_ptr. by rewrite decide_False. Qed.

(** Two read options of a new snapshot. *)
Lemma overwrite_two (p1 p2 : ptr) (a1 a2 b1 b2 b3 : cobj) (H : gmap ptr cobj) : p1 <> p2 ->
  <[p2 := b3]> (<[p2 := b2]> (<[p1 := a2]> (<[p2 := b1]> (<[p1 := a1]> H)))) = <[p2 := b3]> (<[p1 := a2]> H).
Proof.
  intros Hne. apply map_eq. intros k. destruct (decide (k = p2)) as [->|N2]; [by rewrite !lookup_insert_eq|]. rewrite !(lookup_insert_ne _ p2 k) by done.
  destruct (decide (k = p1)) as [->|N1]; [by rewrite !lookup_insert_eq|]. rewrite !(lookup_insert_ne _ p1 k) by done. by rewrite (lookup_insert_ne _ p2 k), (lookup_insert_ne _ p1 k).
Qed.

Lemma related_snapshot h s w a i (st : c_store) (z2 z3 : c_readoptions) : related h s w a -> a_snaps a !! i = None -> c_model st = a_map a ->
  let p1 := brk w in let p2 := N.succ p1 in let p3 := N.succ p2 in ro_snapshot z2 = Some p1 -> ro_snapshot z3 = Some p1 ->
  related h (mkSession (s_db s) (s_batches s) (s_iters s) (<[i := mkSnapshot p1 p2 p3]> (s_snaps s)))
    (mkWorld (<[p3 := CRead z3]> (<[p2 := CRead z2]> (<[p1 := CSnapshot (c_snapshot_new st)]> (heap w)))) (N.succ p3) (files w))
    (mkA (a_map a) (a_batches a) (a_iters a) (<[i := a_map a]> (a_snaps a))).
Proof.
  intros HR Hi Hm p1 p2 p3 E2 E3. set (s' := mkSession _ _ _ _). set (a' := mkA _ _ _ _). pose proof HR as [HO ? ? ? Hs].
  assert (Hn : s_snaps s !! i = None).
  { pose proof (unheld h s w a (KSnap i) HR) as Hn. cbn in Hn. destruct (s_snaps s !! i); [|done]. cbn in Hn. discriminate Hn. intros o (y & _ & Hy). congruence. }
  assert (HK : forall r o, holds h s a r o /\ ptr_of s r <> None -> holds h s' a' r o).
  { intros r o [Ho Hr]. destruct r as [| | | | | | | |j|j|j|j|j]; try done; (destruct (decide (j = i)) as [->|Hne]; [cbn in Hr; by rewrite Hn in Hr|]); cbn; by rewrite lookup_insert_ne. }
  split; [|done|done|done|].
  - set (P1 := with_ptr (KSnap i) (Some p1) (ptr_of s)). set (P2 := with_ptr (KSnapRead i) (Some p2) P1).
    set (w1 := mkWorld (<[p1 := CSnapshot (c_snapshot_new st)]> (heap w)) p2 (files w)). set (w2 := mkWorld (<[p2 := CRead z2]> (heap w1)) p3 (files w)).
    assert (H1 : owns P1 (holds h s' a') w1).
    { eapply (owns_alloc (ptr_of s) P1 _ _ w w1 (KSnap i)); [apply owns_held, HO|cbn; by rewrite Hn|split; cbn; [reflexivity|lia]|cbn; lia|apply with_ptr_eq|by intros; apply with_ptr_ne|auto|].
      exists (c_snapshot_new st). split; [done|]. cbn. by rewrite lookup_insert_eq, c_snapshot_same, Hm. }
    assert (H2 : owns P2 (holds h s' a') w2).
    { eapply (owns_alloc P1 P2 _ _ w1 w2 (KSnapRead i)); [exact H1|unfold P1; rewrite with_ptr_ne by done; cbn; by rewrite Hn|split; cbn; [reflexivity|lia]|cbn; lia|apply with_ptr_eq|by intros; apply with_ptr_ne|auto|].
      exists z2. split; [done|]. cbn. by rewrite lookup_insert_eq. }
    eapply (owns_alloc P2 _ _ _ w2 _ (KSnapIter i)); [exact H2|unfold P2, P1; rewrite !with_ptr_ne by done; cbn; by rewrite Hn|split; cbn; [reflexivity|lia]|cbn; lia|cbn; by rewrite lookup_insert_eq| |auto|].
    + intros r Hr. unfold P2, P1, with_ptr. repeat case_decide; subst; [cbn; by rewrite lookup_insert_eq..|].
      destruct r as [| | | | | | | |j|j|j|j|j]; try done; cbn; by rewrite lookup_insert_ne by congruence.
    + exists z3. split; [done|]. cbn. by rewrite lookup_insert_eq.
  - intros j m. cbn. destruct (decide (i = j)) as [->|Hne]; [by rewrite !lookup_insert_eq|]. rewrite !lookup_insert_ne by done. apply Hs.
Qed.

Lemma step_snap h s w a i : related h s w a -> a_snaps a !! i = None ->
  ewp (estep (OSnap i)) (s, w) (ends h EUnit a (mkA (a_map a) (a_batches a) (a_iters a) (<[i := a_map a]> (a_snaps a)))).
Proof.
  intros HR Hi. destruct (related_store _ _ _ _ HR) as (p & st & Hp & Hst & Hm & Hh). apply ewp_bind, ewp_in_heap. unfold NewSnapshot, leveldb_create_snapshot. rewrite Hp.
  apply ewp_bind, ewp_not_null, ewp_bind, ewp_bind. eapply ewp_deref; [exact Hst|done|]. apply ewp_alloc, ewp_bind, ewp_alloc, ewp_bind, ewp_alloc. cbn [heap brk].
  unfold SetSnapshot, SetFillCache, set_read. apply ewp_bind, ewp_bind. eapply ewp_deref; [cbn [heap]; rewrite lookup_insert_ne by lia; apply lookup_insert_eq|done|]. apply ewp_assign.
  apply ewp_bind, ewp_bind. eapply ewp_deref; [cbn [heap]; rewrite lookup_insert_ne by lia; apply lookup_insert_eq|done|]. apply ewp_assign.
  apply ewp_bind, ewp_bind. eapply ewp_deref; [apply lookup_insert_eq|done|]. apply ewp_assign, ewp_ret, ewp_bind, ewp_update, ewp_ret. left. split; [done|].
  cbn [fst snd heap brk files]. rewrite overwrite_two by lia. by apply related_snapshot.
Qed.

Lemma step_sclose h s w a i m : related h s w a -> a_snaps a !! i = Some m ->
  ewp (estep (OSClose i)) (s, w) (ends h EUnit a (mkA (a_map a) (a_batches a) (a_iters a) (delete i (a_snaps a)))).
Proof.
  intros HR Hm. destruct (related_store _ _ _ _ HR) as (p & st & Hp & Hst & _). destruct (related_snap _ _ _ _ i m HR Hm) as (x & y & z & z' & Hx & Hy & _ & Hz & _ & Hz').
  pose proof HR as [HO ? ? ? Hs]. assert (Hd : forall r r' q q', ptr_of s r = Some q -> ptr_of s r' = Some q' -> r <> r' -> q <> q') by (intros r r' q q' H1 H2 Hne ->; by apply Hne, (ow_inj _ _ _ HO _ _ q')).
  assert (P1 : ptr_of s (KSnap i) = Some (snap_ x)) by (cbn; by rewrite Hx). assert (P2 : ptr_of s (KSnapIter i) = Some (sn_iteratorOpts x)) by (cbn; by rewrite Hx).
  assert (P3 : ptr_of s (KSnapRead i) = Some (sn_readOpts x)) by (cbn; by rewrite Hx).
  assert (snap_ x <> sn_iteratorOpts x) by (by eapply Hd). assert (snap_ x <> sn_readOpts x) by (by eapply Hd). assert (sn_iteratorOpts x <> sn_readOpts x) by (by eapply Hd).
  apply ewp_bind. eapply ewp_named; [exact Hx|]. apply ewp_bind, ewp_in_heap. unfold Snapshot_Close, leveldb_release_snapshot. rewrite Hp.
  apply ewp_bind, ewp_not_null, ewp_bind, ewp_bind. eapply ewp_deref; [exact Hst|done|]. eapply ewp_release; [exact Hy|done|].
  apply ewp_bind. eapply ewp_release; [cbn; by rewrite lookup_delete_ne|done|]. eapply ewp_release; [cbn; by rewrite !lookup_delete_ne|done|].
  apply ewp_bind, ewp_update, ewp_ret. left. split; [done|]. cbn [fst snd heap brk files]. set (s' := mkSession _ _ _ _). set (a' := mkA _ _ _ _).
  assert (HK : forall r o, (forall j, r = KSnap j \/ r = KSnapRead j \/ r = KSnapIter j -> j <> i) -> holds h s a r o -> holds h s' a' r o).
  { intros r o Hr. destruct r as [| | | | | | | |j|j|j|j|j]; try done; (assert (j <> i) by (apply Hr; eauto)); cbn; by rewrite lookup_delete_ne. }
  split; [|done|done|done|].
  - set (Q1 := with_ptr (KSnap i) None (ptr_of s)). set (Q2 := with_ptr (KSnapIter i) None Q1).
    assert (O1 : owns Q1 (holds h s a) (mkWorld (delete (snap_ x) (heap w)) (brk w) (files w))).
    { eapply (owns_release (ptr_of s) Q1 _ _ w _ (KSnap i)); [exact HO|done|split; cbn; [reflexivity|lia]|apply with_ptr_eq|by intros; apply with_ptr_ne|auto]. }
    assert (O2 : owns Q2 (holds h s a) (mkWorld (delete (sn_iteratorOpts x) (delete (snap_ x) (heap w))) (brk w) (files w))).
    { eapply (owns_release Q1 Q2 _ _ _ _ (KSnapIter i)); [exact O1|unfold Q1; by rewrite with_ptr_ne|split; cbn; [reflexivity|lia]|apply with_ptr_eq|by intros; apply with_ptr_ne|auto]. }
    eapply (owns_release Q2 _ _ _ _ _ (KSnapRead i)); [apply owns_held; exact O2|unfold Q2, Q1; by rewrite !with_ptr_ne|split; cbn; [reflexivity|lia]|cbn; by rewrite lookup_delete_eq| |].
    + intros r Hr. unfold Q2, Q1, with_ptr. repeat case_decide; subst; [cbn; by rewrite lookup_delete_eq..|].
      destruct r as [| | | | | | | |j|j|j|j|j]; try done; cbn; by rewrite lookup_delete_ne by congruence.
    + intros r o Hr [Ho Hq]. apply HK; [|done]. intros j Hj ->. unfold Q2, Q1, with_ptr in Hq. repeat case_decide; subst; try done. naive_solver.
  - intros j m'. cbn. rewrite lookup_delete_Some. intros [Hne Hm']. rewrite lookup_delete_ne by done. by apply (Hs _ m').
Qed.

(** ** Sessions *)

Lemma step_ok h s w a op (x : eres) (a' : aengine) : related h s w a -> astep op a = Some (x, a') -> ewp (estep op) (s, w) (ends h x a a').
Proof.
  intros HR HA. unfold astep, a_read, unused in HA. unfold mbind, option_bind in HA.
  destruct op; repeat (case_match; try discriminate HA); injection HA as <- <-.
  all: first [by apply step_get | by apply step_get_slice | by apply step_put | by apply step_delete | by apply step_compact | by apply step_batch | by eapply step_bput | by eapply step_bdelete
    | by eapply step_commit | by eapply step_rollback | by eapply step_data | by eapply step_bclose | by apply step_iter | by eapply step_move | by eapply step_valid | by eapply step_key
    | by eapply step_value | by eapply step_iclose | by apply step_snap | by eapply step_sget | by eapply step_siter | by eapply step_sclose].
Qed.

Lemma session_ok ops s w a (xs : list eres) (a' : aengine) : related true s w a -> arun ops a = Some (xs, a') ->
  ewp (run_session ops) (s, w) (fun ys sw => ys = xs /\ related true sw.1 sw.2 a').
Proof.
  revert s w a xs. induction ops as [|op ops IH]; intros s w a xs HR; cbn [arun run_session].
  - intros [= <- <-]. by apply ewp_ret.
  - unfold mbind at 1 2, option_bind. destruct (astep op a) as [[x a1]|] eqn:E1; [|done]. destruct (arun ops a1) as [[xs1 a2]|] eqn:E2; [|done]. intros [= <- <-].
    apply ewp_bind. eapply ewp_mono; [by apply (step_ok true s w a op x a1)|]. intros y [s1 w1] [[-> HR1]|[? _]]; [|done].
    apply ewp_bind. eapply ewp_mono; [by apply (IH s1 w1 a1)|]. intros ys s2 [-> HR2]. by apply ewp_ret.
Qed.

(** ** Opening and closing *)

(** What the fixed holders hold. *)
Definition fixed h (m : gmap bytes bytes) r o : Prop :=
  match r with
  | KStore => exists st, o = CStore st /\ c_model st = m /\ (h = true -> c_healthy st)
  | KOptions => exists x, o = COptions x
  | KCache => exists x, o = CCache x
  | KFilter => exists x, o = CFilter x
  | KRead | KIterOpts => exists x, o = CRead x /\ ro_snapshot x = None
  | KWrite | KSync => exists x, o = CWrite x
  | _ => False
  end.

Section Hold.
Context {P : holder -> option ptr} {K : holder -> cobj -> Prop} {w : World} (HO : owns P K w).

Lemma ewp_hold r o (Q : ptr -> World -> Prop) : P r = None -> K r o -> (forall w', files w' = files w -> owns (with_ptr r (Some (brk w)) P) K w' -> Q (brk w) w') -> ewp (alloc o) w Q.
Proof.
  intros Hr Hk HQ. apply ewp_alloc, HQ; [done|]. eapply (owns_alloc P _ K K w _ r o); [done|done|split; cbn; [reflexivity|lia]|cbn; lia|apply with_ptr_eq|by intros; apply with_ptr_ne|auto|done].
Qed.

(** An object is read and changed. *)
Lemma ewp_change {A} (kind : cobj -> option A) (make : A -> cobj) (f : A -> A) r p (Q : unit -> World -> Prop) : P r = Some p ->
  (forall o, K r o -> exists x, kind o = Some x /\ K r (make (f x))) -> (forall w', files w' = files w -> owns P K w' -> Q tt w') ->
  ewp (x ← deref kind p; assign p (make (f x))) w Q.
Proof.
  intros Hp Hk HQ. destruct (ow_live _ _ _ HO r p Hp) as (o & Ho & Hko). destruct (Hk o Hko) as (x & Hx & Hk'). apply ewp_bind. eapply ewp_deref; [exact Ho|exact Hx|].
  apply ewp_assign, HQ; [done|]. eapply (owns_assign P _ K K w _ r p); [done|done|split; cbn; [reflexivity|lia]|done|auto|done].
Qed.

Lemma ewp_drop {A} (kind : cobj -> option A) r p (Q : unit -> World -> Prop) : P r = Some p -> (forall o, K r o -> exists x, kind o = Some x) ->
  (forall w', owns (with_ptr r None P) K w' -> Q tt w') -> ewp (release kind p) w Q.
Proof.
  intros Hp Hk HQ. destruct (ow_live _ _ _ HO r p Hp) as (o & Ho & Hko). destruct (Hk o Hko) as (x & Hx). eapply ewp_release; [exact Ho|exact Hx|].
  apply HQ. eapply (owns_release P _ K K w _ r p); [done|done|split; cbn; [reflexivity|lia]|apply with_ptr_eq|by intros; apply with_ptr_ne|auto].
Qed.
End Hold.

Lemma initOptions_ok h (m : gmap bytes bytes) (path : bytes) (cfg : LevelDBConfig) w (Q : CDB -> World -> Prop) : owns (fun _ : holder => None) (fixed h m) w ->
  (forall d w', owns (ptr_of (mkSession d ∅ ∅ ∅)) (fixed h m) w' -> db d = None -> Q d w') -> ewp (initOptions path cfg) w Q.
Proof.
  intros HO HQ. unfold initOptions, NewOptions, NewLRUCache, NewBloomFilter, NewReadOptions, NewWriteOptions.
  apply ewp_bind. eapply (ewp_hold HO KOptions); [done|by eexists|]. clear HO. intros w1 _ HO. set (o1 := brk w) in *. clearbody o1.
  unfold SetCreateIfMissing, SetCache, SetFilterPolicy, SetCompression, SetBlockSize, SetWriteBufferSize, SetMaxOpenFiles, SetMaxFileSize, set_option.
  assert (Hopt : forall {A} w P (f : c_options -> c_options) (k : SM World A) (Q : A -> World -> Prop), owns P (fixed h m) w -> P KOptions = Some o1 -> (forall w', owns P (fixed h m) w' -> ewp k w' Q) ->
    ewp ((x ← deref of_options o1; assign o1 (COptions (f x))) ≫= fun _ => k) w Q).
  { intros A w' P f k Q' HO' HP HQ'. apply ewp_bind. eapply (ewp_change HO' of_options COptions f KOptions); [done| |auto]. intros o (x & ->). cbn. eauto. }
  eapply Hopt; [exact HO|done|]. clear HO. intros w2 HO. apply ewp_bind. eapply (ewp_hold HO KCache); [done|by eexists|]. clear HO. intros w3 _ HO. set (o2 := brk w2) in *. clearbody o2.
  eapply Hopt; [exact HO|done|]. clear HO. intros w4 HO. apply ewp_bind. eapply (ewp_hold HO KFilter); [done|by eexists|]. clear HO. intros w5 _ HO. set (o3 := brk w4) in *. clearbody o3.
  do 6 (eapply Hopt; [exact HO|done|]; clear HO; intros ? HO).
  apply ewp_bind. eapply (ewp_hold HO KRead); [done|by exists c_read_default; split; [|apply c_read_plain]|]. clear HO. intros w6 _ HO. set (o4 := brk w'4) in *. clearbody o4.
  apply ewp_bind. eapply (ewp_hold HO KWrite); [done|by eexists|]. clear HO. intros w7 _ HO. set (o5 := brk w6) in *. clearbody o5.
  apply ewp_bind. eapply (ewp_hold HO KSync); [done|by eexists|]. clear HO. intros w8 _ HO. set (o6 := brk w7) in *. clearbody o6.
  apply ewp_bind. eapply (ewp_change HO of_write CWrite _ KSync); [done|by intros o (x & ->); cbn; eauto|]. clear HO. intros w9 _ HO.
  apply ewp_bind. eapply (ewp_hold HO KIterOpts); [done|by exists c_read_default; split; [|apply c_read_plain]|]. clear HO. intros w10 _ HO. set (o7 := brk w9) in *. clearbody o7.
  apply ewp_bind. eapply (ewp_change HO of_read CRead _ KIterOpts); [done|by intros o (x & -> & ?); cbn; eauto|]. clear HO. intros w11 _ HO. apply ewp_ret, HQ; [|done].
  eapply (owns_advanced _ _ _ _ w11); [exact HO|by split| |done]. by intros [].
Qed.

Lemma owns_fixed h (m : gmap bytes bytes) (d : CDB) w : owns (ptr_of (mkSession d ∅ ∅ ∅)) (fixed h m) w -> is_Some (db d) -> related h (mkSession d ∅ ∅ ∅) w (mkA m ∅ ∅ ∅).
Proof. intros HO Hd. split; [|done|done..]. eapply (owns_advanced _ _ _ _ w); [exact HO|by split|done|]. by intros []. Qed.

Lemma owns_nothing h (m : gmap bytes bytes) w : heap w = ∅ -> owns (fun _ : holder => None) (fixed h m) w.
Proof. intros Hw. by split; rewrite ?Hw. Qed.

(** A database that has been opened is a session without objects of the client; the contents
    are those of the store the library opened. *)
Lemma open_ok (path : bytes) (cfg : LevelDBConfig) w : heap w = ∅ ->
  ewp (open path cfg) w (fun x w' => match x.2 with
    | None => exists p st, db x.1 = Some p /\ heap w' !! p = Some (CStore st) /\ forall h, (h = true -> c_healthy st) -> related h (mkSession x.1 ∅ ∅ ∅) w' (mkA (c_model st) ∅ ∅ ∅)
    | Some _ => db x.1 = None /\ forall h m, owns (ptr_of (mkSession x.1 ∅ ∅ ∅)) (fixed h m) w'
    end).
Proof.
  intros Hw. unfold open. apply ewp_bind. apply (initOptions_ok false ∅); [by apply owns_nothing|]. intros d w1 HO Hd.
  destruct (ow_live _ _ _ HO KOptions (opts d) eq_refl) as (ob & Hob & o & ->). pose proof (ow_fresh _ _ _ HO _ _ Hob) as Hlt. pose proof (owns_below _ _ _ HO) as Hb. red in Hb.
  set (b := brk w1) in *. assert (Hb' : heap w1 !! N.succ b = None).
  { destruct (heap w1 !! N.succ b) eqn:E; [|done]. pose proof (ow_fresh _ _ _ HO _ _ E). fold b in H. lia. }
  apply ewp_bind, ewp_alloc. fold b. apply ewp_bind. unfold leveldb_open. apply ewp_bind. eapply ewp_deref; [cbn [heap]; rewrite lookup_insert_ne by lia; exact Hob|done|].
  apply ewp_bind. eapply ewp_deref; [apply lookup_insert_eq|done|]. apply ewp_bind.
  destruct (c_open o path (files w1)) as [fs' res] eqn:Eo. exists res, (mkWorld (<[b := CMem path]> (heap w1)) (N.succ b) fs'). split; [unfold on_files; cbn; by rewrite Eo|].
  destruct res as [st|text].
  - apply ewp_bind, ewp_alloc, ewp_ret. cbn [saveError]. apply ewp_bind, ewp_ret, ewp_bind.
    eapply ewp_release; [cbn [heap brk]; rewrite lookup_insert_ne by lia; apply lookup_insert_eq|done|]. apply ewp_ret. cbn [fst snd db heap brk files].
    assert (E : delete b (<[N.succ b := CStore st]> (<[b := CMem path]> (heap w1))) = <[N.succ b := CStore st]> (heap w1)).
    { rewrite delete_insert_ne by lia. by rewrite delete_insert_id. }
    rewrite E. exists (N.succ b), st. split; [done|]. split; [apply lookup_insert_eq|]. intros h Hh. apply owns_fixed; [|by eexists].
    eapply (owns_alloc (ptr_of (mkSession d ∅ ∅ ∅)) _ _ _ (mkWorld (heap w1) (N.succ b) fs') _ KStore (CStore st)); [|done|split; cbn; [done|lia]|cbn; lia|done|by intros []| |by exists st].
    + apply (owns_advanced (ptr_of (mkSession d ∅ ∅ ∅)) _ (fixed false ∅) (fixed false ∅) w1); [done|split; cbn; [done|lia]|done|done].
    + by intros [].
  - apply ewp_bind, ewp_alloc, ewp_ret. cbn [saveError]. apply ewp_bind, ewp_bind. eapply ewp_deref; [apply lookup_insert_eq|done|]. apply ewp_bind. eapply ewp_release; [apply lookup_insert_eq|done|].
    apply ewp_ret, ewp_bind. eapply ewp_release; [cbn [heap]; rewrite delete_insert_id by (cbn; by rewrite lookup_insert_ne by lia); apply lookup_insert_eq|done|]. apply ewp_ret. cbn [fst snd db heap brk files].
    split; [done|]. intros h m. apply (owns_advanced (ptr_of (mkSession d ∅ ∅ ∅)) _ (fun r o => fixed false ∅ r o /\ ptr_of (mkSession d ∅ ∅ ∅) r <> None) _ w1).
    + by apply owns_held.
    + split; cbn; [|lia]. rewrite (delete_insert_id (<[b := CMem path]> (heap w1))) by (by rewrite lookup_insert_ne by lia). by rewrite delete_insert_id.
    + by intros [].
    + intros r o'. destruct r; try by intros [? _]. cbn. rewrite Hd. by intros [_ ?].
Qed.

(** Closing frees everything but the options of synchronous writes. *)
Lemma Close_fixed h s (m : gmap bytes bytes) w : owns (ptr_of s) (fixed h m) w -> (forall i, ptr_of s (KBatch i) = None /\ ptr_of s (KIter i) = None /\ s_snaps s !! i = None) ->
  ewp (Close (s_db s)) w (fun _ w' => exists x, heap w' = {[ syncOpts (s_db s) := CWrite x ]}).
Proof.
  intros HO Hn. unfold Close. apply ewp_bind.
  assert (HC : ewp (match db (s_db s) with None => mret tt | Some p => leveldb_close p end) w (fun _ w' => owns (with_ptr KStore None (ptr_of s)) (fixed h m) w')).
  { destruct (db (s_db s)) as [p|] eqn:Ep.
    - unfold leveldb_close. destruct (ow_live _ _ _ HO KStore p Ep) as (o & Ho & st & -> & Hst). apply ewp_bind. eapply ewp_deref; [exact Ho|done|]. apply ewp_bind.
      exists tt, (mkWorld (heap w) (brk w) (c_close st (files w))). split; [done|].
      assert (HO' : owns (ptr_of s) (fixed h m) (mkWorld (heap w) (brk w) (c_close st (files w)))) by (eapply owns_advanced; [exact HO|by split; cbn|done|done]).
      eapply (ewp_drop HO' of_store KStore); [done|by intros o (x & -> & _); eexists|done].
    - apply ewp_ret. eapply owns_advanced; [exact HO|by split| |done]. intros r. unfold with_ptr. case_decide; [by subst|done]. }
  eapply ewp_mono; [exact HC|]. clear HO HC. intros u w1 HO.
  unfold Options_Close, Cache_Close, FilterPolicy_Close, ReadOptions_Close, WriteOptions_Close.
  apply ewp_bind. eapply (ewp_drop HO of_options KOptions); [done|by intros o (x & ->); eexists|]. clear HO. intros w2 HO.
  apply ewp_bind. eapply (ewp_drop HO of_cache KCache); [done|by intros o (x & ->); eexists|]. clear HO. intros w3 HO.
  apply ewp_bind. eapply (ewp_drop HO of_filter KFilter); [done|by intros o (x & ->); eexists|]. clear HO. intros w4 HO.
  apply ewp_bind. eapply (ewp_drop HO of_read KRead); [done|by intros o (x & -> & _); eexists|]. clear HO. intros w5 HO.
  apply ewp_bind. eapply (ewp_drop HO of_write KWrite); [done|by intros o (x & ->); eexists|]. clear HO. intros w6 HO.
  eapply (ewp_drop HO of_read KIterOpts); [done|by intros o (x & -> & _); eexists|]. clear HO. intros w7 HO.
  destruct (ow_live _ _ _ HO KSync (syncOpts (s_db s)) eq_refl) as (o & Ho & x & ->). exists x. apply map_eq. intros q.
  destruct (decide (q = syncOpts (s_db s))) as [->|Hq]; [by rewrite lookup_singleton_eq|]. rewrite lookup_singleton_ne by done.
  destruct (heap w7 !! q) as [o|] eqn:Eq; [|done]. destruct (ow_only _ _ _ HO _ _ Eq) as [r Hr]. exfalso.
  destruct r as [| | | | | | | |i|i|i|i|i]; try discriminate Hr; [injection Hr as <-; done|..]; destruct (Hn i) as (H1 & H2 & H3); unfold with_ptr in Hr; cbn in *; rewrite ?H1, ?H2, ?H3 in Hr; discriminate Hr.
Qed.

Lemma Close_related h s w a : related h s w a -> a_batches a = ∅ -> a_iters a = ∅ -> a_snaps a = ∅ ->
  ewp (Close (s_db s)) w (fun _ w' => exists x, heap w' = {[ syncOpts (s_db s) := CWrite x ]}).
Proof.
  intros HR Hb Hi Hs. assert (Hn : forall i, ptr_of s (KBatch i) = None /\ ptr_of s (KIter i) = None /\ s_snaps s !! i = None).
  { intros i. split; [|split].
    - apply (unheld h s w a); [done|]. intros o (b & _ & Hx). by rewrite Hb in Hx.
    - apply (unheld h s w a); [done|]. intros o (? & ? & ? & _ & _ & Hx & _). by rewrite Hi in Hx.
    - pose proof (unheld h s w a (KSnap i) HR) as Hn. cbn in Hn. destruct (s_snaps s !! i); [|done]. cbn in Hn. discriminate Hn. intros o (y & _ & Hx). by rewrite Hs in Hx. }
  apply (Close_fixed h s (a_map a)); [|done]. eapply owns_advanced; [apply owns_held, (re_owns _ _ _ _ HR)|by split|done|].
  intros r o [Ho Hr]. destruct r as [| | | | | | | |i|i|i|i|i]; try done; exfalso; apply Hr; destruct (Hn i) as (H1 & H2 & H3); cbn in *; by rewrite ?H1, ?H2, ?H3.
Qed.

(** A session keeps its database. *)
Lemma step_db op s w x (s' : session) w' : estep op (s, w) = (Ret x, (s', w')) -> s_db s' = s_db s.
Proof.
  assert (HB : forall A A' (p : SM (session * World) A) (k : A -> SM (session * World) A'), (forall s w x s' w', p (s, w) = (Ret x, (s', w')) -> s_db s' = s_db s) ->
    (forall y s w x s' w', k y (s, w) = (Ret x, (s', w')) -> s_db s' = s_db s) -> forall s w x s' w', (p ≫= k) (s, w) = (Ret x, (s', w')) -> s_db s' = s_db s).
  { intros A A' p k Hp Hk s0 w0 x0 s1 w1. unfold mbind, SM_bind. destruct (p (s0, w0)) as [[y|] [s2 w2]] eqn:E; [|done]. intros E2. rewrite (Hk _ _ _ _ _ _ E2). by eapply Hp. }
  assert (HI : forall A (p : CDB -> SM World A) s w x s' w', in_heap p (s, w) = (Ret x, (s', w')) -> s_db s' = s_db s).
  { intros A p s0 w0 x0 s1 w1. unfold in_heap. destruct (p (s_db s0) w0) as [o w2]. by intros [= _ <- _]. }
  assert (HN : forall A (f : session -> option A) s w x s' w', named f (s, w) = (Ret x, (s', w')) -> s_db s' = s_db s).
  { intros A f s0 w0 x0 s1 w1. unfold named. destruct (f s0); [|done]. by intros [= _ <- _]. }
  assert (HU : forall (f : session -> session) s w x s' w', (forall s, s_db (f s) = s_db s) -> update f (s, w) = (Ret x, (s', w')) -> s_db s' = s_db s).
  { intros f s0 w0 x0 s1 w1 Hf. unfold update. by intros [= _ <- _]. }
  assert (HR : forall A (y : A) s w x s' w', (mret y : SM (session * World) A) (s, w) = (Ret x, (s', w')) -> s_db s' = s_db s) by (by intros A y s0 w0 x0 s1 w1 [= _ <- _]).
  revert s w x s' w'. destruct op; cbn [estep]; unfold set_batch, set_iter, set_snap; intros s w x s' w';
    repeat first [eapply HI | eapply HN | eapply HR | (eapply HU; intros; done) | (apply HB; [intros ? ? ? ? ?|intros ? ? ? ? ? ?])].
Qed.

Lemma session_db ops s w xs (s' : session) w' : run_session ops (s, w) = (Ret xs, (s', w')) -> s_db s' = s_db s.
Proof.
  revert s w xs. induction ops as [|op ops IH]; intros s w xs; cbn [run_session]; [by intros [= _ <- _]|]. unfold mbind, SM_bind.
  destruct (estep op (s, w)) as [[x|] [s1 w1]] eqn:E1; [|done]. destruct (run_session ops (s1, w1)) as [[ys|] [s2 w2]] eqn:E2; [|done]. intros [= _ <- <-].
  rewrite (IH _ _ _ E2). by eapply step_db.
Qed.

Lemma Store_Open_ok (path : bytes) (cfg : LevelDBConfig) w : heap w = ∅ ->
  ewp (Store_Open path cfg) w (fun x w' => match x with
    | inl d => exists p st, db d = Some p /\ heap w' !! p = Some (CStore st) /\ forall h, (h = true -> c_healthy st) -> related h (mkSession d ∅ ∅ ∅) w' (mkA (c_model st) ∅ ∅ ∅)
    | inr _ => True
    end).
Proof.
  intros Hw. unfold Store_Open. apply ewp_bind. destruct (c_mkdir path (files w)) as [fs err] eqn:Em. exists err, (mkWorld (heap w) (brk w) fs).
  split; [unfold on_files; by rewrite Em|]. destruct err as [err|]; [by apply ewp_ret|]. apply ewp_bind. eapply ewp_mono; [by apply open_ok|].
  intros [d [err|]] w'; cbn [fst snd]; intros Hx; by apply ewp_ret.
Qed.

(** [Repair] uses and frees what it opens, except the options of synchronous writes. *)
Lemma Store_Repair_ok (path : bytes) (cfg : LevelDBConfig) w : heap w = ∅ -> ewp (Store_Repair path cfg) w (fun _ w' => exists p x, heap w' = {[ p := CWrite x ]}).
Proof.
  intros Hw. unfold Store_Repair. apply ewp_bind. eapply ewp_mono; [by apply open_ok|]. intros [d [err|]] w1; cbn [fst snd].
  - intros [Hd HO]. specialize (HO false ∅). apply ewp_bind.
    assert (HR : ewp (ldbname ← alloc (CMem path); errStr ← leveldb_repair_db (opts d) ldbname; err ← saveError errStr; _ ← release of_mem ldbname; mret err) w1
      (fun _ w' => advanced (heap w1) w1 w')).
    { destruct (ow_live _ _ _ HO KOptions (opts d) eq_refl) as (ob & Hob & o & ->). pose proof (ow_fresh _ _ _ HO _ _ Hob) as Hlt. pose proof (owns_below _ _ _ HO) as Hb. red in Hb.
      set (b := brk w1) in *. assert (Hb' : heap w1 !! N.succ b = None).
      { destruct (heap w1 !! N.succ b) eqn:E; [|done]. pose proof (ow_fresh _ _ _ HO _ _ E) as Hl. fold b in Hl. lia. }
      apply ewp_bind, ewp_alloc. fold b. unfold leveldb_repair_db. apply ewp_bind, ewp_bind. eapply ewp_deref; [cbn [heap]; rewrite lookup_insert_ne by lia; exact Hob|done|].
      apply ewp_bind. eapply ewp_deref; [apply lookup_insert_eq|done|]. apply ewp_bind. destruct (c_repair o path (files w1)) as [fs' e2] eqn:Er.
      exists e2, (mkWorld (<[b := CMem path]> (heap w1)) (N.succ b) fs'). split; [unfold on_files; cbn; by rewrite Er|].
      assert (HE : ewp (c_error e2 ≫= saveError) (mkWorld (<[b := CMem path]> (heap w1)) (N.succ b) fs') (fun _ w2 => heap w2 = <[b := CMem path]> (heap w1) /\ (N.succ b <= brk w2)%N)).
      { apply ewp_error; [red; cbn; by rewrite lookup_insert_ne by lia|]. intros w2 [H1 H2]. cbn in *. done. }
      destruct HE as (y & w2 & E2 & H1 & H2). unfold mbind, SM_bind in E2. destruct (c_error e2 _) as [[q|] w3] eqn:E1; [|done]. exists q, w3. split; [done|]. apply ewp_bind.
      exists y, w2. split; [done|]. apply ewp_bind. eapply ewp_release; [rewrite H1; apply lookup_insert_eq|done|]. apply ewp_ret. split; cbn; [rewrite H1; by rewrite delete_insert_id|fold b; lia]. }
    eapply ewp_mono; [exact HR|]. intros e2 w2 Ha. apply ewp_bind. eapply ewp_mono; [apply (Close_fixed false (mkSession d ∅ ∅ ∅) ∅ w2); [|done]|].
    + by eapply owns_advanced.
    + intros u w3 (x & Hx). apply ewp_ret. eauto.
  - intros (p & st & _ & _ & HR). specialize (HR false ltac:(done)). apply ewp_bind, ewp_ret, ewp_bind. eapply ewp_mono; [by apply (Close_related false _ w1 _ HR)|]. intros u w2 (x & Hx). apply ewp_ret. eauto.
Qed.

End Refinement.

(** The states a client can reach from an open, also when calls fail. *)
Inductive reached {C : CLibrary} {CS : CLibrarySpec C} {F : BatchFormat} (path : bytes) (cfg : LevelDBConfig) : session -> World -> aengine -> Prop :=
  | reached_open w d w1 p st : heap w = ∅ -> Store_Open path cfg w = (Ret (inl d), w1) -> db d = Some p -> heap w1 !! p = Some (CStore st) ->
      reached path cfg (mkSession d ∅ ∅ ∅) w1 (mkA (c_model st) ∅ ∅ ∅)
  | reached_step s w a op x a' y s' w' : reached path cfg s w a -> astep op a = Some (x, a') -> estep op (s, w) = (Ret y, (s', w')) ->
      reached path cfg s' w' (match y with EError _ => a | _ => a' end).

(** The kind of object of each holder. *)
Definition of_kind {C : CLibrary} (r : holder) (o : cobj) : bool :=
  match r, o with
  | KStore, CStore _ | KOptions, COptions _ | KCache, CCache _ | KFilter, CFilter _ | KBatch _, CBatch _ | KIter _, CIter _ _ | KSnap _, CSnapshot _ => true
  | (KRead | KIterOpts | KSnapRead _ | KSnapIter _), CRead _ | (KWrite | KSync), CWrite _ => true
  | _, _ => false
  end.

Lemma holds_kind {C : CLibrary} {CS : CLibrarySpec C} (h : bool) (s : session) (a : aengine) (r : holder) (o : cobj) : holds h s a r o -> of_kind r o = true.
Proof. destruct r; cbn; naive_solver. Qed.

Lemma astep_no_error {F : BatchFormat} op a x (a' : aengine) (text : bytes) : astep op a = Some (x, a') -> x <> EError text.
Proof. unfold astep, a_read, unused, mbind, option_bind. destruct op; repeat case_match; naive_solver. Qed.

Lemma reached_related {C : CLibrary} {CS : CLibrarySpec C} {F : BatchFormat} (path : bytes) (cfg : LevelDBConfig) s w a : reached path cfg s w a -> related false s w a.
Proof.
  induction 1 as [w d w1 p st Hw E Hp Hst|s w a op x a' y s' w' _ IH Ha E].
  - destruct (Store_Open_ok path cfg w Hw) as (z & w2 & E2 & Hz). assert (z = inl d /\ w2 = w1) as [-> ->] by (split; congruence).
    destruct Hz as (p' & st' & Hp' & Hst' & HR). assert (st' = st) as -> by congruence. by apply HR.
  - destruct (step_ok false s w a op x a' IH Ha) as (z & [s2 w2] & E2 & Hz). assert (z = y /\ s2 = s' /\ w2 = w') as (-> & -> & ->) by (repeat split; congruence).
    destruct Hz as [[-> HR]|(_ & (text & ->) & HR)]; [|done]. destruct x; try done. by destruct (astep_no_error _ _ _ _ text Ha).
Qed.

(** C23: the pointers are typed.  Whatever a client does with a database that it has opened, and
    whichever calls fail, each pointer of the database, its batches, iterators and snapshots
    points to a live object of its kind, nothing else is alive, and no call the client may
    make crashes. *)
Theorem handles_typed {C : CLibrary} {CS : CLibrarySpec C} {F : BatchFormat} (path : bytes) (cfg : LevelDBConfig) (s : session) (w : World) (a : aengine) :
  reached path cfg s w a ->
  (forall r p, ptr_of s r = Some p -> exists o, heap w !! p = Some o /\ of_kind r o = true) /\
  (forall p o, heap w !! p = Some o -> exists r, ptr_of s r = Some p) /\
  (forall op x a', astep op a = Some (x, a') -> exists y s' w', estep op (s, w) = (Ret y, (s', w')) /\ (y = x \/ exists text, y = EError text)).
Proof.
  intros HR%reached_related. pose proof (re_owns _ _ _ _ HR) as HO. split; [|split].
  - intros r p Hp. destruct (ow_live _ _ _ HO r p Hp) as (o & Ho & Hk). exists o. split; [done|]. by eapply holds_kind.
  - apply HO.
  - intros op x a' Ha. destruct (step_ok false s w a op x a' HR Ha) as (y & [s' w'] & E & Hy). exists y, s', w'. split; [done|].
    destruct Hy as [[-> _]|(_ & Ht & _)]; [by left|by right].
Qed.


(** ** Batches of src/store/rocksdb

    The database layer writes a batch, commits it and rolls it back: the batch is empty
    then, whether the commit has succeeded, and cleared it, or not. *)

Lemma rocks_cycle {C : CLibrary} {CS : CLibrarySpec C} (d : CDB) (w : World) (p q : ptr) (st : c_store) (x : c_writeoptions) (y : c_batch) (b : RocksBatch) :
  db d = Some p -> r_wbatch b = Some q -> commitOk b = false -> heap w !! p = Some (CStore st) -> heap w !! writeOpts d = Some (CWrite x) -> heap w !! q = Some (CBatch y) -> below w ->
  ewp ('(err, b) ← rocks_Commit d b; _ ← rocks_Rollback b; mret err) w (fun err w' => exists st' y',
    heap w' !! p = Some (CStore st') /\ heap w' !! q = Some (CBatch y') /\ c_batch_iterate y' = [] /\
    c_model st' = (match err with None => apply_ops (c_batch_iterate y) (c_model st) | Some _ => c_model st end) /\
    (c_healthy st -> err = None)).
Proof.
  intros Hd Hb Hc Hp Hx Hq Hbel. unfold rocks_Commit, rocks_commit, rocksdb_write_ext. rewrite Hd, Hb. assert (Hpq : p <> q) by congruence. assert (Hwo : p <> writeOpts d) by congruence.
  apply ewp_bind, ewp_bind, ewp_not_null, ewp_bind, ewp_not_null, ewp_bind, ewp_bind. unfold leveldb_write. apply ewp_bind. eapply ewp_deref; [exact Hp|done|].
  apply ewp_bind. eapply ewp_deref; [exact Hx|done|]. apply ewp_bind. eapply ewp_deref; [exact Hq|done|]. destruct (c_write x y st) as [st' err] eqn:E.
  apply ewp_bind, ewp_assign. destruct err as [text|]; cbn [c_error].
  - assert (Hn : heap w !! brk w = None) by done. assert (brk w <> p) by congruence. assert (brk w <> q) by congruence.
    apply ewp_bind, ewp_alloc, ewp_ret, ewp_ret. cbn [saveError]. apply ewp_bind, ewp_bind. eapply ewp_deref; [apply lookup_insert_eq|done|]. apply ewp_bind.
    eapply ewp_release; [apply lookup_insert_eq|done|]. apply ewp_ret, ewp_ret, ewp_bind. unfold rocks_Rollback. cbn [negb commitOk r_wbatch].
    apply ewp_bind, ewp_not_null, ewp_bind, ewp_bind. eapply ewp_deref; [cbn; rewrite lookup_delete_ne, !lookup_insert_ne by done; exact Hq|done|]. apply ewp_assign, ewp_ret, ewp_ret.
    exists st', (c_batch_clear y). cbn. rewrite lookup_insert_ne, lookup_delete_ne, lookup_insert_ne, !lookup_insert_eq by done. rewrite c_iterate_clear, (c_write_none _ _ _ _ _ E).
    do 4 (split; [done|]). intros Hh. destruct (c_write_ok x y st Hh) as (? & ? & _). congruence.
  - apply ewp_ret. apply ewp_bind, ewp_bind. eapply ewp_deref; [cbn; rewrite lookup_insert_ne by done; exact Hq|done|]. apply ewp_assign, ewp_ret. cbn [saveError].
    apply ewp_bind, ewp_ret, ewp_ret, ewp_bind. unfold rocks_Rollback. cbn [negb commitOk]. apply ewp_ret, ewp_ret.
    exists st', (c_batch_clear y). cbn. rewrite lookup_insert_ne, !lookup_insert_eq by done. by rewrite c_iterate_clear, (c_write_all _ _ _ _ E).
Qed.

(** * A concrete library

    Directories hold finite maps; a directory without a map is damaged. *)

(** The texts "Corruption" and "IO error". *)
Definition corruption : bytes := [67; 111; 114; 114; 117; 112; 116; 105; 111; 110].
Definition io_error : bytes := [73; 79; 32; 101; 114; 114; 111; 114].

Definition mem_seen (sn : option (gmap bytes bytes)) (s : bytes * mem_db) : gmap bytes bytes := match sn with Some m => m | None => mem_map s.2 end.

Definition mem_dirs : Type := gmap bytes (option (gmap bytes bytes)).

#[local] Instance MemC : CLibrary := {|
  c_files := mem_dirs;
  c_store := bytes * mem_db;
  c_iter := mem_cursor;
  c_snapshot := gmap bytes bytes;
  c_batch := list BatchOp;
  c_options_default := mkOptions 0 0 0 None None 1 4096 16 4194304 1000 2097152;
  c_read_default := mkRead 0 1 None;
  c_write_default := mkWrite 0;
  c_mkdir path fs := (match fs !! path with Some _ => fs | None => <[path := Some ∅]> fs end, None);
  c_open _ path fs :=
    match fs !! path with
    | Some (Some m) => (fs, inl (path, mkMem m false))
    | _ => (fs, inr corruption)
    end;
  c_close s fs := <[s.1 := Some (mem_map s.2)]> fs;
  c_repair _ path fs := (<[path := Some ∅]> fs, None);
  c_get _ sn s k := if mem_faulty s.2 then inr io_error else inl (mem_seen sn s !! k);
  c_put _ k v s := if mem_faulty s.2 then (s, Some io_error) else ((s.1, mkMem (<[k := v]> (mem_map s.2)) false), None);
  c_delete _ k s := if mem_faulty s.2 then (s, Some io_error) else ((s.1, mkMem (delete k (mem_map s.2)) false), None);
  c_write _ b s := if mem_faulty s.2 then (s, Some io_error) else ((s.1, mkMem (apply_ops b (mem_map s.2)) false), None);
  c_compact s := s;
  c_batch_new := [];
  c_batch_put k v b := b ++ [OpPut k v];
  c_batch_delete k b := b ++ [OpDelete k];
  c_batch_clear _ := [];
  c_batch_iterate b := b;
  c_batch_data := mem_dump;
  c_snapshot_new s := mem_map s.2;
  c_iter_new _ sn s := mkCur (sorted_entries (mem_seen sn s)) None;
  c_iter_first := lit_First;
  c_iter_last := lit_Last;
  c_iter_seek := lit_Seek;
  c_iter_next := lit_Next;
  c_iter_prev := lit_Prev;
  c_iter_valid c := boolToUchar (lit_Valid c);
  c_iter_key := lit_Key;
  c_iter_value := lit_Value
|}.

#[local] Program Instance mem_c_iter : IterSpec (C := mem_cursor) lit_First lit_Last lit_Seek lit_Next lit_Prev (fun i => ucharToBool (boolToUchar (lit_Valid i))) lit_Key lit_Value := {|
  snap := mc_snap;
  pos c := match mc_pos c with Some i => clamp (length (mc_snap c)) i | None => None end
|}.
Next Obligation. exact (snap_first (IterSpec := mem_iter_spec)). Qed.
Next Obligation. exact (snap_last (IterSpec := mem_iter_spec)). Qed.
Next Obligation. exact (snap_seek (IterSpec := mem_iter_spec)). Qed.
Next Obligation. exact (snap_next (IterSpec := mem_iter_spec)). Qed.
Next Obligation. exact (snap_prev (IterSpec := mem_iter_spec)). Qed.
Next Obligation. exact (pos_first (IterSpec := mem_iter_spec)). Qed.
Next Obligation. exact (pos_last (IterSpec := mem_iter_spec)). Qed.
Next Obligation. exact (pos_seek (IterSpec := mem_iter_spec)). Qed.
Next Obligation. exact (pos_next (IterSpec := mem_iter_spec)). Qed.
Next Obligation. exact (pos_prev (IterSpec := mem_iter_spec)). Qed.
Next Obligation. intros c. etransitivity; [|exact (valid_pos (IterSpec := mem_iter_spec) c)]. unfold boolToUchar. by case_match. Qed.
Next Obligation. exact (pos_range (IterSpec := mem_iter_spec)). Qed.
Next Obligation. exact (key_at (IterSpec := mem_iter_spec)). Qed.
Next Obligation. exact (value_at (IterSpec := mem_iter_spec)). Qed.

#[local] Program Instance MemCSpec : CLibrarySpec MemC := {|
  c_model s := mem_map s.2;
  c_snap_model m := m;
  c_healthy s := mem_faulty s.2 = false;
  c_iter_spec := mem_c_iter
|}.
Next Obligation. done. Qed.
Next Obligation. intros o sn s k x. cbn. destruct (mem_faulty s.2); [done|]. by intros [= <-]. Qed.
Next Obligation. intros o sn s k Hh. cbn in *. rewrite Hh. eauto. Qed.
Next Obligation. intros o k v s s'. cbn. destruct (mem_faulty s.2); [done|]. by intros [= <-]. Qed.
Next Obligation. intros o k v s s' err. cbn. destruct (mem_faulty s.2); [|done]. by intros [= <- _]. Qed.
Next Obligation. intros o k v s Hh. cbn in *. rewrite Hh. eauto. Qed.
Next Obligation. intros o k s s'. cbn. destruct (mem_faulty s.2); [done|]. by intros [= <-]. Qed.
Next Obligation. intros o k s s' err. cbn. destruct (mem_faulty s.2); [|done]. by intros [= <- _]. Qed.
Next Obligation. intros o k s Hh. cbn in *. rewrite Hh. eauto. Qed.
Next Obligation. intros o b s s'. cbn. destruct (mem_faulty s.2); [done|]. by intros [= <-]. Qed.
Next Obligation. intros o b s s' err. cbn. destruct (mem_faulty s.2); [|done]. by intros [= <- _]. Qed.
Next Obligation. intros o b s Hh. cbn in *. rewrite Hh. eauto. Qed.
Next Obligation. done. Qed.
Next Obligation. done. Qed.
Next Obligation. done. Qed.
Next Obligation. done. Qed.
Next Obligation. done. Qed.
Next Obligation. done. Qed.
Next Obligation. done. Qed.
Next Obligation. done. Qed.
Next Obligation. done. Qed.

#[local] Instance ex_format : BatchFormat := {| batch_Dump := mem_dump |}.

Definition ex_config : LevelDBConfig := mkLevelDBConfig false 32768 67108864 524288000 1024 33554432.
Definition ex_world (m : option (gmap bytes bytes)) : World := mkWorld ∅ 1 {[ [100] := m ]}.

(** Opens the directory and runs a session. *)
Definition session_of (ops : list eop) (d : CDB) : SM World (list eres) := fun w =>
  let '(o, (_, w)) := run_session ops (mkSession d ∅ ∅ ∅, w) in (o, w).

Definition ex_session (ops : list eop) : SM World (list eres * CDB) :=
  x ← Store_Open [100] ex_config;
  match x with
  | inr err => mret ([EError err], mkCDB [] None 0 0 0 0 0 0 0)
  | inl d => xs ← session_of ops d; mret (xs, d)
  end.

(** The results of the session, and how many objects are alive after it. *)
Definition ex_results (ops : list eop) (m : option (gmap bytes bytes)) : outcome (list eres) * nat :=
  let '(o, w) := ex_session ops (ex_world m) in (match o with Ret (xs, _) => Ret xs | Panic => Panic end, size (heap w)).

(** The objects that [n] calls of [Close] leave alive, or a crash. *)
Fixpoint close_times (n : nat) (d : CDB) : SM World unit := match n with O => mret tt | S n => _ ← Close d; close_times n d end.
Definition ex_close (n : nat) : outcome nat :=
  let '(o, w) := ('(_, d) ← ex_session []; close_times n d) (ex_world (Some ∅)) in
  match o with Ret _ => Ret (size (heap w)) | Panic => Panic end.

(** What goes wrong at the border to C.  The iterator of a snapshot shows a write made
    after the snapshot, which [Get] of the snapshot does not, so that a dump of a server that
    takes writes is not a dump of one moment.  An open that fails leaves seven objects, a
    [Close] leaves one, and a second [Close] frees again what is freed.  Seeking, or deleting
    in a batch, an empty key panics. *)
Lemma c_anomalies :
  (ex_results [OSnap 0; OPut false [107] [118]; OSGet 0 [107]; OSIter 0 1; OMove 1 MFirst; OKey 1; OSClose 0; OIClose 1] (Some ∅)).1
    = Ret [EUnit; EUnit; EValue None; EUnit; EUnit; EValue (Some [107]); EUnit; EUnit] /\
  ex_results [] None = (Ret [EError corruption], 7%nat) /\
  ex_close 1 = Ret 1%nat /\ ex_close 2 = Panic /\
  (ex_results [OIter 0; OMove 0 (MSeek [])] (Some ∅)).1 = Panic /\
  (ex_results [OBatch 0; OBDelete 0 []] (Some ∅)).1 = Panic.
Proof. repeat split; vm_compute; reflexivity. Qed.

Definition ex_opened : outcome (CDB + bytes) * World := Store_Open [100] ex_config (ex_world (Some {[ [107] := [118] ]})).
Definition ex_db : CDB := mkCDB [100] (Some 9%N) 1 4 5 7 6 2 3.

Definition ex_store : bytes * mem_db := ([100], mkMem {[ [107] := [118] ]} false).

Lemma ex_open_eq : Store_Open [100] ex_config (ex_world (Some {[ [107] := [118] ]})) = (Ret (inl ex_db), ex_opened.2).
Proof. change (ex_opened = (Ret (inl ex_db), ex_opened.2)). rewrite (surjective_pairing ex_opened) at 1. apply (f_equal2 pair); [vm_compute; reflexivity|reflexivity]. Qed.

Lemma ex_store_at : heap ex_opened.2 !! 9%N = Some (CStore ex_store).
Proof. reflexivity. Qed.

Definition ex_ops : list eop := [OBatch 0; OBPut 0 [97] [98]; OBDelete 0 [107]; OCommit true 0; OBClose 0; OGet [97]; OGet [107]].
Definition ex_answers : list eres := [EUnit; EUnit; EUnit; EUnit; EUnit; EValue (Some [98]); EValue None].

Lemma ex_arun : arun ex_ops (mkA (mem_map ex_store.2) ∅ ∅ ∅) = Some (ex_answers, mkA {[ [97] := [98] ]} ∅ ∅ ∅).
Proof. vm_compute. reflexivity. Qed.


Lemma handles_typed_witness : exists o, heap ex_opened.2 !! 9%N = Some o /\ of_kind KStore o = true.
Proof.
  exact (proj1 (handles_typed [100] ex_config _ _ _ (reached_open [100] ex_config (ex_world (Some {[ [107] := [118] ]})) ex_db ex_opened.2 9%N ex_store eq_refl ex_open_eq eq_refl ex_store_at)) KStore 9%N eq_refl).
Defined.
