(* ===== verification/Store.v ===== *)
(** * The store layer (src/store)

    [Iterator] and [RangeLimitIterator] of src/store/iterator.go over the engine
    interface, and [WriteBatch] and the read operations of src/store/writebatch.go and
    src/store/db.go.  The statistics counters of src/store/stat.go are not part of the
    model.

    The main results: the loop [for ; it.Valid(); it.Next()] over a range iterator visits
    exactly the entries of the range, in the order of the direction, cut by the offset and
    the count ([range_items_forward], [range_items_backward]); [Find] is a lookup. *)

From S2P Require Import Prelude Driver.

(** Constants of src/store/iterator.go. *)
Definition IteratorForward : Z := 0.
Definition IteratorBackward : Z := 1.

Definition RangeClose : Z := 0x00.
Definition RangeLOpen : Z := 0x01.
Definition RangeROpen : Z := 0x10.
Definition RangeOpen : Z := 0x11.

Record Range := mkRange { Min : option bytes; Max : option bytes; RType : Z }.
Record Limit := mkLimit { Offset : Z; Count : Z }.

Section Iter.
Context {I : IDB}.

(** [Iterator.Find] and [RawFind]: seek, then compare the key found with the key asked. *)
Definition Find (it : cursor) (key : bytes) : cursor * option bytes :=
  let it := cur_Seek key it in
  (it, if cur_Valid it then
         match cur_Key it with
         | None => None
         | Some k => if decide (k = key) then cur_Value it else None
         end
       else None).

Record RangeLimitIterator := mkRLI {
  rit : cursor;
  rng : Range;
  lim : Limit;
  step : Z;
  direction : Z
}.

(** [bytes.Compare(it.it.RawKey(), x)], the key of an invalid iterator being nil. *)
Definition raw_key (c : cursor) : bytes := default [] (cur_Key c).
Definition raw_value (c : cursor) : bytes := default [] (cur_Value c).

Definition rli_Valid (it : RangeLimitIterator) : bool :=
  if Offset (lim it) <? 0 then false
  else if negb (cur_Valid (rit it)) then false
  else if (Count (lim it) >=? 0) && (step it >=? Count (lim it)) then false
  else if direction it =? IteratorForward then
    match Max (rng it) with
    | Some max =>
        let r := bcmp (raw_key (rit it)) max in
        if Z.land (RType (rng it)) RangeROpen >? 0
        then match r with Lt => true | _ => false end
        else match r with Gt => false | _ => true end
    | None => true
    end
  else
    match Min (rng it) with
    | Some min =>
        let r := bcmp (raw_key (rit it)) min in
        if Z.land (RType (rng it)) RangeLOpen >? 0
        then match r with Gt => true | _ => false end
        else match r with Lt => false | _ => true end
    | None => true
    end.

Definition rli_Next (it : RangeLimitIterator) : RangeLimitIterator :=
  mkRLI (if direction it =? IteratorForward then cur_Next (rit it) else cur_Prev (rit it))
        (rng it) (lim it) (step it + 1) (direction it).

(** The positioning part of [rangeLimitIterator], forward and backward. *)
Definition position_forward (c : cursor) (r : Range) : cursor :=
  match Min r with
  | None => cur_First c
  | Some min =>
      let c := cur_Seek min c in
      if (Z.land (RType r) RangeLOpen >? 0) &&
         (cur_Valid c && bool_decide (raw_key c = min))
      then cur_Next c else c
  end.

Definition position_backward (c : cursor) (r : Range) : cursor :=
  match Max r with
  | None => cur_Last c
  | Some max =>
      let c := cur_Seek max c in
      let c := if negb (cur_Valid c) then cur_Last c
               else if negb (bool_decide (raw_key c = max)) then cur_Prev c else c in
      if (Z.land (RType r) RangeROpen >? 0) &&
         (cur_Valid c && bool_decide (raw_key c = max))
      then cur_Prev c else c
  end.

(** [for i := 0; i < l.Offset; i++ { if it.it.Valid() { ... } }] *)
Fixpoint skip_offset (n : nat) (dir : Z) (c : cursor) : cursor :=
  match n with
  | O => c
  | S n' =>
      skip_offset n' dir
        (if cur_Valid c then (if dir =? IteratorForward then cur_Next c else cur_Prev c) else c)
  end.

Definition rangeLimitIterator (c : cursor) (r : Range) (l : Limit) (dir : Z) : RangeLimitIterator :=
  if Offset l <? 0 then mkRLI c r l 0 dir
  else
    let c := if dir =? IteratorForward then position_forward c r else position_backward c r in
    mkRLI (skip_offset (Z.to_nat (Offset l)) dir c) r l 0 dir.

Definition NewRangeLimitIterator (c : cursor) (r : Range) (l : Limit) : RangeLimitIterator :=
  rangeLimitIterator c r l IteratorForward.
Definition NewRevRangeLimitIterator (c : cursor) (r : Range) (l : Limit) : RangeLimitIterator :=
  rangeLimitIterator c r l IteratorBackward.
Definition NewRangeIterator (c : cursor) (r : Range) : RangeLimitIterator :=
  rangeLimitIterator c r (mkLimit 0 (-1)) IteratorForward.
Definition NewRevRangeIterator (c : cursor) (r : Range) : RangeLimitIterator :=
  rangeLimitIterator c r (mkLimit 0 (-1)) IteratorBackward.

(** The entries the loop [for ; it.Valid(); it.Next()] visits. *)
Fixpoint rli_loop (fuel : nat) (it : RangeLimitIterator) : list (bytes * bytes) :=
  match fuel with
  | O => []
  | S f =>
      if rli_Valid it
      then (raw_key (rit it), raw_value (rit it)) :: rli_loop f (rli_Next it)
      else []
  end.

Definition rli_items (it : RangeLimitIterator) : list (bytes * bytes) :=
  rli_loop (S (cur_bound (rit it))) it.

(** Operations of [store.DB]. *)
Definition db_Get (db : engine) (key : bytes) : option bytes * option error := drv_Get db key.

(** The fallback of [GetSlice] for an engine that is not an [ISliceGeter]: a missing key
    is the nil slice. *)
Definition db_GetSlice (db : engine) (key : bytes) : option bytes * option error :=
  match db_Get db key with
  | (_, Some err) => (None, Some err)
  | (None, None) => (None, None)
  | (Some v, None) => (Some v, None)
  end.

Definition db_RangeIterator (db : engine) (min max : option bytes) (rangeType : Z) : RangeLimitIterator :=
  NewRangeLimitIterator (drv_NewIterator db) (mkRange min max rangeType) (mkLimit 0 (-1)).
Definition db_RevRangeIterator (db : engine) (min max : option bytes) (rangeType : Z) : RangeLimitIterator :=
  NewRevRangeLimitIterator (drv_NewIterator db) (mkRange min max rangeType) (mkLimit 0 (-1)).
Definition db_RangeLimitIterator (db : engine) (min max : option bytes) (rangeType offset count : Z) : RangeLimitIterator :=
  NewRangeLimitIterator (drv_NewIterator db) (mkRange min max rangeType) (mkLimit offset count).
Definition db_RevRangeLimitIterator (db : engine) (min max : option bytes) (rangeType offset count : Z) : RangeLimitIterator :=
  NewRevRangeLimitIterator (drv_NewIterator db) (mkRange min max rangeType) (mkLimit offset count).

End Iter.

(** * Specification of range iteration *)

Definition above_min (r : Range) (k : bytes) : bool :=
  match Min r with
  | None => true
  | Some m => if Z.land (RType r) RangeLOpen >? 0 then bool_decide (blt m k) else bool_decide (ble m k)
  end.

Definition below_max (r : Range) (k : bytes) : bool :=
  match Max r with
  | None => true
  | Some m => if Z.land (RType r) RangeROpen >? 0 then bool_decide (blt k m) else bool_decide (ble k m)
  end.

Definition in_range (r : Range) (e : bytes * bytes) : bool := above_min r e.1 && below_max r e.1.

(** The entries of [m] in the range [r], in key order. *)
Definition range_entries (m : gmap bytes bytes) (r : Range) : list (bytes * bytes) :=
  filter (fun e => in_range r e = true) (sorted_entries m).

(** The part of a result that an offset and a count select: nothing for a negative
    offset, everything after the offset for a negative count. *)
Definition cut {A} (l : Limit) (xs : list A) : list A :=
  if Offset l <? 0 then []
  else let ys := drop (Z.to_nat (Offset l)) xs in
       if Count l <? 0 then ys else take (Z.to_nat (Count l)) ys.

Lemma elem_of_cut {A} l (xs : list A) x : x ∈ cut l xs -> x ∈ xs.
Proof.
  unfold cut. destruct (_ <? 0); [by intros ?%not_elem_of_nil|].
  assert (Hd : forall n, x ∈ drop n xs -> x ∈ xs).
  { intros n Hin. rewrite <- (take_drop n xs). apply elem_of_app. by right. }
  destruct (_ <? 0); [apply Hd|]. intros Hin. by eapply Hd, subseteq_take.
Qed.

(** * Lists: prefixes selected by a predicate *)

Fixpoint takewhile {A} (f : A -> bool) (l : list A) : list A :=
  match l with
  | [] => []
  | x :: l' => if f x then x :: takewhile f l' else []
  end.

(** [f] holds of an initial segment of [l]. *)
Inductive initial {A} (f : A -> bool) : list A -> Prop :=
  | initial_nil : initial f []
  | initial_true x l : f x = true -> initial f l -> initial f (x :: l)
  | initial_false x l : f x = false -> Forall (fun y => f y = false) l -> initial f (x :: l).

Lemma filter_none {A} (f : A -> bool) l :
  Forall (fun y => f y = false) l -> filter (fun x => f x = true) l = [].
Proof.
  induction 1 as [|x l Hx _ IH]; [done|]. rewrite filter_cons. by rewrite decide_False by congruence.
Qed.

Lemma filter_all {A} (f : A -> bool) l :
  Forall (fun y => f y = true) l -> filter (fun x => f x = true) l = l.
Proof.
  induction 1 as [|x l Hx _ IH]; [done|]. rewrite filter_cons, decide_True by done. by rewrite IH.
Qed.

Lemma initial_takewhile {A} (f : A -> bool) l :
  initial f l -> takewhile f l = filter (fun x => f x = true) l.
Proof.
  induction 1 as [|x l Hx _ IH|x l Hx Hl]; simpl; [done| |].
  - rewrite filter_cons, decide_True, Hx, IH by done. done.
  - rewrite filter_cons, decide_False, Hx, filter_none by (done || congruence). done.
Qed.

Lemma initial_app {A} (f : A -> bool) (a b : list A) :
  Forall (fun y => f y = true) a -> Forall (fun y => f y = false) b -> initial f (a ++ b).
Proof.
  intros Ha Hb. induction Ha as [|x a Hx _ IH]; simpl; [|by constructor].
  destruct Hb; by constructor.
Qed.

Lemma initial_reverse {A} (f : A -> bool) (l : list A) :
  initial (fun x => negb (f x)) l -> initial f (reverse l).
Proof.
  intros H. cut (exists a b, l = a ++ b /\ Forall (fun y => f y = false) a /\ Forall (fun y => f y = true) b).
  { intros (a & b & -> & Ha & Hb). rewrite reverse_app. apply initial_app; by apply Forall_reverse. }
  induction H as [|x l Hx _ (a & b & -> & Ha & Hb)|x l Hx Hl].
  - by exists [], [].
  - exists (x :: a), b. apply negb_true_iff in Hx. split; [done|]. by split; [constructor|].
  - exists [], (x :: l). apply negb_false_iff in Hx. split; [done|]. split; [done|].
    constructor; [done|]. eapply Forall_impl; [exact Hl|]. intros y Hy. by apply negb_false_iff in Hy.
Qed.

Lemma initial_drop {A} (f : A -> bool) n l : initial f l -> initial f (drop n l).
Proof.
  intros H; revert n; induction H as [|x l Hx Hl IH|x l Hx Hl]; intros [|n]; simpl; try by constructor.
  - apply IH.
  - destruct (drop n l) as [|y l'] eqn:E; [constructor|].
    apply (Forall_drop _ n) in Hl. rewrite E in Hl. inversion Hl; subst. by constructor.
Qed.

Lemma initial_filter_drop {A} (f : A -> bool) n l :
  initial f l -> filter (fun x => f x = true) (drop n l) = drop n (filter (fun x => f x = true) l).
Proof.
  intros H; revert n; induction H as [|x l Hx Hl IH|x l Hx Hl]; intros [|n]; simpl; try done.
  - by rewrite IH, filter_cons, decide_True.
  - rewrite (filter_none f (drop n l)) by by apply Forall_drop.
    rewrite filter_cons, decide_False, filter_none by (done || congruence). done.
Qed.

Lemma filter_andb {A} (f g : A -> bool) (l : list A) :
  filter (fun x => g x = true) (filter (fun x => f x = true) l) = filter (fun x => f x && g x = true) l.
Proof.
  induction l as [|x l IH]; [done|]. rewrite !filter_cons.
  destruct (f x) eqn:Ef, (g x) eqn:Eg; simpl; rewrite ?filter_cons, ?Eg; simpl; by rewrite IH.
Qed.

(** * Bounds on sorted snapshots *)

Definition sorted_keys (es : list (bytes * bytes)) : Prop := StronglySorted blt es.*1.

Lemma sorted_keys_cons e es :
  sorted_keys (e :: es) <-> sorted_keys es /\ Forall (fun x => blt e.1 x.1) es.
Proof.
  unfold sorted_keys. simpl. split.
  - intros H. apply StronglySorted_inv in H as [? HF]. split; [done|]. by rewrite Forall_fmap in HF.
  - intros [? HF]. constructor; [done|]. by rewrite Forall_fmap.
Qed.

(** The length of the initial segment on which [f] holds. *)
Fixpoint run_length {A} (f : A -> bool) (l : list A) : nat :=
  match l with
  | [] => O
  | x :: l' => if f x then S (run_length f l') else O
  end.

Lemma run_length_le {A} (f : A -> bool) (l : list A) : (run_length f l <= length l)%nat.
Proof. induction l as [|x l IH]; simpl; [lia|]. destruct (f x); lia. Qed.

Lemma initial_split {A} (f : A -> bool) (l : list A) :
  initial f l ->
  take (run_length f l) l = filter (fun x => f x = true) l /\
  drop (run_length f l) l = filter (fun x => negb (f x) = true) l.
Proof.
  induction 1 as [|x l Hx _ IH|x l Hx Hl]; simpl; [done| |]; rewrite Hx; simpl.
  - rewrite !filter_cons, decide_True, decide_False by (rewrite Hx; done).
    destruct IH as [-> ->]. done.
  - rewrite !filter_cons, decide_False, decide_True by (rewrite Hx; done).
    rewrite filter_none, filter_all; [done| |done]. eapply Forall_impl; [exact Hl|].
    intros y Hy; simpl in *. by rewrite Hy.
Qed.

(** Every test by an upper bound of the key holds of an initial segment. *)
Lemma sorted_initial (P : bytes -> bool) es :
  (forall a b, blt a b -> P b = true -> P a = true) ->
  sorted_keys es -> initial (fun e => P e.1) es.
Proof.
  intros HP. induction es as [|e es IH]; [constructor|]. intros [HS HF]%sorted_keys_cons.
  destruct (P e.1) eqn:E; [by constructor; auto|]. constructor; [done|].
  eapply Forall_impl; [exact HF|]. intros x Hx; simpl in *.
  destruct (P x.1) eqn:Ex; [|done]. by rewrite (HP _ _ Hx Ex) in E.
Qed.

Lemma below_max_initial r es : sorted_keys es -> initial (fun e => below_max r e.1) es.
Proof.
  apply sorted_initial. intros a b Hab. unfold below_max. destruct (Max r) as [m|]; [|done].
  destruct (_ >? 0); rewrite !bool_decide_eq_true; intros ?.
  - eauto using blt_trans.
  - apply ble_alt; left. eauto using blt_ble_trans.
Qed.

Lemma above_min_initial r es : sorted_keys es -> initial (fun e => negb (above_min r e.1)) es.
Proof.
  apply (sorted_initial (fun k => negb (above_min r k))). intros a b Hab. unfold above_min.
  destruct (Min r) as [m|]; [|done]. rewrite !negb_true_iff.
  destruct (_ >? 0); rewrite !bool_decide_eq_false; intros H1 H2; apply H1.
  - eauto using blt_trans.
  - apply ble_alt; left. eauto using ble_blt_trans.
Qed.

Lemma sorted_keys_drop n es : sorted_keys es -> sorted_keys (drop n es).
Proof.
  revert n; induction es as [|e es IH]; intros [|n]; simpl; try done.
  intros [HS _]%sorted_keys_cons. auto.
Qed.

Lemma sorted_keys_take n es : sorted_keys es -> sorted_keys (take n es).
Proof.
  revert n; induction es as [|e es IH]; intros [|n]; simpl; try (by constructor).
  intros [HS HF]%sorted_keys_cons. apply sorted_keys_cons. split; [auto|]. by apply Forall_take.
Qed.

Definition lt_key (k : bytes) (e : bytes * bytes) : bool := bool_decide (blt e.1 k).
Definition le_key (k : bytes) (e : bytes * bytes) : bool := bool_decide (ble e.1 k).

Lemma lt_key_initial k es : sorted_keys es -> initial (lt_key k) es.
Proof.
  set (P := fun x : bytes => bool_decide (blt x k)). apply (sorted_initial P). unfold P.
  intros a b ? ?%bool_decide_eq_true. apply bool_decide_true. eauto using blt_trans.
Qed.

Lemma le_key_initial k es : sorted_keys es -> initial (le_key k) es.
Proof.
  set (P := fun x : bytes => bool_decide (ble x k)). apply (sorted_initial P). unfold P.
  intros a b ? ?%bool_decide_eq_true. apply bool_decide_true. apply ble_alt. left. eauto using blt_ble_trans.
Qed.

Lemma negb_lt_key k e : negb (lt_key k e) = bool_decide (ble k e.1).
Proof.
  unfold lt_key. rewrite <- bool_decide_not. apply bool_decide_ext.
  rewrite <- not_ble. split; [apply dec_stable|auto].
Qed.

Lemma negb_le_key k e : negb (le_key k e) = bool_decide (blt k e.1).
Proof. unfold le_key. rewrite <- bool_decide_not. apply bool_decide_ext, not_ble. Qed.

(** [Seek] stops after the keys smaller than its argument. *)
Lemma seek_run_length k es : seek_index k es = run_length (lt_key k) es.
Proof.
  induction es as [|e es IH]; [done|]. simpl. rewrite <- IH.
  pose proof (negb_lt_key k e) as H. case_decide as Hd.
  - rewrite bool_decide_true in H by done. by destruct (lt_key k e).
  - rewrite bool_decide_false in H by done. by destruct (lt_key k e).
Qed.

Lemma seek_finds es k v :
  sorted_keys es -> (k, v) ∈ es -> es !! run_length (lt_key k) es = Some (k, v).
Proof.
  induction es as [|e es IH]; [by intros _ ?%elem_of_nil|].
  intros [HS HF]%sorted_keys_cons. intros [<-|Hin]%elem_of_cons; simpl.
  - unfold lt_key at 1. by rewrite bool_decide_false by apply blt_irrefl.
  - rewrite Forall_forall in HF. specialize (HF _ Hin). simpl in HF.
    unfold lt_key at 1. rewrite bool_decide_true by done. simpl. auto.
Qed.

(** The entry [Seek] stops at decides whether one more key is not greater. *)
Lemma le_run_length k es :
  sorted_keys es ->
  run_length (le_key k) es =
  match es !! run_length (lt_key k) es with
  | Some kv => if bool_decide (kv.1 = k) then S (run_length (lt_key k) es) else run_length (lt_key k) es
  | None => run_length (lt_key k) es
  end.
Proof.
  induction es as [|e es IH]; [done|]. intros [HS HF]%sorted_keys_cons. simpl.
  destruct (lt_key k e) eqn:El.
  - assert (le_key k e = true) as ->.
    { apply bool_decide_eq_true in El. apply bool_decide_true, ble_alt. by left. }
    simpl. rewrite IH by done. destruct (es !! _) as [kv|]; [|done]. by destruct (bool_decide _).
  - apply bool_decide_eq_false in El. simpl. destruct (le_key k e) eqn:Ele.
    + apply bool_decide_eq_true, ble_alt in Ele as [?|Hk]; [done|]. rewrite bool_decide_true by done.
      f_equal. destruct es as [|e' es']; [done|]. simpl. apply Forall_cons in HF as [He' _].
      unfold le_key. rewrite bool_decide_false; [done|]. rewrite <- Hk. by apply not_ble.
    + apply bool_decide_eq_false in Ele. rewrite bool_decide_false; [done|].
      intros Hk. apply Ele. by rewrite Hk.
Qed.

(** * Loops over the engine's cursor *)

Section Loop.
Context {I : IDB} {S : IDBSpec I}.

(** The position of a forward cursor: at index [j], or past the end. *)
Definition at_fwd (c : cursor) (es : list (bytes * bytes)) (j : nat) : Prop :=
  snap c = es /\ pos c = clamp (length es) j.

(** The position of a backward cursor: [n] entries are still ahead of it. *)
Definition at_bwd (c : cursor) (es : list (bytes * bytes)) (n : nat) : Prop :=
  snap c = es /\ (n <= length es)%nat /\ pos c = match n with O => None | Datatypes.S j => Some j end.

Lemma clamp_None n i : clamp n i = None <-> (n <= i)%nat.
Proof. unfold clamp. case_decide; naive_solver lia. Qed.

Lemma valid_at c i : pos c = Some i -> cur_Valid c = true.
Proof. intros H. rewrite cur_valid_pos, H. by apply bool_decide_true. Qed.

Lemma invalid_at c : pos c = None -> cur_Valid c = false.
Proof. intros H. rewrite cur_valid_pos, H. apply bool_decide_false. by intros []. Qed.

Lemma at_entry c i kv : pos c = Some i -> snap c !! i = Some kv -> raw_key c = kv.1 /\ raw_value c = kv.2.
Proof.
  intros Hp Hk. unfold raw_key, raw_value. by rewrite (cur_key_at c i kv), (cur_value_at c i kv).
Qed.

Lemma at_fwd_next c es j kv :
  at_fwd c es j -> es !! j = Some kv ->
  pos c = Some j /\ cur_Valid c = true /\ raw_key c = kv.1 /\ raw_value c = kv.2 /\ at_fwd (cur_Next c) es (Datatypes.S j).
Proof.
  intros [Hs Hp] Hj. assert (pos c = Some j) as Hp'.
  { rewrite Hp. apply clamp_Some. split; [done|]. by eapply lookup_lt_Some. }
  split; [done|]. split; [by eapply valid_at|].
  destruct (at_entry c j kv) as [-> ->]; [done|by rewrite Hs|]. repeat split.
  - by rewrite cur_snap_next.
  - by rewrite (cur_pos_next c j), Hs.
Qed.

Lemma at_fwd_end c es j : at_fwd c es j -> es !! j = None -> cur_Valid c = false.
Proof.
  intros [Hs Hp] Hj. apply invalid_at. rewrite Hp. apply clamp_None. by apply lookup_ge_None.
Qed.

Lemma at_bwd_prev c es n kv :
  at_bwd c es (Datatypes.S n) -> es !! n = Some kv ->
  pos c = Some n /\ cur_Valid c = true /\ raw_key c = kv.1 /\ raw_value c = kv.2 /\ at_bwd (cur_Prev c) es n.
Proof.
  intros (Hs & Hl & Hp) Hj. split; [done|]. split; [by eapply valid_at|].
  destruct (at_entry c n kv) as [-> ->]; [done|by rewrite Hs|]. repeat split.
  - by rewrite cur_snap_prev.
  - lia.
  - by apply cur_pos_prev.
Qed.

Lemma at_bwd_end c es : at_bwd c es 0 -> cur_Valid c = false.
Proof. intros (_ & _ & Hp). by apply invalid_at. Qed.

(** ** The offset *)

Lemma skip_offset_fwd o c es j :
  at_fwd c es j -> at_fwd (skip_offset o IteratorForward c) es (j + o).
Proof.
  revert c j; induction o as [|o IH]; intros c j Hc; simpl; [by rewrite Nat.add_0_r|].
  rewrite Nat.add_succ_r. destruct (es !! j) as [kv|] eqn:E.
  - destruct (at_fwd_next c es j kv Hc E) as (_ & -> & _ & _ & Hn). by apply (IH _ (Datatypes.S j)).
  - rewrite (at_fwd_end c es j Hc E). specialize (IH c j Hc). destruct Hc as [_ Hp].
    destruct IH as [Hs' Hp']. split; [done|]. rewrite Hp'. apply lookup_ge_None in E.
    rewrite !(proj2 (clamp_None _ _)) by lia. done.
Qed.

Lemma skip_offset_bwd o c es n :
  at_bwd c es n -> at_bwd (skip_offset o IteratorBackward c) es (n - o).
Proof.
  revert c n; induction o as [|o IH]; intros c n Hc; simpl; [by rewrite Nat.sub_0_r|].
  destruct n as [|n].
  - rewrite (at_bwd_end c es Hc). apply (IH c 0%nat Hc).
  - destruct (lookup_lt_is_Some_2 es n) as [kv E]; [destruct Hc as (_ & ? & _); lia|].
    destruct (at_bwd_prev c es n kv Hc E) as (_ & -> & _ & _ & Hn). by apply IH.
Qed.

(** ** Positioning *)

Lemma at_seek k c es : snap c = es -> at_fwd (cur_Seek k c) es (seek_index k es).
Proof. intros Hs. split; [by rewrite cur_snap_seek|by rewrite cur_pos_seek, Hs]. Qed.

(** The index the forward positioning reaches. *)
Definition fwd_index (r : Range) (es : list (bytes * bytes)) : nat :=
  match Min r with
  | None => O
  | Some m => if Z.land (RType r) RangeLOpen >? 0 then run_length (le_key m) es else run_length (lt_key m) es
  end.

(** The number of entries ahead of the backward positioning. *)
Definition bwd_index (r : Range) (es : list (bytes * bytes)) : nat :=
  match Max r with
  | None => length es
  | Some m => if Z.land (RType r) RangeROpen >? 0 then run_length (lt_key m) es else run_length (le_key m) es
  end.

Lemma position_forward_at c es r :
  snap c = es -> sorted_keys es -> at_fwd (position_forward c r) es (fwd_index r es).
Proof.
  intros Hs HS. unfold position_forward, fwd_index. destruct (Min r) as [m|].
  2:{ by split; [rewrite cur_snap_first|rewrite cur_pos_first, Hs]. }
  pose proof (at_seek m c es Hs) as Hc. rewrite seek_run_length in Hc.
  destruct (Z.land (RType r) RangeLOpen >? 0); simpl; [|done].
  rewrite le_run_length by done. destruct (es !! run_length (lt_key m) es) as [kv|] eqn:E.
  - destruct (at_fwd_next _ es _ kv Hc E) as (_ & -> & -> & _ & Hn). simpl. by case_bool_decide.
  - by rewrite (at_fwd_end _ es _ Hc E).
Qed.

Lemma run_length_last {A} (f : A -> bool) (l : list A) i x :
  run_length f l = Datatypes.S i -> l !! i = Some x -> f x = true.
Proof.
  revert i; induction l as [|y l IH]; intros i; simpl; [done|].
  destruct (f y) eqn:E; [|done]. intros [= H]. destruct i as [|i]; simpl; [by intros [= ->]|].
  intros. by eapply IH.
Qed.

(** Just before the place of [m] no key is [m]. *)
Lemma bwd_not_key c es m :
  at_bwd c es (run_length (lt_key m) es) -> cur_Valid c && bool_decide (raw_key c = m) = false.
Proof.
  intros Hc. destruct (run_length (lt_key m) es) as [|i] eqn:Ei.
  - by rewrite (at_bwd_end c es).
  - destruct (lookup_lt_is_Some_2 es i) as [kv E]; [destruct Hc as (_ & ? & _); lia|].
    destruct (at_bwd_prev c es i kv Hc E) as (_ & -> & -> & _ & _). simpl.
    pose proof (run_length_last _ _ _ _ Ei E) as Hlt. apply bool_decide_eq_true in Hlt.
    apply bool_decide_eq_false. intros Hk. rewrite Hk in Hlt. by apply blt_irrefl in Hlt.
Qed.

Lemma at_bwd_last c es : snap c = es -> at_bwd (cur_Last c) es (length es).
Proof.
  intros Hs. split; [by rewrite cur_snap_last|]. split; [lia|]. rewrite cur_pos_last, Hs.
  destruct es as [|e es']; [done|]. simpl. rewrite Nat.sub_0_r. apply clamp_Some. simpl. lia.
Qed.

Lemma position_backward_at c es r :
  snap c = es -> sorted_keys es -> at_bwd (position_backward c r) es (bwd_index r es).
Proof.
  intros Hs HS. unfold position_backward, bwd_index. destruct (Max r) as [m|].
  2:{ by apply at_bwd_last. }
  pose proof (at_seek m c es Hs) as Hc. rewrite seek_run_length in Hc.
  rewrite le_run_length by done. pose proof (run_length_le (lt_key m) es) as Hle.
  destruct (es !! run_length (lt_key m) es) as [kv|] eqn:E.
  - destruct (at_fwd_next _ es _ kv Hc E) as (Hp & -> & Hk & _ & _). simpl. rewrite Hk.
    pose proof (lookup_lt_Some _ _ _ E). destruct Hc as [Hsn _].
    destruct (bool_decide (kv.1 = m)) eqn:Ek; simpl.
    + assert (Hb : at_bwd (cur_Seek m c) es (Datatypes.S (run_length (lt_key m) es))) by (by split; [|split]).
      destruct (at_bwd_prev _ es _ kv Hb E) as (_ & -> & -> & _ & Hprev). rewrite Ek. simpl.
      by destruct (Z.land (RType r) RangeROpen >? 0).
    + assert (Hb : at_bwd (cur_Prev (cur_Seek m c)) es (run_length (lt_key m) es)).
      { split; [by rewrite cur_snap_prev|]. split; [lia|]. by rewrite (cur_pos_prev _ _ Hp). }
      rewrite (bwd_not_key _ es m Hb), andb_false_r. by destruct (_ >? 0).
  - rewrite (at_fwd_end _ es _ Hc E). simpl. apply lookup_ge_None in E.
    assert (Hb : at_bwd (cur_Last (cur_Seek m c)) es (run_length (lt_key m) es)).
    { replace (run_length (lt_key m) es) with (length es) by lia. apply at_bwd_last. by rewrite cur_snap_seek. }
    rewrite (bwd_not_key _ es m Hb), andb_false_r. by destruct (_ >? 0).
Qed.

(** ** The loop *)

(** What is left of the count after [s] steps. *)
Definition left_count {A} (count s : Z) (xs : list A) : list A :=
  if count <? 0 then xs else take (Z.to_nat (count - s)) xs.

Lemma left_count_nil {A} count s : left_count count s ([] : list A) = [].
Proof. unfold left_count. case_if; [done|]. apply take_nil. Qed.

Lemma left_count_zero {A} count s (xs : list A) : 0 <= count -> count <= s -> left_count count s xs = [].
Proof. intros. unfold left_count. case_if; [lia|]. by replace (Z.to_nat (count - s)) with 0%nat by lia. Qed.

Lemma left_count_cons {A} count s (x : A) xs :
  count < 0 \/ s < count -> left_count count s (x :: xs) = x :: left_count count (s + 1) xs.
Proof.
  intros. unfold left_count. case_if; [done|].
  by replace (Z.to_nat (count - s)) with (Datatypes.S (Z.to_nat (count - (s + 1)))) by lia.
Qed.

(** [Valid] at an entry of the snapshot: the count is not used up and the far bound of
    the range is not passed. *)
Lemma rli_Valid_fwd it es j kv :
  direction it = IteratorForward -> 0 <= Offset (lim it) -> at_fwd (rit it) es j -> es !! j = Some kv ->
  rli_Valid it = negb ((Count (lim it) >=? 0) && (step it >=? Count (lim it))) && below_max (rng it) kv.1.
Proof.
  intros Hd Ho Hat E. destruct (at_fwd_next _ es j kv Hat E) as (_ & Hv & Hk & _ & _).
  unfold rli_Valid. rewrite (proj2 (Z.ltb_ge _ _)), Hv, Hd by done. cbn [negb]. cbn match.
  destruct (_ && _); [done|]. simpl. rewrite Hk. unfold below_max.
  destruct (Max (rng it)) as [m|]; [|done]. by rewrite blt_bool, ble_bool.
Qed.

Lemma rli_Valid_bwd it es n kv :
  direction it = IteratorBackward -> 0 <= Offset (lim it) -> at_bwd (rit it) es (Datatypes.S n) -> es !! n = Some kv ->
  rli_Valid it = negb ((Count (lim it) >=? 0) && (step it >=? Count (lim it))) && above_min (rng it) kv.1.
Proof.
  intros Hd Ho Hat E. destruct (at_bwd_prev _ es n kv Hat E) as (_ & Hv & Hk & _ & _).
  unfold rli_Valid. rewrite (proj2 (Z.ltb_ge _ _)), Hv, Hd by done. cbn [negb]. cbn match.
  destruct (_ && _); [done|]. simpl. rewrite Hk. unfold above_min.
  destruct (Min (rng it)) as [m|]; [|done]. rewrite blt_bool, ble_bool, (bcmp_antisym kv.1 m).
  by destruct (bcmp kv.1 m).
Qed.

Lemma rli_Valid_end it : cur_Valid (rit it) = false -> rli_Valid it = false.
Proof. intros H. unfold rli_Valid. rewrite H. by destruct (_ <? 0). Qed.

Lemma rli_loop_fwd fuel it es j :
  direction it = IteratorForward -> 0 <= Offset (lim it) ->
  at_fwd (rit it) es j -> (length es - j < fuel)%nat ->
  rli_loop fuel it =
  left_count (Count (lim it)) (step it) (takewhile (fun e => below_max (rng it) e.1) (drop j es)).
Proof.
  revert it j; induction fuel as [|f IH]; intros it j Hd Ho Hat Hf; [lia|]. cbn [rli_loop].
  destruct (es !! j) as [kv|] eqn:E.
  2:{ rewrite rli_Valid_end by by eapply at_fwd_end. apply lookup_ge_None in E.
      rewrite drop_ge by done. symmetry. apply left_count_nil. }
  rewrite (rli_Valid_fwd it es j kv) by done. rewrite (drop_S es kv j) by done. cbn [takewhile].
  destruct ((Count (lim it) >=? 0) && (step it >=? Count (lim it))) eqn:Ec; simpl.
  { zify_bool. symmetry. apply left_count_zero; lia. }
  destruct (below_max (rng it) kv.1); [|symmetry; apply left_count_nil].
  rewrite left_count_cons by (destruct (Count (lim it) >=? 0) eqn:?; simpl in Ec; zify_bool; lia).
  destruct (at_fwd_next _ es j kv Hat E) as (_ & _ & -> & -> & Hn). f_equal; [by destruct kv|].
  rewrite (IH (rli_Next it) (Datatypes.S j)); [done|done|done| |apply lookup_lt_Some in E; lia].
  unfold rli_Next; simpl. by rewrite Hd.
Qed.

Lemma rli_loop_bwd fuel it es n :
  direction it = IteratorBackward -> 0 <= Offset (lim it) ->
  at_bwd (rit it) es n -> (n < fuel)%nat ->
  rli_loop fuel it =
  left_count (Count (lim it)) (step it) (takewhile (fun e => above_min (rng it) e.1) (reverse (take n es))).
Proof.
  revert it n; induction fuel as [|f IH]; intros it n Hd Ho Hat Hf; [lia|]. cbn [rli_loop].
  destruct n as [|n].
  { rewrite rli_Valid_end by by eapply at_bwd_end. rewrite take_0. symmetry. apply left_count_nil. }
  destruct (lookup_lt_is_Some_2 es n) as [kv E]; [destruct Hat as (_ & ? & _); lia|].
  rewrite (rli_Valid_bwd it es n kv) by done.
  rewrite (take_S_r es n kv), reverse_snoc by done. cbn [takewhile].
  destruct ((Count (lim it) >=? 0) && (step it >=? Count (lim it))) eqn:Ec; simpl.
  { zify_bool. symmetry. apply left_count_zero; lia. }
  destruct (above_min (rng it) kv.1); [|symmetry; apply left_count_nil].
  rewrite left_count_cons by (destruct (Count (lim it) >=? 0) eqn:?; simpl in Ec; zify_bool; lia).
  destruct (at_bwd_prev _ es n kv Hat E) as (_ & _ & -> & -> & Hn). f_equal; [by destruct kv|].
  rewrite (IH (rli_Next it) n); [done|done|done| |lia].
  unfold rli_Next; simpl. by rewrite Hd.
Qed.

(** ** Range iteration meets its specification *)

Lemma left_count_cut {A} (l : Limit) (xs : list A) :
  0 <= Offset l -> left_count (Count l) 0 (drop (Z.to_nat (Offset l)) xs) = cut l xs.
Proof.
  intros. unfold left_count, cut. rewrite (proj2 (Z.ltb_ge (Offset l) 0)) by done. by rewrite Z.sub_0_r.
Qed.

Lemma fwd_index_drop r es :
  sorted_keys es -> drop (fwd_index r es) es = filter (fun e => above_min r e.1 = true) es.
Proof.
  intros HS. unfold fwd_index, above_min. destruct (Min r) as [m|].
  2:{ rewrite drop_0. symmetry. apply (filter_all (fun _ => true)). by apply Forall_true. }
  destruct (_ >? 0).
  - rewrite (proj2 (initial_split (le_key m) es (le_key_initial m es HS))).
    apply list_filter_iff. intros x. by rewrite negb_le_key.
  - rewrite (proj2 (initial_split (lt_key m) es (lt_key_initial m es HS))).
    apply list_filter_iff. intros x. by rewrite negb_lt_key.
Qed.

Lemma bwd_index_take r es :
  sorted_keys es -> take (bwd_index r es) es = filter (fun e => below_max r e.1 = true) es.
Proof.
  intros HS. unfold bwd_index, below_max. destruct (Max r) as [m|].
  2:{ rewrite firstn_all. symmetry. apply (filter_all (fun _ => true)). by apply Forall_true. }
  destruct (_ >? 0).
  - by rewrite (proj1 (initial_split (lt_key m) es (lt_key_initial m es HS))).
  - by rewrite (proj1 (initial_split (le_key m) es (le_key_initial m es HS))).
Qed.

(** The entries of a forward range loop are those of the range, cut by offset and count,
    wherever the iterator stood. *)
Lemma range_items_forward it m r l :
  snap it = sorted_entries m ->
  rli_items (NewRangeLimitIterator it r l) = cut l (range_entries m r).
Proof.
  intros Hes. assert (HS : sorted_keys (snap it)) by (rewrite Hes; apply sorted_entries_sorted).
  unfold rli_items, NewRangeLimitIterator, rangeLimitIterator.
  destruct (Offset l <? 0) eqn:Eo; zify_bool.
  { unfold cut. rewrite (proj2 (Z.ltb_lt _ 0)) by done. cbn. unfold rli_Valid. simpl.
    by rewrite (proj2 (Z.ltb_lt _ 0)). }
  set (c := position_forward _ r).
  pose proof (position_forward_at it _ r eq_refl HS) as Hat. rewrite Hes in Hat.
  fold c in Hat. pose proof (skip_offset_fwd (Z.to_nat (Offset l)) c _ _ Hat) as Hsk.
  change (IteratorForward =? IteratorForward) with true. cbn match.
  erewrite rli_loop_fwd; [|done|done|exact Hsk|].
  2:{ destruct Hsk as [<- _]. simpl rit. pose proof (bound_ok (skip_offset (Z.to_nat (Offset l)) IteratorForward c)). lia. }
  simpl lim; simpl step; simpl rng. rewrite Hes in HS.
  rewrite <- drop_drop, initial_takewhile, initial_filter_drop, fwd_index_drop, filter_andb, left_count_cut;
    try done; repeat apply initial_drop; by apply below_max_initial.
Qed.

Lemma reverse_take_sub {A} n o (l : list A) :
  (n <= length l)%nat -> reverse (take (n - o) l) = drop o (reverse (take n l)).
Proof.
  intros Hn. rewrite drop_reverse, length_take_le, take_take by done. do 2 f_equal. lia.
Qed.

(** The entries of a backward range loop are those of the range in descending order. *)
Lemma range_items_backward it m r l :
  snap it = sorted_entries m ->
  rli_items (NewRevRangeLimitIterator it r l) = cut l (reverse (range_entries m r)).
Proof.
  intros Hes. assert (HS : sorted_keys (snap it)) by (rewrite Hes; apply sorted_entries_sorted).
  unfold rli_items, NewRevRangeLimitIterator, rangeLimitIterator.
  destruct (Offset l <? 0) eqn:Eo; zify_bool.
  { unfold cut. rewrite (proj2 (Z.ltb_lt _ 0)) by done. cbn. unfold rli_Valid. simpl.
    by rewrite (proj2 (Z.ltb_lt _ 0)). }
  set (c := position_backward _ r).
  pose proof (position_backward_at it _ r eq_refl HS) as Hat. rewrite Hes in Hat.
  fold c in Hat. pose proof (skip_offset_bwd (Z.to_nat (Offset l)) c _ _ Hat) as Hsk.
  change (IteratorBackward =? IteratorForward) with false. cbn match.
  erewrite rli_loop_bwd; [|done|done|exact Hsk|].
  2:{ destruct Hsk as (Hs & Hn & _). simpl rit. pose proof (bound_ok (skip_offset (Z.to_nat (Offset l)) IteratorBackward c)) as Hb.
      rewrite Hs in Hb. lia. }
  simpl lim; simpl step; simpl rng. rewrite Hes in HS.
  rewrite reverse_take_sub by (destruct Hat as (_ & ? & _); done).
  assert (HI : initial (fun e0 => above_min r e0.1) (reverse (take (bwd_index r (sorted_entries m)) (sorted_entries m)))).
  { apply initial_reverse, above_min_initial. by apply sorted_keys_take. }
  rewrite initial_takewhile, initial_filter_drop, bwd_index_take, left_count_cut; try done; [|by apply initial_drop].
  f_equal. rewrite filter_reverse. f_equal. rewrite filter_andb. apply list_filter_iff.
  intros x. unfold in_range. by rewrite andb_comm.
Qed.

(** [Find] is a lookup, wherever the iterator stands, and keeps the snapshot. *)
Lemma Find_lookup m c k :
  snap c = sorted_entries m ->
  (Find c k).2 = m !! k /\ snap (Find c k).1 = sorted_entries m.
Proof.
  intros Hes. unfold Find. cbn [fst snd]. split; [|by rewrite cur_snap_seek].
  pose proof (sorted_entries_sorted m) as HS.
  pose proof (at_seek k c _ Hes) as Hat. rewrite seek_run_length in Hat.
  destruct (m !! k) as [v|] eqn:Hv.
  - apply elem_of_sorted_entries in Hv. pose proof (seek_finds _ _ _ HS Hv) as E.
    destruct (at_fwd_next _ _ _ _ Hat E) as (Hp & -> & _). destruct Hat as [Hs _]. rewrite <- Hs in E, Hp.
    rewrite (cur_key_at _ _ _ Hp E), (cur_value_at _ _ _ Hp E). by rewrite decide_True.
  - destruct (sorted_entries m !! run_length (lt_key k) (sorted_entries m)) as [kv|] eqn:E.
    + destruct (at_fwd_next _ _ _ _ Hat E) as (Hp & -> & _). destruct Hat as [Hs _].
      pose proof (list_elem_of_lookup_2 _ _ _ E) as Hin. rewrite <- Hs in E, Hp.
      rewrite (cur_key_at _ _ _ Hp E). destruct kv as [k' v]; simpl. apply elem_of_sorted_entries in Hin.
      rewrite decide_False by congruence. done.
    + by rewrite (at_fwd_end _ _ _ Hat E).
Qed.

End Loop.

#[global] Arguments Find : simpl never.

(** * Iteration *)

(** C27: a range iterator visits exactly the entries of the store that lie in the range
    (both bounds optional, open or closed), in key order or in reverse key order, after
    skipping [Offset] of them and at most [Count] (all when negative, none for a negative
    offset); and [Find] returns the value of a key. *)
Theorem range_iteration {I : IDB} {S : IDBSpec I} (it : cursor) (m : gmap bytes bytes) (r : Range) (l : Limit) (k : bytes) :
  snap it = sorted_entries m ->
  rli_items (NewRangeLimitIterator it r l) = cut l (range_entries m r) /\
  rli_items (NewRevRangeLimitIterator it r l) = cut l (reverse (range_entries m r)) /\
  (Find it k).2 = m !! k.
Proof.
  intros Hs. split; [by apply range_items_forward|]. split; [by apply range_items_backward|]. by apply Find_lookup.
Qed.

Lemma range_iteration_witness :
  let m : gmap bytes bytes := <[[1] := [7]]> (<[[2] := [8]]> (<[[3] := [9]]> ∅)) in
  let it := @drv_NewIterator (GoLevelDB.idb (L := MemLevelDB)) (mkMem m false) in
  rli_items (NewRevRangeLimitIterator it (mkRange (Some [1]) (Some [3]) RangeROpen) (mkLimit 0 (-1)))
  = cut (mkLimit 0 (-1)) (reverse (range_entries m (mkRange (Some [1]) (Some [3]) RangeROpen))).
Proof.
  intros m it. apply (range_iteration it m (mkRange (Some [1]) (Some [3]) RangeROpen) (mkLimit 0 (-1)) [1]). reflexivity.
Defined.
