(* ===== verification/Rpl.v ===== *)
(** * The replication log (src/rpl)

    The record of the log and its binary form (log.go), the interface of a log store
    (store.go), the store on goleveldb (goleveldb_store.go) and [Replication] (rpl.go),
    which numbers the logs and remembers the id of the last committed one in a file.

    [LogStoreSpec] is what a log store promises: it keeps a sequence of logs with
    consecutive ids.  The theorems on [Replication] are proved against it, and the store on
    goleveldb discharges it. *)

From S2P Require Import Prelude Driver Store.

(** ** Logs (log.go) *)

Definition LogHeadSize : Z := 17.

Definition log_Size (l : Log) : Z := LogHeadSize + len (LogData l).

(** [Encode] into a [bytes.Buffer], which takes everything; [Marshal] is the same bytes. *)
Definition Encode (l : Log) : bytes :=
  be_put 8 (uint64 (ID l)) ++ be_put 4 (uint32 (CreateTime l)) ++ uint8 (Compression l) :: be_put 4 (uint32 (len (LogData l))) ++
  LogData l.

Definition Marshal (l : Log) : bytes * option error := (Encode l, None).

(** The head of a log and the length of its data; the buffer has [LogHeadSize] bytes. *)
Definition decodeHeadBuf (buf : bytes) : Log * Z :=
  (mkLog (be_get (take 8 buf)) (be_get (take 4 (drop 8 buf))) (nth 12 buf 0) [], be_get (take 4 (drop 13 buf))).

(** [io.ReadFull] of [n] bytes from a reader that still has the bytes [r]. *)
Definition ReadFull (n : Z) (r : bytes) : (bytes + error) * bytes :=
  if n <=? len r then (inl (take (Z.to_nat n) r), drop (Z.to_nat n) r)
  else (inr (if len r =? 0 then EOF else ErrUnexpectedEOF), []).

Definition DecodeHead (r : bytes) : (Log * Z + error) * bytes :=
  match ReadFull LogHeadSize r with
  | (inr err, r') => (inr err, r')
  | (inl buf, r') => (inl (decodeHeadBuf buf), r')
  end.

Definition with_data (l : Log) (data : bytes) : Log := mkLog (ID l) (CreateTime l) (Compression l) data.

Definition Decode (r : bytes) : (Log + error) * bytes :=
  match DecodeHead r with
  | (inr err, r') => (inr err, r')
  | (inl (l, length), r') =>
      match ReadFull length r' with
      | (inr err, r'') => (inr err, r'')
      | (inl data, r'') => (inl (with_data l data), r'')
      end
  end.

Definition Unmarshal (b : bytes) : Log + error := (Decode b).1.

(** A log whose fields fit their widths in the head. *)
Record wf_log (l : Log) : Prop := {
  wl_id : 0 < ID l < 2 ^ 64;
  wl_time : 0 <= CreateTime l < 2 ^ 32;
  wl_compression : 0 <= Compression l < 256;
  wl_data : len (LogData l) < 2 ^ 32
}.

Lemma take_put n z (rest : bytes) : take n (be_put n z ++ rest) = be_put n z.
Proof. rewrite <- (be_put_length n z) at 1. apply take_app_length. Qed.

Lemma drop_put n z (rest : bytes) : drop n (be_put n z ++ rest) = rest.
Proof. rewrite <- (be_put_length n z) at 1. apply drop_app_length. Qed.

Lemma ReadFull_app (a rest : bytes) : ReadFull (len a) (a ++ rest) = (inl a, rest).
Proof.
  unfold ReadFull. rewrite (proj2 (Z.leb_le _ _)) by (rewrite length_app; lia). rewrite Nat2Z.id.
  by rewrite take_app_length, drop_app_length.
Qed.

Definition head_of (l : Log) : bytes :=
  be_put 8 (uint64 (ID l)) ++ be_put 4 (uint32 (CreateTime l)) ++ uint8 (Compression l) :: be_put 4 (uint32 (len (LogData l))).

Lemma head_of_length l : len (head_of l) = LogHeadSize.
Proof. unfold head_of. rewrite !length_app. cbn [length]. by rewrite !be_put_length. Qed.

Lemma Encode_head l : Encode l = head_of l ++ LogData l.
Proof. unfold Encode, head_of. by rewrite <- !app_assoc. Qed.

Lemma Encode_length l : len (Encode l) = log_Size l.
Proof. rewrite Encode_head, length_app, Nat2Z.inj_add, head_of_length. done. Qed.

Lemma decodeHeadBuf_head l : wf_log l -> decodeHeadBuf (head_of l) = (with_data l [], len (LogData l)).
Proof.
  intros [H1 H2 H3 H4]. unfold decodeHeadBuf, head_of, with_data.
  rewrite take_put, drop_put, take_put. rewrite (app_assoc (be_put 8 _)).
  assert (L : length (be_put 8 (uint64 (ID l)) ++ be_put 4 (uint32 (CreateTime l))) = 12%nat) by (by rewrite length_app, !be_put_length).
  rewrite app_nth2 by (rewrite L; lia). rewrite L. cbn [nth Nat.sub].
  change 13%nat with (12 + 1)%nat. rewrite <- drop_drop, (drop_app_length' _ _ 12) by done.
  cbn [drop]. rewrite drop_0, <- (app_nil_r (be_put 4 (uint32 (len (LogData l))))), take_put, !be_get_put.
  change (256 ^ Z.of_nat 8) with (2 ^ 64). change (256 ^ Z.of_nat 4) with (2 ^ 32).
  rewrite !uwrap_small by lia. by rewrite !Z.mod_small by lia.
Qed.

(** A log that was written to a stream is read back, and the stream is left after it. *)
Lemma Decode_Encode l rest : wf_log l -> Decode (Encode l ++ rest) = (inl l, rest).
Proof.
  intros Hl. unfold Decode, DecodeHead. rewrite Encode_head, <- app_assoc, <- (head_of_length l), ReadFull_app.
  rewrite decodeHeadBuf_head by done. rewrite ReadFull_app. by destruct l.
Qed.

Lemma Decode_nil : Decode [] = (inr EOF, []).
Proof. done. Qed.

(** ** Log stores (store.go) *)

Definition InvalidLogID : Z := 0.

Class LogStore := {
  ls_t : Type;
  ls_GetLog : Z -> SM ls_t (Log + error);
  ls_FirstID : SM ls_t (Z * option error);
  ls_LastID : SM ls_t (Z * option error);
  ls_StoreLog : Log -> SM ls_t (option error);
  (* the time, and the age in seconds *)
  ls_PurgeExpired : Z -> Z -> SM ls_t (option error);
  ls_Clear : SM ls_t (option error)
}.

(** The ids of a sequence of logs. *)
Definition first_id (logs : list Log) : Z := match logs with [] => InvalidLogID | l :: _ => ID l end.
Definition last_id (logs : list Log) : Z := match last logs with None => InvalidLogID | Some l => ID l end.

Definition log_with (logs : list Log) (id : Z) : option Log :=
  if id <? first_id logs then None else logs !! Z.to_nat (id - first_id logs).

(** Consecutive ids, and fields that fit. *)
Definition chain (logs : list Log) : Prop :=
  Forall wf_log logs /\ forall i l, logs !! i = Some l -> ID l = first_id logs + Z.of_nat i.

(** What a log store promises.  It takes the log that comes next; what it does with another
    one, and whether a store without logs takes another first log than 1, is up to the
    store. *)
Class LogStoreSpec (S : LogStore) := {
  ls_rep : ls_t -> list Log -> Prop;
  rep_chain s logs : ls_rep s logs -> chain logs;
  GetLog_ok s logs id : ls_rep s logs -> 0 < id < 2 ^ 64 -> exists s',
    ls_GetLog id s = (Ret (match log_with logs id with Some l => inl l | None => inr ErrLogNotFound end), s') /\ ls_rep s' logs;
  FirstID_ok s logs : ls_rep s logs -> exists s', ls_FirstID s = (Ret (first_id logs, None), s') /\ ls_rep s' logs;
  LastID_ok s logs : ls_rep s logs -> exists s', ls_LastID s = (Ret (last_id logs, None), s') /\ ls_rep s' logs;
  StoreLog_ok s logs l : ls_rep s logs -> wf_log l -> ID l = last_id logs + 1 -> exists s',
    ls_StoreLog l s = (Ret None, s') /\ ls_rep s' (logs ++ [l])
}.

Section Chains.

Lemma chain_nil : chain [].
Proof. split; [constructor|done]. Qed.

Lemma chain_last logs : chain logs -> logs <> [] -> last_id logs = first_id logs + len logs - 1.
Proof.
  intros [_ Hc] Hne. unfold last_id. rewrite last_lookup. destruct logs as [|l0 logs]; [done|]. cbn [length pred].
  destruct ((l0 :: logs) !! length logs) as [l|] eqn:E; [|apply lookup_ge_None in E; simpl in E; lia]. rewrite (Hc _ _ E). simpl length. lia.
Qed.

Lemma chain_snoc logs l : chain logs -> wf_log l -> (logs = [] \/ ID l = last_id logs + 1) -> chain (logs ++ [l]).
Proof.
  intros Hc Hl Hid. pose proof Hc as [Hw Hi]. split; [apply Forall_app; by split; [|constructor]|].
  intros i l' H. apply lookup_app_Some in H as [H|[Hlen H]].
  - rewrite (Hi _ _ H). by destruct logs.
  - apply list_lookup_singleton_Some in H as [Hz ->]. destruct logs as [|l0 logs].
    + simpl in *. replace i with 0%nat by lia. lia.
    + destruct Hid as [|Hid]; [done|]. rewrite Hid, chain_last by done. simpl first_id. simpl length in *. lia.
Qed.

End Chains.

(** ** The store on goleveldb (goleveldb_store.go)

    The database of the store is nil when it could not be opened: using it panics. *)

Definition Uint64ToBytes (u : Z) : bytes := be_put 8 (uint64 u).
Definition BytesToUint64 (b : bytes) : outcome Z := if len b <? 8 then Panic else Ret (be_get (take 8 b)).

(** Opening the database in an empty directory. *)
Class StoreOpen (I : IDB) := store_Open : engine + error.
Class StoreOpenSpec (I : IDB) {S : IDBSpec I} (O : StoreOpen I) := {
  open_empty e : store_Open = inl e -> model e = ∅ /\ healthy e
}.

Section GoLevelDBStore.
Context {I : IDB}.

Record GoLevelDBStore := mkGLS { gdb : option engine; gfirst : Z; glast : Z }.

Definition gls_reset (s : GoLevelDBStore) : GoLevelDBStore := mkGLS (gdb s) InvalidLogID InvalidLogID.

Definition firstID : SM GoLevelDBStore (Z * option error) := fun s =>
  if negb (gfirst s =? InvalidLogID) then (Ret (gfirst s, None), s)
  else match gdb s with
  | None => (Panic, s)
  | Some e =>
      let it := cur_First (drv_NewIterator e) in
      if cur_Valid it then
        match BytesToUint64 (raw_key it) with
        | Panic => (Panic, s)
        | Ret id => (Ret (id, None), mkGLS (gdb s) id (glast s))
        end
      else (Ret (gfirst s, None), s)
  end.

Definition lastID : SM GoLevelDBStore (Z * option error) := fun s =>
  if negb (glast s =? InvalidLogID) then (Ret (glast s, None), s)
  else match gdb s with
  | None => (Panic, s)
  | Some e =>
      let it := cur_Last (drv_NewIterator e) in
      if cur_Valid it then
        match BytesToUint64 (raw_key it) with
        | Panic => (Panic, s)
        | Ret id => (Ret (id, None), mkGLS (gdb s) (gfirst s) id)
        end
      else (Ret (glast s, None), s)
  end.

Definition gls_GetLog (id : Z) : SM GoLevelDBStore (Log + error) := fun s =>
  match gdb s with
  | None => (Panic, s)
  | Some e =>
      match db_Get e (Uint64ToBytes id) with
      | (_, Some err) => (Ret (inr err), s)
      | (None, None) => (Ret (inr ErrLogNotFound), s)
      | (Some v, None) => (Ret ((Decode v).1), s)
      end
  end.

Definition gls_StoreLog (log : Log) : SM GoLevelDBStore (option error) :=
  '(last, err) ← lastID;
  match err with
  | Some err => mret (Some err)
  | None => fun s =>
      let s := mkGLS (gdb s) (gfirst s) InvalidLogID in
      if negb (ID log =? uint64 (last + 1)) then (Ret (Some ErrStoreLogID), s)
      else match gdb s with
      | None => (Panic, s)
      | Some e =>
          let '(e', err) := drv_Put e (Uint64ToBytes (ID log)) (Encode log) in
          match err with
          | Some err => (Ret (Some err), mkGLS (Some e') (gfirst s) InvalidLogID)
          | None => (Ret None, mkGLS (Some e') (gfirst s) (ID log))
          end
      end
  end.

(** The records of the loop of [PurgeExpired]; [fuel] bounds the entries of the iterator. *)
Fixpoint purge_loop (fuel : nat) (t : Z) (it : cursor) (w : list BatchOp) : list BatchOp + error :=
  match fuel with
  | O => inl w
  | S fuel =>
      if cur_Valid it then
        match Unmarshal (raw_value it) with
        | inr err => inr err
        | inl l => if CreateTime l >? t then inl w else purge_loop fuel t (cur_Next it) (w ++ [OpDelete (raw_key it)])
        end
      else inl w
  end.

Definition gls_PurgeExpired (now n : Z) : SM GoLevelDBStore (option error) := fun s =>
  if n <=? 0 then (Ret (Some (errorf "invalid expired time")), s)
  else
    let t := uint32 (now - n) in
    let s := gls_reset s in
    match gdb s with
    | None => (Panic, s)
    | Some e =>
        let it := cur_First (drv_NewIterator e) in
        match purge_loop (S (cur_bound it)) t it [] with
        | inr err => (Ret (Some err), s)
        | inl w => let '(e', err) := drv_Write e w in (Ret err, mkGLS (Some e') (gfirst s) (glast s))
        end
    end.

(** [Clear] closes the database, removes its directory and opens it again. *)
Definition gls_Clear {O : StoreOpen I} : SM GoLevelDBStore (option error) := fun s =>
  match store_Open with
  | inl e => (Ret None, mkGLS (Some e) InvalidLogID InvalidLogID)
  | inr err => (Ret (Some err), mkGLS None InvalidLogID InvalidLogID)
  end.

End GoLevelDBStore.

#[global] Instance goleveldb_log_store (I : IDB) (O : StoreOpen I) : LogStore := {|
  ls_t := GoLevelDBStore;
  ls_GetLog := gls_GetLog;
  ls_FirstID := firstID;
  ls_LastID := lastID;
  ls_StoreLog := gls_StoreLog;
  ls_PurgeExpired := gls_PurgeExpired;
  ls_Clear := gls_Clear
|}.

(** ** The promise of the store on goleveldb *)

(** The entries of a sequence of logs. *)
Definition log_entry (l : Log) : bytes * bytes := (Uint64ToBytes (ID l), Encode l).
Definition log_map (logs : list Log) : gmap bytes bytes := list_to_map (map log_entry logs).

Lemma Uint64ToBytes_lt a b : 0 <= a < 2 ^ 64 -> 0 <= b < 2 ^ 64 -> a < b -> blt (Uint64ToBytes a) (Uint64ToBytes b).
Proof.
  intros Ha Hb Hlt. unfold blt, Uint64ToBytes. rewrite <- (app_nil_r (be_put 8 (uint64 a))), <- (app_nil_r (be_put 8 (uint64 b))).
  rewrite bcmp_be_put; rewrite ?uwrap_small by lia; change (256 ^ Z.of_nat 8) with (2 ^ 64); try lia.
  by rewrite (proj2 (Z.compare_lt_iff a b)).
Qed.

Lemma chain_cons l logs : chain (l :: logs) -> wf_log l /\ chain logs /\ Forall (fun l' => ID l < ID l') logs.
Proof.
  intros [Hw Hi]. apply Forall_cons in Hw as [Hl Hw]. split; [done|]. simpl in Hi.
  assert (H : forall i l', logs !! i = Some l' -> ID l' = ID l + 1 + Z.of_nat i) by (intros i l' E; rewrite (Hi (S i) l' E); lia).
  split.
  - split; [done|]. intros i l' E. rewrite (H _ _ E). destruct logs as [|l0 logs]; [done|]. simpl. rewrite (H 0%nat l0) by done. lia.
  - apply Forall_lookup. intros i l' E. rewrite (H _ _ E). lia.
Qed.

Lemma log_entries_sorted logs : chain logs -> StronglySorted (fun a b => blt a.1 b.1) (map log_entry logs).
Proof.
  induction logs as [|l logs IH]; intros Hc; cbn [map]; [constructor|]. destruct (chain_cons _ _ Hc) as (Hl & Hc' & Hlt).
  constructor; [by apply IH|]. apply Forall_map, Forall_forall. intros l' Hin. rewrite Forall_forall in Hlt.
  destruct Hc' as [Hw _]. rewrite Forall_forall in Hw. destruct Hl as [? _ _ _], (Hw _ Hin) as [? _ _ _].
  apply Uint64ToBytes_lt; [lia..|by apply Hlt].
Qed.

Lemma log_keys_nodup logs : chain logs -> NoDup (map log_entry logs).*1.
Proof.
  intros Hc%log_entries_sorted. revert Hc. generalize (map log_entry logs). intros es. induction 1 as [|e es _ IH Hf]; [constructor|].
  cbn. constructor; [|done]. intros (p & Hp & Hin)%list_elem_of_fmap. rewrite Forall_forall in Hf.
  apply (blt_irrefl e.1). rewrite Hp at 2. by apply Hf.
Qed.

Lemma sorted_log_map logs : chain logs -> sorted_entries (log_map logs) = map log_entry logs.
Proof.
  intros Hc. assert (AntiSymm (=) (fun a b : bytes * bytes => blt a.1 b.1)).
  { intros a b H1 H2. exfalso. by eapply blt_irrefl, blt_trans. }
  apply (StronglySorted_unique (fun a b : bytes * bytes => blt a.1 b.1)).
  - pose proof (sorted_entries_sorted (log_map logs)) as Hs. revert Hs. generalize (sorted_entries (log_map logs)). intros es.
    induction es as [|e es IH]; intros Hs; [constructor|]. rewrite fmap_cons in Hs. apply StronglySorted_inv in Hs as [Hs Hf]. constructor; [by apply IH|].
    rewrite Forall_fmap in Hf. exact Hf.
  - by apply log_entries_sorted.
  - rewrite sorted_entries_perm. unfold log_map. apply map_to_list_to_map. by apply log_keys_nodup.
Qed.

Lemma log_map_lookup logs id : chain logs -> 0 <= id < 2 ^ 64 ->
  log_map logs !! Uint64ToBytes id = Encode <$> log_with logs id.
Proof.
  intros Hc Hid. pose proof Hc as [Hw Hi]. unfold log_with. destruct (log_map logs !! Uint64ToBytes id) as [v|] eqn:E.
  - apply (elem_of_list_to_map_2 (M := gmap bytes)) in E. apply list_elem_of_fmap in E as (l & Heq & Hin).
    pose proof (f_equal fst Heq) as Hk. pose proof (f_equal snd Heq) as Hv. unfold log_entry in Hk, Hv. cbn [fst snd] in Hk, Hv. subst v.
    rewrite Forall_forall in Hw. pose proof (Hw _ Hin) as [Hl _ _ _]. apply list_elem_of_lookup in Hin as [i Hin].
    assert (id = ID l) as ->.
    { unfold Uint64ToBytes in Hk. apply be_put_inj in Hk; rewrite ?uwrap_small by lia; change (256 ^ Z.of_nat 8) with (2 ^ 64); try lia.
      rewrite !uwrap_small in Hk by lia. done. }
    rewrite (Hi _ _ Hin). rewrite (proj2 (Z.ltb_ge _ _)) by lia. replace (Z.to_nat _) with i by lia. by rewrite Hin.
  - destruct (id <? first_id logs) eqn:Ef; [done|]. zify_bool. destruct (logs !! _) as [l|] eqn:El; [|done]. exfalso.
    pose proof (Hi _ _ El) as HID. assert (id = ID l) by lia. subst id.
    apply (not_elem_of_list_to_map (M := gmap bytes)) in E. apply E. apply list_elem_of_fmap. exists (log_entry l). split; [done|].
    apply list_elem_of_fmap. exists l. split; [done|]. by eapply list_elem_of_lookup_2.
Qed.

Lemma log_map_snoc logs l : chain (logs ++ [l]) -> log_map (logs ++ [l]) = <[Uint64ToBytes (ID l) := Encode l]> (log_map logs).
Proof.
  intros Hc%log_keys_nodup. unfold log_map. rewrite map_app in *. cbn [map] in *. rewrite fmap_app in Hc.
  apply NoDup_app in Hc as (_ & Hd & _). rewrite list_to_map_app. cbn.
  rewrite insert_empty. rewrite <- insert_union_singleton_r; [done|]. apply not_elem_of_list_to_map_1. intros Hin. apply (Hd _ Hin). by left.
Qed.

Section GoLevelDBSpec.
Context {I : IDB} {IS : IDBSpec I}.
Implicit Types (s : GoLevelDBStore) (logs : list Log) (l : Log).

(** The database holds the logs, and the cached ids are unset or right. *)
Definition gls_rep s logs : Prop :=
  chain logs /\ (gfirst s = InvalidLogID \/ gfirst s = first_id logs) /\ (glast s = InvalidLogID \/ glast s = last_id logs) /\
  exists e, gdb s = Some e /\ healthy e /\ model e = log_map logs.

Lemma id_of_entry l : wf_log l -> BytesToUint64 (Uint64ToBytes (ID l)) = Ret (ID l).
Proof.
  intros [H _ _ _]. unfold BytesToUint64, Uint64ToBytes. rewrite be_put_length. cbn [Z.ltb Z.of_nat Z.compare].
  rewrite <- (app_nil_r (be_put 8 _)), take_put, be_get_put, uwrap_small by lia.
  change (256 ^ Z.of_nat 8) with (2 ^ 64). by rewrite Z.mod_small by lia.
Qed.

Lemma first_of logs l i : chain logs -> logs !! i = Some l -> 0 < first_id logs.
Proof.
  intros [Hw Hi]. destruct logs as [|l0 logs]; [done|]. intros _. apply Forall_cons in Hw as [[H _ _ _] _]. simpl. lia.
Qed.

Lemma firstID_rep s logs : gls_rep s logs -> exists s', firstID s = (Ret (first_id logs, None), s') /\ gls_rep s' logs.
Proof.
  intros (Hc & Hf & Hl & e & He & Hh & Hm). unfold firstID. destruct (gfirst s =? InvalidLogID) eqn:E; zify_bool; cbn [negb].
  2: { destruct Hf as [|Hf]; [done|]. rewrite Hf. exists s. split; [done|]. split; [done|]. eauto 10. }
  rewrite He. assert (Hs : snap (drv_NewIterator e) = map log_entry logs) by (by rewrite iter_snap, Hm, sorted_log_map).
  destruct logs as [|l logs].
  - rewrite invalid_at by (rewrite cur_pos_first, Hs; done). rewrite E. exists s. split; [done|]. split; [done|]. eauto 10.
  - assert (Hp : pos (cur_First (drv_NewIterator e)) = Some 0%nat) by (rewrite cur_pos_first, Hs; done).
    rewrite (valid_at _ 0%nat Hp). destruct (at_entry _ 0%nat (log_entry l) Hp) as [Hk _]; [by rewrite cur_snap_first, Hs|].
    rewrite Hk. cbn [log_entry fst]. rewrite id_of_entry by apply (chain_cons _ _ Hc). rewrite <- He.
    exists (mkGLS (gdb s) (ID l) (glast s)). split; [done|]. split; [done|]. split; [by right|]. split; [done|]. eauto 10.
Qed.

Lemma lastID_rep s logs : gls_rep s logs -> exists s', lastID s = (Ret (last_id logs, None), s') /\ gls_rep s' logs.
Proof.
  intros (Hc & Hf & Hl & e & He & Hh & Hm). unfold lastID. destruct (glast s =? InvalidLogID) eqn:E; zify_bool; cbn [negb].
  2: { destruct Hl as [|Hl]; [done|]. rewrite Hl. exists s. split; [done|]. split; [done|]. eauto 10. }
  rewrite He. assert (Hs : snap (drv_NewIterator e) = map log_entry logs) by (by rewrite iter_snap, Hm, sorted_log_map).
  destruct logs as [|l logs _] using rev_ind.
  - rewrite invalid_at by (rewrite cur_pos_last, Hs; done). rewrite E. exists s. split; [done|]. split; [done|]. eauto 10.
  - assert (Hp : pos (cur_Last (drv_NewIterator e)) = Some (length logs)).
    { rewrite cur_pos_last, Hs, length_map, length_app. simpl. apply clamp_Some. lia. }
    rewrite (valid_at _ _ Hp). destruct (at_entry _ _ (log_entry l) Hp) as [Hk _].
    { rewrite cur_snap_last, Hs, map_app, lookup_app_r by (rewrite length_map; lia). by rewrite length_map, Nat.sub_diag. }
    rewrite Hk. cbn [log_entry fst]. pose proof Hc as [Hw Hi]. pose proof (proj2 (proj1 (Forall_app _ _ _) Hw)) as Hwl.
    rewrite Forall_singleton in Hwl. rewrite id_of_entry by exact Hwl. rewrite <- He. unfold last_id. rewrite last_snoc.
    exists (mkGLS (gdb s) (gfirst s) (ID l)). split; [done|]. split; [done|]. split; [done|]. split; [right; unfold last_id; by rewrite last_snoc|]. eauto 10.
Qed.

Lemma GetLog_rep s logs id : gls_rep s logs -> 0 <= id < 2 ^ 64 ->
  gls_GetLog id s = (Ret (match log_with logs id with Some l => inl l | None => inr ErrLogNotFound end), s).
Proof.
  intros (Hc & _ & _ & e & He & Hh & Hm) Hid. unfold gls_GetLog. rewrite He. unfold db_Get. rewrite get_ok, Hm, log_map_lookup by done.
  destruct (log_with logs id) as [l|] eqn:E; [|done]. cbn [fmap option_fmap option_map].
  unfold log_with in E. destruct (_ <? _); [done|]. destruct Hc as [Hw _]. rewrite <- (app_nil_r (Encode l)), Decode_Encode; [done|].
  rewrite Forall_lookup in Hw. by eapply Hw.
Qed.

Lemma last_id_bound logs : chain logs -> 0 <= last_id logs < 2 ^ 64.
Proof.
  intros [Hw _]. unfold last_id. destruct (last logs) as [l|] eqn:E; [|unfold InvalidLogID; lia].
  rewrite last_lookup in E. rewrite Forall_lookup in Hw. destruct (Hw _ _ E). lia.
Qed.

Lemma first_snoc logs l : logs <> [] -> first_id (logs ++ [l]) = first_id logs.
Proof. by destruct logs. Qed.

Lemma StoreLog_rep s logs l : gls_rep s logs -> wf_log l -> exists s', if ID l =? last_id logs + 1
  then gls_StoreLog l s = (Ret None, s') /\ gls_rep s' (logs ++ [l])
  else gls_StoreLog l s = (Ret (Some ErrStoreLogID), s') /\ gls_rep s' logs.
Proof.
  intros Hr Hl. destruct (lastID_rep s logs Hr) as (s1 & E1 & Hc & Hf & Hla & e & He & Hh & Hm).
  unfold gls_StoreLog, mbind, SM_bind. rewrite E1. pose proof (last_id_bound logs Hc) as HB. pose proof Hl as [HI _ _ _].
  assert (EQ : (ID l =? uint64 (last_id logs + 1)) = (ID l =? last_id logs + 1)).
  { apply Bool.eq_iff_eq_true. rewrite !Z.eqb_eq. destruct (decide (last_id logs + 1 < 2 ^ 64)); [by rewrite uwrap_small by lia|].
    replace (last_id logs + 1) with (2 ^ 64) by lia. change (uint64 (2 ^ 64)) with 0. lia. }
  rewrite EQ. destruct (ID l =? last_id logs + 1) eqn:E; zify_bool; cbn [negb].
  - rewrite He. cbn [gdb]. destruct (put_ok e (Uint64ToBytes (ID l)) (Encode l) Hh) as (e' & EP & Hh'). rewrite EP.
    assert (Hc' : chain (logs ++ [l])) by (apply chain_snoc; [done..|by right]).
    exists (mkGLS (Some e') (gfirst s1) (ID l)). split; [done|]. split; [done|].
    split; [cbn [gfirst]; destruct Hf as [-> | ->]; [by left|]; destruct logs; [by left|right; by rewrite first_snoc]|].
    split; [right; unfold last_id; by rewrite last_snoc|]. exists e'. split; [done|]. split; [done|].
    by rewrite (put_all _ _ _ _ EP), Hm, log_map_snoc.
  - exists (mkGLS (gdb s1) (gfirst s1) InvalidLogID). split; [done|]. split; [done|]. split; [done|]. split; [by left|]. eauto 10.
Qed.

#[global] Program Instance goleveldb_log_store_spec (O : StoreOpen I) : LogStoreSpec (goleveldb_log_store I O) := {| ls_rep := gls_rep |}.
Next Obligation. intros O s logs H. apply H. Qed.
Next Obligation. intros O s logs id Hr Hid. exists s. split; [apply GetLog_rep; [done|lia]|done]. Qed.
Next Obligation. intros O s logs Hr. by apply firstID_rep. Qed.
Next Obligation. intros O s logs Hr. by apply lastID_rep. Qed.
Next Obligation.
  intros O s logs l Hr Hl Hid. destruct (StoreLog_rep s logs l Hr Hl) as [s' H]. rewrite (proj2 (Z.eqb_eq _ _) Hid) in H. eauto 10.
Qed.

End GoLevelDBSpec.

(** ** Replication (rpl.go) *)

(** The settings [Replication.Compression] and [Replication.SyncLog] of the configuration. *)
Class RplConfig := { cfg_Compression : bool; cfg_SyncLog : Z }.

(** The snappy package: decoding inverts encoding. *)
Class Snappy := { snappy_Encode : bytes -> bytes + error; snappy_Decode : bytes -> bytes + error }.
Class SnappySpec (P : Snappy) := {
  snappy_ok b : exists c, snappy_Encode b = inl c;
  snappy_inverse b c : snappy_Encode b = inl c -> snappy_Decode c = inl b
}.

(** The file commit.log: its bytes, and whether the system refuses to write it. *)
Record file := mkFile { f_bytes : bytes; f_faulty : bool }.

(** A write at the start of a file. *)
Definition write_start (b : bytes) (f : file) : file * option error :=
  if f_faulty f then (f, Some errDriver) else (mkFile (b ++ drop (length b) (f_bytes f)) false, None).

Section Replication.
Context {C : RplConfig} {P : Snappy} {L : LogStore}.

Record Replication := mkRpl { rs : ls_t; commitID : Z; commitLog : file }.

(** Runs an operation of the log store. *)
Definition on_store {A} (p : SM ls_t A) : SM Replication A := fun x =>
  let '(o, s) := p (rs x) in (o, mkRpl s (commitID x) (commitLog x)).

(** [NewReplication], after the log store and the file have been opened. *)
Definition NewReplication (s : ls_t) (f : file) : Replication + error :=
  if len (f_bytes f) =? 0 then inl (mkRpl s 0 f)
  else match ReadFull 8 (f_bytes f) with
  | (inr err, _) => inr err
  | (inl b, _) => inl (mkRpl s (be_get b) f)
  end.

Definition updateCommitID (id : Z) (force : bool) : SM Replication (option error) := fun x =>
  if force then
    match write_start (be_put 8 (uint64 id)) (commitLog x) with
    | (f, Some err) => (Ret (Some err), mkRpl (rs x) (commitID x) f)
    | (f, None) => (Ret None, mkRpl (rs x) id f)
    end
  else (Ret None, mkRpl (rs x) id (commitLog x)).

(** [Log]: [now] is the time.  The waiting readers are not modelled. *)
Definition rpl_log (now : Z) (data : bytes) : SM Replication (Log + error) :=
  match (if cfg_Compression then snappy_Encode data else inl data) with
  | inr err => mret (inr err)
  | inl data =>
      '(last, err) ← on_store ls_LastID;
      match err with
      | Some err => mret (inr err)
      | None => fun x =>
          if last >? commitID x then (Ret (inr ErrCommitIDBehind), x)
          else
            let last := if last <? commitID x then commitID x else last in
            let l := mkLog (uint64 (last + 1)) (uint32 now) (if cfg_Compression then 1 else 0) data in
            (err ← on_store (ls_StoreLog l);
             mret (match err with Some err => inr err | None => inl l end)) x
      end
  end.

Definition rpl_StoreLog (l : Log) : SM Replication (option error) := on_store (ls_StoreLog l).
Definition FirstLogID : SM Replication (Z * option error) := on_store ls_FirstID.
Definition LastLogID : SM Replication (Z * option error) := on_store ls_LastID.
Definition LastCommitID : SM Replication (Z * option error) := fun x => (Ret (commitID x, None), x).
Definition rpl_GetLog (id : Z) : SM Replication (Log + error) := on_store (ls_GetLog id).

Definition UpdateCommitID (id : Z) : SM Replication (option error) := updateCommitID id (cfg_SyncLog =? 2).

Definition rpl_Stat : SM Replication (Z * Z * Z + error) :=
  '(first, err) ← on_store ls_FirstID;
  match err with
  | Some err => mret (inr err)
  | None =>
      '(last, err) ← on_store ls_LastID;
      match err with
      | Some err => mret (inr err)
      | None => fun x => (Ret (inl (first, last, commitID x)), x)
      end
  end.

Definition CommitIDBehind : SM Replication (bool * option error) :=
  '(id, err) ← on_store ls_LastID;
  match err with
  | Some err => mret (false, Some err)
  | None => fun x => (Ret (id >? commitID x, None), x)
  end.

Definition NextNeedCommitLog : SM Replication (Log + error) :=
  '(id, err) ← on_store ls_LastID;
  match err with
  | Some err => mret (inr err)
  | None => fun x =>
      if id <=? commitID x then (Ret (inr ErrNoBehindLog), x)
      else on_store (ls_GetLog (uint64 (commitID x + 1))) x
  end.

Definition ClearWithCommitID (id : Z) : SM Replication (option error) :=
  err ← on_store ls_Clear;
  match err with
  | Some err => mret (Some err)
  | None => updateCommitID id true
  end.

Definition rpl_Clear : SM Replication (option error) := ClearWithCommitID 0.

(** The timers of [run]: the purge of expired logs, and the commit id written to the file
    every second unless each update writes it. *)
Definition run_purge (now ExpiredLogDays : Z) : SM Replication (option error) :=
  on_store (ls_PurgeExpired now (ExpiredLogDays * 24 * 3600)).

Definition run_sync : SM Replication (option error) := fun x =>
  if negb (cfg_SyncLog =? 2) then updateCommitID (commitID x) true x else (Ret None, x).

End Replication.

(** The log of the database layer. *)
Definition replication {C : RplConfig} {P : Snappy} {L : LogStore} : Replicator := {|
  rpl := Replication;
  rpl_Log := rpl_log;
  rpl_UpdateCommitID := UpdateCommitID;
  rpl_clear := rpl_Clear
|}.

Section ReplicationSpec.
Context {C : RplConfig} {P : Snappy} {PS : SnappySpec P} {L : LogStore} {LS : LogStoreSpec L}.
Implicit Types (x : Replication) (logs : list Log) (l : Log).

(** The bytes a log was made from. *)
Definition log_payload l : bytes + error := if Compression l =? 1 then snappy_Decode (LogData l) else inl (LogData l).

(** The data of a log of the bytes [data] fits its length field. *)
Definition fits_log (data : bytes) : Prop :=
  forall c, (if cfg_Compression then snappy_Encode data else inl data) = inl c -> len c < 2 ^ 32.

Lemma on_store_run {A} (p : SM ls_t A) o s' x : p (rs x) = (o, s') -> on_store p x = (o, mkRpl s' (commitID x) (commitLog x)).
Proof. intros E. unfold on_store. by rewrite E. Qed.

(** A log in sync with its commit id takes the next log. *)
Lemma rpl_log_ok now data x logs :
  ls_rep (rs x) logs -> last_id logs = commitID x -> commitID x + 1 < 2 ^ 64 -> fits_log data ->
  exists l s', rpl_log now data x = (Ret (inl l), mkRpl s' (commitID x) (commitLog x)) /\ ls_rep s' (logs ++ [l]) /\
  ID l = commitID x + 1 /\ wf_log l /\ log_payload l = inl data.
Proof using PS LS.
  intros Hr Hl Hb Hf. pose proof (last_id_bound logs (rep_chain _ _ Hr)) as HB. unfold rpl_log.
  assert (exists d, (if cfg_Compression then snappy_Encode data else inl data) = inl d) as [d Hd].
  { destruct cfg_Compression; [apply snappy_ok|eauto]. }
  rewrite Hd. pose proof (Hf d Hd) as Hlen. destruct (LastID_ok _ _ Hr) as (s1 & E1 & Hr1).
  unfold mbind, SM_bind. rewrite (on_store_run _ _ _ _ E1). cbn [commitID]. rewrite Hl, Z.gtb_ltb, Z.ltb_irrefl.
  set (l := mkLog _ _ _ _). assert (Hid : ID l = commitID x + 1) by (subst l; cbn [ID]; by rewrite uwrap_small by lia).
  assert (Hw : wf_log l).
  { split; [lia|subst l; cbn [CreateTime]; by apply uwrap_range|subst l; cbn [Compression]; by destruct cfg_Compression|done]. }
  destruct (StoreLog_ok s1 logs l Hr1 Hw) as (s2 & E2 & Hr2); [by rewrite Hl|].
  rewrite (on_store_run _ _ _ (mkRpl s1 _ _) E2). cbn [commitID commitLog]. exists l, s2. split; [done|]. split; [done|]. split; [done|].
  split; [done|]. unfold log_payload. subst l. cbn [Compression LogData]. destruct cfg_Compression; cbn [Z.eqb Pos.eqb]; [by apply snappy_inverse|done].
Qed.

(** The file holds the commit id that was last written to it. *)
Definition recorded (f : file) (id : Z) : Prop := f_bytes f = be_put 8 (uint64 id) \/ (f_bytes f = [] /\ id = 0).

Lemma updateCommitID_ok id force x :
  f_faulty (commitLog x) = false -> (exists id0, recorded (commitLog x) id0) -> exists f, updateCommitID id force x = (Ret None, mkRpl (rs x) id f) /\
  f_faulty f = false /\ (if force then recorded f id else f = commitLog x).
Proof using.
  intros Hf [id0 Hr]. unfold updateCommitID. destruct force; [|eauto]. unfold write_start. rewrite Hf. eexists. split; [done|]. split; [done|].
  left. cbn [f_bytes]. rewrite be_put_length. destruct Hr as [-> | [-> _]]; [|by rewrite drop_nil, app_nil_r].
  rewrite drop_ge, app_nil_r by (by rewrite be_put_length). done.
Qed.

Lemma NewReplication_ok s f id : recorded f id -> 0 <= id < 2 ^ 64 -> NewReplication s f = inl (mkRpl s id f).
Proof using.
  intros [Hb|[Hb ->]] Hid; unfold NewReplication; rewrite Hb; [|done]. unfold ReadFull. rewrite be_put_length.
  change (Z.of_nat 8 =? 0) with false. change (8 <=? Z.of_nat 8) with true. cbv iota.
  rewrite take_ge by (by rewrite be_put_length). rewrite be_get_put, uwrap_small by lia. change (256 ^ Z.of_nat 8) with (2 ^ 64).
  by rewrite Z.mod_small by lia.
Qed.

(** The logs that are not committed yet, for a commit id within the logs or just before
    them. *)
Definition behind (id : Z) logs : list Log := drop (Z.to_nat (id + 1 - first_id logs)) logs.

Definition within_logs (id : Z) logs : Prop :=
  match logs with [] => id = 0 | l :: _ => ID l - 1 <= id <= last_id logs end.

Lemma NextNeedCommitLog_ok x logs :
  ls_rep (rs x) logs -> within_logs (commitID x) logs ->
  exists s', NextNeedCommitLog x = (Ret (match behind (commitID x) logs with [] => inr ErrNoBehindLog | l :: _ => inl l end),
    mkRpl s' (commitID x) (commitLog x)) /\ ls_rep s' logs.
Proof using LS.
  intros Hr Hw. pose proof (rep_chain _ _ Hr) as Hc. pose proof (last_id_bound logs Hc) as HB. unfold NextNeedCommitLog.
  destruct (LastID_ok _ _ Hr) as (s1 & E1 & Hr1). unfold mbind, SM_bind. rewrite (on_store_run _ _ _ _ E1). cbn [commitID].
  destruct logs as [|l0 logs].
  { simpl in Hw. rewrite Hw. exists s1. done. }
  pose proof (chain_last _ Hc ltac:(done)) as HL. cbn [within_logs first_id] in *. unfold behind. cbn [first_id].
  destruct (last_id (l0 :: logs) <=? commitID x) eqn:E; zify_bool.
  - exists s1. split; [|done]. rewrite drop_ge by lia. done.
  - assert (Hi : 0 < commitID x + 1 < 2 ^ 64) by (destruct Hc as [Hc _]; apply Forall_cons in Hc as [[? _ _ _] _]; lia).
    rewrite uwrap_small by lia. destruct (GetLog_ok s1 _ (commitID x + 1) Hr1 Hi) as (s2 & E2 & Hr2).
    rewrite (on_store_run _ _ _ (mkRpl s1 _ _) E2). cbn [commitID commitLog]. exists s2. split; [|done]. do 2 f_equal.
    unfold log_with. cbn [first_id]. rewrite (proj2 (Z.ltb_ge _ _)) by lia. set (n := Z.to_nat _).
    destruct ((l0 :: logs) !! n) as [l|] eqn:El; [by rewrite (drop_S _ _ _ El)|]. apply lookup_ge_None in El. lia.
Qed.

End ReplicationSpec.

(** ** Purging expired logs *)

Section Purge.
Context {I : IDB} {IS : IDBSpec I}.
Implicit Types (s : GoLevelDBStore) (logs : list Log) (l : Log).

(** How many of the first logs are not newer than [t]. *)
Fixpoint expired (t : Z) logs : nat :=
  match logs with
  | [] => 0
  | l :: logs' => if CreateTime l >? t then 0 else S (expired t logs')
  end.

Lemma expired_le t logs : (expired t logs <= length logs)%nat.
Proof. induction logs as [|l logs IH]; cbn [expired length]; [lia|]. destruct (_ >? _); lia. Qed.

Definition purge_ops (logs : list Log) : list BatchOp := map (fun l => OpDelete (Uint64ToBytes (ID l))) logs.

Lemma purge_loop_at fuel t it logs all j w :
  all = map log_entry logs -> at_fwd it all j -> Forall wf_log logs -> (length logs - j < fuel)%nat ->
  purge_loop fuel t it w = inl (w ++ purge_ops (take (expired t (drop j logs)) (drop j logs))).
Proof.
  intros -> Hat Hw. revert it j w Hat; induction fuel as [|fuel IH]; intros it j w Hat Hf; [lia|]. cbn [purge_loop].
  destruct (logs !! j) as [l|] eqn:El.
  - assert (He : map log_entry logs !! j = Some (log_entry l)) by (by rewrite list_lookup_fmap, El).
    destruct (at_fwd_next it _ j _ Hat He) as (_ & Hv & Hk & Hval & Hn). rewrite Hv, Hval. cbn [log_entry snd]. unfold Unmarshal.
    rewrite Forall_lookup in Hw. rewrite <- (app_nil_r (Encode l)), Decode_Encode by (by eapply Hw). cbn [fst].
    rewrite (drop_S _ _ _ El). cbn [expired]. destruct (CreateTime l >? t); [by rewrite app_nil_r|].
    rewrite (IH _ (S j)); [|done|apply lookup_lt_Some in El; lia]. rewrite Hk. cbn [take purge_ops map]. by rewrite <- app_assoc.
  - rewrite (at_fwd_end it _ j Hat) by (by rewrite list_lookup_fmap, El). rewrite drop_ge by (by apply lookup_ge_None). by rewrite app_nil_r.
Qed.

Lemma chain_drop j logs : chain logs -> chain (drop j logs).
Proof.
  intros [Hw Hi]. split; [by apply Forall_drop|]. intros i l E. rewrite lookup_drop in E. rewrite (Hi _ _ E).
  destruct (logs !! j) as [l0|] eqn:E0; [|apply lookup_ge_None in E0; apply lookup_lt_Some in E; lia].
  rewrite (drop_S _ _ _ E0). cbn [first_id]. rewrite (Hi _ _ E0). lia.
Qed.

Lemma purge_log_map a b : chain (a ++ b) -> apply_ops (purge_ops a) (log_map (a ++ b)) = log_map b.
Proof.
  induction a as [|l a IH]; intros Hc; [done|]. destruct (chain_cons _ _ Hc) as (_ & Hc' & _).
  pose proof (log_keys_nodup _ Hc) as Hn. cbn [app map] in Hn. apply NoDup_cons in Hn as [Hn _].
  cbn [purge_ops map]. change (apply_ops (?o :: ?l) ?m) with (apply_ops l (apply_op m o)). cbn [apply_op].
  change (log_map ((l :: a) ++ b)) with (<[Uint64ToBytes (ID l) := Encode l]> (log_map (a ++ b))).
  rewrite delete_insert_id; [by apply IH|]. by apply not_elem_of_list_to_map_1.
Qed.

(** [PurgeExpired] deletes the first logs up to the first one that is newer. *)
Lemma PurgeExpired_rep now n s logs : gls_rep s logs -> 0 < n -> exists s',
  gls_PurgeExpired now n s = (Ret None, s') /\ gls_rep s' (drop (expired (uint32 (now - n)) logs) logs).
Proof.
  intros (Hc & _ & _ & e & He & Hh & Hm) Hn. unfold gls_PurgeExpired. rewrite (proj2 (Z.leb_gt _ _)) by lia. cbn [gls_reset gdb]. rewrite He.
  assert (Hs : snap (drv_NewIterator e) = map log_entry logs) by (by rewrite iter_snap, Hm, sorted_log_map).
  set (t := uint32 (now - n)). set (it := cur_First _).
  assert (Hat : at_fwd it (map log_entry logs) 0) by (subst it; split; [by rewrite cur_snap_first|by rewrite cur_pos_first, Hs]).
  rewrite (purge_loop_at _ t it logs _ 0 [] eq_refl Hat (proj1 Hc)).
  2: { pose proof (bound_ok it) as Hbd. rewrite (proj1 Hat), length_map in Hbd. lia. }
  rewrite drop_0. cbn [app]. set (j := expired t logs). destruct (write_ok e (purge_ops (take j logs)) Hh) as (e' & E & Hh'). rewrite E.
  eexists. split; [done|]. split; [by apply chain_drop|]. split; [by left|]. split; [by left|]. exists e'. split; [done|]. split; [done|].
  rewrite (write_all _ _ _ E), Hm. rewrite <- (take_drop j logs) at 2. apply purge_log_map. by rewrite take_drop.
Qed.

End Purge.

(** * Properties *)

(** Logs on a stream.  A log whose fields fit their widths is read back from the bytes
    it was written as, with the rest of the stream after it.  Cut at any point, the bytes
    are not a log: the error is [EOF] when nothing follows, or when exactly the head is
    there, and [ErrUnexpectedEOF] otherwise. *)
Lemma log_stream (l : Log) (rest : bytes) (n : nat) :
  wf_log l ->
  Decode (Encode l ++ rest) = (inl l, rest) /\ len (Encode l) = log_Size l /\ Unmarshal (Marshal l).1 = inl l /\
  (Z.of_nat n < log_Size l ->
   (Decode (take n (Encode l))).1 = inr (if (Z.of_nat n =? 0) || (Z.of_nat n =? LogHeadSize) then EOF else ErrUnexpectedEOF)).
Proof.
  intros Hl. split; [by apply Decode_Encode|]. split; [apply Encode_length|].
  split; [unfold Unmarshal, Marshal; cbn [fst]; by rewrite <- (app_nil_r (Encode l)), Decode_Encode|].
  intros Hn. pose proof (head_of_length l) as Hh. unfold log_Size, LogHeadSize in *.
  destruct (decide (Z.of_nat n < 17)) as [Hlt|Hge].
  - unfold Decode, DecodeHead, ReadFull, LogHeadSize. rewrite Encode_head. rewrite take_app_le by lia. rewrite length_take.
    rewrite (proj2 (Z.leb_gt _ _)) by lia. replace (n `min` length (head_of l))%nat with n by lia.
    rewrite (proj2 (Z.eqb_neq (Z.of_nat n) 17)) by lia. rewrite orb_false_r. by destruct (Z.of_nat n =? 0).
  - rewrite (proj2 (Z.eqb_neq (Z.of_nat n) 0)) by lia. cbn [orb]. rewrite Encode_head, take_app_ge by lia.
    unfold Decode, DecodeHead. change LogHeadSize with 17. rewrite <- Hh, ReadFull_app, decodeHeadBuf_head by done.
    set (m := (n - length (head_of l))%nat). unfold ReadFull. rewrite length_take. rewrite (proj2 (Z.leb_gt _ _)) by lia. cbn [fst].
    replace (m `min` length (LogData l))%nat with m by lia. rewrite Hh.
    replace (Z.of_nat m =? 0) with (Z.of_nat n =? 17); [done|]. apply Bool.eq_iff_eq_true. rewrite !Z.eqb_eq. lia.
Qed.

Definition ex_log : Log := mkLog 7 100 0 [1; 2; 3].

Lemma ex_log_wf : wf_log ex_log.
Proof. by split. Qed.

Lemma log_stream_witness : Decode (Encode ex_log ++ [9]) = (inl ex_log, [9]) /\ (Decode (take 17 (Encode ex_log))).1 = inr EOF.
Proof.
  destruct (log_stream ex_log [9] 17 ex_log_wf) as (H & _ & _ & H'). split; [exact H|exact (H' eq_refl)].
Defined.

(** The log store on goleveldb.  On a working engine it is a sequence of logs with
    consecutive ids: the first and last id, the log of an id, appending the log that comes
    next (any other is refused and nothing changes), purging the logs up to the first one
    that is newer than the age, and clearing. *)
Lemma goleveldb_logs {I : IDB} {IS : IDBSpec I} {O : StoreOpen I} {OS : StoreOpenSpec I O} (s : GoLevelDBStore) (logs : list Log) :
  gls_rep s logs ->
  (exists s', firstID s = (Ret (first_id logs, None), s') /\ gls_rep s' logs) /\
  (exists s', lastID s = (Ret (last_id logs, None), s') /\ gls_rep s' logs) /\
  (forall id, 0 <= id < 2 ^ 64 ->
     gls_GetLog id s = (Ret (match log_with logs id with Some l => inl l | None => inr ErrLogNotFound end), s)) /\
  (forall l, wf_log l -> exists s', if ID l =? last_id logs + 1
     then gls_StoreLog l s = (Ret None, s') /\ gls_rep s' (logs ++ [l])
     else gls_StoreLog l s = (Ret (Some ErrStoreLogID), s') /\ gls_rep s' logs) /\
  (forall now n, 0 < n -> exists s', gls_PurgeExpired now n s = (Ret None, s') /\
     gls_rep s' (drop (expired (uint32 (now - n)) logs) logs)) /\
  (forall e, store_Open = inl e -> exists s', gls_Clear s = (Ret None, s') /\ gls_rep s' []).
Proof.
  intros Hr. split; [by apply firstID_rep|]. split; [by apply lastID_rep|]. split; [intros id; by apply GetLog_rep|].
  split; [intros l; by apply StoreLog_rep|]. split; [intros now n; by apply PurgeExpired_rep|].
  intros e E. unfold gls_Clear. rewrite E. destruct (open_empty e E) as [Hm Hh]. eexists. split; [done|]. split; [apply chain_nil|].
  split; [by left|]. split; [by left|]. by exists e.
Qed.

Definition mem_open : StoreOpen GoLevelDB.idb := inl (mkMem ∅ false).
#[local] Existing Instance mem_open.
Lemma mem_open_spec : StoreOpenSpec GoLevelDB.idb mem_open.
Proof. split. by intros e [= <-]. Qed.
#[local] Existing Instance mem_open_spec.

Definition ex_store (logs : list Log) : GoLevelDBStore (I := GoLevelDB.idb) := mkGLS (I := GoLevelDB.idb) (Some (mkMem (log_map logs) false)) 0 0.

Lemma ex_store_rep logs : chain logs -> gls_rep (ex_store logs) logs.
Proof. intros Hc. split; [done|]. split; [by left|]. split; [by left|]. by eexists. Qed.

Lemma ex_chain : chain [ex_log].
Proof. split; [by constructor; [apply ex_log_wf|constructor]|]. intros [|i] l E; [by injection E as <-|done]. Qed.

Lemma goleveldb_logs_witness :
  gls_GetLog 7 (ex_store [ex_log]) = (Ret (inl ex_log), ex_store [ex_log]) /\
  exists s', gls_PurgeExpired 300 10 (ex_store [ex_log]) = (Ret None, s') /\ gls_rep s' [].
Proof.
  destruct (goleveldb_logs (ex_store [ex_log]) [ex_log] (ex_store_rep _ ex_chain)) as (_ & _ & H1 & _ & H2 & _).
  split; [exact (H1 7 ltac:(done))|exact (H2 300 10 eq_refl)].
Defined.

(** A log store on goleveldb that has lost all its logs refuses every further one.
    After the expired logs were purged and none is left, or after a full synchronisation has
    set the commit id ([ClearWithCommitID]), [Log] asks for the id after the commit id,
    while the empty store takes only the log 1: [Log] returns [ErrStoreLogID] and nothing is
    stored, and so does every write of the database. *)
Lemma empty_log_refuses {I : IDB} {IS : IDBSpec I} {O : StoreOpen I} {C : RplConfig} {P : Snappy} {PS : SnappySpec P}
    (now : Z) (data : bytes) (x : Replication (L := goleveldb_log_store I O)) :
  gls_rep (rs x) [] -> 0 < commitID x -> commitID x + 1 < 2 ^ 64 -> fits_log data ->
  exists s', rpl_log now data x = (Ret (inr ErrStoreLogID), mkRpl (L := goleveldb_log_store I O) s' (commitID x) (commitLog x)) /\ gls_rep s' [].
Proof.
  intros Hr H0 Hb Hf. unfold rpl_log. assert (exists d, (if cfg_Compression then snappy_Encode data else inl data) = inl d) as [d Hd].
  { destruct cfg_Compression; [apply snappy_ok|eauto]. }
  rewrite Hd. destruct (lastID_rep _ _ Hr) as (s1 & E1 & Hr1). unfold mbind, SM_bind.
  rewrite (on_store_run (L := goleveldb_log_store I O) ls_LastID _ _ _ E1). cbn [commitID]. change (last_id []) with 0.
  rewrite Z.gtb_ltb, (proj2 (Z.ltb_ge _ _)), (proj2 (Z.ltb_lt _ _)) by lia. set (l := mkLog _ _ _ _).
  assert (Hid : ID l = commitID x + 1) by (subst l; cbn [ID]; by rewrite uwrap_small by lia).
  destruct (StoreLog_rep s1 [] l Hr1) as [s2 H2].
  { split; [lia|subst l; cbn [CreateTime]; by apply uwrap_range|subst l; cbn [Compression]; by destruct cfg_Compression|by apply Hf]. }
  rewrite (proj2 (Z.eqb_neq _ _)) in H2 by (rewrite Hid; change (last_id []) with 0; lia). destruct H2 as [E2 Hr2].
  rewrite (on_store_run (L := goleveldb_log_store I O) (ls_StoreLog l) _ _ (mkRpl (L := goleveldb_log_store I O) s1 _ _) E2). by exists s2.
Qed.

Definition ex_config : RplConfig := {| cfg_Compression := false; cfg_SyncLog := 0 |}.
Definition ex_snappy : Snappy := {| snappy_Encode := inl; snappy_Decode := inl |}.
Lemma ex_snappy_spec : SnappySpec ex_snappy.
Proof. split; [by eexists|]. by intros b c [= <-]. Qed.
#[local] Existing Instances ex_config ex_snappy ex_snappy_spec.

Abbreviation ex_logs := (goleveldb_log_store GoLevelDB.idb mem_open).

Lemma empty_log_refuses_witness :
  exists s', rpl_log 300 [1] (mkRpl (L := ex_logs) (ex_store []) 7 (mkFile [] false)) =
    (Ret (inr ErrStoreLogID), mkRpl (L := ex_logs) s' 7 (mkFile [] false)) /\ gls_rep s' [].
Proof.
  apply (empty_log_refuses 300 [1] (mkRpl (L := ex_logs) (ex_store []) 7 (mkFile [] false))); [apply ex_store_rep, chain_nil|done|done|].
  by intros c [= <-].
Defined.
