(* ===== verification/FileIO.v ===== *)
(** * The files of the log store (src/rpl/file_io.go)

    The file system holds the bytes of the data and the meta file of each table.  A file is
    written and read at offsets ([rawWriteFile], [rawReadFile]) or through a mapping
    ([mmapWriteFile], [mmapReadFile]), whose writer extends the file with zeros.  A mapping
    shows the bytes of its file and writes them through.  The calls of the operating system
    and of the mapping do not fail, a file that does not exist apart; what a crash of the
    system loses of the writes that were not synced is not modelled. *)

From S2P Require Import Prelude Driver Store Rpl.

(** [fmtTableDataName] and [fmtTableMetaName] of the index of a table; the directory holds no
    other files. *)
Inductive fname := DataName (index : Z) | MetaName (index : Z).

#[global] Instance fname_eq_dec : EqDecision fname.
Proof. solve_decision. Defined.

#[global] Instance fname_countable : Countable fname.
Proof.
  refine (inj_countable' (fun f => match f with DataName i => inl i | MetaName i => inr i end)
    (fun x => match x with inl i => DataName i | inr i => MetaName i end) _). by intros [].
Defined.

Abbreviation FS := (gmap fname bytes).

(** ** The operating system *)

Definition zeros (n : Z) : bytes := replicate (Z.to_nat n) 0.

Definition truncate (f : bytes) (size : Z) : bytes := take (Z.to_nat size) f ++ zeros (size - len f).

(** A gap between the end of the file and the offset reads as zeros. *)
Definition write_at (f : bytes) (off : Z) (b : bytes) : bytes :=
  take (Z.to_nat off) f ++ zeros (off - len f) ++ b ++ drop (Z.to_nat off + length b) f.

Definition read_at (f : bytes) (off n : Z) : bytes := take (Z.to_nat n) (drop (Z.to_nat off) f).

Definition content (fs : FS) (name : fname) : bytes := default [] (fs !! name).

Definition looks {A} (f : FS -> A) : SM FS A := fun fs => (Ret (f fs), fs).

(** [os.File.ReadAt] *)
Definition file_ReadAt (name : fname) (n off : Z) : SM FS (bytes * option error) := looks (fun fs =>
  let b := read_at (content fs name) off n in (b, if len b <? n then Some EOF else None)).

Definition errNotExist : error := errorf "file does not exist".
Definition errOffset : error := errorf "invalid offset".

(** ** Files that are written *)

Record writeFile := mkWF { wf_mmap : bool; wf_name : fname; wf_offset : Z }.

Definition SetOffset (o : Z) (m : writeFile) : writeFile := mkWF (wf_mmap m) (wf_name m) o.

(** [os.OpenFile] with [O_CREATE] *)
Definition os_create (name : fname) : SM FS unit := fun fs =>
  (Ret tt, match fs !! name with Some _ => fs | None => <[name := []]> fs end).

Definition os_truncate (name : fname) (size : Z) : SM FS unit := fun fs => (Ret tt, <[name := truncate (content fs name) size]> fs).

Definition wf_Size (m : writeFile) : SM FS Z := looks (fun fs => len (content fs (wf_name m))).

Definition newRawWriteFile (name : fname) : SM FS writeFile := _ ← os_create name; mret (mkWF false name 0).

Definition newMmapWriteFile (name : fname) (size : Z) : SM FS writeFile :=
  _ ← os_create name;
  st ← wf_Size (mkWF true name 0);
  _ ← os_truncate name (if size =? 0 then st else size);
  mret (mkWF true name 0).

Definition newWriteFile (useMmap : bool) (name : fname) (size : Z) : SM FS writeFile :=
  if useMmap then newMmapWriteFile name size else newRawWriteFile name.

(** [Truncate] of a mapped file: unmap, truncate, map. *)
Definition mmap_Truncate (m : writeFile) (size : Z) : SM FS writeFile :=
  _ ← os_truncate (wf_name m) size;
  mret (if wf_offset m >? size then SetOffset size m else m).

(** The bytes go to the offset, which moves behind them. *)
Definition put_bytes (m : writeFile) (b : bytes) : SM FS writeFile := fun fs =>
  (Ret (SetOffset (wf_offset m + len b) m), <[wf_name m := write_at (content fs (wf_name m)) (wf_offset m) b]> fs).

Definition wf_Write (m : writeFile) (b : bytes) : SM FS writeFile :=
  if wf_mmap m then
    size ← wf_Size m;
    let extra := len b - (size - wf_offset m) in
    m ← (if extra >? 0 then mmap_Truncate m (size + extra + size / 10) else mret m);
    put_bytes m b
  else put_bytes m b.

Definition wf_ReadAt (m : writeFile) (n off : Z) : SM FS (bytes * option error) :=
  if wf_mmap m then
    if off >? wf_offset m then mret ([], Some errOffset)
    else looks (fun fs =>
      let b := read_at (take (Z.to_nat (wf_offset m)) (content fs (wf_name m))) off n in
      (b, if len b <? n then Some ErrUnexpectedEOF else None))
  else file_ReadAt (wf_name m) n off.

Definition wf_Close (m : writeFile) : SM FS unit := os_truncate (wf_name m) (wf_offset m).

(** ** Files that are read *)

Record readFile := mkRF { rf_mmap : bool; rf_name : fname }.

Definition newReadFile (useMmap : bool) (name : fname) : SM FS (readFile + error) := looks (fun fs =>
  match fs !! name with None => inr errNotExist | Some _ => inl (mkRF useMmap name) end).

Definition rf_Size (m : readFile) : SM FS Z := looks (fun fs => len (content fs (rf_name m))).

Definition rf_ReadAt (m : readFile) (n off : Z) : SM FS (bytes * option error) :=
  if rf_mmap m then looks (fun fs =>
    let f := content fs (rf_name m) in
    if off >? len f then ([], Some errOffset)
    else let b := read_at f off n in (b, if len b <? n then Some ErrUnexpectedEOF else None))
  else file_ReadAt (rf_name m) n off.

(** ** Logs at an offset (log.go) *)

(** [DecodeHeadAt]: a head that is cut is an error, whatever the rest of the buffer holds. *)
Definition DecodeHeadAt (ReadAt : Z -> Z -> SM FS (bytes * option error)) (pos : Z) : SM FS (Log * Z + error) :=
  '(buf, err) ← ReadAt LogHeadSize pos;
  mret (match err with
        | None => inl (decodeHeadBuf buf)
        | Some EOF =>
            if len buf =? LogHeadSize then
              let '(l, length) := decodeHeadBuf buf in if negb (length =? 0) then inr EOF else inl (l, length)
            else inr EOF
        | Some err => inr err
        end).

Definition DecodeAt (ReadAt : Z -> Z -> SM FS (bytes * option error)) (pos : Z) : SM FS (Log + error) :=
  head ← DecodeHeadAt ReadAt pos;
  match head with
  | inr err => mret (inr err)
  | inl (l, length) =>
      '(data, err) ← ReadAt length (pos + LogHeadSize);
      mret (match err with
            | None => inl (with_data l data)
            | Some EOF => if len data =? length then inl (with_data l data) else inr EOF
            | Some err => inr err
            end)
  end.

(** * Lemmas *)

Lemma zeros_length n : 0 <= n -> len (zeros n) = n.
Proof. intros Hn. unfold zeros. rewrite length_replicate. lia. Qed.

Lemma zeros_app a b : 0 <= a -> 0 <= b -> zeros a ++ zeros b = zeros (a + b).
Proof. intros Ha Hb. unfold zeros. rewrite <- replicate_add. f_equal. lia. Qed.

Lemma zeros_drop n k : drop k (zeros n) = zeros (n - Z.of_nat k).
Proof. unfold zeros. rewrite drop_replicate. f_equal. lia. Qed.

Lemma zeros_neg n : n <= 0 -> zeros n = [].
Proof. intros Hn. unfold zeros. by replace (Z.to_nat n) with 0%nat by lia. Qed.

Lemma take_app_len (a b : bytes) : take (Z.to_nat (len a)) (a ++ b) = a.
Proof. rewrite Nat2Z.id. apply take_app_length. Qed.

Lemma drop_app_len (a b : bytes) : drop (Z.to_nat (len a)) (a ++ b) = b.
Proof. rewrite Nat2Z.id. apply drop_app_length. Qed.

Lemma read_at_mid (pre mid post : bytes) : read_at (pre ++ mid ++ post) (len pre) (len mid) = mid.
Proof. unfold read_at. by rewrite drop_app_len, take_app_len. Qed.

Lemma write_at_end (x b r : bytes) : write_at (x ++ r) (len x) b = x ++ b ++ drop (length b) r.
Proof.
  unfold write_at. rewrite take_app_len, zeros_neg by (rewrite length_app; lia). cbn [app]. f_equal. f_equal.
  by rewrite <- drop_drop, drop_app_len.
Qed.

Lemma content_some (fs : FS) name f : fs !! name = Some f -> content fs name = f.
Proof. unfold content. by intros ->. Qed.

Lemma truncate_same (x r : bytes) : truncate (x ++ r) (len x) = x.
Proof. unfold truncate. rewrite take_app_len, zeros_neg by (rewrite length_app; lia). apply app_nil_r. Qed.

Lemma truncate_grow (f : bytes) (n : Z) : len f <= n -> truncate f n = f ++ zeros (n - len f).
Proof. intros Hn. unfold truncate. rewrite take_ge by lia. done. Qed.

(** ** Reading *)

(** Every part of [x] is read without an error. *)
Definition reads_as (ReadAt : Z -> Z -> SM FS (bytes * option error)) (fs : FS) (x : bytes) : Prop :=
  forall pre mid post, x = pre ++ mid ++ post -> ReadAt (len mid) (len pre) fs = (Ret (mid, None), fs).

Lemma file_reads name fs x r : fs !! name = Some (x ++ r) -> reads_as (file_ReadAt name) fs x.
Proof.
  intros E pre mid post ->. unfold file_ReadAt, looks. rewrite (content_some _ _ _ E), <- !app_assoc, read_at_mid.
  by rewrite Z.ltb_irrefl.
Qed.

Lemma rf_reads m fs x r : fs !! rf_name m = Some (x ++ r) -> reads_as (rf_ReadAt m) fs x.
Proof.
  intros E. unfold rf_ReadAt. destruct (rf_mmap m); [|by eapply file_reads]. intros pre mid post ->. unfold looks.
  rewrite (content_some _ _ _ E). rewrite Z.gtb_ltb, (proj2 (Z.ltb_ge _ _)) by (rewrite !length_app; lia).
  by rewrite <- !app_assoc, read_at_mid, Z.ltb_irrefl.
Qed.

(** The file holds [x] up to the offset of its writer, and [r] behind it. *)
Definition holds (fs : FS) (m : writeFile) (x r : bytes) : Prop := wf_offset m = len x /\ fs !! wf_name m = Some (x ++ r).

Lemma wf_reads m fs x r : holds fs m x r -> reads_as (wf_ReadAt m) fs x.
Proof.
  intros [Ho E]. unfold wf_ReadAt. destruct (wf_mmap m); [|by eapply file_reads]. intros pre mid post ->.
  rewrite Z.gtb_ltb, (proj2 (Z.ltb_ge _ _)) by (rewrite Ho, !length_app; lia). unfold looks.
  rewrite (content_some _ _ _ E), Ho, take_app_len. by rewrite read_at_mid, Z.ltb_irrefl.
Qed.

Lemma DecodeHeadAt_ok R fs pre l post : reads_as R fs (pre ++ head_of l ++ post) -> wf_log l ->
  DecodeHeadAt R (len pre) fs = (Ret (inl (with_data l [], len (LogData l))), fs).
Proof.
  intros HR Hl. unfold DecodeHeadAt, mbind, SM_bind. rewrite <- (head_of_length l), (HR pre (head_of l) post eq_refl).
  cbn. by rewrite decodeHeadBuf_head.
Qed.

Lemma DecodeAt_ok R fs pre l post : reads_as R fs (pre ++ Encode l ++ post) -> wf_log l -> DecodeAt R (len pre) fs = (Ret (inl l), fs).
Proof.
  intros HR Hl. rewrite Encode_head, <- app_assoc in HR. unfold DecodeAt, mbind, SM_bind. rewrite (DecodeHeadAt_ok _ _ _ _ _ HR Hl).
  rewrite app_assoc in HR. pose proof (HR (pre ++ head_of l) (LogData l) post eq_refl) as H.
  rewrite length_app, Nat2Z.inj_add, head_of_length in H. rewrite H. cbn. by destruct l.
Qed.

(** ** Writing *)

(** What the other files of [fs] and of [fs'] hold is the same. *)
Definition same_but (name : fname) (fs fs' : FS) : Prop := forall n, n <> name -> fs' !! n = fs !! n.

Lemma put_holds m b fs x r : holds fs m x r ->
  exists fs', put_bytes m b fs = (Ret (SetOffset (len (x ++ b)) m), fs') /\
    holds fs' (SetOffset (len (x ++ b)) m) (x ++ b) (drop (length b) r) /\ same_but (wf_name m) fs fs'.
Proof.
  intros [Ho E]. exists (<[wf_name m := x ++ b ++ drop (length b) r]> fs). unfold put_bytes. rewrite Ho, (content_some _ _ _ E), write_at_end. split; [|split].
  - by rewrite length_app, Nat2Z.inj_add.
  - split; [done|]. change (wf_name (SetOffset _ m)) with (wf_name m). rewrite lookup_insert_eq. by rewrite <- app_assoc.
  - intros n Hn. by rewrite lookup_insert_ne.
Qed.

(** A mapped file grows by zeros. *)
Lemma Write_holds m b fs x r : holds fs m x r -> exists k fs',
  wf_Write m b fs = (Ret (SetOffset (len (x ++ b)) m), fs') /\ 0 <= k /\ (wf_mmap m = false -> k = 0) /\
  holds fs' (SetOffset (len (x ++ b)) m) (x ++ b) (drop (length b) (r ++ zeros k)) /\ same_but (wf_name m) fs fs'.
Proof.
  intros Hh. pose proof Hh as [Ho E]. unfold wf_Write. destruct (wf_mmap m) eqn:Em.
  - unfold mbind, SM_bind, wf_Size, looks. rewrite (content_some _ _ _ E). assert (Hos : wf_offset m <= len (x ++ r)) by (rewrite Ho, length_app; lia).
    set (size := len (x ++ r)) in *. set (extra := len b - (size - wf_offset m)).
    assert (0 <= size / 10) by (apply Z.div_pos; lia). destruct (extra >? 0) eqn:Ex; zify_bool.
    + set (k := extra + size / 10). unfold mmap_Truncate, os_truncate, mbind, SM_bind. rewrite (content_some _ _ _ E).
      rewrite Z.gtb_ltb, (proj2 (Z.ltb_ge _ _)) by lia. cbn [mret SM_ret].
      rewrite truncate_grow by (unfold size in *; lia). replace (size + extra + size / 10 - len (x ++ r)) with k by lia.
      set (fs1 := <[wf_name m := _]> fs). assert (H1 : holds fs1 m x (r ++ zeros k)).
      { split; [done|]. subst fs1. by rewrite lookup_insert_eq, app_assoc. }
      destruct (put_holds m b fs1 x _ H1) as (fs' & EP & H2 & H3). exists k, fs'. split; [done|]. split; [lia|]. split; [done|]. split; [done|].
      intros n Hn. rewrite H3 by done. subst fs1. by rewrite lookup_insert_ne.
    + destruct (put_holds m b fs x r Hh) as (fs' & EP & H2 & H3). exists 0, fs'. cbn [mret SM_ret]. rewrite EP. split; [done|].
      split; [done|]. split; [done|]. change (zeros 0) with (@nil Z). by rewrite app_nil_r.
  - destruct (put_holds m b fs x r Hh) as (fs' & EP & H2 & H3). exists 0, fs'. split; [done|]. split; [done|]. split; [done|].
    change (zeros 0) with (@nil Z). by rewrite app_nil_r.
Qed.

Lemma Close_holds m fs x r : holds fs m x r ->
  exists fs', wf_Close m fs = (Ret tt, fs') /\ fs' !! wf_name m = Some x /\ same_but (wf_name m) fs fs'.
Proof.
  intros [Ho E]. eexists. unfold wf_Close, os_truncate. rewrite (content_some _ _ _ E), Ho, truncate_same. split; [done|].
  split; [by rewrite lookup_insert_eq|]. intros n Hn. by rewrite lookup_insert_ne.
Qed.

(** A file that did not exist is created empty, or full of zeros. *)
Lemma newWriteFile_holds useMmap name size fs : fs !! name = None -> 0 <= size -> exists k fs',
  newWriteFile useMmap name size fs = (Ret (mkWF useMmap name 0), fs') /\ 0 <= k /\ (useMmap = false -> k = 0) /\
  holds fs' (mkWF useMmap name 0) [] (zeros k) /\ same_but name fs fs'.
Proof.
  intros E Hs. unfold newWriteFile. destruct useMmap.
  - unfold newMmapWriteFile, os_create, wf_Size, os_truncate, looks, mbind, SM_bind. rewrite E. cbn [wf_name].
    rewrite (content_some _ name []) by apply lookup_insert_eq. change (len (@nil Z)) with 0.
    assert ((if size =? 0 then 0 else size) = size) as -> by (case_match; zify_bool; lia).
    exists size. eexists. split; [done|]. split; [done|]. split; [done|]. split.
    + split; [done|]. cbn [wf_name]. rewrite lookup_insert_eq. rewrite truncate_grow by (simpl; lia). cbn [app length]. do 2 f_equal. lia.
    + intros n Hn. by rewrite !lookup_insert_ne.
  - exists 0. unfold newRawWriteFile, os_create, mbind, SM_bind. rewrite E. eexists. split; [done|]. split; [done|]. split; [done|]. split.
    + split; [done|]. cbn [wf_name]. by rewrite lookup_insert_eq.
    + intros n Hn. by rewrite lookup_insert_ne.
Qed.
