(* ===== verification/FileTable.v ===== *)
(** * The tables of the log store (src/rpl/file_table.go)

    A table is a data file, the logs one after the other with the magic at the end, and a
    meta file with the position of each log.  The writer appends logs to the table of its
    index, [Flush] closes it and makes it a reader; opening a table checks it and repairs
    one that was not closed. *)

From S2P Require Import Prelude Driver Store Rpl FileIO.

Definition magic : bytes := [0x1c; 0x1d; 0xb8; 0x88; 0xff; 0x9e; 0x45; 0x55; 0x40; 0xf0; 0x4c; 0xda; 0xe0; 0xce; 0x47; 0xde; 0x65; 0x48; 0x71; 0x17].

Definition errTableNeedFlush : error := errorf "write table need flush".
Definition errNilHandler : error := errorf "nil write handler".
Definition errClosed : error := errorf "table writer is closed".
Definition errLogID : error := errorf "invalid log id".
Definition errTable : error := errorf "invalid log table".

Definition defaultLogNumInFile : Z := 1024 * 1024.
Definition tableReaderKeepaliveInterval : Z := 30.

Definition panics {A} : SM FS A := fun fs => (Panic, fs).

(** ** Readers *)

Record tableReader := mkTR {
  tr_index : Z; tr_data : option readFile; tr_meta : option readFile;
  tr_first : Z; tr_last : Z; tr_lastTime : Z; tr_lastReadTime : Z; tr_useMmap : bool
}.

Definition set_files (data meta : option readFile) (t : tableReader) : tableReader :=
  mkTR (tr_index t) data meta (tr_first t) (tr_last t) (tr_lastTime t) (tr_lastReadTime t) (tr_useMmap t).
Definition set_read (now : Z) (t : tableReader) : tableReader :=
  mkTR (tr_index t) (tr_data t) (tr_meta t) (tr_first t) (tr_last t) (tr_lastTime t) now (tr_useMmap t).

Definition tr_Close (t : tableReader) : tableReader := set_files None None t.

Definition Keepalived (now : Z) (t : tableReader) : bool :=
  let l := tr_lastReadTime t in negb ((l >? 0) && (now - l >? tableReaderKeepaliveInterval)).

Definition getLogPos (meta : readFile) (index : Z) : SM FS (Z + error) :=
  '(buf, err) ← rf_ReadAt meta 4 (index * 4);
  mret (match err with Some err => inr err | None => inl (be_get buf) end).

Definition decodeLogHead (ReadAt : Z -> Z -> SM FS (bytes * option error)) (pos : Z) : SM FS (Log * Z + error) :=
  head ← DecodeHeadAt ReadAt pos;
  mret (match head with inr err => inr err | inl (l, dataLen) => inl (l, pos + LogHeadSize + dataLen) end).

Definition checkData (index : Z) : SM FS (readFile + error) :=
  r ← newReadFile false (DataName index);
  match r with
  | inr err => mret (inr err)
  | inl data =>
      size ← rf_Size data;
      if size <? len magic then mret (inr errTable)
      else
        '(buf, err) ← rf_ReadAt data (len magic) (size - len magic);
        mret (match err with
              | Some err => inr err
              | None => if bool_decide (magic = buf) then inl data else inr errTable
              end)
  end.

Definition checkMeta (index : Z) : SM FS (readFile + error) :=
  r ← newReadFile false (MetaName index);
  match r with
  | inr err => mret (inr err)
  | inl meta =>
      size ← rf_Size meta;
      if negb (size mod 4 =? 0) || (size =? 0) then mret (inr errTable) else mret (inl meta)
  end.

(** [check] sets the first and the last id and the time of the last log, and returns an error.
    The files it opens are closed by its caller. *)
Definition tr_check (index : Z) : SM FS ((Z * Z * Z) * option error) :=
  r ← checkMeta index;
  match r with
  | inr err => mret ((0, 0, 0), Some err)
  | inl meta =>
      r ← checkData index;
      match r with
      | inr err => mret ((0, 0, 0), Some err)
      | inl data =>
          firstLogPos ← getLogPos meta 0;
          msize ← rf_Size meta;
          lastLogPos ← getLogPos meta (msize / 4 - 1);
          let pos p := match p with inl n => n | inr _ => 0 end in
          if negb (pos firstLogPos =? 0) then mret ((0, 0, 0), Some errTable)
          else
            h1 ← decodeLogHead (rf_ReadAt data) (pos firstLogPos);
            match h1 with
            | inr _ => mret ((0, 0, 0), Some errTable)
            | inl (l1, _) =>
                h2 ← decodeLogHead (rf_ReadAt data) (pos lastLogPos);
                match h2 with
                | inr _ => mret ((ID l1, 0, 0), Some errTable)
                | inl (l2, n) =>
                    dsize ← rf_Size data;
                    mret (if negb (n + len magic =? dsize) then ((ID l1, 0, 0), Some errTable)
                          else ((ID l1, ID l2, CreateTime l2),
                                if ID l1 >? ID l2 then Some errTable
                                else if negb (uint64 (ID l2 - ID l1 + 1) =? msize / 4) then Some errTable
                                else None))
                end
            end
      end
  end.

(** The loop of [repair]: [None] when the fuel is not enough.  The message for an id out of
    order calls [t.data.Name()], and [t.data] is nil. *)
Fixpoint repair_loop (fuel : nat) (data meta : writeFile) (first last lastTime pos : Z) : SM FS (option (writeFile * (Z * Z * Z) * Z)) :=
  match fuel with
  | O => mret None
  | S fuel =>
      head ← decodeLogHead (wf_ReadAt data) pos;
      match head with
      | inr _ => mret (Some (meta, (first, last, lastTime), pos))
      | inl (l, nextPos) =>
          if ID l =? 0 then mret (Some (meta, (first, last, lastTime), pos))
          else if negb (last =? 0) && (ID l <=? last) then panics
          else
            meta ← put_bytes meta (be_put 4 (uint32 pos));
            repair_loop fuel data meta (if first =? 0 then ID l else first) (ID l) (CreateTime l) nextPos
      end
  end.

(** [repair], which uses raw files; every round of the loop moves on by the size of a head. *)
Definition repair (index lastTime : Z) : SM FS (Z * Z * Z) :=
  data ← newRawWriteFile (DataName index);
  size ← wf_Size data;
  let data := SetOffset size data in
  meta ← newRawWriteFile (MetaName index);
  res ← repair_loop (S (Z.to_nat size)) data meta 0 0 lastTime 0;
  match res with
  | None => panics
  | Some (meta, range, pos) =>
      _ ← wf_Close meta;
      data ← put_bytes (SetOffset pos data) magic;
      _ ← wf_Close data;
      mret range
  end.

Definition newTableReader (index : Z) (useMmap : bool) : SM FS (tableReader + error) :=
  if index <=? 0 then mret (inr errTable)
  else
    '((first, last, lastTime), err) ← tr_check index;
    '(first, last, lastTime) ← (match err with None => mret (first, last, lastTime) | Some _ => repair index lastTime end);
    mret (inl (mkTR index None None first last lastTime 0 useMmap)).

Definition openTable (t : tableReader) : SM FS (tableReader + error) :=
  data ← (match tr_data t with Some f => mret (inl f) | None => newReadFile (tr_useMmap t) (DataName (tr_index t)) end);
  match data with
  | inr err => mret (inr err)
  | inl data =>
      meta ← (match tr_meta t with Some f => mret (inl f) | None => newReadFile (tr_useMmap t) (MetaName (tr_index t)) end);
      mret (match meta with inr err => inr err | inl meta => inl (set_files (Some data) (Some meta) t) end)
  end.

Definition tr_GetLog (now id : Z) (t : tableReader) : SM FS (tableReader * (Log + error)) :=
  if (id <? tr_first t) || (id >? tr_last t) then mret (t, inr ErrLogNotFound)
  else
    let t := set_read now t in
    r ← openTable t;
    match r with
    | inr err => mret (tr_Close t, inr err)
    | inl t =>
        match tr_data t, tr_meta t with
        | Some data, Some meta =>
            p ← getLogPos meta (id - tr_first t);
            match p with
            | inr err => mret (t, inr err)
            | inl pos =>
                l ← DecodeAt (rf_ReadAt data) pos;
                mret (t, match l with inr err => inr err | inl l => if negb (ID l =? id) then inr errLogID else inl l end)
            end
        | _, _ => panics
        end
    end.

(** ** Writers *)

Record tableWriter := mkTW {
  tw_data : option writeFile; tw_meta : option writeFile; tw_index : Z; tw_first : Z; tw_last : Z; tw_lastTime : Z;
  tw_maxLogSize : Z; tw_closed : bool; tw_syncType : Z; tw_useMmap : bool
}.

Definition newTableWriter (index maxLogSize : Z) (useMmap : bool) : outcome tableWriter :=
  if index <=? 0 then Panic else Ret (mkTW None None index 0 0 0 maxLogSize false 0 useMmap).

Definition SetSyncType (tp : Z) (t : tableWriter) : tableWriter :=
  mkTW (tw_data t) (tw_meta t) (tw_index t) (tw_first t) (tw_last t) (tw_lastTime t) (tw_maxLogSize t) (tw_closed t) tp (tw_useMmap t).

Definition with_files (data meta : option writeFile) (t : tableWriter) : tableWriter :=
  mkTW data meta (tw_index t) (tw_first t) (tw_last t) (tw_lastTime t) (tw_maxLogSize t) (tw_closed t) (tw_syncType t) (tw_useMmap t).

Definition tw_close (t : tableWriter) : SM FS tableWriter :=
  _ ← (match tw_meta t with Some meta => wf_Close meta | None => mret tt end);
  _ ← (match tw_data t with Some data => data ← wf_Write data magic; wf_Close data | None => mret tt end);
  mret (with_files None None t).

Definition tw_Close (t : tableWriter) : SM FS tableWriter :=
  t ← tw_close t;
  mret (mkTW (tw_data t) (tw_meta t) (tw_index t) (tw_first t) (tw_last t) (tw_lastTime t) (tw_maxLogSize t) true (tw_syncType t) (tw_useMmap t)).

Definition tw_Flush (t : tableWriter) : SM FS (tableWriter * (tableReader + error)) :=
  match tw_data t, tw_meta t with
  | Some _, Some _ =>
      let tr := mkTR (tw_index t) None None (tw_first t) (tw_last t) (tw_lastTime t) 0 (tw_useMmap t) in
      t ← tw_close t;
      mret (mkTW (tw_data t) (tw_meta t) (tw_index t + 1) 0 0 (tw_lastTime t) (tw_maxLogSize t) (tw_closed t) (tw_syncType t) (tw_useMmap t), inl tr)
  | _, _ => mret (t, inr errNilHandler)
  end.

Definition openFile (t : tableWriter) : SM FS tableWriter :=
  data ← (match tw_data t with
          | Some f => mret f
          | None => newWriteFile (tw_useMmap t) (DataName (tw_index t)) (tw_maxLogSize t + Z.quot (tw_maxLogSize t) 10 + len magic)
          end);
  meta ← (match tw_meta t with
          | Some f => mret f
          | None => newWriteFile (tw_useMmap t) (MetaName (tw_index t)) (defaultLogNumInFile * 4)
          end);
  mret (with_files (Some data) (Some meta) t).

(** [Encode] to a file: the head and the data. *)
Definition wf_Encode (l : Log) (m : writeFile) : SM FS writeFile := m ← wf_Write m (head_of l); wf_Write m (LogData l).

(** [storeLog], with the syncs of the file left out. *)
Definition tw_storeLog (l : Log) (t : tableWriter) : SM FS (tableWriter * option error) :=
  if ID l =? 0 then mret (t, Some ErrStoreLogID)
  else if tw_closed t then mret (t, Some errClosed)
  else if (tw_last t >? 0) && negb (ID l =? uint64 (tw_last t + 1)) then mret (t, Some ErrStoreLogID)
  else if (match tw_data t with Some data => wf_offset data >? tw_maxLogSize t | None => false end) then mret (t, Some errTableNeedFlush)
  else
    t ← openFile t;
    match tw_data t, tw_meta t with
    | Some data, Some meta =>
        let offsetPos := wf_offset data in
        data ← wf_Encode l data;
        meta ← wf_Write meta (be_put 4 (uint32 offsetPos));
        mret (mkTW (Some data) (Some meta) (tw_index t) (if tw_first t =? 0 then ID l else tw_first t) (ID l) (CreateTime l)
                (tw_maxLogSize t) (tw_closed t) (tw_syncType t) (tw_useMmap t), None)
    | _, _ => panics
    end.

Definition tw_GetLog (id : Z) (t : tableWriter) : SM FS (Log + error) :=
  if (id <? tw_first t) || (id >? tw_last t) then mret (inr ErrLogNotFound)
  else match tw_meta t with
  | None => panics
  | Some meta =>
      '(buf, err) ← wf_ReadAt meta 4 ((id - tw_first t) * 4);
      match err with
      | Some err => mret (inr err)
      | None =>
          match tw_data t with
          | None => panics
          | Some data =>
              l ← DecodeAt (wf_ReadAt data) (be_get buf);
              mret (match l with inr err => inr err | inl l => if negb (ID l =? id) then inr errLogID else inl l end)
          end
      end
  end.

(** * The contents of tables *)

(** The logs one after the other, and their positions from [pos] on. *)
Definition enc (ls : list Log) : bytes := concat (map Encode ls).

Fixpoint metas (pos : Z) (ls : list Log) : bytes :=
  match ls with
  | [] => []
  | l :: ls => be_put 4 (uint32 pos) ++ metas (pos + log_Size l) ls
  end.

Definition last_time (ls : list Log) : Z := match last ls with Some l => CreateTime l | None => 0 end.

(** Every log starts at a position of 32 bits. *)
Definition starts_ok (ls : list Log) : Prop := forall i, (i < length ls)%nat -> len (enc (take i ls)) < 2 ^ 32.

Lemma enc_app a b : enc (a ++ b) = enc a ++ enc b.
Proof. unfold enc. by rewrite map_app, concat_app. Qed.

Lemma enc_cons l ls : enc (l :: ls) = Encode l ++ enc ls.
Proof. done. Qed.

Lemma enc_one l : enc [l] = Encode l.
Proof. apply app_nil_r. Qed.

Lemma metas_app pos a b : metas pos (a ++ b) = metas pos a ++ metas (pos + len (enc a)) b.
Proof.
  revert pos; induction a as [|l a IH]; intros pos; cbn [app metas].
  - by rewrite Z.add_0_r.
  - rewrite IH, enc_cons, length_app, Nat2Z.inj_add, Encode_length, <- app_assoc. do 3 f_equal. lia.
Qed.

Lemma metas_length pos ls : len (metas pos ls) = 4 * len ls.
Proof.
  revert pos; induction ls as [|l ls IH]; intros pos; [done|]. cbn [metas]. rewrite length_app, be_put_length. cbn [length]. specialize (IH (pos + log_Size l)). lia.
Qed.

Lemma starts_snoc ls l : starts_ok ls -> len (enc ls) < 2 ^ 32 -> starts_ok (ls ++ [l]).
Proof.
  intros Hs Hl i Hi. rewrite length_app in Hi. cbn [length] in Hi. destruct (decide (i < length ls)%nat) as [Hlt|Hge].
  - rewrite take_app_le by lia. by apply Hs.
  - replace i with (length ls) by lia. by rewrite take_app_length.
Qed.

(** The parts of the files around the log at [i]. *)
Lemma enc_split ls i l : ls !! i = Some l -> enc ls = enc (take i ls) ++ Encode l ++ enc (drop (S i) ls).
Proof. intros E. rewrite <- (take_drop_middle ls i l E) at 1. by rewrite enc_app, enc_cons. Qed.

Lemma metas_split ls i l : ls !! i = Some l ->
  metas 0 ls = metas 0 (take i ls) ++ be_put 4 (uint32 (len (enc (take i ls)))) ++ metas (len (enc (take i ls)) + log_Size l) (drop (S i) ls).
Proof. intros E. rewrite <- (take_drop_middle ls i l E) at 1. by rewrite metas_app. Qed.

(** ** Chains *)

Lemma chain_ids ls i l : chain ls -> ls !! i = Some l -> ID l = first_id ls + Z.of_nat i /\ wf_log l.
Proof. intros [Hw Hi] E. split; [by apply Hi|]. rewrite Forall_lookup in Hw. by eapply Hw. Qed.

Lemma chain_take n ls : chain ls -> chain (take n ls).
Proof.
  intros [Hw Hi]. split; [by apply Forall_take|]. intros i l E. apply lookup_take_Some in E as [E Hn]. rewrite (Hi _ _ E).
  destruct ls, n; [done|done|lia|done].
Qed.

Lemma chain_app_l a b : chain (a ++ b) -> chain a.
Proof. intros H. apply (chain_take (length a)) in H. by rewrite take_app_length in H. Qed.

Lemma chain_app_r a b : chain (a ++ b) -> chain b.
Proof. intros H. apply (chain_drop (length a)) in H. by rewrite drop_app_length in H. Qed.

(** The id of the first log of the second part follows the last of the first one. *)
Lemma chain_next a b : chain (a ++ b) -> a <> [] -> b <> [] -> first_id b = last_id a + 1.
Proof.
  intros H Ha Hb. pose proof (chain_last a (chain_app_l _ _ H) Ha) as ->. destruct b as [|y b]; [done|]. cbn [first_id].
  destruct H as [_ Hi]. rewrite (Hi (length a) y); [|by rewrite lookup_app_r, Nat.sub_diag]. destruct a; [done|]. cbn [first_id app length]. lia.
Qed.

Lemma chain_find ls id : chain ls -> ls <> [] -> first_id ls <= id <= last_id ls ->
  exists l, ls !! Z.to_nat (id - first_id ls) = Some l /\ ID l = id /\ wf_log l.
Proof.
  intros Hc Hne Hid. pose proof (chain_last ls Hc Hne) as HL. destruct (ls !! Z.to_nat (id - first_id ls)) as [l|] eqn:E.
  - exists l. destruct (chain_ids _ _ _ Hc E) as [H1 H2]. split; [done|]. split; [lia|done].
  - apply lookup_ge_None in E. lia.
Qed.

(** ** The tables in the files *)

Record table_files (fs : FS) (index : Z) (ls : list Log) : Prop := {
  tf_starts : starts_ok ls;
  tf_data : fs !! DataName index = Some (enc ls ++ magic);
  tf_meta : fs !! MetaName index = Some (metas 0 ls)
}.

Lemma uint32_pos ls i : starts_ok ls -> (i < length ls)%nat -> be_get (be_put 4 (uint32 (len (enc (take i ls))))) = len (enc (take i ls)).
Proof.
  intros Hs Hi. rewrite be_get_put, uwrap_small by (specialize (Hs i Hi); lia). change (256 ^ Z.of_nat 4) with (2 ^ 32).
  apply Z.mod_small. specialize (Hs i Hi). lia.
Qed.

(** The position of the log at [i] is read from the meta file. *)
Lemma pos_read R fs ls i l : reads_as R fs (metas 0 ls) -> ls !! i = Some l ->
  R 4 (Z.of_nat i * 4) fs = (Ret (be_put 4 (uint32 (len (enc (take i ls)))), None), fs).
Proof.
  intros HR E. pose proof (HR _ _ _ (metas_split ls i l E)) as H. rewrite be_put_length, metas_length, length_take_le in H by (apply lookup_lt_Some in E; lia).
  by replace (4 * Z.of_nat i) with (Z.of_nat i * 4) in H by lia.
Qed.

(** The log at [i] is read from its position. *)
Lemma log_read R fs ls i l r : reads_as R fs (enc ls ++ r) -> ls !! i = Some l -> wf_log l ->
  DecodeAt R (len (enc (take i ls))) fs = (Ret (inl l), fs).
Proof.
  intros HR E Hl. apply (DecodeAt_ok _ _ _ _ (enc (drop (S i) ls) ++ r)); [|done]. rewrite (enc_split _ _ _ E), <- !app_assoc in HR. exact HR.
Qed.

Lemma head_read R fs ls i l r : reads_as R fs (enc ls ++ r) -> ls !! i = Some l -> wf_log l ->
  decodeLogHead R (len (enc (take i ls))) fs = (Ret (inl (with_data l [], len (enc (take (S i) ls)))), fs).
Proof.
  intros HR E Hl. unfold decodeLogHead, mbind, SM_bind. rewrite (DecodeHeadAt_ok R fs (enc (take i ls)) l (LogData l ++ enc (drop (S i) ls) ++ r)); [|by rewrite (enc_split _ _ _ E), Encode_head, <- !app_assoc in HR|done].
  rewrite (take_S_r _ _ _ E), enc_app, enc_one, length_app, Nat2Z.inj_add, Encode_length. unfold log_Size. cbn [mret SM_ret]. by rewrite Z.add_assoc.
Qed.

(** ** Readers *)

(** The reader of a closed table with the logs [ls]. *)
Record reader_at (fs : FS) (t : tableReader) (ls : list Log) : Prop := {
  ra_ne : ls <> [];
  ra_index : 0 < tr_index t;
  ra_files : table_files fs (tr_index t) ls;
  ra_first : tr_first t = first_id ls;
  ra_last : tr_last t = last_id ls;
  ra_time : tr_lastTime t = last_time ls;
  ra_data : forall f, tr_data t = Some f -> rf_name f = DataName (tr_index t);
  ra_meta : forall f, tr_meta t = Some f -> rf_name f = MetaName (tr_index t)
}.

Lemma reader_same fs fs' t ls : fs' !! DataName (tr_index t) = fs !! DataName (tr_index t) ->
  fs' !! MetaName (tr_index t) = fs !! MetaName (tr_index t) -> reader_at fs t ls -> reader_at fs' t ls.
Proof. intros E1 E2 [H1 H2 [H3 H4 H5] H6 H7 H8 H9 H10]. split; try done. split; [done|by rewrite E1|by rewrite E2]. Qed.

Lemma getLogPos_ok meta fs ls i l r : starts_ok ls -> fs !! rf_name meta = Some (metas 0 ls ++ r) -> ls !! i = Some l ->
  getLogPos meta (Z.of_nat i) fs = (Ret (inl (len (enc (take i ls)))), fs).
Proof.
  intros Hs E Hi. unfold getLogPos, mbind, SM_bind. rewrite (pos_read _ _ _ _ _ (rf_reads _ _ _ _ E) Hi).
  cbn [mret SM_ret]. by rewrite uint32_pos by (done || by eapply lookup_lt_Some).
Qed.

Lemma newReadFile_ok fs useMmap name f : fs !! name = Some f -> newReadFile useMmap name fs = (Ret (inl (mkRF useMmap name)), fs).
Proof. intros E. unfold newReadFile, looks. by rewrite E. Qed.

Lemma openTable_ok fs t ls : reader_at fs t ls -> exists data meta,
  openTable t fs = (Ret (inl (set_files (Some data) (Some meta) t)), fs) /\ rf_name data = DataName (tr_index t) /\ rf_name meta = MetaName (tr_index t).
Proof.
  intros [_ _ [_ Hd Hm] _ _ _ HD HM]. unfold openTable, mbind, SM_bind.
  pose proof (newReadFile_ok fs (tr_useMmap t) _ _ Hd) as ED. pose proof (newReadFile_ok fs (tr_useMmap t) _ _ Hm) as EM.
  unfold mret, SM_ret. destruct (tr_data t) as [d|]; [|rewrite ED]; cbv beta iota; (destruct (tr_meta t) as [m|]; [|rewrite EM]); do 2 eexists; (split; [done|]); auto.
Qed.

Lemma tr_GetLog_ok fs now id t ls : reader_at fs t ls -> chain ls -> first_id ls <= id <= last_id ls -> exists l t',
  tr_GetLog now id t fs = (Ret (t', inl l), fs) /\ l ∈ ls /\ ID l = id /\ reader_at fs t' ls /\ tr_index t' = tr_index t.
Proof.
  intros Hr Hc Hid. pose proof Hr as [Hne Hi [Hs Hd Hm] Hf Hl Ht HD HM]. destruct (chain_find ls id Hc Hne Hid) as (l & El & EI & Hw).
  unfold tr_GetLog. rewrite Hf, Hl, (proj2 (Z.ltb_ge _ _)), Z.gtb_ltb, (proj2 (Z.ltb_ge _ _)) by lia. cbn [orb].
  assert (Hr' : reader_at fs (set_read now t) ls) by (by split). destruct (openTable_ok _ _ _ Hr') as (data & meta & EO & ND & NM).
  unfold mbind, SM_bind. rewrite EO. cbn [set_files set_read tr_data tr_meta tr_first tr_index] in *. rewrite Hf.
  replace (id - first_id ls) with (Z.of_nat (Z.to_nat (id - first_id ls))) by lia. set (i := Z.to_nat (id - first_id ls)) in *.
  rewrite (getLogPos_ok meta fs ls i l []); [|done|by rewrite NM, app_nil_r|done].
  rewrite (log_read (rf_ReadAt data) fs ls i l magic); [|eapply rf_reads with (r := []); by rewrite ND, app_nil_r|done|done].
  cbn [mret SM_ret]. rewrite EI, Z.eqb_refl. cbn [negb]. eexists l, _. split; [done|]. split; [by eapply list_elem_of_lookup_2|]. split; [done|].
  split; [|done]. split; try done; cbn; by intros f [= <-].
Qed.

Lemma magic_length : len magic = 20.
Proof. done. Qed.

Lemma checkData_ok fs index x : fs !! DataName index = Some (x ++ magic) -> checkData index fs = (Ret (inl (mkRF false (DataName index))), fs).
Proof.
  intros E. unfold checkData, mbind, SM_bind. rewrite (newReadFile_ok _ _ _ _ E). unfold rf_Size, looks. cbn [rf_name].
  rewrite (content_some _ _ _ E). rewrite (proj2 (Z.ltb_ge _ _)) by (rewrite length_app; lia).
  replace (len (x ++ magic) - len magic) with (len x) by (rewrite length_app; lia).
  assert (HR : reads_as (rf_ReadAt (mkRF false (DataName index))) fs (x ++ magic)) by (eapply rf_reads with (r := []); by rewrite app_nil_r).
  rewrite (HR x magic []) by (by rewrite app_nil_r). by rewrite bool_decide_true.
Qed.

Lemma checkMeta_ok fs index ls : ls <> [] -> fs !! MetaName index = Some (metas 0 ls) -> checkMeta index fs = (Ret (inl (mkRF false (MetaName index))), fs).
Proof.
  intros Hne E. unfold checkMeta, mbind, SM_bind. rewrite (newReadFile_ok _ _ _ _ E). unfold rf_Size, looks. cbn [rf_name].
  rewrite (content_some _ _ _ E), metas_length, Z.mul_comm, Z.mod_mul by lia. cbn [Z.eqb negb orb].
  rewrite (proj2 (Z.eqb_neq _ _)); [done|]. destruct ls; [done|]. simpl. lia.
Qed.

Lemma last_index (ls : list Log) : ls <> [] -> exists l, last ls = Some l /\ ls !! pred (length ls) = Some l.
Proof. intros Hne. rewrite last_lookup. destruct (ls !! pred (length ls)) as [l|] eqn:E; [by exists l|]. apply lookup_ge_None in E. destruct ls; [done|simpl in E; lia]. Qed.

Lemma tr_check_ok fs index ls : ls <> [] -> chain ls -> table_files fs index ls ->
  tr_check index fs = (Ret ((first_id ls, last_id ls, last_time ls), None), fs).
Proof.
  intros Hne Hc [Hs Hd Hm]. unfold tr_check, mbind at 1, SM_bind at 1. rewrite (checkMeta_ok _ _ _ Hne Hm).
  unfold mbind, SM_bind. rewrite (checkData_ok _ _ _ Hd). destruct (last_index ls Hne) as (lz & Ez & Hz).
  assert (H0 : exists l0, ls !! 0%nat = Some l0) by (destruct ls; [done|eauto]). destruct H0 as [l0 H0].
  rewrite <- (app_nil_r (metas 0 ls)) in Hm. set (meta := mkRF false (MetaName index)). set (data := mkRF false (DataName index)).
  change 0 with (Z.of_nat 0) at 1. rewrite (getLogPos_ok meta fs ls 0 l0 [] Hs Hm H0). unfold rf_Size, looks. cbn [rf_name meta data].
  rewrite (content_some _ _ _ Hm), app_nil_r, metas_length, (Z.mul_comm 4), Z.div_mul by lia.
  replace (len ls - 1) with (Z.of_nat (pred (length ls))) by (apply lookup_lt_Some in H0; lia).
  rewrite (getLogPos_ok meta fs ls (pred (length ls)) lz [] Hs Hm Hz). assert (T0 : len (enc (take 0 ls)) = 0) by done. rewrite T0. cbn [Z.eqb negb].
  destruct (chain_ids _ _ _ Hc H0) as [I0 W0]. destruct (chain_ids _ _ _ Hc Hz) as [Iz Wz].
  assert (HR : reads_as (rf_ReadAt data) fs (enc ls ++ magic)) by (eapply rf_reads with (r := []); by rewrite app_nil_r).
  pose proof (head_read _ _ _ _ _ _ HR H0 W0) as E0. rewrite T0 in E0. rewrite E0.
  rewrite (head_read _ _ _ _ _ _ HR Hz Wz). rewrite (content_some _ _ _ Hd). apply lookup_lt_Some in H0.
  rewrite take_ge by lia. rewrite length_app, Nat2Z.inj_add, Z.eqb_refl. cbn [negb with_data ID CreateTime mret SM_ret].
  rewrite I0, Iz, Z.gtb_ltb, (proj2 (Z.ltb_ge _ _)) by lia. pose proof (wl_id _ Wz). pose proof (wl_id _ W0).
  rewrite uwrap_small by lia. rewrite (proj2 (Z.eqb_eq _ _)) by lia. cbn [negb]. unfold last_time, last_id. rewrite Ez, <- Iz. by replace (first_id ls + Z.of_nat 0) with (first_id ls) by lia.
Qed.

(** Opening a table that was closed finds its range. *)
Lemma newTableReader_ok fs index useMmap ls : 0 < index -> ls <> [] -> chain ls -> table_files fs index ls -> exists t,
  newTableReader index useMmap fs = (Ret (inl t), fs) /\ tr_index t = index /\ reader_at fs t ls.
Proof.
  intros Hi Hne Hc Hf. unfold newTableReader. rewrite (proj2 (Z.leb_gt _ _)) by lia. unfold mbind, SM_bind. rewrite (tr_check_ok _ _ _ Hne Hc Hf).
  eexists. split; [done|]. split; [done|]. by split.
Qed.

(** ** Writers *)

(** The file holds [x] and, behind it, the zeros of a mapping. *)
Definition keeps_bytes (fs : FS) (m : writeFile) (x : bytes) : Prop :=
  exists k, 0 <= k /\ (wf_mmap m = false -> k = 0) /\ holds fs m x (zeros k).

Lemma keeps_same fs fs' m x : fs' !! wf_name m = fs !! wf_name m -> keeps_bytes fs m x -> keeps_bytes fs' m x.
Proof. intros E (k & Hk & Hm & Ho & Hh). exists k. split; [done|]. split; [done|]. split; [done|by rewrite E]. Qed.

Lemma Write_keeps fs m x b : keeps_bytes fs m x -> exists fs', let m' := SetOffset (len (x ++ b)) m in
  wf_Write m b fs = (Ret m', fs') /\ keeps_bytes fs' m' (x ++ b) /\ same_but (wf_name m) fs fs'.
Proof.
  intros (k & Hk & Hm & Hh). destruct (Write_holds m b fs x _ Hh) as (k' & fs' & E & Hk' & Hm' & Hh' & Hs). exists fs'. split; [done|]. split; [|done].
  exists (Z.max 0 (k + k' - len b)). split; [lia|]. split; [intros H; specialize (Hm H); specialize (Hm' H); lia|].
  rewrite zeros_app, zeros_drop in Hh' by done. destruct (decide (k + k' - len b <= 0)).
  - rewrite zeros_neg in Hh' by done. by rewrite zeros_neg by lia.
  - by rewrite Z.max_r by lia.
Qed.

(** The files of the tables but those of [index] are the same. *)
Definition only_table (index : Z) (fs fs' : FS) : Prop := forall n, n <> DataName index -> n <> MetaName index -> fs' !! n = fs !! n.

Lemma only_table_refl index fs : only_table index fs fs.
Proof. by intros n. Qed.

Lemma only_table_trans index fs1 fs2 fs3 : only_table index fs1 fs2 -> only_table index fs2 fs3 -> only_table index fs1 fs3.
Proof. intros H1 H2 n Hd Hm. rewrite H2, H1 by done. done. Qed.

Lemma only_data index fs fs' : same_but (DataName index) fs fs' -> only_table index fs fs'.
Proof. intros H n Hd _. by apply H. Qed.

Lemma only_meta index fs fs' : same_but (MetaName index) fs fs' -> only_table index fs fs'.
Proof. intros H n _ Hm. by apply H. Qed.

(** The writer of a table with the logs [ls]. *)
Record writer_open (fs : FS) (w : tableWriter) (data meta : writeFile) (ls : list Log) : Prop := {
  wo_data : tw_data w = Some data;
  wo_meta : tw_meta w = Some meta;
  wo_names : wf_name data = DataName (tw_index w) /\ wf_name meta = MetaName (tw_index w);
  wo_starts : starts_ok ls;
  wo_enc : keeps_bytes fs data (enc ls);
  wo_metas : keeps_bytes fs meta (metas 0 ls);
  wo_first : tw_first w = first_id ls;
  wo_last : tw_last w = last_id ls;
  wo_time : ls <> [] -> tw_lastTime w = last_time ls
}.

(** The writer of a table that does not exist yet. *)
Record writer_new (fs : FS) (w : tableWriter) : Prop := {
  wn_files : tw_data w = None /\ tw_meta w = None;
  wn_absent : fs !! DataName (tw_index w) = None /\ fs !! MetaName (tw_index w) = None;
  wn_range : tw_first w = 0 /\ tw_last w = 0
}.

Record writer_at (fs : FS) (w : tableWriter) (ls : list Log) : Prop := {
  wa_open : tw_closed w = false;
  wa_index : 0 < tw_index w;
  wa_size : 0 <= tw_maxLogSize w <= 2 ^ 30;
  wa_files : (ls <> [] /\ exists data meta, writer_open fs w data meta ls) \/ (ls = [] /\ writer_new fs w)
}.

Lemma openFile_new fs w : writer_new fs w -> 0 <= tw_maxLogSize w -> exists fs' data meta,
  openFile w fs = (Ret (with_files (Some data) (Some meta) w), fs') /\ writer_open fs' (with_files (Some data) (Some meta) w) data meta [] /\
  only_table (tw_index w) fs fs' /\ wf_mmap data = tw_useMmap w.
Proof.
  intros [[E1 E2] [N1 N2] [R1 R2]] Hs. unfold openFile, mbind, SM_bind. rewrite E1, E2.
  assert (0 <= Z.quot (tw_maxLogSize w) 10) by (apply Z.quot_pos; lia).
  destruct (newWriteFile_holds (tw_useMmap w) (DataName (tw_index w)) (tw_maxLogSize w + Z.quot (tw_maxLogSize w) 10 + len magic) fs N1 ltac:(rewrite magic_length; lia))
    as (k1 & fs1 & EW1 & Hk1 & Hm1 & H1 & S1). rewrite EW1.
  destruct (newWriteFile_holds (tw_useMmap w) (MetaName (tw_index w)) (defaultLogNumInFile * 4) fs1 ltac:(by rewrite S1) ltac:(done))
    as (k2 & fs2 & EW2 & Hk2 & Hm2 & H2 & S2). rewrite EW2. exists fs2. do 2 eexists. split; [done|]. split; [|split].
  - split; try done; [by intros i Hi%Nat.nlt_0_r| |by exists k2].
    exists k1. split; [done|]. split; [done|]. destruct H1 as [Ho H1]. split; [done|]. etransitivity; [by apply S2|exact H1].
  - intros n Hd Hm. rewrite S2, S1 by done. done.
  - done.
Qed.

Lemma wf_Encode_keeps fs m x l : keeps_bytes fs m x -> exists fs', let m' := SetOffset (len (x ++ Encode l)) m in
  wf_Encode l m fs = (Ret m', fs') /\ keeps_bytes fs' m' (x ++ Encode l) /\ same_but (wf_name m) fs fs'.
Proof.
  intros Hk. unfold wf_Encode, mbind, SM_bind. destruct (Write_keeps fs m x (head_of l) Hk) as (fs1 & E1 & K1 & S1). rewrite E1.
  destruct (Write_keeps fs1 _ _ (LogData l) K1) as (fs2 & E2 & K2 & S2). rewrite E2. exists fs2. rewrite Encode_head, app_assoc. split; [done|]. split; [done|].
  intros n Hn. rewrite S2, S1 by done. done.
Qed.

(** Appending a log to an open table. *)
Lemma append_open fs w data meta ls l : writer_open fs w data meta ls -> len (enc ls) < 2 ^ 32 ->
  (ls = [] \/ 0 < first_id ls) -> wf_log l -> exists fs' w',
  (offsetPos ← mret (wf_offset data);
   data ← wf_Encode l data;
   meta ← wf_Write meta (be_put 4 (uint32 offsetPos));
   mret (mkTW (Some data) (Some meta) (tw_index w) (if tw_first w =? 0 then ID l else tw_first w) (ID l) (CreateTime l)
                (tw_maxLogSize w) (tw_closed w) (tw_syncType w) (tw_useMmap w), None : option error)) fs = (Ret (w', None), fs') /\
  (exists data' meta', writer_open fs' w' data' meta' (ls ++ [l])) /\ only_table (tw_index w) fs fs' /\
  tw_index w' = tw_index w /\ tw_closed w' = tw_closed w /\ tw_maxLogSize w' = tw_maxLogSize w.
Proof.
  intros [E1 E2 [N1 N2] Hs K1 K2 HF HL HT] Hlen Hf Hl. unfold mbind, SM_bind, mret, SM_ret.
  destruct (wf_Encode_keeps fs data _ l K1) as (fs1 & EW1 & K1' & S1). rewrite EW1.
  pose proof K1 as (k & _ & _ & Ho & _). rewrite Ho.
  assert (K2' : keeps_bytes fs1 meta (metas 0 ls)) by (eapply keeps_same; [|exact K2]; rewrite S1; [done|by rewrite N1, N2]).
  destruct (Write_keeps fs1 meta _ (be_put 4 (uint32 (len (enc ls)))) K2') as (fs2 & EW2 & K2'' & S2). rewrite EW2.
  exists fs2. eexists. split; [done|]. split; [|split; [|done]].
  - do 2 eexists. split; cbn [tw_data tw_meta tw_index tw_first tw_last tw_lastTime]; try done.
    + by apply starts_snoc.
    + rewrite enc_app, enc_one. eapply keeps_same; [|exact K1']. apply S2. cbn [wf_name SetOffset]. by rewrite N1, N2.
    + rewrite metas_app, Z.add_0_l. cbn [metas]. by rewrite app_nil_r.
    + rewrite HF. destruct ls as [|l0 ls]; [done|]. destruct Hf as [|Hf]; [done|]. rewrite (proj2 (Z.eqb_neq _ _)) by lia. done.
    + unfold last_id. by rewrite last_snoc.
    + intros _. unfold last_time. by rewrite last_snoc.
  - intros n Hd Hm. rewrite S2, S1; [done|by rewrite N1|by rewrite N2].
Qed.

Lemma chain_wf_last ls l : chain (ls ++ [l]) -> wf_log l.
Proof. intros [H _]. apply Forall_app in H as [_ H]. by apply Forall_cons in H as [H _]. Qed.

Lemma chain_first_pos ls : chain ls -> ls = [] \/ 0 < first_id ls.
Proof. destruct ls as [|l ls]; [by left|]. intros [Hw _]. right. apply Forall_cons in Hw as [[H _ _ _] _]. cbn. lia. Qed.

Lemma writer_last fs w ls : writer_at fs w ls -> tw_first w = first_id ls /\ tw_last w = last_id ls.
Proof. intros [_ _ _ [(_ & data & meta & H)|(-> & H)]]; [destruct H|destruct H as [_ _ []]]; done. Qed.

(** [l] may follow the logs of the writer. *)
Lemma id_accepted fs w ls l : writer_at fs w ls -> chain (ls ++ [l]) -> (tw_last w >? 0) && negb (ID l =? uint64 (tw_last w + 1)) = false.
Proof.
  intros Hw Hc. destruct (writer_last _ _ _ Hw) as [_ ->]. destruct (decide (ls = [])) as [->|Hne]; [done|].
  pose proof (chain_next ls [l] Hc Hne ltac:(done)) as E. cbn [first_id] in E.
  pose proof (chain_wf_last _ _ Hc) as Hl. pose proof (wl_id _ Hl). pose proof (last_id_bound _ (chain_app_l _ _ Hc)).
  rewrite uwrap_small by lia. rewrite (proj2 (Z.eqb_eq _ _)) by lia. apply andb_false_r.
Qed.

(** The table is full: [storeLog] asks for a flush. *)
Definition full (w : tableWriter) : bool := match tw_data w with Some data => wf_offset data >? tw_maxLogSize w | None => false end.

Lemma store_full fs w ls l : writer_at fs w ls -> chain (ls ++ [l]) -> full w = true -> tw_storeLog l w fs = (Ret (w, Some errTableNeedFlush), fs).
Proof.
  intros Hw Hc Hf. pose proof (chain_wf_last _ _ Hc) as Hl. unfold tw_storeLog.
  rewrite (proj2 (Z.eqb_neq _ _)) by (pose proof (wl_id _ Hl); lia). rewrite (wa_open _ _ _ Hw), (id_accepted _ _ _ _ Hw Hc).
  unfold full in Hf. by rewrite Hf.
Qed.

Lemma store_ok fs w ls l : writer_at fs w ls -> chain (ls ++ [l]) -> full w = false -> exists w' fs',
  tw_storeLog l w fs = (Ret (w', None), fs') /\ writer_at fs' w' (ls ++ [l]) /\ tw_index w' = tw_index w /\ only_table (tw_index w) fs fs'.
Proof.
  intros Hw Hc Hf. pose proof (chain_wf_last _ _ Hc) as Hl. unfold tw_storeLog.
  rewrite (proj2 (Z.eqb_neq _ _)) by (pose proof (wl_id _ Hl); lia). rewrite (wa_open _ _ _ Hw), (id_accepted _ _ _ _ Hw Hc).
  pose proof Hw as [Ho Hi Hs HF]. pose proof (chain_first_pos ls (chain_app_l _ _ Hc)) as Hp.
  unfold full in Hf. rewrite Hf. destruct HF as [(Hne & data & meta & HO)|[-> HN]].
  - assert (openFile w fs = (Ret w, fs)) as EO.
    { unfold openFile, mbind, SM_bind, mret, SM_ret. rewrite (wo_data _ _ _ _ _ HO), (wo_meta _ _ _ _ _ HO). destruct HO as [E1 E2 _ _ _ _ _ _ _].
      unfold with_files. destruct w. cbn in *. by rewrite E1, E2. }
    unfold mbind at 1, SM_bind at 1. rewrite EO. rewrite (wo_data _ _ _ _ _ HO), (wo_meta _ _ _ _ _ HO) in *.
    assert (len (enc ls) < 2 ^ 32). { destruct (wo_enc _ _ _ _ _ HO) as (k & _ & _ & Eo & _). zify_bool. lia. }
    destruct (append_open fs w data meta ls l HO ltac:(done) Hp Hl) as (fs' & w' & E & (d' & m' & HO') & Ho' & I1 & I2 & I3).
    exists w', fs'. split; [exact E|]. split; [|done]. split; [by rewrite I2|by rewrite I1|by rewrite I3|]. left. split; [by destruct ls|]. by exists d', m'.
  - destruct (openFile_new fs w HN ltac:(lia)) as (fs1 & data & meta & EO & HO & HT & _). unfold mbind at 1, SM_bind at 1. rewrite EO.
    set (w1 := with_files (Some data) (Some meta) w) in *. change (tw_data w1) with (Some data). change (tw_meta w1) with (Some meta).
    destruct (append_open fs1 w1 data meta [] l HO ltac:(done) Hp Hl) as (fs' & w' & E & (d' & m' & HO') & Ho' & I1 & I2 & I3).
    exists w', fs'. split; [exact E|]. split; [|split; [done|by eapply only_table_trans]]. split; [by rewrite I2|by rewrite I1|by rewrite I3|]. left. split; [done|]. by exists d', m'.
Qed.

(** Closing a table. *)
Lemma close_ok fs w data meta ls : writer_open fs w data meta ls -> exists fs',
  tw_close w fs = (Ret (with_files None None w), fs') /\ table_files fs' (tw_index w) ls /\ only_table (tw_index w) fs fs'.
Proof.
  intros [E1 E2 [N1 N2] Hs K1 K2 _ _ _]. unfold tw_close, mbind, SM_bind. rewrite E1, E2.
  destruct K2 as (k2 & _ & _ & H2). destruct (Close_holds meta fs _ _ H2) as (fs1 & EC1 & C1 & S1). rewrite EC1.
  assert (K1' : keeps_bytes fs1 data (enc ls)) by (eapply keeps_same; [|exact K1]; rewrite S1; [done|by rewrite N1, N2]).
  destruct (Write_keeps fs1 data _ magic K1') as (fs2 & EW & K3 & S2). rewrite EW. destruct K3 as (k3 & _ & _ & H3).
  destruct (Close_holds _ fs2 _ _ H3) as (fs3 & EC3 & C3 & S3). rewrite EC3. cbn [wf_name SetOffset] in *. exists fs3. split; [done|]. split.
  - split; [done|by rewrite <- N1|]. rewrite <- N2, S3, S2, C1; [done|by rewrite N1, N2..].
  - intros n Hd Hm. rewrite S3, S2, S1; [done|by rewrite N2|by rewrite N1..].
Qed.

Lemma Flush_ok fs w ls : writer_at fs w ls -> ls <> [] -> exists w' t fs', tw_Flush w fs = (Ret (w', inl t), fs') /\
  reader_at fs' t ls /\ tr_index t = tw_index w /\ only_table (tw_index w) fs fs' /\
  w' = mkTW None None (tw_index w + 1) 0 0 (tw_lastTime w) (tw_maxLogSize w) (tw_closed w) (tw_syncType w) (tw_useMmap w).
Proof.
  intros [Ho Hi Hs HF] Hne. destruct HF as [(_ & data & meta & HO)|[-> _]]; [|done]. unfold tw_Flush.
  rewrite (wo_data _ _ _ _ _ HO), (wo_meta _ _ _ _ _ HO). destruct (close_ok _ _ _ _ _ HO) as (fs' & EC & HT & HO'). unfold mbind, SM_bind. rewrite EC.
  do 2 eexists. exists fs'. split; [done|]. destruct HO. split; [|by auto]. split; try done. by auto.
Qed.

(** Reading from the table that is written. *)
Lemma tw_GetLog_found fs w ls id : writer_at fs w ls -> chain ls -> ls <> [] -> first_id ls <= id <= last_id ls ->
  exists l, tw_GetLog id w fs = (Ret (inl l), fs) /\ l ∈ ls /\ ID l = id.
Proof.
  intros Hw Hc Hne Hid. destruct (writer_last _ _ _ Hw) as [F L]. destruct Hw as [_ _ _ HF]. destruct HF as [(_ & data & meta & HO)|[-> _]]; [|done].
  destruct (chain_find ls id Hc Hne Hid) as (l & El & EI & Wl). unfold tw_GetLog. rewrite F, L, (proj2 (Z.ltb_ge _ _)), Z.gtb_ltb, (proj2 (Z.ltb_ge _ _)) by lia.
  cbn [orb]. destruct HO as [E1 E2 [N1 N2] Hs (k1 & _ & _ & K1) (k2 & _ & _ & K2) _ _ _]. rewrite E1, E2.
  replace (id - first_id ls) with (Z.of_nat (Z.to_nat (id - first_id ls))) by lia. set (i := Z.to_nat (id - first_id ls)) in *.
  unfold mbind, SM_bind. rewrite (pos_read _ _ _ _ _ (wf_reads _ _ _ _ K2) El). rewrite uint32_pos by (done || by eapply lookup_lt_Some).
  rewrite (log_read (wf_ReadAt data) fs ls i l []); [|rewrite app_nil_r; by eapply wf_reads|done|done].
  cbn [mret SM_ret]. rewrite EI, Z.eqb_refl. cbn [negb]. exists l. split; [done|]. split; [by eapply list_elem_of_lookup_2|done].
Qed.

Lemma tw_GetLog_none fs w ls id : writer_at fs w ls -> id < first_id ls \/ last_id ls < id -> tw_GetLog id w fs = (Ret (inr ErrLogNotFound), fs).
Proof.
  intros Hw Hid. destruct (writer_last _ _ _ Hw) as [F L]. unfold tw_GetLog. rewrite F, L.
  assert ((id <? first_id ls) || (id >? last_id ls) = true) as ->; [|done]. apply orb_true_iff. rewrite Z.gtb_ltb, !Z.ltb_lt. lia.
Qed.

(** ** Repair *)

(** Nothing that looks like a log begins here: too few bytes for a head, or zeros. *)
Definition no_log (b : bytes) : Prop := len b < LogHeadSize \/ exists n, b = zeros n.

Lemma no_log_nil : no_log [].
Proof. by left. Qed.

Lemma repair_stop fuel fs data meta first last lastTime pos f : wf_mmap data = false -> fs !! wf_name data = Some f -> no_log (drop (Z.to_nat pos) f) ->
  repair_loop (S fuel) data meta first last lastTime pos fs = (Ret (Some (meta, (first, last, lastTime), pos)), fs).
Proof.
  intros Hm E Hn. cbn [repair_loop]. unfold decodeLogHead, DecodeHeadAt, wf_ReadAt, file_ReadAt, looks, mbind, SM_bind. rewrite Hm, (content_some _ _ _ E).
  unfold read_at. set (t := drop (Z.to_nat pos) f) in *. destruct (decide (len t < LogHeadSize)) as [Hl|Hl].
  - rewrite take_ge by lia. rewrite (proj2 (Z.ltb_lt _ _)) by lia. cbn [mret SM_ret]. rewrite (proj2 (Z.eqb_neq _ _)) by lia. done.
  - destruct Hn as [|[n Hn]]; [done|]. assert (take (Z.to_nat LogHeadSize) t = zeros 17) as ->.
    { rewrite Hn. unfold zeros in *. rewrite take_replicate. f_equal. rewrite Hn, length_replicate in Hl. unfold LogHeadSize in *. lia. }
    done.
Qed.

(** A round that reads the head of [l]. *)
Lemma repair_step fuel fs data meta first last lastTime pre l post x r :
  wf_mmap data = false -> fs !! wf_name data = Some (pre ++ head_of l ++ post) -> wf_log l -> (last = 0 \/ last < ID l) -> holds fs meta x r ->
  let meta' := SetOffset (len (x ++ be_put 4 (uint32 (len pre)))) meta in exists fs',
  repair_loop (S fuel) data meta first last lastTime (len pre) fs =
    repair_loop fuel data meta' (if first =? 0 then ID l else first) (ID l) (CreateTime l) (len pre + log_Size l) fs' /\
  holds fs' meta' (x ++ be_put 4 (uint32 (len pre))) (drop 4 r) /\ same_but (wf_name meta) fs fs'.
Proof.
  intros Hm E Hl Hid Hh. destruct (put_holds meta (be_put 4 (uint32 (len pre))) fs x r Hh) as (fs' & EP & Hh' & Hs). exists fs'.
  split; [|split; [by rewrite be_put_length in Hh'|done]]. cbn [repair_loop]. unfold decodeLogHead, mbind, SM_bind.
  rewrite (DecodeHeadAt_ok (wf_ReadAt data) fs pre l post); [|unfold wf_ReadAt; rewrite Hm; eapply file_reads with (r := []); by rewrite app_nil_r|done].
  cbn [mret SM_ret with_data ID CreateTime]. rewrite (proj2 (Z.eqb_neq (ID l) 0)) by (pose proof (wl_id _ Hl); lia).
  assert (negb (last =? 0) && (ID l <=? last) = false) as ->.
  { destruct Hid as [->|Hid]; [done|]. rewrite (proj2 (Z.leb_gt _ _)) by lia. apply andb_false_r. }
  rewrite EP. unfold log_Size. by rewrite Z.add_assoc.
Qed.

(** The rounds that read complete logs. *)
Lemma repair_logs ls : forall pre fuel fs data meta lastTime tail r,
  wf_mmap data = false -> wf_name meta <> wf_name data -> chain (pre ++ ls) -> fs !! wf_name data = Some (enc (pre ++ ls) ++ tail) -> holds fs meta (metas 0 pre) r ->
  exists fs' meta' r',
  repair_loop (length ls + fuel) data meta (first_id pre) (last_id pre) lastTime (len (enc pre)) fs =
    repair_loop fuel data meta' (first_id (pre ++ ls)) (last_id (pre ++ ls)) (match last ls with Some l => CreateTime l | None => lastTime end) (len (enc (pre ++ ls))) fs' /\
  wf_name meta' = wf_name meta /\ holds fs' meta' (metas 0 (pre ++ ls)) r' /\ same_but (wf_name meta) fs fs'.
Proof.
  induction ls as [|l ls IH]; intros pre fuel fs data meta lastTime tail r Hm Hn Hc E Hh.
  { exists fs, meta, r. rewrite app_nil_r. split; [done|]. split; [done|]. split; [done|]. by intros n. }
  assert (E' : fs !! wf_name data = Some (enc pre ++ head_of l ++ LogData l ++ enc ls ++ tail)).
  { rewrite E, enc_app, enc_cons, Encode_head, <- !app_assoc. done. }
  assert (Hc' : chain ((pre ++ [l]) ++ ls)) by (by rewrite <- app_assoc). pose proof (chain_app_l _ _ Hc') as Hcl. pose proof (chain_wf_last _ _ Hcl) as Hl.
  assert (Hid : last_id pre = 0 \/ last_id pre < ID l).
  { destruct (decide (pre = [])) as [->|Hne]; [by left|]. right. pose proof (chain_next pre [l] Hcl Hne ltac:(done)) as X. cbn [first_id] in X. lia. }
  destruct (repair_step (length ls + fuel) fs data meta (first_id pre) (last_id pre) lastTime (enc pre) l _ (metas 0 pre) r Hm E' Hl Hid Hh) as (fs1 & E1 & H1 & S1).
  rewrite (app_assoc pre [l] ls : pre ++ l :: ls = _) in E |- *.
  destruct (IH (pre ++ [l]) fuel fs1 data (SetOffset (len (metas 0 pre ++ be_put 4 (uint32 (len (enc pre))))) meta) (CreateTime l) tail (drop 4 r))
    as (fs2 & meta2 & r2 & E2 & N2 & H2 & S2); [done|done|done|by rewrite S1| |].
  { rewrite metas_app, Z.add_0_l. cbn [metas]. by rewrite app_nil_r. }
  exists fs2, meta2, r2. cbn [length Nat.add]. rewrite E1. split; [|split; [done|split; [done|intros n Hne; rewrite S2, S1 by done; done]]].
  assert (EN : len (enc (pre ++ [l])) = len (enc pre) + log_Size l) by (by rewrite enc_app, enc_one, length_app, Nat2Z.inj_add, Encode_length).
  assert (EL : last_id (pre ++ [l]) = ID l) by (unfold last_id; by rewrite last_snoc). rewrite EN, EL in E2.
  assert (EF : first_id (pre ++ [l]) = if first_id pre =? 0 then ID l else first_id pre).
  { destruct pre as [|p pre]; [done|]. destruct (chain_first_pos (p :: pre) (chain_app_l _ _ Hcl)) as [|Hp]; [done|]. rewrite (proj2 (Z.eqb_neq _ _)) by lia. done. }
  rewrite EF in E2. rewrite E2. rewrite last_cons. by destruct (last ls).
Qed.

(** What [repair] leaves of the data file. *)
Lemma finish_data f pos b : 0 <= pos -> truncate (write_at f pos b) (pos + len b) = take (Z.to_nat pos) f ++ zeros (pos - len f) ++ b.
Proof.
  intros Hp. unfold write_at. rewrite !app_assoc. set (x := (take (Z.to_nat pos) f ++ zeros (pos - len f)) ++ b).
  assert (pos + len b = len x) as ->; [|apply truncate_same]. subst x. rewrite !length_app, length_take. unfold zeros. rewrite length_replicate. lia.
Qed.

(** The logs [repair] keeps of a table whose last log [l] was cut after [k] bytes: the log
    too when its head is complete, with zeros for what is missing. *)
Definition recovered (ls : list Log) (l : Log) (k : Z) : list Log :=
  if k <? LogHeadSize then ls else ls ++ [with_data l (take (Z.to_nat (k - LogHeadSize)) (LogData l) ++ zeros (log_Size l - k))].

(** The data file of a table that was not closed: the logs [ls], [k] bytes of [l], and the
    zeros of a mapping.  A mapping is cut between two logs or behind a head. *)
Record torn_data (f : bytes) (ls : list Log) (l : Log) (k n : Z) : Prop := {
  td_file : f = enc ls ++ take (Z.to_nat k) (Encode l) ++ zeros n;
  td_k : 0 <= k <= log_Size l;
  td_n : 0 <= n;
  td_mmap : n = 0 \/ k = 0 \/ LogHeadSize <= k
}.

Lemma with_data_head l d : len d = len (LogData l) -> head_of (with_data l d) = head_of l.
Proof. intros E. unfold head_of, with_data. cbn [ID CreateTime Compression LogData]. by rewrite E. Qed.

Lemma padded_length l k : LogHeadSize <= k <= log_Size l -> len (take (Z.to_nat (k - LogHeadSize)) (LogData l) ++ zeros (log_Size l - k)) = len (LogData l).
Proof. unfold log_Size. intros Hk. rewrite length_app, length_take, Nat2Z.inj_add, zeros_length by lia. lia. Qed.

Lemma padded_wf l k : LogHeadSize <= k <= log_Size l -> wf_log l -> wf_log (with_data l (take (Z.to_nat (k - LogHeadSize)) (LogData l) ++ zeros (log_Size l - k))).
Proof. intros Hk [H1 H2 H3 H4]. split; try done. unfold with_data. cbn [LogData]. by rewrite padded_length. Qed.

Lemma padded_enc l k : LogHeadSize <= k <= log_Size l ->
  Encode (with_data l (take (Z.to_nat (k - LogHeadSize)) (LogData l) ++ zeros (log_Size l - k))) = take (Z.to_nat k) (Encode l) ++ zeros (log_Size l - k).
Proof.
  intros Hk. rewrite (Encode_head (with_data _ _)), with_data_head by (by apply padded_length). unfold with_data. cbn [LogData].
  rewrite (Encode_head l), take_app_ge by (pose proof (head_of_length l); lia). rewrite <- app_assoc. do 4 f_equal. pose proof (head_of_length l). lia.
Qed.

Lemma recovered_chain ls l k : 0 <= k <= log_Size l -> chain (ls ++ [l]) -> chain (recovered ls l k).
Proof.
  intros Hk Hc. unfold recovered. destruct (k <? LogHeadSize) eqn:E; zify_bool; [by eapply chain_app_l|].
  apply chain_snoc; [by eapply chain_app_l|apply padded_wf; [lia|by eapply chain_wf_last]|]. destruct (decide (ls = [])); [by left|right].
  pose proof (chain_next ls [l] Hc ltac:(done) ltac:(done)) as X. exact X.
Qed.

Lemma enc_min ls : 17 * len ls <= len (enc ls).
Proof. induction ls as [|l ls IH]; [done|]. rewrite enc_cons, length_app, Nat2Z.inj_add, Encode_length. cbn [length]. unfold log_Size, LogHeadSize. lia. Qed.

(** The loop on a torn table keeps [recovered], and ends where these logs end. *)
Lemma repair_loop_torn fs data meta lastTime ls l k n f r : torn_data f ls l k n -> chain (ls ++ [l]) -> wf_mmap data = false ->
  wf_name meta <> wf_name data -> fs !! wf_name data = Some f -> holds fs meta [] r -> exists fs' meta' r',
  repair_loop (S (Z.to_nat (len f))) data meta 0 0 lastTime 0 fs =
    (Ret (Some (meta', (first_id (recovered ls l k), last_id (recovered ls l k), match last (recovered ls l k) with Some l => CreateTime l | None => lastTime end),
      len (enc (recovered ls l k)))), fs') /\
  wf_name meta' = wf_name meta /\ holds fs' meta' (metas 0 (recovered ls l k)) r' /\ same_but (wf_name meta) fs fs'.
Proof.
  intros [Ef Hk Hn Hmm] Hc Hm Hne E Hh. pose proof (chain_app_l _ _ Hc) as Hcl. pose proof (chain_wf_last _ _ Hc) as Hl.
  pose proof (Encode_length l) as HEl. assert (Hlf : len f = len (enc ls) + k + n).
  { rewrite Ef, !length_app, !Nat2Z.inj_add, length_take, zeros_length by done. lia. }
  pose proof (enc_min ls) as Hmin. set (fuel := (Z.to_nat (len f) - length ls - 1)%nat).
  assert (HS : ((length ls + S (S fuel))%nat = S (Z.to_nat (len f)) /\ LogHeadSize <= k) \/ k < LogHeadSize).
  { destruct (decide (k < LogHeadSize)); [by right|left]. unfold LogHeadSize in *. subst fuel. lia. }
  assert (Ef0 : fs !! wf_name data = Some (enc ([] ++ ls) ++ take (Z.to_nat k) (Encode l) ++ zeros n)) by (by rewrite E, Ef).
  unfold recovered. destruct HS as [[HS Hk17]|Hk17].
  - rewrite (proj2 (Z.ltb_ge _ _)) by lia. rewrite <- HS.
    destruct (repair_logs ls [] (S (S fuel)) fs data meta lastTime _ r Hm Hne Hcl Ef0 Hh) as (fs1 & meta1 & r1 & E1 & N1 & H1 & S1).
    change (first_id []) with 0 in E1. change (last_id []) with 0 in E1. change (len (enc [])) with 0 in E1. cbn [app] in E1, H1. rewrite E1.
    assert (E2 : fs1 !! wf_name data = Some (enc ls ++ head_of l ++ take (Z.to_nat (k - LogHeadSize)) (LogData l) ++ zeros n)).
    { rewrite S1, Ef0 by done. cbn [app]. rewrite Encode_head, take_app_ge by (pose proof (head_of_length l); lia). rewrite <- !app_assoc. do 5 f_equal. pose proof (head_of_length l). lia. }
    assert (Hid : last_id ls = 0 \/ last_id ls < ID l).
    { destruct (decide (ls = [])) as [->|Hnl]; [by left|]. right. pose proof (chain_next ls [l] Hc Hnl ltac:(done)) as X. cbn [first_id] in X. lia. }
    destruct (repair_step (S fuel) fs1 data meta1 (first_id ls) (last_id ls) (match last ls with Some l => CreateTime l | None => lastTime end) (enc ls) l _ (metas 0 ls) r1 Hm E2 Hl Hid H1)
      as (fs2 & E3 & H2 & S2). rewrite E3. set (l' := with_data l _).
    rewrite (repair_stop fuel fs2 data _ _ _ _ _ f Hm); [|by rewrite S2, S1, E by (by rewrite ?N1)|].
    + exists fs2, (SetOffset (len (metas 0 ls ++ be_put 4 (uint32 (len (enc ls))))) meta1), (drop 4 r1). split; [|split; [done|split; [rewrite metas_app, Z.add_0_l; cbn [metas]; rewrite app_nil_r; exact H2|intros x Hx; rewrite S2, S1 by (by rewrite ?N1); done]]].
      assert (EN : len (enc (ls ++ [l'])) = len (enc ls) + log_Size l).
      { rewrite enc_app, enc_one, length_app, Nat2Z.inj_add, Encode_length. unfold log_Size. f_equal. f_equal. apply padded_length. lia. }
      assert (EF : first_id (ls ++ [l']) = if first_id ls =? 0 then ID l else first_id ls).
      { destruct ls as [|x ls']; [done|]. destruct (chain_first_pos (x :: ls') Hcl) as [|Hp]; [done|]. by rewrite (proj2 (Z.eqb_neq _ _)) by lia. }
      rewrite EN, EF. unfold last_id. by rewrite !last_snoc.
    + right. exists (n - (log_Size l - k)). rewrite Ef, app_assoc. rewrite drop_app_ge by (rewrite length_app, length_take; lia).
      rewrite zeros_drop, length_app, length_take. f_equal. lia.
  - rewrite (proj2 (Z.ltb_lt _ _)) by lia. replace (S (Z.to_nat (len f))) with (length ls + S (Z.to_nat (len f) - length ls))%nat by lia.
    destruct (repair_logs ls [] (S (Z.to_nat (len f) - length ls)) fs data meta lastTime _ r Hm Hne Hcl Ef0 Hh) as (fs1 & meta1 & r1 & E1 & N1 & H1 & S1).
    change (first_id []) with 0 in E1. change (last_id []) with 0 in E1. change (len (enc [])) with 0 in E1. cbn [app] in E1, H1. rewrite E1. rewrite (repair_stop _ fs1 data _ _ _ _ _ f Hm); [|by rewrite S1, E by done|].
    + by exists fs1, meta1, r1.
    + rewrite Ef, drop_app_len. destruct Hmm as [->|[->|?]]; [|by right; exists n|lia].
      left. change (zeros 0) with (@nil Z). rewrite app_nil_r, length_take. lia.
Qed.

Lemma recovered_enc ls l k n f : torn_data f ls l k n ->
  take (Z.to_nat (len (enc (recovered ls l k)))) f ++ zeros (len (enc (recovered ls l k)) - len f) = enc (recovered ls l k).
Proof.
  intros [-> Hk Hn _]. pose proof (Encode_length l) as HEl. unfold recovered. destruct (k <? LogHeadSize) eqn:E; zify_bool.
  - rewrite take_app_len, zeros_neg by (rewrite !length_app; lia). apply app_nil_r.
  - rewrite enc_app, enc_one, padded_enc by lia. rewrite !length_app, length_take, !Nat2Z.inj_add, zeros_length by lia.
    replace (Z.to_nat _) with (length (enc ls) + (length (take (Z.to_nat k) (Encode l)) + Z.to_nat (log_Size l - k)))%nat by (rewrite length_take; lia).
    rewrite take_app_add, take_app_add. rewrite <- !app_assoc. do 2 f_equal. unfold zeros. rewrite take_replicate, length_replicate, <- replicate_add. f_equal. lia.
Qed.

Lemma newRaw_holds fs name : exists r fs', newRawWriteFile name fs = (Ret (mkWF false name 0), fs') /\ holds fs' (mkWF false name 0) [] r /\
  (forall f, fs !! name = Some f -> r = f) /\ same_but name fs fs'.
Proof.
  unfold newRawWriteFile, os_create, mbind, SM_bind. destruct (fs !! name) as [f|] eqn:E.
  - exists f, fs. split; [done|]. split; [done|]. split; [by intros f' [= ->]|by intros n].
  - exists [], (<[name := []]> fs). split; [done|]. split; [split; [done|]; cbn [wf_name]; by rewrite lookup_insert_eq|]. split; [done|].
    intros n Hn. by rewrite lookup_insert_ne.
Qed.

Lemma repair_torn fs index lastTime ls l k n f : torn_data f ls l k n -> chain (ls ++ [l]) -> fs !! DataName index = Some f -> exists fs',
  repair index lastTime fs = (Ret (first_id (recovered ls l k), last_id (recovered ls l k), match last (recovered ls l k) with Some l => CreateTime l | None => lastTime end), fs') /\
  fs' !! DataName index = Some (enc (recovered ls l k) ++ magic) /\ fs' !! MetaName index = Some (metas 0 (recovered ls l k)) /\ only_table index fs fs'.
Proof.
  intros Ht Hc E. unfold repair, mbind, SM_bind. destruct (newRaw_holds fs (DataName index)) as (r1 & fs1 & E1 & [_ H1] & R1 & S1). rewrite E1.
  rewrite (R1 f E) in H1. cbn [app wf_name] in H1. unfold wf_Size, looks. cbn [wf_name]. rewrite (content_some _ _ _ H1).
  destruct (newRaw_holds fs1 (MetaName index)) as (r2 & fs2 & E2 & H2 & _ & S2). rewrite E2.
  assert (H1' : fs2 !! DataName index = Some f) by (by rewrite S2).
  destruct (repair_loop_torn fs2 (SetOffset (len f) (mkWF false (DataName index) 0)) (mkWF false (MetaName index) 0) lastTime ls l k n f r2 Ht Hc eq_refl ltac:(done) H1' H2)
    as (fs3 & meta' & r3 & E3 & N3 & H3 & S3). rewrite E3. cbn [wf_name] in N3, S3.
  destruct (Close_holds meta' fs3 _ _ H3) as (fs4 & E4 & H4 & S4). rewrite E4. rewrite N3 in H4, S4.
  assert (H1'' : fs4 !! DataName index = Some f) by (by rewrite S4, S3).
  unfold put_bytes, wf_Close, os_truncate. cbn [SetOffset wf_name wf_offset]. rewrite (content_some _ _ _ H1'').
  rewrite (content_some _ _ _ (lookup_insert_eq fs4 (DataName index) _)), finish_data by lia.
  rewrite app_assoc, (recovered_enc _ _ _ _ _ Ht). eexists. split; [done|]. split; [by rewrite lookup_insert_eq|]. split; [by rewrite !lookup_insert_ne|].
  intros x Hd Hm. rewrite !lookup_insert_ne by done. by rewrite S4, S3, S2, S1.
Qed.

(** ** A torn table does not pass the check *)

(** The head at [pos] of a file that is read as it is. *)
Definition raw_head (f : bytes) (pos : Z) : Log * Z + error :=
  let b := read_at f pos LogHeadSize in
  if len b <? LogHeadSize then inr EOF else inl ((decodeHeadBuf b).1, pos + LogHeadSize + (decodeHeadBuf b).2).

Lemma raw_head_eq fs name f pos : fs !! name = Some f -> decodeLogHead (rf_ReadAt (mkRF false name)) pos fs = (Ret (raw_head f pos), fs).
Proof.
  intros E. unfold decodeLogHead, DecodeHeadAt, rf_ReadAt, file_ReadAt, looks, mbind, SM_bind, mret, SM_ret. cbn [rf_mmap rf_name]. rewrite (content_some _ _ _ E).
  unfold raw_head. set (b := read_at f pos LogHeadSize). destruct (len b <? LogHeadSize) eqn:El.
  - zify_bool. by rewrite (proj2 (Z.eqb_neq _ _)) by lia.
  - by destruct (decodeHeadBuf b).
Qed.

(** What a table that passes the check has. *)
Definition passes_check (f g : bytes) : Prop := exists l1 n1 l2 n2,
  len g mod 4 = 0 /\ len g <> 0 /\ len magic <= len f /\ read_at f (len f - len magic) (len magic) = magic /\
  raw_head f 0 = inl (l1, n1) /\ raw_head f (be_get (read_at g ((len g / 4 - 1) * 4) 4)) = inl (l2, n2) /\
  n2 + len magic = len f /\ uint64 (ID l2 - ID l1 + 1) = len g / 4.

Lemma read_at_length f off n : 0 <= off -> 0 <= n -> off + n <= len f -> len (read_at f off n) = n.
Proof. intros H1 H2 H3. unfold read_at. rewrite length_take, length_drop. lia. Qed.

Lemma getLogPos_raw fs name g i : fs !! name = Some g -> 0 <= i -> i * 4 + 4 <= len g ->
  getLogPos (mkRF false name) i fs = (Ret (inl (be_get (read_at g (i * 4) 4))), fs).
Proof.
  intros E Hi Hl. unfold getLogPos, rf_ReadAt, file_ReadAt, looks, mbind, SM_bind, mret, SM_ret. cbn [rf_mmap rf_name]. rewrite (content_some _ _ _ E).
  by rewrite read_at_length, Z.ltb_irrefl by lia.
Qed.

Lemma checkMeta_raw fs index g : fs !! MetaName index = Some g ->
  checkMeta index fs = (Ret (if negb (len g mod 4 =? 0) || (len g =? 0) then inr errTable else inl (mkRF false (MetaName index))), fs).
Proof.
  intros E. unfold checkMeta, mbind, SM_bind. rewrite (newReadFile_ok _ _ _ _ E). unfold rf_Size, looks. cbn [rf_name]. rewrite (content_some _ _ _ E). by case_match.
Qed.

Lemma checkData_raw fs index f : fs !! DataName index = Some f -> exists r, checkData index fs = (Ret r, fs) /\
  (r = inl (mkRF false (DataName index)) /\ len magic <= len f /\ read_at f (len f - len magic) (len magic) = magic \/ exists err, r = inr err).
Proof.
  intros E. assert (HL : len magic <= len f -> len (read_at f (len f - len magic) (len magic)) = len magic) by (intros; apply read_at_length; lia).
  unfold checkData, mbind, SM_bind. rewrite (newReadFile_ok _ _ _ _ E). unfold rf_Size, rf_ReadAt, file_ReadAt, looks, mret, SM_ret. cbn [rf_mmap rf_name].
  rewrite (content_some _ _ _ E). destruct (Z.ltb_spec (len f) (len magic)) as [El|El]; [eexists; split; [done|]; right; by eexists|].
  rewrite (content_some _ _ _ E), HL, Z.ltb_irrefl by done. eexists. split; [done|]. case_bool_decide as Em; [left|right; by eexists]. by split.
Qed.

Lemma tr_check_raw fs index f g : fs !! DataName index = Some f -> fs !! MetaName index = Some g ->
  exists range err, tr_check index fs = (Ret (range, err), fs) /\ (err = None -> passes_check f g).
Proof.
  intros Ed Em. unfold tr_check, mbind, SM_bind. rewrite (checkMeta_raw _ _ _ Em). destruct (_ || _) eqn:C1; [by do 2 eexists|].
  apply orb_false_iff in C1 as [C1 C2]. apply negb_false_iff, Z.eqb_eq in C1. apply Z.eqb_neq in C2. destruct (checkData_raw _ _ _ Ed) as (r & E & [(-> & H1 & H2)|[err ->]]); rewrite E; [|by do 2 eexists].
  assert (0 < len g) by lia. assert (len g = len g / 4 * 4) by (pose proof (Z.div_mod (len g) 4 ltac:(done)); lia).
  rewrite (getLogPos_raw _ _ g 0) by (done || lia). unfold rf_Size, looks. cbn [rf_name]. rewrite (content_some _ _ _ Em).
  rewrite (getLogPos_raw _ _ g) by (done || lia). destruct (negb _) eqn:C3; [by do 2 eexists|]. apply negb_false_iff, Z.eqb_eq in C3. rewrite C3.
  rewrite (raw_head_eq _ _ f) by done. destruct (raw_head f 0) as [[l1 n1]|] eqn:H3; [|by do 2 eexists].
  rewrite (raw_head_eq _ _ f) by done. destruct (raw_head f (be_get (read_at g ((len g / 4 - 1) * 4) 4))) as [[l2 n2]|] eqn:H4; [|by do 2 eexists].
  cbn [rf_name]. rewrite (content_some _ _ _ Ed). destruct (negb (n2 + _ =? _)) eqn:C4; [by do 2 eexists|]. apply negb_false_iff, Z.eqb_eq in C4.
  do 2 eexists. split; [done|]. destruct (ID l1 >? ID l2); [done|]. destruct (negb _) eqn:C5; [done|]. apply negb_false_iff, Z.eqb_eq in C5.
  intros _. exists l1, n1, l2, n2. done.
Qed.

Lemma tr_check_no_meta fs index : fs !! MetaName index = None -> exists range err, tr_check index fs = (Ret (range, Some err), fs).
Proof. intros E. unfold tr_check, checkMeta, newReadFile, looks, mbind, SM_bind. rewrite E. by do 2 eexists. Qed.

Lemma read_at_part (pre mid post : bytes) off n : off = len pre -> n = len mid -> read_at (pre ++ mid ++ post) off n = mid.
Proof. intros -> ->. apply read_at_mid. Qed.

Lemma raw_head_log pre l post : wf_log l -> raw_head (pre ++ head_of l ++ post) (len pre) = inl (with_data l [], len pre + log_Size l).
Proof.
  intros Hl. unfold raw_head. rewrite <- (head_of_length l), read_at_mid, Z.ltb_irrefl, decodeHeadBuf_head by done. rewrite head_of_length. cbn [fst snd].
  unfold log_Size. by rewrite Z.add_assoc.
Qed.

Lemma magic_suffix f : len magic <= len f -> read_at f (len f - len magic) (len magic) = magic -> exists f0, f = f0 ++ magic.
Proof.
  intros Hl E. exists (take (Z.to_nat (len f - len magic)) f). rewrite <- E at 2. unfold read_at. rewrite (take_ge (drop _ _)) by (rewrite length_drop; lia). symmetry. apply take_drop.
Qed.

Lemma magic_id l : wf_log l -> ID l < 2 ^ 60 -> take 20 (Encode l) <> magic.
Proof.
  intros Hl Hid E. assert (E8 : take 8 (Encode l) = take 8 magic) by (rewrite <- E, take_take; done). unfold Encode in E8. rewrite take_put in E8.
  apply (f_equal be_get) in E8. rewrite be_get_put, uwrap_small in E8 by (pose proof (wl_id _ Hl); lia). change (256 ^ Z.of_nat 8) with (2 ^ 64) in E8.
  rewrite Z.mod_small in E8 by (pose proof (wl_id _ Hl); lia). change (be_get (take 8 magic)) with 0x1c1db888ff9e4555 in E8. lia.
Qed.

Lemma zeros_end n : 0 < n -> zeros n = zeros (n - 1) ++ [0].
Proof. intros Hn. unfold zeros. replace (Z.to_nat n) with (S (Z.to_nat (n - 1))) by lia. apply replicate_S_end. Qed.

(** The last position in the meta file of a writer. *)
Lemma last_pos_zeros x r : 4 <= r -> (len x + r) mod 4 = 0 -> be_get (read_at (x ++ zeros r) (((len x + r) / 4 - 1) * 4) 4) = 0.
Proof.
  intros Hr Hm. pose proof (Z.div_mod (len x + r) 4 ltac:(done)) as HD. replace r with ((r - 4) + 4) at 1 by lia. rewrite <- zeros_app, app_assoc by lia.
  rewrite <- (app_nil_r (zeros 4)). rewrite read_at_part; [done| |done]. rewrite length_app, Nat2Z.inj_add, zeros_length by lia. lia.
Qed.

Lemma last_pos_metas ls l : starts_ok ls -> ls <> [] -> ls !! pred (length ls) = Some l ->
  be_get (read_at (metas 0 ls) ((len (metas 0 ls) / 4 - 1) * 4) 4) = len (enc (take (pred (length ls)) ls)).
Proof.
  intros Hs Hne El. pose proof (lookup_lt_Some _ _ _ El) as Hlt. rewrite metas_length, (Z.mul_comm 4), Z.div_mul by lia.
  rewrite (metas_split _ _ _ El), read_at_part; [by apply uint32_pos|rewrite metas_length, length_take; lia|by rewrite be_put_length].
Qed.

Lemma torn_fails f ls l k n r : torn_data f ls l k n -> chain (ls ++ [l]) -> starts_ok ls -> ID l < 2 ^ 60 -> recovered ls l k <> [] -> 0 <= r ->
  ~ passes_check f (metas 0 ls ++ zeros r).
Proof.
  intros [Ef Hk Hn _] Hc Hs Hid Hrec Hr (l1 & n1 & l2 & n2 & G1 & G2 & F1 & F2 & R1 & R2 & N2 & I2).
  pose proof (chain_wf_last _ _ Hc) as Hl. pose proof (Encode_length l) as HEl. pose proof (head_of_length l) as HHl.
  destruct (magic_suffix f F1 F2) as [f0 Ef0]. assert (n = 0) as ->.
  { destruct (decide (0 < n)) as [Hp|]; [|lia]. exfalso. rewrite Ef0 in Ef. rewrite (zeros_end n Hp), !app_assoc in Ef.
    change magic with (take 19 magic ++ [0x17]) in Ef. rewrite app_assoc in Ef. apply app_inj_tail in Ef as [_ Ef]. done. }
  change (zeros 0) with (@nil Z) in Ef. rewrite app_nil_r in Ef.
  assert (Hlf : len f = len (enc ls) + k) by (rewrite Ef, length_app, length_take; lia). rewrite length_app, Nat2Z.inj_add, metas_length, zeros_length in G1, G2, I2, R2 by done.
  destruct (decide (r = 0)) as [->|Hr0].
  - destruct (decide (ls = [])) as [->|Hne]; [done|]. destruct (last_index ls Hne) as (lz & _ & Hz). change (zeros 0) with (@nil Z) in R2. rewrite app_nil_r, Z.add_0_r in R2.
    pose proof (last_pos_metas ls lz Hs Hne Hz) as HP. rewrite metas_length in HP. rewrite HP in R2. destruct (chain_ids _ _ _ (chain_app_l _ _ Hc) Hz) as [_ Wz].
    rewrite Ef, (enc_split _ _ _ Hz), Encode_head, <- !app_assoc, raw_head_log in R2 by done. injection R2 as _ <-.
    assert (len (enc (take (pred (length ls)) ls)) + log_Size lz = len (enc ls)) as EN.
    { rewrite (enc_split _ _ _ Hz), !length_app, !Nat2Z.inj_add, Encode_length. rewrite (drop_ge ls) by lia. simpl. lia. }
    apply (magic_id l Hl Hid). rewrite EN in N2. change (len magic) with 20 in N2. assert (k = 20) as -> by lia. rewrite Ef in Ef0.
    apply app_inj_2 in Ef0 as [_ E]; [exact E|]. rewrite length_take. change (length magic) with 20%nat. lia.
  - assert (4 <= r) by (rewrite <- (Z.mul_comm (len ls)), Z.add_comm, Z.mod_add in G1 by done; pose proof (Z.div_mod r 4 ltac:(done)); nia).
    rewrite <- (metas_length 0) in R2, G1. rewrite last_pos_zeros in R2 by done. rewrite R1 in R2. injection R2 as -> ->. replace (ID l2 - ID l2 + 1) with 1 in I2 by lia.
    change (uint64 1) with 1 in I2. destruct (decide (ls = [])) as [->|Hne].
    + unfold recovered in Hrec. destruct (k <? LogHeadSize) eqn:Ek; [done|]. zify_bool. cbn [enc map concat app] in Ef. rewrite Ef, Encode_head in R1.
      rewrite take_app_ge in R1 by lia. pose proof (raw_head_log [] l (take (Z.to_nat k - length (head_of l)) (LogData l)) Hl) as HR. cbn [app] in HR.
      change (len (@nil Z)) with 0 in HR. rewrite HR in R1. injection R1 as _ <-. change (len magic) with 20 in N2. change (len (enc [])) with 0 in Hlf. lia.
    + assert (1 <= len ls) by (destruct ls; [done|simpl; lia]). assert (2 <= (4 * len ls + r) / 4) by (apply Z.div_le_lower_bound; lia). lia.
Qed.

(** Opening a torn table repairs it. *)
Lemma newTableReader_torn fs index useMmap ls l k n f r : 0 < index -> torn_data f ls l k n -> chain (ls ++ [l]) -> starts_ok ls -> (LogHeadSize <= k -> len (enc ls) < 2 ^ 32) -> ID l < 2 ^ 60 ->
  recovered ls l k <> [] -> 0 <= r -> fs !! DataName index = Some f -> fs !! MetaName index = Some (metas 0 ls ++ zeros r) -> exists t fs',
  newTableReader index useMmap fs = (Ret (inl t), fs') /\ tr_index t = index /\ reader_at fs' t (recovered ls l k) /\ only_table index fs fs'.
Proof.
  intros Hi Ht Hc Hs Hlen Hid Hrec Hr Ed Em. unfold newTableReader. rewrite (proj2 (Z.leb_gt _ _)) by lia.
  destruct (tr_check_raw fs index f _ Ed Em) as (range & err & E & HN). unfold mbind, SM_bind. rewrite E. destruct range as [[first last] lastTime].
  destruct err as [err|]; [|by destruct (torn_fails _ _ _ _ _ _ Ht Hc Hs Hid Hrec Hr (HN eq_refl))].
  destruct (repair_torn fs index lastTime ls l k n f Ht Hc Ed) as (fs' & ER & HD & HM & HO). rewrite ER. eexists _, fs'. split; [done|]. split; [done|].
  split; [|done]. split; try done.
  - split; [|done|done]. unfold recovered. destruct (k <? LogHeadSize) eqn:Ek; zify_bool; [done|]. by apply starts_snoc; [|apply Hlen].
  - unfold last_time. cbn [tr_lastTime]. destruct (last_index _ Hrec) as (x & Ex & _). by rewrite Ex.
Qed.

(** ** A closed table without its meta file *)

(** The log that the first bytes of the magic are the head of. *)
Definition magic_log : Log := mkLog 0x1c1db888ff9e4555 0x40f04cda 0xe0 (zeros 0xce47de65).

Lemma magic_log_wf : wf_log magic_log.
Proof. split; [done|done|done|]. cbn [LogData magic_log]. rewrite zeros_length by done. done. Qed.

Lemma magic_head : magic = head_of magic_log ++ [0x48; 0x71; 0x17].
Proof. unfold head_of. cbn [LogData magic_log ID CreateTime Compression]. rewrite zeros_length by done. by vm_compute. Qed.

(** [repair] takes the magic for a log. *)
Lemma repair_magic fs index lastTime ls : chain ls -> last_id ls < ID magic_log -> fs !! DataName index = Some (enc ls ++ magic) -> exists fs',
  repair index lastTime fs = (Ret (if first_id ls =? 0 then ID magic_log else first_id ls, ID magic_log, CreateTime magic_log), fs').
Proof.
  intros Hc Hl E. unfold repair, mbind, SM_bind. destruct (newRaw_holds fs (DataName index)) as (r1 & fs1 & E1 & [_ H1] & R1 & S1). rewrite E1.
  rewrite (R1 _ E) in H1. cbn [app wf_name] in H1. unfold wf_Size, looks. cbn [wf_name]. rewrite (content_some _ _ _ H1).
  destruct (newRaw_holds fs1 (MetaName index)) as (r2 & fs2 & E2 & H2 & _ & S2). rewrite E2.
  assert (H1' : fs2 !! DataName index = Some (enc ([] ++ ls) ++ magic)) by (by rewrite S2). set (f := enc ls ++ magic) in *.
  set (data := SetOffset _ _). set (meta := mkWF false (MetaName index) 0) in *.
  assert (Hlf : len f = len (enc ls) + 20) by (subst f; by rewrite length_app, Nat2Z.inj_add). pose proof (enc_min ls) as Hmin.
  set (fuel := (Z.to_nat (len f) - length ls - 1)%nat). replace (S (Z.to_nat (len f))) with (length ls + S (S fuel))%nat by lia.
  destruct (repair_logs ls [] (S (S fuel)) fs2 data meta lastTime magic r2 eq_refl ltac:(done) Hc H1' H2) as (fs3 & m3 & r3 & E3 & N3 & H3 & S3).
  change (first_id []) with 0 in E3. change (last_id []) with 0 in E3. change (len (enc [])) with 0 in E3. cbn [app] in E3, H3. rewrite E3.
  assert (H4 : fs3 !! DataName index = Some (enc ls ++ head_of magic_log ++ [0x48; 0x71; 0x17])) by (rewrite S3, <- magic_head by done; exact H1').
  destruct (repair_step (S fuel) fs3 data m3 (first_id ls) (last_id ls) (match last ls with Some l => CreateTime l | None => lastTime end) (enc ls) magic_log _ _ _ eq_refl H4 magic_log_wf (or_intror Hl) H3) as (fs4 & E4 & _ & S4). rewrite E4.
  rewrite (repair_stop fuel fs4 data _ _ _ _ _ f eq_refl); [by eexists| |].
  - rewrite S4 by (by rewrite N3). rewrite S3 by done. exact H1'.
  - left. rewrite length_drop. unfold log_Size. cbn [LogData magic_log]. rewrite zeros_length by done. unfold LogHeadSize. lia.
Qed.

(** ** Ids out of order *)

Lemma repair_panics fs index lastTime l1 l2 post : wf_log l1 -> wf_log l2 -> ID l2 <= ID l1 -> fs !! DataName index = Some (Encode l1 ++ head_of l2 ++ post) ->
  (repair index lastTime fs).1 = Panic.
Proof.
  intros W1 W2 Hid E. unfold repair, mbind, SM_bind. destruct (newRaw_holds fs (DataName index)) as (r1 & fs1 & E1 & [_ H1] & R1 & S1). rewrite E1.
  rewrite (R1 _ E) in H1. cbn [app wf_name] in H1. unfold wf_Size, looks. cbn [wf_name]. rewrite (content_some _ _ _ H1).
  destruct (newRaw_holds fs1 (MetaName index)) as (r2 & fs2 & E2 & H2 & _ & S2). rewrite E2. set (f := Encode l1 ++ head_of l2 ++ post) in *.
  assert (H1' : fs2 !! DataName index = Some f) by (by rewrite S2). pose proof (head_of_length l1) as L1.
  assert (exists fuel, Z.to_nat (len f) = S fuel) as [fuel ->].
  { exists (pred (Z.to_nat (len f))). subst f. rewrite Encode_head, !length_app. unfold LogHeadSize in *. lia. }
  set (data := SetOffset _ _). assert (H3 : fs2 !! wf_name data = Some ([] ++ head_of l1 ++ LogData l1 ++ head_of l2 ++ post)) by (cbn [app]; by rewrite app_assoc, <- Encode_head).
  destruct (repair_step (S fuel) fs2 data _ 0 0 lastTime [] l1 _ [] r2 eq_refl H3 W1 (or_introl eq_refl) H2) as (fs3 & E3 & _ & S3).
  change (len []) with 0 in E3. rewrite E3. cbn [repair_loop]. unfold decodeLogHead, mbind, SM_bind. change (0 =? 0) with true. rewrite Z.add_0_l.
  rewrite <- (Encode_length l1), (DecodeHeadAt_ok (wf_ReadAt data) fs3 (Encode l1) l2 post); [|apply file_reads with (r := []); rewrite app_nil_r, S3 by done; exact H1'|done].
  cbn [mret SM_ret with_data ID]. rewrite !(proj2 (Z.eqb_neq _ 0)) by (pose proof (wl_id _ W1); pose proof (wl_id _ W2); lia). by rewrite (proj2 (Z.leb_le _ _)) by done.
Qed.
