(* ===== verification/FileStore.v ===== *)
(** * The log store on files (src/rpl/file_store.go)

    The readers of the closed tables, in the order of their logs, and the writer of the
    current one.  [LogStoreSpec] is discharged for it, so that what holds of [Replication]
    and of the database on any log store holds on this one. *)

From S2P Require Import Prelude SortPkg Driver Store Rpl FileIO FileTable.

Definition defaultMaxLogFileSize : Z := 256 * 1024 * 1024.
Definition maxLogFileSize : Z := 1024 * 1024 * 1024.

(** The configuration of the replication. *)
Class FileConfig := { cfg_MaxLogFileSize : Z; cfg_MaxLogFileNum : Z; cfg_SyncType : Z; cfg_UseMmap : bool }.

(** The directory, the tables and the clock. *)
Record FileStore := mkFileStore { s_fs : FS; s_rs : list tableReader; s_w : tableWriter; s_now : Z }.

(** ** The readers *)

(** The loop of [Search] looks at the readers from [i] to [j]; each round halves them. *)
Fixpoint search_loop (fuel : nat) (ts : list tableReader) (id i j : Z) : option nat :=
  match fuel with
  | O => None
  | S fuel =>
      if i <=? j then
        let h := i + (j - i) / 2 in
        match ts !! Z.to_nat h with
        | None => None
        | Some t =>
            if (tr_first t <=? id) && (id <=? tr_last t) then Some (Z.to_nat h)
            else if tr_last t <? id then search_loop fuel ts id (h + 1) j
            else search_loop fuel ts id i (h - 1)
        end
      else None
  end.

Definition Search (ts : list tableReader) (id : Z) : option nat := search_loop (S (length ts)) ts id 0 (len ts - 1).

(** The loop of [tableReaders.check]. *)
Fixpoint check_tables (last index : Z) (ts : list tableReader) : option error :=
  match ts with
  | [] => None
  | t :: ts =>
      if tr_first t <=? last then Some errTable
      else if tr_index t <=? index then Some errTable
      else check_tables (tr_last t) (tr_index t) ts
  end.

Section Store.
Context {P : SortPkg} {C : FileConfig}.

Definition rs_check (ts : list tableReader) : list tableReader * option error :=
  match ts with
  | [] => ([], None)
  | _ =>
      let ts := sort_Sort (fun x y => tr_first x <? tr_first y) ts in
      (ts, match ts with
           | [] => None
           | t :: ts' => if (tr_first t =? 0) || (tr_first t >? tr_last t) then Some errTable else check_tables (tr_last t) (tr_index t) ts'
           end)
  end.

(** The indices [load] reads from the names of the directory, in their order: at most eight
    digits. *)
Definition table_index (name : fname) : option Z :=
  match name with DataName i => if (0 <=? i) && (i <? 10 ^ 8) then Some i else None | MetaName _ => None end.
Definition table_indices (fs : FS) : list Z := merge_sort Z.le (omap table_index (map_to_list fs).*1).

Fixpoint load_tables (indices : list Z) : SM FS (list tableReader) :=
  match indices with
  | [] => mret []
  | i :: indices =>
      r ← newTableReader i cfg_UseMmap;
      rs ← load_tables indices;
      mret (match r with inl t => t :: rs | inr _ => rs end)
  end.

Definition load : SM FS (list tableReader * option error) :=
  indices ← looks table_indices;
  rs ← load_tables indices;
  mret (rs_check rs).

Definition log_file_size : Z := Z.min (if cfg_MaxLogFileSize =? 0 then defaultMaxLogFileSize else cfg_MaxLogFileSize) maxLogFileSize.

Definition of_outcome {A} (o : outcome A) : SM FS A := fun fs => (o, fs).

(** [NewFileStore] on the files of its directory. *)
Definition NewFileStore (now : Z) : SM FS (FileStore + error) :=
  '(rs, err) ← load;
  match err with
  | Some err => mret (inr err)
  | None =>
      let index := match last rs with Some r => tr_index r + 1 | None => 1 end in
      w ← of_outcome (newTableWriter index log_file_size cfg_UseMmap);
      looks (fun fs => inl (mkFileStore fs rs (SetSyncType cfg_SyncType w) now))
  end.

(** ** The operations *)

Definition on_fs {A} (p : SM FS A) : SM FileStore A := fun s =>
  let '(o, fs) := p (s_fs s) in (o, mkFileStore fs (s_rs s) (s_w s) (s_now s)).

Definition get_store : SM FileStore FileStore := fun s => (Ret s, s).
Definition set_readers (rs : list tableReader) : SM FileStore unit := fun s => (Ret tt, mkFileStore (s_fs s) rs (s_w s) (s_now s)).
Definition set_writer (w : tableWriter) : SM FileStore unit := fun s => (Ret tt, mkFileStore (s_fs s) (s_rs s) w (s_now s)).

Definition crash {A} : SM FileStore A := fun s => (Panic, s).

Definition fls_GetLog (id : Z) : SM FileStore (Log + error) :=
  s ← get_store;
  r ← on_fs (tw_GetLog id (s_w s));
  match r with
  | inl l => mret (inl l)
  | inr err =>
      if negb (bool_decide (err = ErrLogNotFound)) then mret (inr err)
      else match Search (s_rs s) id with
      | None => mret (inr ErrLogNotFound)
      | Some i =>
          match s_rs s !! i with
          | None => crash
          | Some t => '(t, r) ← on_fs (tr_GetLog (s_now s) id t); _ ← set_readers (<[i := t]> (s_rs s)); mret r
          end
      end
  end.

Definition fls_FirstID : SM FileStore (Z * option error) :=
  s ← get_store;
  let id := match s_rs s with t :: _ => tr_first t | [] => 0 end in
  mret (if id >? 0 then id else tw_first (s_w s), None).

Definition fls_LastID : SM FileStore (Z * option error) :=
  s ← get_store;
  let id := tw_last (s_w s) in
  mret (if id >? 0 then id else match last (s_rs s) with Some t => tr_last t | None => id end, None).

(** [storeLog]; the call of [log.Fatalf] is not reached, [Flush] of an open table does not
    fail. *)
Definition fls_StoreLog (l : Log) : SM FileStore (option error) :=
  s ← get_store;
  '(w, err) ← on_fs (tw_storeLog l (s_w s));
  _ ← set_writer w;
  if negb (bool_decide (err = Some errTableNeedFlush)) then mret err
  else
    '(w, r) ← on_fs (tw_Flush w);
    _ ← set_writer w;
    match r with
    | inr err => w ← on_fs (tw_Close w); _ ← set_writer w; mret (Some err)
    | inl r =>
        s ← get_store;
        _ ← set_readers (s_rs s ++ [r]);
        '(w, err) ← on_fs (tw_storeLog l w);
        _ ← set_writer w;
        mret err
    end.

Definition os_remove (name : fname) : SM FS unit := fun fs => (Ret tt, delete name fs).

Fixpoint purgeTableReaders (purges : list tableReader) : SM FS unit :=
  match purges with
  | [] => mret tt
  | r :: purges =>
      _ ← os_remove (DataName (tr_index r));
      _ ← os_remove (MetaName (tr_index r));
      purgeTableReaders purges
  end.

(** The position of the first reader that is newer than [t]. *)
Fixpoint first_newer (t : Z) (rs : list tableReader) : option nat :=
  match rs with
  | [] => None
  | r :: rs => if tr_lastTime r >? t then Some O else S <$> first_newer t rs
  end.

Definition fls_PurgeExpired (now n : Z) : SM FileStore (option error) :=
  s ← get_store;
  let t := uint32 (now - n) in
  match first_newer t (s_rs s) with
  | None => mret None
  | Some i => _ ← set_readers (drop i (s_rs s)); _ ← on_fs (purgeTableReaders (take i (s_rs s))); mret None
  end.

Definition os_RemoveAll : SM FS unit := fun _ => (Ret tt, ∅).

Definition fls_Clear : SM FileStore (option error) :=
  s ← get_store;
  _ ← on_fs (tw_Close (s_w s));
  _ ← set_readers [];
  _ ← on_fs (os_RemoveAll);
  w ← on_fs (of_outcome (newTableWriter 1 log_file_size cfg_UseMmap));
  _ ← set_writer w;
  mret None.

Definition fls_Close : SM FileStore (option error) :=
  s ← get_store;
  '(w, r) ← on_fs (tw_Flush (s_w s));
  w ← (match r with inr _ => mret w | inl _ => on_fs (tw_Close w) end);
  _ ← set_writer w;
  _ ← set_readers [];
  mret None.

(** One tick of [checkTableReaders]. *)
Definition checkTableReaders : SM FileStore unit :=
  s ← get_store;
  let rs := map (fun r => if negb (Keepalived (s_now s) r) then tr_Close r else r) (s_rs s) in
  let num := len rs in
  if num >? cfg_MaxLogFileNum then
    if cfg_MaxLogFileNum <? 0 then crash
    else
      _ ← set_readers (drop (Z.to_nat (num - cfg_MaxLogFileNum)) rs);
      on_fs (purgeTableReaders (take (Z.to_nat (num - cfg_MaxLogFileNum)) rs))
  else set_readers rs.

Definition file_log_store : LogStore := {|
  ls_t := FileStore;
  ls_GetLog := fls_GetLog;
  ls_FirstID := fls_FirstID;
  ls_LastID := fls_LastID;
  ls_StoreLog := fls_StoreLog;
  ls_PurgeExpired := fls_PurgeExpired;
  ls_Clear := fls_Clear
|}.

End Store.

(** * Searching the readers *)

Definition in_table (id : Z) (t : tableReader) : Prop := tr_first t <= id <= tr_last t.

(** The ranges of the readers follow each other. *)
Definition ordered (ts : list tableReader) : Prop := forall i j x y, (i < j)%nat -> ts !! i = Some x -> ts !! j = Some y -> tr_last x < tr_first y.

Lemma search_loop_ok ts id fuel : forall i j, ordered ts -> Forall (fun t => tr_first t <= tr_last t) ts -> 0 <= i -> j < len ts -> j - i < Z.of_nat fuel ->
  match search_loop fuel ts id i j with
  | Some h => exists t, ts !! h = Some t /\ in_table id t
  | None => forall h t, i <= Z.of_nat h <= j -> ts !! h = Some t -> ~ in_table id t
  end.
Proof.
  induction fuel as [|fuel IH]; intros i j Ho Hr Hi Hj Hf; cbn [search_loop]; [intros h t Hh; lia|].
  destruct (i <=? j) eqn:E; zify_bool; [|intros h t Hh; lia]. set (h := i + (j - i) / 2).
  assert (i <= h <= j) by (pose proof (Z.div_pos (j - i) 2); pose proof (Z.div_le_upper_bound (j - i) 2 (j - i)); lia).
  destruct (ts !! Z.to_nat h) as [t|] eqn:Et; [|apply lookup_ge_None in Et; lia]. rewrite Forall_lookup in Hr. pose proof (Hr _ _ Et).
  destruct (_ && _) eqn:C1.
  - apply andb_true_iff in C1 as [C1 C2]. zify_bool. exists t. done.
  - assert (~ in_table id t) as Hnt. { intros [H3 H4]. apply andb_false_iff in C1 as [C1|C1]; zify_bool; lia. }
    destruct (tr_last t <? id) eqn:C2; zify_bool.
    + specialize (IH (h + 1) j Ho ltac:(by apply Forall_lookup) ltac:(lia) ltac:(lia) ltac:(lia)). destruct (search_loop fuel ts id (h + 1) j); [done|].
      intros h' t' Hh' Et' Hin. destruct (decide (Z.of_nat h' = h)) as [Eh|]; [by rewrite <- Eh, Nat2Z.id in Et; simplify_eq|].
      destruct (decide (h < Z.of_nat h')); [by eapply (IH h' t'); [lia|..]|]. pose proof (Ho h' (Z.to_nat h) t' t ltac:(lia) Et' Et). destruct Hin. lia.
    + specialize (IH i (h - 1) Ho ltac:(by apply Forall_lookup) ltac:(lia) ltac:(lia) ltac:(lia)). destruct (search_loop fuel ts id i (h - 1)); [done|].
      intros h' t' Hh' Et' Hin. destruct (decide (Z.of_nat h' = h)) as [Eh|]; [by rewrite <- Eh, Nat2Z.id in Et; simplify_eq|].
      destruct (decide (Z.of_nat h' < h)); [by eapply (IH h' t'); [lia|..]|]. pose proof (Ho (Z.to_nat h) h' t t' ltac:(lia) Et Et'). destruct Hin. unfold in_table in Hnt. lia.
Qed.

(** [Search] finds the reader of an id, if there is one. *)
Lemma Search_ok ts id : ordered ts -> Forall (fun t => tr_first t <= tr_last t) ts ->
  match Search ts id with
  | Some h => exists t, ts !! h = Some t /\ in_table id t
  | None => forall h t, ts !! h = Some t -> ~ in_table id t
  end.
Proof.
  intros Ho Hr. unfold Search. pose proof (search_loop_ok ts id (S (length ts)) 0 (len ts - 1) Ho Hr ltac:(lia) ltac:(lia) ltac:(lia)) as H.
  destruct (search_loop _ _ _ _ _); [done|]. intros h t E. apply (H h t); [|done]. apply lookup_lt_Some in E. lia.
Qed.

(** * What the store holds *)

Lemma chain_sorted logs : chain logs -> StronglySorted (fun a b => ID a < ID b) logs.
Proof.
  induction logs as [|l logs IH]; intros Hc; [constructor|]. constructor; [apply IH; by apply (chain_drop 1) in Hc|].
  apply Forall_forall. intros b [i Hi]%list_elem_of_lookup. destruct Hc as [_ Hc]. rewrite (Hc (S i) b Hi). cbn [first_id]. lia.
Qed.

Lemma log_with_spec logs id l : chain logs -> log_with logs id = Some l <-> l ∈ logs /\ ID l = id.
Proof.
  intros Hc. unfold log_with. split.
  - destruct (id <? first_id logs) eqn:E; [done|]. intros Hl. split; [by eapply list_elem_of_lookup_2|]. destruct (chain_ids _ _ _ Hc Hl) as [-> _]. zify_bool. lia.
  - intros [[i Hi]%list_elem_of_lookup <-]. destruct (chain_ids _ _ _ Hc Hi) as [E _]. rewrite (proj2 (Z.ltb_ge _ _)) by lia. by replace (Z.to_nat (ID l - first_id logs)) with i by lia.
Qed.

(** The ids between the first and the last one of a chain. *)
Lemma chain_range ls l : chain ls -> l ∈ ls -> first_id ls <= ID l <= last_id ls.
Proof.
  intros Hc [i Hi]%list_elem_of_lookup. destruct (chain_ids _ _ _ Hc Hi) as [-> _]. rewrite chain_last by (done || by destruct ls). apply lookup_lt_Some in Hi. lia.
Qed.

Lemma concat_sorted (segs : list (list Log)) (R : Log -> Log -> Prop) i j x y a b : StronglySorted R (concat segs) -> (i < j)%nat -> segs !! i = Some x -> segs !! j = Some y ->
  a ∈ x -> b ∈ y -> R a b.
Proof.
  revert i j. induction segs as [|s segs IH]; intros i j HS Hij Ex Ey Ha Hb; [done|]. cbn [concat] in HS. destruct j as [|j]; [lia|]. destruct i as [|i].
  - injection Ex as ->. cbn in Ey. eapply StronglySorted_app_1_elem_of; [exact HS|done|]. apply list_elem_of_In, in_concat. exists y. split; apply list_elem_of_In; [by eapply list_elem_of_lookup_2|done].
  - apply (IH i j); [|lia|done..]. by apply StronglySorted_app_1_r in HS.
Qed.

(** The logs of each reader and of the writer.  The indices grow, and there are no other
    files. *)
Record fls_parts (s : FileStore) (segs : list (list Log)) (wl : list Log) : Prop := {
  fp_readers : Forall2 (reader_at (s_fs s)) (s_rs s) segs;
  fp_writer : writer_at (s_fs s) (s_w s) wl;
  fp_indices : StronglySorted Z.lt (map tr_index (s_rs s) ++ [tw_index (s_w s)]);
  fp_files : forall i, i ∉ map tr_index (s_rs s) -> wl = [] \/ i <> tw_index (s_w s) -> s_fs s !! DataName i = None /\ s_fs s !! MetaName i = None
}.

(** The store holds the logs [logs]. *)
Definition fls_rep (s : FileStore) (logs : list Log) : Prop := chain logs /\ exists segs wl, logs = concat segs ++ wl /\ fls_parts s segs wl.

Lemma seg_chain segs wl i x : chain (concat segs ++ wl) -> segs !! i = Some x -> chain x.
Proof.
  intros Hc%chain_app_l E. rewrite <- (take_drop_middle segs i x E), concat_app in Hc. apply chain_app_r in Hc. cbn [concat] in Hc. by apply chain_app_l in Hc.
Qed.

Lemma last_elem (ls : list Log) : ls <> [] -> exists l, l ∈ ls /\ ID l = last_id ls.
Proof. intros Hne. destruct (last_index ls Hne) as (l & E & Hl). exists l. split; [by eapply list_elem_of_lookup_2|]. unfold last_id. by rewrite E. Qed.

Lemma first_elem (ls : list Log) : ls <> [] -> exists l, l ∈ ls /\ ID l = first_id ls.
Proof. destruct ls as [|l ls]; [done|]. intros _. exists l. split; [constructor|done]. Qed.

Section Readers.
Context (fs : FS) (rs : list tableReader) (segs : list (list Log)) (wl : list Log).
Hypothesis (Hrs : Forall2 (reader_at fs) rs segs) (Hc : chain (concat segs ++ wl)).

Lemma readers_ordered : ordered rs.
Proof using Hrs Hc.
  intros i j x y Hij Ex Ey. destruct (Forall2_lookup_l _ _ _ _ _ Hrs Ex) as (sx & Esx & Hx). destruct (Forall2_lookup_l _ _ _ _ _ Hrs Ey) as (sy & Esy & Hy).
  rewrite (ra_last _ _ _ Hx), (ra_first _ _ _ Hy). destruct (last_elem sx (ra_ne _ _ _ Hx)) as (a & Ha & <-). destruct (first_elem sy (ra_ne _ _ _ Hy)) as (b & Hb & <-).
  eapply (concat_sorted segs (fun a b => ID a < ID b) i j sx sy); try done. apply chain_sorted. by eapply chain_app_l.
Qed.

Lemma readers_ranges : Forall (fun t => tr_first t <= tr_last t) rs.
Proof using Hrs Hc.
  apply Forall_lookup. intros i t Et. destruct (Forall2_lookup_l _ _ _ _ _ Hrs Et) as (x & Ex & Hx). rewrite (ra_last _ _ _ Hx), (ra_first _ _ _ Hx).
  destruct (last_elem x (ra_ne _ _ _ Hx)) as (a & Ha & <-). by apply (chain_range x a (seg_chain _ _ _ _ Hc Ex) Ha).
Qed.

(** An id is in the range of a reader when one of its logs has it. *)
Lemma reader_has i t x l : rs !! i = Some t -> segs !! i = Some x -> l ∈ x -> in_table (ID l) t.
Proof using Hrs Hc.
  intros Et Ex Hl. destruct (Forall2_lookup_lr _ _ _ _ _ _ Hrs Et Ex) as [_ _ _ HF HL _ _ _]. unfold in_table. rewrite HF, HL.
  apply chain_range; [by eapply seg_chain|done].
Qed.
End Readers.

Lemma elem_of_segs (segs : list (list Log)) l : l ∈ concat segs <-> exists i x, segs !! i = Some x /\ l ∈ x.
Proof.
  rewrite list_elem_of_In, in_concat. setoid_rewrite <- list_elem_of_In. split.
  - intros (x & [i Hi]%list_elem_of_lookup & Hl). by exists i, x.
  - intros (i & x & Hi & Hl). exists x. split; [by eapply list_elem_of_lookup_2|done].
Qed.

Lemma readers_same fs fs' rs segs : (forall t, t ∈ rs -> fs' !! DataName (tr_index t) = fs !! DataName (tr_index t) /\ fs' !! MetaName (tr_index t) = fs !! MetaName (tr_index t)) ->
  Forall2 (reader_at fs) rs segs -> Forall2 (reader_at fs') rs segs.
Proof.
  intros H HF. apply Forall2_same_length_lookup_2; [by apply Forall2_length in HF|]. intros i t x Et Ex. destruct (H t ltac:(by eapply list_elem_of_lookup_2)).
  eapply reader_same; [done..|]. by eapply (Forall2_lookup_lr _ _ _ i).
Qed.

Lemma sorted_lt_last (l : list Z) x y : StronglySorted Z.lt (l ++ [x]) -> y ∈ l -> y < x.
Proof. intros HS Hy. eapply StronglySorted_app_1_elem_of; [exact HS|done|]. by constructor. Qed.

(** Files of the tables that were not touched. *)
Lemma readers_only index fs fs' rs segs : only_table index fs fs' -> (forall t, t ∈ rs -> tr_index t <> index) ->
  Forall2 (reader_at fs) rs segs -> Forall2 (reader_at fs') rs segs.
Proof. intros HO Hi. apply readers_same. intros t Ht. specialize (Hi t Ht). split; apply HO; congruence. Qed.

Lemma index_ne rs w t : StronglySorted Z.lt (map tr_index rs ++ [tw_index w]) -> t ∈ rs -> tr_index t < tw_index w.
Proof. intros HS Ht. eapply sorted_lt_last; [exact HS|]. apply list_elem_of_fmap. by exists t. Qed.

Section StoreSpec.
Context {P : SortPkg} {C : FileConfig}.
Implicit Types (s : FileStore) (logs : list Log).

Lemma fls_first s logs : fls_rep s logs -> fls_FirstID s = (Ret (first_id logs, None), s).
Proof.
  intros (Hc & segs & wl & -> & [HR HW HI HF]). unfold fls_FirstID, get_store, mbind, SM_bind, mret, SM_ret. do 3 f_equal.
  destruct (writer_last _ _ _ HW) as [EF _]. destruct HR as [|t x rs segs Hx HR]; [done|]. pose proof (ra_first _ _ _ Hx) as ->. pose proof (ra_ne _ _ _ Hx) as Hne.
  destruct x as [|l x]; [done|]. cbn [concat app first_id]. cbn [concat app] in Hc. destruct (chain_first_pos _ Hc) as [|Hp]; [done|]. cbn [first_id] in Hp.
  by rewrite Z.gtb_ltb, (proj2 (Z.ltb_lt _ _)) by lia.
Qed.

Lemma fls_last s logs : fls_rep s logs -> fls_LastID s = (Ret (last_id logs, None), s).
Proof.
  intros (Hc & segs & wl & -> & [HR HW HI HF]). unfold fls_LastID, get_store, mbind, SM_bind, mret, SM_ret. do 3 f_equal.
  destruct (writer_last _ _ _ HW) as [_ EL]. rewrite EL. destruct (decide (wl = [])) as [->|Hne].
  - rewrite app_nil_r. change (last_id []) with 0. cbn [Z.gtb Z.compare].
    destruct segs as [|x segs _] using rev_ind; [apply Forall2_nil_inv_r in HR as ->; done|]. apply Forall2_app_inv_r in HR as (rs1 & rs2 & _ & HR & ->).
    apply Forall2_cons_inv_r in HR as (t & rs3 & Hx & HR & ->). apply Forall2_nil_inv_r in HR as ->. rewrite last_snoc, (ra_last _ _ _ Hx).
    rewrite concat_app. cbn [concat]. rewrite app_nil_r. unfold last_id. pose proof (ra_ne _ _ _ Hx). rewrite last_app. destruct (last_index x ltac:(done)) as (l & -> & _). done.
  - destruct (last_index wl Hne) as (l & El & Hl). unfold last_id. rewrite last_app, El. pose proof (chain_ids _ _ _ (chain_app_r _ _ Hc) Hl) as [_ Wl]. pose proof (wl_id _ Wl).
    by rewrite Z.gtb_ltb, (proj2 (Z.ltb_lt _ _)) by lia.
Qed.

Lemma set_same s : mkFileStore (s_fs s) (s_rs s) (s_w s) (s_now s) = s.
Proof. by destruct s. Qed.

Lemma run_fs {A} (p : SM FS A) (o : outcome A) fs s : p (s_fs s) = (o, fs) -> on_fs p s = (o, mkFileStore fs (s_rs s) (s_w s) (s_now s)).
Proof. intros E. unfold on_fs. by rewrite E. Qed.

Lemma fls_get s logs id : fls_rep s logs -> 0 < id < 2 ^ 64 -> exists s',
  fls_GetLog id s = (Ret (match log_with logs id with Some l => inl l | None => inr ErrLogNotFound end), s') /\ fls_rep s' logs.
Proof.
  intros (Hc & segs & wl & -> & HP) Hid. pose proof HP as [HR HW HI HF]. pose proof (chain_app_r _ _ Hc) as Hcw.
  unfold fls_GetLog, get_store, mbind at 1, SM_bind at 1.
  destruct (decide (wl <> [] /\ first_id wl <= id <= last_id wl)) as [[Hne Hin]|Hout].
  - destruct (tw_GetLog_found _ _ _ _ HW Hcw Hne Hin) as (l & E & Hl & EI). unfold mbind, SM_bind. rewrite (run_fs _ _ _ _ E), set_same. cbn [mret SM_ret].
    exists s. split; [|split; [done|by exists segs, wl]]. assert (log_with (concat segs ++ wl) id = Some l) as ->; [|done].
    apply log_with_spec; [done|]. split; [apply elem_of_app; by right|done].
  - assert (Hout' : id < first_id wl \/ last_id wl < id).
    { destruct (decide (wl = [])) as [->|]; [right; change (last_id []) with 0; lia|]. destruct (decide (id < first_id wl)); [by left|right]. apply not_and_l in Hout as [|]; [done|lia]. }
    unfold mbind at 1, SM_bind at 1. rewrite (run_fs _ _ _ _ (tw_GetLog_none _ _ _ _ HW Hout')), set_same. rewrite bool_decide_true by done. cbn [negb].
    pose proof (Search_ok (s_rs s) id (readers_ordered _ _ _ _ HR Hc) (readers_ranges _ _ _ _ HR Hc)) as HS. destruct (Search (s_rs s) id) as [i|].
    + destruct HS as (t & Et & Hin). rewrite Et. destruct (Forall2_lookup_l _ _ _ _ _ HR Et) as (x & Ex & Hx). unfold in_table in Hin. rewrite (ra_first _ _ _ Hx), (ra_last _ _ _ Hx) in Hin.
      destruct (tr_GetLog_ok (s_fs s) (s_now s) id t x Hx (seg_chain _ _ _ _ Hc Ex) Hin) as (l & t' & E & Hl & EI & Hx' & Ei).
      unfold mbind, SM_bind. rewrite (run_fs _ _ _ _ E), set_same. unfold set_readers, mret, SM_ret. eexists. split.
      * assert (log_with (concat segs ++ wl) id = Some l) as ->; [|done]. apply log_with_spec; [done|]. split; [|done]. apply elem_of_app. left. apply elem_of_segs. by exists i, x.
      * assert (EM : map tr_index (<[i := t']> (s_rs s)) = map tr_index (s_rs s)).
        { change (tr_index <$> <[i := t']> (s_rs s) = tr_index <$> s_rs s). rewrite list_fmap_insert, Ei. apply list_insert_id. by rewrite list_lookup_fmap, Et. }
        split; [done|]. exists segs, wl. split; [done|]. split; cbn [s_fs s_rs s_w]; rewrite ?EM; [|done..].
        rewrite <- (list_insert_id segs i x Ex). by apply Forall2_insert.
    + cbn [mret SM_ret]. exists s. split; [|split; [done|by exists segs, wl]]. destruct (log_with (concat segs ++ wl) id) as [l|] eqn:E; [|done]. exfalso.
      apply log_with_spec in E as [Hl <-]; [|done]. apply elem_of_app in Hl as [Hl|Hl].
      * apply elem_of_segs in Hl as (i & x & Ex & Hl). destruct (Forall2_lookup_r _ _ _ _ _ HR Ex) as (t & Et & _). apply (HS i t Et). by apply (reader_has _ _ _ _ HR Hc i t x l).
      * apply Hout. split; [by destruct wl; [apply not_elem_of_nil in Hl|]|]. by apply chain_range.
Qed.

(** The files of other tables stay absent. *)
Lemma files_only (index : Z) (fs fs' : FS) (i : Z) : only_table index fs fs' -> i <> index -> fs !! DataName i = None /\ fs !! MetaName i = None -> fs' !! DataName i = None /\ fs' !! MetaName i = None.
Proof. intros HO Hi [H1 H2]. rewrite !HO by congruence. done. Qed.

Lemma store_step s segs wl l : fls_parts s segs wl -> chain (concat segs ++ wl ++ [l]) -> full (s_w s) = false -> exists w' fs',
  tw_storeLog l (s_w s) (s_fs s) = (Ret (w', None), fs') /\ fls_parts (mkFileStore fs' (s_rs s) w' (s_now s)) segs (wl ++ [l]).
Proof.
  intros [HR HW HI HF] Hc Hf. destruct (store_ok _ _ _ _ HW (chain_app_r _ _ Hc) Hf) as (w' & fs' & E & HW' & EI & HO). exists w', fs'. split; [done|].
  split; cbn [s_fs s_rs s_w]; [|done|by rewrite EI|].
  - eapply readers_only; [exact HO| |done]. intros t Ht. pose proof (index_ne _ _ _ HI Ht). lia.
  - rewrite EI. intros i Hi [Hw|Hw]; [by destruct wl|]. eapply files_only; [exact HO|done|]. apply HF; [done|by right].
Qed.

(** A full table becomes a reader. *)
Lemma flush_step s segs wl : fls_parts s segs wl -> wl <> [] -> exists w' t fs',
  tw_Flush (s_w s) (s_fs s) = (Ret (w', inl t), fs') /\ fls_parts (mkFileStore fs' (s_rs s ++ [t]) w' (s_now s)) (segs ++ [wl]) [] /\ full w' = false.
Proof.
  intros [HR HW HI HF] Hne. destruct (Flush_ok _ _ _ HW Hne) as (w' & t & fs' & E & Ht & Ei & HO & Ew). exists w', t, fs'. split; [done|].
  assert (Hidx : forall x, x ∈ s_rs s -> tr_index x < tw_index (s_w s)) by (intros x Hx; by eapply index_ne).
  assert (Hn : fs' !! DataName (tw_index (s_w s) + 1) = None /\ fs' !! MetaName (tw_index (s_w s) + 1) = None).
  { eapply files_only; [exact HO|lia|]. apply HF; [|right; lia]. intros (x & Ex & Hx)%list_elem_of_fmap. specialize (Hidx x Hx). lia. }
  split; [|by rewrite Ew]. split; cbn [s_fs s_rs s_w].
  - apply Forall2_app; [|by constructor]. eapply readers_only; [exact HO| |done]. intros x Hx. specialize (Hidx x Hx). lia.
  - destruct HW as [W1 W2 W3 _]. rewrite Ew. split; [done|cbn; lia|done|]. right. split; [done|]. split; [done|exact Hn|done].
  - rewrite map_app. cbn [map]. rewrite Ei, Ew. cbn [tw_index]. apply StronglySorted_app_2; [|done|by repeat constructor].
    intros x y Hx Hy. apply list_elem_of_singleton in Hy as ->. apply elem_of_app in Hx as [Hx|Hx].
    + pose proof (sorted_lt_last _ _ _ HI Hx). lia.
    + apply list_elem_of_singleton in Hx as ->. lia.
  - intros i Hi _. rewrite map_app, not_elem_of_app in Hi. destruct Hi as [Hi1 Hi2]. cbn [map] in Hi2. rewrite Ei, list_elem_of_singleton in Hi2.
    eapply files_only; [exact HO|done|]. apply HF; [done|by right].
Qed.

Lemma fls_store s logs l : fls_rep s logs -> wf_log l -> (logs = [] \/ ID l = last_id logs + 1) -> exists s',
  fls_StoreLog l s = (Ret None, s') /\ fls_rep s' (logs ++ [l]).
Proof.
  intros (Hc & segs & wl & -> & HP) Hl Hid. pose proof (chain_snoc _ _ Hc Hl Hid) as Hc'. rewrite <- app_assoc in Hc' |- *.
  unfold fls_StoreLog, get_store, mbind, SM_bind, set_writer, set_readers, mret, SM_ret. destruct (full (s_w s)) eqn:Ef.
  - pose proof HP as [_ HW _ _]. assert (Hne : wl <> []).
    { destruct HW as [_ _ _ [(Hne & _)|[-> HN]]]; [done|]. unfold full in Ef. destruct HN as [[E _] _ _]. by rewrite E in Ef. }
    rewrite (run_fs _ _ _ _ (store_full _ _ _ _ HW (chain_app_r _ _ Hc') Ef)), bool_decide_true by done. cbn [negb s_fs s_rs s_w s_now].
    destruct (flush_step s segs wl HP Hne) as (w1 & t & fs1 & E1 & HP1 & Ef1). rewrite set_same, (run_fs _ _ _ _ E1). cbn [s_fs s_rs s_w s_now].
    assert (Hc1 : chain (concat (segs ++ [wl]) ++ [] ++ [l])) by (rewrite concat_app; cbn [concat app]; by rewrite app_nil_r, <- app_assoc).
    destruct (store_step _ _ _ l HP1 Hc1 Ef1) as (w2 & fs2 & E2 & HP2). cbn [s_fs s_rs s_w s_now] in *. rewrite (run_fs (tw_storeLog l w1) _ _ (mkFileStore fs1 (s_rs s ++ [t]) w1 (s_now s)) E2). cbn [s_fs s_rs s_w s_now].
    eexists. split; [done|]. split; [done|]. exists (segs ++ [wl]), [l]. split; [|exact HP2]. rewrite concat_app. cbn [concat]. by rewrite app_nil_r, app_assoc.
  - destruct (store_step s segs wl l HP Hc' Ef) as (w' & fs' & E & HP'). rewrite (run_fs _ _ _ _ E). rewrite bool_decide_false by done. cbn [negb s_fs s_rs s_w s_now].
    eexists. split; [done|]. split; [done|]. by exists segs, (wl ++ [l]).
Qed.

(** Removing tables. *)
Lemma purge_files (rs : list tableReader) (fs : FS) : exists fs', purgeTableReaders rs fs = (Ret tt, fs') /\
  forall i, (i ∈ map tr_index rs -> fs' !! DataName i = None /\ fs' !! MetaName i = None) /\
    (i ∉ map tr_index rs -> fs' !! DataName i = fs !! DataName i /\ fs' !! MetaName i = fs !! MetaName i).
Proof.
  revert fs. induction rs as [|r rs IH]; intros fs; [exists fs; split; [done|]; intros i; split; [by intros ?%not_elem_of_nil|done]|].
  set (fs1 := delete (MetaName (tr_index r)) (delete (DataName (tr_index r)) fs)). destruct (IH fs1) as (fs' & E & H). exists fs'. split; [exact E|].
  assert (H1 : forall i, i <> tr_index r -> fs1 !! DataName i = fs !! DataName i /\ fs1 !! MetaName i = fs !! MetaName i).
  { intros i Hi. subst fs1. rewrite !lookup_delete_ne by congruence. done. }
  assert (H2 : fs1 !! DataName (tr_index r) = None /\ fs1 !! MetaName (tr_index r) = None).
  { subst fs1. rewrite lookup_delete_eq. rewrite lookup_delete_ne by done. by rewrite lookup_delete_eq. }
  intros i. destruct (H i) as [HA HB]. cbn [map]. destruct (decide (i ∈ map tr_index rs)) as [Hi|Hi].
  - split; [by intros _; apply HA|]. intros Hn. exfalso. apply Hn. by constructor.
  - destruct (HB Hi) as [E1 E2]. rewrite E1, E2. split.
    + intros [->|Hin]%elem_of_cons; [exact H2|done].
    + intros Hn. apply H1. intros ->. apply Hn. constructor.
Qed.

Lemma drop_tables s segs wl i : fls_parts s segs wl -> exists fs', purgeTableReaders (take i (s_rs s)) (s_fs s) = (Ret tt, fs') /\
  fls_parts (mkFileStore fs' (drop i (s_rs s)) (s_w s) (s_now s)) (drop i segs) wl.
Proof.
  intros [HR HW HI HF]. destruct (purge_files (take i (s_rs s)) (s_fs s)) as (fs' & E & H). exists fs'. split; [done|].
  assert (EM : map tr_index (s_rs s) = map tr_index (take i (s_rs s)) ++ map tr_index (drop i (s_rs s))) by (rewrite <- map_app; by rewrite take_drop).
  rewrite EM, <- app_assoc in HI.
  assert (HD : forall x, x ∈ map tr_index (drop i (s_rs s)) ++ [tw_index (s_w s)] -> x ∉ map tr_index (take i (s_rs s))).
  { intros x Hx Hx'. assert (x < x) by (by eapply StronglySorted_app_1_elem_of). lia. }
  split; cbn [s_fs s_rs s_w].
  - apply (readers_same (s_fs s)); [|by apply Forall2_drop]. intros t Ht. apply H, HD. apply elem_of_app. left. apply list_elem_of_fmap. by exists t.
  - destruct (H (tw_index (s_w s))) as [_ H']. destruct H' as [E1 E2]; [apply HD, elem_of_app; right; by constructor|].
    destruct HW as [W1 W2 W3 W4]. split; [done..|]. destruct W4 as [(Hne & d & m & [O1 O2 [O3 O3'] O4 O5 O6 O7 O8 O9])|[Hw [N1 [N2 N2'] N3]]].
    + left. split; [done|]. exists d, m. split; try done; (eapply keeps_same; [|done]); by rewrite ?O3, ?O3'.
    + right. split; [done|]. split; [done| |done]. by rewrite E1, E2.
  - by apply StronglySorted_app_1_r in HI.
  - intros x Hx Hw. destruct (decide (x ∈ map tr_index (take i (s_rs s)))) as [Hin|Hout]; [by apply H|]. destruct (H x) as [_ H']. destruct (H' Hout) as [-> ->].
    apply HF; [|done]. rewrite EM, not_elem_of_app. done.
Qed.

Lemma concat_drop (segs : list (list Log)) i : exists k, concat (drop i segs) = drop k (concat segs) /\ take k (concat segs) = concat (take i segs) /\ (k <= length (concat segs))%nat.
Proof.
  exists (length (concat (take i segs))). assert (concat segs = concat (take i segs) ++ concat (drop i segs)) as -> by (by rewrite <- concat_app, take_drop).
  rewrite drop_app_length, take_app_length, length_app. split; [done|]. split; [done|lia].
Qed.

Lemma drop_rep s logs i : fls_rep s logs -> exists k s', (k <= length logs)%nat /\
  (_ ← set_readers (drop i (s_rs s)); on_fs (purgeTableReaders (take i (s_rs s)))) s = (Ret tt, s') /\ fls_rep s' (drop k logs) /\
  s_rs s' = drop i (s_rs s) /\
  forall l, l ∈ take k logs -> exists t l', t ∈ take i (s_rs s) /\ l' ∈ take k logs /\ ID l <= ID l' /\ CreateTime l' = tr_lastTime t.
Proof.
  intros (Hc & segs & wl & -> & HP). destruct (drop_tables s segs wl i HP) as (fs' & E & HP'). destruct (concat_drop segs i) as (k & ED & ET & Hk). exists k. eexists.
  split; [rewrite length_app; lia|]. split; [unfold mbind, SM_bind, set_readers; by rewrite (run_fs _ _ _ (mkFileStore (s_fs s) _ _ _) E)|]. split; [|split; [done|]].
  - rewrite drop_app_le by lia. rewrite <- ED. split; [rewrite ED, <- drop_app_le by lia; by apply chain_drop|]. by exists (drop i segs), wl.
  - intros l Hl. rewrite take_app_le, ET in Hl |- * by lia. apply elem_of_segs in Hl as (j & x & Ex & Hl). destruct HP as [HR _ _ _].
    destruct (Forall2_lookup_r _ _ _ _ _ (Forall2_take _ _ _ i HR) Ex) as (t & Et & Hx).
    apply lookup_take_Some in Ex as [Ex Hj]. destruct (last_index x (ra_ne _ _ _ Hx)) as (l' & El' & Hl'). exists t, l'.
    split; [by eapply list_elem_of_lookup_2|]. split; [apply elem_of_segs; exists j, x; split; [by apply lookup_take_Some|by eapply list_elem_of_lookup_2]|]. split.
    + pose proof (chain_range x l (seg_chain _ _ _ _ Hc Ex) Hl) as [_ HR']. unfold last_id in HR'. by rewrite El' in HR'.
    + rewrite (ra_time _ _ _ Hx). unfold last_time. by rewrite El'.
Qed.

Lemma first_newer_old t rs i : first_newer t rs = Some i -> Forall (fun r => tr_lastTime r <= t) (take i rs) /\ (i < length rs)%nat.
Proof.
  revert i. induction rs as [|r rs IH]; intros i; cbn [first_newer]; [done|]. destruct (tr_lastTime r >? t) eqn:E; zify_bool.
  - intros [= <-]. split; [constructor|cbn; lia].
  - destruct (first_newer t rs) as [j|]; [|done]. intros [= <-]. destruct (IH j eq_refl). split; [by constructor|cbn; lia].
Qed.

(** Purging removes the first logs of the store, tables of logs that are old. *)
Lemma fls_purge s logs now n : fls_rep s logs -> exists k s', fls_PurgeExpired now n s = (Ret None, s') /\ fls_rep s' (drop k logs) /\ (k <= length logs)%nat /\
  forall l, l ∈ take k logs -> exists l', l' ∈ take k logs /\ ID l <= ID l' /\ CreateTime l' <= uint32 (now - n).
Proof.
  intros HR. unfold fls_PurgeExpired, get_store, mbind at 1, SM_bind at 1. destruct (first_newer _ (s_rs s)) as [i|] eqn:E.
  - destruct (first_newer_old _ _ _ E) as [Hold _]. destruct (drop_rep s logs i HR) as (k & s' & Hk & ES & HR' & _ & HT). exists k, s'. split.
    + unfold mbind, SM_bind in ES |- *. cbn in ES |- *. destruct (on_fs _ _) as [o s2] eqn:E2. injection ES as -> ->. done.
    + split; [done|]. split; [done|]. intros l Hl. destruct (HT l Hl) as (t & l' & Ht & Hl' & HI & ET). exists l'. split; [done|]. split; [done|].
      rewrite Forall_forall in Hold. rewrite ET. by apply Hold.
  - exists 0%nat, s. split; [done|]. rewrite drop_0. split; [done|]. split; [lia|]. intros l Hl. by apply not_elem_of_nil in Hl.
Qed.

Lemma newTableWriter_new (fs : FS) (index size : Z) (mmap : bool) : 0 < index -> 0 <= size <= 2 ^ 30 -> fs !! DataName index = None -> fs !! MetaName index = None ->
  exists w, newTableWriter index size mmap = Ret w /\ tw_index w = index /\ writer_at fs w [].
Proof.
  intros Hi Hs H1 H2. unfold newTableWriter. rewrite (proj2 (Z.leb_gt _ _)) by lia. eexists. split; [done|]. split; [done|]. split; [done|done|done|]. right. split; [done|]. by split.
Qed.

Lemma log_file_size_ok : 0 <= cfg_MaxLogFileSize -> 0 <= log_file_size <= 2 ^ 30.
Proof. unfold log_file_size, maxLogFileSize, defaultMaxLogFileSize. intros H. case_match; lia. Qed.

Lemma fls_clear s logs : 0 <= cfg_MaxLogFileSize -> fls_rep s logs -> exists s', fls_Clear s = (Ret None, s') /\ fls_rep s' [].
Proof.
  intros Hs (Hc & segs & wl & -> & [_ HW _ _]). unfold fls_Clear, get_store, mbind, SM_bind, mret, SM_ret, set_readers, set_writer.
  assert (exists w fs, tw_Close (s_w s) (s_fs s) = (Ret w, fs)) as (w & fs & EC).
  { unfold tw_Close, mbind, SM_bind. destruct HW as [_ _ _ [(_ & d & m & HO)|[_ [[E1 E2] _ _]]]].
    - destruct (close_ok _ _ _ _ _ HO) as (fs & -> & _). by do 2 eexists.
    - unfold tw_close, mbind, SM_bind. rewrite E1, E2. by do 2 eexists. }
  rewrite (run_fs _ _ _ _ EC). destruct (newTableWriter_new ∅ 1 log_file_size cfg_UseMmap ltac:(lia) (log_file_size_ok Hs) (lookup_empty _) (lookup_empty _)) as (w1 & E1 & I1 & HW1).
  unfold on_fs, os_RemoveAll, of_outcome. cbn [s_fs s_rs s_w s_now]. rewrite E1. eexists. split; [done|]. split; [apply chain_nil|]. exists [], []. split; [done|].
  split; cbn [s_fs s_rs s_w]; [constructor|done|by repeat constructor|]. intros i _ _. by rewrite !lookup_empty.
Qed.

(** One tick of the background check keeps at most the number of tables configured. *)
Lemma fls_tick s logs : 0 <= cfg_MaxLogFileNum -> fls_rep s logs -> exists k s', checkTableReaders s = (Ret tt, s') /\ fls_rep s' (drop k logs) /\ (k <= length logs)%nat /\
  len (s_rs s') <= cfg_MaxLogFileNum.
Proof.
  intros Hm (Hc & segs & wl & -> & [HR HW HI HF]). unfold checkTableReaders, get_store, mbind at 1, SM_bind at 1.
  set (rs := map (fun r => if negb (Keepalived (s_now s) r) then tr_Close r else r) (s_rs s)).
  assert (HR' : Forall2 (reader_at (s_fs s)) rs segs).
  { subst rs. clear HI HF. induction HR as [|t x ts xs Hx HR IH]; [constructor|]. cbn [concat] in Hc. cbn [map]. constructor; [|apply IH; rewrite <- app_assoc in Hc; by eapply chain_app_r]. destruct (negb _); [|done]. by destruct Hx; split. }
  assert (EI : map tr_index rs = map tr_index (s_rs s)) by (subst rs; rewrite map_map; apply map_ext; intros r; by destruct (negb _)).
  set (s1 := mkFileStore (s_fs s) rs (s_w s) (s_now s)). assert (HP1 : fls_parts s1 segs wl) by (by split; cbn [s_fs s_rs s_w s1]; rewrite ?EI).
  assert (HR1 : fls_rep s1 (concat segs ++ wl)) by (split; [done|by exists segs, wl]). destruct (len rs >? cfg_MaxLogFileNum) eqn:E; zify_bool.
  - rewrite (proj2 (Z.ltb_ge _ _)) by lia. destruct (drop_rep s1 _ (Z.to_nat (len rs - cfg_MaxLogFileNum)) HR1) as (k & s' & Hk & ES & HR2 & ER & _). exists k, s'.
    split; [exact ES|]. split; [done|]. split; [done|]. rewrite ER, length_drop. cbn [s_rs s1]. lia.
  - exists 0%nat, s1. rewrite drop_0. split; [done|]. split; [done|]. split; [lia|]. cbn [s_rs s1]. lia.
Qed.

(** ** Opening *)

Context {PS : SortPkgSpec P}.

Lemma NoDup_omap {A D} (f : A -> option D) (l : list A) : NoDup l -> (forall x y z, f x = Some z -> f y = Some z -> x = y) -> NoDup (omap f l).
Proof.
  intros HN Hf. induction HN as [|x l Hx HN IH]; [constructor|]. cbn. destruct (f x) as [z|] eqn:E; [|done]. constructor; [|done].
  intros (y & Hy & E')%list_elem_of_omap. by rewrite (Hf x y z E E') in Hx.
Qed.

Lemma table_indices_ok (fs : FS) idxs : StronglySorted Z.lt idxs -> Forall (fun i => 0 < i < 10 ^ 8) idxs -> (forall i, is_Some (fs !! DataName i) <-> i ∈ idxs) -> table_indices fs = idxs.
Proof.
  intros HS HB HI. unfold table_indices. set (l := omap _ _). apply (StronglySorted_unique Z.le).
  - apply StronglySorted_merge_sort; apply _.
  - eapply StronglySorted_impl; [|exact HS]. intros x y _ _. lia.
  - rewrite merge_sort_Permutation. subst l. apply NoDup_Permutation.
    + apply NoDup_omap; [apply NoDup_fst_map_to_list|]. intros [i|i] [j|j] z; cbn [table_index]; repeat case_match; congruence.
    + clear -HS. induction HS as [|x l HS IH HF]; constructor; [|done]. intros Hx. rewrite Forall_forall in HF. specialize (HF x Hx). lia.
    + intros i. rewrite list_elem_of_omap. split.
      * intros (x & ((y & f) & -> & Hf)%list_elem_of_fmap & E). cbn [fst] in E. destruct y as [j|j]; [|done]. cbn [table_index] in E. case_match; [|done]. injection E as ->.
        apply HI. exists f. by apply elem_of_map_to_list.
      * intros Hi. apply HI in Hi as Hs. destruct Hs as [f Hf]. exists (DataName i). split; [apply list_elem_of_fmap; exists (DataName i, f); split; [done|by apply elem_of_map_to_list]|].
        rewrite Forall_forall in HB. specialize (HB i Hi). cbn [table_index]. by rewrite (proj2 (Z.leb_le _ _)), (proj2 (Z.ltb_lt _ _)) by lia.
Qed.

Lemma check_tables_ok ts : forall last index, ordered ts -> StronglySorted Z.lt (map tr_index ts) ->
  (forall t, t ∈ ts -> last < tr_first t /\ index < tr_index t) -> check_tables last index ts = None.
Proof.
  induction ts as [|t ts IH]; intros last index Ho HI Ht; [done|]. cbn [check_tables]. destruct (Ht t ltac:(constructor)).
  rewrite (proj2 (Z.leb_gt _ _)), (proj2 (Z.leb_gt _ _)) by lia. cbn [map] in HI. apply StronglySorted_inv in HI as [HI HF]. apply IH; [|done|].
  - intros i j x y Hij Ex Ey. by apply (Ho (S i) (S j) x y); [lia|..].
  - intros x Hx. split.
    + apply list_elem_of_lookup in Hx as [i Hi]. by apply (Ho 0%nat (S i) t x); [lia|..].
    + rewrite Forall_forall in HF. apply HF. apply list_elem_of_fmap. by exists x.
Qed.

Lemma ordered_sorted ts : ordered ts -> Forall (fun t => tr_first t <= tr_last t) ts -> StronglySorted (fun x y => tr_first x < tr_first y) ts.
Proof.
  induction ts as [|t ts IH]; intros Ho HF; constructor.
  - apply Forall_cons in HF as [_ HF]. apply IH; [|done]. intros i j x y Hij Ex Ey. by apply (Ho (S i) (S j) x y); [lia|..].
  - apply Forall_cons in HF as [Ht _]. apply Forall_forall. intros x [i Hi]%list_elem_of_lookup. pose proof (Ho 0%nat (S i) t x ltac:(lia) eq_refl Hi). lia.
Qed.

Lemma rs_check_ok fs rs segs : Forall2 (reader_at fs) rs segs -> chain (concat segs) -> StronglySorted Z.lt (map tr_index rs) -> rs_check rs = (rs, None).
Proof.
  intros HR Hc HI. rewrite <- (app_nil_r (concat segs)) in Hc. pose proof (readers_ordered _ _ _ _ HR Hc) as Ho. pose proof (readers_ranges _ _ _ _ HR Hc) as Hr.
  destruct rs as [|t rs]; [done|]. unfold rs_check. rewrite sort_id by (by apply ordered_sorted). f_equal.
  destruct segs as [|x segs]; [by apply Forall2_nil_inv_r in HR|]. pose proof (proj1 (proj1 (Forall2_cons _ _ _ _ _) HR)) as Hx.
  apply Forall_cons in Hr as [Hr _]. assert (0 < tr_first t).
  { rewrite (ra_first _ _ _ Hx). destruct (chain_first_pos x (seg_chain _ _ 0 x Hc eq_refl)) as [|]; [by destruct (ra_ne _ _ _ Hx)|done]. }
  rewrite (proj2 (Z.eqb_neq _ _)), Z.gtb_ltb, (proj2 (Z.ltb_ge _ _)) by lia. cbn [orb map] in *. apply StronglySorted_inv in HI as [HI HF]. apply check_tables_ok; [|done|].
  - intros i j a b Hij Ea Eb. by apply (Ho (S i) (S j) a b); [lia|..].
  - intros y Hy. split.
    + apply list_elem_of_lookup in Hy as [i Hi]. by apply (Ho 0%nat (S i) t y); [lia|..].
    + rewrite Forall_forall in HF. apply HF. apply list_elem_of_fmap. by exists y.
Qed.

Lemma load_closed (fs : FS) idxs segs : Forall2 (fun i x => 0 < i /\ x <> [] /\ chain x /\ table_files fs i x) idxs segs -> exists rs,
  load_tables idxs fs = (Ret rs, fs) /\ map tr_index rs = idxs /\ Forall2 (reader_at fs) rs segs.
Proof using.
  induction 1 as [|i x idxs segs (Hi & Hne & Hc & Hf) _ (rs & E & EI & HR)]; [by exists []|]. cbn [load_tables]. unfold mbind, SM_bind.
  destruct (newTableReader_ok fs i cfg_UseMmap x Hi Hne Hc Hf) as (t & ET & It & Ht). rewrite ET, E. exists (t :: rs). split; [done|]. split; [cbn; by rewrite It, EI|]. by constructor.
Qed.

Lemma load_app idxs i (fs fs' fs'' : FS) rs t : load_tables idxs fs = (Ret rs, fs') -> newTableReader i cfg_UseMmap fs' = (Ret (inl t), fs'') ->
  load_tables (idxs ++ [i]) fs = (Ret (rs ++ [t]), fs'').
Proof using.
  revert fs rs. induction idxs as [|j idxs IH]; intros fs rs; cbn [load_tables app]; unfold mbind, SM_bind.
  - intros [= <- <-] ->. done.
  - destruct (newTableReader j cfg_UseMmap fs) as [[r|] fs1]; [|done]. destruct (load_tables idxs fs1) as [[rs1|] fs2] eqn:E; [|done]. intros [= <- <-] Ht.
    rewrite (IH _ _ E Ht). by destruct r.
Qed.

(** The readers that were loaded make a store that holds their logs. *)
Lemma open_loaded now (fs fs' : FS) idxs rs segs : 0 <= cfg_MaxLogFileSize -> table_indices fs = idxs -> load_tables idxs fs = (Ret rs, fs') -> map tr_index rs = idxs ->
  Forall2 (reader_at fs') rs segs -> chain (concat segs) -> StronglySorted Z.lt idxs ->
  (forall i, i ∉ idxs -> fs' !! DataName i = None /\ fs' !! MetaName i = None) ->
  exists s, NewFileStore now fs = (Ret (inl s), fs') /\ fls_rep s (concat segs) /\ s_fs s = fs'.
Proof using PS.
  intros Hs ET EL EI HR Hc HI HF. unfold NewFileStore, load, looks, mbind, SM_bind. rewrite ET, EL. cbn [mret SM_ret].
  rewrite <- EI in HI. rewrite (rs_check_ok fs' rs segs HR Hc HI). set (index := match last rs with Some r => tr_index r + 1 | None => 1 end).
  assert (Hidx : forall r, r ∈ rs -> 0 < tr_index r < index).
  { intros r Hr. split. { apply list_elem_of_lookup in Hr as [i Hi]. destruct (Forall2_lookup_l _ _ _ _ _ HR Hi) as (x & _ & Hx). apply Hx. }
    destruct rs as [|z rs' _] using rev_ind; [by apply not_elem_of_nil in Hr|]. subst index. rewrite last_snoc. apply elem_of_app in Hr as [Hr|Hr%list_elem_of_singleton].
    - rewrite map_app in HI. cbn [map] in HI. pose proof (sorted_lt_last _ _ (tr_index r) HI ltac:(apply list_elem_of_fmap; by exists r)). lia.
    - subst. lia. }
  assert (Hpos : 0 < index).
  { subst index. destruct (last rs) as [z|] eqn:Ez; [|lia]. rewrite last_lookup in Ez. destruct (Forall2_lookup_l _ _ _ _ _ HR Ez) as (x & _ & Hx). pose proof (ra_index _ _ _ Hx). lia. }
  assert (Hnot : index ∉ map tr_index rs) by (intros (r & Er & Hr)%list_elem_of_fmap; specialize (Hidx r Hr); lia).
  rewrite EI in Hnot. destruct (HF index Hnot) as [N1 N2].
  destruct (newTableWriter_new fs' index log_file_size cfg_UseMmap Hpos (log_file_size_ok Hs) N1 N2) as (w & EW & IW & HW). unfold of_outcome. rewrite EW.
  eexists. split; [done|]. split; [|done]. split; [done|]. exists segs, []. split; [by rewrite app_nil_r|]. split; cbn [s_fs s_rs s_w].
  - done.
  - destruct HW as [W1 W2 W3 [(? & _)|[_ [N3 N4 N5]]]]; [done|]. split; [done..|]. right. by split; [|split].
  - cbn [SetSyncType tw_index]. rewrite IW. apply StronglySorted_app_2; [|done|by repeat constructor]. intros x y (r & -> & Hr)%list_elem_of_fmap ->%list_elem_of_singleton. by apply Hidx.
  - intros i Hi _. apply HF. by rewrite <- EI.
Qed.

(** ** Closing and crashing *)

(** The tables of a store that was closed, or that has no open table. *)
Lemma reader_tables (fs : FS) rs segs wl : Forall2 (reader_at fs) rs segs -> chain (concat segs ++ wl) ->
  Forall2 (fun i x => 0 < i /\ x <> [] /\ chain x /\ table_files fs i x) (map tr_index rs) segs.
Proof using.
  intros HR Hc. apply Forall2_fmap_l. apply Forall2_same_length_lookup_2; [by apply Forall2_length in HR|]. intros i t x Et Ex.
  destruct (Forall2_lookup_lr _ _ _ _ _ _ HR Et Ex) as [H1 H2 H3 _ _ _ _ _]. split; [done|]. split; [done|]. split; [by eapply seg_chain|done].
Qed.

Lemma open_closed now (fs : FS) rs segs : 0 <= cfg_MaxLogFileSize -> Forall2 (reader_at fs) rs segs -> chain (concat segs) -> StronglySorted Z.lt (map tr_index rs) ->
  Forall (fun t => tr_index t < 10 ^ 8) rs -> (forall i, i ∉ map tr_index rs -> fs !! DataName i = None /\ fs !! MetaName i = None) ->
  exists s, NewFileStore now fs = (Ret (inl s), fs) /\ fls_rep s (concat segs) /\ s_fs s = fs.
Proof using PS.
  intros Hs HR Hc HI HB HF. pose proof Hc as Hc'. rewrite <- (app_nil_r (concat segs)) in Hc'. destruct (load_closed fs _ _ (reader_tables _ _ _ _ HR Hc')) as (rs' & EL & EI & HR').
  apply (open_loaded now fs fs (map tr_index rs) rs' segs); try done. apply table_indices_ok; [done| |].
  - apply Forall_fmap. apply Forall_lookup. intros i t Et. rewrite Forall_lookup in HB. split; [|by eapply HB]. destruct (Forall2_lookup_l _ _ _ _ _ HR Et) as (x & _ & Hx). apply Hx.
  - intros i. split.
    + intros [f Hf]. destruct (decide (i ∈ map tr_index rs)) as [|Hn]; [done|]. destruct (HF i Hn). congruence.
    + intros (t & -> & [j Hj]%list_elem_of_lookup)%list_elem_of_fmap. destruct (Forall2_lookup_l _ _ _ _ _ HR Hj) as (x & _ & Hx). destruct Hx as [_ _ [_ -> _] _ _ _ _ _]. by eexists.
Qed.

Lemma fls_reopen s logs now : 0 <= cfg_MaxLogFileSize -> tw_index (s_w s) < 10 ^ 8 -> fls_rep s logs -> exists s1 s2,
  fls_Close s = (Ret None, s1) /\ NewFileStore now (s_fs s1) = (Ret (inl s2), s_fs s1) /\ fls_rep s2 logs.
Proof using PS.
  intros Hs Hw (Hc & segs & wl & -> & HP). unfold fls_Close, get_store, mbind, SM_bind, mret, SM_ret, set_writer, set_readers.
  pose proof HP as [HR HW HI HF]. destruct (decide (wl = [])) as [->|Hne].
  - assert (EF : tw_Flush (s_w s) (s_fs s) = (Ret (s_w s, inr errNilHandler), s_fs s)).
    { destruct HW as [_ _ _ [(? & _)|[_ [[E1 E2] _ _]]]]; [done|]. unfold tw_Flush. by rewrite E1. }
    rewrite (run_fs _ _ _ _ EF). eexists. cbn [s_fs]. rewrite app_nil_r in *. destruct (open_closed now (s_fs s) (s_rs s) segs Hs HR Hc) as (s2 & E2 & HR2 & _).
    + by apply StronglySorted_app_1_l in HI.
    + apply Forall_forall. intros t Ht. pose proof (index_ne _ _ _ HI Ht). lia.
    + intros i Hi. apply HF; [done|by left].
    + exists s2. by split.
  - destruct (flush_step s segs wl HP Hne) as (w1 & t & fs1 & E1 & [HR1 HW1 HI1 HF1] & _). rewrite (run_fs _ _ _ _ E1). cbn [s_fs s_rs s_w s_now] in *.
    assert (exists w2, tw_Close w1 fs1 = (Ret w2, fs1)) as [w2 EC].
    { unfold tw_Close, tw_close, mbind, SM_bind. destruct HW1 as [_ _ _ [(? & _)|[_ [[E2 E3] _ _]]]]; [done|]. rewrite E2, E3. by eexists. }
    rewrite (run_fs _ _ _ (mkFileStore fs1 _ _ _) EC). eexists. cbn [s_fs].
    assert (Hcc : concat (segs ++ [wl]) = concat segs ++ wl) by (rewrite concat_app; cbn [concat]; by rewrite app_nil_r).
    destruct (open_closed now fs1 (s_rs s ++ [t]) (segs ++ [wl]) Hs HR1) as (s2 & E2 & HR2 & _).
    + by rewrite Hcc.
    + by apply StronglySorted_app_1_l in HI1.
    + destruct (Flush_ok _ _ _ HW Hne) as (w1' & t' & fs1' & E1' & _ & Ei & _). rewrite E1 in E1'. injection E1' as <- <- <-. apply Forall_forall. intros x Hx.
      apply elem_of_app in Hx as [Hx| ->%list_elem_of_singleton]; [pose proof (index_ne _ _ _ HI Hx); lia|lia].
    + intros i Hi. apply HF1; [done|by left].
    + exists s2. rewrite Hcc in HR2. by split.
Qed.

(** The files after a crash while [l] was appended: [k] bytes of its record reached the data
    file of the open table. *)
Definition crash_files s logs (l : Log) (k : Z) (fs : FS) : Prop := exists segs wl n r f,
  fls_parts s segs wl /\ logs = concat segs ++ wl /\ torn_data f wl l k n /\ 0 <= r /\ (wl <> [] \/ LogHeadSize <= k) /\ (LogHeadSize <= k -> full (s_w s) = false) /\
  fs !! DataName (tw_index (s_w s)) = Some f /\ fs !! MetaName (tw_index (s_w s)) = Some (metas 0 wl ++ zeros r) /\ only_table (tw_index (s_w s)) (s_fs s) fs.

Lemma recovered_app a b l k : recovered (a ++ b) l k = a ++ recovered b l k.
Proof using. unfold recovered. destruct (_ <? _); [done|]. by rewrite app_assoc. Qed.

Lemma recovered_ne wl l k : wl <> [] \/ LogHeadSize <= k -> recovered wl l k <> [].
Proof using. unfold recovered. intros H. destruct (k <? LogHeadSize) eqn:E; zify_bool; [destruct H; [done|lia]|by destruct wl]. Qed.

Lemma writer_starts (fs : FS) w wl : writer_at fs w wl -> starts_ok wl /\ (full w = false -> len (enc wl) < 2 ^ 32).
Proof using.
  intros [_ _ Hs [(_ & d & m & [O1 _ _ O4 (j & _ & _ & O5 & _) _ _ _ _])|[-> _]]].
  - split; [done|]. unfold full. rewrite O1, O5. intros H. zify_bool. lia.
  - split; [by intros i Hi%Nat.nlt_0_r|done].
Qed.

Lemma fls_crash s logs l k fs now : 0 <= cfg_MaxLogFileSize -> tw_index (s_w s) < 10 ^ 8 -> chain (logs ++ [l]) -> ID l < 2 ^ 60 -> crash_files s logs l k fs -> exists s2 fs2,
  NewFileStore now fs = (Ret (inl s2), fs2) /\ fls_rep s2 (recovered logs l k) /\ s_fs s2 = fs2.
Proof using PS.
  intros Hs Hw Hc Hid (segs & wl & n & r & f & [HR HW HI HF] & -> & Ht & Hr & Hrec & Hfull & Ed & Em & HO). set (idx := tw_index (s_w s)) in *.
  pose proof (recovered_ne wl l k Hrec) as Hne. rewrite <- app_assoc in Hc. pose proof (chain_app_r _ _ Hc) as Hcw. pose proof (chain_app_l _ _ Hc) as Hcs.
  destruct (writer_starts _ _ _ HW) as [Hst Hlen]. pose proof (wa_index _ _ _ HW : 0 < idx) as Hpos.
  assert (Hlt : forall t, t ∈ s_rs s -> tr_index t < idx) by (intros t Hr'; by eapply index_ne).
  assert (HR' : Forall2 (reader_at fs) (s_rs s) segs) by (eapply readers_only; [exact HO| |done]; intros t Hr'; specialize (Hlt t Hr'); lia).
  destruct (load_closed fs _ _ (reader_tables _ _ _ (wl ++ [l]) HR' Hc)) as (rs & EL & EI & HRs).
  destruct (newTableReader_torn fs idx cfg_UseMmap wl l k n f r Hpos Ht Hcw Hst ltac:(by auto) Hid Hne Hr Ed Em) as (t & fs2 & ET & It & HRt & HO2).
  assert (HRs2 : Forall2 (reader_at fs2) rs segs).
  { eapply readers_only; [exact HO2| |done]. intros x Hx. assert (tr_index x ∈ map tr_index rs) as Hx' by (apply list_elem_of_fmap; by exists x). rewrite EI in Hx'.
    pose proof (sorted_lt_last _ _ _ HI Hx'). lia. }
  assert (Hcr : chain (concat (segs ++ [recovered wl l k]))).
  { rewrite concat_app. cbn [concat]. rewrite app_nil_r, <- recovered_app. apply recovered_chain; [by apply Ht|]. by rewrite <- app_assoc. }
  destruct (open_loaded now fs fs2 (map tr_index (s_rs s) ++ [idx]) (rs ++ [t]) (segs ++ [recovered wl l k])) as (s2 & E2 & HR2 & EF2); try done.
  - apply table_indices_ok; [done| |].
    + apply Forall_forall. intros i Hi. split.
      * apply elem_of_app in Hi as [(x & -> & [j Hj]%list_elem_of_lookup)%list_elem_of_fmap| ->%list_elem_of_singleton]; [|done].
        destruct (Forall2_lookup_l _ _ _ _ _ HR Hj) as (y & _ & Hy). apply Hy.
      * apply elem_of_app in Hi as [Hi| ->%list_elem_of_singleton]; [|done]. pose proof (sorted_lt_last _ _ _ HI Hi). lia.
    + intros i. split.
      * intros [g Hg]. destruct (decide (i ∈ map tr_index (s_rs s) ++ [idx])) as [|Hn]; [done|]. rewrite not_elem_of_app, list_elem_of_singleton in Hn. destruct Hn as [Hn1 Hn2].
        destruct (HF i Hn1 ltac:(by right)) as [N1 _]. rewrite HO in Hg by congruence. congruence.
      * intros [(x & -> & [j Hj]%list_elem_of_lookup)%list_elem_of_fmap| ->%list_elem_of_singleton]%elem_of_app; [|by eexists].
        destruct (Forall2_lookup_l _ _ _ _ _ HR' Hj) as (y & _ & Hy). destruct Hy as [_ _ [_ -> _] _ _ _ _ _]. by eexists.
  - by eapply load_app.
  - rewrite map_app. cbn [map]. by rewrite EI, It.
  - apply Forall2_app; [done|by constructor].
  - intros i Hi. rewrite not_elem_of_app, list_elem_of_singleton in Hi. destruct Hi as [Hn1 Hn2]. eapply files_only; [exact HO2|done|]. eapply files_only; [exact HO|done|].
    apply HF; [done|by right].
  - exists s2, fs2. split; [done|]. split; [|done]. rewrite recovered_app. by rewrite concat_app in HR2; cbn [concat] in HR2; rewrite app_nil_r in HR2.
Qed.

(** ** Crashes between the writes of [StoreLog] *)

(** After the log before it, after the head and after the data of [l], the files of an open
    table are those of a crash. *)
Lemma crash_points s segs wl l : fls_parts s segs wl -> wl <> [] -> wf_log l -> full (s_w s) = false -> exists data fs1 fs2 m1 m2,
  tw_data (s_w s) = Some data /\ wf_Write data (head_of l) (s_fs s) = (Ret m1, fs1) /\ wf_Write m1 (LogData l) fs1 = (Ret m2, fs2) /\
  crash_files s (concat segs ++ wl) l 0 (s_fs s) /\ crash_files s (concat segs ++ wl) l LogHeadSize fs1 /\ crash_files s (concat segs ++ wl) l (log_Size l) fs2.
Proof using.
  intros HP Hne Hl Hf. pose proof HP as [_ HW _ _]. destruct HW as [_ _ _ [(_ & data & meta & [O1 O2 [N1 N2] O4 O5 O6 O7 O8 O9])|[-> _]]]; [|done].
  destruct (Write_keeps _ _ _ (head_of l) O5) as (fs1 & E1 & K1 & S1). destruct (Write_keeps _ _ _ (LogData l) K1) as (fs2 & E2 & K2 & S2).
  exists data, fs1, fs2. do 2 eexists. split; [done|]. split; [done|]. split; [done|]. destruct O6 as (r & Hr & _ & _ & O6). cbn [wf_name SetOffset] in *. rewrite N1 in S1, S2.
  pose proof (Encode_length l) as HEl. pose proof (head_of_length l) as HHl. assert (17 <= log_Size l) by (unfold log_Size, LogHeadSize; lia). split; [|split].
  - destruct O5 as (n & Hn & _ & _ & O5). exists segs, wl, n, r, (enc wl ++ zeros n). rewrite N1 in O5. rewrite N2 in O6.
    split; [done|]. split; [done|]. split; [|by auto 10 using only_table_refl]. split; [done|lia|done|by right; left].
  - destruct K1 as (n & Hn & _ & _ & K1). cbn [wf_name SetOffset] in K1. rewrite N1 in K1. rewrite N2 in O6. exists segs, wl, n, r, ((enc wl ++ head_of l) ++ zeros n).
    split; [done|]. split; [done|]. split; [|split; [done|split; [by left|split; [done|split; [exact K1|split; [by rewrite S1|by apply only_data]]]]]].
    split; [|unfold LogHeadSize; lia|done|by right; right]. rewrite <- app_assoc, (Encode_head l). by rewrite <- HHl, take_app_len.
  - destruct K2 as (n & Hn & _ & _ & K2). cbn [wf_name SetOffset] in K2. rewrite N1 in K2. rewrite N2 in O6. exists segs, wl, n, r, (((enc wl ++ head_of l) ++ LogData l) ++ zeros n).
    split; [done|]. split; [done|]. split; [|split; [done|split; [by left|split; [done|split; [exact K2|split; [by rewrite S2, S1|]]]]]].
    + split; [|lia|done|right; right; unfold LogHeadSize; lia]. rewrite take_ge by lia. rewrite Encode_head. by rewrite <- !app_assoc.
    + intros x Hd Hm. rewrite S2, S1 by done. done.
Qed.

(** ** Where recovery goes wrong *)

(** A directory with one table. *)
Definition one_table (i : Z) (fs : FS) : Prop := is_Some (fs !! DataName i) /\ forall n, n <> DataName i -> n <> MetaName i -> fs !! n = None.

Lemma one_table_indices i (fs : FS) : 0 < i < 10 ^ 8 -> one_table i fs -> table_indices fs = [i].
Proof using.
  intros Hi [H1 H2]. apply table_indices_ok; [by repeat constructor|by constructor; [|constructor]|]. intros j. rewrite list_elem_of_singleton. split; [|by intros ->].
  intros [f Hf]. destruct (decide (j = i)) as [|Hj]; [done|]. rewrite H2 in Hf by congruence. done.
Qed.

Lemma rs_check_one t : rs_check [t] = ([t], if (tr_first t =? 0) || (tr_first t >? tr_last t) then Some errTable else None).
Proof using PS.
  unfold rs_check. set (l := sort_Sort _ [t]). assert (l = [t]) as ->; [|done]. apply Permutation_singleton_r. apply sort_perm.
Qed.

(** The store on one table that does not pass the check is made of what [repair] finds. *)
Lemma open_repaired now i (fs fs' : FS) range err first last lastTime : 0 < i < 10 ^ 8 -> one_table i fs -> tr_check i fs = (Ret (range, Some err), fs) ->
  repair i range.2 fs = (Ret (first, last, lastTime), fs') ->
  NewFileStore now fs = (Ret (if (first =? 0) || (first >? last) then inr errTable else
    inl (mkFileStore fs' [mkTR i None None first last lastTime 0 cfg_UseMmap]
      (mkTW None None (i + 1) 0 0 0 log_file_size false cfg_SyncType cfg_UseMmap) now)), fs').
Proof using PS.
  intros Hi Ho EC ER. unfold NewFileStore, load, looks, mbind, SM_bind. rewrite (one_table_indices i fs Hi Ho). cbn [load_tables]. unfold mbind, SM_bind, newTableReader.
  rewrite (proj2 (Z.leb_gt _ _)) by lia. unfold mbind, SM_bind. rewrite EC. destruct range as [[f1 l1] t1]. cbn [snd] in ER. rewrite ER. cbn [mret SM_ret].
  rewrite rs_check_one. cbn [tr_first tr_last]. destruct (_ || _); [done|]. cbn [list.last mret SM_ret tr_index]. unfold of_outcome, newTableWriter.
  rewrite (proj2 (Z.leb_gt _ _)) by lia. done.
Qed.

(** The file of the first table was made and nothing written to it: the next start fails, and
    the start after it takes the magic that [repair] has written for a log. *)
Lemma open_created now i : 0 < i < 10 ^ 8 -> exists fs1 s fs2,
  NewFileStore now {[DataName i := []]} = (Ret (inr errTable), fs1) /\ NewFileStore now fs1 = (Ret (inl s), fs2) /\
  fls_LastID s = (Ret (0x1c1db888ff9e4555, None), s).
Proof using PS.
  intros Hi. set (fs := {[DataName i := []]} : FS). assert (Ed : fs !! DataName i = Some []) by (by apply lookup_singleton_eq).
  assert (Ho : one_table i fs) by (split; [by eexists|]; intros n Hn _; by apply lookup_singleton_ne).
  destruct (tr_check_no_meta fs i) as (range & err & EC); [by apply lookup_singleton_ne|].
  assert (Ht : torn_data [] [] magic_log 0 0) by (split; [done|unfold log_Size, LogHeadSize; lia|done|by left]).
  assert (Hc : chain ([] ++ [magic_log])) by (apply chain_snoc; [apply chain_nil|apply magic_log_wf|by left]).
  destruct (repair_torn fs i range.2 [] magic_log 0 0 [] Ht Hc Ed) as (fs1 & ER & Ed1 & Em1 & HO1).
  pose proof (open_repaired now i fs fs1 range err 0 0 range.2 Hi Ho EC ER) as E1.
  assert (Ho1 : one_table i fs1) by (split; [by eexists|]; intros n Hd Hm; rewrite HO1 by done; by apply lookup_singleton_ne).
  assert (exists range1 err1, tr_check i fs1 = (Ret (range1, Some err1), fs1)) as (range1 & err1 & EC1).
  { unfold tr_check, checkMeta, newReadFile, rf_Size, looks, mbind, SM_bind. rewrite Em1. cbn [rf_name]. rewrite (content_some _ _ _ Em1). by do 2 eexists. }
  destruct (repair_magic fs1 i range1.2 [] chain_nil eq_refl Ed1) as (fs2 & ER1).
  pose proof (open_repaired now i fs1 fs2 range1 err1 _ _ _ Hi Ho1 EC1 ER1) as E2. exists fs1. do 2 eexists. split; [exact E1|]. split; [exact E2|done].
Qed.

(** [PurgeExpired] keeps all tables when all of them are old. *)
Lemma purge_none s now n : Forall (fun t => tr_lastTime t <= uint32 (now - n)) (s_rs s) -> fls_PurgeExpired now n s = (Ret None, s).
Proof using.
  intros H. unfold fls_PurgeExpired, mbind, SM_bind, get_store. assert (first_newer (uint32 (now - n)) (s_rs s) = None) as ->; [|done].
  induction H as [|t rs Ht H IH]; [done|]. cbn [first_newer]. rewrite Z.gtb_ltb, (proj2 (Z.ltb_ge _ _)) by done. by rewrite IH.
Qed.

Lemma get_zero s : fls_rep s [] -> fls_GetLog 0 s = (Panic, s).
Proof using.
  intros (_ & segs & wl & E & [_ HW _ _]). symmetry in E. apply app_eq_nil in E as [_ ->]. destruct HW as [_ _ _ [(? & _)|[_ [[_ E2] _ [E3 E4]]]]]; [done|].
  unfold fls_GetLog, mbind, SM_bind, get_store, on_fs, tw_GetLog. rewrite E2, E3, E4. cbn. by destruct s.
Qed.

(** The writer of a table without logs takes any log. *)
Lemma store_any s logs l : fls_rep s logs -> tw_last (s_w s) = 0 -> wf_log l -> exists s',
  fls_StoreLog l s = (Ret None, s') /\ fls_LastID s' = (Ret (ID l, None), s').
Proof using.
  intros (Hc & segs & wl & -> & [_ HW _ _]) Hl Wl. pose proof (wl_id _ Wl). assert (wl = []) as ->.
  { destruct HW as [_ _ _ [(Hne & d & m & HO)|[-> _]]]; [|done]. rewrite (wo_last _ _ _ _ _ HO) in Hl. destruct (last_elem wl Hne) as (x & Hx & Ex). apply list_elem_of_lookup in Hx as [i Hi].
    pose proof (chain_ids _ _ _ (chain_app_r _ _ Hc) Hi) as [_ Wx]. pose proof (wl_id _ Wx). lia. }
  assert (Hf : full (s_w s) = false) by (destruct HW as [_ _ _ [(? & _)|[_ [[E _] _ _]]]]; [done|]; unfold full; by rewrite E).
  destruct (store_ok _ _ [] l HW ltac:(apply chain_snoc; [apply chain_nil|done|by left]) Hf) as (w & fs & E & HW' & _ & _).
  unfold fls_StoreLog, mbind, SM_bind, get_store. rewrite (run_fs _ _ _ _ E). cbn. eexists. split; [done|].
  destruct (writer_last _ _ _ HW') as [_ L]. unfold fls_LastID, mbind, SM_bind, get_store. cbn [s_w]. rewrite L. unfold last_id. cbn [last app list.last].
  by rewrite Z.gtb_ltb, (proj2 (Z.ltb_lt _ _)) by lia.
Qed.

Lemma store_refused s logs l : fls_rep s logs -> 0 < tw_last (s_w s) -> wf_log l -> ID l <> uint64 (last_id logs + 1) -> fls_StoreLog l s = (Ret (Some ErrStoreLogID), s).
Proof using.
  intros (Hc & segs & wl & -> & [_ HW _ _]) Hp Wl Hid. destruct (writer_last _ _ _ HW) as [_ L]. rewrite L in Hp.
  assert (last_id (concat segs ++ wl) = last_id wl) as E. { unfold last_id in *. rewrite last_app. by destruct (last wl). }
  rewrite E in Hid. unfold fls_StoreLog, mbind, SM_bind, get_store, on_fs, tw_storeLog. rewrite (proj2 (Z.eqb_neq (ID l) 0)) by (pose proof (wl_id _ Wl); lia).
  rewrite (wa_open _ _ _ HW), L, Z.gtb_ltb, (proj2 (Z.ltb_lt _ _)), (proj2 (Z.eqb_neq _ _)) by done. cbn. by destruct s.
Qed.

Lemma open_panics now i (fs : FS) l1 l2 post : 0 < i < 10 ^ 8 -> one_table i fs -> wf_log l1 -> wf_log l2 -> ID l2 <= ID l1 ->
  fs !! MetaName i = None -> fs !! DataName i = Some (Encode l1 ++ head_of l2 ++ post) -> (NewFileStore now fs).1 = Panic.
Proof using.
  intros Hi Ho W1 W2 Hid Em Ed. destruct (tr_check_no_meta fs i Em) as (range & err & EC). unfold NewFileStore, load, looks, mbind, SM_bind.
  rewrite (one_table_indices i fs Hi Ho). cbn [load_tables]. unfold mbind, SM_bind, newTableReader. rewrite (proj2 (Z.leb_gt _ _)) by lia. unfold mbind, SM_bind. rewrite EC.
  destruct range as [[f1 z1] t1]. pose proof (repair_panics fs i t1 l1 l2 post W1 W2 Hid Ed) as HP. destruct (repair i t1 fs) as [o fs']. cbn [fst] in HP. by rewrite HP.
Qed.

End StoreSpec.

(** What holds of the replication on any log store holds on files. *)
#[global] Program Instance file_log_store_spec {P : SortPkg} {C : FileConfig} : LogStoreSpec file_log_store := {| ls_rep := fls_rep |}.
Next Obligation. intros P C s logs [Hc _]. done. Qed.
Next Obligation. intros P C s logs id. apply fls_get. Qed.
Next Obligation. intros P C s logs Hr. exists s. by split; [apply fls_first|]. Qed.
Next Obligation. intros P C s logs Hr. exists s. by split; [apply fls_last|]. Qed.
Next Obligation. intros P C s logs l Hr Hl Hid. apply fls_store; [done|done|by right]. Qed.

(** * The properties *)


(** The logs survive a restart.  An empty directory opens as a store without logs, and
    closing a store and opening its directory again gives a store with the same logs.  The
    names of the tables have eight digits, which bounds their number. *)
Lemma file_store_reopen {P : SortPkg} {PS : SortPkgSpec P} {C : FileConfig} (now : Z) :
  0 <= cfg_MaxLogFileSize ->
  (exists s, NewFileStore now ∅ = (Ret (inl s), ∅) /\ fls_rep s []) /\
  (forall s logs, tw_index (s_w s) < 10 ^ 8 -> fls_rep s logs -> exists s1 s2,
     fls_Close s = (Ret None, s1) /\ NewFileStore now (s_fs s1) = (Ret (inl s2), s_fs s1) /\ fls_rep s2 logs).
Proof.
  intros Hs. split.
  - destruct (open_closed now ∅ [] [] Hs) as (s & E & Hr & _); [by constructor|apply chain_nil|constructor|constructor|by intros i _; rewrite !lookup_empty|]. by exists s.
  - intros s logs Hi Hr. by apply fls_reopen.
Qed.


(** C37: what the store does not handle.  When the process ends after the first table was
    created and before a head was written, the next start fails, and the start after that
    opens the store with the first bytes of the magic taken for a log, so that the last id
    is 2025978305930216789.  Ids that are out of order in a table that is repaired end in a
    nil dereference.  A store whose writer has no logs, as after every start, takes a log
    with any id, also a lower one than the last.  [PurgeExpired] removes nothing when all
    tables are old enough to be removed.  [GetLog] of id 0 on a store without logs is a nil
    dereference. *)
Theorem file_store_anomalies {P : SortPkg} {PS : SortPkgSpec P} {C : FileConfig} (now : Z) :
  (forall i, 0 < i < 10 ^ 8 -> exists fs1 s fs2, NewFileStore now {[DataName i := []]} = (Ret (inr errTable), fs1) /\
     NewFileStore now fs1 = (Ret (inl s), fs2) /\ fls_LastID s = (Ret (2025978305930216789, None), s)) /\
  (forall i fs l1 l2 post, 0 < i < 10 ^ 8 -> one_table i fs -> wf_log l1 -> wf_log l2 -> ID l2 <= ID l1 -> fs !! MetaName i = None ->
     fs !! DataName i = Some (Encode l1 ++ head_of l2 ++ post) -> (NewFileStore now fs).1 = Panic) /\
  (forall s logs l, fls_rep s logs -> tw_last (s_w s) = 0 -> wf_log l -> exists s', fls_StoreLog l s = (Ret None, s') /\ fls_LastID s' = (Ret (ID l, None), s')) /\
  (forall s n, Forall (fun t => tr_lastTime t <= uint32 (now - n)) (s_rs s) -> fls_PurgeExpired now n s = (Ret None, s)) /\
  (forall s, fls_rep s [] -> fls_GetLog 0 s = (Panic, s)).
Proof.
  split; [intros i; by apply open_created|]. split; [intros i fs l1 l2 post; apply open_panics|]. split; [intros s logs l; apply store_any|].
  split; [intros s n; apply purge_none|intros s; apply get_zero].
Qed.

(** ** Witnesses *)

#[local] Existing Instances ex_sort ex_sort_spec.
Definition ex_files : FileConfig := {| cfg_MaxLogFileSize := 20; cfg_MaxLogFileNum := 1; cfg_SyncType := 0; cfg_UseMmap := false |}.
#[local] Existing Instance ex_files.

(** A store that has got the logs 7, 8 and 9, which are in two tables. *)
Definition ex_log8 : Log := mkLog 8 101 0 [4].
Definition ex_log9 : Log := mkLog 9 102 0 [5; 6].
Definition ex_writer : tableWriter := mkTW None None 1 0 0 0 20 false 0 false.
Definition ex_empty_store : FileStore := mkFileStore ∅ [] ex_writer 0.
Definition ex_file_store : FileStore := (fls_StoreLog ex_log9 (fls_StoreLog ex_log8 (fls_StoreLog ex_log ex_empty_store).2).2).2.

Lemma ex_chain_snoc logs l : chain logs -> wf_log l -> ID l = last_id logs + 1 -> chain (logs ++ [l]).
Proof. intros H1 H2 H3. by apply chain_snoc; [| |right]. Qed.

Lemma ex_empty_rep : fls_rep ex_empty_store [].
Proof.
  split; [apply chain_nil|]. exists [], []. split; [done|]. split; cbn [s_fs s_rs s_w ex_empty_store]; [constructor| |by repeat constructor|by intros; rewrite !lookup_empty].
  split; [done|done|done|]. right. split; [done|]. by split.
Qed.

Lemma ex_file_rep : fls_rep ex_file_store [ex_log; ex_log8; ex_log9].
Proof.
  destruct (fls_store _ _ ex_log ex_empty_rep ex_log_wf (or_introl eq_refl)) as (s1 & E1 & H1).
  destruct (fls_store _ _ ex_log8 H1 ltac:(done) (or_intror eq_refl)) as (s2 & E2 & H2).
  destruct (fls_store _ _ ex_log9 H2 ltac:(done) (or_intror eq_refl)) as (s3 & E3 & H3).
  assert (ex_file_store = s3) as ->; [|done]. unfold ex_file_store. rewrite E1. cbn [snd]. rewrite E2. cbn [snd]. by rewrite E3.
Qed.


Lemma file_store_reopen_witness : exists s1 s2, fls_Close ex_file_store = (Ret None, s1) /\ NewFileStore 50 (s_fs s1) = (Ret (inl s2), s_fs s1) /\
  fls_rep s2 [ex_log; ex_log8; ex_log9].
Proof. apply (file_store_reopen 50); [done|by vm_compute|apply ex_file_rep]. Defined.

Definition ex_log10 : Log := mkLog 10 103 0 [7; 8].


Lemma file_store_anomalies_witness : exists fs1 s fs2, NewFileStore 50 {[DataName 1 := []]} = (Ret (inr errTable), fs1) /\
  NewFileStore 50 fs1 = (Ret (inl s), fs2) /\ fls_LastID s = (Ret (2025978305930216789, None), s).
Proof. apply (file_store_anomalies 50). done. Defined.
