(* ===== verification/Keys.v ===== *)
(** * The key layout (src/ledis: const.go, ledis_db.go and the encode and decode functions)

    Every data structure of a database is spread over entries of the ordered store; this
    file holds the encoders and decoders of their keys.

    The results: every decoder inverts its encoder; the encoding of the whole key space
    ([encode]) is injective across key kinds and databases; score keys and expiration keys
    are ordered by score and time; the ranges used by the iterations of one collection hold
    exactly the entries of that collection. *)

From S2P Require Import Prelude Driver.

(** Type bytes of src/ledis/const.go. *)
Definition NoneType : Z := 0.
Definition KVType : Z := 1.
Definition HashType : Z := 2.
Definition HSizeType : Z := 3.
Definition ListType : Z := 4.
Definition LMetaType : Z := 5.
Definition ZSetType : Z := 6.
Definition ZSizeType : Z := 7.
Definition ZScoreType : Z := 8.
Definition SetType : Z := 11.
Definition SSizeType : Z := 12.
Definition maxDataType : Z := 100.
Definition ExpMetaType : Z := 102.
Definition ExpTimeType : Z := 103.

(** Sizes of src/ledis/const.go. *)
Definition MaxDatabases : Z := 10240.
Definition MaxKeySize : Z := 1024.
Definition MaxHashFieldSize : Z := 1024.
Definition MaxZSetMemberSize : Z := 1024.
Definition MaxSetMemberSize : Z := 1024.
Definition MaxValueSize : Z := 1024 * 1024 * 1024.

(** Separators of t_hash.go, t_set.go and t_zset.go. *)
Definition hashStartSep : Z := 58.
Definition hashStopSep : Z := hashStartSep + 1.
Definition setStartSep : Z := 58.
Definition setStopSep : Z := setStartSep + 1.
Definition zsetNScoreSep : Z := 60.
Definition zsetPScoreSep : Z := zsetNScoreSep + 1.
Definition zsetStartMemSep : Z := 58.
Definition zsetStopMemSep : Z := zsetStartMemSep + 1.

(** The part of a database handle that its key layout depends on. *)
Record DB := mkDB { index : Z; indexVarBuf : bytes }.

Definition setIndex (i : Z) : DB := mkDB i (PutUvarint (uint64 i)).

Definition decodeDBIndex (buf : bytes) : Z * Z * option error :=
  let '(index, n) := Uvarint buf in
  if n =? 0 then (0, 0, Some (errorf "buf is too small to save index"))
  else if n <? 0 then (0, 0, Some (errorf "value larger than 64 bits"))
  else if index >? MaxDatabases then (0, 0, Some (errorf "value is larger than max databases"))
  else (index, n, None).

Definition checkKeyIndex (db : DB) (buf : bytes) : Z + error :=
  if len buf <? len (indexVarBuf db) then inr (errorf "key is too small")
  else if negb (bool_decide (indexVarBuf db = take (length (indexVarBuf db)) buf))
  then inr (errorf "invalid db index")
  else inl (len (indexVarBuf db)).

(** Replaces the last byte of a buffer: [k[len(k)-1] = b]. *)
Definition set_last (k : bytes) (b : Z) : bytes := take (length k - 1) k ++ [b].

(** ** Keys without a member: kv, list meta and the three size keys *)

(** The shared shape of the decoders of these keys. *)
Definition decode_plain (T : Z) (err : error) (db : DB) (ek : bytes) : bytes + error :=
  match checkKeyIndex db ek with
  | inr e => inr e
  | inl pos =>
      if pos + 1 >? len ek then inr err
      else if negb (bool_decide (ek !! Z.to_nat pos = Some T)) then inr err
      else inl (drop (Z.to_nat (pos + 1)) ek)
  end.

Definition encodeKVKey (db : DB) (key : bytes) : bytes := indexVarBuf db ++ KVType :: key.
Definition decodeKVKey (db : DB) (ek : bytes) : bytes + error := decode_plain KVType errKVKey db ek.
Definition encodeKVMinKey (db : DB) : bytes := encodeKVKey db [].
Definition encodeKVMaxKey (db : DB) : bytes := set_last (encodeKVKey db []) (KVType + 1).

Definition lEncodeMetaKey (db : DB) (key : bytes) : bytes := indexVarBuf db ++ LMetaType :: key.
Definition lDecodeMetaKey (db : DB) (ek : bytes) : bytes + error := decode_plain LMetaType errLMetaKey db ek.

Definition hEncodeSizeKey (db : DB) (key : bytes) : bytes := indexVarBuf db ++ HSizeType :: key.
Definition hDecodeSizeKey (db : DB) (ek : bytes) : bytes + error := decode_plain HSizeType errHSizeKey db ek.

Definition sEncodeSizeKey (db : DB) (key : bytes) : bytes := indexVarBuf db ++ SSizeType :: key.
Definition sDecodeSizeKey (db : DB) (ek : bytes) : bytes + error := decode_plain SSizeType errSSizeKey db ek.

Definition zEncodeSizeKey (db : DB) (key : bytes) : bytes := indexVarBuf db ++ ZSizeType :: key.
Definition zDecodeSizeKey (db : DB) (ek : bytes) : bytes + error := decode_plain ZSizeType errZSizeKey db ek.

(** ** List elements *)

Definition lEncodeListKey (db : DB) (key : bytes) (seq : Z) : bytes :=
  indexVarBuf db ++ ListType :: be_put 2 (uint16 (len key)) ++ key ++ be_put 4 (uint32 seq).

Definition lDecodeListKey (db : DB) (ek : bytes) : (bytes * Z) + error :=
  match checkKeyIndex db ek with
  | inr e => inr e
  | inl pos =>
      if (pos + 1 >? len ek) || negb (bool_decide (ek !! Z.to_nat pos = Some ListType)) then inr errListKey
      else
        let pos := pos + 1 in
        if pos + 2 >? len ek then inr errListKey
        else
          let keyLen := be_get (take 2 (drop (Z.to_nat pos) ek)) in
          let pos := pos + 2 in
          if negb (keyLen + pos + 4 =? len ek) then inr errListKey
          else inl (take (Z.to_nat keyLen) (drop (Z.to_nat pos) ek),
                    int32 (be_get (take 4 (drop (Z.to_nat (pos + keyLen)) ek))))
  end.

(** ** Members of hashes and sets *)

Definition hEncodeHashKey (db : DB) (key field : bytes) : bytes :=
  indexVarBuf db ++ HashType :: be_put 2 (uint16 (len key)) ++ key ++ hashStartSep :: field.

Definition hEncodeStartKey (db : DB) (key : bytes) : bytes := hEncodeHashKey db key [].
Definition hEncodeStopKey (db : DB) (key : bytes) : bytes := set_last (hEncodeHashKey db key []) hashStopSep.

Definition sEncodeSetKey (db : DB) (key member : bytes) : bytes :=
  indexVarBuf db ++ SetType :: be_put 2 (uint16 (len key)) ++ key ++ setStartSep :: member.

Definition sEncodeStartKey (db : DB) (key : bytes) : bytes := sEncodeSetKey db key [].
Definition sEncodeStopKey (db : DB) (key : bytes) : bytes := set_last (sEncodeSetKey db key []) setStopSep.

(** The shared body of [hDecodeHashKey] and [sDecodeSetKey]: the separator is read at
    [pos], which may be one past the end of a malformed key. *)
Definition decode_member (T : Z) (err : error) (db : DB) (ek : bytes) : outcome ((bytes * bytes) + error) :=
  match checkKeyIndex db ek with
  | inr e => Ret (inr e)
  | inl pos =>
      if (pos + 1 >? len ek) || negb (bool_decide (ek !! Z.to_nat pos = Some T)) then Ret (inr err)
      else
        let pos := pos + 1 in
        if pos + 2 >? len ek then Ret (inr err)
        else
          let keyLen := be_get (take 2 (drop (Z.to_nat pos) ek)) in
          let pos := pos + 2 in
          if keyLen + pos >? len ek then Ret (inr err)
          else
            let key := take (Z.to_nat keyLen) (drop (Z.to_nat pos) ek) in
            let pos := pos + keyLen in
            match index_at ek pos with
            | Panic => Panic
            | Ret c =>
                if negb (c =? hashStartSep) then Ret (inr err)
                else Ret (inl (key, drop (Z.to_nat (pos + 1)) ek))
            end
  end.

Definition hDecodeHashKey (db : DB) (ek : bytes) : outcome ((bytes * bytes) + error) :=
  decode_member HashType errHashKey db ek.
Definition sDecodeSetKey (db : DB) (ek : bytes) : outcome ((bytes * bytes) + error) :=
  decode_member SetType errSetKey db ek.

(** ** Sorted sets *)

Definition zEncodeSetKey (db : DB) (key member : bytes) : bytes :=
  indexVarBuf db ++ ZSetType :: be_put 2 (uint16 (len key)) ++ key ++ zsetStartMemSep :: member.

(** [zDecodeSetKey] checks the key length against the position before the length field. *)
Definition zDecodeSetKey (db : DB) (ek : bytes) : outcome ((bytes * bytes) + error) :=
  match checkKeyIndex db ek with
  | inr e => Ret (inr e)
  | inl pos =>
      if (pos + 1 >? len ek) || negb (bool_decide (ek !! Z.to_nat pos = Some ZSetType)) then Ret (inr errZSetKey)
      else
        let pos := pos + 1 in
        if pos + 2 >? len ek then Ret (inr errZSetKey)
        else
          let keyLen := be_get (take 2 (drop (Z.to_nat pos) ek)) in
          if keyLen + pos >? len ek then Ret (inr errZSetKey)
          else
            let pos := pos + 2 in
            match slice ek pos (pos + keyLen) with
            | Panic => Panic
            | Ret key =>
                match index_at ek (pos + keyLen) with
                | Panic => Panic
                | Ret c =>
                    if negb (c =? zsetStartMemSep) then Ret (inr errZSetKey)
                    else Ret (inl (key, drop (Z.to_nat (pos + 1 + keyLen)) ek))
                end
            end
  end.

Definition zEncodeStartSetKey (db : DB) (key : bytes) : bytes := zEncodeSetKey db key [].
Definition zEncodeStopSetKey (db : DB) (key : bytes) : bytes :=
  set_last (zEncodeSetKey db key []) (zsetStartMemSep + 1).

Definition zEncodeScoreKey (db : DB) (key member : bytes) (score : Z) : bytes :=
  indexVarBuf db ++ ZScoreType :: be_put 2 (uint16 (len key)) ++ key ++
  (if score <? 0 then zsetNScoreSep else zsetPScoreSep) :: be_put 8 (uint64 score) ++
  zsetStartMemSep :: member.

Definition zEncodeStartScoreKey (db : DB) (key : bytes) (score : Z) : bytes :=
  zEncodeScoreKey db key [] score.
Definition zEncodeStopScoreKey (db : DB) (key : bytes) (score : Z) : bytes :=
  set_last (zEncodeScoreKey db key [] score) zsetStopMemSep.

Definition zDecodeScoreKey (db : DB) (ek : bytes) : (bytes * bytes * Z) + error :=
  match checkKeyIndex db ek with
  | inr e => inr e
  | inl pos =>
      if (pos + 1 >? len ek) || negb (bool_decide (ek !! Z.to_nat pos = Some ZScoreType)) then inr errZScoreKey
      else
        let pos := pos + 1 in
        if pos + 2 >? len ek then inr errZScoreKey
        else
          let keyLen := be_get (take 2 (drop (Z.to_nat pos) ek)) in
          let pos := pos + 2 in
          if keyLen + pos >? len ek then inr errZScoreKey
          else
            let key := take (Z.to_nat keyLen) (drop (Z.to_nat pos) ek) in
            let pos := pos + keyLen in
            if pos + 10 >? len ek then inr errZScoreKey
            else
              if negb (bool_decide (ek !! Z.to_nat pos = Some zsetNScoreSep)) &&
                 negb (bool_decide (ek !! Z.to_nat pos = Some zsetPScoreSep)) then inr errZScoreKey
              else
                let pos := pos + 1 in
                let score := int64 (be_get (take 8 (drop (Z.to_nat pos) ek))) in
                let pos := pos + 8 in
                if negb (bool_decide (ek !! Z.to_nat pos = Some zsetStartMemSep)) then inr errZScoreKey
                else inl (key, drop (Z.to_nat (pos + 1)) ek, score)
  end.

(** ** Expiration keys (src/ledis/t_ttl.go) *)

Definition expEncodeTimeKey (db : DB) (dataType : Z) (key : bytes) (when : Z) : bytes :=
  indexVarBuf db ++ ExpTimeType :: be_put 8 (uint64 when) ++ dataType :: key.

Definition expEncodeMetaKey (db : DB) (dataType : Z) (key : bytes) : bytes :=
  indexVarBuf db ++ ExpMetaType :: dataType :: key.

Definition expDecodeMetaKey (db : DB) (mk : bytes) : (Z * bytes) + error :=
  match checkKeyIndex db mk with
  | inr e => inr e
  | inl pos =>
      if (pos + 2 >? len mk) || negb (bool_decide (mk !! Z.to_nat pos = Some ExpMetaType)) then inr errExpMetaKey
      else inl (default 0 (mk !! Z.to_nat (pos + 1)), drop (Z.to_nat (pos + 2)) mk)
  end.

Definition expDecodeTimeKey (db : DB) (tk : bytes) : (Z * bytes * Z) + error :=
  match checkKeyIndex db tk with
  | inr e => inr e
  | inl pos =>
      if (pos + 10 >? len tk) || negb (bool_decide (tk !! Z.to_nat pos = Some ExpTimeType)) then inr errExpTimeKey
      else inl (default 0 (tk !! Z.to_nat (pos + 9)), drop (Z.to_nat (pos + 10)) tk,
                int64 (be_get (take 8 (drop (Z.to_nat (pos + 1)) tk))))
  end.

(** * The key space

    One constructor per kind of entry of a database. *)
Inductive skey :=
  | KV (key : bytes)
  | Hash (key field : bytes)
  | HSize (key : bytes)
  | LItem (key : bytes) (seq : Z)
  | LMeta (key : bytes)
  | ZMember (key member : bytes)
  | ZSize (key : bytes)
  | ZScoreOf (key member : bytes) (score : Z)
  | SMember (key member : bytes)
  | SSize (key : bytes)
  | ExpMeta (dataType : Z) (key : bytes)
  | ExpTime (dataType : Z) (key : bytes) (when : Z).

#[global] Instance skey_eq_dec : EqDecision skey.
Proof. solve_decision. Defined.

Definition encode (db : DB) (k : skey) : bytes :=
  match k with
  | KV key => encodeKVKey db key
  | Hash key field => hEncodeHashKey db key field
  | HSize key => hEncodeSizeKey db key
  | LItem key seq => lEncodeListKey db key seq
  | LMeta key => lEncodeMetaKey db key
  | ZMember key member => zEncodeSetKey db key member
  | ZSize key => zEncodeSizeKey db key
  | ZScoreOf key member score => zEncodeScoreKey db key member score
  | SMember key member => sEncodeSetKey db key member
  | SSize key => sEncodeSizeKey db key
  | ExpMeta dataType key => expEncodeMetaKey db dataType key
  | ExpTime dataType key when => expEncodeTimeKey db dataType key when
  end.

(** The keys the length and number fields of the layout can represent; the size checks of
    the operations ensure it for the keys they write. *)
Definition short (key : bytes) : Prop := len key < 2 ^ 16.

Definition representable (k : skey) : Prop :=
  match k with
  | KV _ | HSize _ | LMeta _ | ZSize _ | SSize _ | ExpMeta _ _ => True
  | Hash key _ | ZMember key _ | SMember key _ => short key
  | LItem key seq => short key /\ in_i32 seq
  | ZScoreOf key _ score => short key /\ in_i64 score
  | ExpTime _ _ when => in_i64 when
  end.

(** * Positions *)

Lemma drop_pre {A} (p x : list A) z :
  len p <= z -> drop (Z.to_nat z) (p ++ x) = drop (Z.to_nat (z - len p)) x.
Proof. intros. rewrite drop_app_ge by lia. f_equal. lia. Qed.

Lemma lookup_pre {A} (p x : list A) z :
  len p <= z -> (p ++ x) !! Z.to_nat z = x !! Z.to_nat (z - len p).
Proof. intros. rewrite lookup_app_r by lia. f_equal. lia. Qed.

Lemma take_pre {A} (p x : list A) n : n = length p -> take n (p ++ x) = p.
Proof. intros ->. apply take_app_length. Qed.

Lemma checkKeyIndex_app db x : checkKeyIndex db (indexVarBuf db ++ x) = inl (len (indexVarBuf db)).
Proof.
  unfold checkKeyIndex. rewrite length_app, take_app_length.
  rewrite (proj2 (Z.ltb_ge _ _)) by lia. by rewrite bool_decide_true.
Qed.

Lemma uint16_get (key : bytes) : short key -> be_get (be_put 2 (uint16 (len key))) = len key.
Proof.
  unfold short. intros. rewrite be_get_put. change (256 ^ Z.of_nat 2) with (2 ^ 16).
  rewrite uwrap_small by lia. apply Z.mod_small. lia.
Qed.

Lemma uint32_get z : in_i32 z -> int32 (be_get (be_put 4 (uint32 z))) = z.
Proof.
  intros. rewrite be_get_put. change (256 ^ Z.of_nat 4) with (2 ^ 32).
  change ((uint32 z) mod 2 ^ 32) with (uint32 (uint32 z)).
  rewrite (uwrap_small 32 (uint32 z)) by (apply uwrap_range; lia). by apply int32_uint32.
Qed.

Lemma uint64_get z : in_i64 z -> int64 (be_get (be_put 8 (uint64 z))) = z.
Proof.
  intros. rewrite be_get_put. change (256 ^ Z.of_nat 8) with (2 ^ 64).
  change ((uint64 z) mod 2 ^ 64) with (uint64 (uint64 z)).
  rewrite (uwrap_small 64 (uint64 z)) by (apply uwrap_range; lia). by apply int64_uint64.
Qed.

(** The part of a buffer at a known offset. *)
Lemma drop_at {A} (ek a b : list A) z : ek = a ++ b -> z = len a -> drop (Z.to_nat z) ek = b.
Proof. intros -> ->. rewrite Nat2Z.id. apply drop_app_length. Qed.

Lemma lookup_at {A} (ek a b : list A) c z : ek = a ++ c :: b -> z = len a -> ek !! Z.to_nat z = Some c.
Proof. intros -> ->. rewrite Nat2Z.id. by rewrite lookup_app_r, Nat.sub_diag by lia. Qed.

Lemma index_at_at (ek a b : bytes) c z : ek = a ++ c :: b -> z = len a -> index_at ek z = Ret c.
Proof.
  intros He Hz. unfold index_at. rewrite (proj2 (Z.ltb_ge _ _)) by lia. by rewrite (lookup_at ek a b c).
Qed.

Ltac len_solve :=
  repeat (rewrite ?length_app, ?length_cons, ?be_put_length; simpl length); try lia.

(** Side conditions of the offset lemmas: reassociation and lengths. *)
Ltac app_norm := repeat first [rewrite <- app_assoc | progress (cbn [app])]; reflexivity.
Ltac at_solve := solve [app_norm | len_solve].

(** * Decoding inverts encoding *)

Lemma decode_plain_app T err db key :
  decode_plain T err db (indexVarBuf db ++ T :: key) = inl key.
Proof.
  unfold decode_plain. rewrite checkKeyIndex_app, length_app. simpl length.
  destruct (_ >? _) eqn:E; zify_bool; [lia|].
  rewrite lookup_pre by lia. rewrite Z.sub_diag. simpl. rewrite bool_decide_true by done. simpl.
  rewrite drop_pre by lia. f_equal.
  by replace (Z.to_nat (len (indexVarBuf db) + 1 - len (indexVarBuf db))) with 1%nat by lia.
Qed.

(** A key with a length prefixed name: what follows the name. *)
Definition named (db : DB) (T : Z) (key rest : bytes) : bytes :=
  indexVarBuf db ++ T :: be_put 2 (uint16 (len key)) ++ key ++ rest.

Lemma length_named db T key rest :
  len (named db T key rest) = len (indexVarBuf db) + 3 + len key + len rest.
Proof. unfold named. len_solve. Qed.

Lemma named_type db T key rest : named db T key rest !! Z.to_nat (len (indexVarBuf db)) = Some T.
Proof. eapply lookup_at; [reflexivity|done]. Qed.

Lemma named_len db T key rest :
  short key -> be_get (take 2 (drop (Z.to_nat (len (indexVarBuf db) + 1)) (named db T key rest))) = len key.
Proof.
  intros. rewrite (drop_at _ (indexVarBuf db ++ [T]) (be_put 2 (uint16 (len key)) ++ key ++ rest)) by
    (unfold named; at_solve).
  rewrite take_pre by (by rewrite be_put_length). by apply uint16_get.
Qed.

Lemma named_name db T key rest :
  drop (Z.to_nat (len (indexVarBuf db) + 1 + 2)) (named db T key rest) = key ++ rest.
Proof.
  apply (drop_at _ (indexVarBuf db ++ T :: be_put 2 (uint16 (len key)))); unfold named; [|len_solve].
  app_norm.
Qed.

Lemma named_rest db T key rest :
  drop (Z.to_nat (len (indexVarBuf db) + 1 + 2 + len key)) (named db T key rest) = rest.
Proof.
  apply (drop_at _ (indexVarBuf db ++ T :: be_put 2 (uint16 (len key)) ++ key)); unfold named; [|len_solve].
  app_norm.
Qed.

Lemma decode_member_named T err db key member :
  short key ->
  decode_member T err db (named db T key (hashStartSep :: member)) = Ret (inl (key, member)).
Proof.
  intros Hk. unfold decode_member. unfold named at 1. rewrite checkKeyIndex_app.
  rewrite length_named. cbn [length]. destruct (_ || _) eqn:E.
  { apply orb_true_iff in E as [E|E]; zify_bool; [lia|].
    rewrite named_type, bool_decide_true in E; done. }
  clear E. cbv zeta. destruct (_ >? _) eqn:E; zify_bool; [lia|]. clear E.
  rewrite named_len, named_name by done. destruct (_ >? _) eqn:E; zify_bool; [lia|]. clear E.
  rewrite take_pre by lia.
  pose proof (named_rest db T key (hashStartSep :: member)) as HR.
  rewrite (index_at_at _ (indexVarBuf db ++ T :: be_put 2 (uint16 (len key)) ++ key) member hashStartSep).
  2-3: unfold named; at_solve.
  simpl. do 3 f_equal.
  apply (drop_at _ ((indexVarBuf db ++ T :: be_put 2 (uint16 (len key)) ++ key) ++ [hashStartSep])); unfold named; at_solve.
Qed.

(** The guards shared by the decoders of named keys. *)
Lemma named_guard db T key rest :
  1 <= len rest ->
  ((len (indexVarBuf db) + 1 >? len (named db T key rest)) ||
   negb (bool_decide (named db T key rest !! Z.to_nat (len (indexVarBuf db)) = Some T)) = false /\
  (len (indexVarBuf db) + 1 + 2 >? len (named db T key rest)) = false /\
  (len key + (len (indexVarBuf db) + 1 + 2) >? len (named db T key rest)) = false /\
  (len key + (len (indexVarBuf db) + 1) >? len (named db T key rest)) = false)%bool.
Proof.
  intros. rewrite named_type, bool_decide_true, length_named by done.
  repeat split; rewrite ?orb_false_r, Z.gtb_ltb; apply Z.ltb_ge; lia.
Qed.

Lemma lDecodeListKey_named db key seq :
  short key -> in_i32 seq -> lDecodeListKey db (lEncodeListKey db key seq) = inl (key, seq).
Proof.
  intros Hk Hs. change (lEncodeListKey db key seq) with (named db ListType key (be_put 4 (uint32 seq))).
  unfold lDecodeListKey. unfold named at 1. rewrite checkKeyIndex_app.
  destruct (named_guard db ListType key (be_put 4 (uint32 seq))) as (-> & -> & _ & _);
    [rewrite be_put_length; lia|].
  rewrite named_len, named_name, length_named, be_put_length by done.
  rewrite (proj2 (Z.eqb_eq _ _)) by lia. simpl.
  rewrite take_pre by lia. rewrite named_rest.
  rewrite <- (app_nil_r (be_put 4 _)), take_pre by (by rewrite be_put_length).
  by rewrite uint32_get.
Qed.

Lemma zDecodeSetKey_named db key member :
  short key -> zDecodeSetKey db (zEncodeSetKey db key member) = Ret (inl (key, member)).
Proof.
  intros Hk. change (zEncodeSetKey db key member) with (named db ZSetType key (zsetStartMemSep :: member)).
  unfold zDecodeSetKey. unfold named at 1. rewrite checkKeyIndex_app.
  destruct (named_guard db ZSetType key (zsetStartMemSep :: member)) as (-> & -> & _ & Hg);
    [simpl; lia|].
  rewrite named_len by done. cbv zeta. rewrite Hg. unfold slice. rewrite length_named.
  destruct (_ && _) eqn:E.
  2:{ cbn [length] in E. rewrite !(proj2 (Z.leb_le _ _)) in E by lia. done. }
  rewrite Z.add_simpl_l, named_name, take_pre by lia.
  rewrite (index_at_at _ (indexVarBuf db ++ ZSetType :: be_put 2 (uint16 (len key)) ++ key) member zsetStartMemSep).
  2-3: unfold named; at_solve.
  simpl. do 3 f_equal.
  apply (drop_at _ ((indexVarBuf db ++ ZSetType :: be_put 2 (uint16 (len key)) ++ key) ++ [zsetStartMemSep]));
    unfold named; at_solve.
Qed.

Lemma zDecodeScoreKey_named db key member score :
  short key -> in_i64 score -> zDecodeScoreKey db (zEncodeScoreKey db key member score) = inl (key, member, score).
Proof.
  intros Hk Hs. set (sep := if score <? 0 then zsetNScoreSep else zsetPScoreSep).
  set (tail := sep :: be_put 8 (uint64 score) ++ zsetStartMemSep :: member).
  change (zEncodeScoreKey db key member score) with (named db ZScoreType key tail).
  assert (Ht : len tail = 10 + len member) by (unfold tail; len_solve).
  set (pre := indexVarBuf db ++ ZScoreType :: be_put 2 (uint16 (len key)) ++ key).
  unfold zDecodeScoreKey. unfold named at 1. rewrite checkKeyIndex_app.
  destruct (named_guard db ZScoreType key tail) as (-> & -> & Hg & _); [lia|].
  rewrite named_len by done. cbv zeta. rewrite Hg, named_name, take_pre by lia.
  rewrite length_named, Ht, Z.gtb_ltb, (proj2 (Z.ltb_ge _ _)) by lia.
  rewrite (lookup_at _ pre (be_put 8 (uint64 score) ++ zsetStartMemSep :: member) sep) by
    (unfold named, pre, tail; at_solve).
  assert (negb (bool_decide (Some sep = Some zsetNScoreSep)) && negb (bool_decide (Some sep = Some zsetPScoreSep)) = false) as ->.
  { unfold sep. by destruct (score <? 0). }
  rewrite (drop_at _ (pre ++ [sep]) (be_put 8 (uint64 score) ++ zsetStartMemSep :: member)
             (len (indexVarBuf db) + 1 + 2 + len key + 1)) by
    (unfold named, pre, tail; at_solve).
  rewrite take_pre by (by rewrite be_put_length). rewrite uint64_get by done.
  rewrite (lookup_at _ ((pre ++ [sep]) ++ be_put 8 (uint64 score)) member zsetStartMemSep) by
    (unfold named, pre, tail; at_solve).
  simpl. do 2 f_equal. f_equal.
  apply (drop_at _ (((pre ++ [sep]) ++ be_put 8 (uint64 score)) ++ [zsetStartMemSep]));
    unfold named, pre, tail; at_solve.
Qed.

Lemma expDecodeMetaKey_app db T key : expDecodeMetaKey db (expEncodeMetaKey db T key) = inl (T, key).
Proof.
  unfold expDecodeMetaKey, expEncodeMetaKey. rewrite checkKeyIndex_app.
  rewrite (lookup_at _ (indexVarBuf db) (T :: key) ExpMetaType) by at_solve.
  destruct (_ >? _) eqn:E; zify_bool; [revert E; len_solve|]. simpl.
  rewrite (lookup_at _ (indexVarBuf db ++ [ExpMetaType]) key T) by at_solve.
  rewrite (drop_at _ (indexVarBuf db ++ [ExpMetaType; T]) key) by at_solve. done.
Qed.

Lemma expDecodeTimeKey_app db T key when :
  in_i64 when -> expDecodeTimeKey db (expEncodeTimeKey db T key when) = inl (T, key, when).
Proof.
  intros Hw. unfold expDecodeTimeKey, expEncodeTimeKey. rewrite checkKeyIndex_app.
  rewrite (lookup_at _ (indexVarBuf db) (be_put 8 (uint64 when) ++ T :: key) ExpTimeType) by at_solve.
  destruct (_ >? _) eqn:E; zify_bool; [revert E; len_solve|]. simpl.
  rewrite (lookup_at _ (indexVarBuf db ++ ExpTimeType :: be_put 8 (uint64 when)) key T) by at_solve.
  rewrite (drop_at _ (indexVarBuf db ++ ExpTimeType :: be_put 8 (uint64 when) ++ [T]) key
             (len (indexVarBuf db) + 10)) by at_solve.
  rewrite (drop_at _ (indexVarBuf db ++ [ExpTimeType]) (be_put 8 (uint64 when) ++ T :: key)) by at_solve.
  rewrite take_pre by (by rewrite be_put_length). by rewrite uint64_get.
Qed.

(** * The encoding of the key space is injective *)

Definition type_of (k : skey) : Z :=
  match k with
  | KV _ => KVType | Hash _ _ => HashType | HSize _ => HSizeType
  | LItem _ _ => ListType | LMeta _ => LMetaType
  | ZMember _ _ => ZSetType | ZSize _ => ZSizeType | ZScoreOf _ _ _ => ZScoreType
  | SMember _ _ => SetType | SSize _ => SSizeType
  | ExpMeta _ _ => ExpMetaType | ExpTime _ _ _ => ExpTimeType
  end.

Definition name_prefix (key : bytes) : bytes := be_put 2 (uint16 (len key)) ++ key.

Definition tail_of (k : skey) : bytes :=
  match k with
  | KV key | HSize key | LMeta key | ZSize key | SSize key => key
  | Hash key m | ZMember key m | SMember key m => name_prefix key ++ 58 :: m
  | LItem key seq => name_prefix key ++ be_put 4 (uint32 seq)
  | ZScoreOf key m score =>
      name_prefix key ++ (if score <? 0 then zsetNScoreSep else zsetPScoreSep) ::
      be_put 8 (uint64 score) ++ zsetStartMemSep :: m
  | ExpMeta T key => T :: key
  | ExpTime T key when => be_put 8 (uint64 when) ++ T :: key
  end.

Lemma encode_split db k : encode db k = indexVarBuf db ++ type_of k :: tail_of k.
Proof. destruct k; simpl; unfold name_prefix; try rewrite <- app_assoc; reflexivity. Qed.

Lemma cons_inv {A} (x y : A) l1 l2 : x :: l1 = y :: l2 -> x = y /\ l1 = l2.
Proof. by intros [= -> ->]. Qed.

Lemma name_prefix_inj k1 k2 r1 r2 :
  short k1 -> short k2 -> name_prefix k1 ++ r1 = name_prefix k2 ++ r2 -> k1 = k2 /\ r1 = r2.
Proof.
  unfold short, name_prefix. intros H1 H2. rewrite <- !app_assoc. intros H.
  apply app_inj_1 in H as [Hl H]; [|by rewrite !be_put_length].
  apply be_put_inj in Hl; [|apply uwrap_range; lia|apply uwrap_range; lia].
  rewrite !uwrap_small in Hl by lia. apply app_inj_1 in H; [done|lia].
Qed.

Lemma be_put_signed_inj n w a b :
  256 ^ Z.of_nat n = 2 ^ w -> 0 < w -> - 2 ^ (w - 1) <= a < 2 ^ (w - 1) -> - 2 ^ (w - 1) <= b < 2 ^ (w - 1) ->
  be_put n (uwrap w a) = be_put n (uwrap w b) -> a = b.
Proof.
  intros Hn Hw Ha Hb H. apply be_put_inj in H; [|rewrite Hn; apply uwrap_range; lia..].
  apply (f_equal (swrap w)) in H. rewrite !swrap_uwrap in H by lia. by rewrite !swrap_small in H by lia.
Qed.

Lemma tail_of_inj k1 k2 :
  representable k1 -> representable k2 -> type_of k1 = type_of k2 -> tail_of k1 = tail_of k2 -> k1 = k2.
Proof.
  intros R1 R2 HT H. destruct k1, k2; try (vm_compute in HT; discriminate); cbn [tail_of representable] in R1, R2, H; subst; try done.
  - apply name_prefix_inj in H as [-> H]; [|done..]. by simplify_eq.
  - destruct R1, R2. apply name_prefix_inj in H as [-> H]; [|done..].
    f_equal. by apply (be_put_signed_inj 4 32) in H.
  - apply name_prefix_inj in H as [-> H]; [|done..]. by simplify_eq.
  - destruct R1, R2. apply name_prefix_inj in H as [-> H]; [|done..]. apply cons_inv in H as [_ H].
    apply app_inj_1 in H as [Hs H]; [|by rewrite !be_put_length]. apply (be_put_signed_inj 8 64) in Hs; [|done..].
    subst. by apply cons_inv in H as [_ ->].
  - apply name_prefix_inj in H as [-> H]; [|done..]. by simplify_eq.
  - by simplify_eq.
  - apply app_inj_1 in H as [Hs H]; [|by rewrite !be_put_length]. apply (be_put_signed_inj 8 64) in Hs; [|done..].
    subst. by apply cons_inv in H as [-> ->].
Qed.

Lemma encode_inj db k1 k2 :
  representable k1 -> representable k2 -> encode db k1 = encode db k2 -> k1 = k2.
Proof.
  intros R1 R2. rewrite !encode_split. intros H. apply app_inv_head in H.
  apply cons_inv in H as [HT H].
  by apply tail_of_inj.
Qed.

Lemma encode_ne db k1 k2 : representable k1 -> representable k2 -> k1 <> k2 -> encode db k1 <> encode db k2.
Proof. intros ? ? Hne H. by apply Hne, (encode_inj db). Qed.

(** Entries of different databases never share a key: the index is a self-delimiting
    prefix. *)
Lemma encode_inj_db i j k1 k2 :
  0 <= i < 2 ^ 64 -> 0 <= j < 2 ^ 64 -> representable k1 -> representable k2 ->
  encode (setIndex i) k1 = encode (setIndex j) k2 -> i = j /\ k1 = k2.
Proof.
  intros Hi Hj R1 R2. rewrite !encode_split. simpl indexVarBuf. rewrite !uwrap_small by done.
  intros H. apply PutUvarint_app_inj in H as [-> H]; [|done..]. split; [done|].
  apply cons_inv in H as [HT H]. by apply tail_of_inj.
Qed.

(** * Order of score keys and of expiration keys *)

(** What precedes the sign byte in the score keys of [key]. *)
Definition score_pre (db : DB) (key : bytes) : bytes := indexVarBuf db ++ ZScoreType :: name_prefix key.

Definition score_tail (score : Z) (rest : bytes) : bytes :=
  (if score <? 0 then zsetNScoreSep else zsetPScoreSep) :: be_put 8 (uint64 score) ++ rest.

Lemma zEncodeScoreKey_split db key member score :
  zEncodeScoreKey db key member score = score_pre db key ++ score_tail score (zsetStartMemSep :: member).
Proof. unfold zEncodeScoreKey, score_pre, score_tail, name_prefix. app_norm. Qed.

Lemma set_last_snoc p c d : set_last (p ++ [c]) d = p ++ [d].
Proof.
  unfold set_last. rewrite length_app. simpl. rewrite Nat.add_sub. by rewrite take_app_length.
Qed.

Lemma zEncodeStopScoreKey_split db key score :
  zEncodeStopScoreKey db key score = score_pre db key ++ score_tail score [zsetStopMemSep].
Proof.
  unfold zEncodeStopScoreKey. rewrite zEncodeScoreKey_split. unfold score_tail.
  change (?c :: be_put 8 ?s ++ ?r) with ((c :: be_put 8 s) ++ r).
  rewrite !app_assoc. apply set_last_snoc.
Qed.

(** The sign byte and the two's complement score compare like the score. *)
Lemma score_tail_cmp s1 s2 r1 r2 :
  in_i64 s1 -> in_i64 s2 ->
  bcmp (score_tail s1 r1) (score_tail s2 r2) = match s1 ?= s2 with Eq => bcmp r1 r2 | c => c end.
Proof.
  intros H1 H2. pose proof H1 as R1. pose proof H2 as R2. unfold in_i64 in R1, R2.
  unfold score_tail. cbn [bcmp].
  assert (U : forall s, 0 <= uint64 s < 256 ^ Z.of_nat 8) by (intros; change (256 ^ Z.of_nat 8) with (2 ^ 64); apply uwrap_range; lia).
  destruct (s1 <? 0) eqn:E1, (s2 <? 0) eqn:E2; zify_bool.
  - rewrite Z.compare_refl, bcmp_be_put by apply U. rewrite !uwrap_neg by lia.
    destruct (Z.compare_spec s1 s2), (Z.compare_spec (s1 + 2 ^ 64) (s2 + 2 ^ 64)); try done; lia.
  - replace (s1 ?= s2) with Lt by (symmetry; apply Z.compare_lt_iff; lia). done.
  - replace (s1 ?= s2) with Gt by (symmetry; apply Z.compare_gt_iff; lia). done.
  - rewrite Z.compare_refl, bcmp_be_put by apply U. by rewrite !uwrap_nonneg by lia.
Qed.

Lemma zEncodeScoreKey_cmp db key m1 m2 s1 s2 :
  in_i64 s1 -> in_i64 s2 ->
  bcmp (zEncodeScoreKey db key m1 s1) (zEncodeScoreKey db key m2 s2) =
  match s1 ?= s2 with Eq => bcmp m1 m2 | c => c end.
Proof.
  intros. rewrite !zEncodeScoreKey_split, bcmp_app, score_tail_cmp by done.
  destruct (s1 ?= s2); [|done..]. simpl. done.
Qed.

(** Expiration times are never negative; their keys are ordered by time first. *)
Lemma expEncodeTimeKey_cmp db T1 T2 k1 k2 w1 w2 :
  0 <= w1 < 2 ^ 63 -> 0 <= w2 < 2 ^ 63 ->
  bcmp (expEncodeTimeKey db T1 k1 w1) (expEncodeTimeKey db T2 k2 w2) =
  match w1 ?= w2 with Eq => bcmp (T1 :: k1) (T2 :: k2) | c => c end.
Proof.
  intros. unfold expEncodeTimeKey. rewrite bcmp_app. cbn [bcmp]. rewrite Z.compare_refl.
  rewrite bcmp_be_put by (change (256 ^ Z.of_nat 8) with (2 ^ 64); apply uwrap_range; lia).
  by rewrite !uwrap_nonneg by lia.
Qed.

(** * Member ranges *)

(** What precedes the member in the keys of a collection. *)
Definition member_pre (db : DB) (T : Z) (key : bytes) : bytes := indexVarBuf db ++ T :: name_prefix key.

Lemma member_key_split db T key c m :
  indexVarBuf db ++ T :: be_put 2 (uint16 (len key)) ++ key ++ c :: m = member_pre db T key ++ c :: m.
Proof. unfold member_pre, name_prefix. app_norm. Qed.

Lemma hEncodeHashKey_split db key f : hEncodeHashKey db key f = member_pre db HashType key ++ hashStartSep :: f.
Proof. apply member_key_split. Qed.

Lemma sEncodeSetKey_split db key f : sEncodeSetKey db key f = member_pre db SetType key ++ setStartSep :: f.
Proof. apply member_key_split. Qed.

Lemma zEncodeSetKey_split db key f : zEncodeSetKey db key f = member_pre db ZSetType key ++ zsetStartMemSep :: f.
Proof. apply member_key_split. Qed.

Lemma hash_member_range db key x :
  ble (hEncodeStartKey db key) x /\ blt x (hEncodeStopKey db key) <-> exists f, x = hEncodeHashKey db key f.
Proof.
  unfold hEncodeStartKey, hEncodeStopKey. rewrite hEncodeHashKey_split, set_last_snoc.
  setoid_rewrite hEncodeHashKey_split. apply prefix_range.
Qed.

Lemma set_member_range db key x :
  ble (sEncodeStartKey db key) x /\ blt x (sEncodeStopKey db key) <-> exists f, x = sEncodeSetKey db key f.
Proof.
  unfold sEncodeStartKey, sEncodeStopKey. rewrite sEncodeSetKey_split, set_last_snoc.
  setoid_rewrite sEncodeSetKey_split. apply prefix_range.
Qed.

Lemma zset_member_range db key x :
  ble (zEncodeStartSetKey db key) x /\ blt x (zEncodeStopSetKey db key) <-> exists f, x = zEncodeSetKey db key f.
Proof.
  unfold zEncodeStartSetKey, zEncodeStopSetKey. rewrite zEncodeSetKey_split, set_last_snoc.
  setoid_rewrite zEncodeSetKey_split. apply prefix_range.
Qed.

(** * Properties of the key layout *)

(** C22: two entries have the same stored key only if they are the same entry of the same
    database: keys of different databases, data types, names, members, positions, scores or
    expiration times never collide. *)
Theorem stored_keys_distinct (i j : Z) (k1 k2 : skey) :
  0 <= i < 2 ^ 64 -> 0 <= j < 2 ^ 64 -> representable k1 -> representable k2 ->
  encode (setIndex i) k1 = encode (setIndex j) k2 -> i = j /\ k1 = k2.
Proof. apply encode_inj_db. Qed.

Lemma stored_keys_distinct_witness : 300 = 300 /\ ZScoreOf [97] [98] (-5) = ZScoreOf [97] [98] (-5).
Proof.
  apply (stored_keys_distinct 300 300 (ZScoreOf [97] [98] (-5)) (ZScoreOf [97] [98] (-5)));
    [lia|lia|split; [reflexivity|unfold in_i64; lia]|split; [reflexivity|unfold in_i64; lia]|reflexivity].
Defined.

(** Decoding a stored key gives back what was encoded, for the keys of all data types
    and for expiration entries. *)
Lemma decode_encode (db : DB) (key member : bytes) (seq score T when : Z) :
  short key -> in_i32 seq -> in_i64 score -> in_i64 when ->
  decodeKVKey db (encodeKVKey db key) = inl key /\
  lDecodeMetaKey db (lEncodeMetaKey db key) = inl key /\
  lDecodeListKey db (lEncodeListKey db key seq) = inl (key, seq) /\
  hDecodeSizeKey db (hEncodeSizeKey db key) = inl key /\
  hDecodeHashKey db (hEncodeHashKey db key member) = Ret (inl (key, member)) /\
  sDecodeSizeKey db (sEncodeSizeKey db key) = inl key /\
  sDecodeSetKey db (sEncodeSetKey db key member) = Ret (inl (key, member)) /\
  zDecodeSizeKey db (zEncodeSizeKey db key) = inl key /\
  zDecodeSetKey db (zEncodeSetKey db key member) = Ret (inl (key, member)) /\
  zDecodeScoreKey db (zEncodeScoreKey db key member score) = inl (key, member, score) /\
  expDecodeMetaKey db (expEncodeMetaKey db T key) = inl (T, key) /\
  expDecodeTimeKey db (expEncodeTimeKey db T key when) = inl (T, key, when).
Proof.
  intros Hk Hq Hs Hw. repeat split; try apply decode_plain_app.
  - by apply lDecodeListKey_named.
  - by apply (decode_member_named HashType errHashKey).
  - by apply (decode_member_named SetType errSetKey).
  - by apply zDecodeSetKey_named.
  - by apply zDecodeScoreKey_named.
  - apply expDecodeMetaKey_app.
  - by apply expDecodeTimeKey_app.
Qed.

Lemma decode_encode_witness : zDecodeScoreKey (setIndex 300) (zEncodeScoreKey (setIndex 300) [97] [98] (-5)) = inl ([97], [98], -5).
Proof.
  apply (decode_encode (setIndex 300) [97] [98] 0 (-5) 0 0); [reflexivity|unfold in_i32; lia|unfold in_i64; lia|unfold in_i64; lia].
Defined.

(** The keys of the score index of a sorted set sort by score, negative scores first,
    and by member within a score; the keys of expiration times sort by time. *)
Lemma index_keys_sorted (db : DB) (key m1 m2 : bytes) (s1 s2 : Z) (T1 T2 : Z) (k1 k2 : bytes) (w1 w2 : Z) :
  in_i64 s1 -> in_i64 s2 -> 0 <= w1 < 2 ^ 63 -> 0 <= w2 < 2 ^ 63 ->
  (blt (zEncodeScoreKey db key m1 s1) (zEncodeScoreKey db key m2 s2) <-> s1 < s2 \/ s1 = s2 /\ blt m1 m2) /\
  (w1 < w2 -> blt (expEncodeTimeKey db T1 k1 w1) (expEncodeTimeKey db T2 k2 w2)).
Proof.
  intros H1 H2 H3 H4. unfold blt. rewrite zEncodeScoreKey_cmp, expEncodeTimeKey_cmp by done. split.
  - destruct (Z.compare_spec s1 s2); [naive_solver lia|naive_solver lia|]. split; [done|]. intros [?|[? ?]]; lia.
  - intros H. by rewrite (proj2 (Z.compare_lt_iff w1 w2)).
Qed.

Lemma index_keys_sorted_witness : blt (zEncodeScoreKey (setIndex 0) [97] [98] (-5)) (zEncodeScoreKey (setIndex 0) [97] [97] 3).
Proof.
  apply (index_keys_sorted (setIndex 0) [97] [98] [97] (-5) 3 0 0 [] [] 0 0); [unfold in_i64; lia|unfold in_i64; lia|lia|lia|left; lia].
Defined.

