(* ===== verification/Util.v ===== *)
(** * Numbers in values (src/ledis/util.go, strconv)

    [Int64], [PutInt64] and the [Str*] functions of src/ledis/util.go with the parts of the
    Go library they use: little endian integers and decimal [strconv.ParseInt],
    [strconv.ParseUint] and [strconv.AppendInt].

    The results: both number formats round trip ([Int64_PutInt64], [ParseInt_Format]), the
    parser stays inside its bit size ([ParseInt_range]). *)

From S2P Require Import Prelude Driver.

(** ** Little endian integers *)

Definition Int64 (v : option bytes) (err : option error) : Z * option error :=
  match err with
  | Some e => (0, Some e)
  | None =>
      match v with
      | None => (0, None)
      | Some v =>
          if len v =? 0 then (0, None)
          else if negb (len v =? 8) then (0, Some errIntNumber)
          else (int64 (le_get v), None)
      end
  end.

Definition Uint64 (v : option bytes) (err : option error) : Z * option error :=
  match err with
  | Some e => (0, Some e)
  | None =>
      match v with
      | None => (0, None)
      | Some v =>
          if len v =? 0 then (0, None)
          else if negb (len v =? 8) then (0, Some errIntNumber)
          else (uint64 (le_get v), None)
      end
  end.

Definition PutInt64 (v : Z) : bytes := le_put 8 (uint64 v).

(** ** Decimal integers *)

(** The loop of [strconv.ParseUint] in base 10: [n] is the accumulator, [maxVal] the
    largest value of the bit size.  A range failure is reported at the digit that causes
    it, whatever follows. *)
Fixpoint parse_uint_loop (maxVal n : Z) (s : bytes) : Z * option error :=
  match s with
  | [] => (n, None)
  | c :: s' =>
      if (48 <=? c) && (c <=? 57) then
        let d := c - 48 in
        if n >=? (2 ^ 64 - 1) / 10 + 1 then (maxVal, Some ErrRange)
        else
          let n1 := n * 10 + d in
          if (n1 >? 2 ^ 64 - 1) || (n1 >? maxVal) then (maxVal, Some ErrRange)
          else parse_uint_loop maxVal n1 s'
      else (0, Some ErrSyntax)
  end.

Definition ParseUint (s : bytes) (bitSize : Z) : Z * option error :=
  match s with
  | [] => (0, Some ErrSyntax)
  | _ => parse_uint_loop (2 ^ bitSize - 1) 0 s
  end.

Definition ParseInt (s : bytes) (bitSize : Z) : Z * option error :=
  match s with
  | [] => (0, Some ErrSyntax)
  | c :: s' =>
      let neg := c =? 45 in
      let digits := if (c =? 43) || (c =? 45) then s' else s in
      match ParseUint digits bitSize with
      | (_, Some ErrSyntax) => (0, Some ErrSyntax)
      | (un, _) =>
          let cutoff := 2 ^ (bitSize - 1) in
          if negb neg && (un >=? cutoff) then (cutoff - 1, Some ErrRange)
          else if neg && (un >? cutoff) then (- cutoff, Some ErrRange)
          else (if neg then - un else un, None)
      end
  end.

(** [strconv.AppendInt(nil, v, 10)]: at most twenty digits for 64 bits. *)
Fixpoint format_digits (fuel : nat) (n : Z) : bytes :=
  match fuel with
  | O => []
  | S f => if n <? 10 then [48 + n] else format_digits f (n / 10) ++ [48 + n mod 10]
  end.

Definition FormatInt64ToSlice (v : Z) : bytes :=
  if v <? 0 then 45 :: format_digits 20 (- v) else format_digits 20 v.

(** ** The [Str*] functions *)

Definition StrInt64 (v : option bytes) (err : option error) : Z * option error :=
  match err with
  | Some e => (0, Some e)
  | None => match v with None => (0, None) | Some v => ParseInt v 64 end
  end.

Definition StrUint64 (v : option bytes) (err : option error) : Z * option error :=
  match err with
  | Some e => (0, Some e)
  | None => match v with None => (0, None) | Some v => ParseUint v 64 end
  end.

Definition StrInt32 (v : option bytes) (err : option error) : Z * option error :=
  match err with
  | Some e => (0, Some e)
  | None =>
      match v with
      | None => (0, None)
      | Some v => let '(res, err) := ParseInt v 32 in (int32 res, err)
      end
  end.

Definition StrInt8 (v : option bytes) (err : option error) : Z * option error :=
  match err with
  | Some e => (0, Some e)
  | None =>
      match v with
      | None => (0, None)
      | Some v => let '(res, err) := ParseInt v 8 in (swrap 8 res, err)
      end
  end.

(** * Round trips *)

Lemma PutInt64_length v : length (PutInt64 v) = 8%nat.
Proof. apply le_put_length. Qed.

Lemma Int64_PutInt64 v : in_i64 v -> Int64 (Some (PutInt64 v)) None = (v, None).
Proof.
  intros Hv. unfold Int64. rewrite PutInt64_length.
  change (Z.of_nat 8 =? 0) with false. change (negb (Z.of_nat 8 =? 8)) with false. cbv iota.
  unfold PutInt64. rewrite le_get_put.
  change (256 ^ Z.of_nat 8) with (2 ^ 64). change (uint64 v mod 2 ^ 64) with (uint64 (uint64 v)).
  rewrite (uwrap_small 64 (uint64 v)) by (apply uwrap_range; lia). by rewrite int64_uint64.
Qed.

Lemma PutInt64_inj a b : in_i64 a -> in_i64 b -> PutInt64 a = PutInt64 b -> a = b.
Proof.
  intros Ha Hb H. pose proof (Int64_PutInt64 a Ha) as E. rewrite H, Int64_PutInt64 in E by done. congruence.
Qed.

Lemma Int64_range v err : in_i64 (Int64 v err).1.
Proof.
  unfold Int64. destruct err, v as [v|]; simpl; try (unfold in_i64; lia).
  repeat case_if; simpl; try (unfold in_i64; lia). apply int64_range.
Qed.

Lemma parse_uint_loop_app maxVal n a b m :
  parse_uint_loop maxVal n a = (m, None) -> parse_uint_loop maxVal n (a ++ b) = parse_uint_loop maxVal m b.
Proof.
  revert n; induction a as [|c a IH]; intros n; simpl; [by intros [= ->]|].
  repeat case_if; try done. apply IH.
Qed.

Lemma format_digits_S f n :
  format_digits (S f) n = if n <? 10 then [48 + n] else format_digits f (n / 10) ++ [48 + n mod 10].
Proof. done. Qed.

Lemma parse_format_digits f maxVal n :
  0 <= n <= maxVal -> maxVal < 2 ^ 64 -> n < 10 ^ Z.of_nat (S f) ->
  parse_uint_loop maxVal 0 (format_digits (S f) n) = (n, None) /\ format_digits (S f) n <> [] /\
  (forall c s, format_digits (S f) n = c :: s -> 48 <= c <= 57).
Proof.
  intros Hn Hm. revert n Hn; induction f as [|f IH]; intros n Hn Hf; rewrite format_digits_S.
  all: destruct (n <? 10) eqn:E; zify_bool; try (change (10 ^ Z.of_nat 1) with 10 in Hf; lia).
  1-2: split; [|split; [done|intros c s [= <- <-]; lia]]; simpl;
    rewrite (proj2 (Z.leb_le _ _)), (proj2 (Z.leb_le _ _)) by lia; simpl;
    replace (48 + n - 48) with n by lia; destruct (_ || _) eqn:E'; [|done];
    apply orb_true_iff in E' as [?|?]; zify_bool; lia.
  - pose proof (Z.div_mod n 10 ltac:(lia)). pose proof (Z.mod_pos_bound n 10 ltac:(lia)).
    rewrite (Nat2Z.inj_succ (S f)), Z.pow_succ_r in Hf by lia.
    destruct (IH (n / 10)) as (Hp & Hne & Hd); [lia|lia|]. split; [|split].
    + erewrite parse_uint_loop_app by exact Hp. simpl.
      rewrite (proj2 (Z.leb_le _ _)), (proj2 (Z.leb_le _ _)) by lia. simpl.
      destruct (_ >=? _) eqn:E1; zify_bool.
      { change ((2 ^ 64 - 1) / 10) with 1844674407370955161 in E1. lia. }
      replace (n / 10 * 10 + (48 + n mod 10 - 48)) with n by lia.
      destruct (_ || _) eqn:E'; [|done]. apply orb_true_iff in E' as [?|?]; zify_bool; lia.
    + by destruct (format_digits (S f) (n / 10)).
    + destruct (format_digits (S f) (n / 10)) as [|c0 s0]; [done|]. intros c s [= <- <-]. by apply (Hd c0 s0).
Qed.

Lemma ParseUint_format n :
  0 <= n < 2 ^ 64 -> ParseUint (format_digits 20 n) 64 = (n, None) /\
  exists c s, format_digits 20 n = c :: s /\ 48 <= c <= 57.
Proof.
  intros Hn. assert (n < 10 ^ Z.of_nat 20).
  { change (10 ^ Z.of_nat 20) with 100000000000000000000. lia. }
  destruct (parse_format_digits 19 (2 ^ 64 - 1) n) as (Hp & Hne & Hd); [lia|lia|done|].
  unfold ParseUint. destruct (format_digits 20 n) as [|c s]; [done|].
  split; [exact Hp|]. exists c, s. eauto.
Qed.

(** What an increment stores, the next one reads back. *)
Lemma ParseInt_Format n : in_i64 n -> ParseInt (FormatInt64ToSlice n) 64 = (n, None).
Proof.
  intros Hn. unfold in_i64 in Hn. unfold FormatInt64ToSlice, ParseInt.
  change (2 ^ (64 - 1)) with (2 ^ 63).
  destruct (n <? 0) eqn:En; zify_bool.
  - destruct (ParseUint_format (- n)) as (Hp & _); [lia|].
    change (45 =? 45) with true. change ((45 =? 43) || true) with true. cbv iota zeta. rewrite Hp.
    cbn [negb andb]. destruct (_ >? _) eqn:E; zify_bool; [lia|]. by rewrite Z.opp_involutive.
  - destruct (ParseUint_format n) as (Hp & c & s & Hd & Hc); [lia|]. rewrite Hd in *.
    rewrite (proj2 (Z.eqb_neq c 43)), (proj2 (Z.eqb_neq c 45)) by lia. cbn [orb negb andb].
    rewrite Hp. destruct (_ >=? _) eqn:E; zify_bool; [lia|done].
Qed.

Lemma parse_uint_range maxVal n s :
  0 <= maxVal -> 0 <= n <= maxVal -> 0 <= (parse_uint_loop maxVal n s).1 <= maxVal.
Proof.
  intros Hm. revert n; induction s as [|c s IH]; intros n Hn; simpl; [done|].
  destruct ((48 <=? c) && (c <=? 57)) eqn:E; [|simpl; lia]. zify_bool.
  case_if; [simpl; lia|]. destruct (_ || _) eqn:E'; [simpl; lia|].
  apply orb_false_iff in E' as [? ?]. zify_bool. apply IH. lia.
Qed.

Lemma ParseInt_range s w : 0 < w -> - 2 ^ (w - 1) <= (ParseInt s w).1 < 2 ^ (w - 1).
Proof.
  intros Hw. pose proof (pow_split w Hw) as Hp. unfold ParseInt.
  assert (Z0 : - 2 ^ (w - 1) <= 0 < 2 ^ (w - 1)) by lia.
  destruct s as [|c s]; [exact Z0|]. set (digits := if _ || _ then s else _).
  assert (HU : 0 <= (ParseUint digits w).1).
  { unfold ParseUint. destruct digits; [done|]. apply parse_uint_range; lia. }
  destruct (ParseUint digits w) as [un e]; simpl in HU.
  assert (HR : - 2 ^ (w - 1) <= (let neg := c =? 45 in
    if negb neg && (un >=? 2 ^ (w - 1)) then (2 ^ (w - 1) - 1, Some ErrRange)
    else if neg && (un >? 2 ^ (w - 1)) then (- 2 ^ (w - 1), Some ErrRange)
    else (if neg then - un else un, None)).1 < 2 ^ (w - 1)).
  { destruct (c =? 45); simpl; case_if; simpl; lia. }
  destruct e as [[]|]; try exact Z0; exact HR.
Qed.

#[global] Arguments PutInt64 : simpl never.
#[global] Arguments Int64 : simpl never.
#[global] Arguments ParseInt : simpl never.
#[global] Arguments FormatInt64ToSlice : simpl never.

(** * Round trips *)

(** The stored forms of an int64, binary ([PutInt64]) and decimal ([FormatInt64ToSlice]),
    are read back by [Int64] and [StrInt64] for every int64. *)
Lemma int64_roundtrip (v : Z) :
  in_i64 v -> Int64 (Some (PutInt64 v)) None = (v, None) /\ StrInt64 (Some (FormatInt64ToSlice v)) None = (v, None).
Proof. intros Hv. split; [by apply Int64_PutInt64|]. unfold StrInt64. by apply ParseInt_Format. Qed.

Lemma int64_roundtrip_witness : StrInt64 (Some (FormatInt64ToSlice (- 2 ^ 63))) None = (- 2 ^ 63, None).
Proof. apply (int64_roundtrip (- 2 ^ 63)). unfold in_i64. lia. Defined.
