(* ===== verification/Core.v ===== *)
(** * The database core (src/ledis: batch.go, ledis_db.go, t_ttl.go)

    The state the operations of one database run on, the monad they are written in, the
    write batches with their locks, [handleCommit] and the expiration primitives.

    An operation of the code is a value of [M A]: a function of the state that returns or
    panics.  [wp m Q st] says that [m] run in [st] returns (it does not panic) and that its
    result and final state satisfy [Q].  The rules of the calculus, one per primitive, are
    what the component files prove their operations with ([wp_auto]). *)

From S2P Require Import Prelude Driver Store Keys Util.

(** The five write batches of a [DB] handle, each with its own lock. *)
Inductive BatchId := kvBatch | listBatch | hashBatch | zsetBatch | setBatch.

#[global] Instance BatchId_eq_dec : EqDecision BatchId.
Proof. solve_decision. Defined.

(** The records queued in each batch ([store.WriteBatch]). *)
Record Batches := mkBatches {
  kvOps : list BatchOp;
  listOps : list BatchOp;
  hashOps : list BatchOp;
  zsetOps : list BatchOp;
  setOps : list BatchOp
}.

Definition no_ops : Batches := mkBatches [] [] [] [] [].

Definition ops_of (t : BatchId) (b : Batches) : list BatchOp :=
  match t with
  | kvBatch => kvOps b
  | listBatch => listOps b
  | hashBatch => hashOps b
  | zsetBatch => zsetOps b
  | setBatch => setOps b
  end.

Definition set_ops (t : BatchId) (ops : list BatchOp) (b : Batches) : Batches :=
  match t with
  | kvBatch => mkBatches ops (listOps b) (hashOps b) (zsetOps b) (setOps b)
  | listBatch => mkBatches (kvOps b) ops (hashOps b) (zsetOps b) (setOps b)
  | hashBatch => mkBatches (kvOps b) (listOps b) ops (zsetOps b) (setOps b)
  | zsetBatch => mkBatches (kvOps b) (listOps b) (hashOps b) ops (setOps b)
  | setBatch => mkBatches (kvOps b) (listOps b) (hashOps b) (zsetOps b) ops
  end.

(** What an operation reads and changes besides the store: the clock in seconds
    ([time.Now().Unix()]), the next check time of the [ttlChecker], the clients blocked on
    list keys ([lBlockKeys], a queue of cancel functions per key, each named by a number)
    and the cancel functions that have been called. *)
Record Env := mkEnv {
  now : Z;
  nc : Z;
  lbkeys : gmap bytes (list nat);
  cancelled : list nat
}.

Section State.
Context {B : Backend}.

(** The parts of [Ledis] and of a [DB] handle that its operations use.  [rc] is the token
    of the one place channel that wakes the replication goroutine; [sent] the logs handed
    to the log handlers. *)
Record St := mkSt {
  ldb : engine;
  readonly : bool;
  r : option rpl;
  rc : bool;
  sent : list Log;
  batches : Batches;
  env : Env
}.

Definition M (A : Type) : Type := St -> outcome A * St.

#[global] Instance M_ret : MRet M := fun A a st => (Ret a, st).
#[global] Instance M_bind : MBind M := fun A C k m st =>
  match m st with
  | (Ret a, st') => k a st'
  | (Panic, st') => (Panic, st')
  end.

Definition panic {A} : M A := fun st => (Panic, st).
Definition lift {A} (o : outcome A) : M A := fun st => (o, st).
Definition gets {A} (f : St -> A) : M A := fun st => (Ret (f st), st).

Definition with_ldb (e : engine) (st : St) : St :=
  mkSt e (readonly st) (r st) (rc st) (sent st) (batches st) (env st).
Definition with_r (x : option rpl) (st : St) : St :=
  mkSt (ldb st) (readonly st) x (rc st) (sent st) (batches st) (env st).
Definition with_batches (b : Batches) (st : St) : St :=
  mkSt (ldb st) (readonly st) (r st) (rc st) (sent st) b (env st).
Definition with_env (e : Env) (st : St) : St :=
  mkSt (ldb st) (readonly st) (r st) (rc st) (sent st) (batches st) e.

Definition batch_of (t : BatchId) (st : St) : list BatchOp := ops_of t (batches st).

(** ** Reads *)

Definition bucket_Get (key : bytes) : M (option bytes * option error) :=
  gets (fun st => db_Get (ldb st) key).
Definition bucket_GetSlice (key : bytes) : M (option bytes * option error) :=
  gets (fun st => db_GetSlice (ldb st) key).

Definition bucket_NewIterator : M cursor := gets (fun st => drv_NewIterator (ldb st)).
Definition bucket_RangeLimitIterator (min max : option bytes) (rangeType offset count : Z) : M RangeLimitIterator :=
  gets (fun st => db_RangeLimitIterator (ldb st) min max rangeType offset count).
Definition bucket_RevRangeLimitIterator (min max : option bytes) (rangeType offset count : Z) : M RangeLimitIterator :=
  gets (fun st => db_RevRangeLimitIterator (ldb st) min max rangeType offset count).

Definition bucket_RangeIterator (min max : option bytes) (rangeType : Z) : M RangeLimitIterator :=
  gets (fun st => db_RangeIterator (ldb st) min max rangeType).

Definition bucket_RevRangeIterator (min max : option bytes) (rangeType : Z) : M RangeLimitIterator :=
  gets (fun st => db_RevRangeIterator (ldb st) min max rangeType).

(** [time.Now().Unix()] *)
Definition time_now : M Z := gets (fun st => now (env st)).

(** ** Batches *)

Definition batch_Put (t : BatchId) (key value : bytes) : M unit := fun st =>
  (Ret tt, with_batches (set_ops t (batch_of t st ++ [OpPut key value]) (batches st)) st).
Definition batch_Delete (t : BatchId) (key : bytes) : M unit := fun st =>
  (Ret tt, with_batches (set_ops t (batch_of t st ++ [OpDelete key]) (batches st)) st).
Definition batch_Rollback (t : BatchId) (st : St) : St :=
  with_batches (set_ops t [] (batches st)) st.

Definition propagate (rl : Log) (st : St) : St :=
  mkSt (ldb st) (readonly st) (r st) (rc st) (sent st ++ [rl]) (batches st) (env st).
Definition noticeReplication (st : St) : St :=
  mkSt (ldb st) (readonly st) (r st) true (sent st) (batches st) (env st).

(** [Ledis.handleCommit]: log first, then hand the log to the handlers, then write the
    batch, then record the log as committed.  [log.Fatalf] only logs.  Writing a batch
    does not empty it. *)
Definition handleCommit (ops : list BatchOp) : M (option error) := fun st =>
  match r st with
  | None =>
      let '(e', err) := drv_Write (ldb st) ops in (Ret err, with_ldb e' st)
  | Some r0 =>
      let '(rl, r1) := rpl_Log (now (env st)) (drv_Data ops) r0 in
      let st1 := with_r (Some r1) st in
      match rl with
      | Panic => (Panic, st1)
      | Ret (inr err) => (Ret (Some err), st1)
      | Ret (inl rl) =>
          let st2 := propagate rl st1 in
          let '(e', err) := drv_Write (ldb st2) ops in
          let st3 := with_ldb e' st2 in
          match err with
          | Some err => (Ret (Some err), noticeReplication st3)
          | None =>
              let '(err, r2) := rpl_UpdateCommitID (ID rl) r1 in
              let st4 := with_r (Some r2) st3 in
              match err with
              | Panic => (Panic, st4)
              | Ret (Some err) => (Ret (Some err), noticeReplication st4)
              | Ret None => (Ret None, st4)
              end
          end
      end
  end.

(** [batch.Commit] *)
Definition batch_Commit (t : BatchId) : M (option error) := fun st =>
  if readonly st then (Ret (Some ErrWriteInROnly), st)
  else handleCommit (batch_of t st) st.

(** [t.Lock(); defer t.Unlock(); body]: the deferred [Unlock] rolls the batch back, on
    every way out of the body. *)
Definition with_lock {A} (t : BatchId) (body : M A) : M A := fun st =>
  let '(o, st') := body st in (o, batch_Rollback t st').

(** The loop [for _, x := range xs] over a body that cannot leave the function. *)
Fixpoint for_each {A} (xs : list A) (body : A -> M unit) : M unit :=
  match xs with
  | [] => mret tt
  | x :: xs' => _ ← body x; for_each xs' body
  end.

(** The same loop over a body that may return a result from the function. *)
Fixpoint for_ret {A R} (xs : list A) (body : A -> M (option R)) (rest : M R) : M R :=
  match xs with
  | [] => rest
  | x :: xs' => o ← body x; match o with Some res => mret res | None => for_ret xs' body rest end
  end.

(** ** Expiration (src/ledis/t_ttl.go) *)

Definition setNextCheckTime (when : Z) (force : bool) : M unit := fun st =>
  let e := env st in
  let nc' := if force then when else if nc e >? when then when else nc e in
  (Ret tt, with_env (mkEnv (now e) nc' (lbkeys e) (cancelled e)) st).

Definition expireAt (db : DB) (t : BatchId) (dataType : Z) (key : bytes) (when : Z) : M unit :=
  let mk := expEncodeMetaKey db dataType key in
  let tk := expEncodeTimeKey db dataType key when in
  _ ← batch_Put t tk mk;
  _ ← batch_Put t mk (PutInt64 when);
  setNextCheckTime when false.

Definition expire (db : DB) (t : BatchId) (dataType : Z) (key : bytes) (duration : Z) : M unit :=
  n ← time_now; expireAt db t dataType key (int64 (n + duration)).

Definition ttl (db : DB) (dataType : Z) (key : bytes) : M (Z * option error) :=
  let mk := expEncodeMetaKey db dataType key in
  '(v, e) ← bucket_Get mk;
  let '(t, err) := Int64 v e in
  if is_err err || (t =? 0) then mret (-1, err)
  else
    n ← time_now;
    let t := int64 (t - n) in
    mret (if t <=? 0 then -1 else t, err).

Definition rmExpire (db : DB) (t : BatchId) (dataType : Z) (key : bytes) : M (Z * option error) :=
  let mk := expEncodeMetaKey db dataType key in
  '(v, err) ← bucket_Get mk;
  match err with
  | Some err => mret (0, Some err)
  | None =>
      match v with
      | None => mret (0, None)
      | Some v =>
          let '(when, err2) := Int64 (Some v) None in
          match err2 with
          | Some err2 => mret (0, Some err2)
          | None =>
              let tk := expEncodeTimeKey db dataType key when in
              _ ← batch_Delete t mk;
              _ ← batch_Delete t tk;
              mret (1, None)
          end
      end
  end.

(** ** Flushing the whole store *)

(** A commit of a batch of its own, past the log. *)
Definition engine_Commit (ops : list BatchOp) : M (option error) := fun st =>
  let '(e', err) := drv_Write (ldb st) ops in (Ret err, with_ldb e' st).

(** The loop of [Ledis.flushAll]: the batch [w] is committed at every 10000th record and
    keeps its records. *)
Fixpoint flush_store_loop (fuel : nat) (it : cursor) (n : Z) (w : list BatchOp) : M (option error) :=
  match fuel with
  | O => mret None
  | S fuel =>
      if cur_Valid it then
        let n := n + 1 in
        if n =? 10000 then
          err ← engine_Commit w;
          match err with
          | Some err => mret (Some err)
          | None => flush_store_loop fuel (cur_Next it) 0 (w ++ [OpDelete (raw_key it)])
          end
        else flush_store_loop fuel (cur_Next it) n (w ++ [OpDelete (raw_key it)])
      else engine_Commit w
  end.

(** [if l.r != nil { l.r.Clear() }] *)
Definition clear_log : M (option error) := fun st =>
  match r st with
  | None => (Ret None, st)
  | Some x => let '(o, x') := rpl_clear x in (o, with_r (Some x') st)
  end.

Definition Ledis_flushAll : M (option error) :=
  it ← bucket_NewIterator;
  let it := cur_First it in
  err ← flush_store_loop (S (cur_bound it)) it 0 [];
  match err with
  | Some err => mret (Some err)
  | None => clear_log
  end.

End State.

(** ** Size checks of the operations *)

Definition checkKeySize (key : bytes) : option error :=
  if (len key >? MaxKeySize) || (len key =? 0) then Some errKeySize else None.

Definition checkValueSize (value : bytes) : option error :=
  if len value >? MaxValueSize then Some errValueSize else None.

(** * Operations over an engine that works

    [at_ st m b e]: the engine and the replication log of [st] work, writes are allowed,
    the store holds [m], the batches hold [b] and the rest is [e].  The calculus below
    reasons on [m], [b] and [e] only, so every result holds for every backend that meets
    its specification, with replication on or off. *)

Definition add_ops (t : BatchId) (ops : list BatchOp) (b : Batches) : Batches :=
  set_ops t (ops_of t b ++ ops) b.

Lemma add_ops_add t x y b : add_ops t x (add_ops t y b) = add_ops t (y ++ x) b.
Proof. unfold add_ops. destruct b, t; simpl; by rewrite <- app_assoc. Qed.

Lemma set_ops_same t b : set_ops t (ops_of t b) b = b.
Proof. by destruct b, t. Qed.

Lemma add_no_ops t b : add_ops t [] b = b.
Proof. unfold add_ops. by rewrite app_nil_r, set_ops_same. Qed.

Lemma set_ops_add t x b : set_ops t [] (add_ops t x b) = set_ops t [] b.
Proof. by destruct b, t. Qed.

Lemma set_no_ops t : set_ops t [] no_ops = no_ops.
Proof. by destruct t. Qed.

Lemma ops_of_add t x b : ops_of t (add_ops t x b) = ops_of t b ++ x.
Proof. by destruct b, t. Qed.

Lemma ops_of_no_ops t : ops_of t no_ops = [].
Proof. by destruct t. Qed.

Definition with_nc (x : Z) (e : Env) : Env := mkEnv (now e) x (lbkeys e) (cancelled e).

Section Wp.
Context {B : Backend} {BS : BackendSpec B}.
Implicit Types (m : gmap bytes bytes) (b : Batches) (e : Env) (t : BatchId).

Definition contents (st : St) : gmap bytes bytes := model (ldb st).

Definition ready (st : St) : Prop :=
  readonly st = false /\ healthy (ldb st) /\ (forall x, r st = Some x -> rpl_ready x).

Record at_ (st : St) m b e : Prop := {
  at_ready : ready st;
  at_contents : contents st = m;
  at_batches : batches st = b;
  at_env : env st = e
}.

(** [p] started on [m], [b], [e] returns, and what it returns and leaves satisfies [Q]. *)
Definition wp {A} (p : M A) (Q : A -> gmap bytes bytes -> Batches -> Env -> Prop) m b e : Prop :=
  forall st, at_ st m b e ->
  exists a st' m' b' e', p st = (Ret a, st') /\ at_ st' m' b' e' /\ Q a m' b' e'.

(** [p] started with empty batches on a store [m] returns [a] and leaves the store [m'] with empty
    batches. *)
Definition exec {A} (p : M A) m e (a : A) m' e' : Prop :=
  wp p (fun a1 m1 b1 e1 => a1 = a /\ m1 = m' /\ b1 = no_ops /\ e1 = e') m no_ops e.

(** The same with a condition on the result and on what is left. *)
Definition runs {A} (p : M A) m e (Q : A -> gmap bytes bytes -> Env -> Prop) : Prop :=
  wp p (fun a1 m1 b1 e1 => b1 = no_ops /\ Q a1 m1 e1) m no_ops e.

Lemma wp_ret {A} (a : A) Q m b e : Q a m b e -> wp (mret a) Q m b e.
Proof. intros HQ st Hst. eauto 10. Qed.

Lemma wp_bind {A C} (p : M A) (k : A -> M C) Q m b e :
  wp p (fun a => wp (k a) Q) m b e -> wp (p ≫= k) Q m b e.
Proof.
  intros Hp st Hst. destruct (Hp st Hst) as (a & st1 & m1 & b1 & e1 & E & Hst1 & Hk).
  destruct (Hk st1 Hst1) as (c & st2 & m2 & b2 & e2 & E2 & Hst2 & HQ).
  exists c, st2, m2, b2, e2. unfold mbind, M_bind. by rewrite E.
Qed.

Lemma wp_mono {A} (p : M A) (Q Q' : A -> _ -> _ -> _ -> Prop) m b e :
  wp p Q m b e -> (forall a m' b' e', Q a m' b' e' -> Q' a m' b' e') -> wp p Q' m b e.
Proof. intros Hp HQ st Hst. destruct (Hp st Hst) as (a & st1 & m1 & b1 & e1 & ? & ? & ?). eauto 12. Qed.

Lemma wp_lift {A} (a : A) Q m b e : Q a m b e -> wp (lift (Ret a)) Q m b e.
Proof. intros HQ st Hst. eauto 10. Qed.

Lemma exec_runs {A} (p : M A) (Q : A -> gmap bytes bytes -> Env -> Prop) m e a m' e' :
  exec p m e a m' e' -> Q a m' e' -> runs p m e Q.
Proof. intros Hp HQ. eapply wp_mono; [exact Hp|]. by intros ? ? ? ? (-> & -> & -> & ->). Qed.

Lemma exec_bind {A C} (p : M A) (k : A -> M C) m e a m1 e1 c m2 e2 :
  exec p m e a m1 e1 -> exec (k a) m1 e1 c m2 e2 -> exec (p ≫= k) m e c m2 e2.
Proof. intros Hp Hk. apply wp_bind. eapply wp_mono; [exact Hp|]. intros ? ? ? ? (-> & -> & -> & ->). exact Hk. Qed.

Lemma runs_bind {A C} (p : M A) (k : A -> M C) m e a m1 e1 Q :
  exec p m e a m1 e1 -> runs (k a) m1 e1 Q -> runs (p ≫= k) m e Q.
Proof. intros Hp Hk. apply wp_bind. eapply wp_mono; [exact Hp|]. intros ? ? ? ? (-> & -> & -> & ->). exact Hk. Qed.

Lemma wp_Get k Q m b e : Q (m !! k, None) m b e -> wp (bucket_Get k) Q m b e.
Proof.
  intros HQ st Hst. exists (m !! k, None), st, m, b, e. split; [|done].
  unfold bucket_Get, gets, db_Get. destruct Hst as [(_ & Hh & _) Hm _ _].
  rewrite get_ok by done. unfold contents in Hm. by rewrite Hm.
Qed.

Lemma wp_GetSlice k Q m b e : Q (m !! k, None) m b e -> wp (bucket_GetSlice k) Q m b e.
Proof.
  intros HQ st Hst. exists (m !! k, None), st, m, b, e. split; [|done].
  unfold bucket_GetSlice, gets, db_GetSlice, db_Get. destruct Hst as [(_ & Hh & _) Hm _ _].
  rewrite get_ok by done. unfold contents in Hm. rewrite Hm. by destruct (m !! k).
Qed.

Lemma wp_time_now Q m b e : Q (now e) m b e -> wp time_now Q m b e.
Proof.
  intros HQ st Hst. exists (now e), st, m, b, e. split; [|done].
  unfold time_now, gets. by destruct Hst as [_ _ _ ->].
Qed.

(** Any pure function of the state that only looks at the store. *)
Lemma wp_gets {A} (f : St -> A) a Q m b e :
  (forall st, at_ st m b e -> f st = a) -> Q a m b e -> wp (gets f) Q m b e.
Proof.
  intros Hf HQ st Hst. exists a, st, m, b, e. split; [|done]. unfold gets. by rewrite (Hf st Hst).
Qed.

Lemma wp_NewIterator (Q : cursor -> _ -> _ -> _ -> Prop) m b e :
  (forall it, snap it = sorted_entries m -> Q it m b e) -> wp bucket_NewIterator Q m b e.
Proof.
  intros HQ st Hst. do 5 eexists. split; [done|]. split; [exact Hst|]. apply HQ.
  rewrite iter_snap. by destruct Hst as [_ <- _ _].
Qed.

Lemma wp_RangeLimitIterator min max rt o c (Q : RangeLimitIterator -> _ -> _ -> _ -> Prop) m b e :
  (forall it, rli_items it = cut (mkLimit o c) (range_entries m (mkRange min max rt)) -> Q it m b e) ->
  wp (bucket_RangeLimitIterator min max rt o c) Q m b e.
Proof.
  intros HQ st Hst. do 5 eexists. split; [done|]. split; [exact Hst|]. apply HQ.
  apply range_items_forward. rewrite iter_snap. by destruct Hst as [_ <- _ _].
Qed.

Lemma bucket_RangeIterator_limit min max rt : bucket_RangeIterator min max rt = bucket_RangeLimitIterator min max rt 0 (-1).
Proof. done. Qed.

Lemma bucket_RevRangeIterator_limit min max rt :
  bucket_RevRangeIterator min max rt = bucket_RevRangeLimitIterator min max rt 0 (-1).
Proof. done. Qed.

Lemma wp_RevRangeLimitIterator min max rt o c (Q : RangeLimitIterator -> _ -> _ -> _ -> Prop) m b e :
  (forall it, rli_items it = cut (mkLimit o c) (reverse (range_entries m (mkRange min max rt))) -> Q it m b e) ->
  wp (bucket_RevRangeLimitIterator min max rt o c) Q m b e.
Proof.
  intros HQ st Hst. do 5 eexists. split; [done|]. split; [exact Hst|]. apply HQ.
  apply range_items_backward. rewrite iter_snap. by destruct Hst as [_ <- _ _].
Qed.

Lemma at_with_batches st m b e b' : at_ st m b e -> at_ (with_batches b' st) m b' e.
Proof. intros [H1 H2 H3 H4]. by split. Qed.

Lemma at_with_env st m b e e' : at_ st m b e -> at_ (with_env e' st) m b e'.
Proof. intros [H1 H2 H3 H4]. by split. Qed.

Lemma wp_Put t k v (Q : unit -> _ -> _ -> _ -> Prop) m b e :
  Q tt m (add_ops t [OpPut k v] b) e -> wp (batch_Put t k v) Q m b e.
Proof.
  intros HQ st Hst. unfold batch_Put, batch_of. rewrite (at_batches _ _ _ _ Hst).
  do 5 eexists. split; [done|]. split; [by eapply at_with_batches|done].
Qed.

Lemma wp_Delete t k (Q : unit -> _ -> _ -> _ -> Prop) m b e :
  Q tt m (add_ops t [OpDelete k] b) e -> wp (batch_Delete t k) Q m b e.
Proof.
  intros HQ st Hst. unfold batch_Delete, batch_of. rewrite (at_batches _ _ _ _ Hst).
  do 5 eexists. split; [done|]. split; [by eapply at_with_batches|done].
Qed.

Lemma wp_lock {A} t (p : M A) Q m b e :
  wp p (fun a m' b' e' => Q a m' (set_ops t [] b') e') m b e -> wp (with_lock t p) Q m b e.
Proof.
  intros Hp st Hst. destruct (Hp st Hst) as (a & st1 & m1 & b1 & e1 & E & Hst1 & HQ).
  unfold with_lock. rewrite E. unfold batch_Rollback. rewrite (at_batches _ _ _ _ Hst1).
  do 5 eexists. split; [done|]. split; [by eapply at_with_batches|done].
Qed.

Lemma wp_Commit t (Q : option error -> _ -> _ -> _ -> Prop) m b e :
  Q None (apply_ops (ops_of t b) m) b e -> wp (batch_Commit t) Q m b e.
Proof.
  intros HQ st [(Hro & Hh & Hr) Hm Hb He]. unfold batch_Commit, handleCommit, batch_of.
  rewrite Hro, Hb. destruct (write_ok (ldb st) (ops_of t b) Hh) as (e' & E & Hh').
  pose proof (write_all _ _ _ E) as Hm'. unfold contents in Hm. rewrite Hm in Hm'.
  destruct (r st) as [r0|] eqn:Er; cycle 1.
  { rewrite E. do 5 eexists. split; [done|]. split; [|exact HQ].
    split; [|done..]. split; [done|]. split; [done|]. simpl. by rewrite Er. }
  destruct (rpl_commit_ok r0 (now (env st)) (drv_Data (ops_of t b)) (Hr _ eq_refl)) as (r1 & l & r2 & E1 & E2 & Hr2).
  rewrite E1. simpl ldb. rewrite E, E2. do 5 eexists. split; [done|]. split; [|exact HQ].
  split; [|done..]. split; [done|]. split; [done|]. simpl. by intros x [= <-].
Qed.

Lemma wp_setNextCheckTime (when : Z) (force : bool) (Q : unit -> _ -> _ -> _ -> Prop) m b e :
  Q tt m b (with_nc (if force then when else if nc e >? when then when else nc e) e) ->
  wp (setNextCheckTime when force) Q m b e.
Proof.
  intros HQ st Hst. unfold setNextCheckTime. rewrite (at_env _ _ _ _ Hst).
  do 5 eexists. split; [done|]. split; [by eapply at_with_env|done].
Qed.

(** A loop whose body only queues records queues the records of its iterations in order. *)
Lemma wp_for_each {A} t (f : A -> list BatchOp) (body : A -> M unit) xs (Q : unit -> _ -> _ -> _ -> Prop) m b e :
  (forall x b1 (Q1 : unit -> _ -> _ -> _ -> Prop), x ∈ xs -> Q1 tt m (add_ops t (f x) b1) e -> wp (body x) Q1 m b1 e) ->
  Q tt m (add_ops t (concat (map f xs)) b) e -> wp (for_each xs body) Q m b e.
Proof.
  revert b. induction xs as [|x xs IH]; intros b Hf HQ; simpl.
  - apply wp_ret. unfold add_ops in HQ. simpl in HQ. rewrite app_nil_r in HQ.
    by rewrite set_ops_same in HQ.
  - apply wp_bind, Hf; [by constructor|]. apply IH; [intros; apply Hf; [by constructor|done]|].
    by rewrite add_ops_add.
Qed.

Lemma wp_for_ret {A R} t (f : A -> list BatchOp) (body : A -> M (option R)) rest xs (Q : R -> _ -> _ -> _ -> Prop) m b e :
  (forall x b1 (Q1 : option R -> _ -> _ -> _ -> Prop), x ∈ xs -> Q1 None m (add_ops t (f x) b1) e -> wp (body x) Q1 m b1 e) ->
  wp rest Q m (add_ops t (concat (map f xs)) b) e -> wp (for_ret xs body rest) Q m b e.
Proof.
  revert b. induction xs as [|x xs IH]; intros b Hf HQ; cbn [for_ret map concat] in *.
  - unfold add_ops in HQ. by rewrite app_nil_r, set_ops_same in HQ.
  - apply wp_bind, Hf; [constructor|]. apply IH; [intros y b1 Q1 Hy; apply Hf; by constructor|].
    by rewrite add_ops_add.
Qed.

(** ** The expiration primitives *)

(** The records [rmExpire] queues. *)
Definition rm_ops db m (T : Z) (key : bytes) : list BatchOp :=
  match m !! expEncodeMetaKey db T key with
  | None => []
  | Some v =>
      match Int64 (Some v) None with
      | (_, Some _) => []
      | (when, None) => [OpDelete (expEncodeMetaKey db T key); OpDelete (expEncodeTimeKey db T key when)]
      end
  end.

Definition rm_result db m (T : Z) (key : bytes) : Z * option error :=
  match m !! expEncodeMetaKey db T key with
  | None => (0, None)
  | Some v =>
      match Int64 (Some v) None with
      | (_, Some err) => (0, Some err)
      | (_, None) => (1, None)
      end
  end.

Lemma wp_rmExpire db t T key (Q : Z * option error -> _ -> _ -> _ -> Prop) m b e :
  Q (rm_result db m T key) m (add_ops t (rm_ops db m T key) b) e -> wp (rmExpire db t T key) Q m b e.
Proof.
  assert (Hnil : add_ops t [] b = b) by (unfold add_ops; by rewrite app_nil_r, set_ops_same).
  unfold rm_result, rm_ops, rmExpire. intros HQ. apply wp_bind, wp_Get.
  destruct (m !! _) as [v|]; [|rewrite Hnil in HQ; by apply wp_ret].
  destruct (Int64 (Some v) None) as [when [err|]]; [rewrite Hnil in HQ; by apply wp_ret|].
  apply wp_bind, wp_Delete, wp_bind, wp_Delete, wp_ret. by rewrite add_ops_add.
Qed.

Definition expire_ops db (T : Z) (key : bytes) (when : Z) : list BatchOp :=
  [OpPut (expEncodeTimeKey db T key when) (expEncodeMetaKey db T key);
   OpPut (expEncodeMetaKey db T key) (PutInt64 when)].

Definition check_before (when : Z) e : Env := with_nc (if nc e >? when then when else nc e) e.

Lemma wp_expireAt db t T key when (Q : unit -> _ -> _ -> _ -> Prop) m b e :
  Q tt m (add_ops t (expire_ops db T key when) b) (check_before when e) ->
  wp (expireAt db t T key when) Q m b e.
Proof.
  intros HQ. unfold expireAt. apply wp_bind, wp_Put, wp_bind, wp_Put, wp_setNextCheckTime.
  by rewrite add_ops_add.
Qed.

Definition ttl_result db m (T : Z) (key : bytes) (t0 : Z) : Z * option error :=
  let '(t, err) := Int64 (m !! expEncodeMetaKey db T key) None in
  if is_err err || (t =? 0) then (-1, err)
  else (if int64 (t - t0) <=? 0 then -1 else int64 (t - t0), err).

Lemma wp_ttl db T key (Q : Z * option error -> _ -> _ -> _ -> Prop) m b e :
  Q (ttl_result db m T key (now e)) m b e -> wp (ttl db T key) Q m b e.
Proof.
  unfold ttl_result, ttl. intros HQ. apply wp_bind, wp_Get.
  destruct (Int64 _ None) as [t err]. destruct (_ || _); [by apply wp_ret|].
  apply wp_bind, wp_time_now, wp_ret. done.
Qed.

End Wp.

(** Runs the primitives at the head of the program of a [wp] goal. *)
Ltac wp_step :=
  lazymatch goal with
  | |- wp (_ ≫= _) _ _ _ _ => apply wp_bind
  | |- wp (mret _) _ _ _ _ => apply wp_ret
  | |- wp (lift (Ret _)) _ _ _ _ => apply wp_lift
  | |- wp (bucket_Get _) _ _ _ _ => apply wp_Get
  | |- wp (bucket_GetSlice _) _ _ _ _ => apply wp_GetSlice
  | |- wp time_now _ _ _ _ => apply wp_time_now
  | |- wp bucket_NewIterator _ _ _ _ => apply wp_NewIterator; intros ? ?
  | |- wp (bucket_RangeLimitIterator _ _ _ _ _) _ _ _ _ => apply wp_RangeLimitIterator; intros ? ?
  | |- wp (bucket_RevRangeLimitIterator _ _ _ _ _) _ _ _ _ => apply wp_RevRangeLimitIterator; intros ? ?
  | |- wp (batch_Put _ _ _) _ _ _ _ => apply wp_Put
  | |- wp (batch_Delete _ _) _ _ _ _ => apply wp_Delete
  | |- wp (with_lock _ _) _ _ _ _ => apply wp_lock
  | |- wp (batch_Commit _) _ _ _ _ => apply wp_Commit
  | |- wp (rmExpire _ _ _ _) _ _ _ _ => apply wp_rmExpire
  | |- wp (expireAt _ _ _ _ _) _ _ _ _ => apply wp_expireAt
  | |- wp (ttl _ _ _) _ _ _ _ => apply wp_ttl
  end.

Ltac wp_simp := rewrite ?add_ops_add, ?ops_of_add, ?ops_of_no_ops, ?set_ops_add, ?set_no_ops, ?app_nil_l.

Ltac wp_auto := cbv beta iota zeta; repeat (wp_step; cbv beta iota zeta); wp_simp.

(** * Operations in any state

    The results above are about an engine that works.  The following holds in every state:
    [contained db p] says that, whatever fails and even if it panics, [p] touches no entry
    outside the database [db] and no entry at all when writes are not allowed. *)

Definition in_db (db : DB) (k : bytes) : Prop := exists x, k = indexVarBuf db ++ x.

Definition keyed (db : DB) (b : Batches) : Prop :=
  forall t, Forall (fun o => in_db db (op_key o)) (ops_of t b).

Section Contained.
Context {B : Backend} {BS : BackendSpec B}.
Implicit Types (db : DB) (st : St) (t : BatchId).

#[local] Ltac commit_case :=
  simpl; repeat (split; [first [done | by left | by right | by intros]|]); first [done | congruence | by intros].

(** A commit applies the whole batch or nothing; it applies it when it reports no error. *)
Lemma batch_Commit_any t st :
  exists o st', batch_Commit t st = (o, st') /\ batches st' = batches st /\ env st' = env st /\
  readonly st' = readonly st /\ (o = Ret None -> contents st' = apply_ops (batch_of t st) (contents st)) /\
  (contents st' = contents st \/ contents st' = apply_ops (batch_of t st) (contents st)) /\
  (readonly st = true -> o = Ret (Some ErrWriteInROnly) /\ contents st' = contents st).
Proof.
  unfold batch_Commit. destruct (readonly st) eqn:Hro.
  { exists (Ret (Some ErrWriteInROnly)), st. repeat (split; [by eauto|]). done. }
  unfold handleCommit, contents. destruct (r st) as [r0|].
  - destruct (rpl_Log _ _ _) as [[[rl|err]|] r1]; [|do 2 eexists; commit_case..].
    simpl ldb. destruct (drv_Write _ _) as [e' [err|]] eqn:E.
    + pose proof (write_none _ _ _ _ E). do 2 eexists; commit_case.
    + pose proof (write_all _ _ _ E).
      destruct (rpl_UpdateCommitID _ _) as [[[err|]|] r2]; do 2 eexists; commit_case.
  - destruct (drv_Write _ _) as [e' [err|]] eqn:E.
    + pose proof (write_none _ _ _ _ E). do 2 eexists; commit_case.
    + pose proof (write_all _ _ _ E). do 2 eexists; commit_case.
Qed.

(** What a step may have changed. *)
Record kept db st st' : Prop := {
  kept_keyed : keyed db (batches st');
  kept_others : forall k, ~ in_db db k -> contents st' !! k = contents st !! k;
  kept_readonly : readonly st' = readonly st;
  kept_ro : readonly st = true -> contents st' = contents st
}.

Definition contained {A} db (p : M A) : Prop :=
  forall st, keyed db (batches st) -> kept db st (p st).2.

Lemma kept_refl db st : keyed db (batches st) -> kept db st st.
Proof. by split. Qed.

Lemma kept_trans db st1 st2 st3 : kept db st1 st2 -> kept db st2 st3 -> kept db st1 st3.
Proof.
  intros [H1 H2 H3 H4] [K1 K2 K3 K4]. split; [done| | |].
  - intros k Hk. by rewrite K2, H2.
  - by rewrite K3.
  - intros Hro. rewrite K4, H4; [done..|]. by rewrite H3.
Qed.

Lemma kept_same db st st' :
  ldb st' = ldb st -> readonly st' = readonly st -> keyed db (batches st') -> kept db st st'.
Proof. intros H1 H2 H3. split; [done|..]; unfold contents; by rewrite ?H1. Qed.

Lemma contained_ret {A} db (a : A) : contained db (mret a).
Proof. intros st Hk. by apply kept_refl. Qed.

Lemma contained_gets {A} db (f : St -> A) : contained db (gets f).
Proof. intros st Hk. by apply kept_refl. Qed.

Lemma contained_lift {A} db (o : outcome A) : contained db (lift o).
Proof. intros st Hk. by apply kept_refl. Qed.

Lemma contained_panic {A} db : contained (A := A) db panic.
Proof. intros st Hk. by apply kept_refl. Qed.

Lemma contained_bind {A C} db (p : M A) (k : A -> M C) :
  contained db p -> (forall a, contained db (k a)) -> contained db (p ≫= k).
Proof.
  intros Hp Hk st Hst. specialize (Hp st Hst). unfold mbind, M_bind.
  destruct (p st) as [[a|] st1]; simpl in *; [|done].
  eapply kept_trans; [exact Hp|]. apply Hk. by destruct Hp.
Qed.

Lemma keyed_set db t ops b :
  Forall (fun o => in_db db (op_key o)) ops -> keyed db b -> keyed db (set_ops t ops b).
Proof. intros Ho Hb t'. destruct (decide (t' = t)) as [->|]; [by destruct t|]. specialize (Hb t'). by destruct t, t'. Qed.

Lemma contained_Put db t k v : in_db db k -> contained db (batch_Put t k v).
Proof.
  intros Hk st Hst. apply kept_same; [done..|]. apply keyed_set; [|done].
  apply Forall_app. split; [apply Hst|]. by constructor.
Qed.

Lemma contained_Delete db t k : in_db db k -> contained db (batch_Delete t k).
Proof.
  intros Hk st Hst. apply kept_same; [done..|]. apply keyed_set; [|done].
  apply Forall_app. split; [apply Hst|]. by constructor.
Qed.

Lemma contained_setNextCheckTime db when force : contained db (setNextCheckTime when force).
Proof. intros st Hk. by apply kept_same. Qed.

Lemma contained_lock {A} db t (p : M A) : contained db p -> contained db (with_lock t p).
Proof.
  intros Hp st Hst. specialize (Hp st Hst). unfold with_lock. destruct (p st) as [o st1]; simpl in *.
  eapply kept_trans; [exact Hp|]. apply kept_same; [done..|]. apply keyed_set; [done|]. by destruct Hp.
Qed.

Lemma apply_keyed db ops m k :
  Forall (fun o => in_db db (op_key o)) ops -> ~ in_db db k -> apply_ops ops m !! k = m !! k.
Proof.
  intros Hops Hk. apply apply_ops_other. intros (o & -> & Ho)%list_elem_of_fmap.
  rewrite Forall_forall in Hops. by apply Hk, Hops.
Qed.

Lemma contained_Commit db t : contained db (batch_Commit t).
Proof.
  intros st Hst. destruct (batch_Commit_any t st) as (err & st' & -> & Hb & _ & Hro & _ & Hc & Hr).
  simpl. split; [by rewrite Hb| |done|naive_solver].
  intros k Hk. destruct Hc as [-> | ->]; [done|]. apply (apply_keyed db); [apply Hst|done].
Qed.

Lemma contained_for_each {A} db (xs : list A) body :
  (forall x, x ∈ xs -> contained db (body x)) -> contained db (for_each xs body).
Proof.
  induction xs as [|x xs IH]; intros H; simpl; [apply contained_ret|].
  apply contained_bind; [apply H; by constructor|]. intros _. apply IH. intros y Hy. apply H. by constructor.
Qed.

Lemma contained_for_ret {A R} db (xs : list A) body (rest : M R) :
  (forall x, x ∈ xs -> contained db (body x)) -> contained db rest -> contained db (for_ret xs body rest).
Proof.
  intros H Hr. induction xs as [|x xs IH]; simpl; [done|].
  apply contained_bind; [apply H; by constructor|]. intros [res|]; [apply contained_ret|].
  apply IH. intros y Hy. apply H. by constructor.
Qed.

(** An operation that starts with an iterator sees the entries of some store. *)
Lemma contained_NewIterator {A} db (k : cursor -> M A) :
  (forall it m, snap it = sorted_entries m -> contained db (k it)) -> contained db (bucket_NewIterator ≫= k).
Proof. intros Hk st Hst. apply (Hk _ _ (iter_snap (ldb st))). done. Qed.

Lemma contained_RangeLimitIterator {A} db min max rt o c (k : RangeLimitIterator -> M A) :
  (forall it m, rli_items it = cut (mkLimit o c) (range_entries m (mkRange min max rt)) -> contained db (k it)) ->
  contained db (bucket_RangeLimitIterator min max rt o c ≫= k).
Proof.
  intros Hk st Hst. refine (Hk _ _ _ st Hst). apply range_items_forward, iter_snap.
Qed.

Lemma contained_RevRangeLimitIterator {A} db min max rt o c (k : RangeLimitIterator -> M A) :
  (forall it m, rli_items it = cut (mkLimit o c) (reverse (range_entries m (mkRange min max rt))) -> contained db (k it)) ->
  contained db (bucket_RevRangeLimitIterator min max rt o c ≫= k).
Proof.
  intros Hk st Hst. refine (Hk _ _ _ st Hst). apply range_items_backward, iter_snap.
Qed.

End Contained.

(** Keys between two keys of a database belong to it. *)
Lemma between_in_db db a b k : in_db db a -> in_db db b -> ble a k -> ble k b -> in_db db k.
Proof.
  intros [x ->] [y ->] Ha Hb. destruct (between_prefix _ _ _ _ Ha Hb) as [z ->]. by exists z.
Qed.

Lemma range_in_db db m min max rt l k v :
  in_db db min -> in_db db max -> (k, v) ∈ cut l (range_entries m (mkRange (Some min) (Some max) rt)) -> in_db db k.
Proof.
  intros Hmin Hmax Hin. assert (Hr : (k, v) ∈ range_entries m (mkRange (Some min) (Some max) rt)).
  { by apply elem_of_cut in Hin. }
  unfold range_entries in Hr. apply list_elem_of_filter in Hr as [Hr _].
  unfold in_range, above_min, below_max in Hr. simpl in Hr. apply andb_true_iff in Hr as [H1 H2].
  apply (between_in_db db min max); try done.
  - destruct (Z.land rt RangeLOpen >? 0); apply bool_decide_eq_true in H1; [apply ble_alt; by left|done].
  - destruct (Z.land rt RangeROpen >? 0); apply bool_decide_eq_true in H2; [apply ble_alt; by left|done].
Qed.

Lemma in_db_encode db k : in_db db (encode db k).
Proof. destruct k; eexists; reflexivity. Qed.

#[export] Hint Resolve contained_ret contained_gets contained_lift contained_panic contained_bind
  contained_Put contained_Delete contained_setNextCheckTime contained_lock contained_Commit
  contained_for_each contained_for_ret : ledis.

#[export] Hint Extern 1 (in_db ?db _) => (eexists; reflexivity) : ledis.

(** Decomposes a program into its primitives, one case per branch. *)
Ltac contained_auto :=
  repeat (intros; cbv beta zeta;
    lazymatch goal with
    | |- contained _ (match ?x with _ => _ end) => destruct x
    | |- contained _ (bucket_NewIterator ≫= _) => apply contained_NewIterator
    | |- contained _ (bucket_RangeLimitIterator _ _ _ _ _ ≫= _) => apply contained_RangeLimitIterator
    | |- contained _ (bucket_RevRangeLimitIterator _ _ _ _ _ ≫= _) => apply contained_RevRangeLimitIterator
    | |- contained _ (_ ≫= _) => apply contained_bind
    | |- contained _ (for_each _ _) => apply contained_for_each
    | |- contained _ (for_ret _ _ _) => apply contained_for_ret
    | |- contained _ (with_lock _ _) => apply contained_lock
    | |- contained _ _ => solve [eauto 2 with ledis]
    end).

(** Deleting the entries of a range of the database. *)
Lemma contained_delete_items {B : Backend} {BS : BackendSpec B} db t (items : list (bytes * bytes)) :
  (forall k v, (k, v) ∈ items -> in_db db k) -> contained db (for_each items (fun '(k, _) => batch_Delete t k)).
Proof. intros H. apply contained_for_each. intros [k v] Hin. apply contained_Delete. by apply (H k v). Qed.

Lemma items_in_db {I : IDB} db (it : RangeLimitIterator) m min max rt l k v :
  rli_items it = cut l (range_entries m (mkRange (Some min) (Some max) rt)) ->
  in_db db min -> in_db db max -> (k, v) ∈ rli_items it -> in_db db k.
Proof. intros -> Hmin Hmax Hin. eapply range_in_db; [exact Hmin|exact Hmax|exact Hin]. Qed.

Lemma items_rev_in_db {I : IDB} db (it : RangeLimitIterator) m min max rt l k v :
  rli_items it = cut l (reverse (range_entries m (mkRange (Some min) (Some max) rt))) ->
  in_db db min -> in_db db max -> (k, v) ∈ rli_items it -> in_db db k.
Proof.
  intros -> Hmin Hmax Hin. apply elem_of_cut in Hin. rewrite elem_of_reverse in Hin.
  eapply (range_in_db db m min max rt (mkLimit 0 (-1))); [done..|exact Hin].
Qed.

Section ContainedTTL.
Context {B : Backend} {BS : BackendSpec B}.

Lemma contained_bucket_Get db k : contained db (bucket_Get k).
Proof. apply contained_gets. Qed.
Lemma contained_bucket_GetSlice db k : contained db (bucket_GetSlice k).
Proof. apply contained_gets. Qed.
Lemma contained_time_now db : contained db time_now.
Proof. apply contained_gets. Qed.

#[local] Hint Resolve contained_bucket_Get contained_bucket_GetSlice contained_time_now : ledis.

Lemma contained_expireAt db t T key when : contained db (expireAt db t T key when).
Proof. unfold expireAt. contained_auto. Qed.
Lemma contained_rmExpire db t T key : contained db (rmExpire db t T key).
Proof. unfold rmExpire. contained_auto. Qed.
Lemma contained_ttl db T key : contained db (ttl db T key).
Proof. unfold ttl. contained_auto. Qed.

End ContainedTTL.

#[export] Hint Resolve contained_bucket_Get contained_bucket_GetSlice contained_time_now
  contained_expireAt contained_rmExpire contained_ttl : ledis.

(** * Concrete states *)

Definition mem_state (m : gmap bytes bytes) (t : Z) : St (B := MemBackend) :=
  mkSt (B := MemBackend) (mkMem m false) false None false [] no_ops (mkEnv t 0 ∅ []).

Lemma mem_state_at m t : at_ (mem_state m t) m no_ops (mkEnv t 0 ∅ []).
Proof. by repeat split. Qed.

(** The first database, and a clock, for examples. *)
Definition db0 : DB := setIndex 0.
Definition env0 : Env := mkEnv 100 200 ∅ [].

(** * Commits *)

(** A commit is all or nothing.  In every state, with any failure of the engine or of
    the replication log, even a panic of it, the store is unchanged or has all the records of
    the batch, it has them when no error is returned, and in read only mode the error is
    [ErrWriteInROnly] and nothing is written. *)
Lemma commit_all_or_nothing {B : Backend} {BS : BackendSpec B} (t : BatchId) (st : St) :
  exists o st', batch_Commit t st = (o, st') /\ batches st' = batches st /\
  (contents st' = contents st \/ contents st' = apply_ops (batch_of t st) (contents st)) /\
  (o = Ret None -> contents st' = apply_ops (batch_of t st) (contents st)) /\
  (readonly st = true -> o = Ret (Some ErrWriteInROnly) /\ contents st' = contents st).
Proof. destruct (batch_Commit_any t st) as (err & st' & ? & ? & ? & ? & ? & ? & ?). by exists err, st'. Qed.

Lemma commit_all_or_nothing_witness :
  exists o st', batch_Commit kvBatch (mem_state ∅ 0) = (o, st') /\ (o = Ret None -> contents st' = ∅).
Proof.
  destruct (commit_all_or_nothing kvBatch (mem_state ∅ 0)) as (err & st' & H1 & _ & _ & H2 & _). exists err, st'. split; [exact H1|exact H2].
Defined.

(** * Flushing the whole store *)

Lemma apply_ops_touched ops m m' k :
  k ∈ map op_key ops \/ m !! k = m' !! k -> apply_ops ops m !! k = apply_ops ops m' !! k.
Proof.
  revert m m'; induction ops as [|o ops IH]; intros m m'; [by intros [[]%elem_of_nil|]|].
  change (apply_ops (o :: ops) ?x) with (apply_ops ops (apply_op x o)). cbn [map]. rewrite elem_of_cons.
  intros Hk. apply IH. destruct (decide (op_key o = k)) as [<-|Hne].
  - right. destruct o; cbn [apply_op op_key]; by simplify_map_eq.
  - destruct Hk as [[->|Hk]|Hk]; [done|by left|]. right. destruct o; cbn [apply_op op_key] in *; by simplify_map_eq.
Qed.

(** Replaying records over a store that has a part of them already. *)
Lemma apply_ops_again a b m : apply_ops (a ++ b) (apply_ops a m) = apply_ops (a ++ b) m.
Proof.
  apply map_eq. intros k. apply apply_ops_touched. rewrite map_app, elem_of_app. destruct (decide (k ∈ map op_key a)); [by left; left|].
  right. by apply apply_ops_other.
Qed.

Section FlushStore.
Context {B : Backend} {IS : IDBSpec backend_idb}.
Implicit Types (st : St) (ops w : list BatchOp).


Lemma engine_Commit_ok ops st : healthy (ldb st) ->
  exists st', engine_Commit ops st = (Ret None, st') /\ healthy (ldb st') /\ model (ldb st') = apply_ops ops (model (ldb st)) /\ r st' = r st.
Proof using.
  intros Hh. destruct (write_ok (ldb st) ops Hh) as (e' & E & Hh'). unfold engine_Commit.
  match goal with |- context [@drv_Write ?J ?e ops] => rewrite (E : @drv_Write J e ops = _) end.
  eexists. split; [done|]. split; [done|]. split; [by apply write_all|done].
Qed.

Lemma flush_store_loop_at fuel it es j n w st :
  at_fwd it es j -> healthy (ldb st) -> (length es - j < fuel)%nat ->
  exists st', flush_store_loop fuel it n w st = (Ret None, st') /\ healthy (ldb st') /\
  model (ldb st') = apply_ops (w ++ map (fun e => OpDelete e.1) (drop j es)) (model (ldb st)) /\ r st' = r st.
Proof using.
  revert it j n w st; induction fuel as [|fuel IH]; intros it j n w st Hat Hh Hf; [lia|]. cbn [flush_store_loop].
  destruct (es !! j) as [e|] eqn:E; cycle 1.
  { rewrite (at_fwd_end it es j Hat E). rewrite drop_ge by (by apply lookup_ge_None). cbn [map]. rewrite app_nil_r. by apply engine_Commit_ok. }
  destruct (at_fwd_next it es j e Hat E) as (_ & Hv & Hk & _ & Hn). rewrite Hv, Hk, (drop_S _ _ _ E). cbn [map].
  pose proof (lookup_lt_Some _ _ _ E) as Hlt. rewrite (cons_middle (OpDelete e.1) w (map _ _)), (app_assoc w [OpDelete e.1] (map _ _)).
  destruct (_ =? _); [|by apply (IH _ (S j)); [..|lia]].
  destruct (engine_Commit_ok w st Hh) as (st1 & E1 & Hh1 & Hs1 & Hr1). unfold mbind, M_bind. rewrite E1.
  destruct (IH (cur_Next it) (S j) 0 (w ++ [OpDelete e.1]) st1 Hn Hh1 ltac:(lia)) as (st2 & E2 & Hh2 & Hs2 & Hr2).
  exists st2. split; [exact E2|]. split; [done|]. split; [|congruence]. by rewrite Hs2, Hs1, <- (app_assoc w), apply_ops_again.
Qed.

Lemma delete_all_entries m : apply_ops (map (fun e => OpDelete e.1) (sorted_entries m)) m = ∅.
Proof using.
  apply map_eq. intros k. rewrite lookup_empty. destruct (decide (k ∈ (sorted_entries m).*1)) as [Hin|Hout].
  - generalize m at 2. induction (sorted_entries m) as [|e es IH]; [by apply not_elem_of_nil in Hin|]. intros m'.
    change (apply_ops (map ?f (e :: es)) m') with (apply_ops (map f es) (delete e.1 m')). destruct (decide (k ∈ es.*1)) as [H|H]; [by apply IH|].
    rewrite fmap_cons, elem_of_cons in Hin. destruct Hin as [->|]; [|done]. rewrite apply_ops_other; [by simplify_map_eq|].
    rewrite map_map. exact H.
  - rewrite apply_ops_other by (by rewrite map_map). destruct (m !! k) as [v|] eqn:E; [|done].
    exfalso. apply Hout, list_elem_of_fmap. exists (k, v). split; [done|]. by apply elem_of_sorted_entries.
Qed.

(** [FlushAll] of the whole server leaves no entry; with replication it then clears the log. *)
Lemma flushAll_empties st : healthy (ldb st) ->
  exists st', Ledis_flushAll st = clear_log st' /\ model (ldb st') = ∅ /\ healthy (ldb st') /\ r st' = r st.
Proof using.
  intros Hh. unfold Ledis_flushAll, mbind, M_bind, bucket_NewIterator, gets. set (it := drv_NewIterator (ldb st)). set (m := model (ldb st)).
  assert (Hs : snap it = sorted_entries m) by apply iter_snap.
  destruct (flush_store_loop_at (S (cur_bound (cur_First it))) (cur_First it) (sorted_entries m) 0 0 [] st) as (st1 & E1 & Hh1 & Hs1 & Hr1).
  - split; [by rewrite cur_snap_first|by rewrite cur_pos_first, Hs].
  - done.
  - pose proof (bound_ok (cur_First it)) as Hb. rewrite cur_snap_first, Hs in Hb. lia.
  - exists st1. cbv zeta. match goal with |- context [flush_store_loop ?f ?i ?n ?w st] => rewrite (E1 : flush_store_loop f i n w st = _) end.
    split; [done|]. split; [|done]. rewrite Hs1. apply delete_all_entries.
Qed.

End FlushStore.
