(* ===== verification/Repl.v ===== *)
(** * Replication of the database (src/ledis: replication.go, ledis.go)

    The functions of [Ledis] that move logs: [ReadLogsTo] of a master, [StoreLogsFromReader]
    and [handleReplication] of a replica, and the flush of everything.  The log is
    [Replication] of Rpl.v on any log store.

    The results: a replica that reads, stores and replays the logs of its master reaches
    its contents; after a crash, whatever part of the logged batches was written and
    whichever earlier commit id the file holds, replaying the log gives the contents of all
    logged batches. *)

From S2P Require Import Prelude Driver Store Rpl Keys Util Core.

(** The batch data of the goleveldb package: loading checks it, replaying gives its records
    up to the first malformed one. *)
Class BatchData := {
  bd_Load : bytes -> option error;
  bd_Replay : bytes -> list BatchOp * option error
}.

Class BatchDataSpec (I : IDB) (D : BatchData) := {
  bd_load_ok ops : bd_Load (drv_Data ops) = None;
  bd_replay_ok ops : bd_Replay (drv_Data ops) = (ops, None)
}.

Definition maxReplLogSize : Z := 1 * 1024 * 1024.

Section Ops.
Context {I : IDB} {C : RplConfig} {P : Snappy} {L : LogStore} {D : BatchData}.

#[local] Instance repl_backend : Backend | 0 := {| backend_idb := I; backend_rpl := replication |}.

(** Runs an operation of [l.r]. *)
Definition on_rpl {A} (p : SM Replication A) : M A := fun st =>
  match r st with
  | None => (Panic, st)
  | Some x => let '(o, x') := p x in (o, with_r (Some x') st)
  end.

(** The body of the loop of [handleReplication] for the log [rl].  An error of [Replay] is
    only logged: the records before it are committed. *)
Definition replay_log (rl : Log) : M (option error) :=
  match (if Compression rl =? 1 then snappy_Decode (LogData rl) else inl (LogData rl)) with
  | inr err => mret (Some err)
  | inl data =>
      match bd_Load data with
      | Some err => mret (Some err)
      | None =>
          let '(ops, _) := bd_Replay data in
          err ← engine_Commit ops;
          match err with
          | Some err => mret (Some err)
          | None => on_rpl (UpdateCommitID (ID rl))
          end
      end
  end.

(** [handleReplication]; [fuel] bounds the logs that are behind, [None] is running out of
    it. *)
Fixpoint handleReplication (fuel : nat) : M (option (option error)) :=
  match fuel with
  | O => mret None
  | S fuel =>
      rl ← on_rpl NextNeedCommitLog;
      match rl with
      | inr ErrNoBehindLog => mret (Some None)
      | inr err => mret (Some (Some err))
      | inl rl =>
          err ← replay_log rl;
          match err with
          | Some err => mret (Some (Some err))
          | None => handleReplication fuel
          end
      end
  end.

Definition ReplicationUsed (st : St) : bool := match r st with None => false | Some _ => true end.

(** The loop of [StoreLogsFromReader]; each log has at least its head, so that the bytes of
    the reader bound the rounds. *)
Fixpoint store_logs_loop (fuel : nat) (rb : bytes) : M (option error) :=
  match fuel with
  | O => mret None
  | S fuel =>
      match Decode rb with
      | (inr EOF, _) => fun st => (Ret None, noticeReplication st)
      | (inr err, _) => mret (Some err)
      | (inl log, rb) =>
          err ← on_rpl (rpl_StoreLog log);
          match err with
          | Some err => mret (Some err)
          | None => store_logs_loop fuel rb
          end
      end
  end.

Definition StoreLogsFromReader (rb : bytes) : M (option error) := fun st =>
  if negb (ReplicationUsed st) then (Ret (Some ErrRplNotSupport), st)
  else if negb (readonly st) then (Ret (Some ErrRplInRDWR), st)
  else store_logs_loop (S (length rb)) rb st.

Definition StoreLogsFromData (data : bytes) : M (option error) := StoreLogsFromReader data.

(** The loop of [ReadLogsTo] over the ids from [i] to [lastID]; [w] is what the writer has
    got. *)
Fixpoint read_logs_loop (fuel : nat) (i lastID n nextLogID : Z) (w : bytes) : M (Z * Z * option error * bytes) :=
  match fuel with
  | O => mret (n, nextLogID, None, w)
  | S fuel =>
      if i <=? lastID then
        log ← on_rpl (rpl_GetLog i);
        match log with
        | inr err => mret (n, nextLogID, Some err, w)
        | inl log =>
            let w := w ++ Encode log in
            let n := n + log_Size log in
            if n >? maxReplLogSize then mret (n, i + 1, None, w)
            else read_logs_loop fuel (i + 1) lastID n (i + 1) w
        end
      else mret (n, nextLogID, None, w)
  end.

Definition ReadLogsTo (startLogID : Z) : M (Z * Z * option error * bytes) := fun st =>
  if negb (ReplicationUsed st) then (Ret (0, 0, Some ErrRplNotSupport, []), st)
  else
    ('(firstID, err) ← on_rpl FirstLogID;
     match err with
     | Some err => mret (0, 0, Some err, [])
     | None =>
         if startLogID <? firstID then mret (0, 0, Some ErrLogMissed, [])
         else
           '(lastID, err) ← on_rpl LastLogID;
           match err with
           | Some err => mret (0, 0, Some err, [])
           | None => read_logs_loop (Z.to_nat (lastID - startLogID + 1)) startLogID lastID 0 startLogID []
           end
     end) st.

(** [ReadLogsToTimeout]; [others] is what happens while it waits for a log, and returns
    whether the server has quit meanwhile. *)
Definition ReadLogsToTimeout (startLogID : Z) (others : M bool) : M (Z * Z * option error * bytes) :=
  '(n, nextLogID, err, w) ← ReadLogsTo startLogID;
  match err with
  | Some err => mret (n, nextLogID, Some err, w)
  | None =>
      if negb (n =? 0) then mret (n, nextLogID, None, w)
      else
        quit ← others;
        if (quit : bool) then mret (n, nextLogID, None, w)
        else '(n, nextLogID, err, w') ← ReadLogsTo startLogID; mret (n, nextLogID, err, w ++ w')
  end.

Definition ReplicationStat : M (Z * Z * Z + error) := fun st =>
  if negb (ReplicationUsed st) then (Ret (inr ErrRplNotSupport), st) else on_rpl rpl_Stat st.

(** [Ledis.IsReadOnly]: an error of [CommitIDBehind] counts as not behind. *)
Definition IsReadOnly : M bool := fun st =>
  if readonly st then (Ret true, st)
  else if ReplicationUsed st then ('(b, _) ← on_rpl CommitIDBehind; mret b) st
  else (Ret false, st).

End Ops.

Section Spec.
Context {I : IDB} {IS : IDBSpec I} {C : RplConfig} {P : Snappy} {PS : SnappySpec P} {L : LogStore} {LS : LogStoreSpec L}.
Context {D : BatchData} {DS : BatchDataSpec I D}.
Implicit Types (x : Replication) (logs : list Log) (l : Log) (ops : list BatchOp).
#[local] Existing Instance repl_backend.

Abbreviation St := (St (B := repl_backend)).
Abbreviation store st := (model (ldb (B := repl_backend) st)).

(** The log [l] is that of the batch [ops]. *)
Definition log_of l ops : Prop :=
  exists data, log_payload l = inl data /\ bd_Load data = None /\ bd_Replay data = (ops, None).

(** A node with the logs [logs], committed up to [id]. *)
Record node (st : St) logs (id : Z) : Prop := {
  nd_healthy : healthy (ldb st);
  nd_rpl : exists x, r st = Some x /\ ls_rep (rs x) logs /\ commitID x = id /\ f_faulty (commitLog x) = false /\
    exists id0, recorded (commitLog x) id0;
  nd_within : within_logs id logs
}.

Lemma within_last logs : chain logs -> within_logs (last_id logs) logs.
Proof using.
  intros Hc. destruct logs as [|l logs]; [done|]. cbn [within_logs]. pose proof (chain_last _ Hc ltac:(done)) as H. cbn [first_id length] in H. lia.
Qed.

Lemma UpdateCommitID_ok id x :
  f_faulty (commitLog x) = false -> (exists id0, recorded (commitLog x) id0) ->
  exists f, UpdateCommitID id x = (Ret None, mkRpl (rs x) id f) /\ f_faulty f = false /\ exists id0, recorded f id0.
Proof using.
  intros Hf Hr. destruct (updateCommitID_ok id (cfg_SyncLog =? 2) x Hf Hr) as (f & E & Hf' & H). exists f. split; [exact E|]. split; [done|].
  destruct (_ =? _); [by exists id|by subst f].
Qed.

(** A commit of a node that is in sync logs the batch and applies it. *)
Lemma handleCommit_node st logs ops :
  node st logs (last_id logs) -> last_id logs + 1 < 2 ^ 64 -> fits_log (drv_Data ops) ->
  exists l st', handleCommit ops st = (Ret None, st') /\ node st' (logs ++ [l]) (last_id (logs ++ [l])) /\ log_of l ops /\
  last_id (logs ++ [l]) = last_id logs + 1 /\ store st' = apply_ops ops (store st) /\ readonly st' = readonly st.
Proof using PS LS DS.
  intros [Hh (x & Hx & Hr & Hid & Hf & Hrec) _] Hb Hfit. unfold handleCommit. rewrite Hx.
  destruct (rpl_log_ok (now (env st)) (drv_Data ops) x logs Hr ltac:(by rewrite Hid) ltac:(lia) Hfit) as (l & s1 & E1 & Hr1 & Hl & Hw & Hp).
  match goal with |- context [@rpl_Log ?R ?n ?d x] => rewrite (E1 : @rpl_Log R n d x = _) end. cbn [ldb propagate with_r]. destruct (write_ok (ldb st) ops Hh) as (e' & E2 & Hh').
  match goal with |- context [@drv_Write ?J ?e ops] => rewrite (E2 : @drv_Write J e ops = _) end.
  destruct (UpdateCommitID_ok (ID l) (mkRpl s1 (commitID x) (commitLog x)) Hf Hrec) as (f & E3 & Hf' & Hrec').
  match goal with |- context [@rpl_UpdateCommitID ?R ?i ?y] => rewrite (E3 : @rpl_UpdateCommitID R i y = _) end.
  assert (HL : last_id (logs ++ [l]) = ID l) by (unfold last_id; by rewrite last_snoc).
  eexists l, _. split; [done|]. split; [|split; [|split; [lia|split; [by apply write_all|done]]]].
  - split; [done| |apply within_last; by eapply rep_chain]. eexists. split; [done|]. rewrite HL. done.
  - exists (drv_Data ops). split; [done|]. split; [apply bd_load_ok|apply bd_replay_ok].
Qed.

Lemma on_rpl_run {A} (p : SM Replication A) (o : outcome A) x x' (st : St) : r st = Some x -> p x = (o, x') -> on_rpl p st = (o, with_r (B := repl_backend) (Some x') st).
Proof using. intros Hx E. unfold on_rpl. by rewrite Hx, E. Qed.

Lemma behind_nil id logs : chain logs -> within_logs id logs -> behind id logs = [] -> id = last_id logs.
Proof using.
  intros Hc Hw Hb. destruct logs as [|l0 logs]; [done|]. pose proof (chain_last _ Hc ltac:(done)) as HL. cbn [within_logs] in Hw.
  unfold behind in Hb. apply (f_equal length) in Hb. rewrite length_drop in Hb. cbn [first_id length] in *. lia.
Qed.

Lemma behind_cons id logs l rest : chain logs -> within_logs id logs -> behind id logs = l :: rest ->
  ID l = id + 1 /\ wf_log l /\ within_logs (id + 1) logs /\ behind (id + 1) logs = rest.
Proof using.
  intros Hc Hw Hb. pose proof Hc as [HW Hi]. assert (E : logs !! Z.to_nat (id + 1 - first_id logs) = Some l).
  { rewrite <- (Nat.add_0_r (Z.to_nat _)), <- lookup_drop. unfold behind in Hb. by rewrite Hb. }
  pose proof (Hi _ _ E) as HID. destruct logs as [|l0 logs]; [done|]. pose proof (chain_last _ Hc ltac:(done)) as HL.
  pose proof (lookup_lt_Some _ _ _ E) as Hlt. cbn [within_logs first_id] in *.
  assert (ID l = id + 1) by lia. split; [done|]. split; [rewrite Forall_lookup in HW; by eapply HW|]. split; [lia|].
  unfold behind in *. cbn [first_id] in *. rewrite (drop_S _ _ _ E) in Hb.
  replace (Z.to_nat (id + 1 + 1 - ID l0)) with (S (Z.to_nat (id + 1 - ID l0))) by lia. congruence.
Qed.

Lemma replay_log_node st logs id l rest ops :
  node st logs id -> behind id logs = l :: rest -> log_of l ops ->
  exists st', replay_log l st = (Ret None, st') /\ node st' logs (id + 1) /\ store st' = apply_ops ops (store st) /\ readonly st' = readonly st.
Proof using LS.
  intros [Hh (x & Hx & Hr & Hid & Hf & Hrec) Hw] Hb (data & Hp & HL & HR).
  destruct (behind_cons _ _ _ _ (rep_chain _ _ Hr) Hw Hb) as (HI & _ & Hw' & _). unfold replay_log. unfold log_payload in Hp. rewrite Hp, HL, HR.
  destruct (write_ok (ldb st) ops Hh) as (e' & E2 & Hh'). unfold mbind, M_bind, engine_Commit.
  match goal with |- context [@drv_Write ?J ?e ops] => rewrite (E2 : @drv_Write J e ops = _) end.
  destruct (UpdateCommitID_ok (ID l) x Hf Hrec) as (f & E3 & Hf' & Hrec'). rewrite (on_rpl_run _ _ x _ (with_ldb e' st) Hx E3).
  eexists. split; [done|]. split; [|split; [by apply write_all|done]]. split; [done| |done]. eexists. split; [done|]. split; [done|]. split; [cbn; lia|done].
Qed.

(** [handleReplication] replays the logs that are behind, in order, and returns. *)
Lemma handleReplication_node fuel st logs id opss :
  node st logs id -> Forall2 log_of (behind id logs) opss -> (length opss < fuel)%nat ->
  exists st', handleReplication fuel st = (Ret (Some None), st') /\ node st' logs (last_id logs) /\
  store st' = apply_ops (concat opss) (store st) /\ readonly st' = readonly st.
Proof using LS.
  revert st id opss; induction fuel as [|fuel IH]; intros st id opss Hn HF Hlen; [lia|].
  pose proof Hn as [Hh (x & Hx & Hr & Hid & Hf & Hrec) Hw]. pose proof (rep_chain _ _ Hr) as Hc. subst id.
  destruct (NextNeedCommitLog_ok x logs Hr Hw) as (s1 & E1 & Hr1). cbn [handleReplication]. unfold mbind at 1, M_bind at 1.
  rewrite (on_rpl_run _ _ x _ st Hx E1). set (st1 := with_r _ st).
  assert (Hn1 : node st1 logs (commitID x)) by (split; [done| |done]; eexists; split; [done|]; done).
  destruct (behind (commitID x) logs) as [|l rest] eqn:Eb.
  - inversion HF; subst. exists st1. split; [done|]. split; [|done]. rewrite <- (behind_nil (commitID x) logs); done.
  - inversion HF as [|? ops ? opss' Hl HF']; subst. destruct (replay_log_node st1 logs (commitID x) l rest ops Hn1 Eb Hl) as (st2 & E2 & Hn2 & Hs2 & Hro2).
    unfold mbind, M_bind. rewrite E2. destruct (behind_cons _ _ _ _ Hc Hw Eb) as (_ & _ & Hw' & Eb').
    destruct (IH st2 (commitID x + 1) opss' Hn2) as (st3 & E3 & Hn3 & Hs3 & Hro3); [by rewrite Eb'|simpl in Hlen; lia|].
    exists st3. split; [done|]. split; [done|]. split; [|by rewrite Hro3, Hro2]. cbn [concat]. rewrite apply_ops_app, Hs3. by rewrite Hs2.
Qed.

(** ** Reading logs from a master *)

(** Reading logs changes nothing but the cached ids of the log store. *)
Definition same_node (st st' : St) logs (id : Z) : Prop :=
  node st' logs id /\ store st' = store st /\ readonly st' = readonly st.

Lemma on_rpl_node {A} (p : SM Replication A) (a : A) st logs id :
  node st logs id ->
  (forall x, ls_rep (rs x) logs -> exists s', p x = (Ret a, mkRpl s' (commitID x) (commitLog x)) /\ ls_rep s' logs) ->
  exists st', on_rpl p st = (Ret a, st') /\ same_node st st' logs id.
Proof using.
  intros [Hh (x & Hx & Hr & Hid & Hf & Hrec) Hw] Hp. destruct (Hp x Hr) as (s' & E & Hr'). rewrite (on_rpl_run _ _ x _ st Hx E).
  eexists. split; [done|]. split; [|done]. split; [done| |done]. eexists. split; [done|]. done.
Qed.

Lemma same_node_trans st1 st2 st3 logs id : same_node st1 st2 logs id -> same_node st2 st3 logs id -> same_node st1 st3 logs id.
Proof using. intros (_ & H2 & H3) (K1 & K2 & K3). split; [done|]. split; congruence. Qed.

Lemma LastLogID_node st logs id : node st logs id -> exists st', on_rpl LastLogID st = (Ret (last_id logs, None), st') /\ same_node st st' logs id.
Proof using LS.
  intros Hn. apply on_rpl_node; [done|]. intros x Hr. destruct (LastID_ok _ _ Hr) as (s' & E & Hr'). exists s'. split; [by apply on_store_run|done].
Qed.

Lemma FirstLogID_node st logs id : node st logs id -> exists st', on_rpl FirstLogID st = (Ret (first_id logs, None), st') /\ same_node st st' logs id.
Proof using LS.
  intros Hn. apply on_rpl_node; [done|]. intros x Hr. destruct (FirstID_ok _ _ Hr) as (s' & E & Hr'). exists s'. split; [by apply on_store_run|done].
Qed.

Lemma GetLog_node st logs id l rest c :
  node st logs id -> within_logs c logs -> behind c logs = l :: rest ->
  exists st', on_rpl (rpl_GetLog (c + 1)) st = (Ret (inl l), st') /\ same_node st st' logs id.
Proof using LS.
  intros Hn Hw Hb. apply on_rpl_node; [done|]. intros x Hr. pose proof (rep_chain _ _ Hr) as Hc.
  destruct (behind_cons _ _ _ _ Hc Hw Hb) as (HI & [H1 _ _ _] & _ & _).
  destruct (GetLog_ok (rs x) logs (c + 1) Hr ltac:(lia)) as (s' & E & Hr'). exists s'. split; [|done]. unfold rpl_GetLog.
  rewrite (on_store_run _ _ _ _ E). do 2 f_equal. unfold log_with, behind in *. destruct logs as [|l0 logs]; [by rewrite drop_nil in Hb|].
  cbn [first_id within_logs] in *. rewrite (proj2 (Z.ltb_ge _ _)) by lia.
  assert (El : (l0 :: logs) !! Z.to_nat (c + 1 - ID l0) = Some l) by (by rewrite <- (Nat.add_0_r (Z.to_nat _)), <- lookup_drop, Hb).
  by rewrite El.
Qed.

Lemma read_logs_loop_node fuel st logs id c n w :
  node st logs id -> chain logs -> within_logs c logs -> fuel = length (behind c logs) ->
  exists k n' st', read_logs_loop fuel (c + 1) (last_id logs) n (c + 1) w st =
    (Ret (n', c + 1 + Z.of_nat k, None, w ++ concat (map Encode (take k (behind c logs)))), st') /\
  same_node st st' logs id /\ (k <= fuel)%nat /\ (0 < fuel -> 0 < k)%nat.
Proof using LS.
  revert st c n w; induction fuel as [|fuel IH]; intros st c n w Hn Hc Hw Hlen; cbn [read_logs_loop].
  - exists 0%nat, n, st. cbn [take map concat]. rewrite app_nil_r, Z.add_0_r. split; [done|]. split; [done|]. lia.
  - destruct (behind c logs) as [|l rest] eqn:Eb; [done|]. destruct (behind_cons _ _ _ _ Hc Hw Eb) as (HI & Hl & Hw' & Eb').
    rewrite (proj2 (Z.leb_le _ _)) by (destruct logs as [|l0 logs]; [unfold behind in Eb; by rewrite drop_nil in Eb|]; cbn [within_logs] in Hw'; lia).
    destruct (GetLog_node st logs id l rest c Hn Hw Eb) as (st1 & E1 & HS1). unfold mbind, M_bind. rewrite E1.
    destruct (_ >? maxReplLogSize).
    + exists 1%nat, (n + log_Size l), st1. cbn [take map concat]. rewrite take_0, app_nil_r. split; [done|]. split; [done|]. lia.
    + destruct (IH st1 (c + 1) (n + log_Size l) (w ++ Encode l)) as (k & n' & st2 & E2 & HS2 & Hk & _);
        [apply HS1|done|done|by rewrite Eb'; injection Hlen|].
      exists (S k), n', st2. rewrite E2, Eb'. cbn [take map concat]. split; [|split; [by eapply same_node_trans|lia]].
      rewrite app_assoc. do 2 f_equal. do 3 f_equal. lia.
Qed.

Lemma ReadLogsTo_node st logs id c :
  node st logs id -> within_logs c logs ->
  exists k n st', ReadLogsTo (c + 1) st = (Ret (n, c + 1 + Z.of_nat k, None, concat (map Encode (take k (behind c logs)))), st') /\
  same_node st st' logs id /\ (k <= length (behind c logs))%nat /\ (0 < length (behind c logs) -> 0 < k)%nat.
Proof using LS.
  intros Hn Hw. unfold ReadLogsTo, ReplicationUsed. pose proof Hn as [_ (x & Hx & Hr & _) _]. pose proof (rep_chain _ _ Hr) as Hc. rewrite Hx. cbn [negb].
  destruct (FirstLogID_node st logs id Hn) as (st1 & E1 & HS1). unfold mbind, M_bind. rewrite E1.
  assert (Hlt : (c + 1 <? first_id logs) = false).
  { apply Z.ltb_ge. destruct logs as [|l0 logs]; cbn [within_logs first_id] in *; unfold InvalidLogID; lia. }
  rewrite Hlt. destruct (LastLogID_node st1 logs id (proj1 HS1)) as (st2 & E2 & HS2). rewrite E2.
  assert (HF : Z.to_nat (last_id logs - (c + 1) + 1) = length (behind c logs)).
  { unfold behind. rewrite length_drop. destruct logs as [|l0 logs]; cbn [within_logs] in Hw; [subst c; done|].
    pose proof (chain_last _ Hc ltac:(done)) as HL. cbn [first_id] in *. lia. }
  rewrite HF. destruct (read_logs_loop_node _ st2 logs id c 0 [] (proj1 HS2) Hc Hw eq_refl) as (k & n & st3 & E3 & HS3 & Hk & Hk').
  exists k, n, st3. rewrite E3. split; [done|]. split; [|done]. eapply same_node_trans; [exact HS1|]. by eapply same_node_trans.
Qed.

(** ** Storing and replaying them on a replica *)

(** Logs that continue the id [c]. *)
Definition continues (c : Z) (new : list Log) : Prop :=
  Forall wf_log new /\ forall i l, new !! i = Some l -> ID l = c + 1 + Z.of_nat i.

Lemma continues_behind c logs : chain logs -> within_logs c logs -> continues c (behind c logs).
Proof using.
  intros [Hw Hi] Hc. unfold behind. split; [by apply Forall_drop|]. intros i l E. rewrite lookup_drop in E. rewrite (Hi _ _ E).
  destruct logs as [|l0 logs]; [by rewrite lookup_nil in E|]. cbn [within_logs first_id] in *. lia.
Qed.

Lemma continues_take c new k : continues c new -> continues c (take k new).
Proof using.
  intros [Hw Hi]. split; [by apply Forall_take|]. intros i l E. apply lookup_take_Some in E as [E _]. by apply Hi.
Qed.

Lemma continues_cons c l new : continues c (l :: new) -> ID l = c + 1 /\ wf_log l /\ continues (c + 1) new.
Proof using.
  intros [Hw Hi]. apply Forall_cons in Hw as [Hl Hw]. pose proof (Hi 0%nat l eq_refl). split; [lia|]. split; [done|]. split; [done|].
  intros i l' E. rewrite (Hi (S i) l' E). lia.
Qed.

Lemma last_snoc_id logs l : last_id (logs ++ [l]) = ID l.
Proof using. unfold last_id. by rewrite last_snoc. Qed.

Lemma last_continues logs new : continues (last_id logs) new -> last_id (logs ++ new) = last_id logs + len new.
Proof using.
  revert logs; induction new as [|l new IH]; intros logs Hc; [by rewrite app_nil_r, Z.add_0_r|].
  destruct (continues_cons _ _ _ Hc) as (HI & _ & Hc'). rewrite cons_middle, app_assoc, IH; rewrite last_snoc_id; [simpl length; lia|]. by rewrite HI.
Qed.

Lemma within_app logs new id : within_logs id logs -> continues (last_id logs) new -> within_logs id (logs ++ new).
Proof using.
  intros Hw Hc. pose proof (last_continues logs new Hc) as HL. destruct logs as [|l0 logs].
  - simpl in Hw. subst id. destruct new as [|l new]; [done|]. destruct (continues_cons _ _ _ Hc) as (HI & _ & _).
    change (last_id []) with 0 in *. cbn [app within_logs] in *. rewrite HL, HI. simpl length. lia.
  - cbn [within_logs app] in *. lia.
Qed.

Lemma store_logs_loop_node fuel st logs id new :
  node st logs id -> continues (last_id logs) new -> (length new < fuel)%nat ->
  exists st', store_logs_loop fuel (concat (map Encode new)) st = (Ret None, st') /\ node st' (logs ++ new) id /\
  store st' = store st /\ readonly st' = readonly st.
Proof using LS.
  revert st logs new; induction fuel as [|fuel IH]; intros st logs new Hn Hc Hf; [lia|]. destruct new as [|l new]; cbn [store_logs_loop map concat].
  - rewrite Decode_nil, app_nil_r. eexists. split; [done|]. split; [|done]. destruct Hn as [H1 H2 H3]. by split.
  - destruct (continues_cons _ _ _ Hc) as (HI & Hl & Hc'). rewrite Decode_Encode by done.
    pose proof Hn as [Hh (x & Hx & Hr & Hid & Hff & Hrec) Hw]. destruct (StoreLog_ok _ _ l Hr Hl HI) as (s' & E & Hr').
    unfold mbind, M_bind. rewrite (on_rpl_run (rpl_StoreLog l) _ x _ st Hx (on_store_run _ _ _ _ E)).
    destruct (IH (with_r (B := repl_backend) (Some (mkRpl s' (commitID x) (commitLog x))) st) (logs ++ [l]) new) as (st2 & E2 & Hn2 & Hs2 & Hro2).
    + split; [done| |apply within_app; [done|]; split; [by constructor|]; intros i l' El; apply list_lookup_singleton_Some in El as [-> <-]; lia].
      eexists. split; [done|]. done.
    + by rewrite last_snoc_id, HI.
    + simpl in Hf. lia.
    + exists st2. split; [exact E2|]. rewrite <- app_assoc in Hn2. done.
Qed.

Lemma StoreLogs_node st logs id new :
  node st logs id -> readonly st = true -> continues (last_id logs) new ->
  exists st', StoreLogsFromData (concat (map Encode new)) st = (Ret None, st') /\ node st' (logs ++ new) id /\
  store st' = store st /\ readonly st' = true.
Proof using LS.
  intros Hn Hro Hc. unfold StoreLogsFromData, StoreLogsFromReader, ReplicationUsed. pose proof Hn as [_ (x & Hx & _) _]. rewrite Hx, Hro. cbn [negb].
  assert (Hlen : (length new <= length (concat (map Encode new)))%nat).
  { clear. induction new as [|l new IH]; [done|]. cbn [map concat]. rewrite length_app. pose proof (Encode_length l). unfold log_Size, LogHeadSize in *.
    simpl length. lia. }
  destruct (store_logs_loop_node (S (length (concat (map Encode new)))) st logs id new Hn Hc ltac:(lia)) as (st' & E & Hn' & Hs & Hr).
  exists st'. rewrite E. split; [done|]. split; [done|]. split; [done|congruence].
Qed.

Lemma behind_app logs new : chain (logs ++ new) -> continues (last_id logs) new -> behind (last_id logs) (logs ++ new) = new.
Proof using.
  intros Hc Hn. unfold behind. destruct logs as [|l0 logs].
  - cbn [app]. destruct new as [|l new]; [done|]. destruct (continues_cons _ _ _ Hn) as (HI & _ & _). cbn [first_id]. change (last_id []) with 0 in *.
    rewrite HI. change (Z.to_nat (0 + 1 - (0 + 1))) with 0%nat. done.
  - pose proof (last_continues _ _ Hn) as HL. pose proof (chain_last _ Hc ltac:(done)) as HL2. rewrite length_app in HL2.
    change (first_id ((l0 :: logs) ++ new)) with (ID l0) in *. rewrite drop_app_ge by lia. replace (_ - _)%nat with 0%nat by lia. by rewrite drop_0.
Qed.

(** ** Rounds *)

(** A replica asks its master for the logs after its last one, stores and replays them. *)
Inductive sync_round : St * St -> St * St -> Prop :=
| sync_round_step stm stm' sts s1 s2 s3 last n next data fuel :
    on_rpl LastLogID sts = (Ret (last, None), s1) -> ReadLogsTo (last + 1) stm = (Ret (n, next, None, data), stm') ->
    StoreLogsFromData data s1 = (Ret None, s2) -> handleReplication fuel s2 = (Ret (Some None), s3) ->
    sync_round (stm, sts) (stm', s3).

Lemma sync_round_node stm sts logsM idM logsS opss :
  node stm logsM idM -> node sts logsS (last_id logsS) -> readonly sts = true -> within_logs (last_id logsS) logsM ->
  Forall2 log_of (behind (last_id logsS) logsM) opss ->
  exists k stm' sts', sync_round (stm, sts) (stm', sts') /\ same_node stm stm' logsM idM /\
  (k <= length opss)%nat /\ (0 < length opss -> 0 < k)%nat /\
  let logs' := logsS ++ take k (behind (last_id logsS) logsM) in
  node sts' logs' (last_id logs') /\ last_id logs' = last_id logsS + Z.of_nat k /\ readonly sts' = true /\
  store sts' = apply_ops (concat (take k opss)) (store sts).
Proof using LS.
  intros HM HS Hro Hw HF. pose proof (Forall2_length _ _ _ HF) as Hlen. pose proof HM as [_ (xM & _ & HrM & _) _]. pose proof (rep_chain _ _ HrM) as HcM.
  destruct (LastLogID_node sts logsS _ HS) as (s1 & E1 & HN1 & Hs1 & Hro1).
  destruct (ReadLogsTo_node stm logsM idM (last_id logsS) HM Hw) as (k & n & stm' & E2 & HSM & Hk & Hk'). set (new := take k _) in *.
  assert (Hc : continues (last_id logsS) new) by (by apply continues_take, continues_behind).
  destruct (StoreLogs_node s1 logsS (last_id logsS) new HN1 ltac:(congruence) Hc) as (s2 & E3 & HN2 & Hs2 & Hro2).
  pose proof HN2 as [_ (x2 & _ & Hr2 & _) _]. pose proof (rep_chain _ _ Hr2) as Hc2.
  assert (HF2 : Forall2 log_of (behind (last_id logsS) (logsS ++ new)) (take k opss)) by (rewrite behind_app by done; by apply Forall2_take).
  destruct (handleReplication_node (S (length (take k opss))) s2 _ _ _ HN2 HF2 ltac:(lia)) as (s3 & E4 & HN3 & Hs3 & Hro3).
  exists k, stm', s3. split; [by econstructor|]. split; [done|]. split; [lia|]. split; [lia|]. cbv zeta. fold new. split; [done|].
  split; [rewrite last_continues by done; subst new; rewrite length_take; lia|]. split; [congruence|]. by rewrite Hs3, Hs2, Hs1.
Qed.

(** Enough rounds bring the replica to the contents of the master. *)
Lemma sync_rounds stm sts logsM idM logsS opss :
  node stm logsM idM -> node sts logsS (last_id logsS) -> readonly sts = true -> within_logs (last_id logsS) logsM ->
  Forall2 log_of (behind (last_id logsS) logsM) opss ->
  exists stm' sts' logs', rtc sync_round (stm, sts) (stm', sts') /\ store stm' = store stm /\ node sts' logs' (last_id logsM) /\ last_id logs' = last_id logsM /\
  store sts' = apply_ops (concat opss) (store sts).
Proof using LS.
  remember (length opss) as n eqn:En. revert stm sts logsS opss En. induction n as [n IH] using (well_founded_induction lt_wf).
  intros stm sts logsS opss -> HM HS Hro Hw HF. pose proof HM as [_ (xM & _ & HrM & _) _]. pose proof (rep_chain _ _ HrM) as HcM.
  destruct opss as [|ops opss].
  { inversion HF. exists stm, sts, logsS. rewrite <- (behind_nil (last_id logsS) logsM) by done. split; [apply rtc_refl|]. done. }
  destruct (sync_round_node stm sts logsM idM logsS (ops :: opss) HM HS Hro Hw HF)
    as (k & stm1 & sts1 & HR & (HM1 & HsM & _) & Hk & Hk0 & HS1 & HL & Hro1 & Hs1).
  assert (Hb : behind (last_id logsS + Z.of_nat k) logsM = drop k (behind (last_id logsS) logsM)).
  { unfold behind. rewrite drop_drop. destruct logsM as [|l0 logsM]; [by rewrite !drop_nil|]. cbn [within_logs first_id] in *. f_equal. lia. }
  assert (Hw1 : within_logs (last_id logsS + Z.of_nat k) logsM).
  { pose proof (Forall2_length _ _ _ HF) as Hlen. destruct logsM as [|l0 logsM]; [unfold behind in Hlen; by rewrite drop_nil in Hlen|].
    unfold behind in Hlen. rewrite length_drop in Hlen. pose proof (chain_last _ HcM ltac:(done)). cbn [within_logs first_id] in *. lia. }
  destruct (IH (length (drop k (ops :: opss))) ltac:(rewrite length_drop; simpl in *; lia) stm1 sts1 _ (drop k (ops :: opss)) eq_refl HM1 HS1 Hro1)
    as (stm2 & sts2 & logs2 & HR2 & HsM2 & HS2 & HL2 & Hs2).
  - by rewrite HL.
  - rewrite HL, Hb. by apply Forall2_drop.
  - exists stm2, sts2, logs2. split; [by eapply rtc_l|]. split; [congruence|]. split; [done|]. split; [done|].
    rewrite Hs2, Hs1, <- apply_ops_app, <- concat_app. by rewrite take_drop.
Qed.

(** ** Commits of a master *)

Definition commit_all (opss : list (list BatchOp)) : M (B := repl_backend) unit := for_each opss (fun ops => _ ← handleCommit ops; mret tt).

Lemma commit_all_node st logs opss :
  node st logs (last_id logs) -> last_id logs + len opss < 2 ^ 64 -> Forall (fun ops => fits_log (drv_Data ops)) opss ->
  exists new st', commit_all opss st = (Ret tt, st') /\ node st' (logs ++ new) (last_id (logs ++ new)) /\ Forall2 log_of new opss /\
  continues (last_id logs) new /\ store st' = apply_ops (concat opss) (store st).
Proof using PS LS DS.
  revert st logs; induction opss as [|ops opss IH]; intros st logs Hn Hb HF.
  { exists [], st. rewrite app_nil_r. split; [done|]. split; [done|]. split; [constructor|]. split; [split; [constructor|done]|done]. }
  apply Forall_cons in HF as [Hf HF]. destruct (handleCommit_node st logs ops Hn ltac:(simpl in Hb; lia) Hf) as (l & st1 & E1 & Hn1 & Hl & HL & Hs1 & _).
  destruct (IH st1 (logs ++ [l]) Hn1 ltac:(simpl in Hb; lia) HF) as (new & st2 & E2 & Hn2 & HF2 & Hc2 & Hs2). rewrite <- app_assoc in Hn2.
  exists (l :: new), st2. split; [unfold commit_all in *; cbn [for_each]; unfold mbind, M_bind; by rewrite E1|]. split; [done|]. split; [by constructor|].
  split; [|cbn [concat]; by rewrite apply_ops_app, Hs2, Hs1]. rewrite last_snoc_id in HL. rewrite last_snoc_id in Hc2.
  destruct Hn1 as [_ (x & _ & Hr & _) _]. destruct (rep_chain _ _ Hr) as [Hw _]. apply Forall_app in Hw as [_ Hw]. rewrite Forall_singleton in Hw.
  destruct Hc2 as [Hw2 Hi2]. split; [by constructor|]. intros [|i] l' E; [injection E as <-; lia|]. rewrite (Hi2 i l' E). lia.
Qed.

End Spec.

(** * Properties *)

(** A replica converges.  A master and a read only replica that agree, with the same
    last log: after any batches the master commits, finitely many rounds (the replica asks
    for the logs after its last one, at most about a megabyte at a time, stores them and
    replays them) bring the replica to the contents of the master.  Each batch is committed
    with its log, every round succeeds, and reading the logs does not change the master. *)
Lemma replica_converges {I : IDB} {IS : IDBSpec I} {C : RplConfig} {P : Snappy} {PS : SnappySpec P} {L : LogStore} {LS : LogStoreSpec L}
    {D : BatchData} {DS : BatchDataSpec I D} (stm sts : St (B := repl_backend)) (logsM logsS : list Log) (opss : list (list BatchOp)) :
  node stm logsM (last_id logsM) -> node sts logsS (last_id logsS) -> last_id logsS = last_id logsM -> readonly sts = true ->
  model (ldb sts) = model (ldb stm) -> last_id logsM + len opss < 2 ^ 64 -> Forall (fun ops => fits_log (drv_Data ops)) opss ->
  exists stm1 stm2 sts', commit_all opss stm = (Ret tt, stm1) /\ rtc sync_round (stm1, sts) (stm2, sts') /\
  model (ldb stm1) = apply_ops (concat opss) (model (ldb stm)) /\ model (ldb stm2) = model (ldb stm1) /\ model (ldb sts') = model (ldb stm1).
Proof.
  intros HM HS HL Hro Hs Hb HF. destruct (commit_all_node stm logsM opss HM Hb HF) as (new & stm1 & E & HM1 & HF2 & Hc & Hs1).
  pose proof HM1 as [_ (x & _ & Hr & _) _]. pose proof (rep_chain _ _ Hr) as Hch.
  assert (HcM : chain logsM) by (destruct HM as [_ (y & _ & Hy & _) _]; by eapply rep_chain).
  destruct (sync_rounds stm1 sts (logsM ++ new) _ logsS opss HM1 HS Hro) as (stm2 & sts' & logs' & HR & HsM & _ & _ & Hs').
  - rewrite HL. apply within_app; [by apply within_last|done].
  - rewrite HL, behind_app; done.
  - exists stm1, stm2, sts'. split; [done|]. split; [done|]. split; [done|]. split; [done|]. rewrite Hs', Hs1. by rewrite Hs.
Qed.

(** C19: recovery after a crash.  Whatever prefix of the logged batches had reached the engine
    when the program stopped, and whichever earlier commit id the file holds, opening the
    log and replaying it returns, applies every logged batch after that id and leaves a
    node that accepts commits: nothing that was logged is lost and nothing is applied
    partly. *)
Theorem crash_recovery {I : IDB} {IS : IDBSpec I} {C : RplConfig} {P : Snappy} {L : LogStore} {LS : LogStoreSpec L}
    {D : BatchData} (st : St (B := repl_backend)) (s : ls_t) (f : file) (c : Z) (logs : list Log)
    (opss : list (list BatchOp)) (k : nat) (m : gmap bytes bytes) :
  healthy (ldb st) -> ls_rep s logs -> recorded f c -> f_faulty f = false -> within_logs c logs -> Forall2 log_of (behind c logs) opss ->
  model (ldb st) = apply_ops (concat (take k opss)) m ->
  exists x st', NewReplication s f = inl x /\
  handleReplication (S (length opss)) (with_r (B := repl_backend) (Some x) st) = (Ret (Some None), st') /\
  model (ldb st') = apply_ops (concat opss) m /\ node st' logs (last_id logs).
Proof.
  intros Hh Hr Hrec Hf Hw HF Hm. pose proof (rep_chain _ _ Hr) as Hc. pose proof (last_id_bound logs Hc) as HB.
  assert (Hb : 0 <= c < 2 ^ 64).
  { destruct logs as [|l0 logs]; cbn [within_logs] in Hw; [lia|]. destruct Hc as [Hc _]. apply Forall_cons in Hc as [[H _ _ _] _]. lia. }
  exists (mkRpl s c f). rewrite (NewReplication_ok s f c Hrec Hb).
  destruct (handleReplication_node (S (length opss)) (with_r (B := repl_backend) (Some (mkRpl s c f)) st) logs c opss) as (st' & E & Hn & Hs & _).
  - split; [done| |done]. eexists. split; [done|]. split; [done|]. split; [done|]. split; [done|]. by exists c.
  - done.
  - lia.
  - exists st'. split; [done|]. split; [done|]. split; [|done]. rewrite Hs.
    change (model (ldb (with_r (B := repl_backend) _ st))) with (model (ldb st)). rewrite Hm.
    rewrite <- (take_drop k opss) at 1 3. rewrite concat_app. apply apply_ops_again.
Qed.

(** ** Examples *)

(** Reading the batch format of the concrete engine. *)
Fixpoint mem_read (b acc : bytes) : option (bytes * bytes) :=
  match b with
  | 0 :: b' => Some (acc, b')
  | 1 :: x :: b' => mem_read b' (acc ++ [x])
  | _ => None
  end.

Fixpoint mem_load (fuel : nat) (b : bytes) : list BatchOp * option error :=
  match fuel, b with
  | _, [] => ([], None)
  | O, _ => ([], Some errDriver)
  | S fuel, tag :: b =>
      match mem_read b [] with
      | None => ([], Some errDriver)
      | Some (k, b) =>
          if tag =? 3 then let '(ops, err) := mem_load fuel b in (OpDelete k :: ops, err)
          else match mem_read b [] with
          | None => ([], Some errDriver)
          | Some (v, b) => let '(ops, err) := mem_load fuel b in (OpPut k v :: ops, err)
          end
      end
  end.

Definition mem_batch_data : BatchData := {|
  bd_Load _ := None;
  bd_Replay b := mem_load (length b) b
|}.

Lemma mem_read_string b acc rest : mem_read (mem_string b ++ rest) acc = Some (acc ++ b, rest).
Proof.
  revert acc; induction b as [|x b IH]; intros acc; cbn [mem_string app mem_read]; [by rewrite app_nil_r|]. by rewrite IH, <- app_assoc.
Qed.

Lemma mem_load_dump ops fuel : (length (mem_dump ops) <= fuel)%nat -> mem_load fuel (mem_dump ops) = (ops, None).
Proof.
  revert fuel; induction ops as [|o ops IH]; intros fuel Hf; [by destruct fuel|].
  destruct o as [k v|k]; cbn [mem_dump map concat app] in *; destruct fuel as [|fuel]; try (simpl in Hf; lia); cbn [mem_load].
  - rewrite <- !app_assoc, mem_read_string. cbn [app Z.eqb Pos.eqb]. rewrite mem_read_string. fold (mem_dump ops).
    rewrite IH; [done|]. cbn [length] in Hf. rewrite !length_app in Hf. fold (mem_dump ops) in Hf. lia.
  - rewrite mem_read_string. cbn [app Z.eqb Pos.eqb]. fold (mem_dump ops). rewrite IH; [done|].
    cbn [length] in Hf. rewrite !length_app in Hf. fold (mem_dump ops) in Hf. lia.
Qed.

Lemma mem_batch_data_spec : BatchDataSpec GoLevelDB.idb mem_batch_data.
Proof. split; [done|]. intros ops. by apply mem_load_dump. Qed.

#[local] Existing Instances mem_open ex_config ex_snappy ex_snappy_spec mem_batch_data mem_batch_data_spec.

(** A node on the concrete engine. *)
Definition ex_node (ro : bool) (m : gmap bytes bytes) (logs : list Log) (id : Z) : St (B := repl_backend (I := GoLevelDB.idb) (L := ex_logs)) :=
  mkSt (B := repl_backend (I := GoLevelDB.idb) (L := ex_logs)) (mkMem m false) ro
    (Some (mkRpl (L := ex_logs) (ex_store logs) id (mkFile [] false))) false [] no_ops env0.

Lemma ex_node_ok ro m logs id : chain logs -> within_logs id logs -> node (L := ex_logs) (ex_node ro m logs id) logs id.
Proof.
  intros Hc Hw. split; [done| |done]. eexists. split; [done|]. split; [by apply ex_store_rep|]. split; [done|]. split; [done|]. exists 0. by right.
Qed.

Lemma ex_fits : Forall (fun ops => fits_log (C := ex_config) (P := ex_snappy) (drv_Data (IDB := GoLevelDB.idb) ops)) [[OpPut [1] [2]]; [OpDelete [1]]].
Proof. repeat constructor; by intros c [= <-]. Qed.

Lemma replica_converges_witness :
  exists stm1 stm2 sts', commit_all [[OpPut [1] [2]]; [OpDelete [1]]] (ex_node false ∅ [] 0) = (Ret tt, stm1) /\
  rtc sync_round (stm1, ex_node true ∅ [] 0) (stm2, sts') /\ model (ldb sts') = model (ldb stm1).
Proof.
  destruct (replica_converges (L := ex_logs) (ex_node false ∅ [] 0) (ex_node true ∅ [] 0) [] [] [[OpPut [1] [2]]; [OpDelete [1]]]
    (ex_node_ok false ∅ [] 0 chain_nil eq_refl) (ex_node_ok true ∅ [] 0 chain_nil eq_refl) eq_refl eq_refl eq_refl eq_refl ex_fits)
    as (stm1 & stm2 & sts' & H1 & H2 & _ & _ & H3).
  exists stm1, stm2, sts'. split; [exact H1|]. split; [exact H2|exact H3].
Defined.

Definition ex_first : Log := mkLog 1 100 0 (mem_dump [OpPut [1] [2]]).

Lemma ex_first_chain : chain [ex_first].
Proof. split; [by constructor; [by split|constructor]|]. intros [|i] l E; [by injection E as <-|done]. Qed.

Lemma ex_first_of : Forall2 (log_of (P := ex_snappy) (D := mem_batch_data)) (behind 0 [ex_first]) [[OpPut [1] [2]]].
Proof. constructor; [|constructor]. exists (mem_dump [OpPut [1] [2]]). done. Qed.

Lemma crash_recovery_witness :
  exists x st', NewReplication (L := ex_logs) (ex_store [ex_first]) (mkFile [] false) = inl x /\
  handleReplication 2 (with_r (B := repl_backend (I := GoLevelDB.idb) (L := ex_logs)) (Some x) (ex_node false ∅ [ex_first] 0)) = (Ret (Some None), st') /\
  model (ldb st') = {[ [1] := [2] ]}.
Proof.
  destruct (crash_recovery (I := GoLevelDB.idb) (IS := goleveldb_spec MemLevelDB MemLevelDBSpec) (L := ex_logs) (ex_node false ∅ [ex_first] 0) (ex_store [ex_first]) (mkFile [] false) 0 [ex_first] [[OpPut [1] [2]]] 0 ∅
    ltac:(done) (ex_store_rep _ ex_first_chain) (or_intror (conj eq_refl eq_refl)) eq_refl ltac:(done) ex_first_of eq_refl) as (x & st' & H1 & H2 & H3 & _).
  exists x, st'. split; [exact H1|]. split; [exact H2|]. rewrite H3. reflexivity.
Defined.
