(* ===== verification/Dump.v ===== *)
(** * Dumps of the whole store (src/ledis/dump.go)

    [Dump] writes the commit id and every entry of a snapshot, keys and values compressed;
    [LoadDump] flushes the store, reads the entries back and takes over the commit id.  The
    result: loading a dump gives the contents and the commit id of the store it was taken
    from. *)

From S2P Require Import Prelude Driver Store Rpl Keys Util Core Repl.

(** [driver.ISnapshot]: a fixed view of the store. *)
Class SnapshotDB (I : IDB) := {
  snapshot : Type;
  drv_NewSnapshot : engine -> snapshot + error;
  snapshot_NewIterator : snapshot -> cursor
}.

Class SnapshotSpec (I : IDB) {IS : IDBSpec I} (N : SnapshotDB I) := {
  snapshot_ok e : healthy e -> exists s, drv_NewSnapshot e = inl s /\ snap (snapshot_NewIterator s) = sorted_entries (model e)
}.

Section Ops.
Context {I : IDB} {N : SnapshotDB I} {C : RplConfig} {P : Snappy} {L : LogStore}.
#[local] Existing Instance repl_backend | 0.

Record DumpHead := mkDumpHead { CommitID : Z }.

(** [binary.Write] and [binary.Read] of an unsigned number of [n] bytes, big endian. *)
Definition binary_Write (n : nat) (z : Z) : bytes := be_put n z.
Definition binary_Read (n : nat) (rb : bytes) : (Z + error) * bytes :=
  match ReadFull (Z.of_nat n) rb with
  | (inr err, rb) => (inr err, rb)
  | (inl b, rb) => (inl (be_get b), rb)
  end.

(** [io.CopyN] of [n] bytes into an empty buffer. *)
Definition CopyN (n : Z) (rb : bytes) : (bytes + error) * bytes :=
  if n <=? len rb then (inl (take (Z.to_nat n) rb), drop (Z.to_nat n) rb) else (inr EOF, []).

Definition head_Write (h : DumpHead) : bytes := binary_Write 8 (uint64 (CommitID h)).
Definition head_Read (rb : bytes) : (DumpHead + error) * bytes :=
  match binary_Read 8 rb with
  | (inr err, rb) => (inr err, rb)
  | (inl id, rb) => (inl (mkDumpHead id), rb)
  end.

(** The loop of [Dump] over the entries: what the buffered writer has got, and the error. *)
Fixpoint dump_loop (fuel : nat) (it : cursor) (wb : bytes) : bytes * option error :=
  match fuel with
  | O => (wb, None)
  | S fuel =>
      if cur_Valid it then
        match snappy_Encode (raw_key it) with
        | inr err => (wb, Some err)
        | inl key =>
            let wb := wb ++ binary_Write 2 (uint16 (len key)) ++ key in
            match snappy_Encode (raw_value it) with
            | inr err => (wb, Some err)
            | inl value => dump_loop fuel (cur_Next it) (wb ++ binary_Write 4 (uint32 (len value)) ++ value)
            end
        end
      else (wb, None)
  end.

(** [if l.r != nil { commitID, err = l.r.LastCommitID() }] *)
Definition last_commit : M (Z * option error) := fun st =>
  if ReplicationUsed st then on_rpl LastCommitID st else (Ret (0, None), st).

(** [Dump] into a writer that takes everything. *)
Definition Dump : M (bytes * option error) :=
  '(commitID, err) ← last_commit;
  match err with
  | Some err => mret ([], Some err)
  | None =>
      s ← gets (fun st => drv_NewSnapshot (ldb st));
      match s with
      | inr err => mret ([], Some err)
      | inl s =>
          let it := cur_First (snapshot_NewIterator s) in
          mret (dump_loop (S (cur_bound it)) it (head_Write (mkDumpHead commitID)))
      end
  end.

(** One entry of a dump; [None] is the end of the reader before it. *)
Definition load_entry (rb : bytes) : (option (bytes * bytes) + error) * bytes :=
  match binary_Read 2 rb with
  | (inr EOF, rb) => (inl None, rb)
  | (inr err, rb) => (inr err, rb)
  | (inl keyLen, rb) =>
      match CopyN keyLen rb with
      | (inr err, rb) => (inr err, rb)
      | (inl keyBuf, rb) =>
          match snappy_Decode keyBuf with
          | inr err => (inr err, rb)
          | inl key =>
              match binary_Read 4 rb with
              | (inr err, rb) => (inr err, rb)
              | (inl valueLen, rb) =>
                  match CopyN valueLen rb with
                  | (inr err, rb) => (inr err, rb)
                  | (inl valueBuf, rb) =>
                      match snappy_Decode valueBuf with
                      | inr err => (inr err, rb)
                      | inl value => (inl (Some (key, value)), rb)
                      end
                  end
              end
          end
      end
  end.

(** The loop of [LoadDump] with the commit after it.  The batch is committed at every 1024th
    entry and keeps its records.  An entry has at least the bytes of its lengths, so that
    the bytes of the reader bound the rounds. *)
Fixpoint load_loop (fuel : nat) (rb : bytes) (n : Z) (wb : list BatchOp) : M (option error) :=
  match fuel with
  | O => mret None
  | S fuel =>
      match load_entry rb with
      | (inr err, _) => mret (Some err)
      | (inl None, _) => engine_Commit wb
      | (inl (Some (key, value)), rb) =>
          let wb := wb ++ [OpPut key value] in
          let n := n + 1 in
          if n mod 1024 =? 0 then
            err ← engine_Commit wb;
            match err with
            | Some err => mret (Some err)
            | None => load_loop fuel rb n wb
            end
          else load_loop fuel rb n wb
      end
  end.

(** [if l.r != nil { l.r.UpdateCommitID(id) }] *)
Definition take_commit (id : Z) : M (option error) := fun st =>
  if ReplicationUsed st then on_rpl (UpdateCommitID id) st else (Ret None, st).

Definition LoadDump (rb : bytes) : M (DumpHead + error) :=
  err ← Ledis_flushAll;
  match err with
  | Some err => mret (inr err)
  | None =>
      match head_Read rb with
      | (inr err, _) => mret (inr err)
      | (inl h, rb) =>
          err ← load_loop (S (length rb)) rb 0 [];
          match err with
          | Some err => mret (inr err)
          | None =>
              err ← take_commit (CommitID h);
              match err with
              | Some err => mret (inr err)
              | None => mret (inl h)
              end
          end
      end
  end.

End Ops.

(** * Entries on a stream *)

Section Spec.
Context {I : IDB} {IS : IDBSpec I} {N : SnapshotDB I} {NS : SnapshotSpec I N} {C : RplConfig} {P : Snappy} {PS : SnappySpec P}.
Context {L : LogStore} {LS : LogStoreSpec L}.
#[local] Existing Instance repl_backend | 0.
Implicit Types (es : list (bytes * bytes)) (m : gmap bytes bytes).

Abbreviation St := (St (B := repl_backend)).
Abbreviation store st := (model (ldb (B := repl_backend) st)).

(** [d] are the bytes of the entry [kv] in a dump. *)
Definition encodes (kv : bytes * bytes) (d : bytes) : Prop :=
  exists ck cv, snappy_Encode kv.1 = inl ck /\ snappy_Encode kv.2 = inl cv /\ len ck < 2 ^ 16 /\ len cv < 2 ^ 32 /\
  d = (binary_Write 2 (uint16 (len ck)) ++ ck) ++ binary_Write 4 (uint32 (len cv)) ++ cv.

(** The compressed entries of the store fit the length fields of a dump. *)
Definition fits_dump m : Prop :=
  forall k v, m !! k = Some v ->
  (forall c, snappy_Encode k = inl c -> len c < 2 ^ 16) /\ (forall c, snappy_Encode v = inl c -> len c < 2 ^ 32).

Lemma binary_roundtrip n z rest : 0 <= z < 256 ^ Z.of_nat n -> binary_Read n (binary_Write n z ++ rest) = (inl z, rest).
Proof using.
  intros Hz. unfold binary_Read, binary_Write. rewrite <- (be_put_length n z) at 1. rewrite ReadFull_app, be_get_put. by rewrite Z.mod_small.
Qed.

Lemma CopyN_app a rest : CopyN (len a) (a ++ rest) = (inl a, rest).
Proof using.
  unfold CopyN. rewrite (proj2 (Z.leb_le _ _)) by (rewrite length_app; lia). rewrite Nat2Z.id. by rewrite take_app_length, drop_app_length.
Qed.

Lemma load_entry_encodes kv d rest : encodes kv d -> load_entry (d ++ rest) = (inl (Some kv), rest).
Proof using PS.
  intros (ck & cv & Hk & Hv & Lk & Lv & ->). unfold load_entry. rewrite !uwrap_small by lia. rewrite <- !app_assoc.
  rewrite binary_roundtrip by (change (256 ^ Z.of_nat 2) with (2 ^ 16); lia). rewrite CopyN_app, (snappy_inverse _ _ Hk).
  rewrite binary_roundtrip by (change (256 ^ Z.of_nat 4) with (2 ^ 32); lia). rewrite CopyN_app, (snappy_inverse _ _ Hv). by destruct kv.
Qed.

Lemma load_entry_nil : load_entry [] = (inl None, []).
Proof using. done. Qed.

(** [Dump] writes every entry from the iterator on. *)
Lemma dump_loop_at fuel it es j wb m :
  at_fwd it es j -> es = sorted_entries m -> fits_dump m -> (length es - j < fuel)%nat ->
  exists ds, dump_loop fuel it wb = (wb ++ concat ds, None) /\ Forall2 encodes (drop j es) ds.
Proof using PS.
  intros Hat Hes Hfit. revert it j wb Hat; induction fuel as [|fuel IH]; intros it j wb Hat Hf; [lia|]. cbn [dump_loop].
  destruct (es !! j) as [[k v]|] eqn:E; cycle 1.
  { rewrite (at_fwd_end it es j Hat E). exists []. rewrite app_nil_r. split; [done|]. rewrite drop_ge by (by apply lookup_ge_None). constructor. }
  destruct (at_fwd_next it es j _ Hat E) as (_ & Hv & Hk & Hval & Hn). rewrite Hv, Hk, Hval. cbn [fst snd].
  destruct (snappy_ok k) as [ck Ek]. destruct (snappy_ok v) as [cv Ev]. rewrite Ek, Ev.
  assert (Hm : m !! k = Some v) by (apply elem_of_sorted_entries; subst es; by eapply list_elem_of_lookup_2). destruct (Hfit _ _ Hm) as [Fk Fv].
  pose proof (lookup_lt_Some _ _ _ E) as Hlt.
  edestruct (IH (cur_Next it) (S j)) as (ds & EL & HF); [done|lia|]. rewrite EL, (drop_S _ _ _ E). eexists (_ :: ds).
  split; [|constructor; [|exact HF]; exists ck, cv; split; [done|]; split; [done|]; split; [by apply Fk|]; split; [by apply Fv|reflexivity]].
  cbn [concat]. by rewrite !app_assoc.
Qed.

Definition puts es : list BatchOp := map (fun e => OpPut e.1 e.2) es.

Lemma load_loop_ok fuel es ds n wb (st : St) :
  Forall2 encodes es ds -> healthy (ldb st) -> (length es < fuel)%nat ->
  exists st', load_loop fuel (concat ds) n wb st = (Ret None, st') /\ healthy (ldb st') /\
  store st' = apply_ops (wb ++ puts es) (store st) /\ r st' = r st.
Proof using PS.
  intros HF. revert fuel n wb st; induction HF as [|e d es ds He HF IH]; intros fuel n wb st Hh Hf; (destruct fuel as [|fuel]; [simpl in Hf; lia|]);
    cbn [load_loop concat puts map].
  - rewrite load_entry_nil, app_nil_r. by apply engine_Commit_ok.
  - rewrite (load_entry_encodes _ _ _ He). destruct e as [k v]. cbn [fst snd]. fold (puts es). rewrite (cons_middle (OpPut k v) wb (puts es)), (app_assoc wb [OpPut k v] (puts es)).
    destruct (_ =? 0); [|apply IH; [done|simpl in Hf; lia]].
    destruct (engine_Commit_ok (wb ++ [OpPut k v]) st Hh) as (st1 & E1 & Hh1 & Hs1 & Hr1). unfold mbind, M_bind. rewrite E1.
    destruct (IH fuel (n + 1) (wb ++ [OpPut k v]) st1 Hh1 ltac:(simpl in Hf; lia)) as (st2 & E2 & Hh2 & Hs2 & Hr2).
    exists st2. split; [exact E2|]. split; [done|]. split; [|congruence]. by rewrite Hs2, Hs1, apply_ops_again.
Qed.

Lemma put_all_entries m : apply_ops (puts (sorted_entries m)) ∅ = m.
Proof using.
  transitivity (list_to_map (sorted_entries m) : gmap bytes bytes).
  - pose proof (sorted_entries_keys_nodup m) as Hn. revert Hn. induction (sorted_entries m) as [|e es IH] using rev_ind; [done|].
    rewrite fmap_app, NoDup_app. intros (H1 & H2 & _). unfold puts. rewrite map_app, apply_ops_app. fold (puts es). rewrite IH by done. cbn.
    rewrite list_to_map_app. destruct e as [k v]. cbn in *. rewrite <- insert_union_r; [by rewrite map_union_empty|].
    apply not_elem_of_list_to_map_1. intros Hk. apply (H2 k Hk). by apply list_elem_of_singleton.
  - rewrite <- (list_to_map_to_list m) at 2. apply list_to_map_proper; [apply sorted_entries_keys_nodup|apply sorted_entries_perm].
Qed.

(** ** The commit id *)

Definition commit_of (st : St) : Z := match r st with Some x => commitID x | None => 0 end.

Lemma last_commit_ok (st : St) : last_commit st = (Ret (commit_of st, None), st).
Proof using.
  unfold last_commit, ReplicationUsed, commit_of, on_rpl, LastCommitID. destruct st as [e ro [x|] c se b ev]; reflexivity.
Qed.

Lemma Dump_ok (st : St) : healthy (ldb st) -> fits_dump (store st) ->
  exists ds, Dump st = (Ret (head_Write (mkDumpHead (commit_of st)) ++ concat ds, None), st) /\ Forall2 encodes (sorted_entries (store st)) ds.
Proof using PS NS.
  intros Hh Hfit. destruct (snapshot_ok (ldb st) Hh) as (s & Es & Hs0). set (it := snapshot_NewIterator (I := I) s) in *.
  assert (Hs : snap it = sorted_entries (store st)) by exact Hs0.
  destruct (dump_loop_at (S (cur_bound (cur_First it))) (cur_First it) (sorted_entries (store st)) 0 (head_Write (mkDumpHead (commit_of st))) (store st)) as (ds & E & HF);
    [split; [by rewrite cur_snap_first|by rewrite cur_pos_first, Hs]|done|done| |].
  { pose proof (bound_ok (cur_First it)) as Hb. rewrite cur_snap_first, Hs in Hb. lia. }
  exists ds. rewrite drop_0 in HF. split; [|done]. unfold Dump, mbind, M_bind. rewrite last_commit_ok. unfold gets.
  match goal with |- context [@drv_NewSnapshot ?J ?Q ?e] => rewrite (Es : @drv_NewSnapshot J Q e = _) end. unfold mret, M_ret. f_equal. f_equal. exact E.
Qed.

(** The log of [st], when there is one, can be cleared and its commit id written. *)
Definition log_clears (st : St) : Prop :=
  forall x, r st = Some x -> (exists s', ls_Clear (rs x) = (Ret None, s') /\ ls_rep s' []) /\
  f_faulty (commitLog x) = false /\ exists id0, recorded (commitLog x) id0.

(** Afterwards the log is empty and has the commit id [id]. *)
Definition log_at (id : Z) (st st' : St) : Prop :=
  match r st with
  | None => r st' = None
  | Some _ => exists x, r st' = Some x /\ ls_rep (rs x) [] /\ commitID x = id /\ f_faulty (commitLog x) = false /\ exists id0, recorded (commitLog x) id0
  end.

Lemma clear_log_ok (st : St) : log_clears st ->
  exists st', clear_log st = (Ret None, st') /\ store st' = store st /\ ldb st' = ldb st /\ log_at 0 st st'.
Proof using.
  intros Hc. unfold clear_log, log_at. destruct (r st) as [x|] eqn:Hx; [|by exists st].
  destruct (Hc x Hx) as ((s' & E & Hr) & Hf & Hrec).
  destruct (updateCommitID_ok 0 true (mkRpl s' (commitID x) (commitLog x)) Hf Hrec) as (f & E2 & Hf2 & Hrec2).
  assert (E3 : rpl_Clear x = (Ret None, mkRpl s' 0 f)) by (unfold rpl_Clear, ClearWithCommitID, mbind, SM_bind; rewrite (on_store_run _ _ _ _ E); exact E2).
  change (rpl_clear x) with (rpl_Clear x). rewrite E3.
  eexists. split; [done|]. split; [done|]. split; [done|]. eexists. split; [done|]. split; [done|]. split; [done|]. split; [done|]. by exists 0.
Qed.

Lemma take_commit_ok id (st0 st : St) : log_at 0 st0 st ->
  exists st', take_commit id st = (Ret None, st') /\ ldb st' = ldb st /\ log_at id st0 st'.
Proof using.
  intros Hc. unfold take_commit, ReplicationUsed, log_at in *. destruct (r st0) as [x0|]; cycle 1.
  { exists st. by rewrite Hc. }
  destruct Hc as (x & Hx & Hr & Hid & Hf & Hrec). rewrite Hx. destruct (UpdateCommitID_ok id x Hf Hrec) as (f & E & Hf' & Hrec').
  rewrite (on_rpl_run _ _ x _ st Hx E). eexists. split; [done|]. split; [done|]. eexists. split; [done|]. done.
Qed.

Lemma head_roundtrip id rest : 0 <= id < 2 ^ 64 -> head_Read (head_Write (mkDumpHead id) ++ rest) = (inl (mkDumpHead id), rest).
Proof using. intros Hid. unfold head_Read, head_Write. cbn [CommitID]. rewrite uwrap_small, binary_roundtrip by done. done. Qed.

Lemma encodes_length es ds : Forall2 encodes es ds -> (length es <= length (concat ds))%nat.
Proof using.
  induction 1 as [|e d es ds (ck & cv & _ & _ & _ & _ & ->) HF IH]; [done|]. cbn [concat length]. rewrite !length_app. unfold binary_Write.
  rewrite !be_put_length. lia.
Qed.

Lemma LoadDump_ok es ds id (st : St) :
  Forall2 encodes es ds -> 0 <= id < 2 ^ 64 -> healthy (ldb st) -> log_clears st ->
  exists st', LoadDump (head_Write (mkDumpHead id) ++ concat ds) st = (Ret (inl (mkDumpHead id)), st') /\
  store st' = apply_ops (puts es) ∅ /\ log_at id st st' /\ healthy (ldb st').
Proof using PS.
  intros HF Hid Hh Hc. destruct (flushAll_empties st Hh) as (st1 & E1 & Hs1 & Hh1 & Hr1).
  assert (Hc1 : log_clears st1) by (unfold log_clears; by rewrite Hr1). destruct (clear_log_ok st1 Hc1) as (st2 & E2 & Hs2 & He2 & Hl2).
  destruct (load_loop_ok (S (length (concat ds))) es ds 0 [] st2 HF ltac:(by rewrite He2)) as (st3 & E3 & Hh3 & Hs3 & Hr3).
  { pose proof (encodes_length es ds HF). lia. }
  destruct (take_commit_ok id st st3) as (st4 & E4 & Hs4 & Hl4); [unfold log_at in *; by rewrite Hr3, <- Hr1|].
  exists st4. split; [|split; [by rewrite Hs4, Hs3, Hs2, Hs1|split; [done|by rewrite Hs4]]].
  unfold LoadDump, mbind, M_bind. rewrite E1, E2, head_roundtrip by done. rewrite E3. cbn [CommitID]. by rewrite E4.
Qed.

(** ** Loading keeps the setting [readonly] *)

Definition keeps_readonly {A} (p : M A) : Prop := forall st, readonly (p st).2 = readonly st.

Lemma keeps_bind {A A'} (p : M A) (f : A -> M A') : keeps_readonly p -> (forall a, keeps_readonly (f a)) -> keeps_readonly (p ≫= f).
Proof using. intros Hp Hf st. unfold mbind, M_bind. rewrite <- (Hp st). destruct (p st) as [[a|] st1]; [apply Hf|done]. Qed.

Lemma keeps_engine wb : keeps_readonly (engine_Commit wb).
Proof using. intros st. unfold engine_Commit. by destruct (drv_Write _ _). Qed.

Lemma keeps_on_rpl {A} (p : SM Replication A) : keeps_readonly (on_rpl p).
Proof using. intros st. unfold on_rpl. destruct (r st) as [x|]; [by destruct (p x)|done]. Qed.

Lemma keeps_clear : keeps_readonly clear_log.
Proof using. intros st. unfold clear_log. destruct (r st) as [x|]; [by destruct (rpl_clear x)|done]. Qed.

Lemma keeps_flush_loop fuel : forall it n w, keeps_readonly (flush_store_loop fuel it n w).
Proof using.
  induction fuel as [|fuel IH]; intros it n w; [done|]. cbn [flush_store_loop]. destruct (cur_Valid it); [|apply keeps_engine].
  destruct (_ =? _); [|apply IH]. apply keeps_bind; [apply keeps_engine|]. intros [err|]; [done|apply IH].
Qed.

Lemma keeps_load_loop fuel : forall rb n wb, keeps_readonly (load_loop fuel rb n wb).
Proof using.
  induction fuel as [|fuel IH]; intros rb n wb; [done|]. cbn [load_loop]. destruct (load_entry rb) as [[[[key value]|]|err] rb']; [|apply keeps_engine|done].
  destruct (_ =? _); [|apply IH]. apply keeps_bind; [apply keeps_engine|]. intros [err|]; [done|apply IH].
Qed.

Lemma LoadDump_readonly rb : keeps_readonly (LoadDump rb).
Proof using.
  unfold LoadDump. apply keeps_bind.
  - unfold Ledis_flushAll. apply keeps_bind; [done|]. intros it. apply keeps_bind; [apply keeps_flush_loop|]. intros [err|]; [done|apply keeps_clear].
  - intros [err|]; [done|]. destruct (head_Read rb) as [[h|err] rb']; [|done]. apply keeps_bind; [apply keeps_load_loop|]. intros [err|]; [done|].
    apply keeps_bind; [|by intros [err|]]. intros st. unfold take_commit. destruct (ReplicationUsed st); [apply keeps_on_rpl|done].
Qed.

End Spec.

(** * Properties *)

(** C9: a dump is read back.  [Dump] of a store whose compressed entries fit the length
    fields succeeds and changes nothing; [LoadDump] of its bytes, on any node whose log can
    be cleared, succeeds whatever that node held: it then has exactly the entries of the
    dumped store, an empty log, and the commit id of the dump. *)
Theorem dump_load {I : IDB} {IS : IDBSpec I} {N : SnapshotDB I} {NS : SnapshotSpec I N} {C : RplConfig} {P : Snappy} {PS : SnappySpec P}
    {L : LogStore} {LS : LogStoreSpec L} (st st2 : St (B := repl_backend)) :
  healthy (ldb st) -> fits_dump (model (ldb st)) -> 0 <= commit_of st < 2 ^ 64 -> healthy (ldb st2) -> log_clears st2 ->
  exists data st2', Dump st = (Ret (data, None), st) /\ LoadDump data st2 = (Ret (inl (mkDumpHead (commit_of st))), st2') /\
  model (ldb st2') = model (ldb st) /\ log_at (commit_of st) st2 st2'.
Proof.
  intros Hh Hf Hid Hh2 Hc. destruct (Dump_ok st Hh Hf) as (ds & E & HF). destruct (LoadDump_ok _ ds (commit_of st) st2 HF Hid Hh2 Hc) as (st2' & E2 & Hs & Hl & _).
  eexists _, st2'. split; [exact E|]. split; [exact E2|]. split; [|done]. rewrite Hs. apply put_all_entries.
Qed.

(** ** Example *)

#[local] Existing Instances mem_open mem_open_spec ex_config ex_snappy ex_snappy_spec.

Definition mem_snapshots : SnapshotDB GoLevelDB.idb := {|
  snapshot := gmap bytes bytes;
  drv_NewSnapshot e := inl (mem_map e);
  snapshot_NewIterator m := mkCur (sorted_entries m) None
|}.

Lemma mem_snapshots_spec : SnapshotSpec GoLevelDB.idb mem_snapshots.
Proof. split. intros e _. by exists (mem_map e). Qed.

#[local] Existing Instances mem_snapshots mem_snapshots_spec.

Lemma dump_load_witness :
  exists data st2', Dump (ex_node false {[ [1] := [2] ]} [] 5) = (Ret (data, None), ex_node false {[ [1] := [2] ]} [] 5) /\
  LoadDump data (ex_node true {[ [3] := [4] ]} [] 0) = (Ret (inl (mkDumpHead 5)), st2') /\ model (ldb st2') = {[ [1] := [2] ]}.
Proof.
  destruct (dump_load (N := mem_snapshots) (L := ex_logs) (ex_node false {[ [1] := [2] ]} [] 5) (ex_node true {[ [3] := [4] ]} [] 0)) as (data & st2' & H1 & H2 & H3 & _).
  - reflexivity.
  - intros k v Hk. cbn in Hk. apply lookup_singleton_Some in Hk as [<- <-]. split; by intros c [= <-].
  - done.
  - reflexivity.
  - intros x Hx. injection Hx as <-. split; [|split; [done|by exists 0; right]].
    eexists. split; [reflexivity|]. split; [apply chain_nil|]. split; [by left|]. split; [by left|]. by eexists.
  - exists data, st2'. split; [exact H1|]. split; [exact H2|exact H3].
Defined.
