(* ===== verification/Frame.v ===== *)
(** * What an operation may touch

    Shared vocabulary of the component files: which entries belong to a key of a data type
    ([belongs]), the effect of a batch on single entries, the entries a range of a
    collection holds.  [touches db T key m m'] says that [m'] differs from [m] only in
    entries of the key [key] of type [T] of the database [db], and that a store in which
    every entry of [db] has a well formed key stays so. *)

From S2P Require Import Prelude Driver Store Keys Util Core.

(** The entries of the key [key] of type [T]. *)
Definition belongs (T : Z) (key : bytes) (k : skey) : Prop :=
  match k with
  | KV key' => T = KVType /\ key' = key
  | Hash key' _ | HSize key' => T = HashType /\ key' = key
  | LItem key' _ | LMeta key' => T = ListType /\ key' = key
  | ZMember key' _ | ZSize key' | ZScoreOf key' _ _ => T = ZSetType /\ key' = key
  | SMember key' _ | SSize key' => T = SetType /\ key' = key
  | ExpMeta T' key' | ExpTime T' key' _ => T' = T /\ key' = key
  end.

#[global] Instance belongs_dec T key k : Decision (belongs T key k).
Proof. destruct k; simpl; apply _. Defined.

Lemma belongs_unique T T' key key' k : belongs T key k -> belongs T' key' k -> T = T' /\ key = key'.
Proof. destruct k; simpl; intros [-> ->] [? ?]; by subst. Qed.

(** Every entry of the database has the key of some item. *)
Definition well_keyed (db : DB) (m : gmap bytes bytes) : Prop :=
  forall k v, m !! k = Some v -> in_db db k -> exists sk, representable sk /\ k = encode db sk.

Lemma well_keyed_empty (db : DB) : well_keyed db ∅.
Proof. intros k v Hv. by rewrite lookup_empty in Hv. Qed.

Record touches (db : DB) (T : Z) (key : bytes) (m m' : gmap bytes bytes) : Prop := {
  touches_frame : forall k, representable k -> ~ belongs T key k -> m' !! encode db k = m !! encode db k;
  touches_others : forall k, ~ in_db db k -> m' !! k = m !! k;
  touches_keyed : well_keyed db m -> well_keyed db m'
}.

Definition is_exp (k : skey) : bool := match k with ExpMeta _ _ | ExpTime _ _ _ => true | _ => false end.

(** Only expiration sets expiration entries. *)
Definition plain (o : BatchOp) (k : skey) : bool := match o with OpPut _ _ => negb (is_exp k) | OpDelete _ => true end.

(** The records of a batch that are about entries of the key and add no expiration entry. *)
Definition ops_for (db : DB) (T : Z) (key : bytes) (ops : list BatchOp) : Prop :=
  Forall (fun o => exists k, representable k /\ belongs T key k /\ op_key o = encode db k /\ plain o k = true) ops.

(** [m'] differs from [m] only in entries of the key, and has no new expiration entry. *)
Record keeps (db : DB) (T : Z) (key : bytes) (m m' : gmap bytes bytes) : Prop := {
  keeps_touches : touches db T key m m';
  keeps_exp : forall k v, representable k -> is_exp k = true -> m' !! encode db k = Some v -> m !! encode db k = Some v
}.

Lemma apply_well_keyed db ops m :
  Forall (fun o => exists k, representable k /\ op_key o = encode db k) ops ->
  well_keyed db m -> well_keyed db (apply_ops ops m).
Proof.
  intros Hops. revert m; induction Hops as [|o ops (k & Hk & Ho) Hops IH]; intros m Hm; [done|].
  apply IH. intros k' v Hv Hin. destruct o as [p x|p]; simpl in *; subst p.
  - destruct (decide (encode db k = k')) as [<-|]; [eauto|]. rewrite lookup_insert_ne in Hv by done. eauto.
  - destruct (decide (encode db k = k')) as [<-|]; [eauto|]. rewrite lookup_delete_ne in Hv by done. eauto.
Qed.

Lemma touches_keys db T key ops m :
  Forall (fun o => exists k, representable k /\ belongs T key k /\ op_key o = encode db k) ops -> touches db T key m (apply_ops ops m).
Proof.
  intros Hops. split.
  - intros k Hk Hb. apply apply_ops_other. intros (o & E & Ho)%list_elem_of_fmap.
    rewrite Forall_forall in Hops. destruct (Hops o Ho) as (k' & Hk' & Hb' & E').
    rewrite E' in E. apply encode_inj in E; [by subst|done..].
  - intros k Hk. apply (apply_keyed db); [|done]. eapply Forall_impl; [exact Hops|].
    intros o (k' & _ & _ & ->). apply in_db_encode.
  - apply apply_well_keyed. eapply Forall_impl; [exact Hops|]. naive_solver.
Qed.

Lemma touches_ops db T key ops m : ops_for db T key ops -> touches db T key m (apply_ops ops m).
Proof. intros Hops. apply touches_keys. eapply Forall_impl; [exact Hops|]. naive_solver. Qed.

Lemma keeps_ops db T key ops m : ops_for db T key ops -> keeps db T key m (apply_ops ops m).
Proof.
  intros Hops. split; [by apply touches_ops|]. intros k v Hr He.
  revert m; induction Hops as [|o ops (sk & Hsk & _ & Ho & Hp) Hops IH]; intros m Hv; [done|]. apply IH in Hv.
  destruct o as [x y|x]; simpl in Ho, Hp, Hv; subst x.
  - rewrite lookup_insert_ne in Hv; [done|]. apply encode_ne; [done..|]. intros ->. by rewrite He in Hp.
  - destruct (decide (encode db sk = encode db k)) as [E|Hne]; [by rewrite E, lookup_delete_eq in Hv|]. by rewrite lookup_delete_ne in Hv.
Qed.

Lemma keeps_refl db T key m : keeps db T key m m.
Proof. by split. Qed.

Lemma touches_refl db T key m : touches db T key m m.
Proof. by split. Qed.

Lemma touches_trans db T key m1 m2 m3 : touches db T key m1 m2 -> touches db T key m2 m3 -> touches db T key m1 m3.
Proof.
  intros [F1 O1 K1] [F2 O2 K2]. split; [|by intros; rewrite O2, O1|by auto].
  intros k Hk Hb. by rewrite F2, F1.
Qed.

Lemma keeps_trans db T key m1 m2 m3 : keeps db T key m1 m2 -> keeps db T key m2 m3 -> keeps db T key m1 m3.
Proof. intros [T1 E1] [T2 E2]. split; [by eapply touches_trans|auto]. Qed.

Lemma ops_for_nil db T key : ops_for db T key [].
Proof. constructor. Qed.

Lemma ops_for_cons db T key o ops k :
  op_key o = encode db k -> representable k -> belongs T key k -> plain o k = true -> ops_for db T key ops ->
  ops_for db T key (o :: ops).
Proof. intros. constructor; eauto 10. Qed.

Lemma ops_for_app db T key a b : ops_for db T key a -> ops_for db T key b -> ops_for db T key (a ++ b).
Proof. apply Forall_app_2. Qed.

Lemma ops_for_map {A} db T key (f : A -> BatchOp) (g : A -> skey) xs :
  (forall x, x ∈ xs -> op_key (f x) = encode db (g x) /\ representable (g x) /\ belongs T key (g x) /\ plain (f x) (g x) = true) ->
  ops_for db T key (map f xs).
Proof.
  intros H. apply Forall_forall. intros o (x & -> & Hx)%list_elem_of_fmap.
  destruct (H x Hx) as (? & ? & ? & ?). eauto 10.
Qed.

Lemma ops_for_rm db m T key : ops_for db T key (rm_ops db m T key).
Proof.
  unfold rm_ops. destruct (m !! _) as [v|]; [|constructor]. pose proof (Int64_range (Some v) None) as Hr.
  destruct (Int64 (Some v) None) as [when [err|]]; [constructor|]. simpl in Hr.
  apply (ops_for_cons _ _ _ _ _ (ExpMeta T key)); [done..|].
  apply (ops_for_cons _ _ _ _ _ (ExpTime T key when)); [done..|constructor].
Qed.

Lemma touches_expire db T key when m : in_i64 when -> touches db T key m (apply_ops (expire_ops db T key when) m).
Proof.
  intros Hw. apply touches_keys. constructor; [by exists (ExpTime T key when)|]. constructor; [by exists (ExpMeta T key)|constructor].
Qed.

Lemma short_key key : checkKeySize key = None -> short key.
Proof.
  unfold checkKeySize, short, MaxKeySize. destruct (_ || _) eqn:E; [done|]. intros _.
  apply orb_false_iff in E as [? ?]. zify_bool. lia.
Qed.

Lemma apply_rm_other db m0 T key m k :
  representable k -> is_exp k = false -> apply_ops (rm_ops db m0 T key) m !! encode db k = m !! encode db k.
Proof.
  intros Hk He. apply apply_ops_other. intros (o & E & Ho)%list_elem_of_fmap. unfold rm_ops in Ho.
  destruct (m0 !! _) as [v|]; [|by apply not_elem_of_nil in Ho]. pose proof (Int64_range (Some v) None) as Hr.
  destruct (Int64 (Some v) None) as [when [err|]]; [by apply not_elem_of_nil in Ho|]. simpl in Hr.
  apply elem_of_cons in Ho as [->|Ho]; [|apply list_elem_of_singleton in Ho as ->]; simpl in E.
  - apply (encode_inj db k (ExpMeta T key)) in E; [by subst|done..].
  - apply (encode_inj db k (ExpTime T key when)) in E; [by subst|done..].
Qed.

(** * The effect of a batch on one entry *)

Lemma concat_singletons {A C} (f : A -> C) xs : concat (map (fun x => [f x]) xs) = map f xs.
Proof. induction xs as [|x xs IH]; simpl; [done|]. by rewrite IH. Qed.

Lemma apply_puts_in {A} (f g : A -> bytes) xs m k x :
  x ∈ xs -> f x = k -> (forall y, y ∈ xs -> f y = k -> g y = g x) ->
  apply_ops (map (fun x => OpPut (f x) (g x)) xs) m !! k = Some (g x).
Proof.
  intros Hx Hk. revert m. induction xs as [|y xs IH] using rev_ind; intros m Hu; [by apply not_elem_of_nil in Hx|].
  rewrite map_app, apply_ops_app. simpl. destruct (decide (f y = k)) as [Hy|Hy].
  - rewrite Hy, lookup_insert_eq. f_equal. apply Hu; [|done]. apply elem_of_app. right. by constructor.
  - rewrite lookup_insert_ne by done. apply elem_of_app in Hx as [Hx|Hx].
    + apply IH; [done|]. intros z Hz. apply Hu. apply elem_of_app. by left.
    + apply list_elem_of_singleton in Hx. by subst.
Qed.

Lemma apply_dels_in {A} (f : A -> bytes) xs m k :
  (exists x, x ∈ xs /\ f x = k) -> apply_ops (map (fun x => OpDelete (f x)) xs) m !! k = None.
Proof.
  intros (x & Hx & Hk). revert m. induction xs as [|y xs IH] using rev_ind; intros m; [by apply not_elem_of_nil in Hx|].
  rewrite map_app, apply_ops_app. simpl. destruct (decide (f y = k)) as [Hy|Hy].
  - by rewrite Hy, lookup_delete_eq.
  - rewrite lookup_delete_ne by done. apply elem_of_app in Hx as [Hx|Hx]; [by apply IH|].
    apply list_elem_of_singleton in Hx. by subst.
Qed.

Lemma apply_map_other {A} (f : A -> BatchOp) xs m k :
  (forall x, x ∈ xs -> op_key (f x) <> k) -> apply_ops (map f xs) m !! k = m !! k.
Proof.
  intros H. apply apply_ops_other. rewrite map_map. intros (x & E & Hx)%list_elem_of_fmap. by apply (H x Hx).
Qed.

(** * Distinct keys *)

Ltac skey_of t :=
  lazymatch t with
  | encode _ ?k => k
  | encodeKVKey _ ?k => constr:(KV k)
  | hEncodeHashKey _ ?k ?f => constr:(Hash k f)
  | hEncodeSizeKey _ ?k => constr:(HSize k)
  | lEncodeListKey _ ?k ?s => constr:(LItem k s)
  | lEncodeMetaKey _ ?k => constr:(LMeta k)
  | zEncodeSetKey _ ?k ?x => constr:(ZMember k x)
  | zEncodeSizeKey _ ?k => constr:(ZSize k)
  | zEncodeScoreKey _ ?k ?x ?s => constr:(ZScoreOf k x s)
  | sEncodeSetKey _ ?k ?x => constr:(SMember k x)
  | sEncodeSizeKey _ ?k => constr:(SSize k)
  | expEncodeMetaKey _ ?T ?k => constr:(ExpMeta T k)
  | expEncodeTimeKey _ ?T ?k ?w => constr:(ExpTime T k w)
  end.

Ltac db_of t :=
  lazymatch t with
  | ?f ?db ?a ?b ?c => db
  | ?f ?db ?a ?b => db
  | ?f ?db ?a => db
  end.

#[export] Hint Extern 0 (representable _) => (simpl; auto with ledis) : ledis.
#[export] Hint Resolve short_key : ledis.

(** [encodeX .. <> encodeY ..]: leaves the inequality of the items when it is not decided by
    the kinds. *)
Ltac key_ne :=
  lazymatch goal with
  | |- ?a <> ?b =>
      let x := skey_of a in let y := skey_of b in let db := db_of a in
      change (encode db x <> encode db y); apply encode_ne;
      [solve [simpl; auto with ledis]|solve [simpl; auto with ledis]|try congruence]
  end.

(** * The entries of a range *)

Lemma sorted_ext l1 l2 :
  sorted_keys l1 -> sorted_keys l2 -> (forall x, x ∈ l1 <-> x ∈ l2) -> l1 = l2.
Proof.
  revert l2; induction l1 as [|a l1 IH]; intros [|b l2] H1 H2 Hin; [done| | |].
  - exfalso. apply (not_elem_of_nil b). apply Hin. by constructor.
  - exfalso. apply (not_elem_of_nil a). apply Hin. by constructor.
  - apply sorted_keys_cons in H1 as [H1 F1]. apply sorted_keys_cons in H2 as [H2 F2].
    rewrite Forall_forall in F1, F2.
    assert (a = b) as ->.
    { destruct (proj1 (elem_of_cons _ _ _) (proj1 (Hin a) ltac:(by constructor))) as [|Ha]; [done|].
      destruct (proj1 (elem_of_cons _ _ _) (proj2 (Hin b) ltac:(by constructor))) as [|Hb]; [done|].
      exfalso. apply (blt_irrefl a.1). eauto using blt_trans. }
    f_equal. apply IH; [done..|]. intros x. specialize (Hin x). rewrite !elem_of_cons in Hin.
    split; intros Hx.
    + destruct (proj1 Hin (or_intror Hx)) as [->|]; [|done]. exfalso. by apply (blt_irrefl b.1), F1.
    + destruct (proj2 Hin (or_intror Hx)) as [->|]; [|done]. exfalso. by apply (blt_irrefl b.1), F2.
Qed.

Lemma elem_of_range_entries m r k v :
  (k, v) ∈ range_entries m r <-> m !! k = Some v /\ in_range r (k, v) = true.
Proof. unfold range_entries. rewrite list_elem_of_filter, elem_of_sorted_entries. tauto. Qed.

Lemma sorted_keys_filter (P : bytes * bytes -> Prop) `{forall x, Decision (P x)} l :
  sorted_keys l -> sorted_keys (filter P l).
Proof.
  induction l as [|x l IH]; [done|]. intros [HS HF]%sorted_keys_cons. rewrite filter_cons.
  case_decide; [|by apply IH]. apply sorted_keys_cons. split; [by apply IH|].
  apply Forall_forall. intros y [_ Hy]%list_elem_of_filter. rewrite Forall_forall in HF. by apply HF.
Qed.

Lemma range_entries_sorted m r : sorted_keys (range_entries m r).
Proof. apply sorted_keys_filter, sorted_entries_sorted. Qed.

(** A range whose entries are known. *)
Lemma range_entries_eq m r xs :
  sorted_keys xs -> (forall k v, (k, v) ∈ xs <-> m !! k = Some v /\ in_range r (k, v) = true) ->
  range_entries m r = xs.
Proof.
  intros HS Hin. apply sorted_ext; [apply range_entries_sorted|done|].
  intros [k v]. by rewrite elem_of_range_entries, Hin.
Qed.

Lemma sorted_keys_app l1 l2 :
  sorted_keys l1 -> sorted_keys l2 -> (forall x y, x ∈ l1 -> y ∈ l2 -> blt x.1 y.1) -> sorted_keys (l1 ++ l2).
Proof.
  intros H1 H2. induction l1 as [|a l1 IH]; intros H; simpl; [done|].
  apply sorted_keys_cons in H1 as [H1 F1]. apply sorted_keys_cons. split.
  - apply IH; [done|]. intros x y Hx. apply H. by constructor.
  - apply Forall_app. split; [done|]. apply Forall_forall. intros y Hy. apply H; [by constructor|done].
Qed.

(** A range whose first entries are known. *)
Lemma range_entries_prefix m r xs :
  sorted_keys xs -> (forall k v, (k, v) ∈ xs -> m !! k = Some v /\ in_range r (k, v) = true) ->
  (forall k v, m !! k = Some v -> in_range r (k, v) = true -> (k, v) ∈ xs \/ forall x, x ∈ xs -> blt x.1 k) ->
  exists ys, range_entries m r = xs ++ ys.
Proof.
  intros HS Hxs Hall. exists (filter (fun x => x ∉ xs) (range_entries m r)).
  apply sorted_ext; [apply range_entries_sorted| |].
  - apply sorted_keys_app; [done|apply sorted_keys_filter, range_entries_sorted|].
    intros x [k v] Hx [Hn Hy]%list_elem_of_filter. apply elem_of_range_entries in Hy as [Hk Hr].
    destruct (Hall k v Hk Hr); [done|auto].
  - intros [k v]. rewrite elem_of_app, list_elem_of_filter. split.
    + intros Hin. destruct (decide ((k, v) ∈ xs)); auto.
    + intros [Hin|[_ Hin]]; [|done]. apply elem_of_range_entries. auto.
Qed.

Lemma cut_all {A} (xs : list A) : cut (mkLimit 0 (-1)) xs = xs.
Proof. done. Qed.

(** The entries of a collection: the range between its start and stop keys holds exactly
    the entries of its members, in the order of the members. *)
Lemma member_entries (m : gmap bytes bytes) (pre : bytes) (c : Z) (h : gmap bytes bytes) :
  (forall f, m !! (pre ++ c :: f) = h !! f) ->
  range_entries m (mkRange (Some (pre ++ [c])) (Some (pre ++ [c + 1])) RangeROpen) =
  map (fun p => (pre ++ c :: p.1, p.2)) (sorted_entries h).
Proof.
  intros Hm. apply range_entries_eq.
  - unfold sorted_keys. rewrite map_map. simpl. pose proof (sorted_entries_sorted h) as HS.
    induction (sorted_entries h) as [|x l IH]; [constructor|]. simpl in *.
    apply StronglySorted_inv in HS as [HS HF]. constructor; [by apply IH|].
    apply Forall_forall. intros k (y & -> & Hy)%list_elem_of_fmap. rewrite Forall_fmap, Forall_forall in HF.
    apply blt_app. unfold blt. simpl. rewrite Z.compare_refl. by apply HF.
  - intros k v. rewrite list_elem_of_fmap. unfold in_range, above_min, below_max. simpl.
    rewrite andb_true_iff, !bool_decide_eq_true, prefix_range. split.
    + intros ([f v'] & [= -> ->] & Hin). apply elem_of_sorted_entries in Hin. simpl. rewrite Hm. eauto.
    + intros (Hv & f & ->). rewrite Hm in Hv. exists (f, v). split; [done|]. by apply elem_of_sorted_entries.
Qed.
