(* ===== verification/Refine.v ===== *)
(** * Data types and refinement

    What each collection type promises its clients.  A [Container] is an abstract data
    type: its operations, the program that runs each of them on a key, the values a key can
    hold, and what each operation returns and leaves on such a value.  [ContainerSpec] is
    the promise that the programs implement it: on a store that represents a value, the
    program of an operation returns what the abstract operation returns, leaves a store
    that represents what the abstract operation leaves, and touches nothing else.  The
    files of the data types give the instances; the theorems below lift the promise to
    sequences of operations. *)

From S2P Require Import Prelude Driver Store Keys Util Core Frame.

Section Map.
Context {B : Backend} {BS : BackendSpec B}.

(** A program that is run for its result, then wrapped. *)
Lemma runs_map {A C} (p : M A) (f : A -> C) (m : gmap bytes bytes) (e : Env) (Q : C -> gmap bytes bytes -> Env -> Prop) :
  runs p m e (fun a m' e' => Q (f a) m' e') -> runs (x ← p; mret (f x)) m e Q.
Proof using. intros Hp. apply wp_bind. eapply wp_mono; [exact Hp|]. intros a m' b' e' [-> HQ]. by apply wp_ret. Qed.

(** A program that leaves the clock and the clients alone. *)
Lemma exec_same {A} (p : M A) (a : A) (m m' : gmap bytes bytes) (e : Env) (Q : A -> gmap bytes bytes -> Prop) :
  exec p m e a m' e -> Q a m' -> runs p m e (fun a m' e' => now e' = now e /\ Q a m').
Proof using. intros Hp HQ. by eapply exec_runs. Qed.

End Map.

(** [step] is a relation, because a push on a list may be refused.  [pre] is what an
    operation needs of its arguments and of the value it runs on. *)
Class Container (Op Res Val : Type) := {
  ctype : Z;
  run {B : Backend} : DB -> bytes -> Op -> M Res;
  step : Val -> Op -> Res -> Val -> Prop;
  rep : DB -> gmap bytes bytes -> bytes -> Val -> Prop;
  pre : bytes -> Val -> Op -> Prop;
  empty_val : Val
}.

Class ContainerSpec {Op Res Val : Type} (C : Container Op Res Val) := {
  rep_empty : forall db key, rep db ∅ key empty_val;
  rep_frame : forall db key T' key' (m m' : gmap bytes bytes) (a : Val),
    checkKeySize key = None -> T' <> ctype \/ key' <> key -> touches db T' key' m m' -> rep db m key a -> rep db m' key a;
  run_step : forall {B : Backend} {BS : BackendSpec B} db key op (a : Val) (m : gmap bytes bytes) (e : Env),
    checkKeySize key = None -> pre key a op -> well_keyed db m -> rep db m key a ->
    runs (run db key op) m e (fun r m' e' => now e' = now e /\ exists a', step a op r a' /\ rep db m' key a' /\ keeps db ctype key m m')
}.

Section Sequences.
Context {Op Res Val : Type} {C : Container Op Res Val}.

(** Each operation of the sequence is allowed on every value the ones before it may leave. *)
Fixpoint allowed (key : bytes) (a : Val) (ops : list Op) : Prop :=
  match ops with
  | [] => True
  | op :: ops' => pre key a op /\ forall r a', step a op r a' -> allowed key a' ops'
  end.

Inductive steps : Val -> list Op -> list Res -> Val -> Prop :=
| steps_nil a : steps a [] [] a
| steps_cons a op r a1 ops rs a2 : step a op r a1 -> steps a1 ops rs a2 -> steps a (op :: ops) (r :: rs) a2.

Context {B : Backend}.

(** The operations of a sequence run one after the other. *)
Fixpoint run_all (db : DB) (key : bytes) (ops : list Op) : M (list Res) :=
  match ops with
  | [] => mret []
  | op :: ops' => r ← run db key op; rs ← run_all db key ops'; mret (r :: rs)
  end.

Context {CS : ContainerSpec C} {BS : BackendSpec B}.

(** The programs of any sequence of operations refine the abstract data type. *)
Lemma run_all_refines (db : DB) (key : bytes) (ops : list Op) (a : Val) (m : gmap bytes bytes) (e : Env) :
  checkKeySize key = None -> allowed key a ops -> well_keyed db m -> rep db m key a ->
  runs (run_all db key ops) m e (fun rs m' _ =>
    exists a', steps a ops rs a' /\ rep db m' key a' /\ keeps db ctype key m m').
Proof using CS BS.
  intros Hk. revert a m e; induction ops as [|op ops IH]; intros a m e Hv Hw Ha; cbn [run_all].
  { apply wp_ret. split; [done|]. exists a. split; [constructor|]. split; [done|apply keeps_refl]. }
  destruct Hv as [Hop Hv]. apply wp_bind. eapply wp_mono; [by apply (run_step db key op a m e)|].
  intros r m1 b1 e1 (-> & _ & a1 & Hs & Ha1 & HT). apply wp_bind.
  eapply wp_mono; [apply (IH a1 m1 e1); [by eapply Hv|by apply HT|done]|].
  intros rs m2 b2 e2 (-> & a2 & Hss & Ha2 & HT2). apply wp_ret. split; [done|]. exists a2.
  split; [by econstructor|]. split; [done|]. by eapply keeps_trans.
Qed.

End Sequences.

(** An abstract data type whose operations are functions: the results of a sequence. *)
Fixpoint fold_fn {Op Res Val} (f : Val -> Op -> Res * Val) (a : Val) (ops : list Op) : list Res * Val :=
  match ops with
  | [] => ([], a)
  | op :: ops' => let '(r, a1) := f a op in let '(rs, a2) := fold_fn f a1 ops' in (r :: rs, a2)
  end.

Lemma steps_fn {Op Res Val} (C : Container Op Res Val) (f : Val -> Op -> Res * Val) (a a' : Val) (ops : list Op) (rs : list Res) :
  (forall a op r a', step a op r a' -> f a op = (r, a')) -> steps a ops rs a' -> fold_fn f a ops = (rs, a').
Proof.
  intros Hf Hs. induction Hs as [a|a op r a1 ops rs a2 H Hs IH]; [done|]. cbn [fold_fn]. by rewrite (Hf _ _ _ _ H), IH.
Qed.

(** Computes the results of a concrete sequence. *)
Ltac steps_inv :=
  repeat match goal with
  | H : steps _ _ _ _ |- _ => inversion H; clear H; subst
  | H : step _ _ _ _ |- _ => simpl in H
  | H : _ /\ _ |- _ => destruct H
  | H : (_, _) = (_, _) |- _ => injection H as ?; subst
  end.
