(* ===== verification/Bits.v ===== *)
(** * Bits of byte strings (the pure parts of src/ledis/t_kv.go)

    The value helpers of [SetRange], [SetBit], [BitCount] and [BitPos], and what they
    compute: the word trick of [numberBitCount] and the table [bitsInByte] count bits, the
    search of [BitPos] finds the first bit, a bit written reads back. *)

From S2P Require Import Prelude.

(** [copy(dst, src)] *)
Definition go_copy (dst src : bytes) : bytes := take (length dst) src ++ drop (length src) dst.

(** [append(v, make([]byte, extra)...)] when [extra > 0] *)
Definition grow (v : bytes) (extra : Z) : bytes :=
  if extra >? 0 then v ++ replicate (Z.to_nat extra) 0 else v.

Definition bitsInByte : list Z :=
  [0; 1; 1; 2; 1; 2; 2; 3; 1; 2; 2; 3; 2; 3; 3; 4; 1; 2; 2; 3; 2; 3; 3; 4; 2; 3; 3; 4; 3; 4; 4; 5;
   1; 2; 2; 3; 2; 3; 3; 4; 2; 3; 3; 4; 3; 4; 4; 5; 2; 3; 3; 4; 3; 4; 4; 5; 3; 4; 4; 5; 4; 5; 5; 6;
   1; 2; 2; 3; 2; 3; 3; 4; 2; 3; 3; 4; 3; 4; 4; 5; 2; 3; 3; 4; 3; 4; 4; 5; 3; 4; 4; 5; 4; 5; 5; 6;
   2; 3; 3; 4; 3; 4; 4; 5; 3; 4; 4; 5; 4; 5; 5; 6; 3; 4; 4; 5; 4; 5; 5; 6; 4; 5; 5; 6; 5; 6; 6; 7;
   1; 2; 2; 3; 2; 3; 3; 4; 2; 3; 3; 4; 3; 4; 4; 5; 2; 3; 3; 4; 3; 4; 4; 5; 3; 4; 4; 5; 4; 5; 5; 6;
   2; 3; 3; 4; 3; 4; 4; 5; 3; 4; 4; 5; 4; 5; 5; 6; 3; 4; 4; 5; 4; 5; 5; 6; 4; 5; 5; 6; 5; 6; 6; 7;
   2; 3; 3; 4; 3; 4; 4; 5; 3; 4; 4; 5; 4; 5; 5; 6; 3; 4; 4; 5; 4; 5; 5; 6; 4; 5; 5; 6; 5; 6; 6; 7;
   3; 4; 4; 5; 4; 5; 5; 6; 4; 5; 5; 6; 5; 6; 6; 7; 4; 5; 5; 6; 5; 6; 6; 7; 5; 6; 6; 7; 6; 7; 7; 8].

Definition numberBitCount (i : Z) : Z :=
  let i := uint32 (i - Z.land (Z.shiftr i 1) 0x55555555) in
  let i := uint32 (Z.land i 0x33333333 + Z.land (Z.shiftr i 2) 0x33333333) in
  Z.shiftr (uint32 (Z.land (uint32 (i + Z.shiftr i 4)) 0x0F0F0F0F * 0x01010101)) 24.

(** The two loops of [BitCount]: words of four bytes, then the bytes that are left. *)
Fixpoint bitcount_bytes (n : Z) (value : bytes) : Z :=
  match value with
  | [] => n
  | v :: value' => bitcount_bytes (int64 (n + nth (Z.to_nat v) bitsInByte 0)) value'
  end.

Fixpoint bitcount_loop (n : Z) (value : bytes) : Z :=
  match value with
  | a :: b :: c :: d :: value' => bitcount_loop (int64 (n + numberBitCount (be_get [a; b; c; d]))) value'
  | _ => bitcount_bytes n value
  end.

(** The inner loop of [BitPos] over the bits of a byte, the most significant first. *)
Fixpoint bitpos_byte (on v : Z) (j : Z) (n : nat) : option Z :=
  match n with
  | O => None
  | S n' =>
      let isNull := Z.land (uint8 v) (uint8 (Z.shiftl 1 (7 - j))) =? 0 in
      if ((on =? 1) && negb isNull) || ((on =? 0) && isNull) then Some j
      else bitpos_byte on v (j + 1) n'
  end.

Fixpoint bitpos_loop (on skipValue start i : Z) (value : bytes) : Z :=
  match value with
  | [] => -1
  | v :: value' =>
      match (if negb (uint8 v =? skipValue) then bitpos_byte on v 0 8 else None) with
      | Some j => (start + i) * 8 + j
      | None => bitpos_loop on skipValue start (i + 1) value'
      end
  end.

(** * Reading and writing single bits *)

(** Bit [offset] of a value, the most significant bit of a byte first; absent bits are
    zero. *)
Definition bit_at (value : bytes) (offset : Z) : bool :=
  Z.testbit (default 0 (value !! Z.to_nat (offset / 8))) (7 - offset mod 8).

Lemma land_pow2 c i : 0 <= i -> Z.land c (2 ^ i) = if Z.testbit c i then 2 ^ i else 0.
Proof.
  intros Hi. apply Z.bits_inj'. intros j Hj. rewrite Z.land_spec, Z.pow2_bits_eqb by done.
  destruct (Z.eqb_spec i j) as [->|Hne].
  - destruct (Z.testbit c j) eqn:E; [by rewrite Z.pow2_bits_true|by rewrite Z.bits_0].
  - rewrite andb_false_r. destruct (Z.testbit c i); [by rewrite Z.pow2_bits_false by done|by rewrite Z.bits_0].
Qed.

Lemma bit_mask i : 0 <= i < 8 -> uint8 (Z.shiftl 1 i) = 2 ^ i.
Proof.
  intros Hi. rewrite Z.shiftl_mul_pow2, Z.mul_1_l by lia. apply uwrap_small.
  split; [lia|]. apply Z.pow_lt_mono_r; lia.
Qed.

Lemma bit_test c i : 0 <= i < 8 -> (Z.land c (uint8 (Z.shiftl 1 i)) >? 0) = Z.testbit c i.
Proof.
  intros Hi. rewrite bit_mask, land_pow2 by lia. pose proof (Z.pow_pos_nonneg 2 i).
  destruct (Z.testbit c i); [apply Z.gtb_lt; lia|done].
Qed.

(** The byte [SetBit] stores. *)
Definition put_bit (byteVal bit on : Z) : Z :=
  Z.lor (Z.land byteVal (uint8 (Z.lnot (uint8 (Z.shiftl 1 bit))))) (uint8 (Z.shiftl (uint8 (Z.land on 0x1)) bit)).

Lemma put_bit_spec c i on j :
  0 <= i < 8 -> 0 <= j < 8 -> on = 0 \/ on = 1 ->
  Z.testbit (put_bit c i on) j = if j =? i then on =? 1 else Z.testbit c j.
Proof.
  intros Hi Hj Hon. unfold put_bit. rewrite bit_mask by done.
  rewrite Z.lor_spec, Z.land_spec. unfold uwrap. rewrite !Z.mod_pow2_bits_low by lia.
  rewrite Z.lnot_spec, Z.pow2_bits_eqb, (Z.eqb_sym i j) by lia.
  rewrite Z.shiftl_spec by lia. destruct (Z.eqb_spec j i) as [->|Hne].
  - rewrite Z.sub_diag, andb_false_r. destruct Hon as [-> | ->]; reflexivity.
  - rewrite andb_true_r. replace (Z.testbit _ (j - i)) with false; [by rewrite orb_false_r|].
    symmetry. destruct (Z.lt_ge_cases (j - i) 0); [by apply Z.testbit_neg_r|].
    destruct Hon as [-> | ->]; [by rewrite Z.bits_0|]. change (Z.land 1 1 mod 2 ^ 8) with (2 ^ 0).
    apply Z.pow2_bits_false. lia.
Qed.

Lemma offset_parts offset : 0 <= offset < 2 ^ 32 ->
  Z.shiftr (uint32 offset) 3 = offset / 8 /\ 7 - uint8 (Z.land (uint32 offset) 0x7) = 7 - offset mod 8 /\
  0 <= offset / 8 < 2 ^ 29 /\ 0 <= offset mod 8 < 8.
Proof.
  intros Ho. rewrite uwrap_small by lia. rewrite Z.shiftr_div_pow2 by lia.
  change 0x7 with (Z.ones 3). rewrite Z.land_ones by lia. change (2 ^ 3) with 8.
  pose proof (Z.mod_pos_bound offset 8 ltac:(lia)). pose proof (Z.div_mod offset 8 ltac:(lia)).
  rewrite uwrap_small by lia. repeat split; lia.
Qed.

(** The value [SetBit] stores. *)
Definition set_bit (value : bytes) (offset on : Z) : bytes :=
  let value := grow value (offset / 8 + 1 - len value) in
  <[Z.to_nat (offset / 8) := put_bit (default 0 (value !! Z.to_nat (offset / 8))) (7 - offset mod 8) on]> value.

Lemma grow_lookup value extra i :
  default 0 (grow value extra !! i) = default 0 (value !! i).
Proof.
  unfold grow. case_if; [|done]. destruct (decide (i < length value)%nat).
  - by rewrite lookup_app_l.
  - rewrite lookup_app_r by lia. rewrite (lookup_ge_None_2 value) by lia.
    destruct (replicate _ 0 !! _) as [x|] eqn:E; [|done]. by apply lookup_replicate in E as [-> _].
Qed.

Lemma set_bit_lookup value offset on i :
  0 <= offset -> default 0 (set_bit value offset on !! i) =
  if decide (i = Z.to_nat (offset / 8)) then put_bit (default 0 (value !! i)) (7 - offset mod 8) on
  else default 0 (value !! i).
Proof.
  intros Ho. pose proof (Z.div_pos offset 8 Ho ltac:(lia)). unfold set_bit. case_decide as Hi.
  - subst i. rewrite list_lookup_insert_eq; [simpl; by rewrite grow_lookup|].
    unfold grow. case_if; rewrite ?length_app, ?length_replicate; lia.
  - rewrite list_lookup_insert_ne by done. apply grow_lookup.
Qed.

Lemma set_bit_length value offset on :
  0 <= offset -> len (set_bit value offset on) = Z.max (len value) (offset / 8 + 1).
Proof.
  intros Ho. pose proof (Z.div_pos offset 8 Ho ltac:(lia)). unfold set_bit. rewrite length_insert.
  unfold grow. case_if; rewrite ?length_app, ?length_replicate; lia.
Qed.

(** The bit written reads back; every other bit is unchanged. *)
Lemma bit_at_set_bit value offset on o :
  0 <= offset -> 0 <= o -> on = 0 \/ on = 1 ->
  bit_at (set_bit value offset on) o = if o =? offset then on =? 1 else bit_at value o.
Proof.
  intros Ho Ho' Hon. unfold bit_at. rewrite set_bit_lookup by done.
  pose proof (Z.mod_pos_bound offset 8 ltac:(lia)). pose proof (Z.mod_pos_bound o 8 ltac:(lia)).
  pose proof (Z.div_mod offset 8 ltac:(lia)). pose proof (Z.div_mod o 8 ltac:(lia)).
  pose proof (Z.div_pos offset 8 Ho ltac:(lia)). pose proof (Z.div_pos o 8 Ho' ltac:(lia)).
  case_decide as Hd.
  - rewrite put_bit_spec by (lia || done).
    destruct (Z.eqb_spec o offset), (Z.eqb_spec (7 - o mod 8) (7 - offset mod 8)); done || lia.
  - destruct (Z.eqb_spec o offset); [|done]. subst. done.
Qed.


(** ** Counting bits *)

(** The number of bits set in a byte. *)
Definition byte_count (v : Z) : Z :=
  Z.b2z (Z.testbit v 0) + Z.b2z (Z.testbit v 1) + Z.b2z (Z.testbit v 2) + Z.b2z (Z.testbit v 3) +
  Z.b2z (Z.testbit v 4) + Z.b2z (Z.testbit v 5) + Z.b2z (Z.testbit v 6) + Z.b2z (Z.testbit v 7).

Definition popcount (value : bytes) : Z := foldr (fun v n => byte_count v + n) 0 value.

(** The first three steps of [numberBitCount] with their mask. *)
Definition swar1 (m x : Z) : Z := x - Z.land (Z.shiftr x 1) m.
Definition swar2 (m x : Z) : Z := Z.land x m + Z.land (Z.shiftr x 2) m.
Definition swar3 (m x : Z) : Z := Z.land (x + Z.shiftr x 4) m.

(** On one byte they count its bits. *)
Definition byte_ok (x : Z) : bool :=
  let a := swar1 0x55 x in let b := swar2 0x33 a in
  (0 <=? a) && (a <? 256) && (0 <=? b) && (b <=? 0x44) && (b mod 16 <=? 4) &&
  (swar3 0x0F b =? byte_count x) && (nth (Z.to_nat x) bitsInByte 0 =? byte_count x).

Fixpoint all_below (p : Z -> bool) (n : nat) (base : Z) : bool :=
  match n with
  | O => true
  | S n' => p base && all_below p n' (base + 1)
  end.

Lemma all_below_spec p n base x :
  all_below p n base = true -> base <= x < base + Z.of_nat n -> p x = true.
Proof.
  revert base; induction n as [|n IH]; intros base; simpl; [lia|]. intros [Hb Hn]%andb_true_iff Hx.
  destruct (decide (x = base)) as [->|]; [done|]. apply (IH (base + 1)); [done|lia].
Qed.

Lemma bytes_ok : all_below byte_ok 256 0 = true.
Proof. vm_compute. reflexivity. Qed.

Lemma byte_count_range x : 0 <= byte_count x <= 8.
Proof. unfold byte_count. repeat destruct (Z.testbit x _); simpl; lia. Qed.

Lemma byte_bounds x : is_byte x ->
  0 <= swar1 0x55 x < 256 /\ 0 <= swar2 0x33 (swar1 0x55 x) <= 0x44 /\ swar2 0x33 (swar1 0x55 x) mod 16 <= 4 /\
  swar3 0x0F (swar2 0x33 (swar1 0x55 x)) = byte_count x /\ nth (Z.to_nat x) bitsInByte 0 = byte_count x.
Proof.
  intros Hx. unfold is_byte in Hx. pose proof (all_below_spec _ _ _ x bytes_ok ltac:(lia)) as H.
  unfold byte_ok in H. cbv zeta in H. zify_bool. lia.
Qed.

(** [land] works on low and high parts separately. *)
Lemma land_split k a h ma mh :
  0 <= k -> 0 <= a < 2 ^ k -> 0 <= ma < 2 ^ k ->
  Z.land (a + 2 ^ k * h) (ma + 2 ^ k * mh) = Z.land a ma + 2 ^ k * Z.land h mh.
Proof.
  intros Hk Ha Hma. assert (Hlow : forall x y i, 0 <= x < 2 ^ k -> 0 <= i -> Z.testbit (x + 2 ^ k * y) i =
    if i <? k then Z.testbit x i else Z.testbit y (i - k)).
  { intros x y i Hx Hi. destruct (Z.ltb_spec i k).
    - rewrite <- (Z.mod_pow2_bits_low _ k) by lia. f_equal. rewrite Z.mul_comm, Z_mod_plus_full. by apply Z.mod_small.
    - replace y with ((x + 2 ^ k * y) / 2 ^ k) at 2.
      + rewrite <- Z.shiftr_div_pow2, Z.shiftr_spec by lia. f_equal. lia.
      + rewrite Z.mul_comm, Z.div_add, Z.div_small by lia. lia. }
  apply Z.bits_inj'. intros i Hi. rewrite Z.land_spec, (Hlow a h i Ha Hi), (Hlow ma mh i Hma Hi).
  rewrite (Hlow (Z.land a ma)); [|clear Hlow|done].
  - destruct (i <? k); by rewrite Z.land_spec.
  - split; [apply Z.land_nonneg; lia|]. destruct (Z.eq_dec (Z.land a ma) 0) as [->|]; [lia|].
    apply Z.log2_lt_pow2; [pose proof (proj2 (Z.land_nonneg a ma)); lia|].
    destruct (Z.eq_dec a 0) as [->|]; [done|]. pose proof (Z.log2_land a ma).
    pose proof (proj1 (Z.log2_lt_pow2 a k ltac:(lia)) ltac:(lia)). lia.
Qed.

(** A shift of two parts of [w] bits drops bits of the high part into the low part. *)
Lemma shiftr_split w lo hi s :
  0 <= s <= w -> Z.shiftr (lo + 2 ^ w * hi) s = Z.shiftr lo s + 2 ^ (w - s) * (hi mod 2 ^ s) + 2 ^ w * Z.shiftr hi s.
Proof.
  intros Hs. rewrite !Z.shiftr_div_pow2 by lia.
  assert (E : 2 ^ w = 2 ^ (w - s) * 2 ^ s) by (rewrite <- Z.pow_add_r by lia; f_equal; lia).
  rewrite E at 1. rewrite (Z.div_mod hi (2 ^ s)) at 1 by lia.
  replace (lo + 2 ^ (w - s) * 2 ^ s * (2 ^ s * (hi / 2 ^ s) + hi mod 2 ^ s))
    with (lo + (2 ^ (w - s) * (hi mod 2 ^ s) + 2 ^ w * (hi / 2 ^ s)) * 2 ^ s) by (rewrite E; ring).
  rewrite Z.div_add by lia. lia.
Qed.

(** A mask that ends below bit [k] ignores what is added from bit [k] on. *)
Lemma land_low k x j m : 0 <= k -> 0 <= m < 2 ^ k -> Z.land (x + 2 ^ k * j) m = Z.land x m.
Proof.
  intros Hk Hm. pose proof (Z.mod_pos_bound x (2 ^ k) ltac:(lia)) as Hx.
  rewrite (Z.div_mod x (2 ^ k)) by lia.
  replace (2 ^ k * (x / 2 ^ k) + x mod 2 ^ k + 2 ^ k * j) with (x mod 2 ^ k + 2 ^ k * (x / 2 ^ k + j)) by lia.
  rewrite (Z.add_comm (2 ^ k * (x / 2 ^ k))). replace m with (m + 2 ^ k * 0) by lia.
  rewrite !land_split by done. by rewrite !Z.land_0_r.
Qed.

Lemma shift_mask w lo hi s m :
  0 <= s <= w -> 0 <= lo < 2 ^ w -> 0 <= m < 2 ^ (w - s) ->
  Z.land (Z.shiftr (lo + 2 ^ w * hi) s) (m + 2 ^ w * m) =
  Z.land (Z.shiftr lo s) m + 2 ^ w * Z.land (Z.shiftr hi s) m.
Proof.
  intros Hs Hlo Hm. rewrite shiftr_split by done.
  assert (E : 2 ^ w = 2 ^ (w - s) * 2 ^ s) by (rewrite <- Z.pow_add_r by lia; f_equal; lia).
  pose proof (Z.mod_pos_bound hi (2 ^ s) ltac:(lia)) as Hmod.
  assert (Hsh : 0 <= Z.shiftr lo s < 2 ^ (w - s)).
  { rewrite Z.shiftr_div_pow2 by lia. split; [apply Z.div_pos; lia|]. apply Z.div_lt_upper_bound; lia. }
  assert (2 ^ (w - s) <= 2 ^ w) by (apply Z.pow_le_mono_r; lia).
  rewrite land_split by (rewrite ?E; nia). by rewrite land_low by lia.
Qed.

Lemma swar1_split w lo hi m :
  1 <= w -> 0 <= lo < 2 ^ w -> 0 <= m < 2 ^ (w - 1) ->
  swar1 (m + 2 ^ w * m) (lo + 2 ^ w * hi) = swar1 m lo + 2 ^ w * swar1 m hi.
Proof. intros. unfold swar1. rewrite shift_mask by lia. lia. Qed.

Lemma swar2_split w lo hi m :
  2 <= w -> 0 <= lo < 2 ^ w -> 0 <= m < 2 ^ (w - 2) ->
  swar2 (m + 2 ^ w * m) (lo + 2 ^ w * hi) = swar2 m lo + 2 ^ w * swar2 m hi.
Proof.
  intros. assert (2 ^ (w - 2) <= 2 ^ w) by (apply Z.pow_le_mono_r; lia).
  unfold swar2. rewrite shift_mask, land_split by lia. lia.
Qed.

Lemma swar3_split w lo hi m :
  4 <= w -> 0 <= lo -> 0 <= m < 2 ^ (w - 4) -> lo + Z.shiftr lo 4 + 2 ^ (w - 4) * (hi mod 16) < 2 ^ w ->
  swar3 (m + 2 ^ w * m) (lo + 2 ^ w * hi) = swar3 m lo + 2 ^ w * swar3 m hi.
Proof.
  intros Hw Hlo Hm Hb. assert (2 ^ (w - 4) <= 2 ^ w) by (apply Z.pow_le_mono_r; lia).
  pose proof (proj2 (Z.shiftr_nonneg lo 4) Hlo). pose proof (Z.mod_pos_bound hi 16 ltac:(lia)).
  unfold swar3. rewrite shiftr_split by lia. change (2 ^ 4) with 16.
  replace (_ + _ + (_ + _)) with
    ((lo + Z.shiftr lo 4 + 2 ^ (w - 4) * (hi mod 16)) + 2 ^ w * (hi + Z.shiftr hi 4)) by lia.
  rewrite land_split by nia. by rewrite land_low by lia.
Qed.

(** Two bytes side by side. *)
Lemma half_steps lo hi :
  is_byte lo -> is_byte hi ->
  let x := lo + 2 ^ 8 * hi in
  0 <= swar1 0x5555 x < 2 ^ 16 /\ 0 <= swar2 0x3333 (swar1 0x5555 x) <= 0x4444 /\
  swar2 0x3333 (swar1 0x5555 x) mod 16 <= 4 /\
  swar3 0x0F0F (swar2 0x3333 (swar1 0x5555 x)) = byte_count lo + 2 ^ 8 * byte_count hi.
Proof.
  intros Hlo Hhi x. destruct (byte_bounds lo Hlo) as (L1 & L2 & L3 & L4 & _).
  destruct (byte_bounds hi Hhi) as (H1 & H2 & H3 & H4 & _). unfold is_byte in *. subst x.
  change 0x5555 with (0x55 + 2 ^ 8 * 0x55). rewrite swar1_split by lia.
  change 0x3333 with (0x33 + 2 ^ 8 * 0x33). rewrite swar2_split by lia.
  change 0x0F0F with (0x0F + 2 ^ 8 * 0x0F). rewrite swar3_split, L4, H4; [|lia|lia|lia|].
  - set (a := swar2 0x33 (swar1 0x55 lo)) in *. set (c := swar2 0x33 (swar1 0x55 hi)) in *.
    repeat split; try lia.
    replace (a + 2 ^ 8 * c) with (a + (16 * c) * 16) by lia. rewrite Z.mod_add by lia. lia.
  - set (a := swar2 0x33 (swar1 0x55 lo)) in *. rewrite Z.shiftr_div_pow2 by lia.
    change (2 ^ 4) with 16. change (2 ^ (8 - 4)) with 16. change (2 ^ 8) with 256.
    set (c := swar2 0x33 (swar1 0x55 hi)) in *. clearbody a c. Z.to_euclidean_division_equations. lia.
Qed.

(** [numberBitCount] counts the bits of its word. *)
Lemma numberBitCount_word a b c d :
  is_byte a -> is_byte b -> is_byte c -> is_byte d ->
  numberBitCount (be_get [a; b; c; d]) = byte_count a + byte_count b + byte_count c + byte_count d.
Proof.
  intros Ha Hb Hc Hd. destruct (half_steps d c Hd Hc) as (L1 & L2 & L3 & L4).
  destruct (half_steps b a Hb Ha) as (H1 & H2 & H3 & H4). unfold is_byte in *.
  assert (be_get [a; b; c; d] = (d + 2 ^ 8 * c) + 2 ^ 16 * (b + 2 ^ 8 * a)) as -> by (unfold be_get; simpl; lia).
  set (lo := d + 2 ^ 8 * c) in *. set (hi := b + 2 ^ 8 * a) in *.
  assert (0 <= lo < 2 ^ 16) by (unfold lo; lia). assert (0 <= hi < 2 ^ 16) by (unfold hi; lia).
  unfold numberBitCount. fold (swar1 0x55555555 (lo + 2 ^ 16 * hi)).
  change 0x55555555 with (0x5555 + 2 ^ 16 * 0x5555). rewrite swar1_split by lia. rewrite (uwrap_small 32 (swar1 _ _ + _)) by lia.
  fold (swar2 0x33333333 (swar1 0x5555 lo + 2 ^ 16 * swar1 0x5555 hi)).
  change 0x33333333 with (0x3333 + 2 ^ 16 * 0x3333). rewrite swar2_split by lia. rewrite (uwrap_small 32 (swar2 _ _ + _)) by lia.
  set (lo2 := swar2 0x3333 (swar1 0x5555 lo)) in *. set (hi2 := swar2 0x3333 (swar1 0x5555 hi)) in *.
  assert (Hs : forall x, 0 <= x <= 0x4444 -> 0 <= Z.shiftr x 4 <= 0x444).
  { intros x Hx. rewrite Z.shiftr_div_pow2 by lia. change (2 ^ 4) with 16. Z.to_euclidean_division_equations. lia. }
  pose proof (Z.mod_pos_bound hi2 16 ltac:(lia)). pose proof (Hs lo2 L2). pose proof (Hs hi2 H2).
  rewrite (uwrap_small 32 (_ + Z.shiftr _ _)).
  2:{ rewrite shiftr_split by lia. change (2 ^ (16 - 4)) with 4096. change (2 ^ 4) with 16. Z.to_euclidean_division_equations. lia. }
  fold (swar3 0x0F0F0F0F (lo2 + 2 ^ 16 * hi2)). change 0x0F0F0F0F with (0x0F0F + 2 ^ 16 * 0x0F0F).
  rewrite swar3_split; [|lia|lia|lia|change (2 ^ (16 - 4)) with 4096; lia]. rewrite L4, H4.
  pose proof (byte_count_range a). pose proof (byte_count_range b). pose proof (byte_count_range c).
  pose proof (byte_count_range d). rewrite Z.shiftr_div_pow2 by lia. unfold uwrap.
  set (ca := byte_count a) in *. set (cb := byte_count b) in *. set (cc := byte_count c) in *. set (cd := byte_count d) in *.
  replace (_ * 0x01010101) with ((cd + 2 ^ 8 * (cc + cd) + 2 ^ 16 * (cb + cc + cd) + (ca + cb + cc + cd) * 2 ^ 24)
    + (cc + cb + ca + 2 ^ 8 * (cb + ca) + 2 ^ 16 * ca) * 2 ^ 32) by lia.
  rewrite Z.mod_add, Z.mod_small by lia. rewrite Z.div_add, Z.div_small by lia. lia.
Qed.

Lemma popcount_range value : 0 <= popcount value <= 8 * len value.
Proof. induction value as [|v value IH]; simpl; [lia|]. pose proof (byte_count_range v). lia. Qed.

Lemma bitcount_bytes_ok n value :
  wf_bytes value -> 0 <= n -> n + 8 * len value < 2 ^ 63 -> bitcount_bytes n value = n + popcount value.
Proof.
  intros Hwf. revert n; induction Hwf as [|v value Hv Hwf IH]; intros n Hn Hb; cbn [bitcount_bytes popcount foldr]; [lia|].
  fold (popcount value). cbn [length] in Hb. destruct (byte_bounds v Hv) as (_ & _ & _ & _ & ->). pose proof (byte_count_range v).
  rewrite int64_small by (unfold in_i64; lia). rewrite IH by lia. lia.
Qed.

(** The loops of [BitCount] count the bits of the value. *)
Lemma bitcount_loop_ok n value :
  wf_bytes value -> 0 <= n -> n + 8 * len value < 2 ^ 63 -> bitcount_loop n value = n + popcount value.
Proof.
  remember (length value) as k eqn:Hk. revert n value Hk.
  induction k as [k IH] using lt_wf_ind; intros n value Hk Hwf Hn Hb. subst k.
  destruct value as [|a [|b [|c [|d value]]]]; try (apply bitcount_bytes_ok; done).
  assert (Hw : is_byte a /\ is_byte b /\ is_byte c /\ is_byte d /\ wf_bytes value).
  { unfold wf_bytes in *. by rewrite !Forall_cons in Hwf. }
  destruct Hw as (Ha & Hb' & Hc & Hd & Hwf'). cbn [bitcount_loop]. rewrite numberBitCount_word by done.
  cbn [length] in Hb. cbn [popcount foldr]. fold (popcount value).
  pose proof (byte_count_range a). pose proof (byte_count_range b). pose proof (byte_count_range c).
  pose proof (byte_count_range d). rewrite int64_small by (unfold in_i64; lia).
  rewrite (IH (length value)); [lia|simpl; lia|done|done|lia|lia].
Qed.

(** ** Searching a bit *)

Lemma bit_at_cons v value o :
  0 <= o -> bit_at (v :: value) o = if o <? 8 then Z.testbit v (7 - o) else bit_at value (o - 8).
Proof.
  intros Ho. unfold bit_at. case_if.
  - rewrite Z.div_small, Z.mod_small by lia. done.
  - replace o with ((o - 8) + 1 * 8) at 1 2 by lia. rewrite Z.div_add, Z.mod_add by lia.
    pose proof (Z.div_pos (o - 8) 8 ltac:(lia) ltac:(lia)).
    replace (Z.to_nat ((o - 8) / 8 + 1)) with (S (Z.to_nat ((o - 8) / 8))) by lia. done.
Qed.

Lemma bit_null v j :
  is_byte v -> 0 <= j < 8 -> (Z.land (uint8 v) (uint8 (Z.shiftl 1 (7 - j))) =? 0) = negb (Z.testbit v (7 - j)).
Proof.
  intros Hv Hj. rewrite (uwrap_small 8 v) by exact Hv. rewrite bit_mask, land_pow2 by lia.
  pose proof (Z.pow_pos_nonneg 2 (7 - j)). destruct (Z.testbit v (7 - j)); [apply Z.eqb_neq; lia|done].
Qed.

Lemma bitpos_byte_spec on v j n :
  is_byte v -> on = 0 \/ on = 1 -> 0 <= j -> j + Z.of_nat n = 8 ->
  match bitpos_byte on v j n with
  | Some k => j <= k < 8 /\ Z.testbit v (7 - k) = (on =? 1) /\
      forall k', j <= k' < k -> Z.testbit v (7 - k') = negb (on =? 1)
  | None => forall k', j <= k' < 8 -> Z.testbit v (7 - k') = negb (on =? 1)
  end.
Proof.
  intros Hv Hon. revert j; induction n as [|n IH]; intros j Hj Hn; cbn [bitpos_byte]; [lia|].
  rewrite bit_null by (done || lia).
  assert (E : ((on =? 1) && negb (negb (Z.testbit v (7 - j))) || (on =? 0) && negb (Z.testbit v (7 - j))) =
    Bool.eqb (Z.testbit v (7 - j)) (on =? 1)) by (destruct Hon as [-> | ->], (Z.testbit v (7 - j)); done).
  rewrite E. destruct (Bool.eqb _ _) eqn:Eb.
  - apply Bool.eqb_prop in Eb. repeat split; [lia|lia|done|lia].
  - assert (Hne : Z.testbit v (7 - j) = negb (on =? 1)) by (destruct (Z.testbit v (7 - j)), (on =? 1); done).
    specialize (IH (j + 1) ltac:(lia) ltac:(lia)). destruct (bitpos_byte on v (j + 1) n) as [k|].
    + destruct IH as (Hk & Hb & Hall). repeat split; [lia|lia|done|]. intros k' Hk'.
      destruct (decide (k' = j)) as [->|]; [done|]. apply Hall. lia.
    + intros k' Hk'. destruct (decide (k' = j)) as [->|]; [done|]. apply IH. lia.
Qed.

Lemma skip_byte on v k :
  is_byte v -> on = 0 \/ on = 1 -> 0 <= k < 8 -> v = (if on =? 0 then 0xFF else 0) ->
  Z.testbit v (7 - k) = negb (on =? 1).
Proof.
  intros Hv [-> | ->] Hk ->; simpl; [|by rewrite Z.bits_0]. change 255 with (Z.ones 8).
  apply Z.ones_spec_low. lia.
Qed.

(** [BitPos] finds the first bit of the value that is [on]. *)
Lemma bitpos_loop_spec on start i value :
  wf_bytes value -> on = 0 \/ on = 1 -> 0 <= i ->
  let res := bitpos_loop on (if on =? 0 then 0xFF else 0) start i value in
  (res = -1 /\ forall o, 0 <= o < 8 * len value -> bit_at value o = negb (on =? 1)) \/
  (exists o, 0 <= o < 8 * len value /\ res = (start + i) * 8 + o /\ bit_at value o = (on =? 1) /\
     forall o', 0 <= o' < o -> bit_at value o' = negb (on =? 1)).
Proof.
  intros Hwf Hon. revert i; induction Hwf as [|v value Hv Hwf IH]; intros i Hi; cbv zeta; cbn [bitpos_loop].
  { left. split; [done|]. simpl. lia. }
  rewrite (uwrap_small 8 v) by exact Hv. cbn [length].
  assert (Hbyte : (match (if negb (v =? (if on =? 0 then 255 else 0)) then bitpos_byte on v 0 8 else None) with
    | Some k => 0 <= k < 8 /\ Z.testbit v (7 - k) = (on =? 1) /\ forall k', 0 <= k' < k -> Z.testbit v (7 - k') = negb (on =? 1)
    | None => forall k', 0 <= k' < 8 -> Z.testbit v (7 - k') = negb (on =? 1) end)).
  { destruct (v =? _) eqn:Es; cbn [negb]; [|apply (bitpos_byte_spec on v 0 8); done || lia].
    intros k' Hk'. apply skip_byte; try done. by apply Z.eqb_eq. }
  destruct (if negb _ then _ else _) as [k|].
  - destruct Hbyte as (Hk & Hb & Hall). right. exists k. rewrite bit_at_cons by lia.
    rewrite (proj2 (Z.ltb_lt k 8)) by lia. repeat split; [lia|lia|done|]. intros o' Ho'.
    rewrite bit_at_cons, (proj2 (Z.ltb_lt o' 8)) by lia. apply Hall. lia.
  - specialize (IH (i + 1) ltac:(lia)). destruct IH as [[-> Hall]|(o & Ho & -> & Hb & Hall)].
    + left. split; [done|]. intros o Ho. rewrite bit_at_cons by lia. case_if; [apply Hbyte; lia|apply Hall; lia].
    + right. exists (o + 8). rewrite bit_at_cons by lia. rewrite (proj2 (Z.ltb_ge (o + 8) 8)) by lia.
      replace (o + 8 - 8) with o by lia. repeat split; [lia|lia|lia|done|]. intros o' Ho'.
      rewrite bit_at_cons by lia. case_if; [apply Hbyte; lia|apply Hall; lia].
Qed.
