(* ===== verification/KV.v ===== *)
(** * Strings (src/ledis/t_kv.go)

    Every operation of the kv type except [flush] (see Flush.v). *)

From S2P Require Import Prelude Driver Store Keys Util Core Frame Bits.

Section Ops.
Context {B : Backend}.
Implicit Types (db : DB) (key value : bytes).

Definition incr db key (delta : Z) : M (Z * option error) :=
  match checkKeySize key with
  | Some err => mret (0, Some err)
  | None =>
      let key := encodeKVKey db key in
      with_lock kvBatch (
        '(v, e) ← bucket_Get key;
        let '(n, err) := StrInt64 v e in
        match err with
        | Some err => mret (0, Some err)
        | None =>
            let n := int64 (n + delta) in
            _ ← batch_Put kvBatch key (FormatInt64ToSlice n);
            err ← batch_Commit kvBatch;
            mret (n, err)
        end)
  end.

(** [DB.delete] *)
Definition delete_kv db (t : BatchId) key : M Z :=
  _ ← batch_Delete t (encodeKVKey db key); mret 1.

Definition Exists db key : M (Z * option error) :=
  match checkKeySize key with
  | Some err => mret (0, Some err)
  | None =>
      '(v, err) ← bucket_Get (encodeKVKey db key);
      if not_nil v && negb (is_err err) then mret (1, None) else mret (0, err)
  end.

Definition setExpireAt db key (when : Z) : M (Z * option error) :=
  with_lock kvBatch (
    '(found, err) ← Exists db key;
    if is_err err || (found =? 0) then mret (0, err)
    else
      _ ← expireAt db kvBatch KVType key when;
      err ← batch_Commit kvBatch;
      match err with
      | Some err => mret (0, Some err)
      | None => mret (1, None)
      end).

Definition Decr db key : M (Z * option error) := incr db key (-1).
Definition DecrBy db key (decrement : Z) : M (Z * option error) := incr db key (int64 (- decrement)).
Definition Incr db key : M (Z * option error) := incr db key 1.
Definition IncrBy db key (increment : Z) : M (Z * option error) := incr db key increment.

Definition Del db (keys : list bytes) : M (Z * option error) :=
  if len keys =? 0 then mret (0, None)
  else
    with_lock kvBatch (
      _ ← for_each keys (fun k =>
            _ ← batch_Delete kvBatch (encodeKVKey db k);
            _ ← rmExpire db kvBatch KVType k;
            mret tt);
      err ← batch_Commit kvBatch;
      mret (len keys, err)).

Definition Get db key : M (option bytes * option error) :=
  match checkKeySize key with
  | Some err => mret (None, Some err)
  | None => bucket_Get (encodeKVKey db key)
  end.

Definition GetSlice db key : M (option bytes * option error) :=
  match checkKeySize key with
  | Some err => mret (None, Some err)
  | None => bucket_GetSlice (encodeKVKey db key)
  end.

Definition GetSet db key value : M (option bytes * option error) :=
  match checkKeySize key with
  | Some err => mret (None, Some err)
  | None =>
  match checkValueSize value with
  | Some err => mret (None, Some err)
  | None =>
      let key := encodeKVKey db key in
      with_lock kvBatch (
        '(oldValue, err) ← bucket_Get key;
        match err with
        | Some err => mret (None, Some err)
        | None =>
            _ ← batch_Put kvBatch key value;
            err ← batch_Commit kvBatch;
            mret (oldValue, err)
        end)
  end
  end.

(** The loop of [MGet] over one iterator; [acc] is the part of [values] filled so far. *)
Fixpoint mget_loop db (it : cursor) (keys : list bytes) (acc : list (option bytes)) :
    option (list (option bytes)) * option error :=
  match keys with
  | [] => (Some acc, None)
  | k :: keys' =>
      match checkKeySize k with
      | Some err => (None, Some err)
      | None => let '(it, v) := Find it (encodeKVKey db k) in mget_loop db it keys' (acc ++ [v])
      end
  end.

Definition MGet db (keys : list bytes) : M (option (list (option bytes)) * option error) :=
  gets (fun st => mget_loop db (drv_NewIterator (ldb st)) keys []).

(** The body of the loop of [MSet]. *)
Definition mset_arg db (arg : bytes * bytes) : M (option (option error)) :=
  match checkKeySize arg.1 with
  | Some err => mret (Some (Some err))
  | None =>
  match checkValueSize arg.2 with
  | Some err => mret (Some (Some err))
  | None => _ ← batch_Put kvBatch (encodeKVKey db arg.1) arg.2; mret None
  end
  end.

Definition MSet db (args : list (bytes * bytes)) : M (option error) :=
  if len args =? 0 then mret None
  else with_lock kvBatch (for_ret args (mset_arg db) (batch_Commit kvBatch)).

(** [DB.Set] *)
Definition Set_ db key value : M (option error) :=
  match checkKeySize key with
  | Some err => mret (Some err)
  | None =>
  match checkValueSize value with
  | Some err => mret (Some err)
  | None =>
      with_lock kvBatch (
        _ ← batch_Put kvBatch (encodeKVKey db key) value;
        batch_Commit kvBatch)
  end
  end.

(** The error of [SetNX]'s commit is assigned to the [err] of the inner scope. *)
Definition SetNX db key value : M (Z * option error) :=
  match checkKeySize key with
  | Some err => mret (0, Some err)
  | None =>
  match checkValueSize value with
  | Some err => mret (0, Some err)
  | None =>
      let key := encodeKVKey db key in
      with_lock kvBatch (
        '(v, err) ← bucket_Get key;
        match err with
        | Some err => mret (0, Some err)
        | None =>
            match v with
            | Some _ => mret (0, None)
            | None =>
                _ ← batch_Put kvBatch key value;
                _ ← batch_Commit kvBatch;
                mret (1, None)
            end
        end)
  end
  end.

Definition SetEX db key (duration : Z) value : M (option error) :=
  match checkKeySize key with
  | Some err => mret (Some err)
  | None =>
  match checkValueSize value with
  | Some err => mret (Some err)
  | None =>
      if duration <=? 0 then mret (Some errExpireValue)
      else
        with_lock kvBatch (
          _ ← batch_Put kvBatch (encodeKVKey db key) value;
          n ← time_now;
          _ ← expireAt db kvBatch KVType key (int64 (n + duration));
          batch_Commit kvBatch)
  end
  end.

Definition Expire db key (duration : Z) : M (Z * option error) :=
  if duration <=? 0 then mret (0, Some errExpireValue)
  else n ← time_now; setExpireAt db key (int64 (n + duration)).

Definition ExpireAt db key (when : Z) : M (Z * option error) :=
  n ← time_now;
  if when <=? n then mret (0, Some errExpireValue) else setExpireAt db key when.

Definition TTL db key : M (Z * option error) :=
  match checkKeySize key with
  | Some err => mret (-1, Some err)
  | None => ttl db KVType key
  end.

Definition Persist db key : M (Z * option error) :=
  match checkKeySize key with
  | Some err => mret (0, Some err)
  | None =>
      with_lock kvBatch (
        '(n, err) ← rmExpire db kvBatch KVType key;
        match err with
        | Some err => mret (0, Some err)
        | None => err ← batch_Commit kvBatch; mret (n, err)
        end)
  end.

Definition SetRange db key (offset : Z) value : M (Z * option error) :=
  if len value =? 0 then mret (0, None)
  else
  match checkKeySize key with
  | Some err => mret (0, Some err)
  | None =>
      if int64 (len value + offset) >? MaxValueSize then mret (0, Some errValueSize)
      else
        let key := encodeKVKey db key in
        with_lock kvBatch (
          '(v, err) ← bucket_Get key;
          match err with
          | Some err => mret (0, Some err)
          | None =>
              let oldValue := default [] v in
              let extra := int64 (int64 (offset + len value) - len oldValue) in
              let oldValue := grow oldValue extra in
              dst ← lift (slice oldValue offset (len oldValue));
              let oldValue := take (Z.to_nat offset) oldValue ++ go_copy dst value in
              _ ← batch_Put kvBatch key oldValue;
              err ← batch_Commit kvBatch;
              match err with
              | Some err => mret (0, Some err)
              | None => mret (len oldValue, None)
              end
          end)
  end.

Definition getRange (start end_ valLen : Z) : Z * Z :=
  let start := if start <? 0 then valLen + start else start in
  let end_ := if end_ <? 0 then valLen + end_ else end_ in
  let start := if start <? 0 then 0 else start in
  let end_ := if end_ <? 0 then 0 else end_ in
  let end_ := if end_ >=? valLen then valLen - 1 else end_ in
  (start, end_).

Definition GetRange db key (start end_ : Z) : M (option bytes * option error) :=
  match checkKeySize key with
  | Some err => mret (None, Some err)
  | None =>
      '(v, err) ← bucket_Get (encodeKVKey db key);
      match err with
      | Some err => mret (None, Some err)
      | None =>
          let value := default [] v in
          let valLen := len value in
          let '(start, end_) := getRange start end_ valLen in
          if start >? end_ then mret (None, None)
          else res ← lift (slice value start (end_ + 1)); mret (Some res, None)
      end
  end.

(** [s.Size()] of the nil slice of a missing key is a nil dereference. *)
Definition StrLen db key : M (Z * option error) :=
  '(s, err) ← GetSlice db key;
  match err with
  | Some err => mret (0, Some err)
  | None => match s with None => panic | Some s => mret (len s, None) end
  end.

(** The error of the commit is dropped. *)
Definition Append db key value : M (Z * option error) :=
  if len value =? 0 then mret (0, None)
  else
  match checkKeySize key with
  | Some err => mret (0, Some err)
  | None =>
      let key := encodeKVKey db key in
      with_lock kvBatch (
        '(v, err) ← bucket_Get key;
        match err with
        | Some err => mret (0, Some err)
        | None =>
            let oldValue := default [] v in
            if len oldValue + len value >? MaxValueSize then mret (0, Some errValueSize)
            else
              let oldValue := oldValue ++ value in
              _ ← batch_Put kvBatch key oldValue;
              err ← batch_Commit kvBatch;
              match err with
              | Some _ => mret (0, None)
              | None => mret (len oldValue, None)
              end
        end)
  end.

(** ** Bit operations *)

(** The operator names of const.go: and, or, xor, not. *)
Definition BitAND : bytes := [97; 110; 100].
Definition BitOR : bytes := [111; 114].
Definition BitXOR : bytes := [120; 111; 114].
Definition BitNot : bytes := [110; 111; 116].

(** [strings.ToLower] on the letters of the operator names; no other rune lowers to one of
    them. *)
Definition ToLower (s : bytes) : bytes :=
  map (fun c => if (65 <=? c) && (c <=? 90) then c + 32 else c) s.

(** The [switch] over the operator, on the bytes both values have and on the rest of the
    longer one (where an unknown operator changes nothing). *)
Definition bit_fn (op : bytes) : option (Z -> Z -> Z) :=
  if bool_decide (op = BitAND) then Some Z.land
  else if bool_decide (op = BitOR) then Some Z.lor
  else if bool_decide (op = BitXOR) then Some Z.lxor
  else None.

Definition bitop_values (op : bytes) (value ovalue : bytes) : bytes + error :=
  let '(value, ovalue) := if len value <? len ovalue then (ovalue, value) else (value, ovalue) in
  match bit_fn op with
  | Some f =>
      inl (zip_with f value ovalue ++ map (fun b => f b 0) (drop (length ovalue) value))
  | None => if len ovalue >? 0 then inr (errorf "invalid op type") else inl value
  end.

(** The loop over [srcKeys[1:]]. *)
Fixpoint bitop_loop db (op : bytes) (srcKeys : list bytes) value : M (bytes + error) :=
  match srcKeys with
  | [] => mret (inl value)
  | k :: srcKeys' =>
      match checkKeySize k with
      | Some err => mret (inr err)
      | None =>
          '(v, err) ← bucket_Get (encodeKVKey db k);
          match err with
          | Some err => mret (inr err)
          | None =>
              match bitop_values op value (default [] v) with
              | inr err => mret (inr err)
              | inl value => bitop_loop db op srcKeys' value
              end
          end
      end
  end.

Definition BitOP db (op : bytes) (destKey : bytes) (srcKeys : list bytes) : M (Z * option error) :=
  match checkKeySize destKey with
  | Some err => mret (0, Some err)
  | None =>
      let op := ToLower op in
      match srcKeys with
      | [] => mret (0, None)
      | src :: rest =>
          if bool_decide (op = BitNot) && (len srcKeys >? 1)
          then mret (0, Some (errorf "BITOP NOT has only one srckey"))
          else if len srcKeys <? 2 then mret (0, None)
          else
            '(v, err) ← bucket_Get (encodeKVKey db src);
            match err with
            | Some err => mret (0, Some err)
            | None =>
                let value := default [] v in
                res ← (if bool_decide (op = BitNot)
                       then mret (inl (map (fun b => uint8 (Z.lnot b)) value))
                       else bitop_loop db op rest value);
                match res with
                | inr err => mret (0, Some err)
                | inl value =>
                    with_lock kvBatch (
                      _ ← batch_Put kvBatch (encodeKVKey db destKey) value;
                      err ← batch_Commit kvBatch;
                      match err with
                      | Some err => mret (0, Some err)
                      | None => mret (len value, None)
                      end)
                end
            end
      end
  end.

Definition BitCount db key (start end_ : Z) : M (Z * option error) :=
  match checkKeySize key with
  | Some err => mret (0, Some err)
  | None =>
      '(v, err) ← bucket_Get (encodeKVKey db key);
      match err with
      | Some err => mret (0, Some err)
      | None =>
          let value := default [] v in
          let '(start, end_) := getRange start end_ (len value) in
          value ← lift (slice value start (end_ + 1));
          mret (bitcount_loop 0 value, None)
      end
  end.

Definition BitPos db key (on start end_ : Z) : M (Z * option error) :=
  match checkKeySize key with
  | Some err => mret (0, Some err)
  | None =>
      if negb (Z.land on (Z.lnot 1) =? 0) then mret (0, Some (errorf "bit must be 0 or 1"))
      else
        let skipValue := if on =? 0 then 0xFF else 0 in
        '(v, err) ← bucket_Get (encodeKVKey db key);
        match err with
        | Some err => mret (0, Some err)
        | None =>
            let value := default [] v in
            let '(start, end_) := getRange start end_ (len value) in
            value ← lift (slice value start (end_ + 1));
            mret (bitpos_loop on skipValue start 0 value, None)
        end
  end.

Definition SetBit db key (offset on : Z) : M (Z * option error) :=
  match checkKeySize key with
  | Some err => mret (0, Some err)
  | None =>
      if negb (Z.land on (Z.lnot 1) =? 0) then mret (0, Some (errorf "bit must be 0 or 1"))
      else
        with_lock kvBatch (
          let key := encodeKVKey db key in
          '(v, err) ← bucket_Get key;
          match err with
          | Some err => mret (0, Some err)
          | None =>
              let value := default [] v in
              let byteOffset := Z.shiftr (uint32 offset) 3 in
              let extra := byteOffset + 1 - len value in
              let value := grow value extra in
              byteVal ← lift (index_at value byteOffset);
              let bit := 7 - uint8 (Z.land (uint32 offset) 0x7) in
              let bitVal := Z.land byteVal (uint8 (Z.shiftl 1 bit)) in
              let byteVal := Z.land byteVal (uint8 (Z.lnot (uint8 (Z.shiftl 1 bit)))) in
              let byteVal := Z.lor byteVal (uint8 (Z.shiftl (uint8 (Z.land on 0x1)) bit)) in
              let value := <[Z.to_nat byteOffset := byteVal]> value in
              _ ← batch_Put kvBatch key value;
              err ← batch_Commit kvBatch;
              match err with
              | Some err => mret (0, Some err)
              | None => mret (if bitVal >? 0 then 1 else 0, None)
              end
          end)
  end.

Definition GetBit db key (offset : Z) : M (Z * option error) :=
  match checkKeySize key with
  | Some err => mret (0, Some err)
  | None =>
      '(v, err) ← bucket_Get (encodeKVKey db key);
      match err with
      | Some err => mret (0, Some err)
      | None =>
          let value := default [] v in
          let byteOffset := Z.shiftr (uint32 offset) 3 in
          let bit := 7 - uint8 (Z.land (uint32 offset) 0x7) in
          if byteOffset >=? uint32 (len value) then mret (0, None)
          else
            c ← lift (index_at value byteOffset);
            let bitVal := Z.land c (uint8 (Z.shiftl 1 bit)) in
            mret (if bitVal >? 0 then 1 else 0, None)
      end
  end.

End Ops.

(** * What the operations do *)

Section Spec.
Context {B : Backend} {BS : BackendSpec B}.
Implicit Types (db : DB) (key value : bytes) (m : gmap bytes bytes) (e : Env).

Lemma Set_exec db key value m e :
  checkKeySize key = None -> checkValueSize value = None ->
  exec (Set_ db key value) m e None (<[encodeKVKey db key := value]> m) e.
Proof. intros Hk Hv. unfold exec, Set_. rewrite Hk, Hv. wp_auto. done. Qed.

Lemma Get_exec db key m e :
  checkKeySize key = None -> exec (Get db key) m e (m !! encodeKVKey db key, None) m e.
Proof. intros Hk. unfold exec, Get. rewrite Hk. wp_auto. done. Qed.

Lemma GetSet_exec db key value m e :
  checkKeySize key = None -> checkValueSize value = None ->
  exec (GetSet db key value) m e (m !! encodeKVKey db key, None) (<[encodeKVKey db key := value]> m) e.
Proof. intros Hk Hv. unfold exec, GetSet. rewrite Hk, Hv. wp_auto. done. Qed.

Lemma SetNX_exec db key value m e :
  checkKeySize key = None -> checkValueSize value = None ->
  exec (SetNX db key value) m e
    (match m !! encodeKVKey db key with Some _ => 0 | None => 1 end, None)
    (match m !! encodeKVKey db key with Some _ => m | None => <[encodeKVKey db key := value]> m end) e.
Proof.
  intros Hk Hv. unfold exec, SetNX. rewrite Hk, Hv. wp_auto.
  destruct (m !! _) eqn:E; wp_auto; done.
Qed.

Lemma Exists_wp db key (Q : Z * option error -> _ -> _ -> _ -> Prop) m b e :
  checkKeySize key = None ->
  Q (match m !! encodeKVKey db key with Some _ => 1 | None => 0 end, None) m b e ->
  wp (Exists db key) Q m b e.
Proof.
  intros Hk HQ. unfold Exists. rewrite Hk. wp_auto. destruct (m !! _); simpl; by apply wp_ret.
Qed.

(** The records [Del] queues. *)
Definition del_ops db m (keys : list bytes) : list BatchOp :=
  concat (map (fun k => OpDelete (encodeKVKey db k) :: rm_ops db m KVType k) keys).

Lemma Del_exec db (keys : list bytes) m e :
  exec (Del db keys) m e (len keys, None) (apply_ops (del_ops db m keys) m) e.
Proof.
  unfold exec, Del. destruct keys as [|k keys]; [by apply wp_ret|]. change (len (k :: keys) =? 0) with false.
  cbv iota. wp_auto. eapply (wp_for_each kvBatch (fun k => OpDelete (encodeKVKey db k) :: rm_ops db m KVType k)).
  - intros x b1 Q1 _ HQ. wp_auto. done.
  - wp_auto. done.
Qed.

Lemma incr_exec db key delta m e n :
  checkKeySize key = None -> StrInt64 (m !! encodeKVKey db key) None = (n, None) ->
  exec (incr db key delta) m e (int64 (n + delta), None)
    (<[encodeKVKey db key := FormatInt64ToSlice (int64 (n + delta))]> m) e.
Proof. intros Hk Hn. unfold exec, incr. rewrite Hk. wp_auto. rewrite Hn. wp_auto. done. Qed.

Lemma incr_error db key delta m e n err :
  checkKeySize key = None -> StrInt64 (m !! encodeKVKey db key) None = (n, Some err) ->
  exec (incr db key delta) m e (0, Some err) m e.
Proof. intros Hk Hn. unfold exec, incr. rewrite Hk. wp_auto. rewrite Hn. wp_auto. done. Qed.

Lemma Append_exec db key value m e :
  value <> [] -> checkKeySize key = None ->
  len (default [] (m !! encodeKVKey db key)) + len value <= MaxValueSize ->
  exec (Append db key value) m e (len (default [] (m !! encodeKVKey db key) ++ value), None)
    (<[encodeKVKey db key := default [] (m !! encodeKVKey db key) ++ value]> m) e.
Proof.
  intros Hv Hk Hs. unfold exec, Append. rewrite (proj2 (Z.eqb_neq (len value) 0)) by (by destruct value).
  rewrite Hk. wp_auto. rewrite Z.gtb_ltb, (proj2 (Z.ltb_ge _ _)) by done. wp_auto. done.
Qed.

(** What [SetRange] writes over the old value. *)
Definition set_range (old : bytes) (offset : Z) (value : bytes) : bytes :=
  let old' := grow old (offset + len value - len old) in
  take (Z.to_nat offset) old' ++ go_copy (drop (Z.to_nat offset) old') value.

Lemma SetRange_exec db key offset value m e :
  value <> [] -> checkKeySize key = None -> 0 <= offset -> len value + offset <= MaxValueSize ->
  len (default [] (m !! encodeKVKey db key)) < 2 ^ 62 ->
  let new := set_range (default [] (m !! encodeKVKey db key)) offset value in
  exec (SetRange db key offset value) m e (len new, None) (<[encodeKVKey db key := new]> m) e.
Proof.
  intros Hv Hk Ho Hs Hl. cbv zeta. set (old := default [] (m !! encodeKVKey db key)) in *.
  unfold exec, SetRange. rewrite (proj2 (Z.eqb_neq (len value) 0)) by (by destruct value).
  rewrite Hk. unfold MaxValueSize in Hs. rewrite int64_small by (unfold in_i64; lia).
  rewrite Z.gtb_ltb, (proj2 (Z.ltb_ge MaxValueSize _)) by (unfold MaxValueSize; lia). wp_auto. fold old.
  rewrite (int64_small (offset + len value)) by (unfold in_i64; lia).
  rewrite (int64_small (offset + len value - len old)) by (unfold in_i64; lia).
  assert (Hg : offset <= len (grow old (offset + len value - len old))).
  { unfold grow. case_if; [rewrite length_app, length_replicate|]; lia. }
  unfold set_range. set (old' := grow _ _) in *.
  assert (slice old' offset (len old') = Ret (drop (Z.to_nat offset) old')) as ->.
  { unfold slice. rewrite (proj2 (Z.leb_le 0 offset)), (proj2 (Z.leb_le offset _)), (proj2 (Z.leb_le (len old') _)) by lia.
    cbn [andb]. rewrite take_ge; [done|]. rewrite length_drop. lia. }
  wp_auto. done.
Qed.

Lemma set_range_length old offset value :
  0 <= offset -> len (set_range old offset value) = Z.max (len old) (offset + len value).
Proof.
  intros Ho. unfold set_range, go_copy. rewrite !length_app, !length_take, !length_drop.
  unfold grow. case_if; rewrite ?length_app, ?length_replicate; lia.
Qed.

(** The bytes of the result: the new value where it was written, the old value or zero
    elsewhere. *)
Lemma set_range_lookup old offset value i :
  0 <= offset -> (i < length (set_range old offset value))%nat ->
  set_range old offset value !! i =
  if bool_decide (offset <= Z.of_nat i < offset + len value) then value !! (i - Z.to_nat offset)%nat
  else if bool_decide (Z.of_nat i < len old) then old !! i else Some 0.
Proof.
  intros Ho Hi. pose proof (set_range_length old offset value Ho) as Hl.
  assert (Hg : forall j, (j < length (grow old (offset + len value - len old)))%nat ->
    grow old (offset + len value - len old) !! j = if bool_decide (Z.of_nat j < len old) then old !! j else Some 0).
  { intros j. unfold grow. case_bool_decide; case_if; rewrite ?length_app, ?length_replicate; intros Hj; try lia.
    - by rewrite lookup_app_l by lia.
    - done.
    - rewrite lookup_app_r by lia. rewrite lookup_replicate. split; [done|lia].  }
  assert (Hgl : len (grow old (offset + len value - len old)) = Z.max (len old) (offset + len value)).
  { unfold grow. case_if; rewrite ?length_app, ?length_replicate; lia. }
  unfold set_range, go_copy. set (g := grow _ _) in *. rewrite length_drop.
  case_bool_decide as Hin.
  - rewrite lookup_app_r by (rewrite length_take; lia). rewrite length_take.
    rewrite lookup_app_l by (rewrite length_take; lia).
    rewrite lookup_take_lt by lia. f_equal. lia.
  - rewrite <- Hg by lia. destruct (decide (Z.of_nat i < offset)).
    + rewrite lookup_app_l by (rewrite length_take; lia). apply lookup_take_lt. lia.
    + rewrite lookup_app_r by (rewrite length_take; lia). rewrite length_take.
      rewrite lookup_app_r by (rewrite length_take; lia). rewrite length_take, !lookup_drop. f_equal. lia.
Qed.

Lemma getRange_bounds start end_ n :
  0 <= n -> let '(s, e) := getRange start end_ n in 0 <= s /\ -1 <= e < n \/ n = 0 /\ 0 <= s /\ e = -1.
Proof. intros Hn. unfold getRange. repeat case_if; lia. Qed.

(** [GetRange] returns in every case: it cannot panic. *)
Lemma GetRange_exec db key start end_ m e :
  checkKeySize key = None ->
  let value := default [] (m !! encodeKVKey db key) in
  let '(s, t) := getRange start end_ (len value) in
  exec (GetRange db key start end_) m e
    (if s >? t then None else Some (take (Z.to_nat (t + 1 - s)) (drop (Z.to_nat s) value)), None) m e.
Proof.
  intros Hk value. pose proof (getRange_bounds start end_ (len value) ltac:(lia)) as Hb.
  destruct (getRange start end_ (len value)) as [s t] eqn:E.
  unfold exec, GetRange. rewrite Hk. wp_auto. fold value. rewrite E.
  case_if; [by wp_auto|]. rewrite slice_some by lia. by wp_auto.
Qed.

(** ** Bits *)

Lemma GetBit_exec db key offset m e :
  checkKeySize key = None -> 0 <= offset < 2 ^ 32 ->
  len (default [] (m !! encodeKVKey db key)) < 2 ^ 32 ->
  exec (GetBit db key offset) m e
    (if bit_at (default [] (m !! encodeKVKey db key)) offset then 1 else 0, None) m e.
Proof.
  intros Hk Ho Hl. set (value := default [] _) in *. unfold exec, GetBit. rewrite Hk. wp_auto. fold value.
  destruct (offset_parts offset Ho) as (-> & -> & Hd & Hm). rewrite (uwrap_small 32 (len value)) by lia.
  unfold bit_at. case_if.
  - rewrite lookup_ge_None_2 by lia. simpl. rewrite Z.bits_0. by wp_auto.
  - unfold index_at. rewrite (proj2 (Z.ltb_ge _ _)) by lia.
    destruct (value !! Z.to_nat (offset / 8)) as [c|] eqn:E; [|apply lookup_ge_None in E; lia].
    wp_auto. rewrite bit_test by lia. done.
Qed.

Lemma SetBit_exec db key offset on m e :
  checkKeySize key = None -> 0 <= offset < 2 ^ 32 -> on = 0 \/ on = 1 ->
  let value := default [] (m !! encodeKVKey db key) in
  exec (SetBit db key offset on) m e (if bit_at value offset then 1 else 0, None)
    (<[encodeKVKey db key := set_bit value offset on]> m) e.
Proof.
  intros Hk Ho Hon value. unfold exec, SetBit. rewrite Hk.
  assert (negb (Z.land on (Z.lnot 1) =? 0) = false) as -> by (by destruct Hon as [-> | ->]).
  wp_auto. fold value. destruct (offset_parts offset Ho) as (-> & -> & Hd & Hm).
  unfold index_at. rewrite (proj2 (Z.ltb_ge _ _)) by lia.
  destruct (grow value (offset / 8 + 1 - len value) !! Z.to_nat (offset / 8)) as [c|] eqn:E; cycle 1.
  { apply lookup_ge_None in E. unfold grow in E. destruct (_ >? _) eqn:Hg in E; zify_bool;
      rewrite ?length_app, ?length_replicate in E; lia. }
  wp_auto. rewrite bit_test by lia. unfold set_bit, bit_at. rewrite E.
  rewrite <- (grow_lookup value (offset / 8 + 1 - len value)), E. done.
Qed.

Lemma BitCount_exec db key start end_ m e :
  checkKeySize key = None ->
  let value := default [] (m !! encodeKVKey db key) in
  wf_bytes value -> len value <= MaxValueSize ->
  let '(s, t) := getRange start end_ (len value) in
  s <= t + 1 ->
  exec (BitCount db key start end_) m e (popcount (take (Z.to_nat (t + 1 - s)) (drop (Z.to_nat s) value)), None) m e.
Proof.
  intros Hk value Hwf Hl. pose proof (getRange_bounds start end_ (len value) ltac:(lia)) as Hb.
  destruct (getRange start end_ (len value)) as [s t] eqn:E. intros Hst.
  unfold exec, BitCount. rewrite Hk. wp_auto. fold value. rewrite E.
  rewrite slice_some by lia. wp_auto. split; [|done]. f_equal. unfold MaxValueSize in Hl.
  rewrite bitcount_loop_ok; [lia|by apply Forall_take, Forall_drop|lia|].
  rewrite length_take, length_drop. lia.
Qed.

Lemma BitPos_exec db key on start end_ m e :
  checkKeySize key = None -> on = 0 \/ on = 1 ->
  let value := default [] (m !! encodeKVKey db key) in
  let '(s, t) := getRange start end_ (len value) in
  s <= t + 1 ->
  exec (BitPos db key on start end_) m e
    (bitpos_loop on (if on =? 0 then 0xFF else 0) s 0 (take (Z.to_nat (t + 1 - s)) (drop (Z.to_nat s) value)), None) m e.
Proof.
  intros Hk Hon value. pose proof (getRange_bounds start end_ (len value) ltac:(lia)) as Hb.
  destruct (getRange start end_ (len value)) as [s t] eqn:E. intros Hst.
  unfold exec, BitPos. rewrite Hk.
  assert (negb (Z.land on (Z.lnot 1) =? 0) = false) as -> by (by destruct Hon as [-> | ->]).
  wp_auto. fold value. rewrite E. rewrite slice_some by lia. by wp_auto.
Qed.

(** A range that starts after its end makes [BitCount] panic. *)
Lemma BitCount_panic db key start end_ st m b e :
  checkKeySize key = None -> at_ st m b e ->
  let value := default [] (m !! encodeKVKey db key) in
  let '(s, t) := getRange start end_ (len value) in
  t + 1 < s -> BitCount db key start end_ st = (Panic, st).
Proof.
  intros Hk [(_ & Hh & _) Hm _ _] value. destruct (getRange start end_ (len value)) as [s t] eqn:E. intros Hst.
  unfold BitCount. rewrite Hk. unfold mbind, M_bind, bucket_Get, gets, db_Get. rewrite get_ok by done.
  unfold contents in Hm. rewrite Hm. fold value. rewrite E. unfold lift, slice.
  rewrite (proj2 (Z.leb_gt s (t + 1))) by lia. by rewrite andb_false_r.
Qed.

(** ** Bitwise operations on several values *)

Lemma bit_fn_laws op f : bit_fn op = Some f -> f 0 0 = 0 /\ forall a b, f a b = f b a.
Proof.
  unfold bit_fn. repeat case_bool_decide; intros [= <-]; split; try done; intros.
  - apply Z.land_comm. - apply Z.lor_comm. - apply Z.lxor_comm.
Qed.

Lemma bitop_values_spec op f value ovalue :
  bit_fn op = Some f ->
  exists res, bitop_values op value ovalue = inl res /\ len res = Z.max (len value) (len ovalue) /\
  forall i, default 0 (res !! i) = f (default 0 (value !! i)) (default 0 (ovalue !! i)).
Proof.
  intros Hf. destruct (bit_fn_laws op f Hf) as [H0 Hc]. unfold bitop_values.
  cut (forall v o, len o <= len v -> let r := zip_with f v o ++ map (fun b => f b 0) (drop (length o) v) in
    len r = len v /\ forall i, default 0 (r !! i) = f (default 0 (v !! i)) (default 0 (o !! i))).
  { intros H. destruct (_ <? _) eqn:E; zify_bool; rewrite Hf; eexists; (split; [done|]).
    - destruct (H ovalue value ltac:(lia)) as [-> Hi]. split; [lia|]. intros i. by rewrite Hi, Hc.
    - destruct (H value ovalue ltac:(lia)) as [-> Hi]. split; [lia|done]. }
  intros v o Ho r. subst r. split.
  { rewrite length_app, length_zip_with, length_map, length_drop. lia. }
  intros i. destruct (decide (i < length o)%nat) as [Hi|Hi].
  - rewrite lookup_app_l by (rewrite length_zip_with; lia).
    destruct (lookup_lt_is_Some_2 o i Hi) as [y Ey]. destruct (lookup_lt_is_Some_2 v i ltac:(lia)) as [x Ex].
    by rewrite lookup_zip_with, Ex, Ey.
  - rewrite lookup_app_r by (rewrite length_zip_with; lia). rewrite length_zip_with.
    rewrite (lookup_ge_None_2 o) by lia. rewrite list_lookup_fmap, lookup_drop.
    replace (length o + (i - length v `min` length o))%nat with i by lia. by destruct (v !! i).
Qed.

(** The value of byte [i] of a list of values, combined by [f]. *)
Definition combine (f : Z -> Z -> Z) (values : list bytes) (acc : bytes) (i : nat) : Z :=
  fold_left f (map (fun v : bytes => default 0 (v !! i)) values) (default 0 (acc !! i)).

Lemma bitop_loop_total db op f srcKeys value m e :
  bit_fn op = Some f -> Forall (fun k => checkKeySize k = None) srcKeys ->
  let val k := default [] (m !! encodeKVKey db k) in
  exists res, len res = fold_left Z.max (map (fun k => len (val k)) srcKeys) (len value) /\
  (forall i, default 0 (res !! i) = combine f (map val srcKeys) value i) /\
  forall (Q : bytes + error -> _ -> _ -> _ -> Prop) b, Q (inl res) m b e -> wp (bitop_loop db op srcKeys value) Q m b e.
Proof.
  intros Hf Hks val. revert value; induction Hks as [|k ks Hk Hks IH]; intros value; simpl.
  { exists value. repeat split. intros Q b HQ. by wp_auto. }
  destruct (bitop_values_spec op f value (val k) Hf) as (res & E & Hl & Hi).
  destruct (IH res) as (res' & Hl' & Hi' & Hw). exists res'. split; [by rewrite Hl', Hl|]. split.
  - intros i. rewrite Hi'. unfold combine. simpl. by rewrite Hi.
  - intros Q b HQ. rewrite Hk. wp_auto. fold (val k). rewrite E. by apply Hw.
Qed.

Lemma BitOP_exec db op f dest src rest m e :
  checkKeySize dest = None -> bit_fn (ToLower op) = Some f -> rest <> [] ->
  Forall (fun k => checkKeySize k = None) rest ->
  let val k := default [] (m !! encodeKVKey db k) in
  exists res, exec (BitOP db op dest (src :: rest)) m e (len res, None) (<[encodeKVKey db dest := res]> m) e /\
  len res = fold_left Z.max (map (fun k => len (val k)) rest) (len (val src)) /\
  forall i, default 0 (res !! i) = combine f (map val rest) (val src) i.
Proof.
  intros Hd Hf Hne Hks val.
  destruct (bitop_loop_total db (ToLower op) f rest (val src) m e Hf Hks) as (res & Hl & Hi & Hw).
  exists res. split; [|done]. unfold exec, BitOP. rewrite Hd.
  assert (Hnot : bool_decide (ToLower op = BitNot) = false).
  { apply bool_decide_eq_false. intros E. rewrite E in Hf. done. }
  rewrite Hnot. cbn [andb]. destruct rest as [|k rest]; [done|]. rewrite (proj2 (Z.ltb_ge _ _)) by (simpl; lia).
  wp_auto. fold (val src). apply Hw. wp_auto. done.
Qed.

(** ** Several keys *)

Lemma mget_loop_ok db m it keys acc :
  snap it = sorted_entries m -> Forall (fun k => checkKeySize k = None) keys ->
  mget_loop db it keys acc = (Some (acc ++ map (fun k => m !! encodeKVKey db k) keys), None).
Proof.
  intros Hs Hks. revert it acc Hs; induction Hks as [|k ks Hk Hks IH]; intros it acc Hs; cbn [mget_loop map].
  { by rewrite app_nil_r. }
  rewrite Hk. destruct (Find_lookup m it (encodeKVKey db k) Hs) as [Hv Hs'].
  destruct (Find it _) as [it1 v]. cbn [fst snd] in *. subst v. rewrite (IH it1 _ Hs'). by rewrite <- app_assoc.
Qed.

Lemma MGet_exec db keys m e :
  Forall (fun k => checkKeySize k = None) keys ->
  exec (MGet db keys) m e (Some (map (fun k => m !! encodeKVKey db k) keys), None) m e.
Proof.
  intros Hks. unfold exec, MGet. eapply wp_gets; [|done]. intros st [_ <- _ _].
  rewrite (mget_loop_ok db (contents st)); [done|apply iter_snap|done].
Qed.

(** The first error the loop of [MSet] meets. *)
Fixpoint mset_error (args : list (bytes * bytes)) : option error :=
  match args with
  | [] => None
  | (k, v) :: args' =>
      match checkKeySize k with
      | Some err => Some err
      | None => match checkValueSize v with Some err => Some err | None => mset_error args' end
      end
  end.

Definition mset_ops db (args : list (bytes * bytes)) : list BatchOp :=
  map (fun '(k, v) => OpPut (encodeKVKey db k) v) args.

Lemma with_batches_same st : with_batches (batches st) st = st.
Proof. by destruct st. Qed.

Lemma mset_loop_any db args (rest : M (option error)) st :
  match mset_error args with
  | Some bad => exists ops, for_ret args (mset_arg db) rest st =
      (Ret (Some bad), with_batches (add_ops kvBatch ops (batches st)) st)
  | None => for_ret args (mset_arg db) rest st =
      rest (with_batches (add_ops kvBatch (mset_ops db args) (batches st)) st)
  end.
Proof.
  revert st; induction args as [|[k v] args IH]; intros st; cbn [mset_error mset_ops map for_ret].
  { by rewrite add_no_ops, with_batches_same. }
  unfold mset_arg. cbn [fst snd]. destruct (checkKeySize k) as [err|].
  { exists []. by rewrite add_no_ops, with_batches_same. }
  destruct (checkValueSize v) as [err|].
  { exists []. by rewrite add_no_ops, with_batches_same. }
  fold (mset_arg db). unfold mbind, M_bind, batch_Put, mret, M_ret, batch_of. cbv iota beta.
  specialize (IH (with_batches (add_ops kvBatch [OpPut (encodeKVKey db k) v] (batches st)) st)).
  destruct (mset_error args) as [bad|].
  - destruct IH as [ops IH]. exists (OpPut (encodeKVKey db k) v :: ops).
    fold (add_ops kvBatch [OpPut (encodeKVKey db k) v] (batches st)). rewrite IH. cbn [batches with_batches]. by rewrite add_ops_add.
  - fold (add_ops kvBatch [OpPut (encodeKVKey db k) v] (batches st)). rewrite IH. cbn [batches with_batches]. by rewrite add_ops_add.
Qed.

(** [MSet] is all or nothing in every state: with a rejected argument the store does not
    change; otherwise either every pair is written or none is, and without an error every
    pair is. *)
Lemma MSet_any db args st :
  batches st = no_ops ->
  exists o st', MSet db args st = (o, st') /\ batches st' = no_ops /\
  match mset_error args with
  | Some bad => o = Ret (Some bad) /\ contents st' = contents st
  | None =>
      (o = Ret None -> contents st' = apply_ops (mset_ops db args) (contents st)) /\
      (contents st' = contents st \/ contents st' = apply_ops (mset_ops db args) (contents st))
  end.
Proof.
  intros Hb. unfold MSet. destruct (len args =? 0) eqn:E0.
  { destruct args; [|done]. exists (Ret None), st. simpl. eauto. }
  pose proof (mset_loop_any db args (batch_Commit kvBatch) st) as H. unfold with_lock.
  destruct (mset_error args) as [bad|].
  - destruct H as [ops ->]. do 2 eexists. split; [done|]. simpl. by rewrite Hb.
  - rewrite H, Hb. destruct (batch_Commit_any kvBatch (with_batches (add_ops kvBatch (mset_ops db args) no_ops) st))
      as (err & st' & -> & Hb' & _ & _ & Hc & Ho & _).
    do 2 eexists. split; [done|]. simpl in *. rewrite Hb'. split; [done|]. split; [exact Hc|exact Ho].
Qed.

Lemma MSet_exec db args m e :
  mset_error args = None -> exec (MSet db args) m e None (apply_ops (mset_ops db args) m) e.
Proof.
  intros He. unfold exec, MSet. destruct args as [|p args]; [by apply wp_ret|].
  change (len (p :: args) =? 0) with false. cbv iota. wp_auto.
  assert (E : mset_ops db (p :: args) = concat (map (fun q : bytes * bytes => [OpPut (encodeKVKey db q.1) q.2]) (p :: args))).
  { rewrite (concat_singletons (fun q : bytes * bytes => OpPut (encodeKVKey db q.1) q.2)). unfold mset_ops. apply map_ext. by intros []. }
  rewrite E. apply (wp_for_ret kvBatch (fun q : bytes * bytes => [OpPut (encodeKVKey db q.1) q.2])); [|wp_auto; done].
  intros [k v] b1 Q1 Hin HQ. unfold mset_arg. cbn [fst snd]. clear E. revert He Hin. generalize (p :: args) as l.
  induction l as [|[k' v'] l IH]; [by intros _ ?%not_elem_of_nil|]. cbn [mset_error].
  destruct (checkKeySize k') eqn:Ek; [done|]. destruct (checkValueSize v') eqn:Ev; [done|]. intros He [[= -> ->]|Hin]%elem_of_cons.
  - rewrite Ek, Ev. wp_auto. exact HQ.
  - by apply IH.
Qed.

(** ** Expiration *)

Lemma setExpireAt_exec db key when m e v :
  checkKeySize key = None -> m !! encodeKVKey db key = Some v ->
  exec (setExpireAt db key when) m e (1, None)
    (apply_ops (expire_ops db KVType key when) m) (check_before when e).
Proof.
  intros Hk Hv. unfold exec, setExpireAt. wp_auto. apply Exists_wp; [done|]. rewrite Hv. simpl orb. wp_auto. done.
Qed.

Lemma setExpireAt_missing db key when m e :
  checkKeySize key = None -> m !! encodeKVKey db key = None ->
  exec (setExpireAt db key when) m e (0, None) m e.
Proof.
  intros Hk Hv. unfold exec, setExpireAt. wp_auto. apply Exists_wp; [done|]. rewrite Hv. simpl orb. wp_auto. done.
Qed.

Lemma Expire_exec db key duration m e v :
  checkKeySize key = None -> 0 < duration -> m !! encodeKVKey db key = Some v ->
  exec (Expire db key duration) m e (1, None)
    (apply_ops (expire_ops db KVType key (int64 (now e + duration))) m) (check_before (int64 (now e + duration)) e).
Proof.
  intros Hk Hd Hv. unfold exec, Expire. rewrite (proj2 (Z.leb_gt duration 0)) by lia. wp_auto.
  by eapply setExpireAt_exec.
Qed.

Lemma TTL_exec db key m e :
  checkKeySize key = None -> exec (TTL db key) m e (ttl_result db m KVType key (now e)) m e.
Proof. intros Hk. unfold exec, TTL. rewrite Hk. wp_auto. done. Qed.

Lemma Persist_exec db key m e :
  checkKeySize key = None -> (rm_result db m KVType key).2 = None ->
  exec (Persist db key) m e (rm_result db m KVType key) (apply_ops (rm_ops db m KVType key) m) e.
Proof.
  intros Hk Hr. unfold exec, Persist. rewrite Hk. wp_auto.
  destruct (rm_result _ _ _ _) as [n err]. simpl in Hr. subst err. wp_auto. done.
Qed.

Lemma SetEX_exec db key duration value m e :
  checkKeySize key = None -> checkValueSize value = None -> 0 < duration ->
  let when := int64 (now e + duration) in
  exec (SetEX db key duration value) m e None
    (apply_ops (OpPut (encodeKVKey db key) value :: expire_ops db KVType key when) m) (check_before when e).
Proof.
  intros Hk Hv Hd when. unfold exec, SetEX. rewrite Hk, Hv. rewrite (proj2 (Z.leb_gt duration 0)) by lia.
  wp_auto. done.
Qed.

(** ** Containment *)

Lemma contained_mget db keys : contained db (MGet db keys).
Proof. unfold MGet. contained_auto. Qed.
Lemma contained_Exists db key : contained db (Exists db key).
Proof. unfold Exists. contained_auto. Qed.
#[local] Hint Resolve contained_Exists : ledis.
Lemma contained_incr db key delta : contained db (incr db key delta).
Proof. unfold incr. contained_auto. Qed.
Lemma contained_delete_kv db t key : contained db (delete_kv db t key).
Proof. unfold delete_kv. contained_auto. Qed.
Lemma contained_setExpireAt db key when : contained db (setExpireAt db key when).
Proof. unfold setExpireAt. contained_auto. Qed.
#[local] Hint Resolve contained_setExpireAt : ledis.
Lemma contained_Del db keys : contained db (Del db keys).
Proof. unfold Del. contained_auto. Qed.
Lemma contained_Get db key : contained db (Get db key).
Proof. unfold Get. contained_auto. Qed.
Lemma contained_GetSlice db key : contained db (GetSlice db key).
Proof. unfold GetSlice. contained_auto. Qed.
#[local] Hint Resolve contained_GetSlice : ledis.
Lemma contained_GetSet db key value : contained db (GetSet db key value).
Proof. unfold GetSet. contained_auto. Qed.
Lemma contained_MSet db args : contained db (MSet db args).
Proof. unfold MSet, mset_arg. contained_auto. Qed.
Lemma contained_Set db key value : contained db (Set_ db key value).
Proof. unfold Set_. contained_auto. Qed.
Lemma contained_SetNX db key value : contained db (SetNX db key value).
Proof. unfold SetNX. contained_auto. Qed.
Lemma contained_SetEX db key duration value : contained db (SetEX db key duration value).
Proof. unfold SetEX. contained_auto. Qed.
Lemma contained_Expire db key duration : contained db (Expire db key duration).
Proof. unfold Expire. contained_auto. Qed.
Lemma contained_ExpireAt db key when : contained db (ExpireAt db key when).
Proof. unfold ExpireAt. contained_auto. Qed.
Lemma contained_TTL db key : contained db (TTL db key).
Proof. unfold TTL. contained_auto. Qed.
Lemma contained_Persist db key : contained db (Persist db key).
Proof. unfold Persist. contained_auto. Qed.
Lemma contained_SetRange db key offset value : contained db (SetRange db key offset value).
Proof. unfold SetRange. contained_auto. Qed.
Lemma contained_GetRange db key start end_ : contained db (GetRange db key start end_).
Proof. unfold GetRange. contained_auto. Qed.
Lemma contained_StrLen db key : contained db (StrLen db key).
Proof. unfold StrLen. contained_auto. Qed.
Lemma contained_Append db key value : contained db (Append db key value).
Proof. unfold Append. contained_auto. Qed.
Lemma contained_bitop_loop db op srcKeys value : contained db (bitop_loop db op srcKeys value).
Proof. revert value; induction srcKeys; intros value; simpl; contained_auto; auto. Qed.
#[local] Hint Resolve contained_bitop_loop : ledis.
Lemma contained_BitOP db op destKey srcKeys : contained db (BitOP db op destKey srcKeys).
Proof. unfold BitOP. contained_auto. Qed.
Lemma contained_BitCount db key start end_ : contained db (BitCount db key start end_).
Proof. unfold BitCount. contained_auto. Qed.
Lemma contained_BitPos db key on start end_ : contained db (BitPos db key on start end_).
Proof. unfold BitPos. contained_auto. Qed.
Lemma contained_SetBit db key offset on : contained db (SetBit db key offset on).
Proof. unfold SetBit. contained_auto. Qed.
Lemma contained_GetBit db key offset : contained db (GetBit db key offset).
Proof. unfold GetBit. contained_auto. Qed.

End Spec.

#[export] Hint Resolve contained_mget contained_Exists contained_incr contained_delete_kv contained_setExpireAt
  contained_Del contained_Get contained_GetSlice contained_GetSet contained_MSet contained_Set contained_SetNX
  contained_SetEX contained_Expire contained_ExpireAt contained_TTL contained_Persist contained_SetRange
  contained_GetRange contained_StrLen contained_Append contained_BitOP contained_BitCount contained_BitPos
  contained_SetBit contained_GetBit : ledis.

(** * Properties *)

Lemma kv_put_keeps (db : DB) (key value : bytes) (m : gmap bytes bytes) :
  keeps db KVType key m (<[encodeKVKey db key := value]> m).
Proof.
  apply (keeps_ops db KVType key [OpPut (encodeKVKey db key) value]).
  by apply (ops_for_cons _ _ _ _ _ (KV key)); [..|constructor].
Qed.

Lemma del_keeps (db : DB) (key : bytes) (m : gmap bytes bytes) :
  keeps db KVType key m (apply_ops (del_ops db m [key]) m) /\
  apply_ops (del_ops db m [key]) m !! encodeKVKey db key = None.
Proof.
  unfold del_ops. cbn [map concat]. rewrite app_nil_r. split.
  - apply keeps_ops. apply (ops_for_cons _ _ _ _ _ (KV key)); [done..|]. apply ops_for_rm.
  - cbn [apply_ops fold_left apply_op]. fold (apply_ops (rm_ops db m KVType key) (delete (encodeKVKey db key) m)).
    rewrite (apply_rm_other db m KVType key _ (KV key)) by done. apply lookup_delete_eq.
Qed.

Section Claims.
Context {B : Backend} {BS : BackendSpec B}.

(** A value written under a key is the value read, and nothing else changes.  After
    [Set], [Get] returns the value; [GetSet] returns the value it replaces; [SetNX] writes
    only a missing key; after [Del], [Get] returns nil.  Each changes only entries of the
    key, in any store. *)
Lemma set_get_del (db : DB) (key value : bytes) (m : gmap bytes bytes) (e : Env) :
  checkKeySize key = None -> checkValueSize value = None ->
  let old := m !! encodeKVKey db key in
  let kept m' e' := keeps db KVType key m m' /\ e' = e in
  runs (err ← Set_ db key value; v ← Get db key; mret (err, v)) m e
    (fun res m' e' => res = (None, (Some value, None)) /\ kept m' e') /\
  runs (old ← GetSet db key value; v ← Get db key; mret (old, v)) m e
    (fun res m' e' => res = ((old, None), (Some value, None)) /\ kept m' e') /\
  runs (n ← SetNX db key value; v ← Get db key; mret (n, v)) m e
    (fun res m' e' => res = ((match old with Some _ => 0 | None => 1 end, None), (Some (default value old), None)) /\ kept m' e') /\
  runs (n ← Del db [key]; v ← Get db key; mret (n, v)) m e
    (fun res m' e' => res = ((1, None), (None, None)) /\ kept m' e').
Proof using BS.
  intros Hk Hv old kept. pose proof (kv_put_keeps db key value m) as HT.
  split; [|split; [|split]].
  - eapply exec_runs; [|done]. eapply exec_bind; [by apply Set_exec|]. eapply exec_bind; [by apply Get_exec|].
    rewrite lookup_insert_eq. by apply wp_ret.
  - eapply exec_runs; [|done]. eapply exec_bind; [by apply GetSet_exec|]. eapply exec_bind; [by apply Get_exec|].
    rewrite lookup_insert_eq. by apply wp_ret.
  - eapply runs_bind; [by apply SetNX_exec|]. eapply runs_bind; [by apply Get_exec|]. subst kept. fold old. destruct old as [v|] eqn:E.
    + apply wp_ret. unfold old in E. rewrite E. split; [done|]. split; [done|]. split; [apply keeps_refl|done].
    + apply wp_ret. rewrite lookup_insert_eq. split; [done|]. split; [done|]. by split.
  - destruct (del_keeps db key m) as [HT' HN]. eapply exec_runs; [|done].
    eapply exec_bind; [by apply Del_exec|]. eapply exec_bind; [by apply Get_exec|]. rewrite HN. by apply wp_ret.
Qed.

(** The counters.  On a missing key (as zero) or on the decimal notation of a number
    [n], [IncrBy] returns the 64 bit sum, leaves its decimal notation (so that the next
    call counts on), and changes only the key; [DecrBy] with the same amount undoes it;
    on any other value the error is returned and the store is unchanged. *)
Lemma incr_decr (db : DB) (key : bytes) (delta : Z) (m : gmap bytes bytes) (e : Env) :
  checkKeySize key = None -> in_i64 delta ->
  match StrInt64 (m !! encodeKVKey db key) None with
  | (n, None) =>
      runs (a ← IncrBy db key delta; b ← DecrBy db key delta; mret (a, b)) m e (fun res m' e' =>
        res = ((int64 (n + delta), None), (n, None)) /\ keeps db KVType key m m' /\ e' = e /\
        StrInt64 (m' !! encodeKVKey db key) None = (n, None))
  | (_, Some err) => exec (IncrBy db key delta) m e (0, Some err) m e
  end.
Proof using BS.
  intros Hk Hd. destruct (StrInt64 _ _) as [n [err|]] eqn:En; [by apply (incr_error _ _ _ _ _ n)|].
  assert (Hn : in_i64 n).
  { unfold StrInt64 in En. destruct (m !! _) as [v|]; [|injection En as <-; unfold in_i64; lia].
    pose proof (ParseInt_range v 64 ltac:(lia)) as Hr. rewrite En in Hr. exact Hr. }
  assert (Hs : StrInt64 (Some (FormatInt64ToSlice (int64 (n + delta)))) None = (int64 (n + delta), None)).
  { unfold StrInt64. apply ParseInt_Format, int64_range. }
  assert (Hu : int64 (int64 (n + delta) + int64 (- delta)) = n).
  { rewrite swrap_add.
    replace (n + delta + - delta) with n by lia. by apply int64_small. }
  eapply exec_runs.
  - eapply exec_bind; [by apply incr_exec|]. eapply exec_bind.
    { unfold DecrBy. apply (incr_exec _ _ _ _ _ (int64 (n + delta))); [done|]. by rewrite lookup_insert_eq. }
    rewrite Hu, insert_insert_eq. by apply wp_ret.
  - split; [done|]. split; [apply kv_put_keeps|]. split; [done|]. rewrite lookup_insert_eq. unfold StrInt64. by apply ParseInt_Format.
Qed.

Lemma mset_lookup (db : DB) (args : list (bytes * bytes)) (m : gmap bytes bytes) (k v : bytes) :
  NoDup args.*1 -> (k, v) ∈ args -> apply_ops (mset_ops db args) m !! encodeKVKey db k = Some v.
Proof using.
  intros Hd Hin. assert (E : mset_ops db args = map (fun p => OpPut (encodeKVKey db p.1) p.2) args).
  { unfold mset_ops. apply map_ext. by intros []. }
  rewrite E. apply (apply_puts_in (fun p : bytes * bytes => encodeKVKey db p.1) snd args m _ (k, v)); [done..|].
  intros [k' v'] Hin' Hk. apply (encode_inj db (KV k') (KV k)) in Hk; [|done..]. injection Hk as ->. simpl.
  apply list_elem_of_lookup in Hin as [i Hi]. apply list_elem_of_lookup in Hin' as [j Hj].
  assert (i = j) as <-; [|by simplify_eq].
  eapply NoDup_lookup; [exact Hd|..]; rewrite list_lookup_fmap; [by rewrite Hi|by rewrite Hj].
Qed.

(** [MSet] is all or nothing, and [MGet] reads it back.  In every state with empty
    batches, whatever the engine or the replication log does: a rejected
    argument makes [MSet] return its error and leaves the store unchanged, otherwise either all pairs are written or none,
    and all of them when it returns no error.  With a working engine and distinct keys,
    [MGet] of the keys then returns exactly the values. *)
Lemma mset_mget (db : DB) (args : list (bytes * bytes)) :
  (forall st, batches st = no_ops ->
    exists o st', MSet db args st = (o, st') /\ batches st' = no_ops /\
    (contents st' = contents st \/ contents st' = apply_ops (mset_ops db args) (contents st)) /\
    match mset_error args with
    | Some bad => o = Ret (Some bad) /\ contents st' = contents st
    | None => o = Ret None -> contents st' = apply_ops (mset_ops db args) (contents st)
    end) /\
  (mset_error args = None -> NoDup args.*1 -> forall m e,
    runs (err ← MSet db args; vs ← MGet db args.*1; mret (err, vs)) m e
      (fun res _ _ => res = (None, (Some (map Some args.*2), None)))).
Proof using BS.
  split.
  - intros st Hb. destruct (MSet_any db args st Hb) as (err & st' & H1 & H2 & H3). exists err, st'.
    split; [done|]. split; [done|]. destruct (mset_error args); [by destruct H3; auto|]. by destruct H3.
  - intros He Hd m e. assert (Hks : Forall (fun k => checkKeySize k = None) args.*1).
    { clear Hd. revert He. induction args as [|[k v] l IH]; simpl; [constructor|].
      destruct (checkKeySize k) eqn:Ek; [done|]. destruct (checkValueSize v); [done|]. intros ?. constructor; auto. }
    eapply exec_runs; [eapply exec_bind; [apply (MSet_exec db args m e He)|]; eapply exec_bind; [by apply MGet_exec|by apply wp_ret]|].
    do 3 f_equal. rewrite <- !list_fmap_compose. apply list_fmap_ext. intros i [k v] Hi. cbn [compose fst snd].
    apply mset_lookup; [done|]. by eapply list_elem_of_lookup_2.
Qed.

(** [SetRange] writes the bytes at the offset and nothing else: the new length is the
    larger of the old length and the end of the written range, the written range holds the
    value, the bytes outside it are the old ones or zero, and [GetRange] of the range
    returns the value. *)
Lemma setrange_getrange (db : DB) (key value : bytes) (offset : Z) (m : gmap bytes bytes) (e : Env) :
  value <> [] -> checkKeySize key = None -> 0 <= offset -> len value + offset <= MaxValueSize ->
  let old := default [] (m !! encodeKVKey db key) in
  len old <= MaxValueSize ->
  runs (n ← SetRange db key offset value; v ← GetRange db key offset (offset + len value - 1); mret (n, v)) m e
    (fun res m' e' => res = ((Z.max (len old) (offset + len value), None), (Some value, None)) /\
       keeps db KVType key m m' /\ e' = e /\
       exists new, m' !! encodeKVKey db key = Some new /\
       forall i, 0 <= i < len new -> new !! Z.to_nat i =
         if bool_decide (offset <= i < offset + len value) then value !! Z.to_nat (i - offset)
         else if bool_decide (i < len old) then old !! Z.to_nat i else Some 0).
Proof using BS.
  intros Hne Hk Ho Hs old Hl. set (new := set_range old offset value).
  assert (Hn : len new = Z.max (len old) (offset + len value)) by (by apply set_range_length).
  assert (Hv : 0 < len value) by (destruct value; simpl; [done|lia]).
  assert (Hlook : forall i, 0 <= i < len new -> new !! Z.to_nat i =
         if bool_decide (offset <= i < offset + len value) then value !! Z.to_nat (i - offset)
         else if bool_decide (i < len old) then old !! Z.to_nat i else Some 0).
  { intros i Hi. unfold new. rewrite set_range_lookup by (fold new; lia). rewrite Z2Nat.id by lia. by rewrite Z2Nat.inj_sub by lia. }
  assert (HR : getRange offset (offset + len value - 1) (len new) = (offset, offset + len value - 1)).
  { unfold getRange. rewrite (proj2 (Z.ltb_ge offset 0)) by lia. rewrite (proj2 (Z.ltb_ge offset 0)) by lia.
    rewrite (proj2 (Z.ltb_ge (offset + len value - 1) 0)) by lia. rewrite (proj2 (Z.ltb_ge (offset + len value - 1) 0)) by lia.
    destruct (_ >=? _) eqn:E; zify_bool; f_equal; lia. }
  unfold MaxValueSize in *. eapply runs_bind; [apply SetRange_exec; unfold MaxValueSize; fold old; done || lia|]. fold old new.
  eapply runs_bind.
  { pose proof (GetRange_exec db key offset (offset + len value - 1) (<[encodeKVKey db key:=new]> m) e Hk) as HG.
    cbv zeta in HG. rewrite lookup_insert_eq in HG. change (default [] (Some new)) with new in HG. rewrite HR in HG. exact HG. }
  rewrite Z.gtb_ltb, (proj2 (Z.ltb_ge _ _)) by lia. apply wp_ret. rewrite Hn. split; [done|].
  split; [|split; [apply kv_put_keeps|split; [done|exists new; by rewrite lookup_insert_eq]]].
  do 3 f_equal. apply list_eq. intros i. destruct (decide (i < length value)%nat) as [Hi|Hi].
  - rewrite lookup_take_lt by lia. rewrite lookup_drop.
    replace (Z.to_nat offset + i)%nat with (Z.to_nat (offset + Z.of_nat i)) by lia. rewrite Hlook by lia.
    rewrite bool_decide_eq_true_2 by lia. f_equal. lia.
  - rewrite (lookup_ge_None_2 value) by lia. apply lookup_ge_None_2. rewrite length_take, length_drop. lia.
Qed.

(** Bits.  [SetBit] returns the old bit and [GetBit] then reads the new bit at the
    offset and the old bits elsewhere (bits past the end are zero).  [BitCount] of a range
    counts the bits that are set, [BitPos] returns the first position in the range whose
    bit is [on], or -1; a range that starts after the end of the value makes [BitCount]
    panic. *)
Lemma bits (db : DB) (key : bytes) (offset o on start end_ : Z) (m : gmap bytes bytes) (e : Env) :
  checkKeySize key = None -> 0 <= offset < 2 ^ 32 -> 0 <= o < 2 ^ 32 -> on = 0 \/ on = 1 ->
  let value := default [] (m !! encodeKVKey db key) in
  wf_bytes value -> len value <= MaxValueSize ->
  let bit v o := if bit_at v o then 1 else 0 in
  runs (old ← SetBit db key offset on; new ← GetBit db key o; mret (old, new)) m e (fun res m' e' =>
    res = ((bit value offset, None), (if o =? offset then on else bit value o, None)) /\
    keeps db KVType key m m' /\ e' = e) /\
  let '(s, t) := getRange start end_ (len value) in
  let part := take (Z.to_nat (t + 1 - s)) (drop (Z.to_nat s) value) in
  if s <=? t + 1 then
    exec (BitCount db key start end_) m e (popcount part, None) m e /\
    exists pos, exec (BitPos db key on start end_) m e (pos, None) m e /\
      ((pos = -1 /\ forall i, 0 <= i < 8 * len part -> bit part i = 1 - on) \/
       (exists i, 0 <= i < 8 * len part /\ pos = s * 8 + i /\ bit part i = on /\ forall j, 0 <= j < i -> bit part j = 1 - on))
  else forall st b, at_ st m b e -> BitCount db key start end_ st = (Panic, st).
Proof using BS.
  intros Hk Ho Ho' Hon value Hwf Hl bit. unfold MaxValueSize in *. split.
  - eapply exec_runs.
    + eapply exec_bind; [by apply SetBit_exec|]. eapply exec_bind; [|by apply wp_ret].
      apply GetBit_exec; [done|done|]. rewrite lookup_insert_eq. change (default [] (Some ?x)) with x.
      rewrite set_bit_length by lia. fold value.
      assert (offset / 8 <= 2 ^ 29) by (apply Z.lt_succ_r, Z.div_lt_upper_bound; lia). lia.
    + rewrite lookup_insert_eq. change (default [] (Some ?x)) with x. fold value. rewrite bit_at_set_bit by (done || lia).
      split; [|split; [apply kv_put_keeps|done]]. do 2 f_equal. unfold bit. destruct (o =? offset); [|done]. by destruct Hon as [-> | ->].
  - pose proof (BitCount_exec db key start end_ m e Hk Hwf Hl) as HC.
    pose proof (BitPos_exec db key on start end_ m e Hk Hon) as HP.
    pose proof (fun st b => BitCount_panic db key start end_ st m b e Hk) as HX. cbv zeta in HC, HP, HX. fold value in HC, HP, HX.
    destruct (getRange start end_ (len value)) as [s t]. cbv zeta. set (part := take _ (drop _ value)) in *. destruct (s <=? t + 1) eqn:E; zify_bool; cycle 1.
    { intros st b Hst. by apply (HX st b Hst). }
    split; [by apply HC|]. eexists. split; [by apply HP|]. fold part.
    assert (Hp : wf_bytes part) by (by apply Forall_take, Forall_drop).
    assert (Hbit : forall v i b, bit_at v i = b -> bit v i = if b then 1 else 0) by (unfold bit; by intros v i b ->).
    destruct (bitpos_loop_spec on s 0 part Hp Hon ltac:(lia)) as [[-> Hall]|(i & Hi & -> & Hb & Hall)].
    + left. split; [done|]. intros i Hi. rewrite (Hbit _ _ _ (Hall i Hi)). by destruct Hon as [-> | ->].
    + right. exists i. split; [done|]. split; [lia|]. split; [rewrite (Hbit _ _ _ Hb); by destruct Hon as [-> | ->]|].
      intros j Hj. rewrite (Hbit _ _ _ (Hall j Hj)). by destruct Hon as [-> | ->].
Qed.

(** [BitOP] with [and], [or] or [xor] (in any case) and at least two sources stores
    under the destination the bytewise combination of the sources, the shorter ones
    extended with zeros to the longest, and returns its length. *)
Lemma bitop (db : DB) (op dest src : bytes) (rest : list bytes) (f : Z -> Z -> Z) (m : gmap bytes bytes) (e : Env) :
  checkKeySize dest = None -> bit_fn (ToLower op) = Some f -> rest <> [] -> Forall (fun k => checkKeySize k = None) rest ->
  let val k := default [] (m !! encodeKVKey db k) in
  runs (BitOP db op dest (src :: rest)) m e (fun res m' e' =>
    exists new, res = (len new, None) /\ m' = <[encodeKVKey db dest := new]> m /\ e' = e /\
    len new = fold_left Z.max (map (fun k => len (val k)) rest) (len (val src)) /\
    forall i, default 0 (new !! i) = combine f (map val rest) (val src) i).
Proof using BS.
  intros Hd Hf Hne Hks val. destruct (BitOP_exec db op f dest src rest m e Hd Hf Hne Hks) as (new & HE & Hl & Hi).
  eapply exec_runs; [exact HE|]. by exists new.
Qed.

(** Expiration of a value.  After [Expire] with a duration, [TTL] returns the
    duration; after [Persist], [TTL] returns -1 and [Persist] reports that it removed the
    expiration; the value is not touched, and the next check time of the checker is at most
    the expiration time. *)
Lemma expire_ttl_persist (db : DB) (key v : bytes) (duration : Z) (m : gmap bytes bytes) (e : Env) :
  checkKeySize key = None -> m !! encodeKVKey db key = Some v -> 0 < duration -> 0 <= now e -> in_i64 (now e + duration) ->
  runs (a ← Expire db key duration; b ← TTL db key; c ← Persist db key; d ← TTL db key; mret (a, b, c, d)) m e
    (fun res m' e' => res = ((1, None), (duration, None), (1, None), (-1, None)) /\
       m' !! encodeKVKey db key = Some v /\ touches db KVType key m m' /\ now e' = now e /\ nc e' <= now e + duration).
Proof using BS.
  intros Hk Hv Hd Hn Hi. set (w := now e + duration). set (m1 := apply_ops (expire_ops db KVType key w) m).
  assert (Hm : m1 !! expEncodeMetaKey db KVType key = Some (PutInt64 w)) by (apply lookup_insert_eq).
  assert (Hrm : rm_ops db m1 KVType key = [OpDelete (expEncodeMetaKey db KVType key); OpDelete (expEncodeTimeKey db KVType key w)]).
  { unfold rm_ops. rewrite Hm, Int64_PutInt64 by done. done. }
  assert (Hrr : rm_result db m1 KVType key = (1, None)) by (unfold rm_result; by rewrite Hm, Int64_PutInt64).
  set (m2 := apply_ops (rm_ops db m1 KVType key) m1).
  assert (Ht1 : ttl_result db m1 KVType key (now e) = (duration, None)).
  { unfold ttl_result. rewrite Hm, Int64_PutInt64 by done. cbn [is_err orb]. rewrite (proj2 (Z.eqb_neq w 0)) by (unfold w; lia).
    replace (w - now e) with duration by (unfold w; lia). rewrite int64_small by (unfold in_i64 in *; lia).
    by rewrite (proj2 (Z.leb_gt duration 0)) by lia. }
  assert (Hm2 : m2 !! expEncodeMetaKey db KVType key = None).
  { unfold m2. rewrite Hrm. cbn [apply_ops fold_left apply_op]. rewrite lookup_delete_ne, lookup_delete_eq; [done|].
    by apply (encode_ne db (ExpTime KVType key w) (ExpMeta KVType key)). }
  assert (Ht2 : ttl_result db m2 KVType key (now e) = (-1, None)) by (unfold ttl_result; by rewrite Hm2).
  eapply exec_runs.
  - eapply exec_bind; [by eapply Expire_exec|]. rewrite int64_small by done. eapply exec_bind; [by apply TTL_exec|].
    eapply exec_bind; [apply Persist_exec; [done|]; fold w m1; by rewrite Hrr|]. eapply exec_bind; [by apply TTL_exec|].
    by apply wp_ret.
  - fold w m1 m2. cbn [now check_before with_nc]. rewrite Hrr, Ht1, Ht2. split; [done|]. split; [|split; [|split; [done|]]].
    + change (encodeKVKey db key) with (encode db (KV key)) in *. unfold m2. rewrite (apply_rm_other db m1 KVType key m1 (KV key)) by done. unfold m1. cbn [apply_ops fold_left apply_op expire_ops].
      rewrite !lookup_insert_ne; [done|by apply (encode_ne db (ExpTime KVType key w) (KV key))|by apply (encode_ne db (ExpMeta KVType key) (KV key))].
    + eapply touches_trans; [by apply touches_expire|apply touches_ops, ops_for_rm].
    + unfold check_before, with_nc. cbn [nc]. destruct (nc e >? w) eqn:E; zify_bool; lia.
Qed.

(** [SetNX] loses the error of its commit.  When writes are not allowed it returns 1
    and no error for a missing key, as if it had written it, and the store is unchanged
    ([Set] returns [ErrWriteInROnly] there). *)
Lemma setnx_lost_error (db : DB) (key value : bytes) (st : St) :
  checkKeySize key = None -> checkValueSize value = None -> readonly st = true -> healthy (ldb st) ->
  contents st !! encodeKVKey db key = None ->
  exists st', SetNX db key value st = (Ret (1, None), st') /\ contents st' = contents st /\
  (Set_ db key value st).1 = Ret (Some ErrWriteInROnly).
Proof using BS.
  intros Hk Hv Hr Hh Hn. unfold SetNX, Set_. rewrite Hk, Hv. unfold with_lock, bucket_Get, mbind, M_bind, gets, db_Get.
  rewrite get_ok by done. unfold contents in Hn. rewrite Hn. unfold batch_Put, batch_Commit. cbn [readonly with_batches]. rewrite Hr.
  eexists. split; [done|]. by split.
Qed.

End Claims.

(** ** Examples *)

Definition ex_kv (v : bytes) : gmap bytes bytes := {[ encodeKVKey db0 [107] := v ]}.

Lemma set_get_del_witness :
  runs (B := MemBackend) (err ← Set_ db0 [107] [118]; v ← Get db0 [107]; mret (err, v)) ∅ env0
    (fun res m' e' => res = (None, (Some [118], None)) /\ keeps db0 KVType [107] ∅ m' /\ e' = env0).
Proof. exact (proj1 (set_get_del (B := MemBackend) db0 [107] [118] ∅ env0 eq_refl eq_refl)). Defined.

Lemma incr_decr_witness :
  runs (B := MemBackend) (a ← IncrBy db0 [107] 5; b ← DecrBy db0 [107] 5; mret (a, b)) (ex_kv [52; 50]) env0
    (fun res _ _ => res = ((47, None), (42, None))).
Proof.
  eapply wp_mono; [exact (incr_decr (B := MemBackend) db0 [107] 5 (ex_kv [52; 50]) env0 eq_refl ltac:(done))|].
  intros a m' b' e' (-> & -> & _). done.
Defined.

Lemma mset_mget_witness :
  runs (B := MemBackend) (err ← MSet db0 [([107], [118]); ([108], [])]; vs ← MGet db0 [[107]; [108]]; mret (err, vs)) ∅ env0
    (fun res _ _ => res = (None, (Some [Some [118]; Some []], None))).
Proof.
  refine (proj2 (mset_mget (B := MemBackend) db0 [([107], [118]); ([108], [])]) eq_refl _ ∅ env0).
  apply (bool_decide_unpack (NoDup [[107]; [108]])). vm_compute. exact I.
Defined.

Lemma setrange_getrange_witness :
  runs (B := MemBackend) (n ← SetRange db0 [107] 2 [118; 119]; v ← GetRange db0 [107] 2 3; mret (n, v)) (ex_kv [1]) env0
    (fun res _ _ => res = ((4, None), (Some [118; 119], None))).
Proof.
  eapply wp_mono.
  - exact (setrange_getrange (B := MemBackend) db0 [107] [118; 119] 2 (ex_kv [1]) env0
      ltac:(done) eq_refl ltac:(done) ltac:(done) ltac:(vm_compute; discriminate)).
  - intros a m' b' e' (-> & -> & _). done.
Defined.

Lemma bits_witness :
  runs (B := MemBackend) (old ← SetBit db0 [107] 9 1; new ← GetBit db0 [107] 8; mret (old, new)) (ex_kv [255; 128]) env0
    (fun res _ _ => res = ((0, None), (1, None))) /\
  exec (B := MemBackend) (BitCount db0 [107] 0 (-1)) (ex_kv [255; 128]) env0 (9, None)
    (ex_kv [255; 128]) env0.
Proof.
  destruct (bits (B := MemBackend) db0 [107] 9 8 1 0 (-1) (ex_kv [255; 128]) env0
    eq_refl ltac:(lia) ltac:(lia) (or_intror eq_refl)
    ltac:(apply (bool_decide_unpack (Forall _ _)); vm_compute; exact I) ltac:(vm_compute; discriminate)) as [H1 H2].
  split; [|exact (proj1 H2)]. eapply wp_mono; [exact H1|]. intros a m' b' e' (-> & -> & _). done.
Defined.

Lemma bitop_witness :
  runs (B := MemBackend) (BitOP db0 [79; 82] [100] [[97]; [98]]) {[ encodeKVKey db0 [97] := [1; 2]; encodeKVKey db0 [98] := [4] ]} env0
    (fun res m' _ => exists new, res = (len new, None) /\ m' !! encodeKVKey db0 [100] = Some new /\ len new = 2).
Proof.
  eapply wp_mono.
  - exact (bitop (B := MemBackend) db0 [79; 82] [100] [97] [[98]] Z.lor
      {[ encodeKVKey db0 [97] := [1; 2]; encodeKVKey db0 [98] := [4] ]} env0 eq_refl eq_refl ltac:(done)
      ltac:(by repeat constructor)).
  - intros a m' b' e' (-> & new & -> & -> & -> & Hl & _). split; [reflexivity|]. exists new. split; [reflexivity|].
    rewrite lookup_insert_eq. split; [reflexivity|]. rewrite Hl. reflexivity.
Defined.

Lemma expire_ttl_persist_witness :
  runs (B := MemBackend) (a ← Expire db0 [107] 30; b ← TTL db0 [107]; c ← Persist db0 [107]; d ← TTL db0 [107]; mret (a, b, c, d))
    (ex_kv [118]) env0
    (fun res _ _ => res = ((1, None), (30, None), (1, None), (-1, None))).
Proof.
  eapply wp_mono.
  - exact (expire_ttl_persist (B := MemBackend) db0 [107] [118] 30 (ex_kv [118]) env0
      eq_refl ltac:(vm_compute; reflexivity) ltac:(lia) ltac:(simpl; lia) ltac:(unfold in_i64; simpl; lia)).
  - intros a m' b' e' (-> & -> & _). done.
Defined.

Lemma setnx_lost_error_witness :
  exists st', SetNX (B := MemBackend) db0 [107] [118] (mkSt (B := MemBackend) (mkMem ∅ false) true None false [] no_ops env0) = (Ret (1, None), st') /\
  contents st' = ∅.
Proof.
  destruct (setnx_lost_error (B := MemBackend) (BS := MemBackendSpec) db0 [107] [118] (mkSt (B := MemBackend) (mkMem ∅ false) true None false [] no_ops env0)
    eq_refl eq_refl eq_refl eq_refl (lookup_empty (M := gmap bytes) _)) as (st' & H1 & H2 & _). exists st'. split; [exact H1|exact H2].
Defined.
