(* ===== verification/TList.v ===== *)
(** * Lists (src/ledis/t_list.go)

    A list is a meta entry with the sequence numbers of its head and tail and one entry per
    element.  Every operation of the type except [lFlush] (see Flush.v); of the blocking
    pops, passes over the keys ([lblockPop_pass]) with a schedule of what other clients do
    while the client waits. *)

From S2P Require Import Prelude Driver Store Keys Util Core Frame Refine.

Definition listHeadSeq : Z := 1.
Definition listTailSeq : Z := 2.
Definition listMinSeq : Z := 1000.
Definition listMaxSeq : Z := 2 ^ 31 - 1000.
Definition listInitialSeq : Z := listMinSeq + (listMaxSeq - listMinSeq) / 2.

Section Ops.
Context {B : Backend}.
Implicit Types (db : DB) (key value : bytes).

(** The part of [lGetMeta] after the read: head, tail and size. *)
Definition list_meta (v : option bytes) : outcome (Z * Z * Z) :=
  match v with
  | None => Ret (listInitialSeq, listInitialSeq, 0)
  | Some v =>
      match slice v 0 4, slice v 4 8 with
      | Ret h, Ret t =>
          let headSeq := int32 (le_get h) in
          let tailSeq := int32 (le_get t) in
          Ret (headSeq, tailSeq, int32 (int32 (tailSeq - headSeq) + 1))
      | _, _ => Panic
      end
  end.

(** [lGetMeta(nil, ek)] and [lGetMeta(it, ek)]. *)
Definition lGetMeta (ek : bytes) : M (Z * Z * Z * option error) :=
  '(v, err) ← bucket_Get ek;
  match err with
  | Some err => mret (0, 0, 0, Some err)
  | None => meta ← lift (list_meta v); mret (meta, None)
  end.

Definition lGetMeta_it (it : cursor) (ek : bytes) : M (cursor * (Z * Z * Z)) :=
  let '(it, v) := Find it ek in
  meta ← lift (list_meta v); mret (it, meta).

(** [log.Fatalf] only logs: with a negative size the meta entry stays as it is. *)
Definition lSetMeta (ek : bytes) (headSeq tailSeq : Z) : M Z :=
  let size := int32 (int32 (tailSeq - headSeq) + 1) in
  if size <? 0 then mret size
  else if size =? 0 then _ ← batch_Delete listBatch ek; mret size
  else _ ← batch_Put listBatch ek (le_put 4 (uint32 headSeq) ++ le_put 4 (uint32 tailSeq)); mret size.

(** [lBlockKeys.signal]: calls every cancel function queued on the key. *)
Definition lSignalAsReady key : M unit := fun st =>
  let e := env st in
  match lbkeys e !! key with
  | None => (Ret tt, st)
  | Some fns => (Ret tt, with_env (mkEnv (now e) (nc e) (delete key (lbkeys e)) (cancelled e ++ fns)) st)
  end.

(** [for i := 0; i < pushCnt; i++ { t.Put(db.lEncodeListKey(key, seq+int32(i)*delta), args[i]) }] *)
Definition push_items db key (seq delta : Z) (args : list bytes) : M unit :=
  for_each (imap (fun i a => (Z.of_nat i, a)) args) (fun '(i, a) =>
    batch_Put listBatch (lEncodeListKey db key (int32 (seq + int32 (int32 i * delta)))) a).

Definition lpush db key (whereSeq : Z) (args : list bytes) : M (Z * option error) :=
  match checkKeySize key with
  | Some err => mret (0, Some err)
  | None =>
      with_lock listBatch (
        let metaKey := lEncodeMetaKey db key in
        '(headSeq, tailSeq, size, err) ← lGetMeta metaKey;
        match err with
        | Some err => mret (0, Some err)
        | None =>
            let pushCnt := len args in
            if pushCnt =? 0 then mret (size, None)
            else
              let '(seq, delta) := if whereSeq =? listTailSeq then (tailSeq, 1) else (headSeq, -1) in
              let seq := if size >? 0 then int32 (seq + delta) else seq in
              _ ← push_items db key seq delta args;
              let seq := int32 (seq + int32 (int32 (pushCnt - 1) * delta)) in
              if (seq <=? listMinSeq) || (seq >=? listMaxSeq) then mret (0, Some errListSeq)
              else
                let '(headSeq, tailSeq) :=
                  if whereSeq =? listHeadSeq then (seq, tailSeq) else (headSeq, seq) in
                _ ← lSetMeta metaKey headSeq tailSeq;
                err ← batch_Commit listBatch;
                _ ← (if negb (is_err err) then lSignalAsReady key else mret tt);
                mret (size + pushCnt, err)
        end)
  end.

Definition lpop db key (whereSeq : Z) : M (option bytes * option error) :=
  match checkKeySize key with
  | Some err => mret (None, Some err)
  | None =>
      with_lock listBatch (
        let metaKey := lEncodeMetaKey db key in
        '(headSeq, tailSeq, size, err) ← lGetMeta metaKey;
        match err with
        | Some err => mret (None, Some err)
        | None =>
            if size =? 0 then mret (None, None)
            else
              let seq := if whereSeq =? listTailSeq then tailSeq else headSeq in
              let itemKey := lEncodeListKey db key seq in
              '(value, err) ← bucket_Get itemKey;
              match err with
              | Some err => mret (None, Some err)
              | None =>
                  let '(headSeq, tailSeq) :=
                    if whereSeq =? listHeadSeq then (int32 (headSeq + 1), tailSeq)
                    else (headSeq, int32 (tailSeq - 1)) in
                  _ ← batch_Delete listBatch itemKey;
                  size ← lSetMeta metaKey headSeq tailSeq;
                  _ ← (if size =? 0 then rmExpire db listBatch ListType key else mret (0, None));
                  err ← batch_Commit listBatch;
                  mret (value, err)
              end
        end)
  end.

Definition lDelete db (t : BatchId) key : M Z :=
  let mk := lEncodeMetaKey db key in
  it ← bucket_NewIterator;
  '(it, (headSeq, tailSeq, _)) ← lGetMeta_it it mk;
  let startKey := lEncodeListKey db key headSeq in
  let stopKey := lEncodeListKey db key tailSeq in
  let rit := NewRangeIterator it (mkRange (Some startKey) (Some stopKey) RangeClose) in
  _ ← for_each (rli_items rit) (fun '(k, _) => batch_Delete t k);
  _ ← batch_Delete t mk;
  mret (len (rli_items rit)).

Definition ltrim2 db key (startP stopP : Z) : M (option error) :=
  match checkKeySize key with
  | Some err => mret (Some err)
  | None =>
      with_lock listBatch (
        let start := int32 startP in
        let stop := int32 stopP in
        let ek := lEncodeMetaKey db key in
        '(headSeq, _, llen, err) ← lGetMeta ek;
        match err with
        | Some err => mret (Some err)
        | None =>
            let start := if start <? 0 then int32 (llen + start) else start in
            let stop := if stop <? 0 then int32 (llen + stop) else stop in
            if (start >=? llen) || (start >? stop) then
              _ ← lDelete db listBatch key;
              _ ← rmExpire db listBatch ListType key;
              batch_Commit listBatch
            else
              let start := if start <? 0 then 0 else start in
              let stop := if stop >=? llen then int32 (llen - 1) else stop in
              let del i := batch_Delete listBatch (lEncodeListKey db key (int32 (headSeq + i))) in
              _ ← (if start >? 0 then for_each (seqZ 0 start) del else mret tt);
              _ ← (if stop <? int32 (llen - 1)
                   then for_each (seqZ (stop + 1) (llen - (stop + 1))) del else mret tt);
              _ ← lSetMeta ek (int32 (headSeq + start)) (int32 (headSeq + stop));
              batch_Commit listBatch
        end)
  end.

(** Sequence numbers stay below [listMaxSeq], so the loop variable does not wrap. *)
Definition ltrim db key (trimSize whereSeq : Z) : M (Z * option error) :=
  match checkKeySize key with
  | Some err => mret (0, Some err)
  | None =>
      if trimSize =? 0 then mret (0, None)
      else
        with_lock listBatch (
          let metaKey := lEncodeMetaKey db key in
          '(headSeq, tailSeq, size, err) ← lGetMeta metaKey;
          match err with
          | Some err => mret (0, Some err)
          | None =>
              if size =? 0 then mret (0, None)
              else
                let '(trimStartSeq, trimEndSeq, headSeq, tailSeq) :=
                  if whereSeq =? listHeadSeq then
                    let trimStartSeq := headSeq in
                    let trimEndSeq := Z.min (int32 (int32 (trimStartSeq + trimSize) - 1)) tailSeq in
                    (trimStartSeq, trimEndSeq, int32 (trimEndSeq + 1), tailSeq)
                  else
                    let trimEndSeq := tailSeq in
                    let trimStartSeq := Z.max (int32 (int32 (trimEndSeq - trimSize) + 1)) headSeq in
                    (trimStartSeq, trimEndSeq, headSeq, int32 (trimStartSeq - 1)) in
                _ ← for_each (seqZ trimStartSeq (trimEndSeq - trimStartSeq + 1))
                      (fun trimSeq => batch_Delete listBatch (lEncodeListKey db key trimSeq));
                size ← lSetMeta metaKey headSeq tailSeq;
                _ ← (if size =? 0 then rmExpire db listBatch ListType key else mret (0, None));
                err ← batch_Commit listBatch;
                mret (int32 (int32 (trimEndSeq - trimStartSeq) + 1), err)
          end)
  end.

Definition LLen db key : M (Z * option error) :=
  match checkKeySize key with
  | Some err => mret (0, Some err)
  | None =>
      '(_, _, size, err) ← lGetMeta (lEncodeMetaKey db key);
      mret (size, err)
  end.

Definition lExpireAt db key (when : Z) : M (Z * option error) :=
  with_lock listBatch (
    '(llen, err) ← LLen db key;
    if is_err err || (llen =? 0) then mret (0, err)
    else
      _ ← expireAt db listBatch ListType key when;
      err ← batch_Commit listBatch;
      match err with
      | Some err => mret (0, Some err)
      | None => mret (1, None)
      end).

Definition LIndex db key (index : Z) : M (option bytes * option error) :=
  match checkKeySize key with
  | Some err => mret (None, Some err)
  | None =>
      it ← bucket_NewIterator;
      '(it, (headSeq, tailSeq, _)) ← lGetMeta_it it (lEncodeMetaKey db key);
      let seq := if index >=? 0 then int32 (headSeq + index) else int32 (int32 (tailSeq + index) + 1) in
      let sk := lEncodeListKey db key seq in
      mret ((Find it sk).2, None)
  end.

Definition LPop db key := lpop db key listHeadSeq.
Definition RPop db key := lpop db key listTailSeq.
Definition LPush db key (args : list bytes) := lpush db key listHeadSeq args.
Definition RPush db key (args : list bytes) := lpush db key listTailSeq args.
Definition LTrim db key (start stop : Z) := ltrim2 db key start stop.
Definition LTrimFront db key (trimSize : Z) := ltrim db key trimSize listHeadSeq.
Definition LTrimBack db key (trimSize : Z) := ltrim db key trimSize listTailSeq.

Definition LSet db key (index : Z) value : M (option error) :=
  match checkKeySize key with
  | Some err => mret (Some err)
  | None =>
      with_lock listBatch (
        '(headSeq, tailSeq, _, err) ← lGetMeta (lEncodeMetaKey db key);
        match err with
        | Some err => mret (Some err)
        | None =>
            let seq := if index >=? 0 then int32 (headSeq + index) else int32 (int32 (tailSeq + index) + 1) in
            if (seq <? headSeq) || (seq >? tailSeq) then mret (Some errListIndex)
            else
              _ ← batch_Put listBatch (lEncodeListKey db key seq) value;
              batch_Commit listBatch
        end)
  end.

Definition LRange db key (start stop : Z) : M (option (list bytes) * option error) :=
  match checkKeySize key with
  | Some err => mret (None, Some err)
  | None =>
      it ← bucket_NewIterator;
      '(it, (headSeq, _, llen)) ← lGetMeta_it it (lEncodeMetaKey db key);
      let start := if start <? 0 then int32 (llen + start) else start in
      let stop := if stop <? 0 then int32 (llen + stop) else stop in
      let start := if start <? 0 then 0 else start in
      if (start >? stop) || (start >=? llen) then mret (Some [], None)
      else
        let stop := if stop >=? llen then int32 (llen - 1) else stop in
        let limit := int32 (int32 (stop - start) + 1) in
        let headSeq := int32 (headSeq + start) in
        let startKey := lEncodeListKey db key headSeq in
        let rit := NewRangeLimitIterator it (mkRange (Some startKey) None RangeClose) (mkLimit 0 limit) in
        mret (Some (map snd (rli_items rit)), None)
  end.

Definition LClear db key : M (Z * option error) :=
  match checkKeySize key with
  | Some err => mret (0, Some err)
  | None =>
      with_lock listBatch (
        num ← lDelete db listBatch key;
        _ ← rmExpire db listBatch ListType key;
        err ← batch_Commit listBatch;
        mret (num, err))
  end.

Definition LMclear db (keys : list bytes) : M (Z * option error) :=
  with_lock listBatch (
    for_ret keys (fun key =>
      match checkKeySize key with
      | Some err => mret (Some (0, Some err))
      | None =>
          _ ← lDelete db listBatch key;
          _ ← rmExpire db listBatch ListType key;
          mret None
      end)
    (err ← batch_Commit listBatch; mret (len keys, err))).

Definition LExpire db key (duration : Z) : M (Z * option error) :=
  if duration <=? 0 then mret (0, Some errExpireValue)
  else n ← time_now; lExpireAt db key (int64 (n + duration)).

Definition LExpireAt db key (when : Z) : M (Z * option error) :=
  n ← time_now;
  if when <=? n then mret (0, Some errExpireValue) else lExpireAt db key when.

Definition LTTL db key : M (Z * option error) :=
  match checkKeySize key with
  | Some err => mret (-1, Some err)
  | None => ttl db ListType key
  end.

Definition LPersist db key : M (Z * option error) :=
  match checkKeySize key with
  | Some err => mret (0, Some err)
  | None =>
      with_lock listBatch (
        '(n, err) ← rmExpire db listBatch ListType key;
        match err with
        | Some err => mret (0, Some err)
        | None => err ← batch_Commit listBatch; mret (n, err)
        end)
  end.

Definition LKeyExists db key : M (Z * option error) :=
  match checkKeySize key with
  | Some err => mret (0, Some err)
  | None =>
      '(v, err) ← bucket_Get (lEncodeMetaKey db key);
      if not_nil v && negb (is_err err) then mret (1, None) else mret (0, err)
  end.

(** ** Blocking pops

    [fn] names the cancel function of the context the client waits on. *)

Definition cancel (fn : nat) : M unit := fun st =>
  let e := env st in
  (Ret tt, with_env (mkEnv (now e) (nc e) (lbkeys e) (cancelled e ++ [fn])) st).

Definition lb_wait key (fn : nat) : M unit := fun st =>
  let e := env st in
  let chs := default [] (lbkeys e !! key) in
  (Ret tt, with_env (mkEnv (now e) (nc e) (<[key := chs ++ [fn]]> (lbkeys e)) (cancelled e)) st).

Definition popOrWait db key (whereSeq : Z) (fn : nat) : M (option (bytes * bytes) * option error) :=
  '(v, err) ← lpop db key whereSeq;
  match err with
  | Some err => mret (None, Some err)
  | None =>
      match v with
      | Some v => mret (Some (key, v), None)
      | None => _ ← lb_wait key fn; mret (None, None)
      end
  end.

(** One round of the outer loop of [lblockPop] up to [<-ctx.Done()]: the call returns, or
    it waits ([None]).  The pair of [popOrWait] is wrapped in a second pair. *)
Definition lblockPop_pass db (keys : list bytes) (whereSeq : Z) (fn : nat) :
    M (option (option (bytes * (bytes * bytes)) * option error)) :=
  for_ret keys (fun key =>
    '(v, err) ← popOrWait db key whereSeq fn;
    match err with
    | Some err => _ ← cancel fn; mret (Some (Some (None, Some err)))
    | None =>
        match v with
        | Some v => _ ← cancel fn; mret (Some (Some (Some (key, v), None)))
        | None => mret None
        end
    end)
  (mret None).

(** What happens while a client waits: other clients run an operation on the database, or
    the deadline of its timeout passes. *)
Inductive wake := DeadlineExceeded | Elapse (others : M unit).

Definition is_cancelled (fn : nat) : M bool := gets (fun st => bool_decide (fn ∈ cancelled (env st))).

(** The wait on the context of [fn] and the rounds after it; [None] is a client that still
    waits when the schedule ends. *)
Fixpoint lwait db (keys : list bytes) (whereSeq : Z) (fn : nat) (sched : list wake) :
    M (option (option (bytes * (bytes * bytes)) * option error)) :=
  match sched with
  | [] => mret None
  | DeadlineExceeded :: _ => _ ← cancel fn; mret (Some (None, None))
  | Elapse others :: sched =>
      _ ← others;
      woken ← is_cancelled fn;
      if (woken : bool) then
        _ ← cancel fn;
        res ← lblockPop_pass db keys whereSeq (S fn);
        match res with
        | Some res => mret (Some res)
        | None => lwait db keys whereSeq (S fn) sched
        end
      else lwait db keys whereSeq fn sched
  end.

Definition lblockPop db (keys : list bytes) (whereSeq : Z) (fn : nat) (sched : list wake) :
    M (option (option (bytes * (bytes * bytes)) * option error)) :=
  res ← lblockPop_pass db keys whereSeq fn;
  match res with
  | Some res => mret (Some res)
  | None => lwait db keys whereSeq fn sched
  end.

Definition BLPop db (keys : list bytes) (fn : nat) (sched : list wake) := lblockPop db keys listHeadSeq fn sched.
Definition BRPop db (keys : list bytes) (fn : nat) (sched : list wake) := lblockPop db keys listTailSeq fn sched.

End Ops.

(** * The list a key holds *)

Definition meta_bytes (headSeq tailSeq : Z) : bytes := le_put 4 (uint32 headSeq) ++ le_put 4 (uint32 tailSeq).

(** The key [key] holds the elements [l], the first one at the sequence number [head]; an
    empty list has no entry at all. *)
Record list_at (db : DB) (m : gmap bytes bytes) (key : bytes) (head : Z) (l : list bytes) : Prop := {
  la_empty : l = [] -> head = listInitialSeq;
  la_bounds : l <> [] -> listMinSeq < head /\ head + len l - 1 < listMaxSeq;
  la_meta : m !! lEncodeMetaKey db key = match l with [] => None | _ => Some (meta_bytes head (head + len l - 1)) end;
  la_items : forall seq, in_i32 seq ->
    m !! lEncodeListKey db key seq = if head <=? seq then l !! Z.to_nat (seq - head) else None
}.

Definition list_rep (db : DB) (m : gmap bytes bytes) (key : bytes) (l : list bytes) : Prop :=
  exists head, list_at db m key head l.

(** The sequence number of the last element, of the initial one for an empty list. *)
Definition ltail (head : Z) (l : list bytes) : Z := head + Z.max 0 (len l - 1).

Definition signal_env (key : bytes) (e : Env) : Env :=
  match lbkeys e !! key with
  | None => e
  | Some fns => mkEnv (now e) (nc e) (delete key (lbkeys e)) (cancelled e ++ fns)
  end.

Lemma list_seq_range head l db m key : list_at db m key head l ->
  listMinSeq < head /\ ltail head l < listMaxSeq /\ in_i32 head /\ in_i32 (ltail head l) /\ len l < listMaxSeq.
Proof.
  intros [He Hb _ _]. unfold ltail, in_i32 in *. destruct l as [|x l].
  - rewrite He by done. vm_compute. repeat split; congruence.
  - destruct Hb as [H1 H2]; [done|]. unfold listMinSeq, listMaxSeq in *. simpl length in *. lia.
Qed.

Lemma le32_get z : in_i32 z -> int32 (le_get (le_put 4 (uint32 z))) = z.
Proof.
  intros. rewrite le_get_put. change (256 ^ Z.of_nat 4) with (2 ^ 32).
  change ((uint32 z) mod 2 ^ 32) with (uint32 (uint32 z)).
  rewrite (uwrap_small 32 (uint32 z)) by (apply uwrap_range; lia). by apply int32_uint32.
Qed.

Lemma list_meta_bytes h t :
  in_i32 h -> in_i32 t -> list_meta (Some (meta_bytes h t)) = Ret (h, t, int32 (int32 (t - h) + 1)).
Proof.
  intros Hh Ht. unfold list_meta, meta_bytes.
  rewrite !slice_some by (rewrite ?length_app, ?le_put_length; lia).
  change (Z.to_nat (4 - 0)) with 4%nat. change (Z.to_nat 0) with 0%nat. change (Z.to_nat (8 - 4)) with 4%nat.
  change (Z.to_nat 4) with 4%nat. rewrite drop_0.
  rewrite take_app_length' by (by rewrite le_put_length).
  rewrite drop_app_length' by (by rewrite le_put_length).
  rewrite take_ge by (by rewrite le_put_length). by rewrite !le32_get.
Qed.

Lemma list_meta_at db m key head l : list_at db m key head l ->
  list_meta (m !! lEncodeMetaKey db key) = Ret (head, ltail head l, len l).
Proof.
  intros Hl. pose proof (list_seq_range _ _ _ _ _ Hl) as (H1 & H2 & H3 & H4 & H5). destruct Hl as [He Hb Hm _].
  unfold listMinSeq, listMaxSeq, ltail in *. rewrite Hm. destruct l as [|x l].
  { rewrite He by done. done. }
  simpl length in *. rewrite list_meta_bytes; [|done|].
  2:{ replace (head + Z.of_nat (S (length l)) - 1) with (head + Z.max 0 (Z.of_nat (S (length l)) - 1)) by lia. done. }
  replace (head + Z.of_nat (S (length l)) - 1 - head) with (Z.of_nat (length l)) by lia.
  rewrite (int32_small (Z.of_nat (length l))), int32_small by (unfold in_i32 in *; lia).
  do 2 f_equal; [|lia]. f_equal. lia.
Qed.

Lemma empty_list db m key :
  m !! lEncodeMetaKey db key = None -> (forall seq, in_i32 seq -> m !! lEncodeListKey db key seq = None) ->
  list_at db m key listInitialSeq [].
Proof. intros Hm Hi. split; [done|done|done|]. intros seq Hs. rewrite Hi by done. by destruct (_ <=? _). Qed.

Section Spec.
Context {B : Backend} {BS : BackendSpec B}.
Implicit Types (db : DB) (key value : bytes) (m : gmap bytes bytes) (e : Env) (l : list bytes).

Lemma wp_lGetMeta db key head l (Q : Z * Z * Z * option error -> _ -> _ -> _ -> Prop) m b e :
  list_at db m key head l -> Q (head, ltail head l, len l, None) m b e ->
  wp (lGetMeta (lEncodeMetaKey db key)) Q m b e.
Proof. intros Hl HQ. unfold lGetMeta. wp_auto. rewrite (list_meta_at _ _ _ _ _ Hl). by wp_auto. Qed.

Lemma wp_lGetMeta_it db key head l it (Q : cursor * (Z * Z * Z) -> _ -> _ -> _ -> Prop) m b e :
  list_at db m key head l -> snap it = sorted_entries m ->
  (forall it', snap it' = sorted_entries m -> Q (it', (head, ltail head l, len l)) m b e) ->
  wp (lGetMeta_it it (lEncodeMetaKey db key)) Q m b e.
Proof.
  intros Hl Hs HQ. unfold lGetMeta_it. destruct (Find_lookup m it (lEncodeMetaKey db key) Hs) as [Hv Hs'].
  destruct (Find it _) as [it' v]. cbn [fst snd] in *. subst v. wp_auto.
  rewrite (list_meta_at _ _ _ _ _ Hl). wp_auto. by apply HQ.
Qed.

(** The record [lSetMeta] queues. *)
Definition meta_ops db key (h t : Z) : list BatchOp :=
  if t - h + 1 <? 0 then []
  else if t - h + 1 =? 0 then [OpDelete (lEncodeMetaKey db key)]
  else [OpPut (lEncodeMetaKey db key) (meta_bytes h t)].

Lemma wp_lSetMeta db key h t (Q : Z -> _ -> _ -> _ -> Prop) m b e :
  in_i32 (t - h) -> in_i32 (t - h + 1) ->
  Q (t - h + 1) m (add_ops listBatch (meta_ops db key h t) b) e -> wp (lSetMeta (lEncodeMetaKey db key) h t) Q m b e.
Proof.
  intros H1 H2 HQ. unfold lSetMeta, meta_ops in *. rewrite (int32_small (t - h)), int32_small by done.
  destruct (t - h + 1 <? 0); [|destruct (t - h + 1 =? 0)]; wp_auto; [|done..].
  unfold add_ops in HQ. by rewrite app_nil_r, set_ops_same in HQ.
Qed.

Lemma wp_lSignal key (Q : unit -> _ -> _ -> _ -> Prop) m b e :
  Q tt m b (signal_env key e) -> wp (lSignalAsReady key) Q m b e.
Proof.
  intros HQ st Hst. unfold lSignalAsReady, signal_env in *. rewrite (at_env _ _ _ _ Hst).
  destruct (lbkeys e !! key); do 5 eexists; (split; [done|]); (split; [|exact HQ]); [by eapply at_with_env|done].
Qed.

(** ** Pushing *)

Definition push_ops db key (seq delta : Z) (args : list bytes) : list BatchOp :=
  map (fun p => OpPut (lEncodeListKey db key (seq + p.1 * delta)) p.2) (imap (fun i a => (Z.of_nat i, a)) args).

Lemma elem_of_args (args : list bytes) p :
  p ∈ imap (fun i a => (Z.of_nat i, a)) args -> 0 <= p.1 < len args /\ args !! Z.to_nat p.1 = Some p.2.
Proof.
  intros (i & a & -> & Ha)%elem_of_lookup_imap. simpl. rewrite Nat2Z.id.
  pose proof (lookup_lt_Some _ _ _ Ha). split; [lia|done].
Qed.

Lemma wp_push_items db key seq delta args (Q : unit -> _ -> _ -> _ -> Prop) m b e :
  (forall i, 0 <= i < len args -> in_i32 i /\ in_i32 (i * delta) /\ in_i32 (seq + i * delta)) ->
  Q tt m (add_ops listBatch (push_ops db key seq delta args) b) e -> wp (push_items db key seq delta args) Q m b e.
Proof.
  intros Hr HQ. unfold push_items.
  apply (wp_for_each listBatch (fun p => [OpPut (lEncodeListKey db key (seq + p.1 * delta)) p.2])).
  - intros [i a] b1 Q1 Hin HQ1. apply elem_of_args in Hin as [Hi _]. simpl in *.
    destruct (Hr i Hi) as (R1 & R2 & R3). rewrite (int32_small i), (int32_small (i * delta)), int32_small by done. by wp_auto.
  - unfold push_ops in HQ. by rewrite concat_singletons.
Qed.

Lemma wp_push_any db key seq delta args (Q : unit -> _ -> _ -> _ -> Prop) m b e :
  (forall ops, Q tt m (add_ops listBatch ops b) e) -> wp (push_items db key seq delta args) Q m b e.
Proof.
  intros HQ. unfold push_items.
  eapply (wp_for_each listBatch (fun '(i, a) => [OpPut (lEncodeListKey db key (int32 (seq + int32 (int32 i * delta)))) a])); [|apply HQ].
  intros [i a] b1 Q1 _ HQ1. by wp_auto.
Qed.

Lemma push_lookup db key seq delta args m s :
  short key -> in_i32 s -> delta = 1 \/ delta = -1 ->
  (forall i, 0 <= i < len args -> in_i32 (seq + i * delta)) ->
  apply_ops (push_ops db key seq delta args) m !! lEncodeListKey db key s =
  if (0 <=? (s - seq) * delta) && ((s - seq) * delta <? len args)
  then args !! Z.to_nat ((s - seq) * delta) else m !! lEncodeListKey db key s.
Proof.
  intros Hk Hs Hd Hr. unfold push_ops. set (j := (s - seq) * delta).
  assert (Hj : seq + j * delta = s) by (unfold j; destruct Hd as [-> | ->]; lia).
  assert (Hinj : forall p, p ∈ imap (fun i a => (Z.of_nat i, a)) args ->
    lEncodeListKey db key (seq + p.1 * delta) = lEncodeListKey db key s -> p.1 = j).
  { intros p [Hp _]%elem_of_args E. apply (encode_inj db (LItem key _) (LItem key _)) in E; [|simpl; auto..].
    injection E as E. destruct Hd as [-> | ->]; lia. }
  destruct (_ && _) eqn:Ej; zify_bool.
  - destruct (lookup_lt_is_Some_2 args (Z.to_nat j) ltac:(lia)) as [a Ha]. rewrite Ha.
    refine (apply_puts_in (fun p => lEncodeListKey db key (seq + p.1 * delta)) snd _ m _ (j, a) _ _ _).
    + apply elem_of_lookup_imap. exists (Z.to_nat j), a. split; [|done]. by rewrite Z2Nat.id by lia.
    + simpl. by rewrite Hj.
    + intros p Hp E. pose proof (Hinj p Hp E) as Ep. apply elem_of_args in Hp as [_ Hp].
      rewrite Ep, Ha in Hp. by injection Hp.
  - apply apply_map_other. intros p Hp E. simpl in E. pose proof (Hinj p Hp E) as Ep.
    apply elem_of_args in Hp as [Hp _]. apply andb_false_iff in Ej as [Ej|Ej]; zify_bool; lia.
Qed.

Lemma push_ops_meta db key seq delta args m :
  short key -> (forall i, 0 <= i < len args -> in_i32 (seq + i * delta)) ->
  apply_ops (push_ops db key seq delta args) m !! lEncodeMetaKey db key = m !! lEncodeMetaKey db key.
Proof.
  intros Hk Hr. apply apply_map_other. intros p [Hp _]%elem_of_args. simpl. key_ne.
Qed.

Lemma ops_for_push db key seq delta args :
  short key -> (forall i, 0 <= i < len args -> in_i32 (seq + i * delta)) ->
  ops_for db ListType key (push_ops db key seq delta args).
Proof.
  intros Hk Hr. apply (ops_for_map _ _ _ _ (fun p => LItem key (seq + p.1 * delta))).
  intros p [Hp _]%elem_of_args. simpl. auto.
Qed.

(** What a push at the given end leaves in the store. *)
Definition pushed db m key (seq delta : Z) (args : list bytes) (h t : Z) : gmap bytes bytes :=
  apply_ops (push_ops db key seq delta args ++ [OpPut (lEncodeMetaKey db key) (meta_bytes h t)]) m.

Lemma pushed_keeps db m key seq delta args h t :
  short key -> (forall i, 0 <= i < len args -> in_i32 (seq + i * delta)) ->
  keeps db ListType key m (pushed db m key seq delta args h t).
Proof.
  intros Hk Hr. apply keeps_ops, ops_for_app; [by apply ops_for_push|].
  by apply (ops_for_cons _ _ _ _ _ (LMeta key)); [..|constructor].
Qed.

Lemma pushed_item db m key seq delta args h t s :
  short key -> in_i32 s ->
  pushed db m key seq delta args h t !! lEncodeListKey db key s =
  apply_ops (push_ops db key seq delta args) m !! lEncodeListKey db key s.
Proof. intros Hk Hs. unfold pushed. rewrite apply_ops_app. simpl. apply lookup_insert_ne. key_ne. Qed.

Lemma pushed_meta db m key seq delta args h t :
  pushed db m key seq delta args h t !! lEncodeMetaKey db key = Some (meta_bytes h t).
Proof. unfold pushed. rewrite apply_ops_app. simpl. apply lookup_insert_eq. Qed.

Lemma RPush_exec db key args head l m e :
  checkKeySize key = None -> list_at db m key head l -> args <> [] -> in_i32 (len args) ->
  head + len l + len args - 1 < listMaxSeq ->
  exec (RPush db key args) m e (len l + len args, None)
    (pushed db m key (head + len l) 1 args head (head + len l + len args - 1)) (signal_env key e).
Proof.
  intros Hk Hl Hne Hn Hb. pose proof (list_seq_range _ _ _ _ _ Hl) as (H1 & H2 & H3 & H4 & H5).
  assert (0 < len args) by (destruct args; [done|simpl; lia]).
  unfold listMinSeq, listMaxSeq, in_i32 in *. unfold exec, RPush, lpush. rewrite Hk. wp_auto.
  eapply wp_lGetMeta; [exact Hl|]. cbv iota beta. rewrite (proj2 (Z.eqb_neq (len args) 0)) by lia.
  change (listTailSeq =? listTailSeq) with true. change (listTailSeq =? listHeadSeq) with false. cbv iota zeta.
  assert ((if len l >? 0 then int32 (ltail head l + 1) else ltail head l) = head + len l) as ->.
  { unfold ltail in *. case_if; [rewrite int32_small by (unfold in_i32; lia)|]; lia. }
  wp_auto. apply wp_push_items; [intros i Hi; unfold in_i32; lia|]. cbv beta.
  rewrite (int32_small (len args - 1)) by (unfold in_i32; lia).
  rewrite (int32_small ((len args - 1) * 1)), int32_small by (unfold in_i32; lia).
  replace (head + len l + (len args - 1) * 1) with (head + len l + len args - 1) by lia.
  destruct (_ || _) eqn:E.
  { apply orb_true_iff in E as [E|E]; zify_bool; unfold listMinSeq, listMaxSeq in *; lia. }
  wp_auto. apply wp_lSetMeta; [unfold in_i32; lia..|]. wp_auto. cbn [negb is_err]. apply wp_lSignal. wp_auto.
  unfold meta_ops. rewrite (proj2 (Z.ltb_ge (_ - _ + 1) 0)), (proj2 (Z.eqb_neq (_ - _ + 1) 0)) by lia. done.
Qed.

(** The sequence number of the first element pushed at the head. *)
Definition lhead (head : Z) (l : list bytes) : Z := head - Z.min 1 (len l).

Lemma LPush_exec db key args head l m e :
  checkKeySize key = None -> list_at db m key head l -> args <> [] -> in_i32 (len args) ->
  listMinSeq < lhead head l - (len args - 1) ->
  exec (LPush db key args) m e (len l + len args, None)
    (pushed db m key (lhead head l) (-1) args (lhead head l - (len args - 1)) (ltail head l)) (signal_env key e).
Proof.
  intros Hk Hl Hne Hn Hb. pose proof (list_seq_range _ _ _ _ _ Hl) as (H1 & H2 & H3 & H4 & H5).
  assert (0 < len args) by (destruct args; [done|simpl; lia]).
  unfold listMinSeq, listMaxSeq, in_i32, ltail, lhead in *. unfold exec, LPush, lpush. rewrite Hk. wp_auto.
  eapply wp_lGetMeta; [exact Hl|]. cbv iota beta. rewrite (proj2 (Z.eqb_neq (len args) 0)) by lia.
  change (listHeadSeq =? listTailSeq) with false. change (listHeadSeq =? listHeadSeq) with true. cbv iota zeta.
  assert ((if len l >? 0 then int32 (head + -1) else head) = head - Z.min 1 (len l)) as ->.
  { case_if; [rewrite int32_small by (unfold in_i32; lia)|]; lia. }
  wp_auto. apply wp_push_items; [intros i Hi; unfold in_i32; lia|]. cbv beta.
  rewrite (int32_small (len args - 1)) by (unfold in_i32; lia).
  rewrite (int32_small ((len args - 1) * -1)), int32_small by (unfold in_i32; lia).
  replace (head - Z.min 1 (len l) + (len args - 1) * -1) with (head - Z.min 1 (len l) - (len args - 1)) by lia.
  destruct (_ || _) eqn:E.
  { apply orb_true_iff in E as [E|E]; zify_bool; unfold listMinSeq, listMaxSeq in *; lia. }
  wp_auto. apply wp_lSetMeta; [unfold in_i32, ltail; lia..|]. wp_auto. cbn [negb is_err]. apply wp_lSignal. wp_auto.
  unfold meta_ops, ltail. rewrite (proj2 (Z.ltb_ge (_ - _ + 1) 0)), (proj2 (Z.eqb_neq (_ - _ + 1) 0)) by lia. done.
Qed.

(** Running out of sequence numbers is an error that leaves everything unchanged. *)
Lemma RPush_overflow db key args head l m e :
  checkKeySize key = None -> list_at db m key head l -> args <> [] -> in_i32 (len args) ->
  listMaxSeq <= head + len l + len args - 1 ->
  exec (RPush db key args) m e (0, Some errListSeq) m e.
Proof.
  intros Hk Hl Hne Hn Hb. pose proof (list_seq_range _ _ _ _ _ Hl) as (H1 & H2 & H3 & H4 & H5).
  assert (0 < len args) by (destruct args; [done|simpl; lia]).
  unfold listMinSeq, listMaxSeq, in_i32 in *. unfold exec, RPush, lpush. rewrite Hk. wp_auto.
  eapply wp_lGetMeta; [exact Hl|]. cbv iota beta. rewrite (proj2 (Z.eqb_neq (len args) 0)) by lia.
  change (listTailSeq =? listTailSeq) with true. cbv iota zeta.
  assert ((if len l >? 0 then int32 (ltail head l + 1) else ltail head l) = head + len l) as ->.
  { unfold ltail in *. case_if; [rewrite int32_small by (unfold in_i32; lia)|]; lia. }
  wp_auto. apply wp_push_any. intros ops. cbv beta.
  rewrite (int32_small (len args - 1)) by (unfold in_i32; lia).
  rewrite (int32_small ((len args - 1) * 1)) by (unfold in_i32; lia).
  assert (Hc : (int32 (head + len l + (len args - 1) * 1) <=? listMinSeq) || (int32 (head + len l + (len args - 1) * 1) >=? listMaxSeq) = true).
  { unfold listMinSeq, listMaxSeq. apply orb_true_iff. destruct (decide (head + len l + len args - 1 < 2 ^ 31)).
    - right. rewrite int32_small by (unfold in_i32; lia). rewrite Z.geb_leb. apply Z.leb_le. lia.
    - left. apply Z.leb_le. unfold swrap, ltail in *. change (2 ^ (32 - 1)) with (2 ^ 31).
      replace (head + len l + (len args - 1) * 1 + 2 ^ 31) with ((head + len l + len args - 1 - 2 ^ 31) + 1 * 2 ^ 32) by lia.
      rewrite Z.mod_add, Z.mod_small by lia. lia. }
  rewrite Hc. wp_auto. done.
Qed.

Lemma LPush_overflow db key args head l m e :
  checkKeySize key = None -> list_at db m key head l -> args <> [] -> in_i32 (len args) ->
  lhead head l - (len args - 1) <= listMinSeq ->
  exec (LPush db key args) m e (0, Some errListSeq) m e.
Proof.
  intros Hk Hl Hne Hn Hb. pose proof (list_seq_range _ _ _ _ _ Hl) as (H1 & H2 & H3 & H4 & H5).
  assert (0 < len args) by (destruct args; [done|simpl; lia]).
  unfold listMinSeq, listMaxSeq, in_i32, ltail, lhead in *. unfold exec, LPush, lpush. rewrite Hk. wp_auto.
  eapply wp_lGetMeta; [exact Hl|]. cbv iota beta. rewrite (proj2 (Z.eqb_neq (len args) 0)) by lia.
  change (listHeadSeq =? listTailSeq) with false. cbv iota zeta.
  assert ((if len l >? 0 then int32 (head + -1) else head) = head - Z.min 1 (len l)) as ->.
  { case_if; [rewrite int32_small by (unfold in_i32; lia)|]; lia. }
  wp_auto. apply wp_push_any. intros ops. cbv beta.
  rewrite (int32_small (len args - 1)) by (unfold in_i32; lia).
  rewrite (int32_small ((len args - 1) * -1)), int32_small by (unfold in_i32; lia).
  rewrite (proj2 (Z.leb_le (_ + _) listMinSeq)) by (unfold listMinSeq; lia). cbn [orb]. wp_auto. done.
Qed.

Lemma RPush_list_at db m key head l args :
  short key -> list_at db m key head l -> args <> [] -> head + len l + len args - 1 < listMaxSeq ->
  list_at db (pushed db m key (head + len l) 1 args head (head + len l + len args - 1)) key head (l ++ args).
Proof.
  intros Hk Hl Hne Hb. pose proof (list_seq_range _ _ _ _ _ Hl) as (H1 & H2 & H3 & H4 & H5). destruct Hl as [He Hbd Hm Hi].
  assert (0 < len args) by (destruct args; [done|simpl; lia]).
  assert (Hr : forall i, 0 <= i < len args -> in_i32 (head + len l + i * 1)).
  { intros. unfold in_i32, listMinSeq, listMaxSeq in *. lia. }
  split.
  - by intros [_ ?]%app_eq_nil.
  - intros _. rewrite length_app. lia.
  - rewrite pushed_meta, length_app. destruct (l ++ args) eqn:E; [by apply app_eq_nil in E as [_ ?]|]. do 3 f_equal. lia.
  - intros seq Hs. rewrite pushed_item, push_lookup, Hi by auto. rewrite Z.mul_1_r.
    destruct (_ && _) eqn:E; zify_bool.
    + rewrite (proj2 (Z.leb_le head seq)) by lia. rewrite lookup_app_r by lia. f_equal. lia.
    + destruct (head <=? seq) eqn:E1; zify_bool; [|done]. apply andb_false_iff in E as [E|E]; zify_bool.
      * by rewrite lookup_app_l by lia.
      * rewrite !lookup_ge_None_2 by (rewrite ?length_app; lia). done.
Qed.

Lemma LPush_list_at db m key head l args :
  short key -> list_at db m key head l -> args <> [] -> listMinSeq < lhead head l - (len args - 1) ->
  list_at db (pushed db m key (lhead head l) (-1) args (lhead head l - (len args - 1)) (ltail head l)) key
    (lhead head l - (len args - 1)) (reverse args ++ l).
Proof.
  intros Hk Hl Hne Hb. pose proof (list_seq_range _ _ _ _ _ Hl) as (H1 & H2 & H3 & H4 & H5). destruct Hl as [He Hbd Hm Hi].
  assert (0 < len args) by (destruct args; [done|simpl; lia]). unfold lhead, ltail in *.
  assert (Hr : forall i, 0 <= i < len args -> in_i32 (head - Z.min 1 (len l) + i * -1)).
  { intros. unfold in_i32, listMinSeq, listMaxSeq in *. lia. }
  split.
  - intros E%(f_equal length). rewrite length_app, length_reverse in E. simpl in E. lia.
  - intros _. rewrite length_app, length_reverse. lia.
  - rewrite pushed_meta, length_app, length_reverse. destruct (reverse args ++ l) eqn:E.
    { apply (f_equal length) in E. rewrite length_app, length_reverse in E. simpl in E. lia. }
    do 3 f_equal. lia.
  - intros seq Hs. rewrite pushed_item, push_lookup, Hi by auto. destruct (_ && _) eqn:E; zify_bool.
    + rewrite (proj2 (Z.leb_le _ seq)) by lia. rewrite lookup_app_l by (rewrite length_reverse; lia).
      rewrite reverse_lookup by lia. f_equal. lia.
    + apply andb_false_iff in E as [E|E]; zify_bool.
      * rewrite !(proj2 (Z.leb_le _ seq)) by lia. rewrite lookup_app_r by (rewrite length_reverse; lia).
        rewrite length_reverse. destruct l; [by rewrite !lookup_nil|]. simpl length in *. f_equal. lia.
      * rewrite !(proj2 (Z.leb_gt _ seq)) by lia. done.
Qed.

(** ** Removing elements *)

(** Deleting the elements [dels] and narrowing the meta entry; an empty list loses its
    expiration too. *)
Definition shrink_ops db m key (dels : list Z) (h t : Z) : list BatchOp :=
  map (fun s => OpDelete (lEncodeListKey db key s)) dels ++ meta_ops db key h t ++
  (if t - h + 1 =? 0 then rm_ops db m ListType key else []).

Lemma shrink_keeps db m key dels h t :
  short key -> (forall s, s ∈ dels -> in_i32 s) -> keeps db ListType key m (apply_ops (shrink_ops db m key dels h t) m).
Proof.
  intros Hk Hd. apply keeps_ops, ops_for_app; [|apply ops_for_app].
  - apply (ops_for_map _ _ _ _ (fun s => LItem key s)). intros s Hs. simpl. auto.
  - unfold meta_ops. destruct (_ <? 0); [|destruct (_ =? 0)]; [constructor|..];
      (apply (ops_for_cons _ _ _ _ _ (LMeta key)); [done..|constructor]).
  - destruct (_ =? 0); [apply ops_for_rm|constructor].
Qed.

Lemma shrink_item db m key dels h t s :
  short key -> in_i32 s -> (forall s, s ∈ dels -> in_i32 s) ->
  apply_ops (shrink_ops db m key dels h t) m !! lEncodeListKey db key s =
  if decide (s ∈ dels) then None else m !! lEncodeListKey db key s.
Proof.
  intros Hk Hs Hd. unfold shrink_ops. rewrite !apply_ops_app.
  assert (Hrm : forall m1, apply_ops (if t - h + 1 =? 0 then rm_ops db m ListType key else []) m1 !! lEncodeListKey db key s
    = m1 !! lEncodeListKey db key s).
  { intros m1. destruct (_ =? 0); [|done]. by apply (apply_rm_other db m ListType key m1 (LItem key s)). }
  rewrite Hrm. assert (Hme : forall m1, apply_ops (meta_ops db key h t) m1 !! lEncodeListKey db key s = m1 !! lEncodeListKey db key s).
  { intros m1. unfold meta_ops. destruct (_ <? 0); [done|]. destruct (_ =? 0); simpl.
    - apply lookup_delete_ne. key_ne. - apply lookup_insert_ne. key_ne. }
  rewrite Hme. case_decide as Hin; [by apply apply_dels_in; exists s|].
  apply apply_map_other. intros s' Hs' E. apply (encode_inj db (LItem key s') (LItem key s)) in E; simpl; auto.
  injection E as ->. done.
Qed.

Lemma shrink_meta db m key dels h t :
  short key -> 0 <= t - h + 1 -> (forall s, s ∈ dels -> in_i32 s) ->
  apply_ops (shrink_ops db m key dels h t) m !! lEncodeMetaKey db key =
  if t - h + 1 =? 0 then None else Some (meta_bytes h t).
Proof.
  intros Hk Hs Hd. unfold shrink_ops. rewrite !apply_ops_app.
  assert (Hrm : forall m1, apply_ops (if t - h + 1 =? 0 then rm_ops db m ListType key else []) m1 !! lEncodeMetaKey db key
    = m1 !! lEncodeMetaKey db key).
  { intros m1. destruct (_ =? 0); [|done]. by apply (apply_rm_other db m ListType key m1 (LMeta key)). }
  rewrite Hrm. unfold meta_ops. rewrite (proj2 (Z.ltb_ge _ 0)) by done. destruct (_ =? 0); simpl.
  - apply lookup_delete_eq. - apply lookup_insert_eq.
Qed.

(** The elements from index [a] up to [b] are kept. *)
Definition sublist (l : list bytes) (a b : Z) : list bytes := take (Z.to_nat (b - a)) (drop (Z.to_nat a) l).

Lemma sublist_length l a b : 0 <= a -> a <= b -> b <= len l -> len (sublist l a b) = b - a.
Proof. intros. unfold sublist. rewrite length_take, length_drop. lia. Qed.

Lemma sublist_lookup l a b i : 0 <= a -> b <= len l ->
  sublist l a b !! i = if Z.of_nat i <? b - a then l !! (Z.to_nat a + i)%nat else None.
Proof.
  intros Ha Hb. unfold sublist. case_if.
  - rewrite lookup_take_lt by lia. apply lookup_drop.
  - apply lookup_take_ge. lia.
Qed.

Lemma shrink_list_at db m key head l dels a b :
  short key -> list_at db m key head l -> 0 <= a <= b -> b <= len l ->
  (forall s, s ∈ dels -> in_i32 s /\ ~ (head + a <= s < head + b)) ->
  (forall s, head <= s < head + len l -> ~ (head + a <= s < head + b) -> s ∈ dels) ->
  list_at db (apply_ops (shrink_ops db m key dels (head + a) (head + b - 1)) m) key
    (if a =? b then listInitialSeq else head + a) (sublist l a b).
Proof.
  intros Hk Hl Ha Hb Hd1 Hd2. pose proof (list_seq_range _ _ _ _ _ Hl) as (H1 & H2 & H3 & H4 & H5).
  destruct Hl as [He Hbd Hm Hi]. unfold ltail in *. assert (Hlen : len (sublist l a b) = b - a) by (apply sublist_length; lia).
  assert (Hd : forall s, s ∈ dels -> in_i32 s) by (intros s Hs; by apply Hd1).
  split.
  - intros E. rewrite E in Hlen. simpl in Hlen. by rewrite (proj2 (Z.eqb_eq a b)) by lia.
  - intros Hne. rewrite Hlen. destruct (Z.eqb_spec a b) as [->|]; [|lia].
    destruct (sublist l b b); [done|]. simpl in Hlen. lia.
  - rewrite shrink_meta by (done || lia). destruct (Z.eqb_spec a b) as [->|Hab].
    + rewrite (proj2 (Z.eqb_eq _ 0)) by lia. destruct (sublist l b b); [done|]. simpl in Hlen. lia.
    + rewrite (proj2 (Z.eqb_neq _ 0)) by lia. rewrite Hlen. destruct (sublist l a b); [simpl in Hlen; lia|].
      do 3 f_equal; lia.
  - intros s Hs. rewrite shrink_item, sublist_lookup by (done || lia). rewrite Hi by done.
    destruct (Z.eqb_spec a b) as [->|Hab].
    + rewrite (proj2 (Z.ltb_ge _ (b - b))) by lia. assert (HN : (if decide (s ∈ dels) then None else
        if head <=? s then l !! Z.to_nat (s - head) else None) = None).
      { case_decide as Hin; [done|]. case_if; [|done]. apply lookup_ge_None_2.
        destruct (decide (s < head + len l)); [|lia]. exfalso. apply Hin, Hd2; lia. }
      rewrite HN. destruct (listInitialSeq <=? s); done.
    + case_decide as Hin.
      * destruct (Hd1 s Hin) as [_ Hn]. destruct (head + a <=? s) eqn:E; zify_bool; [|done].
        by rewrite (proj2 (Z.ltb_ge _ (b - a))) by lia.
      * destruct (decide (head + a <= s < head + b)) as [Hr|Hr].
        -- rewrite !(proj2 (Z.leb_le _ s)) by lia. rewrite (proj2 (Z.ltb_lt _ (b - a))) by lia. f_equal. lia.
        -- assert (HN : (if head <=? s then l !! Z.to_nat (s - head) else None) = None).
           { case_if; [|done]. apply lookup_ge_None_2. destruct (decide (s < head + len l)); [|lia].
             exfalso. apply Hin, Hd2; lia. }
           rewrite HN. destruct (head + a <=? s) eqn:E; zify_bool; [|done].
           by rewrite (proj2 (Z.ltb_ge _ (b - a))) by lia.
Qed.

(** The end of every removal: narrow the meta entry, drop the expiration of an empty list,
    commit. *)
Lemma wp_shrink {A} db key dels h t (k : option error -> M A) (Q : A -> _ -> _ -> _ -> Prop) m e :
  in_i32 (t - h) -> in_i32 (t - h + 1) ->
  (forall b, ops_of listBatch b = shrink_ops db m key dels h t -> set_ops listBatch [] b = no_ops ->
     wp (k None) Q (apply_ops (shrink_ops db m key dels h t) m) b e) ->
  wp (lSetMeta (lEncodeMetaKey db key) h t)
    (fun size => wp (
      _ ← (if size =? 0 then rmExpire db listBatch ListType key else mret (0, None));
      err ← batch_Commit listBatch; k err) Q) m
    (add_ops listBatch (map (fun s => OpDelete (lEncodeListKey db key s)) dels) no_ops) e.
Proof.
  intros H1 H2 HQ. apply wp_lSetMeta; [done..|]. apply wp_bind.
  assert (Hs : forall o, (if t - h + 1 =? 0 then rm_ops db m ListType key else []) = o ->
    wp (err ← batch_Commit listBatch; k err) Q m (add_ops listBatch o (add_ops listBatch (meta_ops db key h t)
      (add_ops listBatch (map (fun s => OpDelete (lEncodeListKey db key s)) dels) no_ops))) e).
  { intros o Ho. rewrite !add_ops_add. apply wp_bind, wp_Commit. rewrite ops_of_add, ops_of_no_ops, app_nil_l.
    unfold shrink_ops in HQ. rewrite Ho in HQ. apply HQ; [|by rewrite set_ops_add]. by rewrite ops_of_add. }
  destruct (t - h + 1 =? 0).
  - apply wp_rmExpire. by apply Hs.
  - apply wp_ret. specialize (Hs [] eq_refl). unfold add_ops at 1 in Hs. by rewrite app_nil_r, set_ops_same in Hs.
Qed.

Lemma lpop_empty db key whereSeq head m e :
  checkKeySize key = None -> list_at db m key head [] -> exec (lpop db key whereSeq) m e (None, None) m e.
Proof.
  intros Hk Hl. unfold exec, lpop. rewrite Hk. wp_auto. eapply wp_lGetMeta; [exact Hl|].
  change (len (@nil bytes) =? 0) with true. by wp_auto.
Qed.

Lemma LPop_exec db key head x l m e :
  checkKeySize key = None -> list_at db m key head (x :: l) ->
  exec (LPop db key) m e (Some x, None)
    (apply_ops (shrink_ops db m key [head] (head + 1) (head + len (x :: l) - 1)) m) e.
Proof.
  intros Hk Hl. pose proof (list_seq_range _ _ _ _ _ Hl) as (H1 & H2 & H3 & H4 & H5).
  unfold exec, LPop, lpop. rewrite Hk. wp_auto. eapply wp_lGetMeta; [exact Hl|].
  destruct Hl as [_ _ _ Hi]. unfold in_i32, ltail, listMinSeq, listMaxSeq in *.
  rewrite (proj2 (Z.eqb_neq (len (x :: l)) 0)) by (simpl; lia).
  change (listHeadSeq =? listTailSeq) with false. change (listHeadSeq =? listHeadSeq) with true.
  wp_auto. rewrite Hi by done. rewrite Z.leb_refl, Z.sub_diag. cbn [lookup list_lookup Z.to_nat].
  rewrite (int32_small (head + 1)) by (unfold in_i32; lia).
  replace (head + 0 `max` (len (x :: l) - 1)) with (head + len (x :: l) - 1) by (simpl; lia).
  apply (wp_shrink db key [head] (head + 1) (head + len (x :: l) - 1) (fun err => mret (Some x, err)));
    [unfold in_i32; simpl length in *; lia..|].
  intros b _ Hb. wp_auto. done.
Qed.

Lemma RPop_exec db key head x l m e :
  checkKeySize key = None -> list_at db m key head (l ++ [x]) ->
  exec (RPop db key) m e (Some x, None)
    (apply_ops (shrink_ops db m key [head + len l] (head + 0) (head + len l - 1)) m) e.
Proof.
  intros Hk Hl. pose proof (list_seq_range _ _ _ _ _ Hl) as (H1 & H2 & H3 & H4 & H5).
  unfold exec, RPop, lpop. rewrite Hk. wp_auto. eapply wp_lGetMeta; [exact Hl|].
  destruct Hl as [_ _ _ Hi]. unfold in_i32, ltail, listMinSeq, listMaxSeq in *.
  assert (HL : len (l ++ [x]) = len l + 1) by (rewrite length_app; simpl; lia). rewrite HL in *.
  rewrite (proj2 (Z.eqb_neq (len l + 1) 0)) by lia.
  change (listTailSeq =? listTailSeq) with true. change (listTailSeq =? listHeadSeq) with false.
  replace (head + 0 `max` (len l + 1 - 1)) with (head + len l) in * by lia.
  wp_auto. rewrite Hi by done. rewrite (proj2 (Z.leb_le head _)) by lia.
  rewrite lookup_app_r by lia. replace (Z.to_nat (head + len l - head) - length l)%nat with 0%nat by lia.
  cbn [lookup list_lookup]. rewrite (int32_small (head + len l - 1)) by (unfold in_i32; lia). rewrite Z.add_0_r.
  apply (wp_shrink db key [head + len l] head (head + len l - 1) (fun err => mret (Some x, err)));
    [unfold in_i32; lia..|].
  intros b _ Hb. wp_auto. done.
Qed.

Lemma sublist_tail x l : sublist (x :: l) 1 (len (x :: l)) = l.
Proof. unfold sublist. rewrite take_ge; [done|]. simpl. rewrite length_drop. simpl. lia. Qed.

Lemma sublist_init x l : sublist (l ++ [x]) 0 (len l) = l.
Proof. unfold sublist. rewrite drop_0. apply take_app_length'. lia. Qed.

Lemma LPop_list_at db m key head x l :
  short key -> list_at db m key head (x :: l) ->
  list_rep db (apply_ops (shrink_ops db m key [head] (head + 1) (head + len (x :: l) - 1)) m) key l.
Proof.
  intros Hk Hl. pose proof (list_seq_range _ _ _ _ _ Hl) as (_ & _ & H3 & _). eexists. rewrite <- (sublist_tail x l) at 2.
  eapply (shrink_list_at db m key head (x :: l) [head] 1 (len (x :: l))); [done|done|simpl; lia|lia|..].
  - intros s ->%list_elem_of_singleton. split; [done|lia].
  - intros s Hs Hn. apply list_elem_of_singleton. lia.
Qed.

Lemma RPop_at db m key head x l :
  short key -> list_at db m key head (l ++ [x]) ->
  list_at db (apply_ops (shrink_ops db m key [head + len l] (head + 0) (head + len l - 1)) m) key
    (if 0 =? len l then listInitialSeq else head + 0) l.
Proof.
  intros Hk Hl. pose proof (list_seq_range _ _ _ _ _ Hl) as (_ & _ & _ & H4 & _).
  unfold ltail in H4. rewrite length_app in H4. simpl length in H4.
  replace (head + Z.max 0 (Z.of_nat (length l + 1) - 1)) with (head + len l) in H4 by lia.
  pose proof (shrink_list_at db m key head (l ++ [x]) [head + len l] 0 (len l)) as H. rewrite sublist_init in H.
  apply H; [done|done|lia|rewrite length_app; lia|..].
  - intros s ->%list_elem_of_singleton. split; [done|lia].
  - intros s Hs Hn. rewrite length_app in Hs. simpl in Hs. apply list_elem_of_singleton. lia.
Qed.

(** ** The entries of a list in key order *)

Definition item_pre (db : DB) (key : bytes) : bytes := indexVarBuf db ++ ListType :: name_prefix key.

Lemma lEncodeListKey_split db key s : lEncodeListKey db key s = item_pre db key ++ be_put 4 (uint32 s).
Proof. unfold lEncodeListKey, item_pre, name_prefix. app_norm. Qed.

Lemma list_key_cmp db key s1 s2 :
  0 <= s1 < 2 ^ 31 -> 0 <= s2 < 2 ^ 31 -> bcmp (lEncodeListKey db key s1) (lEncodeListKey db key s2) = (s1 ?= s2).
Proof.
  intros H1 H2. rewrite !lEncodeListKey_split, bcmp_app.
  rewrite <- (app_nil_r (be_put 4 (uint32 s1))), <- (app_nil_r (be_put 4 (uint32 s2))).
  rewrite bcmp_be_put by (change (256 ^ Z.of_nat 4) with (2 ^ 32); apply uwrap_range; lia).
  rewrite !uwrap_nonneg by lia. by destruct (s1 ?= s2).
Qed.

(** In a well keyed store only elements of the list lie between two of its elements. *)
Lemma list_between db m key k v s1 s2 :
  well_keyed db m -> short key -> m !! k = Some v -> 0 <= s1 < 2 ^ 31 -> 0 <= s2 < 2 ^ 31 ->
  ble (lEncodeListKey db key s1) k -> ble k (lEncodeListKey db key s2) ->
  exists s, k = lEncodeListKey db key s /\ s1 <= s <= s2.
Proof.
  intros Hw Hk Hv H1 H2 Ha Hb.
  assert (exists z, k = item_pre db key ++ z) as [z Hz].
  { rewrite lEncodeListKey_split in Ha, Hb. by apply (between_prefix _ _ _ _ Ha Hb). }
  destruct (Hw k v Hv) as (sk & Hsk & E).
  { rewrite Hz. unfold item_pre. rewrite <- app_assoc. by eexists. }
  rewrite Hz, encode_split in E. unfold item_pre in E. rewrite <- app_assoc in E. apply app_inv_head in E.
  cbn [app] in E. apply cons_inv in E as [ET E].
  destruct sk as [| | |key' s| | | | | | | |]; try (vm_compute in ET; discriminate). cbn [tail_of representable] in *.
  destruct Hsk as [Hk' Hs]. apply name_prefix_inj in E as [<- ->]; [|done..]. exists s.
  rewrite <- lEncodeListKey_split in Hz. split; [done|]. subst k.
  rewrite !lEncodeListKey_split in Ha, Hb. apply ble_app in Ha. apply ble_app in Hb. unfold ble in Ha, Hb.
  assert (U : forall x, 0 <= uint32 x < 256 ^ Z.of_nat 4) by (intros; change (256 ^ Z.of_nat 4) with (2 ^ 32); apply uwrap_range; lia).
  rewrite <- (app_nil_r (be_put 4 (uint32 s1))), <- (app_nil_r (be_put 4 (uint32 s))) in Ha.
  rewrite <- (app_nil_r (be_put 4 (uint32 s))), <- (app_nil_r (be_put 4 (uint32 s2))) in Hb.
  rewrite bcmp_be_put in Ha, Hb by apply U. rewrite (uwrap_nonneg 32 s1) in Ha by lia. rewrite (uwrap_nonneg 32 s2) in Hb by lia.
  unfold in_i32 in Hs. destruct (decide (0 <= s)).
  - rewrite uwrap_nonneg in Ha, Hb by lia. destruct (Z.compare_spec s1 s), (Z.compare_spec s s2); done || lia.
  - rewrite uwrap_neg in Hb by lia. destruct (Z.compare_spec (s + 2 ^ 32) s2); done || lia.
Qed.

(** The entries of the elements from index [a] up to [b], in order. *)
Definition item_entries (db : DB) (key : bytes) (head : Z) (l : list bytes) (a b : Z) : list (bytes * bytes) :=
  imap (fun i v => (lEncodeListKey db key (head + a + Z.of_nat i), v)) (sublist l a b).

Lemma elem_of_item_entries db key head l a b k v :
  0 <= a -> b <= len l ->
  (k, v) ∈ item_entries db key head l a b <->
  exists i, a <= i < b /\ k = lEncodeListKey db key (head + i) /\ l !! Z.to_nat i = Some v.
Proof.
  intros Ha Hb. unfold item_entries. rewrite elem_of_lookup_imap. split.
  - intros (i & x & [= -> ->] & Hx). rewrite sublist_lookup in Hx by lia. case_if_in Hx; [|done].
    exists (a + Z.of_nat i). split; [lia|]. split; [f_equal; lia|]. rewrite <- Hx. f_equal. lia.
  - intros (i & Hi & -> & Hx). exists (Z.to_nat (i - a)), v. split.
    + f_equal. f_equal. lia.
    + rewrite sublist_lookup by lia. rewrite (proj2 (Z.ltb_lt _ _)) by lia. rewrite <- Hx. f_equal. lia.
Qed.

Lemma imap_sorted {A} (f : nat -> A -> bytes * bytes) (l : list A) :
  (forall i j x y, l !! i = Some x -> l !! j = Some y -> (i < j)%nat -> blt (f i x).1 (f j y).1) -> sorted_keys (imap f l).
Proof.
  revert f; induction l as [|x l IH]; intros f H; [constructor|]. simpl. apply sorted_keys_cons. split.
  - apply IH. intros i j y z Hi Hj Hij. unfold compose. apply (H (S i) (S j)); [done..|lia].
  - apply Forall_forall. intros e (i & y & -> & Hi)%elem_of_lookup_imap.
    unfold compose. apply (H 0%nat (S i)); [done..|lia].
Qed.

Lemma item_entries_sorted db key head l a b :
  0 <= a -> a <= b -> b <= len l -> 0 <= head -> head + b <= 2 ^ 31 -> sorted_keys (item_entries db key head l a b).
Proof.
  intros Ha Hab Hb Hh Ht. apply imap_sorted. intros i j x y Hi Hj Hij. simpl.
  apply lookup_lt_Some in Hi, Hj. pose proof (sublist_length l a b Ha Hab Hb) as HL. unfold blt.
  rewrite list_key_cmp by lia. apply Z.compare_lt_iff. lia.
Qed.

Lemma list_range db m key head l a b ys :
  well_keyed db m -> short key -> list_at db m key head l -> 0 <= a -> a < b -> b <= len l ->
  (forall k v, m !! k = Some v -> in_range (mkRange (Some (lEncodeListKey db key (head + a))) ys RangeClose) (k, v) = true ->
     ble k (lEncodeListKey db key (head + b - 1)) -> (k, v) ∈ item_entries db key head l a b) /\
  forall k v, (k, v) ∈ item_entries db key head l a b -> m !! k = Some v /\
    ble (lEncodeListKey db key (head + a)) k /\ ble k (lEncodeListKey db key (head + b - 1)).
Proof.
  intros Hw Hk Hl Ha Hab Hb. pose proof (list_seq_range _ _ _ _ _ Hl) as (H1 & H2 & H3 & H4 & H5).
  destruct Hl as [_ _ _ Hi]. unfold ltail, listMinSeq, listMaxSeq in *. split.
  - intros k v Hv Hr Hle. unfold in_range, above_min in Hr. simpl in Hr. apply andb_true_iff in Hr as [Hge _].
    apply bool_decide_eq_true in Hge.
    destruct (list_between db m key k v (head + a) (head + b - 1) Hw Hk Hv) as (s & -> & Hs); [lia|lia|done|done|].
    rewrite Hi in Hv by (unfold in_i32; lia). rewrite (proj2 (Z.leb_le head s)) in Hv by lia.
    apply elem_of_item_entries; [lia|lia|]. exists (s - head). split; [lia|]. split; [f_equal; lia|done].
  - intros k v (i & Hr & -> & Hx)%elem_of_item_entries; [|lia|lia]. split; [|split].
    + rewrite Hi by (unfold in_i32; lia). rewrite (proj2 (Z.leb_le _ _)) by lia. rewrite <- Hx. f_equal. lia.
    + unfold ble. rewrite list_key_cmp by lia. destruct (Z.compare_spec (head + a) (head + i)); done || lia.
    + unfold ble. rewrite list_key_cmp by lia. destruct (Z.compare_spec (head + i) (head + b - 1)); done || lia.
Qed.

Lemma sublist_all l : sublist l 0 (len l) = l.
Proof. unfold sublist. rewrite drop_0. apply take_ge. lia. Qed.

Lemma list_close_range db m key head l :
  well_keyed db m -> short key -> list_at db m key head l ->
  range_entries m (mkRange (Some (lEncodeListKey db key head)) (Some (lEncodeListKey db key (ltail head l))) RangeClose)
  = item_entries db key head l 0 (len l).
Proof.
  intros Hw Hk Hl. pose proof (list_seq_range _ _ _ _ _ Hl) as (H1 & H2 & H3 & H4 & H5). destruct l as [|x l].
  - unfold item_entries, ltail in *. simpl. rewrite Z.add_0_r. apply range_entries_eq; [constructor|]. intros k v.
    split; [by intros ?%not_elem_of_nil|]. intros [Hv Hr]. exfalso. destruct Hl as [_ _ _ Hi].
    unfold in_range, above_min, below_max in Hr. simpl in Hr. apply andb_true_iff in Hr as [Hge Hle].
    apply bool_decide_eq_true in Hge, Hle. unfold listMinSeq, listMaxSeq, in_i32 in *. simpl in *.
    destruct (list_between db m key k v head head Hw Hk Hv) as (s & -> & Hs); [lia|lia|done|done|].
    rewrite Hi in Hv by lia. by case_if_in Hv.
  - set (xs := x :: l) in *. assert (0 < len xs) by (simpl; lia).
    assert (ltail head xs = head + len xs - 1) as -> by (unfold ltail; lia).
    unfold listMinSeq, listMaxSeq, ltail, in_i32 in *.
    destruct (list_range db m key head xs 0 (len xs) (Some (lEncodeListKey db key (head + len xs - 1))) Hw Hk Hl) as [HA HB]; [lia..|].
    rewrite Z.add_0_r in HA, HB. apply range_entries_eq; [apply item_entries_sorted; lia|].
    intros k v. split.
    + intros Hin. destruct (HB k v Hin) as (Hv & Hge & Hle). split; [done|].
      unfold in_range, above_min, below_max. simpl. by rewrite !bool_decide_true.
    + intros [Hv Hr]. apply HA; [done..|]. unfold in_range, below_max in Hr. simpl in Hr.
      apply andb_true_iff in Hr as [_ Hle]. by apply bool_decide_eq_true in Hle.
Qed.

Lemma item_entries_length db key head l a b : length (item_entries db key head l a b) = length (sublist l a b).
Proof. apply length_imap. Qed.

Lemma item_entries_deletes db key head l :
  map (fun p : bytes * bytes => OpDelete p.1) (item_entries db key head l 0 (len l)) =
  map (fun s => OpDelete (lEncodeListKey db key s)) (seqZ head (len l)).
Proof.
  apply list_eq. intros i. rewrite !list_lookup_fmap. unfold item_entries. rewrite list_lookup_imap, sublist_all.
  destruct (decide (i < length l)%nat) as [Hi|Hi].
  - destruct (lookup_lt_is_Some_2 l i Hi) as [x ->]. rewrite lookup_seqZ_lt by lia. simpl. do 3 f_equal. lia.
  - rewrite (lookup_ge_None_2 l), lookup_seqZ_ge by lia. done.
Qed.

(** The records of [lDelete]. *)
Definition ldel_ops db key (head : Z) l : list BatchOp :=
  map (fun s => OpDelete (lEncodeListKey db key s)) (seqZ head (len l)) ++ [OpDelete (lEncodeMetaKey db key)].

Lemma wp_lDelete db t key head l (Q : Z -> _ -> _ -> _ -> Prop) m b e :
  well_keyed db m -> short key -> list_at db m key head l ->
  Q (len l) m (add_ops t (ldel_ops db key head l) b) e -> wp (lDelete db t key) Q m b e.
Proof.
  intros Hw Hk Hl HQ. unfold lDelete. wp_auto. eapply wp_lGetMeta_it; [exact Hl|done|]. intros it' Hs'. cbv beta iota zeta.
  unfold NewRangeIterator. fold (NewRangeLimitIterator it' (mkRange (Some (lEncodeListKey db key head))
    (Some (lEncodeListKey db key (ltail head l))) RangeClose) (mkLimit 0 (-1))).
  rewrite (range_items_forward it' m) by done. rewrite cut_all, list_close_range by done. apply wp_bind.
  eapply (wp_for_each t (fun p => [OpDelete p.1])).
  - intros [k v] b1 Q1 _ HQ1. wp_auto. done.
  - rewrite concat_singletons, item_entries_deletes. wp_auto. rewrite item_entries_length, sublist_all. exact HQ.
Qed.

Lemma ldel_shrink db m key head l :
  ldel_ops db key head l ++ rm_ops db m ListType key = shrink_ops db m key (seqZ head (len l)) (head + 0) (head + 0 - 1).
Proof.
  unfold ldel_ops, shrink_ops, meta_ops. replace (head + 0 - 1 - (head + 0) + 1) with 0 by lia. simpl. by rewrite <- app_assoc.
Qed.

Lemma LClear_exec db key head l m e :
  checkKeySize key = None -> well_keyed db m -> list_at db m key head l ->
  exec (LClear db key) m e (len l, None)
    (apply_ops (shrink_ops db m key (seqZ head (len l)) (head + 0) (head + 0 - 1)) m) e.
Proof.
  intros Hk Hw Hl. unfold exec, LClear. rewrite Hk. wp_auto. eapply wp_lDelete; [done|by apply short_key|exact Hl|].
  wp_auto. rewrite ldel_shrink. done.
Qed.

Lemma clear_list_at db m key head l :
  short key -> list_at db m key head l ->
  list_rep db (apply_ops (shrink_ops db m key (seqZ head (len l)) (head + 0) (head + 0 - 1)) m) key [].
Proof.
  intros Hk Hl. pose proof (list_seq_range _ _ _ _ _ Hl) as (H1 & H2 & H3 & H4 & H5).
  exists listInitialSeq. eapply (shrink_list_at db m key head l (seqZ head (len l)) 0 0); [done|done|lia|lia|..].
  - intros s Hs%elem_of_seqZ. unfold in_i32, ltail, listMinSeq, listMaxSeq in *. lia.
  - intros s Hs _. apply elem_of_seqZ. lia.
Qed.

Lemma seqZ_i32 db m key head l s : list_at db m key head l -> s ∈ seqZ head (len l) -> in_i32 s.
Proof.
  intros Hl Hs%elem_of_seqZ. pose proof (list_seq_range _ _ _ _ _ Hl) as (H1 & H2 & H3 & H4 & H5).
  unfold in_i32, ltail, listMinSeq, listMaxSeq in *. lia.
Qed.

(** ** Reading by position *)

Lemma LLen_wp db key head l (Q : Z * option error -> _ -> _ -> _ -> Prop) m b e :
  checkKeySize key = None -> list_at db m key head l -> Q (len l, None) m b e -> wp (LLen db key) Q m b e.
Proof.
  intros Hk Hl HQ. unfold LLen. rewrite Hk. wp_auto. eapply wp_lGetMeta; [exact Hl|]. by wp_auto.
Qed.

(** The element at a position counted from the head, or from the tail when negative. *)
Definition at_index l (index : Z) : option bytes :=
  if 0 <=? index then l !! Z.to_nat index
  else if 0 <=? len l + index then l !! Z.to_nat (len l + index) else None.

Lemma LIndex_exec db key head l index m e :
  checkKeySize key = None -> list_at db m key head l -> in_i32 index ->
  exec (LIndex db key index) m e (at_index l index, None) m e.
Proof.
  intros Hk Hl Hx. pose proof (list_seq_range _ _ _ _ _ Hl) as (H1 & H2 & H3 & H4 & H5).
  unfold exec, LIndex. rewrite Hk. wp_auto. eapply wp_lGetMeta_it; [exact Hl|done|]. intros it' Hs'. cbv beta iota zeta.
  set (seq := if index >=? 0 then _ else _). destruct (Find_lookup m it' (lEncodeListKey db key seq) Hs') as [-> _].
  wp_auto. split; [|done]. f_equal. destruct Hl as [He _ _ Hi].
  unfold in_i32, ltail, listMinSeq, listMaxSeq in *. unfold at_index, seq. clear seq.
  destruct (index >=? 0) eqn:Ei; zify_bool.
  - rewrite (proj2 (Z.leb_le 0 index)) by lia. destruct (decide (head + index < 2 ^ 31)).
    + rewrite (int32_small (head + index)) by (unfold in_i32; lia). rewrite Hi by lia.
      rewrite (proj2 (Z.leb_le head _)) by lia. f_equal. lia.
    + rewrite (lookup_ge_None_2 l) by lia.
      assert (int32 (head + index) = head + index - 2 ^ 32) as ->.
      { unfold swrap. change (2 ^ (32 - 1)) with (2 ^ 31).
        replace (head + index + 2 ^ 31) with ((head + index - 2 ^ 31) + 1 * 2 ^ 32) by lia.
        rewrite Z.mod_add, Z.mod_small by lia. lia. }
      rewrite Hi by lia. by rewrite (proj2 (Z.leb_gt head _)) by lia.
  - rewrite (proj2 (Z.leb_gt 0 index)) by lia. rewrite (int32_small (_ + index)), int32_small by (unfold in_i32; lia).
    rewrite Hi by lia. destruct l as [|x l].
    { rewrite !lookup_nil. by destruct (_ <=? _), (_ <=? _). }
    simpl length in *. destruct (0 <=? _) eqn:E; zify_bool.
    + rewrite (proj2 (Z.leb_le head _)) by lia. f_equal. lia.
    + by rewrite (proj2 (Z.leb_gt head _)) by lia.
Qed.

(** The bounds of a position range: negative positions count from the tail. *)
Definition norm_start l (start : Z) : Z := Z.max 0 (if start <? 0 then len l + start else start).
Definition norm_stop l (stop : Z) : Z := Z.min (len l - 1) (if stop <? 0 then len l + stop else stop).

(** The elements between two positions. *)
Definition lrange l (start stop : Z) : list bytes :=
  sublist l (norm_start l start) (Z.max (norm_start l start) (norm_stop l stop + 1)).

Lemma lrange_whole l : lrange l 0 (-1) = l.
Proof.
  destruct l as [|x l]; [done|]. set (l' := x :: l). assert (0 < len l') by (simpl; lia). unfold lrange, norm_start, norm_stop.
  cbn [Z.ltb Z.compare]. rewrite Z.max_id, Z.min_id. replace (Z.max 0 (len l' + -1 + 1)) with (len l') by lia. apply sublist_all.
Qed.

Lemma list_open_range db m key head l a b :
  well_keyed db m -> short key -> list_at db m key head l -> 0 <= a -> a < b -> b <= len l ->
  cut (mkLimit 0 (b - a)) (range_entries m (mkRange (Some (lEncodeListKey db key (head + a))) None RangeClose))
  = item_entries db key head l a b.
Proof.
  intros Hw Hk Hl Ha Hab Hb. pose proof (list_seq_range _ _ _ _ _ Hl) as (H1 & H2 & H3 & H4 & H5).
  destruct (list_range db m key head l a b None Hw Hk Hl Ha Hab Hb) as [HA HB].
  unfold listMinSeq, listMaxSeq, ltail, in_i32 in *.
  destruct (range_entries_prefix m (mkRange (Some (lEncodeListKey db key (head + a))) None RangeClose)
    (item_entries db key head l a b)) as [ys ->].
  - apply item_entries_sorted; lia.
  - intros k v Hin. destruct (HB k v Hin) as (Hv & Hge & _). split; [done|].
    unfold in_range, above_min. simpl. by rewrite bool_decide_true.
  - intros k v Hv Hr. destruct (decide (ble k (lEncodeListKey db key (head + b - 1)))) as [Hle|Hgt]; [left; by apply HA|].
    right. intros [k' v'] Hin. apply not_ble in Hgt. destruct (HB k' v' Hin) as (_ & _ & Hle). simpl.
    by eapply ble_blt_trans.
  - unfold cut. simpl. rewrite (proj2 (Z.ltb_ge _ 0)) by lia. apply take_app_length'.
    rewrite item_entries_length. pose proof (sublist_length l a b Ha ltac:(lia) Hb). lia.
Qed.

Lemma item_entries_values db key head l a b : map snd (item_entries db key head l a b) = sublist l a b.
Proof.
  unfold item_entries. rewrite fmap_imap. apply list_eq. intros i. rewrite list_lookup_imap.
  by destruct (sublist l a b !! i).
Qed.

Lemma LRange_exec db key head l start stop m e :
  checkKeySize key = None -> well_keyed db m -> list_at db m key head l -> in_i32 start -> in_i32 stop ->
  exec (LRange db key start stop) m e (Some (lrange l start stop), None) m e.
Proof.
  intros Hk Hw Hl Hs Ht. pose proof (list_seq_range _ _ _ _ _ Hl) as (H1 & H2 & H3 & H4 & H5).
  unfold exec, LRange. rewrite Hk. wp_auto. eapply wp_lGetMeta_it; [exact Hl|done|]. intros it' Hs'. cbv beta iota zeta.
  unfold in_i32, ltail, listMinSeq, listMaxSeq in *.
  assert (ES : (if (if start <? 0 then int32 (len l + start) else start) <? 0 then 0
    else if start <? 0 then int32 (len l + start) else start) = norm_start l start).
  { unfold norm_start. destruct (start <? 0) eqn:E; zify_bool; [rewrite int32_small by (unfold in_i32; lia)|]; case_if; lia. }
  assert (ET : (if stop <? 0 then int32 (len l + stop) else stop) = if stop <? 0 then len l + stop else stop).
  { destruct (stop <? 0) eqn:E; zify_bool; [rewrite int32_small by (unfold in_i32; lia)|]; lia. }
  rewrite ES, ET. set (s := norm_start l start) in *. unfold lrange. fold s. unfold norm_stop.
  set (t := if stop <? 0 then len l + stop else stop) in *. assert (0 <= s) by (unfold s, norm_start; lia).
  destruct (_ || _) eqn:E.
  - wp_auto. split; [|done]. do 2 f_equal. unfold sublist. apply orb_true_iff in E as [E|E]; zify_bool.
    + by replace (Z.to_nat _) with 0%nat by lia.
    + rewrite drop_ge by lia. by rewrite take_nil.
  - apply orb_false_iff in E as [E1 E2]. zify_bool.
    assert ((if t >=? len l then int32 (len l - 1) else t) = Z.min (len l - 1) t) as ->.
    { case_if; [rewrite int32_small by (unfold in_i32; lia)|]; lia. }
    rewrite (int32_small (head + s)), (int32_small (_ - s)), int32_small by (unfold in_i32; lia).
    rewrite (range_items_forward it' m) by done. wp_auto. split; [|done]. do 2 f_equal.
    replace (Z.min (len l - 1) t - s + 1) with (Z.min (len l - 1) t + 1 - s) by lia.
    rewrite (list_open_range db m key head l s) by (done || lia || by apply short_key).
    rewrite item_entries_values. f_equal. lia.
Qed.

(** ** Writing by position and trimming *)

Lemma LSet_exec db key head l index value m e :
  checkKeySize key = None -> list_at db m key head l -> in_i32 index ->
  let i := if 0 <=? index then index else len l + index in
  0 <= i < len l ->
  exec (LSet db key index value) m e None (<[lEncodeListKey db key (head + i) := value]> m) e.
Proof.
  intros Hk Hl Hx i Hi. pose proof (list_seq_range _ _ _ _ _ Hl) as (H1 & H2 & H3 & H4 & H5).
  unfold exec, LSet. rewrite Hk. wp_auto. eapply wp_lGetMeta; [exact Hl|]. cbv beta iota zeta.
  unfold in_i32, ltail, listMinSeq, listMaxSeq in *.
  assert ((if index >=? 0 then int32 (head + index) else int32 (int32 (head + 0 `max` (len l - 1) + index) + 1)) = head + i) as ->.
  { subst i. rewrite Z.geb_leb in *. destruct (0 <=? index) eqn:E; zify_bool.
    - apply int32_small. unfold in_i32. lia.
    - rewrite (int32_small (_ + index)), int32_small by (unfold in_i32; lia). lia. }
  rewrite (proj2 (Z.ltb_ge (head + i) head)) by lia. rewrite Z.gtb_ltb, (proj2 (Z.ltb_ge _ (head + i))) by lia.
  cbn [orb]. wp_auto. done.
Qed.

Lemma LSet_list_at db m key head l i value :
  short key -> list_at db m key head l -> 0 <= i < len l ->
  list_at db (<[lEncodeListKey db key (head + i) := value]> m) key head (<[Z.to_nat i := value]> l) /\
  keeps db ListType key m (<[lEncodeListKey db key (head + i) := value]> m).
Proof.
  intros Hk Hl Hi. pose proof (list_seq_range _ _ _ _ _ Hl) as (H1 & H2 & H3 & H4 & H5). destruct Hl as [He Hb Hm Hit].
  unfold ltail in *. assert (Hr : in_i32 (head + i)) by (unfold in_i32, listMinSeq, listMaxSeq in *; lia). split; [split|].
  - intros E%(f_equal length). rewrite length_insert in E. simpl in E. lia.
  - intros _. rewrite length_insert. apply Hb. destruct l; [simpl in Hi; lia|done].
  - rewrite lookup_insert_ne by key_ne. rewrite Hm, length_insert. destruct l; [simpl in Hi; lia|].
    by destruct (Z.to_nat i).
  - intros s Hs. destruct (decide (s = head + i)) as [->|Hne].
    + rewrite lookup_insert_eq, (proj2 (Z.leb_le head _)) by lia. replace (head + i - head) with i by lia.
      symmetry. apply list_lookup_insert_eq. lia.
    + rewrite lookup_insert_ne by (key_ne; congruence). rewrite Hit by done.
      destruct (head <=? s) eqn:E; zify_bool; [|done]. symmetry. apply list_lookup_insert_ne. lia.
  - change (<[lEncodeListKey db key (head + i) := value]> m) with (apply_ops [OpPut (lEncodeListKey db key (head + i)) value] m).
    apply keeps_ops, (ops_for_cons _ _ _ _ _ (LItem key (head + i))); [done|by split|done|done|constructor].
Qed.

(** A loop that deletes a run of elements. *)
Lemma wp_delete_items db key (f : Z -> Z) (xs : list Z) (Q : unit -> _ -> _ -> _ -> Prop) m b e :
  Q tt m (add_ops listBatch (map (fun s => OpDelete (lEncodeListKey db key s)) (map f xs)) b) e ->
  wp (for_each xs (fun i => batch_Delete listBatch (lEncodeListKey db key (f i)))) Q m b e.
Proof.
  intros HQ. apply (wp_for_each listBatch (fun i => [OpDelete (lEncodeListKey db key (f i))])).
  - intros x b1 Q1 _ HQ1. by wp_auto.
  - rewrite concat_singletons. by rewrite map_map in HQ.
Qed.

Lemma LTrimFront_exec db key head l n m e :
  checkKeySize key = None -> list_at db m key head l -> l <> [] -> 0 < n -> head + n < 2 ^ 31 ->
  let a := Z.min n (len l) in
  exec (LTrimFront db key n) m e (a, None)
    (apply_ops (shrink_ops db m key (seqZ head a) (head + a) (head + len l - 1)) m) e.
Proof.
  intros Hk Hl Hne Hn Hn' a. pose proof (list_seq_range _ _ _ _ _ Hl) as (H1 & H2 & H3 & H4 & H5).
  assert (0 < len l) by (destruct l; [done|simpl; lia]). unfold in_i32, ltail, listMinSeq, listMaxSeq in *.
  unfold exec, LTrimFront, ltrim. rewrite Hk, (proj2 (Z.eqb_neq n 0)) by lia. wp_auto.
  eapply wp_lGetMeta; [exact Hl|]. unfold ltail. rewrite (proj2 (Z.eqb_neq (len l) 0)) by lia.
  change (listHeadSeq =? listHeadSeq) with true. cbv iota zeta.
  rewrite (int32_small (head + n)), (int32_small (head + n - 1)) by (unfold in_i32; lia).
  replace (Z.min (head + n - 1) (head + 0 `max` (len l - 1))) with (head + a - 1) by (unfold a; lia).
  replace (head + a - 1 + 1) with (head + a) by lia. replace (head + a - 1 - head + 1) with a by lia.
  replace (head + 0 `max` (len l - 1)) with (head + len l - 1) by lia.
  rewrite (int32_small (head + a)) by (unfold in_i32, a; lia). apply wp_bind.
  apply (wp_delete_items db key (fun s => s)). rewrite map_id. wp_auto.
  apply (wp_shrink db key (seqZ head a) (head + a) (head + len l - 1) (fun err => mret (_, err)));
    [unfold in_i32, a; lia..|].
  intros b _ Hb. wp_auto. rewrite (int32_small (head + a - 1 - head)), int32_small by (unfold in_i32, a; lia).
  split; [f_equal; lia|done].
Qed.

Lemma LTrimBack_exec db key head l n m e :
  checkKeySize key = None -> list_at db m key head l -> l <> [] -> 0 < n -> in_i32 n ->
  let b := len l - Z.min n (len l) in
  exec (LTrimBack db key n) m e (Z.min n (len l), None)
    (apply_ops (shrink_ops db m key (seqZ (head + b) (len l - b)) (head + 0) (head + b - 1)) m) e.
Proof.
  intros Hk Hl Hne Hn Hn' c. pose proof (list_seq_range _ _ _ _ _ Hl) as (H1 & H2 & H3 & H4 & H5).
  assert (0 < len l) by (destruct l; [done|simpl; lia]). unfold in_i32, ltail, listMinSeq, listMaxSeq in *.
  unfold exec, LTrimBack, ltrim. rewrite Hk, (proj2 (Z.eqb_neq n 0)) by lia. wp_auto.
  eapply wp_lGetMeta; [exact Hl|]. unfold ltail. rewrite (proj2 (Z.eqb_neq (len l) 0)) by lia.
  change (listTailSeq =? listHeadSeq) with false. cbv iota zeta.
  replace (head + 0 `max` (len l - 1)) with (head + len l - 1) by lia.
  rewrite (int32_small (head + len l - 1 - n)), (int32_small (head + len l - 1 - n + 1)) by (unfold in_i32; lia).
  replace (Z.max (head + len l - 1 - n + 1) head) with (head + c) by (unfold c; lia).
  replace (head + len l - 1 - (head + c) + 1) with (len l - c) by lia.
  rewrite (int32_small (head + c - 1)) by (unfold in_i32, c; lia). apply wp_bind.
  apply (wp_delete_items db key (fun s => s)). rewrite map_id. wp_auto. rewrite Z.add_0_r.
  apply (wp_shrink db key (seqZ (head + c) (len l - c)) head (head + c - 1) (fun err => mret (_, err)));
    [unfold in_i32, c; lia..|].
  intros b _ Hb. wp_auto. rewrite (int32_small (head + len l - 1 - (head + c))), int32_small by (unfold in_i32, c; lia).
  split; [f_equal; unfold c; lia|done].
Qed.

(** The guarded loops of [ltrim2] delete a run of positions, maybe an empty one. *)
Lemma wp_delete_run db key head l (c : bool) xs (Q : unit -> _ -> _ -> _ -> Prop) m b e :
  list_at db m key head l -> (c = false -> xs = []) -> (forall x, x ∈ xs -> 0 <= x < len l) ->
  Q tt m (add_ops listBatch (map (fun x => OpDelete (lEncodeListKey db key x)) (map (Z.add head) xs)) b) e ->
  wp (if c then for_each xs (fun i => batch_Delete listBatch (lEncodeListKey db key (int32 (head + i)))) else mret tt) Q m b e.
Proof.
  intros Hl Hc Hxs HQ. destruct c.
  - apply wp_delete_items. replace (map (fun i => int32 (head + i)) xs) with (map (Z.add head) xs); [done|].
    apply list_fmap_ext. intros i x Hx. apply list_elem_of_lookup_2, Hxs in Hx. rewrite int32_small; [done|].
    pose proof (list_seq_range _ _ _ _ _ Hl) as (H1 & H2 & _). unfold in_i32, ltail, listMinSeq, listMaxSeq in *. lia.
  - rewrite Hc in HQ by done. apply wp_ret. unfold add_ops in HQ. simpl map in HQ. by rewrite app_nil_r, set_ops_same in HQ.
Qed.

(** The positions outside [a, b). *)
Definition outside (head : Z) l (a b : Z) : list Z := map (Z.add head) (seqZ 0 a ++ seqZ b (len l - b)).

Lemma elem_of_outside head l a b x :
  x ∈ outside head l a b <-> exists i, x = head + i /\ (0 <= i < a \/ b <= i < len l).
Proof.
  unfold outside. rewrite list_elem_of_fmap. setoid_rewrite elem_of_app. setoid_rewrite elem_of_seqZ.
  split; intros (i & -> & Hi); exists i; (split; [done|]); lia.
Qed.

Lemma norm_i32 l x : in_i32 x -> len l < 2 ^ 31 ->
  (if x <? 0 then int32 (len l + x) else x) = if x <? 0 then len l + x else x.
Proof. unfold in_i32. intros. case_if; [rewrite int32_small by (unfold in_i32; lia)|]; lia. Qed.

(** [LTrim] with an empty range clears the list, expiration included. *)
Lemma LTrim_clear db key head l start stop m e :
  checkKeySize key = None -> well_keyed db m -> list_at db m key head l -> in_i32 start -> in_i32 stop ->
  let s := if start <? 0 then len l + start else start in
  let t := if stop <? 0 then len l + stop else stop in
  s >= len l \/ s > t ->
  exec (LTrim db key start stop) m e None
    (apply_ops (shrink_ops db m key (seqZ head (len l)) (head + 0) (head + 0 - 1)) m) e.
Proof.
  intros Hk Hw Hl Hs Ht s t E. pose proof (list_seq_range _ _ _ _ _ Hl) as (H1 & H2 & H3 & H4 & H5).
  unfold exec, LTrim, ltrim2. rewrite Hk, (int32_small start), (int32_small stop) by done. wp_auto.
  unfold listMaxSeq in *. eapply wp_lGetMeta; [exact Hl|]. cbv beta iota zeta. rewrite !norm_i32 by (done || lia). fold s t.
  rewrite (proj2 (orb_true_iff _ _)) by (rewrite Z.geb_leb, Z.gtb_ltb, Z.leb_le, Z.ltb_lt; lia). wp_auto.
  eapply wp_lDelete; [done|by apply short_key|exact Hl|]. wp_auto. rewrite ldel_shrink. done.
Qed.

(** [LTrim] with a range of elements. *)
Lemma LTrim_keep db key head l start stop m e :
  checkKeySize key = None -> list_at db m key head l -> in_i32 start -> in_i32 stop ->
  let s := if start <? 0 then len l + start else start in
  let t := if stop <? 0 then len l + stop else stop in
  let a := Z.max 0 s in let b := Z.min (len l - 1) t + 1 in
  l <> [] -> s < len l -> s <= t -> 0 <= t ->
  exec (LTrim db key start stop) m e None
    (apply_ops (shrink_ops db m key (outside head l a b) (head + a) (head + b - 1)) m) e.
Proof.
  intros Hk Hl Hs Ht s t a b Hne E1 E2 E3. assert (0 < len l) by (destruct l; [done|simpl; lia]).
  pose proof (list_seq_range _ _ _ _ _ Hl) as (H1 & H2 & H3 & H4 & H5).
  unfold exec, LTrim, ltrim2. rewrite Hk, (int32_small start), (int32_small stop) by done. wp_auto.
  unfold in_i32, ltail, listMinSeq, listMaxSeq in *. eapply wp_lGetMeta; [exact Hl|]. cbv beta iota zeta.
  rewrite !norm_i32 by (done || lia). fold s t.
  rewrite (proj2 (orb_false_iff _ _)) by (rewrite Z.geb_leb, Z.gtb_ltb; split; [apply Z.leb_gt|apply Z.ltb_ge]; lia).
  assert ((if s <? 0 then 0 else s) = a) as -> by (unfold a; case_if; lia).
  rewrite (int32_small (len l - 1)) by (unfold in_i32; lia).
  assert ((if t >=? len l then len l - 1 else t) = b - 1) as -> by (unfold b; case_if; lia).
  replace (b - 1 + 1) with b by lia. rewrite (int32_small (head + a)), (int32_small (head + (b - 1))) by (unfold in_i32; lia).
  apply wp_bind, (wp_delete_run db key head l); [done| |intros x Hx%elem_of_seqZ; lia|].
  { intros Hc. zify_bool. by replace a with 0 by lia. }
  apply wp_bind, (wp_delete_run db key head l); [done| |intros x Hx%elem_of_seqZ; lia|].
  { intros Hc. zify_bool. apply seqZ_nil. lia. }
  apply wp_bind, wp_lSetMeta; [unfold in_i32; lia..|]. wp_auto. split; [done|]. split; [|done]. f_equal.
  unfold shrink_ops, outside. rewrite !map_app, <- !app_assoc. replace (head + (b - 1)) with (head + b - 1) by lia.
  rewrite (proj2 (Z.eqb_neq (head + b - 1 - (head + a) + 1) 0)) by lia. by rewrite app_nil_r.
Qed.

Lemma LTrim_nil db key head start stop m e :
  checkKeySize key = None -> list_at db m key head [] -> in_i32 start -> in_i32 stop -> start < 0 <= stop ->
  exec (LTrim db key start stop) m e None m e.
Proof.
  intros Hk Hl Hs Ht Hr. pose proof (list_seq_range _ _ _ _ _ Hl) as (H1 & H2 & H3 & H4 & H5).
  unfold exec, LTrim, ltrim2. rewrite Hk, (int32_small start), (int32_small stop) by done. wp_auto.
  unfold in_i32, ltail, listMinSeq, listMaxSeq in *. eapply wp_lGetMeta; [exact Hl|]. cbv beta iota zeta.
  rewrite !norm_i32 by (done || simpl; lia). rewrite (proj2 (Z.ltb_lt start 0)), (proj2 (Z.ltb_ge stop 0)) by lia.
  change (len (@nil bytes)) with 0. rewrite !Z.add_0_l, (proj2 (Z.ltb_lt start 0)) by lia.
  assert ((start >=? 0) || (start >? stop) = false) as -> by (apply orb_false_iff; split; [rewrite Z.geb_leb; apply Z.leb_gt|rewrite Z.gtb_ltb; apply Z.ltb_ge]; lia).
  assert ((stop >=? 0) = true) as -> by (rewrite Z.geb_leb; apply Z.leb_le; lia).
  change (int32 (0 - 1)) with (-1). change (0 >? 0) with false. change (-1 <? -1) with false. wp_auto.
  rewrite (int32_small (head + 0)), (int32_small (head + -1)) by (unfold in_i32; lia).
  apply wp_lSetMeta; [unfold in_i32; lia..|]. wp_auto. split; [done|]. split; [|done]. unfold meta_ops.
  replace (head + -1 - (head + 0) + 1) with 0 by lia. simpl. apply delete_id. by destruct Hl as [_ _ -> _].
Qed.

(** [LTrim] keeps the elements of the range, unless both bounds lie before the head. *)
Lemma LTrim_exec db key head l start stop m e :
  checkKeySize key = None -> well_keyed db m -> list_at db m key head l -> in_i32 start -> in_i32 stop ->
  ~ (start <= stop < - len l) ->
  exists m', exec (LTrim db key start stop) m e None m' e /\ list_rep db m' key (lrange l start stop) /\
  keeps db ListType key m m'.
Proof.
  intros Hk Hw Hl Hs Ht Hgood. pose proof (list_seq_range _ _ _ _ _ Hl) as (H1 & H2 & H3 & H4 & H5).
  pose proof (short_key _ Hk) as Hsk. pose proof (LTrim_clear db key head l start stop m e Hk Hw Hl Hs Ht) as HC.
  pose proof (LTrim_keep db key head l start stop m e Hk Hl Hs Ht) as HK. cbv zeta in HC, HK.
  unfold lrange, norm_start, norm_stop. set (s := if start <? 0 then len l + start else start) in *.
  set (t := if stop <? 0 then len l + stop else stop) in *.
  assert (Hcase : t < 0 -> s > t \/ s >= len l) by (unfold s, t; repeat case_if; lia).
  destruct (decide (s >= len l \/ s > t)) as [E|E].
  - eexists. split; [by apply HC|]. split; [|apply shrink_keeps; [done|]; intros x Hx; by eapply seqZ_i32].
    replace (sublist l _ _) with (@nil bytes); [by apply (clear_list_at _ _ _ _ l)|].
    symmetry. unfold sublist. destruct E as [E|E].
    + rewrite drop_ge by lia. by rewrite take_nil.
    + by replace (Z.to_nat _) with 0%nat by lia.
  - destruct (decide (l = [])) as [->|Hne].
    { exists m. split; [|split; [|apply keeps_refl]].
      - apply (LTrim_nil db key head); [done..|]. clear HC HK. revert E Hcase.
        unfold s, t. simpl. destruct (start <? 0) eqn:?, (stop <? 0) eqn:?; zify_bool; lia.
      - replace (sublist [] _ _) with (@nil bytes) by (unfold sublist; by rewrite drop_nil, take_nil). by exists head. }
    assert (0 < len l) by (destruct l; [done|simpl; lia]). eexists. split; [apply HK; done || lia|]. unfold in_i32, ltail, listMinSeq, listMaxSeq in *. split.
    + rewrite (Z.max_r (Z.max 0 s)) by lia. eexists. apply shrink_list_at; [done|done|lia|lia|..].
      * intros x (i & -> & Hi)%elem_of_outside. unfold in_i32. lia.
      * intros x Hx Hn. apply elem_of_outside. exists (x - head). split; [lia|lia].
    + apply shrink_keeps; [done|]. intros x (i & -> & Hi)%elem_of_outside. unfold in_i32. lia.
Qed.

(** ** Expiration *)

Lemma lExpireAt_exec db key head l when m e :
  checkKeySize key = None -> list_at db m key head l -> l <> [] ->
  exec (lExpireAt db key when) m e (1, None) (apply_ops (expire_ops db ListType key when) m) (check_before when e).
Proof.
  intros Hk Hl Hne. unfold exec, lExpireAt. wp_auto. eapply LLen_wp; [done|exact Hl|]. cbn [is_err orb].
  rewrite (proj2 (Z.eqb_neq (len l) 0)) by (by destruct l). wp_auto. done.
Qed.

Lemma LTTL_exec db key m e :
  checkKeySize key = None -> exec (LTTL db key) m e (ttl_result db m ListType key (now e)) m e.
Proof. intros Hk. unfold exec, LTTL. rewrite Hk. wp_auto. done. Qed.

(** ** Frame *)

(** A list is not affected by writes to other keys. *)
Lemma list_rep_frame db m m' T key' key l :
  short key -> touches db T key' m m' -> T <> ListType \/ key' <> key -> list_rep db m key l -> list_rep db m' key l.
Proof.
  intros Hk Ht Hne [head [He Hb Hm Hi]]. exists head. destruct Ht as [HF _ _]. split; [done|done| |].
  - rewrite <- Hm. apply (HF (LMeta key)); simpl; [done|]. intros [-> ->]. by destruct Hne.
  - intros s Hs. rewrite <- Hi by done. apply (HF (LItem key s)); simpl; [done|]. intros [-> ->]. by destruct Hne.
Qed.

(** ** Containment *)

Lemma contained_env {A} db (p : M A) :
  (forall st, exists a e', p st = (Ret a, with_env e' st)) -> contained db p.
Proof. intros Hp st Hst. destruct (Hp st) as (a & e' & ->). by apply kept_same. Qed.

Lemma contained_lSignal db key : contained db (lSignalAsReady key).
Proof.
  apply contained_env. intros st. unfold lSignalAsReady. destruct (lbkeys _ !! _); [by do 2 eexists|].
  exists tt, (env st). by destruct st.
Qed.
Lemma contained_cancel db fn : contained db (cancel fn).
Proof. apply contained_env. intros st. by do 2 eexists. Qed.
Lemma contained_lb_wait db key fn : contained db (lb_wait key fn).
Proof. apply contained_env. intros st. by do 2 eexists. Qed.
#[local] Hint Resolve contained_lSignal contained_cancel contained_lb_wait : ledis.

Lemma contained_lGetMeta db ek : contained db (lGetMeta ek).
Proof. unfold lGetMeta. contained_auto. Qed.
Lemma contained_lGetMeta_it db it ek : contained db (lGetMeta_it it ek).
Proof. unfold lGetMeta_it. contained_auto. Qed.
Lemma contained_lSetMeta db key h t : contained db (lSetMeta (lEncodeMetaKey db key) h t).
Proof. unfold lSetMeta. contained_auto. Qed.
Lemma contained_push_items db key seq delta args : contained db (push_items db key seq delta args).
Proof. unfold push_items. contained_auto. Qed.
#[local] Hint Resolve contained_lGetMeta contained_lGetMeta_it contained_lSetMeta contained_push_items : ledis.
Lemma contained_lpush db key whereSeq args : contained db (lpush db key whereSeq args).
Proof. unfold lpush. contained_auto. Qed.
Lemma contained_lpop db key whereSeq : contained db (lpop db key whereSeq).
Proof. unfold lpop. contained_auto. Qed.

Lemma contained_lDelete db t key : contained db (lDelete db t key).
Proof.
  unfold lDelete. apply contained_NewIterator. intros it m Hs. unfold lGetMeta_it.
  destruct (Find_lookup m it (lEncodeMetaKey db key) Hs) as [_ Hs']. destruct (Find it _) as [it' v]. cbn [fst snd] in *.
  destruct (list_meta v) as [[[h tl] sz]|]; [|intros st Hst; by apply kept_refl].
  change (contained db (_ ← for_each (rli_items (NewRangeLimitIterator it' (mkRange (Some (lEncodeListKey db key h))
    (Some (lEncodeListKey db key tl)) RangeClose) (mkLimit 0 (-1)))) (fun '(k, _) => batch_Delete t k);
    _ ← batch_Delete t (lEncodeMetaKey db key); mret (len (rli_items (NewRangeLimitIterator it'
    (mkRange (Some (lEncodeListKey db key h)) (Some (lEncodeListKey db key tl)) RangeClose) (mkLimit 0 (-1))))))).
  rewrite (range_items_forward it' m) by done. contained_auto.
  apply contained_Delete. eapply range_in_db; [..|eassumption]; by eexists.
Qed.
#[local] Hint Resolve contained_lpush contained_lpop contained_lDelete : ledis.
Lemma contained_ltrim2 db key start stop : contained db (ltrim2 db key start stop).
Proof. unfold ltrim2. contained_auto. Qed.
Lemma contained_ltrim db key trimSize whereSeq : contained db (ltrim db key trimSize whereSeq).
Proof. unfold ltrim. contained_auto. Qed.
Lemma contained_LLen db key : contained db (LLen db key).
Proof. unfold LLen. contained_auto. Qed.
#[local] Hint Resolve contained_LLen : ledis.
Lemma contained_lExpireAt db key when : contained db (lExpireAt db key when).
Proof. unfold lExpireAt. contained_auto. Qed.
#[local] Hint Resolve contained_lExpireAt : ledis.
Lemma contained_LIndex db key index : contained db (LIndex db key index).
Proof. unfold LIndex. contained_auto. Qed.
Lemma contained_LSet db key index value : contained db (LSet db key index value).
Proof. unfold LSet. contained_auto. Qed.
Lemma contained_LRange db key start stop : contained db (LRange db key start stop).
Proof. unfold LRange. contained_auto. Qed.
Lemma contained_LClear db key : contained db (LClear db key).
Proof. unfold LClear. contained_auto. Qed.
Lemma contained_LMclear db keys : contained db (LMclear db keys).
Proof. unfold LMclear. contained_auto. Qed.
Lemma contained_LExpire db key duration : contained db (LExpire db key duration).
Proof. unfold LExpire. contained_auto. Qed.
Lemma contained_LExpireAt db key when : contained db (LExpireAt db key when).
Proof. unfold LExpireAt. contained_auto. Qed.
Lemma contained_LTTL db key : contained db (LTTL db key).
Proof. unfold LTTL. contained_auto. Qed.
Lemma contained_LPersist db key : contained db (LPersist db key).
Proof. unfold LPersist. contained_auto. Qed.
Lemma contained_LKeyExists db key : contained db (LKeyExists db key).
Proof. unfold LKeyExists. contained_auto. Qed.
Lemma contained_popOrWait db key whereSeq fn : contained db (popOrWait db key whereSeq fn).
Proof. unfold popOrWait. contained_auto. Qed.
#[local] Hint Resolve contained_popOrWait : ledis.
Lemma contained_lblockPop db keys whereSeq fn : contained db (lblockPop_pass db keys whereSeq fn).
Proof. unfold lblockPop_pass. contained_auto. Qed.

End Spec.

#[export] Hint Resolve contained_lpush contained_lpop contained_lDelete contained_ltrim2 contained_ltrim contained_LLen
  contained_lExpireAt contained_LIndex contained_LSet contained_LRange contained_LClear contained_LMclear contained_LExpire
  contained_LExpireAt contained_LTTL contained_LPersist contained_LKeyExists contained_lblockPop : ledis.

(** * Lists as an abstract data type *)

Inductive list_op :=
| opLPush (args : list bytes)
| opRPush (args : list bytes)
| opLPop
| opRPop
| opLLen
| opLIndex (index : Z)
| opLRange (start stop : Z)
| opLSet (index : Z) (value : bytes)
| opLTrim (start stop : Z)
| opLClear.

Inductive list_res :=
| lrInt (x : Z * option error)
| lrVal (x : option bytes * option error)
| lrList (x : option (list bytes) * option error)
| lrErr (x : option error).

Definition run_list {B : Backend} (db : DB) (key : bytes) (op : list_op) : M list_res :=
  match op with
  | opLPush args => x ← LPush db key args; mret (lrInt x)
  | opRPush args => x ← RPush db key args; mret (lrInt x)
  | opLPop => x ← LPop db key; mret (lrVal x)
  | opRPop => x ← RPop db key; mret (lrVal x)
  | opLLen => x ← LLen db key; mret (lrInt x)
  | opLIndex index => x ← LIndex db key index; mret (lrVal x)
  | opLRange start stop => x ← LRange db key start stop; mret (lrList x)
  | opLSet index value => x ← LSet db key index value; mret (lrErr x)
  | opLTrim start stop => x ← LTrim db key start stop; mret (lrErr x)
  | opLClear => x ← LClear db key; mret (lrInt x)
  end.

(** The position a list index means. *)
Definition position (l : list bytes) (index : Z) : Z := if 0 <=? index then index else len l + index.

Definition list_step (l : list bytes) (op : list_op) (res : list_res) (l' : list bytes) : Prop :=
  match op with
  | opLPush args => (res = lrInt (len l + len args, None) /\ l' = reverse args ++ l) \/ (res = lrInt (0, Some errListSeq) /\ l' = l)
  | opRPush args => (res = lrInt (len l + len args, None) /\ l' = l ++ args) \/ (res = lrInt (0, Some errListSeq) /\ l' = l)
  | opLPop => res = lrVal (head l, None) /\ l' = tail l
  | opRPop => res = lrVal (last l, None) /\ l' = removelast l
  | opLLen => res = lrInt (len l, None) /\ l' = l
  | opLIndex index => res = lrVal (at_index l index, None) /\ l' = l
  | opLRange start stop => res = lrList (Some (lrange l start stop), None) /\ l' = l
  | opLSet index value =>
      let i := position l index in
      if bool_decide (0 <= i < len l) then res = lrErr None /\ l' = <[Z.to_nat i := value]> l
      else res = lrErr (Some errListIndex) /\ l' = l
  | opLTrim start stop => res = lrErr None /\ l' = lrange l start stop
  | opLClear => res = lrInt (len l, None) /\ l' = []
  end.

(** [LSet] is for lists that exist, and [LTrim] for ranges that do not lie before the head
    (see [list_anomalies]). *)
Definition list_pre (key : bytes) (l : list bytes) (op : list_op) : Prop :=
  match op with
  | opLPush args | opRPush args => args <> [] /\ len args < 2 ^ 31
  | opLIndex index => in_i32 index
  | opLRange start stop => in_i32 start /\ in_i32 stop
  | opLSet index _ => in_i32 index /\ l <> []
  | opLTrim start stop => in_i32 start /\ in_i32 stop /\ ~ (start <= stop < - len l)
  | _ => True
  end.

#[global] Instance list_container : Container list_op list_res (list bytes) := {|
  ctype := ListType;
  run := @run_list;
  step := list_step;
  rep := list_rep;
  pre := list_pre;
  empty_val := []
|}.

Section Refinement.
Context {B : Backend} {BS : BackendSpec B}.
Implicit Types (db : DB) (key : bytes) (l : list bytes) (m : gmap bytes bytes) (e : Env).

(** What the pushes do, the refused ones included. *)
Lemma RPush_runs db key args head l m e :
  checkKeySize key = None -> list_at db m key head l -> args <> [] -> len args < 2 ^ 31 ->
  runs (RPush db key args) m e (fun res m' e' =>
    if head + len l + len args - 1 <? listMaxSeq
    then res = (len l + len args, None) /\ list_at db m' key head (l ++ args) /\ keeps db ListType key m m' /\ e' = signal_env key e
    else res = (0, Some errListSeq) /\ m' = m /\ e' = e).
Proof using BS.
  intros Hk Hl Hne Hn. pose proof (short_key _ Hk) as Hs. assert (in_i32 (len args)) by (unfold in_i32; lia).
  pose proof (list_seq_range _ _ _ _ _ Hl) as (H1 & H2 & H3 & H4 & H5). destruct (_ <? _) eqn:E; zify_bool.
  - eapply exec_runs; [by eapply RPush_exec|]. split; [done|]. split; [by apply RPush_list_at|]. split; [|done].
    apply pushed_keeps; [done|]. unfold in_i32, listMinSeq, listMaxSeq, ltail in *. intros i Hi. lia.
  - eapply exec_runs; [by eapply RPush_overflow|]. done.
Qed.

Lemma LPush_runs db key args head l m e :
  checkKeySize key = None -> list_at db m key head l -> args <> [] -> len args < 2 ^ 31 ->
  runs (LPush db key args) m e (fun res m' e' =>
    if listMinSeq <? lhead head l - (len args - 1)
    then res = (len l + len args, None) /\ list_at db m' key (lhead head l - (len args - 1)) (reverse args ++ l) /\
         keeps db ListType key m m' /\ e' = signal_env key e
    else res = (0, Some errListSeq) /\ m' = m /\ e' = e).
Proof using BS.
  intros Hk Hl Hne Hn. pose proof (short_key _ Hk) as Hs. assert (in_i32 (len args)) by (unfold in_i32; lia).
  pose proof (list_seq_range _ _ _ _ _ Hl) as (H1 & H2 & H3 & H4 & H5). destruct (_ <? _) eqn:E; zify_bool.
  - eapply exec_runs; [by eapply LPush_exec|]. split; [done|]. split; [by apply LPush_list_at|]. split; [|done].
    apply pushed_keeps; [done|]. unfold in_i32, listMinSeq, listMaxSeq, ltail, lhead in *. intros i Hi. lia.
  - eapply exec_runs; [by eapply LPush_overflow|]. done.
Qed.

Lemma LPop_runs db key l m e :
  checkKeySize key = None -> list_rep db m key l ->
  runs (LPop db key) m e (fun res m' e' =>
    res = (head l, None) /\ list_rep db m' key (tail l) /\ keeps db ListType key m m' /\ e' = e).
Proof using BS.
  intros Hk [hd Hl]. pose proof (short_key _ Hk) as Hs. pose proof (list_seq_range _ _ _ _ _ Hl) as (_ & _ & H3 & _).
  destruct l as [|x l].
  - eapply exec_runs; [by eapply lpop_empty|]. split; [done|]. split; [by exists hd|]. split; [apply keeps_refl|done].
  - eapply exec_runs; [by eapply LPop_exec|]. split; [done|]. split; [by apply (LPop_list_at db m key hd x l)|]. split; [|done].
    apply shrink_keeps; [done|]. by intros s ->%list_elem_of_singleton.
Qed.

Lemma RPop_runs db key l m e :
  checkKeySize key = None -> list_rep db m key l ->
  runs (RPop db key) m e (fun res m' e' =>
    res = (last l, None) /\ list_rep db m' key (removelast l) /\ keeps db ListType key m m' /\ e' = e).
Proof using BS.
  intros Hk [hd Hl]. pose proof (short_key _ Hk) as Hs. pose proof (list_seq_range _ _ _ _ _ Hl) as (_ & _ & _ & H4 & _).
  destruct l as [|x l _] using rev_ind.
  - eapply exec_runs; [by eapply lpop_empty|]. split; [done|]. split; [by exists hd|]. split; [apply keeps_refl|done].
  - rewrite last_snoc, removelast_last. eapply exec_runs; [by eapply RPop_exec|]. split; [done|].
    split; [eexists; by apply (RPop_at db m key hd x l)|]. split; [|done]. apply shrink_keeps; [done|]. intros s ->%list_elem_of_singleton.
    unfold ltail in H4. rewrite length_app in H4. simpl in H4. replace (hd + len l) with (hd + 0 `max` (Z.of_nat (length l + 1) - 1)) by lia. done.
Qed.

Lemma LSet_range db key head l index value m e :
  checkKeySize key = None -> list_at db m key head l -> in_i32 index -> l <> [] -> ~ (0 <= position l index < len l) ->
  exec (LSet db key index value) m e (Some errListIndex) m e.
Proof using BS.
  intros Hk Hl Hx Hne Hi. pose proof (list_seq_range _ _ _ _ _ Hl) as (H1 & H2 & H3 & H4 & H5).
  assert (0 < len l) by (destruct l; [done|simpl; lia]).
  unfold exec, LSet. rewrite Hk. wp_auto. eapply wp_lGetMeta; [exact Hl|]. cbv beta iota zeta.
  unfold in_i32, ltail, listMinSeq, listMaxSeq, position in *. rewrite Z.geb_leb. set (seq := if 0 <=? index then _ else _).
  assert (Hs : (seq <? head) || (seq >? head + 0 `max` (len l - 1)) = true); [|rewrite Hs; by wp_auto].
  apply orb_true_iff. rewrite Z.gtb_ltb, !Z.ltb_lt. subst seq. destruct (0 <=? index) eqn:E; zify_bool.
  - destruct (decide (head + index < 2 ^ 31)); [rewrite int32_small by (unfold in_i32; lia); lia|].
    left. unfold swrap. change (2 ^ (32 - 1)) with (2 ^ 31). change (2 ^ 32) with (2 * 2 ^ 31).
    replace (head + index + 2 ^ 31) with ((head + index - 2 ^ 31) + 1 * (2 * 2 ^ 31)) by lia. rewrite Z.mod_add, Z.mod_small by lia. lia.
  - rewrite (int32_small (_ + index)), int32_small by (unfold in_i32; lia). lia.
Qed.

Lemma signal_now key e : now (signal_env key e) = now e.
Proof using. unfold signal_env. by destruct (_ !! _) as [[]|]. Qed.

Lemma list_run_step db key op l m e :
  checkKeySize key = None -> list_pre key l op -> well_keyed db m -> list_rep db m key l ->
  runs (run_list db key op) m e (fun r m' e' => now e' = now e /\ exists l', list_step l op r l' /\ list_rep db m' key l' /\ keeps db ListType key m m').
Proof using BS.
  intros Hk Hp Hw Hr. pose proof (short_key _ Hk) as Hs. pose proof Hr as [hd Hl].
  destruct op as [args|args| | | |i|s t|i v|s t|]; cbn [run_list list_pre list_step] in *; apply runs_map.
  - destruct Hp as [Hne Hn]. eapply wp_mono; [by eapply (LPush_runs db key args hd)|]. cbv beta.
    intros r m' b' e' [-> HQ]. split; [done|]. destruct (_ <? _).
    + destruct HQ as (-> & HL & HT & ->). split; [apply signal_now|]. exists (reverse args ++ l). split; [by left|]. split; [by eexists|done].
    + destruct HQ as (-> & -> & ->). split; [done|]. exists l. split; [by right|]. split; [done|apply keeps_refl].
  - destruct Hp as [Hne Hn]. eapply wp_mono; [by eapply (RPush_runs db key args hd)|]. cbv beta.
    intros r m' b' e' [-> HQ]. split; [done|]. destruct (_ <? _).
    + destruct HQ as (-> & HL & HT & ->). split; [apply signal_now|]. exists (l ++ args). split; [by left|]. split; [by eexists|done].
    + destruct HQ as (-> & -> & ->). split; [done|]. exists l. split; [by right|]. split; [done|apply keeps_refl].
  - eapply wp_mono; [by apply (LPop_runs db key l)|]. intros r m' b' e' (-> & -> & HL & HT & ->). eauto 10.
  - eapply wp_mono; [by apply (RPop_runs db key l)|]. intros r m' b' e' (-> & -> & HL & HT & ->). eauto 10.
  - apply (LLen_wp db key hd l); [done..|]. split; [done|]. split; [done|]. exists l. split; [done|]. split; [done|apply keeps_refl].
  - eapply exec_same; [by eapply LIndex_exec|]. exists l. split; [done|]. split; [done|apply keeps_refl].
  - destruct Hp. eapply exec_same; [by eapply LRange_exec|]. exists l. split; [done|]. split; [done|apply keeps_refl].
  - destruct Hp as [Hi Hne]. destruct (decide (0 <= position l i < len l)) as [Hin|Hout].
    + eapply exec_same; [by eapply LSet_exec|]. rewrite bool_decide_eq_true_2 by done. fold (position l i).
      destruct (LSet_list_at db m key hd l (position l i) v Hs Hl Hin). eexists. split; [done|]. split; [by eexists|done].
    + eapply exec_same; [by eapply LSet_range|]. rewrite bool_decide_eq_false_2 by done. exists l.
      split; [done|]. split; [done|apply keeps_refl].
  - destruct Hp as (H1 & H2 & H3). destruct (LTrim_exec db key hd l s t m e Hk Hw Hl H1 H2 H3) as (m' & HE & HL & HT).
    eapply exec_same; [exact HE|]. by eexists.
  - eapply exec_same; [by eapply LClear_exec|]. eexists. split; [done|]. split; [by eapply clear_list_at|].
    apply shrink_keeps; [done|]. intros x Hx. by eapply seqZ_i32.
Qed.

End Refinement.

Lemma list_rep_empty (db : DB) (key : bytes) : list_rep db ∅ key [].
Proof.
  exists listInitialSeq. split; [done|done|apply lookup_empty|]. intros s Hs. rewrite lookup_empty. by destruct (_ <=? _).
Qed.

#[global] Instance list_container_spec : ContainerSpec list_container.
Proof.
  split.
  - exact list_rep_empty.
  - intros db key T' key' m m' l Hk Hne HT Hl. eapply list_rep_frame; [by apply short_key|done..].
  - intros B BS db key op l m e. apply list_run_step.
Qed.

(** * Properties *)

(** C3: lists are double ended queues.  Any sequence of pushes, pops, reads, updates,
    trims and clears on a key of a store that holds a list there returns what the abstract
    list operations return (a push may be refused with [errListSeq], which changes
    nothing), leaves a store that holds the abstract result, and touches no other key. *)
Theorem list_refines {B : Backend} {BS : BackendSpec B} (db : DB) (key : bytes) (ops : list list_op) (l : list bytes)
    (m : gmap bytes bytes) (e : Env) :
  checkKeySize key = None -> allowed key l ops -> well_keyed db m -> list_rep db m key l ->
  runs (run_all db key ops) m e (fun rs m' _ =>
    exists l', steps l ops rs l' /\ list_rep db m' key l' /\ keeps db ListType key m m').
Proof. apply (run_all_refines (C := list_container)). Qed.

(** C32: when a push is refused.  A push of elements that fit before the last (for [LPush],
    after the first) sequence number succeeds, wakes the clients blocked on the key, and
    keeps the sequence numbers inside their range; one that does not fit returns
    [errListSeq] and changes nothing, although elements may already have been queued. *)
Theorem list_push_bounds {B : Backend} {BS : BackendSpec B} (db : DB) (key : bytes) (args : list bytes) (head : Z)
    (l : list bytes) (m : gmap bytes bytes) (e : Env) :
  checkKeySize key = None -> list_at db m key head l -> args <> [] -> len args < 2 ^ 31 ->
  runs (RPush db key args) m e (fun res m' e' =>
    if head + len l + len args - 1 <? listMaxSeq
    then res = (len l + len args, None) /\ list_at db m' key head (l ++ args) /\ keeps db ListType key m m' /\ e' = signal_env key e
    else res = (0, Some errListSeq) /\ m' = m /\ e' = e) /\
  runs (LPush db key args) m e (fun res m' e' =>
    if listMinSeq <? lhead head l - (len args - 1)
    then res = (len l + len args, None) /\ list_at db m' key (lhead head l - (len args - 1)) (reverse args ++ l) /\
         keeps db ListType key m m' /\ e' = signal_env key e
    else res = (0, Some errListSeq) /\ m' = m /\ e' = e).
Proof. intros Hk Hl Hne Hn. split; [by apply RPush_runs|by apply LPush_runs]. Qed.


(** ** Examples *)

Definition ex_list : gmap bytes bytes :=
  pushed db0 ∅ [107] listInitialSeq 1 [[97]; [98]] listInitialSeq (listInitialSeq + 1).

Lemma ex_list_at : list_at db0 ex_list [107] listInitialSeq [[97]; [98]].
Proof.
  destruct (list_rep_empty db0 [107]) as [head Hl]. pose proof (la_empty _ _ _ _ _ Hl eq_refl) as ->.
  apply (RPush_list_at db0 ∅ [107] listInitialSeq [] [[97]; [98]]); done.
Qed.

Lemma ex_list_keeps : keeps db0 ListType [107] ∅ ex_list.
Proof.
  apply (pushed_keeps db0 ∅ [107] listInitialSeq 1 [[97]; [98]]); [done|].
  intros i Hi. unfold in_i32, listInitialSeq, listMaxSeq, listMinSeq. simpl in Hi. change ((_ - 1000 - 1000) / 2) with 1073740824. lia.
Qed.

Lemma ex_list_keyed : well_keyed db0 ex_list.
Proof. apply ex_list_keeps, well_keyed_empty. Qed.

Lemma list_refines_witness :
  runs (B := MemBackend) (run_all db0 [107] [opRPop; opLTrim 0 (-1); opLIndex (-1); opLSet 0 [99]]) ex_list env0
    (fun rs m' _ => rs = [lrVal (Some [98], None); lrErr None; lrVal (Some [97], None); lrErr None] /\ list_rep db0 m' [107] [[99]]).
Proof.
  eapply wp_mono.
  - apply (list_refines (B := MemBackend) db0 [107] [opRPop; opLTrim 0 (-1); opLIndex (-1); opLSet 0 [99]] [[97]; [98]] ex_list env0
      eq_refl); [|exact ex_list_keyed|exists listInitialSeq; exact ex_list_at].
    split; [done|]. intros ? l1 [_ ->]. split; [split; [done|split; [done|simpl; lia]]|]. intros ? l2 [_ ->].
    split; [done|]. intros ? l3 [_ ->]. split; [split; [done|vm_compute; discriminate]|done].
  - intros rs m' b' e' (-> & l' & Hs & Hl & _). split; [done|]. steps_inv. subst. vm_compute in H5. destruct H5 as [-> ->]. split; [reflexivity|exact Hl].
Defined.

Lemma list_push_bounds_witness :
  runs (B := MemBackend) (RPush db0 [107] [[99]]) ex_list env0 (fun res m' e' => res = (3, None) /\ list_rep db0 m' [107] [[97]; [98]; [99]]).
Proof.
  eapply wp_mono.
  - exact (proj1 (list_push_bounds (B := MemBackend) db0 [107] [[99]] listInitialSeq [[97]; [98]] ex_list env0 eq_refl ex_list_at
      ltac:(done) ltac:(done))).
  - intros res m' b' e' (-> & -> & Hl & _). split; [done|]. split; [done|]. by eexists.
Defined.
