(* ===== verification/Block.v ===== *)
(** * Blocking pops (src/ledis/t_list.go)

    [BLPop] and [BRPop] under schedules of what other clients do while the client waits: a
    push to one of the keys wakes the client, which returns the element; pushes to other
    keys do not. *)

From S2P Require Import Prelude Driver Store Keys Util Core Frame Refine TList.

(** The client of [fn] waits on the keys. *)
Fixpoint wait_env (keys : list bytes) (fn : nat) (e : Env) : Env :=
  match keys with
  | [] => e
  | key :: keys =>
      wait_env keys fn (mkEnv (now e) (nc e) (<[key := default [] (lbkeys e !! key) ++ [fn]]> (lbkeys e)) (cancelled e))
  end.

Definition cancel_env (fn : nat) (e : Env) : Env := mkEnv (now e) (nc e) (lbkeys e) (cancelled e ++ [fn]).

Lemma wait_env_now keys fn e : now (wait_env keys fn e) = now e.
Proof. revert e; induction keys as [|k keys IH]; intros e; [done|]. cbn [wait_env]. by rewrite IH. Qed.

Lemma wait_env_cancelled keys fn e : cancelled (wait_env keys fn e) = cancelled e.
Proof. revert e; induction keys as [|k keys IH]; intros e; [done|]. cbn [wait_env]. by rewrite IH. Qed.

Lemma wait_env_keeps keys fn e key f : f ∈ default [] (lbkeys e !! key) -> f ∈ default [] (lbkeys (wait_env keys fn e) !! key).
Proof.
  revert e; induction keys as [|k keys IH]; intros e Hf; [done|]. cbn [wait_env]. apply IH. cbn [lbkeys].
  destruct (decide (k = key)) as [->|]; simplify_map_eq; [|done]. apply elem_of_app. by left.
Qed.

Lemma wait_env_registers keys fn e key : key ∈ keys -> fn ∈ default [] (lbkeys (wait_env keys fn e) !! key).
Proof.
  revert e; induction keys as [|k keys IH]; intros e Hin; [by apply elem_of_nil in Hin|]. cbn [wait_env]. apply elem_of_cons in Hin as [->|Hin]; [|by apply IH].
  apply wait_env_keeps. simplify_map_eq. cbn [default]. apply elem_of_app. right. by apply list_elem_of_singleton.
Qed.

Lemma wait_env_other keys fn e key : key ∉ keys -> lbkeys (wait_env keys fn e) !! key = lbkeys e !! key.
Proof.
  revert e; induction keys as [|k keys IH]; intros e Hin; [done|]. cbn [wait_env]. apply not_elem_of_cons in Hin as [Hne Hin]. rewrite IH by done.
  cbn [lbkeys]. by simplify_map_eq.
Qed.

Section Blocking.
Context {B : Backend} {BS : BackendSpec B}.
Implicit Types (db : DB) (key : bytes) (keys vs : list bytes) (m : gmap bytes bytes) (e : Env) (fn : nat).

Definition empty_list db m key : Prop := checkKeySize key = None /\ list_rep db m key [].

Lemma lb_wait_exec key fn m e : exec (lb_wait key fn) m e tt m (wait_env [key] fn e).
Proof using.
  intros st Hst. unfold lb_wait. pose proof (at_env _ _ _ _ Hst) as He. rewrite He. eexists _, _, m, no_ops, _.
  split; [done|]. split; [by eapply at_with_env|]. done.
Qed.

Lemma cancel_exec fn m e : exec (cancel fn) m e tt m (cancel_env fn e).
Proof using.
  intros st Hst. unfold cancel. pose proof (at_env _ _ _ _ Hst) as He. rewrite He. eexists _, _, m, no_ops, _.
  split; [done|]. split; [by eapply at_with_env|]. done.
Qed.

Lemma is_cancelled_exec fn m e : exec (is_cancelled fn) m e (bool_decide (fn ∈ cancelled e)) m e.
Proof using.
  intros st Hst. unfold is_cancelled, gets. rewrite (at_env _ _ _ _ Hst). eexists _, st, m, no_ops, e. done.
Qed.

Lemma popOrWait_empty db key whereSeq fn m e :
  empty_list db m key -> exec (popOrWait db key whereSeq fn) m e (None, None) m (wait_env [key] fn e).
Proof using.
  intros [Hk [hd Hl]]. unfold popOrWait. eapply exec_bind; [by eapply lpop_empty|]. cbv beta iota. eapply exec_bind; [apply lb_wait_exec|]. by apply wp_ret.
Qed.

(** A pass over empty lists registers the client on all of them. *)
Lemma pass_empty db keys whereSeq fn m e :
  Forall (empty_list db m) keys -> exec (lblockPop_pass db keys whereSeq fn) m e None m (wait_env keys fn e).
Proof using.
  intros HF. unfold lblockPop_pass. revert e. induction HF as [|key keys Hk HF IH]; intros e; cbn [for_ret wait_env]; [by apply wp_ret|].
  eapply exec_bind with (a := None); [|apply IH]. cbv beta. eapply exec_bind; [by apply popOrWait_empty|]. by apply wp_ret.
Qed.

(** A pass whose first list with elements is that of [key]. *)
Lemma pass_pops db pre key post v l fn m e :
  Forall (empty_list db m) pre -> checkKeySize key = None -> list_rep db m key (v :: l) ->
  runs (lblockPop_pass db (pre ++ key :: post) listHeadSeq fn) m e (fun res m' e' =>
    res = Some (Some (key, (key, v)), None) /\ list_rep db m' key l /\ keeps db ListType key m m' /\ now e' = now e).
Proof using BS.
  intros HF Hk Hl. unfold lblockPop_pass. revert e. induction HF as [|k pre Hk' HF IH]; intros e; cbn [for_ret app].
  - apply wp_bind, wp_bind. unfold popOrWait. apply wp_bind. eapply wp_mono; [exact (LPop_runs db key (v :: l) m e Hk Hl)|].
    intros ? m' b' e' (-> & -> & Hl' & HK & ->). cbv beta iota. apply wp_ret. cbv beta iota. apply wp_bind.
    eapply wp_mono; [apply cancel_exec|]. intros ? ? ? ? (_ & -> & -> & ->). apply wp_ret. cbv beta iota. by apply wp_ret.
  - eapply runs_bind with (a := None); [|eapply wp_mono; [apply IH|]; intros res m' b' e' (-> & -> & H1 & H2 & H3); split; [done|]; split; [done|];
      split; [done|]; split; [done|]; by rewrite H3, (wait_env_now [k] fn)].
    cbv beta. eapply exec_bind; [by apply popOrWait_empty|]. by apply wp_ret.
Qed.

Definition ignore_push db key vs : M unit := _ ← RPush db key vs; mret tt.

Lemma push_empty db key v vs m e :
  empty_list db m key -> len (v :: vs) < 2 ^ 29 ->
  runs (ignore_push db key (v :: vs)) m e (fun _ m' e' =>
    list_rep db m' key (v :: vs) /\ keeps db ListType key m m' /\ e' = signal_env key e).
Proof using BS.
  intros [Hk [hd Hl]] Hb. pose proof (la_empty _ _ _ _ _ Hl eq_refl) as ->. unfold ignore_push. apply wp_bind.
  eapply wp_mono; [apply (RPush_runs db key (v :: vs) listInitialSeq [] m e); [done..|lia]|].
  intros res m' b' e'. assert (Hlt : (listInitialSeq + len (@nil bytes) + len (v :: vs) - 1 <? listMaxSeq) = true).
  { apply Z.ltb_lt. change listInitialSeq with 1073741824. change listMaxSeq with 2147482648. change (len []) with 0. lia. }
  rewrite Hlt. intros (-> & _ & Hl' & HK & ->). apply wp_ret. split; [done|]. split; [by eexists|done].
Qed.

End Blocking.

Section Served.
Context {B : Backend} {BS : BackendSpec B}.
Implicit Types (db : DB) (key : bytes) (keys vs : list bytes) (m : gmap bytes bytes) (e : Env) (fn : nat).

Lemma empty_frame db m m' key k :
  keeps db ListType key m m' -> k <> key -> empty_list db m k -> empty_list db m' k.
Proof using.
  intros HK Hne [Hk Hl]. split; [done|]. eapply list_rep_frame; [by apply short_key|by apply HK|by right|done].
Qed.

Lemma signalled key fn e : fn ∈ default [] (lbkeys e !! key) -> fn ∈ cancelled (signal_env key e).
Proof using.
  intros Hf. unfold signal_env. destruct (lbkeys e !! key); [|by apply elem_of_nil in Hf]. cbn [cancelled]. apply elem_of_app. by right.
Qed.

(** The first round of a blocking pop on empty lists. *)
Lemma BLPop_waits db keys fn (sched : list wake) m e (Q : option (option (bytes * (bytes * bytes)) * option error) -> gmap bytes bytes -> Env -> Prop) :
  Forall (empty_list db m) keys -> runs (lwait db keys listHeadSeq fn sched) m (wait_env keys fn e) Q -> runs (BLPop db keys fn sched) m e Q.
Proof using BS. intros HF HQ. unfold BLPop, lblockPop. eapply runs_bind; [by apply pass_empty|]. exact HQ. Qed.

Lemma served db keys key v vs fn m e :
  Forall (empty_list db m) keys -> key ∈ keys -> len (v :: vs) < 2 ^ 29 ->
  runs (BLPop db keys fn [Elapse (ignore_push db key (v :: vs))]) m e (fun res m' _ =>
    res = Some (Some (key, (key, v)), None) /\ list_rep db m' key vs /\ keeps db ListType key m m').
Proof using BS.
  intros HF Hin Hb. apply BLPop_waits; [done|]. cbn [lwait]. pose proof (wait_env_registers keys fn e key Hin) as Hreg.
  set (e1 := wait_env keys fn e) in *. assert (He : empty_list db m key) by (rewrite Forall_forall in HF; by apply HF).
  apply wp_bind. eapply wp_mono; [by apply push_empty|]. intros _ m1 b1 e2 (-> & Hl1 & HK1 & ->). apply wp_bind.
  eapply wp_mono; [apply is_cancelled_exec|]. intros ? ? ? ? (-> & -> & -> & ->).
  rewrite (bool_decide_eq_true_2 _ (signalled _ _ _ Hreg)). cbv iota. apply wp_bind.
  eapply wp_mono; [apply cancel_exec|]. intros ? ? ? ? (_ & -> & -> & ->). apply wp_bind.
  apply list_elem_of_split_l in Hin as (pre & post & -> & Hnin). apply Forall_app in HF as [HF _].
  eapply wp_mono; [apply (pass_pops db pre key post v vs (S fn) m1); [|apply He|done]|].
  - rewrite Forall_forall in *. intros k Hk. eapply empty_frame; [exact HK1| |by apply HF]. intros ->. done.
  - intros res m' b' e' (-> & -> & Hl & HK & _). cbv iota. apply wp_ret. split; [done|]. split; [done|]. split; [done|]. by eapply keeps_trans.
Qed.

Lemma not_served db keys other v vs fn m e :
  Forall (empty_list db m) keys -> empty_list db m other -> other ∉ keys -> len (v :: vs) < 2 ^ 29 ->
  fn ∉ cancelled e -> fn ∉ default [] (lbkeys e !! other) ->
  runs (BLPop db keys fn [Elapse (ignore_push db other (v :: vs))]) m e (fun res m' e' =>
    res = None /\ Forall (empty_list db m') keys /\ list_rep db m' other (v :: vs) /\ forall k, k ∈ keys -> fn ∈ default [] (lbkeys e' !! k)).
Proof using BS.
  intros HF Ho Hnin Hb Hc Hq. apply BLPop_waits; [done|]. cbn [lwait]. apply wp_bind. eapply wp_mono; [by apply push_empty|].
  intros _ m1 b1 e2 (-> & Hl1 & HK1 & ->). apply wp_bind. eapply wp_mono; [apply is_cancelled_exec|]. intros ? ? ? ? (-> & -> & -> & ->).
  assert (Hnc : fn ∉ cancelled (signal_env other (wait_env keys fn e))).
  { unfold signal_env. rewrite wait_env_other by done. destruct (lbkeys e !! other) as [fns|]; cbn [default cancelled] in *;
      rewrite ?wait_env_cancelled; [|done]. rewrite elem_of_app. by intros [?|?]. }
  rewrite (bool_decide_eq_false_2 _ Hnc). cbv iota. apply wp_ret. split; [done|]. split; [done|].
  split; [|split; [done|]].
  - rewrite Forall_forall in *. intros k Hk. eapply empty_frame; [exact HK1| |by apply HF]. intros ->. done.
  - intros k Hk. pose proof (wait_env_registers keys fn e k Hk) as Hreg. unfold signal_env. destruct (lbkeys (wait_env keys fn e) !! other); [|exact Hreg].
    cbn [lbkeys]. rewrite lookup_delete_ne; [done|]. intros ->. done.
Qed.

End Served.

(** C13: blocking pops are served.  A client that blocks on empty lists waits; when another
    client pushes to one of its keys, it is woken and returns the first element pushed,
    which is removed from the list; the other lists are not touched.  A push to a key it
    does not wait on leaves it waiting, still registered on all its keys, and when its
    timeout passes it returns nothing and changes nothing. *)
Theorem blocked_pop_served {B : Backend} {BS : BackendSpec B} (db : DB) (keys : list bytes) (key other v : bytes) (vs : list bytes)
    (fn : nat) (m : gmap bytes bytes) (e : Env) :
  Forall (empty_list db m) keys -> len (v :: vs) < 2 ^ 29 ->
  (key ∈ keys -> runs (BLPop db keys fn [Elapse (ignore_push db key (v :: vs))]) m e (fun res m' _ =>
    res = Some (Some (key, (key, v)), None) /\ list_rep db m' key vs /\ keeps db ListType key m m')) /\
  (other ∉ keys -> empty_list db m other -> fn ∉ cancelled e -> fn ∉ default [] (lbkeys e !! other) ->
   runs (BLPop db keys fn [Elapse (ignore_push db other (v :: vs))]) m e (fun res m' e' =>
    res = None /\ Forall (empty_list db m') keys /\ list_rep db m' other (v :: vs) /\ forall k, k ∈ keys -> fn ∈ default [] (lbkeys e' !! k))) /\
  runs (BLPop db keys fn [DeadlineExceeded]) m e (fun res m' _ => res = Some (None, None) /\ m' = m).
Proof.
  intros HF Hb. split; [intros Hin; by apply served|]. split; [intros; by apply not_served|].
  apply BLPop_waits; [done|]. cbn [lwait]. apply wp_bind. eapply wp_mono; [apply cancel_exec|]. intros ? ? ? ? (_ & -> & -> & ->). by apply wp_ret.
Qed.

Lemma blocked_pop_served_witness :
  runs (B := MemBackend) (BLPop db0 [[107]; [108]] 1 [Elapse (ignore_push db0 [108] [[97]; [98]])]) ∅ env0
    (fun res m' _ => res = Some (Some ([108], ([108], [97])), None) /\ list_rep db0 m' [108] [[98]]).
Proof.
  eapply wp_mono.
  - refine (proj1 (blocked_pop_served (B := MemBackend) db0 [[107]; [108]] [108] [109] [97] [[98]] 1 ∅ env0 _ eq_refl) _).
    + repeat constructor; apply list_rep_empty.
    + set_solver.
  - intros res m' b' e' (-> & -> & Hl & _). done.
Defined.
