(* ===== verification/Coll.v ===== *)
(** * Collections: members and a size entry

    Hashes, sets and the member part of sorted sets have the same layout: one entry per
    member and an entry with their number, absent when the collection is empty.  This file
    proves once what a batch of member writes followed (or preceded) by a size update does
    to the collection a key holds. *)

From S2P Require Import Prelude Driver Store Keys Util Core Frame.

(** A member write: a new value, or a removal. *)
Definition member_op (db : DB) (mem : bytes -> skey) (u : bytes * option bytes) : BatchOp :=
  match u.2 with
  | Some v => OpPut (encode db (mem u.1)) v
  | None => OpDelete (encode db (mem u.1))
  end.

Definition upd1 (h : gmap bytes bytes) (u : bytes * option bytes) : gmap bytes bytes :=
  match u.2 with Some v => <[u.1 := v]> h | None => delete u.1 h end.

Definition upd (h : gmap bytes bytes) (us : list (bytes * option bytes)) : gmap bytes bytes := fold_left upd1 us h.

(** What [hIncrSize], [sIncrSize] and [zIncrSize] queue for the new size [n]. *)
Definition size_ops (db : DB) (m : gmap bytes bytes) (T : Z) (key sk : bytes) (n : Z) : list BatchOp :=
  if n <=? 0 then OpDelete sk :: rm_ops db m T key else [OpPut sk (PutInt64 n)].

(** The size entry of a collection. *)
Definition size_entry (h : gmap bytes bytes) : option bytes :=
  if decide (h = ∅) then None else Some (PutInt64 (Z.of_nat (size h))).

Lemma upd_cons h u us : upd h (u :: us) = upd (upd1 h u) us.
Proof. done. Qed.

Section Coll.
Context (db : DB) (T : Z) (key : bytes) (mem : bytes -> skey) (sz : skey).
Context (Hmem : forall f, representable (mem f)) (Hsz : representable sz).
Context (Hinj : forall f g, mem f = mem g -> f = g) (Hdis : forall f, mem f <> sz).
Context (Hexp : forall f, is_exp (mem f) = false) (Hexps : is_exp sz = false).
Context (Hown : forall f, belongs T key (mem f)) (Howns : belongs T key sz).
Implicit Types (m h : gmap bytes bytes) (us : list (bytes * option bytes)).

Record coll_rep m h : Prop := {
  cr_members : forall f, m !! encode db (mem f) = h !! f;
  cr_size : m !! encode db sz = size_entry h
}.

Lemma mem_ne f g : f <> g -> encode db (mem f) <> encode db (mem g).
Proof using Hmem Hinj. intros Hne. apply encode_ne; auto. Qed.

Lemma mem_sz f : encode db (mem f) <> encode db sz.
Proof using Hmem Hsz Hdis. apply encode_ne; auto. Qed.

Lemma member_ops_members us m h :
  (forall f, m !! encode db (mem f) = h !! f) ->
  forall f, apply_ops (map (member_op db mem) us) m !! encode db (mem f) = upd h us !! f.
Proof using Hmem Hinj.
  revert m h; induction us as [|[g [v|]] us IH]; intros m h Hm f; [apply Hm| |].
  - apply (IH (<[encode db (mem g) := v]> m) (<[g := v]> h)). intros f'. destruct (decide (g = f')) as [->|Hne].
    + by rewrite !lookup_insert_eq.
    + rewrite !lookup_insert_ne by (try apply mem_ne; done). apply Hm.
  - apply (IH (delete (encode db (mem g)) m) (delete g h)). intros f'. destruct (decide (g = f')) as [->|Hne].
    + by rewrite !lookup_delete_eq.
    + rewrite !lookup_delete_ne by (try apply mem_ne; done). apply Hm.
Qed.

Lemma member_ops_other us m k :
  (forall f, encode db (mem f) <> k) -> apply_ops (map (member_op db mem) us) m !! k = m !! k.
Proof using. intros Hk. apply apply_map_other. intros [f [v|]] _; apply Hk. Qed.

Lemma size_ops_member m0 n m f :
  apply_ops (size_ops db m0 T key (encode db sz) n) m !! encode db (mem f) = m !! encode db (mem f).
Proof using Hmem Hsz Hdis Hexp.
  pose proof (mem_sz f). unfold size_ops. destruct (n <=? 0); simpl.
  - change (fold_left apply_op ?ops ?m1) with (apply_ops ops m1). rewrite apply_rm_other by done. by rewrite lookup_delete_ne.
  - by rewrite lookup_insert_ne.
Qed.

Lemma size_ops_size m0 h m :
  Z.of_nat (size h) < 2 ^ 63 ->
  apply_ops (size_ops db m0 T key (encode db sz) (Z.of_nat (size h))) m !! encode db sz = size_entry h.
Proof using Hsz Hexps.
  intros Hb. unfold size_ops, size_entry. case_decide as Hh.
  - rewrite Hh, map_size_empty. simpl. change (fold_left apply_op ?ops ?m1) with (apply_ops ops m1).
    rewrite apply_rm_other by done. apply lookup_delete_eq.
  - destruct (size h) eqn:E; [by apply map_size_empty_iff in E|]. rewrite (proj2 (Z.leb_gt _ 0)) by lia.
    simpl. apply lookup_insert_eq.
Qed.

(** Members written, then the size. *)
Lemma coll_update us m0 m h :
  coll_rep m h -> Z.of_nat (size (upd h us)) < 2 ^ 63 ->
  coll_rep (apply_ops (map (member_op db mem) us ++ size_ops db m0 T key (encode db sz) (Z.of_nat (size (upd h us)))) m) (upd h us).
Proof using Hmem Hsz Hinj Hdis Hexp Hexps.
  intros [Hm Hs] Hb. rewrite apply_ops_app. split.
  - intros f. rewrite size_ops_member. by apply member_ops_members.
  - by apply size_ops_size.
Qed.

(** The size, then the members. *)
Lemma coll_update' us m0 m h :
  coll_rep m h -> Z.of_nat (size (upd h us)) < 2 ^ 63 ->
  coll_rep (apply_ops (size_ops db m0 T key (encode db sz) (Z.of_nat (size (upd h us))) ++ map (member_op db mem) us) m) (upd h us).
Proof using Hmem Hsz Hinj Hdis Hexp Hexps.
  intros [Hm Hs] Hb. rewrite apply_ops_app. split.
  - apply member_ops_members. intros f. by rewrite size_ops_member.
  - rewrite member_ops_other by apply mem_sz. by apply size_ops_size.
Qed.

(** Members overwritten: the size entry stays. *)
Lemma coll_overwrite us m h :
  coll_rep m h -> size (upd h us) = size h -> coll_rep (apply_ops (map (member_op db mem) us) m) (upd h us).
Proof using Hmem Hsz Hinj Hdis.
  intros [Hm Hs] Hz. split; [by apply member_ops_members|]. rewrite member_ops_other by apply mem_sz.
  rewrite Hs. unfold size_entry. rewrite Hz.
  destruct (decide (h = ∅)) as [E|Hne], (decide (upd h us = ∅)) as [E'|Hne']; try done; exfalso.
  - apply Hne', map_size_empty_iff. by rewrite Hz, E, map_size_empty.
  - apply Hne, map_size_empty_iff. by rewrite <- Hz, E', map_size_empty.
Qed.

Lemma ops_for_members us : ops_for db T key (map (member_op db mem) us).
Proof using Hmem Hown Hexp.
  apply (ops_for_map _ _ _ _ (fun u => mem u.1)). intros [f [v|]] _; simpl; rewrite ?Hexp; (split; [done|]); (split; [apply Hmem|]); (split; [apply Hown|done]).
Qed.

Lemma ops_for_size m n : ops_for db T key (size_ops db m T key (encode db sz) n).
Proof using Hsz Howns Hexps.
  unfold size_ops. destruct (n <=? 0); [|apply (ops_for_cons _ _ _ _ _ sz); [done..|simpl; by rewrite Hexps|constructor]].
  apply (ops_for_cons _ _ _ _ _ sz); [done..|]. apply ops_for_rm.
Qed.

(** The size entry read as the code reads it. *)
Lemma size_read m h : coll_rep m h -> Z.of_nat (size h) < 2 ^ 63 ->
  Int64 (m !! encode db sz) None = (Z.of_nat (size h), None).
Proof using.
  intros [_ ->] Hb. unfold size_entry. case_decide as Hh; [by rewrite Hh, map_size_empty|].
  apply Int64_PutInt64. unfold in_i64. lia.
Qed.

Lemma coll_frame m m' T' key' h :
  touches db T' key' m m' -> T' <> T \/ key' <> key -> coll_rep m h -> coll_rep m' h.
Proof using Hmem Hsz Hown Howns.
  intros [HF _ _] Hne [Hm Hs].
  assert (Hb : forall k, belongs T key k -> ~ belongs T' key' k).
  { intros k H1 H2. destruct (belongs_unique _ _ _ _ _ H1 H2) as [-> ->]. by destruct Hne. }
  split; [intros f|]; by rewrite HF by auto.
Qed.

End Coll.

(** ** Counting the members a list of writes adds or removes *)

(** The members among [fs] that [h] does not have, and those it has. *)
Fixpoint count_new (h : gmap bytes bytes) (fs : list bytes) : nat :=
  match fs with
  | [] => O
  | f :: fs' => (match h !! f with Some _ => 0 | None => 1 end + count_new h fs')%nat
  end.

Fixpoint count_old (h : gmap bytes bytes) (fs : list bytes) : nat :=
  match fs with
  | [] => O
  | f :: fs' => (match h !! f with Some _ => 1 | None => 0 end + count_old h fs')%nat
  end.

Lemma count_new_ext h h' fs : (forall f, f ∈ fs -> h !! f = h' !! f) -> count_new h fs = count_new h' fs.
Proof.
  induction fs as [|f fs IH]; intros H; simpl; [done|]. rewrite (H f) by constructor.
  rewrite IH; [done|]. intros g Hg. apply H. by constructor.
Qed.

Lemma count_old_ext h h' fs : (forall f, f ∈ fs -> h !! f = h' !! f) -> count_old h fs = count_old h' fs.
Proof.
  induction fs as [|f fs IH]; intros H; simpl; [done|]. rewrite (H f) by constructor.
  rewrite IH; [done|]. intros g Hg. apply H. by constructor.
Qed.

Lemma count_new_le h fs : (count_new h fs <= length fs)%nat.
Proof. induction fs as [|f fs IH]; simpl; [lia|]. destruct (h !! f); lia. Qed.

Lemma count_old_le h fs : (count_old h fs <= length fs)%nat.
Proof. induction fs as [|f fs IH]; simpl; [lia|]. destruct (h !! f); lia. Qed.

(** Writing distinct members adds the new ones. *)
Lemma upd_puts_size h (args : list (bytes * bytes)) :
  NoDup args.*1 -> size (upd h (map (fun p => (p.1, Some p.2)) args)) = (size h + count_new h args.*1)%nat.
Proof.
  revert h; induction args as [|[f v] args IH]; intros h; [simpl; lia|]. rewrite fmap_cons. intros [Hf Hn]%NoDup_cons.
  cbn [map fst snd count_new] in *. rewrite upd_cons. cbn [upd1 fst snd]. rewrite IH by done.
  rewrite (count_new_ext (<[f := v]> h) h).
  - rewrite map_size_insert. destruct (h !! f); simpl; lia.
  - intros g Hg. apply lookup_insert_ne. intros ->. done.
Qed.

(** Removing distinct members removes those that were there. *)
Lemma upd_dels_size h (fs : list bytes) :
  NoDup fs -> (size (upd h (map (fun f => (f, None)) fs)) + count_old h fs)%nat = size h.
Proof.
  revert h; induction fs as [|f fs IH]; intros h; [simpl; lia|]. intros [Hf Hn]%NoDup_cons.
  cbn [map count_old]. rewrite upd_cons. cbn [upd1 fst snd]. specialize (IH (delete f h) Hn).
  rewrite (count_old_ext (delete f h) h) in IH.
  - rewrite map_size_delete in IH. destruct (h !! f) eqn:E; simpl in *; [|lia].
    assert (size h <> 0)%nat; [|lia]. intros Hz%map_size_empty_iff. by rewrite Hz in E.
  - intros g Hg. apply lookup_delete_ne. intros ->. done.
Qed.

Lemma upd_dels_lookup h (fs : list bytes) k :
  upd h (map (fun f => (f, None)) fs) !! k = if decide (k ∈ fs) then None else h !! k.
Proof.
  revert h; induction fs as [|x xs IH]; intros h; [done|]. cbn [map]. rewrite upd_cons. cbn [upd1 fst snd]. rewrite IH.
  destruct (decide (k = x)) as [->|Hne].
  - rewrite lookup_delete_eq, (decide_True (P := x ∈ x :: xs)) by constructor. by case_decide.
  - rewrite lookup_delete_ne by done. repeat case_decide; try done; exfalso; set_solver.
Qed.

(** Removing a member that is not there does nothing. *)
Lemma upd_dels_skip h (fs : list bytes) :
  upd h (map (fun f => (f, None)) (filter (fun f => is_Some (h !! f)) fs)) = upd h (map (fun f => (f, None)) fs).
Proof.
  apply map_eq. intros k. rewrite !upd_dels_lookup. destruct (decide (k ∈ fs)) as [Hk|Hk]; case_decide as Hf; try done.
  - destruct (h !! k) eqn:E; [|done]. exfalso. apply Hf, list_elem_of_filter. by rewrite E.
  - apply list_elem_of_filter in Hf as [_ Hf]. done.
Qed.

Lemma sorted_entries_length h : length (sorted_entries h) = size h.
Proof. rewrite (Permutation_length (sorted_entries_perm h)). apply length_map_to_list. Qed.

(** Removing all the members leaves none. *)
Lemma upd_clear h : upd h (map (fun f => (f, None)) (sorted_entries h).*1) = ∅.
Proof.
  apply map_eq. intros k. rewrite lookup_empty, upd_dels_lookup. case_decide as Hk; [done|].
  destruct (h !! k) as [v|] eqn:E; [|done]. exfalso. apply Hk. apply elem_of_sorted_entries in E.
  by apply (list_elem_of_fmap_2 fst) in E.
Qed.

(** ** Several members at once, on the abstract value *)

Definition insert_all {V} (h : gmap bytes V) (args : list (bytes * V)) : gmap bytes V :=
  fold_left (fun h p => <[p.1 := p.2]> h) args h.

Definition delete_all {V} (h : gmap bytes V) (args : list bytes) : gmap bytes V :=
  fold_left (fun h f => delete f h) args h.

Lemma count_old_filter (h : gmap bytes bytes) (fs : list bytes) :
  count_old h fs = length (filter (fun f => is_Some (h !! f)) fs).
Proof.
  induction fs as [|f fs IH]; [done|]. rewrite filter_cons. cbn [count_old]. rewrite IH.
  destruct (h !! f) eqn:E; [rewrite decide_True by eauto|rewrite decide_False by (intros []; congruence)]; done.
Qed.
