(* ===== verification/THash.v ===== *)
(** * Hashes (src/ledis/t_hash.go)

    A hash is a size entry and one entry per field.  Every operation of the type except
    [hFlush] (see Flush.v). *)

From S2P Require Import Prelude Driver Store Keys Util Core Frame Refine Coll.

Definition checkHashKFSize (key field : bytes) : option error :=
  if (len key >? MaxKeySize) || (len key =? 0) then Some errKeySize
  else if (len field >? MaxHashFieldSize) || (len field =? 0) then Some errHashFieldSize
  else None.

Section Ops.
Context {B : Backend}.
Implicit Types (db : DB) (key field value : bytes).

Definition hIncrSize db key (delta : Z) : M (Z * option error) :=
  let sk := hEncodeSizeKey db key in
  '(v, e) ← bucket_Get sk;
  let '(size, err) := Int64 v e in
  match err with
  | Some err => mret (0, Some err)
  | None =>
      let size := int64 (size + delta) in
      if size <=? 0 then
        _ ← batch_Delete hashBatch sk;
        _ ← rmExpire db hashBatch HashType key;
        mret (0, None)
      else
        _ ← batch_Put hashBatch sk (PutInt64 size);
        mret (size, None)
  end.

Definition hSetItem db key field value : M (Z * option error) :=
  let ek := hEncodeHashKey db key field in
  '(v, _) ← bucket_Get ek;
  match v with
  | Some _ => _ ← batch_Put hashBatch ek value; mret (0, None)
  | None =>
      '(_, err) ← hIncrSize db key 1;
      match err with
      | Some err => mret (0, Some err)
      | None => _ ← batch_Put hashBatch ek value; mret (1, None)
      end
  end.

Definition hDelete db (t : BatchId) key : M Z :=
  let sk := hEncodeSizeKey db key in
  it ← bucket_RangeLimitIterator (Some (hEncodeStartKey db key)) (Some (hEncodeStopKey db key)) RangeROpen 0 (-1);
  _ ← for_each (rli_items it) (fun '(k, _) => batch_Delete t k);
  _ ← batch_Delete t sk;
  mret (len (rli_items it)).

Definition HLen db key : M (Z * option error) :=
  match checkKeySize key with
  | Some err => mret (0, Some err)
  | None => '(v, e) ← bucket_Get (hEncodeSizeKey db key); mret (Int64 v e)
  end.

Definition hExpireAt db key (when : Z) : M (Z * option error) :=
  with_lock hashBatch (
    '(hlen, err) ← HLen db key;
    if is_err err || (hlen =? 0) then mret (0, err)
    else
      _ ← expireAt db hashBatch HashType key when;
      err ← batch_Commit hashBatch;
      match err with
      | Some err => mret (0, Some err)
      | None => mret (1, None)
      end).

Definition HSet db key field value : M (Z * option error) :=
  match checkHashKFSize key field with
  | Some err => mret (0, Some err)
  | None =>
  match checkValueSize value with
  | Some err => mret (0, Some err)
  | None =>
      with_lock hashBatch (
        '(n, err) ← hSetItem db key field value;
        match err with
        | Some err => mret (0, Some err)
        | None => err ← batch_Commit hashBatch; mret (n, err)
        end)
  end
  end.

Definition HGet db key field : M (option bytes * option error) :=
  match checkHashKFSize key field with
  | Some err => mret (None, Some err)
  | None => bucket_Get (hEncodeHashKey db key field)
  end.

(** The loop of [HMset]: an error ends the call, else the number of new fields. *)
Fixpoint hmset_loop db key (args : list (bytes * bytes)) (num : Z) : M (Z + error) :=
  match args with
  | [] => mret (inl num)
  | (field, value) :: args' =>
      match checkHashKFSize key field with
      | Some err => mret (inr err)
      | None =>
      match checkValueSize value with
      | Some err => mret (inr err)
      | None =>
          let ek := hEncodeHashKey db key field in
          '(v, err) ← bucket_Get ek;
          match err with
          | Some err => mret (inr err)
          | None =>
              let num := match v with None => int64 (num + 1) | Some _ => num end in
              _ ← batch_Put hashBatch ek value;
              hmset_loop db key args' num
          end
      end
      end
  end.

Definition HMset db key (args : list (bytes * bytes)) : M (option error) :=
  with_lock hashBatch (
    res ← hmset_loop db key args 0;
    match res with
    | inr err => mret (Some err)
    | inl num =>
        '(_, err) ← hIncrSize db key num;
        match err with
        | Some err => mret (Some err)
        | None => batch_Commit hashBatch
        end
    end).

Fixpoint hmget_loop db key (it : cursor) (args : list bytes) (acc : list (option bytes)) :
    option (list (option bytes)) * option error :=
  match args with
  | [] => (Some acc, None)
  | f :: args' =>
      match checkHashKFSize key f with
      | Some err => (None, Some err)
      | None => let '(it, v) := Find it (hEncodeHashKey db key f) in hmget_loop db key it args' (acc ++ [v])
      end
  end.

Definition HMget db key (args : list bytes) : M (option (list (option bytes)) * option error) :=
  it ← bucket_NewIterator; mret (hmget_loop db key it args []).

(** The loop of [HDel]. *)
Fixpoint hdel_loop db key (it : cursor) (args : list bytes) (num : Z) : M (Z + error) :=
  match args with
  | [] => mret (inl num)
  | f :: args' =>
      match checkHashKFSize key f with
      | Some err => mret (inr err)
      | None =>
          let ek := hEncodeHashKey db key f in
          let '(it, v) := Find it ek in
          match v with
          | None => hdel_loop db key it args' num
          | Some _ => _ ← batch_Delete hashBatch ek; hdel_loop db key it args' (int64 (num + 1))
          end
      end
  end.

Definition HDel db key (args : list bytes) : M (Z * option error) :=
  with_lock hashBatch (
    it ← bucket_NewIterator;
    res ← hdel_loop db key it args 0;
    match res with
    | inr err => mret (0, Some err)
    | inl num =>
        '(_, err) ← hIncrSize db key (int64 (- num));
        match err with
        | Some err => mret (0, Some err)
        | None => err ← batch_Commit hashBatch; mret (num, err)
        end
    end).

Definition HIncrBy db key field (delta : Z) : M (Z * option error) :=
  match checkHashKFSize key field with
  | Some err => mret (0, Some err)
  | None =>
      with_lock hashBatch (
        '(v, e) ← bucket_Get (hEncodeHashKey db key field);
        let '(n, err) := StrInt64 v e in
        match err with
        | Some err => mret (0, Some err)
        | None =>
            let n := int64 (n + delta) in
            '(_, err) ← hSetItem db key field (FormatInt64ToSlice n);
            match err with
            | Some err => mret (0, Some err)
            | None => err ← batch_Commit hashBatch; mret (n, err)
            end
        end)
  end.

(** The loop shared by [HGetAll], [HKeys] and [HValues]: decode each key, keep what [f]
    selects. *)
Fixpoint hash_collect {A} db (f : bytes -> bytes -> A) (items : list (bytes * bytes)) (acc : list A) :
    outcome (option (list A) * option error) :=
  match items with
  | [] => Ret (Some acc, None)
  | (k, v) :: items' =>
      match hDecodeHashKey db k with
      | Panic => Panic
      | Ret (inr err) => Ret (None, Some err)
      | Ret (inl (_, field)) => hash_collect db f items' (acc ++ [f field v])
      end
  end.

Definition hash_read {A} db key (f : bytes -> bytes -> A) : M (option (list A) * option error) :=
  match checkKeySize key with
  | Some err => mret (None, Some err)
  | None =>
      it ← bucket_RangeLimitIterator (Some (hEncodeStartKey db key)) (Some (hEncodeStopKey db key)) RangeROpen 0 (-1);
      lift (hash_collect db f (rli_items it) [])
  end.

Definition HGetAll db key : M (option (list (bytes * bytes)) * option error) := hash_read db key (fun f v => (f, v)).
Definition HKeys db key : M (option (list bytes) * option error) := hash_read db key (fun f v => f).
Definition HValues db key : M (option (list bytes) * option error) := hash_read db key (fun f v => v).

Definition HClear db key : M (Z * option error) :=
  match checkKeySize key with
  | Some err => mret (0, Some err)
  | None =>
      with_lock hashBatch (
        num ← hDelete db hashBatch key;
        _ ← rmExpire db hashBatch HashType key;
        err ← batch_Commit hashBatch;
        mret (num, err))
  end.

Definition HMclear db (keys : list bytes) : M (Z * option error) :=
  with_lock hashBatch (
    for_ret keys (fun key =>
      match checkKeySize key with
      | Some err => mret (Some (0, Some err))
      | None =>
          _ ← hDelete db hashBatch key;
          _ ← rmExpire db hashBatch HashType key;
          mret None
      end)
    (err ← batch_Commit hashBatch; mret (len keys, err))).

Definition HExpire db key (duration : Z) : M (Z * option error) :=
  if duration <=? 0 then mret (0, Some errExpireValue)
  else n ← time_now; hExpireAt db key (int64 (n + duration)).

Definition HExpireAt db key (when : Z) : M (Z * option error) :=
  n ← time_now;
  if when <=? n then mret (0, Some errExpireValue) else hExpireAt db key when.

Definition HTTL db key : M (Z * option error) :=
  match checkKeySize key with
  | Some err => mret (-1, Some err)
  | None => ttl db HashType key
  end.

Definition HPersist db key : M (Z * option error) :=
  match checkKeySize key with
  | Some err => mret (0, Some err)
  | None =>
      with_lock hashBatch (
        '(n, err) ← rmExpire db hashBatch HashType key;
        match err with
        | Some err => mret (0, Some err)
        | None => err ← batch_Commit hashBatch; mret (n, err)
        end)
  end.

Definition HKeyExists db key : M (Z * option error) :=
  match checkKeySize key with
  | Some err => mret (0, Some err)
  | None =>
      '(v, err) ← bucket_Get (hEncodeSizeKey db key);
      if not_nil v && negb (is_err err) then mret (1, None) else mret (0, err)
  end.

End Ops.

(** * The hash a key holds *)

Definition hash_rep (db : DB) (m : gmap bytes bytes) (key : bytes) (h : gmap bytes bytes) : Prop :=
  coll_rep db (Hash key) (HSize key) m h.

Abbreviation hput := (fun p : bytes * bytes => (p.1, Some p.2)).
Abbreviation hdel := (fun f : bytes => (f, @None bytes)).

Lemma checkHashKFSize_key key field : checkHashKFSize key field = None -> checkKeySize key = None.
Proof. unfold checkHashKFSize, checkKeySize. by destruct (_ || _). Qed.

Lemma checkHashKFSize_short key field : checkHashKFSize key field = None -> short key.
Proof. intros H. by apply short_key, (checkHashKFSize_key key field). Qed.

Section Spec.
Context {B : Backend} {BS : BackendSpec B}.
Implicit Types (db : DB) (key field value : bytes) (m h : gmap bytes bytes) (e : Env).

Lemma hash_update db key us m0 m h :
  short key -> hash_rep db m key h -> Z.of_nat (size (upd h us)) < 2 ^ 63 ->
  hash_rep db (apply_ops (map (member_op db (Hash key)) us ++
    size_ops db m0 HashType key (hEncodeSizeKey db key) (Z.of_nat (size (upd h us)))) m) key (upd h us).
Proof. intros Hk Hr Hb. apply (coll_update db HashType key (Hash key) (HSize key)); try done; naive_solver. Qed.

Lemma hash_update' db key us m0 m h :
  short key -> hash_rep db m key h -> Z.of_nat (size (upd h us)) < 2 ^ 63 ->
  hash_rep db (apply_ops (size_ops db m0 HashType key (hEncodeSizeKey db key) (Z.of_nat (size (upd h us))) ++
    map (member_op db (Hash key)) us) m) key (upd h us).
Proof. intros Hk Hr Hb. apply (coll_update' db HashType key (Hash key) (HSize key)); try done; naive_solver. Qed.

Lemma hash_overwrite db key us m h :
  short key -> hash_rep db m key h -> size (upd h us) = size h ->
  hash_rep db (apply_ops (map (member_op db (Hash key)) us) m) key (upd h us).
Proof. intros Hk Hr Hb. apply (coll_overwrite db (Hash key) (HSize key)); try done; naive_solver. Qed.

Lemma hash_ops_for db key us m n :
  short key -> ops_for db HashType key (map (member_op db (Hash key)) us) /\
  ops_for db HashType key (size_ops db m HashType key (hEncodeSizeKey db key) n).
Proof.
  intros Hk. split; [by apply (ops_for_members db HashType key (Hash key))|].
  by apply (ops_for_size db HashType key (HSize key)).
Qed.

Lemma hash_size db m key h : hash_rep db m key h -> Z.of_nat (size h) < 2 ^ 63 ->
  Int64 (m !! hEncodeSizeKey db key) None = (Z.of_nat (size h), None).
Proof. apply (size_read db (Hash key) (HSize key)). Qed.

Lemma hash_rep_frame db m m' T key' key h :
  short key -> touches db T key' m m' -> T <> HashType \/ key' <> key -> hash_rep db m key h -> hash_rep db m' key h.
Proof. intros Hk. by apply (coll_frame db HashType key (Hash key) (HSize key)). Qed.

Lemma wp_hIncrSize db key delta n (Q : Z * option error -> _ -> _ -> _ -> Prop) m b e :
  Int64 (m !! hEncodeSizeKey db key) None = (n, None) -> in_i64 (n + delta) ->
  Q (Z.max 0 (n + delta), None) m (add_ops hashBatch (size_ops db m HashType key (hEncodeSizeKey db key) (n + delta)) b) e ->
  wp (hIncrSize db key delta) Q m b e.
Proof.
  intros Hn Hr HQ. unfold hIncrSize, size_ops in *. wp_auto. rewrite Hn, int64_small by done.
  destruct (n + delta <=? 0) eqn:E; zify_bool; wp_auto.
  - by rewrite Z.max_l in HQ by lia.
  - by rewrite Z.max_r in HQ by lia.
Qed.

(** ** Single fields *)

Definition hset_ops db m h key field value : list BatchOp :=
  (match h !! field with
   | Some _ => []
   | None => size_ops db m HashType key (hEncodeSizeKey db key) (Z.of_nat (size h) + 1)
   end) ++ [OpPut (hEncodeHashKey db key field) value].

Lemma wp_hSetItem db key field value h (Q : Z * option error -> _ -> _ -> _ -> Prop) m b e :
  hash_rep db m key h -> Z.of_nat (size h) + 1 < 2 ^ 63 ->
  Q (match h !! field with Some _ => 0 | None => 1 end, None) m (add_ops hashBatch (hset_ops db m h key field value) b) e ->
  wp (hSetItem db key field value) Q m b e.
Proof.
  intros Hr Hb HQ. unfold hSetItem, hset_ops in *. wp_auto. pose proof (cr_members _ _ _ _ _ Hr field) as Hf.
  simpl in Hf. rewrite Hf. destruct (h !! field) as [v|].
  - wp_auto. done.
  - wp_auto. eapply wp_hIncrSize; [by apply (hash_size db m key h); [|lia]|unfold in_i64; lia|]. cbv beta iota. wp_auto. done.
Qed.

Lemma HSet_exec db key field value h m e :
  checkHashKFSize key field = None -> checkValueSize value = None -> hash_rep db m key h ->
  Z.of_nat (size h) + 1 < 2 ^ 63 ->
  exec (HSet db key field value) m e (match h !! field with Some _ => 0 | None => 1 end, None)
    (apply_ops (hset_ops db m h key field value) m) e.
Proof.
  intros Hk Hv Hr Hb. unfold exec, HSet. rewrite Hk, Hv. wp_auto. eapply wp_hSetItem; [exact Hr|done|]. wp_auto. done.
Qed.

Lemma hset_rep db key field value h m :
  short key -> hash_rep db m key h -> Z.of_nat (size h) + 1 < 2 ^ 63 ->
  hash_rep db (apply_ops (hset_ops db m h key field value) m) key (<[field := value]> h) /\
  keeps db HashType key m (apply_ops (hset_ops db m h key field value) m).
Proof.
  intros Hk Hr Hb. unfold hset_ops. destruct (hash_ops_for db key [(field, Some value)] m (Z.of_nat (size h) + 1) Hk) as [Ho1 Ho2].
  destruct (h !! field) as [v|] eqn:E.
  - split; [|apply keeps_ops; exact Ho1]. apply (hash_overwrite db key [(field, Some value)] m h); [done..|].
    change (upd h [(field, Some value)]) with (<[field := value]> h). by rewrite map_size_insert, E.
  - split; [|apply keeps_ops, ops_for_app; [exact Ho2|exact Ho1]].
    assert (Hz : size (upd h [(field, Some value)]) = S (size h)) 
      by (change (upd h [(field, Some value)]) with (<[field := value]> h); by rewrite map_size_insert, E).
    pose proof (hash_update' db key [(field, Some value)] m m h Hk Hr) as HU. rewrite Hz in HU.
    replace (Z.of_nat (size h) + 1) with (Z.of_nat (S (size h))) by lia. apply HU. lia.
Qed.

(** ** Several fields *)

(** The arguments [HMset] accepts. *)
Definition hargs_ok key (args : list (bytes * bytes)) : Prop :=
  Forall (fun p => checkHashKFSize key p.1 = None /\ checkValueSize p.2 = None) args.

Lemma wp_hmset_loop db key args num h (Q : Z + error -> _ -> _ -> _ -> Prop) m b e :
  hash_rep db m key h -> hargs_ok key args -> 0 <= num -> num + len args < 2 ^ 63 ->
  Q (inl (num + Z.of_nat (count_new h args.*1))) m (add_ops hashBatch (map (member_op db (Hash key)) (map hput args)) b) e ->
  wp (hmset_loop db key args num) Q m b e.
Proof.
  intros Hr Ha. revert num b; induction Ha as [|[f v] args [Hf Hv] Ha IH]; intros num b H0 Hn HQ.
  - cbn [hmset_loop]. wp_auto. cbn [fmap list_fmap map filter list_filter count_new count_old] in HQ.
    by rewrite Z.add_0_r, add_no_ops in HQ.
  - cbn [hmset_loop]. cbn [fst snd] in Hf, Hv. rewrite Hf, Hv. wp_auto. pose proof (cr_members _ _ _ _ _ Hr f) as Hm.
    simpl in Hm. rewrite Hm. cbn [length] in Hn. rewrite fmap_cons in HQ. cbn [count_new map fst] in HQ.
    destruct (h !! f) as [x|].
    + apply IH; [lia|lia|]. rewrite add_ops_add. cbn [app]. by rewrite Nat.add_0_l in HQ.
    + rewrite int64_small by (unfold in_i64; lia). apply IH; [lia|lia|]. rewrite add_ops_add.
      by replace (num + 1 + Z.of_nat (count_new h args.*1)) with (num + Z.of_nat (1 + count_new h args.*1)) by lia.
Qed.

Definition hmset_ops db m h key (args : list (bytes * bytes)) : list BatchOp :=
  map (member_op db (Hash key)) (map hput args) ++
  size_ops db m HashType key (hEncodeSizeKey db key) (Z.of_nat (size h + count_new h args.*1)).

Lemma HMset_exec db key args h m e :
  hash_rep db m key h -> hargs_ok key args -> Z.of_nat (size h) + len args < 2 ^ 63 ->
  exec (HMset db key args) m e None (apply_ops (hmset_ops db m h key args) m) e.
Proof.
  intros Hr Ha Hb. unfold exec, HMset. wp_auto. pose proof (count_new_le h args.*1) as Hc. rewrite length_fmap in Hc.
  apply (wp_hmset_loop db key args 0 h); [done|done|lia|lia|]. rewrite Z.add_0_l. wp_auto.
  eapply wp_hIncrSize; [by apply (hash_size db m key h); [|lia]|unfold in_i64; lia|]. wp_auto.
  unfold hmset_ops. rewrite Nat2Z.inj_add. done.
Qed.

Lemma hmset_rep db key args h m :
  short key -> hash_rep db m key h -> NoDup args.*1 -> Z.of_nat (size h) + len args < 2 ^ 63 ->
  hash_rep db (apply_ops (hmset_ops db m h key args) m) key (upd h (map hput args)) /\
  keeps db HashType key m (apply_ops (hmset_ops db m h key args) m).
Proof.
  intros Hk Hr Hn Hb. pose proof (count_new_le h args.*1) as Hc. rewrite length_fmap in Hc. unfold hmset_ops.
  rewrite <- upd_puts_size by done. split.
  - apply (hash_update db key (map hput args) m m h); [done|done|]. rewrite upd_puts_size by done. lia.
  - apply keeps_ops. destruct (hash_ops_for db key (map hput args) m (Z.of_nat (size (upd h (map hput args)))) Hk).
    by apply ops_for_app.
Qed.

Lemma wp_hdel_loop db key it args num h (Q : Z + error -> _ -> _ -> _ -> Prop) m b e :
  hash_rep db m key h -> snap it = sorted_entries m -> Forall (fun f => checkHashKFSize key f = None) args ->
  0 <= num -> num + len args < 2 ^ 63 ->
  Q (inl (num + Z.of_nat (count_old h args))) m
    (add_ops hashBatch (map (member_op db (Hash key)) (map hdel (filter (fun f => is_Some (h !! f)) args))) b) e ->
  wp (hdel_loop db key it args num) Q m b e.
Proof.
  intros Hr Hs Ha. revert it num b Hs; induction Ha as [|f args Hf Ha IH]; intros it num b Hs H0 Hn HQ.
  - cbn [hdel_loop]. wp_auto. cbn [fmap list_fmap map filter list_filter count_new count_old] in HQ.
    by rewrite Z.add_0_r, add_no_ops in HQ.
  - cbn [hdel_loop]. rewrite Hf. destruct (Find_lookup m it (hEncodeHashKey db key f) Hs) as [Hv Hs'].
    destruct (Find it _) as [it' v]. cbn [fst snd] in *. subst v. pose proof (cr_members _ _ _ _ _ Hr f) as Hm.
    simpl in Hm. rewrite Hm. cbn [length] in Hn. cbn [count_old] in HQ. rewrite filter_cons in HQ.
    destruct (h !! f) as [x|].
    + rewrite decide_True in HQ by done. wp_auto. rewrite int64_small by (unfold in_i64; lia).
      apply IH; [done|lia|lia|]. rewrite add_ops_add.
      by replace (num + 1 + Z.of_nat (count_old h args)) with (num + Z.of_nat (1 + count_old h args)) by lia.
    + rewrite decide_False in HQ by (by intros []). apply IH; [done|lia|lia|]. by rewrite Nat.add_0_l in HQ.
Qed.

Definition hdel_ops db m h key (args : list bytes) : list BatchOp :=
  map (member_op db (Hash key)) (map hdel (filter (fun f => is_Some (h !! f)) args)) ++
  size_ops db m HashType key (hEncodeSizeKey db key) (Z.of_nat (size h) - Z.of_nat (count_old h args)).

Lemma HDel_exec db key args h m e :
  hash_rep db m key h -> Forall (fun f => checkHashKFSize key f = None) args ->
  Z.of_nat (size h) < 2 ^ 63 -> len args < 2 ^ 63 ->
  exec (HDel db key args) m e (Z.of_nat (count_old h args), None) (apply_ops (hdel_ops db m h key args) m) e.
Proof.
  intros Hr Ha Hb Hl. unfold exec, HDel. wp_auto. pose proof (count_old_le h args) as Hc.
  apply (wp_hdel_loop db key _ args 0 h); [done|done|done|lia|lia|]. rewrite Z.add_0_l. wp_auto.
  rewrite (int64_small (- Z.of_nat (count_old h args))) by (unfold in_i64; lia).
  eapply wp_hIncrSize; [by apply (hash_size db m key h)|unfold in_i64; lia|]. wp_auto. done.
Qed.

Lemma hdel_rep db key args h m :
  short key -> hash_rep db m key h -> NoDup args -> Z.of_nat (size h) < 2 ^ 63 ->
  hash_rep db (apply_ops (hdel_ops db m h key args) m) key (upd h (map hdel args)) /\
  keeps db HashType key m (apply_ops (hdel_ops db m h key args) m).
Proof.
  intros Hk Hr Hn Hb. pose proof (upd_dels_size h args Hn) as Hz. unfold hdel_ops.
  replace (Z.of_nat (size h) - Z.of_nat (count_old h args)) with (Z.of_nat (size (upd h (map hdel args)))) by lia.
  rewrite <- upd_dels_skip in *. split.
  - apply (hash_update db key _ m m h); [done|done|lia].
  - apply keeps_ops. destruct (hash_ops_for db key (map hdel (filter (fun f => is_Some (h !! f)) args)) m
      (Z.of_nat (size (upd h (map hdel (filter (fun f => is_Some (h !! f)) args))))) Hk). by apply ops_for_app.
Qed.

(** ** Reading *)

Lemma HLen_wp db key h (Q : Z * option error -> _ -> _ -> _ -> Prop) m b e :
  checkKeySize key = None -> hash_rep db m key h -> Z.of_nat (size h) < 2 ^ 63 ->
  Q (Z.of_nat (size h), None) m b e -> wp (HLen db key) Q m b e.
Proof.
  intros Hk Hr Hb HQ. unfold HLen. rewrite Hk. wp_auto. by rewrite (hash_size db m key h).
Qed.

Lemma HGet_exec db key field h m e :
  checkHashKFSize key field = None -> hash_rep db m key h -> exec (HGet db key field) m e (h !! field, None) m e.
Proof.
  intros Hk Hr. unfold exec, HGet. rewrite Hk. wp_auto. pose proof (cr_members _ _ _ _ _ Hr field) as Hm.
  simpl in Hm. by rewrite Hm.
Qed.

Lemma hmget_loop_ok db m key h it args acc :
  snap it = sorted_entries m -> hash_rep db m key h -> Forall (fun f => checkHashKFSize key f = None) args ->
  hmget_loop db key it args acc = (Some (acc ++ map (fun f => h !! f) args), None).
Proof.
  intros Hs Hr Hks. revert it acc Hs; induction Hks as [|f fs Hf Hks IH]; intros it acc Hs; cbn [hmget_loop map].
  { by rewrite app_nil_r. }
  rewrite Hf. destruct (Find_lookup m it (hEncodeHashKey db key f) Hs) as [Hv Hs'].
  destruct (Find it _) as [it1 v]. cbn [fst snd] in *. subst v. rewrite (IH it1 _ Hs'), <- app_assoc.
  pose proof (cr_members _ _ _ _ _ Hr f) as Hm. simpl in Hm. by rewrite Hm.
Qed.

Lemma HMget_exec db key args h m e :
  hash_rep db m key h -> Forall (fun f => checkHashKFSize key f = None) args ->
  exec (HMget db key args) m e (Some (map (fun f => h !! f) args), None) m e.
Proof. intros Hr Ha. unfold exec, HMget. wp_auto. by rewrite (hmget_loop_ok db m key h). Qed.

(** The entries an iteration over the hash visits: its fields in order. *)
Lemma hash_entries db m key h :
  hash_rep db m key h ->
  range_entries m (mkRange (Some (hEncodeStartKey db key)) (Some (hEncodeStopKey db key)) RangeROpen) =
  map (fun p => (hEncodeHashKey db key p.1, p.2)) (sorted_entries h).
Proof.
  intros Hr. pose proof (member_entries m (member_pre db HashType key) hashStartSep h) as HE.
  unfold hEncodeStartKey, hEncodeStopKey. rewrite hEncodeHashKey_split, set_last_snoc.
  change hashStopSep with (hashStartSep + 1). rewrite HE.
  - apply list_fmap_ext. intros i p _. by rewrite hEncodeHashKey_split.
  - intros f. rewrite <- hEncodeHashKey_split. apply (cr_members _ _ _ _ _ Hr f).
Qed.

Lemma hash_collect_ok {A} db key (f : bytes -> bytes -> A) (l : list (bytes * bytes)) acc :
  short key ->
  hash_collect db f (map (fun p => (hEncodeHashKey db key p.1, p.2)) l) acc =
  Ret (Some (acc ++ map (fun p => f p.1 p.2) l), None).
Proof.
  intros Hk. revert acc; induction l as [|p l IH]; intros acc; cbn [map hash_collect]; [by rewrite app_nil_r|].
  assert (hDecodeHashKey db (hEncodeHashKey db key p.1) = Ret (inl (key, p.1))) as ->.
  { by apply (decode_member_named HashType errHashKey). }
  rewrite IH. by rewrite <- app_assoc.
Qed.

Lemma hash_read_exec {A} db key (f : bytes -> bytes -> A) h m e :
  checkKeySize key = None -> hash_rep db m key h ->
  exec (hash_read db key f) m e (Some (map (fun p => f p.1 p.2) (sorted_entries h)), None) m e.
Proof.
  intros Hk Hr. unfold exec, hash_read. rewrite Hk. wp_auto. rewrite H, cut_all, (hash_entries db m key h) by done.
  rewrite hash_collect_ok by (by apply short_key). by wp_auto.
Qed.

(** ** Clearing *)

Definition hclear_ops db m h key : list BatchOp :=
  map (member_op db (Hash key)) (map hdel (sorted_entries h).*1) ++ size_ops db m HashType key (hEncodeSizeKey db key) 0.

Definition hdelete_ops db h key : list BatchOp :=
  map (member_op db (Hash key)) (map hdel (sorted_entries h).*1) ++ [OpDelete (hEncodeSizeKey db key)].

Lemma wp_hDelete db t key h (Q : Z -> _ -> _ -> _ -> Prop) m b e :
  hash_rep db m key h -> Q (Z.of_nat (size h)) m (add_ops t (hdelete_ops db h key) b) e -> wp (hDelete db t key) Q m b e.
Proof.
  intros Hr HQ. unfold hDelete. wp_auto. rewrite H, cut_all, (hash_entries db m key h) by done.
  eapply (wp_for_each t (fun p => [OpDelete p.1])).
  - intros [k v] b1 Q1 _ HQ1. wp_auto. done.
  - rewrite concat_singletons. wp_auto. unfold hdelete_ops in HQ. rewrite length_map.
    rewrite sorted_entries_length. rewrite !map_map in *. exact HQ.
Qed.

Lemma HClear_exec db key h m e :
  checkKeySize key = None -> hash_rep db m key h ->
  exec (HClear db key) m e (Z.of_nat (size h), None) (apply_ops (hclear_ops db m h key) m) e.
Proof.
  intros Hk Hr. unfold exec, HClear. rewrite Hk. wp_auto. apply (wp_hDelete db hashBatch key h); [done|]. wp_auto.
  unfold hclear_ops, hdelete_ops, size_ops. simpl. by rewrite <- app_assoc.
Qed.

Lemma hclear_rep db key h m :
  short key -> hash_rep db m key h ->
  hash_rep db (apply_ops (hclear_ops db m h key) m) key ∅ /\ keeps db HashType key m (apply_ops (hclear_ops db m h key) m).
Proof.
  intros Hk Hr. pose proof (hash_update db key (map hdel (sorted_entries h).*1) m m h Hk Hr) as HU.
  rewrite upd_clear, map_size_empty in HU. split; [apply HU; lia|].
  apply keeps_ops. destruct (hash_ops_for db key (map hdel (sorted_entries h).*1) m 0 Hk). by apply ops_for_app.
Qed.

(** ** Counters *)

Lemma HIncrBy_exec db key field delta n h m e :
  checkHashKFSize key field = None -> hash_rep db m key h -> Z.of_nat (size h) + 1 < 2 ^ 63 ->
  StrInt64 (h !! field) None = (n, None) ->
  exec (HIncrBy db key field delta) m e (int64 (n + delta), None)
    (apply_ops (hset_ops db m h key field (FormatInt64ToSlice (int64 (n + delta)))) m) e.
Proof.
  intros Hk Hr Hb Hn. unfold exec, HIncrBy. rewrite Hk. wp_auto. pose proof (cr_members _ _ _ _ _ Hr field) as Hm.
  simpl in Hm. rewrite Hm, Hn. wp_auto. apply (wp_hSetItem db key field _ h); [done|done|]. wp_auto. done.
Qed.

Lemma HIncrBy_error db key field delta n err h m e :
  checkHashKFSize key field = None -> hash_rep db m key h -> StrInt64 (h !! field) None = (n, Some err) ->
  exec (HIncrBy db key field delta) m e (0, Some err) m e.
Proof.
  intros Hk Hr Hn. unfold exec, HIncrBy. rewrite Hk. wp_auto. pose proof (cr_members _ _ _ _ _ Hr field) as Hm.
  simpl in Hm. rewrite Hm, Hn. wp_auto. done.
Qed.

(** ** Expiration *)

Lemma hExpireAt_exec db key h when m e :
  checkKeySize key = None -> hash_rep db m key h -> h <> ∅ -> Z.of_nat (size h) < 2 ^ 63 ->
  exec (hExpireAt db key when) m e (1, None) (apply_ops (expire_ops db HashType key when) m) (check_before when e).
Proof.
  intros Hk Hr Hne Hb. unfold exec, hExpireAt. wp_auto. apply (HLen_wp db key h); [done..|]. cbn [is_err orb].
  rewrite (proj2 (Z.eqb_neq _ 0)); [wp_auto; done|]. intros Hz. apply Hne, map_size_empty_iff. lia.
Qed.

Lemma HTTL_exec db key m e :
  checkKeySize key = None -> exec (HTTL db key) m e (ttl_result db m HashType key (now e)) m e.
Proof. intros Hk. unfold exec, HTTL. rewrite Hk. wp_auto. done. Qed.

(** ** Containment *)

Lemma contained_hIncrSize db key delta : contained db (hIncrSize db key delta).
Proof. unfold hIncrSize. contained_auto. Qed.
#[local] Hint Resolve contained_hIncrSize : ledis.
Lemma contained_hSetItem db key field value : contained db (hSetItem db key field value).
Proof. unfold hSetItem. contained_auto. Qed.
#[local] Hint Resolve contained_hSetItem : ledis.
Lemma start_stop_hash db key : in_db db (hEncodeStartKey db key) /\ in_db db (hEncodeStopKey db key).
Proof.
  split; [by eexists|]. unfold hEncodeStopKey. rewrite hEncodeHashKey_split, set_last_snoc.
  unfold member_pre. rewrite <- app_assoc. by eexists.
Qed.
Lemma contained_hDelete db t key : contained db (hDelete db t key).
Proof.
  unfold hDelete. contained_auto. destruct (start_stop_hash db key). apply contained_Delete. eapply items_in_db; eassumption.
Qed.
#[local] Hint Resolve contained_hDelete : ledis.
Lemma contained_HLen db key : contained db (HLen db key).
Proof. unfold HLen. contained_auto. Qed.
#[local] Hint Resolve contained_HLen : ledis.
Lemma contained_hExpireAt db key when : contained db (hExpireAt db key when).
Proof. unfold hExpireAt. contained_auto. Qed.
#[local] Hint Resolve contained_hExpireAt : ledis.
Lemma contained_HSet db key field value : contained db (HSet db key field value).
Proof. unfold HSet. contained_auto. Qed.
Lemma contained_HGet db key field : contained db (HGet db key field).
Proof. unfold HGet. contained_auto. Qed.
Lemma contained_hmset_loop db key args num : contained db (hmset_loop db key args num).
Proof. revert num; induction args as [|[f v] args IH]; intros num; simpl; contained_auto; auto. Qed.
#[local] Hint Resolve contained_hmset_loop : ledis.
Lemma contained_HMset db key args : contained db (HMset db key args).
Proof. unfold HMset. contained_auto. Qed.
Lemma contained_HMget db key args : contained db (HMget db key args).
Proof. unfold HMget. contained_auto. Qed.
Lemma contained_hdel_loop db key it args num : contained db (hdel_loop db key it args num).
Proof. revert it num; induction args as [|f args IH]; intros it num; simpl; contained_auto; auto. Qed.
#[local] Hint Resolve contained_hdel_loop : ledis.
Lemma contained_HDel db key args : contained db (HDel db key args).
Proof. unfold HDel. contained_auto. Qed.
Lemma contained_HIncrBy db key field delta : contained db (HIncrBy db key field delta).
Proof. unfold HIncrBy. contained_auto. Qed.
Lemma contained_hash_read {A} db key (f : bytes -> bytes -> A) : contained db (hash_read db key f).
Proof. unfold hash_read. contained_auto. Qed.
Lemma contained_HClear db key : contained db (HClear db key).
Proof. unfold HClear. contained_auto. Qed.
Lemma contained_HMclear db keys : contained db (HMclear db keys).
Proof. unfold HMclear. contained_auto. Qed.
Lemma contained_HExpire db key duration : contained db (HExpire db key duration).
Proof. unfold HExpire. contained_auto. Qed.
Lemma contained_HExpireAt db key when : contained db (HExpireAt db key when).
Proof. unfold HExpireAt. contained_auto. Qed.
Lemma contained_HTTL db key : contained db (HTTL db key).
Proof. unfold HTTL. contained_auto. Qed.
Lemma contained_HPersist db key : contained db (HPersist db key).
Proof. unfold HPersist. contained_auto. Qed.
Lemma contained_HKeyExists db key : contained db (HKeyExists db key).
Proof. unfold HKeyExists. contained_auto. Qed.

End Spec.

#[export] Hint Resolve contained_hDelete contained_HLen contained_hExpireAt contained_HSet contained_HGet contained_HMset
  contained_HMget contained_HDel contained_HIncrBy contained_hash_read contained_HClear contained_HMclear
  contained_HExpire contained_HExpireAt contained_HTTL contained_HPersist contained_HKeyExists : ledis.

(** * Hashes as an abstract data type *)

Inductive hash_op :=
| opHSet (field value : bytes)
| opHGet (field : bytes)
| opHMset (args : list (bytes * bytes))
| opHMget (args : list bytes)
| opHDel (args : list bytes)
| opHIncrBy (field : bytes) (delta : Z)
| opHLen
| opHGetAll
| opHKeys
| opHValues
| opHClear.

Inductive hash_res :=
| hrInt (x : Z * option error)
| hrVal (x : option bytes * option error)
| hrVals (x : option (list (option bytes)) * option error)
| hrPairs (x : option (list (bytes * bytes)) * option error)
| hrList (x : option (list bytes) * option error)
| hrErr (x : option error).

Definition run_hash {B : Backend} (db : DB) (key : bytes) (op : hash_op) : M hash_res :=
  match op with
  | opHSet field value => x ← HSet db key field value; mret (hrInt x)
  | opHGet field => x ← HGet db key field; mret (hrVal x)
  | opHMset args => x ← HMset db key args; mret (hrErr x)
  | opHMget args => x ← HMget db key args; mret (hrVals x)
  | opHDel args => x ← HDel db key args; mret (hrInt x)
  | opHIncrBy field delta => x ← HIncrBy db key field delta; mret (hrInt x)
  | opHLen => x ← HLen db key; mret (hrInt x)
  | opHGetAll => x ← HGetAll db key; mret (hrPairs x)
  | opHKeys => x ← HKeys db key; mret (hrList x)
  | opHValues => x ← HValues db key; mret (hrList x)
  | opHClear => x ← HClear db key; mret (hrInt x)
  end.

(** The operations on finite maps: what is returned and what is left.  The iterations
    return the fields in the order of their bytes. *)
Definition hash_fn (h : gmap bytes bytes) (op : hash_op) : hash_res * gmap bytes bytes :=
  match op with
  | opHSet field value => (hrInt (match h !! field with Some _ => 0 | None => 1 end, None), <[field := value]> h)
  | opHGet field => (hrVal (h !! field, None), h)
  | opHMset args => (hrErr None, insert_all h args)
  | opHMget args => (hrVals (Some (map (fun f => h !! f) args), None), h)
  | opHDel args => (hrInt (Z.of_nat (length (filter (fun f => is_Some (h !! f)) args)), None), delete_all h args)
  | opHIncrBy field delta =>
      match StrInt64 (h !! field) None with
      | (n, None) => (hrInt (int64 (n + delta), None), <[field := FormatInt64ToSlice (int64 (n + delta))]> h)
      | (_, Some err) => (hrInt (0, Some err), h)
      end
  | opHLen => (hrInt (Z.of_nat (size h), None), h)
  | opHGetAll => (hrPairs (Some (sorted_entries h), None), h)
  | opHKeys => (hrList (Some (sorted_entries h).*1, None), h)
  | opHValues => (hrList (Some (sorted_entries h).*2, None), h)
  | opHClear => (hrInt (Z.of_nat (size h), None), ∅)
  end.

(** Fields and values of the accepted sizes, each field named once in [HMset] and [HDel],
    and sizes that fit the counter. *)
Definition hash_pre (key : bytes) (h : gmap bytes bytes) (op : hash_op) : Prop :=
  Z.of_nat (size h) < 2 ^ 62 /\
  match op with
  | opHSet field value => checkHashKFSize key field = None /\ checkValueSize value = None
  | opHGet field | opHIncrBy field _ => checkHashKFSize key field = None
  | opHMset args => hargs_ok key args /\ NoDup args.*1 /\ len args < 2 ^ 62
  | opHMget args => Forall (fun f => checkHashKFSize key f = None) args
  | opHDel args => Forall (fun f => checkHashKFSize key f = None) args /\ NoDup args /\ len args < 2 ^ 63
  | _ => True
  end.

#[global] Instance hash_container : Container hash_op hash_res (gmap bytes bytes) := {|
  ctype := HashType;
  run := @run_hash;
  step h op res h' := hash_fn h op = (res, h');
  rep := hash_rep;
  pre := hash_pre;
  empty_val := ∅
|}.

Lemma upd_hput (h : gmap bytes bytes) (args : list (bytes * bytes)) : upd h (map hput args) = insert_all h args.
Proof. revert h; induction args as [|[f v] args IH]; intros h; [done|]. exact (IH (<[f := v]> h)). Qed.

Lemma upd_hdel (h : gmap bytes bytes) (args : list bytes) : upd h (map hdel args) = delete_all h args.
Proof. revert h; induction args as [|f args IH]; intros h; [done|]. exact (IH (delete f h)). Qed.

Section Refinement.
Context {B : Backend} {BS : BackendSpec B}.

(** What every case of [hash_run_step] ends in. *)
Lemma hash_done (db : DB) (key : bytes) (h h' : gmap bytes bytes) (op : hash_op) (res : hash_res) (m m' : gmap bytes bytes) :
  hash_fn h op = (res, h') -> hash_rep db m' key h' /\ keeps db HashType key m m' ->
  exists h', hash_fn h op = (res, h') /\ hash_rep db m' key h' /\ keeps db HashType key m m'.
Proof using. eauto. Qed.

Lemma hash_run_step (db : DB) (key : bytes) (op : hash_op) (h m : gmap bytes bytes) (e : Env) :
  checkKeySize key = None -> hash_pre key h op -> well_keyed db m -> hash_rep db m key h ->
  runs (run_hash db key op) m e (fun r m' e' => now e' = now e /\ exists h', hash_fn h op = (r, h') /\ hash_rep db m' key h' /\ keeps db HashType key m m').
Proof using BS.
  intros Hk [Hb Hp] _ Hr. pose proof (short_key _ Hk) as Hs. pose proof (keeps_refl db HashType key m) as HR.
  destruct op as [f v|f|args|args|args|f d| | | | |]; cbn [run_hash] in *; apply runs_map.
  - destruct Hp. eapply exec_same; [by apply (HSet_exec db key f v h); try done; lia|]. eapply hash_done; [done|]. apply hset_rep; [done..|lia].
  - eapply exec_same; [by eapply HGet_exec|]. by eapply hash_done.
  - destruct Hp as (Ha & Hn & Hl). eapply exec_same; [by apply (HMset_exec db key args h); try done; lia|]. eapply hash_done; [done|].
    rewrite <- upd_hput. apply hmset_rep; [done..|lia].
  - eapply exec_same; [by eapply HMget_exec|]. by eapply hash_done.
  - destruct Hp as (Ha & Hn & Hl). eapply exec_same; [by apply (HDel_exec db key args h); try done; lia|]. eapply hash_done.
    { cbn [hash_fn]. by rewrite <- count_old_filter. }
    rewrite <- upd_hdel. apply hdel_rep; [done..|lia].
  - destruct (StrInt64 (h !! f) None) as [n [err|]] eqn:En.
    + eapply exec_same; [by eapply HIncrBy_error|]. eapply hash_done; [cbn [hash_fn]; by rewrite En|done].
    + eapply exec_same; [eapply HIncrBy_exec; [done|done|lia|done]|].
      eapply hash_done; [cbn [hash_fn]; by rewrite En|]. apply hset_rep; [done..|lia].
  - eapply HLen_wp; [done|done|lia|]. split; [done|]. split; [done|]. by eapply hash_done.
  - eapply exec_same; [by eapply hash_read_exec|]. eapply hash_done; [|done]. cbn [hash_fn]. do 4 f_equal.
    rewrite <- (list_fmap_id (sorted_entries h)) at 1. apply list_fmap_ext. by intros i [].
  - eapply exec_same; [by eapply hash_read_exec|]. by eapply hash_done.
  - eapply exec_same; [by eapply hash_read_exec|]. by eapply hash_done.
  - eapply exec_same; [by eapply HClear_exec|]. eapply hash_done; [done|]. by apply hclear_rep.
Qed.

End Refinement.

#[global] Instance hash_container_spec : ContainerSpec hash_container.
Proof.
  split.
  - intros db key. split; [intros f; by rewrite lookup_empty|apply lookup_empty].
  - intros db key T' key' m m' h Hk Hne HT Hh. by eapply hash_rep_frame; [apply short_key|..].
  - intros B BS db key op h m e. apply hash_run_step.
Qed.

(** * Properties *)

(** Hashes are finite maps.  Any sequence of writes, deletes, increments and reads on a
    key of a store that holds a hash there returns what the operations on a finite map
    return, leaves a store that holds the resulting map with its exact size, and touches no
    other key. *)
Lemma hash_refines {B : Backend} {BS : BackendSpec B} (db : DB) (key : bytes) (ops : list hash_op) (h : gmap bytes bytes)
    (m : gmap bytes bytes) (e : Env) :
  checkKeySize key = None -> allowed key h ops -> well_keyed db m -> hash_rep db m key h ->
  runs (run_all db key ops) m e (fun rs m' _ =>
    exists h', steps h ops rs h' /\ hash_rep db m' key h' /\ keeps db HashType key m m').
Proof. apply (run_all_refines (C := hash_container)). Qed.

Lemma hash_refines_witness :
  runs (B := MemBackend) (run_all db0 [107] [opHSet [97] [49]; opHIncrBy [97] 4; opHLen; opHGet [97]]) ∅ env0
    (fun rs m' _ => rs = [hrInt (1, None); hrInt (5, None); hrInt (1, None); hrVal (Some [53], None)]).
Proof.
  eapply wp_mono.
  - apply (hash_refines (B := MemBackend) db0 [107] [opHSet [97] [49]; opHIncrBy [97] 4; opHLen; opHGet [97]] ∅ ∅ env0 eq_refl);
      [|apply well_keyed_empty|apply (rep_empty (C := hash_container) db0 [107])].
    split; [done|]. intros ? h1 E%(f_equal snd). cbn [snd hash_fn] in E. subst h1. split; [done|].
    intros ? h2 E%(f_equal snd). vm_compute in E. subst h2. split; [done|].
    intros ? h3 E%(f_equal snd). cbn [snd hash_fn] in E. subst h3. by split.
  - intros rs m' b' e' (-> & h' & Hs & _). split; [done|]. apply (steps_fn hash_container hash_fn) in Hs; [|done].
    vm_compute in Hs. congruence.
Defined.

(** A field named twice in [HMset] is counted twice: the size entry says 2 for a hash
    with one field, and after [HDel] of the field it says 1 for an empty hash. *)
Lemma hash_anomalies :
  ((_ ← HMset db0 [107] [([97], [49]); ([97], [50])]; n ← HLen db0 [107]; l ← HKeys db0 [107];
    _ ← HDel db0 [107] [[97]]; n' ← HLen db0 [107]; l' ← HKeys db0 [107]; mret (n, l, n', l')) (mem_state ∅ 0)).1
  = Ret ((2, None), (Some [[97]], None), (1, None), (Some [], None)).
Proof. vm_compute. reflexivity. Qed.
