(* ===== verification/TSet.v ===== *)
(** * Sets (src/ledis/t_set.go)

    A set is a size entry and one entry with an empty value per member.  Every operation of
    the type except [sFlush] (see Flush.v). *)

From S2P Require Import Prelude Driver Store Keys Util Core Frame Refine Coll.

Definition UnionType : Z := 51.
Definition DiffType : Z := 52.
Definition InterType : Z := 53.

Definition checkSetKMSize (key member : bytes) : option error :=
  if (len key >? MaxKeySize) || (len key =? 0) then Some errKeySize
  else if (len member >? MaxSetMemberSize) || (len member =? 0) then Some errSetMemberSize
  else None.

Section Ops.
Context {B : Backend} {O : MapOrder}.
Implicit Types (db : DB) (key member : bytes).

Definition sIncrSize db key (delta : Z) : M (Z * option error) :=
  let sk := sEncodeSizeKey db key in
  '(v, e) ← bucket_Get sk;
  let '(size, err) := Int64 v e in
  match err with
  | Some err => mret (0, Some err)
  | None =>
      let size := int64 (size + delta) in
      if size <=? 0 then
        _ ← batch_Delete setBatch sk;
        _ ← rmExpire db setBatch SetType key;
        mret (0, None)
      else
        _ ← batch_Put setBatch sk (PutInt64 size);
        mret (size, None)
  end.

Definition sDelete db (t : BatchId) key : M Z :=
  let sk := sEncodeSizeKey db key in
  it ← bucket_RangeLimitIterator (Some (sEncodeStartKey db key)) (Some (sEncodeStopKey db key)) RangeROpen 0 (-1);
  _ ← for_each (rli_items it) (fun '(k, _) => batch_Delete t k);
  _ ← batch_Delete t sk;
  mret (len (rli_items it)).

Definition SCard db key : M (Z * option error) :=
  match checkKeySize key with
  | Some err => mret (0, Some err)
  | None => '(v, e) ← bucket_Get (sEncodeSizeKey db key); mret (Int64 v e)
  end.

Definition sExpireAt db key (when : Z) : M (Z * option error) :=
  with_lock setBatch (
    '(scnt, err) ← SCard db key;
    if is_err err || (scnt =? 0) then mret (0, err)
    else
      _ ← expireAt db setBatch SetType key when;
      err ← batch_Commit setBatch;
      match err with
      | Some err => mret (0, Some err)
      | None => mret (1, None)
      end).

Definition sSetItem db key member : M (Z * option error) :=
  let ek := sEncodeSetKey db key member in
  '(v, _) ← bucket_Get ek;
  match v with
  | Some _ => _ ← batch_Put setBatch ek []; mret (0, None)
  | None =>
      '(_, err) ← sIncrSize db key 1;
      match err with
      | Some err => mret (0, Some err)
      | None => _ ← batch_Put setBatch ek []; mret (1, None)
      end
  end.

(** The loop of [SAdd]: an error ends the call, else the number of new members. *)
Fixpoint sadd_loop db key (args : list bytes) (num : Z) : M (Z + error) :=
  match args with
  | [] => mret (inl num)
  | member :: args' =>
      match checkSetKMSize key member with
      | Some err => mret (inr err)
      | None =>
          let ek := sEncodeSetKey db key member in
          '(v, err) ← bucket_Get ek;
          match err with
          | Some err => mret (inr err)
          | None =>
              let num := match v with None => int64 (num + 1) | Some _ => num end in
              _ ← batch_Put setBatch ek [];
              sadd_loop db key args' num
          end
      end
  end.

Definition SAdd db key (args : list bytes) : M (Z * option error) :=
  with_lock setBatch (
    res ← sadd_loop db key args 0;
    match res with
    | inr err => mret (0, Some err)
    | inl num =>
        '(_, err) ← sIncrSize db key num;
        match err with
        | Some err => mret (0, Some err)
        | None => err ← batch_Commit setBatch; mret (num, err)
        end
    end).

(** The loop of [SMembers]. *)
Fixpoint set_collect db (items : list (bytes * bytes)) (acc : list bytes) : outcome (list bytes * option error) :=
  match items with
  | [] => Ret (acc, None)
  | (k, _) :: items' =>
      match sDecodeSetKey db k with
      | Panic => Panic
      | Ret (inr err) => Ret ([], Some err)
      | Ret (inl (_, member)) => set_collect db items' (acc ++ [member])
      end
  end.

Definition SMembers db key : M (list bytes * option error) :=
  match checkKeySize key with
  | Some err => mret ([], Some err)
  | None =>
      it ← bucket_RangeLimitIterator (Some (sEncodeStartKey db key)) (Some (sEncodeStopKey db key)) RangeROpen 0 (-1);
      lift (set_collect db (rli_items it) [])
  end.

(** The loop of [sDiffGeneric] over [keys[1:]]; [destMap] is the set of its keys.  An empty
    difference with a further set is a nil slice. *)
Fixpoint sdiff_loop db (keys : list bytes) (destMap : gset bytes) : M (option (list bytes) * option error) :=
  match keys with
  | [] => mret (Some (map_order destMap), None)
  | k :: keys' =>
      '(members, err) ← SMembers db k;
      match err with
      | Some err => mret (None, Some err)
      | None =>
          let destMap := destMap ∖ list_to_set members in
          if decide (destMap = ∅) then mret (None, None) else sdiff_loop db keys' destMap
      end
  end.

Definition sDiffGeneric db (keys : list bytes) : M (option (list bytes) * option error) :=
  match keys with
  | [] => panic
  | k :: keys' =>
      '(members, err) ← SMembers db k;
      match err with
      | Some err => mret (None, Some err)
      | None => sdiff_loop db keys' (list_to_set members)
      end
  end.

(** The loop over the members inside [sInterGeneric]. *)
Fixpoint sinter_members (members : list bytes) (destMap tempMap : gset bytes) : gset bytes + error :=
  match members with
  | [] => inl tempMap
  | member :: members' =>
      match checkKeySize member with
      | Some err => inr err
      | None =>
          sinter_members members' destMap (if decide (member ∈ destMap) then {[ member ]} ∪ tempMap else tempMap)
      end
  end.

Fixpoint sinter_loop db (keys : list bytes) (destMap : gset bytes) : M (option (list bytes) * option error) :=
  match keys with
  | [] => mret (Some (map_order destMap), None)
  | key :: keys' =>
      match checkKeySize key with
      | Some err => mret (None, Some err)
      | None =>
          '(members, err) ← SMembers db key;
          match err with
          | Some err => mret (None, Some err)
          | None =>
              if len members =? 0 then mret (None, None)
              else
                match sinter_members members destMap ∅ with
                | inr err => mret (None, Some err)
                | inl tempMap =>
                    if decide (tempMap = ∅) then mret (None, None) else sinter_loop db keys' tempMap
                end
          end
      end
  end.

Definition sInterGeneric db (keys : list bytes) : M (option (list bytes) * option error) :=
  match keys with
  | [] => panic
  | k :: keys' =>
      '(members, err) ← SMembers db k;
      match err with
      | Some err => mret (None, Some err)
      | None => sinter_loop db keys' (list_to_set members)
      end
  end.

Fixpoint sunion_loop db (keys : list bytes) (dstMap : gset bytes) : M (option (list bytes) * option error) :=
  match keys with
  | [] => mret (Some (map_order dstMap), None)
  | key :: keys' =>
      match checkKeySize key with
      | Some err => mret (None, Some err)
      | None =>
          '(members, err) ← SMembers db key;
          match err with
          | Some err => mret (None, Some err)
          | None => sunion_loop db keys' (dstMap ∪ list_to_set members)
          end
      end
  end.

Definition sUnionGeneric db (keys : list bytes) : M (option (list bytes) * option error) := sunion_loop db keys ∅.

Definition SDiff db (keys : list bytes) : M (option (list bytes) * option error) := sDiffGeneric db keys.
Definition SInter db (keys : list bytes) : M (option (list bytes) * option error) := sInterGeneric db keys.
Definition SUnion db (keys : list bytes) : M (option (list bytes) * option error) := sUnionGeneric db keys.

Definition SKeyExists db key : M (Z * option error) :=
  match checkKeySize key with
  | Some err => mret (0, Some err)
  | None =>
      '(v, err) ← bucket_Get (sEncodeSizeKey db key);
      if not_nil v && negb (is_err err) then mret (1, None) else mret (0, err)
  end.

Definition SIsMember db key member : M (Z * option error) :=
  '(v, err) ← bucket_Get (sEncodeSetKey db key member);
  match err with
  | Some err => mret (0, Some err)
  | None => mret (match v with None => 0 | Some _ => 1 end, None)
  end.

(** The loop of [SRem]. *)
Fixpoint srem_loop db key (it : cursor) (args : list bytes) (num : Z) : M (Z + error) :=
  match args with
  | [] => mret (inl num)
  | member :: args' =>
      match checkSetKMSize key member with
      | Some err => mret (inr err)
      | None =>
          let ek := sEncodeSetKey db key member in
          let '(it, v) := Find it ek in
          match v with
          | None => srem_loop db key it args' num
          | Some _ => _ ← batch_Delete setBatch ek; srem_loop db key it args' (int64 (num + 1))
          end
      end
  end.

Definition SRem db key (args : list bytes) : M (Z * option error) :=
  with_lock setBatch (
    it ← bucket_NewIterator;
    res ← srem_loop db key it args 0;
    match res with
    | inr err => mret (0, Some err)
    | inl num =>
        '(_, err) ← sIncrSize db key (int64 (- num));
        match err with
        | Some err => mret (0, Some err)
        | None => err ← batch_Commit setBatch; mret (num, err)
        end
    end).

(** The result of an operation on sets is stored under [dstKey]: the old members are
    queued for deletion first, the size entry is written whatever the size. *)
Definition sStoreGeneric db (dstKey : bytes) (optType : Z) (keys : list bytes) : M (Z * option error) :=
  match checkKeySize dstKey with
  | Some err => mret (0, Some err)
  | None =>
      with_lock setBatch (
        _ ← sDelete db setBatch dstKey;
        '(v, err) ← (if optType =? UnionType then sUnionGeneric db keys
                     else if optType =? DiffType then sDiffGeneric db keys
                     else if optType =? InterType then sInterGeneric db keys
                     else mret (None, None));
        match err with
        | Some err => mret (0, Some err)
        | None =>
            for_ret (default [] v) (fun m =>
              match checkSetKMSize dstKey m with
              | Some err => mret (Some (0, Some err))
              | None =>
                  let ek := sEncodeSetKey db dstKey m in
                  '(_, err) ← bucket_Get ek;
                  match err with
                  | Some err => mret (Some (0, Some err))
                  | None => _ ← batch_Put setBatch ek []; mret None
                  end
              end)
            (let n := len (default [] v) in
             _ ← batch_Put setBatch (sEncodeSizeKey db dstKey) (PutInt64 n);
             err ← batch_Commit setBatch;
             match err with
             | Some err => mret (0, Some err)
             | None => mret (n, None)
             end)
        end)
  end.

Definition SDiffStore db (dstKey : bytes) (keys : list bytes) := sStoreGeneric db dstKey DiffType keys.
Definition SInterStore db (dstKey : bytes) (keys : list bytes) := sStoreGeneric db dstKey InterType keys.
Definition SUnionStore db (dstKey : bytes) (keys : list bytes) := sStoreGeneric db dstKey UnionType keys.

Definition SClear db key : M (Z * option error) :=
  match checkKeySize key with
  | Some err => mret (0, Some err)
  | None =>
      with_lock setBatch (
        num ← sDelete db setBatch key;
        _ ← rmExpire db setBatch SetType key;
        err ← batch_Commit setBatch;
        mret (num, err))
  end.

Definition SMclear db (keys : list bytes) : M (Z * option error) :=
  with_lock setBatch (
    for_ret keys (fun key =>
      match checkKeySize key with
      | Some err => mret (Some (0, Some err))
      | None =>
          _ ← sDelete db setBatch key;
          _ ← rmExpire db setBatch SetType key;
          mret None
      end)
    (err ← batch_Commit setBatch; mret (len keys, err))).

Definition SExpire db key (duration : Z) : M (Z * option error) :=
  if duration <=? 0 then mret (0, Some errExpireValue)
  else n ← time_now; sExpireAt db key (int64 (n + duration)).

Definition SExpireAt db key (when : Z) : M (Z * option error) :=
  n ← time_now;
  if when <=? n then mret (0, Some errExpireValue) else sExpireAt db key when.

Definition STTL db key : M (Z * option error) :=
  match checkKeySize key with
  | Some err => mret (-1, Some err)
  | None => ttl db SetType key
  end.

Definition SPersist db key : M (Z * option error) :=
  match checkKeySize key with
  | Some err => mret (0, Some err)
  | None =>
      with_lock setBatch (
        '(n, err) ← rmExpire db setBatch SetType key;
        match err with
        | Some err => mret (0, Some err)
        | None => err ← batch_Commit setBatch; mret (n, err)
        end)
  end.

End Ops.

(** * The set a key holds *)

(** A set as the map from its members to the empty value. *)
Definition set_map (X : gset bytes) : gmap bytes bytes := gset_to_gmap [] X.

Definition set_rep (db : DB) (m : gmap bytes bytes) (key : bytes) (X : gset bytes) : Prop :=
  coll_rep db (SMember key) (SSize key) m (set_map X).

(** The members in the order of the store. *)
Definition smembers (X : gset bytes) : list bytes := (sorted_entries (set_map X)).*1.

Abbreviation sput := (fun x : bytes => (x, Some (@nil Z))).
Abbreviation sdel := (fun x : bytes => (x, @None bytes)).

Lemma set_map_lookup X x : set_map X !! x = if decide (x ∈ X) then Some [] else None.
Proof.
  unfold set_map. case_decide as Hx; [by apply lookup_gset_to_gmap_Some|by apply lookup_gset_to_gmap_None].
Qed.

Lemma set_map_size X : size (set_map X) = size X.
Proof. unfold set_map. rewrite <- size_dom, dom_gset_to_gmap. done. Qed.

Lemma upd_puts_lookup (h : gmap bytes bytes) (l : list bytes) x :
  upd h (map sput l) !! x = if decide (x ∈ l) then Some [] else h !! x.
Proof.
  revert h; induction l as [|y l IH]; intros h; [done|]. cbn [map]. rewrite upd_cons, IH. unfold upd1. cbn [fst snd].
  destruct (decide (x = y)) as [->|Hne].
  - rewrite lookup_insert_eq, (decide_True (P := y ∈ y :: l)) by constructor. by case_decide.
  - rewrite lookup_insert_ne by done. repeat case_decide; try done; exfalso; set_solver.
Qed.

Lemma upd_set_puts X l : upd (set_map X) (map sput l) = set_map (X ∪ list_to_set l).
Proof.
  apply map_eq. intros x. rewrite upd_puts_lookup, !set_map_lookup. repeat case_decide; try done; exfalso; set_solver.
Qed.

Lemma upd_set_dels X l : upd (set_map X) (map sdel l) = set_map (X ∖ list_to_set l).
Proof.
  apply map_eq. intros x. rewrite upd_dels_lookup, !set_map_lookup. repeat case_decide; try done; exfalso; set_solver.
Qed.

Lemma set_map_empty_iff X : set_map X = ∅ <-> X = ∅.
Proof. rewrite <- map_size_empty_iff, set_map_size, size_empty_iff. apply leibniz_equiv_iff. Qed.

Lemma smembers_perm X : smembers X ≡ₚ elements X.
Proof.
  unfold smembers. apply NoDup_Permutation; [|apply NoDup_elements|].
  { rewrite (sorted_entries_perm (set_map X)). apply NoDup_fst_map_to_list. }
  intros x. rewrite elem_of_elements, list_elem_of_fmap. split.
  - intros ([y v] & -> & Hy). apply elem_of_sorted_entries in Hy. rewrite set_map_lookup in Hy. simpl. by case_decide.
  - intros Hx. exists (x, []). split; [done|]. apply elem_of_sorted_entries. rewrite set_map_lookup. by rewrite decide_True.
Qed.

Lemma smembers_set X : list_to_set (smembers X) = X.
Proof. rewrite (smembers_perm X). apply list_to_set_elements_L. Qed.

(** Distinct members added, and removed, and the sizes. *)
Lemma sadd_size X l : NoDup l -> Z.of_nat (size (X ∪ list_to_set l)) = Z.of_nat (size X) + Z.of_nat (count_new (set_map X) l).
Proof.
  intros Hn. rewrite <- !set_map_size, <- upd_set_puts.
  pose proof (upd_puts_size (set_map X) (map (fun x => (x, [])) l)) as HU.
  assert (Hf : (map (fun x : bytes => (x, @nil Z)) l).*1 = l).
  { clear. induction l as [|y l IH]; [done|]. cbn [map]. by rewrite fmap_cons, IH. }
  rewrite Hf, map_map in HU. cbn [fst snd] in HU. rewrite HU by done. lia.
Qed.

Lemma srem_size X l : NoDup l -> Z.of_nat (size (X ∖ list_to_set l)) = Z.of_nat (size X) - Z.of_nat (count_old (set_map X) l).
Proof.
  intros Hn. rewrite <- !set_map_size, <- upd_set_dels. pose proof (upd_dels_size (set_map X) l Hn). lia.
Qed.

Lemma checkSetKMSize_key key member : checkSetKMSize key member = None -> checkKeySize key = None.
Proof. unfold checkSetKMSize, checkKeySize. by destruct (_ || _). Qed.

Lemma checkSetKMSize_of key member :
  checkKeySize key = None -> checkKeySize member = None -> checkSetKMSize key member = None.
Proof.
  unfold checkSetKMSize, checkKeySize. change MaxSetMemberSize with MaxKeySize.
  by destruct ((len key >? _) || _), ((len member >? _) || _).
Qed.

Section Spec.
Context {B : Backend} {BS : BackendSpec B} {O : MapOrder} {OS : MapOrderSpec O}.
Implicit Types (db : DB) (key member : bytes) (m : gmap bytes bytes) (X : gset bytes) (e : Env).

Lemma set_size db m key X : set_rep db m key X -> Z.of_nat (size X) < 2 ^ 63 ->
  Int64 (m !! sEncodeSizeKey db key) None = (Z.of_nat (size X), None).
Proof. rewrite <- set_map_size. apply (size_read db (SMember key) (SSize key)). Qed.

Lemma set_member db m key X x : set_rep db m key X ->
  m !! sEncodeSetKey db key x = if decide (x ∈ X) then Some [] else None.
Proof. intros Hr. pose proof (cr_members _ _ _ _ _ Hr x) as Hm. by rewrite set_map_lookup in Hm. Qed.

Lemma set_rep_frame db m m' T key' key X :
  short key -> touches db T key' m m' -> T <> SetType \/ key' <> key -> set_rep db m key X -> set_rep db m' key X.
Proof. intros Hk. by apply (coll_frame db SetType key (SMember key) (SSize key)). Qed.

Lemma set_ops_for db key us m n :
  short key -> ops_for db SetType key (map (member_op db (SMember key)) us) /\
  ops_for db SetType key (size_ops db m SetType key (sEncodeSizeKey db key) n).
Proof.
  intros Hk. split; [by apply (ops_for_members db SetType key (SMember key))|].
  by apply (ops_for_size db SetType key (SSize key)).
Qed.

(** Member writes with the size update that goes with them. *)
Lemma set_update db key us m0 m X X' :
  short key -> set_rep db m key X -> upd (set_map X) us = set_map X' -> Z.of_nat (size X') < 2 ^ 63 ->
  let ops := map (member_op db (SMember key)) us ++
             size_ops db m0 SetType key (sEncodeSizeKey db key) (Z.of_nat (size X')) in
  set_rep db (apply_ops ops m) key X' /\ keeps db SetType key m (apply_ops ops m).
Proof.
  intros Hk Hr HX Hb ops. subst ops. split.
  - pose proof (coll_update db SetType key (SMember key) (SSize key)) as HU. unfold set_rep. rewrite <- HX.
    rewrite <- set_map_size, <- HX in *. apply HU; try done; naive_solver.
  - destruct (set_ops_for db key us m0 (Z.of_nat (size X')) Hk). by apply keeps_ops, ops_for_app.
Qed.

Lemma wp_sIncrSize db key delta n (Q : Z * option error -> _ -> _ -> _ -> Prop) m b e :
  Int64 (m !! sEncodeSizeKey db key) None = (n, None) -> in_i64 (n + delta) ->
  Q (Z.max 0 (n + delta), None) m (add_ops setBatch (size_ops db m SetType key (sEncodeSizeKey db key) (n + delta)) b) e ->
  wp (sIncrSize db key delta) Q m b e.
Proof.
  intros Hn Hr HQ. unfold sIncrSize, size_ops in *. wp_auto. rewrite Hn, int64_small by done.
  destruct (n + delta <=? 0) eqn:E; zify_bool; wp_auto.
  - by rewrite Z.max_l in HQ by lia.
  - by rewrite Z.max_r in HQ by lia.
Qed.

(** ** Adding and removing *)

Definition margs_ok key (args : list bytes) : Prop := Forall (fun x => checkSetKMSize key x = None) args.

Lemma wp_sadd_loop db key args num X (Q : Z + error -> _ -> _ -> _ -> Prop) m b e :
  set_rep db m key X -> margs_ok key args -> 0 <= num -> num + len args < 2 ^ 63 ->
  Q (inl (num + Z.of_nat (count_new (set_map X) args))) m (add_ops setBatch (map (member_op db (SMember key)) (map sput args)) b) e ->
  wp (sadd_loop db key args num) Q m b e.
Proof.
  intros Hr Ha. revert num b; induction Ha as [|x args Hx Ha IH]; intros num b H0 Hn HQ.
  - cbn [sadd_loop]. wp_auto. cbn [map count_new] in HQ. by rewrite Z.add_0_r, add_no_ops in HQ.
  - cbn [sadd_loop]. rewrite Hx. wp_auto. pose proof (cr_members _ _ _ _ _ Hr x) as Hm. simpl in Hm. rewrite Hm.
    cbn [length] in Hn. cbn [count_new map] in HQ. destruct (set_map X !! x) as [v|].
    + apply IH; [lia|lia|]. rewrite add_ops_add. cbn [app]. by rewrite Nat.add_0_l in HQ.
    + rewrite int64_small by (unfold in_i64; lia). apply IH; [lia|lia|]. rewrite add_ops_add.
      by replace (num + 1 + Z.of_nat (count_new (set_map X) args)) with (num + Z.of_nat (1 + count_new (set_map X) args)) by lia.
Qed.

Definition sadd_ops db m X key (args : list bytes) : list BatchOp :=
  map (member_op db (SMember key)) (map sput args) ++
  size_ops db m SetType key (sEncodeSizeKey db key) (Z.of_nat (size X) + Z.of_nat (count_new (set_map X) args)).

Lemma SAdd_exec db key args X m e :
  set_rep db m key X -> margs_ok key args -> Z.of_nat (size X) + len args < 2 ^ 63 ->
  exec (SAdd db key args) m e (Z.of_nat (count_new (set_map X) args), None) (apply_ops (sadd_ops db m X key args) m) e.
Proof.
  intros Hr Ha Hb. unfold exec, SAdd. wp_auto. pose proof (count_new_le (set_map X) args) as Hc.
  apply (wp_sadd_loop db key args 0 X); [done|done|lia|lia|]. rewrite Z.add_0_l. wp_auto.
  eapply wp_sIncrSize; [by apply (set_size db m key X); [|lia]|unfold in_i64; lia|]. wp_auto. done.
Qed.

Lemma sadd_rep db key args X m :
  short key -> set_rep db m key X -> NoDup args -> Z.of_nat (size X) + len args < 2 ^ 63 ->
  set_rep db (apply_ops (sadd_ops db m X key args) m) key (X ∪ list_to_set args) /\
  keeps db SetType key m (apply_ops (sadd_ops db m X key args) m).
Proof.
  intros Hk Hr Hn Hb. pose proof (count_new_le (set_map X) args) as Hc. unfold sadd_ops.
  rewrite <- sadd_size by done. apply (set_update db key _ m m X); [done|done|apply upd_set_puts|].
  rewrite sadd_size by done. lia.
Qed.

Lemma wp_srem_loop db key it args num X (Q : Z + error -> _ -> _ -> _ -> Prop) m b e :
  set_rep db m key X -> snap it = sorted_entries m -> margs_ok key args -> 0 <= num -> num + len args < 2 ^ 63 ->
  Q (inl (num + Z.of_nat (count_old (set_map X) args))) m
    (add_ops setBatch (map (member_op db (SMember key)) (map sdel (filter (fun x => is_Some (set_map X !! x)) args))) b) e ->
  wp (srem_loop db key it args num) Q m b e.
Proof.
  intros Hr Hs Ha. revert it num b Hs; induction Ha as [|x args Hx Ha IH]; intros it num b Hs H0 Hn HQ.
  - cbn [srem_loop]. wp_auto. cbn [map filter list_filter count_old] in HQ. by rewrite Z.add_0_r, add_no_ops in HQ.
  - cbn [srem_loop]. rewrite Hx. destruct (Find_lookup m it (sEncodeSetKey db key x) Hs) as [Hv Hs'].
    destruct (Find it _) as [it' v]. cbn [fst snd] in *. subst v. pose proof (cr_members _ _ _ _ _ Hr x) as Hm.
    simpl in Hm. rewrite Hm. cbn [length] in Hn. cbn [count_old] in HQ. rewrite filter_cons in HQ.
    destruct (set_map X !! x) as [v|].
    + rewrite decide_True in HQ by done. wp_auto. rewrite int64_small by (unfold in_i64; lia).
      apply IH; [done|lia|lia|]. rewrite add_ops_add.
      by replace (num + 1 + Z.of_nat (count_old (set_map X) args)) with (num + Z.of_nat (1 + count_old (set_map X) args)) by lia.
    + rewrite decide_False in HQ by (by intros []). apply IH; [done|lia|lia|]. by rewrite Nat.add_0_l in HQ.
Qed.

Definition srem_ops db m X key (args : list bytes) : list BatchOp :=
  map (member_op db (SMember key)) (map sdel (filter (fun x => is_Some (set_map X !! x)) args)) ++
  size_ops db m SetType key (sEncodeSizeKey db key) (Z.of_nat (size X) - Z.of_nat (count_old (set_map X) args)).

Lemma SRem_exec db key args X m e :
  set_rep db m key X -> margs_ok key args -> Z.of_nat (size X) < 2 ^ 63 -> len args < 2 ^ 63 ->
  exec (SRem db key args) m e (Z.of_nat (count_old (set_map X) args), None) (apply_ops (srem_ops db m X key args) m) e.
Proof.
  intros Hr Ha Hb Hl. unfold exec, SRem. wp_auto. pose proof (count_old_le (set_map X) args) as Hc.
  apply (wp_srem_loop db key _ args 0 X); [done|done|done|lia|lia|]. rewrite Z.add_0_l. wp_auto.
  rewrite (int64_small (- Z.of_nat (count_old (set_map X) args))) by (unfold in_i64; lia).
  eapply wp_sIncrSize; [by apply (set_size db m key X)|unfold in_i64; lia|]. wp_auto. done.
Qed.

Lemma srem_rep db key args X m :
  short key -> set_rep db m key X -> NoDup args -> Z.of_nat (size X) < 2 ^ 63 ->
  set_rep db (apply_ops (srem_ops db m X key args) m) key (X ∖ list_to_set args) /\
  keeps db SetType key m (apply_ops (srem_ops db m X key args) m).
Proof.
  intros Hk Hr Hn Hb. unfold srem_ops. rewrite <- srem_size by done.
  apply (set_update db key _ m m X); [done|done|rewrite upd_dels_skip; apply upd_set_dels|].
  rewrite srem_size by done. lia.
Qed.

(** ** Reading *)

Lemma SCard_wp db key X (Q : Z * option error -> _ -> _ -> _ -> Prop) m b e :
  checkKeySize key = None -> set_rep db m key X -> Z.of_nat (size X) < 2 ^ 63 ->
  Q (Z.of_nat (size X), None) m b e -> wp (SCard db key) Q m b e.
Proof. intros Hk Hr Hb HQ. unfold SCard. rewrite Hk. wp_auto. by rewrite (set_size db m key X). Qed.

Lemma SIsMember_exec db key X x m e :
  set_rep db m key X -> exec (SIsMember db key x) m e (if decide (x ∈ X) then 1 else 0, None) m e.
Proof.
  intros Hr. unfold exec, SIsMember. wp_auto. rewrite (set_member db m key X) by done. by case_decide.
Qed.

(** The entries an iteration over the set visits: its members in order. *)
Lemma set_entries db m key X :
  set_rep db m key X ->
  range_entries m (mkRange (Some (sEncodeStartKey db key)) (Some (sEncodeStopKey db key)) RangeROpen) =
  map (fun p => (sEncodeSetKey db key p.1, p.2)) (sorted_entries (set_map X)).
Proof.
  intros Hr. pose proof (member_entries m (member_pre db SetType key) setStartSep (set_map X)) as HE.
  unfold sEncodeStartKey, sEncodeStopKey. rewrite sEncodeSetKey_split, set_last_snoc.
  change setStopSep with (setStartSep + 1). rewrite HE.
  - apply list_fmap_ext. intros i p _. by rewrite sEncodeSetKey_split.
  - intros f. rewrite <- sEncodeSetKey_split. apply (cr_members _ _ _ _ _ Hr f).
Qed.

Lemma set_collect_ok db key (l : list (bytes * bytes)) acc :
  short key ->
  set_collect db (map (fun p => (sEncodeSetKey db key p.1, p.2)) l) acc = Ret (acc ++ l.*1, None).
Proof.
  intros Hk. revert acc; induction l as [|p l IH]; intros acc; cbn [map set_collect]; [by rewrite app_nil_r|].
  assert (sDecodeSetKey db (sEncodeSetKey db key p.1) = Ret (inl (key, p.1))) as ->.
  { by apply (decode_member_named SetType errSetKey). }
  rewrite IH. by rewrite <- app_assoc.
Qed.

Lemma SMembers_wp db key X (Q : list bytes * option error -> _ -> _ -> _ -> Prop) m b e :
  checkKeySize key = None -> set_rep db m key X -> Q (smembers X, None) m b e -> wp (SMembers db key) Q m b e.
Proof.
  intros Hk Hr HQ. unfold SMembers. rewrite Hk. wp_auto. rewrite H, cut_all, (set_entries db m key X) by done.
  rewrite set_collect_ok by (by apply short_key). by wp_auto.
Qed.

(** ** Union, difference and intersection *)

(** The sets the keys hold. *)
Definition sets_rep db m (keys : list bytes) (Xs : list (gset bytes)) : Prop :=
  Forall2 (fun key X => checkKeySize key = None /\ set_rep db m key X) keys Xs.

(** Every member has a size [SAdd] accepts. *)
Definition sized X : Prop := forall x, x ∈ X -> checkKeySize x = None.

Lemma map_order_empty X : X = ∅ -> map_order X = [].
Proof. intros ->. apply Permutation_nil. rewrite map_order_perm. by rewrite elements_empty. Qed.

Lemma wp_sUnionGeneric db keys Xs (Q : option (list bytes) * option error -> _ -> _ -> _ -> Prop) m b e :
  sets_rep db m keys Xs -> (forall v, default [] v = map_order (⋃ Xs) -> Q (v, None) m b e) -> wp (sUnionGeneric db keys) Q m b e.
Proof.
  intros Hs. unfold sUnionGeneric. rewrite <- (union_empty_l_L (⋃ Xs)). generalize (∅ : gset bytes) at 1 2. revert Q.
  induction Hs as [|key X keys Xs [Hk Hr] Hs IH]; intros Q D HQ; cbn [sunion_loop].
  - wp_auto. apply HQ. simpl. by rewrite union_empty_r_L.
  - rewrite Hk. wp_auto. apply (SMembers_wp db key X); [done..|]. rewrite smembers_set. apply IH.
    intros v Hv. apply HQ. by rewrite Hv, <- (union_assoc_L D X (⋃ Xs)).
Qed.

Lemma wp_sdiff_loop db keys Xs D (Q : option (list bytes) * option error -> _ -> _ -> _ -> Prop) m b e :
  sets_rep db m keys Xs -> (forall v, default [] v = map_order (D ∖ ⋃ Xs) -> Q (v, None) m b e) -> wp (sdiff_loop db keys D) Q m b e.
Proof.
  intros Hs. revert Q D. induction Hs as [|key X keys Xs [Hk Hr] Hs IH]; intros Q D HQ; cbn [sdiff_loop].
  - wp_auto. apply HQ. simpl. by rewrite difference_empty_L.
  - wp_auto. apply (SMembers_wp db key X); [done..|]. rewrite smembers_set. simpl in HQ.
    assert (Hd : D ∖ (X ∪ ⋃ Xs) = D ∖ X ∖ ⋃ Xs) by set_solver.
    rewrite Hd in HQ. case_decide as HD; [|by apply IH]. wp_auto. apply HQ. rewrite map_order_empty; [done|]. set_solver.
Qed.

Lemma wp_sDiffGeneric db key keys X Xs (Q : option (list bytes) * option error -> _ -> _ -> _ -> Prop) m b e :
  sets_rep db m (key :: keys) (X :: Xs) -> (forall v, default [] v = map_order (X ∖ ⋃ Xs) -> Q (v, None) m b e) -> wp (sDiffGeneric db (key :: keys)) Q m b e.
Proof.
  intros [[Hk Hr] Hs]%Forall2_cons HQ. cbn [sDiffGeneric]. wp_auto. apply (SMembers_wp db key X); [done..|].
  rewrite smembers_set. by apply (wp_sdiff_loop db keys Xs).
Qed.

Lemma sinter_members_ok (l : list bytes) D T :
  Forall (fun x => checkKeySize x = None) l -> sinter_members l D T = inl (T ∪ (D ∩ list_to_set l)).
Proof.
  intros Hl. revert T; induction Hl as [|x l Hx Hl IH]; intros T; cbn [sinter_members].
  - f_equal. set_solver.
  - rewrite Hx, IH. f_equal. case_decide; set_solver.
Qed.

Lemma wp_sinter_loop db keys Xs D (Q : option (list bytes) * option error -> _ -> _ -> _ -> Prop) m b e :
  sets_rep db m keys Xs -> Forall sized Xs -> (forall v, default [] v = map_order (foldl (∩) D Xs) -> Q (v, None) m b e) ->
  wp (sinter_loop db keys D) Q m b e.
Proof.
  intros Hs. revert Q D. induction Hs as [|key X keys Xs [Hk Hr] Hs IH]; intros Q D Hz HQ; cbn [sinter_loop].
  - wp_auto. by apply HQ.
  - apply Forall_cons in Hz as [HX Hz]. rewrite Hk. wp_auto. apply (SMembers_wp db key X); [done..|]. cbn [foldl] in HQ.
    rewrite sinter_members_ok, smembers_set, union_empty_l_L.
    2: { apply Forall_forall. intros x Hx. apply HX. rewrite smembers_perm in Hx. by apply elem_of_elements. }
    assert (Hem : D ∩ X = ∅ -> Q (None, None) m b e).
    { intros HD. apply HQ. rewrite HD, map_order_empty; [done|]. clear. by induction Xs as [|Y Xs IH];
        simpl; [done|]; rewrite intersection_empty_l_L. }
    destruct (len (smembers X) =? 0) eqn:E; zify_bool.
    + wp_auto. apply Hem. destruct (smembers X) eqn:E1; [|simpl in E; lia]. pose proof (smembers_set X) as HX1.
      rewrite E1 in HX1. set_solver.
    + case_decide; [wp_auto; auto|by apply IH].
Qed.

Lemma wp_sInterGeneric db key keys X Xs (Q : option (list bytes) * option error -> _ -> _ -> _ -> Prop) m b e :
  sets_rep db m (key :: keys) (X :: Xs) -> Forall sized Xs -> (forall v, default [] v = map_order (foldl (∩) X Xs) -> Q (v, None) m b e) ->
  wp (sInterGeneric db (key :: keys)) Q m b e.
Proof.
  intros [[Hk Hr] Hs]%Forall2_cons Hz HQ. cbn [sInterGeneric]. wp_auto. apply (SMembers_wp db key X); [done..|].
  rewrite smembers_set. by apply (wp_sinter_loop db keys Xs).
Qed.

(** ** Clearing and storing *)

Definition sdelete_ops db X key : list BatchOp :=
  map (member_op db (SMember key)) (map sdel (smembers X)) ++ [OpDelete (sEncodeSizeKey db key)].

Lemma wp_sDelete db t key X (Q : Z -> _ -> _ -> _ -> Prop) m b e :
  set_rep db m key X -> Q (Z.of_nat (size X)) m (add_ops t (sdelete_ops db X key) b) e -> wp (sDelete db t key) Q m b e.
Proof.
  intros Hr HQ. unfold sDelete. wp_auto. rewrite H, cut_all, (set_entries db m key X) by done.
  eapply (wp_for_each t (fun p => [OpDelete p.1])).
  - intros [k v] b1 Q1 _ HQ1. wp_auto. done.
  - rewrite concat_singletons. wp_auto. unfold sdelete_ops, smembers in HQ. rewrite length_map.
    rewrite sorted_entries_length, set_map_size. rewrite !map_map in *. exact HQ.
Qed.

Definition sclear_ops db m X key : list BatchOp :=
  map (member_op db (SMember key)) (map sdel (smembers X)) ++ size_ops db m SetType key (sEncodeSizeKey db key) 0.

Lemma SClear_exec db key X m e :
  checkKeySize key = None -> set_rep db m key X ->
  exec (SClear db key) m e (Z.of_nat (size X), None) (apply_ops (sclear_ops db m X key) m) e.
Proof.
  intros Hk Hr. unfold exec, SClear. rewrite Hk. wp_auto. apply (wp_sDelete db setBatch key X); [done|]. wp_auto.
  unfold sclear_ops, sdelete_ops, size_ops. simpl. by rewrite <- app_assoc.
Qed.

Lemma sclear_rep db key X m :
  short key -> set_rep db m key X ->
  set_rep db (apply_ops (sclear_ops db m X key) m) key ∅ /\ keeps db SetType key m (apply_ops (sclear_ops db m X key) m).
Proof.
  intros Hk Hr. pose proof (set_update db key (map sdel (smembers X)) m m X ∅ Hk Hr) as HU.
  rewrite size_empty, upd_set_dels, smembers_set, difference_diag_L in HU. by apply HU.
Qed.

Definition sstore_ops db X key (l : list bytes) : list BatchOp :=
  sdelete_ops db X key ++ map (member_op db (SMember key)) (map sput l) ++ [OpPut (sEncodeSizeKey db key) (PutInt64 (len l))].

Lemma wp_sStore db dst X l gen opt keys m e :
  checkKeySize dst = None -> set_rep db m dst X -> Forall (fun x => checkKeySize x = None) l ->
  (if opt =? UnionType then sUnionGeneric db keys else if opt =? DiffType then sDiffGeneric db keys
   else if opt =? InterType then sInterGeneric db keys else mret (None, None)) = gen ->
  (forall (Q : option (list bytes) * option error -> _ -> _ -> _ -> Prop) b, (forall v, default [] v = l -> Q (v, None) m b e) -> wp gen Q m b e) ->
  exec (sStoreGeneric db dst opt keys) m e (len l, None) (apply_ops (sstore_ops db X dst l) m) e.
Proof.
  intros Hk Hr Hl Hg Hw. unfold exec, sStoreGeneric. rewrite Hk. wp_auto. apply (wp_sDelete db setBatch dst X); [done|].
  wp_auto. rewrite Hg. apply Hw. intros v Hv. rewrite Hv.
  apply (wp_for_ret setBatch (fun x => [member_op db (SMember dst) (x, Some [])])).
  - intros x b1 Q1 Hx HQ1. rewrite Forall_forall in Hl. rewrite checkSetKMSize_of by auto. wp_auto. done.
  - rewrite concat_singletons. wp_auto. unfold sstore_ops. rewrite map_map, !app_assoc. done.
Qed.

(** The stored set, when it is not empty. *)
Lemma sstore_rep db dst X R l m :
  short dst -> set_rep db m dst X -> l ≡ₚ elements R -> R <> ∅ -> Z.of_nat (size R) < 2 ^ 63 ->
  set_rep db (apply_ops (sstore_ops db X dst l) m) dst R /\ keeps db SetType dst m (apply_ops (sstore_ops db X dst l) m).
Proof.
  intros Hk Hr Hl HR Hb. assert (Hn : len l = Z.of_nat (size R)) by (rewrite (Permutation_length Hl); done).
  assert (Hinj : forall f g, SMember dst f = SMember dst g -> f = g) by naive_solver.
  unfold sstore_ops, sdelete_ops. split; [|apply keeps_ops; repeat apply ops_for_app].
  - rewrite !apply_ops_app. split.
    + intros x. cbn [apply_ops fold_left apply_op]. rewrite lookup_insert_ne by (apply not_eq_sym, (mem_sz db (SMember dst) (SSize dst)); done).
      rewrite (member_ops_members db (SMember dst)) with (h := ∅); [|done|done|].
      * rewrite upd_puts_lookup, set_map_lookup. apply decide_ext; [|done..]. by rewrite Hl, elem_of_elements.
      * intros y. cbn [apply_ops fold_left apply_op]. rewrite lookup_delete_ne by (apply not_eq_sym, (mem_sz db (SMember dst) (SSize dst)); done).
        rewrite (member_ops_members db (SMember dst)) with (h := set_map X); [|done|done|apply (cr_members _ _ _ _ _ Hr)].
        by rewrite upd_clear.
    + cbn [apply_ops fold_left apply_op]. rewrite lookup_insert_eq. unfold size_entry.
      rewrite decide_False by (by rewrite set_map_empty_iff). by rewrite set_map_size, Hn.
  - by apply (set_ops_for db dst _ m 0).
  - by apply (ops_for_cons _ _ _ _ _ (SSize dst)); [..|constructor].
  - by apply (set_ops_for db dst _ m 0).
  - by apply (ops_for_cons _ _ _ _ _ (SSize dst)); [..|constructor].
Qed.

(** ** Expiration *)

Lemma sExpireAt_exec db key X when m e :
  checkKeySize key = None -> set_rep db m key X -> X <> ∅ -> Z.of_nat (size X) < 2 ^ 63 ->
  exec (sExpireAt db key when) m e (1, None) (apply_ops (expire_ops db SetType key when) m) (check_before when e).
Proof.
  intros Hk Hr Hne Hb. unfold exec, sExpireAt. wp_auto. apply (SCard_wp db key X); [done..|]. cbn [is_err orb].
  rewrite (proj2 (Z.eqb_neq _ 0)); [wp_auto; done|]. intros Hz. apply Hne, leibniz_equiv, size_empty_iff. lia.
Qed.

Lemma STTL_exec db key m e :
  checkKeySize key = None -> exec (STTL db key) m e (ttl_result db m SetType key (now e)) m e.
Proof. intros Hk. unfold exec, STTL. rewrite Hk. wp_auto. done. Qed.

(** ** Containment *)

Lemma contained_sIncrSize db key delta : contained db (sIncrSize db key delta).
Proof. unfold sIncrSize. contained_auto. Qed.
#[local] Hint Resolve contained_sIncrSize : ledis.
Lemma start_stop_set db key : in_db db (sEncodeStartKey db key) /\ in_db db (sEncodeStopKey db key).
Proof.
  split; [by eexists|]. unfold sEncodeStopKey. rewrite sEncodeSetKey_split, set_last_snoc.
  unfold member_pre. rewrite <- app_assoc. by eexists.
Qed.
Lemma contained_sDelete db t key : contained db (sDelete db t key).
Proof.
  unfold sDelete. contained_auto. destruct (start_stop_set db key). apply contained_Delete. eapply items_in_db; eassumption.
Qed.
#[local] Hint Resolve contained_sDelete : ledis.
Lemma contained_SCard db key : contained db (SCard db key).
Proof. unfold SCard. contained_auto. Qed.
#[local] Hint Resolve contained_SCard : ledis.
Lemma contained_sExpireAt db key when : contained db (sExpireAt db key when).
Proof. unfold sExpireAt. contained_auto. Qed.
#[local] Hint Resolve contained_sExpireAt : ledis.
Lemma contained_sSetItem db key member : contained db (sSetItem db key member).
Proof. unfold sSetItem. contained_auto. Qed.
Lemma contained_sadd_loop db key args num : contained db (sadd_loop db key args num).
Proof. revert num; induction args as [|x args IH]; intros num; simpl; contained_auto; auto. Qed.
#[local] Hint Resolve contained_sadd_loop : ledis.
Lemma contained_SAdd db key args : contained db (SAdd db key args).
Proof. unfold SAdd. contained_auto. Qed.
Lemma contained_srem_loop db key it args num : contained db (srem_loop db key it args num).
Proof. revert it num; induction args as [|f args IH]; intros it num; simpl; contained_auto; auto. Qed.
#[local] Hint Resolve contained_srem_loop : ledis.
Lemma contained_SRem db key args : contained db (SRem db key args).
Proof. unfold SRem. contained_auto. Qed.
Lemma contained_SMembers db key : contained db (SMembers db key).
Proof. unfold SMembers. contained_auto. Qed.
#[local] Hint Resolve contained_SMembers : ledis.
Lemma contained_SIsMember db key x : contained db (SIsMember db key x).
Proof. unfold SIsMember. contained_auto. Qed.
Lemma contained_SKeyExists db key : contained db (SKeyExists db key).
Proof. unfold SKeyExists. contained_auto. Qed.
Lemma contained_sdiff_loop db keys D : contained db (sdiff_loop db keys D).
Proof. revert D; induction keys as [|k keys IH]; intros D; simpl; contained_auto; auto. Qed.
Lemma contained_sinter_loop db keys D : contained db (sinter_loop db keys D).
Proof. revert D; induction keys as [|k keys IH]; intros D; simpl; contained_auto; auto. Qed.
Lemma contained_sunion_loop db keys D : contained db (sunion_loop db keys D).
Proof. revert D; induction keys as [|k keys IH]; intros D; simpl; contained_auto; auto. Qed.
#[local] Hint Resolve contained_sdiff_loop contained_sinter_loop contained_sunion_loop : ledis.
Lemma contained_sDiffGeneric db keys : contained db (sDiffGeneric db keys).
Proof. unfold sDiffGeneric. contained_auto. Qed.
Lemma contained_sInterGeneric db keys : contained db (sInterGeneric db keys).
Proof. unfold sInterGeneric. contained_auto. Qed.
Lemma contained_sUnionGeneric db keys : contained db (sUnionGeneric db keys).
Proof. unfold sUnionGeneric. contained_auto. Qed.
#[local] Hint Resolve contained_sDiffGeneric contained_sInterGeneric contained_sUnionGeneric : ledis.
Lemma contained_sStoreGeneric db dst opt keys : contained db (sStoreGeneric db dst opt keys).
Proof. unfold sStoreGeneric. contained_auto. Qed.
Lemma contained_SClear db key : contained db (SClear db key).
Proof. unfold SClear. contained_auto. Qed.
Lemma contained_SMclear db keys : contained db (SMclear db keys).
Proof. unfold SMclear. contained_auto. Qed.
Lemma contained_SExpire db key duration : contained db (SExpire db key duration).
Proof. unfold SExpire. contained_auto. Qed.
Lemma contained_SExpireAt db key when : contained db (SExpireAt db key when).
Proof. unfold SExpireAt. contained_auto. Qed.
Lemma contained_STTL db key : contained db (STTL db key).
Proof. unfold STTL. contained_auto. Qed.
Lemma contained_SPersist db key : contained db (SPersist db key).
Proof. unfold SPersist. contained_auto. Qed.

End Spec.

#[export] Hint Resolve contained_sDelete contained_SCard contained_sExpireAt contained_SAdd contained_SRem contained_SMembers
  contained_SIsMember contained_SKeyExists contained_sDiffGeneric contained_sInterGeneric contained_sUnionGeneric
  contained_sStoreGeneric contained_SClear contained_SMclear contained_SExpire contained_SExpireAt contained_STTL
  contained_SPersist : ledis.

(** * Sets as an abstract data type *)

Inductive set_op :=
| opSAdd (args : list bytes)
| opSRem (args : list bytes)
| opSCard
| opSIsMember (member : bytes)
| opSMembers
| opSClear.

Inductive set_res :=
| srInt (x : Z * option error)
| srList (x : list bytes * option error).

Definition run_set {B : Backend} (db : DB) (key : bytes) (op : set_op) : M set_res :=
  match op with
  | opSAdd args => x ← SAdd db key args; mret (srInt x)
  | opSRem args => x ← SRem db key args; mret (srInt x)
  | opSCard => x ← SCard db key; mret (srInt x)
  | opSIsMember member => x ← SIsMember db key member; mret (srInt x)
  | opSMembers => x ← SMembers db key; mret (srList x)
  | opSClear => x ← SClear db key; mret (srInt x)
  end.

(** The operations on finite sets: [SAdd] and [SRem] return the number of members the set
    gained and lost. *)
Definition set_fn (X : gset bytes) (op : set_op) : set_res * gset bytes :=
  match op with
  | opSAdd args => let Y := X ∪ list_to_set args in (srInt (Z.of_nat (size Y) - Z.of_nat (size X), None), Y)
  | opSRem args => let Y := X ∖ list_to_set args in (srInt (Z.of_nat (size X) - Z.of_nat (size Y), None), Y)
  | opSCard => (srInt (Z.of_nat (size X), None), X)
  | opSIsMember member => (srInt (if decide (member ∈ X) then 1 else 0, None), X)
  | opSMembers => (srList (smembers X, None), X)
  | opSClear => (srInt (Z.of_nat (size X), None), ∅)
  end.

Definition set_pre (key : bytes) (X : gset bytes) (op : set_op) : Prop :=
  Z.of_nat (size X) < 2 ^ 62 /\
  match op with
  | opSAdd args | opSRem args => margs_ok key args /\ NoDup args /\ len args < 2 ^ 62
  | _ => True
  end.

#[global] Instance set_container : Container set_op set_res (gset bytes) := {|
  ctype := SetType;
  run := @run_set;
  step X op res Y := set_fn X op = (res, Y);
  rep := set_rep;
  pre := set_pre;
  empty_val := ∅
|}.

Section Refinement.
Context {B : Backend} {BS : BackendSpec B}.

Lemma set_done (db : DB) (key : bytes) (X Y : gset bytes) (op : set_op) (res : set_res) (m m' : gmap bytes bytes) :
  set_fn X op = (res, Y) -> set_rep db m' key Y /\ keeps db SetType key m m' ->
  exists Y, set_fn X op = (res, Y) /\ set_rep db m' key Y /\ keeps db SetType key m m'.
Proof using. eauto. Qed.

Lemma set_run_step (db : DB) (key : bytes) (op : set_op) (X : gset bytes) (m : gmap bytes bytes) (e : Env) :
  checkKeySize key = None -> set_pre key X op -> well_keyed db m -> set_rep db m key X ->
  runs (run_set db key op) m e (fun r m' e' => now e' = now e /\ exists Y, set_fn X op = (r, Y) /\ set_rep db m' key Y /\ keeps db SetType key m m').
Proof using BS.
  intros Hk [Hb Hp] _ Hr. pose proof (short_key _ Hk) as Hs. pose proof (keeps_refl db SetType key m) as HR.
  destruct op as [args|args| |x| |]; cbn [run_set] in *; apply runs_map.
  - destruct Hp as (Ha & Hn & Hl). eapply exec_same; [by apply (SAdd_exec db key args X); try done; lia|].
    eapply set_done; [|apply sadd_rep; [done..|lia]]. cbn [set_fn]. rewrite sadd_size by done. do 3 f_equal. lia.
  - destruct Hp as (Ha & Hn & Hl). eapply exec_same; [by apply (SRem_exec db key args X); try done; lia|].
    eapply set_done; [|apply srem_rep; [done..|lia]]. cbn [set_fn]. rewrite srem_size by done. do 3 f_equal. lia.
  - apply (SCard_wp db key X); [done|done|lia|]. split; [done|]. split; [done|]. by eapply set_done.
  - eapply exec_same; [by apply SIsMember_exec|]. by eapply set_done.
  - apply (SMembers_wp db key X); [done|done|]. split; [done|]. split; [done|]. by eapply set_done.
  - eapply exec_same; [by apply SClear_exec|]. eapply set_done; [done|]. by apply sclear_rep.
Qed.

End Refinement.

#[global] Instance set_container_spec : ContainerSpec set_container.
Proof.
  split.
  - intros db key. split; [intros x; rewrite set_map_lookup, decide_False by set_solver; apply lookup_empty|].
    unfold size_entry. rewrite decide_True by (by apply set_map_empty_iff). apply lookup_empty.
  - intros db key T' key' m m' X Hk Hne HT HX. by eapply set_rep_frame; [apply short_key|..].
  - intros B BS db key op X m e. apply set_run_step.
Qed.

(** * Properties *)

(** Sets are finite sets.  Any sequence of additions, removals and reads on a key of a
    store that holds a set there returns what the operations on a finite set return (the
    members in the order of their bytes), leaves a store that holds the resulting set with
    its exact size, and touches no other key. *)
Lemma set_refines {B : Backend} {BS : BackendSpec B} (db : DB) (key : bytes) (ops : list set_op) (X : gset bytes)
    (m : gmap bytes bytes) (e : Env) :
  checkKeySize key = None -> allowed key X ops -> well_keyed db m -> set_rep db m key X ->
  runs (run_all db key ops) m e (fun rs m' _ =>
    exists Y, steps X ops rs Y /\ set_rep db m' key Y /\ keeps db SetType key m m').
Proof. apply (run_all_refines (C := set_container)). Qed.

(** The list [l] enumerates the set [R]. *)
Definition lists (l : list bytes) (R : gset bytes) : Prop := NoDup l /\ forall x, x ∈ l <-> x ∈ R.

Lemma map_order_lists {O : MapOrder} {OS : MapOrderSpec O} (R : gset bytes) : lists (map_order R) R.
Proof.
  split; [rewrite (map_order_perm R); apply NoDup_elements|]. intros x. rewrite (map_order_perm R). apply elem_of_elements.
Qed.

Lemma elem_of_foldl_inter (X : gset bytes) (Xs : list (gset bytes)) x :
  x ∈ foldl (∩) X Xs <-> x ∈ X /\ Forall (fun Y => x ∈ Y) Xs.
Proof.
  revert X; induction Xs as [|Y Xs IH]; intros X; cbn [foldl]; [by rewrite Forall_nil; naive_solver|].
  rewrite IH, elem_of_intersection, Forall_cons. naive_solver.
Qed.

(** The set algebra.  Over the sets the keys hold, whatever order a Go map is iterated
    in, [SUnion] returns the members of at least one set, [SDiff] those of the first and of
    no other, [SInter] those of all of them, each member once, and nothing is written. *)
Lemma set_algebra {B : Backend} {BS : BackendSpec B} {O : MapOrder} {OS : MapOrderSpec O} (db : DB) (key : bytes)
    (keys : list bytes) (X : gset bytes) (Xs : list (gset bytes)) (m : gmap bytes bytes) (e : Env) :
  sets_rep db m (key :: keys) (X :: Xs) -> Forall sized Xs ->
  let all := key :: keys in
  runs (SUnion db all) m e (fun res m' e' => res.2 = None /\ m' = m /\ e' = e /\
    NoDup (default [] res.1) /\ forall x, x ∈ default [] res.1 <-> Exists (fun Y => x ∈ Y) (X :: Xs)) /\
  runs (SDiff db all) m e (fun res m' e' => res.2 = None /\ m' = m /\ e' = e /\
    NoDup (default [] res.1) /\ forall x, x ∈ default [] res.1 <-> x ∈ X /\ ~ Exists (fun Y => x ∈ Y) Xs) /\
  runs (SInter db all) m e (fun res m' e' => res.2 = None /\ m' = m /\ e' = e /\
    NoDup (default [] res.1) /\ forall x, x ∈ default [] res.1 <-> Forall (fun Y => x ∈ Y) (X :: Xs)).
Proof.
  intros Hs Hz all. assert (HU : forall x Ys, x ∈ ⋃ Ys <-> Exists (fun Y : gset bytes => x ∈ Y) Ys).
  { intros x Ys. rewrite elem_of_union_list, Exists_exists. naive_solver. }
  split; [|split].
  - apply (wp_sUnionGeneric db all (X :: Xs)); [done|]. destruct (map_order_lists (⋃ (X :: Xs))) as [Hn Hx].
    intros v Hv. cbn [fst snd]. rewrite Hv. repeat (split; [done|]). intros x. by rewrite Hx, HU.
  - apply (wp_sDiffGeneric db key keys X Xs); [done|]. destruct (map_order_lists (X ∖ ⋃ Xs)) as [Hn Hx].
    intros v Hv. cbn [fst snd]. rewrite Hv. repeat (split; [done|]). intros x. by rewrite Hx, elem_of_difference, HU.
  - apply (wp_sInterGeneric db key keys X Xs); [done..|]. destruct (map_order_lists (foldl (∩) X Xs)) as [Hn Hx].
    intros v Hv. cbn [fst snd]. rewrite Hv. repeat (split; [done|]). intros x. by rewrite Hx, elem_of_foldl_inter, Forall_cons.
Qed.

(** What the three stores share. *)
Lemma store_runs {B : Backend} {BS : BackendSpec B} {O : MapOrder} {OS : MapOrderSpec O} (db : DB) (dst : bytes) (opt : Z)
    (keys : list bytes) (gen : M (option (list bytes) * option error)) (D R : gset bytes) (m : gmap bytes bytes) (e : Env) :
  checkKeySize dst = None -> set_rep db m dst D -> sized R -> R <> ∅ -> Z.of_nat (size R) < 2 ^ 63 ->
  (if opt =? UnionType then sUnionGeneric db keys else if opt =? DiffType then sDiffGeneric db keys
   else if opt =? InterType then sInterGeneric db keys else mret (None, None)) = gen ->
  (forall (Q : option (list bytes) * option error -> _ -> _ -> _ -> Prop) b, (forall v, default [] v = map_order R -> Q (v, None) m b e) -> wp gen Q m b e) ->
  runs (sStoreGeneric db dst opt keys) m e (fun res m' e' =>
    res = (Z.of_nat (size R), None) /\ set_rep db m' dst R /\ keeps db SetType dst m m' /\ e' = e).
Proof.
  intros Hk HD Hz Hne Hb Hg Hw. pose proof (map_order_perm R) as HP.
  assert (Hl : Forall (fun x => checkKeySize x = None) (map_order R)).
  { apply Forall_forall. intros x Hx. rewrite HP in Hx. by apply Hz, elem_of_elements. }
  eapply exec_runs; [by eapply (wp_sStore db dst D (map_order R))|]. cbv beta. split.
  { rewrite (Permutation_length HP). done. }
  destruct (sstore_rep db dst D R (map_order R) m); [by apply short_key|done..|]. done.
Qed.

(** The storing set operations.  With a result that is not empty, [SUnionStore],
    [SDiffStore] and [SInterStore] return its size, replace what the destination held by
    exactly the result, and touch no other key, also when the destination is a source. *)
Lemma set_store {B : Backend} {BS : BackendSpec B} {O : MapOrder} {OS : MapOrderSpec O} (db : DB) (dst key : bytes)
    (keys : list bytes) (D X : gset bytes) (Xs : list (gset bytes)) (m : gmap bytes bytes) (e : Env) :
  checkKeySize dst = None -> set_rep db m dst D -> sets_rep db m (key :: keys) (X :: Xs) -> Forall sized (X :: Xs) ->
  Forall (fun Y => Z.of_nat (size Y) < 2 ^ 62) [⋃ (X :: Xs); X ∖ ⋃ Xs; foldl (∩) X Xs] ->
  let stored p (R : gset bytes) := R <> ∅ -> runs p m e (fun res m' e' =>
    res = (Z.of_nat (size R), None) /\ set_rep db m' dst R /\ keeps db SetType dst m m' /\ e' = e) in
  stored (SUnionStore db dst (key :: keys)) (⋃ (X :: Xs)) /\
  stored (SDiffStore db dst (key :: keys)) (X ∖ ⋃ Xs) /\
  stored (SInterStore db dst (key :: keys)) (foldl (∩) X Xs).
Proof.
  intros Hk HD Hs Hz Hb stored. rewrite !Forall_cons in Hb. destruct Hb as (B1 & B2 & B3 & _).
  pose proof Hz as [HX HXs]%Forall_cons. split; [|split]; intros Hne.
  - eapply store_runs; [done|done| |done|lia|done|].
    + intros x (Y & HY & Hx)%elem_of_union_list. rewrite Forall_forall in Hz. by eapply Hz.
    + intros Q b HQ. by apply (wp_sUnionGeneric db (key :: keys) (X :: Xs)).
  - eapply store_runs; [done|done| |done|lia|done|].
    + intros x [Hx _]%elem_of_difference. by apply HX.
    + intros Q b HQ. by apply (wp_sDiffGeneric db key keys X Xs).
  - eapply store_runs; [done|done| |done|lia|done|].
    + intros x [Hx _]%elem_of_foldl_inter. by apply HX.
    + intros Q b HQ. by apply (wp_sInterGeneric db key keys X Xs).
Qed.

(** A member named twice in [SAdd] is counted twice, so that the size entry is wrong,
    and storing an empty result leaves a key that exists without members. *)
Lemma set_anomalies :
  ((a ← SAdd db0 [107] [[97]; [97]]; n ← SCard db0 [107]; l ← SMembers db0 [107]; mret (a, n, l)) (mem_state ∅ 0)).1
  = Ret ((2, None), (2, None), ([[97]], None)) /\
  ((a ← SInterStore db0 [100] [[107]; [108]]; n ← SCard db0 [100]; x ← SKeyExists db0 [100]; mret (a, n, x)) (mem_state ∅ 0)).1
  = Ret ((0, None), (0, None), (1, None)).
Proof. split; vm_compute; reflexivity. Qed.

(** ** Examples *)

Definition ex_set : gmap bytes bytes := apply_ops (sadd_ops db0 ∅ ∅ [107] [[97]; [98]]) ∅.

Lemma ex_set_made : set_rep db0 ex_set [107] {[ [97]; [98] ]} /\ keeps db0 SetType [107] ∅ ex_set.
Proof.
  assert (E : (∅ : gset bytes) ∪ list_to_set [[97]; [98]] = {[ [97]; [98] ]}) by set_solver. rewrite <- E.
  apply sadd_rep; [done|apply (rep_empty (C := set_container) db0 [107])| |done].
  apply (bool_decide_unpack (NoDup [[97]; [98]])). by vm_compute.
Qed.

Lemma ex_set_rep : set_rep db0 ex_set [107] {[ [97]; [98] ]}.
Proof. apply ex_set_made. Qed.

Lemma ex_set_empty : set_rep db0 ex_set [108] ∅.
Proof.
  apply (rep_frame (C := set_container) db0 [108] SetType [107] ∅); [done|by right|apply ex_set_made|].
  apply (rep_empty (C := set_container) db0 [108]).
Qed.

Lemma ex_sets : sets_rep db0 ex_set [[107]; [107]] [{[ [97]; [98] ]}; {[ [97]; [98] ]}].
Proof. repeat (apply Forall2_cons_2; [split; [done|apply ex_set_rep]|]). by apply Forall2_nil_2. Qed.

Lemma ex_sized : sized {[ [97]; [98] ]}.
Proof. intros x [->%elem_of_singleton| ->%elem_of_singleton]%elem_of_union; done. Qed.

Lemma set_refines_witness :
  runs (B := MemBackend) (run_all db0 [107] [opSAdd [[98]; [97]]; opSRem [[98]]; opSMembers]) ∅ env0
    (fun rs m' _ => rs = [srInt (2, None); srInt (1, None); srList ([[97]], None)]).
Proof.
  eapply wp_mono.
  - apply (set_refines (B := MemBackend) db0 [107] [opSAdd [[98]; [97]]; opSRem [[98]]; opSMembers] ∅ ∅ env0 eq_refl);
      [|apply well_keyed_empty|apply (rep_empty (C := set_container) db0 [107])].
    split; [split; [done|split; [by repeat constructor|split; [|done]]]|].
    { apply (bool_decide_unpack (NoDup [[98]; [97]])). by vm_compute. }
    intros ? X1 [= _ <-]. split; [split; [done|split; [by repeat constructor|split; [|done]]]|].
    { apply (bool_decide_unpack (NoDup [[98]])). by vm_compute. }
    intros ? X2 [= _ <-]. by split.
  - intros rs m' b' e' (-> & Y & Hs & _). split; [done|]. apply (steps_fn set_container set_fn) in Hs; [|done].
    vm_compute in Hs. congruence.
Defined.

Lemma set_algebra_witness :
  runs (B := MemBackend) (SInter db0 [[107]; [107]]) ex_set env0 (fun res _ _ => [97] ∈ default [] res.1).
Proof.
  eapply wp_mono.
  - exact (proj2 (proj2 (set_algebra (B := MemBackend) db0 [107] [[107]] {[ [97]; [98] ]} [{[ [97]; [98] ]}] ex_set env0
      ex_sets (Forall_cons_2 _ _ _ ex_sized (Forall_nil_2 _))))).
  - intros res m' b' e' (-> & _ & _ & _ & _ & Hx). split; [done|]. apply Hx. repeat constructor; set_solver.
Defined.

Lemma set_store_witness :
  runs (B := MemBackend) (SUnionStore db0 [108] [[107]; [107]]) ex_set env0 (fun res m' _ => res = (2, None)).
Proof.
  eapply wp_mono.
  - refine (proj1 (set_store (B := MemBackend) db0 [108] [107] [[107]] ∅ {[ [97]; [98] ]} [{[ [97]; [98] ]}] ex_set env0
      eq_refl ex_set_empty ex_sets (Forall_cons_2 _ _ _ ex_sized (Forall_cons_2 _ _ _ ex_sized (Forall_nil_2 _))) _) _).
    + repeat constructor; vm_compute; reflexivity.
    + intros E. assert ([97] ∈ (∅ : gset bytes)); [|set_solver]. rewrite <- E. set_solver.
  - intros res m' b' e' (-> & -> & _). split; vm_compute; reflexivity.
Defined.
