(* ===== verification/TZSet.v ===== *)
(** * Sorted sets (src/ledis/t_zset.go)

    A sorted set is a size entry, one entry per member with its score, and one entry per
    member in the score index, whose keys sort by score and then by member.  Every
    operation of the type except [zFlush] (see Flush.v). *)

From S2P Require Import Prelude Driver Store Keys Util Core Frame Refine Coll.

Definition MinScore : Z := - 2 ^ 63 + 1.
Definition MaxScore : Z := 2 ^ 63 - 1.
Definition InvalidScore : Z := - 2 ^ 63.

Definition AggregateSum : Z := 0.
Definition AggregateMin : Z := 1.
Definition AggregateMax : Z := 2.

Record ScorePair := mkScorePair { Score : Z; Member : bytes }.

Definition checkZSetKMSize (key member : bytes) : option error :=
  if (len key >? MaxKeySize) || (len key =? 0) then Some errKeySize
  else if (len member >? MaxZSetMemberSize) || (len member =? 0) then Some errZSetMemberSize
  else None.

Definition getAggregateFunc (aggregate : Z) : option (Z -> Z -> Z) :=
  if aggregate =? AggregateSum then Some (fun a b => int64 (a + b))
  else if aggregate =? AggregateMax then Some (fun a b => if a >? b then a else b)
  else if aggregate =? AggregateMin then Some (fun a b => if a >? b then b else a)
  else None.

Section Ops.
Context {B : Backend} {O : MapOrder}.
Implicit Types (db : DB) (t : BatchId) (key member : bytes).

Definition zSetItem db t key (score : Z) member : M (Z * option error) :=
  if (score <=? MinScore) || (score >=? MaxScore) then mret (0, Some errScoreOverflow)
  else
    let ek := zEncodeSetKey db key member in
    let finish (found : Z) : M (Z * option error) :=
      _ ← batch_Put t ek (PutInt64 score);
      _ ← batch_Put t (zEncodeScoreKey db key member score) [];
      mret (found, None) in
    '(v, err) ← bucket_Get ek;
    match err with
    | Some err => mret (0, Some err)
    | None =>
        match v with
        | Some _ =>
            let '(s, err) := Int64 v None in
            match err with
            | Some err => mret (0, Some err)
            | None => _ ← batch_Delete t (zEncodeScoreKey db key member s); finish 1
            end
        | None => finish 0
        end
    end.

Definition zDelItem db t key member (skipDelScore : bool) : M (Z * option error) :=
  let ek := zEncodeSetKey db key member in
  '(v, err) ← bucket_Get ek;
  match err with
  | Some err => mret (0, Some err)
  | None =>
      match v with
      | None => mret (0, None)
      | Some _ =>
          if negb skipDelScore then
            let '(s, err) := Int64 v None in
            match err with
            | Some err => mret (0, Some err)
            | None =>
                _ ← batch_Delete t (zEncodeScoreKey db key member s);
                _ ← batch_Delete t ek;
                mret (1, None)
            end
          else _ ← batch_Delete t ek; mret (1, None)
      end
  end.

Definition zIncrSize db t key (delta : Z) : M (Z * option error) :=
  let sk := zEncodeSizeKey db key in
  '(v, e) ← bucket_Get sk;
  let '(size, err) := Int64 v e in
  match err with
  | Some err => mret (0, Some err)
  | None =>
      let size := int64 (size + delta) in
      if size <=? 0 then
        _ ← batch_Delete t sk;
        _ ← rmExpire db t ZSetType key;
        mret (0, None)
      else
        _ ← batch_Put t sk (PutInt64 size);
        mret (size, None)
  end.

Definition zIterator db key (min max offset count : Z) (reverse : bool) : M RangeLimitIterator :=
  let minKey := zEncodeStartScoreKey db key min in
  let maxKey := zEncodeStopScoreKey db key max in
  if negb reverse then bucket_RangeLimitIterator (Some minKey) (Some maxKey) RangeClose offset count
  else bucket_RevRangeLimitIterator (Some minKey) (Some maxKey) RangeClose offset count.

(** The loop of [zRemRange]: the number of members removed, or the error that ends it. *)
Fixpoint zrem_loop db t key (items : list (bytes * bytes)) (num : Z) : M (Z + error) :=
  match items with
  | [] => mret (inl num)
  | (sk, _) :: items' =>
      match zDecodeScoreKey db sk with
      | inr _ => zrem_loop db t key items' num
      | inl (_, m, _) =>
          '(n, err) ← zDelItem db t key m true;
          match err with
          | Some err => mret (inr err)
          | None =>
              let num := if n =? 1 then int64 (num + 1) else num in
              _ ← batch_Delete t sk;
              zrem_loop db t key items' num
          end
      end
  end.

Definition zRemRange db t key (min max offset count : Z) : M (Z * option error) :=
  if len key >? MaxKeySize then mret (0, Some errKeySize)
  else
    it ← zIterator db key min max offset count false;
    res ← zrem_loop db t key (rli_items it) 0;
    match res with
    | inr err => mret (0, Some err)
    | inl num =>
        '(_, err) ← zIncrSize db t key (int64 (- num));
        match err with
        | Some err => mret (0, Some err)
        | None => mret (num, None)
        end
    end.

Definition zDelete db t key : M Z :=
  '(delMembCnt, _) ← zRemRange db t key MinScore MaxScore 0 (-1);
  mret delMembCnt.

Definition ZCard db key : M (Z * option error) :=
  match checkKeySize key with
  | Some err => mret (0, Some err)
  | None => '(v, e) ← bucket_Get (zEncodeSizeKey db key); mret (Int64 v e)
  end.

Definition zExpireAt db key (when : Z) : M (Z * option error) :=
  with_lock zsetBatch (
    '(zcnt, err) ← ZCard db key;
    if is_err err || (zcnt =? 0) then mret (0, err)
    else
      _ ← expireAt db zsetBatch ZSetType key when;
      err ← batch_Commit zsetBatch;
      match err with
      | Some err => mret (0, Some err)
      | None => mret (1, None)
      end).

(** The loop of [ZAdd]. *)
Fixpoint zadd_loop db key (args : list ScorePair) (num : Z) : M (Z + error) :=
  match args with
  | [] => mret (inl num)
  | a :: args' =>
      match checkZSetKMSize key (Member a) with
      | Some err => mret (inr err)
      | None =>
          '(n, err) ← zSetItem db zsetBatch key (Score a) (Member a);
          match err with
          | Some err => mret (inr err)
          | None => zadd_loop db key args' (if n =? 0 then int64 (num + 1) else num)
          end
      end
  end.

Definition ZAdd db key (args : list ScorePair) : M (Z * option error) :=
  match args with
  | [] => mret (0, None)
  | _ =>
      with_lock zsetBatch (
        res ← zadd_loop db key args 0;
        match res with
        | inr err => mret (0, Some err)
        | inl num =>
            '(_, err) ← zIncrSize db zsetBatch key num;
            match err with
            | Some err => mret (0, Some err)
            | None => err ← batch_Commit zsetBatch; mret (num, err)
            end
        end)
  end.

Definition ZScore db key member : M (Z * option error) :=
  match checkZSetKMSize key member with
  | Some err => mret (InvalidScore, Some err)
  | None =>
      '(v, err) ← bucket_Get (zEncodeSetKey db key member);
      match err with
      | Some err => mret (InvalidScore, Some err)
      | None =>
          match v with
          | None => mret (InvalidScore, Some ErrScoreMiss)
          | Some _ =>
              let '(score, err) := Int64 v None in
              match err with
              | Some err => mret (InvalidScore, Some err)
              | None => mret (score, None)
              end
          end
      end
  end.

(** The loop of [ZRem]. *)
Fixpoint zremove_loop db key (members : list bytes) (num : Z) : M (Z + error) :=
  match members with
  | [] => mret (inl num)
  | x :: members' =>
      match checkZSetKMSize key x with
      | Some err => mret (inr err)
      | None =>
          '(n, err) ← zDelItem db zsetBatch key x false;
          match err with
          | Some err => mret (inr err)
          | None => zremove_loop db key members' (if n =? 1 then int64 (num + 1) else num)
          end
      end
  end.

Definition ZRem db key (members : list bytes) : M (Z * option error) :=
  match members with
  | [] => mret (0, None)
  | _ =>
      with_lock zsetBatch (
        res ← zremove_loop db key members 0;
        match res with
        | inr err => mret (0, Some err)
        | inl num =>
            '(_, err) ← zIncrSize db zsetBatch key (int64 (- num));
            match err with
            | Some err => mret (0, Some err)
            | None => err ← batch_Commit zsetBatch; mret (num, err)
            end
        end)
  end.

(** The new score entries are queued before the old one is deleted. *)
Definition ZIncrBy db key (delta : Z) member : M (Z * option error) :=
  match checkZSetKMSize key member with
  | Some err => mret (InvalidScore, Some err)
  | None =>
      with_lock zsetBatch (
        let ek := zEncodeSetKey db key member in
        '(v, err) ← bucket_Get ek;
        match err with
        | Some err => mret (InvalidScore, Some err)
        | None =>
            '(oldScore, err) ← (match v with
                                | None => _ ← zIncrSize db zsetBatch key 1; mret (0, None)
                                | Some _ => mret (Int64 v None)
                                end);
            match err with
            | Some err => mret (InvalidScore, Some err)
            | None =>
                let newScore := int64 (oldScore + delta) in
                if (newScore >=? MaxScore) || (newScore <=? MinScore) then mret (InvalidScore, Some errScoreOverflow)
                else
                  _ ← batch_Put zsetBatch (zEncodeScoreKey db key member newScore) [];
                  _ ← batch_Put zsetBatch ek (PutInt64 newScore);
                  _ ← (if not_nil v then batch_Delete zsetBatch (zEncodeScoreKey db key member oldScore) else mret tt);
                  err ← batch_Commit zsetBatch;
                  mret (newScore, err)
            end
        end)
  end.

Definition ZCount db key (min max : Z) : M (Z * option error) :=
  match checkKeySize key with
  | Some err => mret (0, Some err)
  | None =>
      it ← bucket_RangeLimitIterator (Some (zEncodeStartScoreKey db key min)) (Some (zEncodeStopScoreKey db key max)) RangeROpen 0 (-1);
      mret (len (rli_items it), None)
  end.

Definition zrank db key member (reverse : bool) : M (Z * option error) :=
  match checkZSetKMSize key member with
  | Some err => mret (0, Some err)
  | None =>
      it ← bucket_NewIterator;
      let '(it, v) := Find it (zEncodeSetKey db key member) in
      match v with
      | None => mret (-1, None)
      | Some _ =>
          let '(s, err) := Int64 v None in
          match err with
          | Some err => mret (0, Some err)
          | None =>
              let sk := zEncodeScoreKey db key member s in
              let rit :=
                if negb reverse
                then NewRangeIterator it (mkRange (Some (zEncodeStartScoreKey db key MinScore)) (Some sk) RangeClose)
                else NewRevRangeIterator it (mkRange (Some sk) (Some (zEncodeStopScoreKey db key MaxScore)) RangeClose) in
              let items := rli_items rit in
              let n := len items in
              let lastKey := default [] (last items.*1) in
              match zDecodeScoreKey db lastKey with
              | inl (_, m, _) => if bool_decide (m = member) then mret (n - 1, None) else mret (-1, None)
              | inr _ => mret (-1, None)
              end
          end
      end
  end.

Definition ZRank db key member : M (Z * option error) := zrank db key member false.
Definition ZRevRank db key member : M (Z * option error) := zrank db key member true.

(** The loop of [zRange]: keys that do not decode are skipped. *)
Fixpoint zrange_pairs db (items : list (bytes * bytes)) : list ScorePair :=
  match items with
  | [] => []
  | (k, _) :: items' =>
      match zDecodeScoreKey db k with
      | inr _ => zrange_pairs db items'
      | inl (_, m, s) => mkScorePair s m :: zrange_pairs db items'
      end
  end.

(** [nv] is only the capacity of the result. *)
Definition zRange db key (min max offset count : Z) (reverse : bool) : M (list ScorePair * option error) :=
  if len key >? MaxKeySize then mret ([], Some errKeySize)
  else if offset <? 0 then mret ([], None)
  else
    it ← (if negb reverse || ((offset =? 0) && (count <? 0))
          then zIterator db key min max offset count false
          else zIterator db key min max offset count true);
    let v := zrange_pairs db (rli_items it) in
    if reverse && ((offset =? 0) && (count <? 0)) then mret (List.rev v, None) else mret (v, None).

(** Offset, count and error. *)
Definition zParseLimit db key (start stop : Z) : M (Z * Z * option error) :=
  let limit (start stop : Z) : M (Z * Z * option error) :=
    if start >? stop then mret (-1, 0, None) else mret (start, int64 (int64 (stop - start) + 1), None) in
  if (start <? 0) || (stop <? 0) then
    '(size, err) ← ZCard db key;
    match err with
    | Some err => mret (0, 0, Some err)
    | None =>
        let llen := size in
        let start := if start <? 0 then int64 (llen + start) else start in
        let stop := if stop <? 0 then int64 (llen + stop) else stop in
        let start := if start <? 0 then 0 else start in
        if start >=? llen then mret (-1, 0, None) else limit start stop
    end
  else limit start stop.

Definition ZClear db key : M (Z * option error) :=
  with_lock zsetBatch (
    '(rmCnt, err) ← zRemRange db zsetBatch key MinScore MaxScore 0 (-1);
    match err with
    | Some err => mret (rmCnt, Some err)
    | None => err ← batch_Commit zsetBatch; mret (rmCnt, err)
    end).

Definition ZMclear db (keys : list bytes) : M (Z * option error) :=
  with_lock zsetBatch (
    for_ret keys (fun key =>
      '(_, err) ← zRemRange db zsetBatch key MinScore MaxScore 0 (-1);
      match err with
      | Some err => mret (Some (0, Some err))
      | None => mret None
      end)
    (err ← batch_Commit zsetBatch; mret (len keys, err))).

Definition ZRangeGeneric db key (start stop : Z) (reverse : bool) : M (list ScorePair * option error) :=
  '(offset, count, err) ← zParseLimit db key start stop;
  match err with
  | Some err => mret ([], Some err)
  | None => zRange db key MinScore MaxScore offset count reverse
  end.

Definition ZRange db key (start stop : Z) := ZRangeGeneric db key start stop false.
Definition ZRevRange db key (start stop : Z) := ZRangeGeneric db key start stop true.

Definition ZRangeByScoreGeneric db key (min max offset count : Z) (reverse : bool) : M (list ScorePair * option error) :=
  zRange db key min max offset count reverse.

Definition ZRangeByScore db key (min max offset count : Z) := ZRangeByScoreGeneric db key min max offset count false.
Definition ZRevRangeByScore db key (min max offset count : Z) := ZRangeByScoreGeneric db key min max offset count true.

Definition ZRemRangeByRank db key (start stop : Z) : M (Z * option error) :=
  '(offset, count, err) ← zParseLimit db key start stop;
  match err with
  | Some err => mret (0, Some err)
  | None =>
      with_lock zsetBatch (
        '(rmCnt, err) ← zRemRange db zsetBatch key MinScore MaxScore offset count;
        match err with
        | Some err => mret (rmCnt, Some err)
        | None => err ← batch_Commit zsetBatch; mret (rmCnt, err)
        end)
  end.

Definition ZRemRangeByScore db key (min max : Z) : M (Z * option error) :=
  with_lock zsetBatch (
    '(rmCnt, err) ← zRemRange db zsetBatch key min max 0 (-1);
    match err with
    | Some err => mret (rmCnt, Some err)
    | None => err ← batch_Commit zsetBatch; mret (rmCnt, err)
    end).

Definition ZExpire db key (duration : Z) : M (Z * option error) :=
  if duration <=? 0 then mret (0, Some errExpireValue)
  else n ← time_now; zExpireAt db key (int64 (n + duration)).

Definition ZExpireAt db key (when : Z) : M (Z * option error) :=
  n ← time_now;
  if when <=? n then mret (0, Some errExpireValue) else zExpireAt db key when.

Definition ZTTL db key : M (Z * option error) :=
  match checkKeySize key with
  | Some err => mret (-1, Some err)
  | None => ttl db ZSetType key
  end.

Definition ZPersist db key : M (Z * option error) :=
  match checkKeySize key with
  | Some err => mret (0, Some err)
  | None =>
      with_lock zsetBatch (
        '(n, err) ← rmExpire db zsetBatch ZSetType key;
        match err with
        | Some err => mret (0, Some err)
        | None => err ← batch_Commit zsetBatch; mret (n, err)
        end)
  end.

(** [weights[i]] for the i-th source key, 1 when no weights are given. *)
Definition zweights (srcKeys : list bytes) (weights : option (list Z)) : list Z + error :=
  match weights with
  | Some ws => if negb (len srcKeys =? len ws) then inr errInvalidWeightNum else inl ws
  | None => inl (map (fun _ => 1) srcKeys)
  end.

(** One source key of [ZUnionStore], and of [ZInterStore] after the first. *)
Definition zunion_pairs (f : Z -> Z -> Z) (w : Z) (pairs : list ScorePair) (destMap : gmap bytes Z) : gmap bytes Z :=
  fold_left (fun d p =>
    match d !! Member p with
    | None => <[Member p := int64 (Score p * w)]> d
    | Some score => <[Member p := f score (int64 (Score p * w))]> d
    end) pairs destMap.

Definition zinter_pairs (f : Z -> Z -> Z) (w : Z) (pairs : list ScorePair) (destMap : gmap bytes Z) : gmap bytes Z :=
  fold_left (fun tmp p =>
    match destMap !! Member p with
    | None => tmp
    | Some score => <[Member p := f score (int64 (Score p * w))]> tmp
    end) pairs ∅.

(** The loops over the source keys. *)
Fixpoint zsource_loop db (step : Z -> list ScorePair -> gmap bytes Z -> gmap bytes Z)
    (srcs : list (bytes * Z)) (destMap : gmap bytes Z) : M (gmap bytes Z + error) :=
  match srcs with
  | [] => mret (inl destMap)
  | (key, w) :: srcs' =>
      '(scorePairs, err) ← ZRange db key 0 (-1);
      match err with
      | Some err => mret (inr err)
      | None => zsource_loop db step srcs' (step w scorePairs destMap)
      end
  end.

(** The second half of [ZUnionStore] and [ZInterStore]. *)
Definition zstore db (destKey : bytes) (destMap : gmap bytes Z) : M (Z * option error) :=
  with_lock zsetBatch (
    _ ← zDelete db zsetBatch destKey;
    for_ret (map (fun x => (x, default 0 (destMap !! x))) (map_order (dom destMap))) (fun '(member, score) =>
      match checkZSetKMSize destKey member with
      | Some err => mret (Some (0, Some err))
      | None =>
          '(_, err) ← zSetItem db zsetBatch destKey score member;
          match err with
          | Some err => mret (Some (0, Some err))
          | None => mret None
          end
      end)
    (let n := Z.of_nat (size destMap) in
     _ ← batch_Put zsetBatch (zEncodeSizeKey db destKey) (PutInt64 n);
     err ← batch_Commit zsetBatch;
     match err with
     | Some err => mret (0, Some err)
     | None => mret (n, None)
     end)).

Definition ZUnionStore db (destKey : bytes) (srcKeys : list bytes) (weights : option (list Z)) (aggregate : Z) : M (Z * option error) :=
  match getAggregateFunc aggregate with
  | None => mret (0, Some errInvalidAggregate)
  | Some f =>
      if len srcKeys <? 1 then mret (0, Some errInvalidSrcKeyNum)
      else
        match zweights srcKeys weights with
        | inr err => mret (0, Some err)
        | inl ws =>
            res ← zsource_loop db (zunion_pairs f) (zip srcKeys ws) ∅;
            match res with
            | inr err => mret (0, Some err)
            | inl destMap => zstore db destKey destMap
            end
        end
  end.

(** The first source key fills the map, later pairs of a member replace earlier ones. *)
Definition zinter_first (w : Z) (pairs : list ScorePair) : gmap bytes Z :=
  fold_left (fun d p => <[Member p := int64 (Score p * w)]> d) pairs ∅.

Definition ZInterStore db (destKey : bytes) (srcKeys : list bytes) (weights : option (list Z)) (aggregate : Z) : M (Z * option error) :=
  match getAggregateFunc aggregate with
  | None => mret (0, Some errInvalidAggregate)
  | Some f =>
      if len srcKeys <? 1 then mret (0, Some errInvalidSrcKeyNum)
      else
        match zweights srcKeys weights with
        | inr err => mret (0, Some err)
        | inl ws =>
            match zip srcKeys ws with
            | [] => panic
            | (key, w) :: srcs =>
                '(scorePairs, err) ← ZRange db key 0 (-1);
                match err with
                | Some err => mret (0, Some err)
                | None =>
                    res ← zsource_loop db (zinter_pairs f) srcs (zinter_first w scorePairs);
                    match res with
                    | inr err => mret (0, Some err)
                    | inl destMap => zstore db destKey destMap
                    end
                end
            end
        end
  end.

(** The bounds of the lexicographic operations: [None] is nil. *)
Definition zlex_min db key (min : option bytes) : bytes :=
  match min with None => zEncodeStartSetKey db key | Some min => zEncodeSetKey db key min end.
Definition zlex_max db key (max : option bytes) : bytes :=
  match max with None => zEncodeStopSetKey db key | Some max => zEncodeSetKey db key max end.

(** The loop of [ZRangeByLex]; decoding a key may index past its end. *)
Fixpoint zlex_members db (items : list (bytes * bytes)) : outcome (list bytes) :=
  match items with
  | [] => Ret []
  | (k, _) :: items' =>
      match zDecodeSetKey db k with
      | Panic => Panic
      | Ret (inr _) => zlex_members db items'
      | Ret (inl (_, m)) =>
          match zlex_members db items' with
          | Ret ms => Ret (m :: ms)
          | Panic => Panic
          end
      end
  end.

Definition ZRangeByLex db key (min max : option bytes) (rangeType offset count : Z) : M (list bytes * option error) :=
  it ← bucket_RangeLimitIterator (Some (zlex_min db key min)) (Some (zlex_max db key max)) rangeType offset count;
  ay ← lift (zlex_members db (rli_items it));
  mret (ay, None).

(** Only the member entries are deleted: neither the size nor the score index. *)
Definition ZRemRangeByLex db key (min max : option bytes) (rangeType : Z) : M (Z * option error) :=
  with_lock zsetBatch (
    it ← bucket_RangeIterator (Some (zlex_min db key min)) (Some (zlex_max db key max)) rangeType;
    _ ← for_each (rli_items it) (fun '(k, _) => batch_Delete zsetBatch k);
    err ← batch_Commit zsetBatch;
    match err with
    | Some err => mret (0, Some err)
    | None => mret (len (rli_items it), None)
    end).

Definition ZLexCount db key (min max : option bytes) (rangeType : Z) : M (Z * option error) :=
  it ← bucket_RangeIterator (Some (zlex_min db key min)) (Some (zlex_max db key max)) rangeType;
  mret (len (rli_items it), None).

Definition ZKeyExists db key : M (Z * option error) :=
  match checkKeySize key with
  | Some err => mret (0, Some err)
  | None =>
      '(v, err) ← bucket_Get (zEncodeSizeKey db key);
      if not_nil v && negb (is_err err) then mret (1, None) else mret (0, err)
  end.

End Ops.

(** * The sorted set a key holds *)

(** Pairs in the order of the score index. *)
Definition pair_cmp (p q : ScorePair) : comparison :=
  match Score p ?= Score q with Eq => bcmp (Member p) (Member q) | c => c end.
Definition pair_le (p q : ScorePair) : Prop := pair_cmp p q <> Gt.
Definition pair_lt (p q : ScorePair) : Prop := pair_cmp p q = Lt.

#[global] Instance pair_le_dec p q : Decision (pair_le p q).
Proof. unfold pair_le. apply _. Defined.

#[global] Instance ScorePair_eq_dec : EqDecision ScorePair.
Proof. solve_decision. Defined.

Definition zpairs (z : gmap bytes Z) : list ScorePair := map (fun p => mkScorePair p.2 p.1) (map_to_list z).

(** The members with their scores, in order. *)
Definition zsorted (z : gmap bytes Z) : list ScorePair := merge_sort pair_le (zpairs z).

Definition valid_score (s : Z) : Prop := MinScore < s < MaxScore.

(** The member entries and the score index agree with [z]. *)
Record zparts (db : DB) (m : gmap bytes bytes) (key : bytes) (z : gmap bytes Z) : Prop := {
  zp_members : forall x, m !! zEncodeSetKey db key x = PutInt64 <$> z !! x;
  zp_index : forall x s, in_i64 s ->
    m !! zEncodeScoreKey db key x s = if decide (z !! x = Some s) then Some [] else None;
  zp_scores : forall x s, z !! x = Some s -> valid_score s
}.

Record zset_rep (db : DB) (m : gmap bytes bytes) (key : bytes) (z : gmap bytes Z) : Prop := {
  zr_parts : zparts db m key z;
  zr_size : m !! zEncodeSizeKey db key = size_entry (PutInt64 <$> z)
}.

Lemma valid_i64 s : valid_score s -> in_i64 s.
Proof. unfold valid_score, MinScore, MaxScore, in_i64. lia. Qed.
#[local] Hint Resolve valid_i64 : ledis.

Lemma pair_cmp_antisym p q : pair_cmp q p = CompOpp (pair_cmp p q).
Proof.
  unfold pair_cmp. rewrite (Z.compare_antisym (Score p)). destruct (Score p ?= Score q); simpl; try done. apply bcmp_antisym.
Qed.

Lemma pair_cmp_eq p q : pair_cmp p q = Eq <-> p = q.
Proof.
  destruct p as [s x], q as [s' x']. unfold pair_cmp. simpl. destruct (Z.compare_spec s s') as [->|H|H].
  - rewrite bcmp_eq. naive_solver.
  - split; [done|]. intros [= ? ?]. lia.
  - split; [done|]. intros [= ? ?]. lia.
Qed.

Lemma pair_lt_trans p q r : pair_lt p q -> pair_lt q r -> pair_lt p r.
Proof.
  unfold pair_lt, pair_cmp. destruct (Z.compare_spec (Score p) (Score q)) as [E1|H1|H1]; [|intros _|done].
  - rewrite E1. destruct (Score q ?= Score r); try done. apply bcmp_lt_trans.
  - destruct (Z.compare_spec (Score q) (Score r)) as [E2|H2|H2]; [intros _|intros _|done];
      rewrite (proj2 (Z.compare_lt_iff _ _)) by lia; done.
Qed.

Lemma pair_le_alt p q : pair_le p q <-> pair_lt p q \/ p = q.
Proof. unfold pair_le, pair_lt. rewrite <- pair_cmp_eq. destruct (pair_cmp p q); naive_solver. Qed.

#[global] Instance pair_le_trans : Transitive pair_le.
Proof. intros p q r. rewrite !pair_le_alt. intros [H1| ->] [H2| ->]; eauto using pair_lt_trans. Qed.

#[global] Instance pair_le_total : Total pair_le.
Proof. intros p q. unfold pair_le. rewrite (pair_cmp_antisym p q). destruct (pair_cmp p q); simpl; auto. Qed.

Lemma zsorted_perm z : zsorted z ≡ₚ zpairs z.
Proof. apply merge_sort_Permutation. Qed.

Lemma elem_of_zsorted z p : p ∈ zsorted z <-> z !! Member p = Some (Score p).
Proof.
  rewrite (zsorted_perm z). unfold zpairs. rewrite list_elem_of_fmap. destruct p as [s x]. simpl. split.
  - intros ([x' s'] & [= -> ->] & H). by apply elem_of_map_to_list in H.
  - intros H. exists (x, s). split; [done|]. by apply elem_of_map_to_list.
Qed.

Lemma zsorted_length z : length (zsorted z) = size z.
Proof. rewrite (Permutation_length (zsorted_perm z)). unfold zpairs. rewrite length_map. apply length_map_to_list. Qed.

Lemma zsorted_NoDup z : NoDup (map Member (zsorted z)).
Proof.
  rewrite (Permutation_map Member (zsorted_perm z)). unfold zpairs. rewrite map_map. apply NoDup_fst_map_to_list.
Qed.

Lemma zsorted_sorted z : StronglySorted pair_lt (zsorted z).
Proof.
  pose proof (StronglySorted_merge_sort pair_le (zpairs z)) as HS. fold (zsorted z) in HS. pose proof (zsorted_NoDup z) as HN.
  induction (zsorted z) as [|p l IH]; [constructor|]. apply StronglySorted_inv in HS as [HS HF].
  cbn [map] in HN. apply NoDup_cons in HN as [Hp HN]. constructor; [by apply IH|]. apply Forall_forall. intros q Hq.
  rewrite Forall_forall in HF. destruct (proj1 (pair_le_alt p q) (HF q Hq)) as [|<-]; [done|].
  exfalso. apply Hp. by apply list_elem_of_fmap_2.
Qed.

(** ** The score index as a range *)

(** The index entry of a pair. *)
Definition zentry (db : DB) (key : bytes) (p : ScorePair) : bytes * bytes := (zEncodeScoreKey db key (Member p) (Score p), []).

(** A key under the prefix of the index of [key] is the key of a pair. *)
Lemma score_pre_inv db key sk y :
  short key -> representable sk -> encode db sk = score_pre db key ++ y -> exists x s, sk = ZScoreOf key x s /\ in_i64 s.
Proof.
  intros Hk Hsk. rewrite encode_split. unfold score_pre. rewrite <- app_assoc. intros H. apply app_inv_head in H.
  rewrite <- app_comm_cons in H. apply cons_inv in H as [HT H].
  destruct sk; try (vm_compute in HT; discriminate). destruct Hsk as [Hk' Hs]. cbn [tail_of] in H.
  apply name_prefix_inj in H as [-> _]; [|done..]. eauto.
Qed.

Lemma zentry_lt db key p q : in_i64 (Score p) -> in_i64 (Score q) -> pair_lt p q -> blt (zentry db key p).1 (zentry db key q).1.
Proof. intros Hp Hq. unfold blt, zentry. simpl. by rewrite zEncodeScoreKey_cmp. Qed.

Lemma zsorted_valid db m key z p : zparts db m key z -> p ∈ zsorted z -> in_i64 (Score p).
Proof. intros Hz Hp%elem_of_zsorted. by eapply valid_i64, zp_scores. Qed.

(** A key between two keys with a common prefix has that prefix. *)
Lemma in_range_prefix p x y rt k (v : bytes) :
  in_range (mkRange (Some (p ++ x)) (Some (p ++ y)) rt) (k, v) = true -> exists w, k = p ++ w.
Proof.
  unfold in_range, above_min, below_max. cbn [Min Max RType fst]. intros [H1 H2]%andb_true_iff.
  apply (between_prefix _ x y); apply ble_alt.
  - destruct (_ >? 0); apply bool_decide_eq_true in H1; [by left|by apply ble_alt].
  - clear H1. destruct (_ >? 0); apply bool_decide_eq_true in H2; [by left|by apply ble_alt].
Qed.

(** Any range between two keys under the prefix of the index. *)
Lemma zscore_range db m key z x y rt :
  short key -> well_keyed db m -> zparts db m key z ->
  let r := mkRange (Some (score_pre db key ++ x)) (Some (score_pre db key ++ y)) rt in
  range_entries m r = map (zentry db key) (filter (fun p => in_range r (zentry db key p) = true) (zsorted z)).
Proof.
  intros Hk Hw Hz r. apply range_entries_eq.
  - unfold sorted_keys. rewrite <- list_fmap_compose. pose proof (zsorted_sorted z) as HS.
    assert (HV : Forall (fun p => in_i64 (Score p)) (zsorted z)).
    { apply Forall_forall. intros p Hp. by eapply zsorted_valid. }
    induction (zsorted z) as [|p l IH]; [constructor|]. apply StronglySorted_inv in HS as [HS HF].
    apply Forall_cons in HV as [HV1 HV]. rewrite filter_cons. case_decide; [|by apply IH]. rewrite fmap_cons. constructor; [by apply IH|].
    apply Forall_forall. intros k (q & -> & [_ Hq]%list_elem_of_filter)%list_elem_of_fmap.
    rewrite Forall_forall in HF, HV. apply zentry_lt; auto.
  - intros k v. rewrite list_elem_of_fmap. split.
    + intros (p & [= -> ->] & [Hr Hp]%list_elem_of_filter). split; [|done]. pose proof (zsorted_valid _ _ _ _ _ Hz Hp).
      apply elem_of_zsorted in Hp. rewrite (zp_index _ _ _ _ Hz) by done. by rewrite decide_True.
    + intros [Hv Hr]. assert (Hk' : exists w, k = score_pre db key ++ w).
      { by eapply in_range_prefix. }
      destruct Hk' as [w ->]. destruct (Hw _ _ Hv) as (sk & Hsk & He).
      { unfold score_pre. rewrite <- app_assoc. by eexists. }
      destruct (score_pre_inv db key sk w) as (mem & s & -> & Hs); [done..|]. simpl in He. rewrite He in *.
      rewrite (zp_index _ _ _ _ Hz) in Hv by done. case_decide as Hzs; [|done]. injection Hv as <-.
      exists (mkScorePair s mem). split; [done|]. apply list_elem_of_filter. split; [done|]. by apply elem_of_zsorted.
Qed.

(** The pairs with a score between [min] and [max]. *)
Definition zby_score (z : gmap bytes Z) (min max : Z) : list ScorePair :=
  filter (fun p => min <= Score p <= max) (zsorted z).

Lemma filter_iff_in {A} (P Q : A -> Prop) `{!forall x, Decision (P x), !forall x, Decision (Q x)} (l : list A) :
  (forall x, x ∈ l -> P x <-> Q x) -> filter P l = filter Q l.
Proof.
  induction l as [|x l IH]; intros Hl; [done|]. rewrite !filter_cons, IH by (intros y Hy; apply Hl; by constructor).
  apply decide_ext; [apply Hl; constructor|done..].
Qed.

Lemma zscore_above db key s min x : in_i64 s -> in_i64 min ->
  ble (zEncodeStartScoreKey db key min) (zEncodeScoreKey db key x s) <-> min <= s.
Proof.
  intros Hs Hm. unfold ble, zEncodeStartScoreKey. rewrite zEncodeScoreKey_cmp by done.
  destruct (Z.compare_spec min s); [|split; [lia|done]|split; [done|lia]]. split; [lia|]. intros _. by destruct x.
Qed.

Lemma zscore_below db key s max x : in_i64 s -> in_i64 max ->
  bcmp (zEncodeScoreKey db key x s) (zEncodeStopScoreKey db key max) = if decide (s <= max) then Lt else Gt.
Proof.
  intros Hs Hm. rewrite zEncodeScoreKey_split, zEncodeStopScoreKey_split, bcmp_app, score_tail_cmp by done.
  destruct (Z.compare_spec s max); case_decide; try lia; done.
Qed.

Lemma zscore_range_by db m key z min max rt :
  short key -> well_keyed db m -> zparts db m key z -> in_i64 min -> in_i64 max -> rt = RangeClose \/ rt = RangeROpen ->
  range_entries m (mkRange (Some (zEncodeStartScoreKey db key min)) (Some (zEncodeStopScoreKey db key max)) rt) =
  map (zentry db key) (zby_score z min max).
Proof.
  intros Hk Hw Hz Hmin Hmax Hrt. unfold zEncodeStartScoreKey. rewrite zEncodeScoreKey_split, zEncodeStopScoreKey_split.
  rewrite (zscore_range db m key z) by done. f_equal. apply filter_iff_in. intros p Hp.
  pose proof (zsorted_valid _ _ _ _ _ Hz Hp) as Hs. rewrite <- zEncodeScoreKey_split, <- zEncodeStopScoreKey_split.
  pose proof (zscore_above db key (Score p) min (Member p) Hs Hmin) as HA. unfold zEncodeStartScoreKey in HA.
  pose proof (zscore_below db key (Score p) max (Member p) Hs Hmax) as HB.
  unfold in_range, above_min, below_max, zentry. cbn [Min Max RType fst]. rewrite andb_true_iff.
  assert (HL : (Z.land rt RangeLOpen >? 0) = false) by (destruct Hrt as [->| ->]; done). rewrite HL, bool_decide_eq_true, HA.
  apply and_iff_compat_l.
  destruct (Z.land rt RangeROpen >? 0); rewrite ?blt_bool, ?ble_bool, HB; case_decide; naive_solver lia.
Qed.

(** ** Single members *)

(** What [zSetItem] queues for a member with the old score [o]. *)
Definition zput_ops (db : DB) (key : bytes) (o : option Z) (x : bytes) (s : Z) : list BatchOp :=
  (match o with Some s0 => [OpDelete (zEncodeScoreKey db key x s0)] | None => [] end) ++
  [OpPut (zEncodeSetKey db key x) (PutInt64 s); OpPut (zEncodeScoreKey db key x s) []].

(** What [zDelItem] queues. *)
Definition zdel_ops (db : DB) (key : bytes) (o : option Z) (x : bytes) : list BatchOp :=
  match o with
  | Some s0 => [OpDelete (zEncodeScoreKey db key x s0); OpDelete (zEncodeSetKey db key x)]
  | None => []
  end.

Lemma zset_ne_score db key x y s : short key -> in_i64 s -> zEncodeSetKey db key x <> zEncodeScoreKey db key y s.
Proof. intros Hk Hs. by apply (encode_ne db (ZMember key x) (ZScoreOf key y s)). Qed.

Lemma zset_ne db key x y : short key -> x <> y -> zEncodeSetKey db key x <> zEncodeSetKey db key y.
Proof. intros Hk Hs. apply (encode_ne db (ZMember key x) (ZMember key y)); naive_solver. Qed.

Lemma zscore_ne db key x y s s' :
  short key -> in_i64 s -> in_i64 s' -> (x <> y \/ s <> s') -> zEncodeScoreKey db key x s <> zEncodeScoreKey db key y s'.
Proof. intros Hk Hs Hs' Hne. apply (encode_ne db (ZScoreOf key x s) (ZScoreOf key y s')); naive_solver. Qed.

Lemma zput_parts db m key z o x s :
  short key -> zparts db m key z -> valid_score s -> (z !! x = None \/ z !! x = o) -> (forall s0, o = Some s0 -> in_i64 s0) ->
  zparts db (apply_ops (zput_ops db key o x s) m) key (<[x := s]> z).
Proof.
  intros Hk Hz Hs Ho Hv. pose proof (valid_i64 s Hs) as Hi.
  set (m1 := match o with Some s0 => delete (zEncodeScoreKey db key x s0) m | None => m end).
  assert (E : apply_ops (zput_ops db key o x s) m = <[zEncodeScoreKey db key x s := []]> (<[zEncodeSetKey db key x := PutInt64 s]> m1)).
  { unfold zput_ops. by destruct o. }
  rewrite E. split.
  - intros y. rewrite lookup_insert_ne by (apply not_eq_sym; by apply zset_ne_score). destruct (decide (x = y)) as [->|Hne].
    + by rewrite !lookup_insert_eq.
    + rewrite !lookup_insert_ne by (done || by apply zset_ne). subst m1.
      destruct o; [rewrite lookup_delete_ne by (apply not_eq_sym, zset_ne_score; auto)|]; apply (zp_members _ _ _ _ Hz).
  - intros y s' Hs'. destruct (decide (x = y /\ s = s')) as [[<- <-]|Hne].
    + rewrite !lookup_insert_eq. by rewrite decide_True.
    + rewrite lookup_insert_ne by (apply zscore_ne; [done..|]; destruct (decide (x = y)); naive_solver). rewrite lookup_insert_ne by (by apply zset_ne_score). subst m1.
      destruct (decide (x = y)) as [<-|Hxy].
      * rewrite lookup_insert_eq, (decide_False (P := Some s = Some s')) by naive_solver.
        destruct o as [s0|]; [destruct (decide (s0 = s')) as [->|Hs0]; [apply lookup_delete_eq|]|].
        -- rewrite lookup_delete_ne by (apply zscore_ne; auto). rewrite (zp_index _ _ _ _ Hz) by done.
           apply decide_False. destruct Ho as [-> | ->]; naive_solver.
        -- rewrite (zp_index _ _ _ _ Hz) by done. apply decide_False. by destruct Ho as [-> | ->].
      * rewrite lookup_insert_ne by done.
        destruct o; [rewrite lookup_delete_ne by (apply zscore_ne; auto)|]; by apply (zp_index _ _ _ _ Hz).
  - intros y s'. destruct (decide (x = y)) as [<-|Hne].
    + rewrite lookup_insert_eq. by intros [= <-].
    + rewrite lookup_insert_ne by done. apply (zp_scores _ _ _ _ Hz).
Qed.

Lemma zdel_parts db m key z x :
  short key -> zparts db m key z -> zparts db (apply_ops (zdel_ops db key (z !! x) x) m) key (delete x z).
Proof.
  intros Hk Hz. destruct (z !! x) as [s|] eqn:E; [|rewrite delete_id by done; exact Hz].
  assert (Hi : in_i64 s) by (by eapply valid_i64, zp_scores). unfold zdel_ops. cbn [apply_ops fold_left apply_op]. split.
  - intros y. destruct (decide (x = y)) as [->|Hne]; [by rewrite !lookup_delete_eq|].
    rewrite !lookup_delete_ne by (done || (by apply zset_ne) || by apply not_eq_sym, zset_ne_score). apply (zp_members _ _ _ _ Hz).
  - intros y s' Hs'. rewrite lookup_delete_ne by (by apply zset_ne_score). destruct (decide (x = y)) as [<-|Hne].
    + rewrite lookup_delete_eq, (decide_False (P := None = Some s')) by done.
      destruct (decide (s = s')) as [->|Hss]; [apply lookup_delete_eq|].
      rewrite lookup_delete_ne by (apply zscore_ne; auto). rewrite (zp_index _ _ _ _ Hz) by done. apply decide_False. naive_solver.
    + rewrite !lookup_delete_ne by (done || apply zscore_ne; auto). by apply (zp_index _ _ _ _ Hz).
  - intros y s'. destruct (decide (x = y)) as [<-|Hne]; [by rewrite lookup_delete_eq|].
    rewrite lookup_delete_ne by done. apply (zp_scores _ _ _ _ Hz).
Qed.

(** ** Several members *)

Definition zadd (z : gmap bytes Z) (args : list ScorePair) : gmap bytes Z :=
  fold_left (fun z p => <[Member p := Score p]> z) args z.

Definition zrem (z : gmap bytes Z) (xs : list bytes) : gmap bytes Z := fold_left (fun z x => delete x z) xs z.

Definition zputs_ops (db : DB) (key : bytes) (z : gmap bytes Z) (args : list ScorePair) : list BatchOp :=
  concat (map (fun p => zput_ops db key (z !! Member p) (Member p) (Score p)) args).

Definition zdels_ops (db : DB) (key : bytes) (z : gmap bytes Z) (xs : list bytes) : list BatchOp :=
  concat (map (fun x => zdel_ops db key (z !! x) x) xs).

(** What an iteration over the score index queues for the removal of a pair. *)
Definition zdrop_ops (db : DB) (key : bytes) (p : ScorePair) : list BatchOp :=
  [OpDelete (zEncodeSetKey db key (Member p)); OpDelete (zEncodeScoreKey db key (Member p) (Score p))].

(** The number of members as a size entry sees it. *)
Abbreviation zcount z := (Z.of_nat (size (z : gmap bytes Z))).

(** The arguments that are not members yet, and those that are. *)
Abbreviation znew z xs := (Z.of_nat (count_new (PutInt64 <$> (z : gmap bytes Z)) xs)).
Abbreviation zold z xs := (Z.of_nat (count_old (PutInt64 <$> (z : gmap bytes Z)) xs)).

Section Parts.
Context (db : DB) (key : bytes) (Hk : short key).
Implicit Types (m : gmap bytes bytes) (z : gmap bytes Z).

Lemma zputs_parts m z z0 args :
  zparts db m key z -> Forall (fun p => valid_score (Score p)) args -> NoDup (map Member args) ->
  (forall p, p ∈ args -> z !! Member p = None \/ z !! Member p = z0 !! Member p) ->
  (forall x s, z0 !! x = Some s -> in_i64 s) ->
  zparts db (apply_ops (zputs_ops db key z0 args) m) key (zadd z args).
Proof using Hk.
  intros Hz Hv. revert m z Hz; induction Hv as [|p args Hp Hv IH]; intros m z Hz Hn Ho Hi; [done|].
  cbn [map] in Hn. apply NoDup_cons in Hn as [Hx Hn]. unfold zputs_ops. cbn [map concat]. rewrite apply_ops_app.
  apply IH; [|done| |done].
  - apply zput_parts; [done..| |]; [apply Ho; constructor|eauto].
  - intros q Hq. rewrite lookup_insert_ne; [apply Ho; by constructor|]. intros E. apply Hx. rewrite E. by apply list_elem_of_fmap_2.
Qed.

Lemma zdels_parts m z z0 xs :
  zparts db m key z -> NoDup xs -> (forall x, x ∈ xs -> z !! x = z0 !! x) ->
  zparts db (apply_ops (zdels_ops db key z0 xs) m) key (zrem z xs).
Proof using Hk.
  revert m z; induction xs as [|x xs IH]; intros m z Hz Hn Ho; [done|].
  apply NoDup_cons in Hn as [Hx Hn]. unfold zdels_ops. cbn [map concat]. rewrite apply_ops_app.
  apply IH; [|done|].
  - rewrite <- Ho by constructor. by apply zdel_parts.
  - intros y Hy. rewrite lookup_delete_ne; [apply Ho; by constructor|]. intros ->. done.
Qed.

Lemma zdrops_parts m z ps :
  zparts db m key z -> NoDup (map Member ps) -> (forall p, p ∈ ps -> z !! Member p = Some (Score p)) ->
  zparts db (apply_ops (concat (map (zdrop_ops db key) ps)) m) key (zrem z (map Member ps)).
Proof using Hk.
  revert m z; induction ps as [|p ps IH]; intros m z Hz Hn Ho; [done|].
  cbn [map] in Hn |- *. apply NoDup_cons in Hn as [Hx Hn]. cbn [concat]. rewrite apply_ops_app. apply IH; [|done|].
  - pose proof (zdel_parts db m key z (Member p) Hk Hz) as HD. rewrite (Ho p) in HD by constructor.
    unfold zdel_ops, zdrop_ops in *. cbn [apply_ops fold_left apply_op] in *. by rewrite delete_delete.
  - intros q Hq. rewrite lookup_delete_ne; [apply Ho; by constructor|]. intros E. apply Hx. rewrite E. by apply list_elem_of_fmap_2.
Qed.

(** Members and score index do not see the size entry. *)
Lemma zparts_size m0 n m z :
  zparts db m key z -> zparts db (apply_ops (size_ops db m0 ZSetType key (zEncodeSizeKey db key) n) m) key z.
Proof using Hk.
  intros Hz. split.
  - intros x. rewrite <- (zp_members _ _ _ _ Hz). by apply (size_ops_member db ZSetType key (ZMember key) (ZSize key)).
  - intros x s Hs. rewrite <- (zp_index _ _ _ _ Hz) by done.
    by apply (size_ops_member db ZSetType key (fun x => ZScoreOf key x s) (ZSize key)).
  - apply (zp_scores _ _ _ _ Hz).
Qed.

Lemma zsize_entry m0 m z :
  zcount z < 2 ^ 63 ->
  apply_ops (size_ops db m0 ZSetType key (zEncodeSizeKey db key) (zcount z)) m !! zEncodeSizeKey db key = size_entry (PutInt64 <$> z).
Proof using. intros Hb. rewrite <- (map_size_fmap PutInt64 z) in *. by apply (size_ops_size db ZSetType key (ZSize key)). Qed.

Lemma zset_sized m0 m z :
  zparts db m key z -> zcount z < 2 ^ 63 ->
  zset_rep db (apply_ops (size_ops db m0 ZSetType key (zEncodeSizeKey db key) (zcount z)) m) key z.
Proof using Hk. intros Hz Hb. split; [by apply zparts_size|by apply zsize_entry]. Qed.

Lemma zset_size m z : zset_rep db m key z -> zcount z < 2 ^ 63 -> Int64 (m !! zEncodeSizeKey db key) None = (zcount z, None).
Proof using.
  intros [Hz Hs] Hb. rewrite <- (map_size_fmap PutInt64 z) in *.
  apply (size_read db (ZMember key) (ZSize key)); [|done]. split; [|done]. intros x. rewrite lookup_fmap. apply (zp_members _ _ _ _ Hz).
Qed.

Lemma ops_for_zput z x s : (forall s0, z !! x = Some s0 -> in_i64 s0) -> in_i64 s -> ops_for db ZSetType key (zput_ops db key (z !! x) x s).
Proof using Hk.
  intros Hi Hs. unfold zput_ops. apply ops_for_app.
  - destruct (z !! x) as [s0|] eqn:E; [|constructor]. apply (ops_for_cons _ _ _ _ _ (ZScoreOf key x s0)); [done|by split; auto|done|done|constructor].
  - apply (ops_for_cons _ _ _ _ _ (ZMember key x)); [done..|].
    apply (ops_for_cons _ _ _ _ _ (ZScoreOf key x s)); [done..|constructor].
Qed.

Lemma ops_for_concat {A} T (f : A -> list BatchOp) xs :
  (forall x, x ∈ xs -> ops_for db T key (f x)) -> ops_for db T key (concat (map f xs)).
Proof using.
  induction xs as [|x xs IH]; intros H; simpl; [constructor|]. apply ops_for_app; [apply H; constructor|].
  apply IH. intros y Hy. apply H. by constructor.
Qed.

Lemma ops_for_zdel z x : (forall s0, z !! x = Some s0 -> in_i64 s0) -> ops_for db ZSetType key (zdel_ops db key (z !! x) x).
Proof using Hk.
  intros Hi. unfold zdel_ops. destruct (z !! x) as [s0|] eqn:E; [|constructor].
  apply (ops_for_cons _ _ _ _ _ (ZScoreOf key x s0)); [done|by split; auto|done|done|].
  by apply (ops_for_cons _ _ _ _ _ (ZMember key x)); [..|constructor].
Qed.

Lemma ops_for_zdrop p : in_i64 (Score p) -> ops_for db ZSetType key (zdrop_ops db key p).
Proof using Hk.
  intros Hi. apply (ops_for_cons _ _ _ _ _ (ZMember key (Member p))); [done..|].
  by apply (ops_for_cons _ _ _ _ _ (ZScoreOf key (Member p) (Score p))); [..|constructor].
Qed.

Lemma ops_for_zsize m n : ops_for db ZSetType key (size_ops db m ZSetType key (zEncodeSizeKey db key) n).
Proof using. by apply (ops_for_size db ZSetType key (ZSize key)). Qed.

Lemma zset_rep_frame m m' T key' z : touches db T key' m m' -> T <> ZSetType \/ key' <> key -> zset_rep db m key z -> zset_rep db m' key z.
Proof using Hk.
  intros [HF _ _] Hne [[H1 H2 H3] H4].
  assert (Hb : forall k, belongs ZSetType key k -> ~ belongs T key' k).
  { intros k Hb1 Hb2. destruct (belongs_unique _ _ _ _ _ Hb1 Hb2) as [<- <-]. by destruct Hne. }
  split; [split|]; [intros x; rewrite <- H1|intros x s Hs; rewrite <- H2 by done|done|rewrite <- H4].
  - apply (HF (ZMember key x)); [done|by apply Hb].
  - apply (HF (ZScoreOf key x s)); [done|by apply Hb].
  - apply (HF (ZSize key)); [done|by apply Hb].
Qed.

End Parts.

Lemma zadd_fmap z args :
  PutInt64 <$> zadd z args = upd (PutInt64 <$> z) (map (fun p => (p.1, Some p.2)) (map (fun p => (Member p, PutInt64 (Score p))) args)).
Proof.
  revert z; induction args as [|p args IH]; intros z; [done|]. cbn [map]. rewrite upd_cons. cbn [upd1 fst snd].
  unfold zadd in *. cbn [fold_left]. by rewrite IH, fmap_insert.
Qed.

Lemma zadd_size z args : NoDup (map Member args) -> zcount (zadd z args) = zcount z + znew z (map Member args).
Proof.
  intros Hn. rewrite <- (map_size_fmap PutInt64), zadd_fmap.
  assert (E : (map (fun p => (Member p, PutInt64 (Score p))) args).*1 = map Member args).
  { clear. induction args as [|p args IH]; [done|]. cbn [map]. by rewrite fmap_cons, IH. }
  rewrite upd_puts_size by (by rewrite E). rewrite E, map_size_fmap. lia.
Qed.

Lemma zrem_fmap z xs : PutInt64 <$> zrem z xs = upd (PutInt64 <$> z) (map (fun x => (x, None)) xs).
Proof.
  revert z; induction xs as [|x xs IH]; intros z; [done|]. cbn [map]. rewrite upd_cons. cbn [upd1 fst snd].
  unfold zrem in *. cbn [fold_left]. by rewrite IH, fmap_delete.
Qed.

Lemma zrem_size z xs : NoDup xs -> zcount (zrem z xs) = zcount z - zold z xs.
Proof.
  intros Hn. pose proof (upd_dels_size (PutInt64 <$> z) xs Hn) as H. rewrite <- zrem_fmap, !map_size_fmap in H. lia.
Qed.

Lemma zrem_lookup z xs x : zrem z xs !! x = if decide (x ∈ xs) then None else z !! x.
Proof.
  revert z; induction xs as [|y xs IH]; intros z; [done|]. unfold zrem in *. cbn [fold_left]. rewrite IH.
  destruct (decide (x = y)) as [->|Hne].
  - rewrite lookup_delete_eq, (decide_True (P := y ∈ y :: xs)) by constructor. by case_decide.
  - rewrite lookup_delete_ne by done. repeat case_decide; try done; exfalso; set_solver.
Qed.

Lemma checkZSetKMSize_key key member : checkZSetKMSize key member = None -> checkKeySize key = None.
Proof. unfold checkZSetKMSize, checkKeySize. by destruct (_ || _). Qed.

Section Spec.
Context {B : Backend} {BS : BackendSpec B} {O : MapOrder} {OS : MapOrderSpec O}.
Implicit Types (db : DB) (key member : bytes) (m : gmap bytes bytes) (z : gmap bytes Z) (e : Env).

Lemma wp_zIncrSize db t key delta n (Q : Z * option error -> _ -> _ -> _ -> Prop) m b e :
  Int64 (m !! zEncodeSizeKey db key) None = (n, None) -> in_i64 (n + delta) ->
  Q (Z.max 0 (n + delta), None) m (add_ops t (size_ops db m ZSetType key (zEncodeSizeKey db key) (n + delta)) b) e ->
  wp (zIncrSize db t key delta) Q m b e.
Proof.
  intros Hn Hr HQ. unfold zIncrSize, size_ops in *. wp_auto. rewrite Hn, int64_small by done.
  destruct (n + delta <=? 0) eqn:E; zify_bool; wp_auto.
  - by rewrite Z.max_l in HQ by lia.
  - by rewrite Z.max_r in HQ by lia.
Qed.

(** The score a member entry holds. *)
Lemma zscore_read db m key z x : zparts db m key z ->
  m !! zEncodeSetKey db key x = PutInt64 <$> z !! x /\ (forall s, z !! x = Some s -> Int64 (Some (PutInt64 s)) None = (s, None)).
Proof.
  intros Hz. split; [apply (zp_members _ _ _ _ Hz)|]. intros s Hs. apply Int64_PutInt64. by eapply valid_i64, zp_scores.
Qed.

Lemma valid_score_check s : valid_score s -> (s <=? MinScore) || (s >=? MaxScore) = false.
Proof.
  unfold valid_score. intros H. apply orb_false_iff. split; [apply Z.leb_gt; lia|]. rewrite Z.geb_leb. apply Z.leb_gt. lia.
Qed.

Lemma wp_zSetItem db t key s x z (Q : Z * option error -> _ -> _ -> _ -> Prop) m b e :
  zparts db m key z -> valid_score s ->
  Q (match z !! x with Some _ => 1 | None => 0 end, None) m (add_ops t (zput_ops db key (z !! x) x s) b) e ->
  wp (zSetItem db t key s x) Q m b e.
Proof.
  intros Hz Hs HQ. destruct (zscore_read db m key z x Hz) as [Hm Hi]. unfold zSetItem, zput_ops in *.
  rewrite valid_score_check by done. wp_auto. rewrite Hm. destruct (z !! x) as [s0|]; cbn [fmap option_fmap option_map].
  - rewrite (Hi s0) by done. wp_auto. done.
  - wp_auto. done.
Qed.

(** ** Adding *)

Definition zargs_ok (key : bytes) (args : list ScorePair) : Prop :=
  Forall (fun p => checkZSetKMSize key (Member p) = None /\ valid_score (Score p)) args.

Lemma wp_zadd_loop db key args num z (Q : Z + error -> _ -> _ -> _ -> Prop) m b e :
  zparts db m key z -> zargs_ok key args -> 0 <= num -> num + len args < 2 ^ 63 ->
  Q (inl (num + znew z (map Member args))) m (add_ops zsetBatch (zputs_ops db key z args) b) e ->
  wp (zadd_loop db key args num) Q m b e.
Proof.
  intros Hr Ha. revert num b; induction Ha as [|p args [Hp Hv] Ha IH]; intros num b H0 Hn HQ.
  - cbn [zadd_loop]. wp_auto. unfold zputs_ops in HQ. cbn [map count_new concat] in HQ. by rewrite Z.add_0_r, add_no_ops in HQ.
  - cbn [zadd_loop]. rewrite Hp. wp_auto. apply (wp_zSetItem db zsetBatch key _ _ z); [done..|]. cbn [length] in Hn.
    unfold zputs_ops in *. cbn [count_new map concat] in HQ. rewrite lookup_fmap in HQ. destruct (z !! Member p) as [v|]; cbn [fmap option_fmap option_map Z.eqb Pos.eqb Nat.add] in HQ |- *.
    + apply IH; [lia|lia|]. rewrite add_ops_add. done.
    + rewrite int64_small by (unfold in_i64; lia). apply IH; [lia|lia|]. rewrite add_ops_add.
      by replace (num + 1 + znew z (map Member args)) with (num + Z.of_nat (S (count_new (PutInt64 <$> z) (map Member args)))) by lia.
Qed.

Definition zadd_ops db m z key (args : list ScorePair) : list BatchOp :=
  zputs_ops db key z args ++ size_ops db m ZSetType key (zEncodeSizeKey db key) (zcount z + znew z (map Member args)).

Lemma ZAdd_exec db key args z m e :
  zset_rep db m key z -> args <> [] -> zargs_ok key args -> zcount z + len args < 2 ^ 63 ->
  exec (ZAdd db key args) m e (znew z (map Member args), None) (apply_ops (zadd_ops db m z key args) m) e.
Proof.
  intros Hr Hne Ha Hb. unfold exec, ZAdd. destruct args as [|p args]; [done|]. wp_auto.
  pose proof (count_new_le (PutInt64 <$> z) (map Member (p :: args))) as Hc. rewrite length_map in Hc.
  apply (wp_zadd_loop db key (p :: args) 0 z); [by apply Hr|done|lia|lia|]. rewrite Z.add_0_l. wp_auto.
  eapply wp_zIncrSize; [by apply (zset_size db key m z); [|lia]|unfold in_i64; lia|]. wp_auto. done.
Qed.

Lemma zadd_rep db key args z m :
  short key -> zset_rep db m key z -> Forall (fun p => valid_score (Score p)) args -> NoDup (map Member args) ->
  zcount z + len args < 2 ^ 63 ->
  zset_rep db (apply_ops (zadd_ops db m z key args) m) key (zadd z args) /\
  keeps db ZSetType key m (apply_ops (zadd_ops db m z key args) m).
Proof.
  intros Hk [Hz Hs] Hv Hn Hb. pose proof (count_new_le (PutInt64 <$> z) (map Member args)) as Hc. rewrite length_map in Hc.
  assert (Hi : forall x s, z !! x = Some s -> in_i64 s) by (intros x s Hx; by eapply valid_i64, zp_scores).
  unfold zadd_ops. rewrite <- zadd_size by done. split.
  - rewrite apply_ops_app. apply zset_sized; [done| |rewrite zadd_size by done; lia]. apply zputs_parts; auto.
  - apply keeps_ops, ops_for_app; [|apply ops_for_zsize]. apply ops_for_concat. intros p Hp.
    apply ops_for_zput; [done|eauto|]. rewrite Forall_forall in Hv. by apply valid_i64, Hv.
Qed.

(** ** Removing *)

Lemma wp_zDelItem db t key x (skip : bool) z (Q : Z * option error -> _ -> _ -> _ -> Prop) m b e :
  zparts db m key z ->
  Q (match z !! x with Some _ => 1 | None => 0 end, None) m
    (add_ops t (if skip then match z !! x with Some _ => [OpDelete (zEncodeSetKey db key x)] | None => [] end
                else zdel_ops db key (z !! x) x) b) e ->
  wp (zDelItem db t key x skip) Q m b e.
Proof.
  intros Hz HQ. destruct (zscore_read db m key z x Hz) as [Hm Hi]. unfold zDelItem, zdel_ops in *. wp_auto. rewrite Hm.
  destruct (z !! x) as [s0|]; cbn [fmap option_fmap option_map].
  - destruct skip; cbn [negb]; [wp_auto; done|]. rewrite (Hi s0) by done. wp_auto. done.
  - wp_auto. destruct skip; by rewrite add_no_ops in HQ.
Qed.

Lemma wp_zremove_loop db key xs num z (Q : Z + error -> _ -> _ -> _ -> Prop) m b e :
  zparts db m key z -> Forall (fun x => checkZSetKMSize key x = None) xs -> 0 <= num -> num + len xs < 2 ^ 63 ->
  Q (inl (num + zold z xs)) m (add_ops zsetBatch (zdels_ops db key z xs) b) e ->
  wp (zremove_loop db key xs num) Q m b e.
Proof.
  intros Hr Ha. revert num b; induction Ha as [|x xs Hx Ha IH]; intros num b H0 Hn HQ.
  - cbn [zremove_loop]. wp_auto. unfold zdels_ops in HQ. cbn [map count_old concat] in HQ. by rewrite Z.add_0_r, add_no_ops in HQ.
  - cbn [zremove_loop]. rewrite Hx. wp_auto. apply (wp_zDelItem db zsetBatch key _ _ z); [done..|]. cbn [length] in Hn.
    unfold zdels_ops in *. cbn [count_old map concat] in HQ. rewrite lookup_fmap in HQ. destruct (z !! x) as [v|]; cbn [fmap option_fmap option_map Z.eqb Pos.eqb Nat.add] in HQ |- *.
    + rewrite int64_small by (unfold in_i64; lia). apply IH; [lia|lia|]. rewrite add_ops_add.
      by replace (num + 1 + zold z xs) with (num + Z.of_nat (S (count_old (PutInt64 <$> z) xs))) by lia.
    + apply IH; [lia|lia|]. rewrite add_ops_add. done.
Qed.

Definition zremove_ops db m z key (xs : list bytes) : list BatchOp :=
  zdels_ops db key z xs ++ size_ops db m ZSetType key (zEncodeSizeKey db key) (zcount z - zold z xs).

Lemma ZRem_exec db key xs z m e :
  zset_rep db m key z -> xs <> [] -> Forall (fun x => checkZSetKMSize key x = None) xs -> zcount z < 2 ^ 63 -> len xs < 2 ^ 63 ->
  exec (ZRem db key xs) m e (zold z xs, None) (apply_ops (zremove_ops db m z key xs) m) e.
Proof.
  intros Hr Hne Ha Hb Hl. unfold exec, ZRem. destruct xs as [|x xs]; [done|]. wp_auto.
  pose proof (count_old_le (PutInt64 <$> z) (x :: xs)) as Hc.
  apply (wp_zremove_loop db key (x :: xs) 0 z); [by apply Hr|done|lia|lia|]. rewrite Z.add_0_l. wp_auto.
  rewrite (int64_small (- zold z (x :: xs))) by (unfold in_i64; lia).
  eapply wp_zIncrSize; [by apply (zset_size db key m z)|unfold in_i64; lia|]. wp_auto. done.
Qed.

Lemma zremove_rep db key xs z m :
  short key -> zset_rep db m key z -> NoDup xs -> zcount z < 2 ^ 63 ->
  zset_rep db (apply_ops (zremove_ops db m z key xs) m) key (zrem z xs) /\
  keeps db ZSetType key m (apply_ops (zremove_ops db m z key xs) m).
Proof.
  intros Hk [Hz Hs] Hn Hb. assert (Hi : forall x s, z !! x = Some s -> in_i64 s) by (intros x s Hx; by eapply valid_i64, zp_scores).
  unfold zremove_ops. rewrite <- zrem_size by done. split.
  - rewrite apply_ops_app. apply zset_sized; [done| |rewrite zrem_size by done; lia]. by apply zdels_parts.
  - apply keeps_ops, ops_for_app; [|apply ops_for_zsize]. apply ops_for_concat. intros x Hx. apply ops_for_zdel; eauto.
Qed.

(** ** Incrementing a score *)

Definition zincr_ops db m z key x (s : Z) : list BatchOp :=
  (match z !! x with
   | None => size_ops db m ZSetType key (zEncodeSizeKey db key) (zcount z + 1)
   | Some _ => []
   end) ++
  [OpPut (zEncodeScoreKey db key x s) []; OpPut (zEncodeSetKey db key x) (PutInt64 s)] ++
  (match z !! x with Some s0 => [OpDelete (zEncodeScoreKey db key x s0)] | None => [] end).

Lemma ZIncrBy_exec db key delta x z m e :
  let s := int64 (default 0 (z !! x) + delta) in
  checkZSetKMSize key x = None -> zset_rep db m key z -> valid_score s -> zcount z + 1 < 2 ^ 63 ->
  exec (ZIncrBy db key delta x) m e (s, None) (apply_ops (zincr_ops db m z key x s) m) e.
Proof.
  intros s Hk Hr Hs Hb. destruct (zscore_read db m key z x (zr_parts _ _ _ _ Hr)) as [Hm Hi].
  assert (Hc : (s >=? MaxScore) || (s <=? MinScore) = false) by (rewrite orb_comm; by apply valid_score_check).
  unfold exec, ZIncrBy, zincr_ops. rewrite Hk. wp_auto. rewrite Hm. subst s.
  destruct (z !! x) as [s0|]; cbn [fmap option_fmap option_map default from_option id not_nil] in *.
  - rewrite (Hi s0) by done. wp_auto. unfold id in *. rewrite Hc. wp_auto. done.
  - wp_auto. eapply wp_zIncrSize; [by apply (zset_size db key m z); [|lia]|unfold in_i64; lia|]. wp_auto. unfold id in *.
    rewrite Hc. wp_auto. by rewrite app_nil_r.
Qed.

Lemma ZIncrBy_overflow db key delta x z m e :
  checkZSetKMSize key x = None -> zset_rep db m key z -> zcount z + 1 < 2 ^ 63 ->
  ~ valid_score (int64 (default 0 (z !! x) + delta)) ->
  exec (ZIncrBy db key delta x) m e (InvalidScore, Some errScoreOverflow) m e.
Proof.
  intros Hk Hr Hb Hs. destruct (zscore_read db m key z x (zr_parts _ _ _ _ Hr)) as [Hm Hi].
  set (s := int64 _) in Hs. assert (Hc : (s >=? MaxScore) || (s <=? MinScore) = true).
  { apply orb_true_iff. rewrite Z.geb_leb, !Z.leb_le. unfold valid_score in Hs. lia. }
  unfold exec, ZIncrBy. rewrite Hk. wp_auto. rewrite Hm. subst s.
  destruct (z !! x) as [s0|]; cbn [fmap option_fmap option_map default from_option id not_nil] in *.
  - rewrite (Hi s0) by done. wp_auto. unfold id in *. rewrite Hc. wp_auto. done.
  - wp_auto. eapply wp_zIncrSize; [by apply (zset_size db key m z); [|lia]|unfold in_i64; lia|]. wp_auto. unfold id in *.
    rewrite Hc. wp_auto. done.
Qed.

Lemma zput_ops_size db key o x s m : short key -> in_i64 s -> (forall s0, o = Some s0 -> in_i64 s0) ->
  apply_ops (zput_ops db key o x s) m !! zEncodeSizeKey db key = m !! zEncodeSizeKey db key.
Proof.
  intros Hk Hs Ho.
  assert (Hsc : forall s', in_i64 s' -> zEncodeScoreKey db key x s' <> zEncodeSizeKey db key).
  { intros s' Hs'. by apply (encode_ne db (ZScoreOf key x s') (ZSize key)). }
  assert (Hme : zEncodeSetKey db key x <> zEncodeSizeKey db key) by (by apply (encode_ne db (ZMember key x) (ZSize key))).
  unfold zput_ops. destruct o as [s0|]; cbn [app apply_ops fold_left apply_op]; rewrite !lookup_insert_ne by auto; [|done].
  by rewrite lookup_delete_ne by auto.
Qed.

Lemma size_entry_insert z x s s0 : z !! x = Some s0 -> size_entry (PutInt64 <$> <[x := s]> z) = size_entry (PutInt64 <$> z).
Proof.
  intros Hx. unfold size_entry. rewrite !map_size_fmap, map_size_insert, Hx.
  rewrite !decide_False; [done| |]; intros E%fmap_empty_iff; [by rewrite E in Hx|by apply insert_non_empty in E].
Qed.

(** The order of the two writes of a new score does not matter. *)
Lemma zput_swap db key x s m : short key -> in_i64 s ->
  apply_ops [OpPut (zEncodeScoreKey db key x s) []; OpPut (zEncodeSetKey db key x) (PutInt64 s)] m =
  apply_ops (zput_ops db key None x s) m.
Proof. intros Hk Hs. simpl. apply insert_insert_ne. by apply zset_ne_score. Qed.

Lemma zincr_rep db key x s z m :
  short key -> zset_rep db m key z -> valid_score s -> z !! x <> Some s -> zcount z + 1 < 2 ^ 63 ->
  zset_rep db (apply_ops (zincr_ops db m z key x s) m) key (<[x := s]> z).
Proof.
  intros Hk [Hz Hsz] Hs Hne Hb. pose proof (valid_i64 s Hs) as Hi. unfold zincr_ops. destruct (z !! x) as [s0|] eqn:E.
  - assert (Hi0 : in_i64 s0) by (by eapply valid_i64, zp_scores).
    assert (Hd : apply_ops ([] ++ [OpPut (zEncodeScoreKey db key x s) []; OpPut (zEncodeSetKey db key x) (PutInt64 s)] ++
      [OpDelete (zEncodeScoreKey db key x s0)]) m = apply_ops (zput_ops db key (Some s0) x s) m).
    { simpl. rewrite delete_insert_ne by (apply not_eq_sym; by apply zset_ne_score).
      rewrite delete_insert_ne by (apply zscore_ne; naive_solver). apply insert_insert_ne. by apply zset_ne_score. }
    rewrite Hd. split; [apply zput_parts; naive_solver|]. rewrite zput_ops_size by naive_solver.
    rewrite Hsz. symmetry. by eapply size_entry_insert.
  - rewrite app_nil_r, apply_ops_app, zput_swap by done.
    assert (Hn : zcount z + 1 = zcount (<[x := s]> z)) by (rewrite map_size_insert, E; lia). rewrite Hn. split.
    + apply zput_parts; [done|by apply zparts_size|done|by left|done].
    + rewrite zput_ops_size by done. apply zsize_entry. lia.
Qed.

Lemma zincr_keeps db key x s z m :
  short key -> zset_rep db m key z -> valid_score s -> keeps db ZSetType key m (apply_ops (zincr_ops db m z key x s) m).
Proof.
  intros Hk [Hz Hsz] Hs. pose proof (valid_i64 s Hs) as Hi. unfold zincr_ops. apply keeps_ops, ops_for_app; [|apply ops_for_app].
  - destruct (z !! x); [constructor|apply ops_for_zsize].
  - apply (ops_for_cons _ _ _ _ _ (ZScoreOf key x s)); [done..|].
    by apply (ops_for_cons _ _ _ _ _ (ZMember key x)); [..|constructor].
  - destruct (z !! x) as [s0|] eqn:E; [|constructor]. assert (Hi0 : in_i64 s0) by (by eapply valid_i64, zp_scores).
    by apply (ops_for_cons _ _ _ _ _ (ZScoreOf key x s0)); [..|constructor].
Qed.

(** ** Reading *)

Lemma ZCard_wp db key z (Q : Z * option error -> _ -> _ -> _ -> Prop) m b e :
  checkKeySize key = None -> zset_rep db m key z -> zcount z < 2 ^ 63 ->
  Q (zcount z, None) m b e -> wp (ZCard db key) Q m b e.
Proof. intros Hk Hr Hb HQ. unfold ZCard. rewrite Hk. wp_auto. by rewrite (zset_size db key m z). Qed.

Lemma ZScore_exec db key x z m e :
  checkZSetKMSize key x = None -> zset_rep db m key z ->
  exec (ZScore db key x) m e (match z !! x with Some s => (s, None) | None => (InvalidScore, Some ErrScoreMiss) end) m e.
Proof.
  intros Hk Hr. destruct (zscore_read db m key z x (zr_parts _ _ _ _ Hr)) as [Hm Hi]. unfold exec, ZScore. rewrite Hk.
  wp_auto. rewrite Hm. destruct (z !! x) as [s|]; cbn [fmap option_fmap option_map]; [rewrite (Hi s) by done|]; by wp_auto.
Qed.

Lemma ZCount_exec db key min max z m e :
  checkKeySize key = None -> well_keyed db m -> zset_rep db m key z -> in_i64 min -> in_i64 max ->
  exec (ZCount db key min max) m e (len (zby_score z min max), None) m e.
Proof.
  intros Hk Hw Hr Hmin Hmax. unfold exec, ZCount. rewrite Hk. wp_auto.
  rewrite H, cut_all, (zscore_range_by db m key z) by (try apply Hr; auto using short_key). by rewrite length_map.
Qed.

Lemma cut_map {A C} (f : A -> C) l (xs : list A) : cut l (map f xs) = map f (cut l xs).
Proof. unfold cut. destruct (_ <? 0); [done|]. rewrite skipn_map. destruct (_ <? 0); [done|]. by rewrite firstn_map. Qed.

Lemma zrange_pairs_ok db key (ps : list ScorePair) :
  short key -> Forall (fun p => in_i64 (Score p)) ps -> zrange_pairs db (map (zentry db key) ps) = ps.
Proof.
  intros Hk Hp. induction Hp as [|p ps Hp Hps IH]; [done|]. cbn [map zrange_pairs zentry].
  rewrite zDecodeScoreKey_named by done. rewrite IH. by destruct p.
Qed.

Lemma zby_score_valid db m key z min max : zparts db m key z -> Forall (fun p => in_i64 (Score p)) (zby_score z min max).
Proof. intros Hz. apply Forall_forall. intros p [_ Hp]%list_elem_of_filter. by eapply zsorted_valid. Qed.

Lemma Forall_cut {A} (P : A -> Prop) l xs : Forall P xs -> Forall P (cut l xs).
Proof. rewrite !Forall_forall. intros H x Hx%elem_of_cut. auto. Qed.

(** The pairs with a score in a range, from the low or from the high end, cut by offset
    and count. *)
Lemma zRange_wp db key min max offset count (rev : bool) z (Q : list ScorePair * option error -> _ -> _ -> _ -> Prop) m b e :
  len key <= MaxKeySize -> well_keyed db m -> zset_rep db m key z -> in_i64 min -> in_i64 max ->
  Q (cut (mkLimit offset count) (if rev then reverse (zby_score z min max) else zby_score z min max), None) m b e ->
  wp (zRange db key min max offset count rev) Q m b e.
Proof.
  intros Hk Hw [Hz _] Hmin Hmax HQ. assert (Hs : short key) by (unfold short, MaxKeySize in *; lia).
  pose proof (zby_score_valid db m key z min max Hz) as HV.
  pose proof (zscore_range_by db m key z min max RangeClose Hs Hw Hz Hmin Hmax (or_introl eq_refl)) as HR.
  unfold zRange. rewrite Z.gtb_ltb, (proj2 (Z.ltb_ge _ _)) by lia.
  destruct (offset <? 0) eqn:E; [wp_auto; unfold cut in HQ; cbn [Offset] in HQ; by rewrite E in HQ|].
  assert (HF : zrange_pairs db (cut (mkLimit offset count) (map (zentry db key) (zby_score z min max))) = cut (mkLimit offset count) (zby_score z min max)).
  { rewrite cut_map. apply zrange_pairs_ok; [done|]. by apply Forall_cut. }
  assert (HB : zrange_pairs db (cut (mkLimit offset count) (reverse (map (zentry db key) (zby_score z min max)))) =
    cut (mkLimit offset count) (reverse (zby_score z min max))).
  { change (map ?f ?l) with (f <$> l). rewrite <- fmap_reverse. change (?f <$> ?l) with (map f l). rewrite cut_map.
    apply zrange_pairs_ok; [done|]. by apply Forall_cut, Forall_reverse. }
  unfold zIterator. destruct rev; cbn [negb orb andb]; [|wp_auto; by rewrite H, HR, HF].
  destruct ((offset =? 0) && (count <? 0)) eqn:E1; cbn [negb]; wp_auto; rewrite H, HR; [rewrite HF|by rewrite HB].
  apply andb_true_iff in E1 as [E1 E2]. zify_bool. subst offset. unfold cut in *. cbn [Offset Count] in *.
  rewrite (proj2 (Z.ltb_lt count 0)) in * by done. cbn [Z.ltb] in *. rewrite drop_0 in *. by rewrite rev_alt.
Qed.

(** Negative positions count from the end. *)
Definition zslice {A} (l : list A) (start stop : Z) : list A :=
  let s := if start <? 0 then Z.max 0 (len l + start) else start in
  let t := if stop <? 0 then len l + stop else stop in
  take (Z.to_nat (t - s + 1)) (drop (Z.to_nat s) l).

Lemma zlimit_wp {A} (l : list A) s t (Q : Z * Z * option error -> _ -> _ -> _ -> Prop) m b e :
  0 <= s <= 2 ^ 62 -> - 2 ^ 62 <= t <= 2 ^ 62 ->
  (forall offset count, cut (mkLimit offset count) l = take (Z.to_nat (t - s + 1)) (drop (Z.to_nat s) l) ->
     Q (offset, count, None) m b e) ->
  wp (if s >? t then mret (-1, 0, None) else mret (s, int64 (int64 (t - s) + 1), None)) Q m b e.
Proof.
  intros H1 H2 HQ. destruct (s >? t) eqn:E; zify_bool; wp_auto; apply HQ; unfold cut; cbn [Offset Count].
  - by replace (Z.to_nat (t - s + 1)) with 0%nat by lia.
  - rewrite (int64_small (t - s)), int64_small by (unfold in_i64; lia).
    rewrite (proj2 (Z.ltb_ge s 0)), (proj2 (Z.ltb_ge _ 0)) by lia. done.
Qed.

(** [zParseLimit] turns positions into the offset and count that select the slice. *)
Lemma zParseLimit_wp {A} db key start stop z (l : list A) (Q : Z * Z * option error -> _ -> _ -> _ -> Prop) m b e :
  checkKeySize key = None -> zset_rep db m key z -> len l = zcount z -> zcount z < 2 ^ 61 ->
  - 2 ^ 61 <= start < 2 ^ 61 -> - 2 ^ 61 <= stop < 2 ^ 61 ->
  (forall offset count, cut (mkLimit offset count) l = zslice l start stop -> Q (offset, count, None) m b e) ->
  wp (zParseLimit db key start stop) Q m b e.
Proof.
  intros Hk Hr Hl Hb Hs Ht HQ. unfold zParseLimit, zslice in *. destruct ((start <? 0) || (stop <? 0)) eqn:E.
  - wp_auto. apply (ZCard_wp db key z); [done|done|lia|]. rewrite !int64_small by (unfold in_i64; lia). cbv zeta.
    rewrite Hl in HQ. set (s0 := if start <? 0 then zcount z + start else start).
    assert (ES : (if s0 <? 0 then 0 else s0) = if start <? 0 then Z.max 0 (zcount z + start) else start)
      by (unfold s0; repeat case_if; lia).
    rewrite ES. set (s := if start <? 0 then _ else _) in *. set (t := if stop <? 0 then _ else _) in *.
    assert (0 <= s <= 2 ^ 62 /\ - 2 ^ 62 <= t <= 2 ^ 62) as [Hs' Ht'] by (unfold s, t; repeat case_if; lia).
    destruct (s >=? zcount z) eqn:E1; zify_bool; [wp_auto|by apply (zlimit_wp l)].
    apply HQ. rewrite drop_ge by lia. by rewrite take_nil.
  - apply orb_false_iff in E as [E1 E2]. rewrite E1, E2 in HQ. zify_bool. apply (zlimit_wp l); [lia|lia|done].
Qed.

Lemma zby_score_all db m key z : zparts db m key z -> zby_score z MinScore MaxScore = zsorted z.
Proof.
  intros Hz. unfold zby_score. rewrite (filter_iff_in _ (fun _ => True)); [induction (zsorted z) as [|p l IH]; [done|]|].
  - rewrite filter_cons, decide_True by done. by rewrite IH.
  - intros p Hp%elem_of_zsorted. apply (zp_scores _ _ _ _ Hz) in Hp. unfold valid_score in Hp. split; [done|lia].
Qed.

Lemma score_bounds_i64 : in_i64 MinScore /\ in_i64 MaxScore.
Proof. unfold in_i64, MinScore, MaxScore. lia. Qed.

Lemma key_le_max key : checkKeySize key = None -> len key <= MaxKeySize.
Proof. unfold checkKeySize. destruct (_ || _) eqn:E; [done|]. intros _. apply orb_false_iff in E as [E _]. zify_bool. lia. Qed.

Lemma ZRangeGeneric_wp db key start stop (rev : bool) z (Q : list ScorePair * option error -> _ -> _ -> _ -> Prop) m b e :
  checkKeySize key = None -> well_keyed db m -> zset_rep db m key z -> zcount z < 2 ^ 61 ->
  - 2 ^ 61 <= start < 2 ^ 61 -> - 2 ^ 61 <= stop < 2 ^ 61 ->
  Q (zslice (if rev then reverse (zsorted z) else zsorted z) start stop, None) m b e ->
  wp (ZRangeGeneric db key start stop rev) Q m b e.
Proof.
  intros Hk Hw Hr Hb Hs Ht HQ. unfold ZRangeGeneric. wp_auto.
  apply (zParseLimit_wp db key start stop z (if rev then reverse (zsorted z) else zsorted z)); [done|done| |done..|].
  { destruct rev; rewrite ?length_reverse, zsorted_length; done. }
  intros offset count HE. destruct score_bounds_i64. apply (zRange_wp db key _ _ offset count rev z); [by apply key_le_max|done..|].
  rewrite (zby_score_all db m key z), HE by apply Hr. done.
Qed.

(** ** Ranks *)

Lemma pair_split (l1 l2 : list ScorePair) p :
  StronglySorted pair_lt (l1 ++ p :: l2) ->
  filter (fun q => pair_le q p) (l1 ++ p :: l2) = l1 ++ [p] /\ filter (fun q => pair_le p q) (l1 ++ p :: l2) = p :: l2.
Proof.
  intros HS. assert (H1 : Forall (fun q => pair_lt q p) l1).
  { clear -HS. induction l1 as [|q l1 IH]; [constructor|]. apply StronglySorted_inv in HS as [HS HF]. constructor; [|by apply IH].
    apply Forall_app in HF as [_ HF]. by apply Forall_cons in HF as [HF _]. }
  assert (H2 : Forall (fun q => pair_lt p q) l2).
  { clear -HS. induction l1 as [|q l1 IH]; apply StronglySorted_inv in HS as [HS HF]; [done|by apply IH]. }
  assert (Hlt : forall q q', pair_lt q q' -> pair_le q q' /\ ~ pair_le q' q).
  { intros q q' H. unfold pair_lt, pair_le in *. rewrite (pair_cmp_antisym q q'), H. by split; [|intros []]. }
  assert (Hpp : pair_le p p) by (apply pair_le_alt; by right). rewrite !filter_app, !filter_cons, !decide_True by done. split.
  - f_equal; [clear -H1 Hlt|f_equal; clear -H2 Hlt].
    + induction H1 as [|q l Hq H IH]; [done|]. rewrite filter_cons, decide_True by (by apply Hlt). by rewrite IH.
    + induction H2 as [|q l Hq H IH]; [done|]. rewrite filter_cons, decide_False by (by apply Hlt). done.
  - replace (filter (fun q => pair_le p q) l1) with (@nil ScorePair).
    + simpl. f_equal. clear -H2 Hlt. induction H2 as [|q l Hq H IH]; [done|]. rewrite filter_cons, decide_True by (by apply Hlt). by rewrite IH.
    + clear -H1 Hlt. induction H1 as [|q l Hq H IH]; [done|]. rewrite filter_cons, decide_False by (by apply Hlt). done.
Qed.

Lemma zentry_le db key p q : in_i64 (Score p) -> in_i64 (Score q) -> ble (zentry db key p).1 (zentry db key q).1 <-> pair_le p q.
Proof. intros Hp Hq. unfold ble, pair_le, pair_cmp, zentry. simpl. by rewrite zEncodeScoreKey_cmp. Qed.

(** The index entries up to a pair, and from it on. *)
Lemma zrank_ranges db m key z p :
  short key -> well_keyed db m -> zparts db m key z -> z !! Member p = Some (Score p) ->
  let sk := zEncodeScoreKey db key (Member p) (Score p) in
  range_entries m (mkRange (Some (zEncodeStartScoreKey db key MinScore)) (Some sk) RangeClose) =
    map (zentry db key) (filter (fun q => pair_le q p) (zsorted z)) /\
  range_entries m (mkRange (Some sk) (Some (zEncodeStopScoreKey db key MaxScore)) RangeClose) =
    map (zentry db key) (filter (fun q => pair_le p q) (zsorted z)).
Proof.
  intros Hk Hw Hz Hp sk. destruct score_bounds_i64 as [Hmin Hmax]. pose proof (zp_scores _ _ _ _ Hz _ _ Hp) as Hv.
  pose proof (valid_i64 _ Hv) as Hi. assert (HV : forall q, q ∈ zsorted z -> valid_score (Score q)).
  { intros q Hq%elem_of_zsorted. by eapply zp_scores. }
  subst sk. unfold zEncodeStartScoreKey. rewrite !zEncodeScoreKey_split, zEncodeStopScoreKey_split. split;
    rewrite (zscore_range db m key z) by done; f_equal; apply filter_iff_in; intros q Hq; specialize (HV q Hq);
    pose proof (valid_i64 _ HV) as Hiq; rewrite <- ?zEncodeScoreKey_split, <- ?zEncodeStopScoreKey_split;
    unfold in_range, above_min, below_max; cbn [Min Max RType]; rewrite andb_true_iff;
    change (Z.land RangeClose RangeLOpen >? 0) with false; change (Z.land RangeClose RangeROpen >? 0) with false;
    cbv iota; rewrite !bool_decide_eq_true; unfold valid_score in HV.
  - change (zEncodeScoreKey db key (Member p) (Score p)) with (zentry db key p).1. rewrite zentry_le by done.
    pose proof (zscore_above db key (Score q) MinScore (Member q) Hiq Hmin) as HA. unfold zEncodeStartScoreKey in HA.
    cbn [zentry fst] in *. rewrite HA. naive_solver lia.
  - change (zEncodeScoreKey db key (Member p) (Score p)) with (zentry db key p).1. rewrite zentry_le by done.
    unfold ble at 1. cbn [zentry fst]. rewrite zscore_below, decide_True by (done || lia). naive_solver.
Qed.

Lemma zrank_exec db key x s (rev : bool) i z m e :
  checkZSetKMSize key x = None -> well_keyed db m -> zset_rep db m key z -> zsorted z !! i = Some (mkScorePair s x) ->
  exec (zrank db key x rev) m e (if rev then zcount z - 1 - Z.of_nat i else Z.of_nat i, None) m e.
Proof.
  intros Hk Hw [Hz _] Hi. pose proof (short_key _ (checkZSetKMSize_key _ _ Hk)) as Hs.
  assert (Hx : z !! x = Some s) by (by apply list_elem_of_lookup_2, elem_of_zsorted in Hi).
  destruct (zscore_read db m key z x Hz) as [Hm Hr]. destruct (zrank_ranges db m key z (mkScorePair s x) Hs Hw Hz Hx) as [R1 R2].
  cbn [Member Score] in R1, R2. pose proof (zsorted_length z) as Hlen.
  pose proof (take_drop_middle _ _ _ Hi) as HE. pose proof (zsorted_sorted z) as HS. rewrite <- HE in HS.
  apply pair_split in HS as [S1 S2]. rewrite HE in S1, S2. rewrite S1 in R1. rewrite S2 in R2.
  pose proof (lookup_lt_Some _ _ _ Hi) as Hlt. unfold exec, zrank. rewrite Hk. wp_auto.
  destruct (Find_lookup m it (zEncodeSetKey db key x) H) as [Hv Hs'].
  destruct (Find it _) as [it' v]. cbn [fst snd] in *. subst v. rewrite Hm, Hx. cbn [fmap option_fmap option_map]. rewrite (Hr s) by done.
  assert (Hd : zDecodeScoreKey db (zEncodeScoreKey db key x s) = inl (key, x, s)).
  { apply zDecodeScoreKey_named; [done|]. by eapply valid_i64, zp_scores. }
  destruct rev; cbn [negb].
  - change (NewRevRangeIterator it' ?r) with (NewRevRangeLimitIterator it' r (mkLimit 0 (-1))).
    rewrite (range_items_backward it' m), cut_all, R2 by done. cbn [map]. rewrite reverse_cons, fmap_app, last_app. cbn [fmap list_fmap last default zentry fst Member Score].
    unfold id. rewrite Hd, bool_decide_true by done. wp_auto. split; [|done]. f_equal.
    rewrite length_app, length_reverse, length_map, length_drop. cbn [length]. lia.
  - change (NewRangeIterator it' ?r) with (NewRangeLimitIterator it' r (mkLimit 0 (-1))).
    rewrite (range_items_forward it' m), cut_all, R1 by done. rewrite map_app, fmap_app, last_app. cbn [map fmap list_fmap last default zentry fst Member Score].
    unfold id. rewrite Hd, bool_decide_true by done. wp_auto. split; [|done]. f_equal.
    rewrite length_app, length_map, length_take. cbn [length]. lia.
Qed.

Lemma zrank_missing db key x (rev : bool) z m e :
  checkZSetKMSize key x = None -> zset_rep db m key z -> z !! x = None ->
  exec (zrank db key x rev) m e (-1, None) m e.
Proof.
  intros Hk [Hz _] Hx. destruct (zscore_read db m key z x Hz) as [Hm Hr]. unfold exec, zrank. rewrite Hk. wp_auto.
  destruct (Find_lookup m it (zEncodeSetKey db key x) H) as [Hv Hs'].
  destruct (Find it _) as [it' v]. cbn [fst snd] in *. subst v. rewrite Hm, Hx. cbn [fmap option_fmap option_map]. wp_auto. done.
Qed.

(** ** Removing ranges *)

(** The effect of removing the pairs [ps]. *)
Definition zremrange_ops db m z key (ps : list ScorePair) : list BatchOp :=
  concat (map (zdrop_ops db key) ps) ++ size_ops db m ZSetType key (zEncodeSizeKey db key) (zcount z - len ps).

Lemma wp_zrem_loop db t key ps num z (Q : Z + error -> _ -> _ -> _ -> Prop) m b e :
  short key -> zparts db m key z -> (forall p, p ∈ ps -> z !! Member p = Some (Score p)) -> 0 <= num -> num + len ps < 2 ^ 63 ->
  Q (inl (num + len ps)) m (add_ops t (concat (map (zdrop_ops db key) ps)) b) e ->
  wp (zrem_loop db t key (map (zentry db key) ps) num) Q m b e.
Proof.
  intros Hk Hz. revert num b; induction ps as [|p ps IH]; intros num b Hp H0 Hn HQ.
  - cbn [map zrem_loop]. wp_auto. cbn [map concat length] in HQ. by rewrite Z.add_0_r, add_no_ops in HQ.
  - cbn [map zrem_loop zentry]. pose proof (Hp p ltac:(constructor)) as Hpz.
    rewrite zDecodeScoreKey_named by (done || by eapply valid_i64, zp_scores).
    wp_auto. apply (wp_zDelItem db t key _ _ z); [done|]. rewrite Hpz. cbv iota beta. change (1 =? 1) with true. cbv iota.
    cbn [length] in Hn, HQ. wp_auto. rewrite int64_small by (unfold in_i64; lia).
    apply IH; [intros q Hq; apply Hp; by constructor|lia|lia|]. rewrite add_ops_add. cbn [map concat] in HQ.
    by replace (num + 1 + len ps) with (num + Z.of_nat (S (length ps))) by lia.
Qed.

Lemma wp_zRemRange db t key min max offset count z (Q : Z * option error -> _ -> _ -> _ -> Prop) m b e :
  let ps := cut (mkLimit offset count) (zby_score z min max) in
  len key <= MaxKeySize -> well_keyed db m -> zset_rep db m key z -> zcount z < 2 ^ 63 -> in_i64 min -> in_i64 max ->
  Q (len ps, None) m (add_ops t (zremrange_ops db m z key ps) b) e ->
  wp (zRemRange db t key min max offset count) Q m b e.
Proof.
  intros ps Hk Hw Hr Hb Hmin Hmax HQ. assert (Hs : short key) by (unfold short, MaxKeySize in *; lia).
  pose proof Hr as [Hz _]. assert (Hp : forall p, p ∈ ps -> z !! Member p = Some (Score p)).
  { intros p Hp%elem_of_cut. apply list_elem_of_filter in Hp as [_ Hp]. by apply elem_of_zsorted. }
  assert (Hlen : len ps <= zcount z).
  { rewrite <- (zsorted_length z). unfold ps, zby_score, cut. cbn [Offset Count].
    pose proof (length_filter (fun p => min <= Score p <= max) (zsorted z)). destruct (_ <? 0); [simpl; lia|].
    destruct (_ <? 0); rewrite ?length_take, length_drop; lia. }
  unfold zRemRange. rewrite Z.gtb_ltb, (proj2 (Z.ltb_ge _ _)) by lia. unfold zIterator. cbn [negb]. wp_auto.
  rewrite H, (zscore_range_by db m key z) by auto. rewrite cut_map. fold ps.
  apply (wp_zrem_loop db t key ps 0 z); [done|done|done|lia|lia|]. rewrite Z.add_0_l. wp_auto.
  rewrite (int64_small (- len ps)) by (unfold in_i64; lia).
  eapply wp_zIncrSize; [by apply (zset_size db key m z)|unfold in_i64; lia|]. wp_auto. done.
Qed.

Lemma zremrange_rep db key z ps m :
  short key -> zset_rep db m key z -> zcount z < 2 ^ 63 -> NoDup (map Member ps) ->
  (forall p, p ∈ ps -> z !! Member p = Some (Score p)) ->
  zset_rep db (apply_ops (zremrange_ops db m z key ps) m) key (zrem z (map Member ps)) /\
  keeps db ZSetType key m (apply_ops (zremrange_ops db m z key ps) m).
Proof.
  intros Hk [Hz Hs] Hb Hn Hp. assert (Hi : forall p, p ∈ ps -> in_i64 (Score p)) by (intros p Hx; by eapply valid_i64, zp_scores, Hp).
  assert (Hc : zold z (map Member ps) = len ps).
  { clear -Hp. induction ps as [|p ps IH]; [done|]. cbn [map count_old length]. rewrite lookup_fmap, (Hp p) by constructor.
    cbn [fmap option_fmap option_map]. rewrite Nat2Z.inj_add, IH; [lia|]. intros q Hq. apply Hp. by constructor. }
  unfold zremrange_ops. rewrite <- Hc, <- zrem_size by done. split.
  - rewrite apply_ops_app. apply zset_sized; [done|by apply zdrops_parts|]. rewrite zrem_size by done. lia.
  - apply keeps_ops, ops_for_app; [|apply ops_for_zsize]. apply ops_for_concat. intros p Hx. apply ops_for_zdrop; auto.
Qed.

(** Cut ranges of the sorted members have distinct members. *)
Lemma cut_members z min max l :
  NoDup (map Member (cut l (zby_score z min max))) /\
  forall p, p ∈ cut l (zby_score z min max) -> z !! Member p = Some (Score p).
Proof.
  split.
  - assert (HF : NoDup (map Member (zby_score z min max))).
    { unfold zby_score. pose proof (zsorted_NoDup z) as HN. induction (zsorted z) as [|p ps IH]; [constructor|].
      cbn [map] in HN. apply NoDup_cons in HN as [Hp HN]. rewrite filter_cons. case_decide; [|by apply IH]. cbn [map].
      apply NoDup_cons. split; [|by apply IH]. intros (q & Hq & [_ Hin]%list_elem_of_filter)%list_elem_of_fmap.
      apply Hp. rewrite Hq. by apply list_elem_of_fmap_2. }
    unfold cut. destruct (_ <? 0); [constructor|].
    assert (HD : forall n, NoDup (map Member (drop n (zby_score z min max)))).
    { intros n. rewrite <- (take_drop n (zby_score z min max)), map_app in HF. by apply NoDup_app in HF as (_ & _ & HF). }
    destruct (_ <? 0); [apply HD|]. set (n := Z.to_nat (Offset l)). specialize (HD n).
    rewrite <- (take_drop (Z.to_nat (Count l)) (drop n _)), map_app in HD. by apply NoDup_app in HD as [HD _].
  - intros p Hp%elem_of_cut. apply list_elem_of_filter in Hp as [_ Hp]. by apply elem_of_zsorted.
Qed.

Lemma ZRemRangeByScore_exec db key min max z m e :
  len key <= MaxKeySize -> well_keyed db m -> zset_rep db m key z -> zcount z < 2 ^ 63 -> in_i64 min -> in_i64 max ->
  exec (ZRemRangeByScore db key min max) m e (len (zby_score z min max), None)
    (apply_ops (zremrange_ops db m z key (zby_score z min max)) m) e.
Proof.
  intros Hk Hw Hr Hb Hmin Hmax. unfold exec, ZRemRangeByScore. wp_auto. apply (wp_zRemRange db zsetBatch key _ _ _ _ z); [done..|].
  rewrite cut_all. wp_auto. done.
Qed.

Lemma ZClear_exec db key z m e :
  len key <= MaxKeySize -> well_keyed db m -> zset_rep db m key z -> zcount z < 2 ^ 63 ->
  exec (ZClear db key) m e (zcount z, None) (apply_ops (zremrange_ops db m z key (zsorted z)) m) e.
Proof.
  intros Hk Hw Hr Hb. destruct score_bounds_i64. unfold exec, ZClear. wp_auto. apply (wp_zRemRange db zsetBatch key _ _ _ _ z); [done..|].
  rewrite cut_all, (zby_score_all db m key z) by apply Hr. wp_auto. by rewrite zsorted_length.
Qed.

Lemma ZRemRangeByRank_exec db key start stop z m e :
  checkKeySize key = None -> well_keyed db m -> zset_rep db m key z -> zcount z < 2 ^ 61 ->
  - 2 ^ 61 <= start < 2 ^ 61 -> - 2 ^ 61 <= stop < 2 ^ 61 ->
  exec (ZRemRangeByRank db key start stop) m e (len (zslice (zsorted z) start stop), None)
    (apply_ops (zremrange_ops db m z key (zslice (zsorted z) start stop)) m) e.
Proof.
  intros Hk Hw Hr Hb Hs Ht. unfold exec, ZRemRangeByRank. wp_auto. destruct score_bounds_i64.
  apply (zParseLimit_wp db key start stop z (zsorted z)); [done|done|by rewrite zsorted_length|done..|].
  intros offset count HE. wp_auto. apply (wp_zRemRange db zsetBatch key _ _ offset count z);
    [by apply key_le_max|done..|lia|done|done|]. rewrite (zby_score_all db m key z), HE by apply Hr. wp_auto. done.
Qed.

Lemma zrem_all z : zrem z (map Member (zsorted z)) = ∅.
Proof.
  apply map_eq. intros x. rewrite zrem_lookup, lookup_empty. case_decide as Hx; [done|]. destruct (z !! x) as [s|] eqn:E; [|done].
  exfalso. apply Hx. apply list_elem_of_fmap. exists (mkScorePair s x). split; [done|]. by apply elem_of_zsorted.
Qed.

(** ** Unions and intersections *)

(** The pairs [range destMap] visits. *)
Definition zordered (d : gmap bytes Z) : list ScorePair := map (fun x => mkScorePair (default 0 (d !! x)) x) (map_order (dom d)).

Definition zstore_ops db m z key (d : gmap bytes Z) : list BatchOp :=
  zremrange_ops db m z key (zsorted z) ++ zputs_ops db key z (zordered d) ++ [OpPut (zEncodeSizeKey db key) (PutInt64 (zcount d))].

Lemma elem_of_zordered d p : p ∈ zordered d -> d !! Member p = Some (Score p).
Proof using OS.
  intros (x & -> & Hx)%list_elem_of_fmap. rewrite map_order_perm in Hx. apply elem_of_elements, elem_of_dom in Hx as [s Hs].
  simpl. by rewrite Hs.
Qed.

Lemma zordered_members d : map Member (zordered d) = map_order (dom d).
Proof. unfold zordered. rewrite map_map. apply map_id. Qed.

Lemma zadd_lookup z args x :
  NoDup (map Member args) ->
  zadd z args !! x = match list_find (fun p => Member p = x) args with Some (_, p) => Some (Score p) | None => z !! x end.
Proof.
  revert z; induction args as [|p args IH]; intros z Hn; [done|]. cbn [map] in Hn. apply NoDup_cons in Hn as [Hp Hn].
  unfold zadd in *. cbn [fold_left list_find]. rewrite IH by done. case_decide as Hx.
  - subst x. replace (list_find _ args) with (@None (nat * ScorePair)); [apply lookup_insert_eq|]. symmetry.
    apply list_find_None, Forall_forall. intros q Hq Hm. apply Hp. rewrite <- Hm. by apply list_elem_of_fmap_2.
  - destruct (list_find _ args) as [[i q]|]; [done|]. by apply lookup_insert_ne.
Qed.

Lemma zadd_ordered d : zadd ∅ (zordered d) = d.
Proof using OS.
  assert (HN : NoDup (map Member (zordered d))) by (rewrite zordered_members, map_order_perm; apply NoDup_elements).
  apply map_eq. intros x. rewrite zadd_lookup by done. destruct (list_find _ _) as [[i p]|] eqn:E.
  - apply list_find_Some in E as (Hi & <- & _). symmetry. by apply elem_of_zordered, list_elem_of_lookup_2 with i.
  - rewrite lookup_empty. apply list_find_None in E. destruct (d !! x) as [s|] eqn:Ex; [|done]. exfalso.
    rewrite Forall_forall in E. apply (E (mkScorePair s x)); [|done]. apply list_elem_of_fmap. exists x.
    rewrite Ex. split; [done|]. rewrite map_order_perm. apply elem_of_elements, elem_of_dom. by rewrite Ex.
Qed.

(** The result can be stored: sizes and scores are in range. *)
Definition zstorable key (d : gmap bytes Z) : Prop :=
  forall x s, d !! x = Some s -> checkZSetKMSize key x = None /\ valid_score s.

Lemma zstore_exec db key z d m e :
  len key <= MaxKeySize -> well_keyed db m -> zset_rep db m key z -> zcount z < 2 ^ 63 -> zstorable key d ->
  exec (zstore db key d) m e (zcount d, None) (apply_ops (zstore_ops db m z key d) m) e.
Proof using OS BS.
  intros Hk Hw Hr Hb Hd. destruct score_bounds_i64. unfold exec, zstore, zDelete. wp_auto.
  apply (wp_zRemRange db zsetBatch key _ _ _ _ z); [done..|]. rewrite cut_all, (zby_score_all db m key z) by apply Hr. wp_auto.
  apply (wp_for_ret zsetBatch (fun p => zput_ops db key (z !! p.1) p.1 p.2)).
  - intros [x s] b1 Q1 Hx HQ1. apply list_elem_of_fmap in Hx as (x' & [= -> ->] & Hx).
    rewrite map_order_perm in Hx. apply elem_of_elements, elem_of_dom in Hx as [s Hs]. rewrite Hs in *. cbn [default from_option] in *.
    unfold id in *. destruct (Hd _ _ Hs) as [Hc Hv]. rewrite Hc. wp_auto. apply (wp_zSetItem db zsetBatch key _ _ z); [by apply Hr|done|].
    wp_auto. done.
  - wp_auto. unfold zstore_ops, zputs_ops, zordered. rewrite !map_map. cbn [fst snd Member Score]. rewrite !app_assoc. done.
Qed.

(** The stored sorted set, when it is not empty. *)
Lemma zstore_rep db key z d m :
  short key -> zset_rep db m key z -> zcount z < 2 ^ 63 -> zstorable key d -> d <> ∅ ->
  zset_rep db (apply_ops (zstore_ops db m z key d) m) key d /\ keeps db ZSetType key m (apply_ops (zstore_ops db m z key d) m).
Proof using OS.
  intros Hk Hr Hb Hd Hne. pose proof Hr as [Hz _].
  assert (HN : NoDup (map Member (zordered d))) by (rewrite zordered_members, map_order_perm; apply NoDup_elements).
  assert (HV : Forall (fun p => valid_score (Score p)) (zordered d)).
  { apply Forall_forall. intros p Hp%elem_of_zordered. by eapply Hd. }
  assert (Hi : forall x s, z !! x = Some s -> in_i64 s) by (intros x s Hx; by eapply valid_i64, zp_scores).
  assert (HP : forall p, p ∈ zsorted z -> z !! Member p = Some (Score p)) by (intros p Hp; by apply elem_of_zsorted).
  destruct (zremrange_rep db key z (zsorted z) m Hk Hr Hb (zsorted_NoDup z) HP) as [[HR _] HT].
  rewrite zrem_all in HR. unfold zstore_ops. split.
  - rewrite !apply_ops_app. pose proof (zputs_parts db key Hk _ ∅ z (zordered d) HR HV HN) as HZ. rewrite zadd_ordered in HZ.
    destruct HZ as [Z1 Z2 Z3]; [by left|done|]. cbn [apply_ops fold_left apply_op].
    split; [split; [intros x|intros x s Hs|done]|].
    + rewrite lookup_insert_ne; [apply Z1|]. by apply (encode_ne db (ZSize key) (ZMember key x)).
    + rewrite lookup_insert_ne; [by apply Z2|]. by apply (encode_ne db (ZSize key) (ZScoreOf key x s)).
    + rewrite lookup_insert_eq. unfold size_entry. rewrite decide_False by (by intros ?%fmap_empty_iff). by rewrite map_size_fmap.
  - apply keeps_ops, ops_for_app; [|apply ops_for_app].
    + apply ops_for_app; [|apply ops_for_zsize]. apply ops_for_concat. intros p Hp. apply ops_for_zdrop; [done|]. by eapply Hi, HP.
    + apply ops_for_concat. intros p Hp. apply ops_for_zput; [done|eauto|]. rewrite Forall_forall in HV. by apply valid_i64, HV.
    + by apply (ops_for_cons _ _ _ _ _ (ZSize key)); [..|constructor].
Qed.

(** The maps of the two operations, member by member. *)
Lemma fold_pairs_lookup (f : gmap bytes Z -> ScorePair -> gmap bytes Z) (g : bytes -> option Z -> Z -> option Z) (ps : list ScorePair) d x :
  (forall d p, f d p !! Member p = g (Member p) (d !! Member p) (Score p) /\ forall y, y <> Member p -> f d p !! y = d !! y) ->
  NoDup (map Member ps) ->
  fold_left f ps d !! x = match list_find (fun p => Member p = x) ps with Some (_, p) => g x (d !! x) (Score p) | None => d !! x end.
Proof.
  intros Hf. revert d; induction ps as [|p ps IH]; intros d Hn; [done|]. cbn [map] in Hn. apply NoDup_cons in Hn as [Hp Hn].
  cbn [fold_left list_find]. rewrite IH by done. destruct (Hf d p) as [H1 H2]. case_decide as Hx.
  - subst x. replace (list_find _ ps) with (@None (nat * ScorePair)); [done|]. symmetry.
    apply list_find_None, Forall_forall. intros q Hq Hm. apply Hp. rewrite <- Hm. by apply list_elem_of_fmap_2.
  - rewrite H2 by done. by destruct (list_find _ ps) as [[i q]|].
Qed.

Lemma find_sorted z x : list_find (fun p => Member p = x) (zsorted z) = None /\ z !! x = None \/
  exists i s, list_find (fun p => Member p = x) (zsorted z) = Some (i, mkScorePair s x) /\ z !! x = Some s.
Proof.
  destruct (list_find _ _) as [[i p]|] eqn:E.
  - right. apply list_find_Some in E as (Hi & <- & _). apply list_elem_of_lookup_2, elem_of_zsorted in Hi.
    exists i, (Score p). by destruct p.
  - left. split; [done|]. apply list_find_None in E. destruct (z !! x) as [s|] eqn:Ex; [|done]. exfalso.
    rewrite Forall_forall in E. apply (E (mkScorePair s x)); [|done]. by apply elem_of_zsorted.
Qed.

Lemma zunion_lookup f w z d x :
  zunion_pairs f w (zsorted z) d !! x =
  match d !! x, z !! x with
  | None, None => None
  | None, Some s => Some (int64 (s * w))
  | Some a, None => Some a
  | Some a, Some s => Some (f a (int64 (s * w)))
  end.
Proof.
  unfold zunion_pairs.
  rewrite (fold_pairs_lookup _ (fun _ o s => Some (match o with None => int64 (s * w) | Some a => f a (int64 (s * w)) end)));
    [|intros d' p; destruct (d' !! Member p); (split; [apply lookup_insert_eq|intros y Hy; by apply lookup_insert_ne])|apply zsorted_NoDup].
  destruct (find_sorted z x) as [[-> ->]|(i & s & -> & ->)]; by destruct (d !! x).
Qed.

Lemma zinter_lookup f w z d x :
  zinter_pairs f w (zsorted z) d !! x =
  match d !! x, z !! x with Some a, Some s => Some (f a (int64 (s * w))) | _, _ => None end.
Proof.
  unfold zinter_pairs.
  rewrite (fold_pairs_lookup _ (fun x o s => match d !! x with None => o | Some a => Some (f a (int64 (s * w))) end)).
  - rewrite lookup_empty. destruct (find_sorted z x) as [[-> ->]|(i & s & -> & ->)]; by destruct (d !! x).
  - intros d' p. destruct (d !! Member p); [|done]. split; [apply lookup_insert_eq|intros y Hy; by apply lookup_insert_ne].
  - apply zsorted_NoDup.
Qed.

Lemma zinter_first_lookup w z x : zinter_first w (zsorted z) !! x = (fun s => int64 (s * w)) <$> z !! x.
Proof.
  unfold zinter_first. rewrite (fold_pairs_lookup _ (fun _ _ s => Some (int64 (s * w)))).
  - rewrite lookup_empty. by destruct (find_sorted z x) as [[-> ->]|(i & s & -> & ->)].
  - intros d' p. split; [apply lookup_insert_eq|intros y Hy; by apply lookup_insert_ne].
  - apply zsorted_NoDup.
Qed.

Lemma zslice_all {A} (l : list A) : zslice l 0 (-1) = l.
Proof. unfold zslice. cbn [Z.ltb Z.compare]. change (Z.to_nat 0) with 0%nat. rewrite drop_0. apply take_ge. lia. Qed.

(** The sorted sets the source keys hold. *)
Definition zsets_rep db m (keys : list bytes) (zs : list (gmap bytes Z)) : Prop :=
  Forall2 (fun key z => checkKeySize key = None /\ zset_rep db m key z /\ zcount z < 2 ^ 61) keys zs.

Definition zfold (step : Z -> list ScorePair -> gmap bytes Z -> gmap bytes Z) (zs : list (gmap bytes Z * Z)) (d : gmap bytes Z) : gmap bytes Z :=
  fold_left (fun d p => step p.2 (zsorted p.1) d) zs d.

Lemma wp_zsource_loop db (step : Z -> list ScorePair -> gmap bytes Z -> gmap bytes Z) (keys : list bytes) (zs : list (gmap bytes Z))
    (ws : list Z) (d : gmap bytes Z) (Q : gmap bytes Z + error -> _ -> _ -> _ -> Prop) m b e :
  well_keyed db m -> zsets_rep db m keys zs -> Q (inl (zfold step (zip zs ws) d)) m b e ->
  wp (zsource_loop db step (zip keys ws) d) Q m b e.
Proof using BS.
  intros Hw Hs. revert ws d. induction Hs as [|key z keys zs (Hk & Hr & Hb) Hs IH]; intros ws d HQ; [cbn [zip zip_with zsource_loop]; by wp_auto|].
  destruct ws as [|w ws]; [cbn [zip zip_with zsource_loop]; by wp_auto|]. cbn [zip zip_with zsource_loop] in *. wp_auto. unfold ZRange.
  apply (ZRangeGeneric_wp db key 0 (-1) false z); [done..|lia|lia|]. rewrite zslice_all. by apply IH.
Qed.

(** The weights of the sources. *)
Definition zws (srcKeys : list bytes) (weights : option (list Z)) : list Z := default (map (fun _ => 1) srcKeys) weights.

Lemma zweights_ok srcKeys weights :
  (forall ws, weights = Some ws -> len ws = len srcKeys) -> zweights srcKeys weights = inl (zws srcKeys weights).
Proof.
  intros H. unfold zweights, zws. destruct weights as [ws|]; [|done]. by rewrite (H ws), Z.eqb_refl by done.
Qed.

Lemma ZUnionStore_exec db (dest : bytes) (keys : list bytes) (weights : option (list Z)) (agg : Z) (f : Z -> Z -> Z) z (zs : list (gmap bytes Z)) m e :
  let d := zfold (zunion_pairs f) (zip zs (zws keys weights)) ∅ in
  getAggregateFunc agg = Some f -> keys <> [] -> (forall ws, weights = Some ws -> len ws = len keys) ->
  well_keyed db m -> zsets_rep db m keys zs ->
  len dest <= MaxKeySize -> zset_rep db m dest z -> zcount z < 2 ^ 63 -> zstorable dest d ->
  exec (ZUnionStore db dest keys weights agg) m e (zcount d, None) (apply_ops (zstore_ops db m z dest d) m) e.
Proof using OS BS.
  intros d Hf Hne Hws Hw Hs Hk Hr Hb Hd. pose proof (zstore_exec db dest z d m e Hk Hw Hr Hb Hd) as HX. unfold exec in *.
  unfold ZUnionStore. rewrite Hf. destruct (len keys <? 1) eqn:E; zify_bool; [destruct keys; [done|simpl in E; lia]|].
  rewrite zweights_ok by done. wp_auto. apply (wp_zsource_loop db _ keys zs); [done..|]. cbv beta iota. exact HX.
Qed.

Lemma ZInterStore_exec db (dest k0 : bytes) (keys : list bytes) (weights : option (list Z)) (agg : Z) (f : Z -> Z -> Z) z z0 (zs : list (gmap bytes Z)) (w0 : Z) (ws : list Z) m e :
  let d := zfold (zinter_pairs f) (zip zs ws) (zinter_first w0 (zsorted z0)) in
  getAggregateFunc agg = Some f -> (forall ws, weights = Some ws -> len ws = len (k0 :: keys)) ->
  zws (k0 :: keys) weights = w0 :: ws ->
  well_keyed db m -> zsets_rep db m (k0 :: keys) (z0 :: zs) ->
  len dest <= MaxKeySize -> zset_rep db m dest z -> zcount z < 2 ^ 63 -> zstorable dest d ->
  exec (ZInterStore db dest (k0 :: keys) weights agg) m e (zcount d, None) (apply_ops (zstore_ops db m z dest d) m) e.
Proof using OS BS.
  intros d Hf Hws Hw0 Hw [(Hk0 & Hr0 & Hb0) Hs]%Forall2_cons Hk Hr Hb Hd.
  pose proof (zstore_exec db dest z d m e Hk Hw Hr Hb Hd) as HX. unfold exec in *.
  unfold ZInterStore. rewrite Hf, (proj2 (Z.ltb_ge (len (k0 :: keys)) 1)) by (cbn [length]; lia).
  rewrite zweights_ok, Hw0 by done. cbn [zip zip_with]. wp_auto. unfold ZRange.
  apply (ZRangeGeneric_wp db k0 0 (-1) false z0); [done..|lia|lia|]. rewrite zslice_all. wp_auto.
  apply (wp_zsource_loop db _ keys zs); [done..|]. cbv beta iota. exact HX.
Qed.

(** ** Expiration *)

Lemma zExpireAt_exec db key z when m e :
  checkKeySize key = None -> zset_rep db m key z -> z <> ∅ -> zcount z < 2 ^ 63 ->
  exec (zExpireAt db key when) m e (1, None) (apply_ops (expire_ops db ZSetType key when) m) (check_before when e).
Proof.
  intros Hk Hr Hne Hb. unfold exec, zExpireAt. wp_auto. apply (ZCard_wp db key z); [done..|]. cbn [is_err orb].
  rewrite (proj2 (Z.eqb_neq _ 0)); [wp_auto; done|]. intros Hz. apply Hne, map_size_empty_iff. lia.
Qed.

Lemma ZTTL_exec db key m e :
  checkKeySize key = None -> exec (ZTTL db key) m e (ttl_result db m ZSetType key (now e)) m e.
Proof. intros Hk. unfold exec, ZTTL. rewrite Hk. wp_auto. done. Qed.

(** ** Containment *)

Lemma contained_zSetItem db t key s x : contained db (zSetItem db t key s x).
Proof. unfold zSetItem. contained_auto. Qed.
#[local] Hint Resolve contained_zSetItem : ledis.
Lemma contained_zDelItem db t key x skip : contained db (zDelItem db t key x skip).
Proof. unfold zDelItem. contained_auto. Qed.
#[local] Hint Resolve contained_zDelItem : ledis.
Lemma contained_zIncrSize db t key delta : contained db (zIncrSize db t key delta).
Proof. unfold zIncrSize. contained_auto. Qed.
#[local] Hint Resolve contained_zIncrSize : ledis.
Lemma start_stop_score db key min max : in_db db (zEncodeStartScoreKey db key min) /\ in_db db (zEncodeStopScoreKey db key max).
Proof.
  split; [by eexists|]. rewrite zEncodeStopScoreKey_split. unfold score_pre. rewrite <- app_assoc. by eexists.
Qed.
Lemma contained_zrem_loop db t key items num :
  Forall (fun kv => in_db db kv.1) items -> contained db (zrem_loop db t key items num).
Proof.
  intros Hi. revert num; induction Hi as [|[k v] items Hk Hi IH]; intros num; cbn [zrem_loop]; [contained_auto|].
  destruct (zDecodeScoreKey db k) as [[[? x] ?]|]; [|apply IH]. simpl in Hk. contained_auto.
Qed.
Lemma contained_zRemRange db t key min max offset count : contained db (zRemRange db t key min max offset count).
Proof.
  unfold zRemRange, zIterator. cbn [negb]. contained_auto. apply contained_zrem_loop, Forall_forall. intros [k v] Hin.
  destruct (start_stop_score db key min max). simpl. eapply items_in_db; eassumption.
Qed.
#[local] Hint Resolve contained_zRemRange : ledis.
Lemma contained_zDelete db t key : contained db (zDelete db t key).
Proof. unfold zDelete. contained_auto. Qed.
#[local] Hint Resolve contained_zDelete : ledis.
Lemma contained_ZCard db key : contained db (ZCard db key).
Proof. unfold ZCard. contained_auto. Qed.
#[local] Hint Resolve contained_ZCard : ledis.
Lemma contained_zExpireAt db key when : contained db (zExpireAt db key when).
Proof. unfold zExpireAt. contained_auto. Qed.
#[local] Hint Resolve contained_zExpireAt : ledis.
Lemma contained_zadd_loop db key args num : contained db (zadd_loop db key args num).
Proof. revert num; induction args as [|p args IH]; intros num; simpl; contained_auto; auto. Qed.
#[local] Hint Resolve contained_zadd_loop : ledis.
Lemma contained_ZAdd db key args : contained db (ZAdd db key args).
Proof. unfold ZAdd. contained_auto. Qed.
Lemma contained_ZScore db key x : contained db (ZScore db key x).
Proof. unfold ZScore. contained_auto. Qed.
Lemma contained_zremove_loop db key xs num : contained db (zremove_loop db key xs num).
Proof. revert num; induction xs as [|x xs IH]; intros num; simpl; contained_auto; auto. Qed.
#[local] Hint Resolve contained_zremove_loop : ledis.
Lemma contained_ZRem db key xs : contained db (ZRem db key xs).
Proof. unfold ZRem. contained_auto. Qed.
Lemma contained_ZIncrBy db key delta x : contained db (ZIncrBy db key delta x).
Proof. unfold ZIncrBy. contained_auto. Qed.
Lemma contained_ZCount db key min max : contained db (ZCount db key min max).
Proof. unfold ZCount. contained_auto. Qed.
Lemma contained_zrank db key x rev : contained db (zrank db key x rev).
Proof. unfold zrank. contained_auto. Qed.
Lemma contained_zRange db key min max offset count rev : contained db (zRange db key min max offset count rev).
Proof. unfold zRange, zIterator. contained_auto. Qed.
#[local] Hint Resolve contained_zRange : ledis.
Lemma contained_zParseLimit db key start stop : contained db (zParseLimit db key start stop).
Proof. unfold zParseLimit. contained_auto. Qed.
#[local] Hint Resolve contained_zParseLimit : ledis.
Lemma contained_ZRangeGeneric db key start stop rev : contained db (ZRangeGeneric db key start stop rev).
Proof. unfold ZRangeGeneric. contained_auto. Qed.
#[local] Hint Resolve contained_ZRangeGeneric : ledis.
Lemma contained_ZClear db key : contained db (ZClear db key).
Proof. unfold ZClear. contained_auto. Qed.
Lemma contained_ZMclear db keys : contained db (ZMclear db keys).
Proof. unfold ZMclear. contained_auto. Qed.
Lemma contained_ZRemRangeByRank db key start stop : contained db (ZRemRangeByRank db key start stop).
Proof. unfold ZRemRangeByRank. contained_auto. Qed.
Lemma contained_ZRemRangeByScore db key min max : contained db (ZRemRangeByScore db key min max).
Proof. unfold ZRemRangeByScore. contained_auto. Qed.
Lemma contained_ZExpire db key duration : contained db (ZExpire db key duration).
Proof. unfold ZExpire. contained_auto. Qed.
Lemma contained_ZExpireAt db key when : contained db (ZExpireAt db key when).
Proof. unfold ZExpireAt. contained_auto. Qed.
Lemma contained_ZTTL db key : contained db (ZTTL db key).
Proof. unfold ZTTL. contained_auto. Qed.
Lemma contained_ZPersist db key : contained db (ZPersist db key).
Proof. unfold ZPersist. contained_auto. Qed.
Lemma contained_zsource_loop db step srcs d : contained db (zsource_loop db step srcs d).
Proof. revert d; induction srcs as [|[k w] srcs IH]; intros d; simpl; unfold ZRange; contained_auto; auto. Qed.
#[local] Hint Resolve contained_zsource_loop : ledis.
Lemma contained_zstore db dest d : contained db (zstore db dest d).
Proof. unfold zstore. contained_auto. Qed.
#[local] Hint Resolve contained_zstore : ledis.
Lemma contained_ZUnionStore db dest keys ws agg : contained db (ZUnionStore db dest keys ws agg).
Proof. unfold ZUnionStore. contained_auto. Qed.
Lemma contained_ZInterStore db dest keys ws agg : contained db (ZInterStore db dest keys ws agg).
Proof. unfold ZInterStore, ZRange. contained_auto. Qed.
Lemma zlex_in_db db key min max : in_db db (zlex_min db key min) /\ in_db db (zlex_max db key max).
Proof.
  split; [destruct min; by eexists|]. destruct max; [by eexists|]. unfold zlex_max, zEncodeStopSetKey.
  rewrite zEncodeSetKey_split, set_last_snoc. unfold member_pre. rewrite <- app_assoc. by eexists.
Qed.
Lemma contained_ZRangeByLex db key min max rt offset count : contained db (ZRangeByLex db key min max rt offset count).
Proof. unfold ZRangeByLex. contained_auto. Qed.
Lemma contained_ZRemRangeByLex db key min max rt : contained db (ZRemRangeByLex db key min max rt).
Proof.
  unfold ZRemRangeByLex. rewrite bucket_RangeIterator_limit. contained_auto. destruct (zlex_in_db db key min max).
  apply contained_Delete. eapply items_in_db; eassumption.
Qed.
Lemma contained_ZLexCount db key min max rt : contained db (ZLexCount db key min max rt).
Proof. unfold ZLexCount. rewrite bucket_RangeIterator_limit. contained_auto. Qed.
Lemma contained_ZKeyExists db key : contained db (ZKeyExists db key).
Proof. unfold ZKeyExists. contained_auto. Qed.

End Spec.

#[export] Hint Resolve contained_zDelete contained_ZCard contained_zExpireAt contained_ZAdd contained_ZScore contained_ZRem
  contained_ZIncrBy contained_ZCount contained_zrank contained_zRange contained_ZRangeGeneric contained_ZClear contained_ZMclear
  contained_ZRemRangeByRank contained_ZRemRangeByScore contained_ZExpire contained_ZExpireAt contained_ZTTL contained_ZPersist
  contained_ZUnionStore contained_ZInterStore contained_ZRangeByLex contained_ZRemRangeByLex contained_ZLexCount
  contained_ZKeyExists : ledis.

(** * Sorted sets as an abstract data type *)

Inductive zset_op :=
| opZAdd (args : list ScorePair)
| opZRem (members : list bytes)
| opZIncrBy (delta : Z) (member : bytes)
| opZCard
| opZScore (member : bytes)
| opZCount (min max : Z)
| opZRank (member : bytes) (rev : bool)
| opZRange (start stop : Z) (rev : bool)
| opZRangeByScore (min max offset count : Z) (rev : bool)
| opZRemRangeByRank (start stop : Z)
| opZRemRangeByScore (min max : Z)
| opZClear.

Inductive zset_res :=
| zrInt (x : Z * option error)
| zrPairs (x : list ScorePair * option error).

Definition run_zset {B : Backend} (db : DB) (key : bytes) (op : zset_op) : M zset_res :=
  match op with
  | opZAdd args => x ← ZAdd db key args; mret (zrInt x)
  | opZRem members => x ← ZRem db key members; mret (zrInt x)
  | opZIncrBy delta member => x ← ZIncrBy db key delta member; mret (zrInt x)
  | opZCard => x ← ZCard db key; mret (zrInt x)
  | opZScore member => x ← ZScore db key member; mret (zrInt x)
  | opZCount min max => x ← ZCount db key min max; mret (zrInt x)
  | opZRank member rev => x ← (if rev then ZRevRank db key member else ZRank db key member); mret (zrInt x)
  | opZRange start stop rev => x ← (if rev then ZRevRange db key start stop else ZRange db key start stop); mret (zrPairs x)
  | opZRangeByScore min max offset count rev =>
      x ← (if rev then ZRevRangeByScore db key min max offset count else ZRangeByScore db key min max offset count); mret (zrPairs x)
  | opZRemRangeByRank start stop => x ← ZRemRangeByRank db key start stop; mret (zrInt x)
  | opZRemRangeByScore min max => x ← ZRemRangeByScore db key min max; mret (zrInt x)
  | opZClear => x ← ZClear db key; mret (zrInt x)
  end.

(** The position of a member in the order of the scores. *)
Definition zpos (z : gmap bytes Z) (x : bytes) : option nat := fst <$> list_find (fun p => Member p = x) (zsorted z).

Definition in_direction {A} (rev : bool) (l : list A) : list A := if rev then reverse l else l.

(** The operations on a map from members to scores.  [zsorted] is the list of its pairs
    in the order of the scores, then of the members. *)
Definition zset_fn (z : gmap bytes Z) (op : zset_op) : zset_res * gmap bytes Z :=
  match op with
  | opZAdd args => let z' := zadd z args in (zrInt (zcount z' - zcount z, None), z')
  | opZRem members => let z' := zrem z members in (zrInt (zcount z - zcount z', None), z')
  | opZIncrBy delta member =>
      let s := int64 (default 0 (z !! member) + delta) in
      if bool_decide (valid_score s) then (zrInt (s, None), <[member := s]> z)
      else (zrInt (InvalidScore, Some errScoreOverflow), z)
  | opZCard => (zrInt (zcount z, None), z)
  | opZScore member => (zrInt (match z !! member with Some s => (s, None) | None => (InvalidScore, Some ErrScoreMiss) end), z)
  | opZCount min max => (zrInt (len (zby_score z min max), None), z)
  | opZRank member rev =>
      (zrInt (match zpos z member with
              | Some i => if rev then zcount z - 1 - Z.of_nat i else Z.of_nat i
              | None => -1
              end, None), z)
  | opZRange start stop rev => (zrPairs (zslice (in_direction rev (zsorted z)) start stop, None), z)
  | opZRangeByScore min max offset count rev =>
      (zrPairs (cut (mkLimit offset count) (in_direction rev (zby_score z min max)), None), z)
  | opZRemRangeByRank start stop =>
      let ps := zslice (zsorted z) start stop in (zrInt (len ps, None), zrem z (map Member ps))
  | opZRemRangeByScore min max =>
      let ps := zby_score z min max in (zrInt (len ps, None), zrem z (map Member ps))
  | opZClear => (zrInt (zcount z, None), ∅)
  end.

(** Members and scores of the accepted ranges, each member named once, positions and sizes
    far from the ends of their type.  [ZIncrBy] needs an increment that changes the score
    (see [zset_anomalies]). *)
Definition zset_pre (key : bytes) (z : gmap bytes Z) (op : zset_op) : Prop :=
  zcount z < 2 ^ 61 /\
  match op with
  | opZAdd args => args <> [] /\ zargs_ok key args /\ NoDup (map Member args) /\ len args < 2 ^ 61
  | opZRem members =>
      members <> [] /\ Forall (fun x => checkZSetKMSize key x = None) members /\ NoDup members /\ len members < 2 ^ 61
  | opZIncrBy delta member =>
      checkZSetKMSize key member = None /\ z !! member <> Some (int64 (default 0 (z !! member) + delta))
  | opZScore member | opZRank member _ => checkZSetKMSize key member = None
  | opZCount min max | opZRangeByScore min max _ _ _ | opZRemRangeByScore min max => in_i64 min /\ in_i64 max
  | opZRange start stop _ | opZRemRangeByRank start stop => - 2 ^ 61 <= start < 2 ^ 61 /\ - 2 ^ 61 <= stop < 2 ^ 61
  | _ => True
  end.

#[global] Instance zset_container : Container zset_op zset_res (gmap bytes Z) := {|
  ctype := ZSetType;
  run := @run_zset;
  step z op res z' := zset_fn z op = (res, z');
  rep := zset_rep;
  pre := zset_pre;
  empty_val := ∅
|}.

Section Refinement.
Context {B : Backend} {BS : BackendSpec B}.
Implicit Types (db : DB) (key : bytes) (z : gmap bytes Z) (m : gmap bytes bytes) (e : Env).

Definition zgoal db key z (op : zset_op) m (res : zset_res) m' : Prop :=
  exists z', zset_fn z op = (res, z') /\ zset_rep db m' key z' /\ keeps db ZSetType key m m'.

Lemma zset_done db key z z' (op : zset_op) (res : zset_res) m m' :
  zset_fn z op = (res, z') -> zset_rep db m' key z' /\ keeps db ZSetType key m m' -> zgoal db key z op m res m'.
Proof using. unfold zgoal. eauto. Qed.

Lemma zset_update_step db key (op : zset_op) z m e :
  checkKeySize key = None -> zset_pre key z op -> zset_rep db m key z ->
  match op with opZAdd _ | opZRem _ | opZIncrBy _ _ => True | _ => False end ->
  runs (run_zset db key op) m e (fun r m' e' => now e' = now e /\ zgoal db key z op m r m').
Proof using BS.
  intros Hk [Hb Hp] Hr Hop. pose proof (short_key _ Hk) as Hs. pose proof (keeps_refl db ZSetType key m) as HR.
  destruct op as [args|xs|d x| | | | | | | | |]; try done; cbn [run_zset zset_pre] in *; apply runs_map.
  - destruct Hp as (Hne & Ha & Hn & Hl). eapply exec_same; [by apply (ZAdd_exec db key args z); try done; lia|].
    eapply zset_done; [|apply zadd_rep; [done|done| |done|lia]].
    + cbn [zset_fn]. rewrite zadd_size by done. do 3 f_equal. lia.
    + eapply Forall_impl; [exact Ha|]. by intros p [_ ?].
  - destruct Hp as (Hne & Ha & Hn & Hl). eapply exec_same; [by apply (ZRem_exec db key xs z); try done; lia|].
    eapply zset_done; [|apply zremove_rep; [done..|lia]]. cbn [zset_fn]. rewrite zrem_size by done. do 3 f_equal. lia.
  - destruct Hp as (Hx & Hne). destruct (decide (valid_score (int64 (default 0 (z !! x) + d)))) as [Hv|Hv].
    + eapply exec_same; [by apply (ZIncrBy_exec db key d x z); try done; lia|].
      eapply zset_done; [cbn [zset_fn]; by rewrite bool_decide_eq_true_2|].
      split; [apply zincr_rep; done || lia|by apply zincr_keeps].
    + eapply exec_same; [by apply (ZIncrBy_overflow db key d x z); try done; lia|].
      eapply zset_done; [cbn [zset_fn]; by rewrite bool_decide_eq_false_2|done].
Qed.

Lemma zrank_runs db key x (rev : bool) z m e :
  checkZSetKMSize key x = None -> well_keyed db m -> zset_rep db m key z ->
  exec (zrank db key x rev) m e
    (match zpos z x with Some i => if rev then zcount z - 1 - Z.of_nat i else Z.of_nat i | None => -1 end, None) m e.
Proof using BS.
  intros Hx Hw Hr. unfold zpos. destruct (find_sorted z x) as [[-> Hz]|(i & s & E & Hz)]; [by apply (zrank_missing db key x rev z)|].
  rewrite E. cbn [fmap option_fmap option_map fst]. apply list_find_Some in E as (Hi & _ & _). by eapply zrank_exec.
Qed.

Lemma zslice_members z start stop :
  NoDup (map Member (zslice (zsorted z) start stop)) /\
  forall p, p ∈ zslice (zsorted z) start stop -> z !! Member p = Some (Score p).
Proof using.
  unfold zslice. set (a := Z.to_nat _). set (b := Z.to_nat _).
  split; [rewrite <- firstn_map, <- skipn_map; eapply sublist_NoDup; [apply (zsorted_NoDup z)|]|].
  - etrans; [apply sublist_take|apply sublist_drop].
  - intros p Hp. apply elem_of_zsorted. eapply (elem_of_submseteq _ (zsorted z)); [exact Hp|].
    etrans; [apply submseteq_take|apply submseteq_drop].
Qed.

Lemma zby_score_members z min max :
  NoDup (map Member (zby_score z min max)) /\ forall p, p ∈ zby_score z min max -> z !! Member p = Some (Score p).
Proof using. pose proof (cut_members z min max (mkLimit 0 (-1))) as H. by rewrite cut_all in H. Qed.

Lemma zset_run_step db key (op : zset_op) z m e :
  checkKeySize key = None -> zset_pre key z op -> well_keyed db m -> zset_rep db m key z ->
  runs (run_zset db key op) m e (fun r m' e' => now e' = now e /\ zgoal db key z op m r m').
Proof using BS.
  intros Hk Hp Hw Hr. pose proof (short_key _ Hk) as Hs. pose proof (key_le_max _ Hk) as Hm.
  assert (Hread : forall op res, zset_fn z op = (res, z) -> zgoal db key z op m res m).
  { intros op' res E. eapply zset_done; [exact E|]. split; [done|apply keeps_refl]. }
  destruct op as [args|xs|d x| |x|lo hi|x rev|s t rev|lo hi o c rev|s t|lo hi|]; try (by apply zset_update_step);
    destruct Hp as [Hb Hp]; cbn [run_zset zset_pre] in *; apply runs_map.
  - apply (ZCard_wp db key z); [done|done|lia|]. split; [done|]. split; [done|]. by apply Hread.
  - eapply exec_same; [by apply ZScore_exec|]. by apply Hread.
  - destruct Hp. eapply exec_same; [by apply ZCount_exec|]. by apply Hread.
  - assert (E : (if rev then ZRevRank db key x else ZRank db key x) = zrank db key x rev) by (by destruct rev). rewrite E.
    eapply exec_same; [by apply (zrank_runs db key x rev z)|]. by apply Hread.
  - destruct Hp. assert (E : (if rev then ZRevRange db key s t else ZRange db key s t) = ZRangeGeneric db key s t rev) by (by destruct rev).
    rewrite E. apply (ZRangeGeneric_wp db key s t rev z); [done..|]. split; [done|]. split; [done|]. by apply Hread.
  - destruct Hp. assert (E : (if rev then ZRevRangeByScore db key lo hi o c else ZRangeByScore db key lo hi o c) = zRange db key lo hi o c rev)
      by (by destruct rev).
    rewrite E. apply (zRange_wp db key lo hi o c rev z); [done..|]. split; [done|]. split; [done|]. by apply Hread.
  - destruct Hp, (zslice_members z s t). eapply exec_same; [by apply (ZRemRangeByRank_exec db key s t z)|].
    eapply zset_done; [done|]. apply zremrange_rep; [done|done|lia|done..].
  - destruct Hp, (zby_score_members z lo hi). eapply exec_same; [by apply (ZRemRangeByScore_exec db key lo hi z); try done; lia|].
    eapply zset_done; [done|]. apply zremrange_rep; [done|done|lia|done..].
  - eapply exec_same; [by apply (ZClear_exec db key z); try done; lia|]. eapply zset_done; [done|]. rewrite <- (zrem_all z).
    apply zremrange_rep; [done|done|lia|apply zsorted_NoDup|]. intros p Hp'. by apply elem_of_zsorted.
Qed.

End Refinement.

#[global] Instance zset_container_spec : ContainerSpec zset_container.
Proof.
  split.
  - intros db key. change (zset_rep db ∅ key ∅). split; [split|].
    + intros x. by rewrite !lookup_empty.
    + intros x s Hs. by rewrite !lookup_empty.
    + intros x s Hx. by rewrite lookup_empty in Hx.
    + unfold size_entry. rewrite decide_True by (by rewrite fmap_empty). apply lookup_empty.
  - intros db key T' key' m m' z Hk Hne HT Hz. by eapply (zset_rep_frame db key (short_key _ Hk)).
  - intros B BS db key op z m e. apply zset_run_step.
Qed.

(** * Properties *)

(** C2: sorted sets.  Any sequence of additions, removals, increments, rank and score
    queries, range reads and range removals on a key of a store that holds a sorted set
    there returns what the operations on a map from members to scores return (ranges in
    the order of the scores, then of the members; from either end), leaves a store that
    holds the resulting map, with member entries, score index and size in agreement, and
    touches no other key. *)
Theorem zset_refines {B : Backend} {BS : BackendSpec B} (db : DB) (key : bytes) (ops : list zset_op) (z : gmap bytes Z)
    (m : gmap bytes bytes) (e : Env) :
  checkKeySize key = None -> allowed key z ops -> well_keyed db m -> zset_rep db m key z ->
  runs (run_all db key ops) m e (fun rs m' _ =>
    exists z', steps z ops rs z' /\ zset_rep db m' key z' /\ keeps db ZSetType key m m').
Proof. apply (run_all_refines (C := zset_container)). Qed.

(** The order of a sorted set.  The pairs [ZRange] walks through ([zsorted]) are
    exactly the members with their scores, each once, strictly increasing in (score,
    member), and the key order of the score index in the store is that order, for negative
    and positive scores. *)
Lemma zset_order (db : DB) (key : bytes) (z : gmap bytes Z) (m : gmap bytes bytes) :
  short key -> well_keyed db m -> zset_rep db m key z ->
  StronglySorted pair_lt (zsorted z) /\ NoDup (map Member (zsorted z)) /\
  (forall p, p ∈ zsorted z <-> z !! Member p = Some (Score p)) /\
  range_entries m (mkRange (Some (zEncodeStartScoreKey db key MinScore)) (Some (zEncodeStopScoreKey db key MaxScore)) RangeClose)
  = map (fun p => (zEncodeScoreKey db key (Member p) (Score p), [])) (zsorted z).
Proof.
  intros Hk Hw [Hz _]. destruct score_bounds_i64. split; [apply zsorted_sorted|]. split; [apply zsorted_NoDup|].
  split; [apply elem_of_zsorted|]. rewrite (zscore_range_by db m key z) by auto. by rewrite (zby_score_all db m key z).
Qed.

(** ** Unions and intersections of sorted sets *)

(** The weighted score of a member in each source. *)
Definition weighted (zs : list (gmap bytes Z * Z)) (x : bytes) : list (option Z) :=
  map (fun p => (fun s => int64 (s * p.2)) <$> p.1 !! x) zs.

(** A member of the union has the aggregate of its scores in the sources that have it; a
    member of the intersection is in all of them. *)
Definition agg_union (f : Z -> Z -> Z) : list (option Z) -> option Z -> option Z :=
  fold_left (fun acc o => match acc, o with Some a, Some s => Some (f a s) | Some a, None => Some a | None, _ => o end).

Definition agg_inter (f : Z -> Z -> Z) : list (option Z) -> option Z -> option Z :=
  fold_left (fun acc o => match acc, o with Some a, Some s => Some (f a s) | _, _ => None end).

Lemma zfold_union_lookup (f : Z -> Z -> Z) (zs : list (gmap bytes Z * Z)) (d : gmap bytes Z) (x : bytes) :
  zfold (zunion_pairs f) zs d !! x = agg_union f (weighted zs x) (d !! x).
Proof.
  revert d; induction zs as [|[z w] zs IH]; intros d; [done|]. unfold zfold, weighted, agg_union in *. cbn [fold_left map fst snd].
  rewrite IH, zunion_lookup. f_equal. by destruct (d !! x), (z !! x).
Qed.

Lemma zfold_inter_lookup (f : Z -> Z -> Z) (zs : list (gmap bytes Z * Z)) (d : gmap bytes Z) (x : bytes) :
  zfold (zinter_pairs f) zs d !! x = agg_inter f (weighted zs x) (d !! x).
Proof.
  revert d; induction zs as [|[z w] zs IH]; intros d; [done|]. unfold zfold, weighted, agg_inter in *. cbn [fold_left map fst snd].
  rewrite IH, zinter_lookup. f_equal. by destruct (d !! x), (z !! x).
Qed.

(** [ZUnionStore] and [ZInterStore].  With a result that is not empty and scores in
    range, whatever order a Go map is iterated in, the destination is replaced by the
    sorted set of the members of some (of all) sources, with the aggregate of their
    weighted 64 bit scores, the size is returned, and no other key is touched. *)
Lemma zset_store {B : Backend} {BS : BackendSpec B} {O : MapOrder} {OS : MapOrderSpec O} (db : DB) (dest k0 : bytes)
    (keys : list bytes) (weights : option (list Z)) (agg : Z) (f : Z -> Z -> Z) (z z0 : gmap bytes Z)
    (zs : list (gmap bytes Z)) (w0 : Z) (ws : list Z) (m : gmap bytes bytes) (e : Env) :
  getAggregateFunc agg = Some f -> (forall ws, weights = Some ws -> len ws = len (k0 :: keys)) ->
  zws (k0 :: keys) weights = w0 :: ws -> well_keyed db m -> zsets_rep db m (k0 :: keys) (z0 :: zs) ->
  checkKeySize dest = None -> zset_rep db m dest z -> zcount z < 2 ^ 63 ->
  let stored p (d : gmap bytes Z) := zstorable dest d -> d <> ∅ -> runs p m e (fun res m' e' =>
    res = (zcount d, None) /\ zset_rep db m' dest d /\ keeps db ZSetType dest m m' /\ e' = e) in
  (exists d, (forall x, d !! x = agg_union f (weighted (zip (z0 :: zs) (w0 :: ws)) x) None) /\
    stored (ZUnionStore db dest (k0 :: keys) weights agg) d) /\
  (exists d, (forall x, d !! x = agg_inter f (weighted (zip zs ws) x) ((fun s => int64 (s * w0)) <$> z0 !! x)) /\
    stored (ZInterStore db dest (k0 :: keys) weights agg) d).
Proof.
  intros Hf Hlw Hws Hw Hzs Hk Hz Hb stored. pose proof (key_le_max _ Hk) as Hm. pose proof (short_key _ Hk) as Hs. split.
  - exists (zfold (zunion_pairs f) (zip (z0 :: zs) (w0 :: ws)) ∅). split; [intros x; apply zfold_union_lookup|]. rewrite <- Hws.
    intros Hst Hne. eapply exec_runs; [by apply (ZUnionStore_exec db dest (k0 :: keys) weights agg f z (z0 :: zs))|].
    split; [done|]. destruct (zstore_rep db dest z _ m Hs Hz Hb Hst Hne) as [H1 H2]. by rewrite Hws in *.
  - exists (zfold (zinter_pairs f) (zip zs ws) (zinter_first w0 (zsorted z0))).
    split; [intros x; by rewrite zfold_inter_lookup, zinter_first_lookup|].
    intros Hst Hne. eapply exec_runs; [by apply (ZInterStore_exec db dest k0 keys weights agg f z z0 zs w0 ws)|].
    split; [done|]. by destruct (zstore_rep db dest z _ m Hs Hz Hb Hst Hne).
Qed.


(** ** Examples *)

Definition ex_pairs : list ScorePair := [mkScorePair 5 [97]; mkScorePair (-3) [98]].

Definition ex_zset : gmap bytes bytes := apply_ops (zadd_ops db0 ∅ ∅ [107] ex_pairs) ∅.

Lemma ex_zset_made : zset_rep db0 ex_zset [107] (zadd ∅ ex_pairs) /\ keeps db0 ZSetType [107] ∅ ex_zset.
Proof.
  apply zadd_rep; [done|apply (rep_empty (C := zset_container) db0 [107])|by repeat constructor| |done].
  apply (bool_decide_unpack (NoDup [[97]; [98]])). by vm_compute.
Qed.

Lemma ex_zset_keyed : well_keyed db0 ex_zset.
Proof. apply ex_zset_made, well_keyed_empty. Qed.

Lemma ex_zset_other : zset_rep db0 ex_zset [108] ∅.
Proof.
  apply (rep_frame (C := zset_container) db0 [108] ZSetType [107] ∅); [done|by right|apply ex_zset_made|].
  apply (rep_empty (C := zset_container) db0 [108]).
Qed.

Lemma ex_zsets : zsets_rep db0 ex_zset [[107]; [107]] [zadd ∅ ex_pairs; zadd ∅ ex_pairs].
Proof. repeat (apply Forall2_cons_2; [split; [done|split; [apply ex_zset_made|done]]|]). by apply Forall2_nil_2. Qed.

Lemma zset_refines_witness :
  runs (B := MemBackend) (run_all db0 [107] [opZRange 0 (-1) false; opZIncrBy 10 [98]; opZRank [98] false; opZRemRangeByScore 0 6; opZCard])
    ex_zset env0
    (fun rs m' _ => rs = [zrPairs ([mkScorePair (-3) [98]; mkScorePair 5 [97]], None); zrInt (7, None); zrInt (1, None);
                          zrInt (1, None); zrInt (1, None)]).
Proof.
  eapply wp_mono.
  - apply (zset_refines (B := MemBackend) db0 [107]
      [opZRange 0 (-1) false; opZIncrBy 10 [98]; opZRank [98] false; opZRemRangeByScore 0 6; opZCard] (zadd ∅ ex_pairs) ex_zset env0
      eq_refl); [|exact ex_zset_keyed|apply ex_zset_made].
    split; [split; [done|lia]|]. intros ? z1 E%(f_equal snd). cbn [snd zset_fn] in E. subst z1.
    split; [split; [done|split; [done|vm_compute; congruence]]|]. intros ? z2 E%(f_equal snd). vm_compute in E. subst z2.
    split; [done|]. intros ? z3 E%(f_equal snd). cbn [snd zset_fn] in E. subst z3.
    split; [split; [done|unfold in_i64; lia]|]. intros ? z4 E%(f_equal snd). vm_compute in E. subst z4. by split.
  - intros rs m' b' e' (-> & z' & Hs & _). split; [done|]. apply (steps_fn zset_container zset_fn) in Hs; [|done].
    vm_compute in Hs. congruence.
Defined.

Lemma zset_order_witness : map Member (zsorted (zadd ∅ ex_pairs)) = [[98]; [97]] /\ NoDup (map Member (zsorted (zadd ∅ ex_pairs))).
Proof.
  split; [vm_compute; reflexivity|].
  exact (proj1 (proj2 (zset_order db0 [107] (zadd ∅ ex_pairs) ex_zset ltac:(done) ex_zset_keyed (proj1 ex_zset_made)))).
Defined.

Lemma zset_store_witness :
  exists d : gmap bytes Z, d !! [97] = Some 10 /\
  runs (B := MemBackend) (ZUnionStore db0 [108] [[107]; [107]] None AggregateSum) ex_zset env0 (fun res _ _ => res = (zcount d, None)).
Proof.
  destruct (zset_store (B := MemBackend) db0 [108] [107] [[107]] None AggregateSum (fun a b => int64 (a + b)) ∅ (zadd ∅ ex_pairs)
    [zadd ∅ ex_pairs] 1 [1] ex_zset env0 eq_refl ltac:(done) eq_refl ex_zset_keyed ex_zsets eq_refl ex_zset_other ltac:(done))
    as [(d & Hd & HS) _].
  assert (Ha : d !! [97] = Some 10) by (rewrite Hd; vm_compute; reflexivity).
  exists d. split; [exact Ha|]. eapply wp_mono; [apply HS|].
  - intros x s Hx. rewrite Hd in Hx. destruct (decide (x = [97])) as [->|N1]; [vm_compute in Hx; injection Hx as <-; done|].
    destruct (decide (x = [98])) as [->|N2]; [vm_compute in Hx; injection Hx as <-; done|]. exfalso. revert Hx.
    unfold weighted, agg_union, zadd, ex_pairs. cbn [zip zip_with map fst snd fold_left Member Score].
    rewrite !lookup_insert_ne, lookup_empty by congruence. discriminate.
  - intros E. rewrite E, lookup_empty in Ha. discriminate.
  - intros res m' b' e' (-> & -> & _). done.
Defined.
