(* ===== verification/Migrate.v ===== *)
(** * Dump and restore of single keys (src/ledis/migrate.go)

    A key of each data type is dumped in the format of Redis, by the third party package
    rdb, and restored.  What is restored is what was dumped; scores, which are 64 bit
    integers here and floats in the format, survive if they have at most 53 bits. *)

From S2P Require Import Prelude Float Driver Store Keys Util Core Frame Refine Coll KV TList THash TSet TZSet.

(** The objects of the package rdb; [ROther] is an object of any other type. *)
Inductive rdb_object :=
  | RString (v : bytes)
  | RHash (v : list (bytes * bytes))
  | RList (v : list bytes)
  | RZSet (v : list (bytes * float64))
  | RSet (v : list bytes)
  | ROther.

Class Rdb := {
  rdb_Dump : rdb_object -> bytes + error;
  rdb_DecodeDump : bytes -> rdb_object + error
}.

(** Decoding gives back what was dumped. *)
Class RdbSpec (R : Rdb) := {
  rdb_roundtrip o : o <> ROther -> exists data, rdb_Dump o = inl data /\ rdb_DecodeDump data = inl o
}.

Section Ops.
Context {B : Backend} {R : Rdb} {V : Int64Overflow}.
Implicit Types (db : DB) (key : bytes).

(** [return rdb.Dump(o)] *)
Definition dump_object (o : rdb_object) : option bytes * option error :=
  match rdb_Dump o with inl data => (Some data, None) | inr err => (None, Some err) end.

Definition Dump_ db key : M (option bytes * option error) :=
  '(v, err) ← Get db key;
  mret (match err with
        | Some err => (None, Some err)
        | None => match v with None => (None, None) | Some v => dump_object (RString v) end
        end).

Definition LDump db key : M (option bytes * option error) :=
  '(v, err) ← LRange db key 0 (-1);
  mret (match err with
        | Some err => (None, Some err)
        | None => match default [] v with [] => (None, None) | v => dump_object (RList v) end
        end).

Definition HDump db key : M (option bytes * option error) :=
  '(v, err) ← HGetAll db key;
  mret (match err with
        | Some err => (None, Some err)
        | None => match default [] v with [] => (None, None) | v => dump_object (RHash v) end
        end).

Definition SDump db key : M (option bytes * option error) :=
  '(v, err) ← SMembers db key;
  mret (match err with
        | Some err => (None, Some err)
        | None => match v with [] => (None, None) | v => dump_object (RSet v) end
        end).

Definition ZDump db key : M (option bytes * option error) :=
  '(v, err) ← ZRangeByScore db key MinScore MaxScore 0 (-1);
  mret (match err with
        | Some err => (None, Some err)
        | None =>
            match v with
            | [] => (None, None)
            | v => dump_object (RZSet (map (fun p => (Member p, float64_of_int64 (Score p))) v))
            end
        end).

(** The time to live in seconds, at least one. *)
Definition restore_ttl (ttl : Z) : Z :=
  if ttl >? 0 then (let ttl := Z.quot ttl 1000 in if ttl =? 0 then 1 else ttl) else ttl.

(** [if ttl > 0 { if _, err = db.Expire(key, ttl); err != nil { return err } }] *)
Definition restore_expire (ttl : Z) (expire : Z -> M (Z * option error)) : M (option error) :=
  if ttl >? 0 then '(_, err) ← expire ttl; mret err else mret None.

Definition Restore db key (ttl : Z) (data : bytes) : M (option error) :=
  match rdb_DecodeDump data with
  | inr err => mret (Some err)
  | inl d =>
      let ttl := restore_ttl ttl in
      match d with
      | RString value =>
          '(_, err) ← Del db [key];
          match err with
          | Some err => mret (Some err)
          | None =>
              err ← Set_ db key value;
              match err with
              | Some err => mret (Some err)
              | None => restore_expire ttl (Expire db key)
              end
          end
      | RHash value =>
          '(_, err) ← HClear db key;
          match err with
          | Some err => mret (Some err)
          | None =>
              err ← HMset db key value;
              match err with
              | Some err => mret (Some err)
              | None => restore_expire ttl (HExpire db key)
              end
          end
      | RList value =>
          '(_, err) ← LClear db key;
          match err with
          | Some err => mret (Some err)
          | None =>
              '(_, err) ← RPush db key value;
              match err with
              | Some err => mret (Some err)
              | None => restore_expire ttl (LExpire db key)
              end
          end
      | RZSet value =>
          '(_, err) ← ZClear db key;
          match err with
          | Some err => mret (Some err)
          | None =>
              '(_, err) ← ZAdd db key (map (fun p => mkScorePair (int64_of_float64 p.2) p.1) value);
              match err with
              | Some err => mret (Some err)
              | None => restore_expire ttl (ZExpire db key)
              end
          end
      | RSet value =>
          '(_, err) ← SClear db key;
          match err with
          | Some err => mret (Some err)
          | None =>
              '(_, err) ← SAdd db key value;
              match err with
              | Some err => mret (Some err)
              | None => restore_expire ttl (SExpire db key)
              end
          end
      | ROther => mret (Some (errorf "invalid data type"))
      end
  end.

End Ops.

(** * What is restored *)

Lemma insert_all_map {V} (l : list (bytes * V)) : NoDup l.*1 -> insert_all ∅ l = list_to_map l.
Proof.
  unfold insert_all. induction l as [|p l IH] using rev_ind; [done|]. rewrite fmap_app, NoDup_app. intros (H1 & H2 & _).
  rewrite fold_left_app, IH by done. cbn [fold_left]. rewrite list_to_map_app. apply map_eq. intros k. destruct (decide (p.1 = k)) as [<-|Hne].
  - rewrite lookup_insert_eq, lookup_union. rewrite (not_elem_of_list_to_map_1 l p.1); [|intros Hin; apply (H2 _ Hin); by constructor].
    destruct p as [k v]. cbn. by rewrite lookup_insert_eq.
  - rewrite lookup_insert_ne, lookup_union by done. destruct p as [k' v]. cbn in *. rewrite lookup_insert_ne, lookup_empty by done. by rewrite (right_id _ _).
Qed.

Lemma insert_sorted_entries (h : gmap bytes bytes) : insert_all ∅ (sorted_entries h) = h.
Proof.
  rewrite insert_all_map by apply sorted_entries_keys_nodup. rewrite (list_to_map_proper _ (map_to_list h)); [apply list_to_map_to_list|apply sorted_entries_keys_nodup|].
  apply sorted_entries_perm.
Qed.

Lemma zadd_sorted (z : gmap bytes Z) : zadd ∅ (zsorted z) = z.
Proof.
  assert (E : forall l z, zadd z l = insert_all z (map (fun p => (Member p, Score p)) l)).
  { unfold zadd, insert_all. intros l. induction l as [|p l IH]; intros z'; [done|]. cbn [fold_left map]. by rewrite IH. }
  rewrite E, insert_all_map.
  - apply map_eq. intros x. apply option_eq. intros s. rewrite <- elem_of_list_to_map.
    + rewrite list_elem_of_fmap. split.
      * intros ([s' x'] & [= -> ->] & Hp). by apply elem_of_zsorted in Hp.
      * intros Hz. exists (mkScorePair s x). split; [done|]. by apply elem_of_zsorted.
    + change (NoDup (map fst (map (fun p => (Member p, Score p)) (zsorted z)))). rewrite map_map. apply zsorted_NoDup.
  - change (NoDup (map fst (map (fun p => (Member p, Score p)) (zsorted z)))). rewrite map_map. apply zsorted_NoDup.
Qed.

Section Spec.
Context {B : Backend} {BS : BackendSpec B} {R : Rdb} {RS : RdbSpec R} {V : Int64Overflow}.
Implicit Types (db : DB) (key : bytes) (m : gmap bytes bytes) (e : Env).

(** The result of a program that only wraps the result of another one. *)
Lemma runs_unmap {A C} (p : M A) (f : A -> C) m e (Q : C -> gmap bytes bytes -> Env -> Prop) :
  runs (x ← p; mret (f x)) m e Q -> runs p m e (fun x m' e' => Q (f x) m' e').
Proof using.
  intros Hp st Hst. destruct (Hp st Hst) as (c & st1 & m1 & b1 & e1 & E & Hst1 & HQ). unfold mbind, M_bind in E.
  destruct (p st) as [[x|] st']; [|done]. injection E as <- <-. by exists x, st', m1, b1, e1.
Qed.

(** [m'] differs from [m] in expiration entries only. *)
Definition same_data db m m' : Prop := forall k, representable k -> is_exp k = false -> m' !! encode db k = m !! encode db k.

Lemma list_rep_same db key m m' l : short key -> same_data db m m' -> list_rep db m key l -> list_rep db m' key l.
Proof using.
  intros Hk Hs [hd [H1 H2 H3 H4]]. exists hd. split; [done|done| |].
  - rewrite <- H3. by apply (Hs (LMeta key)).
  - intros s Hs'. rewrite <- H4 by done. by apply (Hs (LItem key s)).
Qed.

Lemma hash_rep_same db key m m' h : short key -> same_data db m m' -> hash_rep db m key h -> hash_rep db m' key h.
Proof using. intros Hk Hs [H1 H2]. split; [intros f; rewrite <- H1|rewrite <- H2]; by apply Hs. Qed.

Lemma set_rep_same db key m m' X : short key -> same_data db m m' -> set_rep db m key X -> set_rep db m' key X.
Proof using. intros Hk Hs [H1 H2]. split; [intros f; rewrite <- H1|rewrite <- H2]; by apply Hs. Qed.

Lemma zset_rep_same db key m m' z : short key -> same_data db m m' -> zset_rep db m key z -> zset_rep db m' key z.
Proof using.
  intros Hk Hs [[H1 H2 H3] H4]. split; [split|].
  - intros x. rewrite <- H1. by apply (Hs (ZMember key x)).
  - intros x s Hi. rewrite <- H2 by done. by apply (Hs (ZScoreOf key x s)).
  - done.
  - rewrite <- H4. by apply (Hs (ZSize key)).
Qed.

(** The key expires [ttl] seconds after the clock of [e], if [ttl] is positive. *)
Definition expires_in db (T : Z) key (ttl : Z) e m : Prop :=
  0 < ttl -> m !! expEncodeMetaKey db T key = Some (PutInt64 (int64 (now e + ttl))).

Lemma restore_expire_runs db T key ttl (expire : Z -> M (Z * option error)) m e :
  short key ->
  (forall t, 0 < t -> exec (expire t) m e (1, None) (apply_ops (expire_ops db T key (int64 (now e + t))) m) (check_before (int64 (now e + t)) e)) ->
  runs (restore_expire ttl expire) m e (fun err m' _ => err = None /\ same_data db m m' /\ touches db T key m m' /\ expires_in db T key ttl e m').
Proof using BS.
  intros Hk He. unfold restore_expire. destruct (ttl >? 0) eqn:E; zify_bool.
  - eapply runs_bind; [by apply He|]. apply wp_ret. split; [done|]. split; [done|]. split; [|split].
    + intros k Hr Hx. cbn [expire_ops apply_ops fold_left apply_op]. rewrite !lookup_insert_ne; [done| |].
      * apply (encode_ne db (ExpTime T key (int64 (now e + ttl))) k); [apply int64_range|done|]. by intros <-.
      * apply (encode_ne db (ExpMeta T key) k); [done..|]. by intros <-.
    + apply touches_expire, int64_range.
    + intros _. cbn [expire_ops apply_ops fold_left apply_op]. by rewrite lookup_insert_eq.
  - apply wp_ret. split; [done|]. split; [done|]. split; [by intros k|]. split; [apply touches_refl|]. unfold expires_in. lia.
Qed.

(** One operation of a container, without the constructor around its result. *)
Lemma step_runs {Op Res Val} (C : Container Op Res Val) {CS : ContainerSpec C} {A} db key (op : Op) (p : M A) (f : A -> Res) (a : Val) m e :
  run db key op = (x ← p; mret (f x)) -> checkKeySize key = None -> pre key a op -> well_keyed db m -> rep db m key a ->
  runs p m e (fun x m' e' => now e' = now e /\ exists a', step a op (f x) a' /\ rep db m' key a' /\ keeps db ctype key m m').
Proof using BS.
  intros E Hk Hp Hw Ha. apply (runs_unmap p f m e (fun r m' e' => now e' = now e /\ exists a', step a op r a' /\ rep db m' key a' /\ keeps db ctype key m m')).
  rewrite <- E. by apply run_step.
Qed.

(** [m'] comes from [m] by restoring the key: its other entries are as before, and it expires
    after [ttl] milliseconds, as whole seconds and at least one. *)
Definition restored db (T : Z) key (ttl : Z) e m m' : Prop :=
  touches db T key m m' /\ (0 < ttl -> expires_in db T key (Z.max 1 (ttl / 1000)) e m').

Lemma restore_ttl_seconds (ttl : Z) : 0 < ttl -> restore_ttl ttl = Z.max 1 (ttl / 1000).
Proof using.
  intros H. unfold restore_ttl. rewrite Z.gtb_ltb, (proj2 (Z.ltb_lt _ _)) by done. rewrite Z.quot_div_nonneg by lia. cbv zeta.
  pose proof (Z.div_pos ttl 1000). case_match; zify_bool; lia.
Qed.

(** The expiration after the value [P] has been written to [m2]. *)
Lemma restore_finish db (T : Z) key (ttl : Z) (expire : Z -> M (Z * option error)) (P : gmap bytes bytes -> Prop) m m2 e e2 :
  short key -> (forall m', same_data db m2 m' -> P m2 -> P m') -> P m2 -> touches db T key m m2 -> now e2 = now e ->
  (forall t, 0 < t -> exec (expire t) m2 e2 (1, None) (apply_ops (expire_ops db T key (int64 (now e2 + t))) m2) (check_before (int64 (now e2 + t)) e2)) ->
  runs (restore_expire (restore_ttl ttl) expire) m2 e2 (fun err m' _ => err = None /\ P m' /\ restored db T key ttl e m m').
Proof using BS.
  intros Hs HP H2 HT Hn He. eapply wp_mono; [by apply (restore_expire_runs db T key)|].
  intros err m' b' e' (-> & -> & Hsame & T3 & Hx). split; [done|]. split; [done|]. split; [by apply HP|]. split; [by eapply touches_trans|].
  intros Ht. rewrite restore_ttl_seconds in Hx by done. unfold expires_in in *. by rewrite <- Hn.
Qed.

Lemma restore_string db key (ttl : Z) (data : bytes) v m e :
  rdb_DecodeDump data = inl (RString v) -> checkKeySize key = None -> checkValueSize v = None ->
  runs (Restore db key ttl data) m e (fun err m' _ => err = None /\ m' !! encodeKVKey db key = Some v /\ restored db KVType key ttl e m m').
Proof using BS.
  intros Ed Hk Hv. pose proof (short_key _ Hk) as Hs. unfold Restore. rewrite Ed. cbv zeta.
  eapply runs_bind; [apply Del_exec|]. cbv iota beta. eapply runs_bind; [by apply Set_exec|]. cbv iota beta.
  destruct (del_keeps db key m) as [[T1 _] _]. set (m1 := apply_ops _ m) in *. destruct (kv_put_keeps db key v m1) as [T2 _].
  apply (restore_finish db KVType key ttl _ (fun m' => m' !! encodeKVKey db key = Some v)); [done| |apply lookup_insert_eq|by eapply touches_trans|done|].
  - intros m' Hsame <-. by apply (Hsame (KV key)).
  - intros t Ht. eapply Expire_exec; [done|done|apply lookup_insert_eq].
Qed.

Lemma restore_list db key (ttl : Z) (data : bytes) l l0 m e :
  rdb_DecodeDump data = inl (RList l) -> checkKeySize key = None -> well_keyed db m -> list_rep db m key l0 ->
  l <> [] -> listInitialSeq + len l - 1 < listMaxSeq ->
  runs (Restore db key ttl data) m e (fun err m' _ => err = None /\ list_rep db m' key l /\ restored db ListType key ttl e m m').
Proof using BS.
  intros Ed Hk Hw Hl0 Hne Hlen. pose proof (short_key _ Hk) as Hs. unfold Restore. rewrite Ed. cbv zeta.
  apply wp_bind. eapply wp_mono; [by apply (step_runs list_container db key opLClear (LClear db key) lrInt l0 m e)|].
  intros [n err] m1 b1 e1 (-> & Hn1 & a1 & [[= -> ->] ->] & [hd Hl1] & [T1 _]). cbv iota beta.
  pose proof (la_empty _ _ _ _ _ Hl1 eq_refl) as ->.
  apply wp_bind. eapply wp_mono; [apply (RPush_runs db key l listInitialSeq [] m1 e1 Hk Hl1 Hne); assert (0 < listInitialSeq) by done; assert (listMaxSeq < 2 ^ 31) by done; lia|].
  intros [n' err] m2 b2 e2 (-> & HQ). rewrite (proj2 (Z.ltb_lt _ _)) in HQ by (cbn [length]; lia).
  destruct HQ as ([= -> ->] & Hl2 & [T2 _] & ->). cbv iota beta. cbn [app] in Hl2.
  apply (restore_finish db ListType key ttl _ (fun m' => list_rep db m' key l)); [done|intros m' Hsame; by apply list_rep_same|by eexists|by eapply touches_trans|by rewrite signal_now|].
  intros t Ht. unfold LExpire. rewrite (proj2 (Z.leb_gt _ _)) by lia. apply wp_bind. apply wp_time_now. by eapply lExpireAt_exec.
Qed.

Lemma restore_hash db key (ttl : Z) (data : bytes) h h0 m e :
  rdb_DecodeDump data = inl (RHash (sorted_entries h)) -> checkKeySize key = None -> well_keyed db m -> hash_rep db m key h0 ->
  h <> ∅ -> Z.of_nat (size h) < 2 ^ 62 -> Z.of_nat (size h0) < 2 ^ 62 -> hargs_ok key (sorted_entries h) ->
  runs (Restore db key ttl data) m e (fun err m' _ => err = None /\ hash_rep db m' key h /\ restored db HashType key ttl e m m').
Proof using BS.
  intros Ed Hk Hw Hh0 Hne Hlen Hlen0 Hargs. pose proof (short_key _ Hk) as Hs. unfold Restore. rewrite Ed. cbv zeta.
  apply wp_bind. eapply wp_mono; [by apply (step_runs hash_container db key opHClear (HClear db key) hrInt h0 m e)|].
  intros [n err] m1 b1 e1 (-> & Hn1 & a1 & [= <- <- <-] & Hh1 & [T1 _]). cbv iota beta.
  apply wp_bind. eapply wp_mono; [apply (step_runs hash_container db key (opHMset (sorted_entries h)) (HMset db key (sorted_entries h)) hrErr ∅ m1 e1)|]; [done|done| |by apply T1|done|].
  { split; [done|]. split; [done|]. split; [apply sorted_entries_keys_nodup|]. rewrite sorted_entries_length. done. }
  intros err m2 b2 e2 (-> & Hn2 & a2 & [= <- <-] & Hh2 & [T2 _]). cbv iota beta. rewrite insert_sorted_entries in Hh2.
  apply (restore_finish db HashType key ttl _ (fun m' => hash_rep db m' key h)); [done|intros m' Hsame; by apply hash_rep_same|exact Hh2|by eapply touches_trans|congruence|].
  intros t Ht. unfold HExpire. rewrite (proj2 (Z.leb_gt _ _)) by lia. apply wp_bind. apply wp_time_now. eapply hExpireAt_exec; [done|exact Hh2|done|lia].
Qed.

Lemma restore_set db key (ttl : Z) (data : bytes) (X X0 : gset bytes) m e :
  rdb_DecodeDump data = inl (RSet (smembers X)) -> checkKeySize key = None -> well_keyed db m -> set_rep db m key X0 ->
  X <> ∅ -> Z.of_nat (size X) < 2 ^ 62 -> Z.of_nat (size X0) < 2 ^ 62 -> margs_ok key (smembers X) ->
  runs (Restore db key ttl data) m e (fun err m' _ => err = None /\ set_rep db m' key X /\ restored db SetType key ttl e m m').
Proof using BS.
  intros Ed Hk Hw Hh0 Hne Hlen Hlen0 Hargs. pose proof (short_key _ Hk) as Hs. unfold Restore. rewrite Ed. cbv zeta.
  apply wp_bind. eapply wp_mono; [by apply (step_runs set_container db key opSClear (SClear db key) srInt X0 m e)|].
  intros [n err] m1 b1 e1 (-> & Hn1 & a1 & [= <- <- <-] & Hh1 & [T1 _]). cbv iota beta.
  apply wp_bind. eapply wp_mono; [apply (step_runs set_container db key (opSAdd (smembers X)) (SAdd db key (smembers X)) srInt ∅ m1 e1)|]; [done|done| |by apply T1|done|].
  { split; [done|]. split; [done|]. rewrite (smembers_perm X). split; [apply NoDup_elements|exact Hlen]. }
  intros [n' err] m2 b2 e2 (-> & Hn2 & a2 & [= <- <- <-] & Hh2 & [T2 _]). cbv iota beta. rewrite smembers_set, (left_id_L ∅ (∪)) in Hh2.
  apply (restore_finish db SetType key ttl _ (fun m' => set_rep db m' key X)); [done|intros m' Hsame; by apply set_rep_same|exact Hh2|by eapply touches_trans|congruence|].
  intros t Ht. unfold SExpire. rewrite (proj2 (Z.leb_gt _ _)) by lia. apply wp_bind. apply wp_time_now. eapply sExpireAt_exec; [done|exact Hh2|done|lia].
Qed.

Lemma restore_zset db key (ttl : Z) (data : bytes) (z z0 : gmap bytes Z) m e :
  rdb_DecodeDump data = inl (RZSet (map (fun p => (Member p, float64_of_int64 (Score p))) (zsorted z))) ->
  checkKeySize key = None -> well_keyed db m -> zset_rep db m key z0 ->
  z <> ∅ -> zcount z < 2 ^ 61 -> zcount z0 < 2 ^ 61 -> zargs_ok key (zsorted z) -> map_Forall (fun _ s => - 2 ^ 53 < s < 2 ^ 53) z ->
  runs (Restore db key ttl data) m e (fun err m' _ => err = None /\ zset_rep db m' key z /\ restored db ZSetType key ttl e m m').
Proof using BS.
  intros Ed Hk Hw Hh0 Hne Hlen Hlen0 Hargs Hf. pose proof (short_key _ Hk) as Hs. unfold Restore. rewrite Ed. cbv zeta.
  assert (Ez : map (fun p : bytes * float64 => mkScorePair (int64_of_float64 p.2) p.1) (map (fun p => (Member p, float64_of_int64 (Score p))) (zsorted z)) = zsorted z).
  { rewrite map_map. transitivity (map (fun p => p) (zsorted z)); [|apply map_id]. apply map_ext_in. intros p Hp%list_elem_of_In%elem_of_zsorted. destruct p as [s x].
    cbn in *. rewrite float64_exact; [done|]. by apply (Hf x s). }
  rewrite Ez. apply wp_bind. eapply wp_mono; [by apply (step_runs zset_container db key opZClear (ZClear db key) zrInt z0 m e)|].
  intros [n err] m1 b1 e1 (-> & Hn1 & a1 & [= <- <- <-] & Hh1 & [T1 _]). cbv iota beta.
  apply wp_bind. eapply wp_mono; [apply (step_runs zset_container db key (opZAdd (zsorted z)) (ZAdd db key (zsorted z)) zrInt ∅ m1 e1)|]; [done|done| |by apply T1|done|].
  { split; [done|]. split; [|split; [done|split; [apply zsorted_NoDup|]]].
    - intros E. apply Hne, map_size_empty_iff. by rewrite <- zsorted_length, E.
    - rewrite zsorted_length. exact Hlen. }
  intros [n' err] m2 b2 e2 (-> & Hn2 & a2 & [= <- <- <-] & Hh2 & [T2 _]). cbv iota beta. rewrite zadd_sorted in Hh2.
  apply (restore_finish db ZSetType key ttl _ (fun m' => zset_rep db m' key z)); [done|intros m' Hsame; by apply zset_rep_same|exact Hh2|by eapply touches_trans|congruence|].
  intros t Ht. unfold ZExpire. rewrite (proj2 (Z.leb_gt _ _)) by lia. apply wp_bind. apply wp_time_now. eapply zExpireAt_exec; [done|exact Hh2|done|lia].
Qed.

(** ** Dumps *)

Lemma dump_object_ok o : o <> ROther -> exists data, dump_object o = (Some data, None) /\ rdb_DecodeDump data = inl o.
Proof using RS. intros Ho. destruct (rdb_roundtrip o Ho) as (data & E1 & E2). exists data. unfold dump_object. by rewrite E1. Qed.

(** [dump] changes nothing and returns the data of [o]. *)
Definition dumps (dump : M (option bytes * option error)) (o : rdb_object) m e : Prop :=
  exists data, exec dump m e (Some data, None) m e /\ rdb_DecodeDump data = inl o.

Lemma dumps_of {A} (p : M A) (k : A -> M (option bytes * option error)) a o m e :
  o <> ROther -> exec p m e a m e -> k a = mret (dump_object o) -> dumps (p ≫= k) o m e.
Proof using RS.
  intros Ho Hp Hf. destruct (dump_object_ok o Ho) as (data & E1 & E2). exists data. split; [|done]. eapply exec_bind; [exact Hp|].
  rewrite Hf, E1. by apply wp_ret.
Qed.

Lemma Dump_dumps db key v m e : checkKeySize key = None -> m !! encodeKVKey db key = Some v -> dumps (Dump_ db key) (RString v) m e.
Proof using BS RS.
  intros Hk Hv. unfold Dump_. eapply dumps_of; [done|by apply Get_exec|]. by rewrite Hv.
Qed.

Lemma LDump_dumps db key l m e :
  checkKeySize key = None -> well_keyed db m -> list_rep db m key l -> l <> [] -> len l < 2 ^ 31 -> dumps (LDump db key) (RList l) m e.
Proof using BS RS.
  intros Hk Hw [hd Hl] Hne Hn. unfold LDump. eapply dumps_of; [done|by eapply LRange_exec|].
  rewrite lrange_whole. by destruct l.
Qed.

Lemma HDump_dumps db key h m e : checkKeySize key = None -> hash_rep db m key h -> h <> ∅ -> dumps (HDump db key) (RHash (sorted_entries h)) m e.
Proof using BS RS.
  intros Hk Hh Hne. unfold HDump. eapply dumps_of; [done|by eapply hash_read_exec|].
  cbn [default]. replace (map (fun p : bytes * bytes => (p.1, p.2)) (sorted_entries h)) with (sorted_entries h).
  - pose proof (sorted_entries_length h) as Hl. destruct (sorted_entries h); [|done]. exfalso. apply Hne, map_size_empty_iff. done.
  - symmetry. etransitivity; [|apply map_id]. apply map_ext. by intros [f v].
Qed.

Lemma SDump_dumps db key (X : gset bytes) m e : checkKeySize key = None -> set_rep db m key X -> X <> ∅ -> dumps (SDump db key) (RSet (smembers X)) m e.
Proof using BS RS.
  intros Hk Hh Hne. unfold SDump. eapply dumps_of with (a := (smembers X, None)); [done|by eapply SMembers_wp|].
  pose proof (smembers_set X) as Hs. destruct (smembers X); [|done]. by destruct Hne.
Qed.

Lemma ZDump_dumps db key z m e :
  checkKeySize key = None -> well_keyed db m -> zset_rep db m key z -> z <> ∅ ->
  dumps (ZDump db key) (RZSet (map (fun p => (Member p, float64_of_int64 (Score p))) (zsorted z))) m e.
Proof using BS RS.
  intros Hk Hw Hz Hne. unfold ZDump. eapply dumps_of with (a := (zsorted z, None)); [done| |].
  - eapply zRange_wp; [|done|exact Hz|done|done|].
    + unfold checkKeySize in Hk. destruct (_ || _) eqn:E; [done|]. apply orb_false_iff in E as [? _]. zify_bool. lia.
    + rewrite cut_all. destruct Hz as [Hz _]. by rewrite (zby_score_all db m key z Hz).
  - pose proof (zsorted_length z) as Hl. destruct (zsorted z); [|done]. exfalso. apply Hne, map_size_empty_iff. done.
Qed.

(** The data of [dump] on the store [m], restored at the key [key2] of any store [m2], leaves
    there a value for which [P] holds. *)
Definition copies (dump : M (option bytes * option error)) m e (P : gmap bytes bytes -> Prop) db2 (T : Z) key2 (ttl : Z) m2 e2 : Prop :=
  exists data, exec dump m e (Some data, None) m e /\
  runs (Restore db2 key2 ttl data) m2 e2 (fun err m' _ => err = None /\ P m' /\ restored db2 T key2 ttl e2 m2 m').

End Spec.

(** ** Frame *)

Section Contained.
Context {B : Backend} {BS : BackendSpec B} {R : Rdb} {V : Int64Overflow}.
Implicit Types (db : DB) (key : bytes).

Lemma contained_Dump db key : contained db (Dump_ db key).
Proof. unfold Dump_. contained_auto. Qed.
Lemma contained_LDump db key : contained db (LDump db key).
Proof. unfold LDump. contained_auto. Qed.
Lemma contained_HDump db key : contained db (HDump db key).
Proof. unfold HDump. contained_auto. Qed.
Lemma contained_SDump db key : contained db (SDump db key).
Proof. unfold SDump. contained_auto. Qed.
Lemma contained_ZDump db key : contained db (ZDump db key).
Proof. unfold ZDump. contained_auto. Qed.

Lemma contained_restore_expire db (ttl : Z) (expire : Z -> M (Z * option error)) :
  (forall t, contained db (expire t)) -> contained db (restore_expire ttl expire).
Proof. intros He. unfold restore_expire. contained_auto. Qed.
#[local] Hint Resolve contained_restore_expire : ledis.

Lemma contained_Restore db key (ttl : Z) (data : bytes) : contained db (Restore db key ttl data).
Proof. unfold Restore. contained_auto. Qed.
End Contained.

#[export] Hint Resolve contained_Dump contained_LDump contained_HDump contained_SDump contained_ZDump contained_Restore : ledis.

(** * Properties *)


(** ** Example *)

#[local] Instance rdb_object_eq_dec : EqDecision rdb_object.
Proof. solve_decision. Defined.

#[local] Instance rdb_object_countable : Countable rdb_object.
Proof.
  refine (inj_countable' (fun o => match o with
      | RString v => inl v | RHash v => inr (inl v) | RList v => inr (inr (inl v)) | RZSet v => inr (inr (inr (inl v)))
      | RSet v => inr (inr (inr (inr (Some v)))) | ROther => inr (inr (inr (inr None))) end)
    (fun x : bytes + (list (bytes * bytes) + (list bytes + (list (bytes * float64) + option (list bytes)))) => match x with
      | inl v => RString v | inr (inl v) => RHash v | inr (inr (inl v)) => RList v | inr (inr (inr (inl v))) => RZSet v
      | inr (inr (inr (inr (Some v)))) => RSet v | inr (inr (inr (inr None))) => ROther end) _).
  by intros [].
Defined.

(** Objects as numbers. *)
Definition ex_rdb : Rdb := {|
  rdb_Dump o := inl [Z.pos (countable.encode o)];
  rdb_DecodeDump data :=
    match data with
    | [Z.pos p] => match countable.decode p with Some o => inl o | None => inr errDriver end
    | _ => inr errDriver
    end
|}.

Lemma ex_rdb_spec : RdbSpec ex_rdb.
Proof. split. intros o _. eexists. split; [done|]. simpl. by rewrite countable.decode_encode. Qed.

Definition ex_overflow : Int64Overflow := fun _ => - 2 ^ 63.


(** A score of more than 53 bits comes back rounded. *)
Example score_rounded : int64_of_float64 (O := ex_overflow) (float64_of_int64 (2 ^ 53 + 1)) = 2 ^ 53.
Proof. reflexivity. Qed.
