(* ===== verification/Sort.v ===== *)
(** * Sorting (src/ledis/sort.go)

    The elements of a list, a set or a sorted set, sorted by themselves or by values looked
    up through a pattern, and replaced by values looked up. *)

From Stdlib Require Import SpecFloat.
From S2P Require Import Prelude SortPkg Float Driver Store Keys Util Core Frame KV TList THash TSet TZSet.

(** [strconv.ParseFloat] *)
Class FloatSyntax := ParseFloat : bytes -> float64 + error.

(** ** Patterns: [bytes.Index] and [bytes.Replace] of the first occurrence *)

Definition has_prefix (p b : bytes) : bool := bool_decide (take (length p) b = p).

Fixpoint bytes_Index (b sep : bytes) : Z :=
  if has_prefix sep b then 0
  else match b with
  | [] => -1
  | _ :: b => let n := bytes_Index b sep in if n <? 0 then n else n + 1
  end.

Definition bytes_Contains (b sep : bytes) : bool := 0 <=? bytes_Index b sep.

Definition bytes_Replace1 (b old new : bytes) : bytes :=
  let n := bytes_Index b old in
  if n <? 0 then b else take (Z.to_nat n) b ++ new ++ drop (Z.to_nat n + length old) b.

(** ** The range *)

Definition getSortRange (valueLen offset size : Z) : Z * Z :=
  let start := if offset >? 0 then offset else 0 in
  let stop := if size >? 0 then int64 (start + size - 1) else valueLen - 1 in
  let '(start, stop) := if start >=? valueLen then (valueLen - 1, valueLen - 2) else (start, stop) in
  (start, if stop >=? valueLen then valueLen - 1 else stop).

(** [make([][]byte, 0, n)]: the capacity must not be negative, and the slice, of 24 bytes for
    each element, must fit the address space. *)
Definition make_ok (n : Z) : bool := (0 <=? n) && (n * 24 <=? 2 ^ 48).

Record sortItem := mkItem { si_value : bytes; si_cmpValue : option bytes; si_score : float64 }.

(** [sortItemSlice.Less] of two items *)
Definition Less (alpha sortByPattern : bool) (s1 s2 : sortItem) : bool :=
  if negb alpha then
    if float64_lt (si_score s1) (si_score s2) then true
    else if float64_lt (si_score s2) (si_score s1) then false
    else bool_decide (blt (si_value s1) (si_value s2))
  else if sortByPattern then
    match si_cmpValue s1, si_cmpValue s2 with
    | None, _ => true
    | Some _, None => false
    | Some c1, Some c2 => bool_decide (blt c1 c2)
    end
  else bool_decide (blt (si_value s1) (si_value s2)).

Section Ops.
Context {B : Backend} {F : FloatSyntax} {P : SortPkg}.
Implicit Types (db : DB) (key : bytes).

Definition hashPattern : bytes := [42; 45; 62].

(** The key a pattern names for an element, with the field of a hash after an arrow. *)
Definition pattern_key (pattern subKey : bytes) : bytes * option bytes :=
  let n := bytes_Index pattern hashPattern in
  let '(key, field) :=
    if (n >? 0) && (n + 3 <? len pattern) then (take (Z.to_nat (n + 1)) pattern, Some (drop (Z.to_nat (n + 3)) pattern)) else (pattern, None) in
  (bytes_Replace1 key [42] subKey, field).

Definition lookupKeyByPattern db (pattern subKey : bytes) : M (option bytes) :=
  if bool_decide (pattern = [35]) then mret (Some subKey)
  else if negb (bytes_Contains pattern [42]) then mret None
  else match pattern_key pattern subKey with
  | (key, None) => '(value, _) ← Get db key; mret value
  | (key, Some field) => '(value, _) ← HGet db key field; mret value
  end.

(** The item of a value compared by [cmpValue]. *)
Definition item_of (alpha : bool) (sortBy : option bytes) (value : bytes) (cmpValue : option bytes) : sortItem + error :=
  match cmpValue with
  | None => inl (mkItem value None (float64_of_int64 0))
  | Some cmpValue =>
      if alpha then inl (mkItem value (if not_nil sortBy then Some cmpValue else None) (float64_of_int64 0))
      else match ParseFloat cmpValue with
      | inr _ => inr (errScores cmpValue)
      | inl score => inl (mkItem value None score)
      end
  end.

Definition sort_item db (alpha dontsort : bool) (sortBy : option bytes) (value : bytes) : M (sortItem + error) :=
  if dontsort then mret (inl (mkItem value None (float64_of_int64 0)))
  else
    cmpValue ← (match sortBy with Some by_ => lookupKeyByPattern db by_ value | None => mret (Some value) end);
    mret (item_of alpha sortBy value cmpValue).

Fixpoint sort_items db (alpha dontsort : bool) (sortBy : option bytes) (values : list bytes) : M (list sortItem + error) :=
  match values with
  | [] => mret (inl [])
  | value :: values =>
      item ← sort_item db alpha dontsort sortBy value;
      match item with
      | inr err => mret (inr err)
      | inl item =>
          items ← sort_items db alpha dontsort sortBy values;
          mret (match items with inr err => inr err | inl items => inl (item :: items) end)
      end
  end.

(** The results for an item: the value, or what the patterns look up. *)
Fixpoint sort_gets db (sortGet : list bytes) (value : bytes) : M (list (option bytes)) :=
  match sortGet with
  | [] => mret []
  | getPattern :: sortGet => v ← lookupKeyByPattern db getPattern value; vs ← sort_gets db sortGet value; mret (v :: vs)
  end.

Fixpoint sort_results db (sortGet : list bytes) (items : list sortItem) : M (list (option bytes)) :=
  match items with
  | [] => mret []
  | item :: items =>
      vs ← (match sortGet with [] => mret [Some (si_value item)] | _ => sort_gets db sortGet (si_value item) end);
      rest ← sort_results db sortGet items;
      mret (vs ++ rest)
  end.

(** The end of [xsort]: the results for the items from [start] to [stop]. *)
Definition sort_output db (start stop : Z) (sortGet : list bytes) (items : list sortItem) : M (list (option bytes) * option error) :=
  let resLen := int64 (stop - start + 1) in
  let resLen := match sortGet with [] => resLen | _ => int64 (len sortGet * resLen) end in
  if make_ok resLen then
    res ← sort_results db sortGet (take (Z.to_nat (stop - start + 1)) (drop (Z.to_nat start) items));
    mret (res, None)
  else lift Panic.

Definition xsort db (values : list bytes) (offset size : Z) (alpha desc : bool) (sortBy : option bytes) (sortGet : list bytes) :
    M (list (option bytes) * option error) :=
  match values with
  | [] => mret ([], None)
  | _ =>
      let '(start, stop) := getSortRange (len values) offset size in
      let dontsort := match sortBy with Some by_ => negb (bytes_Contains by_ [42]) | None => false end in
      items ← sort_items db alpha dontsort sortBy values;
      match items with
      | inr err => mret ([], Some err)
      | inl items =>
          let less := Less alpha (not_nil sortBy) in
          let items := if dontsort then items else if desc then sort_Sort (fun x y => less y x) items else sort_Sort less items in
          sort_output db start stop sortGet items
      end
  end.

Definition XLSort db key (offset size : Z) (alpha desc : bool) (sortBy : option bytes) (sortGet : list bytes) : M (list (option bytes) * option error) :=
  '(values, err) ← LRange db key 0 (-1);
  match err with
  | Some err => mret ([], Some err)
  | None => xsort db (default [] values) offset size alpha desc sortBy sortGet
  end.

Definition XSSort db key (offset size : Z) (alpha desc : bool) (sortBy : option bytes) (sortGet : list bytes) : M (list (option bytes) * option error) :=
  '(values, err) ← SMembers db key;
  match err with
  | Some err => mret ([], Some err)
  | None => xsort db values offset size alpha desc sortBy sortGet
  end.

Definition XZSort db key (offset size : Z) (alpha desc : bool) (sortBy : option bytes) (sortGet : list bytes) : M (list (option bytes) * option error) :=
  '(values, err) ← ZRangeByLex db key None None RangeClose 0 (-1);
  match err with
  | Some err => mret ([], Some err)
  | None => xsort db values offset size alpha desc sortBy sortGet
  end.

End Ops.

(** * The order *)

(** Items that [Less] can compare: numbers as scores, or, when ordered as bytes by a pattern,
    values that were found. *)
Definition comparable (alpha sortByPattern : bool) (s : sortItem) : bool :=
  if alpha then if sortByPattern then not_nil (si_cmpValue s) else true else negb (is_nan (si_score s)).

Definition rank (alpha sortByPattern : bool) (s : sortItem) : bytes :=
  if alpha then if sortByPattern then default [] (si_cmpValue s) else si_value s else float_rank (si_score s) ++ si_value s.

Lemma Less_rank alpha by_ x y : comparable alpha by_ x = true -> comparable alpha by_ y = true ->
  Less alpha by_ x y = bool_decide (blt (rank alpha by_ x) (rank alpha by_ y)).
Proof.
  unfold comparable, Less, rank. destruct alpha; cbn [negb].
  - destruct by_; [|done]. by destruct (si_cmpValue x), (si_cmpValue y).
  - rewrite !negb_true_iff. intros Hx Hy. rewrite !float_lt_rank, !blt_bool by done.
    rewrite bcmp_app_length by (by rewrite !float_rank_length). rewrite (bcmp_antisym (float_rank (si_score x))).
    by destruct (bcmp (float_rank (si_score x)) (float_rank (si_score y))).
Qed.

(** The order [Less] induces. *)
Definition in_order (alpha sortByPattern : bool) (x y : sortItem) : Prop := ble (rank alpha sortByPattern x) (rank alpha sortByPattern y).

Lemma blt_total_cases a b c : blt a b -> blt a c \/ blt c b.
Proof.
  intros Hab. destruct (decide (blt a c)) as [|Hn]; [by left|]. right. apply (ble_blt_trans c a b); [|done].
  unfold blt, ble in *. rewrite (bcmp_antisym a). by destruct (bcmp a c).
Qed.

Lemma rank_order {A} (less : A -> A -> bool) (f : A -> bytes) (l : list A) :
  (forall x y, x ∈ l -> y ∈ l -> less x y = bool_decide (blt (f x) (f y))) -> weak_order less l.
Proof.
  intros H. split.
  - intros x Hx. rewrite H by done. apply bool_decide_eq_false, blt_irrefl.
  - intros x y z Hx Hy Hz. rewrite !H by done. rewrite !bool_decide_eq_true. apply blt_trans.
  - intros x y z Hx Hy Hz. rewrite !H by done. rewrite !bool_decide_eq_true. apply blt_total_cases.
Qed.

Lemma rank_order_rev {A} (less : A -> A -> bool) (f : A -> bytes) (l : list A) :
  (forall x y, x ∈ l -> y ∈ l -> less x y = bool_decide (blt (f x) (f y))) -> weak_order (fun x y => less y x) l.
Proof.
  intros H. split.
  - intros x Hx. rewrite H by done. apply bool_decide_eq_false, blt_irrefl.
  - intros x y z Hx Hy Hz. rewrite !H by done. rewrite !bool_decide_eq_true. intros. by eapply blt_trans.
  - intros x y z Hx Hy Hz. rewrite !H by done. rewrite !bool_decide_eq_true. intros Hyx. destruct (blt_total_cases _ _ (f z) Hyx); [by right|by left].
Qed.

Lemma not_blt_ble a b : bool_decide (blt b a) = false -> ble a b.
Proof. rewrite bool_decide_eq_false. unfold blt, ble. rewrite (bcmp_antisym a). by destruct (bcmp a b). Qed.

(** ** What the interface gives for items that can be compared *)
Lemma sort_items_sorted {P : SortPkg} {PS : SortPkgSpec P} alpha by_ (desc : bool) (items : list sortItem) :
  Forall (fun x => comparable alpha by_ x = true) items ->
  let sorted := if desc then sort_Sort (fun x y => Less alpha by_ y x) items else sort_Sort (Less alpha by_) items in
  sorted ≡ₚ items /\ StronglySorted (fun x y => if desc then in_order alpha by_ y x else in_order alpha by_ x y) sorted.
Proof.
  intros HF. rewrite Forall_forall in HF.
  assert (HL : forall x y, x ∈ items -> y ∈ items -> Less alpha by_ x y = bool_decide (blt (rank alpha by_ x) (rank alpha by_ y))).
  { intros x y Hx Hy. apply Less_rank; by apply HF. }
  destruct desc; cbv zeta; (split; [apply sort_perm|]).
  - eapply StronglySorted_impl; [|apply sort_sorted; by eapply rank_order_rev].
    intros x y Hx Hy. cbv beta. rewrite (sort_perm _ items) in Hx, Hy. rewrite HL by done. apply not_blt_ble.
  - eapply StronglySorted_impl; [|apply sort_sorted; by eapply rank_order].
    intros x y Hx Hy. cbv beta. rewrite (sort_perm _ items) in Hx, Hy. rewrite HL by done. apply not_blt_ble.
Qed.

(** * What is sorted *)

(** The part of the list asked for: everything from the offset, or [size] elements. *)
Definition requested {A} (offset size : Z) (l : list A) : list A :=
  let l := drop (Z.to_nat offset) l in
  if 0 <? size then take (Z.to_nat size) l else l.

Lemma getSortRange_spec {A} (l : list A) offset size :
  l <> [] -> Z.max 0 offset + Z.max 0 size <= 2 ^ 63 -> len l < 2 ^ 63 ->
  let '(start, stop) := getSortRange (len l) offset size in
  take (Z.to_nat (stop - start + 1)) (drop (Z.to_nat start) l) = requested offset size l /\ 0 <= stop - start + 1 <= len l.
Proof.
  intros Hne Ho Hl. assert (0 < len l) by (destruct l; [done|simpl; lia]). unfold getSortRange, requested.
  set (start := if offset >? 0 then offset else 0). assert (Hs : start = Z.max 0 offset) by (subst start; case_match; zify_bool; lia).
  set (stop := if size >? 0 then int64 (start + size - 1) else len l - 1).
  assert (He : stop = if 0 <? size then start + size - 1 else len l - 1).
  { subst stop. destruct (0 <? size) eqn:E; zify_bool; case_match; zify_bool; try lia. rewrite swrap_small; lia. }
  clearbody start stop. replace (Z.to_nat offset) with (Z.to_nat start) by lia. subst stop.
  destruct (start >=? len l) eqn:E; zify_bool.
  - rewrite (drop_ge l (Z.to_nat start)) by lia.
    destruct (len l - 2 >=? len l) eqn:E2; zify_bool; [lia|]. rewrite take_nil. replace (len l - 2 - (len l - 1) + 1) with 0 by lia.
    split; [|lia]. by case_match.
  - destruct (0 <? size) eqn:E3; zify_bool.
    + destruct (start + size - 1 >=? len l) eqn:E4; zify_bool; (split; [|lia]).
      * rewrite !take_ge; [done|rewrite length_drop; lia..].
      * f_equal. lia.
    + destruct (len l - 1 >=? len l) eqn:E4; zify_bool; [lia|]. split; [|lia]. rewrite take_ge; [done|]. rewrite length_drop. lia.
Qed.

Section Spec.
Context {B : Backend} {BS : BackendSpec B} {F : FloatSyntax} {P : SortPkg} {PS : SortPkgSpec P}.
Implicit Types (db : DB) (key : bytes) (m : gmap bytes bytes) (e : Env).

(** The value a pattern looks up in a store. *)
Definition pattern_value db m (pattern subKey : bytes) : option bytes :=
  if bool_decide (pattern = [35]) then Some subKey
  else if negb (bytes_Contains pattern [42]) then None
  else match pattern_key pattern subKey with
  | (key, None) => if checkKeySize key then None else m !! encodeKVKey db key
  | (key, Some field) => if checkHashKFSize key field then None else m !! hEncodeHashKey db key field
  end.

Lemma lookup_exec db pattern subKey m e : exec (lookupKeyByPattern db pattern subKey) m e (pattern_value db m pattern subKey) m e.
Proof using BS.
  unfold lookupKeyByPattern, pattern_value. case_bool_decide; [by apply wp_ret|]. destruct (negb _); [by apply wp_ret|].
  destruct (pattern_key pattern subKey) as [key [field|]].
  - unfold HGet. destruct (checkHashKFSize key field); [by apply wp_ret|]. apply wp_bind. apply wp_Get. by apply wp_ret.
  - unfold Get. destruct (checkKeySize key); [by apply wp_ret|]. apply wp_bind. apply wp_Get. by apply wp_ret.
Qed.

Definition cmp_value db m (sortBy : option bytes) (value : bytes) : option bytes :=
  match sortBy with Some by_ => pattern_value db m by_ value | None => Some value end.

Lemma sort_item_exec db alpha sortBy value m e :
  exec (sort_item db alpha false sortBy value) m e (item_of alpha sortBy value (cmp_value db m sortBy value)) m e.
Proof using BS.
  unfold sort_item, cmp_value. destruct sortBy as [by_|].
  - eapply exec_bind; [apply lookup_exec|]. by apply wp_ret.
  - eapply exec_bind; [by apply wp_ret|]. by apply wp_ret.
Qed.

Lemma sort_items_exec db alpha sortBy values items m e :
  Forall2 (fun v it => item_of alpha sortBy v (cmp_value db m sortBy v) = inl it) values items ->
  exec (sort_items db alpha false sortBy values) m e (inl items) m e.
Proof using BS.
  induction 1 as [|v it values items Hv _ IH]; cbn [sort_items]; [by apply wp_ret|].
  eapply exec_bind; [apply sort_item_exec|]. rewrite Hv. eapply exec_bind; [exact IH|]. by apply wp_ret.
Qed.

Lemma sort_items_error db alpha sortBy values items v rest err m e :
  Forall2 (fun v it => item_of alpha sortBy v (cmp_value db m sortBy v) = inl it) values items ->
  item_of alpha sortBy v (cmp_value db m sortBy v) = inr err ->
  exec (sort_items db alpha false sortBy (values ++ v :: rest)) m e (inr err) m e.
Proof using BS.
  intros H Hv. induction H as [|v' it values items Hv' _ IH]; cbn [sort_items app].
  - eapply exec_bind; [apply sort_item_exec|]. rewrite Hv. by apply wp_ret.
  - eapply exec_bind; [apply sort_item_exec|]. rewrite Hv'. eapply exec_bind; [exact IH|]. by apply wp_ret.
Qed.

Lemma sort_items_unsorted db alpha sortBy values m e :
  exec (sort_items db alpha true sortBy values) m e (inl (map (fun v => mkItem v None (float64_of_int64 0)) values)) m e.
Proof using BS.
  induction values as [|v values IH]; cbn [sort_items]; [by apply wp_ret|].
  eapply exec_bind; [by apply wp_ret|]. eapply exec_bind; [exact IH|]. by apply wp_ret.
Qed.

(** What stands for a sorted value in the result: the value itself, or what each of the
    patterns looks up for it. *)
Definition results_of db m (sortGet : list bytes) (value : bytes) : list (option bytes) :=
  match sortGet with [] => [Some value] | _ => map (fun p => pattern_value db m p value) sortGet end.

Lemma sort_gets_exec db sortGet value m e :
  exec (sort_gets db sortGet value) m e (map (fun p => pattern_value db m p value) sortGet) m e.
Proof using BS.
  induction sortGet as [|p sortGet IH]; cbn [sort_gets]; [by apply wp_ret|].
  eapply exec_bind; [apply lookup_exec|]. eapply exec_bind; [exact IH|]. by apply wp_ret.
Qed.

Lemma sort_results_exec db sortGet items m e :
  exec (sort_results db sortGet items) m e (concat (map (results_of db m sortGet) (map si_value items))) m e.
Proof using BS.
  induction items as [|it items IH]; cbn [sort_results map concat]; [by apply wp_ret|].
  eapply exec_bind with (a := results_of db m sortGet (si_value it)).
  { destruct sortGet; [by apply wp_ret|]. apply sort_gets_exec. }
  eapply exec_bind; [exact IH|]. by apply wp_ret.
Qed.

(** The arguments stay within the machine's integers and address space. *)
Definition sort_fits (values : list bytes) (offset size : Z) (sortGet : list bytes) : Prop :=
  Z.max 0 offset + Z.max 0 size <= 2 ^ 63 /\ (len sortGet + 1) * len values * 24 <= 2 ^ 48.

Lemma xsort_finish db (values : list bytes) offset size sortGet (items : list sortItem) m e :
  values <> [] -> length items = length values -> sort_fits values offset size sortGet ->
  let '(start, stop) := getSortRange (len values) offset size in
  exec (sort_output db start stop sortGet items) m e (concat (map (results_of db m sortGet) (requested offset size (map si_value items))), None) m e.
Proof using BS.
  intros Hne Hlen [H1 H2]. assert (0 <= len sortGet) by lia. assert (0 <= len values) by lia. assert (len values < 2 ^ 63) by nia.
  assert (Hne' : items <> []) by (by destruct items, values). pose proof (getSortRange_spec items offset size Hne' H1) as HG.
  rewrite Hlen in HG. specialize (HG H3). destruct (getSortRange (len values) offset size) as [start stop]. destruct HG as [HG Hr].
  unfold sort_output. cbv zeta. rewrite HG. set (n := stop - start + 1) in *. rewrite (swrap_small 64 n) by lia.
  assert (Hm : make_ok (match sortGet with [] => n | _ => int64 (len sortGet * n) end) = true).
  { assert (0 <= len sortGet * n /\ len sortGet * n <= len sortGet * len values) by nia. unfold make_ok.
    destruct sortGet; [|rewrite swrap_small by nia]; apply andb_true_iff; split; apply Z.leb_le; nia. }
  rewrite Hm. eapply exec_bind; [apply sort_results_exec|]. apply wp_ret. split; [|done]. do 3 f_equal.
  unfold requested. rewrite skipn_map. destruct (0 <? size); [|done]. by rewrite firstn_map.
Qed.

Definition value_item db m (alpha : bool) (sortBy : option bytes) (value : bytes) : sortItem + error :=
  item_of alpha sortBy value (cmp_value db m sortBy value).

(** The value has what it is ordered by. *)
Definition sortable db m (alpha : bool) (sortBy : option bytes) (value : bytes) : bool :=
  match value_item db m alpha sortBy value with inl it => comparable alpha (not_nil sortBy) it | inr _ => false end.

Definition value_rank db m (alpha : bool) (sortBy : option bytes) (value : bytes) : bytes :=
  match value_item db m alpha sortBy value with inl it => rank alpha (not_nil sortBy) it | inr _ => [] end.

(** [sorted] holds the values in the order asked for. *)
Definition sorted_values db m (alpha desc : bool) (sortBy : option bytes) (values sorted : list bytes) : Prop :=
  sorted ≡ₚ values /\
  StronglySorted (fun v w => let r := value_rank db m alpha sortBy in if desc then ble (r w) (r v) else ble (r v) (r w)) sorted.

Definition pattern_sorts (sortBy : option bytes) : bool := match sortBy with Some by_ => bytes_Contains by_ [42] | None => true end.

Lemma item_value alpha sortBy v c it : item_of alpha sortBy v c = inl it -> si_value it = v.
Proof using. unfold item_of. repeat case_match; by intros [= <-]. Qed.

Lemma values_items db m alpha sortBy values : Forall (fun v => sortable db m alpha sortBy v = true) values ->
  exists items, Forall2 (fun v it => value_item db m alpha sortBy v = inl it) values items /\
    Forall (fun it => comparable alpha (not_nil sortBy) it = true) items.
Proof using.
  induction 1 as [|v values Hv _ (items & H1 & H2)]; [by exists []|]. unfold sortable in Hv.
  destruct (value_item db m alpha sortBy v) as [it|] eqn:E; [|done]. exists (it :: items). by split; constructor.
Qed.

Lemma items_sorted db m alpha sortBy (desc : bool) values items sorted :
  Forall2 (fun v it => value_item db m alpha sortBy v = inl it) values items -> sorted ≡ₚ items ->
  StronglySorted (fun x y => if desc then in_order alpha (not_nil sortBy) y x else in_order alpha (not_nil sortBy) x y) sorted ->
  sorted_values db m alpha desc sortBy values (map si_value sorted).
Proof using.
  intros HF HP HS.
  assert (HV : forall it, it ∈ sorted -> value_item db m alpha sortBy (si_value it) = inl it).
  { intros it Hit. rewrite HP in Hit. apply list_elem_of_lookup in Hit as [i Hi]. destruct (Forall2_lookup_r _ _ _ _ _ HF Hi) as (v & _ & Hv).
    by rewrite (item_value _ _ _ _ _ Hv). }
  split.
  - rewrite HP. cut (map si_value items = values); [by intros ->|]. clear -HF. induction HF as [|v it values items Hv _ IH]; [done|].
    cbn [map]. rewrite IH. f_equal. by eapply item_value.
  - clear HP HF. induction HS as [|it sorted HS IH HF]; cbn [map]; constructor.
    + apply IH. intros it' Hit. apply HV. by constructor.
    + rewrite Forall_forall in HF. apply Forall_forall. intros w (it' & -> & Hit)%list_elem_of_fmap. cbv zeta. specialize (HF it' Hit). unfold value_rank.
      rewrite (HV it), (HV it') by (by constructor). by destruct desc.
Qed.

Lemma xsort_nil db offset size alpha desc sortBy sortGet m e :
  exec (xsort db [] offset size alpha desc sortBy sortGet) m e ([], None) m e.
Proof using BS. by apply wp_ret. Qed.

Lemma requested_nil {A} offset size : requested (A := A) offset size [] = [].
Proof using. unfold requested. rewrite drop_nil. case_match; [apply take_nil|done]. Qed.

Lemma xsort_exec db values offset size alpha desc sortBy sortGet m e :
  pattern_sorts sortBy = true -> Forall (fun v => sortable db m alpha sortBy v = true) values -> sort_fits values offset size sortGet ->
  exists sorted, sorted_values db m alpha desc sortBy values sorted /\
    exec (xsort db values offset size alpha desc sortBy sortGet) m e (concat (map (results_of db m sortGet) (requested offset size sorted)), None) m e.
Proof using BS PS.
  intros Hp Hv Hf. destruct (values_items _ _ _ _ _ Hv) as (items & HF & HC).
  pose proof (sort_items_sorted alpha (not_nil sortBy) desc items HC) as [HP HS].
  set (sorted := if desc then _ else _) in *. exists (map si_value sorted). split; [by eapply items_sorted|].
  destruct values as [|v values].
  { apply Forall2_nil_inv_l in HF as ->. apply Permutation_nil_r in HP as ->. cbn [map]. rewrite requested_nil. apply xsort_nil. }
  unfold xsort. pose proof (xsort_finish db (v :: values) offset size sortGet sorted m e) as HX.
  destruct (getSortRange _ _ _) as [start stop].
  assert ((match sortBy with Some by_ => negb (bytes_Contains by_ [42]) | None => false end) = false) as ->.
  { destruct sortBy; [|done]. by apply negb_false_iff. }
  eapply exec_bind; [by apply sort_items_exec|]. cbv iota beta zeta. apply HX; [done| |done].
  rewrite HP. symmetry. by apply Forall2_length in HF.
Qed.

Lemma xsort_unsorted db values offset size alpha desc by_ sortGet m e :
  pattern_sorts (Some by_) = false -> sort_fits values offset size sortGet ->
  exec (xsort db values offset size alpha desc (Some by_) sortGet) m e (concat (map (results_of db m sortGet) (requested offset size values)), None) m e.
Proof using BS.
  intros Hp Hf. destruct values as [|v values]; [rewrite requested_nil; apply xsort_nil|].
  unfold xsort. set (items := map (fun v => mkItem v None (float64_of_int64 0)) (v :: values)).
  pose proof (xsort_finish db (v :: values) offset size sortGet items m e) as HX.
  destruct (getSortRange _ _ _) as [start stop]. unfold pattern_sorts in Hp. rewrite Hp. cbn [negb].
  eapply exec_bind; [apply sort_items_unsorted|]. cbv iota beta zeta.
  replace (map si_value items) with (v :: values) in HX; [apply HX; [done|by unfold items; rewrite length_map|done]|].
  subst items. rewrite map_map. symmetry. apply map_id.
Qed.

Lemma xsort_error db before v rest offset size alpha desc sortBy sortGet err m e :
  pattern_sorts sortBy = true -> Forall (fun v => sortable db m alpha sortBy v = true) before -> value_item db m alpha sortBy v = inr err ->
  exec (xsort db (before ++ v :: rest) offset size alpha desc sortBy sortGet) m e ([], Some err) m e.
Proof using BS.
  intros Hp Hb Hv. destruct (values_items _ _ _ _ _ Hb) as (items & HF & _).
  assert (HX : exists x l, before ++ v :: rest = x :: l) by (destruct before; eauto). destruct HX as (x & l & E).
  unfold xsort. rewrite E. destruct (getSortRange _ _ _) as [start stop].
  assert ((match sortBy with Some by_ => negb (bytes_Contains by_ [42]) | None => false end) = false) as ->.
  { destruct sortBy; [|done]. by apply negb_false_iff. }
  rewrite <- E. eapply exec_bind; [by eapply sort_items_error|]. by apply wp_ret.
Qed.

(** ** The elements *)

Lemma range_close_open m min max : m !! max = None ->
  range_entries m (mkRange min (Some max) RangeClose) = range_entries m (mkRange min (Some max) RangeROpen).
Proof using.
  intros Hm. apply range_entries_eq; [apply range_entries_sorted|]. intros k v. rewrite elem_of_range_entries. split; intros [Hk Hr]; (split; [done|]).
  - unfold in_range, above_min, below_max in *. simpl in *. apply andb_true_iff in Hr as [-> Hr]. apply bool_decide_eq_true in Hr. simpl in Hr.
    apply bool_decide_eq_true. apply ble_alt. by left.
  - unfold in_range, above_min, below_max in *. simpl in *. apply andb_true_iff in Hr as [-> Hr]. apply bool_decide_eq_true in Hr. simpl in Hr.
    apply bool_decide_eq_true. apply ble_alt in Hr as [| ->]; [done|congruence].
Qed.

(** The members of a sorted set in the order of their bytes. *)
Definition zlex (z : gmap bytes Z) : list bytes := (sorted_entries (PutInt64 <$> z)).*1.

Lemma zset_stop_free db key m : short key -> well_keyed db m -> m !! zEncodeStopSetKey db key = None.
Proof using.
  intros Hk Hw. destruct (m !! zEncodeStopSetKey db key) as [v|] eqn:E; [|done]. exfalso.
  destruct (Hw _ _ E) as (sk & Hr & Hs).
  { by apply (zlex_in_db db key None None). }
  unfold zEncodeStopSetKey in Hs. rewrite zEncodeSetKey_split, set_last_snoc, encode_split in Hs. unfold member_pre in Hs. rewrite <- app_assoc in Hs.
  apply app_inv_head in Hs. cbn [app] in Hs. apply cons_inv in Hs as [HT Hs].
  destruct sk; try (vm_compute in HT; discriminate). cbn [tail_of] in Hs. apply name_prefix_inj in Hs as [_ Hs]; [|done..].
  by injection Hs.
Qed.

Lemma zlex_members_ok db key (l : list (bytes * bytes)) : short key ->
  zlex_members db (map (fun p => (zEncodeSetKey db key p.1, p.2)) l) = Ret l.*1.
Proof using.
  intros Hk. induction l as [|p l IH]; [done|]. cbn [map zlex_members]. rewrite zDecodeSetKey_named by done. by rewrite IH.
Qed.

Lemma ZRangeByLex_all db key z m e : short key -> well_keyed db m -> zset_rep db m key z ->
  exec (ZRangeByLex db key None None RangeClose 0 (-1)) m e (zlex z, None) m e.
Proof using BS.
  intros Hk Hw [[Hz _ _] _]. unfold ZRangeByLex, exec. apply wp_bind, wp_RangeLimitIterator. intros it Hit.
  pose proof (member_entries m (member_pre db ZSetType key) zsetStartMemSep (PutInt64 <$> z)) as HE.
  rewrite cut_all in Hit. cbn [zlex_min zlex_max] in Hit. rewrite range_close_open in Hit by (by apply zset_stop_free).
  unfold zEncodeStartSetKey, zEncodeStopSetKey in Hit. rewrite zEncodeSetKey_split, set_last_snoc in Hit.
  change (zsetStopMemSep) with (zsetStartMemSep + 1) in Hit. rewrite HE in Hit.
  - rewrite Hit. rewrite (map_ext _ (fun p => (zEncodeSetKey db key p.1, p.2))) by (intros p; by rewrite zEncodeSetKey_split).
    rewrite zlex_members_ok by done.
    apply wp_bind, wp_lift. by apply wp_ret.
  - intros f. rewrite <- zEncodeSetKey_split, lookup_fmap. apply Hz.
Qed.

(** The elements a sort starts from. *)
Inductive sort_source db m key : (DB -> bytes -> Z -> Z -> bool -> bool -> option bytes -> list bytes -> M (list (option bytes) * option error)) -> list bytes -> Prop :=
| source_list l : list_rep db m key l -> sort_source db m key XLSort l
| source_set X : set_rep db m key X -> sort_source db m key XSSort (smembers X)
| source_zset z : zset_rep db m key z -> sort_source db m key XZSort (zlex z).

Lemma sort_source_exec db m key sort values offset size alpha desc sortBy sortGet a e :
  checkKeySize key = None -> well_keyed db m -> sort_source db m key sort values ->
  exec (xsort db values offset size alpha desc sortBy sortGet) m e a m e ->
  exec (sort db key offset size alpha desc sortBy sortGet) m e a m e.
Proof using BS.
  intros Hk Hw Hs Hx. destruct Hs as [l [hd Hl]|X HX|z Hz].
  - unfold XLSort. eapply exec_bind; [by eapply LRange_exec|]. cbv iota beta. cbn [default].
    by rewrite lrange_whole.
  - unfold XSSort. eapply exec_bind with (a := (smembers X, None)); [by eapply SMembers_wp|]. exact Hx.
  - unfold XZSort. eapply exec_bind; [eapply ZRangeByLex_all; [by apply short_key|done..]|]. exact Hx.
Qed.

End Spec.

(** ** Frame *)

Section Contained.
Context {B : Backend} {BS : BackendSpec B} {F : FloatSyntax} {P : SortPkg}.
Implicit Types (db : DB).

Lemma contained_lookup db pattern subKey : contained db (lookupKeyByPattern db pattern subKey).
Proof. unfold lookupKeyByPattern. contained_auto. Qed.
#[local] Hint Resolve contained_lookup : ledis.

Lemma contained_sort_items db alpha dontsort sortBy values : contained db (sort_items db alpha dontsort sortBy values).
Proof. induction values; cbn [sort_items]; unfold sort_item; contained_auto. Qed.

Lemma contained_sort_results db sortGet items : contained db (sort_results db sortGet items).
Proof.
  assert (H : forall value gets, contained db (sort_gets db gets value)) by (intros value gets; induction gets; cbn [sort_gets]; contained_auto).
  induction items; cbn [sort_results]; contained_auto.
Qed.
#[local] Hint Resolve contained_sort_items contained_sort_results : ledis.

Lemma contained_xsort db values offset size alpha desc sortBy sortGet : contained db (xsort db values offset size alpha desc sortBy sortGet).
Proof. unfold xsort, sort_output. contained_auto. Qed.
#[local] Hint Resolve contained_xsort : ledis.

Lemma contained_XLSort db key offset size alpha desc sortBy sortGet : contained db (XLSort db key offset size alpha desc sortBy sortGet).
Proof. unfold XLSort. contained_auto. Qed.

Lemma contained_XSSort db key offset size alpha desc sortBy sortGet : contained db (XSSort db key offset size alpha desc sortBy sortGet).
Proof. unfold XSSort. contained_auto. Qed.

Lemma contained_XZSort db key offset size alpha desc sortBy sortGet : contained db (XZSort db key offset size alpha desc sortBy sortGet).
Proof. unfold XZSort. contained_auto. Qed.
End Contained.

#[export] Hint Resolve contained_XLSort contained_XSSort contained_XZSort : ledis.

(** * Properties *)


(** What sorting does beyond that.  A limit whose end exceeds the integers ends the sort in
    a panic.  A pattern that starts with the star never reads a hash.  The comparison is no
    order when looked up values are missing, an element without one is less than itself; nor
    when a score is NaN. *)
Lemma sort_anomalies :
  (forall (B : Backend) (F : FloatSyntax) (P : SortPkg) (db : DB) (st : St),
    (xsort db [[99]; [98]; [97]] 2 (2 ^ 63 - 1) true false None [] st).1 = Panic) /\
  pattern_key [42; 45; 62; 119] [97] = ([97; 45; 62; 119], None) /\
  pattern_key [107; 42; 45; 62; 119] [97] = ([107; 97], Some [119]) /\
  (forall v f, Less true true (mkItem v None f) (mkItem v None f) = true) /\
  (exists x y z, Less false false x y = true /\ Less false false y z = true /\ Less false false x z = false).
Proof.
  split; [|split; [|split; [|split]]]; try done.
  exists (mkItem [97] None (float64_of_int64 2)), (mkItem [98] None S754_nan), (mkItem [99] None (float64_of_int64 1)). by vm_compute.
Qed.

(** * Witnesses *)

(** Numbers of one digit. *)
#[local] Existing Instances ex_sort ex_sort_spec.
#[local] Instance ex_floats : FloatSyntax := fun b =>
  match b with [d] => if (48 <=? d) && (d <=? 57) then inl (float64_of_int64 (d - 48)) else inr errIntNumber | _ => inr errIntNumber end.

