(* ===== verification/Scan.v ===== *)
(** * Scanning (src/ledis/scan.go)

    Keys of a data type and members of a collection, from a cursor on, forward or
    backward, optionally filtered by a regular expression.  The expressions are those of
    Go's [regexp] package; compiling and matching are parameters. *)

From S2P Require Import Prelude Driver Store Keys Util Core Frame Refine Coll KV TList THash TSet TZSet.

Class Regexp := {
  regexp : Type;
  regexp_Compile : bytes -> regexp + error;
  regexp_Match : regexp -> bytes -> bool
}.

(** [DataType] of const.go. *)
Inductive DataType := TKV | TLIST | THASH | TSET | TZSET | TOther (b : Z).

Definition getDataStoreType (dataType : DataType) : Z + error :=
  match dataType with
  | TKV => inl KVType
  | TLIST => inl LMetaType
  | THASH => inl HSizeType
  | TSET => inl SSizeType
  | TZSET => inl ZSizeType
  | TOther _ => inr errDataType
  end.

Definition defaultScanCount : Z := 10.

Definition checkScanCount (count : Z) : Z := if count <=? 0 then defaultScanCount else count.

Definition encodeScanKey (db : DB) (storeDataType : Z) (key : bytes) : bytes + error :=
  if storeDataType =? KVType then inl (encodeKVKey db key)
  else if storeDataType =? LMetaType then inl (lEncodeMetaKey db key)
  else if storeDataType =? HSizeType then inl (hEncodeSizeKey db key)
  else if storeDataType =? ZSizeType then inl (zEncodeSizeKey db key)
  else if storeDataType =? SSizeType then inl (sEncodeSizeKey db key)
  else inr errDataType.

Definition decodeScanKey (db : DB) (storeDataType : Z) (ek : bytes) : bytes + error :=
  if storeDataType =? KVType then decodeKVKey db ek
  else if storeDataType =? LMetaType then lDecodeMetaKey db ek
  else if storeDataType =? HSizeType then hDecodeSizeKey db ek
  else if storeDataType =? ZSizeType then zDecodeSizeKey db ek
  else if storeDataType =? SSizeType then sDecodeSizeKey db ek
  else inr errDataType.

Definition encodeScanMinKey (db : DB) (storeDataType : Z) (key : bytes) : bytes + error := encodeScanKey db storeDataType key.

Definition encodeScanMaxKey (db : DB) (storeDataType : Z) (key : bytes) : bytes + error :=
  if len key >? 0 then encodeScanKey db storeDataType key
  else
    match encodeScanKey db storeDataType [] with
    | inr err => inr err
    | inl k => inl (set_last k (storeDataType + 1))
    end.

Definition buildScanKeyRange (db : DB) (storeDataType : Z) (key : bytes) (reverse : bool) : (bytes * bytes) + error :=
  match encodeScanMinKey db storeDataType (if reverse then [] else key) with
  | inr err => inr err
  | inl minKey =>
      match encodeScanMaxKey db storeDataType (if reverse then key else []) with
      | inr err => inr err
      | inl maxKey => inl (minKey, maxKey)
      end
  end.

Definition encodeDataScanKey (db : DB) (storeDataType : Z) (key cursor : bytes) : bytes + error :=
  if storeDataType =? HashType then inl (hEncodeHashKey db key cursor)
  else if storeDataType =? ZSetType then inl (zEncodeSetKey db key cursor)
  else if storeDataType =? SetType then inl (sEncodeSetKey db key cursor)
  else inr errDataType.

Definition encodeDataScanMinKey (db : DB) (storeDataType : Z) (key cursor : bytes) : bytes + error :=
  encodeDataScanKey db storeDataType key cursor.

(** Without a cursor the last byte of the key, the separator, is increased. *)
Definition encodeDataScanMaxKey (db : DB) (storeDataType : Z) (key cursor : bytes) : bytes + error :=
  if len cursor >? 0 then encodeDataScanKey db storeDataType key cursor
  else
    match encodeDataScanKey db storeDataType key [] with
    | inr err => inr err
    | inl k => inl (set_last k (uint8 (default 0 (last k) + 1)))
    end.

Definition buildDataScanKeyRange (db : DB) (storeDataType : Z) (key cursor : bytes) (reverse : bool) : (bytes * bytes) + error :=
  match encodeDataScanMinKey db storeDataType key (if reverse then [] else cursor) with
  | inr err => inr err
  | inl minKey =>
      match encodeDataScanMaxKey db storeDataType key (if reverse then cursor else []) with
      | inr err => inr err
      | inl maxKey => inl (minKey, maxKey)
      end
  end.

(** The range type of a scan. *)
Definition scan_type (inclusive reverse : bool) : Z :=
  if inclusive then (if reverse then RangeLOpen else RangeROpen) else RangeOpen.

Section Ops.
Context {B : Backend} {R : Regexp}.
Implicit Types (db : DB) (key cursor : bytes).

Definition buildMatchRegexp (mtch : bytes) : option regexp + error :=
  if len mtch >? 0 then
    match regexp_Compile mtch with inl r => inl (Some r) | inr err => inr err end
  else inl None.

(** [r != nil && !r.Match(k)] is the negation. *)
Definition matches (r : option regexp) (k : bytes) : bool :=
  match r with None => true | Some r => regexp_Match r k end.

Definition buildScanIterator (minKey maxKey : bytes) (inclusive reverse : bool) : M RangeLimitIterator :=
  if negb reverse then bucket_RangeIterator (Some minKey) (Some maxKey) (scan_type inclusive reverse)
  else bucket_RevRangeIterator (Some minKey) (Some maxKey) (scan_type inclusive reverse).

(** The loop of [scanGeneric]; [left] is [count - i]. *)
Fixpoint scan_loop db (storeDataType : Z) (r : option regexp) (items : list (bytes * bytes)) (left : Z) : list bytes :=
  match items with
  | [] => []
  | (ek, _) :: items' =>
      if left <=? 0 then []
      else
        match decodeScanKey db storeDataType ek with
        | inr _ => scan_loop db storeDataType r items' left
        | inl k => if negb (matches r k) then scan_loop db storeDataType r items' left
                   else k :: scan_loop db storeDataType r items' (left - 1)
        end
  end.

Definition scanGeneric db (storeDataType : Z) key (count : Z) (inclusive : bool) (mtch : bytes) (reverse : bool) : M (list bytes * option error) :=
  match buildMatchRegexp mtch with
  | inr err => mret ([], Some err)
  | inl r =>
      match buildScanKeyRange db storeDataType key reverse with
      | inr err => mret ([], Some err)
      | inl (minKey, maxKey) =>
          let count := checkScanCount count in
          it ← buildScanIterator minKey maxKey inclusive reverse;
          mret (scan_loop db storeDataType r (rli_items it) count, None)
      end
  end.

Definition Scan db (dataType : DataType) cursor (count : Z) (inclusive : bool) (mtch : bytes) : M (list bytes * option error) :=
  match getDataStoreType dataType with
  | inr err => mret ([], Some err)
  | inl t => scanGeneric db t cursor count inclusive mtch false
  end.

Definition RevScan db (dataType : DataType) cursor (count : Z) (inclusive : bool) (mtch : bytes) : M (list bytes * option error) :=
  match getDataStoreType dataType with
  | inr err => mret ([], Some err)
  | inl t => scanGeneric db t cursor count inclusive mtch true
  end.

Definition buildDataScanIterator db (storeDataType : Z) key cursor (inclusive reverse : bool) : M (RangeLimitIterator + error) :=
  match checkKeySize key with
  | Some err => mret (inr err)
  | None =>
      match buildDataScanKeyRange db storeDataType key cursor reverse with
      | inr err => mret (inr err)
      | inl (minKey, maxKey) => it ← buildScanIterator minKey maxKey inclusive reverse; mret (inl it)
      end
  end.

(** The loops of [hScanGeneric], [sScanGeneric] and [zScanGeneric]: decoding a key may
    panic, an error ends the call, [entry] builds the element of the result. *)
Fixpoint data_scan_loop {A} (decode : bytes -> outcome ((bytes * bytes) + error)) (entry : bytes -> bytes -> A + error)
    (r : option regexp) (items : list (bytes * bytes)) (left : Z) : outcome (list A * option error) :=
  match items with
  | [] => Ret ([], None)
  | (ek, v) :: items' =>
      if left <=? 0 then Ret ([], None)
      else
        match decode ek with
        | Panic => Panic
        | Ret (inr err) => Ret ([], Some err)
        | Ret (inl (_, f)) =>
            if negb (matches r f) then data_scan_loop decode entry r items' left
            else
              match entry f v with
              | inr err => Ret ([], Some err)
              | inl a =>
                  match data_scan_loop decode entry r items' (left - 1) with
                  | Panic => Panic
                  | Ret (_, Some err) => Ret ([], Some err)
                  | Ret (l, None) => Ret (a :: l, None)
                  end
              end
        end
  end.

Definition data_scan {A} db (storeDataType : Z) (decode : bytes -> outcome ((bytes * bytes) + error)) (entry : bytes -> bytes -> A + error)
    key cursor (count : Z) (inclusive : bool) (mtch : bytes) (reverse : bool) : M (list A * option error) :=
  let count := checkScanCount count in
  match buildMatchRegexp mtch with
  | inr err => mret ([], Some err)
  | inl r =>
      it ← buildDataScanIterator db storeDataType key cursor inclusive reverse;
      match it with
      | inr err => mret ([], Some err)
      | inl it => lift (data_scan_loop decode entry r (rli_items it) count)
      end
  end.

Definition hScanGeneric db key cursor (count : Z) (inclusive : bool) (mtch : bytes) (reverse : bool) : M (list (bytes * bytes) * option error) :=
  data_scan db HashType (hDecodeHashKey db) (fun f v => inl (f, v)) key cursor count inclusive mtch reverse.

Definition HScan db key cursor count inclusive mtch := hScanGeneric db key cursor count inclusive mtch false.
Definition HRevScan db key cursor count inclusive mtch := hScanGeneric db key cursor count inclusive mtch true.

Definition sScanGeneric db key cursor (count : Z) (inclusive : bool) (mtch : bytes) (reverse : bool) : M (list bytes * option error) :=
  data_scan db SetType (sDecodeSetKey db) (fun m _ => inl m) key cursor count inclusive mtch reverse.

Definition SScan db key cursor count inclusive mtch := sScanGeneric db key cursor count inclusive mtch false.
Definition SRevScan db key cursor count inclusive mtch := sScanGeneric db key cursor count inclusive mtch true.

Definition zScanGeneric db key cursor (count : Z) (inclusive : bool) (mtch : bytes) (reverse : bool) : M (list ScorePair * option error) :=
  data_scan db ZSetType (zDecodeSetKey db)
    (fun m v => match Int64 (Some v) None with (_, Some err) => inr err | (score, None) => inl (mkScorePair score m) end)
    key cursor count inclusive mtch reverse.

Definition ZScan db key cursor count inclusive mtch := zScanGeneric db key cursor count inclusive mtch false.
Definition ZRevScan db key cursor count inclusive mtch := zScanGeneric db key cursor count inclusive mtch true.

End Ops.

(** * Specification *)

(** The names a scan from [cursor] selects. *)
Definition scan_sel (cursor : bytes) (inclusive reverse : bool) (n : bytes) : bool :=
  if reverse then
    bool_decide (blt [] n) &&
    match cursor with
    | [] => true
    | _ => if inclusive then bool_decide (ble n cursor) else bool_decide (blt n cursor)
    end
  else if inclusive then bool_decide (ble cursor n) else bool_decide (blt cursor n).

Definition directed {A} (reverse : bool) (l : list A) : list A := if reverse then List.rev l else l.

(** The names of the keys of a store type, in order. *)
Definition plain_name (db : DB) (T : Z) (e : bytes * bytes) : option bytes :=
  match decode_plain T errDataType db e.1 with inl n => Some n | inr _ => None end.

Definition type_names (db : DB) (m : gmap bytes bytes) (T : Z) : list bytes := omap (plain_name db T) (sorted_entries m).

(** The store types of the meta entries. *)
Definition scan_type_ok (T : Z) : Prop := T = KVType \/ T = LMetaType \/ T = HSizeType \/ T = ZSizeType \/ T = SSizeType.

Lemma decode_plain_inv db T err k n : decode_plain T err db k = inl n <-> k = indexVarBuf db ++ T :: n.
Proof.
  split; [|intros ->; apply decode_plain_app]. unfold decode_plain, checkKeyIndex. set (p := indexVarBuf db).
  destruct (len k <? len p) eqn:E1; [done|]. case_bool_decide as E2; [|done]. zify_bool. cbn [negb].
  destruct (len p + 1 >? len k) eqn:E3; [done|]. case_bool_decide as E4; [|done]. cbn [negb]. intros [= <-].
  rewrite <- (take_drop (length p) k) at 1. rewrite <- E2. f_equal. rewrite Nat2Z.id in E4.
  replace (Z.to_nat (len p + 1)) with (S (length p)) by lia. by apply drop_S.
Qed.

Lemma decodeScanKey_plain db T ek :
  scan_type_ok T -> match decodeScanKey db T ek with inl n => Some n | inr _ => None end = plain_name db T (ek, []).
Proof.
  unfold plain_name. cbn [fst].
  assert (HE : forall err, match decode_plain T err db ek with inl n => Some n | inr _ => None end =
                           match decode_plain T errDataType db ek with inl n => Some n | inr _ => None end).
  { intros err. destruct (decode_plain T err db ek) eqn:E1, (decode_plain T errDataType db ek) eqn:E2; try done.
    - apply decode_plain_inv in E1. subst. rewrite decode_plain_app in E2. by injection E2 as ->.
    - apply decode_plain_inv in E1. subst. by rewrite decode_plain_app in E2.
    - apply decode_plain_inv in E2. subst. by rewrite decode_plain_app in E1. }
  intros [->|[->|[->|[->| ->]]]]; apply HE.
Qed.

Lemma encodeScanKey_plain db T key : scan_type_ok T -> encodeScanKey db T key = inl (indexVarBuf db ++ T :: key).
Proof. by intros [->|[->|[->|[->| ->]]]]. Qed.

Lemma omap_filter {A C} (f : A -> option C) (P : A -> bool) (Q : C -> bool) (l : list A) :
  (forall x y, f x = Some y -> P x = Q y) ->
  omap f (filter (fun x => P x = true) l) = filter (fun y => Q y = true) (omap f l).
Proof.
  intros H. induction l as [|x l IH]; [done|]. rewrite filter_cons. cbn [omap list_omap].
  destruct (f x) as [y|] eqn:E.
  - rewrite filter_cons. rewrite <- (H x y E). case_decide; [cbn [omap list_omap]; rewrite E; by f_equal|done].
  - case_decide; [cbn [omap list_omap]; by rewrite E|done].
Qed.

Lemma omap_rev {A C} (f : A -> option C) (l : list A) : omap f (List.rev l) = List.rev (omap f l).
Proof.
  induction l as [|x l IH]; [done|]. cbn [List.rev omap list_omap]. rewrite omap_app, IH. cbn [omap list_omap].
  destruct (f x); simpl; [done|by rewrite app_nil_r].
Qed.

Lemma filter_rev {A} (P : A -> Prop) `{!forall x, Decision (P x)} (l : list A) : filter P (List.rev l) = List.rev (filter P l).
Proof.
  induction l as [|x l IH]; [done|]. cbn [List.rev]. rewrite filter_app, IH, !filter_cons. case_decide; cbn [List.rev]; [done|].
  by rewrite filter_nil, app_nil_r.
Qed.

(** The range of a scan below the prefix [p ++ [c]]. *)
Definition scan_min (p : bytes) (c : Z) (cursor : bytes) (reverse : bool) : bytes := p ++ c :: (if reverse then [] else cursor).
Definition scan_max (p : bytes) (c : Z) (cursor : bytes) (reverse : bool) : bytes :=
  if reverse then match cursor with [] => p ++ [c + 1] | _ => p ++ c :: cursor end else p ++ [c + 1].

Lemma scan_bounds p c cursor inclusive reverse n (v : bytes) :
  in_range (mkRange (Some (scan_min p c cursor reverse)) (Some (scan_max p c cursor reverse)) (scan_type inclusive reverse)) (p ++ c :: n, v)
  = scan_sel cursor inclusive reverse n.
Proof.
  assert (Hc : forall a b, bcmp (p ++ c :: a) (p ++ c :: b) = bcmp a b).
  { intros a b. rewrite bcmp_app. cbn [bcmp]. by rewrite Z.compare_refl. }
  assert (Hs : bcmp (p ++ c :: n) (p ++ [c + 1]) = Lt).
  { rewrite bcmp_app. cbn [bcmp]. by rewrite (proj2 (Z.compare_lt_iff c (c + 1))) by lia. }
  unfold in_range, above_min, below_max, scan_type, scan_sel, scan_min, scan_max. cbn [Min Max RType fst].
  destruct reverse, inclusive;
    repeat match goal with |- context [Z.land ?a ?b >? 0] => let v := eval vm_compute in (Z.land a b >? 0) in change (Z.land a b >? 0) with v end;
    cbv iota; destruct cursor; rewrite ?ble_bool, ?blt_bool, ?Hc, ?Hs, ?andb_true_r; done.
Qed.

(** Nothing else is in the range, except possibly its end. *)
Lemma scan_bounds_only p c cursor inclusive reverse k (v : bytes) :
  in_range (mkRange (Some (scan_min p c cursor reverse)) (Some (scan_max p c cursor reverse)) (scan_type inclusive reverse)) (k, v) = true ->
  (exists n, k = p ++ c :: n) \/ k = p ++ [c + 1].
Proof.
  unfold in_range, above_min, below_max. cbn [Min Max RType fst]. intros [H1 H2]%andb_true_iff.
  assert (L1 : ble (scan_min p c cursor reverse) k).
  { destruct (_ >? 0); apply bool_decide_eq_true in H1; [apply ble_alt; by left|done]. }
  assert (L2 : ble k (scan_max p c cursor reverse)).
  { clear H1. destruct (_ >? 0); apply bool_decide_eq_true in H2; [apply ble_alt; by left|done]. }
  assert (L3 : ble (p ++ [c]) (scan_min p c cursor reverse)).
  { unfold scan_min. apply ble_app. unfold ble. cbn [bcmp]. rewrite Z.compare_refl. by destruct reverse, cursor. }
  assert (L4 : ble (scan_max p c cursor reverse) (p ++ [c + 1])).
  { unfold scan_max. destruct reverse; [destruct cursor|]; try (apply ble_alt; by right). apply ble_app. unfold ble. cbn [bcmp].
    by rewrite (proj2 (Z.compare_lt_iff c (c + 1))) by lia. }
  apply ble_alt in L2. assert (L5 : ble (p ++ [c]) k) by (by transitivity (scan_min p c cursor reverse)).
  destruct L2 as [L2| ->].
  - left. apply prefix_range. split; [done|]. by eapply blt_ble_trans.
  - apply ble_alt in L4 as [L4|L4]; [left; by apply prefix_range|by right].
Qed.

(** The range of a key scan. *)
Lemma scan_range db T cursor reverse :
  scan_type_ok T ->
  buildScanKeyRange db T cursor reverse = inl (scan_min (indexVarBuf db) T cursor reverse, scan_max (indexVarBuf db) T cursor reverse).
Proof.
  intros HT. unfold buildScanKeyRange, encodeScanMinKey, encodeScanMaxKey, scan_min, scan_max. rewrite !encodeScanKey_plain, set_last_snoc by done.
  by destruct reverse, cursor.
Qed.

Section Spec.
Context {B : Backend} {BS : BackendSpec B} {R : Regexp}.
Implicit Types (db : DB) (m : gmap bytes bytes) (e : Env).

Lemma scan_loop_ok db T r items left :
  scan_type_ok T -> scan_loop db T r items left = take (Z.to_nat left) (filter (fun n => matches r n = true) (omap (plain_name db T) items)).
Proof.
  intros HT. revert left; induction items as [|[ek v] items IH]; intros left; cbn [scan_loop omap list_omap]; [by rewrite filter_nil, take_nil|].
  pose proof (decodeScanKey_plain db T ek HT) as HD. change (plain_name db T (ek, v)) with (plain_name db T (ek, [])).
  destruct (left <=? 0) eqn:E; zify_bool; [replace (Z.to_nat left) with 0%nat by lia; done|].
  destruct (decodeScanKey db T ek) as [n|]; rewrite <- HD; [|apply IH]. rewrite filter_cons.
  destruct (matches r n) eqn:EM; cbn [negb]; [rewrite decide_True by done|rewrite decide_False by done; apply IH].
  rewrite IH. replace (Z.to_nat left) with (S (Z.to_nat (left - 1))) by lia. done.
Qed.

(** What a scan of keys returns. *)
Definition scanned db m (T : Z) (r : option regexp) (cursor : bytes) (count : Z) (inclusive reverse : bool) : list bytes :=
  take (Z.to_nat (checkScanCount count))
    (filter (fun n => matches r n = true) (directed reverse (filter (fun n => scan_sel cursor inclusive reverse n = true) (type_names db m T)))).

Lemma wp_buildScanIterator minKey maxKey inclusive reverse (Q : RangeLimitIterator -> _ -> _ -> _ -> Prop) m b e :
  (forall it, rli_items it = directed reverse (range_entries m (mkRange (Some minKey) (Some maxKey) (scan_type inclusive reverse))) -> Q it m b e) ->
  wp (buildScanIterator minKey maxKey inclusive reverse) Q m b e.
Proof.
  intros HQ. unfold buildScanIterator. destruct reverse; cbn [negb].
  - rewrite bucket_RevRangeIterator_limit. wp_auto. apply HQ. rewrite H, cut_all. unfold directed. by rewrite rev_alt.
  - rewrite bucket_RangeIterator_limit. wp_auto. apply HQ. by rewrite H, cut_all.
Qed.

Lemma scanGeneric_wp db T cursor count inclusive mtch r reverse (Q : list bytes * option error -> _ -> _ -> _ -> Prop) m b e :
  scan_type_ok T -> buildMatchRegexp mtch = inl r ->
  Q (scanned db m T r cursor count inclusive reverse, None) m b e ->
  wp (scanGeneric db T cursor count inclusive mtch reverse) Q m b e.
Proof.
  intros HT Hr HQ. set (minKey := scan_min (indexVarBuf db) T cursor reverse). set (maxKey := scan_max (indexVarBuf db) T cursor reverse).
  unfold scanGeneric. rewrite Hr, scan_range by done. apply wp_bind, wp_buildScanIterator. intros it Hit. wp_auto.
  rewrite scan_loop_ok, Hit by done. unfold scanned, type_names in HQ.
  rewrite <- (omap_filter (plain_name db T) (in_range (mkRange (Some minKey) (Some maxKey) (scan_type inclusive reverse)))) in HQ.
  - fold (range_entries m (mkRange (Some minKey) (Some maxKey) (scan_type inclusive reverse))) in HQ.
    destruct reverse; cbn [directed] in *; [by rewrite omap_rev|done].
  - intros [k v] n Hn. unfold plain_name in Hn. cbn [fst] in Hn. destruct (decode_plain _ _ _ _) as [n'|] eqn:E; [|done]. injection Hn as ->.
    apply decode_plain_inv in E. subst k. apply scan_bounds.
Qed.

(** ** A complete iteration *)

Lemma type_names_sorted db m T : StronglySorted blt (type_names db m T).
Proof.
  unfold type_names. pose proof (sorted_entries_sorted m) as HS. induction (sorted_entries m) as [|[k v] l IH]; [constructor|].
  rewrite fmap_cons in HS. apply StronglySorted_inv in HS as [HS HF]. cbn [omap list_omap]. destruct (plain_name db T (k, v)) as [n|] eqn:E; [|by apply IH].
  constructor; [by apply IH|]. apply Forall_forall. intros n' Hn'. apply list_elem_of_omap in Hn' as ([k' v'] & Hin & E').
  unfold plain_name in E, E'. cbn [fst] in *. destruct (decode_plain _ _ _ k) as [n1|] eqn:E1; [|done]. injection E as ->.
  destruct (decode_plain _ _ _ k') as [n2|] eqn:E2; [|done]. injection E' as ->.
  apply decode_plain_inv in E1, E2. subst. rewrite Forall_forall in HF.
  specialize (HF _ (list_elem_of_fmap_2 fst _ _ Hin)). simpl in HF. apply blt_app in HF. unfold blt in *. simpl in HF.
  by rewrite Z.compare_refl in HF.
Qed.

Lemma elem_of_type_names db m (T : Z) (n : bytes) : n ∈ type_names db m T <-> is_Some (m !! (indexVarBuf db ++ T :: n)).
Proof.
  unfold type_names. rewrite list_elem_of_omap. split.
  - intros ([k v] & Hin & Hn). apply elem_of_sorted_entries in Hin. unfold plain_name in Hn. cbn [fst] in Hn.
    destruct (decode_plain _ _ _ k) as [n'|] eqn:E; [|done]. injection Hn as ->. apply decode_plain_inv in E. subst k. eauto.
  - intros [v Hv]. exists (indexVarBuf db ++ T :: n, v). split; [by apply elem_of_sorted_entries|]. unfold plain_name. cbn [fst].
    by rewrite decode_plain_app.
Qed.

(** Scanning on from the last name returned gives the names that follow. *)
Lemma filter_after (l : list bytes) n c :
  StronglySorted blt l -> l !! n = Some c -> filter (fun x => bool_decide (blt c x) = true) l = drop (S n) l.
Proof.
  revert n; induction l as [|x l IH]; intros n HS Hn; [done|]. apply StronglySorted_inv in HS as [HS HF]. rewrite Forall_forall in HF.
  destruct n as [|n]; cbn [drop].
  - injection Hn as ->. rewrite filter_cons, decide_False by (rewrite bool_decide_eq_true; apply blt_irrefl).
    rewrite drop_0. clear -HF. induction l as [|y l IH]; [done|]. rewrite filter_cons, decide_True by (apply bool_decide_eq_true, HF; constructor).
    f_equal. apply IH. intros z Hz. apply HF. by constructor.
  - simpl in Hn. rewrite filter_cons, decide_False; [by apply IH|]. rewrite bool_decide_eq_true. intros Hlt.
    apply list_elem_of_lookup_2 in Hn. apply (blt_irrefl c). eapply blt_trans; [exact Hlt|by apply HF].
Qed.

(** ** Members of a collection *)

(** The entries of a range inside a collection. *)
Lemma member_range m (pre : bytes) (c : Z) (h : gmap bytes bytes) r :
  (forall f, m !! (pre ++ c :: f) = h !! f) ->
  (forall k v, m !! k = Some v -> in_range r (k, v) = true -> exists f, k = pre ++ c :: f) ->
  range_entries m r = map (fun p => (pre ++ c :: p.1, p.2)) (filter (fun p => in_range r (pre ++ c :: p.1, p.2) = true) (sorted_entries h)).
Proof.
  intros Hm Hr. apply range_entries_eq.
  - unfold sorted_keys. rewrite <- list_fmap_compose. pose proof (sorted_entries_sorted h) as HS.
    induction (sorted_entries h) as [|x l IH]; [constructor|]. rewrite fmap_cons in HS. apply StronglySorted_inv in HS as [HS HF].
    rewrite filter_cons. case_decide; [|by apply IH]. rewrite fmap_cons. constructor; [by apply IH|].
    apply Forall_forall. intros k (y & -> & [_ Hy]%list_elem_of_filter)%list_elem_of_fmap. rewrite Forall_fmap, Forall_forall in HF.
    simpl. apply blt_app. unfold blt. simpl. rewrite Z.compare_refl. by apply HF.
  - intros k v. rewrite list_elem_of_fmap. split.
    + intros ([f v'] & [= -> ->] & [Hin Hf]%list_elem_of_filter). apply elem_of_sorted_entries in Hf. simpl in *. rewrite Hm. eauto.
    + intros [Hv Hin]. destruct (Hr k v Hv Hin) as [f ->]. rewrite Hm in Hv. exists (f, v). split; [done|].
      apply list_elem_of_filter. split; [done|]. by apply elem_of_sorted_entries.
Qed.

(** The prefix of the members of a collection, by its type. *)
Definition data_type_ok (T : Z) : Prop := T = HashType \/ T = ZSetType \/ T = SetType.

Lemma encodeDataScanKey_member db T key cursor :
  data_type_ok T -> encodeDataScanKey db T key cursor = inl (member_pre db T key ++ hashStartSep :: cursor).
Proof. intros [->|[->| ->]]; cbn; f_equal; [apply hEncodeHashKey_split|apply zEncodeSetKey_split|apply sEncodeSetKey_split]. Qed.

Lemma data_scan_range db T key cursor reverse :
  data_type_ok T ->
  buildDataScanKeyRange db T key cursor reverse =
  inl (scan_min (member_pre db T key) hashStartSep cursor reverse, scan_max (member_pre db T key) hashStartSep cursor reverse).
Proof.
  intros HT. unfold buildDataScanKeyRange, encodeDataScanMinKey, encodeDataScanMaxKey, scan_min, scan_max.
  rewrite !encodeDataScanKey_member by done.
  assert (Hlast : forall p, set_last (p ++ [hashStartSep]) (uint8 (default 0 (last (p ++ [hashStartSep])) + 1)) = p ++ [hashStartSep + 1]).
  { intros p. rewrite last_snoc. apply set_last_snoc. }
  rewrite Hlast. by destruct reverse, cursor.
Qed.

(** The end of the range of a collection is not a key. *)
Lemma no_end_key db m T key : short key -> data_type_ok T -> well_keyed db m -> m !! (member_pre db T key ++ [hashStartSep + 1]) = None.
Proof.
  intros Hk HT Hw. destruct (m !! _) as [v|] eqn:E; [|done]. exfalso. destruct (Hw _ _ E) as (sk & Hsk & He).
  { unfold member_pre. rewrite <- app_assoc. by eexists. }
  rewrite encode_split in He. unfold member_pre in He. rewrite <- app_assoc in He. apply app_inv_head in He.
  rewrite <- app_comm_cons in He. apply cons_inv in He as [HT' He].
  destruct HT as [->|[->| ->]]; destruct sk; try (vm_compute in HT'; discriminate); cbn [tail_of] in He; symmetry in He;
    apply name_prefix_inj in He as [_ He]; try done; vm_compute in He; congruence.
Qed.

(** What a scan of a collection returns. *)
Definition data_scanned (h : gmap bytes bytes) (r : option regexp) (cursor : bytes) (count : Z) (inclusive reverse : bool) : list (bytes * bytes) :=
  take (Z.to_nat (checkScanCount count))
    (filter (fun p => matches r p.1 = true) (directed reverse (filter (fun p => scan_sel cursor inclusive reverse p.1 = true) (sorted_entries h)))).

Lemma data_scan_loop_ok {A} (decode : bytes -> outcome ((bytes * bytes) + error)) (entry : bytes -> bytes -> A + error) (key : bytes)
    (g : bytes * bytes -> A) (enc : bytes -> bytes) r (ps : list (bytes * bytes)) left :
  (forall f, decode (enc f) = Ret (inl (key, f))) -> (forall p, p ∈ ps -> entry p.1 p.2 = inl (g p)) ->
  data_scan_loop decode entry r (map (fun p => (enc p.1, p.2)) ps) left =
  Ret (map g (take (Z.to_nat left) (filter (fun p => matches r p.1 = true) ps)), None).
Proof.
  intros Hd. revert left; induction ps as [|p ps IH]; intros left Hp; cbn [map data_scan_loop]; [by rewrite filter_nil, take_nil|].
  destruct (left <=? 0) eqn:E; zify_bool; [replace (Z.to_nat left) with 0%nat by lia; done|].
  rewrite Hd, filter_cons. destruct (matches r p.1) eqn:EM; cbn [negb].
  - rewrite decide_True by done. rewrite (Hp p) by constructor. rewrite IH by (intros q Hq; apply Hp; by constructor).
    replace (Z.to_nat left) with (S (Z.to_nat (left - 1))) by lia. done.
  - rewrite decide_False by done. apply IH. intros q Hq. apply Hp. by constructor.
Qed.

Lemma data_scan_wp {A} db (T : Z) (decode : bytes -> outcome ((bytes * bytes) + error)) (entry : bytes -> bytes -> A + error) (g : bytes * bytes -> A)
    (key cursor : bytes) (count : Z) (inclusive : bool) (mtch : bytes) (r : option regexp) (reverse : bool) (h : gmap bytes bytes) (Q : list A * option error -> _ -> _ -> _ -> Prop) m b e :
  data_type_ok T -> checkKeySize key = None -> well_keyed db m -> buildMatchRegexp mtch = inl r ->
  (forall f, m !! (member_pre db T key ++ hashStartSep :: f) = h !! f) ->
  (forall f, decode (member_pre db T key ++ hashStartSep :: f) = Ret (inl (key, f))) ->
  (forall f v, h !! f = Some v -> entry f v = inl (g (f, v))) ->
  Q (map g (data_scanned h r cursor count inclusive reverse), None) m b e ->
  wp (data_scan db T decode entry key cursor count inclusive mtch reverse) Q m b e.
Proof.
  intros HT Hk Hw Hr Hm Hd He HQ. unfold data_scan. rewrite Hr. unfold buildDataScanIterator. rewrite Hk, data_scan_range by done.
  wp_auto. apply wp_buildScanIterator. intros it Hit. wp_auto.
  rewrite (member_range m (member_pre db T key) hashStartSep h) in Hit; [|done|].
  2: { intros k v Hv [?|Hend]%scan_bounds_only; [done|]. subst k. rewrite no_end_key in Hv by (done || by apply short_key). done. }
  assert (Hit' : rli_items it = map (fun p => (member_pre db T key ++ hashStartSep :: p.1, p.2))
    (directed reverse (filter (fun p => scan_sel cursor inclusive reverse p.1 = true) (sorted_entries h)))).
  { rewrite Hit. unfold directed. rewrite (filter_iff_in _ (fun p => scan_sel cursor inclusive reverse p.1 = true)).
    - destruct reverse; [|done]. by rewrite map_rev.
    - intros p _. by rewrite scan_bounds. }
  rewrite Hit'. rewrite (data_scan_loop_ok decode entry key g (fun f => member_pre db T key ++ hashStartSep :: f)); [wp_auto; exact HQ|done|].
  intros [f v] Hp. apply He. apply elem_of_sorted_entries.
  assert ((f, v) ∈ filter (fun p => scan_sel cursor inclusive reverse p.1 = true) (sorted_entries h)) as [_ Hin]%list_elem_of_filter.
  { unfold directed in Hp. destruct reverse; [|done]. by rewrite list_elem_of_In, <- in_rev, <- list_elem_of_In in Hp. }
  done.
Qed.

Lemma HScan_wp db (key : bytes) (cursor : bytes) (count : Z) (inclusive : bool) (mtch : bytes) (r : option regexp) (reverse : bool) (h : gmap bytes bytes) (Q : list (bytes * bytes) * option error -> _ -> _ -> _ -> Prop) m b e :
  checkKeySize key = None -> well_keyed db m -> hash_rep db m key h -> buildMatchRegexp mtch = inl r ->
  Q (data_scanned h r cursor count inclusive reverse, None) m b e ->
  wp (hScanGeneric db key cursor count inclusive mtch reverse) Q m b e.
Proof.
  intros Hk Hw Hr Hm HQ. unfold hScanGeneric. eapply (data_scan_wp db HashType _ _ (fun p => p)); try done; [by left|..].
  - intros f. rewrite <- hEncodeHashKey_split. apply (cr_members _ _ _ _ _ Hr f).
  - intros f. rewrite <- hEncodeHashKey_split. apply (decode_member_named HashType errHashKey). by apply short_key.
  - by rewrite map_id.
Qed.

Lemma SScan_wp db (key : bytes) (cursor : bytes) (count : Z) (inclusive : bool) (mtch : bytes) (r : option regexp) (reverse : bool) (X : gset bytes) (Q : list bytes * option error -> _ -> _ -> _ -> Prop) m b e :
  checkKeySize key = None -> well_keyed db m -> set_rep db m key X -> buildMatchRegexp mtch = inl r ->
  Q (map fst (data_scanned (set_map X) r cursor count inclusive reverse), None) m b e ->
  wp (sScanGeneric db key cursor count inclusive mtch reverse) Q m b e.
Proof.
  intros Hk Hw Hr Hm HQ. unfold sScanGeneric. eapply (data_scan_wp db SetType _ _ fst); try done; [by right; right|..].
  - intros f. rewrite <- sEncodeSetKey_split. apply (cr_members _ _ _ _ _ Hr f).
  - intros f. rewrite <- sEncodeSetKey_split. apply (decode_member_named SetType errSetKey). by apply short_key.
Qed.

(** The members of a sorted set, in the order of their names. *)
Definition zscanned (z : gmap bytes Z) (r : option regexp) (cursor : bytes) (count : Z) (inclusive reverse : bool) : list ScorePair :=
  map (fun p => mkScorePair (Int64 (Some p.2) None).1 p.1) (data_scanned (PutInt64 <$> z) r cursor count inclusive reverse).

Lemma ZScan_wp db (key : bytes) (cursor : bytes) (count : Z) (inclusive : bool) (mtch : bytes) (r : option regexp) (reverse : bool) (z : gmap bytes Z) (Q : list ScorePair * option error -> _ -> _ -> _ -> Prop) m b e :
  checkKeySize key = None -> well_keyed db m -> zset_rep db m key z -> buildMatchRegexp mtch = inl r ->
  Q (zscanned z r cursor count inclusive reverse, None) m b e ->
  wp (zScanGeneric db key cursor count inclusive mtch reverse) Q m b e.
Proof.
  intros Hk Hw [Hz _] Hm HQ. unfold zScanGeneric. eapply (data_scan_wp db ZSetType _ _ (fun p => mkScorePair (Int64 (Some p.2) None).1 p.1)); try done; [by right; left|..].
  - intros f. rewrite <- zEncodeSetKey_split, (zp_members _ _ _ _ Hz). by rewrite lookup_fmap.
  - intros f. rewrite <- zEncodeSetKey_split. apply zDecodeSetKey_named. by apply short_key.
  - intros f v Hf. rewrite lookup_fmap in Hf. destruct (z !! f) as [s|] eqn:E; [|done]. injection Hf as <-.
    rewrite Int64_PutInt64 by (by eapply valid_i64, zp_scores). cbn [fst snd]. by rewrite Int64_PutInt64 by (by eapply valid_i64, zp_scores).
Qed.

(** ** Containment *)

Lemma contained_buildScanIterator db minKey maxKey inclusive reverse : contained db (buildScanIterator minKey maxKey inclusive reverse).
Proof. unfold buildScanIterator, bucket_RangeIterator, bucket_RevRangeIterator. contained_auto. Qed.
#[local] Hint Resolve contained_buildScanIterator : ledis.
Lemma contained_scanGeneric db d T cursor count inclusive mtch reverse : contained d (scanGeneric db T cursor count inclusive mtch reverse).
Proof. unfold scanGeneric. contained_auto. Qed.
Lemma contained_data_scan {A} db d T decode (entry : bytes -> bytes -> A + error) key cursor count inclusive mtch reverse :
  contained d (data_scan db T decode entry key cursor count inclusive mtch reverse).
Proof. unfold data_scan, buildDataScanIterator. contained_auto. Qed.

End Spec.

#[export] Hint Resolve contained_scanGeneric contained_data_scan : ledis.

(** * Properties *)

Section Iteration.
Context {B : Backend} {R : Regexp}.

(** A client that scans on from the last key it was given until it is given none. *)
Fixpoint scan_from (fuel : nat) (db : DB) (dataType : DataType) (cursor : bytes) (count : Z) : M (option (list bytes)) :=
  match fuel with
  | O => mret None
  | S fuel' =>
      '(keys, err) ← Scan db dataType cursor count false [];
      match err, last keys with
      | None, Some c => rest ← scan_from fuel' db dataType c count; mret (app keys <$> rest)
      | None, None => mret (Some [])
      | Some _, _ => mret None
      end
  end.

Context {BS : BackendSpec B}.

Lemma filter_filter_after (l : list bytes) (c c' : bytes) :
  blt c c' -> filter (fun x => bool_decide (blt c' x) = true) l =
  filter (fun x => bool_decide (blt c' x) = true) (filter (fun x => bool_decide (blt c x) = true) l).
Proof using.
  intros Hc. rewrite list_filter_filter. apply filter_iff_in. intros x _. rewrite !bool_decide_eq_true. split; [|naive_solver].
  intros Hx. split; [done|]. by eapply blt_trans.
Qed.

Lemma filter_sorted (l : list bytes) (P : bytes -> Prop) `{!forall x, Decision (P x)} :
  StronglySorted blt l -> StronglySorted blt (filter P l).
Proof using.
  induction 1 as [|x l HS IH HF]; [constructor|]. rewrite filter_cons. case_decide; [|done]. constructor; [done|].
  apply Forall_forall. intros y [_ Hy]%list_elem_of_filter. rewrite Forall_forall in HF. auto.
Qed.

Lemma type_store_ok dataType T : getDataStoreType dataType = inl T -> scan_type_ok T.
Proof using. unfold scan_type_ok. destruct dataType; simpl; intros [= <-]; auto. Qed.

Lemma wp_scan_from (fuel : nat) (db : DB) (dataType : DataType) (T : Z) (cursor : bytes) (count : Z)
    (Q : option (list bytes) -> _ -> _ -> _ -> Prop) (m : gmap bytes bytes) b (e : Env) :
  let left := filter (fun n => bool_decide (blt cursor n) = true) (type_names db m T) in
  getDataStoreType dataType = inl T -> (length left < fuel)%nat ->
  Q (Some left) m b e -> wp (scan_from fuel db dataType cursor count) Q m b e.
Proof using BS.
  intros left HT. revert cursor left Q; induction fuel as [|fuel IH]; intros cursor left Q Hf HQ; [lia|]. cbn [scan_from].
  assert (HS : StronglySorted blt left) by apply filter_sorted, type_names_sorted.
  unfold Scan. rewrite HT. apply wp_bind, (scanGeneric_wp db T cursor count false [] None false); [by eapply type_store_ok|done|].
  set (n := Z.to_nat (checkScanCount count)). assert (Hn : (0 < n)%nat).
  { unfold n, checkScanCount, defaultScanCount. destruct (_ <=? 0) eqn:E; zify_bool; lia. }
  assert (ES : scanned db m T None cursor count false false = take n left).
  { unfold scanned, directed. fold n. f_equal. rewrite list_filter_filter. apply filter_iff_in. intros x _. unfold scan_sel, matches. cbv iota. split; [by intros [_ ?]|by split]. }
  rewrite ES. cbv beta iota zeta. destruct (last (take n left)) as [c|] eqn:El.
  - rewrite last_lookup in El. pose proof El as Hc. rewrite length_take in El.
    rewrite lookup_take_lt in El by (apply lookup_lt_Some in Hc; lia). set (i := pred (n `min` length left)) in El.
    assert (Hi : drop (S i) left = drop n left).
    { apply lookup_lt_Some in El. destruct (decide (n <= length left)%nat); [f_equal; lia|]. rewrite !drop_ge by lia. done. }
    assert (Hcc : blt cursor c) by (apply list_elem_of_lookup_2, list_elem_of_filter in El as [El _]; by apply bool_decide_eq_true in El).
    assert (EL : filter (fun x => bool_decide (blt c x) = true) (type_names db m T) = drop n left).
    { rewrite (filter_filter_after _ cursor c) by done. fold left. by rewrite (filter_after left i c). }
    apply wp_bind, IH; rewrite EL; [|wp_auto; cbn [fmap option_fmap option_map]; by rewrite take_drop].
    rewrite length_drop. apply lookup_lt_Some in El. lia.
  - apply last_None in El. wp_auto. destruct left as [|x left]; [done|]. destruct n; [lia|done].
Qed.


(** Scanning the members of a collection.  [HScan], [SScan] and [ZScan], and the
    reverse ones, return the members of the collection after the cursor (or from it on
    when inclusive) that match the pattern, in the order of their bytes or in the reverse
    order, at most the count (10 when it is not positive), with their values or scores. *)
Lemma data_scans (db : DB) (key cursor : bytes) (count : Z) (inclusive : bool) (mtch : bytes) (r : option regexp) (rev : bool)
    (h : gmap bytes bytes) (X : gset bytes) (z : gmap bytes Z) (m : gmap bytes bytes) (e : Env) :
  checkKeySize key = None -> well_keyed db m -> buildMatchRegexp mtch = inl r ->
  hash_rep db m key h -> set_rep db m key X -> zset_rep db m key z ->
  let sel x := scan_sel cursor inclusive rev x && matches r x in
  let pick {A} (name : A -> bytes) (l : list A) :=
    take (Z.to_nat (if count <=? 0 then 10 else count)) (filter (fun p => sel (name p) = true) (directed rev l)) in
  runs (hScanGeneric db key cursor count inclusive mtch rev) m e (fun res m' _ => m' = m /\ res = (pick fst (sorted_entries h), None)) /\
  runs (sScanGeneric db key cursor count inclusive mtch rev) m e (fun res m' _ => m' = m /\ res = (pick (fun x => x) (smembers X), None)) /\
  runs (zScanGeneric db key cursor count inclusive mtch rev) m e (fun res m' _ => m' = m /\
    exists ps, res = (ps, None) /\ map (fun p => (Member p, PutInt64 (Score p))) ps = pick fst (sorted_entries (PutInt64 <$> z))).
Proof using BS.
  intros Hk Hw Hm Hh HX Hz sel pick.
  assert (Hpick : forall h, data_scanned h r cursor count inclusive rev = pick (bytes * bytes)%type fst (sorted_entries h)).
  { intros h'. unfold data_scanned, pick, checkScanCount, defaultScanCount, sel. f_equal. unfold directed.
    destruct rev; rewrite ?filter_rev, list_filter_filter; [f_equal|]; apply filter_iff_in; intros x _; rewrite andb_true_iff; naive_solver. }
  assert (Hmap : forall {A C} (f : A -> C) (na : A -> bytes) (nc : C -> bytes) (l : list A), (forall a, nc (f a) = na a) ->
    map f (pick A na l) = pick C nc (map f l)).
  { intros A C f na nc l Hn. unfold pick, directed. rewrite <- firstn_map. f_equal. transitivity (filter (fun p => sel (nc p) = true) (map f (if rev then List.rev l else l))).
    - generalize (if rev then List.rev l else l) as l'. induction l' as [|a l' IH]; [done|]. cbn [map]. rewrite !filter_cons, Hn.
      case_decide; cbn [map]; by rewrite IH.
    - f_equal. destruct rev; [by rewrite map_rev|done]. }
  split; [|split].
  - apply (HScan_wp db key cursor count inclusive mtch r rev h); [done..|]. by rewrite Hpick.
  - apply (SScan_wp db key cursor count inclusive mtch r rev X); [done..|]. split; [done|]. split; [done|]. rewrite Hpick.
    by rewrite (Hmap _ _ fst fst (fun x => x)).
  - apply (ZScan_wp db key cursor count inclusive mtch r rev z); [done..|]. split; [done|]. split; [done|]. unfold zscanned. rewrite Hpick.
    eexists. split; [done|]. rewrite map_map. etrans; [|apply map_id]. apply map_ext_in. intros [x v] Hp. cbn [fst snd Member Score].
    apply list_elem_of_In, elem_of_take in Hp as (i & Hp & _). apply list_elem_of_lookup_2, list_elem_of_filter in Hp as [_ Hp].
    assert (Hx : (x, v) ∈ sorted_entries (PutInt64 <$> z)).
    { unfold directed in Hp. destruct rev; [|done]. by rewrite list_elem_of_In, <- in_rev, <- list_elem_of_In in Hp. }
    apply elem_of_sorted_entries in Hx. rewrite lookup_fmap in Hx. destruct (z !! x) as [sc|] eqn:E; [|done].
    injection Hx as <-. by rewrite Int64_PutInt64 by (eapply valid_i64, zp_scores; [apply Hz|exact E]).
Qed.

End Iteration.

(** ** Examples *)

(** Patterns that match by prefix, to have an instance. *)
#[local] Instance prefix_regexp : Regexp := {|
  regexp := bytes;
  regexp_Compile s := inl s;
  regexp_Match r k := bool_decide (r `prefix_of` k)
|}.


Lemma data_scans_witness :
  runs (B := MemBackend) (sScanGeneric db0 [107] [97] 0 false [98] false) ex_set env0 (fun res _ _ => res = ([[98]], None)).
Proof.
  assert (Hh : hash_rep db0 ex_set [107] ∅).
  { apply (rep_frame (C := hash_container) db0 [107] SetType [107] ∅); [done|by left|apply ex_set_made|].
    apply (rep_empty (C := hash_container) db0 [107]). }
  assert (Hz : zset_rep db0 ex_set [107] ∅).
  { apply (rep_frame (C := zset_container) db0 [107] SetType [107] ∅); [done|by left|apply ex_set_made|].
    apply (rep_empty (C := zset_container) db0 [107]). }
  assert (Hw : well_keyed db0 ex_set) by apply ex_set_made, well_keyed_empty.
  eapply wp_mono; [exact (proj1 (proj2 (data_scans (B := MemBackend) db0 [107] [97] 0 false [98] (Some [98]) false ∅ {[ [97]; [98] ]} ∅
    ex_set env0 eq_refl Hw eq_refl Hh ex_set_rep Hz)))|].
  intros res m' b' e' (-> & -> & ->). split; [reflexivity|]. vm_compute. reflexivity.
Defined.
