(* ===== verification/Database.v ===== *)
(** * A whole database

    The invariant of the entries of a database ([wf_db]: every key decodes, every list,
    hash, set and sorted set is one, every expiration entry is well formed), and the
    functions that delete the data of a key, as the expiration checker (t_ttl.go) and the
    flush operations (ledis_db.go) select them by data type. *)

From S2P Require Import Prelude Driver Store Keys Util Core Frame Refine Coll KV TList THash TSet TZSet.

(** The data types the operations keep under a key. *)
Definition data_type (T : Z) : Prop := T = KVType \/ T = ListType \/ T = HashType \/ T = SetType \/ T = ZSetType.

Section Defs.
Context {B : Backend}.

(** The callbacks [newTTLChecker] registers, also the [deleteFunc] of [flushType]. *)
Definition deleteFunc (db : DB) (dataType : Z) : option (BatchId -> bytes -> M Z) :=
  if dataType =? KVType then Some (delete_kv db)
  else if dataType =? ListType then Some (lDelete db)
  else if dataType =? HashType then Some (hDelete db)
  else if dataType =? ZSetType then Some (zDelete db)
  else if dataType =? SetType then Some (sDelete db)
  else None.

(** The batches [newTTLChecker] registers. *)
Definition txs (dataType : Z) : option BatchId :=
  if dataType =? KVType then Some kvBatch
  else if dataType =? ListType then Some listBatch
  else if dataType =? HashType then Some hashBatch
  else if dataType =? ZSetType then Some zsetBatch
  else if dataType =? SetType then Some setBatch
  else None.

End Defs.

(** * The invariant *)

(** The key holds a list, a hash, a set and a sorted set (possibly empty ones). *)
Record wf_key (db : DB) (m : gmap bytes bytes) (key : bytes) : Prop := {
  wk_list : exists l, list_rep db m key l;
  wk_hash : exists h, hash_rep db m key h /\ Z.of_nat (size h) < 2 ^ 61;
  wk_set : exists X, set_rep db m key X /\ Z.of_nat (size X) < 2 ^ 61;
  wk_zset : exists z, zset_rep db m key z /\ Z.of_nat (size z) < 2 ^ 61
}.

(** The key an entry belongs to. *)
Definition name_of (k : skey) : bytes :=
  match k with
  | KV key | Hash key _ | HSize key | LItem key _ | LMeta key | ZMember key _ | ZSize key | ZScoreOf key _ _
  | SMember key _ | SSize key | ExpMeta _ key | ExpTime _ key _ => key
  end.

Record wf_db (db : DB) (m : gmap bytes bytes) : Prop := {
  wf_keyed : well_keyed db m;
  wf_keys : forall key, short key -> wf_key db m key;
  wf_meta : forall T key v, m !! expEncodeMetaKey db T key = Some v -> exists w, 0 < w < 2 ^ 63 /\ v = PutInt64 w;
  wf_time : forall T key w v, in_i64 w -> m !! expEncodeTimeKey db T key w = Some v ->
    0 < w /\ v = expEncodeMetaKey db T key /\ data_type T;
  wf_names : forall k v, representable k -> m !! encode db k = Some v -> checkKeySize (name_of k) = None
}.

Lemma belongs_name T key k : belongs T key k -> name_of k = key.
Proof. destruct k; by intros [_ ?]. Qed.

(** The key has no data of type [T]. *)
Definition gone (db : DB) (m : gmap bytes bytes) (T : Z) (key : bytes) : Prop :=
  forall k, representable k -> belongs T key k -> is_exp k = false -> m !! encode db k = None.

(** The records delete all data of type [T] the key has in [m], and nothing of other keys. *)
Record clears (db : DB) (T : Z) (key : bytes) (m : gmap bytes bytes) (ops : list BatchOp) : Prop := {
  cl_for : ops_for db T key ops;
  cl_del : forall op, op ∈ ops -> exists k, op = OpDelete k;
  cl_all : forall k v, representable k -> belongs T key k -> is_exp k = false ->
    m !! encode db k = Some v -> OpDelete (encode db k) ∈ ops
}.

#[global] Instance BatchOp_eq_dec : EqDecision BatchOp.
Proof. solve_decision. Defined.

Lemma apply_dels (ops : list BatchOp) (m : gmap bytes bytes) (k : bytes) :
  (forall op, op ∈ ops -> exists k, op = OpDelete k) ->
  apply_ops ops m !! k = if decide (OpDelete k ∈ ops) then None else m !! k.
Proof.
  revert m; induction ops as [|op ops IH]; intros m Hd; [done|].
  destruct (Hd op) as [k' ->]; [constructor|]. cbn [apply_ops fold_left apply_op].
  change (fold_left apply_op ops ?m1) with (apply_ops ops m1). rewrite IH by (intros o Ho; apply Hd; by constructor).
  destruct (decide (k' = k)) as [->|Hne].
  - rewrite lookup_delete_eq, (decide_True (P := OpDelete k ∈ OpDelete k :: ops)) by constructor. by case_decide.
  - rewrite lookup_delete_ne by done. repeat case_decide; try done; exfalso; set_solver.
Qed.

Lemma elem_of_concat_map {A C} (f : A -> list C) xs y : y ∈ concat (map f xs) <-> exists x, x ∈ xs /\ y ∈ f x.
Proof.
  induction xs as [|x xs IH]; simpl; [set_solver|]. rewrite elem_of_app, IH. setoid_rewrite elem_of_cons. naive_solver.
Qed.

Lemma rm_ops_dels db m T key op : op ∈ rm_ops db m T key -> exists k, op = OpDelete k.
Proof.
  unfold rm_ops. destruct (m !! _); [|set_solver]. destruct (Int64 _ _) as [w [err|]]; [set_solver|]. set_solver.
Qed.

(** ** The functions clear *)

Section Clears.
Context (db : DB) (key : bytes) (Hk : short key).
Implicit Types (m : gmap bytes bytes).

Lemma clears_kv m : clears db KVType key m [OpDelete (encodeKVKey db key)].
Proof using.
  split.
  - by apply (ops_for_cons _ _ _ _ _ (KV key)); [..|constructor].
  - intros op ->%list_elem_of_singleton. eauto.
  - intros k v Hr Hb He _. destruct k; try done; try (destruct Hb; by subst). simpl in Hb. destruct Hb as [_ ->]. constructor.
Qed.

Lemma clears_list m head l : list_at db m key head l -> clears db ListType key m (ldel_ops db key head l).
Proof using Hk.
  intros Hl. pose proof (list_seq_range _ _ _ _ _ Hl) as (H1 & H2 & H3 & H4 & H5). unfold ldel_ops. split.
  - apply ops_for_app; [|by apply (ops_for_cons _ _ _ _ _ (LMeta key)); [..|constructor]].
    apply (ops_for_map _ _ _ _ (fun s => LItem key s)). intros s Hs. simpl. split; [done|]. split; [|done]. split; [done|].
    by eapply seqZ_i32.
  - intros op [(s & -> & _)%list_elem_of_fmap|Hop%list_elem_of_singleton]%elem_of_app; eauto.
  - intros k v Hr Hb He Hv. apply elem_of_app. destruct k; try done; simpl in Hb; destruct Hb as [HT Hb]; try done; subst key0.
    + left. apply list_elem_of_fmap. exists seq. split; [done|]. destruct Hr as [_ Hs]. simpl in Hv.
      rewrite (la_items _ _ _ _ _ Hl) in Hv by done. destruct (head <=? seq) eqn:E; [|done]. zify_bool.
      apply lookup_lt_Some in Hv. apply elem_of_seqZ. lia.
    + right. by apply list_elem_of_singleton.
Qed.

Lemma elem_of_sorted_fst (h : gmap bytes bytes) x v : h !! x = Some v -> x ∈ (sorted_entries h).*1.
Proof using. intros Hx. apply elem_of_sorted_entries in Hx. by apply (list_elem_of_fmap_2 fst) in Hx. Qed.

(** The shape hashes and sets share. *)
Lemma clears_coll T (mem : bytes -> skey) sz m h :
  (forall f, representable (mem f)) -> representable sz -> (forall f, belongs T key (mem f)) -> belongs T key sz -> (forall f, is_exp (mem f) = false) ->
  (forall k, belongs T key k -> is_exp k = false -> k = sz \/ exists f, k = mem f) ->
  coll_rep db mem sz m h ->
  clears db T key m (map (member_op db mem) (map (fun x => (x, None)) (sorted_entries h).*1) ++ [OpDelete (encode db sz)]).
Proof using.
  intros Rm Rs Bm Bs Em Hall [Hm _]. split.
  - apply ops_for_app; [|by apply (ops_for_cons _ _ _ _ _ sz); [..|constructor]]. by apply ops_for_members.
  - intros op [Hop|Hop%list_elem_of_singleton]%elem_of_app; [|eauto]. rewrite map_map in Hop.
    apply list_elem_of_fmap in Hop as (x & -> & _). simpl. eauto.
  - intros k v Hr Hb He Hv. apply elem_of_app. destruct (Hall k Hb He) as [->|[f ->]].
    + right. by apply list_elem_of_singleton.
    + left. rewrite map_map. apply list_elem_of_fmap. exists f. split; [done|]. rewrite Hm in Hv. by eapply elem_of_sorted_fst.
Qed.

Lemma clears_hash m h : hash_rep db m key h -> clears db HashType key m (hdelete_ops db h key).
Proof using Hk.
  apply (clears_coll HashType (Hash key) (HSize key)); try done.
  intros [] Hb He; try done; simpl in Hb; destruct Hb as [HT Hb]; try done; subst; eauto.
Qed.

Lemma clears_set m X : set_rep db m key X -> clears db SetType key m (sdelete_ops db X key).
Proof using Hk.
  apply (clears_coll SetType (SMember key) (SSize key)); try done.
  intros [] Hb He; try done; simpl in Hb; destruct Hb as [HT Hb]; try done; subst; eauto.
Qed.

Lemma clears_zset m z : zset_rep db m key z -> clears db ZSetType key m (zremrange_ops db m z key (zsorted z)).
Proof using Hk.
  intros [Hz _]. unfold zremrange_ops. rewrite zsorted_length, Z.sub_diag. unfold size_ops. cbn [Z.leb Z.compare]. split.
  - apply ops_for_app.
    + apply ops_for_concat. intros p Hp. apply ops_for_zdrop; [done|]. by eapply zsorted_valid.
    + apply (ops_for_cons _ _ _ _ _ (ZSize key)); [done..|]. apply ops_for_rm.
  - intros op [(p & _ & Hop)%elem_of_concat_map|Hop]%elem_of_app.
    + unfold zdrop_ops in Hop. set_solver.
    + apply elem_of_cons in Hop as [->|Hop]; [eauto|]. by eapply rm_ops_dels.
  - intros k v Hr Hb He Hv. apply elem_of_app. destruct k as [| | | | |k x|k|k x s| | | |]; try done; simpl in Hb; destruct Hb as [HT ->]; try done.
    + left. simpl in Hv. rewrite (zp_members _ _ _ _ Hz) in Hv. destruct (z !! x) as [s|] eqn:E; [|done].
      apply elem_of_concat_map. exists (mkScorePair s x). split; [by apply elem_of_zsorted|]. constructor.
    + right. constructor.
    + left. simpl in Hv. destruct Hr as [_ Hs]. rewrite (zp_index _ _ _ _ Hz) in Hv by done. case_decide as Hx; [|done].
      apply elem_of_concat_map. exists (mkScorePair s x). split; [by apply elem_of_zsorted|]. by apply elem_of_cons; right; constructor.
Qed.

End Clears.

(** ** What clearing leaves *)

Lemma clears_gone db T key m m1 ops :
  clears db T key m ops -> (forall k, representable k -> belongs T key k -> is_exp k = false -> m1 !! encode db k = m !! encode db k) ->
  gone db (apply_ops ops m1) T key.
Proof.
  intros [_ Hd Ha] Hm k Hr Hb He. rewrite apply_dels by done. case_decide as Hk; [done|]. rewrite Hm by done.
  destruct (m !! encode db k) as [v|] eqn:E; [|done]. exfalso. by eapply Hk, Ha.
Qed.

Lemma gone_list db m key : gone db m ListType key -> short key -> list_rep db m key [].
Proof.
  intros Hg Hk. exists listInitialSeq. split; [done|done|by apply (Hg (LMeta key))|].
  intros s Hs. pose proof (Hg (LItem key s) (conj Hk Hs) (conj eq_refl eq_refl) eq_refl) as Hi. simpl in Hi. rewrite Hi. by destruct (_ <=? _).
Qed.

Lemma gone_hash db m key : gone db m HashType key -> short key -> hash_rep db m key ∅.
Proof. intros Hg Hk. split; [intros f; by apply (Hg (Hash key f))|by apply (Hg (HSize key))]. Qed.

Lemma gone_set db m key : gone db m SetType key -> short key -> set_rep db m key ∅.
Proof. intros Hg Hk. split; [intros f; by apply (Hg (SMember key f))|by apply (Hg (SSize key))]. Qed.

Lemma gone_zset db m key : gone db m ZSetType key -> short key -> zset_rep db m key ∅.
Proof.
  intros Hg Hk. split; [split|].
  - intros x. by apply (Hg (ZMember key x)).
  - intros x s Hs. by apply (Hg (ZScoreOf key x s)).
  - done.
  - by apply (Hg (ZSize key)).
Qed.

(** ** Keeping the invariant *)

(** The key holds data of type [T]. *)
Definition wf_at (db : DB) (m : gmap bytes bytes) (T : Z) (key : bytes) : Prop :=
  (T = ListType -> exists l, list_rep db m key l) /\
  (T = HashType -> exists h, hash_rep db m key h /\ Z.of_nat (size h) < 2 ^ 61) /\
  (T = SetType -> exists X, set_rep db m key X /\ Z.of_nat (size X) < 2 ^ 61) /\
  (T = ZSetType -> exists z, zset_rep db m key z /\ Z.of_nat (size z) < 2 ^ 61).

(** Its expiration entries are well formed. *)
Definition wf_exp (db : DB) (m : gmap bytes bytes) (T : Z) (key : bytes) : Prop :=
  (forall v, m !! expEncodeMetaKey db T key = Some v -> exists w, 0 < w < 2 ^ 63 /\ v = PutInt64 w) /\
  (forall w v, in_i64 w -> m !! expEncodeTimeKey db T key w = Some v ->
     0 < w /\ v = expEncodeMetaKey db T key /\ data_type T).

Lemma wf_db_at db m T key : wf_db db m -> short key -> wf_at db m T key /\ wf_exp db m T key.
Proof.
  intros [_ Hk Hm Ht _] Hs. destruct (Hk key Hs). split; [split; [|split; [|split]]; by intros _|]. split; eauto.
Qed.

Lemma wf_touch db T key m m' :
  wf_db db m -> touches db T key m m' -> (short key -> wf_at db m' T key) -> wf_exp db m' T key ->
  (forall k v, representable k -> belongs T key k -> m' !! encode db k = Some v -> checkKeySize key = None) -> wf_db db m'.
Proof.
  intros [Hw Hk Hm Ht Hn] HT Hat [He1 He2] Hc. pose proof HT as [HF _ HK]. split; [by apply HK| | | |].
  - intros k Hs. destruct (Hk k Hs) as [(l & Hl) (h & Hh & Bh) (X & HX & BX) (z & Hz & Bz)]. split.
    + destruct (decide (T = ListType /\ key = k)) as [[-> ->]|Hne]; [by apply (Hat Hs)|]. exists l.
      apply (list_rep_frame db m m' T key k l); [done..|by apply not_and_l in Hne|done].
    + destruct (decide (T = HashType /\ key = k)) as [[-> ->]|Hne]; [by apply (Hat Hs)|]. exists h. split; [|done].
      apply (hash_rep_frame db m m' T key k h); [done..|by apply not_and_l in Hne|done].
    + destruct (decide (T = SetType /\ key = k)) as [[-> ->]|Hne]; [by apply (Hat Hs)|]. exists X. split; [|done].
      apply (set_rep_frame db m m' T key k X); [done..|by apply not_and_l in Hne|done].
    + destruct (decide (T = ZSetType /\ key = k)) as [[-> ->]|Hne]; [by apply (Hat Hs)|]. exists z. split; [|done].
      apply (zset_rep_frame db k Hs m m' T key z); [done..|by apply not_and_l in Hne|done].
  - intros T' k v Hv. destruct (decide (T' = T /\ k = key)) as [[-> ->]|Hne]; [by apply He1|].
    apply (Hm T' k). rewrite <- Hv. symmetry. apply (HF (ExpMeta T' k)); [done|]. intros [-> ->]. by apply Hne.
  - intros T' k w v Hi Hv. destruct (decide (T' = T /\ k = key)) as [[-> ->]|Hne]; [by apply (He2 w)|].
    apply (Ht T' k w v Hi). rewrite <- Hv. symmetry. apply (HF (ExpTime T' k w)); [done|]. intros [-> ->]. by apply Hne.
  - intros k v Hr Hv. destruct (decide (belongs T key k)) as [Hb|Hb].
    + rewrite (belongs_name _ _ _ Hb). by eapply Hc.
    + apply (Hn k v Hr). by rewrite <- (HF k).
Qed.

(** Operations that write no expiration entry keep the remaining ones. *)
Lemma wf_exp_keeps db T key m m' : keeps db T key m m' -> wf_exp db m T key -> wf_exp db m' T key.
Proof.
  intros [_ HE] [H1 H2]. split.
  - intros v Hv. apply H1. by apply (HE (ExpMeta T key)).
  - intros w v Hw Hv. apply (H2 w v Hw). by apply (HE (ExpTime T key w)).
Qed.

(** An operation on one key that keeps its data well formed keeps the database well formed. *)
Lemma wf_keeps db T key m m' :
  wf_db db m -> keeps db T key m m' -> checkKeySize key = None -> wf_at db m' T key -> wf_db db m'.
Proof.
  intros Hwf HK Hk Hat. apply (wf_touch db T key m m'); [done|apply HK|done| |done].
  eapply wf_exp_keeps; [exact HK|]. by eapply wf_db_at, short_key.
Qed.

Lemma gone_wf_at db m T key : gone db m T key -> short key -> wf_at db m T key.
Proof.
  intros Hg Hk. split; [|split; [|split]]; intros ->; eexists.
  - by apply gone_list.
  - split; [by apply gone_hash|]. by rewrite map_size_empty.
  - split; [by apply gone_set|]. by rewrite size_empty.
  - split; [by apply gone_zset|]. by rewrite map_size_empty.
Qed.

(** Deleting all data of a key, and any of its expiration entries. *)
Lemma wf_clears db T key m ops dels :
  wf_db db m -> clears db T key m ops -> ops_for db T key dels -> (forall op, op ∈ dels -> exists k, op = OpDelete k) ->
  let m' := apply_ops (ops ++ dels) m in
  wf_db db m' /\ gone db m' T key /\ touches db T key m m'.
Proof.
  intros Hwf Hc Hf Hd m'. pose proof Hc as [Hcf Hcd _].
  assert (HT : touches db T key m m') by (by apply touches_ops, ops_for_app).
  assert (HG : gone db m' T key).
  { subst m'. rewrite apply_ops_app. intros k Hr Hb He. rewrite apply_dels by done. case_decide; [done|].
    by apply (clears_gone db T key m m ops). }
  assert (Hall : forall op, op ∈ ops ++ dels -> exists k, op = OpDelete k) by (intros op [?|?]%elem_of_app; auto).
  split; [|done]. apply (wf_touch db T key m); [done..| | |].
  - intros Hs. by apply gone_wf_at.
  - eapply wf_exp_keeps; [apply keeps_ops; by apply ops_for_app|destruct Hwf; split; eauto].
  - intros k v Hr Hb Hv. rewrite <- (belongs_name _ _ _ Hb). apply (wf_names _ _ Hwf k v Hr). subst m'. rewrite apply_dels in Hv by done.
    by case_decide.
Qed.

Section Delete.
Context {B : Backend} {BS : BackendSpec B}.

(** [deleteFunc] queues records that clear the key. *)
Lemma wp_deleteFunc db T f t key (Q : Z -> _ -> _ -> _ -> Prop) m b e :
  deleteFunc db T = Some f -> wf_db db m -> len key <= MaxKeySize ->
  (forall n ops, clears db T key m ops -> Q n m (add_ops t ops b) e) -> wp (f t key) Q m b e.
Proof.
  intros Hf [Hw Hk _ _ _] Hl HQ. assert (Hs : short key) by (unfold short, MaxKeySize in *; lia).
  destruct (Hk key Hs) as [(l & head & HL) (h & Hh & Bh) (X & HX & BX) (z & Hz & Bz)]. unfold deleteFunc in Hf.
  destruct (T =? KVType) eqn:E1; zify_bool; [subst T; injection Hf as <-; unfold delete_kv; wp_auto; apply HQ, clears_kv|].
  destruct (T =? ListType) eqn:E2; zify_bool.
  { subst T. injection Hf as <-. apply (wp_lDelete db t key head l); [done..|]. by apply HQ, clears_list. }
  destruct (T =? HashType) eqn:E3; zify_bool.
  { subst T. injection Hf as <-. apply (wp_hDelete db t key h); [done..|]. by apply HQ, clears_hash. }
  destruct (T =? ZSetType) eqn:E4; zify_bool.
  { subst T. injection Hf as <-. unfold zDelete. wp_auto. destruct score_bounds_i64.
    apply (wp_zRemRange db t key _ _ _ _ z); [done..|lia|done|done|].
    rewrite cut_all, (zby_score_all db m key z) by apply Hz. wp_auto. by apply HQ, clears_zset. }
  destruct (T =? SetType) eqn:E5; zify_bool; [|done].
  subst T. injection Hf as <-. apply (wp_sDelete db t key X); [done..|]. by apply HQ, clears_set.
Qed.

End Delete.

(** ** Well formed databases *)

Lemma wf_empty (db : DB) : wf_db db ∅.
Proof.
  split.
  - apply well_keyed_empty.
  - intros key Hk. assert (Hg : forall T, gone db ∅ T key) by (intros T k _ _ _; apply lookup_empty). split; eexists.
    + by apply gone_list.
    + split; [by apply gone_hash|]. by rewrite map_size_empty.
    + split; [by apply gone_set|]. by rewrite size_empty.
    + split; [by apply gone_zset|]. by rewrite map_size_empty.
  - intros T key v Hv. by rewrite lookup_empty in Hv.
  - intros T key w v _ Hv. by rewrite lookup_empty in Hv.
  - intros k v _ Hv. by rewrite lookup_empty in Hv.
Qed.

(** Data that is not changed stays well formed. *)
Lemma wf_at_same (db : DB) (T : Z) (key : bytes) (m m' : gmap bytes bytes) :
  short key -> wf_at db m T key ->
  (forall k, representable k -> is_exp k = false -> m' !! encode db k = m !! encode db k) -> wf_at db m' T key.
Proof.
  intros Hs (H1 & H2 & H3 & H4) Hother. split; [|split; [|split]]; intros ->.
  - destruct (H1 eq_refl) as (l & head & [L1 L2 L3 L4]). exists l, head. split; [done|done| |].
    + rewrite <- L3. by apply (Hother (LMeta key)).
    + intros s Hs'. rewrite <- L4 by done. by apply (Hother (LItem key s)).
  - destruct (H2 eq_refl) as (h & [C1 C2] & Hb). exists h. split; [|done]. split; [intros f; rewrite <- C1|rewrite <- C2]; by apply Hother.
  - destruct (H3 eq_refl) as (X & [C1 C2] & Hb). exists X. split; [|done]. split; [intros f; rewrite <- C1|rewrite <- C2]; by apply Hother.
  - destruct (H4 eq_refl) as (z & [[Z1 Z2 Z3] Z4] & Hb). exists z. split; [|done]. split; [split|].
    + intros x. rewrite <- Z1. by apply (Hother (ZMember key x)).
    + intros x s Hs'. rewrite <- Z2 by done. by apply (Hother (ZScoreOf key x s)).
    + done.
    + rewrite <- Z4. by apply (Hother (ZSize key)).
Qed.

(** An expiration in the future of the epoch. *)
Lemma wf_expire (db : DB) (T : Z) (key : bytes) (w : Z) (m : gmap bytes bytes) :
  wf_db db m -> data_type T -> checkKeySize key = None -> 0 < w < 2 ^ 63 -> wf_db db (apply_ops (expire_ops db T key w) m).
Proof.
  intros Hwf HT Hk Hw. assert (Hi : in_i64 w) by (unfold in_i64; lia). pose proof (short_key _ Hk) as Hs.
  pose proof (touches_expire db T key w m Hi) as Ht.
  assert (Hother : forall k, representable k -> is_exp k = false -> apply_ops (expire_ops db T key w) m !! encode db k = m !! encode db k).
  { intros k Hr He. cbn [expire_ops apply_ops fold_left apply_op]. rewrite !lookup_insert_ne; [done| |].
    - apply (encode_ne db (ExpTime T key w) k); [done..|]. by intros <-.
    - apply (encode_ne db (ExpMeta T key) k); [done..|]. by intros <-. }
  destruct (wf_db_at db m T key Hwf Hs) as [HA [E1 E2]].
  apply (wf_touch db T key m); [done|done| | |done].
  - intros _. by eapply wf_at_same.
  - cbn [expire_ops apply_ops fold_left apply_op]. split.
    + intros v Hv. rewrite lookup_insert_eq in Hv. injection Hv as <-. eauto.
    + intros w' v Hw' Hv. rewrite lookup_insert_ne in Hv by (by apply (encode_ne db (ExpMeta T key) (ExpTime T key w'))).
      destruct (decide (w' = w)) as [->|Hne]; [rewrite lookup_insert_eq in Hv; injection Hv as <-; split; [lia|done]|].
      rewrite lookup_insert_ne in Hv by (apply (encode_ne db (ExpTime T key w) (ExpTime T key w')); naive_solver). by apply (E2 w').
Qed.

(** Removing the expiration of a key. *)
Lemma wf_persist (db : DB) (T : Z) (key : bytes) (m : gmap bytes bytes) :
  wf_db db m -> checkKeySize key = None -> wf_db db (apply_ops (rm_ops db m T key) m).
Proof.
  intros Hwf Hk. pose proof (short_key _ Hk) as Hs. destruct (wf_db_at db m T key Hwf Hs) as [HA _].
  assert (Hother : forall k, representable k -> is_exp k = false -> apply_ops (rm_ops db m T key) m !! encode db k = m !! encode db k).
  { intros k Hr He. by apply apply_rm_other. }
  apply (wf_keeps db T key m); [done|apply keeps_ops, ops_for_rm|done|].
  by eapply wf_at_same.
Qed.
