(* ===== verification/Ttl.v ===== *)
(** * The expiration checker (src/ledis/t_ttl.go, [ttlChecker])

    [check] visits the time entries up to an hour ahead in the order of time, deletes the
    keys that are due and plans the next check.  [register] and [newTTLChecker] are
    [deleteFunc] and [txs] of Database.v; [setNextCheckTime] is in Core.v. *)

From S2P Require Import Prelude Driver Store Keys Util Core Frame Refine Coll KV TList THash TSet TZSet Database.

Section Ops.
Context {B : Backend}.

(** One iteration: the key of a time entry that is due is deleted if its meta entry is due
    as well; a missing meta entry counts as time 0. *)
Definition check_item (db : DB) (now : Z) (dt : Z) (k tk mk : bytes) : M unit :=
  if dt >=? maxDataType then panic
  else
    match txs dt, deleteFunc db dt with
    | Some t, Some cb =>
        with_lock t (
          '(v, e) ← bucket_Get mk;
          let '(exp, err) := Int64 v e in
          match err with
          | Some _ => mret tt
          | None =>
              if exp <=? now then
                _ ← cb t k;
                _ ← batch_Delete t tk;
                _ ← batch_Delete t mk;
                _ ← batch_Commit t;
                mret tt
              else mret tt
          end)
    | _, _ => mret tt
    end.

(** The loop of [check]: the time of the next check. *)
Fixpoint check_loop (db : DB) (now : Z) (items : list (bytes * bytes)) (nc : Z) : M Z :=
  match items with
  | [] => mret nc
  | (tk, mk) :: items' =>
      match expDecodeTimeKey db tk with
      | inr _ => check_loop db now items' nc
      | inl (dt, k, nt) =>
          if nt >? now then mret nt
          else _ ← check_item db now dt k tk mk; check_loop db now items' nc
      end
  end.

Definition check (db : DB) : M unit :=
  now ← time_now;
  nc ← gets (fun st => nc (env st));
  if now <? nc then mret tt
  else
    let nc := int64 (now + 3600) in
    let minKey := expEncodeTimeKey db NoneType [] 0 in
    let maxKey := expEncodeTimeKey db maxDataType [] nc in
    it ← bucket_RangeLimitIterator (Some minKey) (Some maxKey) RangeROpen 0 (-1);
    nc ← check_loop db now (rli_items it) nc;
    setNextCheckTime nc true.

End Ops.

(** * Specification *)

(** The time a key expires at, as [check] reads it. *)
Definition meta_time (db : DB) (m : gmap bytes bytes) (T : Z) (key : bytes) : Z :=
  (Int64 (m !! expEncodeMetaKey db T key) None).1.

(** A time entry of the store. *)
Record titem := mkTitem { ti_type : Z; ti_key : bytes; ti_time : Z }.

Definition titem_entry (db : DB) (i : titem) : bytes * bytes :=
  (expEncodeTimeKey db (ti_type i) (ti_key i) (ti_time i), expEncodeMetaKey db (ti_type i) (ti_key i)).

(** What one due time entry does to the store. *)
Definition expires (db : DB) (now : Z) (i : titem) (m m' : gmap bytes bytes) : Prop :=
  let T := ti_type i in
  let key := ti_key i in
  if meta_time db m T key <=? now then
    wf_db db m' /\ gone db m' T key /\ touches db T key m m' /\ (forall k, m' !! k = m !! k \/ m' !! k = None) /\
    m' !! expEncodeMetaKey db T key = None /\ m' !! expEncodeTimeKey db T key (ti_time i) = None
  else m' = m.

(** Several of them, in order. *)
Inductive expires_all (db : DB) (now : Z) : list titem -> gmap bytes bytes -> gmap bytes bytes -> Prop :=
  | ea_nil m : expires_all db now [] m m
  | ea_cons i rest m m1 m2 : expires db now i m m1 -> expires_all db now rest m1 m2 -> expires_all db now (i :: rest) m m2.

Lemma meta_range db m T key : in_i64 (meta_time db m T key).
Proof. apply Int64_range. Qed.

Lemma meta_no_error db m T key : wf_db db m -> Int64 (m !! expEncodeMetaKey db T key) None = (meta_time db m T key, None).
Proof.
  intros Hwf. unfold meta_time. destruct (m !! expEncodeMetaKey db T key) as [v|] eqn:E; [|done].
  destruct (wf_meta _ _ Hwf _ _ _ E) as (w & Hw & ->). rewrite Int64_PutInt64 by (unfold in_i64; lia). done.
Qed.

Lemma data_type_funcs {B : Backend} db T : data_type T -> T < maxDataType /\ exists t f, txs T = Some t /\ deleteFunc db T = Some f.
Proof. intros [->|[->|[->|[->| ->]]]]; (split; [done|]); eauto. Qed.

Section Spec.
Context {B : Backend} {BS : BackendSpec B}.
Implicit Types (db : DB) (m : gmap bytes bytes) (e : Env).

Lemma wp_check_item db now (i : titem) (Q : unit -> _ -> _ -> _ -> Prop) m e :
  wf_db db m -> in_i64 (ti_time i) -> data_type (ti_type i) -> checkKeySize (ti_key i) = None ->
  (forall m', expires db now i m m' -> wf_db db m' -> Q tt m' no_ops e) ->
  wp (check_item db now (ti_type i) (ti_key i) (titem_entry db i).1 (titem_entry db i).2) Q m no_ops e.
Proof.
  intros Hwf Hi HT Hk HQ. destruct (data_type_funcs db _ HT) as (Hmax & t & f & Ht & Hf). unfold check_item, expires in *.
  rewrite Z.geb_leb, (proj2 (Z.leb_gt _ _)) by done. rewrite Ht, Hf. cbn [titem_entry fst snd]. wp_auto.
  rewrite (meta_no_error db m _ _ Hwf). set (mt := meta_time db m _ _) in *.
  destruct (mt <=? now) eqn:E; [|wp_auto; by apply HQ]. wp_auto.
  apply (wp_deleteFunc db (ti_type i) f); [done|done|by apply key_le_max|]. intros n ops Hc. wp_auto.
  set (dels := [OpDelete (expEncodeTimeKey db (ti_type i) (ti_key i) (ti_time i)); OpDelete (expEncodeMetaKey db (ti_type i) (ti_key i))]).
  assert (Hdel : ops_for db (ti_type i) (ti_key i) dels).
  { apply (ops_for_cons _ _ _ _ _ (ExpTime (ti_type i) (ti_key i) (ti_time i))); [done..|].
    by apply (ops_for_cons _ _ _ _ _ (ExpMeta (ti_type i) (ti_key i))); [..|constructor]. }
  destruct (wf_clears db (ti_type i) (ti_key i) m ops dels Hwf Hc Hdel) as (HW & HG & HT'); [set_solver|].
  apply HQ; [|done]. split; [done|]. split; [done|]. split; [done|].
  assert (Hall : forall op, op ∈ ops ++ dels -> exists k, op = OpDelete k).
  { intros op [Ho|Ho]%elem_of_app; [by eapply cl_del|set_solver]. }
  split; [intros k; rewrite apply_dels by done; case_decide; auto|].
  split; (rewrite apply_dels by done; apply decide_True, elem_of_app; right; set_solver).
Qed.

(** The entries that are due, and the time of the first one that is not. *)
Fixpoint due (now : Z) (ts : list titem) : list titem :=
  match ts with [] => [] | i :: ts' => if ti_time i >? now then [] else i :: due now ts' end.
Fixpoint next_time (now : Z) (ts : list titem) (nc : Z) : Z :=
  match ts with [] => nc | i :: ts' => if ti_time i >? now then ti_time i else next_time now ts' nc end.

Definition wf_titem (i : titem) : Prop :=
  0 < ti_time i < 2 ^ 63 /\ data_type (ti_type i) /\ checkKeySize (ti_key i) = None.

Lemma wp_check_loop db now ts nc (Q : Z -> _ -> _ -> _ -> Prop) m e :
  wf_db db m -> Forall wf_titem ts ->
  (forall m', expires_all db now (due now ts) m m' -> wf_db db m' -> Q (next_time now ts nc) m' no_ops e) ->
  wp (check_loop db now (map (titem_entry db) ts) nc) Q m no_ops e.
Proof.
  intros Hwf Hts. revert m Hwf; induction Hts as [|i ts (Ht & HT & Hk) Hts IH]; intros m Hwf HQ; cbn [map check_loop due next_time] in *.
  - wp_auto. apply HQ; [constructor|done].
  - assert (Hi : in_i64 (ti_time i)) by (unfold in_i64; lia). unfold titem_entry at 1. rewrite expDecodeTimeKey_app by done.
    destruct (ti_time i >? now); [wp_auto; apply HQ; [constructor|done]|]. apply wp_bind.
    apply (wp_check_item db now i); [done..|]. intros m1 Hm1 Hwf1. apply IH; [done|]. intros m2 Hm2 Hwf2.
    apply HQ; [by econstructor|done].
Qed.

(** The range [check] iterates over. *)
Definition check_range (db : DB) (lim : Z) : Range :=
  mkRange (Some (expEncodeTimeKey db NoneType [] 0)) (Some (expEncodeTimeKey db maxDataType [] lim)) RangeROpen.

(** Time entries are in it by their time. *)
Lemma check_range_in db lim T key w v :
  0 <= lim < 2 ^ 63 -> 0 < w < 2 ^ 63 ->
  (w < lim -> in_range (check_range db lim) (expEncodeTimeKey db T key w, v) = true) /\
  (in_range (check_range db lim) (expEncodeTimeKey db T key w, v) = true -> w <= lim).
Proof.
  intros Hl Hw. unfold in_range, above_min, below_max, check_range. cbn [Min Max RType fst].
  change (Z.land RangeROpen RangeROpen >? 0) with true. change (Z.land RangeROpen RangeLOpen >? 0) with false. cbv iota.
  rewrite andb_true_iff, ble_bool, blt_bool, !expEncodeTimeKey_cmp by lia. rewrite (proj2 (Z.compare_lt_iff 0 w)) by lia.
  split; [intros H; by rewrite (proj2 (Z.compare_lt_iff w lim))|]. destruct (Z.compare_spec w lim); [lia|lia|]. intros [_ H1]. done.
Qed.

Lemma check_entry db m lim k v :
  wf_db db m -> 0 <= lim < 2 ^ 63 -> m !! k = Some v -> in_range (check_range db lim) (k, v) = true ->
  exists i, (k, v) = titem_entry db i /\ wf_titem i /\ ti_time i <= lim.
Proof.
  intros Hwf Hlim Hv Hr. assert (Hp : exists w, k = (indexVarBuf db ++ [ExpTimeType]) ++ w).
  { eapply (in_range_prefix _ (be_put 8 (uint64 0) ++ [NoneType]) (be_put 8 (uint64 lim) ++ [maxDataType]) RangeROpen k v).
    rewrite <- Hr. unfold check_range, expEncodeTimeKey. do 2 f_equal; f_equal; by rewrite <- app_assoc. }
  destruct Hp as [w0 ->]. destruct (wf_keyed _ _ Hwf _ _ Hv) as (sk & Hsk & He).
  { rewrite <- app_assoc. by eexists. }
  pose proof He as He'. rewrite encode_split, <- app_assoc in He'. apply app_inv_head in He'. apply cons_inv in He' as [HT _].
  destruct sk; try (vm_compute in HT; discriminate). simpl in Hsk, He. rewrite He in *.
  destruct (wf_time _ _ Hwf _ _ _ _ Hsk Hv) as (H1 & -> & H2).
  pose proof (wf_names _ _ Hwf (ExpTime dataType key when) _ Hsk Hv) as H3. exists (mkTitem dataType key when).
  assert (Hw : 0 < when < 2 ^ 63) by (unfold in_i64 in Hsk; lia). split; [done|]. split; [done|].
  by eapply (check_range_in db lim dataType key when).
Qed.

Lemma map_witness {A C} (f : A -> C) (P : A -> Prop) (l : list C) :
  (forall y, y ∈ l -> exists x, y = f x /\ P x) -> exists xs, l = map f xs /\ Forall P xs.
Proof.
  induction l as [|y l IH]; intros H; [by exists []|]. destruct (H y) as (x & -> & Hx); [constructor|].
  destruct IH as (xs & -> & Hxs); [intros z Hz; apply H; by constructor|]. exists (x :: xs). by split; [|constructor].
Qed.

(** The time entries [check] visits. *)
Lemma check_items db m lim :
  wf_db db m -> 0 <= lim < 2 ^ 63 ->
  exists ts,
    range_entries m (check_range db lim) = map (titem_entry db) ts /\
    Forall (fun i => wf_titem i /\ ti_time i <= lim) ts /\
    (forall i, i ∈ ts -> is_Some (m !! (titem_entry db i).1)) /\
    (forall T key w, w < lim -> in_i64 w -> is_Some (m !! expEncodeTimeKey db T key w) -> mkTitem T key w ∈ ts) /\
    StronglySorted (fun i j => ti_time i <= ti_time j) ts.
Proof.
  intros Hwf Hlim. destruct (map_witness (titem_entry db) (fun i => wf_titem i /\ ti_time i <= lim) (range_entries m (check_range db lim)))
    as (ts & Hts & HF).
  { intros [k v] [Hv Hr]%elem_of_range_entries. by eapply check_entry. }
  exists ts. split; [done|]. split; [done|]. split; [|split].
  - intros i Hi. apply (list_elem_of_fmap_2 (titem_entry db)) in Hi. change (titem_entry db <$> ts) with (map (titem_entry db) ts) in Hi.
    rewrite <- Hts in Hi. apply elem_of_range_entries in Hi as [Hi _]. eexists. exact Hi.
  - intros T key w Hw Hi [v Hv]. destruct (wf_time _ _ Hwf _ _ _ _ Hi Hv) as (H1 & -> & H2). unfold in_i64 in Hi.
    assert (Hin : titem_entry db (mkTitem T key w) ∈ range_entries m (check_range db lim)).
    { apply elem_of_range_entries. split; [done|]. apply (check_range_in db lim T key w); lia. }
    rewrite Hts in Hin. apply list_elem_of_fmap in Hin as (j & Hj & Hin). injection Hj as Hj _.
    rewrite Forall_forall in HF. destruct (HF j Hin) as [(Hj1 & _) _].
    apply (encode_inj db (ExpTime T key w) (ExpTime (ti_type j) (ti_key j) (ti_time j))) in Hj; [|unfold representable, in_i64; lia..].
    injection Hj as -> -> ->. by destruct j.
  - pose proof (range_entries_sorted m (check_range db lim)) as HS. rewrite Hts in HS. clear -HS HF.
    unfold sorted_keys in HS. induction ts as [|i ts IH]; [constructor|]. cbn [map] in HS. rewrite fmap_cons in HS.
    apply StronglySorted_inv in HS as [HS HA]. apply Forall_cons in HF as [[(Hi & _) _] HF]. constructor; [by apply IH|].
    apply Forall_forall. intros j Hj. rewrite Forall_forall in HF. destruct (HF j Hj) as [(Hj1 & _) _]. rewrite Forall_forall in HA.
    specialize (HA (titem_entry db j).1). cbn [titem_entry fst] in HA.
    assert (Hlt : blt (expEncodeTimeKey db (ti_type i) (ti_key i) (ti_time i)) (expEncodeTimeKey db (ti_type j) (ti_key j) (ti_time j))).
    { apply HA. apply list_elem_of_fmap. exists (titem_entry db j). split; [done|]. by apply list_elem_of_fmap_2. }
    unfold blt in Hlt. rewrite expEncodeTimeKey_cmp in Hlt by lia. destruct (Z.compare_spec (ti_time i) (ti_time j)); [lia|lia|done].
Qed.

(** ** What several expirations do *)

(** The entries of a key are the same in both stores. *)
Definition same_key db (T : Z) (key : bytes) m m' : Prop :=
  forall k, representable k -> belongs T key k -> m' !! encode db k = m !! encode db k.

Lemma same_key_meta db T key m m' : same_key db T key m m' -> meta_time db m' T key = meta_time db m T key.
Proof. intros Hs. unfold meta_time. pose proof (Hs (ExpMeta T key) I (conj eq_refl eq_refl)) as H. simpl in H. by rewrite H. Qed.

Lemma touches_same_key db T key T' key' m m' :
  touches db T' key' m m' -> ~ (T' = T /\ key' = key) -> same_key db T key m m'.
Proof. intros [HF _ _] Hne k Hr Hb. apply HF; [done|]. intros Hb'. destruct (belongs_unique _ _ _ _ _ Hb Hb') as [<- <-]. by apply Hne. Qed.

(** A step for another key, or for a key that is not due. *)
Lemma expires_same db now i m m' T key :
  expires db now i m m' -> now < meta_time db m T key \/ ~ (ti_type i = T /\ ti_key i = key) -> same_key db T key m m'.
Proof.
  unfold expires. intros H Hn. destruct (meta_time db m (ti_type i) (ti_key i) <=? now) eqn:E; [|by subst]. zify_bool.
  destruct H as (_ & _ & HT & _). apply (touches_same_key db T key _ _ _ _ HT). intros [E1 E2]. destruct Hn as [Hn|Hn]; [|tauto].
  subst. lia.
Qed.

Lemma expires_shrinks db now i m m' k : expires db now i m m' -> m' !! k = m !! k \/ m' !! k = None.
Proof. unfold expires. destruct (_ <=? _); [|intros ->; by left]. intros (_ & _ & _ & H & _). apply H. Qed.

Lemma expires_all_shrinks db now ts m m' k : expires_all db now ts m m' -> m' !! k = m !! k \/ m' !! k = None.
Proof.
  induction 1 as [|i ts m m1 m2 H _ IH]; [by left|]. pose proof (expires_shrinks _ _ _ _ _ k H) as [E|E]; rewrite E in IH; naive_solver.
Qed.

Lemma expires_all_same db now ts m m' T key :
  expires_all db now ts m m' -> now < meta_time db m T key \/ (forall i, i ∈ ts -> ~ (ti_type i = T /\ ti_key i = key)) ->
  same_key db T key m m'.
Proof.
  induction 1 as [m|i ts m m1 m2 H _ IH]; intros Hn; [done|].
  assert (H1 : same_key db T key m m1).
  { apply (expires_same db now i); [done|]. destruct Hn as [Hn|Hn]; [by left|right]. apply Hn. constructor. }
  assert (H2 : same_key db T key m1 m2).
  { apply IH. rewrite (same_key_meta _ _ _ _ _ H1). destruct Hn as [Hn|Hn]; [by left|right]. intros j Hj. apply Hn. by constructor. }
  intros k Hr Hb. by rewrite H2, H1.
Qed.

(** The meta entry stays or goes. *)
Lemma expires_meta db now i m m' T key :
  expires db now i m m' -> meta_time db m' T key = meta_time db m T key \/ meta_time db m' T key = 0.
Proof.
  intros H. unfold meta_time. destruct (expires_shrinks _ _ _ _ _ (expEncodeMetaKey db T key) H) as [-> | ->]; [by left|by right].
Qed.

Lemma expires_all_due db now ts m m' i :
  expires_all db now ts m m' -> i ∈ ts -> 0 <= now -> meta_time db m (ti_type i) (ti_key i) <= now ->
  gone db m' (ti_type i) (ti_key i) /\ m' !! expEncodeMetaKey db (ti_type i) (ti_key i) = None /\
  m' !! expEncodeTimeKey db (ti_type i) (ti_key i) (ti_time i) = None.
Proof.
  induction 1 as [m|j ts m m1 m2 H Hall IH]; intros Hi H0 Hm; [by apply not_elem_of_nil in Hi|].
  apply elem_of_cons in Hi as [->|Hi]; cycle 1.
  { apply IH; [done..|]. destruct (expires_meta _ _ _ _ _ (ti_type i) (ti_key i) H) as [E|E]; lia. }
  unfold expires in H. rewrite (proj2 (Z.leb_le _ _)) in H by done. destruct H as (_ & Hg & _ & _ & Hme & Hti).
  assert (Hnone : forall k, m1 !! k = None -> m2 !! k = None).
  { intros k Hk. destruct (expires_all_shrinks _ _ _ _ _ k Hall) as [E|E]; congruence. }
  split; [intros k Hr Hb He; apply Hnone; by apply Hg|auto].
Qed.

(** The due entries of a list in the order of time. *)
Lemma elem_of_due now ts i :
  StronglySorted (fun i j => ti_time i <= ti_time j) ts -> i ∈ due now ts <-> i ∈ ts /\ ti_time i <= now.
Proof.
  induction ts as [|j ts IH]; intros HS; cbn [due]; [set_solver|]. apply StronglySorted_inv in HS as [HS HF].
  rewrite Forall_forall in HF. destruct (ti_time j >? now) eqn:E; zify_bool.
  - split; [by intros ?%not_elem_of_nil|]. intros [[->|Hi]%elem_of_cons Ht]; [lia|]. specialize (HF _ Hi). lia.
  - rewrite !elem_of_cons, IH by done. naive_solver lia.
Qed.

Lemma next_time_bounds now ts lim :
  now < lim -> Forall (fun i => wf_titem i /\ ti_time i <= lim) ts -> StronglySorted (fun i j => ti_time i <= ti_time j) ts ->
  now < next_time now ts lim <= lim /\ forall i, i ∈ ts -> now < ti_time i -> next_time now ts lim <= ti_time i.
Proof.
  intros Hl. induction ts as [|j ts IH]; intros HF HS; cbn [next_time]; [split; [lia|by intros i ?%not_elem_of_nil]|].
  apply Forall_cons in HF as [[_ Hj] HF]. apply StronglySorted_inv in HS as [HS HL]. rewrite Forall_forall in HL.
  destruct (ti_time j >? now) eqn:E; zify_bool.
  - split; [lia|]. intros i [->|Hi]%elem_of_cons _; [lia|auto].
  - destruct (IH HF HS) as [IH1 IH2]. split; [done|]. intros i [->|Hi]%elem_of_cons Ht; [lia|auto].
Qed.

(** The whole check: what the store [m'] and the time [nc] of the next check are. *)
Record checked db (now : Z) m m' (nc : Z) : Prop := {
  (* the store stays well formed, and nothing is added *)
  ck_wf : wf_db db m';
  ck_shrinks : forall k, m' !! k = m !! k \/ m' !! k = None;
  (* a key that expires later, or never, keeps all its entries *)
  ck_later : forall T key, now < meta_time db m T key -> same_key db T key m m';
  ck_never : forall T key, (forall w, in_i64 w -> m !! expEncodeTimeKey db T key w = None) -> same_key db T key m m';
  (* a key with a time entry that is due is deleted, with the entry *)
  ck_due : forall T key w, in_i64 w -> w <= now -> is_Some (m !! expEncodeTimeKey db T key w) -> meta_time db m T key <= now ->
    gone db m' T key /\ m' !! expEncodeMetaKey db T key = None /\ m' !! expEncodeTimeKey db T key w = None;
  (* the next check is in the future, within an hour, and not after any later expiration *)
  ck_next : now < nc <= now + 3600;
  ck_next_all : forall T key w, in_i64 w -> now < w -> is_Some (m !! expEncodeTimeKey db T key w) -> nc <= w \/ now + 3600 <= w
}.

Lemma wp_next_check (Q : Z -> _ -> _ -> _ -> Prop) m b e : Q (nc e) m b e -> wp (gets (fun st => nc (env st))) Q m b e.
Proof. apply wp_gets. intros st Hst. by rewrite (at_env _ _ _ _ Hst). Qed.

Lemma check_run db m e :
  wf_db db m -> 0 <= now e -> now e + 3600 < 2 ^ 63 -> nc e <= now e ->
  runs (check db) m e (fun _ m' e' => exists nc', e' = with_nc nc' e /\ checked db (now e) m m' nc').
Proof.
  intros Hwf H0 Hb Hnc. destruct (check_items db m (now e + 3600) Hwf ltac:(lia)) as (ts & Hts & HF & HI & HC & HS).
  assert (Hwt : Forall wf_titem ts) by (eapply Forall_impl; [exact HF|naive_solver]).
  destruct (next_time_bounds (now e) ts (now e + 3600) ltac:(lia) HF HS) as [HN1 HN2].
  unfold runs, check. wp_auto. apply wp_next_check. cbv beta iota zeta. rewrite (proj2 (Z.ltb_ge (now e) (nc e))) by done.
  rewrite int64_small by (unfold in_i64; lia). wp_auto. rewrite H, cut_all. fold (check_range db (now e + 3600)). rewrite Hts.
  apply (wp_check_loop db (now e) ts); [done..|]. intros m' Hall Hwf'. apply wp_setNextCheckTime. split; [done|]. exists (next_time (now e) ts (now e + 3600)). split; [done|].
  split; [done|intros k; by eapply expires_all_shrinks| | | |done|].
  - intros T key Hlt. eapply expires_all_same; [exact Hall|by left].
  - intros T key Hno. eapply expires_all_same; [exact Hall|right]. intros i [Hi _]%elem_of_due [<- <-]; [|done].
    destruct (HI i Hi) as [v Hv]. simpl in Hv. rewrite Hno in Hv; [done|]. rewrite Forall_forall in Hwt.
    destruct (Hwt i Hi) as [? _]. unfold in_i64. lia.
  - intros T key w Hi Hw Hs Hm. apply (expires_all_due db (now e) _ m m' (mkTitem T key w) Hall); [|done..].
    apply elem_of_due; [done|]. split; [|done]. apply HC; [lia|done..].
  - intros T key w Hi Hw Hs. destruct (decide (now e + 3600 <= w)) as [|Hlt]; [by right|left]. apply (HN2 (mkTitem T key w)); [|done].
    apply HC; [lia|done..].
Qed.

(** Before the planned time nothing happens. *)
Lemma check_early db m e : now e < nc e -> exec (check db) m e tt m e.
Proof. intros H. unfold exec, check. wp_auto. apply wp_next_check. cbv beta iota zeta. rewrite (proj2 (Z.ltb_lt _ _)) by done. wp_auto. done. Qed.

End Spec.

(** * Properties *)


(** A value with an expiration time that has passed. *)
Definition ex_expired : gmap bytes bytes := apply_ops (expire_ops db0 KVType [107] 50) (<[encodeKVKey db0 [107] := [118]]> ∅).

Lemma ex_expired_wf : wf_db db0 ex_expired.
Proof.
  apply wf_expire; [|by left|done|lia]. apply (wf_keeps db0 KVType [107] ∅); [apply wf_empty|apply kv_put_keeps|done|].
  by split; [|split; [|split]].
Qed.


(** A changed expiration leaves its old time entry behind, and [check] takes a missing
    meta entry for an expired one.  A value that was given an expiration of 10 seconds, then
    one of 1000 seconds, and was then persisted, has no expiration ([TTL] is -1), but the
    check after 11 seconds deletes it. *)
Lemma stale_time_entry :
  let '(r1, st) := (_ ← Set_ db0 [107] [118]; _ ← Expire db0 [107] 10; _ ← Expire db0 [107] 1000; _ ← Persist db0 [107];
                    t ← TTL db0 [107]; v ← Get db0 [107]; mret (t, v)) (mem_state ∅ 100) in
  r1 = Ret ((-1, None), (Some [118], None)) /\
  ((_ ← check db0; Get db0 [107]) (with_env (mkEnv 111 110 ∅ []) st)).1 = Ret (None, None).
Proof. vm_compute. split; reflexivity. Qed.
