(* ===== verification/Flush.v ===== *)
(** * Flushing a database (src/ledis/ledis_db.go, [flushType] and [FlushAll])

    A flush deletes the keys of a data type in rounds of at most 1024 keys.  The batch is
    committed after each round and keeps its records until the lock is released. *)

From S2P Require Import Prelude Driver Store Keys Util Core Frame Refine Coll KV TList THash TSet TZSet Scan Database.

(** The store type of the entries that [flushType] scans. *)
Definition metaDataType (dataType : Z) : Z :=
  if dataType =? KVType then KVType
  else if dataType =? ListType then LMetaType
  else if dataType =? HashType then HSizeType
  else if dataType =? ZSetType then ZSizeType
  else SSizeType.

Section Ops.
Context {B : Backend} {R : Regexp}.

(** The loop of [flushType] with at most [fuel] rounds; [None] when they are used up. *)
Fixpoint flush_loop (fuel : nat) (db : DB) (t : BatchId) (dataType : Z) (f : BatchId -> bytes -> M Z)
    (keys : list bytes) (err : option error) (drop : Z) : M (option (Z * option error)) :=
  if (len keys =? 0) && negb (is_err err) then mret (Some (drop, err))
  else
    match fuel with
    | O => mret None
    | S fuel =>
        _ ← for_each keys (fun key => _ ← f t key; _ ← rmExpire db t dataType key; mret tt);
        err ← batch_Commit t;
        match err with
        | Some err => mret (Some (drop, Some err))
        | None =>
            let drop := int64 (drop + len keys) in
            '(keys, err) ← scanGeneric db (metaDataType dataType) [] 1024 false [] false;
            flush_loop fuel db t dataType f keys err drop
        end
    end.

(** [fmt.Errorf("invalid data type: ...")] is [errDataType]. *)
Definition flushType (fuel : nat) (db : DB) (t : BatchId) (dataType : Z) : M (option (Z * option error)) :=
  match deleteFunc db dataType with
  | None => mret (Some (0, Some errDataType))
  | Some f =>
      '(keys, err) ← scanGeneric db (metaDataType dataType) [] 1024 false [] false;
      flush_loop fuel db t dataType f keys err 0
  end.

Definition flush (fuel : nat) (db : DB) := with_lock kvBatch (flushType fuel db kvBatch KVType).
Definition lFlush (fuel : nat) (db : DB) := with_lock listBatch (flushType fuel db listBatch ListType).
Definition hFlush (fuel : nat) (db : DB) := with_lock hashBatch (flushType fuel db hashBatch HashType).
Definition zFlush (fuel : nat) (db : DB) := with_lock zsetBatch (flushType fuel db zsetBatch ZSetType).
Definition sFlush (fuel : nat) (db : DB) := with_lock setBatch (flushType fuel db setBatch SetType).

(** The loop of [FlushAll]. *)
Fixpoint flush_all_loop (all : list (M (option (Z * option error)))) (drop : Z) : M (option (Z * option error)) :=
  match all with
  | [] => mret (Some (drop, None))
  | fl :: all' =>
      res ← fl;
      match res with
      | None => mret None
      | Some (_, Some e) => mret (Some (drop, Some e))
      | Some (n, None) => flush_all_loop all' (int64 (drop + n))
      end
  end.

Definition FlushAll (fuel : nat) (db : DB) : M (option (Z * option error)) :=
  flush_all_loop [flush fuel db; lFlush fuel db; hFlush fuel db; zFlush fuel db; sFlush fuel db] 0.

End Ops.

(** * One round *)

(** The records a round queues for the keys. *)
Inductive round (db : DB) (T : Z) (m : gmap bytes bytes) : list bytes -> list BatchOp -> Prop :=
  | round_nil : round db T m [] []
  | round_cons k ks o r ops :
      clears db T k m o -> ops_for db T k r -> (forall op, op ∈ r -> exists x, op = OpDelete x) ->
      (is_Some (m !! expEncodeMetaKey db T k) -> OpDelete (expEncodeMetaKey db T k) ∈ r) ->
      round db T m ks ops -> round db T m (k :: ks) (o ++ r ++ ops).

(** [m1] has entries of [m] only. *)
Definition within (m m1 : gmap bytes bytes) : Prop := forall k, m1 !! k = m !! k \/ m1 !! k = None.

Lemma within_refl m : within m m.
Proof. by left. Qed.

Lemma within_trans m1 m2 m3 : within m1 m2 -> within m2 m3 -> within m1 m3.
Proof. intros H1 H2 k. destruct (H2 k) as [-> | ->]; [apply H1|by right]. Qed.

Lemma within_some m m1 k v : within m m1 -> m1 !! k = Some v -> m !! k = Some v.
Proof. intros H Hv. destruct (H k) as [E|E]; congruence. Qed.

Lemma dels_within ops m : (forall op, op ∈ ops -> exists x, op = OpDelete x) -> within m (apply_ops ops m).
Proof. intros Hd k. rewrite apply_dels by done. case_decide; auto. Qed.

Lemma clears_within db T k m m1 ops : clears db T k m ops -> within m m1 -> clears db T k m1 ops.
Proof. intros [H1 H2 H3] Hw. split; [done|done|]. intros sk v Hr Hb He Hv. eapply H3; [done..|by eapply within_some]. Qed.

Lemma round_dels db T m ks ops : round db T m ks ops -> forall op, op ∈ ops -> exists x, op = OpDelete x.
Proof. induction 1 as [|k ks o r ops [_ Ho _] _ Hr _ _ IH]; [set_solver|]. intros op [|[|]%elem_of_app]%elem_of_app; auto. Qed.

(** What a round leaves. *)
Record flushed (db : DB) (T : Z) (ks : list bytes) (m m' : gmap bytes bytes) : Prop := {
  fl_wf : wf_db db m';
  fl_within : within m m';
  fl_gone : forall k, k ∈ ks -> gone db m' T k /\ m' !! expEncodeMetaKey db T k = None;
  fl_same : forall sk, representable sk -> (forall k, k ∈ ks -> ~ belongs T k sk) -> m' !! encode db sk = m !! encode db sk;
  fl_others : forall k, ~ in_db db k -> m' !! k = m !! k
}.

Lemma round_flushed db T m ks ops m1 :
  round db T m ks ops -> wf_db db m1 -> within m m1 -> flushed db T ks m1 (apply_ops ops m1).
Proof.
  intros Hr. revert m1; induction Hr as [|k ks o r ops Hc Hf Hd Hm Hr IH]; intros m1 Hwf Hw.
  { split; [done|apply within_refl|set_solver|done|done]. }
  destruct (wf_clears db T k m1 o r Hwf (clears_within _ _ _ _ _ _ Hc Hw) Hf Hd) as (W1 & G1 & T1). cbv zeta in *.
  assert (Hod : forall op, op ∈ o ++ r -> exists x, op = OpDelete x) by (intros op [?|?]%elem_of_app; [by eapply cl_del|auto]).
  rewrite app_assoc, apply_ops_app. set (m2 := apply_ops (o ++ r) m1) in *.
  assert (W12 : within m1 m2) by (by apply dels_within).
  destruct (IH m2 W1 (within_trans _ _ _ Hw W12)) as [F1 F2 F3 F4 F5].
  assert (Hmeta : m2 !! expEncodeMetaKey db T k = None).
  { unfold m2. rewrite apply_dels by done. case_decide as Hin; [done|]. destruct (Hw (expEncodeMetaKey db T k)) as [E|E]; [|done]. rewrite E.
    destruct (m !! expEncodeMetaKey db T k) eqn:Em; [|done]. exfalso. apply Hin, elem_of_app. right. apply Hm. eauto. }
  split; [done|by eapply within_trans| | |intros x Hx; rewrite F5 by done; by apply (touches_others _ _ _ _ _ T1)].
  - intros k' [->|Hk']%elem_of_cons; [|auto]. split.
    + intros sk Hsk Hb He. destruct (F2 (encode db sk)) as [E|E]; [|done]. rewrite E. by apply G1.
    + destruct (F2 (expEncodeMetaKey db T k)) as [E|E]; [|done]. by rewrite E.
  - intros sk Hsk Hn. rewrite F4 by (done || intros k' Hk'; apply Hn; by constructor).
    apply (touches_frame _ _ _ _ _ T1); [done|]. apply Hn. constructor.
Qed.

Section Round.
Context {B : Backend} {BS : BackendSpec B}.
Implicit Types (db : DB) (m : gmap bytes bytes) (e : Env).

Lemma rm_ops_meta db m T k : wf_db db m -> is_Some (m !! expEncodeMetaKey db T k) -> OpDelete (expEncodeMetaKey db T k) ∈ rm_ops db m T k.
Proof.
  intros Hwf [v Hv]. unfold rm_ops. rewrite Hv. destruct (wf_meta _ _ Hwf _ _ _ Hv) as (w & Hw & ->).
  rewrite Int64_PutInt64 by (unfold in_i64; lia). constructor.
Qed.

Lemma wp_round db t T f ks (Q : unit -> _ -> _ -> _ -> Prop) m b e :
  deleteFunc db T = Some f -> wf_db db m -> Forall (fun k => len k <= MaxKeySize) ks ->
  (forall ops, round db T m ks ops -> Q tt m (add_ops t ops b) e) ->
  wp (for_each ks (fun key => _ ← f t key; _ ← rmExpire db t T key; mret tt)) Q m b e.
Proof.
  intros Hf Hwf Hks. revert b Q; induction Hks as [|k ks Hk Hks IH]; intros b Q HQ; cbn [for_each].
  - wp_auto. specialize (HQ [] (round_nil _ _ _)). by rewrite add_no_ops in HQ.
  - wp_auto. apply (wp_deleteFunc db T f); [done..|]. intros n o Ho. wp_auto. apply IH. intros ops Hops. rewrite add_ops_add.
    rewrite <- app_assoc. apply HQ. constructor; [done|apply ops_for_rm|apply rm_ops_dels|by apply rm_ops_meta|done].
Qed.

End Round.

(** * All rounds *)

(** The meta entry of a key: the one that a flush scans. *)
Definition meta_key (T : Z) (key : bytes) : skey :=
  if T =? KVType then KV key
  else if T =? ListType then LMeta key
  else if T =? HashType then HSize key
  else if T =? ZSetType then ZSize key
  else SSize key.

Lemma meta_key_ok T key : data_type T ->
  representable (meta_key T key) /\ belongs T key (meta_key T key) /\ is_exp (meta_key T key) = false /\ name_of (meta_key T key) = key /\
  scan_type_ok (metaDataType T) /\ forall db, encode db (meta_key T key) = indexVarBuf db ++ metaDataType T :: key.
Proof. unfold scan_type_ok. intros [->|[->|[->|[->| ->]]]]; repeat split; auto; try done; right; auto. Qed.

(** Without its meta entry a key has no data. *)
Lemma no_meta_gone db m T key : wf_db db m -> data_type T -> m !! encode db (meta_key T key) = None -> gone db m T key.
Proof.
  intros Hwf HT Hn k Hr Hb He. destruct (m !! encode db k) as [v|] eqn:E; [|done]. exfalso.
  pose proof (wf_names _ _ Hwf k v Hr E) as Hc. rewrite (belongs_name _ _ _ Hb) in Hc. pose proof (short_key _ Hc) as Hs.
  destruct (wf_keys _ _ Hwf key Hs) as [(l & head & HL) (h & Hh & _) (X & HX & _) (z & Hz & _)].
  destruct HT as [->|[->|[->|[->| ->]]]]; cbn in Hn; destruct k; try done; simpl in Hb; destruct Hb as [? Hb]; try done; subst key0; simpl in E; try congruence.
  - rewrite (la_meta _ _ _ _ _ HL) in Hn. destruct l as [|x l]; [|done]. destruct Hr as [_ Hr]. rewrite (la_items _ _ _ _ _ HL) in E by done.
    by destruct (_ <=? _).
  - pose proof (cr_size _ _ _ _ _ Hh) as Hsz. simpl in Hsz. rewrite Hn in Hsz. unfold size_entry in Hsz. case_decide as Hem; [|done]. subst h.
    pose proof (cr_members _ _ _ _ _ Hh field) as Hm. simpl in Hm. rewrite Hm in E. done.
  - pose proof (cr_size _ _ _ _ _ HX) as Hsz. simpl in Hsz. rewrite Hn in Hsz. unfold size_entry in Hsz. case_decide as Hem; [|done].
    pose proof (cr_members _ _ _ _ _ HX member) as Hm. simpl in Hm. rewrite Hm, Hem in E. done.
  - destruct Hz as [Hz Hsz]. rewrite Hn in Hsz. unfold size_entry in Hsz. case_decide as Hem; [|done]. apply fmap_empty_iff in Hem. subst z.
    rewrite (zp_members _ _ _ _ Hz) in E. done.
  - destruct Hz as [Hz Hsz]. rewrite Hn in Hsz. unfold size_entry in Hsz. case_decide as Hem; [|done]. apply fmap_empty_iff in Hem. subst z.
    destruct Hr as [_ Hr]. rewrite (zp_index _ _ _ _ Hz) in E by done. by case_decide.
Qed.

Lemma sorted_names_ext (l1 l2 : list bytes) : StronglySorted blt l1 -> StronglySorted blt l2 -> (forall x, x ∈ l1 <-> x ∈ l2) -> l1 = l2.
Proof.
  intros H1 H2 H. set (f := fun x : bytes => (x, @nil Z)).
  assert (E : map f l1 = map f l2).
  { apply sorted_ext.
    - unfold sorted_keys. rewrite <- list_fmap_compose. by rewrite list_fmap_id.
    - unfold sorted_keys. rewrite <- list_fmap_compose. by rewrite list_fmap_id.
    - intros y. rewrite !list_elem_of_fmap. naive_solver. }
  assert (Hid : forall l, map fst (map f l) = l) by (intros l; rewrite map_map; apply map_id).
  by rewrite <- (Hid l1), <- (Hid l2), E.
Qed.

Lemma sorted_drop (l : list bytes) n : StronglySorted blt l -> StronglySorted blt (drop n l).
Proof. revert n; induction l as [|x l IH]; intros [|n] HS; try done. apply StronglySorted_inv in HS as [HS _]. by apply IH. Qed.

Lemma sorted_NoDup (l : list bytes) : StronglySorted blt l -> NoDup l.
Proof.
  induction 1 as [|x l HS IH HF]; constructor; [|done]. intros Hx. rewrite Forall_forall in HF. by eapply blt_irrefl, HF.
Qed.

(** The names that are left after a round. *)
Lemma flushed_names db T n m m' :
  data_type T -> flushed db T (take n (type_names db m (metaDataType T))) m m' ->
  type_names db m' (metaDataType T) = drop n (type_names db m (metaDataType T)).
Proof.
  intros HT [_ Hw Hg Hs _]. set (names := type_names db m (metaDataType T)) in *.
  assert (HS : StronglySorted blt names) by apply type_names_sorted. pose proof (sorted_NoDup _ HS) as HN.
  apply sorted_names_ext; [apply type_names_sorted|by apply sorted_drop|]. intros x. rewrite elem_of_type_names.
  destruct (meta_key_ok T x HT) as (Hr & Hb & He & Hnm & _ & Henc). rewrite <- Henc.
  assert (Hm : x ∈ names <-> is_Some (m !! encode db (meta_key T x))) by (unfold names; by rewrite elem_of_type_names, Henc).
  rewrite <- (take_drop n names) in HN. apply NoDup_app in HN as (_ & HN & _). split.
  - intros [v Hv]. assert (Hin : x ∈ names) by (apply Hm; eexists; by eapply within_some).
    rewrite <- (take_drop n names), elem_of_app in Hin. destruct Hin as [Hin|Hin]; [|done]. exfalso.
    destruct (Hg x Hin) as [Hgx _]. by rewrite (Hgx _ Hr Hb He) in Hv.
  - intros Hin. assert (x ∈ names) as [v Hv]%Hm by (rewrite <- (take_drop n names), elem_of_app; by right).
    exists v. rewrite Hs; [done|done|]. intros k Hk Hbk. destruct (belongs_unique _ _ _ _ _ Hb Hbk) as [_ <-]. by eapply HN.
Qed.

Lemma flushed_trans db T ks1 ks2 m1 m2 m3 : flushed db T ks1 m1 m2 -> flushed db T ks2 m2 m3 -> flushed db T (ks1 ++ ks2) m1 m3.
Proof.
  intros [A1 A2 A3 A4 A5] [B1 B2 B3 B4 B5]. split; [done|by eapply within_trans| | |].
  - intros k [Hk|Hk]%elem_of_app; [|auto]. destruct (A3 k Hk) as [Hg Hm]. split.
    + intros sk Hr Hb He. destruct (B2 (encode db sk)) as [E|E]; [|done]. rewrite E. by apply Hg.
    + destruct (B2 (expEncodeMetaKey db T k)) as [E|E]; [|done]. by rewrite E.
  - intros sk Hr Hn. rewrite B4, A4; [done|done| |done|]; intros k Hk; apply Hn, elem_of_app; auto.
  - intros k Hk. by rewrite B5, A5.
Qed.

Lemma flushed_nil db T m : wf_db db m -> flushed db T [] m m.
Proof. intros Hwf. split; [done|apply within_refl|set_solver|done|done]. Qed.

(** Records that are done already. *)
Definition settled (m : gmap bytes bytes) (ops : list BatchOp) : Prop :=
  forall op, op ∈ ops -> exists k, op = OpDelete k /\ m !! k = None.

Lemma settled_apply m ops : settled m ops -> apply_ops ops m = m.
Proof.
  intros Hs. apply map_eq. intros k. rewrite apply_dels.
  - case_decide as Hk; [|done]. by destruct (Hs _ Hk) as (k' & [= <-] & ->).
  - intros op Hop. destruct (Hs op Hop) as (k' & -> & _). eauto.
Qed.

Lemma filter_every {A} (P : A -> Prop) `{!forall x, Decision (P x)} (l : list A) : (forall x, x ∈ l -> P x) -> filter P l = l.
Proof.
  induction l as [|x l IH]; intros Hl; [done|]. rewrite filter_cons, decide_True by (apply Hl; constructor).
  f_equal. apply IH. intros y Hy. apply Hl. by constructor.
Qed.

Section Spec.
Context {B : Backend} {BS : BackendSpec B} {R : Regexp}.
Implicit Types (db : DB) (m : gmap bytes bytes) (e : Env).

(** The scan of a round returns the first 1024 names. *)
Lemma flush_scan_wp db T (Q : list bytes * option error -> _ -> _ -> _ -> Prop) m b e :
  wf_db db m -> data_type T -> Q (take 1024 (type_names db m (metaDataType T)), None) m b e ->
  wp (scanGeneric db (metaDataType T) [] 1024 false [] false) Q m b e.
Proof.
  intros Hwf HT HQ. destruct (meta_key_ok T [] HT) as (_ & _ & _ & _ & Hok & _).
  apply (scanGeneric_wp db (metaDataType T) [] 1024 false [] None false); [done|done|].
  replace (scanned db m (metaDataType T) None [] 1024 false false) with (take 1024 (type_names db m (metaDataType T))); [done|].
  unfold scanned, directed. change (Z.to_nat (checkScanCount 1024)) with 1024%nat. f_equal.
  rewrite (filter_every (fun n => matches None n = true)) by (intros; done). symmetry. apply filter_every. intros x Hx%elem_of_type_names.
  destruct (meta_key_ok T x HT) as (Hr & _ & _ & Hnm & _ & Henc). rewrite <- Henc in Hx. destruct Hx as [v Hv].
  pose proof (wf_names _ _ Hwf _ _ Hr Hv) as Hc. rewrite Hnm in Hc. destruct x; [done|]. done.
Qed.

Lemma names_ok db m T : wf_db db m -> data_type T -> Forall (fun k => len k <= MaxKeySize) (type_names db m (metaDataType T)).
Proof.
  intros Hwf HT. apply Forall_forall. intros x Hx%elem_of_type_names. destruct (meta_key_ok T x HT) as (Hr & _ & _ & Hnm & _ & Henc).
  rewrite <- Henc in Hx. destruct Hx as [v Hv]. pose proof (wf_names _ _ Hwf _ _ Hr Hv) as Hc. rewrite Hnm in Hc. by apply key_le_max.
Qed.

Lemma wp_flush_loop db t T f fuel n0 prev (Q : option (Z * option error) -> _ -> _ -> _ -> Prop) m e :
  let names := type_names db m (metaDataType T) in
  deleteFunc db T = Some f -> data_type T -> wf_db db m -> settled m prev -> (length names <= fuel)%nat -> 0 <= n0 -> n0 + len names < 2 ^ 63 ->
  (forall m' ops, flushed db T names m m' -> Q (Some (n0 + len names, None)) m' (add_ops t ops no_ops) e) ->
  wp (flush_loop fuel db t T f (take 1024 names) None n0) Q m (add_ops t prev no_ops) e.
Proof.
  intros names Hf HT. revert n0 prev m names Q. induction fuel as [|fuel IH]; intros n0 prev m names Q Hwf Hp Hfuel H0 Hb HQ; cbn [flush_loop].
  all: destruct (decide (names = [])) as [Hn|Hn]; [rewrite Hn in *; change (len (take 1024 [] : list bytes) =? 0) with true; cbn [is_err negb andb];
    wp_auto; specialize (HQ m prev (flushed_nil db T m Hwf)); cbn [length] in HQ; by rewrite Z.add_0_r in HQ|].
  - destruct names; [done|simpl in Hfuel; lia].
  - destruct (len (take 1024 names) =? 0) eqn:E; zify_bool; [destruct names; [done|simpl in E; lia]|]. cbn [andb].
    pose proof (names_ok db m T Hwf HT) as Hok. fold names in Hok. apply wp_bind.
      apply (wp_round db t T f); [done|done|by apply Forall_take|]. intros ops Hops. wp_auto.
      rewrite apply_ops_app, (settled_apply m prev Hp).
      pose proof (round_flushed db T m _ ops m Hops Hwf (within_refl m)) as HF. set (m1 := apply_ops ops m) in *.
      pose proof (flushed_names db T 1024 m m1 HT HF) as Hnm. fold names in Hnm.
      apply (flush_scan_wp db T); [apply HF|done|]. assert (Hlen : (length (take 1024 names) + length (skipn 1024 names))%nat = length names)
        by (rewrite <- length_app, take_drop; done).
      rewrite int64_small by (unfold in_i64; lia). apply IH.
      * apply HF.
      * intros op [Hop|Hop]%elem_of_app.
        -- destruct (Hp op Hop) as (k & -> & Hk). exists k. split; [done|]. destruct (fl_within _ _ _ _ _ HF k) as [E'|E']; congruence.
        -- destruct (round_dels _ _ _ _ _ Hops op Hop) as [k ->]. exists k. split; [done|]. unfold m1.
           rewrite apply_dels by (by eapply round_dels). by rewrite decide_True.
      * rewrite Hnm. lia.
      * lia.
      * rewrite Hnm. lia.
      * intros m' ops' HF'. rewrite Hnm in *. pose proof (flushed_trans _ _ _ _ _ _ _ HF HF') as HFF. rewrite take_drop in HFF.
        replace (n0 + len (take 1024 names) + len (skipn 1024 names)) with (n0 + len names) by lia. by eapply HQ.
Qed.

(** The number of keys of a type. *)
Definition nkeys db m (T : Z) : nat := length (type_names db m (metaDataType T)).

(** What flushing a type leaves: no data and no expiration of the type, everything else. *)
Record emptied db (T : Z) m m' : Prop := {
  em_wf : wf_db db m';
  em_within : within m m';
  em_gone : forall k, gone db m' T k;
  em_meta : forall k, is_Some (m !! encode db (meta_key T k)) -> m' !! expEncodeMetaKey db T k = None;
  em_same : forall sk, representable sk -> ~ belongs T (name_of sk) sk -> m' !! encode db sk = m !! encode db sk;
  em_others : forall k, ~ in_db db k -> m' !! k = m !! k
}.

Lemma flushed_emptied db T m m' :
  data_type T -> flushed db T (type_names db m (metaDataType T)) m m' -> emptied db T m m'.
Proof.
  intros HT HF. pose proof (flushed_names db T (nkeys db m T) m m' HT) as HN. unfold nkeys in HN. rewrite firstn_all, drop_all in HN.
  specialize (HN HF). destruct HF as [F1 F2 F3 F4 F5]. split; [done|done| | | |done].
  - intros k. apply no_meta_gone; [done|done|]. destruct (meta_key_ok T k HT) as (_ & _ & _ & _ & _ & Henc). rewrite Henc.
    destruct (m' !! (indexVarBuf db ++ metaDataType T :: k)) as [v|] eqn:E; [|done]. exfalso.
    assert (Hin : k ∈ type_names db m' (metaDataType T)) by (apply elem_of_type_names; eauto). rewrite HN in Hin. by apply not_elem_of_nil in Hin.
  - intros k Hk. apply F3. apply elem_of_type_names. destruct (meta_key_ok T k HT) as (_ & _ & _ & _ & _ & Henc). by rewrite <- Henc.
  - intros sk Hr Hn. apply F4; [done|]. intros k _ Hb. apply Hn. by rewrite (belongs_name _ _ _ Hb).
Qed.

Lemma data_type_func db T : data_type T -> exists f, deleteFunc db T = Some f.
Proof. intros [->|[->|[->|[->| ->]]]]; by eexists. Qed.

Lemma flushType_wp db t T fuel (Q : option (Z * option error) -> _ -> _ -> _ -> Prop) m e :
  data_type T -> wf_db db m -> (nkeys db m T <= fuel)%nat -> Z.of_nat (nkeys db m T) < 2 ^ 63 ->
  (forall m', emptied db T m m' -> Q (Some (Z.of_nat (nkeys db m T), None)) m' no_ops e) ->
  wp (with_lock t (flushType fuel db t T)) Q m no_ops e.
Proof.
  intros HT Hwf Hf Hb HQ. destruct (data_type_func db T HT) as [f Hfun]. apply wp_lock. unfold flushType. rewrite Hfun. apply wp_bind.
  apply (flush_scan_wp db T); [done..|]. rewrite <- (add_no_ops t no_ops) at 1.
  apply (wp_flush_loop db t T f fuel 0 []); [done|done|done|by intros op ?%not_elem_of_nil|done|lia|done|].
  intros m' ops HF. wp_simp. apply HQ. by apply flushed_emptied.
Qed.

(** A type that is empty stays so when another one is flushed. *)
Lemma emptied_keeps db T T' m m' : emptied db T m m' -> (forall k, gone db m T' k) -> forall k, gone db m' T' k.
Proof. intros [_ Hw _ _ _ _] Hg k sk Hr Hb He. destruct (Hw (encode db sk)) as [E|E]; [|done]. rewrite E. by apply (Hg k). Qed.

(** Another type is not affected. *)
Lemma emptied_nkeys db T T' m m' : data_type T -> data_type T' -> T <> T' -> emptied db T m m' -> nkeys db m' T' = nkeys db m T'.
Proof.
  intros HT HT' Hne HE. unfold nkeys. f_equal. apply sorted_names_ext; [apply type_names_sorted..|]. intros x. rewrite !elem_of_type_names.
  destruct (meta_key_ok T' x HT') as (Hr & Hb & _ & _ & _ & Henc). rewrite <- !Henc. rewrite (em_same _ _ _ _ HE); [done|done|].
  intros Hb'. destruct (belongs_unique _ _ _ _ _ Hb Hb') as [E _]. by apply Hne.
Qed.

(** What flushing all types leaves. *)
Record all_emptied db m m' : Prop := {
  ae_wf : wf_db db m';
  ae_within : within m m';
  ae_gone : forall T k, data_type T -> gone db m' T k;
  ae_others : forall k, ~ in_db db k -> m' !! k = m !! k
}.

Definition total_keys db m : nat :=
  (nkeys db m KVType + nkeys db m ListType + nkeys db m HashType + nkeys db m ZSetType + nkeys db m SetType)%nat.

Lemma FlushAll_run db fuel m e :
  wf_db db m -> (total_keys db m <= fuel)%nat -> Z.of_nat (total_keys db m) < 2 ^ 63 ->
  runs (FlushAll fuel db) m e (fun res m' e' => res = Some (Z.of_nat (total_keys db m), None) /\ e' = e /\ all_emptied db m m').
Proof.
  intros Hwf Hf Hb. unfold total_keys in *. unfold runs, FlushAll, flush, lFlush, hFlush, zFlush, sFlush. cbn [flush_all_loop].
  assert (HK : data_type KVType) by (by left). assert (HL : data_type ListType) by (by right; left).
  assert (HH : data_type HashType) by (by do 2 right; left). assert (HS : data_type SetType) by (by do 3 right; left).
  assert (HZ : data_type ZSetType) by (by do 4 right).
  apply wp_bind, (flushType_wp db kvBatch KVType); [done|done|lia|lia|]. intros m1 E1.
  pose proof (emptied_nkeys db KVType ListType m m1 HK HL ltac:(done) E1) as L1.
  pose proof (emptied_nkeys db KVType HashType m m1 HK HH ltac:(done) E1) as H1.
  pose proof (emptied_nkeys db KVType ZSetType m m1 HK HZ ltac:(done) E1) as Z1.
  pose proof (emptied_nkeys db KVType SetType m m1 HK HS ltac:(done) E1) as S1.
  apply wp_bind, (flushType_wp db listBatch ListType); [done|apply E1|lia|lia|]. intros m2 E2.
  pose proof (emptied_nkeys db ListType HashType m1 m2 HL HH ltac:(done) E2) as H2.
  pose proof (emptied_nkeys db ListType ZSetType m1 m2 HL HZ ltac:(done) E2) as Z2.
  pose proof (emptied_nkeys db ListType SetType m1 m2 HL HS ltac:(done) E2) as S2.
  apply wp_bind, (flushType_wp db hashBatch HashType); [done|apply E2|lia|lia|]. intros m3 E3.
  pose proof (emptied_nkeys db HashType ZSetType m2 m3 HH HZ ltac:(done) E3) as Z3.
  pose proof (emptied_nkeys db HashType SetType m2 m3 HH HS ltac:(done) E3) as S3.
  apply wp_bind, (flushType_wp db zsetBatch ZSetType); [done|apply E3|lia|lia|]. intros m4 E4.
  pose proof (emptied_nkeys db ZSetType SetType m3 m4 HZ HS ltac:(done) E4) as S4.
  apply wp_bind, (flushType_wp db setBatch SetType); [done|apply E4|lia|lia|]. intros m5 E5.
  rewrite (int64_small (0 + Z.of_nat (nkeys db m KVType))) by (unfold in_i64; lia).
  rewrite (int64_small (_ + Z.of_nat (nkeys db m1 ListType))) by (unfold in_i64; lia).
  rewrite (int64_small (_ + Z.of_nat (nkeys db m2 HashType))) by (unfold in_i64; lia).
  rewrite (int64_small (_ + Z.of_nat (nkeys db m3 ZSetType))) by (unfold in_i64; lia).
  rewrite (int64_small (_ + Z.of_nat (nkeys db m4 SetType))) by (unfold in_i64; lia). wp_auto. split; [done|]. split; [do 2 f_equal; lia|]. split; [done|].
  split; [apply E5| | |].
  - eapply within_trans; [apply E1|]. eapply within_trans; [apply E2|]. eapply within_trans; [apply E3|].
    eapply within_trans; [apply E4|apply E5].
  - intros T k [->|[->|[->|[->| ->]]]].
    + eapply emptied_keeps; [exact E5|]. eapply emptied_keeps; [exact E4|]. eapply emptied_keeps; [exact E3|].
      eapply emptied_keeps; [exact E2|]. apply E1.
    + eapply emptied_keeps; [exact E5|]. eapply emptied_keeps; [exact E4|]. eapply emptied_keeps; [exact E3|]. apply E2.
    + eapply emptied_keeps; [exact E5|]. eapply emptied_keeps; [exact E4|]. apply E3.
    + apply E5.
    + eapply emptied_keeps; [exact E5|]. apply E4.
  - intros k Hk. by rewrite (em_others _ _ _ _ E5), (em_others _ _ _ _ E4), (em_others _ _ _ _ E3), (em_others _ _ _ _ E2), (em_others _ _ _ _ E1).
Qed.

(** As many rounds as there are entries are enough. *)
Lemma total_keys_le db m : (total_keys db m <= 5 * size m)%nat.
Proof.
  assert (H : forall T, (nkeys db m T <= size m)%nat).
  { intros T. unfold nkeys, type_names. rewrite <- (sorted_entries_length m). induction (sorted_entries m) as [|x l IH]; [done|].
    cbn [omap list_omap]. destruct (plain_name _ _ _); cbn [length]; lia. }
  unfold total_keys. pose proof (H KVType). pose proof (H ListType). pose proof (H HashType). pose proof (H ZSetType). pose proof (H SetType). lia.
Qed.

End Spec.

(** * Properties *)

(** C30: [FlushAll] ends and empties the database.  On a well formed database five rounds per
    entry of the store are enough for its loops; it returns the number of keys the database
    had, leaves no data of any type, deletes nothing of other databases and adds nothing. *)
Theorem flush_all_empties {B : Backend} {BS : BackendSpec B} {R : Regexp} (db : DB) (fuel : nat) (m : gmap bytes bytes) (e : Env) :
  wf_db db m -> Z.of_nat (5 * size m) < 2 ^ 63 -> (5 * size m <= fuel)%nat ->
  runs (FlushAll fuel db) m e (fun res m' e' =>
    res = Some (Z.of_nat (total_keys db m), None) /\ e' = e /\ wf_db db m' /\
    (forall T k sk, data_type T -> representable sk -> belongs T k sk -> is_exp sk = false -> m' !! encode db sk = None) /\
    (forall k, ~ in_db db k -> m' !! k = m !! k) /\ (forall k v, m' !! k = Some v -> m !! k = Some v)).
Proof.
  intros Hwf Hb Hf. pose proof (total_keys_le db m) as Hle. eapply wp_mono; [apply (FlushAll_run db fuel m e); [done|lia|lia]|].
  intros res m' b' e' (-> & -> & -> & [Hw Hin Hg Ho]). split; [done|]. split; [done|]. split; [done|]. split; [done|]. split; [|split; [done|]].
  - intros T k sk HT Hr Hb' He. by apply (Hg T k).
  - intros k v. by apply within_some.
Qed.

#[local] Instance any_regexp : Regexp := {| regexp := bytes; regexp_Compile := inl; regexp_Match _ _ := true |}.

Lemma flush_all_empties_witness :
  runs (B := MemBackend) (FlushAll 20 db0) (<[encodeKVKey db0 [107] := [118]]> ∅) env0
    (fun res m' _ => res = Some (1, None) /\ m' !! encodeKVKey db0 [107] = None).
Proof.
  assert (Hwf : wf_db db0 (<[encodeKVKey db0 [107] := [118]]> ∅)).
  { apply (wf_keeps db0 KVType [107] ∅); [apply wf_empty|apply kv_put_keeps|done|]. by split; [|split; [|split]]. }
  eapply wp_mono; [exact (flush_all_empties (B := MemBackend) db0 20
    (<[encodeKVKey db0 [107] := [118]]> ∅) env0 Hwf ltac:(vm_compute; reflexivity) ltac:(vm_compute; lia))|].
  intros res m' b' e' (-> & -> & _ & _ & Hg & _). split; [reflexivity|]. split; [vm_compute; reflexivity|].
  exact (Hg KVType [107] (KV [107]) (or_introl eq_refl) I (conj eq_refl eq_refl) eq_refl).
Defined.
