(* ===== verification/System.v ===== *)
(** * The database as a whole

    The operations of all components together: every operation stays inside its database
    ([operations_contained]), and the invariant [wf_db] of the entries holds in every state
    that operations on all data types, expirations, checks and flushes reach
    ([reachable_well_formed]). *)

From S2P Require Import Prelude Driver Store Keys Util Core Frame Refine Coll KV TList THash TSet TZSet Scan Database Ttl Flush.

(** * Containment *)

Section Operations.
Context {B : Backend} {O : MapOrder} {R : Regexp}.

(** The exported operations of a [DB] handle. *)
Inductive operation (db : DB) : forall A : Type, M A -> Prop :=
| op_incr key delta : operation db _ (incr db key delta)
| op_Del keys : operation db _ (Del db keys)
| op_Exists key : operation db _ (Exists db key)
| op_Get key : operation db _ (Get db key)
| op_GetSlice key : operation db _ (GetSlice db key)
| op_GetSet key value : operation db _ (GetSet db key value)
| op_MGet keys : operation db _ (MGet db keys)
| op_MSet args : operation db _ (MSet db args)
| op_Set key value : operation db _ (Set_ db key value)
| op_SetNX key value : operation db _ (SetNX db key value)
| op_SetEX key duration value : operation db _ (SetEX db key duration value)
| op_Expire key duration : operation db _ (Expire db key duration)
| op_ExpireAt key when : operation db _ (ExpireAt db key when)
| op_TTL key : operation db _ (TTL db key)
| op_Persist key : operation db _ (Persist db key)
| op_SetRange key offset value : operation db _ (SetRange db key offset value)
| op_GetRange key start end_ : operation db _ (GetRange db key start end_)
| op_StrLen key : operation db _ (StrLen db key)
| op_Append key value : operation db _ (Append db key value)
| op_BitOP op dest src : operation db _ (BitOP db op dest src)
| op_BitCount key start end_ : operation db _ (BitCount db key start end_)
| op_BitPos key on start end_ : operation db _ (BitPos db key on start end_)
| op_SetBit key offset on : operation db _ (SetBit db key offset on)
| op_GetBit key offset : operation db _ (GetBit db key offset)
| op_list key op : operation db _ (run_list db key op)
| op_LTrimFront key size : operation db _ (LTrimFront db key size)
| op_LTrimBack key size : operation db _ (LTrimBack db key size)
| op_LMclear keys : operation db _ (LMclear db keys)
| op_LExpire key duration : operation db _ (LExpire db key duration)
| op_LExpireAt key when : operation db _ (LExpireAt db key when)
| op_LTTL key : operation db _ (LTTL db key)
| op_LPersist key : operation db _ (LPersist db key)
| op_LKeyExists key : operation db _ (LKeyExists db key)
| op_lblockPop keys whereSeq fn : operation db _ (lblockPop_pass db keys whereSeq fn)
| op_hash key op : operation db _ (run_hash db key op)
| op_HMclear keys : operation db _ (HMclear db keys)
| op_HExpire key duration : operation db _ (HExpire db key duration)
| op_HExpireAt key when : operation db _ (HExpireAt db key when)
| op_HTTL key : operation db _ (HTTL db key)
| op_HPersist key : operation db _ (HPersist db key)
| op_HKeyExists key : operation db _ (HKeyExists db key)
| op_set key op : operation db _ (run_set db key op)
| op_SDiff keys : operation db _ (SDiff db keys)
| op_SInter keys : operation db _ (SInter db keys)
| op_SUnion keys : operation db _ (SUnion db keys)
| op_SDiffStore dst keys : operation db _ (SDiffStore db dst keys)
| op_SInterStore dst keys : operation db _ (SInterStore db dst keys)
| op_SUnionStore dst keys : operation db _ (SUnionStore db dst keys)
| op_SKeyExists key : operation db _ (SKeyExists db key)
| op_SMclear keys : operation db _ (SMclear db keys)
| op_SExpire key duration : operation db _ (SExpire db key duration)
| op_SExpireAt key when : operation db _ (SExpireAt db key when)
| op_STTL key : operation db _ (STTL db key)
| op_SPersist key : operation db _ (SPersist db key)
| op_zset key op : operation db _ (run_zset db key op)
| op_ZMclear keys : operation db _ (ZMclear db keys)
| op_ZExpire key duration : operation db _ (ZExpire db key duration)
| op_ZExpireAt key when : operation db _ (ZExpireAt db key when)
| op_ZTTL key : operation db _ (ZTTL db key)
| op_ZPersist key : operation db _ (ZPersist db key)
| op_ZUnionStore dest keys weights agg : operation db _ (ZUnionStore db dest keys weights agg)
| op_ZInterStore dest keys weights agg : operation db _ (ZInterStore db dest keys weights agg)
| op_ZRangeByLex key min max rt offset count : operation db _ (ZRangeByLex db key min max rt offset count)
| op_ZRemRangeByLex key min max rt : operation db _ (ZRemRangeByLex db key min max rt)
| op_ZLexCount key min max rt : operation db _ (ZLexCount db key min max rt)
| op_ZKeyExists key : operation db _ (ZKeyExists db key)
| op_Scan dt cursor count inclusive mtch : operation db _ (Scan db dt cursor count inclusive mtch)
| op_RevScan dt cursor count inclusive mtch : operation db _ (RevScan db dt cursor count inclusive mtch)
| op_HScan key cursor count inclusive mtch reverse : operation db _ (hScanGeneric db key cursor count inclusive mtch reverse)
| op_SScan key cursor count inclusive mtch reverse : operation db _ (sScanGeneric db key cursor count inclusive mtch reverse)
| op_ZScan key cursor count inclusive mtch reverse : operation db _ (zScanGeneric db key cursor count inclusive mtch reverse)
| op_FlushAll fuel : operation db _ (FlushAll fuel db).

Context {BS : BackendSpec B} {OS : MapOrderSpec O}.

Lemma contained_flush_loop db t T f fuel keys err n :
  deleteFunc db T = Some f -> contained db (flush_loop fuel db t T f keys err n).
Proof using BS.
  intros Hf. assert (Hk : forall key, contained db (f t key)).
  { intros key. unfold deleteFunc in Hf. repeat (destruct (_ =? _) in Hf; [injection Hf as <-; auto with ledis|]). done. }
  revert keys err n; induction fuel as [|fuel IH]; intros keys err n; cbn [flush_loop]; contained_auto; auto.
Qed.

Lemma contained_flushType db fuel t T : contained db (flushType fuel db t T).
Proof using BS.
  unfold flushType. destruct (deleteFunc db T) as [f|] eqn:E; [|contained_auto]. apply contained_bind; [auto with ledis|].
  intros [keys err]. by apply contained_flush_loop.
Qed.

Lemma contained_FlushAll db fuel : contained db (FlushAll fuel db).
Proof using BS.
  unfold FlushAll, flush, lFlush, hFlush, zFlush, sFlush. generalize 0.
  assert (H : Forall (contained db) [with_lock kvBatch (flushType fuel db kvBatch KVType); with_lock listBatch (flushType fuel db listBatch ListType);
    with_lock hashBatch (flushType fuel db hashBatch HashType); with_lock zsetBatch (flushType fuel db zsetBatch ZSetType);
    with_lock setBatch (flushType fuel db setBatch SetType)]).
  { repeat (apply Forall_cons_2; [apply contained_lock, contained_flushType|]). apply Forall_nil_2. }
  induction H as [|p ps Hp Hps IH]; intros n; cbn [flush_all_loop]; contained_auto; auto.
Qed.

#[local] Hint Resolve contained_FlushAll : ledis.

Lemma contained_run_list db key op : contained db (run_list db key op).
Proof using BS. destruct op; cbn [run_list]; unfold LPush, RPush, LPop, RPop, LTrim; contained_auto. Qed.

Lemma contained_run_hash db key op : contained db (run_hash db key op).
Proof using BS. destruct op; cbn [run_hash]; unfold HGetAll, HKeys, HValues; contained_auto. Qed.

Lemma contained_run_set db key op : contained db (run_set db key op).
Proof using BS. destruct op; cbn [run_set]; contained_auto. Qed.

Lemma contained_run_zset db key op : contained db (run_zset db key op).
Proof using BS.
  destruct op; cbn [run_zset]; unfold ZRevRank, ZRank, ZRevRange, ZRange, ZRevRangeByScore, ZRangeByScore, ZRangeByScoreGeneric; contained_auto.
Qed.

#[local] Hint Resolve contained_run_list contained_run_hash contained_run_set contained_run_zset : ledis.

(** C4: every operation stays inside its database.  In every state, whatever the engine and
    the replication log do and even if it panics, an operation of a database changes no
    entry of another database and leaves only entries of its own database in its batches;
    when writes are not allowed it changes no entry at all. *)
Theorem operations_contained (db : DB) (A : Type) (p : M A) (st : St) :
  operation db A p -> keyed db (batches st) ->
  (forall k, ~ in_db db k -> contents (p st).2 !! k = contents st !! k) /\
  (readonly st = true -> contents (p st).2 = contents st) /\ keyed db (batches (p st).2).
Proof using BS OS.
  intros Hp Hk. assert (HC : contained db p).
  { destruct Hp; try solve [auto with ledis nocore];
      unfold LTrimFront, LTrimBack, SDiff, SInter, SUnion, SDiffStore, SInterStore, SUnionStore, Scan, RevScan, hScanGeneric,
        sScanGeneric, zScanGeneric; contained_auto. }
  destruct (HC st Hk) as [H1 H2 H3 H4]. done.
Qed.

End Operations.

(** * Reachable states *)

Inductive kind := KKV | KList | KHash | KSet | KZSet.

Definition type_of_kind (k : kind) : Z :=
  match k with KKV => KVType | KList => ListType | KHash => HashType | KSet => SetType | KZSet => ZSetType end.

(** What a client or a background task does to a database. *)
Inductive command :=
| CSet (key value : bytes)
| CGetSet (key value : bytes)
| CSetNX (key value : bytes)
| CSetEX (key : bytes) (duration : Z) (value : bytes)
| CMSet (args : list (bytes * bytes))
| CDel (keys : list bytes)
| CIncrBy (key : bytes) (delta : Z)
| CAppend (key value : bytes)
| CSetRange (key : bytes) (offset : Z) (value : bytes)
| CSetBit (key : bytes) (offset on : Z)
| CBitOP (op dest src : bytes) (rest : list bytes)
| CList (key : bytes) (op : list_op)
| CHash (key : bytes) (op : hash_op)
| CSetT (key : bytes) (op : set_op)
| CZSet (key : bytes) (op : zset_op)
| CSUnionStore (dst : bytes) (keys : list bytes)
| CSDiffStore (dst key : bytes) (keys : list bytes)
| CSInterStore (dst key : bytes) (keys : list bytes)
| CZUnionStore (dst : bytes) (keys : list bytes) (weights : option (list Z)) (agg : Z)
| CZInterStore (dst key : bytes) (keys : list bytes) (weights : option (list Z)) (agg : Z)
| CExpireAt (k : kind) (key : bytes) (when : Z)
| CPersist (k : kind) (key : bytes)
| CCheck
| CFlushAll.

Definition ExpireAt_of {B : Backend} (k : kind) : DB -> bytes -> Z -> M (Z * option error) :=
  match k with KKV => ExpireAt | KList => LExpireAt | KHash => HExpireAt | KSet => SExpireAt | KZSet => ZExpireAt end.

Definition Persist_of {B : Backend} (k : kind) : DB -> bytes -> M (Z * option error) :=
  match k with KKV => Persist | KList => LPersist | KHash => HPersist | KSet => SPersist | KZSet => ZPersist end.

Section Run.
Context {B : Backend} {O : MapOrder} {R : Regexp}.

Definition ignore {A} (p : M A) : M unit := _ ← p; mret tt.

(** The loops of [FlushAll] are given five rounds per entry of the store. *)
Definition perform (db : DB) (fuel : nat) (c : command) : M unit :=
  match c with
  | CSet key value => ignore (Set_ db key value)
  | CGetSet key value => ignore (GetSet db key value)
  | CSetNX key value => ignore (SetNX db key value)
  | CSetEX key duration value => ignore (SetEX db key duration value)
  | CMSet args => ignore (MSet db args)
  | CDel keys => ignore (Del db keys)
  | CIncrBy key delta => ignore (IncrBy db key delta)
  | CAppend key value => ignore (Append db key value)
  | CSetRange key offset value => ignore (SetRange db key offset value)
  | CSetBit key offset on => ignore (SetBit db key offset on)
  | CBitOP op dest src rest => ignore (BitOP db op dest (src :: rest))
  | CList key op => ignore (run_list db key op)
  | CHash key op => ignore (run_hash db key op)
  | CSetT key op => ignore (run_set db key op)
  | CZSet key op => ignore (run_zset db key op)
  | CSUnionStore dst keys => ignore (SUnionStore db dst keys)
  | CSDiffStore dst key keys => ignore (SDiffStore db dst (key :: keys))
  | CSInterStore dst key keys => ignore (SInterStore db dst (key :: keys))
  | CZUnionStore dst keys weights agg => ignore (ZUnionStore db dst keys weights agg)
  | CZInterStore dst key keys weights agg => ignore (ZInterStore db dst (key :: keys) weights agg)
  | CExpireAt k key when => ignore (ExpireAt_of k db key when)
  | CPersist k key => ignore (Persist_of k db key)
  | CCheck => check db
  | CFlushAll => ignore (FlushAll fuel db)
  end.

End Run.

(** An operation of a container that its key allows, with a result that fits the size
    counters. *)
Definition fits {Op Res Val : Type} {C : Container Op Res Val} (small : Val -> Prop) (db : DB) (m : gmap bytes bytes)
    (key : bytes) (op : Op) : Prop :=
  checkKeySize key = None /\ forall a, rep db m key a -> pre key a op /\ forall r a', step a op r a' -> small a'.

(** The commands the invariant is kept by: arguments of the accepted sizes, collections
    below 2^61 members, and none of the operations on values they break
    ([list_pre], [hash_pre], [set_pre], [zset_pre], results of stores that are not empty). *)
Definition guard (db : DB) (m : gmap bytes bytes) (e : Env) (c : command) : Prop :=
  match c with
  | CSet key value | CGetSet key value | CSetNX key value => checkKeySize key = None /\ checkValueSize value = None
  | CSetEX key duration value =>
      checkKeySize key = None /\ checkValueSize value = None /\ 0 < duration /\ now e + duration < 2 ^ 63
  | CMSet args => mset_error args = None
  | CDel keys => True
  | CIncrBy key _ => checkKeySize key = None
  | CAppend key value =>
      value <> [] /\ checkKeySize key = None /\ len (default [] (m !! encodeKVKey db key)) + len value <= MaxValueSize
  | CSetRange key offset value =>
      value <> [] /\ checkKeySize key = None /\ 0 <= offset /\ len value + offset <= MaxValueSize /\
      len (default [] (m !! encodeKVKey db key)) < 2 ^ 62
  | CSetBit key offset on => checkKeySize key = None /\ 0 <= offset < 2 ^ 32 /\ (on = 0 \/ on = 1)
  | CBitOP op dest _ rest =>
      checkKeySize dest = None /\ is_Some (bit_fn (ToLower op)) /\ rest <> [] /\ Forall (fun k => checkKeySize k = None) rest
  | CList key op => fits (fun _ => True) db m key op
  | CHash key op => fits (fun h => Z.of_nat (size h) < 2 ^ 61) db m key op
  | CSetT key op => fits (fun X => Z.of_nat (size X) < 2 ^ 61) db m key op
  | CZSet key op => fits (fun z => Z.of_nat (size z) < 2 ^ 61) db m key op
  | CSUnionStore dst keys => checkKeySize dst = None /\ exists Xs, sets_rep db m keys Xs /\
      sized (⋃ Xs) /\ ⋃ Xs <> ∅ /\ Z.of_nat (size (⋃ Xs)) < 2 ^ 61
  | CSDiffStore dst key keys => checkKeySize dst = None /\ exists X Xs, sets_rep db m (key :: keys) (X :: Xs) /\
      sized (X ∖ ⋃ Xs) /\ X ∖ ⋃ Xs <> ∅ /\ Z.of_nat (size (X ∖ ⋃ Xs)) < 2 ^ 61
  | CSInterStore dst key keys => checkKeySize dst = None /\ exists X Xs, sets_rep db m (key :: keys) (X :: Xs) /\
      Forall sized Xs /\ sized (foldl (∩) X Xs) /\ foldl (∩) X Xs <> ∅ /\ Z.of_nat (size (foldl (∩) X Xs)) < 2 ^ 61
  | CZUnionStore dst keys weights agg => checkKeySize dst = None /\ exists f zs, zsets_rep db m keys zs /\
      getAggregateFunc agg = Some f /\ keys <> [] /\ (forall ws, weights = Some ws -> len ws = len keys) /\
      let d := zfold (zunion_pairs f) (zip zs (zws keys weights)) ∅ in
      zstorable dst d /\ d <> ∅ /\ zcount d < 2 ^ 61
  | CZInterStore dst key keys weights agg => checkKeySize dst = None /\ exists f z0 zs w0 ws, zsets_rep db m (key :: keys) (z0 :: zs) /\
      getAggregateFunc agg = Some f /\ (forall ws, weights = Some ws -> len ws = len (key :: keys)) /\ zws (key :: keys) weights = w0 :: ws /\
      let d := zfold (zinter_pairs f) (zip zs ws) (zinter_first w0 (zsorted z0)) in
      zstorable dst d /\ d <> ∅ /\ zcount d < 2 ^ 61
  | CExpireAt _ key when => checkKeySize key = None /\ 0 < when < 2 ^ 63
  | CPersist _ key => checkKeySize key = None
  | CCheck => now e + 3600 < 2 ^ 63
  | CFlushAll => Z.of_nat (5 * size m) < 2 ^ 63
  end.

Section Steady.
Context {B : Backend} {BS : BackendSpec B} {O : MapOrder} {OS : MapOrderSpec O} {R : Regexp}.
Implicit Types (db : DB) (key : bytes) (m : gmap bytes bytes) (e : Env).

(** What a command leaves: a well formed database, at the same time. *)
Definition steady {A : Type} (db : DB) (e : Env) (_ : A) (m' : gmap bytes bytes) (e' : Env) : Prop :=
  wf_db db m' /\ now e' = now e.

Lemma ignore_steady {A} (p : M A) db m e : runs p m e (steady db e) -> runs (ignore p) m e (steady db e).
Proof using. intros Hp. by apply runs_map. Qed.

Lemma put_steady {A} (p : M A) (a : A) (key v : bytes) db m e :
  wf_db db m -> checkKeySize key = None -> exec p m e a (<[encodeKVKey db key := v]> m) e -> runs p m e (steady db e).
Proof using.
  intros Hwf Hk Hp. eapply exec_runs; [exact Hp|]. split; [|done].
  apply (wf_keeps db KVType key m); [done|apply kv_put_keeps|done|]. by split.
Qed.

Lemma wf_mset db args m : wf_db db m -> mset_error args = None -> wf_db db (apply_ops (mset_ops db args) m).
Proof using.
  revert m; induction args as [|[k v] args IH]; intros m Hwf He; [done|]. cbn [mset_error] in He.
  destruct (checkKeySize k) eqn:Hk; [done|]. destruct (checkValueSize v) eqn:Hv; [done|].
  change (apply_ops (mset_ops db ((k, v) :: args)) m) with (apply_ops (mset_ops db args) (<[encodeKVKey db k := v]> m)).
  apply IH; [|done]. apply (wf_keeps db KVType k m); [done|apply kv_put_keeps|done|]. by split.
Qed.

(** [Del] queues the expiration entries it read before any deletion. *)
Lemma wf_del db keys m0 m : wf_db db m -> wf_db db (apply_ops (del_ops db m0 keys) m).
Proof using.
  revert m; induction keys as [|k keys IH]; intros m Hwf; [done|]. unfold del_ops. cbn [map concat]. rewrite apply_ops_app.
  apply IH. apply (wf_clears db KVType k m [OpDelete (encodeKVKey db k)] (rm_ops db m0 KVType k)); [done|apply clears_kv|apply ops_for_rm|].
  intros op. apply rm_ops_dels.
Qed.

Lemma incr_steady db key delta m e : wf_db db m -> checkKeySize key = None -> runs (incr db key delta) m e (steady db e).
Proof using BS.
  intros Hwf Hk. destruct (StrInt64 (m !! encodeKVKey db key) None) as [n [err|]] eqn:E.
  - eapply exec_runs; [by eapply incr_error|]. by split.
  - eapply put_steady; [done|exact Hk|]. by eapply incr_exec.
Qed.

Lemma BitOP_steady db op dest src rest m e :
  wf_db db m -> checkKeySize dest = None -> is_Some (bit_fn (ToLower op)) -> rest <> [] -> Forall (fun k => checkKeySize k = None) rest ->
  runs (BitOP db op dest (src :: rest)) m e (steady db e).
Proof using BS.
  intros Hwf Hk [f Hf] Hr Hks. destruct (BitOP_exec db op f dest src rest m e Hk Hf Hr Hks) as (res & HE & _).
  eapply put_steady; [done|exact Hk|exact HE].
Qed.

Lemma SetEX_steady db key duration value m e :
  wf_db db m -> checkKeySize key = None -> checkValueSize value = None -> 0 <= now e -> 0 < duration -> now e + duration < 2 ^ 63 ->
  runs (SetEX db key duration value) m e (steady db e).
Proof using BS.
  intros Hwf Hk Hv H0 Hd Hb. eapply exec_runs; [by apply SetEX_exec|]. split; [|done].
  rewrite int64_small by (unfold in_i64; lia).
  change (apply_ops (?o :: ?l) m) with (apply_ops l (apply_op m o)). cbn [apply_op].
  apply wf_expire; [|by left|done|lia]. apply (wf_keeps db KVType key m); [done|apply kv_put_keeps|done|]. by split.
Qed.

Lemma expire_steady db T key when m e :
  wf_db db m -> data_type T -> checkKeySize key = None -> 0 < when < 2 ^ 63 ->
  steady db e (1, @None error) (apply_ops (expire_ops db T key when) m) (check_before when e).
Proof using. intros Hwf HT Hk Hw. split; [by apply wf_expire|done]. Qed.

Lemma ExpireAt_steady k db key when m e :
  wf_db db m -> checkKeySize key = None -> 0 < when < 2 ^ 63 -> runs (ExpireAt_of k db key when) m e (steady db e).
Proof using BS.
  intros Hwf Hk Hw. pose proof (short_key _ Hk) as Hs. destruct (wf_keys _ _ Hwf key Hs) as [(l & hd & Hl) (h & Hh & Bh) (X & HX & BX) (z & Hz & Bz)].
  unfold runs. destruct k; cbn [ExpireAt_of];
    unfold ExpireAt, LExpireAt, HExpireAt, SExpireAt, ZExpireAt; wp_auto; (destruct (_ <=? now e); [by wp_auto|]).
  - unfold setExpireAt. wp_auto. apply Exists_wp; [done|]. destruct (m !! _); cbn [is_err orb Z.eqb]; wp_auto; split; try done.
    apply expire_steady; [done|by left|done..].
  - unfold lExpireAt. wp_auto. eapply LLen_wp; [done|exact Hl|]. cbn [is_err orb]. destruct (_ =? 0); wp_auto; split; try done.
    apply expire_steady; [done|by right; left|done..].
  - unfold hExpireAt. wp_auto. eapply HLen_wp; [done|exact Hh|lia|]. cbn [is_err orb]. destruct (_ =? 0); wp_auto; split; try done.
    apply expire_steady; [done|by do 2 right; left|done..].
  - unfold sExpireAt. wp_auto. eapply SCard_wp; [done|exact HX|lia|]. cbn [is_err orb]. destruct (_ =? 0); wp_auto; split; try done.
    apply expire_steady; [done|by do 3 right; left|done..].
  - unfold zExpireAt. wp_auto. eapply ZCard_wp; [done|exact Hz|lia|]. cbn [is_err orb]. destruct (_ =? 0); wp_auto; split; try done.
    apply expire_steady; [done|by do 4 right|done..].
Qed.

Lemma wf_rm_result db T key m : wf_db db m -> (rm_result db m T key).2 = None.
Proof using.
  intros Hwf. unfold rm_result. destruct (m !! _) as [v|] eqn:E; [|done].
  destruct (wf_meta _ _ Hwf T key v E) as (w & Hw & ->). by rewrite Int64_PutInt64 by (unfold in_i64; lia).
Qed.

Lemma Persist_steady k db key m e :
  wf_db db m -> checkKeySize key = None -> runs (Persist_of k db key) m e (steady db e).
Proof using BS.
  intros Hwf Hk. pose proof (wf_rm_result db (type_of_kind k) key m Hwf) as HR. pose proof (wf_persist db (type_of_kind k) key m Hwf Hk) as HP.
  unfold runs. destruct k; cbn [Persist_of type_of_kind] in *; unfold Persist, LPersist, HPersist, SPersist, ZPersist; rewrite Hk; wp_auto;
    destruct (rm_result _ _ _ _) as [n err]; simpl in HR; subst err; wp_auto; (split; [done|]); by split.
Qed.

(** A container operation that its key allows, from the promise of the container. *)
Lemma container_steady {Op Res Val : Type} {C : Container Op Res Val} {CS : ContainerSpec C} (small : Val -> Prop)
    db key (op : Op) (a : Val) m e :
  wf_db db m -> rep db m key a -> fits small db m key op ->
  (forall a' m', rep db m' key a' -> small a' -> wf_at db m' ctype key) ->
  runs (run db key op) m e (steady db e).
Proof using BS.
  intros Hwf Ha [Hk Hf] Hat. destruct (Hf a Ha) as [Hp Hsm].
  eapply wp_mono; [by apply (run_step db key op a m e); [..|apply Hwf|]|].
  intros r m' b' e' (-> & Hn & a' & Hst & Ha' & HK). split; [done|]. split; [|done].
  apply (wf_keeps db ctype key m); [done..|]. by eapply Hat, Hsm.
Qed.

(** A store operation replaces the set of its destination. *)
Lemma set_store_steady db (dst : bytes) (D : gset bytes) (p : M (Z * option error)) (n : Z) m e :
  wf_db db m -> checkKeySize dst = None -> Z.of_nat (size D) < 2 ^ 61 ->
  runs p m e (fun res m' e' => res = (n, None) /\ set_rep db m' dst D /\ keeps db SetType dst m m' /\ e' = e) ->
  runs p m e (steady db e).
Proof using.
  intros Hwf Hk Hb Hp. eapply wp_mono; [exact Hp|]. intros r m' b' e' (-> & _ & HD & HK & ->). split; [done|]. split; [|done].
  apply (wf_keeps db SetType dst m); [done..|]. split; [done|]. split; [done|]. split; [|done]. eauto.
Qed.

Lemma zset_store_steady db (dst : bytes) (d z : gmap bytes Z) (p : M (Z * option error)) (r : Z * option error) m e :
  wf_db db m -> checkKeySize dst = None -> zset_rep db m dst z -> zcount z < 2 ^ 61 -> zstorable dst d -> d <> ∅ -> zcount d < 2 ^ 61 ->
  exec p m e r (apply_ops (zstore_ops db m z dst d) m) e -> runs p m e (steady db e).
Proof using OS.
  intros Hwf Hk Hz Bz Hd Hne Bd Hp. destruct (zstore_rep db dst z d m) as [HZ HK]; [by apply short_key|done|lia|done..|].
  eapply exec_runs; [exact Hp|]. split; [|done].
  apply (wf_keeps db ZSetType dst m); [done..|]. split; [done|]. split; [done|]. split; [done|]. eauto.
Qed.

Lemma check_steady db m e : wf_db db m -> 0 <= now e -> now e + 3600 < 2 ^ 63 -> runs (check db) m e (steady db e).
Proof using BS.
  intros Hwf H0 Hb. destruct (decide (nc e <= now e)) as [Hn|Hn].
  - eapply wp_mono; [by apply check_run|]. intros r m' b' e' (-> & nc' & -> & Hc). split; [done|]. split; [apply Hc|done].
  - eapply exec_runs; [apply check_early; lia|]. by split.
Qed.

Lemma set_stores_steady db (dst : bytes) (opt : Z) (keys : list bytes) (gen : M (option (list bytes) * option error)) (D : gset bytes) m e :
  wf_db db m -> checkKeySize dst = None -> sized D -> D <> ∅ -> Z.of_nat (size D) < 2 ^ 61 ->
  (if opt =? UnionType then sUnionGeneric db keys else if opt =? DiffType then sDiffGeneric db keys
   else if opt =? InterType then sInterGeneric db keys else mret (None, None)) = gen ->
  (forall (Q : option (list bytes) * option error -> _ -> _ -> _ -> Prop) b, (forall v, default [] v = map_order D -> Q (v, None) m b e) -> wp gen Q m b e) ->
  runs (sStoreGeneric db dst opt keys) m e (steady db e).
Proof using BS OS.
  intros Hwf Hk Hs Hne Hb Hg HQ. destruct (wf_keys _ _ Hwf dst (short_key _ Hk)) as [_ _ (X & HX & _) _].
  eapply set_store_steady; [done|exact Hk|exact Hb|]. by eapply store_runs; try done; lia.
Qed.

(** Every command of [guard], on a well formed database, returns and leaves a well formed
    database. *)
Lemma perform_steady db fuel c m e :
  wf_db db m -> 0 <= now e -> guard db m e c -> (5 * size m <= fuel)%nat -> runs (perform db fuel c) m e (steady db e).
Proof using BS OS.
  intros Hwf H0 Hg Hf. pose proof (wf_keyed _ _ Hwf) as Hw. destruct c; cbn [perform guard] in *; try apply ignore_steady.
  - destruct Hg as [Hk Hv]. by eapply put_steady, Set_exec.
  - destruct Hg as [Hk Hv]. by eapply put_steady, GetSet_exec.
  - destruct Hg as [Hk Hv]. pose proof (SetNX_exec db key value m e Hk Hv) as HE. destruct (m !! encodeKVKey db key); [|by eapply put_steady].
    by eapply exec_runs.
  - destruct Hg as (Hk & Hv & Hd & Hb). by apply SetEX_steady.
  - eapply exec_runs; [by apply MSet_exec|]. split; [by apply wf_mset|done].
  - eapply exec_runs; [apply Del_exec|]. split; [by apply wf_del|done].
  - by apply incr_steady.
  - destruct Hg as (Hv & Hk & Hb). by eapply put_steady, Append_exec.
  - destruct Hg as (Hv & Hk & Ho & Hb & Hl). by eapply put_steady, SetRange_exec.
  - destruct Hg as (Hk & Ho & Hn). by eapply put_steady, SetBit_exec.
  - destruct Hg as (Hk & Hb & Hr & Hks). by apply BitOP_steady.
  - destruct (wf_keys _ _ Hwf key (short_key _ (proj1 Hg))) as [(l & Hl) _ _ _].
    apply (container_steady (C := list_container) _ _ _ _ _ _ _ Hwf Hl Hg). intros l' m' Hl' _. split; [by exists l'|done].
  - destruct (wf_keys _ _ Hwf key (short_key _ (proj1 Hg))) as [_ (h & Hh & _) _ _].
    apply (container_steady (C := hash_container) _ _ _ _ _ _ _ Hwf Hh Hg). intros h' m' Hh' Hb. split; [done|]. split; [by exists h'|done].
  - destruct (wf_keys _ _ Hwf key (short_key _ (proj1 Hg))) as [_ _ (X & HX & _) _].
    apply (container_steady (C := set_container) _ _ _ _ _ _ _ Hwf HX Hg). intros X' m' HX' Hb. do 2 (split; [done|]). split; [by exists X'|done].
  - destruct (wf_keys _ _ Hwf key (short_key _ (proj1 Hg))) as [_ _ _ (z & Hz & _)].
    apply (container_steady (C := zset_container) _ _ _ _ _ _ _ Hwf Hz Hg). intros z' m' Hz' Hb. do 3 (split; [done|]). by exists z'.
  - destruct Hg as (Hk & Xs & HX & Hs & Hne & Hb). eapply set_stores_steady; [done..|]. intros Q b HQ. by apply (wp_sUnionGeneric db keys Xs).
  - destruct Hg as (Hk & X & Xs & HX & Hs & Hne & Hb). eapply set_stores_steady; [done..|]. intros Q b HQ. by apply (wp_sDiffGeneric db key keys X Xs).
  - destruct Hg as (Hk & X & Xs & HX & HXs & Hs & Hne & Hb). eapply set_stores_steady; [done..|].
    intros Q b HQ. by apply (wp_sInterGeneric db key keys X Xs).
  - destruct Hg as (Hk & f & zs & Hzs & Hf' & Hne & Hws & Hd & Hd' & Hb).
    destruct (wf_keys _ _ Hwf dst (short_key _ Hk)) as [_ _ _ (z & Hz & Bz)].
    eapply (zset_store_steady db dst); [done|done|exact Hz|done|exact Hd|done|done|].
    apply ZUnionStore_exec; try done; [by apply key_le_max|lia].
  - destruct Hg as (Hk & f & z0 & zs & w0 & ws & Hzs & Hf' & Hws & Hw0 & Hd & Hd' & Hb).
    destruct (wf_keys _ _ Hwf dst (short_key _ Hk)) as [_ _ _ (z & Hz & Bz)].
    eapply (zset_store_steady db dst); [done|done|exact Hz|done|exact Hd|done|done|].
    apply ZInterStore_exec; try done; [by apply key_le_max|lia].
  - destruct Hg. by apply ExpireAt_steady.
  - by apply Persist_steady.
  - by apply check_steady.
  - pose proof (total_keys_le db m). eapply wp_mono; [apply FlushAll_run; [done|lia|lia]|].
    intros r m' b' e' (-> & _ & -> & Ha). split; [done|]. split; [apply Ha|done].
Qed.

(** The clock. *)
Definition advance (t : Z) (st : St) : St :=
  mkSt (ldb st) (readonly st) (r st) (rc st) (sent st) (batches st)
    (mkEnv t (nc (env st)) (lbkeys (env st)) (cancelled (env st))).

(** A database in use: commands within their guards, between them the time that passes. *)
Inductive sys_step (db : DB) : St -> St -> Prop :=
| step_command c st st' :
    guard db (contents st) (env st) c -> perform db (5 * size (contents st)) c st = (Ret tt, st') -> sys_step db st st'
| step_time t st : now (env st) <= t -> sys_step db st (advance t st).

Definition good (db : DB) (st : St) : Prop :=
  ready st /\ batches st = no_ops /\ 0 <= now (env st) /\ wf_db db (contents st).

Lemma perform_good db c st :
  good db st -> guard db (contents st) (env st) c ->
  exists st', perform db (5 * size (contents st)) c st = (Ret tt, st') /\ good db st'.
Proof using BS OS.
  intros (Hr & Hb & H0 & Hwf) Hg. destruct (perform_steady db (5 * size (contents st)) c (contents st) (env st) Hwf H0 Hg ltac:(done) st)
    as ([] & st' & m' & b' & e' & HE & [R1 R2 R3 R4] & Hb' & Hwf' & Hn); [by split|].
  exists st'. split; [done|]. subst. split; [done|]. split; [done|]. split; [by rewrite Hn|done].
Qed.

Lemma sys_step_good db st st' : sys_step db st st' -> good db st -> good db st'.
Proof using BS OS.
  intros [c s s' Hg HE|t s Ht] H.
  - destruct (perform_good db c s H Hg) as (s2 & HE2 & HG). congruence.
  - destruct H as (Hr & Hb & H0 & Hwf). split; [done|]. split; [done|]. split; [cbn; lia|done].
Qed.

End Steady.

(** * Properties *)

(** C1: the invariant of the database.  Started on an empty store, every sequence of
    commands on strings, lists, hashes, sets and sorted sets, of expirations, checks of the
    expiration times and flushes, with time passing in between, leaves a well formed
    database: every key of a collection type represents a collection, with the size entry
    equal to the number of members and the score index equal to the scores, and every
    expiration entry is readable.  No command of such a state panics or loops: it returns. *)
Theorem reachable_well_formed {B : Backend} {BS : BackendSpec B} {O : MapOrder} {OS : MapOrderSpec O} {R : Regexp}
    (db : DB) (st0 st : St) :
  ready st0 -> batches st0 = no_ops -> contents st0 = ∅ -> 0 <= now (env st0) -> rtc (sys_step db) st0 st ->
  wf_db db (contents st) /\ batches st = no_ops /\ ready st /\
  forall c, guard db (contents st) (env st) c -> exists st', perform db (5 * size (contents st)) c st = (Ret tt, st').
Proof.
  intros Hr Hb Hm H0 Hst. assert (HG : good db st0) by (do 3 (split; [done|]); rewrite Hm; apply wf_empty).
  clear Hr Hb Hm H0. induction Hst as [st|s1 s2 s3 H _ IH]; [|by apply IH, (sys_step_good db s1)].
  pose proof HG as (H1 & H2 & H3 & H4). do 3 (split; [done|]). intros c Hc. destruct (perform_good db c st HG Hc) as (st' & HE & _). eauto.
Qed.

(** Repeated names break the sizes of collections.  A field named twice in [HMset] is
    counted twice: the size entry says 2 for a hash with one field, and after [HDel] of the
    field it says 1 for an empty hash.  A member named twice in [SAdd] is counted twice, and
    storing an empty result leaves a set key that exists without members. *)
Lemma collection_anomalies :
  ((_ ← HMset db0 [107] [([97], [49]); ([97], [50])]; n ← HLen db0 [107]; l ← HKeys db0 [107];
    _ ← HDel db0 [107] [[97]]; n' ← HLen db0 [107]; l' ← HKeys db0 [107]; mret (n, l, n', l')) (mem_state ∅ 0)).1
  = Ret ((2, None), (Some [[97]], None), (1, None), (Some [], None)) /\
  ((a ← SAdd db0 [107] [[97]; [97]]; n ← SCard db0 [107]; l ← SMembers db0 [107]; mret (a, n, l)) (mem_state ∅ 0)).1
  = Ret ((2, None), (2, None), ([[97]], None)) /\
  ((a ← SInterStore db0 [100] [[107]; [108]]; n ← SCard db0 [100]; x ← SKeyExists db0 [100]; mret (a, n, x)) (mem_state ∅ 0)).1
  = Ret ((0, None), (0, None), (1, None)).
Proof. split; [exact hash_anomalies|exact set_anomalies]. Qed.

(** ** Examples *)

#[local] Instance ex_regexp : Regexp := {| regexp := bytes; regexp_Compile := inl; regexp_Match _ _ := true |}.

Lemma ex_outside : ~ in_db db0 [1; 2].
Proof. intros [x Hx]. discriminate Hx. Qed.

Lemma ex_keyed : keyed db0 no_ops.
Proof. intros t. rewrite ops_of_no_ops. constructor. Qed.

Definition ex_other : gmap bytes bytes := {[ [1; 2] := [3] ]}.

Lemma operations_contained_witness :
  contents ((Del (B := MemBackend) db0 [[107]]) (mem_state ex_other 0)).2 !! [1; 2] = Some [3].
Proof.
  rewrite (proj1 (operations_contained (B := MemBackend) db0 _ (Del db0 [[107]]) (mem_state ex_other 0)
    (op_Del db0 [[107]]) ex_keyed) [1; 2] ex_outside). reflexivity.
Defined.

Lemma ex_ready : ready (mem_state ∅ 100).
Proof. by repeat split. Qed.

Lemma reachable_well_formed_witness :
  exists st1 st2, perform (B := MemBackend) db0 0 (CSet [107] [118]) (mem_state ∅ 100) = (Ret tt, st1) /\
    perform (B := MemBackend) db0 (5 * size (contents st1)) (CExpireAt KKV [107] 200) (advance (now (env st1) + 50) st1) = (Ret tt, st2) /\
    wf_db db0 (contents st2).
Proof.
  destruct (reachable_well_formed (B := MemBackend) db0 (mem_state ∅ 100) (mem_state ∅ 100) ex_ready eq_refl eq_refl ltac:(done)
    ltac:(apply rtc_refl)) as (_ & _ & _ & HP).
  destruct (HP (CSet [107] [118]) ltac:(done)) as [st1 E1].
  assert (R1 : rtc (sys_step (B := MemBackend) db0) (mem_state ∅ 100) (advance (now (env st1) + 50) st1)).
  { eapply rtc_l; [apply (step_command db0 (CSet [107] [118])); [done|exact E1]|]. apply rtc_once, step_time. lia. }
  destruct (reachable_well_formed (B := MemBackend) db0 (mem_state ∅ 100) (advance (now (env st1) + 50) st1) ex_ready eq_refl eq_refl ltac:(done) R1)
    as (_ & _ & _ & HP1).
  destruct (HP1 (CExpireAt KKV [107] 200) ltac:(done)) as [st2 E2].
  exists st1, st2. split; [exact E1|]. split; [exact E2|].
  refine (proj1 (reachable_well_formed (B := MemBackend) db0 (mem_state ∅ 100) st2 ex_ready eq_refl eq_refl ltac:(done) _)).
  eapply rtc_r; [exact R1|]. apply (step_command db0 (CExpireAt KKV [107] 200)); [done|exact E2].
Defined.
