(* ===== verification/Client.v ===== *)
(** * Clients of the server (src/server: client.go, client_resp.go, util.go, const.go)

    The state a command runs on: the client with its selected database and the calls it has
    made on its response writer, and the server with the store and the open [DB] handles.
    [resp_bytes] is the RESP writer of client_resp.go.  RESP is self delimiting: the bytes
    of the calls of a client determine its replies ([read_replies]). *)

From S2P Require Import Prelude Driver Store Keys Util Core KV TList TZSet.

(** The bytes of a string of the source. *)
Definition str (s : string) : bytes := map (fun a => Z.of_N (Ascii.N_of_ascii a)) (Stdlib.Strings.String.list_ascii_of_string s).

(** ** Errors of the commands: the variables of const.go, a failed [strconv.Atoi] with its
    argument, messages of [fmt.Errorf], and errors of the layers below *)
Inductive cmd_error :=
  | ErrEmptyCommand | ErrNotFound | ErrNotAuthenticated | ErrAuthenticationFailure | ErrCmdParams | ErrValue | ErrSyntaxCmd
  | ErrScoreOverflow
  | NumError (arg : bytes) (err : error)
  | Errorf (msg : bytes)
  | DBError (err : error).

(** The texts of the errors that other packages make. *)
Class ErrorText := { num_error_text : bytes -> error -> bytes; db_error_text : error -> bytes }.

Definition error_text {T : ErrorText} (err : cmd_error) : bytes :=
  match err with
  | ErrEmptyCommand => str "empty command"
  | ErrNotFound => str "command not found"
  | ErrNotAuthenticated => str "not authenticated"
  | ErrAuthenticationFailure => str "authentication failure"
  | ErrCmdParams => str "invalid command param"
  | ErrValue => str "value is not an integer or out of range"
  | ErrSyntaxCmd => str "syntax error"
  | ErrScoreOverflow => str "zset score overflow"
  | NumError arg err => num_error_text arg err
  | Errorf msg => msg
  | DBError err => db_error_text err
  end.

(** ** The response writer

    The values of an [[]interface{}], and the calls of the interface
    [responseWriter]; [None] is a nil slice. *)
Inductive value :=
  | VArray (lst : list value)
  | VSlices (lst : list bytes)
  | VBytes (b : bytes)
  | VNil
  | VInt64 (n : Z)
  | VString (status : bytes)
  | VError (err : cmd_error).

Inductive wcall :=
  | writeError (err : cmd_error)
  | writeStatus (status : bytes)
  | writeInteger (n : Z)
  | writeBulk (b : option bytes)
  | writeArray (lst : option (list value))
  | writeSliceArray (lst : option (list (option bytes)))
  | writeFVPairArray (lst : option (list (bytes * bytes)))
  | writeScorePairArray (lst : option (list ScorePair)) (withScores : bool)
  | writeBulkFrom (n : Z) (rb : bytes).

Definition OK : bytes := str "OK".
Definition PONG : bytes := str "PONG".

(** *** The RESP writer *)

Definition Delims : bytes := [13; 10].
Definition NullBulk : bytes := str "-1".
Definition NullArray : bytes := str "-1".

(** [strconv.Itoa] *)
Definition Itoa (n : Z) : bytes := FormatInt64ToSlice n.

Definition resp_status (status : bytes) : bytes := 43 :: status ++ Delims.
Definition resp_integer (n : Z) : bytes := 58 :: FormatInt64ToSlice n ++ Delims.
Definition resp_error {T : ErrorText} (err : cmd_error) : bytes := 45 :: error_text err ++ Delims.

Definition resp_bulk (b : option bytes) : bytes :=
  36 :: (match b with None => NullBulk | Some b => Itoa (len b) ++ Delims ++ b end) ++ Delims.

(** The head of an array of [n] elements. *)
Definition resp_array_head (n : Z) : bytes := 42 :: Itoa n ++ Delims.
Definition resp_null_array : bytes := 42 :: NullArray ++ Delims.

Definition resp_slices (lst : option (list (option bytes))) : bytes :=
  match lst with
  | None => resp_null_array
  | Some lst => resp_array_head (len lst) ++ concat (map resp_bulk lst)
  end.

Fixpoint resp_value {T : ErrorText} (v : value) : bytes :=
  match v with
  | VArray lst => resp_array_head (len lst) ++ concat (map resp_value lst)
  | VSlices lst => resp_slices (Some (map Some lst))
  | VBytes b => resp_bulk (Some b)
  | VNil => resp_bulk None
  | VInt64 n => resp_integer n
  | VString status => resp_status status
  | VError err => resp_error err
  end.

Definition resp_array {T : ErrorText} (lst : option (list value)) : bytes :=
  match lst with
  | None => resp_null_array
  | Some lst => resp_value (VArray lst)
  end.

Definition resp_fvpairs (lst : option (list (bytes * bytes))) : bytes :=
  match lst with
  | None => resp_null_array
  | Some lst => resp_array_head (len lst * 2) ++ concat (map (fun '(f, v) => resp_bulk (Some f) ++ resp_bulk (Some v)) lst)
  end.

Definition resp_scorepairs (lst : option (list ScorePair)) (withScores : bool) : bytes :=
  match lst with
  | None => resp_null_array
  | Some lst =>
      resp_array_head (if withScores then len lst * 2 else len lst) ++
      concat (map (fun p => resp_bulk (Some (Member p)) ++ if withScores then resp_bulk (Some (FormatInt64ToSlice (Score p))) else []) lst)
  end.

(** [n] is the announced length, [rb] what the reader gives. *)
Definition resp_bulk_from (n : Z) (rb : bytes) : bytes := 36 :: Itoa n ++ Delims ++ rb ++ Delims.

Definition resp_bytes {T : ErrorText} (w : wcall) : bytes :=
  match w with
  | writeError err => resp_error err
  | writeStatus status => resp_status status
  | writeInteger n => resp_integer n
  | writeBulk b => resp_bulk b
  | writeArray lst => resp_array lst
  | writeSliceArray lst => resp_slices lst
  | writeFVPairArray lst => resp_fvpairs lst
  | writeScorePairArray lst withScores => resp_scorepairs lst withScores
  | writeBulkFrom n rb => resp_bulk_from n rb
  end.

(** ** The state of a command *)

(** What a [DB] handle keeps between operations. *)
Record Handle := mkHandle { h_batches : Batches; h_nc : Z; h_lbkeys : gmap bytes (list nat); h_cancelled : list nat }.

Definition new_handle : Handle := mkHandle no_ops 0 ∅ [].

(** The settings of the configuration that commands use. *)
Class AppConfig := { AuthPassword : bytes; AuthMethod : option (bytes -> bool); Databases : Z }.

Section State.
Context {B : Backend}.

(** [c_blocked] is what the other clients of a database do while the client waits in a
    blocking pop, and [c_fn] names its next cancel function. *)
Record client := mkClient {
  c_db : DB;
  c_cmd : bytes;
  c_args : list bytes;
  c_isAuthed : bool;
  c_resp : list wcall;
  c_fn : nat;
  c_blocked : DB -> list wake
}.

(** The server: what the handles share, and the handles ([Ledis.dbs]). *)
Record App := mkApp { ledis : St; dbs : gmap Z Handle }.

Abbreviation CM := (SM (client * App)).

Definition with_db (db : DB) (c : client) : client :=
  mkClient db (c_cmd c) (c_args c) (c_isAuthed c) (c_resp c) (c_fn c) (c_blocked c).
Definition with_cmd (cmd : bytes) (args : list bytes) (c : client) : client :=
  mkClient (c_db c) cmd args (c_isAuthed c) (c_resp c) (c_fn c) (c_blocked c).
Definition with_authed (b : bool) (c : client) : client :=
  mkClient (c_db c) (c_cmd c) (c_args c) b (c_resp c) (c_fn c) (c_blocked c).

Definition get_client : CM client := fun s => (Ret s.1, s).
Definition set_client (f : client -> client) : CM unit := fun s => (Ret tt, (f s.1, s.2)).

(** A call of the response writer. *)
Definition write (w : wcall) : CM unit :=
  set_client (fun c => mkClient (c_db c) (c_cmd c) (c_args c) (c_isAuthed c) (c_resp c ++ [w]) (c_fn c) (c_blocked c)).

(** The state an operation of the handle [h] runs on. *)
Definition load (h : Handle) (st : St) : St :=
  with_batches (h_batches h) (with_env (mkEnv (now (env st)) (h_nc h) (h_lbkeys h) (h_cancelled h)) st).
Definition handle_of (st : St) : Handle :=
  mkHandle (batches st) (nc (env st)) (lbkeys (env st)) (cancelled (env st)).

(** An operation of [c.db]. *)
Definition on_db {A} (p : DB -> M A) : CM A := fun '(c, a) =>
  match dbs a !! index (c_db c) with
  | None => (Panic, (c, a))
  | Some h =>
      let '(o, st) := p (c_db c) (load h (ledis a)) in
      (o, (c, mkApp st (<[index (c_db c) := handle_of st]> (dbs a))))
  end.

(** An operation of the whole [Ledis]. *)
Definition on_ledis {A} (p : M A) : CM A := fun '(c, a) =>
  let '(o, st) := p (ledis a) in (o, (c, mkApp st (dbs a))).

(** [Ledis.Select]: the handle of a database is made when it is first selected. *)
Definition Select {Cfg : AppConfig} (index : Z) : CM (DB + cmd_error) := fun '(c, a) =>
  if (index <? 0) || (index >=? Databases) then
    (Ret (inr (Errorf (str "invalid db index " ++ Itoa index ++ str ", must in [0, " ++ Itoa (Databases - 1) ++ str "]"))), (c, a))
  else
    let db := setIndex index in
    match dbs a !! index with
    | Some _ => (Ret (inl db), (c, a))
    | None => (Ret (inl db), (c, mkApp (ledis a) (<[index := new_handle]> (dbs a))))
    end.

(** What a command returns, unless it still waits: nil or an error. *)
Inductive cmd_ret := Return (err : option cmd_error) | Waiting.

Definition command : Type := CM cmd_ret.

Definition fail (err : cmd_error) : command := mret (Return (Some err)).

(** [if err != nil { return err } else { c.resp.w }; return nil] *)
Definition reply (err : option error) (w : wcall) : command :=
  match err with
  | Some err => fail (DBError err)
  | None => _ ← write w; mret (Return None)
  end.

End State.

Abbreviation CM := (SM (client * App)).

(** ** Words in the arguments *)

Definition lower_byte (c : Z) : Z := if (65 <=? c) && (c <=? 90) then c + 32 else c.
Definition upper_byte (c : Z) : Z := if (97 <=? c) && (c <=? 122) then c - 32 else c.

Definition lowerSlice (buf : bytes) : bytes := map lower_byte buf.
Definition upperSlice (buf : bytes) : bytes := map upper_byte buf.

(** [strings.ToLower] and [strings.ToUpper], as far as comparisons with ASCII words can
    tell: besides the ASCII letters, U+0130 lowers to i and U+212A to k, U+0131 has the
    upper case I and U+017F the upper case S; every other rune stays outside ASCII. *)
Fixpoint strings_ToLower (s : bytes) : bytes :=
  match s with
  | 196 :: 176 :: s' => 105 :: strings_ToLower s'
  | 226 :: 132 :: 170 :: s' => 107 :: strings_ToLower s'
  | c :: s' => lower_byte c :: strings_ToLower s'
  | [] => []
  end.

Fixpoint strings_ToUpper (s : bytes) : bytes :=
  match s with
  | 196 :: 177 :: s' => 73 :: strings_ToUpper s'
  | 197 :: 191 :: s' => 83 :: strings_ToUpper s'
  | c :: s' => upper_byte c :: strings_ToUpper s'
  | [] => []
  end.

Definition lower_is (arg : bytes) (word : string) : bool := bool_decide (strings_ToLower arg = str word).
Definition upper_is (arg : bytes) (word : string) : bool := bool_decide (strings_ToUpper arg = str word).

(** [strconv.Atoi] on a 64 bit machine. *)
Definition Atoi (s : bytes) : Z + cmd_error :=
  match ParseInt s 64 with
  | (n, None) => inl n
  | (_, Some err) => inr (NumError s err)
  end.

(** * Reading replies

    The RESP protocol, as a client reads it: a line after the type byte, and for a bulk
    string its bytes. *)
Inductive reply_value :=
  | RError (text : bytes)
  | RStatus (text : bytes)
  | RInteger (n : Z)
  | RBulk (b : option bytes)
  | RArray (lst : option (list reply_value)).

Fixpoint read_line (b : bytes) : option (bytes * bytes) :=
  match b with
  | 13 :: 10 :: rest => Some ([], rest)
  | c :: b' => match read_line b' with Some (l, rest) => Some (c :: l, rest) | None => None end
  | [] => None
  end.

Definition read_number (b : bytes) : option (Z * bytes) :=
  match read_line b with
  | Some (l, rest) => match ParseInt l 64 with (n, None) => Some (n, rest) | _ => None end
  | None => None
  end.

(** A bulk string of [n] bytes. *)
Definition read_bulk (n : Z) (b : bytes) : option (option bytes * bytes) :=
  if n =? -1 then Some (None, b)
  else match drop (Z.to_nat n) b with
  | 13 :: 10 :: rest => Some (Some (take (Z.to_nat n) b), rest)
  | _ => None
  end.

Fixpoint read_many (p : bytes -> option (reply_value * bytes)) (n : nat) (b : bytes) : option (list reply_value * bytes) :=
  match n with
  | O => Some ([], b)
  | S n =>
      match p b with
      | Some (x, b) => match read_many p n b with Some (xs, b) => Some (x :: xs, b) | None => None end
      | None => None
      end
  end.

(** [fuel] bounds the nesting of arrays. *)
Fixpoint read_reply (fuel : nat) (b : bytes) : option (reply_value * bytes) :=
  match fuel with
  | O => None
  | S fuel =>
      match b with
      | 43 :: b => match read_line b with Some (l, rest) => Some (RStatus l, rest) | None => None end
      | 45 :: b => match read_line b with Some (l, rest) => Some (RError l, rest) | None => None end
      | 58 :: b => match read_number b with Some (n, rest) => Some (RInteger n, rest) | None => None end
      | 36 :: b =>
          match read_number b with
          | Some (n, b) => match read_bulk n b with Some (x, rest) => Some (RBulk x, rest) | None => None end
          | None => None
          end
      | 42 :: b =>
          match read_number b with
          | Some (n, b) =>
              if n =? -1 then Some (RArray None, b)
              else match read_many (read_reply fuel) (Z.to_nat n) b with Some (xs, rest) => Some (RArray (Some xs), rest) | None => None end
          | None => None
          end
      | _ => None
      end
  end.

(** All the replies of a stream. *)
Fixpoint read_replies (fuel : nat) (b : bytes) : option (list reply_value) :=
  match fuel, b with
  | _, [] => Some []
  | O, _ => None
  | S fuel, _ =>
      match read_reply (S (length b)) b with
      | Some (x, b) => match read_replies fuel b with Some xs => Some (x :: xs) | None => None end
      | None => None
      end
  end.

(** ** What the calls of the response writer mean *)

Definition bulk (b : bytes) : reply_value := RBulk (Some b).

Fixpoint value_reply {T : ErrorText} (v : value) : reply_value :=
  match v with
  | VArray lst => RArray (Some (map value_reply lst))
  | VSlices lst => RArray (Some (map bulk lst))
  | VBytes b => bulk b
  | VNil => RBulk None
  | VInt64 n => RInteger n
  | VString status => RStatus status
  | VError err => RError (error_text err)
  end.

Definition reply_of {T : ErrorText} (w : wcall) : reply_value :=
  match w with
  | writeError err => RError (error_text err)
  | writeStatus status => RStatus status
  | writeInteger n => RInteger n
  | writeBulk b => RBulk b
  | writeArray lst => RArray (map value_reply <$> lst)
  | writeSliceArray lst => RArray (map RBulk <$> lst)
  | writeFVPairArray lst => RArray ((fun lst => concat (map (fun '(f, v) => [bulk f; bulk v]) lst)) <$> lst)
  | writeScorePairArray lst withScores =>
      RArray ((fun lst => concat (map (fun p => bulk (Member p) :: if withScores then [bulk (FormatInt64ToSlice (Score p))] else []) lst)) <$> lst)
  | writeBulkFrom n rb => bulk rb
  end.

(** Texts without a carriage return, numbers of 64 bits, lengths below 2^62. *)
Definition is_line (b : bytes) : Prop := 13 ∉ b.
Definition short_bulk (b : bytes) : Prop := len b < 2 ^ 62.

Inductive short_value {T : ErrorText} : value -> Prop :=
| sv_array lst : len lst < 2 ^ 62 -> Forall short_value lst -> short_value (VArray lst)
| sv_slices lst : len lst < 2 ^ 62 -> Forall short_bulk lst -> short_value (VSlices lst)
| sv_bytes b : short_bulk b -> short_value (VBytes b)
| sv_nil : short_value VNil
| sv_int n : in_i64 n -> short_value (VInt64 n)
| sv_string status : is_line status -> short_value (VString status)
| sv_error err : is_line (error_text err) -> short_value (VError err).

Definition short_list {A} (P : A -> Prop) (lst : option (list A)) : Prop :=
  forall l, lst = Some l -> len l < 2 ^ 61 /\ Forall P l.

Definition sendable {T : ErrorText} (w : wcall) : Prop :=
  match w with
  | writeError err => is_line (error_text err)
  | writeStatus status => is_line status
  | writeInteger n => in_i64 n
  | writeBulk b => forall x, b = Some x -> short_bulk x
  | writeArray lst => short_list short_value lst
  | writeSliceArray lst => short_list (fun b => forall x, b = Some x -> short_bulk x) lst
  | writeFVPairArray lst => short_list (fun p => short_bulk p.1 /\ short_bulk p.2) lst
  | writeScorePairArray lst _ => short_list (fun p => short_bulk (Member p) /\ in_i64 (Score p)) lst
  | writeBulkFrom n rb => n = len rb /\ short_bulk rb
  end.

Lemma read_line_app l rest : is_line l -> read_line (l ++ Delims ++ rest) = Some (l, rest).
Proof.
  unfold is_line. induction l as [|c l IH]; intros Hl; [done|]. apply not_elem_of_cons in Hl as [Hc Hl]. cbn [app]. specialize (IH Hl).
  assert (E : read_line (c :: l ++ Delims ++ rest) = match read_line (l ++ Delims ++ rest) with Some (l0, r) => Some (c :: l0, r) | None => None end).
  { destruct c as [|c|c]; [done| |done]. do 4 (destruct c as [c|c|]; try done). }
  by rewrite E, IH.
Qed.

Lemma format_digits_line f n : 0 <= n -> is_line (format_digits f n).
Proof.
  unfold is_line. revert n; induction f as [|f IH]; intros n Hn; cbn [format_digits]; [by intros []%elem_of_nil|].
  destruct (n <? 10); zify_bool.
  - rewrite list_elem_of_singleton. lia.
  - rewrite elem_of_app, list_elem_of_singleton. pose proof (Z.mod_pos_bound n 10 ltac:(lia)). intros [Hd|Hd]; [|lia].
    apply (IH (n / 10)) in Hd; [done|]. apply Z.div_pos; lia.
Qed.

Lemma format_line n : is_line (FormatInt64ToSlice n).
Proof.
  unfold FormatInt64ToSlice. destruct (n <? 0) eqn:E; zify_bool; [|by apply format_digits_line].
  unfold is_line. rewrite not_elem_of_cons. split; [done|]. apply format_digits_line. lia.
Qed.

Lemma read_number_format n rest : in_i64 n -> read_number (FormatInt64ToSlice n ++ Delims ++ rest) = Some (n, rest).
Proof. intros Hn. unfold read_number. rewrite read_line_app by apply format_line. by rewrite ParseInt_Format. Qed.

Lemma small_i64 n : 0 <= n < 2 ^ 63 -> in_i64 n.
Proof. unfold in_i64. lia. Qed.

(** A reader that reads [xs] from the bytes [bs], whatever follows. *)
Definition reads {A} (f : A -> bytes) (g : A -> reply_value) (p : bytes -> option (reply_value * bytes)) (x : A) : Prop :=
  forall rest, p (f x ++ rest) = Some (g x, rest).

Lemma read_many_reads {A} (f : A -> bytes) (g : A -> reply_value) p (xs : list A) rest :
  Forall (reads f g p) xs -> read_many p (length xs) (concat (map f xs) ++ rest) = Some (map g xs, rest).
Proof.
  induction 1 as [|x xs Hx HF IH]; [done|]. cbn [map concat length read_many]. rewrite <- app_assoc, (Hx (concat (map f xs) ++ rest)). by rewrite IH.
Qed.

Lemma read_bulk_reads fuel b : (forall x, b = Some x -> short_bulk x) -> reads resp_bulk RBulk (read_reply (S fuel)) b.
Proof.
  intros Hb rest. unfold resp_bulk. cbn [app read_reply]. destruct b as [b|].
  - rewrite <- !app_assoc. unfold Itoa. rewrite read_number_format by (apply small_i64; specialize (Hb b eq_refl); unfold short_bulk in Hb; lia).
    unfold read_bulk. rewrite (proj2 (Z.eqb_neq _ _)) by lia. rewrite Nat2Z.id, drop_app_length, take_app_length. done.
  - change (NullBulk) with (FormatInt64ToSlice (-1)). rewrite <- app_assoc, read_number_format by (unfold in_i64; lia). done.
Qed.

Lemma read_bytes_reads fuel b : short_bulk b -> reads (fun b => resp_bulk (Some b)) bulk (read_reply (S fuel)) b.
Proof. intros Hb rest. apply (read_bulk_reads fuel (Some b)). by intros x [= <-]. Qed.

(** An array of the elements [xs]. *)
Lemma read_array {A} (f : A -> bytes) (g : A -> reply_value) fuel (xs : list A) rest :
  len xs < 2 ^ 62 -> Forall (reads f g (read_reply fuel)) xs ->
  read_reply (S fuel) (resp_array_head (len xs) ++ concat (map f xs) ++ rest) = Some (RArray (Some (map g xs)), rest).
Proof.
  intros Hl HF. unfold resp_array_head. cbn [app read_reply]. unfold Itoa. rewrite <- !app_assoc, read_number_format by (apply small_i64; lia).
  rewrite (proj2 (Z.eqb_neq _ _)) by lia. rewrite Nat2Z.id. by rewrite (read_many_reads f g).
Qed.

Lemma read_null_array fuel rest : read_reply (S fuel) (resp_null_array ++ rest) = Some (RArray None, rest).
Proof.
  unfold resp_null_array. cbn [app read_reply]. change NullArray with (FormatInt64ToSlice (-1)).
  rewrite <- app_assoc, read_number_format by (unfold in_i64; lia). done.
Qed.

Fixpoint depth (v : value) : nat :=
  match v with
  | VArray lst => S (list_max (map depth lst))
  | VSlices _ => 2
  | _ => 1
  end.

Lemma read_status_reads fuel status : is_line status -> reads resp_status RStatus (read_reply (S fuel)) status.
Proof. intros Hs rest. unfold resp_status. cbn [app read_reply]. by rewrite <- app_assoc, read_line_app. Qed.

Lemma read_error_reads {T : ErrorText} fuel err :
  is_line (error_text err) -> reads resp_error (fun err => RError (error_text err)) (read_reply (S fuel)) err.
Proof. intros He rest. unfold resp_error. cbn [app read_reply]. by rewrite <- app_assoc, read_line_app. Qed.

Lemma read_integer_reads fuel n : in_i64 n -> reads resp_integer RInteger (read_reply (S fuel)) n.
Proof. intros Hn rest. unfold resp_integer. cbn [app read_reply]. by rewrite <- app_assoc, read_number_format. Qed.

Fixpoint read_value_reads {T : ErrorText} v {struct v} : forall fuel, short_value v -> (depth v <= fuel)%nat -> reads resp_value value_reply (read_reply fuel) v.
Proof.
  intros fuel Hv Hd. destruct fuel as [|fuel]; [destruct v; simpl in Hd; lia|]. destruct v as [lst|lst|b| |n|status|err]; inversion Hv; subst; intros rest.
  - cbn [resp_value value_reply]. rewrite <- app_assoc. apply (read_array resp_value value_reply); [done|]. cbn [depth] in Hd. apply le_S_n in Hd.
    match goal with H : Forall short_value lst |- _ => revert Hd H end. clear - read_value_reads.
    induction lst as [|v lst IH]; intros Hd HF; [constructor|]. cbn [map list_max foldr] in Hd. apply Forall_cons in HF as [H1 H2].
    constructor; [apply read_value_reads; [done|]; unfold list_max in Hd; cbn in Hd; lia|]. apply IH; [unfold list_max in *; cbn in Hd; lia|done].
  - destruct fuel as [|fuel]; [simpl in Hd; lia|]. cbn [resp_value value_reply resp_slices].
    rewrite length_map, map_map, <- app_assoc. apply (read_array (fun b => resp_bulk (Some b)) bulk); [done|].
    eapply Forall_impl; [eassumption|]. intros b Hb. by apply read_bytes_reads.
  - by apply read_bytes_reads.
  - by apply (read_bulk_reads fuel None).
  - by apply read_integer_reads.
  - by apply read_status_reads.
  - by apply read_error_reads.
Qed.

(** ** Calls are read back *)

Lemma concat_flat {A C D} (f : C -> list D) (g : A -> list C) (xs : list A) :
  concat (map f (concat (map g xs))) = concat (map (fun x => concat (map f (g x))) xs).
Proof. induction xs as [|x xs IH]; [done|]. cbn [map concat]. by rewrite map_app, concat_app, IH. Qed.

Lemma map_flat {A C D} (f : C -> D) (g : A -> list C) (xs : list A) :
  map f (concat (map g xs)) = concat (map (fun x => map f (g x)) xs).
Proof. induction xs as [|x xs IH]; [done|]. cbn [map concat]. by rewrite map_app, IH. Qed.

Lemma flat_length {A C} (g : A -> list C) (n : nat) (xs : list A) :
  (forall x, length (g x) = n) -> length (concat (map g xs)) = (length xs * n)%nat.
Proof. intros Hg. induction xs as [|x xs IH]; [done|]. cbn [map concat length]. rewrite length_app, IH, Hg. lia. Qed.

Lemma read_flat {A} (g : A -> list bytes) (n : nat) (xs : list A) (k : Z) fuel rest :
  (forall x, length (g x) = n) -> k = len xs * Z.of_nat n -> k < 2 ^ 62 -> Forall (fun x => Forall short_bulk (g x)) xs ->
  read_reply (S (S fuel)) (resp_array_head k ++ concat (map (fun x => concat (map (fun b => resp_bulk (Some b)) (g x))) xs) ++ rest) =
  Some (RArray (Some (concat (map (fun x => map bulk (g x)) xs))), rest).
Proof.
  intros Hg -> Hk HF. rewrite <- concat_flat, <- map_flat. rewrite <- Nat2Z.inj_mul, <- (flat_length g n xs Hg).
  apply (read_array (fun b => resp_bulk (Some b)) bulk); [rewrite (flat_length g n xs Hg); lia|].
  apply Forall_concat, Forall_map. eapply Forall_impl; [exact HF|]. intros x Hx. eapply Forall_impl; [exact Hx|].
  intros b Hb. by apply read_bytes_reads.
Qed.

Lemma depth_length {T : ErrorText} v : (depth v <= length (resp_value v))%nat.
Proof.
  revert v. fix IH 1. intros [lst|lst|b| |n|status|err]; cbn [depth resp_value resp_slices].
  - unfold resp_array_head. cbn [app length]. rewrite !length_app.
    assert (H : (list_max (map depth lst) <= length (concat (map resp_value lst)))%nat); [|lia].
    induction lst as [|v lst IHl]; [done|]. cbn [map concat]. rewrite length_app. pose proof (IH v). unfold list_max in *. cbn. lia.
  - unfold resp_array_head. cbn [app length]. rewrite !length_app. unfold Delims. cbn [length]. lia.
  - unfold resp_bulk. cbn [length]. lia.
  - unfold resp_bulk. cbn [length]. lia.
  - unfold resp_integer. cbn [length]. lia.
  - unfold resp_status. cbn [length]. lia.
  - unfold resp_error. cbn [length]. lia.
Qed.

Lemma format_digits_length f n : (length (format_digits f n) <= f)%nat.
Proof.
  revert n; induction f as [|f IH]; intros n; cbn [format_digits]; [done|]. destruct (n <? 10); [simpl; lia|].
  rewrite length_app. pose proof (IH (n / 10)). simpl. lia.
Qed.

Lemma format_length n : (length (FormatInt64ToSlice n) <= 21)%nat.
Proof. unfold FormatInt64ToSlice. destruct (n <? 0); cbn [length]; [pose proof (format_digits_length 20 (- n))|pose proof (format_digits_length 20 n)]; lia. Qed.

Section Calls.
Context {T : ErrorText}.

(** Nesting a reader needs for the call. *)
Definition call_depth (w : wcall) : nat :=
  match w with
  | writeArray (Some lst) => depth (VArray lst)
  | _ => 2
  end.

Lemma resp_bulk_from_eq (rb : bytes) : resp_bulk_from (len rb) rb = resp_bulk (Some rb).
Proof. unfold resp_bulk_from, resp_bulk. by rewrite <- !app_assoc. Qed.

Lemma read_call fuel w rest : sendable w -> (call_depth w <= fuel)%nat -> read_reply fuel (resp_bytes w ++ rest) = Some (reply_of w, rest).
Proof.
  intros Hw Hf. destruct w as [err|status|n|b|lst|lst|lst|lst ws|n rb]; cbn [sendable resp_bytes reply_of call_depth] in *.
  - destruct fuel as [|fuel]; [lia|]. by apply read_error_reads.
  - destruct fuel as [|fuel]; [lia|]. by apply read_status_reads.
  - destruct fuel as [|fuel]; [lia|]. by apply read_integer_reads.
  - destruct fuel as [|fuel]; [lia|]. by apply read_bulk_reads.
  - destruct lst as [lst|]; [|destruct fuel as [|fuel]; [lia|]; apply read_null_array]. destruct (Hw lst eq_refl) as [Hl HF].
    apply (read_value_reads (VArray lst)); [constructor; [lia|done]|done].
  - destruct lst as [lst|]; [|destruct fuel as [|fuel]; [lia|]; apply read_null_array]. destruct (Hw lst eq_refl) as [Hl HF].
    destruct fuel as [|[|fuel]]; [lia..|]. cbn [resp_slices fmap option_fmap option_map]. rewrite <- app_assoc. apply (read_array resp_bulk RBulk); [lia|].
    eapply Forall_impl; [exact HF|]. intros b Hb. by apply read_bulk_reads.
  - destruct lst as [lst|]; [|destruct fuel as [|fuel]; [lia|]; apply read_null_array]. destruct (Hw lst eq_refl) as [Hl HF].
    destruct fuel as [|[|fuel]]; [lia..|]. cbn [resp_fvpairs fmap option_fmap option_map]. rewrite <- app_assoc.
    pose proof (read_flat (fun p : bytes * bytes => [p.1; p.2]) 2 lst (len lst * 2) fuel rest) as E.
    etransitivity; [|etransitivity; [apply E; [done|done|lia|]|]].
    + do 4 f_equal. apply map_ext. intros [f v]. cbn. by rewrite app_nil_r.
    + eapply Forall_impl; [exact HF|]. intros [f v] [H1 H2]. by repeat constructor.
    + do 5 f_equal. apply map_ext. by intros [f v].
  - destruct lst as [lst|]; [|destruct fuel as [|fuel]; [lia|]; apply read_null_array]. destruct (Hw lst eq_refl) as [Hl HF].
    destruct fuel as [|[|fuel]]; [lia..|]. cbn [resp_scorepairs fmap option_fmap option_map]. rewrite <- app_assoc.
    pose proof (read_flat (fun p => Member p :: if ws then [FormatInt64ToSlice (Score p)] else []) (if ws then 2 else 1) lst
      (if ws then len lst * 2 else len lst) fuel rest) as E.
    etransitivity; [|etransitivity; [apply E; [by destruct ws|destruct ws; lia|destruct ws; lia|]|]].
    + do 4 f_equal. apply map_ext. intros p. by destruct ws; cbn; rewrite app_nil_r.
    + eapply Forall_impl; [exact HF|]. intros p [H1 H2]. constructor; [done|]. destruct ws; [|constructor]. constructor; [|constructor].
      unfold short_bulk. pose proof (format_length (Score p)). lia.
    + do 5 f_equal. apply map_ext. intros p. by destruct ws.
  - destruct Hw as [-> Hs]. destruct fuel as [|fuel]; [lia|]. rewrite resp_bulk_from_eq. by apply read_bytes_reads.
Qed.

Lemma call_fits w : (call_depth w <= S (length (resp_bytes w)))%nat.
Proof.
  destruct w as [err|status|n|b|[lst|]|lst|lst|lst ws|n rb]; cbn [call_depth resp_bytes].
  5: { pose proof (depth_length (VArray lst)). cbn [resp_array]. lia. }
  all: try (unfold resp_error, resp_status, resp_integer, resp_bulk, resp_bulk_from; cbn [length]; lia).
  all: try (cbn [resp_array]; unfold resp_null_array; cbn [length]; lia).
  all: destruct lst as [lst|]; cbn [resp_slices resp_fvpairs resp_scorepairs]; unfold resp_array_head, resp_null_array; cbn [app length]; lia.
Qed.

Lemma read_all_calls ws fuel : Forall sendable ws -> (length ws <= fuel)%nat ->
  read_replies fuel (concat (map resp_bytes ws)) = Some (map reply_of ws).
Proof.
  intros HF. revert fuel; induction HF as [|w ws Hw HF IH]; intros fuel Hf; [by destruct fuel|].
  destruct fuel as [|fuel]; [simpl in Hf; lia|]. cbn [map concat].
  assert (Hne : exists c b, resp_bytes w ++ concat (map resp_bytes ws) = c :: b).
  { pose proof (call_fits w). destruct (resp_bytes w) eqn:E; [|by eexists _, _]. exfalso.
    destruct w as [| | | |[|]|[|]|[|]|[|] ?|]; cbn in E; discriminate. }
  pose proof (read_call (S (length (resp_bytes w ++ concat (map resp_bytes ws)))) w (concat (map resp_bytes ws)) Hw) as E.
  destruct Hne as (c & b & Hcb). cbn [read_replies]. rewrite Hcb in *. rewrite E; [rewrite IH by (simpl in Hf; lia); done|].
  pose proof (call_fits w). apply (f_equal length) in Hcb. rewrite length_app in Hcb. lia.
Qed.

End Calls.
