(* ===== verification/Commands.v ===== *)
(** * The commands of the server (src/server: cmd_kv.go, cmd_list.go, cmd_hash.go, cmd_set.go,
    cmd_zset.go, cmd_scan.go, cmd_sort.go, cmd_migrate.go, cmd_server.go)

    One definition per command function: the checks of the arguments, the calls of the
    database layer, the call of the response writer.  Scripts are in Script.v, the migration to
    another server in Transfer.v, replication in Cluster.v; INFO, CONFIG and TIME are not
    modelled. *)

From S2P Require Import Prelude SortPkg Float Driver Store Keys Util Core KV TList THash TSet TZSet Migrate Sort Scan Flush Client.

(** The packages the commands use. *)
Class Packages := {
  pk_regexp :: Regexp;
  pk_float :: FloatSyntax;
  pk_sort :: SortPkg;
  pk_rdb :: Rdb;
  pk_overflow :: Int64Overflow
}.

Section Commands.
Context {B : Backend} {MO : MapOrder} {PK : Packages} {Cfg : AppConfig}.

Definition with_args (k : list bytes -> command) : command := c ← get_client; k (c_args c).

(** [n, err := ledis.StrInt64(arg, nil); if err != nil { return ErrValue }] *)
Definition with_int64 (arg : bytes) (k : Z -> command) : command :=
  match StrInt64 (Some arg) None with
  | (n, None) => k n
  | (_, Some _) => fail ErrValue
  end.

(** [n, err := strconv.Atoi(string(arg)); if err != nil { return err }] *)
Definition with_int (arg : bytes) (k : Z -> command) : command :=
  match Atoi arg with inl n => k n | inr err => fail err end.

Definition reply_int (p : DB -> M (Z * option error)) : command := '(n, err) ← on_db p; reply err (writeInteger n).
Definition reply_bulk (p : DB -> M (option bytes * option error)) : command := '(v, err) ← on_db p; reply err (writeBulk v).
Definition reply_ok (p : DB -> M (option error)) : command := err ← on_db p; reply err (writeStatus OK).

(** The pairs of an even number of arguments. *)
Fixpoint pairs (args : list bytes) : list (bytes * bytes) :=
  match args with
  | k :: v :: args => (k, v) :: pairs args
  | _ => []
  end.

(** ** Strings (cmd_kv.go) *)

Definition getCommand : command := with_args (fun args =>
  match args with [key] => reply_bulk (fun db => GetSlice db key) | _ => fail ErrCmdParams end).

Definition setCommand : command := with_args (fun args =>
  match args with [key; value] => reply_ok (fun db => Set_ db key value) | _ => fail ErrCmdParams end).

Definition getsetCommand : command := with_args (fun args =>
  match args with [key; value] => reply_bulk (fun db => GetSet db key value) | _ => fail ErrCmdParams end).

Definition setnxCommand : command := with_args (fun args =>
  match args with [key; value] => reply_int (fun db => SetNX db key value) | _ => fail ErrCmdParams end).

Definition setexCommand : command := with_args (fun args =>
  match args with
  | [key; a; value] => with_int64 a (fun sec => reply_ok (fun db => SetEX db key sec value))
  | _ => fail ErrCmdParams
  end).

Definition existsCommand : command := with_args (fun args =>
  match args with [key] => reply_int (fun db => Exists db key) | _ => fail ErrCmdParams end).

Definition incrCommand : command := with_args (fun args =>
  match args with [key] => reply_int (fun db => Incr db key) | _ => fail ErrCmdParams end).

Definition decrCommand : command := with_args (fun args =>
  match args with [key] => reply_int (fun db => Decr db key) | _ => fail ErrCmdParams end).

Definition incrbyCommand : command := with_args (fun args =>
  match args with
  | [key; a] => with_int64 a (fun delta => reply_int (fun db => IncrBy db key delta))
  | _ => fail ErrCmdParams
  end).

Definition decrbyCommand : command := with_args (fun args =>
  match args with
  | [key; a] => with_int64 a (fun delta => reply_int (fun db => DecrBy db key delta))
  | _ => fail ErrCmdParams
  end).

Definition delCommand : command := with_args (fun args =>
  if len args =? 0 then fail ErrCmdParams else reply_int (fun db => Del db args)).

Definition msetCommand : command := with_args (fun args =>
  if (len args =? 0) || negb (len args mod 2 =? 0) then fail ErrCmdParams
  else reply_ok (fun db => MSet db (pairs args))).

Definition mgetCommand : command := with_args (fun args =>
  if len args =? 0 then fail ErrCmdParams
  else '(v, err) ← on_db (fun db => MGet db args); reply err (writeSliceArray v)).

Definition expireCommand : command := with_args (fun args =>
  match args with
  | [key; a] => with_int64 a (fun duration => reply_int (fun db => Expire db key duration))
  | _ => fail ErrCmdParams
  end).

Definition expireAtCommand : command := with_args (fun args =>
  match args with
  | [key; a] => with_int64 a (fun when => reply_int (fun db => ExpireAt db key when))
  | _ => fail ErrCmdParams
  end).

Definition ttlCommand : command := with_args (fun args =>
  match args with [key] => reply_int (fun db => TTL db key) | _ => fail ErrCmdParams end).

Definition persistCommand : command := with_args (fun args =>
  match args with [key] => reply_int (fun db => Persist db key) | _ => fail ErrCmdParams end).

Definition appendCommand : command := with_args (fun args =>
  match args with [key; value] => reply_int (fun db => Append db key value) | _ => fail ErrCmdParams end).

Definition getrangeCommand : command := with_args (fun args =>
  match args with
  | [key; a1; a2] => with_int a1 (fun start => with_int a2 (fun end_ => reply_bulk (fun db => GetRange db key start end_)))
  | _ => fail ErrCmdParams
  end).

Definition setrangeCommand : command := with_args (fun args =>
  match args with
  | [key; a; value] => with_int a (fun offset => reply_int (fun db => SetRange db key offset value))
  | _ => fail ErrCmdParams
  end).

Definition strlenCommand : command := with_args (fun args =>
  match args with [key] => reply_int (fun db => StrLen db key) | _ => fail ErrCmdParams end).

Definition parseBitRange (args : list bytes) : Z * Z + cmd_error :=
  match (match args with [] => inl 0 | a :: _ => Atoi a end) with
  | inr err => inr err
  | inl start =>
      match args with
      | [_; a] => match Atoi a with inr err => inr err | inl end_ => inl (start, end_) end
      | _ => inl (start, -1)
      end
  end.

Definition bitcountCommand : command := with_args (fun args =>
  match args with
  | [] => fail ErrCmdParams
  | key :: rest =>
      if len args >? 3 then fail ErrCmdParams
      else match parseBitRange rest with
      | inr err => fail err
      | inl (start, end_) => reply_int (fun db => BitCount db key start end_)
      end
  end).

Definition bitopCommand : command := with_args (fun args =>
  match args with
  | op :: destKey :: src :: srcKeys => reply_int (fun db => BitOP db op destKey (src :: srcKeys))
  | _ => fail ErrCmdParams
  end).

Definition bitposCommand : command := with_args (fun args =>
  match args with
  | key :: a :: rest =>
      with_int a (fun bit =>
        match parseBitRange rest with
        | inr err => fail err
        | inl (start, end_) => reply_int (fun db => BitPos db key bit start end_)
        end)
  | _ => fail ErrCmdParams
  end).

Definition getbitCommand : command := with_args (fun args =>
  match args with
  | [key; a] => with_int a (fun offset => reply_int (fun db => GetBit db key offset))
  | _ => fail ErrCmdParams
  end).

Definition setbitCommand : command := with_args (fun args =>
  match args with
  | [key; a1; a2] => with_int a1 (fun offset => with_int a2 (fun value => reply_int (fun db => SetBit db key offset value)))
  | _ => fail ErrCmdParams
  end).

(** ** Lists (cmd_list.go) *)

Definition lpushCommand : command := with_args (fun args =>
  match args with key :: v :: vs => reply_int (fun db => LPush db key (v :: vs)) | _ => fail ErrCmdParams end).

Definition rpushCommand : command := with_args (fun args =>
  match args with key :: v :: vs => reply_int (fun db => RPush db key (v :: vs)) | _ => fail ErrCmdParams end).

Definition lpopCommand : command := with_args (fun args =>
  match args with [key] => reply_bulk (fun db => LPop db key) | _ => fail ErrCmdParams end).

Definition rpopCommand : command := with_args (fun args =>
  match args with [key] => reply_bulk (fun db => RPop db key) | _ => fail ErrCmdParams end).

Definition llenCommand : command := with_args (fun args =>
  match args with [key] => reply_int (fun db => LLen db key) | _ => fail ErrCmdParams end).

Definition lindexCommand : command := with_args (fun args =>
  match args with
  | [key; a] => with_int64 a (fun index => reply_bulk (fun db => LIndex db key (int32 index)))
  | _ => fail ErrCmdParams
  end).

Definition lrangeCommand : command := with_args (fun args =>
  match args with
  | [key; a1; a2] => with_int64 a1 (fun start => with_int64 a2 (fun stop =>
      '(v, err) ← on_db (fun db => LRange db key (int32 start) (int32 stop));
      reply err (writeSliceArray (map Some <$> v))))
  | _ => fail ErrCmdParams
  end).

Definition lclearCommand : command := with_args (fun args =>
  match args with [key] => reply_int (fun db => LClear db key) | _ => fail ErrCmdParams end).

Definition lmclearCommand : command := with_args (fun args =>
  if len args <? 1 then fail ErrCmdParams else reply_int (fun db => LMclear db args)).

Definition lexpireCommand : command := with_args (fun args =>
  match args with
  | [key; a] => with_int64 a (fun duration => reply_int (fun db => LExpire db key duration))
  | _ => fail ErrCmdParams
  end).

Definition lexpireAtCommand : command := with_args (fun args =>
  match args with
  | [key; a] => with_int64 a (fun when => reply_int (fun db => LExpireAt db key when))
  | _ => fail ErrCmdParams
  end).

Definition lttlCommand : command := with_args (fun args =>
  match args with [key] => reply_int (fun db => LTTL db key) | _ => fail ErrCmdParams end).

Definition lpersistCommand : command := with_args (fun args =>
  match args with [key] => reply_int (fun db => LPersist db key) | _ => fail ErrCmdParams end).

(** The keys: every argument but the last, which is the timeout.  How long it is matters to
    the schedule of a blocked client only. *)
Definition lParseBPopArgs (args : list bytes) : list bytes + cmd_error :=
  if len args <? 2 then inr ErrCmdParams
  else match ParseFloat (List.last args []) with
  | inr err => inr (NumError (List.last args []) err)
  | inl _ => inl (removelast args)
  end.

(** The result of a blocking pop: the pair of [popOrWait] inside another pair. *)
Definition pop_array (ay : bytes * (bytes * bytes)) : list value :=
  let '(key, (key', v)) := ay in [VBytes key; VArray [VBytes key'; VBytes v]].

Definition block_on (p : DB -> nat -> list wake -> M (option (option (bytes * (bytes * bytes)) * option error)))
    (k : option (list value) -> option error -> command) : command :=
  c ← get_client;
  res ← on_db (fun db => p db (c_fn c) (c_blocked c db));
  match res with
  | None => mret Waiting
  | Some (ay, err) => k (pop_array <$> ay) err
  end.

Definition blpopCommand : command := with_args (fun args =>
  match lParseBPopArgs args with
  | inr err => fail err
  | inl keys => block_on (fun db => BLPop db keys) (fun ay err => reply err (writeArray ay))
  end).

Definition brpopCommand : command := with_args (fun args =>
  match lParseBPopArgs args with
  | inr err => fail err
  | inl keys => block_on (fun db => BRPop db keys) (fun ay err => reply err (writeArray ay))
  end).

(** The expiration of a list that is moved to itself; [-1] for two lists. *)
Definition source_ttl (source dest : bytes) (k : Z -> command) : command :=
  if bool_decide (source = dest) then
    '(ttl, err) ← on_db (fun db => LTTL db source);
    match err with Some err => fail (DBError err) | None => k ttl end
  else k (-1).

(** The push of a popped element, with the pop reverted when it fails, and the expiration
    set again. *)
Definition push_popped (source dest data : bytes) (ttl : Z) : command :=
  '(_, err) ← on_db (fun db => LPush db dest [data]);
  match err with
  | Some err => _ ← on_db (fun db => RPush db source [data]); fail (DBError err)
  | None =>
      _ ← (if negb (ttl =? -1) then _ ← on_db (fun db => LExpire db source ttl); mret tt else mret tt);
      _ ← write (writeBulk (Some data));
      mret (Return None)
  end.

Definition brpoplpushCommand : command := with_args (fun args =>
  match args with
  | [source; dest; a] =>
      match ParseFloat a with
      | inr err => fail (NumError a err)
      | inl _ =>
          source_ttl source dest (fun ttl =>
            block_on (fun db => BRPop db [source]) (fun ay err =>
              match err with
              | Some err => fail (DBError err)
              | None =>
                  match ay with
                  | None => _ ← write (writeBulk None); mret (Return None)
                  | Some ay =>
                      match ay !! 1%nat with
                      | Some (VBytes data) => push_popped source dest data ttl
                      | _ => fail ErrValue
                      end
                  end
              end))
      end
  | _ => fail ErrCmdParams
  end).

Definition rpoplpushCommand : command := with_args (fun args =>
  match args with
  | [source; dest] =>
      source_ttl source dest (fun ttl =>
        '(data, err) ← on_db (fun db => RPop db source);
        match err with
        | Some err => fail (DBError err)
        | None =>
            match data with
            | None => _ ← write (writeBulk None); mret (Return None)
            | Some data => push_popped source dest data ttl
            end
        end)
  | _ => fail ErrCmdParams
  end).

Definition lkeyexistsCommand : command := with_args (fun args =>
  match args with [key] => reply_int (fun db => LKeyExists db key) | _ => fail ErrCmdParams end).

Definition lTrimCommand : command := with_args (fun args =>
  match args with
  | [key; a1; a2] => with_int64 a1 (fun start => with_int64 a2 (fun stop => reply_ok (fun db => LTrim db key start stop)))
  | _ => fail ErrCmdParams
  end).

Definition with_trim_size (arg : bytes) (k : Z -> command) : command :=
  match StrInt32 (Some arg) None with
  | (_, Some _) => fail ErrValue
  | (trimSize, None) => if trimSize <? 0 then fail ErrValue else k trimSize
  end.

Definition lTrimFrontCommand : command := with_args (fun args =>
  match args with
  | [key; a] => with_trim_size a (fun n => reply_int (fun db => LTrimFront db key n))
  | _ => fail ErrCmdParams
  end).

Definition lTrimBackCommand : command := with_args (fun args =>
  match args with
  | [key; a] => with_trim_size a (fun n => reply_int (fun db => LTrimBack db key n))
  | _ => fail ErrCmdParams
  end).

(** ** Hashes (cmd_hash.go) *)

Definition hsetCommand : command := with_args (fun args =>
  match args with [key; field; value] => reply_int (fun db => HSet db key field value) | _ => fail ErrCmdParams end).

Definition hgetCommand : command := with_args (fun args =>
  match args with [key; field] => reply_bulk (fun db => HGet db key field) | _ => fail ErrCmdParams end).

Definition hexistsCommand : command := with_args (fun args =>
  match args with
  | [key; field] =>
      '(v, err) ← on_db (fun db => HGet db key field);
      reply err (writeInteger (match v with None => 0 | Some _ => 1 end))
  | _ => fail ErrCmdParams
  end).

Definition hdelCommand : command := with_args (fun args =>
  match args with key :: f :: fs => reply_int (fun db => HDel db key (f :: fs)) | _ => fail ErrCmdParams end).

Definition hlenCommand : command := with_args (fun args =>
  match args with [key] => reply_int (fun db => HLen db key) | _ => fail ErrCmdParams end).

Definition hincrbyCommand : command := with_args (fun args =>
  match args with
  | [key; field; a] => with_int64 a (fun delta => reply_int (fun db => HIncrBy db key field delta))
  | _ => fail ErrCmdParams
  end).

Definition hmsetCommand : command := with_args (fun args =>
  match args with
  | key :: rest =>
      if (len args <? 3) || negb (len rest mod 2 =? 0) then fail ErrCmdParams
      else reply_ok (fun db => HMset db key (pairs rest))
  | [] => fail ErrCmdParams
  end).

Definition hmgetCommand : command := with_args (fun args =>
  match args with
  | key :: f :: fs => '(v, err) ← on_db (fun db => HMget db key (f :: fs)); reply err (writeSliceArray v)
  | _ => fail ErrCmdParams
  end).

Definition hgetallCommand : command := with_args (fun args =>
  match args with
  | [key] => '(v, err) ← on_db (fun db => HGetAll db key); reply err (writeFVPairArray v)
  | _ => fail ErrCmdParams
  end).

Definition hkeysCommand : command := with_args (fun args =>
  match args with
  | [key] => '(v, err) ← on_db (fun db => HKeys db key); reply err (writeSliceArray (map Some <$> v))
  | _ => fail ErrCmdParams
  end).

Definition hvalsCommand : command := with_args (fun args =>
  match args with
  | [key] => '(v, err) ← on_db (fun db => HValues db key); reply err (writeSliceArray (map Some <$> v))
  | _ => fail ErrCmdParams
  end).

Definition hclearCommand : command := with_args (fun args =>
  match args with [key] => reply_int (fun db => HClear db key) | _ => fail ErrCmdParams end).

Definition hmclearCommand : command := with_args (fun args =>
  if len args <? 1 then fail ErrCmdParams else reply_int (fun db => HMclear db args)).

Definition hexpireCommand : command := with_args (fun args =>
  match args with
  | [key; a] => with_int64 a (fun duration => reply_int (fun db => HExpire db key duration))
  | _ => fail ErrCmdParams
  end).

Definition hexpireAtCommand : command := with_args (fun args =>
  match args with
  | [key; a] => with_int64 a (fun when => reply_int (fun db => HExpireAt db key when))
  | _ => fail ErrCmdParams
  end).

Definition httlCommand : command := with_args (fun args =>
  match args with [key] => reply_int (fun db => HTTL db key) | _ => fail ErrCmdParams end).

Definition hpersistCommand : command := with_args (fun args =>
  match args with [key] => reply_int (fun db => HPersist db key) | _ => fail ErrCmdParams end).

Definition hkeyexistsCommand : command := with_args (fun args =>
  match args with [key] => reply_int (fun db => HKeyExists db key) | _ => fail ErrCmdParams end).

(** ** Sets (cmd_set.go) *)

Definition saddCommand : command := with_args (fun args =>
  match args with key :: x :: xs => reply_int (fun db => SAdd db key (x :: xs)) | _ => fail ErrCmdParams end).

Definition soptGeneric (optType : Z) : command := with_args (fun args =>
  if len args <? 1 then fail ErrCmdParams
  else
    '(v, err) ← on_db (fun db =>
      if optType =? UnionType then SUnion db args
      else if optType =? DiffType then SDiff db args
      else if optType =? InterType then SInter db args
      else mret (None, None));
    reply err (writeSliceArray (map Some <$> v))).

Definition soptStoreGeneric (optType : Z) : command := with_args (fun args =>
  match args with
  | dst :: key :: keys =>
      reply_int (fun db =>
        if optType =? UnionType then SUnionStore db dst (key :: keys)
        else if optType =? DiffType then SDiffStore db dst (key :: keys)
        else if optType =? InterType then SInterStore db dst (key :: keys)
        else mret (0, None))
  | _ => fail ErrCmdParams
  end).

Definition scardCommand : command := with_args (fun args =>
  match args with [key] => reply_int (fun db => SCard db key) | _ => fail ErrCmdParams end).

Definition sdiffCommand : command := soptGeneric DiffType.
Definition sdiffstoreCommand : command := soptStoreGeneric DiffType.
Definition sinterCommand : command := soptGeneric InterType.
Definition sinterstoreCommand : command := soptStoreGeneric InterType.
Definition sunionCommand : command := soptGeneric UnionType.
Definition sunionstoreCommand : command := soptStoreGeneric UnionType.

Definition sismemberCommand : command := with_args (fun args =>
  match args with [key; member] => reply_int (fun db => SIsMember db key member) | _ => fail ErrCmdParams end).

Definition smembersCommand : command := with_args (fun args =>
  match args with
  | [key] => '(v, err) ← on_db (fun db => SMembers db key); reply err (writeSliceArray (Some (map Some v)))
  | _ => fail ErrCmdParams
  end).

Definition sremCommand : command := with_args (fun args =>
  match args with key :: x :: xs => reply_int (fun db => SRem db key (x :: xs)) | _ => fail ErrCmdParams end).

Definition sclearCommand : command := with_args (fun args =>
  match args with [key] => reply_int (fun db => SClear db key) | _ => fail ErrCmdParams end).

Definition smclearCommand : command := with_args (fun args =>
  if len args <? 1 then fail ErrCmdParams else reply_int (fun db => SMclear db args)).

Definition sexpireCommand : command := with_args (fun args =>
  match args with
  | [key; a] => with_int64 a (fun duration => reply_int (fun db => SExpire db key duration))
  | _ => fail ErrCmdParams
  end).

Definition sexpireAtCommand : command := with_args (fun args =>
  match args with
  | [key; a] => with_int64 a (fun when => reply_int (fun db => SExpireAt db key when))
  | _ => fail ErrCmdParams
  end).

Definition sttlCommand : command := with_args (fun args =>
  match args with [key] => reply_int (fun db => STTL db key) | _ => fail ErrCmdParams end).

Definition spersistCommand : command := with_args (fun args =>
  match args with [key] => reply_int (fun db => SPersist db key) | _ => fail ErrCmdParams end).

Definition skeyexistsCommand : command := with_args (fun args =>
  match args with [key] => reply_int (fun db => SKeyExists db key) | _ => fail ErrCmdParams end).

(** ** Sorted sets (cmd_zset.go) *)

(** The pairs of [zaddCommand]: a score before each member. *)
Fixpoint zadd_params (args : list bytes) : list ScorePair + cmd_error :=
  match args with
  | a :: member :: args =>
      match StrInt64 (Some a) None with
      | (_, Some _) => inr ErrValue
      | (score, None) =>
          match zadd_params args with
          | inr err => inr err
          | inl params => inl (mkScorePair score member :: params)
          end
      end
  | _ => inl []
  end.

Definition zaddCommand : command := with_args (fun args =>
  match args with
  | key :: rest =>
      if (len args <? 3) || negb (Z.land (len rest) 1 =? 0) then fail ErrCmdParams
      else match zadd_params rest with
      | inr err => fail err
      | inl params => reply_int (fun db => ZAdd db key params)
      end
  | [] => fail ErrCmdParams
  end).

Definition zcardCommand : command := with_args (fun args =>
  match args with [key] => reply_int (fun db => ZCard db key) | _ => fail ErrCmdParams end).

Definition zscoreCommand : command := with_args (fun args =>
  match args with
  | [key; member] =>
      '(s, err) ← on_db (fun db => ZScore db key member);
      match err with
      | Some ErrScoreMiss => _ ← write (writeBulk None); mret (Return None)
      | _ => reply err (writeBulk (Some (FormatInt64ToSlice s)))
      end
  | _ => fail ErrCmdParams
  end).

Definition zremCommand : command := with_args (fun args =>
  match args with key :: x :: xs => reply_int (fun db => ZRem db key (x :: xs)) | _ => fail ErrCmdParams end).

Definition zincrbyCommand : command := with_args (fun args =>
  match args with
  | [key; a; member] => with_int64 a (fun delta =>
      '(v, err) ← on_db (fun db => ZIncrBy db key delta member);
      reply err (writeBulk (Some (FormatInt64ToSlice v))))
  | _ => fail ErrCmdParams
  end).

(** A bound of a score range, and whether it is open: the part of [zparseScoreRange] after
    the parentheses. *)
Definition zparse_bound (buf : bytes) (open : bool) (delta : Z) : Z + cmd_error :=
  match StrInt64 (Some buf) None with
  | (_, Some _) => inr ErrValue
  | (score, None) =>
      if (score <=? MinScore) || (score >=? MaxScore) then inr ErrScoreOverflow
      else inl (if open then int64 (score + delta) else score)
  end.

(** The bound [min]. *)
Definition zparse_min (minBuf : bytes) : Z + cmd_error :=
  if lower_is minBuf "-inf" then inl (- 2 ^ 63)
  else match minBuf with
  | [] => inr ErrCmdParams
  | c :: rest => if c =? 40 then zparse_bound rest true 1 else zparse_bound minBuf false 1
  end.

(** The bound [max]: the check for a parenthesis is there twice, and the second reads the
    first byte of what is left. *)
Definition zparse_max (maxBuf : bytes) : outcome (Z + cmd_error) :=
  if lower_is maxBuf "+inf" then Ret (inl (2 ^ 63 - 1))
  else match maxBuf with
  | [] => Ret (inr ErrCmdParams)
  | c :: rest =>
      let '(ropen, maxBuf) := if c =? 40 then (true, rest) else (false, maxBuf) in
      match maxBuf with
      | [] => Panic
      | c :: rest => Ret (if c =? 40 then zparse_bound rest true (-1) else zparse_bound maxBuf ropen (-1))
      end
  end.

Definition zparseScoreRange (minBuf maxBuf : bytes) : outcome (Z * Z + cmd_error) :=
  match zparse_min minBuf with
  | inr err => Ret (inr err)
  | inl min =>
      match zparse_max maxBuf with
      | Panic => Panic
      | Ret (inr err) => Ret (inr err)
      | Ret (inl max) => Ret (inl (min, max))
      end
  end.

Definition c_lift {A} (o : outcome A) : CM A := fun s => (o, s).

Definition zcountCommand : command := with_args (fun args =>
  match args with
  | [key; a1; a2] =>
      r ← c_lift (zparseScoreRange a1 a2);
      match r with
      | inr _ => fail ErrValue
      | inl (min, max) =>
          if min >? max then _ ← write (writeInteger 0); mret (Return None)
          else reply_int (fun db => ZCount db key min max)
      end
  | _ => fail ErrCmdParams
  end).

Definition reply_rank (p : DB -> M (Z * option error)) : command :=
  '(n, err) ← on_db p;
  match err with
  | Some err => fail (DBError err)
  | None => _ ← write (if n =? -1 then writeBulk None else writeInteger n); mret (Return None)
  end.

Definition zrankCommand : command := with_args (fun args =>
  match args with [key; member] => reply_rank (fun db => ZRank db key member) | _ => fail ErrCmdParams end).

Definition zrevrankCommand : command := with_args (fun args =>
  match args with [key; member] => reply_rank (fun db => ZRevRank db key member) | _ => fail ErrCmdParams end).

Definition zparseRange (a1 a2 : bytes) : Z * Z + cmd_error :=
  match Atoi a1 with
  | inr err => inr err
  | inl start => match Atoi a2 with inr err => inr err | inl stop => inl (start, stop) end
  end.

Definition zremrangebyrankCommand : command := with_args (fun args =>
  match args with
  | [key; a1; a2] =>
      match zparseRange a1 a2 with
      | inr _ => fail ErrValue
      | inl (start, stop) => reply_int (fun db => ZRemRangeByRank db key start stop)
      end
  | _ => fail ErrCmdParams
  end).

Definition zremrangebyscoreCommand : command := with_args (fun args =>
  match args with
  | [key; a1; a2] =>
      r ← c_lift (zparseScoreRange a1 a2);
      match r with
      | inr err => fail err
      | inl (min, max) => reply_int (fun db => ZRemRangeByScore db key min max)
      end
  | _ => fail ErrCmdParams
  end).

Definition zrangeGeneric (reverse : bool) : command := with_args (fun args =>
  match args with
  | key :: a1 :: a2 :: rest =>
      match zparseRange a1 a2 with
      | inr _ => fail ErrValue
      | inl (start, stop) =>
          match (match rest with
                 | [] => inl false
                 | [a] => if lower_is a "withscores" then inl true else inr ErrSyntaxCmd
                 | _ => inr ErrCmdParams
                 end) with
          | inr err => fail err
          | inl withScores =>
              '(datas, err) ← on_db (fun db => ZRangeGeneric db key start stop reverse);
              reply err (writeScorePairArray (Some datas) withScores)
          end
      end
  | _ => fail ErrCmdParams
  end).

Definition zrangeCommand : command := zrangeGeneric false.
Definition zrevrangeCommand : command := zrangeGeneric true.

(** The options of a range by score: the offset and the count. *)
Definition zparse_limit (args : list bytes) : Z * Z + cmd_error :=
  match args with
  | [] => inl (0, -1)
  | [w; a1; a2] =>
      if negb (lower_is w "limit") then inr ErrSyntaxCmd
      else match Atoi a1 with
      | inr _ => inr ErrValue
      | inl offset => match Atoi a2 with inr _ => inr ErrValue | inl count => inl (offset, count) end
      end
  | _ => inr ErrCmdParams
  end.

Definition zrangebyscoreGeneric (reverse : bool) : command := with_args (fun args =>
  match args with
  | key :: a1 :: a2 :: rest =>
      let '(minScore, maxScore) := if negb reverse then (a1, a2) else (a2, a1) in
      r ← c_lift (zparseScoreRange minScore maxScore);
      match r with
      | inr err => fail err
      | inl (min, max) =>
          let '(withScores, rest) :=
            match rest with
            | a :: rest' => if lower_is a "withscores" then (true, rest') else (false, rest)
            | [] => (false, rest)
            end in
          match zparse_limit rest with
          | inr err => fail err
          | inl (offset, count) =>
              if offset <? 0 then _ ← write (writeArray (Some [])); mret (Return None)
              else
                '(datas, err) ← on_db (fun db => ZRangeByScoreGeneric db key min max offset count reverse);
                reply err (writeScorePairArray (Some datas) withScores)
          end
      end
  | _ => fail ErrCmdParams
  end).

Definition zrangebyscoreCommand : command := zrangebyscoreGeneric false.
Definition zrevrangebyscoreCommand : command := zrangebyscoreGeneric true.

Definition zclearCommand : command := with_args (fun args =>
  match args with [key] => reply_int (fun db => ZClear db key) | _ => fail ErrCmdParams end).

Definition zmclearCommand : command := with_args (fun args =>
  if len args <? 1 then fail ErrCmdParams else reply_int (fun db => ZMclear db args)).

Definition zexpireCommand : command := with_args (fun args =>
  match args with
  | [key; a] => with_int64 a (fun duration => reply_int (fun db => ZExpire db key duration))
  | _ => fail ErrCmdParams
  end).

Definition zexpireAtCommand : command := with_args (fun args =>
  match args with
  | [key; a] => with_int64 a (fun when => reply_int (fun db => ZExpireAt db key when))
  | _ => fail ErrCmdParams
  end).

Definition zttlCommand : command := with_args (fun args =>
  match args with [key] => reply_int (fun db => ZTTL db key) | _ => fail ErrCmdParams end).

Definition zpersistCommand : command := with_args (fun args =>
  match args with [key] => reply_int (fun db => ZPersist db key) | _ => fail ErrCmdParams end).

(** [weights[i], err = ledis.StrInt64(arg, nil)] for each argument. *)
Fixpoint zparse_weights (args : list bytes) : list Z + cmd_error :=
  match args with
  | [] => inl []
  | a :: args =>
      match StrInt64 (Some a) None with
      | (_, Some _) => inr ErrValue
      | (w, None) => match zparse_weights args with inr err => inr err | inl ws => inl (w :: ws) end
      end
  end.

Definition zparse_aggregate (a : bytes) : Z + cmd_error :=
  if lower_is a "sum" then inl AggregateSum
  else if lower_is a "min" then inl AggregateMin
  else if lower_is a "max" then inl AggregateMax
  else inr ErrSyntaxCmd.

(** The loop of [zparseZsetoptStore] over the options; each round consumes an argument.
    [nKeys] is not negative here. *)
Fixpoint zparse_options (fuel : nat) (nKeys : nat) (args : list bytes) (weights : option (list Z)) (aggregate : option Z) :
    option (list Z) * Z + cmd_error :=
  match fuel, args with
  | _, [] => inl (weights, default AggregateSum aggregate)
  | O, _ => inr ErrSyntaxCmd
  | S fuel, a :: args =>
      if lower_is a "weights" then
        match weights with
        | Some _ => inr ErrSyntaxCmd
        | None =>
            if len args <? Z.of_nat nKeys then inr ErrSyntaxCmd
            else match zparse_weights (take nKeys args) with
            | inr err => inr err
            | inl ws => zparse_options fuel nKeys (drop nKeys args) (Some ws) aggregate
            end
        end
      else if lower_is a "aggregate" then
        match aggregate, args with
        | Some _, _ | _, [] => inr ErrSyntaxCmd
        | None, a :: args =>
            match zparse_aggregate a with
            | inr err => inr err
            | inl agg => zparse_options fuel nKeys args weights (Some agg)
            end
        end
      else inr ErrSyntaxCmd
  end.

(** [zparseZsetoptStore] of the arguments after the destination: the keys, the weights and
    the aggregate.  [args[:nKeys]] panics for a negative number of keys. *)
Definition zparseZsetoptStore (n : bytes) (args : list bytes) : outcome (list bytes * option (list Z) * Z + cmd_error) :=
  match Atoi n with
  | inr _ => Ret (inr ErrValue)
  | inl nKeys =>
      if len args <? nKeys then Ret (inr ErrSyntaxCmd)
      else match slice args 0 nKeys with
      | Panic => Panic
      | Ret srcKeys =>
          match zparse_options (length args) (Z.to_nat nKeys) (drop (Z.to_nat nKeys) args) None None with
          | inr err => Ret (inr err)
          | inl (weights, aggregate) => Ret (inl (srcKeys, weights, aggregate))
          end
      end
  end.

Definition zstoreCommand (store : DB -> bytes -> list bytes -> option (list Z) -> Z -> M (Z * option error)) : command :=
  with_args (fun args =>
    match args with
    | destKey :: n :: rest =>
        r ← c_lift (zparseZsetoptStore n rest);
        match r with
        | inr err => fail err
        | inl (srcKeys, weights, aggregate) => reply_int (fun db => store db destKey srcKeys weights aggregate)
        end
    | _ => fail ErrCmdParams
    end).

Definition zunionstoreCommand : command := zstoreCommand ZUnionStore.
Definition zinterstoreCommand : command := zstoreCommand ZInterStore.

(** A bound of a range of members: the member, [None] for the end given by [inf], and
    whether it is open. *)
Definition zparse_member (buf : bytes) (inf : string) : option bytes * bool + cmd_error :=
  if lower_is buf inf then inl (None, false)
  else match buf with
  | [] => inr ErrCmdParams
  | c :: rest =>
      if c =? 40 then inl (Some rest, true)
      else if c =? 91 then inl (Some rest, false)
      else inr ErrCmdParams
  end.

Definition zparseMemberRange (minBuf maxBuf : bytes) : option bytes * option bytes * Z + cmd_error :=
  match zparse_member minBuf "-" with
  | inr err => inr err
  | inl (min, lopen) =>
      match zparse_member maxBuf "+" with
      | inr err => inr err
      | inl (max, ropen) =>
          inl (min, max, Z.lor (if lopen then Z.lor RangeClose RangeLOpen else RangeClose) (if ropen then RangeROpen else 0))
      end
  end.

Definition zrangebylexCommand : command := with_args (fun args =>
  match args with
  | key :: a1 :: a2 :: rest =>
      if negb ((len args =? 3) || (len args =? 6)) then fail ErrCmdParams
      else match zparseMemberRange a1 a2 with
      | inr err => fail err
      | inl (min, max, rangeType) =>
          match zparse_limit rest with
          | inr err => fail err
          | inl (offset, count) =>
              '(ay, err) ← on_db (fun db => ZRangeByLex db key min max rangeType offset count);
              reply err (writeSliceArray (Some (map Some ay)))
          end
      end
  | _ => fail ErrCmdParams
  end).

Definition zremrangebylexCommand : command := with_args (fun args =>
  match args with
  | [key; a1; a2] =>
      match zparseMemberRange a1 a2 with
      | inr err => fail err
      | inl (min, max, rangeType) => reply_int (fun db => ZRemRangeByLex db key min max rangeType)
      end
  | _ => fail ErrCmdParams
  end).

Definition zlexcountCommand : command := with_args (fun args =>
  match args with
  | [key; a1; a2] =>
      match zparseMemberRange a1 a2 with
      | inr err => fail err
      | inl (min, max, rangeType) => reply_int (fun db => ZLexCount db key min max rangeType)
      end
  | _ => fail ErrCmdParams
  end).

Definition zkeyexistsCommand : command := with_args (fun args =>
  match args with [key] => reply_int (fun db => ZKeyExists db key) | _ => fail ErrCmdParams end).

(** ** Scans (cmd_scan.go) *)

Definition nilCursorLedis : bytes := [].
Definition nilCursorRedis : bytes := str "0".

(** The options after the cursor: the expression, the count and the direction. *)
Fixpoint xscan_options (args : list bytes) (mtch : bytes) (count : Z) (desc : bool) : bytes * Z * bool + cmd_error :=
  match args with
  | [] => inl (mtch, count, desc)
  | a :: args =>
      if upper_is a "MATCH" then
        match args with
        | [] => inr ErrCmdParams
        | m :: args => xscan_options args m count desc
        end
      else if upper_is a "COUNT" then
        match args with
        | [] => inr ErrCmdParams
        | n :: args => match Atoi n with inr err => inr err | inl count => xscan_options args mtch count desc end
        end
      else if upper_is a "ASC" then xscan_options args mtch count false
      else if upper_is a "DESC" then xscan_options args mtch count true
      else inr (Errorf (str "invalid argument " ++ a))
  end.

Definition parseXScanArgs (cursor : bytes) (args : list bytes) : bytes * bytes * Z * bool + cmd_error :=
  match xscan_options args [] 10 false with
  | inr err => inr err
  | inl (mtch, count, desc) => inl (cursor, mtch, count, desc)
  end.

Definition parseScanArgs (cursor : bytes) (args : list bytes) : bytes * bytes * Z * bool + cmd_error :=
  match parseXScanArgs cursor args with
  | inr err => inr err
  | inl (cursor, mtch, count, desc) =>
      inl (if bool_decide (cursor = nilCursorRedis) then nilCursorLedis else cursor, mtch, count, desc)
  end.

Record scanCommandGroup := mkScanGroup {
  lastCursor : bytes;
  parseArgs : bytes -> list bytes -> bytes * bytes * Z * bool + cmd_error
}.

Definition xScanGroup : scanCommandGroup := mkScanGroup nilCursorLedis parseXScanArgs.
Definition scanGroup : scanCommandGroup := mkScanGroup nilCursorRedis parseScanArgs.

(** The reply of a scan that returned the items [ay]: the next cursor, which is the name of
    the last item ([ay[len(ay)-1]] panics when there is none) unless there were fewer than
    [count], and the items. *)
Definition scan_reply {A} (scg : scanCommandGroup) (count : Z) (ay : list A) (name : A -> bytes) (items : list bytes) : command :=
  cursor ← c_lift (if len ay <? count then Ret (lastCursor scg)
                   else match last ay with Some x => Ret (name x) | None => Panic end);
  _ ← write (writeArray (Some [VBytes cursor; VSlices items]));
  mret (Return None).

(** A scan of the items of a key or of a type: [scan] is the forward one, [revscan] the
    backward one. *)
Definition scan_with {A} (scg : scanCommandGroup) (cursor : bytes) (rest : list bytes)
    (scan revscan : DB -> bytes -> Z -> bool -> bytes -> M (list A * option error)) (name : A -> bytes)
    (items : list A -> list bytes) : command :=
  match parseArgs scg cursor rest with
  | inr err => fail err
  | inl (cursor, mtch, count, desc) =>
      '(ay, err) ← on_db (fun db => if negb desc then scan db cursor count false mtch else revscan db cursor count false mtch);
      match err with
      | Some err => fail (DBError err)
      | None => scan_reply scg count ay name (items ay)
      end
  end.

Definition xscan_type (a : bytes) : DataType + cmd_error :=
  if upper_is a "KV" then inl TKV
  else if upper_is a "HASH" then inl THASH
  else if upper_is a "LIST" then inl TLIST
  else if upper_is a "SET" then inl TSET
  else if upper_is a "ZSET" then inl TZSET
  else inr (Errorf (str "invalid key type " ++ a)).

Definition xscanCommand (scg : scanCommandGroup) : command := with_args (fun args =>
  match args with
  | a :: cursor :: rest =>
      match xscan_type a with
      | inr err => fail err
      | inl dataType =>
          scan_with scg cursor rest (fun db => Scan db dataType) (fun db => RevScan db dataType) (fun x => x) (fun ay => ay)
      end
  | _ => fail ErrCmdParams
  end).

Definition xhscanCommand (scg : scanCommandGroup) : command := with_args (fun args =>
  match args with
  | key :: cursor :: rest =>
      scan_with scg cursor rest (fun db => HScan db key) (fun db => HRevScan db key) fst
        (fun ay => concat (map (fun v => [v.1; v.2]) ay))
  | _ => fail ErrCmdParams
  end).

Definition xsscanCommand (scg : scanCommandGroup) : command := with_args (fun args =>
  match args with
  | key :: cursor :: rest =>
      scan_with scg cursor rest (fun db => SScan db key) (fun db => SRevScan db key) (fun x => x) (fun ay => ay)
  | _ => fail ErrCmdParams
  end).

Definition xzscanCommand (scg : scanCommandGroup) : command := with_args (fun args =>
  match args with
  | key :: cursor :: rest =>
      scan_with scg cursor rest (fun db => ZScan db key) (fun db => ZRevScan db key) Member
        (fun ay => concat (map (fun v => [Member v; FormatInt64ToSlice (Score v)]) ay))
  | _ => fail ErrCmdParams
  end).

(** ** The server (cmd_server.go) *)

Definition pingCommand : command := _ ← write (writeStatus PONG); mret (Return None).

Definition defaultAuth (password : bytes) : bool := bool_decide (AuthPassword = password).

Definition authCommand : command := with_args (fun args =>
  match args with
  | [password] =>
      let method := match AuthMethod with Some f => f | None => defaultAuth end in
      if method password then
        _ ← set_client (with_authed true); _ ← write (writeStatus OK); mret (Return None)
      else _ ← set_client (with_authed false); fail ErrAuthenticationFailure
  | _ => fail ErrCmdParams
  end).

Definition echoCommand : command := with_args (fun args =>
  match args with
  | [a] => _ ← write (writeBulk (Some a)); mret (Return None)
  | _ => fail ErrCmdParams
  end).

Definition selectCommand : command := with_args (fun args =>
  match args with
  | [a] => with_int a (fun index =>
      db ← Select index;
      match db with
      | inr err => fail err
      | inl db => _ ← set_client (with_db db); _ ← write (writeStatus OK); mret (Return None)
      end)
  | _ => fail ErrCmdParams
  end).

(** [tryReSlaveof], which may connect to a master again, is not modelled. *)
Definition flushallCommand : command :=
  err ← on_ledis Ledis_flushAll; reply err (writeStatus OK).

(** The rounds of the flush are bounded by the entries of the store (see Flush.v). *)
Definition flushdbCommand : command :=
  res ← on_db (fun db st => FlushAll (S (5 * cur_bound (drv_NewIterator (ldb st)))) db st);
  match res with
  | None => c_lift Panic
  | Some (_, err) => reply err (writeStatus OK)
  end.

(** ** Dumps of keys (cmd_migrate.go) *)

Definition dumpCommand : command := with_args (fun args =>
  match args with [key] => reply_bulk (fun db => Dump_ db key) | _ => fail ErrCmdParams end).

Definition ldumpCommand : command := with_args (fun args =>
  match args with [key] => reply_bulk (fun db => LDump db key) | _ => fail ErrCmdParams end).

Definition hdumpCommand : command := with_args (fun args =>
  match args with [key] => reply_bulk (fun db => HDump db key) | _ => fail ErrCmdParams end).

Definition sdumpCommand : command := with_args (fun args =>
  match args with [key] => reply_bulk (fun db => SDump db key) | _ => fail ErrCmdParams end).

Definition zdumpCommand : command := with_args (fun args =>
  match args with [key] => reply_bulk (fun db => ZDump db key) | _ => fail ErrCmdParams end).

(** [ttl, err := ledis.StrInt64(arg, nil); if err != nil { return err }] *)
Definition with_ttl (arg : bytes) (k : Z -> command) : command :=
  match StrInt64 (Some arg) None with
  | (n, None) => k n
  | (_, Some err) => fail (NumError arg err)
  end.

Definition restoreCommand : command := with_args (fun args =>
  match args with
  | [key; a; data] => with_ttl a (fun ttl => reply_ok (fun db => Restore db key ttl data))
  | _ => fail ErrCmdParams
  end).

Definition xrestoreCommand : command := with_args (fun args =>
  match args with
  | [_; key; a; data] => with_ttl a (fun ttl => reply_ok (fun db => Restore db key ttl data))
  | _ => fail ErrCmdParams
  end).

(** [fmt.Errorf("invalid key type %s", tp)] *)
Definition key_type_error (tp : bytes) : cmd_error := Errorf (str "invalid key type " ++ tp).

(** [xdump]: [k] goes on with the dump of the type. *)
Definition xdump (tp key : bytes) (k : (DB -> M (option bytes * option error)) -> command) : command :=
  if upper_is tp "KV" then k (fun db => Dump_ db key)
  else if upper_is tp "HASH" then k (fun db => HDump db key)
  else if upper_is tp "LIST" then k (fun db => LDump db key)
  else if upper_is tp "SET" then k (fun db => SDump db key)
  else if upper_is tp "ZSET" then k (fun db => ZDump db key)
  else fail (key_type_error tp).

(** The text of the error has the ASCII letters of the type in upper case. *)
Definition xdumpCommand : command := with_args (fun args =>
  match args with
  | [tp; key] => xdump (strings_ToUpper tp) key reply_bulk
  | _ => fail ErrCmdParams
  end).

(** ** Sorting (cmd_sort.go) *)

(** [bytes.EqualFold] with a lower case ASCII word: besides the ASCII letters, U+017F folds to
    s and U+212A to k. *)
Fixpoint EqualFold (s word : bytes) : bool :=
  match word with
  | [] => bool_decide (s = [])
  | c :: word' =>
      match s with
      | [] => false
      | x :: s' =>
          if lower_byte x =? c then EqualFold s' word'
          else match s with
          | 197 :: 191 :: s'' => (c =? 115) && EqualFold s'' word'
          | 226 :: 132 :: 170 :: s'' => (c =? 107) && EqualFold s'' word'
          | _ => false
          end
      end
  end.

Record sort_options := mkSortOptions {
  so_desc : bool; so_alpha : bool; so_offset : Z; so_size : Z;
  so_storeKey : option bytes; so_sortBy : option bytes; so_sortGet : list bytes
}.

(** The loop of [handleXSort] over the arguments. *)
Fixpoint parse_sort (args : list bytes) (o : sort_options) : sort_options + cmd_error :=
  let '(mkSortOptions desc alpha offset size storeKey sortBy sortGet) := o in
  match args with
  | [] => inl o
  | a :: args =>
      if EqualFold a (str "asc") then parse_sort args (mkSortOptions false alpha offset size storeKey sortBy sortGet)
      else if EqualFold a (str "desc") then parse_sort args (mkSortOptions true alpha offset size storeKey sortBy sortGet)
      else if EqualFold a (str "alpha") then parse_sort args (mkSortOptions desc true offset size storeKey sortBy sortGet)
      else if EqualFold a (str "limit") then
        match args with
        | a1 :: a2 :: args =>
            match Atoi a1 with
            | inr err => inr err
            | inl offset =>
                match Atoi a2 with
                | inr err => inr err
                | inl size => parse_sort args (mkSortOptions desc alpha offset size storeKey sortBy sortGet)
                end
            end
        | _ => inr ErrCmdParams
        end
      else if EqualFold a (str "store") then
        match args with k :: args => parse_sort args (mkSortOptions desc alpha offset size (Some k) sortBy sortGet) | [] => inr ErrCmdParams end
      else if EqualFold a (str "by") then
        match args with p :: args => parse_sort args (mkSortOptions desc alpha offset size storeKey (Some p) sortGet) | [] => inr ErrCmdParams end
      else if EqualFold a (str "get") then
        match args with p :: args => parse_sort args (mkSortOptions desc alpha offset size storeKey sortBy (sortGet ++ [p])) | [] => inr ErrCmdParams end
      else inr ErrCmdParams
  end.

(** [handleXSort]; [sort] is the operation of the type of the key. *)
Definition handleXSort (sort : DB -> bytes -> Z -> Z -> bool -> bool -> option bytes -> list bytes -> M (list (option bytes) * option error)) : command :=
  with_args (fun args =>
    match args with
    | [] => fail ErrCmdParams
    | key :: args =>
        match parse_sort args (mkSortOptions false false 0 0 None None []) with
        | inr err => fail err
        | inl o =>
            '(ay, err) ← on_db (fun db => sort db key (so_offset o) (so_size o) (so_alpha o) (so_desc o) (so_sortBy o) (so_sortGet o));
            match err with
            | Some err => fail (DBError err)
            | None =>
                match so_storeKey o with
                | None => _ ← write (writeSliceArray (Some ay)); mret (Return None)
                | Some storeKey =>
                    '(_, err) ← on_db (fun db => LClear db storeKey);
                    match err with
                    | Some err => fail (DBError err)
                    | None => reply_int (fun db => RPush db storeKey (map (default []) ay))
                    end
                end
            end
        end
    end).

Definition xlsortCommand : command := handleXSort XLSort.
Definition xssortCommand : command := handleXSort XSSort.
Definition xzsortCommand : command := handleXSort XZSort.

(** ** The table of the commands (command.go and the [init] functions) *)

Definition regCmds : list (string * command) := [
  ("dump", dumpCommand); ("ldump", ldumpCommand); ("hdump", hdumpCommand); ("sdump", sdumpCommand); ("zdump", zdumpCommand);
  ("restore", restoreCommand); ("xrestore", xrestoreCommand); ("xdump", xdumpCommand);
  ("xlsort", xlsortCommand); ("xssort", xssortCommand); ("xzsort", xzsortCommand);
  ("append", appendCommand); ("bitcount", bitcountCommand); ("bitop", bitopCommand); ("bitpos", bitposCommand);
  ("decr", decrCommand); ("decrby", decrbyCommand); ("del", delCommand); ("exists", existsCommand); ("get", getCommand);
  ("getbit", getbitCommand); ("getrange", getrangeCommand); ("getset", getsetCommand); ("incr", incrCommand);
  ("incrby", incrbyCommand); ("mget", mgetCommand); ("mset", msetCommand); ("set", setCommand); ("setbit", setbitCommand);
  ("setnx", setnxCommand); ("setex", setexCommand); ("setrange", setrangeCommand); ("strlen", strlenCommand);
  ("expire", expireCommand); ("expireat", expireAtCommand); ("ttl", ttlCommand); ("persist", persistCommand);
  ("blpop", blpopCommand); ("brpop", brpopCommand); ("lindex", lindexCommand); ("llen", llenCommand); ("lpop", lpopCommand);
  ("lrange", lrangeCommand); ("lpush", lpushCommand); ("rpop", rpopCommand); ("rpush", rpushCommand);
  ("brpoplpush", brpoplpushCommand); ("rpoplpush", rpoplpushCommand); ("lclear", lclearCommand); ("lmclear", lmclearCommand);
  ("lexpire", lexpireCommand); ("lexpireat", lexpireAtCommand); ("lttl", lttlCommand); ("lpersist", lpersistCommand);
  ("lkeyexists", lkeyexistsCommand); ("ltrim_front", lTrimFrontCommand); ("ltrim_back", lTrimBackCommand); ("ltrim", lTrimCommand);
  ("hdel", hdelCommand); ("hexists", hexistsCommand); ("hget", hgetCommand); ("hgetall", hgetallCommand);
  ("hincrby", hincrbyCommand); ("hkeys", hkeysCommand); ("hlen", hlenCommand); ("hmget", hmgetCommand); ("hmset", hmsetCommand);
  ("hset", hsetCommand); ("hvals", hvalsCommand); ("hclear", hclearCommand); ("hmclear", hmclearCommand);
  ("hexpire", hexpireCommand); ("hexpireat", hexpireAtCommand); ("httl", httlCommand); ("hpersist", hpersistCommand);
  ("hkeyexists", hkeyexistsCommand);
  ("sadd", saddCommand); ("scard", scardCommand); ("sdiff", sdiffCommand); ("sdiffstore", sdiffstoreCommand);
  ("sinter", sinterCommand); ("sinterstore", sinterstoreCommand); ("sismember", sismemberCommand); ("smembers", smembersCommand);
  ("srem", sremCommand); ("sunion", sunionCommand); ("sunionstore", sunionstoreCommand); ("sclear", sclearCommand);
  ("smclear", smclearCommand); ("sexpire", sexpireCommand); ("sexpireat", sexpireAtCommand); ("sttl", sttlCommand);
  ("spersist", spersistCommand); ("skeyexists", skeyexistsCommand);
  ("zadd", zaddCommand); ("zcard", zcardCommand); ("zcount", zcountCommand); ("zincrby", zincrbyCommand); ("zrange", zrangeCommand);
  ("zrangebyscore", zrangebyscoreCommand); ("zrank", zrankCommand); ("zrem", zremCommand);
  ("zremrangebyrank", zremrangebyrankCommand); ("zremrangebyscore", zremrangebyscoreCommand); ("zrevrange", zrevrangeCommand);
  ("zrevrank", zrevrankCommand); ("zrevrangebyscore", zrevrangebyscoreCommand); ("zscore", zscoreCommand);
  ("zunionstore", zunionstoreCommand); ("zinterstore", zinterstoreCommand); ("zrangebylex", zrangebylexCommand);
  ("zremrangebylex", zremrangebylexCommand); ("zlexcount", zlexcountCommand); ("zclear", zclearCommand);
  ("zmclear", zmclearCommand); ("zexpire", zexpireCommand); ("zexpireat", zexpireAtCommand); ("zttl", zttlCommand);
  ("zpersist", zpersistCommand); ("zkeyexists", zkeyexistsCommand);
  ("hscan", xhscanCommand scanGroup); ("sscan", xsscanCommand scanGroup); ("zscan", xzscanCommand scanGroup);
  ("xscan", xscanCommand xScanGroup); ("xhscan", xhscanCommand xScanGroup); ("xsscan", xsscanCommand xScanGroup);
  ("xzscan", xzscanCommand xScanGroup);
  ("auth", authCommand); ("ping", pingCommand); ("echo", echoCommand); ("select", selectCommand);
  ("flushall", flushallCommand); ("flushdb", flushdbCommand)].

End Commands.

(** The commands down to the calls they make. *)
Create HintDb commands.

#[export] Hint Unfold dumpCommand ldumpCommand hdumpCommand sdumpCommand zdumpCommand with_ttl restoreCommand xrestoreCommand
  xdump xdumpCommand handleXSort xlsortCommand xssortCommand xzsortCommand with_args with_int64 with_int reply_int reply_bulk reply_ok getCommand setCommand getsetCommand
  setnxCommand setexCommand existsCommand incrCommand decrCommand incrbyCommand decrbyCommand delCommand msetCommand
  mgetCommand expireCommand expireAtCommand ttlCommand persistCommand appendCommand getrangeCommand setrangeCommand
  strlenCommand bitcountCommand bitopCommand bitposCommand getbitCommand setbitCommand lpushCommand rpushCommand lpopCommand
  rpopCommand llenCommand lindexCommand lrangeCommand lclearCommand lmclearCommand lexpireCommand lexpireAtCommand
  lttlCommand lpersistCommand block_on blpopCommand brpopCommand source_ttl push_popped brpoplpushCommand rpoplpushCommand
  lkeyexistsCommand lTrimCommand with_trim_size lTrimFrontCommand lTrimBackCommand hsetCommand hgetCommand hexistsCommand
  hdelCommand hlenCommand hincrbyCommand hmsetCommand hmgetCommand hgetallCommand hkeysCommand hvalsCommand hclearCommand
  hmclearCommand hexpireCommand hexpireAtCommand httlCommand hpersistCommand hkeyexistsCommand saddCommand soptGeneric
  soptStoreGeneric scardCommand sdiffCommand sdiffstoreCommand sinterCommand sinterstoreCommand sunionCommand
  sunionstoreCommand sismemberCommand smembersCommand sremCommand sclearCommand smclearCommand sexpireCommand
  sexpireAtCommand sttlCommand spersistCommand skeyexistsCommand zaddCommand zcardCommand zscoreCommand zremCommand
  zincrbyCommand zcountCommand reply_rank zrankCommand zrevrankCommand zremrangebyrankCommand zremrangebyscoreCommand
  zrangeGeneric zrangeCommand zrevrangeCommand zrangebyscoreGeneric zrangebyscoreCommand zrevrangebyscoreCommand
  zclearCommand zmclearCommand zexpireCommand zexpireAtCommand zttlCommand zpersistCommand zstoreCommand zunionstoreCommand
  zinterstoreCommand zrangebylexCommand zremrangebylexCommand zlexcountCommand zkeyexistsCommand scan_reply scan_with
  xscanCommand xhscanCommand xsscanCommand xzscanCommand pingCommand authCommand echoCommand selectCommand flushallCommand
  flushdbCommand : commands.
