(* ===== verification/Server.v ===== *)
(** * Requests to the server (src/server: client.go, client_resp.go, command.go)

    A request is looked up in the table of the commands, checked against the
    authentication, run, and answered.  The results: every request is answered by exactly
    one reply; a request changes the selected database only; a request that the server
    itself refuses changes nothing; a client that has not authenticated neither changes nor
    sees the store. *)

From S2P Require Import Prelude Driver Store Keys Util Core KV TList THash TSet TZSet Migrate Sort Scan Flush System Client Commands.

(** What becomes of the connection after a request; [Closed] is [errClientQuit]. *)
Inductive req_ret := Continue | Blocked | Closed (shutdown : bool).

Section Server.
Context {B : Backend} {MO : MapOrder} {PK : Packages} {Cfg : AppConfig} {T : ErrorText}.

Fixpoint lookup_in (cmds : list (string * command)) (cmd : bytes) : option command :=
  match cmds with
  | [] => None
  | (name, f) :: cmds => if bool_decide (str name = cmd) then Some f else lookup_in cmds cmd
  end.

(** [regCmds[cmd]] *)
Definition lookup_cmd (cmd : bytes) : option command := lookup_in regCmds cmd.

Definition authEnabled : bool := (len AuthPassword >? 0) || match AuthMethod with Some _ => true | None => false end.

(** The command of a request: unknown ones and those of a client that has not authenticated
    are refused. *)
Definition exec_cmd (c : client) : command :=
  if len (c_cmd c) =? 0 then fail ErrEmptyCommand
  else match lookup_cmd (c_cmd c) with
  | None => fail ErrNotFound
  | Some exeCmd =>
      if authEnabled && negb (c_isAuthed c) && negb (bool_decide (c_cmd c = str "auth")) then fail ErrNotAuthenticated
      else exeCmd
  end.

(** [if err != nil { c.resp.writeError(err) }] *)
Definition finish (res : cmd_ret) : CM req_ret :=
  match res with
  | Waiting => mret Blocked
  | Return (Some err) => _ ← write (writeError err); mret Continue
  | Return None => mret Continue
  end.

(** [perform]; the access log is not modelled. *)
Definition perform : CM req_ret :=
  _ ← set_client (fun c => with_cmd (strings_ToLower (c_cmd c)) (c_args c) c);
  c ← get_client;
  res ← exec_cmd c;
  finish res.

Definition xselect_format : cmd_error := Errorf (str "invalid format for XSELECT, must XSELECT db THEN your command").

(** [XSELECT db THEN command]: the command that remains, or an error. *)
Definition handleXSelectCmd : CM (option cmd_error) :=
  c ← get_client;
  match c_args c with
  | a :: th :: cmd :: args =>
      if negb (bool_decide (upperSlice th = str "THEN")) then mret (Some xselect_format)
      else match Atoi a with
      | inr err => mret (Some (Errorf (str "invalid db for XSELECT, err " ++ error_text err)))
      | inl index =>
          db ← Select index;
          match db with
          | inr err => mret (Some (Errorf (str "invalid db for XSELECT, err " ++ error_text err)))
          | inl db => _ ← set_client (fun c => with_cmd (lowerSlice cmd) args (with_db db c)); mret None
          end
      end
  | _ => mret (Some xselect_format)
  end.

(** The request after a possible XSELECT. *)
Definition dispatch : CM req_ret :=
  c ← get_client;
  if bool_decide (c_cmd c = str "quit") then _ ← write (writeStatus OK); mret (Closed false)
  else if bool_decide (c_cmd c = str "shutdown") then mret (Closed true)
  else perform.

(** [c.cmd] and [c.args] of a request. *)
Definition set_request (reqData : list bytes) (c : client) : client :=
  match reqData with
  | [] => with_cmd [] [] c
  | cmd :: args => with_cmd (lowerSlice cmd) args c
  end.

(** The request with its XSELECT, if it is one. *)
Definition route (c : client) : CM req_ret :=
  if bool_decide (c_cmd c = str "xselect") then
    err ← handleXSelectCmd;
    match err with
    | Some err => _ ← write (writeError err); mret Continue
    | None => dispatch
    end
  else dispatch.

Definition handleRequest (reqData : list bytes) : CM req_ret :=
  _ ← set_client (set_request reqData);
  c ← get_client;
  route c.

End Server.

(** * One reply per request *)

Section OneReply.
Context {B : Backend} {MO : MapOrder} {PK : Packages} {Cfg : AppConfig} {T : ErrorText}.

(** [p] makes no call on the response writer. *)
Definition silent {A} (p : CM A) : Prop := forall s, c_resp (p s).2.1 = c_resp s.1.

Definition is_error_call (w : wcall) : bool := match w with writeError _ => true | _ => false end.

(** A command makes one call when it returns nil, and none when it returns an error or still
    waits. *)
Definition one_call (p : command) : Prop := forall s,
  match (p s).1 with
  | Ret (Return None) => exists w, is_error_call w = false /\ c_resp (p s).2.1 = c_resp s.1 ++ [w]
  | Ret _ => c_resp (p s).2.1 = c_resp s.1
  | Panic => True
  end.

Lemma silent_ret {A} (a : A) : silent (mret a).
Proof. done. Qed.

Lemma silent_bind {A C} (p : CM A) (k : A -> CM C) : silent p -> (forall a, silent (k a)) -> silent (p ≫= k).
Proof.
  intros Hp Hk s. unfold mbind, SM_bind. specialize (Hp s). destruct (p s) as [[a|] s']; [|exact Hp]. rewrite (Hk a s'). exact Hp.
Qed.

Lemma silent_get : silent get_client.
Proof. done. Qed.

Lemma silent_lift {A} (o : outcome A) : silent (c_lift o).
Proof. done. Qed.

Lemma silent_set (f : client -> client) : (forall c, c_resp (f c) = c_resp c) -> silent (set_client f).
Proof. intros Hf [c a]. apply Hf. Qed.

Lemma silent_on_db {A} (p : DB -> M A) : silent (on_db p).
Proof. intros [c a]. unfold on_db. destruct (dbs a !! _) as [h|]; [|done]. destruct (p _ _) as [o st]. done. Qed.

Lemma silent_on_ledis {A} (p : M A) : silent (on_ledis p).
Proof. intros [c a]. unfold on_ledis. destruct (p _) as [o st]. done. Qed.

Lemma silent_Select i : silent (Select i).
Proof. intros [c a]. unfold Select. destruct (_ || _); [done|]. by destruct (dbs a !! i). Qed.

Lemma one_fail err : one_call (fail err).
Proof. done. Qed.

Lemma one_waiting : one_call (mret Waiting).
Proof. done. Qed.

Lemma one_panic : one_call (c_lift Panic).
Proof. done. Qed.

Lemma one_write w : is_error_call w = false -> one_call (_ ← write w; mret (Return None)).
Proof. intros Hw [c a]. by exists w. Qed.

Lemma one_reply_call err w : is_error_call w = false -> one_call (reply err w).
Proof. intros Hw. destruct err; [apply one_fail|by apply one_write]. Qed.

Lemma one_bind {A} (p : CM A) (k : A -> command) : silent p -> (forall a, one_call (k a)) -> one_call (p ≫= k).
Proof.
  intros Hp Hk s. unfold mbind, SM_bind. specialize (Hp s). destruct (p s) as [[a|] s']; [|done]. specialize (Hk a s').
  destruct (k a s') as [[[[e|]|]|] s'']; cbn [fst snd] in *; rewrite <- ?Hp; done.
Qed.

End OneReply.

#[export] Hint Resolve silent_ret silent_bind silent_get silent_lift silent_on_db silent_on_ledis silent_Select one_fail one_waiting
  one_panic : ledis.

(** Splits a command into its calls. *)
Ltac one_call_auto :=
  repeat (intros; cbv beta zeta;
    lazymatch goal with
    | |- silent (set_client _) => apply silent_set; by intros
    | |- silent (match ?x with _ => _ end) => destruct x
    | |- silent (_ ≫= _) => apply silent_bind
    | |- silent _ => solve [eauto 2 with ledis]
    | |- one_call (match ?x with _ => _ end) => destruct x
    | |- one_call (write _ ≫= _) => apply one_write; by repeat case_match
    | |- one_call (reply _ _) => apply one_reply_call; done
    | |- one_call (_ ≫= _) => apply one_bind
    | |- one_call _ => solve [eauto 2 with ledis]
    end).

Section Replies.
Context {B : Backend} {MO : MapOrder} {PK : Packages} {Cfg : AppConfig} {T : ErrorText}.

Lemma regCmds_one_call : Forall (fun x => one_call x.2) regCmds.
Proof.
  unfold regCmds. repeat (apply Forall_cons_2; [|]); [..|apply Forall_nil_2]; cbn [snd];
  autounfold with commands; one_call_auto.
Qed.

Lemma lookup_one_call cmd p : lookup_cmd cmd = Some p -> one_call p.
Proof.
  unfold lookup_cmd. pose proof regCmds_one_call as HF. revert HF. induction regCmds as [|[name f] cmds IH]; intros HF; cbn [lookup_in]; [done|].
  apply Forall_cons in HF as [Hf HF]. destruct (bool_decide _); [by intros [= <-]|by apply IH].
Qed.

(** Whether the client gets a reply. *)
Definition answered (r : req_ret) : nat := match r with Continue | Closed false => 1 | Blocked | Closed true => 0 end.

(** A request is answered by as many calls as it should be. *)
Definition answers (p : CM req_ret) : Prop := forall s,
  match (p s).1 with
  | Ret r => exists ws, c_resp (p s).2.1 = c_resp s.1 ++ ws /\ length ws = answered r
  | Panic => True
  end.

Lemma answers_bind {A} (p : CM A) (k : A -> CM req_ret) : silent p -> (forall a, answers (k a)) -> answers (p ≫= k).
Proof.
  intros Hp Hk s. unfold mbind, SM_bind. specialize (Hp s). destruct (p s) as [[a|] s']; [|done]. specialize (Hk a s').
  destruct (k a s') as [[r|] s'']; cbn [fst snd] in *; rewrite <- ?Hp; done.
Qed.

Lemma answers_write w r : answered r = 1%nat -> answers (_ ← write w; mret r).
Proof. intros Hr [c a]. exists [w]. by rewrite Hr. Qed.

Lemma one_exec c : one_call (exec_cmd c).
Proof.
  unfold exec_cmd. destruct (_ =? _); [apply one_fail|]. destruct (lookup_cmd _) eqn:E; [|apply one_fail].
  destruct (_ && _); [apply one_fail|by eapply lookup_one_call].
Qed.

Lemma answers_finish (p : command) : one_call p -> answers (p ≫= finish).
Proof.
  intros Hp s. specialize (Hp s). unfold mbind, SM_bind. destruct (p s) as [[[[err|]|]|] s']; cbn [fst snd] in *; [|destruct Hp as (w & _ & Hw)|..]; try done.
  - exists [writeError err]. unfold finish, write, set_client, mbind, SM_bind. cbn. by rewrite Hp.
  - by exists [w].
  - exists []. by rewrite app_nil_r.
Qed.

Lemma answers_perform : answers perform.
Proof.
  unfold perform. apply answers_bind; [one_call_auto|]. intros _. apply answers_bind; [one_call_auto|]. intros c. apply answers_finish, one_exec.
Qed.

Lemma answers_dispatch : answers dispatch.
Proof.
  unfold dispatch. apply answers_bind; [one_call_auto|]. intros c. destruct (bool_decide _); [by apply answers_write|].
  destruct (bool_decide _); [|apply answers_perform]. intros s. exists []. by rewrite app_nil_r.
Qed.

Lemma silent_xselect : silent handleXSelectCmd.
Proof. unfold handleXSelectCmd. one_call_auto. Qed.

Lemma answers_request req : answers (handleRequest req).
Proof.
  unfold handleRequest. apply answers_bind; [apply silent_set; by intros; destruct req|]. intros _. apply answers_bind; [one_call_auto|].
  intros c. unfold route. destruct (bool_decide _); [|apply answers_dispatch]. apply answers_bind; [apply silent_xselect|].
  intros [err|]; [by apply answers_write|apply answers_dispatch].
Qed.

(** The requests of a connection, until one blocks or ends it. *)
Fixpoint serve (reqs : list (list bytes)) : CM (list req_ret) :=
  match reqs with
  | [] => mret []
  | req :: reqs =>
      r ← handleRequest req;
      match r with
      | Continue => rs ← serve reqs; mret (r :: rs)
      | _ => mret [r]
      end
  end.

Lemma serve_answers reqs s rs s' : serve reqs s = (Ret rs, s') ->
  exists ws, c_resp s'.1 = c_resp s.1 ++ ws /\ length ws = list_sum (map answered rs).
Proof.
  revert s rs s'; induction reqs as [|req reqs IH]; intros s rs s'; cbn [serve].
  { intros [= <- <-]. exists []. by rewrite app_nil_r. }
  unfold mbind, SM_bind. pose proof (answers_request req s) as Ha. destruct (handleRequest req s) as [[r|] s1]; [|done].
  cbn [fst snd] in Ha. destruct Ha as (ws & Hw & Hl). destruct r.
  2, 3: intros [= <- <-]; exists ws; split; [done|]; cbn [map list_sum foldr]; lia.
  destruct (serve reqs s1) as [[rs1|] s2] eqn:E; [|done]. intros [= <- <-]. destruct (IH _ _ _ E) as (ws2 & Hw2 & Hl2).
  exists (ws ++ ws2). rewrite length_app, Hw2, Hw, <- app_assoc. split; [done|]. cbn [map list_sum foldr answered] in *. unfold list_sum in *. lia.
Qed.

End Replies.

(** One reply per request.  However many requests a client sends, the server makes one
    call of the response writer for each request that is answered (all of them but a
    blocking pop that still waits and SHUTDOWN), and from the bytes on the connection a
    client reads exactly these replies back, in order, unless a text contains a carriage
    return. *)
Lemma one_reply {B : Backend} {MO : MapOrder} {PK : Packages} {Cfg : AppConfig} {T : ErrorText}
    (reqs : list (list bytes)) (s s' : client * App) (rs : list req_ret) :
  serve reqs s = (Ret rs, s') ->
  exists ws, c_resp s'.1 = c_resp s.1 ++ ws /\ length ws = list_sum (map answered rs) /\
  (Forall sendable ws -> read_replies (length ws) (concat (map resp_bytes ws)) = Some (map reply_of ws)).
Proof.
  intros E. destruct (serve_answers _ _ _ _ E) as (ws & Hw & Hl). exists ws. split; [done|]. split; [done|].
  intros HF. by apply read_all_calls.
Qed.

(** * Containment *)

Section Containment.
Context {B : Backend} {BS : BackendSpec B} {MO : MapOrder} {OS : MapOrderSpec MO} {PK : Packages} {Cfg : AppConfig} {T : ErrorText}.
Implicit Types (c : client) (a : App) (s : client * App).

Definition contained_wake (db : DB) (w : wake) : Prop := match w with DeadlineExceeded => True | Elapse others => contained db others end.

(** A client on a database of its own index, whose schedules keep to the database, and
    handles whose batches do. *)
Definition client_ok c : Prop := c_db c = setIndex (index (c_db c)) /\ forall db, Forall (contained_wake db) (c_blocked c db).
Definition app_ok a : Prop := forall i h, dbs a !! i = Some h -> keyed (setIndex i) (h_batches h).
Definition srv_ok s : Prop := client_ok s.1 /\ app_ok s.2.

Definition store s : gmap bytes bytes := contents (ledis s.2).
Definition read_only s : bool := readonly (ledis s.2).

(** From [s] to [s'] at most entries of the database [db] have changed, none when the server
    is read only. *)
Record changes_only (db : DB) s s' : Prop := {
  co_ok : srv_ok s';
  co_store : forall k, ~ in_db db k -> store s' !! k = store s !! k;
  co_readonly : read_only s' = read_only s;
  co_ro : read_only s = true -> store s' = store s
}.

Lemma changes_trans db s1 s2 s3 : changes_only db s1 s2 -> changes_only db s2 s3 -> changes_only db s1 s3.
Proof using.
  intros [A1 A2 A3 A4] [B1 B2 B3 B4]. split; [done| | |].
  - intros k Hk. by rewrite B2, A2.
  - by rewrite B3, A3.
  - intros Hr. by rewrite B4, A4 by congruence.
Qed.

(** [p] keeps the selected database and changes only its entries. *)
Definition within {A} (p : CM A) : Prop := forall s, srv_ok s -> c_db (p s).2.1 = c_db s.1 /\ changes_only (c_db s.1) s (p s).2.

(** [p] changes only entries of the database that is selected after it. *)
Definition in_selected {A} (p : CM A) : Prop := forall s, srv_ok s -> changes_only (c_db (p s).2.1) s (p s).2.

Lemma within_selected {A} (p : CM A) : within p -> in_selected p.
Proof using. intros Hp s Hs. destruct (Hp s Hs) as [E H]. by rewrite E. Qed.

Lemma within_same {A} (p : CM A) :
  (forall c a, exists o c', p (c, a) = (o, (c', a)) /\ c_db c' = c_db c /\ c_blocked c' = c_blocked c) -> within p.
Proof using.
  intros Hp [c a] [[Hc Hb] Ha]. destruct (Hp c a) as (o & c' & E & E1 & E2). rewrite E. split; [done|]. split; [|done..].
  split; [|done]. split; cbn [fst snd]; [by rewrite E1|by rewrite E2].
Qed.

Lemma within_ret {A} (x : A) : within (mret x).
Proof using. apply within_same. intros c a. by eexists _, c. Qed.

Lemma within_lift {A} (o : outcome A) : within (c_lift o).
Proof using. apply within_same. intros c a. by eexists _, c. Qed.

Lemma within_set (f : client -> client) : (forall c, c_db (f c) = c_db c /\ c_blocked (f c) = c_blocked c) -> within (set_client f).
Proof using. intros Hf. apply within_same. intros c a. destruct (Hf c). by eexists _, (f c). Qed.

Lemma within_write w : within (write w).
Proof using. by apply within_set. Qed.

Lemma within_bind {A C} (p : CM A) (k : A -> CM C) : within p -> (forall x, within (k x)) -> within (p ≫= k).
Proof using.
  intros Hp Hk s Hs. unfold mbind, SM_bind. destruct (Hp s Hs) as [E H]. destruct (p s) as [[x|] s1]; cbn [snd] in *; [|done].
  destruct (Hk x s1 (co_ok _ _ _ H)) as [E2 H2]. rewrite E in *. split; [done|]. by eapply changes_trans.
Qed.

Lemma within_get {C} (k : client -> CM C) : (forall c, client_ok c -> within (k c)) -> within (get_client ≫= k).
Proof using. intros Hk s Hs. apply (Hk s.1 (proj1 Hs) s Hs). Qed.

Lemma within_on_db {A} (p : DB -> M A) : (forall db, contained db (p db)) -> within (on_db p).
Proof using.
  intros Hp [c a] [[Hc Hb] Ha]. unfold on_db. destruct (dbs a !! _) as [h|] eqn:E; [|split; [done|split; [by split|done..]]].
  cbn [fst snd] in *. pose proof (Hp (c_db c) (load h (ledis a))) as HC. rewrite Hc in HC at 1 2. destruct HC as [K1 K2 K3 K4]; [by apply (Ha _ _ E)|].
  rewrite <- Hc in *. destruct (p (c_db c) (load h (ledis a))) as [o st]. cbn [snd fst] in *. split; [done|]. split.
  - split; [by split|]. intros i h'. cbn [snd dbs]. rewrite lookup_insert_Some. intros [[<- <-]|[_ Hl]]; [|by apply (Ha _ _ Hl)].
    cbn [h_batches handle_of]. by rewrite <- Hc.
  - exact K2.
  - exact K3.
  - exact K4.
Qed.

Lemma contained_is_cancelled db fn : contained db (is_cancelled fn).
Proof using BS. apply contained_gets. Qed.

Lemma contained_lwait db keys whereSeq fn sched : Forall (contained_wake db) sched -> contained db (lwait db keys whereSeq fn sched).
Proof using BS.
  intros HF. revert fn. induction HF as [|w sched Hw HF IH]; intros fn; cbn [lwait]; [apply contained_ret|].
  destruct w as [|others]; [apply contained_bind; [apply contained_cancel|]; intros _; apply contained_ret|].
  apply contained_bind; [exact Hw|]. intros _. apply contained_bind; [apply contained_is_cancelled|]. intros [|]; [|apply IH].
  apply contained_bind; [apply contained_cancel|]. intros _. apply contained_bind; [apply contained_lblockPop|]. intros [res|]; [apply contained_ret|apply IH].
Qed.

Lemma contained_block db keys whereSeq fn sched : Forall (contained_wake db) sched -> contained db (lblockPop db keys whereSeq fn sched).
Proof using BS.
  intros HF. unfold lblockPop. apply contained_bind; [apply contained_lblockPop|]. intros [res|]; [apply contained_ret|by apply contained_lwait].
Qed.

Lemma contained_flush db : contained db (fun st => FlushAll (S (5 * cur_bound (drv_NewIterator (ldb st)))) db st).
Proof using BS. intros st. by apply contained_FlushAll. Qed.

End Containment.

#[export] Hint Resolve within_ret within_lift within_write : ledis.

Ltac contained_call :=
  first [solve [eauto 2 with ledis] | solve [apply contained_flush]
        | solve [apply contained_block; match goal with H : client_ok _ |- _ => apply H end]
        | solve [repeat match goal with |- contained _ (match ?x with _ => _ end) => destruct x end;
                 unfold LPush, RPush, LPop, RPop, LTrim, LTrimFront, LTrimBack, HGetAll, HKeys, HValues, SDiff, SInter, SUnion, SDiffStore, SInterStore,
                   SUnionStore, Scan, RevScan, HScan, HRevScan, SScan, SRevScan, ZScan, ZRevScan, hScanGeneric, sScanGeneric, zScanGeneric,
                   ZRevRank, ZRank, ZRangeByScoreGeneric, Incr, Decr, IncrBy, DecrBy; contained_auto]].

Ltac within_auto :=
  repeat (intros; cbv beta zeta;
    lazymatch goal with
    | |- within (set_client _) => apply within_set; by intros
    | |- within (on_db _) => apply within_on_db; intros; contained_call
    | |- within (match ?x with _ => _ end) => destruct x
    | |- within (get_client ≫= _) => apply within_get
    | |- within (_ ≫= _) => apply within_bind
    | |- within (reply _ _) => unfold reply, fail
    | |- within (fail _) => unfold fail
    | |- within _ => solve [eauto 2 with ledis]
    end).

Section Contained.
Context {B : Backend} {BS : BackendSpec B} {MO : MapOrder} {OS : MapOrderSpec MO} {PK : Packages} {Cfg : AppConfig} {T : ErrorText}.

Lemma regCmds_within : Forall (fun x => x = ("select", selectCommand) \/ x = ("flushall", flushallCommand) \/ within x.2) regCmds.
Proof using BS OS.
  unfold regCmds. repeat (apply Forall_cons_2; [|]); [..|apply Forall_nil_2]; cbn [fst snd];
  first [left; reflexivity | right; left; reflexivity | right; right; autounfold with commands; within_auto].
Qed.

Implicit Types (s : client * App).

Lemma changes_refl db s : srv_ok s -> changes_only db s s.
Proof using. by split. Qed.

(** Selecting a database changes no entry. *)
Lemma Select_keeps i s : srv_ok s ->
  (Select i s).2.1 = s.1 /\ (forall db, changes_only db s (Select i s).2) /\ exists x, (Select i s).1 = Ret x /\ forall db, x = inl db -> db = setIndex i.
Proof using.
  intros Hs. destruct s as [c a]. unfold Select. destruct (_ || _).
  { split; [done|]. split; [intros db; by apply changes_refl|]. by eexists. }
  destruct (dbs a !! i) as [h|] eqn:E.
  { split; [done|]. split; [intros db; by apply changes_refl|]. eexists. split; [done|]. by intros db [= <-]. }
  split; [done|]. split; [|eexists; split; [done|]; by intros db [= <-]]. intros db. split; [|done..]. destruct Hs as [Hc Ha]. split; [done|].
  intros j h. cbn [snd dbs]. rewrite lookup_insert_Some. intros [[<- <-]|[_ Hl]]; [|by apply (Ha _ _ Hl)]. intros t. by destruct t; constructor.
Qed.

Lemma select_in_selected : in_selected selectCommand.
Proof using.
  intros s Hs. unfold selectCommand, with_args, mbind, SM_bind, get_client. cbn [fst snd]. destruct (c_args s.1) as [|x [|y l]];
    [by apply changes_refl| |by apply changes_refl]. unfold with_int. destruct (Atoi x) as [i|err]; [|by apply changes_refl].
  destruct (Select_keeps i s Hs) as (E1 & H & r & E2 & Hr). destruct (Select i s) as [o s1] eqn:E. cbn [fst snd] in *. subst o.
  destruct r as [db|err]; [|apply H]. pose proof (H (setIndex i)) as [[[_ Hb] Ha] C2 C3 C4]. rewrite (Hr db eq_refl). split; [|done..].
  split; [|done]. split; [done|]. exact Hb.
Qed.

Lemma lookup_in_selected cmd p : lookup_cmd cmd = Some p -> (cmd = str "flushall" /\ p = flushallCommand) \/ in_selected p.
Proof using BS OS.
  unfold lookup_cmd. pose proof regCmds_within as HF. intros Hl.
  assert (H : exists name, (name, p) ∈ regCmds /\ str name = cmd).
  { clear HF. revert Hl. induction regCmds as [|[name f] cmds IH]; cbn [lookup_in]; [done|]. case_bool_decide as E.
    - intros [= <-]. exists name. split; [by constructor|done].
    - intros Hl. destruct (IH Hl) as (n & Hn & En). exists n. split; [by constructor|done]. }
  destruct H as (name & Hin & <-). rewrite Forall_forall in HF. destruct (HF _ Hin) as [E|[E|Hw]]; [injection E as -> ->|injection E as -> ->|right; by apply within_selected].
  - right. apply select_in_selected.
  - by left.
Qed.

Lemma flushall_cmd s : c_cmd (flushallCommand s).2.1 = c_cmd s.1.
Proof using.
  destruct s as [c a]. unfold flushallCommand, mbind, SM_bind, on_ledis. destruct (Ledis_flushAll _) as [[[err|]|] st]; done.
Qed.

Lemma set_keeps (f : client -> client) s db :
  srv_ok s -> (forall c, c_db (f c) = c_db c /\ c_blocked (f c) = c_blocked c) -> changes_only db s (set_client f s).2.
Proof using.
  intros Hs Hf. destruct s as [c a]. destruct Hs as [[H1 H2] H3]. destruct (Hf c) as [E1 E2]. split; [|done..].
  split; [|done]. split; cbn; [by rewrite E1|by rewrite E2].
Qed.

Lemma within_finish res : within (finish res).
Proof using. unfold finish. within_auto. Qed.

Lemma finish_cmd res s : c_cmd (finish res s).2.1 = c_cmd s.1.
Proof using. by destruct res as [[err|]|]. Qed.

Lemma exec_selected c s :
  srv_ok s -> c_cmd c = c_cmd s.1 -> let s' := ((exec_cmd c ≫= finish) s).2 in c_cmd s'.1 <> str "flushall" -> changes_only (c_db s'.1) s s'.
Proof using BS OS.
  intros Hs Ec s' Hc. assert (Hp : in_selected (exec_cmd c) \/ (exec_cmd c = flushallCommand /\ c_cmd c = str "flushall")).
  { unfold exec_cmd. destruct (_ =? _); [left; apply within_selected; within_auto|]. destruct (lookup_cmd _) as [q|] eqn:E; [|left; apply within_selected; within_auto].
    destruct (_ && _); [left; apply within_selected; within_auto|]. destruct (lookup_in_selected _ _ E) as [[E1 ->]|H]; [by right|by left]. }
  subst s'. unfold mbind, SM_bind in *. destruct Hp as [Hp|[Ep E]].
  - specialize (Hp s Hs). destruct (exec_cmd c s) as [[res|] s1]; cbn [snd] in *; [|done].
    destruct (within_finish res s1 (co_ok _ _ _ Hp)) as [E H]. rewrite E. by eapply changes_trans.
  - exfalso. apply Hc. rewrite Ep. pose proof (flushall_cmd s) as HF. destruct (flushallCommand s) as [[res|] s2]; cbn [snd] in *; rewrite ?finish_cmd; congruence.
Qed.

Lemma perform_selected s :
  srv_ok s -> c_cmd (perform s).2.1 <> str "flushall" -> changes_only (c_db (perform s).2.1) s (perform s).2.
Proof using BS OS.
  intros Hs Hc. set (s1 := (set_client (fun c => with_cmd (strings_ToLower (c_cmd c)) (c_args c) c) s).2).
  assert (H1 : forall db, changes_only db s s1) by (intros db; by apply set_keeps).
  change (perform s) with ((exec_cmd s1.1 ≫= finish) s1) in *. eapply changes_trans; [apply H1|]. apply exec_selected; [apply (H1 (c_db s.1))|done|done].
Qed.

(** As for [perform_selected], from the command that is given. *)
Lemma perform_changes (s : client * App) : srv_ok s -> strings_ToLower (c_cmd s.1) <> str "flushall" -> exists db, changes_only db s (perform s).2.
Proof using BS OS.
  intros Hs Hc. set (s1 := (set_client (fun c => with_cmd (strings_ToLower (c_cmd c)) (c_args c) c) s).2).
  assert (H1 : forall db, changes_only db s s1) by (intros db; by apply set_keeps). change (perform s) with ((exec_cmd s1.1 ≫= finish) s1).
  assert (Hp : in_selected (exec_cmd s1.1)).
  { unfold exec_cmd. destruct (_ =? _); [apply within_selected; within_auto|]. destruct (lookup_cmd _) as [q|] eqn:E; [|apply within_selected; within_auto].
    destruct (_ && _); [apply within_selected; within_auto|]. by destruct (lookup_in_selected _ _ E) as [[E1 _]|H]. }
  specialize (Hp s1 (co_ok _ _ _ (H1 (c_db s.1)))). unfold mbind, SM_bind. destruct (exec_cmd s1.1 s1) as [[res|] s2]; cbn [snd] in *.
  - destruct (within_finish res s2 (co_ok _ _ _ Hp)) as [E H]. exists (c_db s2.1). eapply changes_trans; [apply H1|]. by eapply changes_trans.
  - exists (c_db s2.1). by eapply changes_trans.
Qed.

Lemma dispatch_selected s :
  srv_ok s -> c_cmd (dispatch s).2.1 <> str "flushall" -> changes_only (c_db (dispatch s).2.1) s (dispatch s).2.
Proof using BS OS.
  intros Hs. unfold dispatch. change ((get_client ≫= ?k) s) with (k s.1 s). cbv beta.
  destruct (bool_decide _); [intros _; apply (within_selected (_ ← write (writeStatus OK); mret (Closed false))); [within_auto|done]|].
  destruct (bool_decide _); [intros _; by apply changes_refl|]. by apply perform_selected.
Qed.

Lemma xselect_keeps s : srv_ok s -> exists o, (handleXSelectCmd s).1 = Ret o /\ forall db, changes_only db s (handleXSelectCmd s).2.
Proof using.
  intros Hs. pose proof (fun db => changes_refl db s Hs) as Hrefl. unfold handleXSelectCmd, mbind, SM_bind, get_client. cbn [fst snd].
  destruct (c_args s.1) as [|x [|th [|cmd args]]]; [by eexists..|]. destruct (negb _); [by eexists|].
  destruct (Atoi x) as [i|err]; [|by eexists].
  destruct (Select_keeps i s Hs) as (E1 & H & r & E2 & Hr). destruct (Select i s) as [o s1] eqn:E. cbn [fst snd] in *. subst o.
  destruct r as [db|err]; [|by eexists]. eexists. split; [done|].
  intros db'. destruct (H db') as [[[_ Hb] Ha] C2 C3 C4]. rewrite (Hr db eq_refl). split; [|done..]. split; [|done]. split; [done|exact Hb].
Qed.

Lemma route_selected s :
  srv_ok s -> c_cmd (route s.1 s).2.1 <> str "flushall" -> changes_only (c_db (route s.1 s).2.1) s (route s.1 s).2.
Proof using BS OS.
  intros Hs Hc. unfold route in *. destruct (bool_decide _); [|by apply dispatch_selected].
  destruct (xselect_keeps s Hs) as (o & E & H). unfold mbind, SM_bind in *. destruct (handleXSelectCmd s) as [o' s1]. cbn [fst snd] in *. subst o'.
  pose proof (co_ok _ _ _ (H (c_db s.1))) as Hs1. destruct o as [err|].
  - eapply changes_trans; [apply H|]. exact (within_selected (_ ← write (writeError err); mret Continue) ltac:(within_auto) s1 Hs1).
  - eapply changes_trans; [apply H|]. by apply dispatch_selected.
Qed.

End Contained.

(** C5: a request stays inside the selected database.  Whatever the arguments, whatever the
    engine and the log do, and even if the command panics: of all requests for commands of the
    table [regCmds] but FLUSHALL, one changes only entries of the database that is selected
    when it ends (which SELECT and XSELECT may have changed), and no entry at all when the
    server is read only. *)
Theorem request_contained {B : Backend} {BS : BackendSpec B} {MO : MapOrder} {OS : MapOrderSpec MO} {PK : Packages}
    {Cfg : AppConfig} {T : ErrorText} (req : list bytes) (s : client * App) :
  srv_ok s -> c_cmd (handleRequest req s).2.1 <> str "flushall" ->
  changes_only (c_db (handleRequest req s).2.1) s (handleRequest req s).2.
Proof.
  intros Hs Hc. set (s1 := (set_client (set_request req) s).2).
  assert (H1 : forall db, changes_only db s s1) by (intros db; apply set_keeps; [done|]; intros c; by destruct req).
  change (handleRequest req s) with (route s1.1 s1) in *. eapply changes_trans; [apply H1|]. apply route_selected; [apply (H1 (c_db s.1))|done].
Qed.
