(* ===== verification/Refuse.v ===== *)
(** * Requests the server refuses (src/server)

    A request that the server itself refuses, because of its arguments or because the client
    has not authenticated, does not reach the store. *)

From S2P Require Import Prelude Driver Store Keys Util Core KV TList THash TSet TZSet Migrate Sort Scan Flush System Client Commands Server.

Section Refusals.
Context {B : Backend} {MO : MapOrder} {PK : Packages} {Cfg : AppConfig} {T : ErrorText}.

(** An error of the server, not of the layers below. *)
Definition own_error (err : cmd_error) : bool := match err with DBError _ => false | _ => true end.

(** [p] does not touch the store and the handles. *)
Definition pure {A} (p : CM A) : Prop := forall s, (p s).2.2 = s.2.

(** When [p] returns an error of the server, it has not touched the store and the handles. *)
Definition refuses (p : command) : Prop := forall s err, (p s).1 = Ret (Return (Some err)) -> own_error err = true -> (p s).2.2 = s.2.

(** [p] returns errors of the layers below only. *)
Definition passes (p : command) : Prop := forall s err, (p s).1 = Ret (Return (Some err)) -> own_error err = false.

Lemma pure_ret {A} (x : A) : pure (mret x).
Proof. done. Qed.
Lemma pure_get : pure get_client.
Proof. done. Qed.
Lemma pure_set f : pure (set_client f).
Proof. done. Qed.
Lemma pure_write w : pure (write w).
Proof. done. Qed.
Lemma pure_lift {A} (o : outcome A) : pure (c_lift o).
Proof. done. Qed.

Lemma passes_ret : passes (mret (Return None)).
Proof. done. Qed.
Lemma passes_waiting : passes (mret Waiting).
Proof. done. Qed.
Lemma passes_fail err : passes (fail (DBError err)).
Proof. by intros s e [= <-]. Qed.
Lemma passes_lift (o : outcome cmd_ret) : o = Panic -> passes (c_lift o).
Proof. by intros -> s err. Qed.

Lemma passes_bind {A} (p : CM A) (k : A -> command) : (forall x, passes (k x)) -> passes (p ≫= k).
Proof. intros Hk s err. unfold mbind, SM_bind. destruct (p s) as [[x|] s1]; [apply Hk|done]. Qed.

Lemma passes_reply err w : passes (reply err w).
Proof. destruct err; [apply passes_fail|]. apply passes_bind. intros _. apply passes_ret. Qed.

Lemma refuses_passes p : passes p -> refuses p.
Proof. intros Hp s err E Ho. by rewrite (Hp s err E) in Ho. Qed.

Lemma refuses_ret r : refuses (mret r).
Proof. done. Qed.

Lemma refuses_bind {A} (p : CM A) (k : A -> command) : pure p -> (forall x, refuses (k x)) -> refuses (p ≫= k).
Proof.
  intros Hp Hk s err. unfold mbind, SM_bind. specialize (Hp s). destruct (p s) as [[x|] s1]; [|done]. cbn [snd] in Hp. intros E Ho.
  by rewrite (Hk x s1 err E Ho).
Qed.

End Refusals.

#[export] Hint Resolve pure_ret pure_get pure_set pure_write pure_lift passes_ret passes_waiting passes_fail passes_reply refuses_ret : ledis.

Ltac refuses_auto :=
  repeat (intros; cbv beta zeta;
    lazymatch goal with
    | |- pure _ => solve [eauto 2 with ledis]
    | |- passes (match ?x with _ => _ end) => destruct x
    | |- passes (_ ≫= _) => apply passes_bind
    | |- passes (c_lift Panic) => by apply passes_lift
    | |- passes _ => solve [eauto 2 with ledis]
    | |- refuses (fail _) => apply refuses_ret
    | |- refuses (match ?x with _ => _ end) => destruct x
    | |- refuses (on_db _ ≫= _) => apply refuses_passes
    | |- refuses (on_ledis _ ≫= _) => apply refuses_passes
    | |- refuses (_ ≫= _) => apply refuses_bind
    | |- refuses (reply _ _) => apply refuses_passes
    | |- refuses _ => solve [eauto 2 with ledis]
    end).

Section Requests.
Context {B : Backend} {MO : MapOrder} {PK : Packages} {Cfg : AppConfig} {T : ErrorText}.
Implicit Types (s : client * App).

Lemma select_refuses : refuses selectCommand.
Proof.
  unfold selectCommand, with_args. apply refuses_bind; [refuses_auto|]. intros c. destruct (c_args c) as [|x [|y l]]; [refuses_auto| |refuses_auto].
  unfold with_int. destruct (Atoi x) as [i|err]; [|refuses_auto]. intros [c' a] err. unfold mbind, SM_bind, Select.
  destruct (_ || _); [done|]. by destruct (dbs a !! i).
Qed.

Lemma regCmds_refuse : Forall (fun x => x = ("brpoplpush", brpoplpushCommand) \/ refuses x.2) regCmds.
Proof.
  unfold regCmds. repeat (apply Forall_cons_2; [|]); [..|apply Forall_nil_2]; cbn [fst snd];
  first [left; reflexivity | right; apply select_refuses | right; autounfold with commands; refuses_auto].
Qed.

End Requests.

Section Refused.
Context {B : Backend} {MO : MapOrder} {PK : Packages} {Cfg : AppConfig} {T : ErrorText}.
Implicit Types (s : client * App).

(** [p] leaves the name of the command. *)
Definition same_cmd {A} (p : CM A) : Prop := forall s, c_cmd (p s).2.1 = c_cmd s.1.

Lemma same_cmd_bind {A C} (p : CM A) (k : A -> CM C) : same_cmd p -> (forall x, same_cmd (k x)) -> same_cmd (p ≫= k).
Proof.
  intros Hp Hk s. unfold mbind, SM_bind. specialize (Hp s). destruct (p s) as [[x|] s1]; [|done]. cbn [snd] in Hp. by rewrite (Hk x s1).
Qed.

Lemma same_cmd_on_db {A} (p : DB -> M A) : same_cmd (on_db p).
Proof. intros [c a]. unfold on_db. destruct (dbs a !! _); [|done]. by destruct (p _ _). Qed.

Lemma brpoplpush_cmd : same_cmd brpoplpushCommand.
Proof.
  autounfold with commands. repeat (intros; cbv beta zeta; lazymatch goal with
    | |- same_cmd (match ?x with _ => _ end) => destruct x
    | |- same_cmd (_ ≫= _) => apply same_cmd_bind
    | |- same_cmd (on_db _) => apply same_cmd_on_db
    | |- same_cmd _ => by intros [c a]
    end).
Qed.

Lemma lookup_refuses cmd p : lookup_cmd cmd = Some p -> (cmd = str "brpoplpush" /\ p = brpoplpushCommand) \/ refuses p.
Proof.
  unfold lookup_cmd. pose proof regCmds_refuse as HF. revert HF. induction regCmds as [|[name f] cmds IH]; intros HF; cbn [lookup_in]; [done|].
  apply Forall_cons in HF as [Hf HF]. case_bool_decide as E; [|by apply IH]. intros [= <-]. destruct Hf as [[= -> ->]|Hf]; [by left|by right].
Qed.

Lemma exec_refuses c s :
  c_cmd c = c_cmd s.1 -> c_cmd (exec_cmd c s).2.1 <> str "brpoplpush" -> forall err, (exec_cmd c s).1 = Ret (Return (Some err)) -> own_error err = true ->
  (exec_cmd c s).2.2 = s.2.
Proof.
  intros Ec. unfold exec_cmd. destruct (_ =? _); [done|]. destruct (lookup_cmd _) as [p|] eqn:E; [|done]. destruct (_ && _); [done|].
  destruct (lookup_refuses _ _ E) as [[E1 ->]|Hp]; [|intros _ err; apply Hp]. intros Hc. exfalso. apply Hc. by rewrite brpoplpush_cmd, <- Ec.
Qed.

Lemma app_one_inj {A} (l : list A) x y : l ++ [x] = l ++ [y] -> x = y.
Proof. intros H. apply app_inv_head in H. by injection H. Qed.

(** The error the last call reports is the one the command returned. *)
Lemma exec_reported c s err : let s' := ((exec_cmd c ≫= finish) s).2 in
  ((exec_cmd c ≫= finish) s).1 = Ret Continue -> c_resp s'.1 = c_resp s.1 ++ [writeError err] -> (exec_cmd c s).1 = Ret (Return (Some err)) /\ s'.2 = (exec_cmd c s).2.2 /\
  c_cmd s'.1 = c_cmd (exec_cmd c s).2.1.
Proof.
  intros s'. subst s'. unfold mbind, SM_bind. pose proof (one_exec c s) as H1. destruct (exec_cmd c s) as [[[[e|]|]|] s1]; cbn [fst snd] in *; try done.
  - intros _. unfold finish, write, set_client, mbind, SM_bind. cbn. rewrite H1. intros [= ->]%app_one_inj. done.
  - destruct H1 as (w & Hw & H1). intros _. cbn. rewrite H1. intros ->%app_one_inj. done.
Qed.

Lemma perform_refused s err : let s' := (perform s).2 in
  (perform s).1 = Ret Continue -> c_resp s'.1 = c_resp s.1 ++ [writeError err] -> own_error err = true -> c_cmd s'.1 <> str "brpoplpush" -> s'.2 = s.2.
Proof.
  intros s'. set (s1 := (set_client (fun c => with_cmd (strings_ToLower (c_cmd c)) (c_args c) c) s).2).
  subst s'. change (perform s) with ((exec_cmd s1.1 ≫= finish) s1). intros E Hr Ho Hc.
  destruct (exec_reported s1.1 s1 err E Hr) as (E1 & E2 & E3). rewrite E2. rewrite E3 in Hc. by rewrite (exec_refuses s1.1 s1 eq_refl Hc err E1 Ho).
Qed.

Lemma dispatch_refused s err : let s' := (dispatch s).2 in
  (dispatch s).1 = Ret Continue -> c_resp s'.1 = c_resp s.1 ++ [writeError err] -> own_error err = true -> c_cmd s'.1 <> str "brpoplpush" -> s'.2 = s.2.
Proof.
  intros s'. subst s'. unfold dispatch. change ((get_client ≫= ?k) s) with (k s.1 s). cbv beta. destruct (bool_decide _); [done|]. destruct (bool_decide _); [done|].
  apply perform_refused.
Qed.

Lemma xselect_ledis s : ledis (handleXSelectCmd s).2.2 = ledis s.2.
Proof.
  unfold handleXSelectCmd, mbind, SM_bind, get_client. cbn [fst snd]. destruct (c_args s.1) as [|x [|th [|cmd args]]]; [done..|]. destruct (negb _); [done|].
  destruct (Atoi x) as [i|err]; [|done]. destruct s as [c a]. unfold Select. destruct (_ || _); [done|]. by destruct (dbs a !! i).
Qed.

End Refused.

(** A refused request does not reach the store.  When the reply to a request is an
    error of the server itself (an unknown command, a client that has not authenticated,
    arguments that are missing, malformed or out of range), the store, the log and
    everything else of the database layer are unchanged; the only exception is BRPOPLPUSH. *)
Lemma refused_request {B : Backend} {MO : MapOrder} {PK : Packages} {Cfg : AppConfig} {T : ErrorText}
    (req : list bytes) (s s' : client * App) (err : cmd_error) :
  handleRequest req s = (Ret Continue, s') -> c_resp s'.1 = c_resp s.1 ++ [writeError err] -> own_error err = true ->
  c_cmd s'.1 <> str "brpoplpush" -> ledis s'.2 = ledis s.2.
Proof.
  set (s1 := (set_client (set_request req) s).2). change (handleRequest req s) with (route s1.1 s1).
  assert (Hr : c_resp s1.1 = c_resp s.1) by (by destruct req). assert (Hl : s1.2 = s.2) by done. rewrite <- Hr, <- Hl. clearbody s1. clear Hr Hl s.
  unfold route. intros E Hr Ho Hc. destruct (bool_decide _).
  - pose proof (xselect_ledis s1) as Hx. pose proof (silent_xselect s1) as Hsil. unfold mbind, SM_bind in E. destruct (handleXSelectCmd s1) as [[[e|]|] s2]; cbn [snd] in *.
    + injection E as <-. exact Hx.
    + rewrite <- Hx. f_equal. rewrite <- Hsil in Hr. pose proof (dispatch_refused s2 err) as H. rewrite E in H. by apply H.
    + done.
  - f_equal. pose proof (dispatch_refused s1 err) as H. rewrite E in H. by apply H.
Qed.

(** * Authentication *)

Section Outside.
Context {B : Backend} {MO : MapOrder} {PK : Packages} {Cfg : AppConfig} {T : ErrorText}.
Implicit Types (c : client) (a : App).

(** The authentication accepts [password]. *)
Definition accepts (password : bytes) : bool := match AuthMethod with Some f => f password | None => defaultAuth password end.

Definition is_outside c : Prop := c_isAuthed c = false /\ Forall (fun x => accepts x = false) (c_args c).

(** What [p] returns and what becomes of the client do not depend on the server, whose
    store [p] leaves; the client stays outside. *)
Definition outside {A} (p : CM A) c : Prop :=
  exists o c', is_outside c' /\ forall a, exists ds, p (c, a) = (o, (c', mkApp (ledis a) ds)).

Lemma outside_ret {A} (x : A) c : is_outside c -> outside (mret x) c.
Proof. intros Hc. exists (Ret x), c. split; [done|]. intros [l ds]. by exists ds. Qed.

Lemma outside_set f c : is_outside (f c) -> outside (set_client f) c.
Proof. intros Hc. exists (Ret tt), (f c). split; [done|]. intros [l ds]. by exists ds. Qed.

Lemma outside_bind {A C} (p : CM A) (k : A -> CM C) c : outside p c -> (forall x c', is_outside c' -> outside (k x) c') -> outside (p ≫= k) c.
Proof.
  intros ([x|] & c1 & Hc1 & Hp) Hk.
  - destruct (Hk x c1 Hc1) as (o & c2 & Hc2 & Hk2). exists o, c2. split; [done|]. intros a. destruct (Hp a) as [ds E].
    unfold mbind, SM_bind. rewrite E. destruct (Hk2 (mkApp (ledis a) ds)) as [ds2 E2]. exists ds2. exact E2.
  - exists Panic, c1. split; [done|]. intros a. destruct (Hp a) as [ds E]. exists ds. unfold mbind, SM_bind. by rewrite E.
Qed.

Lemma outside_get {A} (k : client -> CM A) c : outside (k c) c -> outside (get_client ≫= k) c.
Proof. done. Qed.

Lemma outside_write {A} w (x : A) c : is_outside c -> outside (_ ← write w; mret x) c.
Proof. intros Hc. apply outside_bind; [by apply outside_set|]. intros _ c'. apply outside_ret. Qed.

Lemma outside_Select i c : is_outside c -> outside (Select i) c.
Proof.
  intros Hc. unfold outside, Select. destruct (_ || _); (eexists _, c; split; [done|]; intros [l ds]).
  - by exists ds.
  - cbn [dbs ledis]. destruct (ds !! i); [by exists ds|by eexists].
Qed.

Lemma outside_auth c : is_outside c -> outside authCommand c.
Proof.
  intros Hc. unfold authCommand, with_args. apply outside_get. destruct Hc as [Ha Hr]. destruct (c_args c) as [|x [|y l]] eqn:E;
    [by apply outside_ret; split; [|rewrite E]| |by apply outside_ret; split; [|rewrite E]].
  pose proof (proj1 (Forall_singleton _ _) Hr) as Hx. unfold accepts in Hx. cbv beta in Hx. cbv zeta. destruct AuthMethod as [f|]; rewrite Hx;
    (apply outside_bind; [apply outside_set; split; [done|]; cbn [c_args with_authed]; by rewrite E|]; intros _ c'; apply outside_ret).
Qed.

Lemma lookup_auth : lookup_cmd (str "auth") = Some authCommand.
Proof. reflexivity. Qed.

Lemma outside_exec c : authEnabled = true -> is_outside c -> outside (exec_cmd c) c.
Proof.
  intros He Hc. unfold exec_cmd. destruct (_ =? _); [by apply outside_ret|]. destruct (decide (c_cmd c = str "auth")) as [E|E].
  - rewrite E, lookup_auth, bool_decide_true, andb_false_r by done. by apply outside_auth.
  - destruct (lookup_cmd _); [|by apply outside_ret]. rewrite He, (proj1 Hc), bool_decide_false by done. by apply outside_ret.
Qed.

Lemma outside_dispatch c : authEnabled = true -> is_outside c -> outside dispatch c.
Proof.
  intros He Hc. unfold dispatch. apply outside_get. destruct (bool_decide _); [by apply outside_write|].
  destruct (bool_decide _); [by apply outside_ret|]. unfold perform. apply outside_bind; [by apply outside_set|].
  intros _ c' Hc'. apply outside_get. apply outside_bind; [by apply outside_exec|]. intros [[err|]|] c2 Hc2; unfold finish;
    [by apply outside_write|by apply outside_ret..].
Qed.

Lemma outside_xselect c : is_outside c -> outside handleXSelectCmd c.
Proof.
  intros Hc. unfold handleXSelectCmd. apply outside_get. destruct (c_args c) as [|x [|th [|cmd args]]] eqn:E; [by apply outside_ret..|].
  destruct (negb _); [by apply outside_ret|]. destruct (Atoi x); [|by apply outside_ret]. apply outside_bind; [by apply outside_Select|].
  intros [db|err] c' Hc'; [|by apply outside_ret]. apply outside_bind; [|intros _ c2; apply outside_ret]. apply outside_set.
  split; [apply Hc'|]. destruct Hc as [_ Hr]. rewrite E in Hr. cbn [c_args with_cmd]. by do 3 apply Forall_cons in Hr as [_ Hr].
Qed.

Lemma outside_request req c :
  authEnabled = true -> c_isAuthed c = false -> Forall (fun x => accepts x = false) req -> outside (handleRequest req) c.
Proof.
  intros He Ha Hr. unfold handleRequest. apply outside_bind.
  { apply outside_set. destruct req as [|cmd args]; [by split|]. split; [done|]. by apply Forall_cons in Hr as [_ Hr]. }
  intros _ c1 Hc1. apply outside_get. unfold route. destruct (bool_decide _); [|by apply outside_dispatch].
  apply outside_bind; [by apply outside_xselect|]. intros [err|] c2 Hc2; [by apply outside_write|by apply outside_dispatch].
Qed.

Lemma outside_serve reqs c :
  authEnabled = true -> is_outside c -> Forall (Forall (fun x => accepts x = false)) reqs -> outside (serve reqs) c.
Proof.
  intros He Hc HF. revert c Hc. induction HF as [|req reqs Hr HF IH]; intros c Hc; cbn [serve]; [by apply outside_ret|].
  apply outside_bind; [by apply outside_request; [|apply Hc|]|]. intros [| |sd] c1 Hc1; [|by apply outside_ret..].
  apply outside_bind; [by apply IH|]. intros rs c2 Hc2. by apply outside_ret.
Qed.

End Outside.

(** Authentication guards the store.  When a password or an authentication function is
    configured, a client that has not authenticated and that never sends an argument the
    authentication accepts learns nothing and changes nothing: whatever it requests, in
    whatever order, the outcomes and replies are the same on any two servers, the store, the
    log and the rest of the database layer stay as they are, and the client is still not
    authenticated. *)
Lemma unauthenticated {B : Backend} {MO : MapOrder} {PK : Packages} {Cfg : AppConfig} {T : ErrorText}
    (reqs : list (list bytes)) (c : client) (a1 a2 : App) :
  authEnabled = true -> c_isAuthed c = false -> Forall (Forall (fun x => accepts x = false)) reqs ->
  (serve reqs (c, a1)).1 = (serve reqs (c, a2)).1 /\ (serve reqs (c, a1)).2.1 = (serve reqs (c, a2)).2.1 /\
  ledis (serve reqs (c, a1)).2.2 = ledis a1 /\ c_isAuthed (serve reqs (c, a1)).2.1 = false.
Proof.
  intros He Ha HF. destruct reqs as [|req reqs]; [done|]. assert (H : outside (serve (req :: reqs)) c).
  { cbn [serve]. apply Forall_cons in HF as [Hr HF]. apply outside_bind; [by apply outside_request|].
    intros [| |sd] c1 Hc1; [|by apply outside_ret..]. apply outside_bind; [by apply outside_serve|]. intros rs c2 Hc2. by apply outside_ret. }
  destruct H as (o & c' & Hc' & E). destruct (E a1) as [ds1 E1]. destruct (E a2) as [ds2 E2]. rewrite E1, E2. by destruct Hc'.
Qed.
