(* ===== verification/Session.v ===== *)
(** * Sessions (src/server)

    What whole requests do on a server that works: a value set is the value got, byte for
    byte on the connection, and RPOPLPUSH loses no element.  A server on the engine in memory
    then shows what happens at the edges. *)

From S2P Require Import Prelude SortPkg Driver Store Keys Util Core Frame KV TList THash TSet TZSet Migrate Sort Scan Flush System Client Commands Server Refuse.

Section Serving.
Context {B : Backend} {BS : BackendSpec B} {MO : MapOrder} {PK : Packages} {Cfg : AppConfig} {T : ErrorText}.
Implicit Types (c : client) (a : App) (db : DB) (m : gmap bytes bytes) (e : Env).

(** The server accepts writes and holds the store [m]; the handle of [db] is open, its batches
    are empty and it runs in [e]. *)
Record serving db a m e : Prop := {
  sv_ready : ready (ledis a);
  sv_contents : contents (ledis a) = m;
  sv_handle : exists h, dbs a !! index db = Some h /\ h_batches h = no_ops /\
    e = mkEnv (now (env (ledis a))) (h_nc h) (h_lbkeys h) (h_cancelled h)
}.

(** [p] returns on a server that holds [m], and what it returns and leaves satisfies [Q]. *)
Definition cwp {A} (p : CM A) (Q : A -> client -> gmap bytes bytes -> Env -> Prop) c m e : Prop :=
  forall a, serving (c_db c) a m e -> exists x c' a' m' e', p (c, a) = (Ret x, (c', a')) /\ serving (c_db c') a' m' e' /\ Q x c' m' e'.

Lemma cwp_ret {A} (x : A) Q c m e : Q x c m e -> cwp (mret x) Q c m e.
Proof using. intros HQ a Ha. eauto 10. Qed.

Lemma cwp_bind {A C} (p : CM A) (k : A -> CM C) Q c m e : cwp p (fun x => cwp (k x) Q) c m e -> cwp (p ≫= k) Q c m e.
Proof using.
  intros Hp a Ha. destruct (Hp a Ha) as (x & c1 & a1 & m1 & e1 & E & Ha1 & Hk).
  destruct (Hk a1 Ha1) as (y & c2 & a2 & m2 & e2 & E2 & Ha2 & HQ). exists y, c2, a2, m2, e2. unfold mbind, SM_bind. by rewrite E.
Qed.

Lemma cwp_get {A} (k : client -> CM A) Q c m e : cwp (k c) Q c m e -> cwp (get_client ≫= k) Q c m e.
Proof using. done. Qed.

Lemma cwp_set (f : client -> client) (Q : unit -> client -> gmap bytes bytes -> Env -> Prop) c m e :
  c_db (f c) = c_db c -> Q tt (f c) m e -> cwp (set_client f) Q c m e.
Proof using. intros Hf HQ a Ha. exists tt, (f c), a, m, e. split; [done|]. by rewrite Hf. Qed.

Lemma cwp_write (w : wcall) (Q : unit -> client -> gmap bytes bytes -> Env -> Prop) c m e :
  (forall c', c_resp c' = c_resp c ++ [w] -> c_db c' = c_db c -> c_isAuthed c' = c_isAuthed c -> Q tt c' m e) -> cwp (write w) Q c m e.
Proof using. intros HQ. unfold write. apply cwp_set; [done|]. by apply HQ. Qed.

Lemma cwp_on_db {A} (p : DB -> M A) Q c m e : runs (p (c_db c)) m e (fun x m' e' => Q x c m' e') -> cwp (on_db p) Q c m e.
Proof using.
  intros Hp a [Hr Hm (h & Hh & Hb & He)]. destruct (Hp (load h (ledis a))) as (x & st' & m' & b' & e' & E & [Hr' Hm' Hb' He'] & -> & HQ).
  { split; [exact Hr|exact Hm|exact Hb|by rewrite He]. }
  exists x, c, (mkApp st' (<[index (c_db c) := handle_of st']> (dbs a))), m', e'. unfold on_db. rewrite Hh, E. split; [done|]. split; [|done].
  split; [done|done|]. eexists. split; [apply lookup_insert_eq|]. split; [exact Hb'|]. cbn. rewrite <- He'. by destruct (env st').
Qed.

(** A request whose name is that of the command [p]. *)
Lemma handle_known (name : string) (p : command) (cmd : bytes) (args : list bytes) c a :
  lookup_cmd (str name) = Some p -> lowerSlice cmd = str name -> strings_ToLower (str name) = str name ->
  str name ∉ [str "xselect"; str "quit"; str "shutdown"; []] -> authEnabled = false \/ c_isAuthed c = true ->
  handleRequest (cmd :: args) (c, a) = (p ≫= finish) (with_cmd (str name) args c, a).
Proof using.
  intros Hp Hl Ht Hn Ha. rewrite !not_elem_of_cons in Hn. destruct Hn as (N1 & N2 & N3 & N4 & _).
  set (s1 := (set_client (set_request (cmd :: args)) (c, a)).2). change (handleRequest (cmd :: args) (c, a)) with (route s1.1 s1).
  assert (E1 : s1 = (with_cmd (str name) args c, a)) by (unfold s1; cbn; by rewrite Hl). clearbody s1. subst s1.
  unfold route. cbn [fst c_cmd with_cmd]. rewrite bool_decide_false by done. unfold dispatch. change ((get_client ≫= ?k) ?s) with (k s.1 s). cbv beta.
  cbn [fst c_cmd with_cmd]. rewrite !bool_decide_false by done.
  set (s2 := (set_client (fun c => with_cmd (strings_ToLower (c_cmd c)) (c_args c) c) (with_cmd (str name) args c, a)).2).
  change (perform (with_cmd (str name) args c, a)) with ((exec_cmd s2.1 ≫= finish) s2).
  assert (E2 : s2 = (with_cmd (str name) args c, a)) by (unfold s2; cbn; by rewrite Ht). clearbody s2. subst s2. cbn [fst].
  assert (E3 : exec_cmd (with_cmd (str name) args c) = p); [|by rewrite E3].
  unfold exec_cmd. cbn [c_cmd with_cmd c_isAuthed]. destruct (Z.eqb_spec (len (str name)) 0) as [E|_]; [by destruct (str name)|].
  rewrite Hp. destruct Ha as [->| ->]; [done|]. cbn [negb]. by rewrite andb_false_r.
Qed.

Lemma cwp_request (name : string) (p : command) (cmd : bytes) (args : list bytes) Q c m e :
  lookup_cmd (str name) = Some p -> lowerSlice cmd = str name -> strings_ToLower (str name) = str name ->
  str name ∉ [str "xselect"; str "quit"; str "shutdown"; []] -> authEnabled = false \/ c_isAuthed c = true ->
  cwp (p ≫= finish) Q (with_cmd (str name) args c) m e -> cwp (handleRequest (cmd :: args)) Q c m e.
Proof using.
  intros Hp Hl Ht Hn Hau HQ a Ha. rewrite (handle_known name p cmd args c a Hp Hl Ht Hn Hau). apply HQ, Ha.
Qed.

End Serving.

(** Runs the steps of a command at the head of a [cwp] goal. *)
Ltac cwp_step :=
  lazymatch goal with
  | |- cwp (get_client ≫= _) _ _ _ _ => apply cwp_get
  | |- cwp (_ ≫= _) _ _ _ _ => apply cwp_bind
  | |- cwp (mret _) _ _ _ _ => apply cwp_ret
  | |- cwp (fail _) _ _ _ _ => apply cwp_ret
  | |- cwp (write _) _ _ _ _ => apply cwp_write; let H := fresh "Hresp" in intros ? H ? ?
  end.
Ltac cwp_simpl := cbn [c_args with_cmd finish reply c_resp c_db].
Ltac cwp_auto := cwp_simpl; repeat (cwp_step; cwp_simpl).

Section Sessions.
Context {B : Backend} {BS : BackendSpec B} {MO : MapOrder} {PK : Packages} {Cfg : AppConfig} {T : ErrorText}.
Implicit Types (c : client) (a : App) (db : DB) (m : gmap bytes bytes) (e : Env) (l : list bytes).

Lemma request_set c m e cmd key value :
  lowerSlice cmd = str "set" -> authEnabled = false \/ c_isAuthed c = true -> checkKeySize key = None -> checkValueSize value = None ->
  cwp (handleRequest [cmd; key; value]) (fun r c' m' e' => r = Continue /\ c_resp c' = c_resp c ++ [writeStatus OK] /\ c_db c' = c_db c /\
    c_isAuthed c' = c_isAuthed c /\ m' = <[encodeKVKey (c_db c) key := value]> m /\ e' = e) c m e.
Proof using BS.
  intros Hc Ha Hk Hv. apply (cwp_request "set" setCommand); [reflexivity|done|reflexivity|by apply (bool_decide_unpack _); vm_compute|done|].
  unfold setCommand, with_args, reply_ok. cwp_auto. apply cwp_on_db. eapply exec_runs; [by apply Set_exec|]. cwp_auto. done.
Qed.

Lemma request_get c m e cmd key :
  lowerSlice cmd = str "get" -> authEnabled = false \/ c_isAuthed c = true -> checkKeySize key = None ->
  cwp (handleRequest [cmd; key]) (fun r c' m' e' => r = Continue /\ c_resp c' = c_resp c ++ [writeBulk (m !! encodeKVKey (c_db c) key)] /\
    c_db c' = c_db c /\ m' = m /\ e' = e) c m e.
Proof using BS.
  intros Hc Ha Hk. apply (cwp_request "get" getCommand); [reflexivity|done|reflexivity|by apply (bool_decide_unpack _); vm_compute|done|].
  unfold getCommand, with_args, reply_bulk. cwp_auto. apply cwp_on_db. unfold GetSlice. rewrite Hk. unfold runs. apply wp_GetSlice. split; [done|].
  cwp_auto. done.
Qed.


(** What a push at the head does to the key that holds [l]: the elements go in front, or the
    push is refused and the store stays as it is. *)
Lemma LPush_one db key x l m e :
  (checkKeySize key = None -> list_rep db m key l) ->
  runs (LPush db key [x]) m e (fun res m' e' =>
    (exists n, res = (n, None) /\ list_rep db m' key (x :: l) /\ keeps db ListType key m m') \/
    (exists n err, res = (n, Some err) /\ m' = m)).
Proof using BS.
  intros Hl. destruct (checkKeySize key) as [err|] eqn:Hk.
  { unfold LPush, lpush. rewrite Hk. apply wp_ret. split; [done|]. right. by eexists _, _. }
  destruct (Hl eq_refl) as [hd H]. eapply wp_mono; [by apply (LPush_runs db key [x] hd l m e Hk H)|]. intros res m' b' e' [-> HQ]. split; [done|].
  destruct (_ <? _); [left|right].
  - destruct HQ as (-> & HL & HK & _). eexists. split; [done|]. split; [|done]. by eexists.
  - destruct HQ as (-> & -> & _). by eexists _, _.
Qed.

(** The pop that [RPOPLPUSH] may have to take back. *)
Lemma RPop_revert db key x l m e :
  checkKeySize key = None -> list_rep db m key (l ++ [x]) ->
  runs (RPop db key) m e (fun res m' e' => res = (Some x, None) /\ list_rep db m' key l /\ keeps db ListType key m m' /\ e' = e /\
    forall e1, runs (RPush db key [x]) m' e1 (fun res m2 _ => res.2 = None /\ list_rep db m2 key (l ++ [x]) /\ keeps db ListType key m' m2)).
Proof using BS.
  intros Hk [hd Hl]. pose proof (short_key _ Hk) as Hs. pose proof (list_seq_range _ _ _ _ _ Hl) as (_ & _ & _ & H4 & _).
  unfold ltail in H4. rewrite length_app in H4. simpl in H4. eapply exec_runs; [by eapply RPop_exec|]. split; [done|].
  pose proof (RPop_at db m key hd x l Hs Hl) as Hp. split; [by eexists|]. split.
  { apply shrink_keeps; [done|]. intros s ->%list_elem_of_singleton. replace (hd + len l) with (hd + 0 `max` (Z.of_nat (length l + 1) - 1)) by lia. done. }
  split; [done|]. intros e1. eapply wp_mono; [by apply (RPush_runs db key [x] _ l _ e1 Hk Hp)|]. intros res m2 b2 e2 [-> HQ]. split; [done|].
  destruct (la_bounds _ _ _ _ _ Hl) as [_ Hb]; [by destruct l|]. rewrite length_app in Hb. simpl length in Hb.
  rewrite (proj2 (Z.ltb_lt _ _)) in HQ.
  - destruct HQ as (-> & HL & HK & _). split; [done|]. split; [by eexists|done].
  - assert (listInitialSeq < listMaxSeq) by done. simpl length. destruct (Z.eqb_spec 0 (len l)); lia.
Qed.

(** The element [x] has gone from [source] to [dest], or an error was reported and nothing has. *)
Definition moved (source dest x : bytes) l l2 db m' (w : wcall) : Prop :=
  (w = writeBulk (Some x) /\ list_rep db m' source l /\ list_rep db m' dest (x :: l2)) \/
  ((exists err, w = writeError (DBError err)) /\ list_rep db m' source (l ++ [x]) /\ (checkKeySize dest = None -> list_rep db m' dest l2)).

Lemma request_rpoplpush c m e cmd source dest x l l2 :
  lowerSlice cmd = str "rpoplpush" -> authEnabled = false \/ c_isAuthed c = true -> source <> dest -> checkKeySize source = None ->
  list_rep (c_db c) m source (l ++ [x]) -> (checkKeySize dest = None -> list_rep (c_db c) m dest l2) ->
  cwp (handleRequest [cmd; source; dest]) (fun r c' m' e' => r = Continue /\ exists w, c_resp c' = c_resp c ++ [w] /\ moved source dest x l l2 (c_db c) m' w) c m e.
Proof using BS.
  intros Hc Ha Hne Hk Hl Hd. apply (cwp_request "rpoplpush" rpoplpushCommand); [reflexivity|done|reflexivity|by apply (bool_decide_unpack _); vm_compute|done|].
  pose proof (short_key _ Hk) as Hs.
  unfold rpoplpushCommand, with_args, source_ttl. cwp_auto. rewrite bool_decide_false by done. cwp_auto. apply cwp_on_db.
  eapply wp_mono; [by apply (RPop_revert (c_db c) source x l m e)|]. intros res m1 b1 e1 (-> & -> & Hl1 & [HT1 _] & -> & Hrev). split; [done|].
  assert (Hd1 : checkKeySize dest = None -> list_rep (c_db c) m1 dest l2).
  { intros Hdk. eapply list_rep_frame; [by apply short_key|exact HT1|by right|auto]. }
  cbn [finish]. unfold push_popped. cwp_auto. apply cwp_on_db. eapply wp_mono; [by apply (LPush_one (c_db c) dest x l2 m1 e)|].
  intros res m2 b2 e2 [-> [(n & -> & Hl2 & [HT2 _])|(n & err & -> & ->)]]; (split; [done|]).
  - cwp_auto. change (negb (-1 =? -1)) with false. cwp_auto. split; [done|]. eexists. split; [done|]. left. split; [done|]. split; [|done].
    eapply list_rep_frame; [done|exact HT2|right; congruence|done].
  - cwp_auto. apply cwp_on_db. eapply wp_mono; [apply Hrev|]. intros [n' err'] m3 b3 e3 (-> & _ & Hl3 & [HT3 _]). split; [done|]. cwp_auto.
    split; [done|]. eexists. split; [done|]. right. split; [by eexists|]. split; [done|].
    intros Hdk. eapply list_rep_frame; [by apply short_key|exact HT3|by right|auto].
Qed.

End Sessions.

(** * Properties *)

(** A value set is the value got, byte for byte.  On a server that accepts writes, for a
    client that may send commands: SET of any key and value of allowed sizes and then GET of
    the key, in any letter case, are answered on the connection by the status OK and the
    value in bulk with its length, and the store has changed at the entry of the key in the
    selected database only. *)
Lemma set_get_wire {B : Backend} {BS : BackendSpec B} {MO : MapOrder} {PK : Packages} {Cfg : AppConfig} {T : ErrorText}
    (c : client) (a : App) (m : gmap bytes bytes) (e : Env) (cmd1 cmd2 key value : bytes) :
  serving (c_db c) a m e -> authEnabled = false \/ c_isAuthed c = true -> lowerSlice cmd1 = str "set" -> lowerSlice cmd2 = str "get" ->
  checkKeySize key = None -> checkValueSize value = None ->
  exists ws c' a', serve [[cmd1; key; value]; [cmd2; key]] (c, a) = (Ret [Continue; Continue], (c', a')) /\
  c_resp c' = c_resp c ++ ws /\
  concat (map resp_bytes ws) = str "+OK" ++ Delims ++ str "$" ++ FormatInt64ToSlice (len value) ++ Delims ++ value ++ Delims /\
  serving (c_db c) a' (<[encodeKVKey (c_db c) key := value]> m) e.
Proof.
  intros Ha Hau H1 H2 Hk Hv. destruct (request_set c m e cmd1 key value H1 Hau Hk Hv a Ha) as (r & c1 & a1 & m1 & e1 & E1 & Ha1 & -> & R1 & D1 & A1 & -> & ->).
  rewrite <- A1 in Hau. destruct (request_get c1 _ e cmd2 key H2 Hau Hk a1 Ha1) as (r & c2 & a2 & m2 & e2 & E2 & Ha2 & -> & R2 & D2 & -> & ->).
  exists [writeStatus OK; writeBulk (Some value)], c2, a2. split; [|split; [|split]].
  - cbn [serve]. unfold mbind, SM_bind. rewrite E1, E2. reflexivity.
  - rewrite R2, R1, D1, lookup_insert_eq, <- app_assoc. reflexivity.
  - cbn [map concat resp_bytes]. rewrite app_nil_r. unfold resp_status, resp_bulk, Itoa. rewrite <- !app_assoc. reflexivity.
  - rewrite D2, D1 in Ha2. exact Ha2.
Qed.

(** C8: RPOPLPUSH loses no element.  From a key that holds a list to another key, the request
    moves the last element in front of the other list and replies with it; or, when the push
    is refused (the other key is too long, or its list has no room in front), it replies with
    the error and both lists are as before, because the pop is taken back, which always has
    room.  (BRPOPLPUSH, which is meant to do the same, loses the element.) *)
Theorem rpoplpush_safe {B : Backend} {BS : BackendSpec B} {MO : MapOrder} {PK : Packages} {Cfg : AppConfig} {T : ErrorText}
    (c : client) (a : App) (m : gmap bytes bytes) (e : Env) (cmd source dest x : bytes) (l l2 : list bytes) :
  serving (c_db c) a m e -> authEnabled = false \/ c_isAuthed c = true -> lowerSlice cmd = str "rpoplpush" ->
  source <> dest -> checkKeySize source = None -> list_rep (c_db c) m source (l ++ [x]) -> (checkKeySize dest = None -> list_rep (c_db c) m dest l2) ->
  exists w s', handleRequest [cmd; source; dest] (c, a) = (Ret Continue, s') /\ c_resp s'.1 = c_resp c ++ [w] /\
  moved source dest x l l2 (c_db c) (contents (ledis s'.2)) w.
Proof.
  intros Ha Hau Hc Hne Hk Hl Hd. destruct (request_rpoplpush c m e cmd source dest x l l2 Hc Hau Hne Hk Hl Hd a Ha) as (r & c' & a' & m' & e' & E & Ha' & -> & w & Hr & Hm).
  exists w, (c', a'). split; [done|]. split; [done|]. destruct Ha' as [_ <- _]. exact Hm.
Qed.

(** * A concrete server *)

#[local] Instance ex_texts : ErrorText := {|
  num_error_text arg _ := str "strconv.ParseInt: parsing " ++ arg ++ str ": invalid syntax";
  db_error_text _ := str "error"
|}.
#[local] Instance ex_packages : Packages := {|
  pk_regexp := {| regexp := bytes; regexp_Compile := inl; regexp_Match _ _ := true |};
  pk_float := ex_floats; pk_sort := ex_sort; pk_rdb := ex_rdb; pk_overflow := ex_overflow
|}.

(** A server without a password and one with the password [secret]. *)
Definition open_cfg : AppConfig := {| AuthPassword := []; AuthMethod := None; Databases := 16 |}.
Definition auth_cfg : AppConfig := {| AuthPassword := str "secret"; AuthMethod := None; Databases := 16 |}.

(** A client on database 0 that no other client helps while it is blocked. *)
Definition ex_client : client (B := MemBackend) := mkClient (B := MemBackend) (setIndex 0) [] [] false [] 0 (fun _ => []).
Definition ex_app (st : St (B := MemBackend)) : App (B := MemBackend) := mkApp (B := MemBackend) st {[ 0 := new_handle ]}.
Definition ex_server (m : gmap bytes bytes) : client (B := MemBackend) * App (B := MemBackend) := (ex_client, ex_app (mem_state m 0)).

Definition words (l : list string) : list bytes := map str l.

(** The outcome and the calls of a session on an empty store. *)
Definition session (cfg : AppConfig) (reqs : list (list bytes)) : outcome (list req_ret) * list wcall :=
  let '(o, s) := serve (B := MemBackend) (Cfg := cfg) reqs (ex_server ∅) in (o, c_resp s.1).

(** A read only server that holds one entry. *)
Definition ex_read_only : client (B := MemBackend) * App (B := MemBackend) :=
  (ex_client, ex_app (mkSt (B := MemBackend) (mkMem {[ [1; 2] := [3] ]} false) true None false [] no_ops env0)).


(** ** Examples *)

Lemma ex_serving (m : gmap bytes bytes) : serving (B := MemBackend) (c_db (ex_server m).1) (ex_server m).2 m (mkEnv 0 0 ∅ []).
Proof.
  split; [|reflexivity|]; [by split; [|split; [|intros x [=]]]|]. exists new_handle. split; [reflexivity|]. by split.
Qed.

Lemma ex_srv_ok (m : gmap bytes bytes) : srv_ok (B := MemBackend) (ex_server m).
Proof.
  split; [split; [reflexivity|]; intros db; constructor|]. intros i h. cbn [ex_server ex_app snd dbs]. rewrite lookup_singleton_Some.
  intros [<- <-]. intros t. destruct t; constructor.
Qed.

Lemma one_reply_witness :
  exists ws, c_resp (serve (B := MemBackend) (Cfg := open_cfg) [words ["ping"]; words ["get"]] (ex_server ∅)).2.1 = [] ++ ws /\ length ws = 2%nat.
Proof.
  assert (E : (serve (B := MemBackend) (Cfg := open_cfg) [words ["ping"]; words ["get"]] (ex_server ∅)).1 = Ret [Continue; Continue]) by (vm_compute; reflexivity).
  destruct (one_reply (B := MemBackend) (Cfg := open_cfg) [words ["ping"]; words ["get"]] (ex_server ∅) _ [Continue; Continue]
    (eq_trans (surjective_pairing _) (f_equal (fun o => (o, _)) E))) as (ws & H1 & H2 & _). exists ws. split; [exact H1|exact H2].
Defined.

Lemma request_contained_witness :
  store (handleRequest (B := MemBackend) (Cfg := open_cfg) (words ["select"; "3"]) (ex_server ex_other)).2 !! [1; 2] = Some [3].
Proof.
  assert (Hc : c_cmd (handleRequest (B := MemBackend) (Cfg := open_cfg) (words ["select"; "3"]) (ex_server ex_other)).2.1 <> str "flushall") by (vm_compute; discriminate).
  pose proof (co_store _ _ _ (request_contained (B := MemBackend) (Cfg := open_cfg) (words ["select"; "3"]) (ex_server ex_other) (ex_srv_ok _) Hc) [1; 2]) as H.
  rewrite (H ltac:(vm_compute; intros [x Hx]; discriminate Hx)). reflexivity.
Defined.

Lemma refused_request_witness :
  ledis (handleRequest (B := MemBackend) (Cfg := open_cfg) (words ["set"; "k"]) (ex_server ex_other)).2.2 = mem_state ex_other 0.
Proof.
  assert (E : (handleRequest (B := MemBackend) (Cfg := open_cfg) (words ["set"; "k"]) (ex_server ex_other)).1 = Ret Continue) by (vm_compute; reflexivity).
  assert (Er : c_resp (handleRequest (B := MemBackend) (Cfg := open_cfg) (words ["set"; "k"]) (ex_server ex_other)).2.1 = [writeError ErrCmdParams]) by (vm_compute; reflexivity).
  assert (Ec : c_cmd (handleRequest (B := MemBackend) (Cfg := open_cfg) (words ["set"; "k"]) (ex_server ex_other)).2.1 <> str "brpoplpush") by (vm_compute; discriminate).
  exact (refused_request (B := MemBackend) (Cfg := open_cfg) (words ["set"; "k"]) (ex_server ex_other) _ ErrCmdParams
    (eq_trans (surjective_pairing _) (f_equal (fun o => (o, _)) E)) Er eq_refl Ec).
Defined.

Lemma unauthenticated_witness :
  authEnabled (Cfg := auth_cfg) = true /\
  ledis (serve (B := MemBackend) (Cfg := auth_cfg) [words ["auth"; "guess"]; words ["xselect"; "1"; "then"; "del"; "k"]; words ["flushall"]] (ex_server ex_other)).2.2
  = mem_state ex_other 0.
Proof.
  split; [reflexivity|].
  refine (proj1 (proj2 (proj2 (unauthenticated (B := MemBackend) (Cfg := auth_cfg) [words ["auth"; "guess"]; words ["xselect"; "1"; "then"; "del"; "k"]; words ["flushall"]]
    ex_client (ex_app (mem_state ex_other 0)) (ex_app (mem_state ex_other 0)) eq_refl eq_refl _)))).
  repeat constructor.
Defined.

Lemma set_get_wire_witness :
  exists ws c' a', serve (B := MemBackend) (Cfg := open_cfg) [words ["SET"; "k"; "v"]; words ["Get"; "k"]] (ex_server ex_other) = (Ret [Continue; Continue], (c', a')) /\
  c_resp c' = [] ++ ws /\ concat (map resp_bytes ws) = str "+OK" ++ Delims ++ str "$1" ++ Delims ++ str "v" ++ Delims.
Proof.
  destruct (set_get_wire (B := MemBackend) (Cfg := open_cfg) ex_client (ex_server ex_other).2 ex_other (mkEnv 0 0 ∅ []) (str "SET") (str "Get") (str "k") (str "v")
    (ex_serving _) ltac:(left; reflexivity) ltac:(reflexivity) ltac:(reflexivity) ltac:(reflexivity) ltac:(reflexivity)) as (ws & c' & a' & H1 & H2 & H3 & _).
  exists ws, c', a'. split; [exact H1|]. split; [exact H2|]. rewrite H3. reflexivity.
Defined.

Lemma rpoplpush_safe_witness :
  exists w s', handleRequest (B := MemBackend) (Cfg := open_cfg) [str "RPOPLPUSH"; [107]; [108]] (ex_server ex_list) = (Ret Continue, s') /\
  moved [107] [108] [98] [[97]] [] db0 (contents (ledis s'.2)) w.
Proof.
  destruct (rpoplpush_safe (B := MemBackend) (Cfg := open_cfg) ex_client (ex_server ex_list).2 ex_list (mkEnv 0 0 ∅ []) (str "RPOPLPUSH") [107] [108] [98] [[97]] []
    (ex_serving _) ltac:(left; reflexivity) ltac:(reflexivity) ltac:(discriminate) ltac:(reflexivity) ltac:(eexists; exact ex_list_at)
    ltac:(intros _; eapply (list_rep_frame db0 ∅); [reflexivity|apply ex_list_keeps|right; discriminate|apply list_rep_empty])) as (w & s' & H1 & _ & H3).
  exists w, s'. split; [exact H1|exact H3].
Defined.
