(* ===== verification/Conn.v ===== *)
(** * Connections (src/server/client_resp.go, src/vendor/github.com/siddontang/goredis/resp.go)

    The loop of a client's connection: the requests are parsed from the bytes that arrive and
    handled one after the other until one cannot be parsed, ends the connection or panics.
    [WriteCommand] is how a client sends a command.  The results: what a client sends is
    parsed as it was sent, so that a session over a connection is the session of its
    commands; and whatever bytes arrive, the loop ends, and has done nothing but handle some
    requests. *)

From S2P Require Import Prelude SortPkg Float Driver Store Keys Util Core KV TList THash TSet TZSet Migrate Sort Scan Flush System Client Commands Server Refuse Session.

(** ** The reader of requests *)

(** The size of the buffer of the connection ([ConnReadBufferSize], of which bufio makes at
    least 16), and how many bytes [make] can allocate. *)
Class ReaderConfig := { bufSize : Z; maxAlloc : Z }.

Inductive read_error := EOF | ErrUnexpectedEOF | RespError (text : bytes).

Section Reader.
Context {RC : ReaderConfig}.

(** The bytes before the first newline and those after it. *)
Fixpoint split_line (b : bytes) : option (bytes * bytes) :=
  match b with
  | [] => None
  | x :: b => if x =? 10 then Some ([], b) else match split_line b with Some (l, rest) => Some (x :: l, rest) | None => None end
  end.

(** [br.ReadSlice('\n')], without the newline. *)
Definition ReadSlice (b : bytes) : bytes * bytes + option read_error :=
  match split_line b with
  | Some (l, rest) => if len l <? bufSize then inl (l, rest) else inr None
  | None => if len b >=? bufSize then inr None else inr (Some EOF)
  end.

Definition readLine (b : bytes) : bytes * bytes + read_error :=
  match ReadSlice b with
  | inr None => inr (RespError (str "long resp line"))
  | inr (Some err) => inr err
  | inl (p, rest) =>
      let i := len p - 1 in
      if (i <? 0) || negb (bool_decide (p !! Z.to_nat i = Some 13)) then inr (RespError (str "bad resp line terminator"))
      else inl (take (Z.to_nat i) p, rest)
  end.

Fixpoint parseLen_loop (n : Z) (p : bytes) : Z + read_error :=
  match p with
  | [] => inl n
  | b :: p =>
      let n := int64 (n * 10) in
      if (b <? 48) || (b >? 57) then inr (RespError (str "illegal bytes in length"))
      else parseLen_loop (int64 (n + (b - 48))) p
  end.

Definition parseLen (p : bytes) : Z + read_error :=
  match p with
  | [] => inr (RespError (str "malformed length"))
  | [45; 49] => inl (-1)
  | _ => parseLen_loop 0 p
  end.

(** [io.ReadFull] *)
Definition ReadFull (n : Z) (b : bytes) : bytes * bytes + read_error :=
  if n <=? len b then inl (take (Z.to_nat n) b, drop (Z.to_nat n) b)
  else inr (match b with [] => EOF | _ => ErrUnexpectedEOF end).

(** The bytes of a bulk string of [n] bytes; [make] panics on a length it cannot allocate. *)
Definition bulk_body (n : Z) (b : bytes) : outcome (option bytes * bytes + read_error) :=
  if n >? maxAlloc then Panic
  else Ret (match ReadFull n b with
  | inr err => inr err
  | inl (p, b) =>
      match readLine b with
      | inr err => inr err
      | inl ([], b) => inl (Some p, b)
      | inl _ => inr (RespError (str "bad bulk string format"))
      end
  end).

Definition parseBulk (b : bytes) : outcome (option bytes * bytes + read_error) :=
  match readLine b with
  | inr err => Ret (inr err)
  | inl ([], _) => Ret (inr (RespError (str "short resp line")))
  | inl (36 :: p, b) =>
      match parseLen p with
      | inr err => Ret (inr err)
      | inl n => if n <? 0 then Ret (inl (None, b)) else bulk_body n b
      end
  | inl (x :: _, _) => Ret (inr (RespError (str "not invalid bulk string type, but " ++ [x])))
  end.

Fixpoint parse_bulks (n : nat) (b : bytes) : outcome (list (option bytes) * bytes + read_error) :=
  match n with
  | O => Ret (inl ([], b))
  | S n =>
      match parseBulk b with
      | Panic => Panic
      | Ret (inr err) => Ret (inr err)
      | Ret (inl (r, b)) =>
          match parse_bulks n b with
          | Ret (inl (rs, b)) => Ret (inl (r :: rs, b))
          | o => o
          end
      end
  end.

(** The slice headers of the array take 24 bytes each. *)
Definition ParseRequest (b : bytes) : outcome (list (option bytes) * bytes + read_error) :=
  match readLine b with
  | inr err => Ret (inr err)
  | inl ([], _) => Ret (inr (RespError (str "short resp line")))
  | inl (42 :: p, b) =>
      match parseLen p with
      | inr err => Ret (inr err)
      | inl n =>
          if n <? 0 then Ret (inl ([], b))
          else if 24 * n >? maxAlloc then Panic
          else parse_bulks (Z.to_nat n) b
      end
  | inl (x :: _, _) => Ret (inr (RespError (str "not invalid array of bulk string type, but " ++ [x])))
  end.
End Reader.

(** ** The writer of commands *)

(** [writeInteger]: small numbers from a table, negative ones are not in it. *)
Definition resp_writeInteger (n : Z) : outcome bytes := if n <? 0 then Panic else Ret (FormatInt64ToSlice n).

Definition respTerm : bytes := [13; 10].

(** [WriteBulk] of a slice that is not nil, and [writeBulkString]. *)
Definition writeBulkString (s : bytes) : outcome bytes :=
  match resp_writeInteger (len s) with
  | Panic => Panic
  | Ret n => Ret (36 :: n ++ respTerm ++ s ++ respTerm)
  end.

Fixpoint write_args (args : list bytes) : outcome bytes :=
  match args with
  | [] => Ret []
  | arg :: args =>
      match writeBulkString arg, write_args args with
      | Ret x, Ret y => Ret (x ++ y)
      | _, _ => Panic
      end
  end.

(** The bytes that [WriteCommand] flushes, the arguments being slices or strings. *)
Definition WriteCommand (cmd : bytes) (args : list bytes) : outcome bytes :=
  match resp_writeInteger (1 + len args), write_args (cmd :: args) with
  | Ret n, Ret x => Ret (42 :: n ++ respTerm ++ x)
  | _, _ => Panic
  end.

(** ** The loop of a connection *)

(** How a connection ends: by an error of the reader, by a request, or not while a blocking
    pop waits. *)
Inductive conn_end := EndError (err : read_error) | EndRequest (shutdown : bool) | EndWaiting | OutOfFuel.

Section Run.
Context {B : Backend} {MO : MapOrder} {PK : Packages} {Cfg : AppConfig} {T : ErrorText} {RC : ReaderConfig}.

(** [b] are the bytes that arrive until the connection is closed or times out.  A nil
    argument (the bulk string of length -1) is passed on as an empty one; of the commands only
    ECHO, which would reply nil, tells them apart.  A panic, which [run] recovers from, closes the
    connection. *)
Fixpoint run_loop (fuel : nat) (b : bytes) : CM conn_end :=
  match fuel with
  | O => mret OutOfFuel
  | S fuel =>
      _ ← set_client (with_cmd [] []);
      reqData ← c_lift (ParseRequest b);
      match reqData with
      | inr err => mret (EndError err)
      | inl (reqData, b) =>
          r ← handleRequest (map (default []) reqData);
          match r with
          | Continue => run_loop fuel b
          | Blocked => mret EndWaiting
          | Closed shutdown => mret (EndRequest shutdown)
          end
      end
  end.

(** Every request takes at least a byte. *)
Definition run (b : bytes) : CM conn_end := run_loop (S (length b)) b.
End Run.

(** * What is written is read *)

Section Wire.
Context {RC : ReaderConfig}.

Lemma split_line_app (l rest : bytes) : 10 ∉ l -> split_line (l ++ 10 :: rest) = Some (l, rest).
Proof.
  induction l as [|x l IH]; intros Hl; [done|]. apply not_elem_of_cons in Hl as [Hx Hl]. cbn [app split_line].
  rewrite (proj2 (Z.eqb_neq x 10)) by done. by rewrite IH.
Qed.

Lemma readLine_ok (l rest : bytes) : 10 ∉ l -> len l + 1 < bufSize -> readLine (l ++ respTerm ++ rest) = inl (l, rest).
Proof.
  intros Hl Hs. unfold readLine, ReadSlice, respTerm. replace (l ++ [13; 10] ++ rest) with ((l ++ [13]) ++ 10 :: rest) by by rewrite <- app_assoc.
  rewrite split_line_app by set_solver. assert (E : len (l ++ [13]) = len l + 1) by (rewrite length_app; cbn [length]; lia). rewrite E.
  rewrite (proj2 (Z.ltb_lt (len l + 1) bufSize)) by lia. cbv zeta. rewrite E, (proj2 (Z.ltb_ge (len l + 1 - 1) 0)) by lia. replace (Z.to_nat (len l + 1 - 1)) with (length l) by lia.
  rewrite lookup_app_r, Nat.sub_diag by lia. cbn [lookup list_lookup]. rewrite bool_decide_true by done. cbn [negb orb]. by rewrite take_app_length.
Qed.

Lemma parseLen_loop_app (n : Z) (a b : bytes) : parseLen_loop n (a ++ b) = match parseLen_loop n a with inl m => parseLen_loop m b | inr err => inr err end.
Proof. revert n. induction a as [|x a IH]; intros n; [done|]. cbn [app parseLen_loop]. destruct (_ || _); [done|]. apply IH. Qed.

Lemma format_digits_range (f : nat) (n : Z) : 0 <= n -> Forall (fun x => 48 <= x <= 57) (format_digits f n) /\ (length (format_digits f n) <= f)%nat.
Proof.
  revert n. induction f as [|f IH]; intros n Hn; [by split|]. rewrite format_digits_S. destruct (n <? 10) eqn:E; zify_bool.
  - split; [|cbn; lia]. constructor; [lia|done].
  - destruct (IH (n / 10)) as [H1 H2]; [apply Z.div_pos; lia|]. pose proof (Z.mod_pos_bound n 10 ltac:(lia)). split.
    + apply Forall_app. split; [done|]. constructor; [lia|done].
    + rewrite length_app. cbn [length]. lia.
Qed.

Lemma parseLen_digits (f : nat) (n : Z) : 0 <= n < 2 ^ 63 -> n < 10 ^ Z.of_nat (S f) -> parseLen_loop 0 (format_digits (S f) n) = inl n.
Proof.
  revert n. induction f as [|f IH]; intros n Hn Hf; rewrite format_digits_S; destruct (n <? 10) eqn:E; zify_bool; try (change (10 ^ Z.of_nat 1) with 10 in Hf; lia).
  1, 2: cbn [parseLen_loop]; destruct (_ || _) eqn:E'; [apply orb_true_iff in E'; zify_bool; lia|]; f_equal; change (int64 (0 * 10)) with 0; replace (0 + (48 + n - 48)) with n by lia; apply int64_small; unfold in_i64; lia.
  pose proof (Z.div_mod n 10 ltac:(lia)). pose proof (Z.mod_pos_bound n 10 ltac:(lia)). rewrite (Nat2Z.inj_succ (S f)), Z.pow_succ_r in Hf by lia.
  rewrite parseLen_loop_app, IH by lia. cbn [parseLen_loop]. destruct (_ || _) eqn:E'; [apply orb_true_iff in E'; zify_bool; lia|]. f_equal.
  rewrite (int64_small (n / 10 * 10)) by (unfold in_i64; lia). rewrite int64_small by (unfold in_i64; lia). lia.
Qed.

Lemma parseLen_head (c : Z) (s : bytes) : c <> 45 -> parseLen (c :: s) = parseLen_loop 0 (c :: s).
Proof. intros Hc. unfold parseLen. destruct c as [|p|p]; try done. do 6 (destruct p as [p|p|]; try done). Qed.

(** A number that was written as a line. *)
Lemma parseLen_written (n : Z) : 0 <= n < 2 ^ 63 -> parseLen (FormatInt64ToSlice n) = inl n /\ 10 ∉ FormatInt64ToSlice n /\ len (FormatInt64ToSlice n) <= 20.
Proof.
  intros Hn. unfold FormatInt64ToSlice. rewrite (proj2 (Z.ltb_ge n 0)) by lia. destruct (format_digits_range 20 n) as [HF Hl]; [lia|].
  pose proof (parseLen_digits 19 n Hn) as Hp. specialize (Hp ltac:(change (10 ^ Z.of_nat 20) with 100000000000000000000; lia)).
  destruct (ParseUint_format n) as (_ & c & s & E & Hc); [lia|]. split; [|split; [|lia]].
  - rewrite E in *. rewrite parseLen_head by lia. exact Hp.
  - intros Hin. rewrite Forall_forall in HF. specialize (HF _ Hin). lia.
Qed.
End Wire.

(** A buffer for the line of any length, and allocations of less than 2^63 bytes. *)
Class ReaderSpec (RC : ReaderConfig) : Prop := { line_fits : 22 < bufSize; alloc_range : maxAlloc < 2 ^ 63 }.

(** The command can be allocated by the reader. *)
Definition sent_ok {RC : ReaderConfig} (cmd : list bytes) : Prop := 24 * len cmd <= maxAlloc /\ Forall (fun x => len x <= maxAlloc) cmd.

Section Roundtrip.
Context {RC : ReaderConfig} {RS : ReaderSpec RC}.

Lemma writeBulkString_run (s : bytes) : writeBulkString s = Ret ((36 :: FormatInt64ToSlice (len s)) ++ respTerm ++ s ++ respTerm).
Proof. unfold writeBulkString, resp_writeInteger. by rewrite (proj2 (Z.ltb_ge (len s) 0)) by lia. Qed.

(** The line of a type and a length. *)
Lemma read_head (x n : Z) (rest : bytes) : x <> 10 -> 0 <= n < 2 ^ 63 -> readLine ((x :: FormatInt64ToSlice n) ++ respTerm ++ rest) = inl (x :: FormatInt64ToSlice n, rest).
Proof using RS.
  intros Hx Hn. destruct (parseLen_written n Hn) as (_ & H1 & H2). pose proof line_fits. apply readLine_ok; [set_solver|]. cbn [length]. lia.
Qed.

Lemma parseBulk_written (s rest : bytes) : len s <= maxAlloc -> parseBulk ((36 :: FormatInt64ToSlice (len s)) ++ respTerm ++ s ++ respTerm ++ rest) = Ret (inl (Some s, rest)).
Proof using RS.
  intros Hs. pose proof alloc_range. pose proof line_fits. unfold parseBulk. rewrite read_head by lia. destruct (parseLen_written (len s)) as (-> & _); [lia|].
  rewrite (proj2 (Z.ltb_ge (len s) 0)) by lia. unfold bulk_body, ReadFull. destruct (len s >? maxAlloc) eqn:E; zify_bool; [lia|]. rewrite (proj2 (Z.leb_le _ _)) by (rewrite length_app; lia).
  rewrite Nat2Z.id, take_app_length, drop_app_length. pose proof (readLine_ok [] rest ltac:(set_solver)) as Hr. cbn [app] in *. by rewrite Hr by (cbn; lia).
Qed.

Lemma parse_bulks_written (args : list bytes) (rest : bytes) : Forall (fun x => len x <= maxAlloc) args ->
  exists b, write_args args = Ret b /\ parse_bulks (length args) (b ++ rest) = Ret (inl (map Some args, rest)).
Proof using RS.
  induction 1 as [|s args Hs HF IH]; [by exists []|]. destruct IH as (b & E1 & E2). cbn [write_args]. rewrite writeBulkString_run, E1. eexists. split; [reflexivity|].
  cbn [length parse_bulks map]. rewrite <- !(assoc_L (++)). rewrite parseBulk_written by done. by rewrite E2.
Qed.

Lemma request_written (cmd : bytes) (args : list bytes) : sent_ok (cmd :: args) ->
  exists b, WriteCommand cmd args = Ret b /\ b <> [] /\ forall rest, ParseRequest (b ++ rest) = Ret (inl (map Some (cmd :: args), rest)).
Proof using RS.
  intros [H1 H2]. pose proof alloc_range. destruct (parse_bulks_written (cmd :: args) [] H2) as (b & E1 & _). unfold WriteCommand, resp_writeInteger.
  rewrite E1. rewrite (proj2 (Z.ltb_ge (1 + len args) 0)) by lia. eexists. split; [reflexivity|]. split; [done|]. intros rest.
  destruct (parse_bulks_written (cmd :: args) rest H2) as (b' & E1' & E2). rewrite E1 in E1'. injection E1' as <-. cbn [length] in *.
  replace ((42 :: FormatInt64ToSlice (1 + len args) ++ respTerm ++ b) ++ rest) with ((42 :: FormatInt64ToSlice (1 + len args)) ++ respTerm ++ b ++ rest) by (cbn [app]; by rewrite <- !(assoc_L (++))).
  unfold ParseRequest. rewrite read_head by lia. destruct (parseLen_written (1 + len args)) as (-> & _); [lia|]. rewrite (proj2 (Z.ltb_ge (1 + len args) 0)) by lia.
  destruct (24 * (1 + len args) >? maxAlloc) eqn:E; zify_bool; [lia|]. replace (Z.to_nat (1 + len args)) with (S (length args)) by lia. exact E2.
Qed.
End Roundtrip.

(** * The requests of a connection *)

Section Requests.
Context {RC : ReaderConfig}.

(** [x] is a part of [b]. *)
Definition part_of (x b : bytes) : Prop := exists u v, b = u ++ x ++ v.

(** [b'] is what remains of [b]. *)
Definition rest_of (b' b : bytes) : Prop := exists u, b = u ++ b'.

Lemma part_nil (b : bytes) : part_of [] b.
Proof. by exists [], b. Qed.

Lemma part_rest (x b' b : bytes) : part_of x b' -> rest_of b' b -> part_of x b.
Proof. intros (u & v & ->) [w ->]. exists (w ++ u), v. by rewrite <- !(assoc_L (++)). Qed.

Lemma rest_trans (b1 b2 b3 : bytes) : rest_of b1 b2 -> rest_of b2 b3 -> rest_of b1 b3.
Proof. intros [u ->] [v ->]. exists (v ++ u). by rewrite <- (assoc_L (++)). Qed.

Lemma rest_length (b' b : bytes) : rest_of b' b -> (length b' <= length b)%nat.
Proof. intros [u ->]. rewrite length_app. lia. Qed.

Lemma split_line_rest (b l rest : bytes) : split_line b = Some (l, rest) -> b = l ++ 10 :: rest.
Proof.
  revert l. induction b as [|x b IH]; intros l; [done|]. cbn [split_line]. destruct (x =? 10) eqn:E; zify_bool; [by intros [= <- <-]; rewrite E|].
  destruct (split_line b) as [[l' r]|]; [|done]. intros [= <- <-]. by rewrite (IH l').
Qed.

Lemma readLine_rest (b l rest : bytes) : readLine b = inl (l, rest) -> rest_of rest b /\ (length rest < length b)%nat.
Proof.
  unfold readLine, ReadSlice. destruct (split_line b) as [[p r]|] eqn:E; [|by destruct (_ >=? _)]. apply split_line_rest in E. destruct (_ <? bufSize); [|done].
  cbv zeta. destruct (_ || _); [done|]. intros [= _ <-]. rewrite E. split; [exists (p ++ [10]); by rewrite <- (assoc_L (++))|]. rewrite length_app. cbn [length]. lia.
Qed.

Lemma bulk_body_rest (n : Z) (b rest : bytes) (x : option bytes) : bulk_body n b = Ret (inl (x, rest)) -> rest_of rest b /\ part_of (default [] x) b.
Proof.
  unfold bulk_body. destruct (n >? maxAlloc); [done|]. unfold ReadFull. destruct (n <=? len b); [|done]. destruct (readLine _) as [[[|y l] r]|] eqn:E; [|done..]. intros [= <- <-].
  apply readLine_rest in E as [E _]. split; [apply (rest_trans _ _ _ E); exists (take (Z.to_nat n) b); by rewrite take_drop|].
  exists [], (drop (Z.to_nat n) b). symmetry. apply take_drop.
Qed.

Lemma parseBulk_rest (b rest : bytes) (x : option bytes) : parseBulk b = Ret (inl (x, rest)) -> rest_of rest b /\ part_of (default [] x) b.
Proof.
  unfold parseBulk. destruct (readLine b) as [[[|y p] b1]|] eqn:E; [done| |done]. apply readLine_rest in E as [E _]. intros H.
  assert (Hc : (exists n, bulk_body n b1 = Ret (inl (x, rest))) \/ x = None /\ rest = b1).
  { destruct (decide (y = 36)) as [->|Hy]; [|by repeat case_match; simplify_eq]. destruct (parseLen p) as [n|]; [|done]. destruct (n <? 0); [by simplify_eq; right|]. by left; exists n. }
  destruct Hc as [[n Hn]|[-> ->]]; [|split; [done|apply part_nil]]. apply bulk_body_rest in Hn as [H1 H2]. split; [by eapply rest_trans|by eapply part_rest].
Qed.

Lemma parse_bulks_rest (n : nat) (b rest : bytes) (l : list (option bytes)) : parse_bulks n b = Ret (inl (l, rest)) ->
  rest_of rest b /\ Forall (fun x => part_of (default [] x) b) l.
Proof.
  revert b l. induction n as [|n IH]; intros b l; cbn [parse_bulks]; [intros [= <- <-]; split; [by exists []|constructor]|].
  destruct (parseBulk b) as [[[x b1]|]|] eqn:E; [|done..]. apply parseBulk_rest in E as [E1 E2]. destruct (parse_bulks n b1) as [[[xs b2]|]|] eqn:E; try done. intros [= <- <-].
  apply IH in E as [E3 E4]. split; [by eapply rest_trans|]. constructor; [done|]. eapply Forall_impl; [exact E4|]. intros y Hy. exact (part_rest _ _ _ Hy E1).
Qed.

(** A request takes at least a byte, and its arguments are parts of what was sent. *)
Lemma request_rest (b rest : bytes) (l : list (option bytes)) : ParseRequest b = Ret (inl (l, rest)) ->
  rest_of rest b /\ (length rest < length b)%nat /\ Forall (fun x => part_of x b) (map (default []) l).
Proof.
  unfold ParseRequest. destruct (readLine b) as [[[|y p] b1]|] eqn:E; [done| |done]. apply readLine_rest in E as [E El]. intros H.
  assert (Hc : (exists n, parse_bulks n b1 = Ret (inl (l, rest))) \/ l = [] /\ rest = b1).
  { destruct (decide (y = 42)) as [->|Hy]; [|by repeat case_match; simplify_eq]. destruct (parseLen p) as [n|]; [|done]. destruct (n <? 0); [by simplify_eq; right|].
    destruct (24 * n >? maxAlloc); [done|]. by left; exists (Z.to_nat n). }
  destruct Hc as [[n Hn]|[-> ->]]; [|by repeat split]. apply parse_bulks_rest in Hn as [H1 H2]. split; [by eapply rest_trans|]. split; [pose proof (rest_length _ _ H1); lia|].
  apply Forall_map. eapply Forall_impl; [exact H2|]. intros x Hx. exact (part_rest _ _ _ Hx E).
Qed.

(** The requests that are parsed from [b], and how the parser ends. *)
Fixpoint requests (fuel : nat) (b : bytes) : list (list bytes) * outcome read_error :=
  match fuel with
  | O => ([], Panic)
  | S fuel =>
      match ParseRequest b with
      | Panic => ([], Panic)
      | Ret (inr err) => ([], Ret err)
      | Ret (inl (req, b)) => let '(reqs, e) := requests fuel b in (map (default []) req :: reqs, e)
      end
  end.

Lemma requests_parts (fuel : nat) (b : bytes) : Forall (Forall (fun x => part_of x b)) (requests fuel b).1.
Proof.
  revert b. induction fuel as [|fuel IH]; intros b; cbn [requests]; [done|]. destruct (ParseRequest b) as [[[req b1]|]|] eqn:E; [|done..].
  apply request_rest in E as (E1 & _ & E2). specialize (IH b1). destruct (requests fuel b1) as [reqs e]. constructor; [done|].
  eapply Forall_impl; [exact IH|]. intros r Hr. eapply Forall_impl; [exact Hr|]. intros x Hx. exact (part_rest _ _ _ Hx E1).
Qed.
End Requests.

Section Sessions.
Context {B : Backend} {MO : MapOrder} {PK : Packages} {Cfg : AppConfig} {T : ErrorText} {RC : ReaderConfig}.

(** What the loop makes of the results of the requests and the end of the parser. *)
Definition conn_result (e : outcome read_error) (r : outcome (list req_ret) * (client * App)) : outcome conn_end * (client * App) :=
  match r with
  | (Panic, s) => (Panic, s)
  | (Ret rs, s) =>
      match last rs with
      | Some Blocked => (Ret EndWaiting, s)
      | Some (Closed shutdown) => (Ret (EndRequest shutdown), s)
      | _ => (match e with Panic => Panic | Ret err => Ret (EndError err) end, (with_cmd [] [] s.1, s.2))
      end
  end.

Lemma handle_cleared (req : list bytes) (s : client * App) : handleRequest req (with_cmd [] [] s.1, s.2) = handleRequest req s.
Proof. destruct s as [c a]. unfold handleRequest, mbind, SM_bind, set_client. cbn [fst snd]. by destruct req. Qed.

Lemma conn_result_cons (e : outcome read_error) (o : outcome (list req_ret)) (s : client * App) :
  conn_result e (match o with Ret rs => Ret (Continue :: rs) | Panic => Panic end, s) = conn_result e (o, s).
Proof. destruct o as [rs|]; [|done]. unfold conn_result. rewrite last_cons. by destruct (last rs). Qed.

(** The loop of a connection serves the requests that are parsed from its bytes. *)
Lemma run_requests (fuel : nat) (b : bytes) (s : client * App) : (length b < fuel)%nat ->
  run_loop fuel b s = conn_result (requests fuel b).2 (serve (requests fuel b).1 s).
Proof.
  revert b s. induction fuel as [|fuel IH]; intros b s Hf; [lia|]. cbn [run_loop requests]. unfold mbind at 1, SM_bind at 1, set_client at 1.
  unfold mbind at 1, SM_bind at 1, c_lift. destruct (ParseRequest b) as [[[req b1]|err]|] eqn:E; [|done..]. apply request_rest in E as (_ & Hl & _).
  specialize (IH b1). destruct (requests fuel b1) as [reqs e]. cbn [fst snd serve] in *. unfold mbind, SM_bind. rewrite handle_cleared.
  destruct (handleRequest _ s) as [[[| |sd]|] s1]; try done. rewrite IH by lia. symmetry. unfold mret, SM_ret. destruct (serve reqs s1) as [[rs|] s2]; [|done]. apply (conn_result_cons e (Ret rs)).
Qed.
End Sessions.

(** The bytes of a client that sends the commands one after the other. *)
Fixpoint write_all (cmds : list (bytes * list bytes)) : outcome bytes :=
  match cmds with
  | [] => Ret []
  | (cmd, args) :: cmds =>
      match WriteCommand cmd args, write_all cmds with
      | Ret x, Ret y => Ret (x ++ y)
      | _, _ => Panic
      end
  end.

Definition request_of (x : bytes * list bytes) : list bytes := x.1 :: x.2.

Lemma default_some (l : list bytes) : map (default []) (map Some l) = l.
Proof. induction l as [|x l IH]; [done|]. cbn [map]. by rewrite IH. Qed.

Lemma requests_written {RC : ReaderConfig} {RS : ReaderSpec RC} (cmds : list (bytes * list bytes)) : Forall sent_ok (map request_of cmds) ->
  exists b, write_all cmds = Ret b /\ (length cmds <= length b)%nat /\ forall fuel, (length cmds < fuel)%nat -> requests fuel b = (map request_of cmds, Ret EOF).
Proof.
  intros HF. pose proof line_fits as Hbuf. induction cmds as [|[cmd args] cmds IH].
  { exists []. split; [done|]. split; [done|]. intros [|fuel] Hf; [cbn in Hf; lia|]. cbn [requests]. unfold ParseRequest, readLine, ReadSlice. cbn [split_line].
    destruct (len [] >=? bufSize) eqn:E; [|done]. zify_bool. cbn in E. lia. }
  cbn [map] in HF. apply Forall_cons in HF as [H1 HF]. destruct (IH HF) as (b & E & Hl & Hr). destruct (request_written cmd args H1) as (x & Ex & Hx & Hp).
  exists (x ++ b). cbn [write_all]. rewrite Ex, E. split; [done|]. split; [rewrite length_app; destruct x; [done|]; cbn [length]; lia|].
  intros [|fuel] Hf; cbn [length] in Hf; [lia|]. cbn [requests]. rewrite Hp, default_some, Hr by lia. done.
Qed.

(** C7: a session over a connection is the session of its commands.  The bytes that a client
    writes for its commands are parsed by the server as these commands; it handles them one
    after the other as [serve] does, until the connection ends or a request ends it; and from
    the bytes of the replies the client reads one reply for each command that is answered, in
    order, unless a text contains a carriage return. *)
Theorem wire_session {B : Backend} {MO : MapOrder} {PK : Packages} {Cfg : AppConfig} {T : ErrorText} {RC : ReaderConfig} {RS : ReaderSpec RC}
    (cmds : list (bytes * list bytes)) (s : client * App) :
  Forall sent_ok (map request_of cmds) ->
  exists b, write_all cmds = Ret b /\ run b s = conn_result (Ret EOF) (serve (map request_of cmds) s) /\
  forall rs s', serve (map request_of cmds) s = (Ret rs, s') ->
    exists ws, c_resp (run b s).2.1 = c_resp s.1 ++ ws /\ length ws = list_sum (map answered rs) /\
    (Forall sendable ws -> read_replies (length ws) (concat (map resp_bytes ws)) = Some (map reply_of ws)).
Proof.
  intros HF. destruct (requests_written cmds HF) as (b & Eb & Hl & Hr). exists b. split; [done|].
  assert (E : run b s = conn_result (Ret EOF) (serve (map request_of cmds) s)) by (unfold run; rewrite run_requests, Hr by lia; done).
  split; [done|]. intros rs s' Es. rewrite E, Es. destruct (one_reply _ _ _ _ Es) as (ws & Hw & H). exists ws. split; [|done].
  unfold conn_result. destruct (last rs) as [[]|]; exact Hw.
Qed.


(** C6: authentication guards the server against any bytes.  When a password or an
    authentication function is configured and no part of the bytes that a client sends is
    accepted as one, the connection ends the same way with the same replies on any two
    servers, and the store, the log and the rest of the database layer stay as they are. *)
Theorem wire_unauthenticated {B : Backend} {MO : MapOrder} {PK : Packages} {Cfg : AppConfig} {T : ErrorText} {RC : ReaderConfig}
    (b : bytes) (c : client) (a1 a2 : App) :
  authEnabled = true -> c_isAuthed c = false -> (forall x, part_of x b -> accepts x = false) ->
  (run b (c, a1)).1 = (run b (c, a2)).1 /\ (run b (c, a1)).2.1 = (run b (c, a2)).2.1 /\
  ledis (run b (c, a1)).2.2 = ledis a1 /\ c_isAuthed (run b (c, a1)).2.1 = false.
Proof.
  intros He Ha Hb. unfold run. rewrite !run_requests by lia. set (reqs := (requests _ b).1).
  destruct (unauthenticated reqs c a1 a2 He Ha) as (H1 & H2 & H3 & H4).
  { eapply Forall_impl; [apply requests_parts|]. intros r Hr. eapply Forall_impl; [exact Hr|]. exact Hb. }
  destruct (serve reqs (c, a1)) as [o1 [c1 b1]], (serve reqs (c, a2)) as [o2 [c2 b2]]. cbn [fst snd] in *. subst o2 c2.
  unfold conn_result. destruct o1 as [rs|]; [|done]. by destruct (last rs) as [[]|].
Qed.

(** * Concrete connections *)

#[local] Instance ex_texts : ErrorText := {|
  num_error_text arg _ := str "strconv.ParseInt: parsing " ++ arg ++ str ": invalid syntax";
  db_error_text _ := str "error"
|}.
#[local] Instance ex_packages : Packages := {|
  pk_regexp := {| regexp := bytes; regexp_Compile := inl; regexp_Match _ _ := true |};
  pk_float := ex_floats; pk_sort := ex_sort; pk_rdb := ex_rdb; pk_overflow := ex_overflow
|}.

(** The default buffer of 4 KB. *)
#[local] Instance ex_reader : ReaderConfig := {| bufSize := 4096; maxAlloc := 2 ^ 40 |}.
#[local] Instance ex_reader_spec : ReaderSpec ex_reader.
Proof. split; cbn; lia. Qed.

Definition ex_commands : list (bytes * list bytes) := [(str "set", words ["k"; "v"]); (str "get", words ["k"])].
Definition ex_wire : bytes := match write_all ex_commands with Ret b => b | Panic => [] end.

(** Of a connection: how it ends, and the replies. *)
Definition ex_conn (cfg : AppConfig) (b : bytes) : outcome conn_end * list wcall :=
  let '(o, s) := run (B := MemBackend) (Cfg := cfg) b (ex_server ∅) in (o, c_resp s.1).

(** What is not a request: an array of no length is an empty command, a length is taken
    modulo 2^64, and one that cannot be allocated panics, which closes the connection; a line
    that does not fit the buffer and one that ends without a carriage return are errors. *)
Lemma wire_errors :
  ex_conn open_cfg (str "*-1" ++ respTerm) = (Ret (EndError EOF), [writeError ErrEmptyCommand]) /\
  ex_conn open_cfg (str "*18446744073709551617" ++ respTerm ++ str "$4" ++ respTerm ++ str "ping" ++ respTerm) = (Ret (EndError EOF), [writeStatus PONG]) /\
  ex_conn open_cfg (str "*9999999999999" ++ respTerm) = (Panic, []) /\
  ex_conn open_cfg (repeat 49 4096) = (Ret (EndError (RespError (str "long resp line"))), []) /\
  ex_conn open_cfg (str "*1" ++ [10]) = (Ret (EndError (RespError (str "bad resp line terminator"))), []).
Proof. split; [|split; [|split; [|split]]]; vm_compute; reflexivity. Qed.

Lemma wire_session_witness :
  exists b, write_all ex_commands = Ret b /\
  run (B := MemBackend) (Cfg := open_cfg) b (ex_server ∅) = conn_result (Ret EOF) (serve (B := MemBackend) (Cfg := open_cfg) (map request_of ex_commands) (ex_server ∅)).
Proof.
  destruct (wire_session (B := MemBackend) (Cfg := open_cfg) ex_commands (ex_server ∅)) as (b & H1 & H2 & _).
  - repeat constructor; vm_compute; discriminate.
  - exists b. exact (conj H1 H2).
Defined.

Lemma wire_unauthenticated_witness :
  authEnabled (Cfg := auth_cfg) = true /\ (ex_conn auth_cfg ex_wire).2 = [writeError ErrNotAuthenticated; writeError ErrNotAuthenticated] /\
  ledis (run (B := MemBackend) (Cfg := auth_cfg) ex_wire (ex_server ex_other)).2.2 = mem_state ex_other 0.
Proof.
  split; [reflexivity|]. split; [vm_compute; reflexivity|].
  refine (proj1 (proj2 (proj2 (wire_unauthenticated (B := MemBackend) (Cfg := auth_cfg) ex_wire ex_client (ex_app (mem_state ex_other 0)) (ex_app (mem_state ex_other 0)) eq_refl eq_refl _)))).
  intros x (u & v & E). apply bool_decide_eq_false. intros <-. assert (Hc : 99 ∈ ex_wire) by (rewrite E; apply elem_of_app; right; apply elem_of_app; left; apply (bool_decide_unpack _); vm_compute; exact I).
  revert Hc. apply (bool_decide_unpack _). vm_compute. exact I.
Defined.
