(* ===== verification/Http.v ===== *)
(** * The HTTP front end (src/server/client_http.go)

    A request is a path with an optional database, a command and its arguments, and the type
    of the reply.  Each request has a client of its own.  The results: the path of a command
    runs just that command and the response has its one reply; HTTP requests stay inside a
    database, and on a server with a password they neither see nor change data. *)

From S2P Require Import Prelude SortPkg Float Driver Store Keys Util Core KV TList THash TSet TZSet Migrate Sort Scan Flush System Client Commands Server Refuse Session.

(** ** Paths *)

(** [strings.TrimLeft(s, "/")] *)
Fixpoint TrimLeft (s : bytes) : bytes := match s with 47 :: s => TrimLeft s | _ => s end.

(** [strings.Split(s, "/")] *)
Fixpoint Split (s : bytes) : list bytes :=
  match s with
  | [] => [[]]
  | x :: s => if x =? 47 then [] :: Split s else match Split s with [] => [[x]] | w :: ws => (x :: w) :: ws end
  end.

(** [r.FormValue("type")] and [r.URL.Path] are given. *)
Definition parseReqPath (formType path : bytes) : Z * bytes * list bytes * bytes :=
  let contentType := match formType with [] => str "json" | _ => formType end in
  match Split (TrimLeft path) with
  | [] => (0, [], [], contentType)
  | [cmd] => (0, cmd, [], contentType)
  | first :: cmd :: args =>
      match ParseInt first 64 with
      | (db, Some _) => (db, first, cmd :: args, contentType)
      | (db, None) => (db, cmd, args, contentType)
      end
  end.

(** ** Replies *)

(** What is passed to an encoder: the values the writer builds, and the array of a command
    as it is. *)
Inductive http_value :=
  | HBool (b : bool)
  | HString (s : bytes)
  | HInt64 (n : Z)
  | HNil
  | HList (l : list http_value)
  | HMap (m : gmap bytes bytes)
  | HArray (lst : option (list value)).

(** The encoders of the map of one command and its result: [json.Marshal] and [bson.Marshal]
    may fail, the encoder of msgpack writes what it can. *)
Class HttpCodec := {
  json_Marshal : bytes -> http_value -> option bytes;
  bson_Marshal : bytes -> http_value -> option bytes;
  msgpack_Encode : bytes -> http_value -> bytes
}.

(** The header and the body of a response. *)
Record http_response := mkResponse { Content_type : bytes; Content_Length : option Z; body : bytes }.

Section Writer.
Context {T : ErrorText} {HC : HttpCodec}.

Definition writeJSON (cmd : bytes) (result : http_value) : option http_response :=
  match json_Marshal cmd result with
  | Some buf => Some (mkResponse (str "application/json; charset=utf-8") (Some (len buf)) buf)
  | None => None
  end.

Definition writeBSON (cmd : bytes) (result : http_value) : option http_response :=
  match bson_Marshal cmd result with
  | Some buf => Some (mkResponse (str "application/octet-stream") (Some (len buf)) buf)
  | None => None
  end.

Definition writeMsgPack (cmd : bytes) (result : http_value) : option http_response :=
  Some (mkResponse (str "application/octet-stream") None (msgpack_Encode cmd result)).

Definition genericWrite (contentType cmd : bytes) (result : http_value) : option http_response :=
  if bool_decide (contentType = str "json") then writeJSON cmd result
  else if bool_decide (contentType = str "bson") then writeBSON cmd result
  else if bool_decide (contentType = str "msgpack") then writeMsgPack cmd result
  else None.

Definition http_error (text : bytes) : http_value := HList [HBool false; HString (str "ERR " ++ text)].

(** The methods of [httpWriter]: what they pass to [genericWrite]. *)
Definition http_write (w : wcall) : http_value :=
  match w with
  | writeError err => http_error (error_text err)
  | writeStatus status => HList [HBool (bool_decide (status = OK) || bool_decide (status = PONG)); HString status]
  | writeInteger n => HInt64 n
  | writeBulk None => HNil
  | writeBulk (Some b) => HString b
  | writeArray lst => HArray lst
  | writeSliceArray lst => HList (map (fun elem => match elem with None => HNil | Some b => HString b end) (default [] lst))
  | writeFVPairArray lst => HMap (foldl (fun m '(f, v) => <[f := v]> m) ∅ (default [] lst))
  | writeScorePairArray lst withScores =>
      HList (concat (map (fun p => HString (Member p) :: if withScores then [HString (FormatInt64ToSlice (Score p))] else []) (default [] lst)))
  | writeBulkFrom _ _ => http_error (str "unsupport")
  end.
End Writer.

(** ** Requests *)

(** The body of an error, the responses of a command, or a blocking pop that waits. *)
Inductive http_reply := HttpError (text : bytes) | HttpDone (responses : list (option http_response)) | HttpWaiting.

Definition allowedContentTypes : list bytes := map str ["json"; "bson"; "msgpack"].
Definition httpUnsupportedCommands : list bytes := map str ["slaveof"; "fullsync"; "sync"; "quit"; "begin"; "commit"; "rollback"].

Section Requests.
Context {B : Backend} {MO : MapOrder} {PK : Packages} {Cfg : AppConfig} {T : ErrorText} {HC : HttpCodec}.

(** [newClient]: not authenticated, on database 0.  [fn] and [blocked] are what the model keeps
    of the other clients. *)
Definition newClient (fn : nat) (blocked : DB -> list wake) (a : App) : client * App :=
  let c := mkClient (setIndex 0) [] [] false [] fn blocked in (c, (Select 0 (c, a)).2.2).

(** The type of the content and the command for the writer, or the error. *)
Definition makeRequest (formType path : bytes) : CM ((bytes * bytes) + cmd_error) :=
  let '(db, cmd, args, contentType) := parseReqPath formType path in
  db ← Select db;
  match db with
  | inr err => mret (inr err)
  | inl db =>
      let contentType := strings_ToLower contentType in
      if negb (bool_decide (contentType ∈ allowedContentTypes)) then
        mret (inr (Errorf (str "unsupported content type: '" ++ contentType ++ str "', only json, bson, msgpack are supported")))
      else if bool_decide (strings_ToLower cmd ∈ httpUnsupportedCommands) then mret (inr (Errorf (str "unsupported command: '" ++ cmd ++ str "'")))
      else
        _ ← set_client (fun c => with_cmd (strings_ToLower cmd) args (with_db db c));
        mret (inl (contentType, cmd))
  end.

(** [newClientHTTP]: the requests of different connections do not see each other's client. *)
Definition http_session (formType path : bytes) : CM http_reply :=
  w ← makeRequest formType path;
  match w with
  | inr err => mret (HttpError (error_text err))
  | inl (contentType, cmd) =>
      r ← perform;
      c ← get_client;
      mret (match r with Blocked => HttpWaiting | _ => HttpDone (map (fun w => genericWrite contentType cmd (http_write w)) (c_resp c)) end)
  end.

Definition newClientHTTP (fn : nat) (blocked : DB -> list wake) (formType path : bytes) (a : App) : outcome http_reply * App :=
  let '(o, s) := http_session formType path (newClient fn blocked a) in (o, s.2).
End Requests.

(** * Commands as paths *)

(** The path of a command. *)
Definition http_path (db : Z) (cmd : bytes) (args : list bytes) : bytes := 47 :: Itoa db ++ concat (map (fun x => 47 :: x) (cmd :: args)).

Lemma Split_word (w : bytes) (ws : list bytes) : 47 ∉ w -> Forall (fun x => 47 ∉ x) ws -> Split (w ++ concat (map (fun x => 47 :: x) ws)) = w :: ws.
Proof.
  intros Hw HF. revert w Hw. induction HF as [|w1 ws H1 HF IH]; intros w Hw.
  - cbn [map concat]. rewrite app_nil_r. induction w as [|x w IH]; [done|]. apply not_elem_of_cons in Hw as [Hx Hw]. cbn [Split]. rewrite (proj2 (Z.eqb_neq x 47)), IH by done. done.
  - cbn [map concat]. induction w as [|x w IHw]; [cbn [app Split]; rewrite Z.eqb_refl; by rewrite IH|]. apply not_elem_of_cons in Hw as [Hx Hw].
    rewrite <- app_comm_cons. cbn [Split]. rewrite (proj2 (Z.eqb_neq x 47)), IHw by done. done.
Qed.

Lemma Itoa_digits (n : Z) : 0 <= n < 2 ^ 63 -> exists c s, Itoa n = c :: s /\ 48 <= c <= 57 /\ 47 ∉ Itoa n.
Proof.
  intros Hn. unfold Itoa, FormatInt64ToSlice. rewrite (proj2 (Z.ltb_ge n 0)) by lia. destruct (ParseUint_format n) as (_ & c & s & E & Hc); [lia|]. exists c, s. split; [done|]. split; [done|].
  assert (HF : forall f m, 0 <= m -> Forall (fun x => 48 <= x) (format_digits f m)).
  { induction f as [|f IH]; intros m Hm; [constructor|]. rewrite format_digits_S. destruct (m <? 10) eqn:Em; zify_bool; [constructor; [lia|constructor]|].
    pose proof (Z.mod_pos_bound m 10 ltac:(lia)). apply Forall_app. split; [apply IH; apply Z.div_pos; lia|]. constructor; [lia|constructor]. }
  intros Hin. specialize (HF 20%nat n ltac:(lia)). rewrite Forall_forall in HF. specialize (HF _ Hin). lia.
Qed.

Lemma TrimLeft_word (c : Z) (s : bytes) : c <> 47 -> TrimLeft (47 :: c :: s) = c :: s.
Proof. intros Hc. cbn [TrimLeft]. destruct c as [|p|p]; try done. do 6 (destruct p as [p|p|]; try done). Qed.

(** What is asked for is what is parsed. *)
Lemma parse_http_path (formType : bytes) (db : Z) (cmd : bytes) (args : list bytes) : 0 <= db < 2 ^ 63 -> Forall (fun x => 47 ∉ x) (cmd :: args) ->
  parseReqPath formType (http_path db cmd args) = (db, cmd, args, match formType with [] => str "json" | _ => formType end).
Proof.
  intros Hdb HF. destruct (Itoa_digits db Hdb) as (c & s & E & Hc & Hin). unfold parseReqPath, http_path. rewrite E. cbn [app]. rewrite TrimLeft_word by lia.
  change (c :: s ++ ?x) with ((c :: s) ++ x). rewrite <- E. rewrite Split_word by done. unfold Itoa. rewrite ParseInt_Format by (unfold in_i64; lia). done.
Qed.

Section Facts.
Context {B : Backend} {MO : MapOrder} {PK : Packages} {Cfg : AppConfig} {T : ErrorText} {HC : HttpCodec}.
Implicit Types (c : client) (a : App).

(** [Select] neither looks at the store nor changes it. *)
Lemma Select_handles (i : Z) c : exists r, forall a, exists ds, Select i (c, a) = (Ret r, (c, mkApp (ledis a) ds)).
Proof.
  unfold Select. destruct (_ || _); (eexists; intros [st ds]).
  - by exists ds.
  - cbn [dbs ledis]. destruct (ds !! i); by eexists.
Qed.

(** A client that has not authenticated can only authenticate. *)
Lemma perform_outside c : authEnabled = true -> c_isAuthed c = false -> exists o c', forall a, perform (c, a) = (o, (c', a)).
Proof.
  intros He Ha. unfold perform. set (c1 := with_cmd (strings_ToLower (c_cmd c)) (c_args c) c).
  assert (Hx : exists o c', forall a, exec_cmd c1 (c1, a) = (o, (c', a))).
  { unfold exec_cmd. destruct (_ =? _); [by eexists _, c1|]. destruct (decide (c_cmd c1 = str "auth")) as [E|E].
    - rewrite E, lookup_auth, bool_decide_true, andb_false_r by done. unfold authCommand, with_args, mbind, SM_bind, get_client. cbn [fst snd].
      destruct (c_args c1) as [|x [|y l]]; [by eexists _, c1| |by eexists _, c1]. cbv zeta. destruct AuthMethod as [f|]; [destruct (f x)|destruct (defaultAuth x)]; (eexists _, _; intros a; cbn; reflexivity).
    - destruct (lookup_cmd _); [|by eexists _, c1]. change (c_isAuthed c1) with (c_isAuthed c). rewrite He, Ha, bool_decide_false by done. by eexists _, c1. }
  destruct Hx as (o & c2 & Hx). unfold mbind, SM_bind, set_client, get_client. cbn [fst snd]. fold c1.
  destruct o as [res|]; [|exists Panic, c2; intros a; by rewrite Hx].
  assert (Hf : exists o c', forall a, finish res (c2, a) = (o, (c', a))) by (destruct res as [[err|]|]; (eexists _, _; intros a; unfold finish, write, set_client, mbind, SM_bind; cbn [fst snd]; reflexivity)).
  destruct Hf as (o & c3 & Hf). exists o, c3. intros a. by rewrite Hx.
Qed.
End Facts.

(** ** Lower case *)

(** The byte is the beginning of no letter outside ASCII with a lower case in it. *)
Definition plain (x : Z) (s : bytes) : Prop := ~ (x = 196 /\ exists s', s = 176 :: s') /\ ~ (x = 226 /\ exists s', s = 132 :: 170 :: s').

Lemma lower_plain (x : Z) (s : bytes) : plain x s -> strings_ToLower (x :: s) = lower_byte x :: strings_ToLower s.
Proof.
  intros [H1 H2]. cbn [strings_ToLower]. destruct (decide (x = 196)) as [->|E1].
  - destruct s as [|y s]; [done|]. destruct (decide (y = 176)) as [->|Ey]; [by destruct H1; split; [|eexists]|]. destruct y as [|p|p]; try done. do 8 (destruct p as [p|p|]; try done).
  - destruct (decide (x = 226)) as [->|E2]; [|destruct x as [|p|p]; try done; do 8 (destruct p as [p|p|]; try done)].
    destruct s as [|y s]; [done|]. destruct (decide (y = 132)) as [->|Ey]; [|destruct y as [|p|p]; try done; do 8 (destruct p as [p|p|]; try done)].
    destruct s as [|z s]; [done|]. destruct (decide (z = 170)) as [->|Ez]; [by destruct H2; split; [|eexists]|]. destruct z as [|p|p]; try done. do 8 (destruct p as [p|p|]; try done).
Qed.

Lemma lower_cases (x : Z) (s : bytes) :
  (x = 196 /\ exists s', s = 176 :: s' /\ strings_ToLower (x :: s) = 105 :: strings_ToLower s') \/
  (x = 226 /\ exists s', s = 132 :: 170 :: s' /\ strings_ToLower (x :: s) = 107 :: strings_ToLower s') \/ plain x s.
Proof.
  destruct (decide (x = 196)) as [->|E1]; [destruct s as [|y s]; [|destruct (decide (y = 176)) as [->|Ey]; [by left; split; [|exists s]|]]|];
    [right; right; split; intros [? [? ?]]; congruence..|].
  destruct (decide (x = 226)) as [->|E2]; [|right; right; split; intros [? _]; congruence].
  destruct s as [|y [|z s]]; [right; right; split; intros [? [? ?]]; congruence..|].
  destruct (decide (y = 132)) as [->|Ey]; [|right; right; split; intros [? [? ?]]; congruence]. destruct (decide (z = 170)) as [->|Ez]; [by right; left; split; [|exists s]|].
  right; right; split; intros [? [? ?]]; congruence.
Qed.

(** A byte outside ASCII at the head was there before. *)
Lemma lower_head (y : Z) (s t : bytes) : 128 <= y -> strings_ToLower s = y :: t -> exists s', s = y :: s' /\ plain y s' /\ strings_ToLower s' = t.
Proof.
  intros Hy. destruct s as [|x s]; [done|]. destruct (lower_cases x s) as [(-> & s' & -> & E)|[(-> & s' & -> & E)|Hx]]; [rewrite E; intros [= <- _]; lia..|].
  rewrite lower_plain by done. intros [= E <-]. exists s. assert (x = y) as -> by (unfold lower_byte in E; destruct (_ && _) eqn:?; zify_bool; lia). done.
Qed.

Lemma lower_byte_idem (x : Z) : lower_byte (lower_byte x) = lower_byte x.
Proof.
  unfold lower_byte. destruct ((65 <=? x) && (x <=? 90)) eqn:E1; [|by rewrite E1]. destruct ((65 <=? x + 32) && (x + 32 <=? 90)) eqn:E2; [zify_bool; lia|done].
Qed.

Lemma lower_idem (s : bytes) : strings_ToLower (strings_ToLower s) = strings_ToLower s.
Proof.
  remember (length s) as n eqn:Hn. revert s Hn. induction n as [n IH] using lt_wf_ind. intros s Hn. destruct s as [|x s]; [done|]. cbn [length] in Hn.
  destruct (lower_cases x s) as [(-> & s' & -> & E)|[(-> & s' & -> & E)|Hx]].
  1, 2: rewrite E; rewrite lower_plain by (split; intros [? _]; lia); f_equal; apply (IH (length s')); [cbn [length] in Hn; lia|done].
  rewrite lower_plain by done. assert (Hl : lower_byte (lower_byte x) = lower_byte x) by apply lower_byte_idem.
  rewrite lower_plain; [rewrite Hl; f_equal; apply (IH (length s)); [lia|done]|].
  assert (Hb : 128 <= lower_byte x -> lower_byte x = x) by (unfold lower_byte; destruct (_ && _) eqn:?; zify_bool; lia). destruct Hx as [H1 H2]. split.
  - intros [Ex [t Et]]. apply lower_head in Et as (s' & -> & _); [|lia]. apply H1. split; [rewrite <- Hb; lia|by eexists].
  - intros [Ex [t Et]]. apply lower_head in Et as (s' & -> & _ & Et); [|lia]. apply lower_head in Et as (s2 & -> & _); [|lia]. apply H2. split; [rewrite <- Hb; lia|by eexists].
Qed.

Definition content_type (formType : bytes) : bytes := match formType with [] => str "json" | _ => formType end.

(** The client of a request for a command on a database, and the server with their handles. *)
Definition http_client {B : Backend} (fn : nat) (blocked : DB -> list wake) (db : Z) (cmd : bytes) (args : list bytes) : client :=
  mkClient (setIndex db) (strings_ToLower cmd) args false [] fn blocked.
Definition http_server {B : Backend} {Cfg : AppConfig} (fn : nat) (blocked : DB -> list wake) (db : Z) (a : App) : App :=
  (Select db (newClient fn blocked a)).2.2.

Lemma Select_in {B : Backend} {Cfg : AppConfig} (i : Z) (s : client * App) : 0 <= i < Databases -> Select i s = (Ret (inl (setIndex i)), (s.1, (Select i s).2.2)).
Proof.
  intros Hi. destruct s as [c a]. unfold Select. destruct (_ || _) eqn:E; [apply orb_true_iff in E; zify_bool; lia|]. by destruct (dbs a !! i).
Qed.

(** C26: an HTTP request runs the command of its path.  The path of a database, a command and
    arguments without slashes runs this command with these arguments on the database for a
    client that has not authenticated, and the response is the one reply of the command. *)
Theorem http_command {B : Backend} {MO : MapOrder} {PK : Packages} {Cfg : AppConfig} {T : ErrorText} {HC : HttpCodec}
    (fn : nat) (blocked : DB -> list wake) (formType : bytes) (db : Z) (cmd : bytes) (args : list bytes) (a a' : App) (c' : client) :
  0 <= db < Databases -> db < 2 ^ 63 -> Forall (fun x => 47 ∉ x) (cmd :: args) ->
  strings_ToLower (content_type formType) ∈ allowedContentTypes -> strings_ToLower cmd ∉ httpUnsupportedCommands ->
  perform (http_client fn blocked db cmd args, http_server fn blocked db a) = (Ret Continue, (c', a')) ->
  exists w, c_resp c' = [w] /\
  newClientHTTP fn blocked formType (http_path db cmd args) a = (Ret (HttpDone [genericWrite (strings_ToLower (content_type formType)) cmd (http_write w)]), a').
Proof.
  intros Hdb Hmax HF Ht Hu Hp. pose proof (answers_perform (http_client fn blocked db cmd args, http_server fn blocked db a)) as Hw. rewrite Hp in Hw. cbn [fst snd] in Hw.
  destruct Hw as (ws & Hw & Hl). destruct ws as [|w [|w2 ws]]; [done| |done]. cbn [c_resp http_client app] in Hw. exists w. split; [done|].
  unfold newClientHTTP, http_session, makeRequest. rewrite parse_http_path by (done || lia). fold (content_type formType).
  unfold mbind, SM_bind. rewrite Select_in by done. rewrite bool_decide_true, bool_decide_false by done. cbn [negb].
  unfold set_client. cbn [fst snd newClient]. fold (http_server fn blocked db a).
  change (with_cmd (strings_ToLower cmd) args (with_db (setIndex db) _)) with (http_client fn blocked db cmd args). unfold mret, SM_ret. rewrite Hp. unfold get_client. cbn [fst snd]. by rewrite Hw.
Qed.


(** The way to the command leaves the client, up to the request, and the store. *)
Lemma makeRequest_run {B : Backend} {MO : MapOrder} {PK : Packages} {Cfg : AppConfig} {T : ErrorText} (formType path : bytes) (c : client) :
  exists r c', (forall a, exists ds, makeRequest formType path (c, a) = (Ret r, (c', mkApp (ledis a) ds))) /\
  c_isAuthed c' = c_isAuthed c /\ (forall w, r = inl w -> c_cmd c' = strings_ToLower (parseReqPath formType path).1.1.2).
Proof.
  unfold makeRequest. destruct (parseReqPath formType path) as [[[db cmd] args] ct]. cbn [fst snd]. destruct (Select_handles db c) as [[d|err] Hs].
  2: exists (inr err), c; split; [|done]; intros a; destruct (Hs a) as [ds E]; exists ds; unfold mbind, SM_bind; by rewrite E.
  destruct (negb _) eqn:E1; [|destruct (bool_decide (strings_ToLower cmd ∈ _)) eqn:E2].
  1, 2: eexists (inr _), c; (split; [|done]); intros a; destruct (Hs a) as [ds E]; exists ds; unfold mbind, SM_bind; by rewrite E.
  eexists (inl _), (with_cmd (strings_ToLower cmd) args (with_db d c)). split; [|done]. intros a. destruct (Hs a) as [ds E]. exists ds. unfold mbind, SM_bind. by rewrite E.
Qed.

Section Contained.
Context {B : Backend} {BS : BackendSpec B} {MO : MapOrder} {OS : MapOrderSpec MO} {PK : Packages} {Cfg : AppConfig} {T : ErrorText} {HC : HttpCodec}.

Lemma makeRequest_keeps (formType path : bytes) (s : client * App) : srv_ok s -> forall db, changes_only db s (makeRequest formType path s).2.
Proof using.
  intros Hs db'. pose proof (fun db => changes_refl db s Hs) as Hrefl. unfold makeRequest. destruct (parseReqPath formType path) as [[[i cmd] args] ct]. unfold mbind, SM_bind.
  destruct (Select_keeps i s Hs) as (E1 & H & r & E2 & Hr). destruct (Select i s) as [o s1]. cbn [fst snd] in *. subst o.
  destruct r as [db|err]; [|by apply H]. destruct (negb _); [by apply H|]. destruct (bool_decide _); [by apply H|]. cbn [set_client snd].
  destruct (H db') as [[[_ Hb] Ha] C2 C3 C4]. rewrite (Hr db eq_refl). split; [|done..]. split; [|done]. split; [done|exact Hb].
Qed.

Lemma session_changes (formType path : bytes) (s : client * App) : srv_ok s -> strings_ToLower (parseReqPath formType path).1.1.2 <> str "flushall" ->
  exists db, changes_only db s (http_session formType path s).2.
Proof using BS OS.
  intros Hs Hf. destruct (makeRequest_run formType path s.1) as (r & c' & Hm & _ & Hc). destruct (Hm s.2) as [ds E]. pose proof (makeRequest_keeps formType path s Hs) as Hk.
  rewrite <- surjective_pairing in E. unfold http_session, mbind, SM_bind. rewrite E in *. cbn [snd] in Hk. destruct r as [[ct cmd]|err]; [|exists (c_db s.1); apply Hk].
  destruct (perform_changes (c', mkApp (ledis s.2) ds)) as [db Hp]; [apply (Hk (c_db s.1))|cbn [fst]; by rewrite (Hc _ eq_refl), lower_idem|].
  exists db. eapply changes_trans; [apply Hk|]. by destruct (perform _) as [[x|] s2].
Qed.
End Contained.

(** C25: HTTP requests are contained.  Whatever its path, a request for a command of the table
    [regCmds] but FLUSHALL changes entries of one database only, and none when the server is
    read only; with a password configured no request changes data, and its response does not
    depend on them. *)
Theorem http_guarded {B : Backend} {BS : BackendSpec B} {MO : MapOrder} {OS : MapOrderSpec MO} {PK : Packages} {Cfg : AppConfig} {T : ErrorText} {HC : HttpCodec}
    (fn : nat) (blocked : DB -> list wake) (formType path : bytes) :
  (authEnabled = true -> exists o, forall a, exists ds, newClientHTTP fn blocked formType path a = (o, mkApp (ledis a) ds)) /\
  ((forall db, Forall (contained_wake db) (blocked db)) -> strings_ToLower (parseReqPath formType path).1.1.2 <> str "flushall" -> forall a, app_ok a ->
    let a' := (newClientHTTP fn blocked formType path a).2 in
    exists db, (forall k, ~ in_db db k -> contents (ledis a') !! k = contents (ledis a) !! k) /\
      readonly (ledis a') = readonly (ledis a) /\ (readonly (ledis a) = true -> contents (ledis a') = contents (ledis a))).
Proof.
  unfold newClientHTTP, newClient. set (c := mkClient _ _ _ _ _ _ _). destruct (makeRequest_run formType path c) as (r & c' & Hm & Ha & Hc). destruct (Select_handles 0 c) as [x Hs].
  split.
  - intros He. destruct r as [[ct cmd]|err].
    + destruct (perform_outside c' He Ha) as (o & c2 & Hp).
      exists (match o with Panic => Panic | Ret r => Ret (match r with Blocked => HttpWaiting | _ => HttpDone (map (fun w => genericWrite ct cmd (http_write w)) (c_resp c2)) end) end).
      intros a. destruct (Hs a) as [ds ->]. cbn [snd]. destruct (Hm (mkApp (ledis a) ds)) as [ds2 E]. exists ds2. unfold http_session, mbind, SM_bind. rewrite E, Hp. by destruct o.
    + eexists. intros a. destruct (Hs a) as [ds ->]. cbn [snd]. destruct (Hm (mkApp (ledis a) ds)) as [ds2 E]. exists ds2. unfold http_session, mbind, SM_bind. by rewrite E.
  - intros Hb Hf a Ha0. assert (Hok : srv_ok (c, a)) by (split; [split; [reflexivity|exact Hb]|exact Ha0]).
    destruct (Select_keeps 0 (c, a) Hok) as (E1 & Hk & _). rewrite (surjective_pairing (Select 0 (c, a)).2), E1 in Hk.
    destruct (session_changes formType path (c, (Select 0 (c, a)).2.2)) as [db Hd]; [apply (Hk (c_db c))|done|]. exists db.
    destruct (changes_trans db _ _ _ (Hk db) Hd) as [_ H2 H3 H4]. destruct (http_session _ _ _) as [o s']. done.
Qed.

(** * Concrete requests *)

#[local] Instance ex_texts : ErrorText := {|
  num_error_text arg _ := str "strconv.ParseInt: parsing " ++ arg ++ str ": invalid syntax";
  db_error_text _ := str "error"
|}.
#[local] Instance ex_packages : Packages := {|
  pk_regexp := {| regexp := bytes; regexp_Compile := inl; regexp_Match _ _ := true |};
  pk_float := ex_floats; pk_sort := ex_sort; pk_rdb := ex_rdb; pk_overflow := ex_overflow
|}.

(** Encoders that write integers only. *)
#[local] Instance ex_codec : HttpCodec := {|
  json_Marshal cmd result := match result with HInt64 n => Some (str "{" ++ cmd ++ str ":" ++ Itoa n ++ str "}") | _ => None end;
  bson_Marshal _ _ := None;
  msgpack_Encode _ _ := []
|}.

Definition ex_none : DB -> list wake := fun _ => [].
Definition ex_store : App (B := MemBackend) := ex_app (mem_state ∅ 0).

(** What a command leaves. *)
Definition ex_incr : outcome req_ret * (client (B := MemBackend) * App (B := MemBackend)) :=
  perform (B := MemBackend) (Cfg := open_cfg) (http_client (B := MemBackend) 0 ex_none 3 (str "INCR") [str "n"], http_server (B := MemBackend) (Cfg := open_cfg) 0 ex_none 3 ex_store).

Lemma ex_incr_eq : ex_incr = (Ret Continue, (ex_incr.2.1, ex_incr.2.2)).
Proof. rewrite (surjective_pairing ex_incr) at 1. apply (f_equal2 pair); [vm_compute; reflexivity|apply surjective_pairing]. Qed.

Lemma http_command_witness :
  exists w, c_resp ex_incr.2.1 = [w] /\
  newClientHTTP (B := MemBackend) (Cfg := open_cfg) 0 ex_none (str "JSON") (str "/3/INCR/n") ex_store = (Ret (HttpDone [genericWrite (str "json") (str "INCR") (http_write w)]), ex_incr.2.2).
Proof.
  apply (http_command (B := MemBackend) (Cfg := open_cfg) 0 ex_none (str "JSON") 3 (str "INCR") [str "n"] ex_store ex_incr.2.2 ex_incr.2.1).
  - split; [lia|vm_compute; reflexivity].
  - lia.
  - repeat constructor; apply (bool_decide_unpack _); vm_compute; exact I.
  - apply (bool_decide_unpack _). vm_compute. exact I.
  - apply (bool_decide_unpack _). vm_compute. exact I.
  - exact ex_incr_eq.
Defined.

Lemma ex_read_only_ok : app_ok ex_read_only.2.
Proof. intros i h. cbn [ex_read_only ex_app snd dbs]. rewrite lookup_singleton_Some. intros [<- <-] t. by destruct t; constructor. Qed.

Lemma http_guarded_witness :
  contents (ledis (newClientHTTP (B := MemBackend) (Cfg := auth_cfg) 0 ex_none [] (str "/set/k/v") (ex_app (mem_state ex_other 0))).2) = ex_other /\
  contents (ledis (newClientHTTP (B := MemBackend) (Cfg := open_cfg) 0 ex_none [] (str "/set/k/v") ex_read_only.2).2) = contents (ledis ex_read_only.2).
Proof.
  split.
  - destruct (proj1 (http_guarded (B := MemBackend) (Cfg := auth_cfg) 0 ex_none [] (str "/set/k/v")) eq_refl) as [o Ho].
    destruct (Ho (ex_app (mem_state ex_other 0))) as [ds E]. rewrite E. reflexivity.
  - assert (Hc : strings_ToLower (parseReqPath [] (str "/set/k/v")).1.1.2 <> str "flushall") by (intros H; vm_compute in H; discriminate H).
    destruct (proj2 (http_guarded (B := MemBackend) (Cfg := open_cfg) 0 ex_none [] (str "/set/k/v")) (fun _ => Forall_nil_2 _) Hc ex_read_only.2 ex_read_only_ok) as (db & _ & _ & H).
    exact (H eq_refl).
Defined.
