(* ===== verification/Transfer.v ===== *)
(** * Migration to another server (src/server/cmd_migrate.go)

    XMIGRATE and XMIGRATEDB dump keys, restore them on another server and delete them.  The
    connection is a parameter; joined with the requests of a second server it gives the
    theorem that a key is never lost. *)

From S2P Require Import Prelude SortPkg Float Driver Store Keys Util Core Frame Refine Coll KV TList THash TSet TZSet Migrate Sort Scan Flush Client Commands Server Session.

(** The connections to other servers: [mc.Get()] and [conn.Do], with the texts of errors. *)
Class MigrateRemote (W : Type) := {
  mr_Get : bytes -> SM W (option bytes);
  mr_Do : list bytes -> SM W (reply_value + bytes)
}.

(** The address the server listens on. *)
Class ListenConfig := { cfg_ListenAddr : bytes }.

(** The two errors that are compared, and the others. *)
Inductive mig_error := errNoKey | errKeyInMigrating | MigErr (err : cmd_error).

Definition mig_cmd_error (err : mig_error) : cmd_error :=
  match err with
  | errNoKey => Errorf (str "migrate key is not exists")
  | errKeyInMigrating => Errorf (str "key is in migrating yet")
  | MigErr err => err
  end.

Definition NOKEY : bytes := str "NOKEY".

Definition TypeNames : list bytes := map str ["KV"; "LIST"; "HASH"; "SET"; "ZSET"].

(** [App.migrateKeyLockers], by the name of the type, and the addresses of [migrateClients]. *)
Record Migrating := mkMig { mg_lockers : gmap bytes (gset bytes); mg_clients : gset bytes }.

Definition newMigrateKeyLockers : gmap bytes (gset bytes) := list_to_map (map (fun tp => (tp, ∅)) TypeNames).

Definition locker_Lock (key : bytes) : SM (gset bytes) bool := fun locks =>
  if bool_decide (key ∈ locks) then (Ret false, locks) else (Ret true, {[key]} ∪ locks).

Definition locker_Unlock (key : bytes) : SM (gset bytes) unit := fun locks => (Ret tt, locks ∖ {[key]}).

(** An operation of the locker of a type, if there is one. *)
Definition on_locker {A} (tp : bytes) (none : A) (p : SM (gset bytes) A) : SM Migrating A := fun g =>
  match mg_lockers g !! strings_ToUpper tp with
  | None => (Ret none, g)
  | Some locks => let '(o, locks) := p locks in (o, mkMig (<[strings_ToUpper tp := locks]> (mg_lockers g)) (mg_clients g))
  end.

Definition migrateKeyLock (tp key : bytes) : SM Migrating bool := on_locker tp false (locker_Lock key).
Definition migrateKeyUnlock (tp key : bytes) : SM Migrating unit := on_locker tp tt (locker_Unlock key).

Definition getMigrateClient (addr : bytes) : SM Migrating unit := fun g => (Ret tt, mkMig (mg_lockers g) ({[addr]} ∪ mg_clients g)).

(** The alternative of a type of keys. *)
Definition of_type {A} (tp : bytes) (kv hash list_ set zset : A) : A + cmd_error :=
  if upper_is tp "KV" then inl kv
  else if upper_is tp "HASH" then inl hash
  else if upper_is tp "LIST" then inl list_
  else if upper_is tp "SET" then inl set
  else if upper_is tp "ZSET" then inl zset
  else inr (key_type_error tp).

Section Ops.
Context {B : Backend} {MO : MapOrder} {PK : Packages} {Cfg : AppConfig} {LC : ListenConfig} {T : ErrorText} {W : Type} {R : MigrateRemote W}.
Implicit Types (tp key : bytes).

Abbreviation MM := (SM ((client * App) * (Migrating * W))).

Definition at_home {A} (p : CM A) : MM A := fun '(s, x) => let '(o, s) := p s in (o, (s, x)).
Definition on_migrating {A} (p : SM Migrating A) : MM A := fun '(s, (g, w)) => let '(o, g) := p g in (o, (s, (g, w))).
Definition abroad {A} (p : SM W A) : MM A := fun '(s, (g, w)) => let '(o, w) := p w in (o, (s, (g, w))).

(** An operation of the type [tp] on [c.db]. *)
Definition typed {A} (p : (DB -> M (A * option error)) + cmd_error) (none : A) : CM (A * option cmd_error) :=
  match p with
  | inr err => mret (none, Some err)
  | inl p => '(x, err) ← on_db p; mret (x, option_map DBError err)
  end.

Definition xdump_data tp key : CM (option bytes * option cmd_error) :=
  typed (of_type tp (fun db => Dump_ db key) (fun db => HDump db key) (fun db => LDump db key) (fun db => SDump db key) (fun db => ZDump db key)) None.

Definition xdel tp key : CM (option cmd_error) :=
  '(_, err) ← typed (of_type tp (fun db => Del db [key]) (fun db => HClear db key) (fun db => LClear db key) (fun db => SClear db key) (fun db => ZClear db key)) 0;
  mret err.

Definition xttl tp key : CM (Z * option cmd_error) :=
  typed (of_type tp (fun db => TTL db key) (fun db => HTTL db key) (fun db => LTTL db key) (fun db => STTL db key) (fun db => ZTTL db key)) 0.

Definition xscan tp (count : Z) : CM (list bytes * option cmd_error) :=
  let scan t db := Scan db t [] count false [] in
  typed (of_type tp (scan TKV) (scan THASH) (scan TLIST) (scan TSET) (scan TZSET)) [].

(** [others] is what the other clients of this server do while the key is restored on the
    other one: nothing keeps them from writing the key between its dump and its deletion. *)
Definition migrateKey (others : CM unit) tp key : MM (option mig_error) :=
  locked ← on_migrating (migrateKeyLock tp key);
  if negb locked then mret (Some errKeyInMigrating)
  else fun s =>
    let '(o, s) :=
      ('(data, err) ← at_home (xdump_data tp key);
       match err, data with
       | Some err, _ => mret (Some (MigErr err))
       | None, None => mret (Some errNoKey)
       | None, Some data =>
           '(ttl, err) ← at_home (xttl tp key);
           match err with
           | Some err => mret (Some (MigErr err))
           | None =>
               _ ← at_home others;
               res ← abroad (mr_Do [str "restore"; key; Itoa (int64 (ttl * 1000)); data]);
               match res with
               | inr text => mret (Some (MigErr (Errorf text)))
               | inl _ => err ← at_home (xdel tp key); mret (option_map MigErr err)
               end
           end
       end) s in
    let '(_, s) := on_migrating (migrateKeyUnlock tp key) s in
    (o, s).

Fixpoint migrate_types (others : CM unit) (tps : list bytes) key : MM (option mig_error) :=
  match tps with
  | [] => mret None
  | tp :: tps =>
      err ← migrateKey others tp key;
      match err with
      | None | Some errNoKey => migrate_types others tps key
      | Some err => mret (Some err)
      end
  end.

Definition migrateAllTypeKeys (others : CM unit) key : MM (option mig_error) := migrate_types others TypeNames key.

Definition parseMigrateDB (arg : bytes) : Z + cmd_error :=
  match StrUint64 (Some arg) None with
  | (_, Some err) => inr (NumError arg err)
  | (db, None) =>
      if db >=? uint64 Databases then inr (Errorf (str "invalid db index " ++ Itoa db ++ str ", must < " ++ Itoa Databases)) else inl db
  end.

Definition getMigrateDBConn (addr : bytes) (db : Z) : MM (option cmd_error) :=
  _ ← on_migrating (getMigrateClient addr);
  err ← abroad (mr_Get addr);
  match err with
  | Some text => mret (Some (Errorf text))
  | None =>
      res ← abroad (mr_Do [str "select"; Itoa db]);
      mret (match res with inr text => Some (Errorf text) | inl _ => None end)
  end.

(** The tries of XMIGRATE while the key is in migrating. *)
Fixpoint migrate_tries (n : nat) (others : CM unit) tp key : MM (option mig_error) :=
  match n with
  | O => mret None
  | S n =>
      err ← (if bool_decide (tp = str "ALL") then migrateAllTypeKeys others key else migrateKey others tp key);
      match err, n with
      | Some errKeyInMigrating, S _ => migrate_tries n others tp key
      | _, _ => mret err
      end
  end.

Definition mfail (err : cmd_error) : MM cmd_ret := mret (Return (Some err)).

(** [timeout, err := ledis.StrInt64(arg, nil)] with its checks *)
Definition with_timeout (arg : bytes) (k : MM cmd_ret) : MM cmd_ret :=
  match StrInt64 (Some arg) None with
  | (_, Some err) => mfail (NumError arg err)
  | (timeout, None) => if timeout <? 0 then mfail (Errorf (str "invalid timeout " ++ Itoa timeout)) else k
  end.

Definition errSameServer : cmd_error := Errorf (str "migrate in same server is not allowed").

Definition xmigrateCommand (others : CM unit) (args : list bytes) : MM cmd_ret :=
  match args with
  | [host; port; tp; key; adb; atimeout] =>
      let addr := host ++ [58] ++ port in
      if bool_decide (addr = cfg_ListenAddr) then mfail errSameServer
      else
        let tp := strings_ToUpper tp in
        match parseMigrateDB adb with
        | inr err => mfail err
        | inl db =>
            with_timeout atimeout (
              err ← getMigrateDBConn addr db;
              match err with
              | Some err => mfail err
              | None =>
                  err ← migrate_tries 10 others tp key;
                  match err with
                  | Some errNoKey => _ ← at_home (write (writeStatus NOKEY)); mret (Return None)
                  | Some err => mfail (mig_cmd_error err)
                  | None => _ ← at_home (write (writeStatus OK)); mret (Return None)
                  end
              end)
        end
  | _ => mfail ErrCmdParams
  end.

(** The keys of a scan, one after the other; [num] have been migrated. *)
Fixpoint migrate_keys (others : CM unit) tp (keys : list bytes) (num : Z) : MM (Z + cmd_error) :=
  match keys with
  | [] => mret (inl num)
  | key :: keys =>
      err ← migrateKey others tp key;
      match err with
      | None => migrate_keys others tp keys (num + 1)
      | Some errNoKey | Some errKeyInMigrating => migrate_keys others tp keys num
      | Some (MigErr err) => mret (inr err)
      end
  end.

Definition xmigratedbCommand (others : CM unit) (args : list bytes) : MM cmd_ret :=
  match args with
  | [host; port; tp; acount; adb; atimeout] =>
      let addr := host ++ [58] ++ port in
      if bool_decide (addr = cfg_ListenAddr) then mfail errSameServer
      else
        let tp := strings_ToUpper tp in
        match StrInt64 (Some acount) None with
        | (_, Some err) => mfail (NumError acount err)
        | (count, None) =>
            let count := if count <=? 0 then 10 else count in
            match parseMigrateDB adb with
            | inr err => mfail err
            | inl db =>
                with_timeout atimeout (
                  '(keys, err) ← at_home (xscan tp count);
                  match err, keys with
                  | Some err, _ => mfail err
                  | None, [] => _ ← at_home (write (writeInteger 0)); mret (Return None)
                  | None, keys =>
                      err ← getMigrateDBConn addr db;
                      match err with
                      | Some err => mfail err
                      | None =>
                          res ← migrate_keys others tp keys 0;
                          match res with
                          | inr err => mfail err
                          | inl num => _ ← at_home (write (writeInteger num)); mret (Return None)
                          end
                      end
                  end)
            end
        end
  | _ => mfail ErrCmdParams
  end.

End Ops.

(** * Values of keys *)

Inductive stored :=
  | SString (v : bytes)
  | SList (l : list bytes)
  | SHash (h : gmap bytes bytes)
  | SSet (X : gset bytes)
  | SZSet (z : gmap bytes Z).

Definition stored_name (v : stored) : bytes :=
  str (match v with SString _ => "KV" | SList _ => "LIST" | SHash _ => "HASH" | SSet _ => "SET" | SZSet _ => "ZSET" end).
Definition stored_type (v : stored) : Z :=
  match v with SString _ => KVType | SList _ => ListType | SHash _ => HashType | SSet _ => SetType | SZSet _ => ZSetType end.

(** The key holds [v]. *)
Definition key_holds (db : DB) (m : gmap bytes bytes) (key : bytes) (v : stored) : Prop :=
  match v with
  | SString v => m !! encodeKVKey db key = Some v
  | SList l => list_rep db m key l
  | SHash h => hash_rep db m key h
  | SSet X => set_rep db m key X
  | SZSet z => zset_rep db m key z
  end.

(** The key holds nothing of the type of [v]. *)
Definition key_gone (db : DB) (m : gmap bytes bytes) (key : bytes) (v : stored) : Prop :=
  match v with
  | SString _ => m !! encodeKVKey db key = None
  | SList _ => list_rep db m key []
  | SHash _ => hash_rep db m key ∅
  | SSet _ => set_rep db m key ∅
  | SZSet _ => zset_rep db m key ∅
  end.

(** A value that can be dumped: not empty, within the limits of sizes, of list positions and
    of the floats of the format. *)
Definition dumpable (key : bytes) (v : stored) : Prop :=
  match v with
  | SString v => checkValueSize v = None
  | SList l => l <> [] /\ listInitialSeq + len l - 1 < listMaxSeq
  | SHash h => h <> ∅ /\ Z.of_nat (size h) < 2 ^ 62 /\ hargs_ok key (sorted_entries h)
  | SSet X => X <> ∅ /\ Z.of_nat (size X) < 2 ^ 62 /\ margs_ok key (smembers X)
  | SZSet z => z <> ∅ /\ zcount z < 2 ^ 61 /\ zargs_ok key (zsorted z) /\ map_Forall (fun _ s => - 2 ^ 53 < s < 2 ^ 53) z
  end.

(** What the key held before is a value of the type too. *)
Definition replaceable (db : DB) (m : gmap bytes bytes) (key : bytes) (v : stored) : Prop :=
  match v with
  | SString _ => True
  | SList _ => exists l, list_rep db m key l
  | SHash _ => exists h, hash_rep db m key h /\ Z.of_nat (size h) < 2 ^ 62
  | SSet _ => exists X, set_rep db m key X /\ Z.of_nat (size X) < 2 ^ 62
  | SZSet _ => exists z, zset_rep db m key z /\ zcount z < 2 ^ 61
  end.

Section Values.
Context {B : Backend} {BS : BackendSpec B} {R : Rdb} {RS : RdbSpec R} {V : Int64Overflow}.
Implicit Types (db : DB) (key : bytes) (m : gmap bytes bytes) (e : Env) (v : stored).

(** The operations of the type of [v]. *)
Definition dump_of v key : DB -> M (option bytes * option error) := fun db =>
  match v with SString _ => Dump_ db key | SList _ => LDump db key | SHash _ => HDump db key | SSet _ => SDump db key | SZSet _ => ZDump db key end.
Definition del_of v key : DB -> M (Z * option error) := fun db =>
  match v with SString _ => Del db [key] | SList _ => LClear db key | SHash _ => HClear db key | SSet _ => SClear db key | SZSet _ => ZClear db key end.
Definition ttl_of v key : DB -> M (Z * option error) := fun db =>
  match v with SString _ => TTL db key | SList _ => LTTL db key | SHash _ => HTTL db key | SSet _ => STTL db key | SZSet _ => ZTTL db key end.

Lemma of_stored {A} v (kv hash list_ set zset : A) :
  of_type (stored_name v) kv hash list_ set zset = inl (match v with SString _ => kv | SList _ => list_ | SHash _ => hash | SSet _ => set | SZSet _ => zset end).
Proof using. by destruct v. Qed.

Lemma ttl_of_exec v db key m e : checkKeySize key = None -> exec (ttl_of v key db) m e (ttl_result db m (stored_type v) key (now e)) m e.
Proof using BS. intros Hk. destruct v; [by apply TTL_exec|by apply LTTL_exec|by apply HTTL_exec|by apply STTL_exec|by apply ZTTL_exec]. Qed.

(** A dump, restored anywhere and at any time. *)
Lemma dump_of_copies v db db2 key m m2 e : checkKeySize key = None -> well_keyed db m -> well_keyed db2 m2 ->
  key_holds db m key v -> dumpable key v -> replaceable db2 m2 key v ->
  exists data, exec (dump_of v key db) m e (Some data, None) m e /\
  forall ttl e2, runs (Restore db2 key ttl data) m2 e2 (fun err m' _ => err = None /\ key_holds db2 m' key v /\ restored db2 (stored_type v) key ttl e2 m2 m').
Proof using BS RS.
  intros Hk Hw Hw2. destruct v as [v|l|h|X|z]; cbn [key_holds dumpable replaceable dump_of stored_type].
  - intros Hv Hs _. destruct (Dump_dumps db key v m e Hk Hv) as (data & E & D). exists data. split; [done|]. intros ttl e2. by apply restore_string.
  - intros Hl [Hne Hn] [l0 Hl0]. assert (listMaxSeq < 2 ^ 31) by done. assert (0 < listInitialSeq) by done.
    destruct (LDump_dumps db key l m e) as (data & E & D); [done..|lia|]. exists data. split; [done|]. intros ttl e2. by apply (restore_list db2 key ttl data l l0).
  - intros Hh (Hne & H1 & Ha) (h0 & Hh0 & H2). destruct (HDump_dumps db key h m e) as (data & E & D); [done..|]. exists data. split; [done|]. intros ttl e2. by apply (restore_hash db2 key ttl data h h0).
  - intros Hh (Hne & H1 & Ha) (X0 & Hh0 & H2). destruct (SDump_dumps db key X m e) as (data & E & D); [done..|]. exists data. split; [done|]. intros ttl e2. by apply (restore_set db2 key ttl data X X0).
  - intros Hh (Hne & H1 & Ha & Hf) (z0 & Hh0 & H2). destruct (ZDump_dumps db key z m e) as (data & E & D); [done..|]. exists data. split; [done|]. intros ttl e2. by apply (restore_zset db2 key ttl data z z0).
Qed.

Lemma del_of_runs v db key m e : checkKeySize key = None -> well_keyed db m -> key_holds db m key v -> dumpable key v ->
  runs (del_of v key db) m e (fun res m' _ => res.2 = None /\ key_gone db m' key v /\ keeps db (stored_type v) key m m').
Proof using BS.
  intros Hk Hw. destruct v as [v|l|h|X|z]; cbn [key_holds dumpable del_of stored_type key_gone].
  - intros Hv _. eapply exec_runs; [by apply Del_exec|]. split; [done|]. destruct (del_keeps db key m) as [HK HN]. by split.
  - intros Hl _. eapply wp_mono; [by apply (step_runs list_container db key opLClear (LClear db key) lrInt l m e)|].
    intros [n err] m1 b1 e1 (-> & _ & a1 & [[= -> ->] ->] & Hl1 & HK). done.
  - intros Hh (_ & Hn & _). eapply wp_mono; [by apply (step_runs hash_container db key opHClear (HClear db key) hrInt h m e)|].
    intros [n err] m1 b1 e1 (-> & _ & a1 & [= <- <- <-] & Hh1 & HK). done.
  - intros Hh (_ & Hn & _). eapply wp_mono; [by apply (step_runs set_container db key opSClear (SClear db key) srInt X m e)|].
    intros [n err] m1 b1 e1 (-> & _ & a1 & [= <- <- <-] & Hh1 & HK). done.
  - intros Hh (_ & Hn & _). eapply wp_mono; [by apply (step_runs zset_container db key opZClear (ZClear db key) zrInt z m e)|].
    intros [n err] m1 b1 e1 (-> & _ & a1 & [= <- <- <-] & Hh1 & HK). done.
Qed.
End Values.

(** The lock is free, taken and given back. *)
Lemma lock_free (g : Migrating) (tp key : bytes) (locks : gset bytes) : strings_ToUpper tp = tp -> mg_lockers g !! tp = Some locks -> key ∉ locks ->
  exists g1, migrateKeyLock tp key g = (Ret true, g1) /\ migrateKeyUnlock tp key g1 = (Ret tt, g).
Proof.
  intros Ht Hl Hk. destruct g as [ls cs]. cbn [mg_lockers] in Hl. unfold migrateKeyLock, migrateKeyUnlock, on_locker, locker_Lock, locker_Unlock. rewrite Ht. cbn [mg_lockers mg_clients]. rewrite Hl.
  rewrite bool_decide_false by done. eexists. split; [reflexivity|]. cbn [mg_lockers mg_clients]. rewrite lookup_insert_eq, insert_insert_eq.
  replace (({[key]} ∪ locks) ∖ {[key]}) with locks by set_solver. by rewrite insert_id.
Qed.

(** * The other server *)

Section Target.
Context {B : Backend} {BS : BackendSpec B} {MO : MapOrder} {PK : Packages} {RS : RdbSpec pk_rdb} {Cfg : AppConfig} {LC : ListenConfig} {T : ErrorText}.
Implicit Types (db : DB) (key : bytes) (m : gmap bytes bytes) (e : Env) (v : stored) (c : client) (a : App).

(** The client that this server is of the other one, and the faults of the network: a fault
    loses the request or, with a positive number, the reply. *)
Record target := mkTarget { tg_s : client * App; tg_faults : list (option (nat * bytes)) }.
Implicit Types (w : target) (n : Z).

Definition tg_fault : SM target (option (nat * bytes)) := fun w =>
  match tg_faults w with
  | [] => (Ret None, w)
  | f :: fs => (Ret f, mkTarget (tg_s w) fs)
  end.

Definition tg_request (req : list bytes) : SM target reply_value := fun w =>
  let '(o, s) := handleRequest req (tg_s w) in
  (Ret (match o, last (c_resp s.1) with Ret Continue, Some x => reply_of x | _, _ => RError (str "EOF") end), mkTarget s (tg_faults w)).

#[global] Instance target_remote : MigrateRemote target := {|
  mr_Get _ := f ← tg_fault; mret (snd <$> f);
  mr_Do req :=
    f ← tg_fault;
    match f with
    | Some (O, text) => mret (inr text)
    | Some (S _, text) => _ ← tg_request req; mret (inr text)
    | None => x ← tg_request req; mret (match x with RError text => inr text | _ => inl x end)
    end
|}.

(** The server answers, with the database [db] selected, the contents [m2] and the clock
    [n2]. *)
Definition target_at db m2 (n2 : Z) (w : target) : Prop :=
  c_db (tg_s w).1 = db /\ (authEnabled = false \/ c_isAuthed (tg_s w).1 = true) /\ exists e2, serving db (tg_s w).2 m2 e2 /\ now e2 = n2.

Lemma restore_target db m2 n2 w key (ttl : Z) (data : bytes) (Q : gmap bytes bytes -> Prop) : target_at db m2 n2 w -> in_i64 ttl ->
  (forall e2, now e2 = n2 -> runs (Restore db key ttl data) m2 e2 (fun err m' _ => err = None /\ Q m')) ->
  exists w', tg_request [str "restore"; key; Itoa ttl; data] w = (Ret (RStatus OK), w') /\ tg_faults w' = tg_faults w /\ exists m' n', target_at db m' n' w' /\ Q m'.
Proof using BS.
  destruct w as [[c a] fs]. intros (<- & Hau & e2 & Hs & Hn) Ht HR. cbn [tg_s fst snd] in *.
  assert (HC : cwp (handleRequest [str "restore"; key; Itoa ttl; data]) (fun r c' m' e' => r = Continue /\ c_resp c' = c_resp c ++ [writeStatus OK] /\ c_db c' = c_db c /\
    c_isAuthed c' = c_isAuthed c /\ Q m') c m2 e2).
  { apply (cwp_request "restore" restoreCommand); [reflexivity|reflexivity|reflexivity|by apply (bool_decide_unpack _); vm_compute|done|].
    unfold restoreCommand, with_args, with_ttl, reply_ok. cwp_auto. unfold StrInt64, Itoa. rewrite ParseInt_Format by done. cwp_auto. apply cwp_on_db. cbn [c_db with_cmd].
    eapply wp_mono; [by apply HR|]. intros err m' b' e' (-> & -> & HQ). split; [done|]. cwp_auto. done. }
  destruct (HC a Hs) as (r & c' & a' & m' & e' & E & Hs' & -> & Hr & Hd & Hia & HQ). unfold tg_request. cbn [tg_s]. rewrite E. cbn [fst]. rewrite Hr, last_snoc.
  eexists. split; [reflexivity|]. split; [done|]. exists m', (now e'). split; [|done]. split; [done|]. cbn [tg_s fst snd]. rewrite Hia. split; [done|]. exists e'. rewrite <- Hd. done.
Qed.

(** Before a database is selected: every handle is at rest. *)
Definition target_ready m2 (n2 : Z) (w : target) : Prop :=
  (authEnabled = false \/ c_isAuthed (tg_s w).1 = true) /\ ready (ledis (tg_s w).2) /\ Core.contents (ledis (tg_s w).2) = m2 /\ now (env (ledis (tg_s w).2)) = n2 /\
  forall i h, dbs (tg_s w).2 !! i = Some h -> h_batches h = no_ops.

Lemma select_target m2 n2 w (i : Z) : target_ready m2 n2 w -> 0 <= i < Databases -> Databases < 2 ^ 62 ->
  exists w', tg_request [str "select"; Itoa i] w = (Ret (RStatus OK), w') /\ tg_faults w' = tg_faults w /\ target_at (setIndex i) m2 n2 w'.
Proof using.
  destruct w as [[c a] fs]. intros (Hau & Hr & Hm & Hn & Hh) Hi HD. cbn [tg_s fst snd] in *. unfold tg_request. cbn [tg_s].
  rewrite (handle_known "select" selectCommand (str "select") [Itoa i] c a); [|reflexivity|reflexivity|reflexivity|by apply (bool_decide_unpack _); vm_compute|done].
  unfold selectCommand, with_args, with_int, get_client, mbind, SM_bind. cbn [fst c_args with_cmd]. unfold Atoi, Itoa. rewrite ParseInt_Format by (unfold in_i64; lia).
  unfold Select. rewrite (proj2 (Z.ltb_ge _ _)), Z.geb_leb, (proj2 (Z.leb_gt _ _)) by lia. cbn [orb].
  destruct (dbs a !! i) as [h|] eqn:Eh; cbn [set_client write mret SM_ret finish fst snd c_resp]; unfold write, set_client; cbn [fst snd c_resp with_db with_cmd]; rewrite last_snoc;
    (eexists; split; [reflexivity|]; split; [done|]; split; [done|]; split; [done|]; cbn [tg_s fst snd]).
  - eexists. split; [split; [done|done|exists h; split; [done|]; split; [by eapply Hh|reflexivity]]|done].
  - eexists. split; [split; [done|done|exists new_handle; split; [apply lookup_insert_eq|]; split; [done|reflexivity]]|done].
Qed.

(** ** Migrating one key *)

Lemma at_home_run {A W} (p : CM A) (o : outcome A) c a (s' : client * App) (x : Migrating * W) : p (c, a) = (o, s') -> at_home p ((c, a), x) = (o, (s', x)).
Proof using. intros E. unfold at_home. by rewrite E. Qed.

Lemma typed_run {A} (p : DB -> M (A * option error)) (none : A) c a m e (Q : A * option error -> gmap bytes bytes -> Env -> Prop) : serving (c_db c) a m e ->
  runs (p (c_db c)) m e Q -> exists y a' m' e', typed (inl p) none (c, a) = (Ret (y.1, option_map DBError y.2), (c, a')) /\ serving (c_db c) a' m' e' /\ Q y m' e'.
Proof using BS.
  intros Hs Hp. destruct (cwp_on_db p (fun y c' m' e' => c' = c /\ Q y m' e') c m e) with (a := a) as (y & c' & a' & m1 & e1 & E & Hs' & -> & HQ); [|done|].
  - eapply wp_mono; [exact Hp|]. by intros y m1 b1 e1 [-> HQ].
  - exists y, a', m1, e1. split; [|done]. unfold typed, mbind, SM_bind. rewrite E. by destruct y.
Qed.

(** The request over the network: the value arrives, or there was a fault. *)
Lemma restore_sent db m2 n2 w key (ttl : Z) (data : bytes) (Q : gmap bytes bytes -> Prop) : target_at db m2 n2 w -> in_i64 ttl ->
  (forall e2, now e2 = n2 -> runs (Restore db key ttl data) m2 e2 (fun err m' _ => err = None /\ Q m')) ->
  exists res w', mr_Do [str "restore"; key; Itoa ttl; data] w = (Ret res, w') /\
    match res with inl _ => exists m' n', target_at db m' n' w' /\ Q m' | inr _ => tg_faults w <> [] end.
Proof using BS.
  intros Hw Ht HR. cbn [mr_Do target_remote]. destruct w as [s [|f fs]].
  - destruct (restore_target db m2 n2 (mkTarget s []) key ttl data Q Hw Ht HR) as (w' & E & _ & HQ).
    exists (inl (RStatus OK)), w'. split; [|done]. rewrite (bind_run tg_fault _ _ (mkTarget s []) None) by done. by rewrite (bind_run _ _ _ _ _ E).
  - assert (Hw' : target_at db m2 n2 (mkTarget s fs)) by done.
    destruct (restore_target db m2 n2 (mkTarget s fs) key ttl data Q Hw' Ht HR) as (w' & E & _ & HQ).
    rewrite (bind_run tg_fault _ _ (mkTarget s fs) f) by done. destruct f as [[[|k] text]|].
    + by exists (inr text), (mkTarget s fs).
    + exists (inr text), w'. split; [|done]. by rewrite (bind_run _ _ _ _ _ E).
    + exists (inl (RStatus OK)), w'. split; [|done]. by rewrite (bind_run _ _ _ _ _ E).
Qed.

(** The key is at the other server, and no longer here. *)
Definition moved_to db db2 key v (t n2 : Z) m m2 m' w' : Prop :=
  key_gone db m' key v /\ keeps db (stored_type v) key m m' /\
  exists m2' n', target_at db2 m2' n' w' /\ key_holds db2 m2' key v /\ touches db2 (stored_type v) key m2 m2' /\
    (0 < t -> m2' !! expEncodeMetaKey db2 (stored_type v) key = Some (PutInt64 (int64 (n2 + t)))).

(** What a migration needs of the two servers. *)
Record movable db db2 key v (t : Z) m e m2 (g : Migrating) : Prop := {
  mv_key : checkKeySize key = None;
  mv_here : well_keyed db m;
  mv_there : well_keyed db2 m2;
  mv_holds : key_holds db m key v;
  mv_dumpable : dumpable key v;
  mv_replaceable : replaceable db2 m2 key v;
  mv_ttl : ttl_result db m (stored_type v) key (now e) = (t, None);
  mv_ttl_small : -1 <= t < 2 ^ 53;
  mv_free : exists locks, mg_lockers g !! stored_name v = Some locks /\ key ∉ locks
}.

Lemma seconds_kept (t : Z) : 0 < t -> Z.max 1 (t * 1000 / 1000) = t.
Proof using. intros H. rewrite Z.div_mul by done. lia. Qed.

Lemma migrateKey_ok db2 key v t n2 c a m e m2 g w : serving (c_db c) a m e -> target_at db2 m2 n2 w -> movable (c_db c) db2 key v t m e m2 g ->
  exists err a' m' e' w', migrateKey (mret tt) (stored_name v) key ((c, a), (g, w)) = (Ret err, ((c, a'), (g, w'))) /\ serving (c_db c) a' m' e' /\
    match err with
    | None => moved_to (c_db c) db2 key v t n2 m m2 m' w'
    | Some err => m' = m /\ tg_faults w <> [] /\ exists text, err = MigErr (Errorf text)
    end.
Proof using BS RS.
  intros Hs Hw [Hk H1 H2 Hh Hd Hr Ht Htt (locks & Hl & Hf)].
  destruct (lock_free g (stored_name v) key locks) as (g1 & E1 & E2); [by destruct v|done..|].
  destruct (dump_of_copies v (c_db c) db2 key m m2 e Hk H1 H2 Hh Hd Hr) as (data & Ed & HR).
  assert (Hi : in_i64 (t * 1000)) by (unfold in_i64; lia).
  destruct (typed_run (dump_of v key) None c a m e (fun y m' e' => y = (Some data, None) /\ m' = m /\ e' = e) Hs) as (y1 & a1 & m1 & e1 & R1 & Hs1 & -> & -> & ->).
  { eapply exec_runs; [exact Ed|done]. }
  destruct (typed_run (ttl_of v key) 0 c a1 m e (fun y m' e' => y = (t, None) /\ m' = m /\ e' = e) Hs1) as (y2 & a2 & m1 & e1 & R2 & Hs2 & -> & -> & ->).
  { eapply exec_runs; [by apply ttl_of_exec|]. by rewrite Ht. }
  destruct (typed_run (del_of v key) 0 c a2 m e _ Hs2 (del_of_runs v (c_db c) key m e Hk H1 Hh Hd)) as ([y3 err3] & a3 & m3 & e3 & R3 & Hs3 & Herr & Hg & HK).
  cbn [snd] in Herr. subst err3.
  destruct (restore_sent db2 m2 n2 w key (t * 1000) data (fun m2' => key_holds db2 m2' key v /\ touches db2 (stored_type v) key m2 m2' /\
    (0 < t -> m2' !! expEncodeMetaKey db2 (stored_type v) key = Some (PutInt64 (int64 (n2 + t)))))) as (res & w' & R4 & Hres); [done|done| |].
  { intros e2 <-. eapply wp_mono; [apply (HR (t * 1000) e2)|]. intros err m' b' e' (-> & -> & HQ & Hto & Hex). do 4 (split; [done|]).
    intros Hpos. rewrite seconds_kept in Hex by done. by apply Hex; lia. }
  unfold migrateKey. rewrite (bind_run (on_migrating (migrateKeyLock (stored_name v) key)) _ _ ((c, a), (g1, w)) true) by (unfold on_migrating; by rewrite E1).
  cbn [negb]. 
  rewrite (bind_run (at_home (xdump_data (stored_name v) key)) _ _ ((c, a1), (g1, w)) (Some data, None)) by (apply at_home_run; unfold xdump_data; rewrite of_stored; by destruct v).
  cbv beta iota zeta.
  rewrite (bind_run (at_home (xttl (stored_name v) key)) _ _ ((c, a2), (g1, w)) (t, None)) by (apply at_home_run; unfold xttl; rewrite of_stored; by destruct v).
  cbv beta iota zeta.
  rewrite (bind_run (at_home (mret tt)) _ _ ((c, a2), (g1, w)) tt) by done.
  rewrite (bind_run (abroad (mr_Do _)) _ _ ((c, a2), (g1, w')) res) by (unfold abroad; rewrite int64_small by done; by rewrite R4).
  destruct res as [x|text].
  - rewrite (bind_run (at_home (xdel (stored_name v) key)) _ _ ((c, a3), (g1, w')) None).
    2:{ apply at_home_run. unfold xdel. rewrite of_stored. rewrite (bind_run _ _ _ (c, a3) (y3, None)); [done|]. etransitivity; [|exact R3]. by destruct v. }
    unfold mret, SM_ret, on_migrating. rewrite E2. exists None, a3, m3, e3, w'. done.
  - unfold mret, SM_ret, on_migrating. rewrite E2. exists (Some (MigErr (Errorf text))), a2, m, e, w'. eauto 10.
Qed.

Lemma tries_ok (n : nat) (others : CM unit) key v (err : option mig_error) (s s' : (client * App) * (Migrating * target)) :
  migrateKey others (stored_name v) key s = (Ret err, s') -> err <> Some errKeyInMigrating -> migrate_tries (S n) others (stored_name v) key s = (Ret err, s').
Proof using.
  intros E Hn. cbn [migrate_tries]. rewrite bool_decide_false by (by destruct v). rewrite (bind_run _ _ _ _ _ E). by destruct err as [[| |]|], n.
Qed.

(** The connection, with the database selected. *)
Lemma getMigrateDBConn_ok (addr : bytes) (i : Z) m2 n2 c a g w : target_ready m2 n2 w -> 0 <= i < Databases -> Databases < 2 ^ 62 ->
  exists err w', getMigrateDBConn addr i ((c, a), (g, w)) = (Ret err, ((c, a), (mkMig (mg_lockers g) ({[addr]} ∪ mg_clients g), w'))) /\
    match err with
    | None => target_at (setIndex i) m2 n2 w' /\ (tg_faults w = [] -> tg_faults w' = [])
    | Some _ => tg_faults w <> []
    end.
Proof using.
  intros Hw Hi HD. unfold getMigrateDBConn. rewrite (bind_run (on_migrating (getMigrateClient addr)) _ _ ((c, a), (mkMig (mg_lockers g) ({[addr]} ∪ mg_clients g), w)) tt) by done.
  set (g' := mkMig _ _). destruct w as [s fs]. cbn [tg_faults].
  assert (Hsel : forall fs', exists res w', mr_Do [str "select"; Itoa i] (mkTarget s fs') = (Ret res, w') /\ 
    match res with inl _ => target_at (setIndex i) m2 n2 w' /\ (fs' = [] -> tg_faults w' = []) | inr _ => fs' <> [] end).
  { intros fs'. destruct (select_target m2 n2 (mkTarget s (tl fs')) i Hw Hi HD) as (w' & E & Hf & Ht). cbn [mr_Do target_remote tg_faults] in *.
    destruct fs' as [|f fs']; cbn [tl] in *.
    - exists (inl (RStatus OK)), w'. rewrite (bind_run tg_fault _ _ (mkTarget s []) None) by done. by rewrite (bind_run _ _ _ _ _ E).
    - rewrite (bind_run tg_fault _ _ (mkTarget s fs') f) by done. destruct f as [[[|k] text]|]; [by exists (inr text), (mkTarget s fs')|exists (inr text), w'|exists (inl (RStatus OK)), w'];
        by rewrite (bind_run _ _ _ _ _ E). }
  assert (Hget : exists err fs', mr_Get addr (mkTarget s fs) = (Ret err, mkTarget s fs') /\ (fs = [] -> fs' = [] /\ err = None)).
  { destruct fs as [|[[k text]|] fs]; [exists None, []|exists (Some text), fs|exists None, fs]; done. }
  destruct Hget as (err & fs' & E & Hfs). rewrite (bind_run (abroad (mr_Get addr)) _ _ ((c, a), (g', mkTarget s fs')) err) by (unfold abroad; by rewrite E).
  destruct err as [text|].
  - exists (Some (Errorf text)), (mkTarget s fs'). split; [done|]. intros Hnil. by destruct (Hfs Hnil).
  - destruct (Hsel fs') as (res & w' & E' & Hres). rewrite (bind_run (abroad (mr_Do _)) _ _ ((c, a), (g', w')) res) by (unfold abroad; by rewrite E').
    destruct res as [x|text]; [exists None, w'|exists (Some (Errorf text)), w']; (split; [done|]); [destruct Hres; split; [done|]|]; intros Hnil; destruct (Hfs Hnil); auto.
Qed.


End Target.

(** * Two concrete servers *)

#[local] Instance ex_texts : ErrorText := {|
  num_error_text arg _ := str "strconv.ParseInt: parsing " ++ arg ++ str ": invalid syntax";
  db_error_text _ := str "error"
|}.
#[local] Instance ex_packages : Packages := {|
  pk_regexp := {| regexp := bytes; regexp_Compile := inl; regexp_Match _ _ := true |};
  pk_float := ex_floats; pk_sort := ex_sort; pk_rdb := ex_rdb; pk_overflow := ex_overflow
|}.
#[local] Instance ex_open : AppConfig := open_cfg.
#[local] Instance ex_listen : ListenConfig := {| cfg_ListenAddr := str "127.0.0.1:6380" |}.

Definition ex_migrating : Migrating := mkMig newMigrateKeyLockers ∅.

(** This server holds [m], the other one is empty. *)
Definition ex_two (m : gmap bytes bytes) (n : Z) (faults : list (option (nat * bytes))) :
  (client (B := MemBackend) * App (B := MemBackend)) * (Migrating * target (B := MemBackend)) :=
  ((ex_client, ex_app (mem_state m n)), (ex_migrating, mkTarget (B := MemBackend) (ex_server ∅) faults)).

Definition xmigrate_args (tp : string) : list bytes := map str ["10.0.0.2"; "6380"; tp; "k"; "1"; "1000"].

(** The outcome of XMIGRATE, the replies and the entries of the two databases. *)
Definition xmigrate_run (others : SM (client (B := MemBackend) * App (B := MemBackend)) unit) (tp : string) (m : gmap bytes bytes) (n : Z) :
  outcome cmd_ret * list wcall * list (bytes * bytes) * list (bytes * bytes) :=
  let '(o, ((c, a), (_, w))) := xmigrateCommand (B := MemBackend) (W := target) others (xmigrate_args tp) (ex_two m n []) in
  (o, c_resp c, map_to_list (contents (ledis a)), map_to_list (contents (ledis (tg_s w).2))).

Definition ex_k (v : bytes) : gmap bytes bytes := {[ encodeKVKey db0 (str "k") := v ]}.

Definition ex_old : gmap bytes bytes := <[ expEncodeMetaKey db0 KVType (str "k") := PutInt64 50 ]> (ex_k (str "v")).


