(* ===== verification/Script.v ===== *)
(** * Lua scripts (src/server: script.go, cmd_script.go)

    EVAL, EVALSHA and SCRIPT, the functions that a script can call, and the conversions
    between replies and Lua values.  The interpreter is a parameter: a script is what it
    computes between its calls of the server ([lua_prog]).  The results: the reply of a
    command that a script returns is the reply of the command, and scripts respect the read
    only mode. *)

From S2P Require Import Prelude SortPkg Float Driver Store Keys Util Core KV TList THash TSet TZSet Migrate Sort Scan Flush System Client Commands Server Session.

(** ** Lua values

    A table is its entries in the order of [ForEach]; an opaque value is a function or
    userdata. *)
Inductive lua_value :=
  | LNil
  | LBool (b : bool)
  | LNumber (f : float64)
  | LString (s : bytes)
  | LTable (entries : list (lua_value * lua_value))
  | LOpaque (id : Z).

(** The functions of the server that scripts call: the fields of the global [ledis], and
    [error]. *)
Inductive lua_fn := FCall | FPCall | FSha1hex | FErrorReply | FStatusReply | FError.

(** A running script: it has ended with results or an uncaught error of Lua, or it calls a
    function of the server and goes on with what that returns.  [st] is the state of the
    interpreter, its global variables included. *)
Inductive lua_prog (S : Type) :=
  | LDone (results : list lua_value) (st : S)
  | LThrow (text : bytes) (st : S)
  | LFn (f : lua_fn) (args : list lua_value) (st : S) (k : lua_value -> lua_prog S).
Arguments LDone {S}.
Arguments LThrow {S}.
Arguments LFn {S}.

(** The interpreter and the other packages: [lua_unwind] is what a panic leaves of the stack
    and of the state, [lua_text] the text of values that are not strings, [lua_g17] the
    format %.17g, [lua_quote] the format %q. *)
Class Lua := {
  chunk : Type;
  lua_state : Type;
  lua_LoadString : bytes -> chunk + bytes;
  lua_GetGlobal : bytes -> lua_state -> option chunk;
  lua_SetGlobal : bytes -> option chunk -> lua_state -> lua_state;
  lua_SetArray : bytes -> list bytes -> lua_state -> lua_state;
  lua_start : chunk -> lua_state -> lua_prog lua_state;
  lua_unwind : list lua_value -> lua_state -> list lua_value * lua_state;
  lua_text : lua_value -> bytes;
  lua_g17 : float64 -> bytes;
  lua_quote : bytes -> bytes;
  sha1_Sum : bytes -> bytes;
  runtime_text : bytes
}.

(** A panic of Go: with an error, with a string, or one of the runtime. *)
Inductive go_panic := PanicErr (err : cmd_error) | PanicText (text : bytes) | PanicRuntime.

Definition table_of (l : list lua_value) : lua_value := LTable (imap (fun i v => (LNumber (float64_of_int64 (Z.of_nat i + 1)), v)) l).

(** [hex.EncodeToString] *)
Definition hex_digit (n : Z) : Z := if n <? 10 then 48 + n else 87 + n.
Definition EncodeToString (b : bytes) : bytes := concat (map (fun x => [hex_digit (x / 16); hex_digit (x mod 16)]) b).

Section Convert.
Context {B : Backend} {PK : Packages} {L : Lua} {T : ErrorText}.

(** *** From replies to Lua *)

Definition toLuaInteger (n : Z) : lua_value := LNumber (float64_of_int64 n).
Definition toLuaBulk (b : option bytes) : lua_value := match b with None => LBool false | Some b => LString b end.

Definition toLuaSliceArray (lst : option (list (option bytes))) : lua_value :=
  match lst with None => LBool false | Some lst => table_of (map toLuaBulk lst) end.

(** An element of an array; strings and errors panic. *)
Fixpoint toLuaValue (v : value) : lua_value + go_panic :=
  match v with
  | VArray lst =>
      (fix go (lst : list value) (acc : list lua_value) : lua_value + go_panic :=
         match lst with
         | [] => inl (table_of acc)
         | v :: lst => match toLuaValue v with inl x => go lst (acc ++ [x]) | inr p => inr p end
         end) lst []
  | VSlices lst => inl (toLuaSliceArray (Some (map Some lst)))
  | VBytes b => inl (toLuaBulk (Some b))
  | VNil => inl (toLuaBulk None)
  | VInt64 n => inl (toLuaInteger n)
  | VString _ | VError _ => inr (PanicText (str "invalid array type"))
  end.

Definition toLuaArray (lst : option (list value)) : lua_value + go_panic :=
  match lst with None => inl (LBool false) | Some lst => toLuaValue (VArray lst) end.

(** The calls of [luaWriter]: the value that is pushed, or the panic. *)
Definition lua_write (w : wcall) : lua_value + go_panic :=
  match w with
  | writeError err => inr (PanicErr err)
  | writeStatus status => inl (table_of [LString (str "ok"); LString status])
  | writeInteger n => inl (toLuaInteger n)
  | writeBulk b => inl (toLuaBulk b)
  | writeArray lst => toLuaArray lst
  | writeSliceArray lst => inl (toLuaSliceArray lst)
  | writeFVPairArray None => inl (LBool false)
  | writeFVPairArray (Some lst) => inl (table_of (concat (map (fun '(f, v) => [LString f; LString v]) lst)))
  | writeScorePairArray None _ => inl (LBool false)
  | writeScorePairArray (Some lst) withScores =>
      inl (table_of (concat (map (fun p => LString (Member p) :: if withScores then [LString (FormatInt64ToSlice (Score p))] else []) lst)))
  | writeBulkFrom _ _ => inr (PanicErr (Errorf (str "unsupport")))
  end.

(** *** From Lua to replies *)

Definition is_string (v : lua_value) : bool := match v with LString _ => true | _ => false end.

Definition lua_String (v : lua_value) : bytes := match v with LString s => s | _ => lua_text v end.

(** The values before the first nil. *)
Fixpoint until_nil (l : list (lua_value * value)) : list value :=
  match l with
  | [] => []
  | (LNil, _) :: _ => []
  | (_, v) :: l => v :: until_nil l
  end.

(** [flatTable[1]] is "ok" or "err", and there are at most two values. *)
Definition status_table (entries : list (lua_value * lua_value)) : option (bytes * option lua_value) :=
  match entries with
  | [(_, LString s)] => Some (strings_ToLower s, None)
  | [(_, LString s); (_, x)] => Some (strings_ToLower s, Some x)
  | _ => None
  end.

Fixpoint luaValueToLedisValue (v : lua_value) : value :=
  match v with
  | LString s => VBytes s
  | LBool b => if b then VInt64 1 else VNil
  | LNumber f => VInt64 (int64_of_float64 f)
  | LTable entries =>
      let array := VArray (until_nil (map (fun '(_, x) => (x, luaValueToLedisValue x)) entries)) in
      if existsb (fun '(k, _) => is_string k) entries then
        VError (Errorf (str "only array-tables are supported: " ++ lua_quote (lua_text v)))
      else match entries with
      | [] => VNil
      | _ =>
          match status_table entries with
          | Some (s, x) =>
              if bool_decide (s = str "ok") then VString (match x with Some x => lua_String x | None => str "ok" end)
              else if bool_decide (s = str "err") then VError (Errorf (match x with Some x => lua_String x | None => str "err" end))
              else array
          | None => array
          end
      end
  | _ => VNil
  end.

(** [writeValue]: the call of the writer; an error is no value. *)
Definition writeValue (v : value) : outcome wcall :=
  match v with
  | VArray lst => Ret (writeArray (Some lst))
  | VSlices lst => Ret (writeSliceArray (Some (map Some lst)))
  | VBytes b => Ret (writeBulk (Some b))
  | VString s => Ret (writeStatus s)
  | VNil => Ret (writeBulk None)
  | VInt64 n => Ret (writeInteger n)
  | VError _ => Panic
  end.
End Convert.

(** ** Running scripts *)

Section Run.
Context {B : Backend} {MO : MapOrder} {PK : Packages} {Cfg : AppConfig} {T : ErrorText} {L : Lua}.

(** [script]: the client that runs the commands of scripts, whether its [db] is set, the
    state of the interpreter with its stack (the last element is the top), and the names of
    the chunks. *)
Record script := mkScript {
  sc_c : client;
  sc_prepared : bool;
  sc_lua : lua_state;
  sc_stack : list lua_value;
  sc_chunks : gset bytes
}.

Abbreviation SC := (SM ((client * App) * script)).

Definition of_client {A} (p : CM A) : SC A := fun '(s, sc) => let '(o, s) := p s in (o, (s, sc)).
Definition get_script : SC script := fun '(s, sc) => (Ret sc, (s, sc)).
Definition set_script (f : script -> script) : SC unit := fun '(s, sc) => (Ret tt, (s, f sc)).

Definition with_lua (st : lua_state) (stack : list lua_value) (sc : script) : script := mkScript (sc_c sc) (sc_prepared sc) st stack (sc_chunks sc).
Definition with_prepared (c : client) (b : bool) (sc : script) : script := mkScript c b (sc_lua sc) (sc_stack sc) (sc_chunks sc).
Definition with_chunks (chunks : gset bytes) (sc : script) : script := mkScript (sc_c sc) (sc_prepared sc) (sc_lua sc) (sc_stack sc) chunks.

(** *** The functions of the server *)

Definition luaPushError (msg : bytes) : lua_value := table_of [LString (str "err"); LString msg].

(** [l.ToString]: the text of a string or a number. *)
Definition lua_ToString (v : lua_value) : bytes := match v with LString s => s | LNumber _ => lua_text v | _ => [] end.

Definition luaReturnSingleFieldTable (args : list lua_value) (filed : bytes) : lua_value :=
  match args with
  | [LString _] => table_of [LString filed]
  | _ => luaPushError (str "wrong number or type of arguments")
  end.

Definition luaSha1Hex (args : list lua_value) : lua_value :=
  match args with
  | [v] => LString (EncodeToString (lua_ToString v))
  | _ => luaPushError (str "wrong number of arguments")
  end.

(** The arguments of a command, or the panic. *)
Fixpoint lua_args (args : list lua_value) : list bytes + go_panic :=
  match args with
  | [] => inl []
  | v :: args =>
      match v with
      | LNumber f => match lua_args args with inl l => inl (lua_g17 f :: l) | inr p => inr p end
      | LString s => match lua_args args with inl l => inl (s :: l) | inr p => inr p end
      | _ => inr (PanicText (str "Lua ledis() command arguments must be strings or integers"))
      end
  end.

(** What a call of the server gives a script; a blocking command may still wait. *)
Inductive lua_res := LValue (v : lua_value) | LPanic (p : go_panic) | LWaiting.

(** The commands of cmd_script.go, which take the lock of the script. *)
Definition script_command (cmd : bytes) : bool := existsb (fun n => bool_decide (strings_ToLower cmd = str n)) ["eval"; "evalsha"; "script"].

(** [c.perform()] of the client of scripts: its writer pushes the reply or panics.  A script
    that calls EVAL waits for ever, since EVAL holds the lock of the script. *)
Definition lua_perform (cmd : bytes) (args : list bytes) : SC lua_res := fun '((c, a), sc) =>
  let lc := sc_c sc in
  let lc := mkClient (c_db lc) cmd args (c_isAuthed lc) [] (c_fn lc) (c_blocked lc) in
  if script_command cmd && negb (authEnabled && negb (c_isAuthed lc)) then (Ret LWaiting, ((c, a), mkScript lc (sc_prepared sc) (sc_lua sc) (sc_stack sc) (sc_chunks sc)))
  else
  let '(o, (lc, a)) := perform (lc, a) in
  (Ret (match o with
        | Panic => LPanic PanicRuntime
        | Ret Blocked => LWaiting
        | Ret _ => match last (c_resp lc) with
                   | Some w => match lua_write w with inl v => LValue v | inr p => LPanic p end
                   | None => LValue LNil
                   end
        end), ((c, a), mkScript lc (sc_prepared sc) (sc_lua sc) (sc_stack sc) (sc_chunks sc))).

Definition luaCallGenericCommand (args : list lua_value) : SC lua_res :=
  sc ← get_script;
  if negb (sc_prepared sc) then mret (LPanic (PanicText (str "Invalid lua call, not prepared")))
  else match args with
  | [] => mret (LPanic (PanicText (str "Please specify at least one argument for ledis.call()")))
  | cmd :: args =>
      match lua_args args with
      | inr p => mret (LPanic p)
      | inl args => lua_perform (lua_ToString cmd) args
      end
  end.

Definition panic_text (p : go_panic) : bytes :=
  match p with PanicErr err => error_text err | PanicText text => text | PanicRuntime => runtime_text end.

Definition luaCall (args : list lua_value) : SC lua_res := luaCallGenericCommand args.

Definition luaPCall (args : list lua_value) : SC lua_res :=
  r ← luaCallGenericCommand args;
  mret (match r with LPanic p => LValue (luaPushError (panic_text p)) | _ => r end).

(** [luaErrorHandler] *)
Definition luaErrorHandler (args : list lua_value) : go_panic :=
  PanicErr (Errorf (match args with v :: _ => lua_ToString v | [] => [] end)).

Definition lua_apply (f : lua_fn) (args : list lua_value) : SC lua_res :=
  match f with
  | FCall => luaCall args
  | FPCall => luaPCall args
  | FSha1hex => mret (LValue (luaSha1Hex args))
  | FErrorReply => mret (LValue (luaReturnSingleFieldTable args (str "err")))
  | FStatusReply => mret (LValue (luaReturnSingleFieldTable args (str "ok")))
  | FError => mret (LPanic (luaErrorHandler args))
  end.

(** [l.Call(0, lua.MultRet)]: the results are pushed on what the stack held. *)
Inductive lua_end := EndOk | EndPanic (text : bytes) | EndWaiting.

Fixpoint lua_run (p : lua_prog lua_state) : SC lua_end :=
  match p with
  | LDone results st => _ ← set_script (fun sc => with_lua st (sc_stack sc ++ results) sc); mret EndOk
  | LThrow text st =>
      _ ← set_script (fun sc => let '(stack, st) := lua_unwind (sc_stack sc) st in with_lua st stack sc);
      mret (EndPanic text)
  | LFn f args st k =>
      r ← lua_apply f args;
      match r with
      | LValue v => lua_run (k v)
      | LWaiting => mret EndWaiting
      | LPanic p =>
          _ ← set_script (fun sc => let '(stack, st) := lua_unwind (sc_stack sc) st in with_lua st stack sc);
          mret (EndPanic (panic_text p))
      end
  end.

(** *** EVAL and EVALSHA *)

Definition parseEvalArgs (args : list bytes) : outcome (list bytes * list bytes + cmd_error) :=
  match args with
  | _ :: ((n :: rest) as args) =>
      match Atoi n with
      | inr err => Ret (inr err)
      | inl n =>
          if n >? len args - 1 then Ret (inr ErrCmdParams)
          else match slice args 1 (n + 1), slice args (n + 1) (len args) with
          | Ret keys, Ret argv => Ret (inl (keys, argv))
          | _, _ => Panic
          end
      end
  | _ => Ret (inr ErrCmdParams)
  end.

Definition script_key (evalSha1 : bool) (arg : bytes) : bytes :=
  if negb evalSha1 then EncodeToString (take 20 (sha1_Sum arg)) else strings_ToLower arg.

(** The chunk to run: a global of its name, or the script itself, which becomes one. *)
Definition find_chunk (evalSha1 : bool) (arg : bytes) : SC (chunk + cmd_error) :=
  sc ← get_script;
  let key := script_key evalSha1 arg in
  match lua_GetGlobal key (sc_lua sc) with
  | Some global => mret (inl global)
  | None =>
      if evalSha1 then mret (inr (Errorf (str "NOSCRIPT no matching script, please use EVAL")))
      else match lua_LoadString arg with
      | inr text => mret (inr (Errorf text))
      | inl val =>
          _ ← set_script (fun sc => with_lua (lua_SetGlobal key (Some val) (sc_lua sc)) (sc_stack sc) sc);
          _ ← set_script (fun sc => with_chunks ({[key]} ∪ sc_chunks sc) sc);
          mret (inl val)
      end
  end.

(** [l.Get(-1)] *)
Definition lua_top (stack : list lua_value) : lua_value := match last stack with Some v => v | None => LNil end.

(** The reply to the client, from the top of the stack. *)
Definition eval_reply : SC cmd_ret :=
  sc ← get_script;
  match luaValueToLedisValue (lua_top (sc_stack sc)) with
  | VError err => mret (Return (Some err))
  | v =>
      match writeValue v with
      | Ret w => _ ← of_client (write w); mret (Return None)
      | Panic => mret (Return (Some (Errorf (str "panic: invalid value type"))))
      end
  end.

Definition eval_body (evalSha1 : bool) : SC cmd_ret :=
  c ← of_client get_client;
  args ← of_client (c_lift (parseEvalArgs (c_args c)));
  match args with
  | inr err => mret (Return (Some err))
  | inl (keys, argv) =>
      _ ← set_script (fun sc => with_lua (lua_SetArray (str "ARGV") argv (lua_SetArray (str "KEYS") keys (sc_lua sc))) (sc_stack sc) sc);
      global ← find_chunk evalSha1 (default [] (head (c_args c)));
      match global with
      | inr err => mret (Return (Some err))
      | inl global =>
          sc ← get_script;
          r ← lua_run (lua_start global (sc_lua sc));
          match r with
          | EndOk => eval_reply
          | EndPanic text => mret (Return (Some (Errorf (str "panic: " ++ text))))
          | EndWaiting => mret Waiting
          end
      end
  end.

(** [luaClient.db] is that of the client while the script runs. *)
Definition evalGenericCommand (evalSha1 : bool) : SC cmd_ret := fun '((c, a), sc) =>
  let '(o, (s, sc)) := eval_body evalSha1 ((c, a), with_prepared (with_db (c_db c) (sc_c sc)) true sc) in
  (o, (s, with_prepared (sc_c sc) false sc)).

Definition evalCommand : SC cmd_ret := evalGenericCommand false.
Definition evalshaCommand : SC cmd_ret := evalGenericCommand true.

(** *** SCRIPT *)

Definition scriptLoadCommand (args : list bytes) : SC cmd_ret :=
  match args with
  | [_; text] =>
      let key := script_key false text in
      match lua_LoadString text with
      | inr err => mret (Return (Some (Errorf err)))
      | inl val =>
          _ ← set_script (fun sc => with_chunks ({[key]} ∪ sc_chunks sc) (with_lua (lua_SetGlobal key (Some val) (sc_lua sc)) (sc_stack sc) sc));
          _ ← of_client (write (writeBulk (Some key)));
          mret (Return None)
      end
  | _ => mret (Return (Some ErrCmdParams))
  end.

Definition scriptExistsCommand (args : list bytes) : SC cmd_ret :=
  match args with
  | _ :: (_ :: _) as names =>
      sc ← get_script;
      _ ← of_client (write (writeArray (Some (map (fun n => VInt64 (if bool_decide (n ∈ sc_chunks sc) then 1 else 0)) (tail names)))));
      mret (Return None)
  | _ => mret (Return (Some ErrCmdParams))
  end.

Definition scriptFlushCommand (args : list bytes) : SC cmd_ret :=
  match args with
  | [_] =>
      _ ← set_script (fun sc => with_chunks ∅ (with_lua (foldr (fun n st => lua_SetGlobal n None st) (sc_lua sc) (elements (sc_chunks sc))) (sc_stack sc) sc));
      _ ← of_client (write (writeStatus OK));
      mret (Return None)
  | _ => mret (Return (Some ErrCmdParams))
  end.

(** The stack is reset after the command. *)
Definition scriptCommand : SC cmd_ret :=
  c ← of_client get_client;
  match c_args c with
  | [] => mret (Return (Some ErrCmdParams))
  | sub :: _ =>
      if lower_is sub "load" then scriptLoadCommand (c_args c)
      else if lower_is sub "exists" then scriptExistsCommand (c_args c)
      else if lower_is sub "flush" then scriptFlushCommand (c_args c)
      else mret (Return (Some (Errorf (str "invalid script " ++ sub))))
  end.
End Run.

(** * Replies through a script *)

Section Roundtrip.
Context {B : Backend} {PK : Packages} {L : Lua} {T : ErrorText}.
Implicit Types (x : lua_value) (xs : list lua_value) (v : value).

Definition status_word (b : bytes) : bool := bool_decide (strings_ToLower b = str "ok") || bool_decide (strings_ToLower b = str "err").

(** A table that is taken for a status or an error. *)
Definition lua_status xs : bool := match xs with [LString s] | [LString s; _] => status_word s | _ => false end.

Lemma table_keys (g : nat -> float64) xs : existsb (fun '(k, _) => is_string k) (imap (fun i y => (LNumber (g i), y)) xs) = false.
Proof. revert g. induction xs as [|x xs IH]; intros g; [done|]. rewrite imap_cons. cbn. apply (IH (g ∘ S)). Qed.

Lemma table_values {A} (f : lua_value -> A) (g : nat -> lua_value) xs : map (fun '(_, x) => (x, f x)) (imap (fun i y => (g i, y)) xs) = map (fun x => (x, f x)) xs.
Proof. revert g. induction xs as [|x xs IH]; intros g; [done|]. rewrite imap_cons. cbn. f_equal. apply (IH (g ∘ S)). Qed.

Lemma until_nil_all (f : lua_value -> value) xs : Forall (fun x => x <> LNil) xs -> until_nil (map (fun x => (x, f x)) xs) = map f xs.
Proof. induction 1 as [|x xs Hx _ IH]; [done|]. cbn [map until_nil]. destruct x; try done; by f_equal. Qed.

Lemma table_back xs : xs <> [] -> Forall (fun x => x <> LNil) xs -> lua_status xs = false -> luaValueToLedisValue (table_of xs) = VArray (map luaValueToLedisValue xs).
Proof.
  intros Hne Hn Hs. unfold table_of. cbn [luaValueToLedisValue]. rewrite table_keys. rewrite (table_values luaValueToLedisValue), (until_nil_all _ _ Hn).
  destruct xs as [|x xs]; [done|]. rewrite imap_cons. cbn [status_table]. unfold status_table.
  destruct xs as [|y [|z xs]]; rewrite ?imap_cons; cbn [imap]; destruct x as [| | |s| |]; try done;
    cbn [lua_status] in Hs; unfold status_word in Hs; apply orb_false_iff in Hs as [H1 H2]; unfold compose; cbn [map]; cbv beta iota; by rewrite H1, H2.
Qed.

(** An array that is taken for a status or an error. *)
Definition status_like (lst : list value) : bool := match lst with [VBytes s] | [VBytes s; _] => status_word s | _ => false end.

(** Values that come through a script unchanged: integers of 53 bits, and arrays that are
    neither empty nor taken for a status. *)
Fixpoint lua_fits v : bool :=
  match v with
  | VArray lst => negb (bool_decide (length lst = 0%nat)) && negb (status_like lst) && forallb lua_fits lst
  | VSlices lst => negb (bool_decide (length lst = 0%nat)) && negb (status_like (map VBytes lst))
  | VInt64 n => (- 2 ^ 53 <? n) && (n <? 2 ^ 53)
  | VBytes _ | VNil => true
  | VString _ | VError _ => false
  end.

Lemma toLua_array (lst : list value) xs : Forall2 (fun v x => toLuaValue v = inl x) lst xs -> toLuaValue (VArray lst) = inl (table_of xs).
Proof.
  intros HF. cbn [toLuaValue]. match goal with |- ?g lst [] = _ => set (go := g) end.
  assert (H : forall acc, go lst acc = inl (table_of (acc ++ xs))); [|apply (H [])].
  induction HF as [|v x lst xs Hv HF IH]; intros acc; cbn [go]; [by rewrite app_nil_r|]. change (go (v :: lst) acc) with (match toLuaValue v with inl x => go lst (acc ++ [x]) | inr p => inr p end).
  rewrite Hv, IH. by rewrite <- app_assoc.
Qed.

(** What the conversion of a value is. *)
Definition carried v x : Prop := toLuaValue v = inl x /\ x <> LNil /\ resp_value (luaValueToLedisValue x) = resp_value v /\ forall s, x = LString s -> v = VBytes s.

Lemma carried_array (lst : list value) xs : Forall2 carried lst xs -> lst <> [] -> status_like lst = false -> carried (VArray lst) (table_of xs).
Proof.
  intros HF Hne Hs. assert (Hx : Forall (fun x => x <> LNil) xs) by (apply Forall_forall; intros x Hx; apply list_elem_of_lookup in Hx as [i Hi];
    destruct (Forall2_lookup_r _ _ _ _ _ HF Hi) as (v & _ & _ & H & _); done).
  assert (Hls : lua_status xs = false).
  { destruct HF as [|v x l l' [_ (_ & _ & H1)] HF]; [done|]. destruct HF as [|w y l l' Hw HF]; [|destruct HF]; destruct x as [| | |s| |]; try done; by rewrite (H1 s eq_refl) in Hs. }
  split; [|split; [done|split; [|done]]].
  - apply toLua_array. eapply Forall2_impl; [exact HF|]. by intros v x [H _].
  - rewrite table_back; [|by intros ->; inversion HF; subst|done|done]. cbn [resp_value]. rewrite length_map, (Forall2_length _ _ _ HF). f_equal. f_equal.
    clear Hne Hs Hx Hls. induction HF as [|v x l l' (_ & _ & H & _) HF IH]; [done|]. cbn [map]. by rewrite H, IH.
Qed.

Lemma carried_bulk (b : option bytes) : carried (match b with Some b => VBytes b | None => VNil end) (toLuaBulk b).
Proof. destruct b as [b|]; (split; [done|]); (split; [done|]); (split; [done|]); [by intros s [= ->]|done]. Qed.

Lemma carried_slices (lst : list (option bytes)) : lst <> [] -> let vs := map (fun b => match b with Some b => VBytes b | None => VNil end) lst in status_like vs = false ->
  carried (VArray vs) (toLuaSliceArray (Some lst)).
Proof.
  intros Hne vs Hs. apply carried_array; [|by destruct lst|done]. unfold vs. clear. induction lst as [|b lst IH]; cbn [map]; constructor; [apply carried_bulk|done].
Qed.

Lemma fits_carried v : lua_fits v = true -> exists x, carried v x.
Proof.
  revert v. fix IH 1. intros [lst|lst|b| |n|status|err]; cbn [lua_fits]; try done.
  - rewrite !andb_true_iff, !negb_true_iff, bool_decide_eq_false. intros [[Hne Hs] HF].
    assert (H : exists xs, Forall2 carried lst xs).
    { clear Hne Hs. induction lst as [|v lst IHl]; [by exists []|]. cbn [forallb] in HF. apply andb_true_iff in HF as [Hv HF]. destruct (IH v Hv) as [x Hx]. destruct (IHl HF) as [xs Hxs]. exists (x :: xs). by constructor. }
    destruct H as [xs Hxs]. exists (table_of xs). apply carried_array; [done|by intros ->|done].
  - rewrite !andb_true_iff, !negb_true_iff, bool_decide_eq_false. intros [Hne Hs]. exists (toLuaSliceArray (Some (map Some lst))).
    destruct (carried_slices (map Some lst)) as (_ & H2 & H3 & H4); [by destruct lst|by rewrite map_map|]. split; [done|]. split; [done|]. split; [|done]. rewrite H3. rewrite map_map.
    cbn [resp_value resp_slices]. rewrite !length_map. f_equal. by rewrite !map_map.
  - intros _. exists (LString b). apply (carried_bulk (Some b)).
  - intros _. exists (LBool false). apply (carried_bulk None).
  - rewrite andb_true_iff, !Z.ltb_lt. intros Hn. exists (toLuaInteger n). split; [done|]. split; [done|]. split; [|done]. cbn. by rewrite float64_exact.
Qed.
End Roundtrip.

(** ** The reply of a command that a script returns *)

Section Transparent.
Context {B : Backend} {MO : MapOrder} {PK : Packages} {Cfg : AppConfig} {T : ErrorText} {L : Lua}.

(** The call of the writer for a value that is no error. *)
Definition call_of (v : value) : wcall := match writeValue v with Ret w => w | Panic => writeBulk None end.

Definition bulk_value (b : option bytes) : value := match b with Some b => VBytes b | None => VNil end.

(** The elements of an array reply. *)
Definition call_values (w : wcall) : option (list value) :=
  match w with
  | writeArray lst => lst
  | writeSliceArray lst => option_map (map bulk_value) lst
  | writeFVPairArray lst => option_map (fun lst => concat (map (fun '(f, v) => [VBytes f; VBytes v]) lst)) lst
  | writeScorePairArray lst withScores =>
      option_map (fun lst => concat (map (fun p => VBytes (Member p) :: if withScores then [VBytes (FormatInt64ToSlice (Score p))] else []) lst)) lst
  | _ => None
  end.

(** Calls whose replies come through a script unchanged. *)
Definition call_fits (w : wcall) : bool :=
  match w with
  | writeStatus _ | writeBulk _ => true
  | writeInteger n => lua_fits (VInt64 n)
  | writeError _ | writeBulkFrom _ _ => false
  | _ => match call_values w with Some lst => lua_fits (VArray lst) | None => false end
  end.

Lemma carried_bytes (bs : list bytes) : Forall2 carried (map VBytes bs) (map LString bs).
Proof. induction bs as [|b bs IH]; cbn [map]; constructor; [apply (carried_bulk (Some b))|done]. Qed.

Lemma resp_pairs (lst : list (bytes * bytes)) : resp_fvpairs (Some lst) = resp_value (VArray (concat (map (fun '(f, v) => [VBytes f; VBytes v]) lst))).
Proof.
  cbn [resp_fvpairs resp_value]. f_equal.
  - rewrite (flat_length _ 2); [|by intros []]. f_equal. lia.
  - rewrite concat_flat. f_equal. apply map_ext. intros [f v]. cbn. by rewrite app_nil_r.
Qed.

Lemma resp_scores (lst : list ScorePair) (ws : bool) :
  resp_scorepairs (Some lst) ws = resp_value (VArray (concat (map (fun p => VBytes (Member p) :: if ws then [VBytes (FormatInt64ToSlice (Score p))] else []) lst))).
Proof.
  cbn [resp_scorepairs resp_value]. f_equal.
  - rewrite (flat_length _ (if ws then 2 else 1)%nat); [|by destruct ws]. f_equal. destruct ws; lia.
  - rewrite concat_flat. f_equal. apply map_ext. intros p. destruct ws; cbn; by rewrite ?app_nil_r.
Qed.

(** Arrays of elements that are carried. *)
Lemma array_carried (lst : list value) (xs : list lua_value) : lua_fits (VArray lst) = true -> Forall2 carried lst xs ->
  resp_bytes (call_of (luaValueToLedisValue (table_of xs))) = resp_value (VArray lst) /\ forall err, luaValueToLedisValue (table_of xs) <> VError err.
Proof.
  cbn [lua_fits]. rewrite !andb_true_iff, !negb_true_iff, bool_decide_eq_false. intros [[Hne Hs] _] HF.
  assert (Hl : lst <> []) by (by intros ->). destruct (carried_array lst xs HF Hl Hs) as (_ & _ & Hr & _).
  assert (E : exists l, luaValueToLedisValue (table_of xs) = VArray l).
  { assert (Hx : Forall (fun x => x <> LNil) xs) by (apply Forall_forall; intros x Hx; apply list_elem_of_lookup in Hx as [i Hi]; destruct (Forall2_lookup_r _ _ _ _ _ HF Hi) as (v & _ & _ & H & _); done).
    exists (map luaValueToLedisValue xs). apply table_back; [by intros ->; inversion HF; subst|done|].
    destruct HF as [|v x l l' [_ (_ & _ & H1)] HF]; [done|]. destruct HF as [|w y l l' Hw HF]; [|destruct HF]; destruct x as [| | |s| |]; try done; by rewrite (H1 s eq_refl) in Hs. }
  destruct E as [l E]. rewrite E in *. done.
Qed.

Lemma fits_elements (lst : list value) : lua_fits (VArray lst) = true -> exists xs, Forall2 carried lst xs.
Proof.
  cbn [lua_fits]. rewrite !andb_true_iff. intros [_ HF]. induction lst as [|v lst IH]; [by exists []|]. cbn [forallb] in HF. apply andb_true_iff in HF as [Hv HF].
  destruct (fits_carried v Hv) as [x Hx]. destruct (IH HF) as [xs Hxs]. exists (x :: xs). by constructor.
Qed.

Lemma write_carried (w : wcall) : call_fits w = true -> exists x, lua_write w = inl x /\ resp_bytes (call_of (luaValueToLedisValue x)) = resp_bytes w /\ forall err, luaValueToLedisValue x <> VError err.
Proof.
  destruct w as [err|status|n|b|[lst|]|[lst|]|[lst|]|[lst|] ws|n rb]; cbn [call_fits call_values option_map]; try done.
  - intros _. eexists. split; [reflexivity|]. assert (E : luaValueToLedisValue (table_of [LString (str "ok"); LString status]) = VString status).
    { unfold table_of. rewrite !imap_cons. cbn [imap]. cbn [luaValueToLedisValue existsb is_string orb]. unfold status_table, compose. by rewrite bool_decide_true by (by vm_compute). }
    rewrite E. done.
  - intros Hn. destruct (fits_carried _ Hn) as (x & Hx & _ & Hr & _). injection Hx as <-. exists (toLuaInteger n). split; [done|]. split; [exact Hr|done].
  - intros _. exists (toLuaBulk b). split; [done|]. by destruct b.
  - intros Hf. destruct (fits_elements lst Hf) as [xs Hxs]. exists (table_of xs). split; [cbn [lua_write toLuaArray]; apply toLua_array; eapply Forall2_impl; [exact Hxs|]; by intros v x []|]. by apply array_carried.
  - intros Hf. exists (table_of (map toLuaBulk lst)). split; [done|]. destruct (array_carried _ (map toLuaBulk lst) Hf) as [H1 H2].
    + clear Hf. induction lst as [|b lst IH]; cbn [map]; constructor; [apply carried_bulk|done].
    + split; [|done]. rewrite H1. cbn [resp_value resp_bytes resp_slices]. rewrite length_map. f_equal. rewrite map_map. f_equal. apply map_ext. by intros [].
  - intros Hf. eexists. split; [reflexivity|]. cbn [resp_bytes]. rewrite resp_pairs. set (bs := concat (map (fun '(f, v) => [f; v]) lst)).
    assert (E1 : concat (map (fun '(f, v) => [VBytes f; VBytes v]) lst) = map VBytes bs) by (unfold bs; rewrite map_flat; f_equal; apply map_ext; by intros []).
    assert (E2 : concat (map (fun '(f, v) => [LString f; LString v]) lst) = map LString bs) by (unfold bs; rewrite map_flat; f_equal; apply map_ext; by intros []).
    rewrite E1 in *. rewrite E2. apply array_carried; [done|]. apply carried_bytes.
  - intros Hf. eexists. split; [reflexivity|]. cbn [resp_bytes]. rewrite resp_scores. set (bs := concat (map (fun p => Member p :: if ws then [FormatInt64ToSlice (Score p)] else []) lst)).
    assert (E1 : concat (map (fun p => VBytes (Member p) :: if ws then [VBytes (FormatInt64ToSlice (Score p))] else []) lst) = map VBytes bs) by (unfold bs; rewrite map_flat; f_equal; apply map_ext; intros p; by destruct ws).
    assert (E2 : concat (map (fun p => LString (Member p) :: if ws then [LString (FormatInt64ToSlice (Score p))] else []) lst) = map LString bs) by (unfold bs; rewrite map_flat; f_equal; apply map_ext; intros p; by destruct ws).
    rewrite E1 in *. rewrite E2. apply array_carried; [done|]. apply carried_bytes.
Qed.
End Transparent.

(** ** Scripts and the store *)

Section ReadOnly.
Context {B : Backend} {BS : BackendSpec B} {MO : MapOrder} {OS : MapOrderSpec MO} {PK : Packages} {Cfg : AppConfig} {T : ErrorText} {L : Lua}.
Implicit Types (c : client) (a : App) (sc : script).

(** FLUSHALL, and the registered commands that are not in the table [regCmds]. *)
Definition excluded : list bytes := map str ["flushall"; "slaveof"; "role"; "sync"; "fullsync"; "replconf"; "xmigrate"; "xmigratedb"; "info"; "config"; "time"].

Definition allowed_call (f : lua_fn) (args : list lua_value) : Prop :=
  match f, args with
  | (FCall | FPCall), cmd :: _ => strings_ToLower (lua_ToString cmd) ∉ excluded
  | _, _ => True
  end.

Fixpoint allowed_calls (p : lua_prog lua_state) : Prop :=
  match p with
  | LFn f args _ k => allowed_call f args /\ forall v, allowed_calls (k v)
  | _ => True
  end.

(** A read only server with the client of scripts in order; the entries are [m] and the
    client that runs the script has the database and the authentication of [c]. *)
Definition frozen c (m : gmap bytes bytes) (s : (client * App) * script) : Prop :=
  (c_db s.1.1 = c_db c /\ c_isAuthed s.1.1 = c_isAuthed c) /\ srv_ok (sc_c s.2, s.1.2) /\ read_only (sc_c s.2, s.1.2) = true /\ store (sc_c s.2, s.1.2) = m.

(** [p] keeps the server frozen, whatever becomes of it. *)
Definition freezes {A} c m (p : SM ((client * App) * script) A) : Prop := forall s, frozen c m s -> frozen c m (p s).2.

Lemma freezes_ret {A} c m (x : A) : freezes c m (mret x).
Proof using. by intros s Hs. Qed.

Lemma freezes_bind {A A'} c m (p : SM ((client * App) * script) A) (k : A -> SM ((client * App) * script) A') : freezes c m p -> (forall x, freezes c m (k x)) -> freezes c m (p ≫= k).
Proof using. intros Hp Hk s Hs. unfold mbind, SM_bind. specialize (Hp s Hs). destruct (p s) as [[x|] s1]; [by apply Hk|done]. Qed.

Lemma freezes_script c m (f : script -> script) : (forall sc, sc_c (f sc) = sc_c sc) -> freezes c m (set_script f).
Proof using. intros Hf [[c1 a1] sc] Hs. unfold frozen, set_script in *. cbn [fst snd] in *. by rewrite Hf. Qed.

Lemma freezes_get c m : freezes c m get_script.
Proof using. by intros [[c1 a1] sc] Hs. Qed.

Lemma frozen_call c m (cmd : bytes) (args : list bytes) : strings_ToLower cmd ∉ excluded -> freezes c m (lua_perform cmd args).
Proof using BS OS.
  intros Hc [[c1 a1] sc] (E & Hok & Hro & Hm). cbn [fst snd] in *. unfold lua_perform. cbn zeta. set (lc := mkClient _ _ _ _ _ _ _).
  assert (Hlc : srv_ok (lc, a1)) by (destruct Hok as [Hc1 Ha]; by split). destruct (perform_changes (lc, a1) Hlc) as (db & [H1 H2 H3 H4]); [intros E1; apply Hc; change (strings_ToLower cmd = str "flushall") in E1; rewrite E1; unfold excluded; cbn [map]; left|].
  destruct (_ && _); [by split|]. destruct (perform (lc, a1)) as [o [lc' a']] eqn:Ep. cbn [fst snd] in *. split; [done|]. cbn [fst snd sc_c]. split; [exact H1|]. split; [by rewrite H3|]. by rewrite H4.
Qed.

Lemma frozen_generic c m (args : list lua_value) : allowed_call FCall args -> freezes c m (luaCallGenericCommand args).
Proof using BS OS.
  intros Ha. unfold luaCallGenericCommand. apply freezes_bind; [apply freezes_get|]. intros sc. destruct (negb _); [apply freezes_ret|].
  destruct args as [|cmd args]; [apply freezes_ret|]. destruct (lua_args args); [by apply frozen_call|apply freezes_ret].
Qed.

Lemma frozen_run c m (p : lua_prog lua_state) : allowed_calls p -> freezes c m (lua_run p).
Proof using BS OS.
  induction p as [results st|text st|f args st k IH]; cbn [allowed_calls lua_run].
  - intros _. apply freezes_bind; [by apply freezes_script|]. intros _. apply freezes_ret.
  - intros _. apply freezes_bind; [apply freezes_script; intros sc; by destruct (lua_unwind _ _)|]. intros _. apply freezes_ret.
  - intros [Ha Hk]. apply freezes_bind.
    + destruct f; try apply freezes_ret; [by apply frozen_generic|]. apply freezes_bind; [by apply frozen_generic|]. intros r. apply freezes_ret.
    + intros [v|q|]; [by apply IH| |apply freezes_ret]. apply freezes_bind; [apply freezes_script; intros sc; by destruct (lua_unwind _ _)|]. intros _. apply freezes_ret.
Qed.

Lemma frozen_find c m (sha : bool) (arg : bytes) : freezes c m (find_chunk sha arg).
Proof using.
  unfold find_chunk. apply freezes_bind; [apply freezes_get|]. intros sc. destruct (lua_GetGlobal _ _); [apply freezes_ret|]. destruct sha; [apply freezes_ret|].
  destruct (lua_LoadString arg); [|apply freezes_ret]. apply freezes_bind; [by apply freezes_script|]. intros _. apply freezes_bind; [by apply freezes_script|]. intros _. apply freezes_ret.
Qed.

Lemma freezes_write c m (w : wcall) : freezes c m (of_client (write w)).
Proof using. by intros [[c1 a1] sc] Hs. Qed.

Lemma frozen_body c m (sha : bool) : (forall ch st, allowed_calls (lua_start ch st)) -> freezes c m (eval_body sha).
Proof using BS OS.
  intros Hp. unfold eval_body. apply freezes_bind; [by intros [[c1 a1] sc] Hs|]. intros c1. apply freezes_bind; [by intros [[c2 a2] sc] Hs|]. intros [[keys argv]|err]; [|apply freezes_ret].
  apply freezes_bind; [by apply freezes_script|]. intros _. apply freezes_bind; [apply frozen_find|]. intros [ch|err]; [|apply freezes_ret].
  apply freezes_bind; [apply freezes_get|]. intros sc. apply freezes_bind; [by apply frozen_run|]. intros [|text|]; [|apply freezes_ret..].
  unfold eval_reply. apply freezes_bind; [apply freezes_get|]. intros sc1. destruct (luaValueToLedisValue _); first [apply freezes_ret | (apply freezes_bind; [apply freezes_write|intros _; apply freezes_ret])].
Qed.
End ReadOnly.

(** C20: scripts respect the read only mode.  On a read only server EVAL and EVALSHA, with
    whatever arguments and whatever the script computes and calls of the commands of the
    table [regCmds] but FLUSHALL, and also if it panics, leave every entry of the store, the
    database and the authentication of the client as they were; the commands of the script
    select and authenticate only for the script. *)
Theorem script_read_only {B : Backend} {BS : BackendSpec B} {MO : MapOrder} {OS : MapOrderSpec MO} {PK : Packages} {Cfg : AppConfig} {T : ErrorText} {L : Lua}
    (sha : bool) (c : client) (a : App) (sc : script) :
  srv_ok (with_db (c_db c) (sc_c sc), a) -> readonly (ledis a) = true -> (forall ch st, allowed_calls (lua_start ch st)) ->
  let s' := (evalGenericCommand sha ((c, a), sc)).2 in
  contents (ledis s'.1.2) = contents (ledis a) /\ readonly (ledis s'.1.2) = true /\ c_db s'.1.1 = c_db c /\ c_isAuthed s'.1.1 = c_isAuthed c.
Proof.
  intros Hok Hro Hp s'. unfold s', evalGenericCommand.
  pose proof (frozen_body c (contents (ledis a)) sha Hp ((c, a), with_prepared (with_db (c_db c) (sc_c sc)) true sc)) as HF.
  destruct (eval_body sha _) as [o [[c' a'] sc']] eqn:E. cbn [fst snd] in *. by destruct HF as ((H1 & H2) & _ & H3 & H4).
Qed.

Section Call.
Context {B : Backend} {MO : MapOrder} {PK : Packages} {Cfg : AppConfig} {T : ErrorText} {L : Lua}.
Implicit Types (c : client) (a : App) (sc : script).

Lemma lua_args_strings (args : list bytes) : lua_args (map LString args) = inl args.
Proof. induction args as [|b args IH]; [done|]. cbn. by rewrite IH. Qed.

(** The chunk is found, and only the interpreter has changed. *)
Lemma find_chunk_ok (s : client * App) sc (src : bytes) (ch : chunk) :
  lua_GetGlobal (script_key false src) (sc_lua sc) = Some ch \/ lua_GetGlobal (script_key false src) (sc_lua sc) = None /\ lua_LoadString src = inl ch ->
  exists st chunks, find_chunk false src (s, sc) = (Ret (inl ch), (s, mkScript (sc_c sc) (sc_prepared sc) st (sc_stack sc) chunks)).
Proof.
  intros Hch. unfold find_chunk, mbind, SM_bind, get_script, set_script. destruct sc as [lc pr st stack chunks]. cbn [sc_lua] in *.
  destruct Hch as [H|[H1 H2]]; [rewrite H; by eexists _, _|]. rewrite H1, H2. by eexists _, _.
Qed.

(** The call of a command from a script. *)
Lemma lua_call_ok c a sc (cmd : bytes) (args : list bytes) (lc' : client) (a' : App) (w : wcall) (x : lua_value) : sc_prepared sc = true -> script_command cmd = false ->
  perform (mkClient (c_db (sc_c sc)) cmd args (c_isAuthed (sc_c sc)) [] (c_fn (sc_c sc)) (c_blocked (sc_c sc)), a) = (Ret Continue, (lc', a')) -> last (c_resp lc') = Some w -> lua_write w = inl x ->
  lua_apply FCall (map LString (cmd :: args)) ((c, a), sc) = (Ret (LValue x), ((c, a'), mkScript lc' true (sc_lua sc) (sc_stack sc) (sc_chunks sc))).
Proof.
  intros Hpr Hsc Hp Hw Hx. cbn [lua_apply]. unfold luaCall, luaCallGenericCommand. rewrite (bind_run get_script _ _ ((c, a), sc) sc) by done. rewrite Hpr. cbn [negb map]. rewrite lua_args_strings.
  unfold lua_perform. cbn [lua_ToString]. rewrite Hsc. cbn [andb]. rewrite Hp, Hw, Hx. by rewrite Hpr.
Qed.

Lemma eval_reply_ok c a sc (x : lua_value) : lua_top (sc_stack sc) = x -> (forall err, luaValueToLedisValue x <> VError err) ->
  exists c', eval_reply ((c, a), sc) = (Ret (Return None), ((c', a), sc)) /\ c_resp c' = c_resp c ++ [call_of (luaValueToLedisValue x)].
Proof.
  intros <- Hne. unfold eval_reply. rewrite (bind_run get_script _ _ ((c, a), sc) sc) by done. destruct (luaValueToLedisValue _) eqn:E; try by eexists. by destruct (Hne err).
Qed.
End Call.

(** C18: a script that returns the reply of a command gives the client that reply, byte for
    byte.  EVAL of [return ledis.call(cmd, args)] leaves the store the command leaves and
    replies what it replies, if that is a status, a bulk string, an integer of 53 bits, or an
    array of such that is neither empty nor looks like a status to Lua. *)
Theorem script_transparent {B : Backend} {MO : MapOrder} {PK : Packages} {Cfg : AppConfig} {T : ErrorText} {L : Lua}
    (c lc' : client) (a a' : App) (sc : script) (src cmd : bytes) (args : list bytes) (ch : chunk) (w : wcall) :
  let st0 := lua_SetArray (str "ARGV") [] (lua_SetArray (str "KEYS") [] (sc_lua sc)) in
  c_args c = [src; str "0"] -> lua_GetGlobal (script_key false src) st0 = Some ch \/ lua_GetGlobal (script_key false src) st0 = None /\ lua_LoadString src = inl ch ->
  (forall st, lua_start ch st = LFn FCall (map LString (cmd :: args)) st (fun v => LDone [v] st)) -> script_command cmd = false ->
  perform (mkClient (c_db c) cmd args (c_isAuthed (sc_c sc)) [] (c_fn (sc_c sc)) (c_blocked (sc_c sc)), a) = (Ret Continue, (lc', a')) ->
  last (c_resp lc') = Some w -> call_fits w = true ->
  exists w' c' sc', evalCommand ((c, a), sc) = (Ret (Return None), ((c', a'), sc')) /\ c_resp c' = c_resp c ++ [w'] /\ resp_bytes w' = resp_bytes w.
Proof.
  intros st0 Ha Hch Hst Hsc Hp Hw Hf. destruct (write_carried w Hf) as (x & Hx & Hr & Hne).
  unfold evalCommand, evalGenericCommand. set (sc0 := with_prepared _ true sc).
  destruct (find_chunk_ok (c, a) (with_lua (lua_SetArray (str "ARGV") [] (lua_SetArray (str "KEYS") [] (sc_lua sc0))) (sc_stack sc0) sc0) src ch Hch) as (st & chunks & Ef).
  set (sc1 := mkScript _ _ st _ chunks) in Ef. pose proof (lua_call_ok c a sc1 cmd args lc' a' w x eq_refl Hsc Hp Hw Hx) as Ec.
  set (sc2 := mkScript lc' true _ _ _) in Ec. destruct (eval_reply_ok c a' (with_lua st (sc_stack sc2 ++ [x]) sc2) x) as (c' & Er & Hc'); [unfold lua_top; cbn [with_lua sc_stack]; by rewrite last_snoc|done|].
  exists (call_of (luaValueToLedisValue x)), c'. eexists. split; [|done].
  assert (E : eval_body false ((c, a), sc0) = (Ret (Return None), ((c', a'), with_lua st (sc_stack sc2 ++ [x]) sc2))); [|by rewrite E].
  unfold eval_body. rewrite (bind_run (of_client get_client) _ _ ((c, a), sc0) c) by done. rewrite (bind_run (of_client (c_lift _)) _ _ ((c, a), sc0) (inl ([], []))) by (by rewrite Ha).
  etransitivity; [eapply bind_run; reflexivity|]. rewrite Ha. cbn [head default]. etransitivity; [eapply bind_run; exact Ef|]. etransitivity; [eapply bind_run; reflexivity|]. rewrite Hst.
  assert (El : lua_run (LFn FCall (map LString (cmd :: args)) (sc_lua sc1) (fun v => LDone [v] (sc_lua sc1))) ((c, a), sc1) = (Ret EndOk, ((c, a'), with_lua st (sc_stack sc2 ++ [x]) sc2))).
  { cbn [lua_run]. by rewrite (bind_run _ _ _ _ _ Ec). }
  by rewrite (bind_run _ _ _ _ _ El).
Qed.

(** * A concrete interpreter *)

#[local] Instance ex_texts : ErrorText := {|
  num_error_text arg _ := str "strconv.ParseInt: parsing " ++ arg ++ str ": invalid syntax";
  db_error_text _ := str "error"
|}.
#[local] Instance ex_packages : Packages := {|
  pk_regexp := {| regexp := bytes; regexp_Compile := inl; regexp_Match _ _ := true |};
  pk_float := ex_floats; pk_sort := ex_sort; pk_rdb := ex_rdb; pk_overflow := ex_overflow
|}.

(** [return f(args)] *)
Definition return_fn (f : lua_fn) (args : list string) (st : gmap bytes nat) : lua_prog (gmap bytes nat) := LFn f (map (fun s => LString (str s)) args) st (fun v => LDone [v] st).

(** Scripts are numbered; a source is its number as one byte. *)
Definition ex_scripts : list (gmap bytes nat -> lua_prog (gmap bytes nat)) := [
  return_fn FCall ["get"; "k"];
  return_fn FCall ["lrange"; "l"; "0"; "-1"];
  return_fn FCall ["incrby"; "n"; "9007199254740993"];
  return_fn FStatusReply ["fine"];
  return_fn FSha1hex ["a"];
  fun st => LDone [] st;
  return_fn FCall ["eval"; "return 1"; "0"]
].

#[local] Instance ex_lua : Lua := {|
  chunk := nat;
  lua_state := gmap bytes nat;
  lua_LoadString src := match src with [n] => inl (Z.to_nat n) | _ => inr (str "parse error") end;
  lua_GetGlobal name st := st !! name;
  lua_SetGlobal name x st := match x with Some x => <[name := x]> st | None => delete name st end;
  lua_SetArray _ _ st := st;
  lua_start n st := match ex_scripts !! n with Some p => p st | None => LThrow [] st end;
  lua_unwind _ st := ([], st);
  lua_text _ := str "table";
  lua_g17 _ := str "0";
  lua_quote b := b;
  sha1_Sum b := b;
  runtime_text := str "runtime error"
|}.

Definition ex_script : script (B := MemBackend) := mkScript (B := MemBackend) ex_client false ∅ [] ∅.

(** What the client of a session of scripts gets, on a store that [m] holds. *)
Fixpoint eval_all (scripts : list (list bytes)) (s : (client (B := MemBackend) * App (B := MemBackend)) * script (B := MemBackend)) (Cfg : AppConfig) : list (outcome cmd_ret) * list wcall :=
  match scripts with
  | [] => ([], c_resp s.1.1)
  | args :: scripts =>
      let '((c, a), sc) := s in
      let '(o, s) := evalCommand (B := MemBackend) ((with_cmd (str "eval") args c, a), sc) in
      let '(os, ws) := eval_all scripts s Cfg in (o :: os, ws)
  end.

Definition ex_eval (Cfg : AppConfig) (authed : bool) (m : gmap bytes bytes) (scripts : list Z) : list (outcome cmd_ret) * list wcall :=
  eval_all (map (fun n => [[n]; str "0"]) scripts) ((with_authed authed ex_client, ex_app (mem_state m 0)), ex_script) Cfg.

Definition ex_kv : gmap bytes bytes := {[ encodeKVKey db0 (str "k") := str "v" ]}.
Definition ex_words (l : list bytes) : gmap bytes bytes := pushed db0 ∅ (str "l") listInitialSeq 1 l listInitialSeq (listInitialSeq + len l - 1).


#[local] Instance ex_open : AppConfig := open_cfg.

(** The client of a request [EVAL script 0], and what GET leaves. *)
Definition ex_caller : client (B := MemBackend) := with_cmd (str "eval") [[0]; str "0"] ex_client.
Definition ex_got : outcome req_ret * (client (B := MemBackend) * App (B := MemBackend)) :=
  perform (B := MemBackend) (mkClient (B := MemBackend) (c_db ex_caller) (str "get") [str "k"] false [] 0 (fun _ => []), ex_app (mem_state ex_kv 0)).

Lemma ex_got_eq : ex_got = (Ret Continue, (ex_got.2.1, ex_got.2.2)).
Proof. rewrite (surjective_pairing ex_got) at 1. apply (f_equal2 pair); [vm_compute; reflexivity|apply surjective_pairing]. Qed.

(** Each script as a chunk that is loaded when it is first run. *)
Lemma script_transparent_witness :
  exists w' c' sc', evalCommand (B := MemBackend) ((ex_caller, ex_app (mem_state ex_kv 0)), ex_script) = (Ret (Return None), ((c', ex_got.2.2), sc')) /\
  c_resp c' = [] ++ [w'] /\ resp_bytes w' = resp_bytes (writeBulk (Some (str "v"))).
Proof.
  apply (script_transparent (B := MemBackend) ex_caller ex_got.2.1 (ex_app (mem_state ex_kv 0)) ex_got.2.2 ex_script [0] (str "get") [str "k"] 0%nat (writeBulk (Some (str "v")))).
  - reflexivity.
  - right. by split.
  - reflexivity.
  - reflexivity.
  - exact ex_got_eq.
  - vm_compute. reflexivity.
  - reflexivity.
Defined.


(** The server of the witness, read only. *)
Definition ex_frozen : App (B := MemBackend) := ex_app (mkSt (B := MemBackend) (mkMem ex_kv false) true None false [] no_ops env0).

(** The scripts call none of the excluded commands. *)
Lemma return_fn_flush (f : lua_fn) (args : list string) (st : gmap bytes nat) : allowed_call f (map (fun s => LString (str s)) args) -> allowed_calls (return_fn f args st).
Proof. by split. Qed.

Lemma ex_scripts_flush (ch : nat) (st : gmap bytes nat) : allowed_calls (lua_start ch st).
Proof.
  cbn [lua_start ex_lua]. destruct (ex_scripts !! ch) as [p|] eqn:E; [|exact I].
  do 7 (destruct ch as [|ch]; [injection E as <-; first [exact I | apply return_fn_flush; first [exact I | apply (bool_decide_unpack _); vm_compute; exact I]]|]). discriminate E.
Qed.

Lemma ex_frozen_ok : srv_ok (B := MemBackend) (with_db (c_db ex_caller) (sc_c ex_script), ex_frozen).
Proof.
  split; [split; [reflexivity|]; intros db; constructor|]. intros i h. cbn [ex_frozen ex_app snd dbs]. rewrite lookup_singleton_Some.
  intros [<- <-]. intros t. destruct t; constructor.
Qed.

Lemma script_read_only_witness :
  contents (ledis (evalGenericCommand (B := MemBackend) false ((ex_caller, ex_frozen), ex_script)).2.1.2) = contents (ledis ex_frozen).
Proof. apply (script_read_only (B := MemBackend) false ex_caller ex_frozen ex_script ex_frozen_ok eq_refl ex_scripts_flush). Defined.
