(* ===== verification/Snapshots.v ===== *)
(** * The snapshots of a server (src/server/snapshot.go)

    A directory with the dumps that FULLSYNC sends, named after the time they were taken at;
    at most a configured number of them is kept.  Times are nanoseconds of the clock. *)

From S2P Require Import Prelude SortPkg Driver Store Rpl FileIO Client.

(** [Time.Format] in the local time zone and [time.Parse], which takes the result for UTC,
    with the layout [snapshotTimeFormat]. *)
Class TimeFormat := { tf_Format : Z -> bytes; tf_Parse : bytes -> Z + error }.

(** The setting [Snapshot.MaxNum]. *)
Class SnapConfig := { cfg_MaxNum : Z }.

Record snapshotStore := mkSnaps { sn_dir : gmap bytes bytes; sn_names : list bytes }.

Definition errScan : error := errorf "input does not match format".
Definition errBehindSnapshot : error := errorf "create snapshot file time is behind".

(** [time.Time{}] and [Time.Nanosecond] *)
Definition zero_time : Z := -62135596800 * 10 ^ 9.
Definition Nanosecond (t : Z) : Z := t mod 10 ^ 9.

Definition is_blank (c : Z) : bool := (c =? 32) || ((9 <=? c) && (c <=? 13)).

Fixpoint skip_blanks (s : bytes) : bytes :=
  match s with
  | c :: s' => if is_blank c then skip_blanks s' else s
  | [] => []
  end.

Fixpoint word (s : bytes) : bytes :=
  match s with
  | c :: s' => if is_blank c then [] else c :: word s'
  | [] => []
  end.

(** [fmt.Sscanf] with the format dmp-%s *)
Definition Sscanf_dmp (name : bytes) : bytes + error :=
  if bool_decide (take 4 name = str "dmp-") then
    match word (skip_blanks (drop 4 name)) with
    | [] => inr EOF
    | s => inl s
    end
  else inr errScan.

(** [path.Ext] of the name is .tmp *)
Definition is_tmp (name : bytes) : bool := bool_decide (drop (length name - 4) name = str ".tmp").

Section Ops.
Context {F : TimeFormat} {P : SortPkg} {SC : SnapConfig}.

Definition snapshotName (t : Z) : bytes := str "dmp-" ++ tf_Format t.

Definition parseSnapshotName (name : bytes) : Z + error :=
  match Sscanf_dmp name with
  | inr err => inr err
  | inl timeString => tf_Parse timeString
  end.

(** The time of a name, the zero time when it is none. *)
Definition time_of (name : bytes) : Z := match parseSnapshotName name with inl t => t | inr _ => zero_time end.

Definition remove_files (names : list bytes) (dir : gmap bytes bytes) : gmap bytes bytes := foldr delete dir names.

Definition snap_purge (create : bool) : SM snapshotStore unit := fun s =>
  let n := len (sn_names s) in
  let num := n - cfg_MaxNum in
  let num := if create then (if num + 1 >? n then n else num + 1) else num in
  if num >? 0 then
    if num >? n then (Panic, s)
    else (Ret tt, mkSnaps (remove_files (take (Z.to_nat num) (sn_names s)) (sn_dir s)) (drop (Z.to_nat num) (sn_names s)))
  else (Ret tt, s).

Definition is_snapshot (name : bytes) : bool := match parseSnapshotName name with inl _ => true | inr _ => false end.

(** [checkSnapshots]; [ioutil.ReadDir] lists the names in their order. *)
Definition checkSnapshots : SM snapshotStore (option error) := fun s =>
  let snapshots := (sorted_entries (sn_dir s)).*1 in
  let dir := remove_files (filter (fun name => is_tmp name = true) snapshots) (sn_dir s) in
  let names := filter (fun name => is_tmp name = false /\ is_snapshot name = true) snapshots in
  (_ ← snap_purge false; mret None) (mkSnaps dir (sort_Sort (fun x y => bool_decide (blt x y)) names)).

(** [newSnapshotStore] on the files of its directory. *)
Definition newSnapshotStore (dir : gmap bytes bytes) : outcome (option error) * snapshotStore := checkSnapshots (mkSnaps dir []).

(** [Create] at the time [now], with the method [Dump] of the dumper; the snapshot is the
    contents of its file.  A dump is written over a file of the same temporary name. *)
Definition Create {S} (now : Z) (Dump : SM S (bytes * option error)) : SM (snapshotStore * S) (bytes * Z + error) := fun '(s, x) =>
  match snap_purge true s with
  | (Panic, s) => (Panic, (s, x))
  | (Ret _, s) =>
      let name := snapshotName now in
      let tmpName := name ++ str ".tmp" in
      if match last (sn_names s) with Some name => Nanosecond now <=? Nanosecond (time_of name) | None => false end
      then (Ret (inr errBehindSnapshot), (s, x))
      else
        match Dump x with
        | (Panic, x) => (Panic, (s, x))
        | (Ret (_, Some err), x) => (Ret (inr err), (mkSnaps (delete tmpName (sn_dir s)) (sn_names s), x))
        | (Ret (data, None), x) =>
            let file := write_at (default [] (sn_dir s !! tmpName)) 0 data in
            (Ret (inl (file, now)), (mkSnaps (<[name := file]> (delete tmpName (sn_dir s))) (sn_names s ++ [name]), x))
        end
  end.

Definition OpenLatest : SM snapshotStore (option (bytes * Z) + error) := fun s =>
  match last (sn_names s) with
  | None => (Ret (inl None), s)
  | Some name =>
      (Ret (match sn_dir s !! name with
            | None => inr errNotExist
            | Some data => inl (Some (data, time_of name))
            end), s)
  end.

End Ops.

(** * What the store keeps *)

(** Times that have a name: the name tells the time, later times have later names. *)
Class TimeFormatSpec (F : TimeFormat) := {
  tf_zone : Z;
  tf_ok : Z -> Prop;
  tf_zone_seconds : tf_zone mod 10 ^ 9 = 0;
  tf_parse_format t : tf_ok t -> tf_Parse (tf_Format t) = inl (t + tf_zone);
  tf_order t1 t2 : tf_ok t1 -> tf_ok t2 -> t1 < t2 -> blt (tf_Format t1) (tf_Format t2);
  tf_text t : tf_ok t -> tf_Format t <> [] /\ Forall (fun c => is_blank c = false) (tf_Format t) /\ last (tf_Format t) <> Some 112
}.

Section Spec.
Context {F : TimeFormat} {TS : TimeFormatSpec F} {P : SortPkg} {PS : SortPkgSpec P} {SC : SnapConfig}.
Implicit Types (s : snapshotStore) (ss : list (Z * bytes)) (t : Z).

(** The snapshots [ss], with their times and contents, from old to new. *)
Record snaps_at s ss : Prop := {
  sa_names : sn_names s = map (fun x => snapshotName x.1) ss;
  sa_ok : Forall (fun x => tf_ok x.1) ss;
  sa_sorted : StronglySorted Z.lt (map fst ss);
  sa_files : forall t data, (t, data) ∈ ss -> sn_dir s !! snapshotName t = Some data;
  sa_only : forall name, is_Some (sn_dir s !! name) -> is_tmp name = false -> is_snapshot name = true -> name ∈ sn_names s
}.

Lemma word_all b : Forall (fun c => is_blank c = false) b -> word (skip_blanks b) = b.
Proof using.
  intros H. assert (HW : word b = b) by (induction H as [|c b Hc H IH]; [done|]; cbn [word]; by rewrite Hc, IH).
  destruct H as [|c b Hc H]; [done|]. cbn [skip_blanks]. by rewrite Hc.
Qed.

Lemma parse_name t : tf_ok t -> parseSnapshotName (snapshotName t) = inl (t + tf_zone).
Proof using.
  intros Ht. destruct (tf_text t Ht) as (Hne & Hb & _). unfold parseSnapshotName, Sscanf_dmp, snapshotName. rewrite bool_decide_true by done.
  rewrite drop_app_length' by done. rewrite word_all by done. destruct (tf_Format t) as [|c b] eqn:E; [done|]. rewrite <- E. by apply tf_parse_format.
Qed.

Lemma time_of_name t : tf_ok t -> time_of (snapshotName t) = t + tf_zone.
Proof using. intros Ht. unfold time_of. by rewrite parse_name. Qed.

Lemma name_lt t1 t2 : tf_ok t1 -> tf_ok t2 -> t1 < t2 -> blt (snapshotName t1) (snapshotName t2).
Proof using. intros H1 H2 Hlt. unfold snapshotName, blt. rewrite bcmp_app. by apply tf_order. Qed.

Lemma name_inj t1 t2 : tf_ok t1 -> tf_ok t2 -> snapshotName t1 = snapshotName t2 -> t1 = t2.
Proof using. intros H1 H2 E. apply (f_equal time_of) in E. rewrite !time_of_name in E by done. lia. Qed.

Lemma name_not_tmp t : tf_ok t -> is_tmp (snapshotName t) = false.
Proof using.
  intros Ht. destruct (tf_text t Ht) as (Hne & _ & Hl). unfold is_tmp. apply bool_decide_eq_false. intros E. apply (f_equal last) in E.
  change (last (str ".tmp")) with (Some 112) in E. apply Hl. rewrite <- E. unfold snapshotName. set (b := tf_Format t) in *. clearbody b.
  destruct b as [|c b _] using rev_ind; [done|]. rewrite app_assoc, length_app. cbn [length]. rewrite last_snoc, drop_app_le by lia. by rewrite last_snoc.
Qed.

Lemma tmp_is_tmp name : is_tmp (name ++ str ".tmp") = true.
Proof using. unfold is_tmp. apply bool_decide_eq_true. rewrite length_app. cbn [length str map]. rewrite drop_app_length' by (change (length (str ".tmp")) with 4%nat; lia). done. Qed.

Lemma remove_lookup (names : list bytes) (dir : gmap bytes bytes) (name : bytes) : remove_files names dir !! name = if bool_decide (name ∈ names) then None else dir !! name.
Proof using.
  unfold remove_files. induction names as [|x names IH]; [by rewrite bool_decide_false by (by intros []%elem_of_nil)|]. cbn [foldr]. destruct (decide (name = x)) as [->|Hn].
  - rewrite lookup_delete_eq, bool_decide_true by constructor. done.
  - rewrite lookup_delete_ne, IH by done. assert (bool_decide (name ∈ x :: names) = bool_decide (name ∈ names)) as ->; [|done].
    apply bool_decide_ext. rewrite elem_of_cons. naive_solver.
Qed.

Lemma names_elem ss t data : (t, data) ∈ ss -> snapshotName t ∈ map (fun x => snapshotName x.1) ss.
Proof using. intros H. apply list_elem_of_fmap. by exists (t, data). Qed.

(** Times are not repeated. *)
Lemma sorted_split ss1 ss2 t d1 d2 : StronglySorted Z.lt (map fst (ss1 ++ ss2)) -> (t, d1) ∈ ss1 -> (t, d2) ∈ ss2 -> False.
Proof using.
  intros HS H1 H2. rewrite map_app in HS. pose proof (StronglySorted_app_1_elem_of Z.lt (map fst ss1) (map fst ss2) t t HS
    ltac:(apply list_elem_of_fmap; by exists (t, d1)) ltac:(apply list_elem_of_fmap; by exists (t, d2))). lia.
Qed.

(** Removing the oldest ones. *)
Lemma drop_snaps s ss k : snaps_at s ss -> snaps_at (mkSnaps (remove_files (take k (sn_names s)) (sn_dir s)) (drop k (sn_names s))) (drop k ss).
Proof using.
  intros [H1 H2 H3 H4 H5]. rewrite <- (take_drop k ss) in H2, H3. apply Forall_app in H2 as [Ha Hb]. split; cbn [sn_names sn_dir].
  - by rewrite H1, <- !skipn_map.
  - done.
  - rewrite map_app in H3. by apply StronglySorted_app_1_r in H3.
  - intros t data Ht. rewrite remove_lookup, bool_decide_false; [apply H4; rewrite <- (take_drop k ss); apply elem_of_app; by right|].
    rewrite H1, firstn_map. intros ([t' d'] & E & Ht')%list_elem_of_fmap. cbn [fst] in E. rewrite Forall_forall in Ha, Hb.
    apply name_inj in E as ->; [|by apply (Hb (t, data))|by apply (Ha (t', d'))]. by eapply sorted_split.
  - intros name [d Hd] Ht Hs. rewrite remove_lookup in Hd. destruct (bool_decide (name ∈ take k (sn_names s))) eqn:E; [done|]. apply bool_decide_eq_false in E.
    specialize (H5 name ltac:(by eexists) Ht Hs). rewrite <- (take_drop k (sn_names s)) in H5. apply elem_of_app in H5 as [H5|H5]; [done|done].
Qed.

(** How many are removed before another one is made. *)
Definition surplus ss : nat := Z.to_nat (Z.min (len ss) (len ss - cfg_MaxNum + 1)).

Lemma purge_create s ss : snaps_at s ss -> exists s', snap_purge true s = (Ret tt, s') /\ snaps_at s' (drop (surplus ss) ss) /\ forall name, name ∈ map (fun x => snapshotName x.1) ss \/ sn_dir s' !! name = sn_dir s !! name.
Proof using.
  intros H. pose proof (sa_names _ _ H) as HN. unfold snap_purge. rewrite HN, length_map. set (n := len ss).
  assert (EN : (if n - cfg_MaxNum + 1 >? n then n else n - cfg_MaxNum + 1) = Z.min n (n - cfg_MaxNum + 1)) by (rewrite Z.gtb_ltb; case_match eqn:E; zify_bool; lia).
  cbv zeta. rewrite EN. unfold surplus. fold n. rewrite !Z.gtb_ltb. destruct (0 <? Z.min n (n - cfg_MaxNum + 1)) eqn:E; zify_bool.
  - rewrite (proj2 (Z.ltb_ge n _)) by lia. eexists. split; [done|]. rewrite <- HN. split; [by apply drop_snaps|]. intros name. cbn [sn_dir]. rewrite remove_lookup.
    destruct (bool_decide _) eqn:Eb; [|by right]. left. apply bool_decide_eq_true in Eb. eapply (subseteq_take _ _ name). exact Eb.
  - exists s. replace (Z.to_nat _) with 0%nat by lia. rewrite drop_0. split; [done|]. split; [done|]. by right.
Qed.

Lemma last_name s ss : snaps_at s ss -> last (sn_names s) = (fun x => snapshotName x.1) <$> last ss.
Proof using. intros H. by rewrite (sa_names _ _ H), <- fmap_last. Qed.

Lemma nanosecond_zone t : Nanosecond (t + tf_zone) = Nanosecond t.
Proof using. unfold Nanosecond. rewrite Z.add_mod, tf_zone_seconds, Z.add_0_r, Z.mod_mod by lia. done. Qed.

(** The check of [Create] compares the fractions of a second. *)
Lemma last_fraction s ss now : snaps_at s ss ->
  match last (sn_names s) with Some name => Nanosecond now <=? Nanosecond (time_of name) | None => false end =
  match last ss with Some x => Nanosecond now <=? Nanosecond x.1 | None => false end.
Proof using.
  intros H. rewrite (last_name s ss H). destruct (last ss) as [[t d]|] eqn:E; [|done]. cbn [fmap option_fmap option_map fst].
  pose proof (sa_ok _ _ H) as Hok. rewrite Forall_forall in Hok. rewrite last_lookup in E. rewrite time_of_name by (apply (Hok (t, d)); by eapply list_elem_of_lookup_2).
  by rewrite nanosecond_zone.
Qed.

(** A snapshot that is added. *)
Lemma add_snap s ss now data tmp : snaps_at s ss -> tf_ok now -> Forall (fun x => x.1 < now) ss -> is_tmp tmp = true ->
  snaps_at (mkSnaps (<[snapshotName now := data]> (delete tmp (sn_dir s))) (sn_names s ++ [snapshotName now])) (ss ++ [(now, data)]).
Proof using.
  intros [H1 H2 H3 H4 H5] Hok Hlt Htmp. rewrite Forall_forall in Hlt. split; cbn [sn_names sn_dir].
  - by rewrite H1, map_app.
  - apply Forall_app. by split; [|constructor].
  - rewrite map_app. apply StronglySorted_app_2; [|done|by repeat constructor]. intros x y ([t d] & -> & Ht)%list_elem_of_fmap ->%list_elem_of_singleton. by apply (Hlt (t, d)).
  - rewrite Forall_forall in H2. intros t d [Ht|[= -> ->]%list_elem_of_singleton]%elem_of_app; [|by apply lookup_insert_eq].
    pose proof (Hlt (t, d) Ht). pose proof (H2 (t, d) Ht) as Ho. cbn [fst] in *. rewrite lookup_insert_ne by (intros E%name_inj; [lia|done|done]).
    rewrite lookup_delete_ne; [by apply H4|]. intros ->. by rewrite name_not_tmp in Htmp.
  - intros name Hd Ht Hs. apply elem_of_app. destruct (decide (name = snapshotName now)) as [->|Hn]; [right; by apply list_elem_of_singleton|left].
    rewrite lookup_insert_ne in Hd by done. apply H5; [|done|done]. destruct (decide (name = tmp)) as [->|]; [by rewrite lookup_delete_eq in Hd; destruct Hd|by rewrite lookup_delete_ne in Hd].
Qed.

Lemma Create_ok {S} (Dump : SM S (bytes * option error)) (x x' : S) s ss now data : snaps_at s ss -> tf_ok now -> Forall (fun y => y.1 < now) ss ->
  sn_dir s !! (snapshotName now ++ str ".tmp") = None ->
  (forall y, last (drop (surplus ss) ss) = Some y -> Nanosecond y.1 < Nanosecond now) -> Dump x = (Ret (data, None), x') -> exists s',
  Create now Dump (s, x) = (Ret (inl (data, now)), (s', x')) /\ snaps_at s' (drop (surplus ss) ss ++ [(now, data)]).
Proof using.
  intros H Hok Hlt Htmp Hns ED. destruct (purge_create s ss H) as (s1 & E1 & H1 & Hdir). unfold Create. rewrite E1, (last_fraction s1 _ now H1).
  assert ((match last (drop (surplus ss) ss) with Some y => Nanosecond now <=? Nanosecond y.1 | None => false end) = false) as ->.
  { destruct (last _) as [y|]; [|done]. apply Z.leb_gt. by apply Hns. }
  rewrite ED. assert (sn_dir s1 !! (snapshotName now ++ str ".tmp") = None) as ->.
  { destruct (Hdir (snapshotName now ++ str ".tmp")) as [([t d] & E & Ht)%list_elem_of_fmap|E]; [|by rewrite E]. exfalso. pose proof (sa_ok _ _ H) as Ho. rewrite Forall_forall in Ho.
    pose proof (name_not_tmp t (Ho _ Ht)) as Hf. cbn [fst] in E. by rewrite <- E, tmp_is_tmp in Hf. }
  assert (EW : write_at (default [] None) 0 data = data) by (unfold write_at; cbn; rewrite drop_nil; by apply app_nil_r). rewrite EW.
  eexists. split; [done|]. apply add_snap; [done|done| |apply tmp_is_tmp]. by apply Forall_drop.
Qed.

(** A fraction of a second that is not greater stops it, whatever the second. *)
Lemma Create_behind {S} (Dump : SM S (bytes * option error)) (x : S) s ss now y : snaps_at s ss -> last (drop (surplus ss) ss) = Some y -> Nanosecond now <= Nanosecond y.1 -> exists s',
  Create now Dump (s, x) = (Ret (inr errBehindSnapshot), (s', x)) /\ snaps_at s' (drop (surplus ss) ss).
Proof using.
  intros H El Hn. destruct (purge_create s ss H) as (s1 & E1 & H1 & _). unfold Create. rewrite E1, (last_fraction s1 _ now H1), El, (proj2 (Z.leb_le _ _)) by done. by eexists.
Qed.

Lemma OpenLatest_ok s ss : snaps_at s ss -> OpenLatest s = (Ret (inl ((fun x => (x.2, x.1 + tf_zone)) <$> last ss)), s).
Proof using.
  intros H. unfold OpenLatest. rewrite (last_name s ss H). destruct (last ss) as [[t d]|] eqn:E; [|done]. cbn [fmap option_fmap option_map fst snd].
  rewrite last_lookup in E. apply list_elem_of_lookup_2 in E. rewrite (sa_files _ _ H t d E). pose proof (sa_ok _ _ H) as Ho. rewrite Forall_forall in Ho.
  by rewrite (time_of_name t (Ho _ E)).
Qed.

(** The list of names is what [checkSnapshots] finds. *)
Lemma listed_names s ss : snaps_at s ss -> filter (fun name => is_tmp name = false /\ is_snapshot name = true) (sorted_entries (sn_dir s)).*1 = sn_names s.
Proof using.
  intros [H1 H2 H3 H4 H5]. rewrite Forall_forall in H2. set (l := (sorted_entries (sn_dir s)).*1). pose proof (sorted_entries_sorted (sn_dir s)) as HS. fold l in HS.
  assert (Hin : forall name, name ∈ l <-> is_Some (sn_dir s !! name)).
  { intros name. subst l. rewrite list_elem_of_fmap. split; [intros ([k v] & -> & Hk); exists v; by apply elem_of_sorted_entries|].
    intros [v Hv]. exists (name, v). split; [done|by apply elem_of_sorted_entries]. }
  assert (HS1 : StronglySorted blt (filter (fun name => is_tmp name = false /\ is_snapshot name = true) l)) by (by apply StronglySorted_filter).
  assert (HS2 : StronglySorted blt (sn_names s)).
  { rewrite H1. clear -H2 H3 TS. induction ss as [|[t d] ss IH]; [constructor|]. cbn [map fst] in *. apply StronglySorted_inv in H3 as [H3 HF]. constructor.
    - apply IH; [|done]. intros x Hx. apply H2. by constructor.
    - rewrite Forall_forall in HF. apply Forall_forall. intros x ([t' d'] & -> & Ht')%list_elem_of_fmap. apply name_lt; [apply (H2 (t, d)); constructor|apply (H2 (t', d')); by constructor|].
      apply HF. apply list_elem_of_fmap. by exists (t', d'). }
  apply (StronglySorted_unique_strong blt); [|done|done|].
  - intros x y _ _ Hxy Hyx. exfalso. eapply blt_irrefl, blt_trans; [exact Hxy|exact Hyx].
  - apply NoDup_Permutation; [by apply (StronglySorted_NoDup blt); [apply blt_irrefl|]|by apply (StronglySorted_NoDup blt); [apply blt_irrefl|]|].
    intros name. rewrite list_elem_of_filter, Hin. split; [intros [[Ht Hs] Hd]; by apply H5|]. intros Hn. rewrite H1 in Hn.
    apply list_elem_of_fmap in Hn as ([t d] & -> & Hd). cbn [fst]. split; [split|]; [apply name_not_tmp, (H2 _ Hd)|unfold is_snapshot; by rewrite parse_name by apply (H2 _ Hd)|].
    exists d. by apply H4.
Qed.

Lemma not_blt (x y : bytes) : ~ blt y x -> ble x y.
Proof using. intros H. destruct (decide (ble x y)) as [|Hn]; [done|]. by apply not_ble in Hn. Qed.

Lemma sort_names (l : list bytes) : StronglySorted blt l -> sort_Sort (fun x y => bool_decide (blt x y)) l = l.
Proof using PS.
  intros HS. set (l' := sort_Sort _ l). assert (HP : l' ≡ₚ l) by apply sort_perm.
  assert (HS' : StronglySorted ble l').
  { eapply StronglySorted_impl; [|apply sort_sorted]. { intros x y _ _ E. apply bool_decide_eq_false in E. by apply not_blt. }
    split; [intros x _; apply bool_decide_eq_false, blt_irrefl| |].
    - intros x y z _ _ _. rewrite !bool_decide_eq_true. apply blt_trans.
    - intros x y z _ _ _. rewrite !bool_decide_eq_true. intros Hxy. destruct (decide (blt x z)) as [|Hn]; [by left|right]. eapply ble_blt_trans; [|exact Hxy]. by apply not_blt. }
  eapply (StronglySorted_unique_strong ble); [|exact HS'| |exact HP].
  - intros x y _ _ Hxy Hyx. apply ble_alt in Hxy as [Hxy| ->]; [|done]. exfalso. eapply blt_irrefl, blt_ble_trans; [exact Hxy|exact Hyx].
  - eapply StronglySorted_impl; [|exact HS]. intros x y _ _ Hb. apply ble_alt. by left.
Qed.

Lemma names_sorted s ss : snaps_at s ss -> StronglySorted blt (sn_names s).
Proof using. intros H. rewrite <- (listed_names s ss H). apply StronglySorted_filter, sorted_entries_sorted. Qed.

(** Opening the directory again. *)
Lemma reopen_snaps s ss : snaps_at s ss -> 0 <= cfg_MaxNum -> exists s',
  newSnapshotStore (sn_dir s) = (Ret None, s') /\ snaps_at s' (drop (Z.to_nat (len ss - cfg_MaxNum)) ss).
Proof using PS.
  intros H Hm. unfold newSnapshotStore, checkSnapshots. cbn [sn_dir]. rewrite (listed_names s ss H), (sort_names _ (names_sorted s ss H)).
  set (dir := remove_files _ _). assert (H1 : snaps_at (mkSnaps dir (sn_names s)) ss).
  { destruct H as [H1 H2 H3 H4 H5]. split; cbn [sn_names sn_dir]; [done|done|done| |].
    - intros t d Ht. subst dir. rewrite remove_lookup, bool_decide_false; [by apply H4|]. rewrite list_elem_of_filter. rewrite Forall_forall in H2.
      rewrite name_not_tmp by apply (H2 (t, d) Ht). by intros [? _].
    - intros name [d Hd]. subst dir. rewrite remove_lookup in Hd. case_bool_decide; [done|]. apply H5. by exists d. }
  unfold mbind, SM_bind, snap_purge. cbn [sn_names sn_dir]. rewrite (sa_names _ _ H), length_map. rewrite !Z.gtb_ltb. destruct (0 <? len ss - cfg_MaxNum) eqn:E; zify_bool.
  - rewrite (proj2 (Z.ltb_ge (len ss) _)) by lia. eexists. split; [done|]. rewrite <- (sa_names _ _ H). apply (drop_snaps _ _ _ H1).
  - eexists. split; [done|]. replace (Z.to_nat _) with 0%nat by lia. rewrite drop_0. by rewrite <- (sa_names _ _ H).
Qed.

(** A dump that fails leaves no file. *)
Lemma Create_fails {S} (Dump : SM S (bytes * option error)) (x x' : S) s ss now data err : snaps_at s ss -> tf_ok now ->
  (forall y, last (drop (surplus ss) ss) = Some y -> Nanosecond y.1 < Nanosecond now) -> Dump x = (Ret (data, Some err), x') -> exists s',
  Create now Dump (s, x) = (Ret (inr err), (s', x')) /\ snaps_at s' (drop (surplus ss) ss).
Proof using.
  intros H Hok Hns ED. destruct (purge_create s ss H) as (s1 & E1 & H1 & _). unfold Create. rewrite E1, (last_fraction s1 _ now H1).
  assert ((match last (drop (surplus ss) ss) with Some y => Nanosecond now <=? Nanosecond y.1 | None => false end) = false) as ->.
  { destruct (last _) as [y|]; [|done]. apply Z.leb_gt. by apply Hns. }
  rewrite ED. eexists. split; [done|]. destruct H1 as [A1 A2 A3 A4 A5]. split; cbn [sn_names sn_dir]; [done|done|done| |].
  - intros t d Ht. rewrite lookup_delete_ne; [by apply A4|]. intros E. rewrite Forall_forall in A2. pose proof (name_not_tmp t (A2 _ Ht)) as Hf. by rewrite <- E, tmp_is_tmp in Hf.
  - intros name [d Hd]. apply lookup_delete_Some in Hd as [_ Hd]. apply A5. by exists d.
Qed.

Lemma surplus_room ss : 1 <= cfg_MaxNum -> len (drop (surplus ss) ss) + 1 <= cfg_MaxNum.
Proof using. intros H. rewrite length_drop. unfold surplus. lia. Qed.

End Spec.

(** * Properties *)


(** ** Example *)

(** Times as numbers of 20 digits, in the time zone UTC. *)
Fixpoint ex_digits (n : nat) (z : Z) : bytes :=
  match n with
  | O => []
  | S n' => 48 + (z / 10 ^ Z.of_nat n') mod 10 :: ex_digits n' z
  end.

Definition ex_time : TimeFormat := {| tf_Format t := ex_digits 20 t; tf_Parse b := inl (fold_left (fun acc x => acc * 10 + (x - 48)) b 0) |}.

Lemma ex_digits_value n z acc : fold_left (fun acc x => acc * 10 + (x - 48)) (ex_digits n z) acc = acc * 10 ^ Z.of_nat n + z mod 10 ^ Z.of_nat n.
Proof.
  revert acc; induction n as [|n IH]; intros acc; cbn [ex_digits fold_left].
  - rewrite Z.mod_1_r. lia.
  - rewrite IH, Nat2Z.inj_succ, Z.pow_succ_r by lia. rewrite (Z.mul_comm 10). rewrite (Z.rem_mul_r z) by lia. lia.
Qed.

Lemma ex_digits_order n a b : bcmp (ex_digits n a) (ex_digits n b) = (a mod 10 ^ Z.of_nat n ?= b mod 10 ^ Z.of_nat n).
Proof.
  induction n as [|n IH]; cbn [ex_digits bcmp]; [by rewrite !Z.mod_1_r|]. rewrite IH, Nat2Z.inj_succ, Z.pow_succ_r by lia.
  rewrite (Z.mul_comm 10), !(Z.rem_mul_r _ (10 ^ Z.of_nat n) 10) by lia. set (Q := 10 ^ Z.of_nat n). assert (0 < Q) by (unfold Q; lia).
  pose proof (Z.mod_pos_bound a Q ltac:(lia)). pose proof (Z.mod_pos_bound b Q ltac:(lia)). set (ra := a mod Q) in *. set (rb := b mod Q) in *.
  set (qa := (a / Q) mod 10). set (qb := (b / Q) mod 10). clearbody ra rb qa qb Q.
  destruct (Z.compare_spec (48 + qa) (48 + qb)) as [E|E|E]; destruct (Z.compare_spec ra rb) as [G|G|G];
    destruct (Z.compare_spec (ra + Q * qa) (rb + Q * qb)); try done; nia.
Qed.

Lemma ex_digits_all n z : Forall (fun c => 48 <= c <= 57) (ex_digits n z).
Proof.
  induction n as [|n IH]; constructor; [|done]. pose proof (Z.mod_pos_bound (z / 10 ^ Z.of_nat n) 10 ltac:(lia)). lia.
Qed.

#[local] Program Instance ex_time_spec : TimeFormatSpec ex_time := {| tf_zone := 0; tf_ok t := 0 <= t < 10 ^ 20 |}.
Next Obligation. done. Qed.
Next Obligation. intros t Ht. cbn [tf_Parse tf_Format ex_time]. rewrite ex_digits_value, Z.mod_small by done. f_equal. lia. Qed.
Next Obligation. intros t1 t2 H1 H2 Hlt. cbn [tf_Format ex_time]. unfold blt. rewrite ex_digits_order, !Z.mod_small by done. by apply Z.compare_lt_iff. Qed.
Next Obligation.
  intros t Ht. cbn [tf_Format ex_time]. pose proof (ex_digits_all 20 t) as HF. split; [done|]. split.
  - eapply Forall_impl; [exact HF|]. intros c Hc. cbv beta in Hc. unfold is_blank. rewrite (proj2 (Z.eqb_neq _ _)), (proj2 (Z.leb_gt c 13)) by lia. by rewrite andb_false_r.
  - intros E. rewrite last_lookup in E. rewrite Forall_lookup in HF. specialize (HF _ _ E). cbv beta in HF. lia.
Qed.

#[local] Existing Instances ex_time ex_sort ex_sort_spec.
Definition ex_snaps : SnapConfig := {| cfg_MaxNum := 2 |}.
#[local] Existing Instance ex_snaps.

Definition ex_snap_store : snapshotStore := mkSnaps (<[snapshotName 5 := [1]]> {[snapshotName 9 := [2]]}) [snapshotName 5; snapshotName 9].

Lemma ex_snaps_at : snaps_at ex_snap_store [(5, [1]); (9, [2])].
Proof.
  split; [done|by repeat constructor|by repeat constructor| |].
  - intros t d [[= -> ->]|[[= -> ->]|[]%elem_of_nil]%elem_of_cons]%elem_of_cons; [by apply lookup_insert_eq|]. unfold ex_snap_store, sn_dir.
    rewrite lookup_insert_ne; [by apply lookup_singleton_eq|]. intros E. by vm_compute in E.
  - intros name [d Hd] _ _. unfold ex_snap_store, sn_dir, sn_names in *. apply lookup_insert_Some in Hd as [[<- _]|[_ [<- _]%lookup_singleton_Some]]; [constructor|by do 2 constructor].
Qed.

