(* ===== verification/Cluster.v ===== *)
(** * Replication between servers (src/server: replication.go, cmd_replication.go)

    The commands a master answers its slaves with, and the side of a slave: it connects,
    announces itself, loads a dump when it has to and then asks for logs, one round after the
    other, while its library replays them.  The connection is a parameter; connected to the
    commands of a master it gives the cluster, whose steps are those of the two servers. *)

From S2P Require Import Prelude SortPkg Driver Store Rpl FileIO Util Core Repl Dump Sort Client Snapshots.

(** ** Addresses (package net) *)

Definition errAddr : error := errorf "address".

Definition IndexByte (s : bytes) (c : Z) : Z := bytes_Index s [c].

(** The position of the last [c] in [s]. *)
Fixpoint last_index (s : bytes) (c : Z) : Z :=
  match s with
  | [] => -1
  | x :: s' => let n := last_index s' c in if n >=? 0 then n + 1 else if x =? c then 0 else -1
  end.

Definition SplitHostPort (hostport : bytes) : bytes * bytes + error :=
  let i := last_index hostport 58 in
  if i <? 0 then inr errAddr
  else
    let port := drop (Z.to_nat (i + 1)) hostport in
    match hostport with
    | 91 :: _ =>
        let end_ := IndexByte hostport 93 in
        if end_ <? 0 then inr errAddr
        else if negb (end_ + 1 =? i) then inr errAddr
        else if 0 <=? IndexByte (drop 1 hostport) 91 then inr errAddr
        else if 0 <=? IndexByte (drop (Z.to_nat (end_ + 1)) hostport) 93 then inr errAddr
        else inl (take (Z.to_nat (end_ - 1)) (drop 1 hostport), port)
    | _ =>
        let host := take (Z.to_nat i) hostport in
        if 0 <=? IndexByte host 58 then inr errAddr
        else if 0 <=? IndexByte hostport 91 then inr errAddr
        else if 0 <=? IndexByte hostport 93 then inr errAddr
        else inl (host, port)
    end.

Definition JoinHostPort (host port : bytes) : bytes :=
  if 0 <=? IndexByte host 58 then [91] ++ host ++ [93; 58] ++ port else host ++ [58] ++ port.

(** The port as a signed number of 16 bits. *)
Definition splitHostPort (s : bytes) : bytes * Z * option error :=
  match SplitHostPort s with
  | inr err => ([], 0, Some err)
  | inl (host, port) =>
      match ParseInt port 16 with
      | (p, None) => (host, p, None)
      | (_, Some err) => ([], 0, Some err)
      end
  end.

(** ** The state of a server that replicates *)

Definition replConnectState : Z := 1.
Definition replConnectingState : Z := 2.
Definition replSyncState : Z := 3.
Definition replConnectedState : Z := 4.

Definition replStatetring (r : Z) : bytes :=
  if r =? replConnectState then str "connect"
  else if r =? replConnectingState then str "connecting"
  else if r =? replSyncState then str "sync"
  else if r =? replConnectedState then str "connected"
  else str "unknown".

(** The settings of the replication between servers. *)
Class ServerConfig := { cfg_Addr : bytes; cfg_MasterPassword : bytes; cfg_ExpiredLogDays : Z; cfg_Sync : bool; cfg_WaitMaxSlaveAcks : Z }.

(** The connection of a slave to its master; [m_running] is the goroutine, with its flag
    [restart]. *)
Record master := mkMaster { m_addr : bytes; m_state : Z; m_quit : bool; m_conn : bool; m_running : option bool }.

(** What a client has for the replication. *)
Record rclient := mkRC { rc_remoteAddr : bytes; rc_slaveListeningAddr : bytes; rc_lastLogID : Z; rc_resp : list wcall }.

(** The connection of a slave, with the texts of errors. *)
Class Remote (W : Type) := {
  rm_Connect : bytes -> SM W (option bytes);
  rm_Do : list bytes -> SM W (reply_value + bytes);
  rm_Send : list bytes -> SM W (option bytes);
  rm_ReceiveBulkTo : SM W (bytes * option bytes)
}.

(** [goredis.String] of a reply. *)
Definition goredis_String (r : reply_value + bytes) : bytes + bytes :=
  match r with
  | inr err => inr err
  | inl (RBulk (Some b)) => inl b
  | inl (RStatus s) => inl s
  | inl _ => inr (str "unexpected type for String")
  end.

Section Ops.
Context {I : IDB} {N : SnapshotDB I} {C : RplConfig} {Y : Snappy} {L : LogStore} {D : BatchData}.
Context {F : TimeFormat} {P : SortPkg} {SC : SnapConfig} {Cfg : ServerConfig} {T : ErrorText} {MO : MapOrder}.
#[local] Existing Instance repl_backend | 0.

(** [app.slaves] holds clients by address; the ids offered to [slaveSyncAck] are recorded;
    [ra_dump] is the file master.dump, empty when there is none, and [ra_clock] the time in
    nanoseconds. *)
Record RApp := mkRApp {
  ra_ledis : St;
  ra_SlaveOf : bytes;
  ra_clients : gmap nat rclient;
  ra_slaves : gmap bytes nat;
  ra_acks : list Z;
  ra_snap : snapshotStore;
  ra_m : master;
  ra_dump : bytes;
  ra_clock : Z
}.

Definition set_ledis (st : St) (a : RApp) : RApp :=
  mkRApp st (ra_SlaveOf a) (ra_clients a) (ra_slaves a) (ra_acks a) (ra_snap a) (ra_m a) (ra_dump a) (ra_clock a).
Definition set_SlaveOf (addr : bytes) (a : RApp) : RApp :=
  mkRApp (ra_ledis a) addr (ra_clients a) (ra_slaves a) (ra_acks a) (ra_snap a) (ra_m a) (ra_dump a) (ra_clock a).
Definition set_client (i : nat) (c : rclient) (a : RApp) : RApp :=
  mkRApp (ra_ledis a) (ra_SlaveOf a) (<[i := c]> (ra_clients a)) (ra_slaves a) (ra_acks a) (ra_snap a) (ra_m a) (ra_dump a) (ra_clock a).
Definition set_slaves (slaves : gmap bytes nat) (a : RApp) : RApp :=
  mkRApp (ra_ledis a) (ra_SlaveOf a) (ra_clients a) slaves (ra_acks a) (ra_snap a) (ra_m a) (ra_dump a) (ra_clock a).
Definition set_acks (acks : list Z) (a : RApp) : RApp :=
  mkRApp (ra_ledis a) (ra_SlaveOf a) (ra_clients a) (ra_slaves a) acks (ra_snap a) (ra_m a) (ra_dump a) (ra_clock a).
Definition set_snap (s : snapshotStore) (a : RApp) : RApp :=
  mkRApp (ra_ledis a) (ra_SlaveOf a) (ra_clients a) (ra_slaves a) (ra_acks a) s (ra_m a) (ra_dump a) (ra_clock a).
Definition set_m (m : master) (a : RApp) : RApp :=
  mkRApp (ra_ledis a) (ra_SlaveOf a) (ra_clients a) (ra_slaves a) (ra_acks a) (ra_snap a) m (ra_dump a) (ra_clock a).
Definition set_dump (b : bytes) (a : RApp) : RApp :=
  mkRApp (ra_ledis a) (ra_SlaveOf a) (ra_clients a) (ra_slaves a) (ra_acks a) (ra_snap a) (ra_m a) b (ra_clock a).

Definition ask {A} (f : RApp -> A) : SM RApp A := fun a => (Ret (f a), a).
Definition change (f : RApp -> RApp) : SM RApp unit := fun a => (Ret tt, f a).

(** An operation of [app.ldb]. *)
Definition on_ldb {A} (p : M A) : SM RApp A := fun a => let '(o, st) := p (ra_ledis a) in (o, set_ledis st a).

(** An operation of [app.snap]. *)
Definition on_snap {A} (p : SM snapshotStore A) : SM RApp A := fun a => let '(o, s) := p (ra_snap a) in (o, set_snap s a).

(** [app.cfg.SetReadonly] *)
Definition SetReadonly (b : bool) : SM RApp unit :=
  change (fun a => let st := ra_ledis a in set_ledis (mkSt (ldb st) b (r st) (rc st) (sent st) (batches st) (env st)) a).

Definition the_client (c : nat) : SM RApp rclient := fun a =>
  match ra_clients a !! c with Some x => (Ret x, a) | None => (Panic, a) end.

Definition write_to (c : nat) (w : wcall) : SM RApp unit :=
  x ← the_client c; change (set_client c (mkRC (rc_remoteAddr x) (rc_slaveListeningAddr x) (rc_lastLogID x) (rc_resp x ++ [w]))).

(** ** Slaves of a master *)

Definition asyncNotifyUint64 (v : Z) : SM RApp unit := change (fun a => set_acks (ra_acks a ++ [v]) a).

Definition addSlave (c : nat) : SM RApp unit :=
  x ← the_client c; change (fun a => set_slaves (<[rc_slaveListeningAddr x := c]> (ra_slaves a)) a).

Definition removeSlave (c : nat) : SM RApp unit :=
  x ← the_client c;
  slaves ← ask ra_slaves;
  match slaves !! rc_slaveListeningAddr x with
  | None => mret tt
  | Some _ => _ ← change (set_slaves (delete (rc_slaveListeningAddr x) slaves)); asyncNotifyUint64 (rc_lastLogID x)
  end.

Definition slaveAck (c : nat) : SM RApp unit :=
  x ← the_client c;
  slaves ← ask ra_slaves;
  match slaves !! rc_slaveListeningAddr x with
  | None => mret tt
  | Some _ => asyncNotifyUint64 (rc_lastLogID x)
  end.

(** The loop that waits for the acknowledgements of at most [slaveNum] slaves: [None] when
    the ids that come in time are not enough. *)
Fixpoint ack_loop (slaveNum : nat) (logId total n : Z) (acks : list Z) : option Z :=
  match slaveNum with
  | O => Some n
  | S slaveNum =>
      match acks with
      | [] => None
      | id :: acks =>
          if id <? logId then ack_loop slaveNum logId total n acks
          else if n + 1 >=? total then Some (n + 1)
          else ack_loop slaveNum logId total (n + 1) acks
      end
  end.

Definition wanted_acks (slaveNum : Z) : Z :=
  let total := (slaveNum + 1) / 2 in
  if cfg_WaitMaxSlaveAcks >? 0 then Z.min total cfg_WaitMaxSlaveAcks else total.

Inductive published := PubAsync | PubOwned | PubAcked (n : Z) | PubTimeout.

(** [publishNewLog]; [acks] are the ids that arrive on [slaveSyncAck] before the timeout. *)
Definition publishNewLog (l : Log) (acks : list Z) : SM RApp published :=
  if negb cfg_Sync then mret PubAsync
  else
    slaves ← ask ra_slaves;
    clients ← ask ra_clients;
    let slaveNum := Z.of_nat (size slaves) in
    let total := wanted_acks slaveNum in
    let owns (c : nat) := match clients !! c with Some x => rc_lastLogID x =? ID l | None => false end in
    let n := len (filter (fun c => owns c = true) (map_to_list slaves).*2) in
    if n >=? total then mret PubOwned
    else mret (match ack_loop (size slaves) (ID l) total 0 acks with Some n => PubAcked n | None => PubTimeout end).

(** ** The commands of a master *)

Fixpoint replconf_loop (c : nat) (args : list bytes) : SM RApp (option cmd_error) :=
  match args with
  | opt :: val :: args =>
      if lower_is opt "listening-port" then
        match ParseUint val 16 with
        | (_, Some err) => mret (Some (NumError val err))
        | (_, None) =>
            x ← the_client c;
            match SplitHostPort (rc_remoteAddr x) with
            | inr err => mret (Some (DBError err))
            | inl (host, _) =>
                _ ← change (set_client c (mkRC (rc_remoteAddr x) (JoinHostPort host val) (rc_lastLogID x) (rc_resp x)));
                _ ← addSlave c;
                replconf_loop c args
            end
        end
      else mret (Some ErrSyntaxCmd)
  | _ => mret None
  end.

Definition replconfCommand (c : nat) (args : list bytes) : SM RApp (option cmd_error) :=
  if negb (len args mod 2 =? 0) then mret (Some ErrCmdParams)
  else
    used ← ask (fun a => ReplicationUsed (ra_ledis a));
    if negb used then mret (Some (DBError ErrRplNotSupport))
    else
      err ← replconf_loop c args;
      match err with
      | Some err => mret (Some err)
      | None => _ ← write_to c (writeStatus OK); mret None
      end.

(** [others] is what happens on the server while the command waits for a log. *)
Definition syncCommand (c : nat) (args : list bytes) (others : M bool) : SM RApp (option cmd_error) :=
  match args with
  | [arg] =>
      match StrUint64 (Some arg) None with
      | (_, Some _) => mret (Some ErrCmdParams)
      | (logId, None) =>
          let lastLogID := uint64 (logId - 1) in
          stat ← on_ldb ReplicationStat;
          match stat with
          | inr err => mret (Some (DBError err))
          | inl (_, LastID, _) =>
              if lastLogID >? LastID then mret (Some (Errorf (str "invalid sync logid " ++ Itoa logId ++ str " > " ++ Itoa LastID ++ str " + 1")))
              else
                x ← the_client c;
                _ ← change (set_client c (mkRC (rc_remoteAddr x) (rc_slaveListeningAddr x) lastLogID (rc_resp x)));
                _ ← (if lastLogID =? LastID then slaveAck c else mret tt);
                '(_, _, err, buf) ← on_ldb (ReadLogsToTimeout logId others);
                match err with
                | Some err => mret (Some (DBError err))
                | None =>
                    stat ← on_ldb ReplicationStat;
                    match stat with
                    | inr err => mret (Some (DBError err))
                    | inl (_, LastID, _) => _ ← write_to c (writeBulk (Some (be_put 8 (uint64 LastID) ++ buf))); mret None
                    end
                end
          end
      end
  | _ => mret (Some ErrCmdParams)
  end.

(** [app.snap.Create(app.ldb)] *)
Definition snap_Create : SM RApp (bytes * Z + error) := fun a =>
  let '(o, (s, st)) := Create (ra_clock a) Dump (ra_snap a, ra_ledis a) in (o, set_snap s (set_ledis st a)).

(** The oldest time a snapshot may have to be sent. *)
Definition min_time (now : Z) : Z := now - Z.quot (int64 (cfg_ExpiredLogDays * 24 * 3600 * 10 ^ 9)) 2.

Definition fullsyncCommand (c : nat) (args : list bytes) : SM RApp (option cmd_error) :=
  let needNew := match args with [a] => lower_is a "new" | _ => false end in
  s ← (if needNew then snap_Create
       else
         s ← on_snap OpenLatest;
         match s with
         | inr err => mret (inr err)
         | inl None => snap_Create
         | inl (Some (data, t)) =>
             now ← ask ra_clock;
             if t <? min_time now then snap_Create else mret (inl (data, t))
         end);
  match s with
  | inr err => mret (Some (DBError err))
  | inl (data, _) => _ ← write_to c (writeBulkFrom (len data) data); mret None
  end.

Definition roleCommand (c : nat) (args : list bytes) : SM RApp (option cmd_error) :=
  match args with
  | _ :: _ => mret (Some ErrCmdParams)
  | [] =>
      slaveof ← ask ra_SlaveOf;
      stat ← on_ldb ReplicationStat;
      let lastId := match stat with inl (_, LastID, _) => int64 LastID | inr _ => 0 end in
      a ← ask id;
      let item addr :=
        let '(host, port, _) := splitHostPort addr in
        let lastLogID := match ra_slaves a !! addr ≫= fun i => ra_clients a !! i with Some x => rc_lastLogID x | None => 0 end in
        VArray [VBytes host; VBytes (FormatInt64ToSlice (uint64 port)); VBytes (FormatInt64ToSlice lastLogID)] in
      let ay :=
        match slaveof with
        | [] => [VBytes (str "master"); VInt64 lastId; VArray (map item (map_order (dom (ra_slaves a))))]
        | _ =>
            let '(host, port, _) := splitHostPort slaveof in
            [VBytes (str "slave"); VBytes host; VInt64 port; VBytes (replStatetring (m_state (ra_m a))); VInt64 lastId]
        end in
      _ ← write_to c (writeArray (Some ay)); mret None
  end.

(** ** Becoming a slave *)

Definition set_state (n : Z) : SM RApp unit :=
  change (fun a => let m := ra_m a in set_m (mkMaster (m_addr m) n (m_quit m) (m_conn m) (m_running m)) a).

(** [Close] tells the goroutine to quit, closes the connection and waits for its end. *)
Definition m_Close : SM RApp unit :=
  change (fun a => set_m (mkMaster (m_addr (ra_m a)) replConnectState true false None) a).

Definition startReplication (masterAddr : bytes) (restart : bool) : SM RApp (option cmd_error) :=
  _ ← m_Close;
  _ ← SetReadonly true;
  match masterAddr with
  | [] => _ ← change (fun a => set_m (mkMaster masterAddr (m_state (ra_m a)) false false None) a); mret (Some (Errorf (str "no assign master addr")))
  | _ => _ ← change (fun a => set_m (mkMaster masterAddr (m_state (ra_m a)) false false (Some restart)) a); mret None
  end.

Definition slaveof (masterAddr : bytes) (restart readonly : bool) : SM RApp (option cmd_error) :=
  addr ← ask ra_SlaveOf;
  match addr, masterAddr with
  | [], [] => _ ← SetReadonly readonly; mret None
  | _, _ =>
      used ← ask (fun a => ReplicationUsed (ra_ledis a));
      if negb used then mret (Some (Errorf (str "slaveof must enable replication")))
      else
        _ ← change (set_SlaveOf masterAddr);
        match masterAddr with
        | [] => _ ← m_Close; _ ← SetReadonly readonly; mret None
        | _ => startReplication masterAddr restart
        end
  end.

Definition tryReSlaveof : SM RApp (option cmd_error) :=
  used ← ask (fun a => ReplicationUsed (ra_ledis a));
  if negb used then mret None
  else
    addr ← ask ra_SlaveOf;
    match addr with
    | [] => mret None
    | _ => startReplication addr true
    end.

Definition slaveofCommand (c : nat) (args : list bytes) : SM RApp (option cmd_error) :=
  let run masterAddr restart readonly :=
    err ← slaveof masterAddr restart readonly;
    match err with
    | Some err => mret (Some err)
    | None => _ ← write_to c (writeStatus OK); mret None
    end in
  let opt rest word := match rest with [a] => lower_is a word | _ => false end in
  match args with
  | host :: port :: rest =>
      if 1 <? len rest then mret (Some ErrCmdParams)
      else if lower_is host "no" && lower_is port "one" then run [] false (opt rest "readonly")
      else
        match ParseInt port 16 with
        | (_, Some err) => mret (Some (NumError port err))
        | (_, None) => run (host ++ [58] ++ port) (opt rest "restart") false
        end
  | _ => mret (Some ErrCmdParams)
  end.

End Ops.

(** ** The goroutine of a slave *)

Section Slave.
Context {I : IDB} {N : SnapshotDB I} {C : RplConfig} {Y : Snappy} {L : LogStore} {D : BatchData}.
Context {Cfg : ServerConfig} {T : ErrorText} {W : Type} {R : Remote W}.
#[local] Existing Instance repl_backend | 0.

Abbreviation SL := (SM (RApp * W)).

Definition here {A} (p : SM RApp A) : SL A := fun '(a, w) => let '(o, a) := p a in (o, (a, w)).
Definition there {A} (p : SM W A) : SL A := fun '(a, w) => let '(o, w) := p w in (o, (a, w)).

(** A use of [m.conn], which may be nil. *)
Definition on_conn {A} (p : SM W A) : SL A :=
  connected ← here (ask (fun a => m_conn (ra_m a)));
  if (connected : bool) then there p else fun s => (Panic, s).

Definition set_conn (b : bool) : SM RApp unit :=
  change (fun a => let m := ra_m a in set_m (mkMaster (m_addr m) (m_state m) (m_quit m) b (m_running m)) a).

Definition checkConn : SL (option bytes) :=
  m ← here (ask ra_m);
  err ← (if m_conn m then mret None
         else err ← there (rm_Connect (m_addr m)); match err with Some err => mret (Some err) | None => _ ← here (set_conn true); mret None end);
  match err with
  | Some err => mret (Some err)
  | None =>
      err ← (match cfg_MasterPassword with
             | [] => mret None
             | pass =>
                 res ← on_conn (rm_Do [str "auth"; pass]);
                 match goredis_String res with
                 | inr err => _ ← here (set_conn false); mret (Some err)
                 | inl res =>
                     if upper_is res "OK" then mret None
                     else _ ← here (set_conn false); mret (Some (str "master auth fail , res=" ++ res ++ str " , password=" ++ pass))
                 end
             end);
      match err with
      | Some err => mret (Some err)
      | None =>
          res ← on_conn (rm_Do [str "PING"]);
          match res with
          | inr err => _ ← here (set_conn false); mret (Some err)
          | inl _ => mret None
          end
      end
  end.

Definition replConf : SL (option bytes) :=
  match SplitHostPort cfg_Addr with
  | inr err => mret (Some (db_error_text err))
  | inl (_, port) =>
      res ← on_conn (rm_Do [str "replconf"; str "listening-port"; port]);
      mret (match goredis_String res with
            | inr err => Some err
            | inl s => if upper_is s "OK" then None else Some (str "not ok but " ++ s)
            end)
  end.

(** [fullSync]: the dump is written over the file master.dump, which is removed at the
    end. *)
Definition fullSync : SL (option bytes) :=
  err ← on_conn (rm_Send [str "fullsync"]);
  match err with
  | Some err => mret (Some err)
  | None =>
      _ ← here (set_state replSyncState);
      '(data, err) ← on_conn rm_ReceiveBulkTo;
      file ← here (ask (fun a => write_at (ra_dump a) 0 data));
      _ ← here (change (set_dump []));
      match err with
      | Some err => mret (Some err)
      | None =>
          h ← here (on_ldb (LoadDump file));
          mret (match h with inr err => Some (db_error_text err) | inl _ => None end)
      end
  end.

Definition nextSyncLogID : SM RApp (Z + error) :=
  s ← on_ldb ReplicationStat;
  mret (match s with
        | inr err => inr err
        | inl (_, LastID, CommitID) => inl (if LastID >? CommitID then uint64 (LastID + 1) else uint64 (CommitID + 1))
        end).

(** [sync]; the statistics it keeps are left out. *)
Definition sync : SL (option bytes) :=
  syncID ← here nextSyncLogID;
  match syncID with
  | inr err => mret (Some (db_error_text err))
  | inl syncID =>
      err ← on_conn (rm_Send [str "sync"; Itoa syncID]);
      match err with
      | Some err => mret (Some err)
      | None =>
          _ ← here (set_state replConnectedState);
          '(buf, err) ← on_conn rm_ReceiveBulkTo;
          _ ← here (match buf with [] => mret tt | _ => set_state replSyncState end);
          match err with
          | Some err => if bytes_Contains err (db_error_text ErrLogMissed) then fullSync else mret (Some err)
          | None =>
              _ ← here (set_state replConnectedState);
              if len buf <? 8 then mret (Some (str "inavlid sync size " ++ Itoa (len buf)))
              else
                match drop 8 buf with
                | [] => mret None
                | buf =>
                    err ← here (on_ldb (StoreLogsFromData buf));
                    mret (match err with Some err => Some (db_error_text err) | None => None end)
                end
          end
      end
  end.

(** Where [runReplication] is: at the head of the outer loop, of the inner one, or at the
    end. *)
Inductive repl_pc := RConnect | RSync | RQuit.

Definition quited : SL bool := here (ask (fun a => m_quit (ra_m a))).

(** The deferred end of [runReplication]. *)
Definition run_end : SL repl_pc := _ ← here (set_state replConnectState); mret RQuit.

(** One round of [runReplication] from [pc]. *)
Definition runReplication (restart : bool) (pc : repl_pc) : SL repl_pc :=
  match pc with
  | RQuit => mret RQuit
  | RConnect =>
      _ ← here (set_state replConnectState);
      q ← quited;
      if (q : bool) then run_end
      else
        err ← checkConn;
        match err with
        | Some _ => mret RConnect
        | None =>
            q ← quited;
            if (q : bool) then run_end
            else
              _ ← here (set_state replConnectedState);
              err ← replConf;
              match err with
              | Some _ => mret RConnect
              | None =>
                  if restart then
                    err ← fullSync;
                    match err with
                    | Some _ => mret RConnect
                    | None => _ ← here (set_state replConnectedState); mret RSync
                    end
                  else mret RSync
              end
        end
  | RSync =>
      err ← sync;
      match err with
      | Some _ => mret RConnect
      | None =>
          _ ← here (set_state replConnectedState);
          q ← quited;
          if (q : bool) then run_end else mret RSync
      end
  end.

End Slave.
