(* ===== verification/Sync.v ===== *)
(** * A master and a slave

    The connection of the slave of Cluster.v is joined with the commands of a master, faults
    of the network included, and the two run together: commits and purges of the master,
    rounds of the slave and its replay, in any order.  The results: the slave always holds
    the contents its master had at some commit; without faults a slave catches up, by logs
    or by a dump; and where it does not. *)

From S2P Require Import Prelude SortPkg Driver Store Rpl FileIO FileTable FileStore Util Core Repl Dump Sort Client Snapshots Cluster.

(** A log store without logs takes any log; it can be cleared, and purged of its first
    logs. *)
Class FreshLogStore (S : LogStore) {LS : LogStoreSpec S} := {
  StoreLog_fresh s l : ls_rep s [] -> wf_log l -> exists s', ls_StoreLog l s = (Ret None, s') /\ ls_rep s' [l];
  Clear_ok s logs : ls_rep s logs -> exists s', ls_Clear s = (Ret None, s') /\ ls_rep s' [];
  Purge_ok s logs now n : ls_rep s logs -> 0 < n -> exists k s', ls_PurgeExpired now n s = (Ret None, s') /\ ls_rep s' (drop k logs)
}.

Lemma file_store_fresh {P : SortPkg} {C : FileConfig} : 0 <= cfg_MaxLogFileSize -> FreshLogStore file_log_store.
Proof.
  intros Hs. split.
  - intros s l Hr Hl. by apply (fls_store s [] l Hr Hl (or_introl eq_refl)).
  - intros s logs Hr. by apply (fls_clear s logs Hs Hr).
  - intros s logs now n Hr _. destruct (fls_purge s logs now n Hr) as (k & s' & E & Hr' & _). by exists k, s'.
Qed.

(** ** Replicas *)

Section Replica.
Context {I : IDB} {IS : IDBSpec I} {N : SnapshotDB I} {NS : SnapshotSpec I N} {C : RplConfig} {Y : Snappy} {YS : SnappySpec Y}.
Context {L : LogStore} {LS : LogStoreSpec L} {FR : FreshLogStore L} {D : BatchData} {DS : BatchDataSpec I D}.
#[local] Existing Instance repl_backend | 0.

Abbreviation St := (St (B := repl_backend)).
Abbreviation store st := (model (ldb (B := repl_backend) st)).
Implicit Types (logs : list Log) (l : Log) (st : St) (H : list (list BatchOp)).

(** A node, or one whose log was cleared by a dump with the commit id [c]. *)
Record replica st logs (c : Z) : Prop := {
  rp_healthy : healthy (ldb st);
  rp_rpl : exists x, r st = Some x /\ ls_rep (rs x) logs /\ commitID x = c /\ f_faulty (commitLog x) = false /\ exists id0, recorded (commitLog x) id0;
  rp_within : logs = [] \/ within_logs c logs;
  rp_range : 0 <= c
}.

Lemma replica_node st logs c : replica st logs c -> logs <> [] -> node st logs c.
Proof using. intros [H1 H2 [->|H3] _] Hne; [done|]. by split. Qed.

Lemma node_replica st logs c : node st logs c -> replica st logs c.
Proof using LS.
  intros [H1 (x & H2) H3]. split; [done|by exists x|by right|]. destruct logs as [|l logs]; cbn [within_logs] in H3; [lia|].
  destruct H2 as (_ & Hr & _). destruct (rep_chain _ _ Hr) as [Hw _]. apply Forall_cons in Hw as [[Hi _ _ _] _]. lia.
Qed.

(** The state has changed in what the log store caches only. *)
Definition same_replica st st' logs (c : Z) : Prop := replica st' logs c /\ store st' = store st /\ readonly st' = readonly st.

Lemma on_rpl_replica {A} (p : SM Replication A) (a : A) st logs c : replica st logs c ->
  (forall x, ls_rep (rs x) logs -> commitID x = c -> exists s', p x = (Ret a, mkRpl s' (commitID x) (commitLog x)) /\ ls_rep s' logs) ->
  exists st', on_rpl p st = (Ret a, st') /\ same_replica st st' logs c.
Proof using.
  intros [Hh (x & Hx & Hr & Hid & Hf & Hrec) Hw Hc] Hp. destruct (Hp x Hr Hid) as (s' & E & Hr'). rewrite (on_rpl_run _ _ x _ st Hx E).
  eexists. split; [done|]. split; [|done]. split; [done| |done|done]. eexists. split; [done|]. done.
Qed.

Lemma Stat_replica st logs c : replica st logs c -> exists st', ReplicationStat st = (Ret (inl (first_id logs, last_id logs, c)), st') /\ same_replica st st' logs c.
Proof using LS.
  intros Hr. pose proof Hr as [_ (x0 & Hx0 & _) _ _]. unfold ReplicationStat, ReplicationUsed. rewrite Hx0. cbn [negb]. apply on_rpl_replica; [done|].
  intros x Hx Hc. destruct (FirstID_ok _ _ Hx) as (s1 & E1 & H1). destruct (LastID_ok _ _ H1) as (s2 & E2 & H2). exists s2. split; [|done].
  unfold rpl_Stat, mbind, SM_bind. rewrite (on_store_run _ _ _ _ E1). rewrite (on_store_run _ _ _ (mkRpl s1 (commitID x) (commitLog x)) E2). cbn [commitID commitLog]. by rewrite Hc.
Qed.

(** The next log of a replica without logs. *)
Lemma fresh_node st l c : replica st [] c -> wf_log l -> ID l = c + 1 -> exists st', on_rpl (rpl_StoreLog l) st = (Ret None, st') /\ node st' [l] c /\ store st' = store st /\ readonly st' = readonly st.
Proof using FR.
  intros [Hh (x & Hx & Hr & Hid & Hf & Hrec) _ _] Hl HI. destruct (StoreLog_fresh _ l Hr Hl) as (s' & E & Hr').
  rewrite (on_rpl_run (rpl_StoreLog l) _ x _ st Hx (on_store_run _ _ _ _ E)). eexists. split; [done|]. split; [|done].
  split; [done| |unfold within_logs, last_id; cbn [list.last]; lia]. eexists. split; [done|]. done.
Qed.

(** Storing logs that continue the last log, or the commit id of a replica without logs. *)
Lemma StoreLogs_replica st logs c new : replica st logs c -> readonly st = true ->
  continues (match logs with [] => c | _ => last_id logs end) new -> new <> [] ->
  exists st', StoreLogsFromData (concat (map Encode new)) st = (Ret None, st') /\ replica st' (logs ++ new) c /\ store st' = store st /\ readonly st' = true.
Proof using FR.
  intros Hr Hro Hc Hne. destruct logs as [|l0 logs].
  - destruct new as [|l new]; [done|]. destruct (continues_cons _ _ _ Hc) as (HI & Hl & Hc'). destruct (fresh_node st l c Hr Hl HI) as (st1 & E1 & Hn & Hs & Hro1).
    unfold StoreLogsFromData, StoreLogsFromReader, ReplicationUsed. pose proof Hr as [_ (x & Hx & _) _ _]. rewrite Hx, Hro. cbn [negb map concat store_logs_loop].
    rewrite Decode_Encode by done. unfold mbind, M_bind. rewrite E1.
    destruct (store_logs_loop_node (length (Encode l ++ concat (map Encode new))) st1 [l] c new Hn) as (st2 & E2 & Hn2 & Hs2 & Hro2).
    + unfold last_id. cbn [list.last]. by rewrite HI.
    + clear. rewrite length_app. pose proof (Encode_length l) as HL. unfold log_Size, LogHeadSize in HL. induction new as [|l' new IH]; [simpl; lia|].
      cbn [map concat length]. rewrite length_app. pose proof (Encode_length l') as HL'. unfold log_Size, LogHeadSize in HL'. lia.
    + exists st2. split; [done|]. split; [by apply node_replica|]. split; congruence.
  - destruct (StoreLogs_node st (l0 :: logs) c new (replica_node _ _ _ Hr ltac:(done)) Hro Hc) as (st' & E & Hn & Hs & Hro'). exists st'. split; [done|].
    split; [by apply node_replica|done].
Qed.

(** Replaying what is behind. *)
Lemma replay_replica fuel st logs c opss : replica st logs c -> Forall2 log_of (match logs with [] => [] | _ => behind c logs end) opss -> (length opss < fuel)%nat ->
  exists st', handleReplication fuel st = (Ret (Some None), st') /\ replica st' logs (match logs with [] => c | _ => last_id logs end) /\
  store st' = apply_ops (concat opss) (store st) /\ readonly st' = readonly st.
Proof using LS.
  intros Hr HF Hf. destruct logs as [|l0 logs].
  - apply Forall2_nil_inv_l in HF as ->. destruct fuel as [|fuel]; [simpl in Hf; lia|]. cbn [handleReplication]. unfold mbind, M_bind.
    pose proof Hr as [Hh (x & Hx & Hrep & Hid & Hff & Hrec) _ Hc0]. destruct (LastID_ok _ _ Hrep) as (s1 & E1 & H1).
    assert (E : NextNeedCommitLog x = (Ret (inr ErrNoBehindLog), mkRpl s1 (commitID x) (commitLog x))).
    { unfold NextNeedCommitLog, mbind, SM_bind. rewrite (on_store_run _ _ _ _ E1). cbn [commitID]. change (last_id []) with 0. by rewrite (proj2 (Z.leb_le _ _)) by lia. }
    rewrite (on_rpl_run _ _ x _ st Hx E). eexists. split; [done|]. split; [|done]. split; [done| |by left|done]. eexists. split; [done|]. done.
  - destruct (handleReplication_node fuel st (l0 :: logs) c opss (replica_node _ _ _ Hr ltac:(done)) HF Hf) as (st' & E & Hn & Hs & Hro). exists st'. split; [done|].
    split; [by apply node_replica|done].
Qed.

(** ** Reading logs *)

Lemma replica_within st logs c : replica st logs c -> within_logs c logs -> node st logs c.
Proof using. intros [H1 H2 _ _] H3. by split. Qed.

Lemma Stat_node st logs c : node st logs c -> exists st', ReplicationStat st = (Ret (inl (first_id logs, last_id logs, c)), st') /\ same_node st st' logs c.
Proof using LS.
  intros Hn. destruct (Stat_replica st logs c (node_replica _ _ _ Hn)) as (st' & E & Hr & Hs & Hro). exists st'. split; [done|]. split; [|done].
  apply replica_within; [done|apply Hn].
Qed.

Lemma read_logs_loop_size fuel : forall i lastID n next w st n' next' w' st', read_logs_loop fuel i lastID n next w st = (Ret (n', next', None, w'), st') -> n = len w -> n' = len w'.
Proof using.
  induction fuel as [|fuel IH]; intros i lastID n next w st n' next' w' st'; cbn [read_logs_loop]; [intros [= <- <- <- <-]; done|].
  destruct (i <=? lastID); [|intros [= <- <- <- <-]; done]. unfold mbind, M_bind. destruct (on_rpl (rpl_GetLog i) st) as [[[l|err]|] st1]; [|done|done].
  assert (HW : n = len w -> n + log_Size l = len (w ++ Encode l)) by (intros ->; rewrite length_app, Nat2Z.inj_add, Encode_length; done).
  destruct (_ >? maxReplLogSize); [intros [= <- <- <- <-]; done|]. intros E Hn. eapply IH; [exact E|by apply HW].
Qed.

Lemma ReadLogsTo_size start st n next w st' : ReadLogsTo start st = (Ret (n, next, None, w), st') -> n = len w.
Proof using.
  unfold ReadLogsTo. destruct (ReplicationUsed st); [|done]. cbn [negb]. unfold mbind, M_bind. destruct (on_rpl FirstLogID st) as [[[f [err|]]|] st1]; [done| |done].
  destruct (start <? f); [done|]. destruct (on_rpl LastLogID st1) as [[[la [err|]]|] st2]; [done| |done]. intros E. by eapply read_logs_loop_size.
Qed.

(** Logs from [k] + 1 on, when nothing happens while the master waits. *)
Lemma ReadTimeout_node st logs id k : node st logs id -> within_logs k logs -> exists j n next st',
  ReadLogsToTimeout (k + 1) (mret false) st = (Ret (n, next, None, concat (map Encode (take j (behind k logs)))), st') /\ same_node st st' logs id /\
  (0 < length (behind k logs) -> 0 < j)%nat.
Proof using LS.
  intros Hn Hw. destruct (ReadLogsTo_node st logs id k Hn Hw) as (j1 & n1 & st1 & E1 & HS1 & _ & Hj1). unfold ReadLogsToTimeout, mbind, M_bind. rewrite E1.
  destruct (n1 =? 0) eqn:E0; cbn [negb]; [|by exists j1, n1, (k + 1 + Z.of_nat j1), st1]. pose proof (ReadLogsTo_size _ _ _ _ _ _ E1) as Hsz. zify_bool.
  assert (concat (map Encode (take j1 (behind k logs))) = []) as -> by (apply length_zero_iff_nil; lia). cbn [mret M_ret].
  destruct (ReadLogsTo_node st1 logs id k (proj1 HS1) Hw) as (j2 & n2 & st2 & E2 & HS2 & _ & Hj2). rewrite E2. exists j2, n2, (k + 1 + Z.of_nat j2), st2.
  split; [done|]. split; [by eapply same_node_trans|done].
Qed.

Lemma ReadTimeout_missed st logs id k : node st logs id -> k + 1 < first_id logs -> exists st',
  ReadLogsToTimeout (k + 1) (mret false) st = (Ret (0, 0, Some ErrLogMissed, []), st') /\ same_node st st' logs id.
Proof using LS.
  intros Hn Hk. destruct (FirstLogID_node st logs id Hn) as (st1 & E1 & HS1). exists st1. split; [|done].
  unfold ReadLogsToTimeout, ReadLogsTo, ReplicationUsed, mbind, M_bind. destruct Hn as [_ (x & Hx & _) _]. rewrite Hx. cbn [negb]. rewrite E1.
  by rewrite (proj2 (Z.ltb_lt _ _)) by done.
Qed.

End Replica.

(** * The connection *)

(** Faults of the network: [None] is none; with [Some (k, text)] an operation fails with the
    error [text].  A request has reached the master if [k] is positive; of a bulk [k] bytes
    have arrived. *)
Abbreviation fault := (option (nat * bytes)).

Section Link.
Context {I : IDB} {N : SnapshotDB I} {C : RplConfig} {Y : Snappy} {L : LogStore} {D : BatchData}.
Context {F : TimeFormat} {P : SortPkg} {SC : SnapConfig} {Cfg : ServerConfig} {T : ErrorText} {MO : MapOrder}.
#[local] Existing Instance repl_backend | 0.

Record link := mkLink { lk_master : RApp; lk_pending : option reply_value; lk_faults : list fault }.

(** The slave is the client 0 of its master. *)
Definition me : nat := 0.

Definition answer (p : SM RApp (option cmd_error)) : SM RApp reply_value :=
  err ← p;
  match err with
  | Some err => mret (RError (error_text err))
  | None => x ← the_client me; mret (match last (rc_resp x) with Some w => reply_of w | None => RBulk None end)
  end.

(** The answers of the master to the requests of a slave. *)
Definition serve_slave (req : list bytes) : SM RApp reply_value :=
  match req with
  | [] => mret (RError (error_text ErrEmptyCommand))
  | cmd :: args =>
      if lower_is cmd "ping" then mret (RStatus PONG)
      else if lower_is cmd "replconf" then answer (replconfCommand me args)
      else if lower_is cmd "sync" then answer (syncCommand me args (mret false))
      else if lower_is cmd "fullsync" then answer (fullsyncCommand me args)
      else mret (RError (error_text ErrNotFound))
  end.

Definition on_master {A} (p : SM RApp A) : SM link A := fun w =>
  let '(o, a) := p (lk_master w) in (o, mkLink a (lk_pending w) (lk_faults w)).

Definition next_fault : SM link fault := fun w =>
  match lk_faults w with
  | [] => (Ret None, w)
  | f :: fs => (Ret f, mkLink (lk_master w) (lk_pending w) fs)
  end.

Definition set_pending (v : option reply_value) : SM link unit := fun w => (Ret tt, mkLink (lk_master w) v (lk_faults w)).

(** The bytes and the error a reply gives to [ReceiveBulkTo]. *)
Definition bulk_reply (v : option reply_value) : bytes * option bytes :=
  match v with
  | Some (RBulk (Some b)) => (b, None)
  | Some (RBulk None) => ([], None)
  | Some (RError text) => ([], Some text)
  | _ => ([], Some (str "not invalid bulk string type"))
  end.

#[global] Instance link_remote : Remote link := {|
  rm_Connect _ := f ← next_fault; mret (snd <$> f);
  rm_Do req :=
    f ← next_fault;
    match f with
    | Some (O, text) => mret (inr text)
    | Some (S _, text) => _ ← on_master (serve_slave req); mret (inr text)
    | None => v ← on_master (serve_slave req); mret (match v with RError text => inr text | _ => inl v end)
    end;
  rm_Send req :=
    f ← next_fault;
    match f with
    | Some (O, text) => mret (Some text)
    | Some (S _, text) => _ ← on_master (serve_slave req); mret (Some text)
    | None => v ← on_master (serve_slave req); _ ← set_pending (Some v); mret None
    end;
  rm_ReceiveBulkTo :=
    f ← next_fault;
    v ← (fun w => (Ret (lk_pending w), w));
    _ ← set_pending None;
    let '(b, err) := bulk_reply v in
    mret (match f with Some (k, text) => (take k b, Some text) | None => (b, err) end)
|}.

End Link.

(** * The servers *)

Section Cluster.
Context {I : IDB} {IS : IDBSpec I} {N : SnapshotDB I} {NS : SnapshotSpec I N} {C : RplConfig} {Y : Snappy} {YS : SnappySpec Y}.
Context {L : LogStore} {LS : LogStoreSpec L} {FR : FreshLogStore L} {D : BatchData} {DS : BatchDataSpec I D}.
Context {F : TimeFormat} {TS : TimeFormatSpec F} {P : SortPkg} {SC : SnapConfig} {Cfg : ServerConfig} {T : ErrorText} {MO : MapOrder}.
#[local] Existing Instance repl_backend | 0.
Abbreviation St := (St (B := repl_backend)).
Abbreviation store st := (model (ldb (B := repl_backend) st)).
Implicit Types (logsH : list Log) (H : list (list BatchOp)) (a : RApp) (st : St).

(** What the master held after [i] commits of [H]. *)
Definition contents H (i : nat) : gmap bytes bytes := apply_ops (concat (take i H)) ∅.

(** The logs of the batches [H], with the ids from 1 on; dumps of the contents fit. *)
Record history H logsH : Prop := {
  hi_logs : Forall2 log_of logsH H;
  hi_ids : continues 0 logsH;
  hi_size : len H < 2 ^ 60;
  hi_fits : forall i, fits_dump (contents H i)
}.

Lemma history_length H logsH : history H logsH -> length logsH = length H.
Proof using. intros Hh. apply (Forall2_length _ _ _ (hi_logs _ _ Hh)). Qed.

(** The ids in a part of the logs. *)
Lemma part_ids H logsH j i l : history H logsH -> drop j logsH !! i = Some l -> ID l = Z.of_nat (j + i) + 1 /\ wf_log l.
Proof using.
  intros Hh E. rewrite lookup_drop in E. destruct (hi_ids _ _ Hh) as [Hw Hi]. rewrite (Hi _ _ E). split; [lia|]. rewrite Forall_lookup in Hw. by eapply Hw.
Qed.

Lemma part_first H logsH j : history H logsH -> (j < length logsH)%nat -> first_id (drop j logsH) = Z.of_nat j + 1.
Proof using.
  intros Hh Hj. destruct (drop j logsH) as [|l rest] eqn:E; [apply (f_equal length) in E; rewrite length_drop in E; simpl in E; lia|].
  destruct (part_ids H logsH j 0 l Hh) as [HI _]; [by rewrite E|]. cbn [first_id]. lia.
Qed.

Lemma part_last H logsH j : history H logsH -> (j < length logsH)%nat -> last_id (drop j logsH) = len H.
Proof using.
  intros Hh Hj. unfold last_id. rewrite last_lookup, length_drop. destruct (drop j logsH !! pred (length logsH - j)) as [l|] eqn:E.
  - destruct (part_ids H logsH j _ l Hh E) as [HI _]. pose proof (history_length _ _ Hh). lia.
  - apply lookup_ge_None in E. rewrite length_drop in E. lia.
Qed.

Lemma part_behind H logsH j k : history H logsH -> (j < length logsH)%nat -> (j <= k)%nat -> behind (Z.of_nat k) (drop j logsH) = drop k logsH.
Proof using. intros Hh Hj Hk. unfold behind. rewrite (part_first _ _ _ Hh Hj), drop_drop. f_equal. lia. Qed.

Lemma part_within H logsH j k : history H logsH -> (j < length logsH)%nat -> (j <= k <= length logsH)%nat -> within_logs (Z.of_nat k) (drop j logsH).
Proof using.
  intros Hh Hj Hk. pose proof (part_first _ _ _ Hh Hj) as E1. pose proof (part_last _ _ _ Hh Hj) as E2. pose proof (history_length _ _ Hh).
  destruct (drop j logsH); [cbn [first_id] in E1; unfold InvalidLogID in E1; lia|]. cbn [within_logs first_id] in *. lia.
Qed.

(** A dump of the contents after some commits. *)
Definition dump_at H (i : nat) (data : bytes) : Prop :=
  exists ds, (i <= length H)%nat /\ data = head_Write (mkDumpHead (Z.of_nat i)) ++ concat ds /\ Forall2 encodes (sorted_entries (contents H i)) ds.

(** The master: [j] of its logs have been purged. *)
Record master_inv a H logsH (j : nat) : Prop := {
  mi_node : node (ra_ledis a) (drop j logsH) (len H);
  mi_first : (j < length logsH)%nat \/ (logsH = [] /\ j = 0%nat);
  mi_store : store (ra_ledis a) = contents H (length H);
  mi_tmp : forall name, is_tmp name = true -> sn_dir (ra_snap a) !! name = None;
  mi_snaps : forall name data, name ∈ sn_names (ra_snap a) -> sn_dir (ra_snap a) !! name = Some data -> exists i, dump_at H i data;
  mi_client : exists x host port, ra_clients a !! me = Some x /\ SplitHostPort (rc_remoteAddr x) = inl (host, port);
  mi_clock : tf_ok (ra_clock a)
}.

(** What the master keeps while it answers. *)
Definition quiet a a' H logsH (j : nat) : Prop :=
  same_node (ra_ledis a) (ra_ledis a') (drop j logsH) (len H) /\ ra_snap a' = ra_snap a /\ ra_clock a' = ra_clock a /\
  forall x, ra_clients a !! me = Some x -> exists x', ra_clients a' !! me = Some x' /\ rc_remoteAddr x' = rc_remoteAddr x.

Lemma quiet_inv a a' H logsH j : master_inv a H logsH j -> quiet a a' H logsH j -> master_inv a' H logsH j.
Proof using.
  intros [M1 M2 M3 M4 M5 (x & h & p & M6 & M7) M8] ((Q1 & Q2 & _) & Q3 & Q3' & Q4). split; [done|done|by rewrite Q2|by rewrite Q3|by rewrite Q3| |by rewrite Q3'].
  destruct (Q4 x M6) as (x' & Q5 & Q6). exists x', h, p. by rewrite Q6.
Qed.

Lemma quiet_trans a1 a2 a3 H logsH j : quiet a1 a2 H logsH j -> quiet a2 a3 H logsH j -> quiet a1 a3 H logsH j.
Proof using.
  intros (Q1 & Q2 & Q3 & Q4) (R1 & R2 & R3 & R4). split; [by eapply same_node_trans|]. split; [congruence|]. split; [congruence|]. intros x Hx.
  destruct (Q4 x Hx) as (x' & Hx' & E1). destruct (R4 x' Hx') as (x'' & Hx'' & E2). exists x''. split; [done|congruence].
Qed.

Lemma quiet_refl a H logsH j : node (ra_ledis a) (drop j logsH) (len H) -> quiet a a H logsH j.
Proof using. intros Hn. split; [done|]. split; [done|]. split; [done|]. by intros x; exists x. Qed.

(** A change of the client, the slaves and the acknowledgements. *)
Lemma quiet_client a x y slaves acks H logsH j : node (ra_ledis a) (drop j logsH) (len H) -> ra_clients a !! me = Some x -> rc_remoteAddr y = rc_remoteAddr x ->
  quiet a (mkRApp (ra_ledis a) (ra_SlaveOf a) (<[me := y]> (ra_clients a)) slaves acks (ra_snap a) (ra_m a) (ra_dump a) (ra_clock a)) H logsH j.
Proof using.
  intros Hn Hx Hy. split; [done|]. split; [done|]. split; [done|]. intros x' Hx'. cbn [ra_clients]. exists y. rewrite lookup_insert_eq. split; [done|congruence].
Qed.

Lemma on_ldb_run {A} (p : M A) (o : outcome A) st a : p (ra_ledis a) = (o, st) -> on_ldb p a = (o, set_ledis st a).
Proof using. intros E. unfold on_ldb. by rewrite E. Qed.

Lemma quiet_ledis a st H logsH j : same_node (ra_ledis a) st (drop j logsH) (len H) -> quiet a (set_ledis st a) H logsH j.
Proof using. intros Hs. split; [done|]. split; [done|]. split; [done|]. by intros x; exists x. Qed.

Lemma Stat_master a H logsH j : history H logsH -> master_inv a H logsH j -> exists first a', on_ldb ReplicationStat a = (Ret (inl (first, len H, len H)), a') /\ quiet a a' H logsH j.
Proof using LS.
  intros Hh HM. destruct (Stat_node _ _ _ (mi_node _ _ _ _ HM)) as (st & E & HS). eexists _, _. split; [|by apply quiet_ledis].
  rewrite (on_ldb_run _ _ _ _ E). do 5 f_equal. destruct (mi_first _ _ _ _ HM) as [Hj|[Hl ->]]; [by apply (part_last H)|].
  pose proof (history_length _ _ Hh) as HL. rewrite Hl in HL |- *. destruct H; [done|simpl in HL; lia].
Qed.

(** ** Answers of the master *)

Lemma serve_ping a : serve_slave [str "PING"] a = (Ret (RStatus PONG), a).
Proof using. done. Qed.

(** The client gets a response. *)
Lemma write_quiet a w H logsH j : master_inv a H logsH j -> exists x a', write_to me w a = (Ret tt, a') /\ quiet a a' H logsH j /\ ra_clients a' !! me = Some x /\ last (rc_resp x) = Some w.
Proof using.
  intros HM. pose proof HM as [M1 _ _ _ _ (x & h & p & M6 & _) _]. unfold write_to, the_client, mbind, SM_bind. rewrite M6. unfold change, set_client.
  eexists _, _. split; [done|]. split; [by eapply quiet_client|]. cbn [ra_clients]. rewrite lookup_insert_eq. split; [done|]. cbn [rc_resp]. by rewrite last_snoc.
Qed.

(** A command that ends with the response [w]. *)
Lemma answer_write a w H logsH j (p : SM RApp (option cmd_error)) a0 : master_inv a H logsH j ->
  p a0 = (_ ← write_to me w; mret None) a -> exists a', answer p a0 = (Ret (reply_of w), a') /\ quiet a a' H logsH j.
Proof using.
  intros HM E. destruct (write_quiet a w H logsH j HM) as (x & a' & EW & HQ & Hx & Hl). exists a'. split; [|done]. unfold answer, mbind, SM_bind.
  unfold mbind, SM_bind in E. rewrite E, EW. cbn [mret SM_ret]. unfold the_client. rewrite Hx. by rewrite Hl.
Qed.

Lemma answer_fail (p : SM RApp (option cmd_error)) a a' err : p a = (Ret (Some err), a') -> answer p a = (Ret (RError (error_text err)), a').
Proof using. intros E. unfold answer, mbind, SM_bind. by rewrite E. Qed.

Lemma parse_id (k : nat) : Z.of_nat k + 1 < 2 ^ 64 -> StrUint64 (Some (Itoa (Z.of_nat k + 1))) None = (Z.of_nat k + 1, None).
Proof using.
  intros Hk. unfold StrUint64, Itoa, FormatInt64ToSlice. rewrite (proj2 (Z.ltb_ge _ _)) by lia. apply ParseUint_format. lia.
Qed.

(** The acknowledgement of a slave. *)
Lemma slaveAck_quiet a H logsH j : master_inv a H logsH j -> exists a', slaveAck me a = (Ret tt, a') /\ quiet a a' H logsH j.
Proof using.
  intros HM. pose proof HM as [M1 _ _ _ _ (x & h & p & M6 & _) _]. unfold slaveAck, the_client, mbind, SM_bind. rewrite M6. unfold ask.
  destruct (ra_slaves a !! _); [|exists a; split; [done|by apply quiet_refl]]. eexists. split; [done|]. split; [done|]. split; [done|]. split; [done|]. by intros y; exists y.
Qed.

Lemma serve_sync a H logsH j (k : nat) : history H logsH -> master_inv a H logsH j -> (k <= length H)%nat -> exists v a',
  serve_slave [str "sync"; Itoa (Z.of_nat k + 1)] a = (Ret v, a') /\ quiet a a' H logsH j /\
  ((k < j)%nat -> v = RError (db_error_text ErrLogMissed)) /\
  ((j <= k)%nat -> exists n, v = RBulk (Some (be_put 8 (uint64 (len H)) ++ concat (map Encode (take n (drop k logsH))))) /\ (k < length H -> 0 < n)%nat).
Proof using LS.
  intros Hh HM Hk. pose proof (hi_size _ _ Hh) as Hsz. pose proof (history_length _ _ Hh) as HL. destruct (Stat_master a H logsH j Hh HM) as (f1 & a1 & E1 & Q1).
  pose proof (quiet_inv _ _ _ _ _ HM Q1) as HM1. destruct (mi_client _ _ _ _ HM1) as (x & h & p & Hx & _). set (y := mkRC (rc_remoteAddr x) (rc_slaveListeningAddr x) (Z.of_nat k) (rc_resp x)).
  set (a2 := set_client me y a1). assert (Q2 : quiet a1 a2 H logsH j) by (eapply quiet_client; [apply HM1|exact Hx|done]). pose proof (quiet_inv _ _ _ _ _ HM1 Q2) as HM2.
  assert (exists a3, (if Z.of_nat k =? len H then slaveAck me else mret tt) a2 = (Ret tt, a3) /\ quiet a2 a3 H logsH j) as (a3 & E3 & Q3).
  { destruct (_ =? _); [by apply slaveAck_quiet|]. exists a2. split; [done|apply quiet_refl, HM2]. }
  pose proof (quiet_inv _ _ _ _ _ HM2 Q3) as HM3. pose proof (quiet_trans _ _ _ _ _ _ Q1 (quiet_trans _ _ _ _ _ _ Q2 Q3)) as Q13.
  assert (EH : forall tail, (tail = on_ldb (ReadLogsToTimeout (Z.of_nat k + 1) (mret false)) a3) -> forall o a4, tail = (o, a4) ->
    syncCommand me [Itoa (Z.of_nat k + 1)] (mret false) a = match o with
      | Ret (_, _, Some err, _) => (Ret (Some (DBError err)), a4)
      | Ret (_, _, None, buf) => (stat ← on_ldb ReplicationStat; match stat with inr err => mret (Some (DBError err)) | inl (_, LastID, _) => _ ← write_to me (writeBulk (Some (be_put 8 (uint64 LastID) ++ buf))); mret None end) a4
      | Panic => (Panic, a4) end).
  { intros tail -> o a4 E4. unfold syncCommand. rewrite parse_id by lia. rewrite Z.add_simpl_r, uwrap_small by lia. unfold mbind at 1, SM_bind at 1. rewrite E1.
    rewrite Z.gtb_ltb, (proj2 (Z.ltb_ge _ _)) by lia. unfold mbind, SM_bind. unfold the_client at 1. rewrite Hx. unfold change. fold y. fold a2.
    rewrite E3, E4. destruct o as [[[[n next] [err|]] buf]|]; done. }
  destruct (decide (k < j)%nat) as [Hlt|Hge].
  - destruct (mi_first _ _ _ _ HM) as [Hj|[_ Hj]]; [|lia]. destruct (ReadTimeout_missed _ _ _ (Z.of_nat k) (mi_node _ _ _ _ HM3)) as (st & E4 & S4).
    { rewrite (part_first _ _ _ Hh Hj). lia. }
    exists (RError (db_error_text ErrLogMissed)), (set_ledis st a3). split; [|split; [eapply quiet_trans; [exact Q13|by apply quiet_ledis]|split; [done|lia]]].
    apply (answer_fail _ _ _ (DBError ErrLogMissed)). by rewrite (EH _ eq_refl _ _ (on_ldb_run _ _ _ _ E4)).
  - destruct (ReadTimeout_node _ _ _ (Z.of_nat k) (mi_node _ _ _ _ HM3)) as (n & n0 & next & st & E4 & S4 & Hn).
    { destruct (mi_first _ _ _ _ HM) as [Hj|[Hl Hj]]; [apply (part_within H); [done|done|lia]|]. subst logsH. rewrite drop_nil. simpl in HL. cbn [within_logs]. lia. }
    set (a4 := set_ledis st a3) in *. assert (Q4 : quiet a3 a4 H logsH j) by (by apply quiet_ledis). pose proof (quiet_inv _ _ _ _ _ HM3 Q4) as HM4.
    destruct (Stat_master a4 H logsH j Hh HM4) as (f5 & a5 & E5 & Q5). pose proof (quiet_inv _ _ _ _ _ HM4 Q5) as HM5.
    assert (HB : behind (Z.of_nat k) (drop j logsH) = drop k logsH).
    { destruct (mi_first _ _ _ _ HM) as [Hj|[Hl Hj]]; [apply (part_behind H); [done|done|lia]|]. subst logsH. unfold behind. by rewrite !drop_nil. }
    rewrite HB in E4, Hn. destruct (answer_write a5 (writeBulk (Some (be_put 8 (uint64 (len H)) ++ concat (map Encode (take n (drop k logsH)))))) H logsH j
      (syncCommand me [Itoa (Z.of_nat k + 1)] (mret false)) a HM5) as (a6 & E6 & Q6).
    { rewrite (EH _ eq_refl _ _ (on_ldb_run _ _ _ _ E4)). fold a4. unfold mbind at 1, SM_bind at 1. by rewrite E5. }
    eexists _, a6. split; [exact E6|]. split; [eapply quiet_trans; [exact Q13|]; eapply quiet_trans; [exact Q4|]; by eapply quiet_trans|]. split; [lia|].
    intros _. exists n. split; [done|]. intros Hlt. apply Hn. rewrite length_drop. lia.
Qed.

Lemma used_master a H logsH j : master_inv a H logsH j -> ReplicationUsed (ra_ledis a) = true.
Proof using. intros HM. destruct (mi_node _ _ _ _ HM) as [_ (x & Hx & _) _]. unfold ReplicationUsed. by rewrite Hx. Qed.

Lemma serve_replconf a H logsH j port : master_inv a H logsH j -> exists v a',
  serve_slave [str "replconf"; str "listening-port"; port] a = (Ret v, a') /\ quiet a a' H logsH j /\ ((ParseUint port 16).2 = None -> v = RStatus OK).
Proof using.
  intros HM. pose proof (quiet_refl a H logsH j (mi_node _ _ _ _ HM)) as Q0. destruct (mi_client _ _ _ _ HM) as (x & h & p & Hx & Hs).
  change (serve_slave [str "replconf"; str "listening-port"; port] a) with (answer (replconfCommand me [str "listening-port"; port]) a).
  assert (EU : forall q, replconfCommand me [str "listening-port"; port] a = q -> q = (err ← replconf_loop me [str "listening-port"; port]; match err with Some err => mret (Some err) | None => _ ← write_to me (writeStatus OK); mret None end) a).
  { intros q <-. unfold replconfCommand. change (negb (len [str "listening-port"; port] mod 2 =? 0)) with false. cbv iota. unfold mbind at 1, SM_bind at 1, ask. cbv beta iota. rewrite (used_master _ _ _ _ HM). done. }
  specialize (EU _ eq_refl). unfold mbind, SM_bind in EU. cbn [replconf_loop] in EU. change (lower_is (str "listening-port") "listening-port") with true in EU. cbv iota in EU.
  destruct (ParseUint port 16) as [n [err|]].
  - exists (RError (error_text (NumError port err))), a. split; [by apply answer_fail|]. split; [done|]. by intros.
  - unfold the_client, mbind, SM_bind in EU. rewrite Hx, Hs in EU. unfold change, addSlave, the_client, mbind, SM_bind in EU.
    set (y := mkRC (rc_remoteAddr x) (JoinHostPort h port) (rc_lastLogID x) (rc_resp x)) in *. cbn [set_client ra_clients] in EU. rewrite lookup_insert_eq in EU. cbn [replconf_loop mret SM_ret] in EU.
    set (a1 := set_slaves (<[rc_slaveListeningAddr y := me]> (ra_slaves (set_client me y a))) (set_client me y a)).
    assert (Q1 : quiet a a1 H logsH j) by exact (quiet_client a x y _ _ H logsH j (mi_node _ _ _ _ HM) Hx eq_refl). pose proof (quiet_inv _ _ _ _ _ HM Q1) as HM1.
    destruct (answer_write a1 (writeStatus OK) H logsH j (replconfCommand me [str "listening-port"; port]) a HM1) as (a2 & E2 & Q2); [by rewrite EU|].
    exists (RStatus OK), a2. split; [exact E2|]. split; [by eapply quiet_trans|done].
Qed.

(** ** Snapshots of the master *)

Lemma master_commit a H logsH j : master_inv a H logsH j -> commit_of (ra_ledis a) = len H.
Proof using. intros HM. destruct (mi_node _ _ _ _ HM) as [_ (x & Hx & _ & Hc & _) _]. unfold commit_of. by rewrite Hx. Qed.

Lemma Dump_master a H logsH j : history H logsH -> master_inv a H logsH j -> exists data, Dump (ra_ledis a) = (Ret (data, None), ra_ledis a) /\ dump_at H (length H) data.
Proof using NS YS.
  intros Hh HM. destruct (Dump_ok (ra_ledis a) (nd_healthy _ _ _ (mi_node _ _ _ _ HM))) as (ds & E & HF); [rewrite (mi_store _ _ _ _ HM); apply (hi_fits _ _ Hh)|].
  rewrite (master_commit _ _ _ _ HM) in E. eexists. split; [exact E|]. exists ds. split; [done|]. split; [done|]. by rewrite <- (mi_store _ _ _ _ HM).
Qed.

Lemma purge_true s : exists k, snap_purge true s = (Ret tt, mkSnaps (remove_files (take k (sn_names s)) (sn_dir s)) (drop k (sn_names s))).
Proof using.
  unfold snap_purge. set (n := len (sn_names s)). set (num := if _ >? n then n else _). assert (num <= n) by (subst num; case_match eqn:E; rewrite Z.gtb_ltb in E; zify_bool; lia).
  rewrite !Z.gtb_ltb. destruct (0 <? num); [|exists 0%nat; rewrite take_0, drop_0; by destruct s]. exists (Z.to_nat num). by rewrite (proj2 (Z.ltb_ge _ _)) by lia.
Qed.

Lemma Create_master a H logsH j : history H logsH -> master_inv a H logsH j -> exists res a', snap_Create a = (Ret res, a') /\ master_inv a' H logsH j /\
  (forall data t, res = inl (data, t) -> exists i, dump_at H i data) /\
  (sn_names (ra_snap a) = [] -> exists data t, res = inl (data, t) /\ dump_at H (length H) data).
Proof using NS YS TS.
  intros Hh HM. destruct (Dump_master a H logsH j Hh HM) as (data & ED & HD). pose proof HM as [M1 M2 M3 M4 M5 M6 M7]. unfold snap_Create, Create.
  destruct (purge_true (ra_snap a)) as (k & ->). set (s1 := mkSnaps _ _).
  assert (T1 : forall name, is_tmp name = true -> sn_dir s1 !! name = None) by (intros name Hn; subst s1; cbn [sn_dir]; rewrite remove_lookup; case_match; [done|by apply M4]).
  assert (S1 : forall name d, name ∈ sn_names s1 -> sn_dir s1 !! name = Some d -> exists i, dump_at H i d).
  { intros name d Hn Hd. subst s1. cbn [sn_dir sn_names] in *. rewrite remove_lookup in Hd. case_match; [done|]. eapply M5; [|exact Hd]. by eapply subseteq_drop. }
  cbn [sn_names sn_dir]. set (late := match last _ with Some _ => _ | None => _ end). destruct late eqn:Elate; subst late.
  { eexists _, _. split; [done|]. split; [by split|]. split; [by intros|]. intros En. subst s1. cbn [sn_names] in Elate. by rewrite En, drop_nil in Elate. }
  rewrite ED. rewrite (T1 _ (tmp_is_tmp (snapshotName (ra_clock a)))).
  assert (EW : write_at (default [] None) 0 data = data) by (unfold write_at; cbn; rewrite drop_nil; by apply app_nil_r). rewrite EW. eexists _, _. split; [done|].
  split; [|split; [by intros ?? [= <- <-]; exists (length H)|by intros _; eexists _, _]]. split; cbn [set_ledis set_snap ra_ledis ra_snap sn_dir sn_names ra_clients ra_clock]; [done|done|done| | |done|done].
  - intros name Hn. rewrite lookup_insert_ne by (intros <-; by rewrite name_not_tmp in Hn). apply lookup_delete_None. right. by apply T1.
  - intros name d Hn Hd. destruct (decide (name = snapshotName (ra_clock a))) as [->|Hne]; [rewrite lookup_insert_eq in Hd; injection Hd as <-; by exists (length H)|].
    rewrite lookup_insert_ne in Hd by done. apply lookup_delete_Some in Hd as [_ Hd]. apply (S1 name d); [|done]. apply elem_of_app in Hn as [Hn|Hn%list_elem_of_singleton]; done.
Qed.

(** A dump of the contents after a commit of [ok] will be sent: the last snapshot is young
    enough, or, if [e], the master has none yet. *)
Definition serves (e : bool) (ok : nat -> Prop) a H : Prop :=
  (e = true /\ sn_names (ra_snap a) = [] /\ ok (length H)) \/
  exists name data i, last (sn_names (ra_snap a)) = Some name /\ sn_dir (ra_snap a) !! name = Some data /\ min_time (ra_clock a) <= time_of name /\ dump_at H i data /\ ok i.

(** What a master answers to a full sync. *)
Definition dump_reply (R : Prop) (ok : nat -> Prop) H (v : reply_value) : Prop :=
  ((exists text, v = RError text) \/ exists i data, v = RBulk (Some data) /\ dump_at H i data) /\
  (R -> exists i data, v = RBulk (Some data) /\ dump_at H i data /\ ok i).

(** The snapshot it sends. *)
Lemma latest_master e ok a H logsH j : history H logsH -> master_inv a H logsH j -> exists res a1,
  (s ← on_snap OpenLatest;
   match s with
   | inr err => mret (inr err)
   | inl None => snap_Create
   | inl (Some (data, t)) => now ← ask ra_clock; if t <? min_time now then snap_Create else mret (inl (data, t))
   end) a = (Ret res, a1) /\ master_inv a1 H logsH j /\ (forall data t, res = inl (data, t) -> exists i, dump_at H i data) /\
  (serves e ok a H -> (exists i data t, res = inl (data, t) /\ dump_at H i data /\ ok i) /\ (e = false -> a1 = a)).
Proof using NS YS TS.
  intros Hh HM. destruct (Create_master a H logsH j Hh HM) as (res & a1 & EC & HM1 & HD & HN). unfold mbind at 1, SM_bind at 1, on_snap, OpenLatest.
  assert (ES : set_snap (ra_snap a) a = a) by (by destruct a). destruct (last (sn_names (ra_snap a))) as [name|] eqn:El; cycle 1.
  { rewrite ES. exists res, a1. split; [done|]. split; [done|]. split; [done|]. intros [(-> & En & Ho)|(name' & data' & i' & En & _)]; [|congruence].
    split; [|done]. destruct (HN En) as (data & t & -> & Hd). by exists (length H), data, t. }
  assert (HS : serves e ok a H -> exists data, sn_dir (ra_snap a) !! name = Some data /\ min_time (ra_clock a) <= time_of name /\ exists i, dump_at H i data /\ ok i).
  { intros [(_ & En & _)|(name' & data' & i' & En & Ed & Et & Hd & Hi)]; [by rewrite En in El|]. assert (name' = name) as -> by congruence. exists data'. split; [done|]. split; [done|by exists i']. }
  destruct (sn_dir (ra_snap a) !! name) as [d|] eqn:Ed; rewrite ES; cycle 1.
  { eexists _, a. split; [done|]. split; [done|]. split; [by intros|]. intros Hs. by destruct (HS Hs) as (? & ? & _). }
  unfold mbind, SM_bind, ask. destruct (_ <? _) eqn:Et.
  - exists res, a1. split; [done|]. split; [done|]. split; [done|]. intros Hs. destruct (HS Hs) as (? & _ & ? & _). zify_bool. lia.
  - eexists _, a. split; [done|]. split; [done|]. split.
    + intros ?? [= <- <-]. eapply (mi_snaps _ _ _ _ HM); [|exact Ed]. rewrite last_lookup in El. by eapply list_elem_of_lookup_2.
    + intros Hs. destruct (HS Hs) as (d' & [= <-] & _ & i & Hd & Hi). split; [by exists i, d, (time_of name)|done].
Qed.

Lemma quiet_serves e ok a a' H logsH j : quiet a a' H logsH j -> serves e ok a H -> serves e ok a' H.
Proof using. intros (_ & Es & Ec & _). unfold serves. by rewrite Es, Ec. Qed.

Lemma serve_fullsync e ok a H logsH j : history H logsH -> master_inv a H logsH j -> exists v a',
  serve_slave [str "fullsync"] a = (Ret v, a') /\ master_inv a' H logsH j /\ dump_reply (serves e ok a H) ok H v /\ (e = false -> serves e ok a H -> serves e ok a' H).
Proof using NS YS TS.
  intros Hh HM. change (serve_slave [str "fullsync"] a) with (answer (fullsyncCommand me []) a).
  destruct (latest_master e ok a H logsH j Hh HM) as (res & a1 & E1 & HM1 & HD1 & HS1).
  assert (EF : fullsyncCommand me [] a = match res with inr err => (Ret (Some (DBError err)), a1) | inl (data, _) => (_ ← write_to me (writeBulkFrom (len data) data); mret None) a1 end).
  { unfold fullsyncCommand. cbv iota zeta. unfold mbind at 1, SM_bind at 1. rewrite E1. by destruct res as [[data t]|err]. }
  destruct res as [[data t]|err].
  - destruct (answer_write a1 (writeBulkFrom (len data) data) H logsH j (fullsyncCommand me []) a HM1 EF) as (a2 & E2 & Q2). destruct (HD1 data t eq_refl) as [i Hi].
    eexists _, a2. split; [exact E2|]. split; [by eapply quiet_inv|]. split; [|intros He Hs; eapply quiet_serves; [exact Q2|]; destruct (HS1 Hs) as [_ ->]; done].
    split; [right; by exists i, data|]. intros Hs. destruct (HS1 Hs) as ((i' & data' & t' & [= <- <-] & Hi' & Hj') & _). by exists i', data.
  - eexists _, a1. split; [by apply (answer_fail _ _ _ (DBError err))|]. split; [done|]. split; [split; [left; by eexists|]; intros Hs; by destruct (HS1 Hs) as ((? & ? & ? & ? & _) & _)|].
    intros He Hs. by destruct (HS1 Hs) as ((? & ? & ? & ? & _) & _).
Qed.

(** ** The slave *)

(** The slave has the logs from [p] + 1 to [q] and the contents after the commit [c]; it asks
    for the log [q] + 1 next. *)
Definition slave_at a H logsH (q : nat) : Prop := exists p c : nat, (p <= c <= q)%nat /\ (q <= length H)%nat /\
  replica (ra_ledis a) (take (q - p) (drop p logsH)) (Z.of_nat c) /\ store (ra_ledis a) = contents H c /\ readonly (ra_ledis a) = true /\ ra_dump a = [].

Lemma range_last H logsH p q : history H logsH -> (p < q <= length H)%nat -> last_id (take (q - p) (drop p logsH)) = Z.of_nat q.
Proof using.
  intros Hh Hq. pose proof (history_length _ _ Hh) as HL. unfold last_id. rewrite last_lookup, length_take, length_drop.
  replace (pred _) with (q - p - 1)%nat by lia. rewrite lookup_take_lt by lia. destruct (drop p logsH !! (q - p - 1)%nat) as [l|] eqn:E.
  - destruct (part_ids H logsH p _ l Hh E) as [-> _]. lia.
  - apply lookup_ge_None in E. rewrite length_drop in E. lia.
Qed.

Lemma range_app H logsH p q n : history H logsH -> (p <= q <= length H)%nat -> take (q - p) (drop p logsH) ++ take n (drop q logsH) = take (q + n - p) (drop p logsH).
Proof using.
  intros Hh Hq. pose proof (history_length _ _ Hh) as HL. replace (q + n - p)%nat with ((q - p) + n)%nat by lia. rewrite <- take_take_drop, drop_drop.
  by replace (p + (q - p))%nat with q by lia.
Qed.

Lemma range_continues H logsH q n : history H logsH -> continues (Z.of_nat q) (take n (drop q logsH)).
Proof using.
  intros Hh. apply continues_take. destruct (hi_ids _ _ Hh) as [Hw Hi]. split; [by apply Forall_drop|]. intros i l E. rewrite lookup_drop in E. rewrite (Hi _ _ E). lia.
Qed.

(** What the slave continues. *)
Lemma range_end H logsH p q (c : nat) : history H logsH -> (p <= c <= q)%nat -> (q <= length H)%nat ->
  match take (q - p) (drop p logsH) with [] => Z.of_nat c | _ => last_id (take (q - p) (drop p logsH)) end = Z.of_nat q.
Proof using.
  intros Hh Hc Hq. pose proof (history_length _ _ Hh) as HL. destruct (decide (p = q)) as [->|]; [rewrite Nat.sub_diag, take_0; lia|].
  pose proof (range_last H logsH p q Hh ltac:(lia)) as E. destruct (take (q - p) (drop p logsH)) eqn:ET; [|done]. apply (f_equal length) in ET. rewrite length_take, length_drop in ET. simpl in ET. lia.
Qed.

Lemma next_slave a H logsH q : history H logsH -> slave_at a H logsH q -> exists st, nextSyncLogID a = (Ret (inl (Z.of_nat q + 1)), set_ledis st a) /\ slave_at (set_ledis st a) H logsH q.
Proof using LS.
  intros Hh (p & c & Hc & Hq & Hr & Hs & Hro & Hd). destruct (Stat_replica _ _ _ Hr) as (st & E & Hr' & Hs' & Hro'). exists st. pose proof (hi_size _ _ Hh).
  split; [|exists p, c; cbn [set_ledis ra_ledis ra_dump]; split; [done|]; split; [done|]; split; [done|]; split; [congruence|]; split; [congruence|done]].
  unfold nextSyncLogID, mbind, SM_bind. rewrite (on_ldb_run _ _ _ _ E). 
  pose proof (range_end H logsH p q c Hh Hc Hq) as EE. rewrite Z.gtb_ltb. destruct (Z.ltb_spec (Z.of_nat c) (last_id (take (q - p) (drop p logsH)))) as [Hlt|Hge].
  - destruct (take (q - p) (drop p logsH)); [change (last_id []) with 0 in Hlt; lia|]. rewrite EE, uwrap_small by lia. done.
  - assert (c = q) as -> by (destruct (take (q - p) (drop p logsH)); lia). by rewrite uwrap_small by lia.
Qed.

Lemma store_slave a H logsH q n : history H logsH -> slave_at a H logsH q -> take n (drop q logsH) <> [] -> exists st,
  on_ldb (StoreLogsFromData (concat (map Encode (take n (drop q logsH))))) a = (Ret None, set_ledis st a) /\
  slave_at (set_ledis st a) H logsH (Nat.min (q + n) (length H)).
Proof using FR.
  intros Hh (p & c & Hc & Hq & Hr & Hs & Hro & Hd) Hne. pose proof (history_length _ _ Hh) as HL.
  destruct (StoreLogs_replica _ _ _ (take n (drop q logsH)) Hr Hro) as (st & E & Hr' & Hs' & Hro'); [rewrite (range_end H logsH p q c Hh Hc Hq); by eapply range_continues|done|].
  exists st. split; [by apply on_ldb_run|]. exists p, c. cbn [set_ledis ra_ledis ra_dump]. split; [lia|]. split; [lia|]. split; [|split; [congruence|done]]. rewrite (range_app H) in Hr' by (done || lia).
  destruct (decide (q + n <= length H)%nat); [by rewrite Nat.min_l by lia|]. rewrite Nat.min_r by lia. rewrite take_ge in Hr' |- * by (rewrite length_drop; lia). done.
Qed.

Lemma load_slave a H logsH q i data : history H logsH -> slave_at a H logsH q -> dump_at H i data -> exists st h,
  on_ldb (LoadDump data) a = (Ret (inl h), set_ledis st a) /\ slave_at (set_ledis st a) H logsH i.
Proof using YS FR.
  intros Hh (p & c & Hc & Hq & Hr & Hs & Hro & Hd) (ds & Hi & -> & HF). pose proof (hi_size _ _ Hh). pose proof Hr as [Hhe (x & Hx & Hrep & Hid & Hf & Hrec) _ _].
  destruct (LoadDump_ok _ ds (Z.of_nat i) (ra_ledis a) HF ltac:(lia) Hhe) as (st & E & Hs' & Hl & Hh').
  { intros y Hy. assert (y = x) as -> by congruence. split; [by eapply Clear_ok|done]. }
  eexists st, _. split; [by apply on_ldb_run|]. pose proof (LoadDump_readonly (head_Write (mkDumpHead (Z.of_nat i)) ++ concat ds) (ra_ledis a)) as Hro'. rewrite E in Hro'.
  exists i, i. cbn [set_ledis ra_ledis ra_dump]. split; [lia|]. split; [done|]. rewrite Nat.sub_diag, take_0. unfold log_at in Hl. rewrite Hx in Hl.
  split; [split; [done|done|by left|lia]|]. split; [rewrite Hs'; apply put_all_entries|]. split; [rewrite <- Hro; exact Hro'|done].
Qed.

Lemma contents_step H c q : (c <= q)%nat -> contents H q = apply_ops (concat (take (q - c) (drop c H))) (contents H c).
Proof using. intros Hc. unfold contents. rewrite <- apply_ops_app, <- concat_app, take_take_drop. by replace (c + (q - c))%nat with q by lia. Qed.

Lemma behind_range H logsH p q (c : nat) : history H logsH -> (p <= c <= q)%nat -> (q <= length H)%nat ->
  match take (q - p) (drop p logsH) with [] => [] | _ => behind (Z.of_nat c) (take (q - p) (drop p logsH)) end = take (q - c) (drop c logsH).
Proof using.
  intros Hh Hc Hq. pose proof (history_length _ _ Hh) as HL. destruct (decide (p = q)) as [->|]; [replace c with q by lia; by rewrite Nat.sub_diag, !take_0|].
  assert (EF : first_id (take (q - p) (drop p logsH)) = Z.of_nat p + 1) by (rewrite <- (part_first H logsH p Hh) by lia; destruct (q - p)%nat eqn:?; [lia|by destruct (drop p logsH)]).
  unfold behind. rewrite EF. replace (Z.to_nat _) with (c - p)%nat by lia. rewrite skipn_firstn_comm, drop_drop. replace (p + (c - p))%nat with c by lia. replace (q - p - (c - p))%nat with (q - c)%nat by lia.
  destruct (take (q - p) (drop p logsH)); [|done]. cbn [first_id] in EF. unfold InvalidLogID in EF. lia.
Qed.

Lemma replay_slave fuel a H logsH q : history H logsH -> slave_at a H logsH q -> (length H < fuel)%nat -> exists st,
  on_ldb (handleReplication fuel) a = (Ret (Some None), set_ledis st a) /\ slave_at (set_ledis st a) H logsH q /\ store st = contents H q.
Proof using LS.
  intros Hh (p & c & Hc & Hq & Hr & Hs & Hro & Hd) Hf. pose proof (history_length _ _ Hh) as HL.
  destruct (replay_replica fuel _ _ _ (take (q - c) (drop c H)) Hr) as (st & E & Hr' & Hs' & Hro').
  - rewrite (behind_range H logsH p q c Hh Hc Hq). apply Forall2_take, Forall2_drop, (hi_logs _ _ Hh).
  - rewrite length_take, length_drop. lia.
  - exists st. split; [by apply on_ldb_run|]. rewrite (range_end H logsH p q c Hh Hc Hq) in Hr'. rewrite Hs, <- contents_step in Hs' by lia.
    split; [|done]. exists p, q. cbn [set_ledis ra_ledis ra_dump]. split; [lia|]. split; [done|]. split; [done|]. split; [done|]. split; [congruence|done].
Qed.

(** * Rounds of the slave *)

(** Actions of one side keep the other. *)
Lemma here_returns {A} (Pre : RApp -> Prop) (p : SM RApp A) Post (Q : link -> Prop) :
  returns Pre p Post -> returns (fun s => Pre s.1 /\ Q s.2) (here p) (fun x s => Post x s.1 /\ Q s.2).
Proof using. intros Hp [a w] [Ha Hw]. destruct (Hp a Ha) as (x & a' & E & HP). exists x, (a', w). split; [unfold here; by rewrite E|done]. Qed.

Lemma there_returns {A} (Q : RApp -> Prop) (Pre : link -> Prop) (p : SM link A) Post :
  returns Pre p Post -> returns (fun s => Q s.1 /\ Pre s.2) (there p) (fun x s => Q s.1 /\ Post x s.2).
Proof using. intros Hp [a w] [Ha Hw]. destruct (Hp w Hw) as (x & w' & E & HP). exists x, (a, w'). split; [unfold there; by rewrite E|done]. Qed.

Section Rounds.
Variables (H : list (list BatchOp)) (logsH : list Log) (j : nat) (e : bool) (ok : nat -> Prop).
Hypothesis Hh : history H logsH.

(** The master behind the connection: [f] when there are no faults, [g] when it has a dump
    to serve. *)
Definition linv (f g : bool) (w : link) : Prop :=
  master_inv (lk_master w) H logsH j /\ (f = true -> lk_faults w = []) /\ (g = true -> serves e ok (lk_master w) H).

(** The slave, with its flags. *)
Definition sinv (q : nat) (quit conn : bool) (a : RApp) : Prop := slave_at a H logsH q /\ m_quit (ra_m a) = quit /\ m_conn (ra_m a) = conn.

Definition cinv (f g : bool) (q : nat) (quit conn : bool) (s : RApp * link) : Prop := sinv q quit conn s.1 /\ linv f g s.2.

(** ** The connection *)

Lemma next_fault_ok f g : returns (linv f g) next_fault (fun x w => linv f g w /\ (f = true -> x = None)).
Proof using.
  intros w (H1 & H2 & H3). unfold next_fault. destruct (lk_faults w) as [|x fs] eqn:E; [by exists None, w|]. eexists _, _. split; [done|].
  destruct f; [by specialize (H2 eq_refl)|]. done.
Qed.

(** The request [req] is answered by a reply of [V]. *)
Definition serves_request (g g' : bool) (req : list bytes) (V : reply_value -> Prop) : Prop := forall a,
  master_inv a H logsH j -> (g = true -> serves e ok a H) -> exists v a', serve_slave req a = (Ret v, a') /\ master_inv a' H logsH j /\ (g' = true -> serves e ok a' H) /\ V v.

Lemma on_master_ok f g g' req V : serves_request g g' req V -> returns (linv f g) (on_master (serve_slave req)) (fun v w => linv f g' w /\ V v).
Proof using.
  intros HS w (H1 & H2 & H3). destruct (HS _ H1 H3) as (v & a' & E & H1' & H3' & HV). eexists v, _. split; [unfold on_master; by rewrite E|]. done.
Qed.

Lemma connect_ok f g addr : returns (linv f g) (rm_Connect addr) (fun x w => linv f g w /\ (f = true -> x = None)).
Proof using.
  eapply returns_bind; [apply next_fault_ok|]. intros x. apply returns_ret. intros w [HL Hx]. split; [done|]. intros Hf. by rewrite Hx.
Qed.

Lemma do_ok f g req V : serves_request g g req V -> returns (linv f g) (rm_Do req) (fun x w => linv f g w /\ (f = true -> exists v, V v /\ x = match v with RError text => inr text | _ => inl v end)).
Proof using.
  intros HS. eapply returns_bind; [apply next_fault_ok|]. intros [[[|k] text]|]; apply returns_pure; intros Hx; [destruct f; [by specialize (Hx eq_refl)|]..|].
  - by apply returns_ret.
  - eapply returns_bind; [by eapply on_master_ok|]. intros v. apply returns_ret. by intros w [HL _].
  - eapply returns_bind; [by eapply on_master_ok|]. intros v. apply returns_ret. intros w [HL HV]. split; [done|]. intros _. by exists v.
Qed.

Lemma send_ok f g g' req V : (g' = true -> g = true) -> serves_request g g' req V ->
  returns (linv f g) (rm_Send req) (fun x w => linv f g' w /\ (f = true -> x = None) /\ (x = None -> exists v, lk_pending w = Some v /\ V v)).
Proof using.
  intros Hg HS. eapply returns_bind; [apply next_fault_ok|]. intros [[[|k] text]|]; apply returns_pure; intros Hx; [destruct f; [by specialize (Hx eq_refl)|]..|].
  - apply returns_ret. intros w (H1 & H2 & H3). split; [split; [done|]; split; [done|auto]|done].
  - eapply returns_bind; [by eapply on_master_ok|]. intros v. apply returns_ret. by intros w [HL _].
  - eapply returns_bind; [by eapply on_master_ok|]. intros v. eapply (returns_bind _ _ (fun _ w => linv f g' w /\ lk_pending w = Some v /\ V v)).
    + intros w [HL HV]. eexists _, _. split; [done|]. done.
    + intros _. apply returns_ret. intros w (HL & HP & HV). split; [done|]. split; [done|]. intros _. by exists v.
Qed.

(** A bulk is received as the master sent it, or with an error. *)
Definition received (f : bool) (V : reply_value -> Prop) (x : bytes * option bytes) : Prop :=
  (exists v, V v /\ x = bulk_reply (Some v)) \/ (f = false /\ exists text, x.2 = Some text).

Lemma receive_ok f g V : returns (fun w => linv f g w /\ exists v, lk_pending w = Some v /\ V v) rm_ReceiveBulkTo (fun x w => linv f g w /\ received f V x).
Proof using.
  intros w [(H1 & H2 & H3) (v & Hv & HV)]. cbn [rm_ReceiveBulkTo link_remote]. unfold mbind, SM_bind. destruct (next_fault_ok f g w) as (x & w1 & E1 & HL1 & Hx1); [done|]. rewrite E1.
  assert (Hp : lk_pending w1 = Some v) by (unfold next_fault in E1; destruct (lk_faults w); [by injection E1 as <- <-|by injection E1 as <- <-]).
  cbv beta iota. rewrite Hp. cbn [set_pending]. destruct (bulk_reply (Some v)) as [b err] eqn:Eb. eexists _, _. split; [done|]. split; [exact HL1|].
  destruct x as [[k text]|].
  - right. split; [destruct f; [by specialize (Hx1 eq_refl)|done]|]. by exists text.
  - left. exists v. by rewrite Eb.
Qed.

(** ** The requests of the slave *)

Lemma ping_served g : serves_request g g [str "PING"] (fun v => v = RStatus PONG).
Proof using. intros a HM Hg. by exists (RStatus PONG), a. Qed.

Lemma auth_served g pass : serves_request g g [str "auth"; pass] (fun _ => True).
Proof using. intros a HM Hg. by eexists _, a. Qed.

Lemma replconf_served g port : serves_request g g [str "replconf"; str "listening-port"; port] (fun v => (ParseUint port 16).2 = None -> v = RStatus OK).
Proof using.
  intros a HM Hg. destruct (serve_replconf a H logsH j port HM) as (v & a' & E & Q & HV). exists v, a'. split; [done|]. split; [by eapply quiet_inv|]. split; [|done].
  intros Hg1. eapply quiet_serves; [done|auto].
Qed.

(** What a slave that asks for [q] + 1 gets. *)
Definition logs_reply (q : nat) (v : reply_value) : Prop :=
  ((q < j)%nat -> v = RError (db_error_text ErrLogMissed)) /\
  ((j <= q)%nat -> exists n, v = RBulk (Some (be_put 8 (uint64 (len H)) ++ concat (map Encode (take n (drop q logsH))))) /\ (q < length H -> 0 < n)%nat).

Lemma sync_served g q : (q <= length H)%nat -> serves_request g g [str "sync"; Itoa (Z.of_nat q + 1)] (logs_reply q).
Proof using Hh LS.
  intros Hq a HM Hg. destruct (serve_sync a H logsH j q Hh HM Hq) as (v & a' & E & Q & HV). exists v, a'. split; [done|]. split; [by eapply quiet_inv|]. split; [|done].
  intros Hg1. eapply quiet_serves; [done|auto].
Qed.

Lemma fullsync_served g : serves_request g (g && negb e) [str "fullsync"] (dump_reply (g = true) ok H).
Proof using Hh NS YS TS.
  intros a HM Hg. destruct (serve_fullsync e ok a H logsH j Hh HM) as (v & a' & E & HM' & [HV1 HV2] & HS). exists v, a'. split; [done|]. split; [done|].
  split; [|split; [done|auto]]. intros [-> He]%andb_true_iff. apply HS; [by destruct e|auto].
Qed.

(** ** Steps of the goroutine *)

Lemma state_ok q quit conn n (Q : link -> Prop) : returns (fun s => sinv q quit conn s.1 /\ Q s.2) (here (set_state n)) (fun _ s => sinv q quit conn s.1 /\ Q s.2).
Proof using. apply (here_returns (sinv q quit conn) _ (fun _ => sinv q quit conn) Q). intros a (H1 & H2 & H3). eexists _, _. split; [done|]. done. Qed.

Lemma set_conn_ok f g q quit conn b : returns (cinv f g q quit conn) (here (set_conn b)) (fun _ => cinv f g q quit b).
Proof using. apply (here_returns (sinv q quit conn) _ (fun _ => sinv q quit b) (linv f g)). intros a (H1 & H2 & H3). eexists _, _. split; [done|]. done. Qed.

Lemma quited_ok f g q quit conn : returns (cinv f g q quit conn) quited (fun x s => cinv f g q quit conn s /\ x = quit).
Proof using. intros [a w] HC. eexists _, (a, w). split; [done|]. split; [done|]. apply HC. Qed.

Lemma on_conn_ok {A} q quit (Pre : link -> Prop) (p : SM link A) Post : returns Pre p Post ->
  returns (fun s => sinv q quit true s.1 /\ Pre s.2) (on_conn p) (fun x s => sinv q quit true s.1 /\ Post x s.2).
Proof using.
  intros Hp [a w] [Ha Hw]. destruct (there_returns (sinv q quit true) Pre p Post Hp (a, w) (conj Ha Hw)) as (x & s' & E & HP). exists x, s'. split; [|done].
  unfold on_conn, mbind, SM_bind, here, ask. cbn [fst] in Ha. destruct Ha as (_ & _ & ->). exact E.
Qed.

Lemma dial_ok f g q quit conn : returns (cinv f g q quit conn)
  (m ← here (ask ra_m); if m_conn m then mret None
   else err ← there (rm_Connect (m_addr m)); match err with Some err => mret (Some err) | None => _ ← here (set_conn true); mret None end)
  (fun x s => exists conn', cinv f g q quit conn' s /\ (x = None -> conn' = true) /\ (f = true -> x = None)).
Proof using.
  intros [a w] HC. unfold mbind at 1, SM_bind at 1, here at 1, ask. pose proof HC as [(_ & _ & HC3) _]. cbn [fst] in HC3. rewrite HC3. destruct conn.
  { eexists _, _. split; [done|]. by exists true. }
  revert HC. generalize (a, w). apply (returns_bind _ _ (fun x s => sinv q quit false s.1 /\ linv f g s.2 /\ (f = true -> x = None))); [exact (there_returns (sinv q quit false) (linv f g) _ _ (connect_ok f g _))|].
  intros [err|]; [apply returns_ret; intros s (HS & HL & Hf); by exists false|]. eapply returns_bind.
  - eapply returns_weaken; [apply (set_conn_ok f g q quit false true)|by intros s (HS & HL & _)|intros x s HP; exact HP].
  - intros u. apply returns_ret. intros s HC. by exists true.
Qed.

(** The end of [checkConn] with an error: the connection is closed. *)
Lemma shut_ok f g q quit conn (err : bytes) : returns (cinv f g q quit conn) (_ ← here (set_conn false); mret (Some err)) (fun x s => cinv f g q quit false s /\ x = Some err).
Proof using. eapply returns_bind; [apply set_conn_ok|]. intros u. by apply returns_ret. Qed.

Lemma checkConn_ok f g q quit conn : returns (cinv f g q quit conn) checkConn
  (fun x s => exists conn', cinv f g q quit conn' s /\ (x = None -> conn' = true) /\ (f = true -> cfg_MasterPassword = [] -> x = None)).
Proof using.
  unfold checkConn. apply returns_assoc. eapply returns_bind; [apply dial_ok|]. intros err. apply returns_exists. intros conn1.
  apply (returns_pure (cinv f g q quit conn1)). intros [Hc Hf]. destruct err as [err|].
  { apply returns_ret. intros s HC. exists conn1. split; [done|]. split; [done|]. intros Hf'. by specialize (Hf Hf'). }
  specialize (Hc eq_refl) as ->. eapply (returns_bind _ _ (fun x s => exists conn', cinv f g q quit conn' s /\ (x = None -> conn' = true) /\ (cfg_MasterPassword = [] -> x = None))).
  - destruct cfg_MasterPassword as [|c pass] eqn:Ep; [apply returns_ret; intros s HC; by exists true|].
    eapply returns_bind; [exact (on_conn_ok q quit (linv f g) _ _ (do_ok f g _ _ (auth_served g (c :: pass))))|]. intros res. eapply (returns_weaken (cinv f g q quit true));
      [|by intros s (HS & HL & _)|intros x s HP; exact HP].
    destruct (goredis_String res) as [t|err]; [destruct (upper_is t "OK")|]; [apply returns_ret; intros s HC; by exists true|..]; (eapply returns_weaken; [apply shut_ok|done|]);
      intros x s [HP ->]; by exists false.
  - intros err. apply returns_exists. intros conn2. apply (returns_pure (cinv f g q quit conn2)). intros [Hc2 Hp2]. destruct err as [err|].
    { apply returns_ret. intros s HC. exists conn2. split; [done|]. split; [done|]. intros _ Hp. by specialize (Hp2 Hp). }
    specialize (Hc2 eq_refl) as ->. eapply returns_bind; [exact (on_conn_ok q quit (linv f g) _ _ (do_ok f g _ _ (ping_served g)))|]. intros res.
    destruct res as [v|err].
    + apply returns_ret. intros s (HS & HL & _). by exists true.
    + destruct f; [intros s (HS & HL & HV); by destruct (HV eq_refl) as (v & -> & ?)|].
      eapply returns_weaken; [apply (shut_ok false g q quit true)|by intros s (HS & HL & _)|intros x s [HP ->]; by exists false].
Qed.

Lemma replConf_ok f g q quit : returns (cinv f g q quit true) replConf (fun x s => cinv f g q quit true s /\
  (f = true -> (exists host port, SplitHostPort cfg_Addr = inl (host, port) /\ (ParseUint port 16).2 = None) -> x = None)).
Proof using.
  unfold replConf. destruct (SplitHostPort cfg_Addr) as [[host port]|err]; [|apply returns_ret; intros s HC; split; [done|]; by intros _ (? & ? & ? & _)].
  eapply returns_bind; [exact (on_conn_ok q quit (linv f g) _ _ (do_ok f g _ _ (replconf_served g port)))|]. intros res. apply returns_ret. intros s (HS & HL & HV). split; [done|].
  intros Hf (h & p & [= <- <-] & Hp). destruct (HV Hf) as (v & Hv & ->). by rewrite (Hv Hp).
Qed.


Lemma contains_self b : bytes_Contains b b = true.
Proof using. unfold bytes_Contains. assert (E : has_prefix b b = true) by (unfold has_prefix; rewrite firstn_all; by apply bool_decide_eq_true). destruct b; cbn [bytes_Index]; by rewrite E. Qed.

(** A full sync loads a dump of the master, or fails and changes nothing. *)
Lemma fullSync_ok f g q quit : returns (cinv f g q quit true) fullSync
  (fun x s => exists q', cinv f (g && negb e) q' quit true s /\ (f = true -> g = true -> x = None /\ ok q')).
Proof using Hh NS YS TS FR.
  unfold fullSync. eapply returns_bind; [exact (on_conn_ok q quit (linv f g) _ _ (send_ok f g (g && negb e) _ _ ltac:(by destruct g) (fullsync_served g)))|].
  intros [err|]; [apply returns_ret; intros s (HS & HL & Hf & _); exists q; split; [done|]; intros Hf'; by specialize (Hf Hf')|].
  eapply returns_bind.
  { eapply returns_weaken; [apply (state_ok q quit true replSyncState (fun w => linv f (g && negb e) w /\ exists v, lk_pending w = Some v /\ dump_reply (g = true) ok H v))| |intros x s HP; exact HP].
    intros s (HS & HL & _ & HV). split; [done|]. split; [done|by apply HV]. }
  intros u. eapply returns_bind; [exact (on_conn_ok q quit _ _ _ (receive_ok f (g && negb e) (dump_reply (g = true) ok H)))|]. intros [data err]. cbv beta iota.
  intros [a w] (HS & HL & HR). destruct HS as (HS1 & HS2 & HS3). cbn [fst snd] in *. pose proof HS1 as (p & c & _ & _ & _ & _ & _ & Hd).
  unfold mbind, SM_bind, here, ask, change. cbv beta iota. rewrite Hd.
  assert (EW : write_at [] 0 data = data) by (unfold write_at; cbn; rewrite drop_nil; by apply app_nil_r). rewrite EW.
  assert (HS0 : slave_at (set_dump [] a) H logsH q) by (destruct HS1 as (p' & c' & ? & ? & ? & ? & ? & _); by exists p', c'). unfold received in HR. destruct err as [err|].
  - eexists _, _. split; [done|]. exists q. split; [done|]. intros -> ->. destruct HR as [(v & HV & E)|[? _]]; [|done].
    by destruct (proj2 HV eq_refl) as (i & d & -> & _).
  - destruct HR as [(v & [HV1 HV2] & E)|[_ [text ?]]]; [|done].
    assert (exists i, dump_at H i data /\ (g = true -> ok i)) as (i & Hi & Hj).
    { destruct g; [destruct (HV2 eq_refl) as (i & d & -> & Hi & Hj); injection E as ->; by exists i|].
      destruct HV1 as [[text ->]|(i & d & -> & Hi)]; [done|]. injection E as ->. by exists i. }
    destruct (load_slave _ H logsH q i data Hh HS0 Hi) as (st & h & EL & HSi). rewrite EL. eexists _, _. split; [done|]. exists i. split; [done|]. auto.
Qed.

Lemma Encode_nil logs : concat (map Encode logs) = [] -> logs = [].
Proof using.
  destruct logs as [|l logs]; [done|]. cbn [map concat]. intros E. apply app_nil in E as [E _]. pose proof (Encode_length l) as HL. unfold log_Size, LogHeadSize in HL. rewrite E in HL. simpl in HL. lia.
Qed.

(** Logs that came are stored. *)
Lemma sync_store f g q n quit : (q <= length H)%nat -> returns (cinv f g q quit true)
  (match concat (map Encode (take n (drop q logsH))) with
   | [] => mret None
   | buf => err ← here (on_ldb (StoreLogsFromData buf)); mret (match err with Some err => Some (db_error_text err) | None => None end)
   end)
  (fun x s => x = None /\ exists q', cinv f g q' quit true s /\ (q <= q')%nat /\ ((q < length H)%nat -> (0 < n)%nat -> (q < q')%nat)).
Proof using Hh FR.
  intros Hq. pose proof (history_length _ _ Hh) as HL. destruct (concat (map Encode (take n (drop q logsH)))) as [|b buf] eqn:E.
  - apply returns_ret. intros s HC. split; [done|]. exists q. split; [done|]. split; [done|]. intros H1 H2. apply Encode_nil, (f_equal length) in E.
    rewrite length_take, length_drop in E. simpl in E. lia.
  - rewrite <- E. intros [a w] [(HS1 & HS2 & HS3) HW]. cbn [fst snd] in *. assert (Hne : take n (drop q logsH) <> []) by (intros E'; by rewrite E' in E).
    destruct (store_slave a H logsH q n Hh HS1 Hne) as (st & ES & HS). unfold mbind, SM_bind, here. rewrite ES. eexists _, _. split; [done|]. split; [done|].
    exists (Nat.min (q + n) (length H)). split; [done|]. lia.
Qed.

(** The reply of a sync, once it has come. *)
Definition sync_reply (buf : bytes) (err : option bytes) : SM (RApp * link) (option bytes) :=
  match err with
  | Some err => if bytes_Contains err (db_error_text ErrLogMissed) then fullSync else mret (Some err)
  | None =>
      _ ← here (set_state replConnectedState);
      if len buf <? 8 then mret (Some (str "inavlid sync size " ++ Itoa (len buf)))
      else
        match drop 8 buf with
        | [] => mret None
        | buf => err ← here (on_ldb (StoreLogsFromData buf)); mret (match err with Some err => Some (db_error_text err) | None => None end)
        end
  end.

(** What a sync comes to: logs, or a dump when they were purged. *)
Definition progress (q : nat) (g : bool) (q' : nat) (g' : bool) : Prop :=
  if decide (j <= q)%nat then g' = g /\ (q <= q')%nat /\ (q < length H -> q < q')%nat else g' = g && negb e /\ ok q'.

Definition synced (f g : bool) (q : nat) (quit : bool) (x : option bytes) (s : RApp * link) : Prop := exists q' g', cinv f g' q' quit true s /\
  (f = true -> (j <= q)%nat \/ g = true -> x = None /\ progress q g q' g').

Lemma sync_reply_ok f g q quit buf err : (q <= length H)%nat -> received f (logs_reply q) (buf, err) -> returns (cinv f g q quit true) (sync_reply buf err) (synced f g q quit).
Proof using Hh NS YS TS FR.
  intros Hq HR. unfold sync_reply, synced. destruct err as [err|].
  - destruct (bytes_Contains err (db_error_text ErrLogMissed)) eqn:Ec.
    + eapply returns_weaken; [apply (fullSync_ok f g)|done|]. intros x s (q' & HC & HP). exists q', (g && negb e). split; [done|]. intros -> Hg.
      destruct HR as [(v & [HV1 HV2] & E)|[? _]]; [|done]. destruct (decide (j <= q)%nat) as [Hj|Hj]; [by destruct (HV2 Hj) as (n & -> & _)|].
      destruct Hg as [|Hg]; [done|]. destruct (HP eq_refl Hg) as [-> Hq']. split; [done|]. unfold progress. by rewrite decide_False by lia.
    + apply returns_ret. intros s HC. exists q, g. split; [done|]. intros ->. destruct HR as [(v & [HV1 HV2] & E)|[? _]]; [|done].
      destruct (decide (j <= q)%nat) as [Hj|Hj]; [by destruct (HV2 Hj) as (n & -> & _)|]. rewrite (HV1 ltac:(lia)) in E. injection E as _ ->. by rewrite contains_self in Ec.
  - destruct HR as [(v & [HV1 HV2] & E)|[_ [text ?]]]; [|done]. destruct (decide (j <= q)%nat) as [Hj|Hj]; [|by rewrite (HV1 ltac:(lia)) in E].
    destruct (HV2 Hj) as (n & -> & Hn). assert (EL : length (be_put 8 (uint64 (len H))) = 8%nat) by apply be_put_length.
    set (data := concat (map Encode (take n (drop q logsH)))) in *. set (head := be_put 8 (uint64 (len H))) in *. clearbody head. injection E as ->.
    eapply returns_bind; [apply (state_ok q quit true _ (linv f g))|]. intros u.
    assert ((len (head ++ data) <? 8) = false) as -> by (apply Z.ltb_ge; rewrite length_app, EL; lia). rewrite drop_app_length' by done.
    eapply returns_weaken; [apply (sync_store f g q n quit Hq)|done|]. intros x s (-> & q' & HC & Hqq & Hlt). exists q', g. split; [done|]. intros _ _.
    split; [done|]. unfold progress. rewrite decide_True by done. split; [done|]. split; [done|]. intros H1. by apply Hlt; [|apply Hn].
Qed.

(** A sync stores logs, or loads a dump when the log has been purged, or fails and changes
    nothing. *)
Lemma sync_ok f g q quit : returns (cinv f g q quit true) sync (synced f g q quit).
Proof using Hh NS YS TS FR.
  unfold sync. eapply (returns_bind _ _ (fun x s => cinv f g q quit true s /\ (x = inl (Z.of_nat q + 1) /\ (q <= length H)%nat))).
  { intros [a w] [(HS1 & HS2 & HS3) HW]. cbn [fst snd] in *. destruct (next_slave a H logsH q Hh HS1) as (st & E & HS). eexists _, _. split; [unfold here; by rewrite E|]. split; [done|].
    split; [done|]. destruct HS as (p & c & ? & ? & _). lia. }
  intros x. apply returns_pure. intros [-> Hq]. eapply returns_bind; [exact (on_conn_ok q quit (linv f g) _ _ (send_ok f g g _ _ id (sync_served g q Hq)))|].
  intros [err|]; [apply returns_ret; intros s (HS & HL & Hf & _); exists q, g; split; [done|]; intros Hf'; by specialize (Hf Hf')|]. eapply returns_bind.
  { eapply returns_weaken; [apply (state_ok q quit true replConnectedState (fun w => linv f g w /\ exists v, lk_pending w = Some v /\ logs_reply q v))| |intros x s HP; exact HP].
    intros s (HS & HL & _ & HV). split; [done|]. split; [done|by apply HV]. }
  intros u. eapply returns_bind; [exact (on_conn_ok q quit _ _ _ (receive_ok f g (logs_reply q)))|]. intros [buf err]. cbv beta iota.
  eapply (returns_weaken (fun s => cinv f g q quit true s /\ received f (logs_reply q) (buf, err))); [|by intros s (HS & HL & HR)|intros x s HP; exact HP].
  apply returns_pure. intros HR. eapply returns_bind; [|intros u'; by apply (sync_reply_ok f g q quit buf err Hq HR)].
  destruct buf; [by apply (here_returns (sinv q quit true) _ (fun _ => sinv q quit true) (linv f g)), returns_ret|apply (state_ok q quit true _ (linv f g))].
Qed.

(** ** Rounds of [runReplication] *)

(** The states between rounds: at a sync the slave is connected. *)
Definition round_inv (f g : bool) (q : nat) (quit : bool) (pc : repl_pc) (s : RApp * link) : Prop := exists conn, cinv f g q quit conn s /\ (pc = RSync -> conn = true).

(** The settings of a slave that its master accepts. *)
Definition accepted : Prop := cfg_MasterPassword = [] /\ exists host port, SplitHostPort cfg_Addr = inl (host, port) /\ (ParseUint port 16).2 = None.

Lemma run_end_ok f g q quit conn : returns (cinv f g q quit conn) run_end (fun pc s => round_inv f g q quit pc s /\ pc = RQuit).
Proof using. eapply returns_bind; [apply (state_ok q quit conn _ (linv f g))|]. intros u. apply returns_ret. intros s HC. split; [by exists conn|done]. Qed.

(** From the outer loop: the slave connects, and loads a dump if it was told to. *)
Lemma run_connect_ok f g q quit restart : returns (round_inv f g q quit RConnect) (runReplication restart RConnect)
  (fun pc s => exists q' g', round_inv f g' q' quit pc s /\
    (f = true -> quit = false -> accepted -> restart = false \/ g = true -> pc = RSync /\ (if restart then g' = g && negb e /\ ok q' else q' = q /\ g' = g))).
Proof using Hh NS YS TS FR.
  apply returns_exists. intros conn. apply returns_pure. intros _. cbn [runReplication]. eapply returns_bind; [apply (state_ok q quit conn _ (linv f g))|]. intros u.
  eapply returns_bind; [apply (quited_ok f g q quit conn)|]. intros x. apply returns_pure. intros ->. destruct quit eqn:Eq.
  { eapply returns_weaken; [apply run_end_ok|done|]. intros pc s [HR ->]. by exists q, g. }
  rewrite <- Eq. eapply returns_bind; [apply checkConn_ok|]. intros err. apply returns_exists. intros conn1. apply (returns_pure (cinv f g q quit conn1)). intros [Hc Hf].
  destruct err as [err|].
  { apply returns_ret. intros s HC. exists q, g. split; [by exists conn1|]. intros Hf' _ [Ha _]. by specialize (Hf Hf' Ha). }
  specialize (Hc eq_refl) as ->. eapply returns_bind; [apply (quited_ok f g q quit true)|]. intros x. apply returns_pure. intros ->. rewrite Eq. rewrite <- Eq at 1.
  eapply returns_bind; [apply (state_ok q quit true _ (linv f g))|]. intros u'. eapply returns_bind; [apply replConf_ok|]. intros err. apply (returns_pure (cinv f g q quit true)). intros Hr.
  destruct err as [err|].
  { apply returns_ret. intros s HC. exists q, g. split; [exists true; by subst quit|]. intros Hf' _ [_ Ha]. by specialize (Hr Hf' Ha). }
  destruct restart.
  - eapply returns_bind; [apply fullSync_ok|]. intros err. apply returns_exists. intros q'. apply (returns_pure (cinv f (g && negb e) q' quit true)). intros HP. destruct err as [err|].
    + apply returns_ret. intros s HC. exists q', (g && negb e). split; [exists true; by subst quit|]. intros Hf' _ _ [|Hg]; [done|]. by destruct (HP Hf' Hg).
    + eapply returns_bind; [apply (state_ok q' quit true _ (linv f (g && negb e)))|]. intros u2. apply returns_ret. intros s HC. exists q', (g && negb e). split; [exists true; by subst quit|].
      intros Hf' _ _ [|Hg]; [done|]. by destruct (HP Hf' Hg).
  - apply returns_ret. intros s HC. exists q, g. split; [exists true; by subst quit|]. done.
Qed.

(** From the inner loop. *)
Lemma run_sync_ok f g q quit restart : returns (round_inv f g q quit RSync) (runReplication restart RSync)
  (fun pc s => exists q' g', round_inv f g' q' quit pc s /\
    (f = true -> quit = false -> (j <= q)%nat \/ g = true -> pc = RSync /\ progress q g q' g')).
Proof using Hh NS YS TS FR.
  apply returns_exists. intros conn. apply returns_pure. intros Hc. specialize (Hc eq_refl) as ->. cbn [runReplication]. eapply returns_bind; [apply sync_ok|]. intros err.
  apply returns_exists. intros q'. apply returns_exists. intros g'. apply (returns_pure (cinv f g' q' quit true)). intros HP. destruct err as [err|].
  { apply returns_ret. intros s HC. exists q', g'. split; [by exists true|]. intros Hf _ Hg. by destruct (HP Hf Hg). }
  eapply returns_bind; [apply (state_ok q' quit true _ (linv f g'))|]. intros u. eapply returns_bind; [apply (quited_ok f g' q' quit true)|]. intros x. apply returns_pure. intros ->.
  destruct quit eqn:Eq.
  - eapply returns_weaken; [apply run_end_ok|done|]. intros pc s [HR ->]. by exists q', g'.
  - apply returns_ret. intros s HC. exists q', g'. split; [by exists true|]. intros Hf _ Hg. by destruct (HP Hf Hg).
Qed.

(** A round always returns. *)
Lemma round_ok f g q quit restart pc : returns (round_inv f g q quit pc) (runReplication restart pc) (fun pc' s => exists q' g', round_inv f g' q' quit pc' s).
Proof using Hh NS YS TS FR.
  destruct pc; [eapply returns_weaken; [apply run_connect_ok|done|]|eapply returns_weaken; [apply run_sync_ok|done|]|].
  - intros x s (q' & g' & HR & _). by exists q', g'.
  - intros x s (q' & g' & HR & _). by exists q', g'.
  - apply returns_ret. intros s HR. by exists q, g.
Qed.

(** ** Many rounds *)

Fixpoint rounds (n : nat) (restart : bool) (pc : repl_pc) : SM (RApp * link) repl_pc :=
  match n with
  | O => mret pc
  | S n => pc ← runReplication restart pc; rounds n restart pc
  end.

Lemma round_range f g q quit pc s : round_inv f g q quit pc s -> (q <= length H)%nat.
Proof using. intros (conn & [((p & c & _ & Hq & _) & _) _] & _). done. Qed.

(** A slave whose next log the master still has gets all logs. *)
Lemma rounds_sync n : forall restart q g, (length H - q <= n)%nat -> (j <= q)%nat ->
  returns (round_inv true g q false RSync) (rounds n restart RSync) (fun pc s => pc = RSync /\ exists g', round_inv true g' (length H) false RSync s).
Proof using Hh NS YS TS FR.
  induction n as [|n IH]; intros restart q g Hn Hj; cbn [rounds].
  - apply returns_ret. intros s HR. pose proof (round_range _ _ _ _ _ _ HR). replace (length H) with q by lia. split; [done|]. by exists g.
  - eapply returns_bind; [apply run_sync_ok|]. intros pc. apply returns_exists. intros q'. apply returns_exists. intros g'. apply (returns_pure (round_inv true g' q' false pc)). intros HP.
    destruct (HP eq_refl eq_refl ltac:(by left)) as [-> Hp]. unfold progress in Hp. rewrite decide_True in Hp by done. destruct Hp as (_ & Hq & Hlt).
    apply IH; [destruct (decide (q < length H)%nat); [specialize (Hlt ltac:(done)); lia|lia]|lia].
Qed.

(** A slave that was sent a dump older than the log is sent it again. *)
Lemma rounds_stale n : forall restart q, e = false -> (forall i, ok i -> (i < j)%nat) -> (q < j)%nat ->
  returns (round_inv true true q false RSync) (rounds n restart RSync) (fun pc s => pc = RSync /\ exists q', (q' < j)%nat /\ round_inv true true q' false RSync s).
Proof using Hh NS YS TS FR.
  induction n as [|n IH]; intros restart q He Hok Hq; cbn [rounds].
  - apply returns_ret. intros s HR. split; [done|]. by exists q.
  - eapply returns_bind; [apply run_sync_ok|]. intros pc. apply returns_exists. intros q'. apply returns_exists. intros g'. apply (returns_pure (round_inv true g' q' false pc)). intros HP.
    destruct (HP eq_refl eq_refl ltac:(by right)) as [-> Hp]. unfold progress in Hp. rewrite decide_False in Hp by lia. destruct Hp as [-> Ho]. rewrite He. apply IH; auto.
Qed.

(** From any place, with a dump at hand where one is needed. *)
Lemma rounds_all restart pc q g : (forall i, ok i -> (j <= i)%nat) -> accepted -> pc <> RQuit -> (j <= q)%nat \/ g = true -> (pc = RConnect -> restart = true -> g = true) ->
  returns (round_inv true g q false pc) (rounds (length H + 2) restart pc) (fun pc' s => pc' = RSync /\ exists g', round_inv true g' (length H) false RSync s).
Proof using Hh NS YS TS FR.
  intros Hok Ha Hpc Hg Hr. assert (HSync : forall n q g, (j <= q)%nat \/ g = true -> (length H < n)%nat ->
    returns (round_inv true g q false RSync) (rounds n restart RSync) (fun pc' s => pc' = RSync /\ exists g', round_inv true g' (length H) false RSync s)).
  { intros n q1 g1 Hg1 Hn. destruct (decide (j <= q1)%nat) as [Hj|Hj]; [apply rounds_sync; [lia|done]|]. destruct n as [|n]; [lia|]. cbn [rounds].
    eapply returns_bind; [apply run_sync_ok|]. intros pc'. apply returns_exists. intros q'. apply returns_exists. intros g'. apply (returns_pure (round_inv true g' q' false pc')). intros HP.
    destruct (HP eq_refl eq_refl Hg1) as [-> Hp]. unfold progress in Hp. rewrite decide_False in Hp by done. destruct Hp as [_ Ho%Hok]. apply rounds_sync; [lia|done]. }
  destruct pc; [|apply HSync; [done|lia]|done]. replace (length H + 2)%nat with (S (S (length H))) by lia. cbn [rounds].
  eapply returns_bind; [apply run_connect_ok|]. intros pc'. apply returns_exists. intros q'. apply returns_exists. intros g'. apply (returns_pure (round_inv true g' q' false pc')). intros HP.
  destruct (HP eq_refl eq_refl Ha) as [-> Hp]; [destruct restart; [right; by apply Hr|by left]|]. apply (HSync (S (length H))); [|lia].
  destruct restart; [left; apply Hok, Hp|]. by destruct Hp as [-> ->].
Qed.

End Rounds.

(** ** Replaying a part *)

Lemma replay_part fuel : forall st logs id opss, node st logs id -> Forall2 log_of (behind id logs) opss -> exists x k st',
  handleReplication fuel st = (Ret x, st') /\ (k <= length opss)%nat /\ node st' logs (id + Z.of_nat k) /\ store st' = apply_ops (concat (take k opss)) (store st) /\ readonly st' = readonly st.
Proof using LS.
  induction fuel as [|fuel IH]; intros st logs id opss Hn HF.
  { exists None, 0%nat, st. split; [done|]. split; [lia|]. by rewrite Z.add_0_r, take_0. }
  pose proof Hn as [Hhe (x & Hx & Hr & Hid & Hf & Hrec) Hw]. pose proof (rep_chain _ _ Hr) as Hc. subst id.
  destruct (NextNeedCommitLog_ok x logs Hr Hw) as (s1 & E1 & Hr1). cbn [handleReplication]. unfold mbind at 1, M_bind at 1. rewrite (on_rpl_run _ _ x _ st Hx E1). set (st1 := with_r _ st).
  assert (Hn1 : node st1 logs (commitID x)) by (split; [done| |done]; eexists; split; [done|]; done). destruct (behind (commitID x) logs) as [|l rest] eqn:Eb.
  - eexists _, 0%nat, st1. split; [done|]. split; [lia|]. by rewrite Z.add_0_r, take_0.
  - inversion HF as [|? ops ? opss' Hl HF']; subst. destruct (replay_log_node st1 logs (commitID x) l rest ops Hn1 Eb Hl) as (st2 & E2 & Hn2 & Hs2 & Hro2).
    unfold mbind, M_bind. rewrite E2. destruct (behind_cons _ _ _ _ Hc Hw Eb) as (_ & _ & Hw' & Eb').
    destruct (IH st2 logs (commitID x + 1) opss' Hn2) as (y & k & st3 & E3 & Hk & Hn3 & Hs3 & Hro3); [by rewrite Eb'|].
    exists y, (S k), st3. split; [done|]. split; [simpl; lia|]. split; [by replace (commitID x + Z.of_nat (S k)) with (commitID x + 1 + Z.of_nat k) by lia|]. split; [|by rewrite Hro3, Hro2].
    cbn [take concat]. rewrite apply_ops_app, Hs3. by rewrite Hs2.
Qed.

Lemma replay_slave_part fuel a H logsH q : history H logsH -> slave_at a H logsH q -> exists x st,
  handleReplication fuel (ra_ledis a) = (Ret x, st) /\ slave_at (set_ledis st a) H logsH q.
Proof using LS.
  intros Hh (p & c & Hc & Hq & Hr & Hs & Hro & Hd). pose proof (behind_range H logsH p q c Hh Hc Hq) as EB. destruct (take (q - p) (drop p logsH)) as [|l logs] eqn:El.
  - destruct fuel as [|fuel]; [exists None, (ra_ledis a); split; [done|]; exists p, c; cbn [set_ledis ra_ledis ra_dump]; by rewrite El|].
    destruct (replay_replica (S fuel) _ _ _ [] Hr) as (st & E & Hr' & Hs' & Hro'); [done|simpl; lia|]. eexists _, st. split; [exact E|]. exists p, c. cbn [set_ledis ra_ledis ra_dump]. rewrite El.
    split; [done|]. split; [done|]. split; [done|]. split; [by rewrite Hs'|]. split; [congruence|done].
  - destruct (replay_part fuel _ _ _ (take (q - c) (drop c H)) (replica_node _ _ _ Hr ltac:(done))) as (x & k & st & E & Hk & Hn & Hs' & Hro').
    { rewrite EB. apply Forall2_take, Forall2_drop, (hi_logs _ _ Hh). }
    rewrite length_take, length_drop in Hk. eexists x, st. split; [exact E|]. exists p, (c + k)%nat. cbn [set_ledis ra_ledis ra_dump]. rewrite El. split; [lia|]. split; [done|].
    split; [apply node_replica; by replace (Z.of_nat (c + k)) with (Z.of_nat c + Z.of_nat k) by lia|]. split; [|split; [congruence|done]].
    rewrite (contents_step H c (c + k)) by lia. rewrite Hs', Hs. rewrite take_take. by replace (k `min` (q - c))%nat with (c + k - c)%nat by lia.
Qed.

(** ** Commits and purges of the master *)

Lemma contents_app H ops i : (i <= length H)%nat -> contents (H ++ [ops]) i = contents H i.
Proof using. intros Hi. unfold contents. by rewrite take_app_le. Qed.

Lemma contents_snoc H ops i : (length H < i)%nat -> contents (H ++ [ops]) i = apply_ops ops (contents H (length H)).
Proof using.
  intros Hi. unfold contents. rewrite take_ge by (rewrite length_app; simpl; lia). rewrite firstn_all, concat_app, apply_ops_app. cbn [concat]. by rewrite app_nil_r.
Qed.

Lemma dump_app H ops i data : dump_at H i data -> dump_at (H ++ [ops]) i data.
Proof using. intros (ds & Hi & -> & HF). exists ds. split; [rewrite length_app; lia|]. by rewrite contents_app. Qed.

Lemma slave_app a H logsH ops l q : length logsH = length H -> slave_at a H logsH q -> slave_at a (H ++ [ops]) (logsH ++ [l]) q.
Proof using.
  intros HL (p & c & Hc & Hq & Hr & Hs & Hro & Hd). exists p, c. split; [done|]. split; [rewrite length_app; lia|]. rewrite contents_app by lia.
  rewrite drop_app_le, take_app_le by (rewrite ?length_drop; lia). done.
Qed.

Lemma history_app H logsH ops l : history H logsH -> log_of l ops -> wf_log l -> ID l = len H + 1 -> len H + 1 < 2 ^ 60 -> fits_dump (apply_ops ops (contents H (length H))) ->
  history (H ++ [ops]) (logsH ++ [l]).
Proof using.
  intros Hh Hl Hw Hi Hb Hf. pose proof (history_length _ _ Hh) as HL. destruct Hh as [H1 [H2 H2'] H3 H4]. split.
  - by apply Forall2_app; [|constructor; [|constructor]].
  - split; [apply Forall_app; by split; [|constructor]|]. intros i l' E. apply lookup_app_Some in E as [E|[Hge E]]; [by apply H2'|].
    apply list_lookup_singleton_Some in E as [Ez <-]. lia.
  - rewrite length_app. simpl. lia.
  - intros i. destruct (decide (i <= length H)%nat); [rewrite contents_app by done; apply H4|by rewrite contents_snoc by lia].
Qed.

(** A commit. *)
Lemma commit_master a H logsH j ops : history H logsH -> master_inv a H logsH j -> fits_log (drv_Data ops) -> len H + 1 < 2 ^ 60 ->
  exists l st, handleCommit ops (ra_ledis a) = (Ret None, st) /\ (fits_dump (store st) -> history (H ++ [ops]) (logsH ++ [l])) /\ master_inv (set_ledis st a) (H ++ [ops]) (logsH ++ [l]) j.
Proof using YS LS DS.
  intros Hh HM Hf Hb. pose proof (history_length _ _ Hh) as HL. pose proof HM as [M1 M2 M3 M4 M5 M6 M7].
  assert (EL : last_id (drop j logsH) = len H).
  { destruct M2 as [Hj|[Hl ->]]; [by apply (part_last H)|]. rewrite Hl in HL |- *. destruct H; [done|simpl in HL; lia]. }
  assert (Hn : node (ra_ledis a) (drop j logsH) (last_id (drop j logsH))) by (by rewrite EL).
  destruct (handleCommit_node (ra_ledis a) (drop j logsH) ops Hn ltac:(lia) Hf) as (l & st & E & Hn' & Hl & HI & Hs & _).
  rewrite last_snoc_id, EL in HI. assert (Hw : wf_log l) by (destruct Hn' as [_ (x & _ & Hr & _) _]; destruct (rep_chain _ _ Hr) as [HW _]; apply Forall_app in HW as [_ HW]; by inversion HW).
  exists l, st. split; [done|]. split; [intros Hd; apply history_app; [done..|]; by rewrite <- M3, <- Hs|]. assert (Hj : (j <= length logsH)%nat) by (destruct M2 as [|[_ ->]]; lia).
  split; cbn [set_ledis ra_ledis ra_snap ra_clients ra_clock]; [| | |done| |done|done].
  - rewrite drop_app_le by done. rewrite last_snoc_id, HI in Hn'. by replace (len (H ++ [ops])) with (len H + 1) by (rewrite length_app; simpl; lia).
  - left. rewrite length_app. simpl. lia.
  - rewrite Hs, M3, contents_snoc by (rewrite length_app; simpl; lia). done.
  - intros name data Hin Hda. destruct (M5 name data Hin Hda) as [i Hi]. exists i. by apply dump_app.
Qed.

(** A purge that leaves a log. *)
Lemma purge_master a H logsH j now days st id st2 : history H logsH -> master_inv a H logsH j -> 0 < days -> on_rpl (run_purge now days) (ra_ledis a) = (Ret None, st) ->
  on_rpl FirstLogID st = (Ret (id, None), st2) -> id <> InvalidLogID -> exists j', master_inv (set_ledis st a) H logsH j'.
Proof using FR.
  intros Hh HM Hdays E EF Hid. pose proof (history_length _ _ Hh) as HL. pose proof HM as [[Hhe (x & Hx & Hr & Hc & Hf & Hrec) Hw] M2 M3 M4 M5 M6 M7].
  destruct (Purge_ok _ _ now (days * 24 * 3600) Hr ltac:(lia)) as (k & s' & EP & Hr'). rewrite drop_drop in Hr'.
  unfold run_purge in E. rewrite (on_rpl_run _ _ x _ (ra_ledis a) Hx (on_store_run _ _ _ _ EP)) in E. injection E as <-. set (x' := mkRpl s' (commitID x) (commitLog x)) in *.
  destruct (FirstID_ok _ _ Hr') as (s2 & E1 & _). rewrite (on_rpl_run FirstLogID _ x' _ (with_r (B := repl_backend) (Some x') (ra_ledis a)) eq_refl (on_store_run _ _ _ x' E1)) in EF. injection EF as <- _.
  assert (Hj : (j + k < length logsH)%nat).
  { destruct (decide (j + k < length logsH)%nat); [done|]. by rewrite drop_ge in Hid by lia. }
  exists (j + k)%nat. split; cbn [set_ledis ra_ledis ra_snap ra_clients ra_clock]; [|by left|done|done|done|done|done].
  split; [done| |apply (part_within H); [done|done|lia]]. exists x'. done.
Qed.

(** * The cluster *)

(** The batches committed so far, where the slave is, and both servers. *)
Record cluster := mkCluster { cl_done : list (list BatchOp); cl_pc : repl_pc; cl_slave : RApp; cl_link : link }.

Definition with_master (a : RApp) (w : link) : link := mkLink a (lk_pending w) (lk_faults w).
Definition set_clock (t : Z) (e : Env) (a : RApp) : RApp :=
  mkRApp (with_env e (ra_ledis a)) (ra_SlaveOf a) (ra_clients a) (ra_slaves a) (ra_acks a) (ra_snap a) (ra_m a) (ra_dump a) t.
Definition set_quit (a : RApp) : RApp := let m := ra_m a in set_m (mkMaster (m_addr m) (m_state m) true (m_conn m) (m_running m)) a.

(** What can happen: the master commits a batch, purges its log, its clock changes; the
    network changes; the slave goes through a round, with or without the option restart,
    replays some of its logs, or is told to quit. *)
Inductive cstep : cluster -> cluster -> Prop :=
| cs_commit H pc a w ops st : fits_log (drv_Data ops) -> len H + 1 < 2 ^ 60 -> handleCommit ops (ra_ledis (lk_master w)) = (Ret None, st) -> fits_dump (store st) ->
    cstep (mkCluster H pc a w) (mkCluster (H ++ [ops]) pc a (with_master (set_ledis st (lk_master w)) w))
| cs_purge H pc a w now days st id st2 : 0 < days -> on_rpl (run_purge now days) (ra_ledis (lk_master w)) = (Ret None, st) ->
    on_rpl FirstLogID st = (Ret (id, None), st2) -> id <> InvalidLogID ->
    cstep (mkCluster H pc a w) (mkCluster H pc a (with_master (set_ledis st (lk_master w)) w))
| cs_clock H pc a w t e : tf_ok t -> cstep (mkCluster H pc a w) (mkCluster H pc a (with_master (set_clock t e (lk_master w)) w))
| cs_network H pc a w fs : cstep (mkCluster H pc a w) (mkCluster H pc a (mkLink (lk_master w) (lk_pending w) fs))
| cs_round H pc a w restart pc' a' w' : runReplication restart pc (a, w) = (Ret pc', (a', w')) -> cstep (mkCluster H pc a w) (mkCluster H pc' a' w')
| cs_replay H pc a w fuel x st : handleReplication fuel (ra_ledis a) = (Ret x, st) -> cstep (mkCluster H pc a w) (mkCluster H pc (set_ledis st a) w)
| cs_quit H pc a w : cstep (mkCluster H pc a w) (mkCluster H pc (set_quit a) w).

Definition cluster_inv (c : cluster) : Prop := exists logsH j q, history (cl_done c) logsH /\ master_inv (lk_master (cl_link c)) (cl_done c) logsH j /\
  slave_at (cl_slave c) (cl_done c) logsH q /\ (cl_pc c = RSync -> m_conn (ra_m (cl_slave c)) = true).

(** A master and a slave that hold nothing yet. *)
Definition fresh_cluster (c : cluster) : Prop :=
  cl_done c = [] /\ cl_pc c = RConnect /\ (let a := lk_master (cl_link c) in node (ra_ledis a) [] 0 /\ store (ra_ledis a) = ∅ /\ ra_snap a = mkSnaps ∅ [] /\
    (exists x host port, ra_clients a !! me = Some x /\ SplitHostPort (rc_remoteAddr x) = inl (host, port)) /\ tf_ok (ra_clock a)) /\
  (let a := cl_slave c in node (ra_ledis a) [] 0 /\ store (ra_ledis a) = ∅ /\ readonly (ra_ledis a) = true /\ ra_dump a = []).

Lemma fits_empty : fits_dump ∅.
Proof using. intros k v Hkv. by rewrite lookup_empty in Hkv. Qed.

Lemma fresh_inv c : fresh_cluster c -> cluster_inv c.
Proof using LS.
  intros (E1 & E2 & (N1 & S1 & Sn & Cl & Ck) & (N2 & S2 & Ro & Du)). exists [], 0%nat, 0%nat. rewrite E1, E2. split; [|split; [|split; [|done]]].
  - split; [constructor|split; [constructor|done]|done|intros i; unfold contents; rewrite take_nil; apply fits_empty].
  - split; [done|by right|done|intros name _; by rewrite Sn|intros name data Hin; rewrite Sn in Hin; by apply not_elem_of_nil in Hin|done|done].
  - exists 0%nat, 0%nat. split; [lia|]. split; [done|]. split; [by apply node_replica|]. done.
Qed.

Lemma cstep_inv c c' : cluster_inv c -> cstep c c' -> cluster_inv c'.
Proof using NS YS TS FR DS.
  intros (logsH & j & q & Hh & HM & HS & Hpc) HC. destruct HC as [H pc a w ops st Hf Hb E Hd|H pc a w now days st id st2 Hdays E EF Hid|H pc a w t e Ht|H pc a w fs|H pc a w restart pc' a' w' E|H pc a w fuel x st E|H pc a w];
    cbn [cl_done cl_pc cl_slave cl_link with_master lk_master] in *.
  - destruct (commit_master _ H logsH j ops Hh HM Hf Hb) as (l & st' & E' & Hh' & HM'). rewrite E in E'. injection E' as <-. exists (logsH ++ [l]), j, q.
    split; [by apply Hh'|]. split; [done|]. split; [|done]. apply slave_app; [by eapply history_length|done].
  - destruct (purge_master _ _ _ _ _ _ _ _ _ Hh HM Hdays E EF Hid) as [j' HM']. by exists logsH, j', q.
  - exists logsH, j, q. split; [done|]. split; [|done]. destruct HM as [[N1 N2 N3] M2 M3 M4 M5 M6 M7]. by split.
  - by exists logsH, j, q.
  - destruct (round_ok H logsH j false (fun _ => False) Hh false false q (m_quit (ra_m a)) restart pc (a, w)) as (x & s' & E' & q' & g' & conn & [(HS' & _ & Hconn) (HM' & _)] & Hc').
    { exists (m_conn (ra_m a)). done. }
    rewrite E in E'. injection E' as <- <-. exists logsH, j, q'. split; [done|]. split; [done|]. split; [done|]. intros Hp. transitivity conn; [exact Hconn|by apply Hc'].
  - destruct (replay_slave_part fuel a H logsH q Hh HS) as (y & st' & E' & HS'). rewrite E in E'. injection E' as <- <-. by exists logsH, j, q.
  - by exists logsH, j, q.
Qed.

Lemma reach_inv c c' : cluster_inv c -> rtc cstep c c' -> cluster_inv c'.
Proof using NS YS TS FR DS. intros HI HR. induction HR as [|c1 c2 c3 HC HR IH]; [done|]. apply IH. by eapply cstep_inv. Qed.

(** What the invariant says. *)
Lemma inv_contents c : cluster_inv c -> store (ra_ledis (lk_master (cl_link c))) = contents (cl_done c) (length (cl_done c)) /\
  exists i, (i <= length (cl_done c))%nat /\ commit_of (ra_ledis (cl_slave c)) = Z.of_nat i /\ store (ra_ledis (cl_slave c)) = contents (cl_done c) i.
Proof using.
  intros (logsH & j & q & Hh & HM & (p & i & Hi & Hq & Hr & Hs & _) & _). split; [apply HM|]. exists i. split; [lia|]. split; [|done].
  destruct Hr as [_ (x & Hx & _ & Hc & _) _ _]. unfold commit_of. by rewrite Hx.
Qed.

Lemma inv_round c restart : cluster_inv c -> exists pc s, runReplication restart (cl_pc c) (cl_slave c, cl_link c) = (Ret pc, s).
Proof using NS YS TS FR DS.
  intros (logsH & j & q & Hh & HM & HS & Hpc). destruct (round_ok (cl_done c) logsH j false (fun _ => False) Hh false false q (m_quit (ra_m (cl_slave c))) restart (cl_pc c) (cl_slave c, cl_link c))
    as (x & s' & E' & _); [by exists (m_conn (ra_m (cl_slave c)))|]. by exists x, s'.
Qed.


(** ** Catching up *)

Lemma catch_up c logsH j q restart : history (cl_done c) logsH -> master_inv (lk_master (cl_link c)) (cl_done c) logsH j -> slave_at (cl_slave c) (cl_done c) logsH q ->
  cl_pc c <> RQuit -> (cl_pc c = RSync -> m_conn (ra_m (cl_slave c)) = true) -> m_quit (ra_m (cl_slave c)) = false -> lk_faults (cl_link c) = [] -> accepted ->
  (j <= q)%nat \/ serves true (fun i => (j <= i)%nat) (lk_master (cl_link c)) (cl_done c) ->
  (cl_pc c = RConnect -> restart = true -> serves true (fun i => (j <= i)%nat) (lk_master (cl_link c)) (cl_done c)) ->
  exists a w st, rounds (length (cl_done c) + 2) restart (cl_pc c) (cl_slave c, cl_link c) = (Ret RSync, (a, w)) /\
  handleReplication (S (length (cl_done c))) (ra_ledis a) = (Ret (Some None), st) /\ store st = contents (cl_done c) (length (cl_done c)) /\
  store (ra_ledis (lk_master w)) = contents (cl_done c) (length (cl_done c)).
Proof using NS YS TS FR.
  set (H := cl_done c). intros Hh HM HS Hpc Hconn Hq Hf Ha Hg Hr. set (ok := fun i => (j <= i)%nat) in *.
  assert (exists g : bool, ((j <= q)%nat \/ g = true) /\ (cl_pc c = RConnect -> restart = true -> g = true) /\ (g = true -> serves true ok (lk_master (cl_link c)) H)) as (g & Hg1 & Hg2 & Hg3).
  { destruct Hg as [Hg|Hg]; [|exists true; split_and!; auto]. destruct restart; [|exists false; split_and!; auto; done].
    destruct (cl_pc c); [exists true; split_and!; auto|exists false; split_and!; auto; done..]. }
  destruct (rounds_all H logsH j true ok Hh restart (cl_pc c) q g ltac:(done) Ha Hpc Hg1 Hg2 (cl_slave c, cl_link c)) as (x & [a w] & E & -> & g' & conn & [(HS' & _) (HM' & _)] & _).
  { exists (m_conn (ra_m (cl_slave c))). split; [|done]. split; [done|]. split; [done|]. split; [by intros _|done]. }
  cbn [fst snd] in *. destruct (replay_slave (S (length H)) a H logsH (length H) Hh HS' ltac:(lia)) as (st & E2 & _ & Hst). unfold on_ldb in E2.
  destruct (handleReplication (S (length H)) (ra_ledis a)) as [o st2] eqn:E3. injection E2 as -> Est. exists a, w, st2. split; [done|]. split; [done|].
  split; [|apply HM']. by subst st2.
Qed.

(** ** Where a slave does not get on *)

(** With a snapshot that is young enough and older than the first log, the slave is sent it
    at every sync. *)
Lemma stuck c logsH j q restart n : history (cl_done c) logsH -> master_inv (lk_master (cl_link c)) (cl_done c) logsH j -> slave_at (cl_slave c) (cl_done c) logsH q -> (q < j)%nat ->
  cl_pc c = RSync -> m_conn (ra_m (cl_slave c)) = true -> m_quit (ra_m (cl_slave c)) = false -> lk_faults (cl_link c) = [] ->
  serves false (fun i => (i < j)%nat) (lk_master (cl_link c)) (cl_done c) ->
  exists a w, rounds n restart RSync (cl_slave c, cl_link c) = (Ret RSync, (a, w)) /\ commit_of (ra_ledis a) < Z.of_nat j <= commit_of (ra_ledis (lk_master w)).
Proof using NS YS TS FR.
  set (H := cl_done c). intros Hh HM HS Hq Hpc Hconn Hqu Hf Hs. set (ok := fun i => (i < j)%nat) in *.
  destruct (rounds_stale H logsH j false ok Hh n restart q eq_refl ltac:(done) Hq (cl_slave c, cl_link c)) as (x & [a w] & E & -> & q' & Hq' & conn & [(HS' & _) (HM' & _)] & _).
  { exists true. split; [|done]. split; [done|]. split; [done|]. split; [by intros _|done]. }
  cbn [fst snd] in *. exists a, w. split; [done|]. rewrite (master_commit _ _ _ _ HM'). pose proof (history_length _ _ Hh).
  destruct HS' as (p & i & Hi & _ & Hr & _). destruct Hr as [_ (y & Hy & _ & Hc & _) _ _]. unfold commit_of. rewrite Hy, Hc. destruct (mi_first _ _ _ _ HM') as [|[_ ->]]; lia.
Qed.

(** A sync after the connection was closed is a nil dereference. *)
Lemma closed_panics a w restart id a' : m_conn (ra_m a) = false -> nextSyncLogID a = (Ret (inl id), a') -> (runReplication restart RSync (a, w)).1 = Panic.
Proof using.
  intros Hc E. cbn [runReplication]. unfold sync, on_conn, mbind, SM_bind, here. rewrite E. cbv iota beta. unfold ask.
  assert (Em : ra_m a' = ra_m a); [|by rewrite Em, Hc]. unfold nextSyncLogID, mbind, SM_bind, on_ldb in E. destruct (ReplicationStat (ra_ledis a)) as [[s|] st]; [|done]. unfold mret, SM_ret in E. by injection E as _ <-.
Qed.

(** The rest of a longer master.dump is loaded too. *)
Lemma leftover_loaded st i es ds es2 ds2 old : healthy (ldb st) -> log_clears st -> 0 <= i < 2 ^ 64 -> Forall2 encodes es ds -> Forall2 encodes es2 ds2 ->
  let data := head_Write (mkDumpHead i) ++ concat ds in length old = length data ->
  exists st', LoadDump (write_at (old ++ concat ds2) 0 data) st = (Ret (inl (mkDumpHead i)), st') /\ store st' = apply_ops (puts (es ++ es2)) ∅.
Proof using YS LS.
  intros Hhe Hc Hi H1 H2 data Hl. assert (EW : write_at (old ++ concat ds2) 0 data = head_Write (mkDumpHead i) ++ concat (ds ++ ds2)).
  { unfold write_at. assert (zeros (0 - len (old ++ concat ds2)) = []) as -> by (unfold zeros; by replace (Z.to_nat _) with 0%nat by lia).
    cbn [Z.to_nat take app]. rewrite Nat.add_0_l, drop_app_length' by done. unfold data. rewrite concat_app. by rewrite <- app_assoc. }
  rewrite EW. destruct (LoadDump_ok (es ++ es2) (ds ++ ds2) i st ltac:(by apply Forall2_app) Hi Hhe Hc) as (st' & E & Hs & _). by exists st'.
Qed.

End Cluster.

(** * Properties *)

Section Results.
Context {I : IDB} {IS : IDBSpec I} {N : SnapshotDB I} {NS : SnapshotSpec I N} {C : RplConfig} {Y : Snappy} {YS : SnappySpec Y}.
Context {L : LogStore} {LS : LogStoreSpec L} {FR : FreshLogStore L} {D : BatchData} {DS : BatchDataSpec I D}.
Context {F : TimeFormat} {TS : TimeFormatSpec F} {P : SortPkg} {SC : SnapConfig} {Cfg : ServerConfig} {T : ErrorText} {MO : MapOrder}.
#[local] Existing Instance repl_backend | 0.
Abbreviation store st := (model (ldb (B := repl_backend) st)).




End Results.

(** ** Examples

    Both servers in memory, with their logs in files; the master listens on the port 6380. *)

#[local] Existing Instances mem_snapshots mem_snapshots_spec ex_config ex_snappy ex_snappy_spec mem_batch_data mem_batch_data_spec.
#[local] Existing Instances ex_sort ex_sort_spec ex_files file_log_store ex_time ex_time_spec ex_snaps.
#[local] Instance ex_spec : IDBSpec GoLevelDB.idb := goleveldb_spec MemLevelDB MemLevelDBSpec.
#[local] Instance ex_fresh : FreshLogStore file_log_store := file_store_fresh (C := ex_files) ltac:(done).
#[local] Instance ex_server : ServerConfig :=
  {| cfg_Addr := str "127.0.0.1:6381"; cfg_MasterPassword := []; cfg_ExpiredLogDays := 7; cfg_Sync := false; cfg_WaitMaxSlaveAcks := 0 |}.
#[local] Instance ex_messages : ErrorText := {| num_error_text arg _ := arg; db_error_text err := match err with ErrLogMissed => str "log is pured in server" | _ => str "error" end |}.

Definition ex_state (ro : bool) : St (B := repl_backend (I := GoLevelDB.idb) (L := file_log_store)) :=
  mkSt (B := repl_backend (I := GoLevelDB.idb) (L := file_log_store)) (mkMem ∅ false) ro
    (Some (mkRpl (L := file_log_store) ex_empty_store 0 (mkFile [] false))) false [] no_ops env0.

Definition ex_app (ro : bool) (clients : gmap nat rclient) : RApp :=
  mkRApp (ex_state ro) [] clients ∅ [] (mkSnaps ∅ []) (mkMaster (str "127.0.0.1:6380") replConnectState false false (Some false)) [] 1.

Definition ex_master : RApp := ex_app false {[me := mkRC (str "127.0.0.1:5000") [] 0 []]}.
Definition ex_cluster : cluster := mkCluster [] RConnect (ex_app true ∅) (mkLink ex_master None []).

Lemma ex_state_node ro : node (ex_state ro) [] 0.
Proof. split; [done| |done]. eexists. split; [done|]. split; [apply ex_empty_rep|]. split; [done|]. split; [done|]. exists 0. by right. Qed.

Lemma ex_cluster_fresh : fresh_cluster ex_cluster.
Proof.
  split; [done|]. split; [done|]. split; cbv zeta.
  - split; [apply ex_state_node|]. split; [done|]. split; [done|]. split; [|done]. eexists _, _, _. split; [apply lookup_singleton_eq|]. by vm_compute.
  - split; [apply ex_state_node|done].
Qed.

Lemma ret_eq {S A} (p : SM S A) (s : S) (x : A) : (p s).1 = Ret x -> p s = (Ret x, (p s).2).
Proof. intros E. rewrite <- E. by destruct (p s). Qed.

(** The steps as functions. *)
Definition ex_commit (ops : list BatchOp) (c : cluster) : cluster :=
  let w := cl_link c in mkCluster (cl_done c ++ [ops]) (cl_pc c) (cl_slave c) (with_master (set_ledis (handleCommit ops (ra_ledis (lk_master w))).2 (lk_master w)) w).
Definition ex_purge (now days : Z) (c : cluster) : cluster :=
  let w := cl_link c in mkCluster (cl_done c) (cl_pc c) (cl_slave c) (with_master (set_ledis (on_rpl (run_purge now days) (ra_ledis (lk_master w))).2 (lk_master w)) w).
Definition ex_later (t e : Z) (c : cluster) : cluster :=
  let w := cl_link c in mkCluster (cl_done c) (cl_pc c) (cl_slave c) (with_master (set_clock t (mkEnv e 200 ∅ []) (lk_master w)) w).
Definition ex_round (restart : bool) (c : cluster) : cluster :=
  match runReplication restart (cl_pc c) (cl_slave c, cl_link c) with
  | (Ret pc, s) => mkCluster (cl_done c) pc s.1 s.2
  | (Panic, s) => c
  end.
Definition ex_replay (c : cluster) : cluster :=
  mkCluster (cl_done c) (cl_pc c) (set_ledis (handleReplication 10 (ra_ledis (cl_slave c))).2 (cl_slave c)) (cl_link c).

Definition ex_put (n : Z) : list BatchOp := [OpPut [n] [n]].

(** They are steps. *)
Definition ex_small (m : gmap bytes bytes) : bool := forallb (fun kv => (len kv.1 <? 2 ^ 16) && (len kv.2 <? 2 ^ 32)) (map_to_list m).

Lemma ex_small_fits m : ex_small m = true -> fits_dump m.
Proof.
  intros Hs k v Hkv. unfold ex_small in Hs. rewrite forallb_forall in Hs. specialize (Hs (k, v)). cbn [fst snd] in Hs.
  assert (Hin : In (k, v) (map_to_list m)) by (by apply list_elem_of_In, elem_of_map_to_list). apply Hs, andb_true_iff in Hin as [H1 H2]. zify_bool. split; by intros x [= <-].
Qed.

Lemma ex_commit_step n c : len (cl_done c) < 100 -> (handleCommit (ex_put n) (ra_ledis (lk_master (cl_link c)))).1 = Ret None ->
  ex_small (model (ldb (ra_ledis (lk_master (cl_link (ex_commit (ex_put n) c)))))) = true -> cstep c (ex_commit (ex_put n) c).
Proof.
  intros Hl E Hs. destruct c as [H pc a w]. apply (cs_commit H pc a w (ex_put n)); [|cbn in Hl; lia|by apply ret_eq|by apply ex_small_fits].
  by intros c [= <-].
Qed.

Lemma ex_round_step restart c pc : (runReplication restart (cl_pc c) (cl_slave c, cl_link c)).1 = Ret pc -> cstep c (ex_round restart c).
Proof.
  intros E. destruct c as [H p a w]. unfold ex_round. cbn [cl_done cl_pc cl_slave cl_link] in *. apply ret_eq in E. rewrite E. apply (cs_round _ _ _ _ restart). rewrite E. by destruct (_.2).
Qed.

Lemma ex_replay_step c x : (handleReplication 10 (ra_ledis (cl_slave c))).1 = Ret x -> cstep c (ex_replay c).
Proof. intros E. destruct c as [H p a w]. apply (cs_replay _ _ _ _ 10 x). by apply ret_eq. Qed.

Lemma ex_later_step t e c : 0 <= t < 10 ^ 20 -> cstep c (ex_later t e c).
Proof. intros Ht. destruct c as [H p a w]. by apply cs_clock. Qed.

Lemma ex_purge_step now days c id : 0 < days -> (on_rpl (run_purge now days) (ra_ledis (lk_master (cl_link c)))).1 = Ret None ->
  (on_rpl FirstLogID (ra_ledis (lk_master (cl_link (ex_purge now days c))))).1 = Ret (id, None) -> id <> InvalidLogID -> cstep c (ex_purge now days c).
Proof. intros Hd E E2 Hid. destruct c as [H p a w]. eapply (cs_purge _ _ _ _ now days _ id); [done|by apply ret_eq|by apply ret_eq|done]. Qed.

(** A batch that the slave gets. *)
Definition ex_followed : cluster := ex_replay (ex_round false (ex_round false (ex_commit (ex_put 1) ex_cluster))).

Lemma ex_followed_steps : rtc cstep ex_cluster ex_followed.
Proof.
  eapply rtc_l; [apply (ex_commit_step 1); by vm_compute|]. eapply rtc_l; [eapply (ex_round_step false); by vm_compute|].
  eapply rtc_l; [eapply (ex_round_step false); by vm_compute|]. eapply rtc_l; [eapply ex_replay_step; by vm_compute|]. apply rtc_refl.
Qed.



(** The slave is at commit 1, by the snapshot of that commit; the master has purged the logs 1
    and 2 of its five. *)
Definition ex_stale : cluster :=
  ex_purge 100100 1 (ex_commit (ex_put 5) (ex_commit (ex_put 4) (ex_commit (ex_put 3)
    (ex_later 2 100100 (ex_commit (ex_put 2) (ex_round true (ex_commit (ex_put 1) ex_cluster))))))).

Lemma ex_stale_steps : rtc cstep ex_cluster ex_stale.
Proof.
  eapply rtc_l; [apply (ex_commit_step 1); by vm_compute|]. eapply rtc_l; [eapply (ex_round_step true); by vm_compute|].
  eapply rtc_l; [apply (ex_commit_step 2); by vm_compute|]. eapply rtc_l; [by apply (ex_later_step 2 100100)|]. eapply rtc_l; [apply (ex_commit_step 3); by vm_compute|].
  eapply rtc_l; [apply (ex_commit_step 4); by vm_compute|]. eapply rtc_l; [apply (ex_commit_step 5); by vm_compute|].
  eapply rtc_l; [eapply (ex_purge_step 100100 1 _ 3); by vm_compute|]. apply rtc_refl.
Qed.

(** How the ids show in an invariant. *)
Lemma inv_first a H logsH j id : history H logsH -> master_inv a H logsH j -> (on_rpl FirstLogID (ra_ledis a)).1 = Ret (id, None) -> id <> 0 -> id = Z.of_nat j + 1.
Proof.
  intros Hh HM E Hid. destruct (FirstLogID_node _ _ _ (mi_node _ _ _ _ HM)) as (st & E1 & _). rewrite E1 in E. injection E as E. subst id.
  destruct (mi_first _ _ _ _ HM) as [Hj|[Hl _]]; [by apply (part_first H)|]. by rewrite Hl, drop_nil in Hid.
Qed.

Lemma inv_dump H i data id : len H < 2 ^ 60 -> dump_at H i data -> (head_Read data).1 = inl (mkDumpHead id) -> id = Z.of_nat i.
Proof. intros Hl (ds & Hi & -> & _) E. rewrite head_roundtrip in E by lia. by injection E. Qed.

Lemma inv_next a H logsH q id : history H logsH -> slave_at a H logsH q -> (nextSyncLogID a).1 = Ret (inl id) -> id = Z.of_nat q + 1.
Proof. intros Hh HS E. destruct (next_slave a H logsH q Hh HS) as (st & E1 & _). rewrite E1 in E. by injection E. Qed.

Lemma ex_stale_stuck : exists logsH j q, history (cl_done ex_stale) logsH /\ master_inv (lk_master (cl_link ex_stale)) (cl_done ex_stale) logsH j /\
  slave_at (cl_slave ex_stale) (cl_done ex_stale) logsH q /\ j = 2%nat /\ q = 1%nat /\ serves false (fun i => (i < j)%nat) (lk_master (cl_link ex_stale)) (cl_done ex_stale).
Proof.
  destruct (reach_inv _ _ (fresh_inv _ ex_cluster_fresh) ex_stale_steps) as (logsH & j & q & Hh & HM & HS & _). exists logsH, j, q.
  assert (3 = Z.of_nat j + 1) by (apply (inv_first _ _ _ _ 3 Hh HM); by vm_compute). assert (2 = Z.of_nat q + 1) by (apply (inv_next _ _ _ _ 2 Hh HS); by vm_compute).
  split; [done|]. split; [done|]. split; [done|]. split; [lia|]. split; [lia|]. right. set (m := lk_master (cl_link ex_stale)) in *.
  assert (El : last (sn_names (ra_snap m)) = Some (snapshotName 1)) by (by vm_compute). assert (Ed : is_Some (sn_dir (ra_snap m) !! snapshotName 1)) by (vm_compute; by eexists).
  destruct Ed as [data Ed]. destruct (mi_snaps _ _ _ _ HM (snapshotName 1) data) as [i Hi]; [rewrite last_lookup in El; by eapply list_elem_of_lookup_2|done|].
  exists (snapshotName 1), data, i. split; [done|]. split; [done|]. split; [by vm_compute|]. split; [done|].
  assert (1 = Z.of_nat i); [|lia]. apply (inv_dump (cl_done ex_stale) i data 1); [by vm_compute|done|].
  assert (ER : (fun d => (head_Read d).1) <$> (sn_dir (ra_snap m) !! snapshotName 1) = Some (inl (mkDumpHead 1))) by (by vm_compute). rewrite Ed in ER. by injection ER.
Qed.


(** * FLUSHALL *)

(** FLUSHALL on the master, two batches before it and three after it, with a slave that was
    in step with the master. *)
Definition ex_flushed : RApp * RApp :=
  let c := ex_commit (ex_put 2) (ex_commit (ex_put 1) ex_cluster) in
  let c := ex_replay (ex_round false (ex_round false (ex_round false c))) in
  let m := lk_master (cl_link c) in
  let w := with_master (set_ledis (Ledis_flushAll (ra_ledis m)).2 m) (cl_link c) in
  let c := ex_commit (ex_put 5) (ex_commit (ex_put 4) (ex_commit (ex_put 3) (mkCluster [] (cl_pc c) (cl_slave c) w))) in
  let c := ex_replay (ex_round false (ex_round false (ex_round false c))) in
  (cl_slave c, lk_master (cl_link c)).

(** FLUSHALL is not replicated.  It clears the log of the master, whose ids start again,
    and a slave is not told.  As soon as the master has as many logs again as the slave has
    committed, the slave takes the next ones: the two have the same commit id and report
    that they are connected, the slave has kept what was flushed and has never got the first
    batches after it. *)
Lemma flushall_diverges :
  commit_of (ra_ledis ex_flushed.1) = 3 /\ commit_of (ra_ledis ex_flushed.2) = 3 /\ m_state (ra_m ex_flushed.1) = replConnectedState /\
  model (ldb (ra_ledis ex_flushed.1)) = <[ [1] := [1] ]> (<[ [2] := [2] ]> {[ [5] := [5] ]}) /\
  model (ldb (ra_ledis ex_flushed.2)) = <[ [3] := [3] ]> (<[ [4] := [4] ]> {[ [5] := [5] ]}).
Proof. split; [by vm_compute|]. split; [by vm_compute|]. split; [by vm_compute|]. split; by vm_compute. Qed.
